(* ===== verification/_CoqProject ===== *)
-Q . S2P
Prelude.v
Bytes.v
Floats.v
ManagedPtr.v
ArenaRegistry.v
PtrSerde.v
StackValue.v
Ops.v
Instructions.v
Generics.v
FrameAlloc.v
Layout.v
LayoutBuild.v
FrameHomes.v
VmData.v
HomeBuild.v
Interp.v
Sections.v
Exceptions.v
Unwinding.v
Filters.v
Dispatch.v
Stw.v
Pauses.v
PauseRaces.v
Marking.v
Monitors.v
MonitorCalls.v
Statics.v
LockOrder.v
MemoryChecks.v
Memory.v
MemorySafety.v
RawOps.v
Variables.v
Blocks.v
Calls.v
CallLaws.v
Cache.v
Comparer.v
Assignability.v
Subtyping.v
Methods.v
WellKnown.v
Assemblies.v
Locating.v
MethodLookup.v
KindIndependence.v
VirtualDispatch.v
DispatchLaws.v
DispatchCases.v
Cts.v
Boxing.v
ObjectRegistry.v
Finalization.v
