(* ===== verification/Prelude.v ===== *)
(** * A model of the dotnet-rs virtual machine

    dotnet-rs is a virtual machine for .NET assemblies written in Rust; its crates are
    under [src/crates], and the paths below are relative to that directory.  This library
    is a shallow embedding of the parts of it whose behaviour a program depends on, with
    theorems about them.  The main theorems are numbered, C followed by a number, in the
    comments above them.

    ** The program

    An assembly is read by the loader ([dotnet-assemblies]), which finds types and methods
    by name and by metadata token.  The comparer ([dotnet-types]) decides when two types
    are the same and when one is assignable to another, and the resolver
    ([dotnet-runtime-resolver]) decides which method a virtual call runs and how the
    fields of a type are laid out.  A thread executes a method in the interpreter
    ([dotnet-vm]): a stack of frames, an evaluation stack of operands ([dotnet-vm-data],
    [dotnet-value]), handlers for the instructions, and a state machine that searches and
    unwinds when an exception is thrown ([dotnet-exceptions]).  Each thread owns an arena of
    objects.  The arenas are collected together: all threads stop at safe points, mark their
    arenas, exchange the references between arenas until nothing new is marked, and sweep.
    Objects are read and written through checked raw access ([dotnet-runtime-memory]) that
    keeps references whole and records references to other arenas.  Monitors, class
    initialisation and the caches are shared by the threads.

    ** The files

    Numbers, bytes and memory of a frame:
    - [Prelude]: outcomes with errors and panics, machine integers, tactics, shared lemmas;
    - [Bytes], [Floats]: little-endian words, IEEE 754 numbers;
    - [FrameAlloc]: [dotnet-vm-data/src/frame_alloc.rs], [dotnet-utils/src/raw_block.rs];
    - [FrameHomes], [HomeBuild]: [dotnet-vm-data/src/frame_homes.rs] and the homes a method
      body is given by [dotnet-vm/src/frame_homes.rs].
    Values and pointers:
    - [ManagedPtr]: [dotnet-value/src/pointer/mod.rs] and [origin.rs];
    - [ArenaRegistry]: [dotnet-utils/src/gc/cross_arena.rs];
    - [PtrSerde]: [dotnet-value/src/pointer/serde.rs], the reference word of [object/mod.rs];
    - [StackValue]: [dotnet-value/src/stack_value.rs], [cts_cli_conversion.rs];
    - [Layout], [LayoutBuild]: [dotnet-value/src/layout.rs],
      [dotnet-runtime-resolver/src/layout.rs].
    The interpreter:
    - [Ops]: the interfaces of [dotnet-vm-ops/src/ops.rs] as classes with laws;
    - [Instructions]: the operand instructions of [dotnet-vm/src/instructions];
    - [VmData]: [dotnet-vm-data/src/stack.rs] and [exceptions.rs];
    - [Interp], [Dispatch]: [dotnet-vm/src/stack/context.rs], [stack_ops_impl.rs] and
      [dotnet-vm/src/dispatch];
    - [RawOps], [Variables], [Blocks]: access by the origin of a pointer, the locals and
      arguments of a frame, and copies and fills of blocks, of
      [dotnet-vm/src/stack/raw_memory_ops_impl], [stack_ops_impl.rs] and
      [dotnet-vm/src/instructions/memory.rs];
    - [Calls], [CallLaws]: [dotnet-vm/src/stack/call_ops_impl.rs],
      [dotnet-vm/src/instructions/calls.rs] and the invocation of a delegate
      ([dotnet-intrinsics-delegates/src/invoke.rs]);
    - [Cts], [Boxing]: stored values and their operands
      ([dotnet-runtime-resolver/src/factory.rs], [dotnet-value/src/object/types.rs]), and
      boxing and casts ([dotnet-vm/src/instructions/objects]).
    Exceptions ([dotnet-exceptions/src/lib.rs]):
    - [Sections] parses clauses, [Exceptions] is the state machine, [Unwinding] and
      [Filters] prove what it does.
    Collection:
    - [Stw]: the stop-the-world protocol of [dotnet-vm/src/threading/basic.rs] and
      [dotnet-vm/src/gc/coordinator.rs]; [Pauses] its invariants, [PauseRaces] executions in
      which it fails, [Marking] the fixed point over the arenas;
    - [ObjectRegistry], [Finalization]: [dotnet-runtime-memory/src/heap.rs] with the handles of
      [dotnet-vm/src/intrinsics/gc.rs].
    Threads:
    - [Monitors], [MonitorCalls]: [dotnet-vm/src/sync],
      [dotnet-intrinsics-threading/src/monitor.rs];
    - [Statics]: [dotnet-vm/src/statics.rs];
    - [LockOrder]: [dotnet-utils/src/sync/lock_order.rs].
    Memory access ([dotnet-runtime-memory/src], [dotnet-utils/src/atomic.rs]):
    - [MemoryChecks] the checks, [Memory] the accesses, [MemorySafety] the guarantees.
    Types:
    - [Generics]: [dotnet-types/src/generics.rs]; [Comparer], [Assignability], [Subtyping] and
      [Methods]: [dotnet-types/src/comparer.rs] and [members.rs]; [WellKnown]: [wkt.rs];
    - [Assemblies], [Locating], [MethodLookup], [KindIndependence]:
      [dotnet-assemblies/src/loader.rs], [resolution.rs] and [ancestors.rs];
    - [Cache]: [dotnet-vm/src/cache.rs];
    - [VirtualDispatch], [DispatchLaws], [DispatchCases]:
      [dotnet-runtime-resolver/src/methods.rs].

    ** How the code is modelled

    A struct is a [Record], an enum an [Inductive] with the same constructors, a function a
    [Definition] or [Fixpoint] of the same name.  Fallible code gives an [outcome]: a value,
    an error, or a panic (overflow under [overflow-checks], a failed [expect], an index out of
    range).  Machine integers are [Z] with their width written out; [usize] has 64 bits.
    State is passed explicitly.  A critical section or an atomic operation is one step of a
    thread, and threads interleave as one sequence; condition variables wake on notification
    or, where the code waits with a timeout, at any time.  A hash map is a [gmap], or a list of
    entries where its order shows; then the order is a parameter, and may differ from one
    map to the next.  An access outside the
    contract of an unsafe function is [Undefined].

    Code outside of the repository is a parameter: the metadata reader and the disk
    ([Assemblies], [Locating]), the gc-arena library that marks one arena ([Marking]), the
    global allocator ([FrameAlloc]), the standard hasher ([finish] in [Generics]), the LRU map
    ([Cache]), the clock ([MonitorCalls]).  What the theorems use of it is a hypothesis or a
    class, and an instance shows that it can hold.

    Interfaces are classes: [Ops.EvalStackOps] is implemented by a plain list and by the
    interpreter, [Cache.MemoCache] by the two-tier cache, [Comparer.TypeResolver] by the loader
    ([MethodLookup.loader_types], whose laws [KindIndependence] proves).

    ** What is proved

    - Exceptions: the search takes the first handler that applies; unwinding and [leave] run
      each finally and fault block between the throw and its target once, innermost first,
      for blocks that neither throw nor leave; a filter gives back the frames it suspended;
      the state machine terminates.
    - Collection: the assertions of the protocol hold in every interleaving, collections do
      not overlap, commands are served, a pause holds under stated conditions; marking reaches
      exactly the objects reachable over all arenas; a lease keeps the storage of an arena;
      finalization resurrects what it must, and no handle but a dependent one dangles.
    - Memory: serialized pointers and checked writes are read back, writes keep references
      whole, the barrier records exactly the references to other arenas, atomics change their
      slot only; budgets of frames are exact; layouts describe their references exactly; an
      access through the address of a variable neither changes nor reads a byte outside of
      the variables of its frame; the table of objects is the map it stands for.
    - Execution: instructions are typed, panic exactly in the listed cases and do on the
      interpreter what they do on a list; frames tile the evaluation stack through calls, tail
      calls, jumps and constructors; numbers survive storage, operands and boxes; a block copy
      moves its bytes up to where a stop interrupts it.
    - Threads: a class is initialised once and waiting never deadlocks, a monitor is held by
      one thread, which can leave it, monitor calls can be resumed.
    - Types: equality of types is an equivalence that ignores value kinds; assignability is
      decided exactly for targets that are not generic instances; types and methods are found
      exactly where they are declared, the caches change no answer; a virtual call runs the
      nearest implementation where the overrides of a class do not compete.
    - Executions that go wrong are theorems too: a lost race for a sync block, a loader that
      gives two scopes of one assembly, forwarders that never end, overrides chosen by the
      order of a hash map, block copies that corrupt what they move or cannot be resumed,
      frames past the limit, a dependent handle that answers with a freed object, an
      exception lost by a [leave] in a finally block.

    ** Bounds

    Loops that the code leaves unbounded take fuel, and running out of it is [None], apart
    from every result of the code.  Four phases are enough for [handle_exception]
    ([Exceptions.handle_exception_terminates]); marking needs one round more than there are
    objects, the cycle check of the wait graph one step more than it has edges, assignability
    more than the types of the hierarchy ([Subtyping.assignable_exact]), a search by name two
    steps more than the chain of forwarders ([Locating.type_lookup_exact]).  The loop of a
    block copy has fuel for its chunks ([Blocks.chunks]), and values nest as deep as their
    types do ([Cts.new_cts_value]).

    ** Not modelled

    The metadata reader, the file system, the search for an installed runtime and its
    configuration files; the field, array and reflection instructions and the intrinsics of
    the class library (strings, spans, reflection, most of delegates), which are mostly
    sequences of calls into the parts above; native calls; metrics, tracing and formatting; macros and build
    tools; the locks inside the concurrent maps.  Weak memory orders are not distinguished:
    every atomic operation is sequentially consistent.  Generic-constraint validation, which
    the default build leaves out, is left out. *)

From Stdlib Require Import ZArith Lia.
From stdpp Require Import base tactics list gmap strings.

#[global] Open Scope Z_scope.

(** ** Outcomes

    A Rust computation returns a value, returns an error ([Result::Err], an
    [Error] step result), or panics (arithmetic overflow under
    [overflow-checks], [expect] on [None], a failed [assert!], an index out of
    range). *)

Inductive outcome (E A : Type) : Type :=
| Val (a : A)
| Err (e : E)
| Panic.

Arguments Val {E A} a.
Arguments Err {E A} e.
Arguments Panic {E A}.

Definition obind {E A B} (m : outcome E A) (f : A -> outcome E B) : outcome E B :=
  match m with
  | Val a => f a
  | Err e => Err e
  | Panic => Panic
  end.

Definition omap_err {E F A} (g : E -> F) (m : outcome E A) : outcome F A :=
  match m with
  | Val a => Val a
  | Err e => Err (g e)
  | Panic => Panic
  end.

(** [opt.ok_or(e)] and [opt.expect(..)] of the standard library. *)
Definition ok_or {E A} (o : option A) (e : E) : outcome E A :=
  match o with Some a => Val a | None => Err e end.

Definition expect {E A} (o : option A) : outcome E A :=
  match o with Some a => Val a | None => Panic end.

Declare Scope vm_scope.
Delimit Scope vm_scope with vm.
(** A loop that stops at the first error or panic. *)
Fixpoint ofold {E A B} (f : B -> A -> outcome E B) (b : B) (l : list A) : outcome E B :=
  match l with
  | [] => Val b
  | a :: l => obind (f b a) (fun b => ofold f b l)
  end.

(** Loops whose body may fail: one that only checks, one that collects, and one that
    returns the first answer. *)
Section loops.
Context {E A : Type}.

Section check.
Context (f : A -> outcome E unit).
Fixpoint oiter (l : list A) : outcome E unit :=
  match l with
  | [] => Val tt
  | a :: l => obind (f a) (fun _ => oiter l)
  end.
End check.

Section collect.
Context {B : Type} (f : A -> outcome E (list B)).
Fixpoint oflat (l : list A) : outcome E (list B) :=
  match l with
  | [] => Val []
  | a :: l => obind (f a) (fun x => obind (oflat l) (fun y => Val (x ++ y)))
  end.
End collect.

Section first.
Context {B : Type} (f : A -> outcome E (option B)) (otherwise : B).
Fixpoint ofind (l : list A) : outcome E B :=
  match l with
  | [] => Val otherwise
  | a :: l => obind (f a) (fun r => match r with Some b => Val b | None => ofind l end)
  end.
End first.
End loops.

Notation "'let*' x ':=' m 'in' k" := (obind m (fun x => k))
  (at level 10, x pattern, m at level 100, k at level 200) : vm_scope.
Notation "m ';*' k" := (obind m (fun _ => k))
  (at level 100, right associativity) : vm_scope.
#[global] Open Scope vm_scope.

(** ** Machine integers

    A value of a Rust integer type is a [Z] within the bounds of its type.
    [usize] and [isize] are 64 bits wide (the runtime's [ptr] size is 8). *)

Inductive ity : Set := I8 | U8 | I16 | U16 | I32 | U32 | I64 | U64.

Abbreviation isize := I64 (only parsing).
Abbreviation usize := U64 (only parsing).

#[export] Instance ity_eq_dec : EqDecision ity.
Proof. solve_decision. Defined.

Definition bits (t : ity) : Z :=
  match t with I8 | U8 => 8 | I16 | U16 => 16 | I32 | U32 => 32 | I64 | U64 => 64 end.

Definition signed (t : ity) : bool :=
  match t with I8 | I16 | I32 | I64 => true | _ => false end.

Definition int_min (t : ity) : Z := if signed t then - 2 ^ (bits t - 1) else 0.

Definition int_max (t : ity) : Z :=
  if signed t then 2 ^ (bits t - 1) - 1 else 2 ^ bits t - 1.

Definition in_range (t : ity) (x : Z) : bool := (int_min t <=? x) && (x <=? int_max t).

(** The [as] cast and the [wrapping_*] operations. *)
Definition wrap (t : ity) (x : Z) : Z :=
  if signed t then (x + 2 ^ (bits t - 1)) mod 2 ^ bits t - 2 ^ (bits t - 1)
  else x mod 2 ^ bits t.

(** The result of a [checked_*] operation with mathematical result [x]. *)
Definition checked (t : ity) (x : Z) : option Z :=
  if in_range t x then Some x else None.

(** Plain [+], [-], [*] and unary [-]: the crates are built with
    [overflow-checks = true], so an unrepresentable result panics. *)
Definition arith {E} (t : ity) (x : Z) : outcome E Z :=
  if in_range t x then Val x else Panic.

(** [saturating_*] and [as] from a float. *)
Definition saturate (t : ity) (x : Z) : Z := Z.max (int_min t) (Z.min x (int_max t)).

Definition is_range (t : ity) (x : Z) : Prop := int_min t <= x <= int_max t.

(** ** Automation *)

Create HintDb vm discriminated.

Ltac split_match :=
  match goal with
  | |- context [match ?x with _ => _ end] => let E := fresh "E" in destruct x eqn:E
  | H : context [match ?x with _ => _ end] |- _ => let E := fresh "E" in destruct x eqn:E
  end.

Ltac bool_to_prop :=
  repeat match goal with
  | H : (_ && _)%bool = true |- _ => apply andb_true_iff in H; destruct H
  | H : (_ || _)%bool = false |- _ => apply orb_false_iff in H; destruct H
  | H : (_ && _)%bool = false |- _ => apply andb_false_iff in H
  | H : (_ || _)%bool = true |- _ => apply orb_true_iff in H
  | H : negb _ = true |- _ => apply negb_true_iff in H
  | H : negb _ = false |- _ => apply negb_false_iff in H
  | H : (_ <=? _) = true |- _ => apply Z.leb_le in H
  | H : (_ <=? _) = false |- _ => apply Z.leb_gt in H
  | H : (_ <? _) = true |- _ => apply Z.ltb_lt in H
  | H : (_ <? _) = false |- _ => apply Z.ltb_ge in H
  | H : (_ =? _) = true |- _ => apply Z.eqb_eq in H
  | H : (_ =? _) = false |- _ => apply Z.eqb_neq in H
  end.

(** Case analysis over the matches of the goal and hypotheses, with
    discriminable cases closed. *)
Ltac crush_match := repeat (split_match; simplify_eq/=); bool_to_prop.

(** Evaluates the bounds of the concrete integer types. *)
Ltac int_bounds :=
  unfold is_range, int_min, int_max, signed, bits in *;
  repeat match goal with
  | |- context [2 ^ ?n] => let v := eval vm_compute in (2 ^ n) in change (2 ^ n) with v
  | H : context [2 ^ ?n] |- _ =>
      let v := eval vm_compute in (2 ^ n) in change (2 ^ n) with v in H
  end.

(** Linear arithmetic with division and remainder by constants. *)
Ltac dlia := zify; Z.div_mod_to_equations; lia.

(** ** Lemmas on outcomes *)

Lemma obind_val {E A B} (m : outcome E A) (f : A -> outcome E B) b :
  obind m f = Val b <-> exists a, m = Val a /\ f a = Val b.
Proof. destruct m; simpl; split; intros H; [eauto| |done| |done|]; destruct H as (? & ? & ?); congruence. Qed.

(** An invariant of a loop's state, over the elements already consumed. *)
Lemma ofold_inv {E A B} (f : B -> A -> outcome E B) (P : list A -> B -> Prop) l b b' :
  (forall done a rest b b', l = done ++ a :: rest -> P done b -> f b a = Val b' -> P (done ++ [a]) b') ->
  P [] b -> ofold f b l = Val b' -> P l b'.
Proof.
  intros Hstep. assert (Hgen : forall rest done b, l = done ++ rest -> P done b ->
    ofold f b rest = Val b' -> P l b'); [|by apply (Hgen l [])].
  induction rest as [|a rest IH]; intros done b0 -> Hb Hf; simpl in Hf.
  - injection Hf as <-. by rewrite app_nil_r.
  - apply obind_val in Hf as (b1 & Hf1 & Hf2). apply (IH (done ++ [a]) b1); [by rewrite <- app_assoc | | done].
    by eapply Hstep.
Qed.

Lemma obind_assoc {E A B C} (m : outcome E A) (f : A -> outcome E B) (g : B -> outcome E C) :
  obind (obind m f) g = obind m (fun a => obind (f a) g).
Proof. by destruct m. Qed.

Section loops.
Context {E A : Type}.

Lemma oiter_val (f : A -> outcome E unit) l : oiter f l = Val tt <-> forall a, a ∈ l -> f a = Val tt.
Proof.
  induction l as [|a l IH]; simpl; [split; [intros _ a []%elem_of_nil | done]|].
  rewrite obind_val. split.
  - intros ([] & Ha & Hl) b [-> | Hb]%elem_of_cons; [done|]. by apply IH.
  - intros H. exists tt. split; [apply H; by left|]. apply IH. intros b Hb. apply H. by right.
Qed.

Lemma oiter_no_panic (f : A -> outcome E unit) l : (forall a, a ∈ l -> f a <> Panic) -> oiter f l <> Panic.
Proof.
  induction l as [|a l IH]; simpl; intros H; [done|].
  destruct (f a) eqn:Ea; simpl; [|done|by destruct (H a ltac:(by left))]. apply IH. intros. apply H. by right.
Qed.

Lemma oflat_elem {B} (f : A -> outcome E (list B)) l r x :
  oflat f l = Val r -> x ∈ r <-> exists a y, a ∈ l /\ f a = Val y /\ x ∈ y.
Proof.
  revert r. induction l as [|a l IH]; simpl; intros r Hr.
  { injection Hr as <-. split; [by intros ?%elem_of_nil | by intros (a & y & ?%elem_of_nil & _)]. }
  apply obind_val in Hr as (here & Ha & (rest & Hl & [= <-])%obind_val).
  rewrite elem_of_app, (IH _ Hl). split.
  - intros [Hx | (b & y & Hb & Hy & Hx)]; [exists a, here | exists b, y]; rewrite elem_of_cons; auto.
  - intros (b & y & [-> | Hb]%elem_of_cons & Hy & Hx); [left; congruence | right; eauto].
Qed.

Lemma oflat_total {B} (f : A -> outcome E (list B)) l :
  (forall a, a ∈ l -> exists y, f a = Val y) -> exists r, oflat f l = Val r.
Proof.
  induction l as [|a l IH]; simpl; intros H; [eauto|].
  destruct (H a ltac:(by left)) as [x ->]. destruct IH as [y ->]; [intros; apply H; by right|]. simpl. eauto.
Qed.

Lemma ofind_total {B} (f : A -> outcome E (option B)) d l :
  (forall a, a ∈ l -> exists y, f a = Val y) -> exists r, ofind f d l = Val r.
Proof.
  induction l as [|a l IH]; simpl; intros H; [eauto|].
  destruct (H a ltac:(by left)) as [[b|] ->]; simpl; [eauto|]. apply IH. intros. apply H. by right.
Qed.

Lemma ofind_some {B} (f : A -> outcome E (option B)) d l b :
  ofind f d l = Val b -> (exists a, a ∈ l /\ f a = Val (Some b)) \/ b = d /\ forall a, a ∈ l -> f a = Val None.
Proof.
  induction l as [|a l IH]; simpl; intros H.
  { injection H as <-. right. split; [done|]. intros a []%elem_of_nil. }
  apply obind_val in H as ([c|] & Ha & H).
  - injection H as ->. left. exists a. split; [by left | done].
  - destruct (IH H) as [(a' & Ha' & Hf) | [-> Hn]]; [left; exists a'; split; [by right | done]|].
    right. split; [done|]. intros a' [-> | Ha']%elem_of_cons; auto.
Qed.
End loops.

(** ** Lemmas on machine integers *)

Lemma in_range_spec t x : in_range t x = true <-> is_range t x.
Proof. unfold in_range, is_range. rewrite andb_true_iff, !Z.leb_le. done. Qed.

Lemma in_range_false t x : in_range t x = false <-> ~ is_range t x.
Proof. rewrite <- in_range_spec. by destruct (in_range t x). Qed.

Lemma bits_pos t : 8 <= bits t.
Proof. destruct t; simpl; lia. Qed.

Lemma range_width t : int_max t - int_min t + 1 = 2 ^ bits t.
Proof. destruct t; reflexivity. Qed.

Lemma wrap_range t x : is_range t (wrap t x).
Proof.
  unfold wrap. destruct t; int_bounds;
    match goal with |- context [?a mod ?b] => pose proof (Z.mod_pos_bound a b) end; lia.
Qed.

Lemma wrap_mod t x : (wrap t x) mod 2 ^ bits t = x mod 2 ^ bits t.
Proof.
  unfold wrap. destruct (signed t); [|by rewrite Z.mod_mod by (destruct t; done)].
  rewrite Zminus_mod_idemp_l. f_equal. lia.
Qed.

Lemma range_mod_inj t x y :
  is_range t x -> is_range t y -> x mod 2 ^ bits t = y mod 2 ^ bits t -> x = y.
Proof.
  intros Hx Hy H.
  assert (Hd : (x - y) mod 2 ^ bits t = 0) by (rewrite Zminus_mod, H, Z.sub_diag; done).
  apply Z.mod_divide in Hd; [|destruct t; done]. destruct Hd as [k Hk].
  pose proof (range_width t) as Hw. unfold is_range in *. rewrite <- Hw in Hk.
  assert (k = 0) by (destruct (Z.lt_trichotomy k 0) as [|[|]]; nia). nia.
Qed.

Lemma wrap_id t x : is_range t x -> wrap t x = x.
Proof. intros. apply (range_mod_inj t); auto using wrap_range, wrap_mod. Qed.

Lemma wrap_eq_iff t x y : wrap t x = wrap t y <-> x mod 2 ^ bits t = y mod 2 ^ bits t.
Proof.
  split; intros H.
  - by rewrite <- (wrap_mod t x), <- (wrap_mod t y), H.
  - apply (range_mod_inj t); auto using wrap_range. by rewrite !wrap_mod.
Qed.

Lemma wrap_wrap t u x : bits t = bits u -> wrap t (wrap u x) = wrap t x.
Proof. intros H. apply wrap_eq_iff. by rewrite H, wrap_mod. Qed.

Lemma checked_some t x y : checked t x = Some y <-> y = x /\ is_range t x.
Proof.
  unfold checked. destruct (in_range t x) eqn:E;
    [apply in_range_spec in E | apply in_range_false in E]; naive_solver.
Qed.

Lemma arith_val {E} t x y : arith (E:=E) t x = Val y <-> y = x /\ is_range t x.
Proof.
  unfold arith. destruct (in_range t x) eqn:Er;
    [apply in_range_spec in Er | apply in_range_false in Er]; naive_solver.
Qed.

Lemma arith_ok {E} t x : is_range t x -> arith (E:=E) t x = Val x.
Proof. intros H. by apply arith_val. Qed.

Lemma saturate_range t x : is_range t (saturate t x).
Proof.
  unfold saturate, is_range. pose proof (range_width t).
  pose proof (Z.pow_pos_nonneg 2 (bits t)). pose proof (bits_pos t). lia.
Qed.

#[export] Hint Resolve wrap_range saturate_range wrap_id arith_ok : vm.

(** ** Sums over finite maps *)

Section map_sum.
Context {A : Type} (f : A -> Z).

Definition map_sum (m : gmap nat A) : Z := map_fold (fun _ a acc => f a + acc) 0 m.

Lemma map_sum_empty : map_sum ∅ = 0.
Proof. apply map_fold_empty. Qed.

Lemma map_sum_insert m i a : m !! i = None -> map_sum (<[i:=a]> m) = f a + map_sum m.
Proof. intros. apply (map_fold_insert_L (fun _ a acc => f a + acc)); [intros; lia | done]. Qed.

Lemma map_sum_delete m i a : m !! i = Some a -> map_sum m = f a + map_sum (delete i m).
Proof. intros. apply (map_fold_delete_L (fun _ a acc => f a + acc)); [intros; lia | done]. Qed.

Lemma map_sum_update m i a b :
  m !! i = Some a -> map_sum (<[i:=b]> m) = f b - f a + map_sum m.
Proof.
  intros H. rewrite <- insert_delete_eq, map_sum_insert by apply lookup_delete_eq.
  rewrite (map_sum_delete m i a H). lia.
Qed.

Lemma map_sum_nonneg m : (forall i a, m !! i = Some a -> 0 <= f a) -> 0 <= map_sum m.
Proof.
  induction m as [|i a m Hi IH] using map_ind; intros H; [by rewrite map_sum_empty|].
  rewrite map_sum_insert by done.
  pose proof (H i a ltac:(by rewrite lookup_insert_eq)).
  enough (0 <= map_sum m) by lia. apply IH. intros j b Hj. apply (H j b).
  rewrite lookup_insert_ne; [done|congruence].
Qed.

Lemma map_sum_lookup_le m i a :
  (forall i a, m !! i = Some a -> 0 <= f a) -> m !! i = Some a -> f a <= map_sum m.
Proof.
  intros H Hi. rewrite (map_sum_delete m i a Hi).
  enough (0 <= map_sum (delete i m)) by lia. apply map_sum_nonneg.
  intros j b [_ Hj]%lookup_delete_Some. eauto.
Qed.

Lemma map_sum_ext (m m' : gmap nat A) : f <$> m = f <$> m' -> map_sum m = map_sum m'.
Proof.
  intros H. assert (Hs : forall m, map_sum m = map_fold (fun _ z acc => z + acc) 0 (f <$> m)).
  { clear. intros m. unfold map_sum. by rewrite map_fold_fmap. }
  by rewrite !Hs, H.
Qed.

Lemma map_sum_size m : (forall i a, m !! i = Some a -> f a <= 1) -> map_sum m <= Z.of_nat (size m).
Proof.
  induction m as [|i a m Hi IH] using map_ind; intros H; [by rewrite map_sum_empty|].
  rewrite map_sum_insert, map_size_insert_None by done.
  pose proof (H i a ltac:(by rewrite lookup_insert_eq)).
  enough (map_sum m <= Z.of_nat (size m)) by lia. apply IH. intros j b Hj. apply (H j b).
  rewrite lookup_insert_ne; [done|congruence].
Qed.
End map_sum.

(** ** Invariants of step relations *)

Lemma invariant_rtc {S} (R : relation S) (I : S -> Prop) s s' :
  (forall x y, R x y -> I x -> I y) -> I s -> rtc R s s' -> I s'.
Proof. intros Hstep Hs H. induction H; eauto. Qed.
