(* ===== verification/Bytes.v ===== *)
(** * Byte strings and little-endian words

    [to_ne_bytes]/[from_ne_bytes] and [to_le_bytes]/[from_le_bytes] of the Rust
    integer types: the runtime targets little-endian hosts, and a byte is a [Z]
    between 0 and 255. *)

From Stdlib Require Import ZArith Lia.
From stdpp Require Import base tactics list.
From S2P Require Import Prelude.

Definition byte_ok (b : Z) : Prop := 0 <= b < 256.

(** The low [n] bytes of [x], least significant first. *)
Fixpoint le_bytes (n : nat) (x : Z) : list Z :=
  match n with
  | O => []
  | S n => x mod 256 :: le_bytes n (x / 256)
  end.

(** The unsigned value of a little-endian byte string. *)
Fixpoint le_value (bs : list Z) : Z :=
  match bs with
  | [] => 0
  | b :: bs => b + 256 * le_value bs
  end.

(** [t::to_le_bytes(x)] and [t::from_le_bytes(bs)]. *)
Definition ity_bytes (t : ity) : nat := Z.to_nat (bits t / 8).

Definition to_le_bytes (t : ity) (x : Z) : list Z := le_bytes (ity_bytes t) x.

Definition from_le_bytes (t : ity) (bs : list Z) : Z := wrap t (le_value bs).

Lemma length_le_bytes n x : length (le_bytes n x) = n.
Proof. revert x. induction n as [|n IH]; intros x; simpl; [done|]. by rewrite IH. Qed.

Lemma le_bytes_ok n x : Forall byte_ok (le_bytes n x).
Proof.
  revert x. induction n as [|n IH]; intros x; constructor; [|apply IH].
  apply Z.mod_pos_bound. lia.
Qed.

Lemma pow256_S n : 256 ^ Z.of_nat (S n) = 256 * 256 ^ Z.of_nat n.
Proof. rewrite Nat2Z.inj_succ, Z.pow_succ_r; lia. Qed.

Lemma pow256_pos n : 0 < 256 ^ Z.of_nat n.
Proof. apply Z.pow_pos_nonneg; lia. Qed.

Lemma le_value_bytes n x : le_value (le_bytes n x) = x mod 256 ^ Z.of_nat n.
Proof.
  revert x. induction n as [|n IH]; intros x; simpl le_value; [by rewrite Z.mod_1_r|].
  rewrite pow256_S, IH, Z.rem_mul_r; [done | lia | apply pow256_pos].
Qed.

Lemma le_value_bound bs : Forall byte_ok bs -> 0 <= le_value bs < 256 ^ Z.of_nat (length bs).
Proof.
  induction 1 as [|b bs Hb _ IH]; [simpl; lia|].
  simpl length. simpl le_value. rewrite pow256_S. unfold byte_ok in Hb. lia.
Qed.

Lemma le_bytes_value bs : Forall byte_ok bs -> le_bytes (length bs) (le_value bs) = bs.
Proof.
  induction 1 as [|b bs Hb _ IH]; [done|]. simpl. unfold byte_ok in Hb.
  replace (b + 256 * le_value bs) with (b + le_value bs * 256) by lia.
  rewrite Z.mod_add, Z.mod_small, Z.div_add, Z.div_small, Z.add_0_l by lia. by rewrite IH.
Qed.

Lemma le_bytes_mod n x : le_bytes n (x mod 256 ^ Z.of_nat n) = le_bytes n x.
Proof.
  rewrite <- le_value_bytes. rewrite <- (length_le_bytes n x) at 1.
  apply le_bytes_value, le_bytes_ok.
Qed.

Lemma le_bytes_app n m x :
  le_bytes (n + m) x = le_bytes n x ++ le_bytes m (x / 256 ^ Z.of_nat n).
Proof.
  revert x. induction n as [|n IH]; intros x; simpl plus; [by rewrite Z.div_1_r|].
  simpl. rewrite IH, pow256_S, Z.div_div; [done | lia | apply pow256_pos].
Qed.

Lemma ity_bytes_bits t : 256 ^ Z.of_nat (ity_bytes t) = 2 ^ bits t.
Proof. destruct t; reflexivity. Qed.

(** Every value of an integer type survives its byte encoding. *)
Lemma from_to_le_bytes t x : is_range t x -> from_le_bytes t (to_le_bytes t x) = x.
Proof.
  intros H. unfold from_le_bytes, to_le_bytes. rewrite le_value_bytes, ity_bytes_bits.
  rewrite <- (wrap_id t x H) at 2. apply wrap_eq_iff. apply Z.mod_mod. destruct t; done.
Qed.

Lemma to_from_le_bytes t bs :
  length bs = ity_bytes t -> Forall byte_ok bs -> to_le_bytes t (from_le_bytes t bs) = bs.
Proof.
  intros Hl Hb. unfold from_le_bytes, to_le_bytes. rewrite <- le_bytes_mod, ity_bytes_bits.
  rewrite wrap_mod, <- ity_bytes_bits, le_bytes_mod, <- Hl. by apply le_bytes_value.
Qed.

Lemma length_to_le_bytes t x : length (to_le_bytes t x) = ity_bytes t.
Proof. apply length_le_bytes. Qed.

(** ** Bit fields *)

(** Fields packed with [|] over disjoint bits are sums. *)
Lemma lor_shiftl_add a b n : 0 <= n -> 0 <= a < 2 ^ n -> Z.lor a (Z.shiftl b n) = a + b * 2 ^ n.
Proof.
  intros Hn Ha. rewrite <- Z.shiftl_mul_pow2 by done.
  assert (H0 : Z.land a (Z.shiftl b n) = 0); [|pose proof (Z.add_lor_land a (Z.shiftl b n)); lia].
  apply Z.bits_inj'. intros i Hi. rewrite Z.land_spec, Z.testbit_0_l, Z.shiftl_spec by done.
  destruct (Z.lt_ge_cases i n); [by rewrite (Z.testbit_neg_r b), andb_false_r by lia|].
  rewrite <- (Z.mod_small a (2 ^ n)) by done. by rewrite Z.mod_pow2_bits_high by lia.
Qed.

Lemma lxor_range a b n : 0 < n -> 0 <= a < 2 ^ n -> 0 <= b < 2 ^ n -> 0 <= Z.lxor a b < 2 ^ n.
Proof.
  intros Hn Ha Hb. assert (H : forall x, 0 <= x < 2 ^ n -> Z.log2 x < n).
  { intros x Hx. destruct (Z.eq_dec x 0) as [->|]; [done|]. apply Z.log2_lt_pow2; lia. }
  split; [apply Z.lxor_nonneg; lia|].
  destruct (Z.eq_dec (Z.lxor a b) 0) as [->|]; [apply Z.pow_pos_nonneg; lia|].
  assert (0 <= Z.lxor a b) by (apply Z.lxor_nonneg; lia).
  apply Z.log2_lt_pow2; [lia|]. pose proof (Z.log2_lxor a b ltac:(lia) ltac:(lia)).
  pose proof (H a Ha). pose proof (H b Hb). lia.
Qed.

Lemma land_mask x n : 0 <= n -> Z.land x (2 ^ n - 1) = x mod 2 ^ n.
Proof. intros. rewrite <- Z.land_ones by done. f_equal. rewrite Z.ones_equiv. lia. Qed.

(** Masking a field in the middle of a word. *)
Lemma land_field x n w :
  0 <= n -> 0 <= w ->
  Z.land x (Z.shiftl (2 ^ w - 1) n) = Z.shiftl ((x / 2 ^ n) mod 2 ^ w) n.
Proof.
  intros Hn Hw. rewrite <- land_mask, <- Z.shiftr_div_pow2 by done.
  apply Z.bits_inj'. intros i Hi. rewrite Z.land_spec, !Z.shiftl_spec by done.
  destruct (Z.lt_ge_cases i n); [by rewrite !(Z.testbit_neg_r _ (i - n)), andb_false_r by lia|].
  rewrite Z.land_spec, Z.shiftr_spec by lia. by replace (i - n + n) with i by lia.
Qed.

Lemma wrap_shiftl x n :
  0 <= n <= 64 -> wrap usize (Z.shiftl x n) = Z.shiftl (x mod 2 ^ (64 - n)) n.
Proof.
  intros. unfold wrap. simpl signed. cbn [bits]. rewrite !Z.shiftl_mul_pow2 by lia.
  replace 64 with (64 - n + n) at 1 by lia. rewrite Z.pow_add_r by lia.
  apply Z.mul_mod_distr_r; apply Z.pow_nonzero; lia.
Qed.

#[export] Hint Resolve le_bytes_ok length_le_bytes length_to_le_bytes : vm.
