(* ===== verification/Floats.v ===== *)
(** * IEEE 754 doubles

    A Rust [f64] ([f32]) is a [spec_float] in the binary64 (binary32) format; the
    arithmetic is the round-to-nearest-even arithmetic of the Standard Library's
    [SpecFloat], where a NaN has no payload.  Defined here: the remainder ([%],
    C's [fmod]), the [as] casts between floats and integers and between the two
    float widths, and the bit patterns ([to_bits], [from_bits]). *)

From Stdlib Require Import ZArith Lia SpecFloat.
From stdpp Require Import base tactics.
From S2P Require Import Prelude.

Abbreviation f64 := spec_float (only parsing).

Definition f64_add : f64 -> f64 -> f64 := SFadd 53 1024.
Definition f64_sub : f64 -> f64 -> f64 := SFsub 53 1024.
Definition f64_mul : f64 -> f64 -> f64 := SFmul 53 1024.
Definition f64_div : f64 -> f64 -> f64 := SFdiv 53 1024.
Definition f64_neg : f64 -> f64 := SFopp.

(** [partial_cmp] and the comparison operators; NaN is unordered. *)
Definition f64_cmp : f64 -> f64 -> option comparison := SFcompare.
Definition f64_eqb : f64 -> f64 -> bool := SFeqb.
Definition f64_ltb : f64 -> f64 -> bool := SFltb.

(** [x as f64] for an integer [x], rounded to nearest. *)
Definition f64_of_Z (x : Z) : f64 := binary_normalize 53 1024 x 0 false.

(** [as f32] of an integer. *)
Definition f32_of_Z (x : Z) : spec_float := binary_normalize 24 128 x 0 false.

(** Truncation of a finite float toward zero. *)
Definition f64_trunc (s : bool) (m : positive) (e : Z) : Z :=
  cond_Zopp s (Z.shiftl (Zpos m) e).

(** [x as t]: truncation toward zero, saturating at the bounds, NaN to 0. *)
Definition f64_to_int (t : ity) (x : f64) : Z :=
  match x with
  | S754_zero _ | S754_nan => 0
  | S754_infinity s => if s then int_min t else int_max t
  | S754_finite s m e => saturate t (f64_trunc s m e)
  end.

(** [x % y]: the exact remainder, with the sign of [x]. *)
Definition f64_rem (x y : f64) : f64 :=
  match x, y with
  | S754_nan, _ | _, S754_nan | S754_infinity _, _ | _, S754_zero _ => S754_nan
  | S754_zero _, _ | _, S754_infinity _ => x
  | S754_finite sx mx ex, S754_finite _ my ey =>
      let e := Z.min ex ey in
      let r := Z.rem (Z.shiftl (Zpos mx) (ex - e)) (Z.shiftl (Zpos my) (ey - e)) in
      binary_normalize 53 1024 (cond_Zopp sx r) e sx
  end.

(** Rounding to another format: [x as f32] and [x as f64]. *)
Definition float_convert (prec emax : Z) (x : spec_float) : spec_float :=
  match x with
  | S754_finite s m e => binary_normalize prec emax (cond_Zopp s (Zpos m)) e s
  | _ => x
  end.

Definition f64_to_f32 (x : f64) : spec_float := float_convert 24 128 x.
Definition f32_to_f64 (x : spec_float) : f64 := float_convert 53 1024 x.

(** [to_bits]: [mw] mantissa bits and [ew] exponent bits; NaN is the quiet NaN. *)
Definition float_to_bits (mw ew : Z) (x : spec_float) : Z :=
  let sign (s : bool) := if s then 2 ^ (mw + ew) else 0 in
  let bias_e := 3 - 2 ^ (ew - 1) - (mw + 1) in
  match x with
  | S754_zero s => sign s
  | S754_infinity s => sign s + (2 ^ ew - 1) * 2 ^ mw
  | S754_nan => (2 ^ ew - 1) * 2 ^ mw + 2 ^ (mw - 1)
  | S754_finite s m e =>
      if Zpos m <? 2 ^ mw then sign s + Zpos m
      else sign s + (e - bias_e + 1) * 2 ^ mw + (Zpos m - 2 ^ mw)
  end.

Definition float_from_bits (mw ew : Z) (b : Z) : spec_float :=
  let s := Z.testbit b (mw + ew) in
  let m := b mod 2 ^ mw in
  let ex := (b / 2 ^ mw) mod 2 ^ ew in
  let bias_e := 3 - 2 ^ (ew - 1) - (mw + 1) in
  if ex =? 0 then match m with Zpos p => S754_finite s p bias_e | _ => S754_zero s end
  else if ex =? 2 ^ ew - 1 then (if m =? 0 then S754_infinity s else S754_nan)
  else match m + 2 ^ mw with Zpos p => S754_finite s p (ex + bias_e - 1) | _ => S754_nan end.

Definition f64_to_bits : f64 -> Z := float_to_bits 52 11.
Definition f64_from_bits : Z -> f64 := float_from_bits 52 11.
Definition f32_to_bits : spec_float -> Z := float_to_bits 23 8.
Definition f32_from_bits : Z -> spec_float := float_from_bits 23 8.

Lemma f64_to_int_range t x : is_range t (f64_to_int t x).
Proof.
  pose proof (range_width t). pose proof (Z.pow_pos_nonneg 2 (bits t)). pose proof (bits_pos t).
  assert (int_min t <= 0 <= int_max t) by (destruct t; split; by vm_compute).
  destruct x as [s|[]| |s m e]; simpl; auto with vm; unfold is_range; lia.
Qed.

(** ** Exactness of the cast from small integers *)

Lemma digits2_iter m d : Zpos (digits2_pos (Pos.iter xO m d)) = Zpos (digits2_pos m) + Zpos d.
Proof.
  induction d as [|d IH] using Pos.peano_ind; [simpl; lia|].
  rewrite Pos.iter_succ. simpl. lia.
Qed.

Lemma iter_xO_shiftl m d : Zpos (Pos.iter xO m d) = Z.shiftl (Zpos m) (Zpos d).
Proof.
  induction d as [|d IH] using Pos.peano_ind; [done|].
  rewrite Pos.iter_succ, Pos2Z.inj_xO, IH, !Z.shiftl_mul_pow2, Pos2Z.inj_succ by lia.
  rewrite Z.pow_succ_r; lia.
Qed.

Lemma digits2_bound m : 2 ^ (Zpos (digits2_pos m) - 1) <= Zpos m < 2 ^ Zpos (digits2_pos m).
Proof.
  induction m as [m IH|m IH|]; simpl digits2_pos; rewrite ?Pos2Z.inj_succ; [| |done];
    replace (Z.succ (Zpos (digits2_pos m)) - 1) with (Z.succ (Zpos (digits2_pos m) - 1)) by lia;
    rewrite !Z.pow_succ_r by lia; lia.
Qed.

Lemma digits2_le m n : Zpos m < 2 ^ n -> 0 <= n -> Zpos (digits2_pos m) <= n.
Proof.
  intros H Hn. destruct (digits2_bound m) as [Hl _].
  destruct (Z.le_gt_cases (Zpos (digits2_pos m)) n); [done|].
  assert (2 ^ n <= 2 ^ (Zpos (digits2_pos m) - 1)) by (apply Z.pow_le_mono_r; lia). lia.
Qed.

(** A mantissa already on the grid of its exponent is not changed by rounding. *)
Lemma round_aux_exact prec emax s m e :
  fexp prec emax (Zpos (digits2_pos m) + e) = e -> e <= emax - prec ->
  binary_round_aux prec emax s (Zpos m) e loc_Exact = S754_finite s m e.
Proof.
  intros Hf He. unfold binary_round_aux, shr_fexp. simpl Zdigits2.
  rewrite Hf, Z.sub_diag. simpl. rewrite Hf, Z.sub_diag. simpl.
  by rewrite (proj2 (Z.leb_le _ _) He).
Qed.

Lemma binary_round_small s m :
  Zpos m < 2 ^ 53 ->
  binary_round 53 1024 s m 0 =
    S754_finite s (fst (shl_align m 0 (Zpos (digits2_pos m) - 53))) (Zpos (digits2_pos m) - 53).
Proof.
  intros H. pose proof (digits2_le m 53 H ltac:(lia)) as Hd. unfold binary_round.
  assert (Hf : fexp 53 1024 (Zpos (digits2_pos m) + 0) = Zpos (digits2_pos m) - 53)
    by (unfold fexp, emin; lia).
  rewrite Hf. unfold shl_align. rewrite Z.sub_0_r.
  destruct (Zpos (digits2_pos m) - 53) as [|p|p] eqn:E; [| lia |].
  - simpl fst. apply round_aux_exact; unfold fexp, emin; lia.
  - simpl fst. apply round_aux_exact; [rewrite digits2_iter|]; unfold fexp, emin; lia.
Qed.

Lemma shiftl_align_back m d : d <= 0 -> Z.shiftl (Zpos (fst (shl_align m 0 d))) d = Zpos m.
Proof.
  intros Hd. unfold shl_align. rewrite Z.sub_0_r.
  destruct d as [|p|p]; [done | lia |]. simpl fst.
  rewrite iter_xO_shiftl, Z.shiftl_shiftl by lia.
  replace (Zpos p + Zneg p) with 0 by lia. apply Z.shiftl_0_r.
Qed.

(** Truncating the double nearest to [x] gives [x] back when [x] has at most 53 bits. *)
Lemma f64_of_Z_exact t x :
  Z.abs x < 2 ^ 53 -> is_range t x -> f64_to_int t (f64_of_Z x) = x.
Proof.
  intros Hx Hr. assert (Hsat : forall z, z = x -> saturate t z = x)
    by (intros z ->; unfold saturate, is_range in *; lia).
  assert (Hp : forall s m, Zpos m < 2 ^ 53 -> x = cond_Zopp s (Zpos m) ->
     f64_to_int t (binary_round 53 1024 s m 0) = x).
  { intros s m Hm ->. rewrite binary_round_small by done. simpl. apply Hsat.
    pose proof (digits2_le m 53 Hm ltac:(lia)). unfold f64_trunc.
    by rewrite shiftl_align_back by lia. }
  unfold f64_of_Z, binary_normalize. destruct x as [|m|m]; [done | |].
  - apply Hp; [lia | done].
  - apply Hp; [lia | done].
Qed.

(** The sign, exponent and mantissa fields of a bit pattern. *)
Lemma float_fields mw ew (s : bool) ex m :
  0 < mw -> 0 < ew -> 0 <= ex < 2 ^ ew -> 0 <= m < 2 ^ mw ->
  let b := (if s then 2 ^ (mw + ew) else 0) + ex * 2 ^ mw + m in
  Z.testbit b (mw + ew) = s /\ b mod 2 ^ mw = m /\ (b / 2 ^ mw) mod 2 ^ ew = ex.
Proof.
  intros Hmw Hew Hex Hm b. assert (Hp : 0 < 2 ^ mw) by (apply Z.pow_pos_nonneg; lia).
  assert (Hb : b = ((if s then 1 else 0) * 2 ^ ew + ex) * 2 ^ mw + m).
  { unfold b. rewrite Z.pow_add_r by lia. destruct s; ring. }
  assert (Hd : b / 2 ^ mw = (if s then 1 else 0) * 2 ^ ew + ex).
  { rewrite Hb, Z.div_add_l by lia. rewrite Z.div_small by lia. lia. }
  split; [|split].
  - rewrite Z.testbit_odd, Z.shiftr_div_pow2 by lia. rewrite Z.pow_add_r, <- Z.div_div by lia. rewrite Hd.
    rewrite Z.div_add_l by lia. rewrite Z.div_small by lia. by destruct s.
  - rewrite Hb, Z.add_comm, Z.mod_add by lia. by apply Z.mod_small.
  - rewrite Hd, Z.add_comm, Z.mod_add by lia. by apply Z.mod_small.
Qed.

(** A canonical mantissa is subnormal at the least exponent, or has all its bits. *)
Lemma canonical_mantissa_cases mw emax m e :
  0 < mw -> bounded (mw + 1) emax m e = true ->
  if Zpos m <? 2 ^ mw then e = emin (mw + 1) emax
  else Zpos m < 2 * 2 ^ mw /\ emin (mw + 1) emax <= e <= emax - (mw + 1).
Proof.
  intros Hmw Hx. unfold bounded, canonical_mantissa in Hx. apply andb_true_iff in Hx as [Hc He%Z.leb_le].
  apply Z.eqb_eq in Hc. unfold fexp in Hc. pose proof (digits2_bound m) as Hd.
  set (dg := Zpos (digits2_pos m)) in *. destruct (Z.ltb_spec (Zpos m) (2 ^ mw)) as [Hlt|Hge].
  - assert (dg <= mw); [|lia].
    apply Z.nlt_ge. intros Hn. pose proof (Z.pow_le_mono_r 2 mw (dg - 1) ltac:(lia) ltac:(lia)). lia.
  - assert (dg = mw + 1).
    { assert (mw < dg); [|lia]. apply Z.nle_gt. intros Hn. pose proof (Z.pow_le_mono_r 2 dg mw ltac:(lia) Hn). lia. }
    split; [|lia]. rewrite <- Z.pow_succ_r by lia. replace (Z.succ mw) with dg by lia. lia.
Qed.

(** ** Widening is exact *)

Lemma shr_1_double m : shr_1 {| shr_m := Zpos (xO m); shr_r := false; shr_s := false |} = {| shr_m := Zpos m; shr_r := false; shr_s := false |}.
Proof. done. Qed.

Lemma iter_pos_iter {A} (f : A -> A) n : forall x, iter_pos f n x = Pos.iter f x n.
Proof.
  induction n as [n IH|n IH|]; intros x; simpl; [|by rewrite !IH | done].
  by rewrite !IH, <- !Pos.iter_swap.
Qed.

(** Shifting back what was shifted. *)
Lemma shr_shifted m d : iter_pos shr_1 d {| shr_m := Zpos (Pos.iter xO m d); shr_r := false; shr_s := false |} =
  {| shr_m := Zpos m; shr_r := false; shr_s := false |}.
Proof.
  rewrite iter_pos_iter. induction d as [|d IH] using Pos.peano_ind; [done|].
  rewrite Pos.iter_succ_r, Pos.iter_succ, shr_1_double. exact IH.
Qed.

(** A single is a double. *)
Lemma f32_to_f64_finite s m e : bounded 24 128 m e = true ->
  exists d, Zpos d = 53 - Zpos (digits2_pos m) /\ f32_to_f64 (S754_finite s m e) = S754_finite s (Pos.iter xO m d) (e - Zpos d).
Proof.
  intros Hb. pose proof (canonical_mantissa_cases 23 128 m e ltac:(lia) Hb) as Hc. unfold emin in Hc.
  assert (Hm : Zpos m < 2 ^ 24) by (destruct (Z.ltb_spec (Zpos m) (2 ^ 23)); lia).
  pose proof (digits2_le m 24 Hm ltac:(lia)) as Hd.
  assert (He : -149 <= e <= 104).
  { apply andb_true_iff in Hb as [_ He%Z.leb_le]. destruct (Z.ltb_spec (Zpos m) (2 ^ 23)); lia. }
  exists (Z.to_pos (53 - Zpos (digits2_pos m))). rewrite Z2Pos.id by lia. split; [done|].
  assert (Hr : binary_round 53 1024 s m e = S754_finite s (Pos.iter xO m (Z.to_pos (53 - Zpos (digits2_pos m)))) (e - (53 - Zpos (digits2_pos m)))).
  { unfold binary_round. assert (Hf : fexp 53 1024 (Zpos (digits2_pos m) + e) = Zpos (digits2_pos m) + e - 53) by (unfold fexp, emin; lia).
    rewrite Hf. unfold shl_align. replace (Zpos (digits2_pos m) + e - 53 - e) with (- (53 - Zpos (digits2_pos m))) by lia.
    destruct (53 - Zpos (digits2_pos m)) as [|p|p] eqn:Ep; [lia | | lia]. cbn [Z.opp Z.to_pos].
    change (- Zpos p) with (Zneg p). cbv iota beta. rewrite round_aux_exact; [f_equal; lia | rewrite digits2_iter; unfold fexp, emin; lia | lia]. }
  unfold f32_to_f64, float_convert, binary_normalize. destruct s; exact Hr.
Qed.

(** Widening a single and rounding it back changes nothing. *)
Lemma f32_widened x : valid_binary 24 128 x = true -> f64_to_f32 (f32_to_f64 x) = x.
Proof.
  intros Hx. destruct x as [s|s| |s m e]; [done..|]. cbn [valid_binary] in Hx.
  destruct (f32_to_f64_finite s m e Hx) as (d & Hd & ->).
  apply andb_true_iff in Hx as [Hc He%Z.leb_le]. apply Z.eqb_eq in Hc.
  assert (Hr : binary_round 24 128 s (Pos.iter xO m d) (e - Zpos d) = S754_finite s m e).
  { unfold binary_round. rewrite digits2_iter. replace (Zpos (digits2_pos m) + Zpos d + (e - Zpos d)) with (Zpos (digits2_pos m) + e) by lia.
    rewrite Hc. unfold shl_align. replace (e - (e - Zpos d)) with (Zpos d) by lia.
    unfold binary_round_aux, shr_fexp. cbn [Zdigits2]. rewrite digits2_iter.
    replace (Zpos (digits2_pos m) + Zpos d + (e - Zpos d)) with (Zpos (digits2_pos m) + e) by lia.
    rewrite Hc. replace (e - (e - Zpos d)) with (Zpos d) by lia. cbn [shr shr_record_of_loc]. rewrite shr_shifted.
    cbn [round_nearest_even shr_m loc_of_shr_record Zdigits2]. replace (e - Zpos d + Zpos d) with e by lia.
    rewrite Hc, Z.sub_diag. cbn [shr shr_record_of_loc shr_m]. by rewrite (proj2 (Z.leb_le _ _) He). }
  unfold f64_to_f32, float_convert, binary_normalize. destruct s; exact Hr.
Qed.

Section formats.
Context (mw ew : Z) (Hmw : 1 < mw) (Hew : 1 < ew).

Lemma format_bounds : 2 <= 2 ^ mw /\ 2 <= 2 ^ (ew - 1) /\ 2 ^ ew = 2 * 2 ^ (ew - 1) /\ 0 < 2 ^ (mw - 1) < 2 ^ mw.
Proof.
  split; [change 2 with (2 ^ 1) at 1; apply Z.pow_le_mono_r; lia|].
  split; [change 2 with (2 ^ 1) at 1; apply Z.pow_le_mono_r; lia|].
  split; [rewrite <- Z.pow_succ_r by lia; f_equal; lia|].
  split; [apply Z.pow_pos_nonneg; lia | apply Z.pow_lt_mono_r; lia].
Qed.

(** The fields of the bit pattern of a canonical float, and what they decode to. *)
Lemma float_to_bits_fields x :
  valid_binary (mw + 1) (2 ^ (ew - 1)) x = true ->
  exists (s : bool) ex m, 0 <= ex < 2 ^ ew /\ 0 <= m < 2 ^ mw /\
    float_to_bits mw ew x = (if s then 2 ^ (mw + ew) else 0) + ex * 2 ^ mw + m /\
    x = (if ex =? 0 then match m with Zpos p => S754_finite s p (3 - 2 ^ (ew - 1) - (mw + 1)) | _ => S754_zero s end
         else if ex =? 2 ^ ew - 1 then (if m =? 0 then S754_infinity s else S754_nan)
         else match m + 2 ^ mw with Zpos p => S754_finite s p (ex + (3 - 2 ^ (ew - 1) - (mw + 1)) - 1) | _ => S754_nan end).
Proof.
  intros Hx. pose proof format_bounds as (Hpm & Hpe & Hew2 & Hh). unfold float_to_bits. destruct x as [s|s| |s m e].
  - exists s, 0, 0. repeat (split; [lia|]). done.
  - exists s, (2 ^ ew - 1), 0. repeat (split; [lia|]). destruct (Z.eqb_spec (2 ^ ew - 1) 0); [lia|]. by rewrite Z.eqb_refl.
  - exists false, (2 ^ ew - 1), (2 ^ (mw - 1)). repeat (split; [lia|]). destruct (Z.eqb_spec (2 ^ ew - 1) 0); [lia|].
    rewrite Z.eqb_refl. destruct (Z.eqb_spec (2 ^ (mw - 1)) 0); [lia|done].
  - simpl in Hx. pose proof (canonical_mantissa_cases mw _ m e ltac:(lia) Hx) as Hc. unfold emin in Hc.
    destruct (Z.ltb_spec (Zpos m) (2 ^ mw)) as [Hlt|Hge].
    + exists s, 0, (Zpos m). repeat (split; [lia|]). simpl. f_equal. lia.
    + exists s, (e - (3 - 2 ^ (ew - 1) - (mw + 1)) + 1), (Zpos m - 2 ^ mw). repeat (split; [lia|]).
      destruct (Z.eqb_spec (e - (3 - 2 ^ (ew - 1) - (mw + 1)) + 1) 0); [lia|].
      destruct (Z.eqb_spec (e - (3 - 2 ^ (ew - 1) - (mw + 1)) + 1) (2 ^ ew - 1)); [lia|].
      replace (Zpos m - 2 ^ mw + 2 ^ mw) with (Zpos m) by lia. f_equal. lia.
Qed.

(** A canonical float survives its bit pattern, which fits the format. *)
Lemma float_bits_roundtrip x :
  valid_binary (mw + 1) (2 ^ (ew - 1)) x = true ->
  float_from_bits mw ew (float_to_bits mw ew x) = x /\ 0 <= float_to_bits mw ew x < 2 ^ (mw + ew + 1).
Proof.
  intros (s & ex & m & Hex & Hm & -> & Hx)%float_to_bits_fields. pose proof format_bounds as (Hpm & _). split.
  - unfold float_from_bits. destruct (float_fields mw ew s ex m) as (-> & -> & ->); [lia..|]. done.
  - rewrite !Z.pow_add_r by lia. destruct s; nia.
Qed.

End formats.
