(* ===== verification/ManagedPtr.v ===== *)
(** * Managed pointers

    [ManagedPtr] of [dotnet-value/src/pointer/mod.rs] and its origins of
    [dotnet-value/src/pointer/origin.rs]: the packed offset, the constructors,
    pointer arithmetic, address observation and the frame-home window check.

    An address is a [usize] as a [Z]; [Option<NonNull<u8>>] is an [option Z] that is
    never [Some 0].  An object handle is named by the address of its GC
    allocation.  Where payloads live is the record [heap_view], a parameter: the
    collector and the arena registry answer it. *)

From Stdlib Require Import ZArith Lia.
From stdpp Require Import base tactics list option countable strings.
From S2P Require Import Prelude.

(** Names of descriptors; the model only compares them. *)
Record TypeDescription : Set := { resolution : nat; index : nat }.

#[export] Instance TypeDescription_eq_dec : EqDecision TypeDescription.
Proof. solve_decision. Defined.

Definition NULL_TYPE : TypeDescription := {| resolution := 0; index := 0 |}.

Abbreviation GenericLookup := (list nat) (only parsing).

Record StaticMetadata : Set := { type_desc : TypeDescription; generics : GenericLookup }.

#[export] Instance StaticMetadata_eq_dec : EqDecision StaticMetadata.
Proof. solve_decision. Defined.

#[export] Instance StaticMetadata_countable : Countable StaticMetadata.
Proof.
  apply (inj_countable'
    (fun m => (resolution (type_desc m), index (type_desc m), generics m))
    (fun '(r, i, g) => {| type_desc := {| resolution := r; index := i |}; generics := g |})).
  by intros [[] ?].
Defined.

(** [ArenaIdentity]: an arena ID with the generation of its registration. *)
Record ArenaIdentity : Set := { arena_id : Z; generation : Z }.

(** [ArenaId::INVALID]. *)
Definition INVALID_ARENA : Z := int_max U64.

#[export] Instance ArenaIdentity_eq_dec : EqDecision ArenaIdentity.
Proof. solve_decision. Defined.

Record CrossArenaOrigin : Set :=
  { co_ptr : Z; co_identity : ArenaIdentity; co_token : Z }.

#[export] Instance CrossArenaOrigin_eq_dec : EqDecision CrossArenaOrigin.
Proof. solve_decision. Defined.

(** [Object]: a value-type instance.  [layout_arc] names the shared layout, which
    [FieldStorage::eq] compares by identity. *)
Record Object : Set := {
  description : TypeDescription;
  obj_generics : GenericLookup;
  layout_arc : nat;
  data : list Z;
  has_finalizer : bool;
  finalizer_suppressed : bool;
}.

#[export] Instance Object_eq_dec : EqDecision Object.
Proof. solve_decision. Defined.

Abbreviation ObjectRef := (option Z) (only parsing).

Inductive PointerOrigin : Set :=
| Heap (o : ObjectRef)
| Static (m : StaticMetadata)
| Unmanaged
| FrameHome (serial : Z)
| CrossArenaObjectRef (c : CrossArenaOrigin)
| Transient (obj : Object).

#[export] Instance PointerOrigin_eq_dec : EqDecision PointerOrigin.
Proof. solve_decision. Defined.

Definition origin_is_null (o : PointerOrigin) : bool :=
  match o with
  | Unmanaged => true
  | Heap r => match r with None => true | Some _ => false end
  | _ => false
  end.

Definition discriminant (o : PointerOrigin) : Z :=
  match o with
  | Heap _ => 0
  | Static _ => 2
  | Unmanaged => 3
  | CrossArenaObjectRef _ => 4
  | Transient _ => 5
  | FrameHome _ => 6
  end.

Definition normalize (o : PointerOrigin) : PointerOrigin :=
  match o with Heap None => Unmanaged | o => o end.

Definition is_unmanaged (o : PointerOrigin) : bool :=
  match o with Unmanaged => true | _ => false end.

(** ** Serials of frame-home blocks *)

Definition FrameHomeSerial_FIRST : Z := 1.

Definition serial_next {E} (s : Z) : outcome E Z := expect (checked U64 (s + 1)).

(** ** The pointer *)

(** [NonNull::new]. *)
Definition nonnull (a : Z) : option Z := if a =? 0 then None else Some a.

Record ManagedPtr : Set := {
  value : option Z;
  origin : PointerOrigin;
  inner_type : TypeDescription;
  offset : Z;
  flags : Z;
}.

Record ManagedPtrInfo : Set := {
  address : option Z;
  info_origin : PointerOrigin;
  info_offset : Z;
}.

Definition FLAG_PINNED : Z := 1.
Definition FLAG_UNMANAGED_INLINE_OFFSET : Z := 2.

Definition flags_from_pinned (pinned : bool) : Z := if pinned then FLAG_PINNED else 0.

Definition with_unmanaged_inline_offset_flag (fl : Z) (enabled : bool) : Z :=
  if enabled then Z.lor fl FLAG_UNMANAGED_INLINE_OFFSET
  else Z.land fl (255 - FLAG_UNMANAGED_INLINE_OFFSET).

Definition has_unmanaged_inline_offset (p : ManagedPtr) : bool :=
  negb (Z.land (flags p) FLAG_UNMANAGED_INLINE_OFFSET =? 0).

Definition is_pinned (p : ManagedPtr) : bool := negb (Z.land (flags p) FLAG_PINNED =? 0).

(** An offset outside [u32] panics for a managed origin and is dropped for an
    unmanaged one. *)
Definition pack_offset {E} (o : PointerOrigin) (off : Z) : outcome E Z :=
  if is_unmanaged o then Val (default 0 (checked U32 off)) else expect (checked U32 off).

Definition byte_offset (p : ManagedPtr) : Z :=
  if is_unmanaged (origin p) then
    if has_unmanaged_inline_offset p then offset p else default 0 (value p)
  else offset p.

(** The fields every constructor fills in from a packed offset. *)
Definition make_ptr {E} (v : option Z) (ty : TypeDescription) (o : PointerOrigin) (off : Z)
    (fl : Z) : outcome E ManagedPtr :=
  let* packed := pack_offset o off in
  Val {| value := v; origin := o; inner_type := ty; offset := packed;
         flags := with_unmanaged_inline_offset_flag fl (is_unmanaged o && (packed =? off)) |}.

Definition new {E} (v : option Z) (ty : TypeDescription) (owner : option ObjectRef)
    (pinned : bool) (off : option Z) : outcome E ManagedPtr :=
  let o := match owner with Some (Some h) => Heap (Some h) | _ => Unmanaged end in
  let off := match off with
             | Some off => off
             | None => if is_unmanaged o then default 0 v else 0
             end in
  make_ptr v ty o off (flags_from_pinned pinned).

Definition new_transient {E} (v : option Z) (ty : TypeDescription) (obj : Object) (off : Z)
  : outcome E ManagedPtr :=
  let* packed := pack_offset (Transient obj) off in
  Val {| value := v; origin := Transient obj; inner_type := ty; offset := packed; flags := 0 |}.

Definition new_frame_home {E} (a : Z) (ty : TypeDescription) (serial off : Z) (pinned : bool)
  : outcome E ManagedPtr :=
  let* packed := pack_offset (FrameHome serial) off in
  Val {| value := Some a; origin := FrameHome serial; inner_type := ty; offset := packed;
         flags := flags_from_pinned pinned |}.

Definition new_static {E} (v : option Z) (ty : TypeDescription) (m : StaticMetadata)
    (pinned : bool) (off : Z) : outcome E ManagedPtr :=
  let* packed := pack_offset (Static m) off in
  Val {| value := v; origin := Static m; inner_type := ty; offset := packed;
         flags := flags_from_pinned pinned |}.

Definition null_ptr : ManagedPtr :=
  {| value := None; origin := Unmanaged; inner_type := NULL_TYPE; offset := 0; flags := 0 |}.

Definition with_origin {E} (p : ManagedPtr) (o : PointerOrigin) : outcome E ManagedPtr :=
  make_ptr (value p) (inner_type p) o (byte_offset p) (flags p).

Definition from_info_full {E} (info : ManagedPtrInfo) (ty : TypeDescription) (pinned : bool)
  : outcome E ManagedPtr :=
  let o := normalize (info_origin info) in
  let o := if origin_is_null o && (info_offset info =? 0) &&
              match address info with None => true | Some _ => false end
           then Unmanaged else o in
  make_ptr (address info) ty o (info_offset info) (flags_from_pinned pinned).

Definition into_info (p : ManagedPtr) : ManagedPtrInfo :=
  {| address := value p; info_origin := origin p; info_offset := byte_offset p |}.

Definition is_null (p : ManagedPtr) : bool :=
  match origin p with
  | Unmanaged => match value p with None => true | Some _ => false end
  | Heap o => match o with None => true | Some _ => false end
  | _ => false
  end.

(** [PartialEq]: origins and offsets, not cached addresses. *)
Definition ptr_eqb (p q : ManagedPtr) : bool :=
  bool_decide (origin p = origin q) && (byte_offset p =? byte_offset q).

(** [PartialOrd]: cached addresses, then origin variants, then offsets. *)
Definition ptr_cmp (p q : ManagedPtr) : option comparison :=
  let tie :=
    match Z.compare (discriminant (origin p)) (discriminant (origin q)) with
    | Eq => Some (Z.compare (byte_offset p) (byte_offset q))
    | c => Some c
    end in
  match value p, value q with
  | Some a, Some b => match Z.compare a b with Eq => tie | c => Some c end
  | None, None => tie
  | None, Some _ => Some Lt
  | Some _, None => Some Gt
  end.

(** ** Pointer arithmetic *)

Inductive ManagedPtrOffsetError : Set :=
  NegativeResult | ArithmeticOverflow | CompactRangeExceeded | NullCachedAddress.

Definition set_position (p : ManagedPtr) (v : option Z) (off : Z) (inline : bool) : ManagedPtr :=
  {| value := v; origin := origin p; inner_type := inner_type p; offset := off;
     flags := with_unmanaged_inline_offset_flag (flags p) inline |}.

Definition checked_offset (p : ManagedPtr) (bytes : Z) : outcome ManagedPtrOffsetError ManagedPtr :=
  let current := byte_offset p in
  let unmanaged := is_unmanaged (origin p) in
  let canonical_null := unmanaged && bool_decide (value p = None) && (current =? 0) in
  if canonical_null && (bytes =? 0) then Val p
  else
    let* new_offset :=
      if unmanaged then Val (wrap usize (current + bytes))
      else
        let* result := ok_or (checked I64 (current + bytes)) ArithmeticOverflow in
        if result <? 0 then Err NegativeResult
        else ok_or (checked U32 result) CompactRangeExceeded in
    let addr : option (option Z) :=
      if canonical_null then Some (nonnull new_offset)
      else match value p with
           | Some a => Some (nonnull (wrap usize (a + bytes)))
           | None => None
           end in
    match addr with
    | Some None =>
        if negb unmanaged then Err NullCachedAddress
        else Val (set_position p None 0 true)
    | _ =>
        let* packed := pack_offset (origin p) new_offset in
        Val (set_position p (match addr with Some v => v | None => None end) packed
               (unmanaged && (packed =? new_offset)))
    end.

(** ** Observation and access *)

(** Where payloads live: the payload base of a heap object, and of a cross-arena
    object when its exact registration can be leased. *)
Record heap_view : Type := {
  payload_base : Z -> Z;
  leased_payload_base : CrossArenaOrigin -> option Z;
}.

Definition observed_address (base off : Z) : option Z :=
  if base =? 0 then None else nonnull (wrap usize (base + off)).

Definition observe_address (hv : heap_view) (p : ManagedPtr) : option Z :=
  match origin p with
  | Heap owner =>
      match owner with
      | None => None
      | Some h => observed_address (payload_base hv h) (byte_offset p)
      end
  | CrossArenaObjectRef c =>
      match leased_payload_base hv c with
      | None => None
      | Some base => observed_address base (byte_offset p)
      end
  | _ => value p
  end.

Inductive ManagedPtrOwnershipError : Set := TransientEscapes.

Definition try_observe_address (hv : heap_view) (p : ManagedPtr)
  : outcome ManagedPtrOwnershipError (option Z) :=
  match origin p with
  | Transient _ => Err TransientEscapes
  | _ => Val (observe_address hv p)
  end.

(** [access_window]: the bytes available at the offset, at most those requested. *)
Definition access_window (p : ManagedPtr) (source_len requested : Z) : Z * Z :=
  let off := byte_offset p in
  (off, Z.min requested (Z.max 0 (source_len - off))).

Inductive MemoryAccessError : Set :=
| BoundsCheck (off size len : Z)
| NullPointer (what : string)
| UnalignedAccess (a : Z)
| MemoryTypeMismatch (what : string)
| InvalidOrigin
| CrossArenaViolation.

(** [frame_home_window]: [frame_home_block] is the resolver's answer, the base and
    length of the block a live frame owns. *)
Definition frame_home_window (frame_home_block : Z -> option (Z * Z)) (serial off size : Z)
  : outcome MemoryAccessError Z :=
  let* (base, len) := ok_or (frame_home_block serial) InvalidOrigin in
  match checked usize (off + size) with
  | Some e => if e <=? len then expect (nonnull (wrap usize (base + off)))
              else Err (BoundsCheck off size len)
  | None => Err (BoundsCheck off size len)
  end.

(** ** Well-formedness *)

Definition address_ok (v : option Z) : Prop :=
  match v with None => True | Some a => 0 < a <= int_max usize end.

(** Every pointer the constructors build: a cached address is non-null, the packed
    offset is a [u32], and only unmanaged pointers carry the inline-offset flag. *)
Record wf (p : ManagedPtr) : Prop := {
  wf_value : address_ok (value p);
  wf_offset : is_range U32 (offset p);
  wf_flags : 0 <= flags p < 4;
  wf_inline : is_unmanaged (origin p) = false -> has_unmanaged_inline_offset p = false;
}.

Definition info_ok (i : ManagedPtrInfo) : Prop :=
  address_ok (address i) /\ is_range usize (info_offset i).

(** ** Lemmas *)

Lemma flags_cases fl : 0 <= fl < 4 -> fl = 0 \/ fl = 1 \/ fl = 2 \/ fl = 3.
Proof. lia. Qed.

Lemma with_flag_range fl b : 0 <= fl < 4 -> 0 <= with_unmanaged_inline_offset_flag fl b < 4.
Proof. by intros [->|[->|[->| ->]]]%flags_cases; destruct b. Qed.

Lemma with_flag_inline fl b :
  0 <= fl < 4 ->
  negb (Z.land (with_unmanaged_inline_offset_flag fl b) FLAG_UNMANAGED_INLINE_OFFSET =? 0) = b.
Proof. by intros [->|[->|[->| ->]]]%flags_cases; destruct b. Qed.

Lemma with_flag_pinned fl b :
  0 <= fl < 4 ->
  Z.land (with_unmanaged_inline_offset_flag fl b) FLAG_PINNED = Z.land fl FLAG_PINNED.
Proof. by intros [->|[->|[->| ->]]]%flags_cases; destruct b. Qed.

Lemma with_flag_twice fl b c :
  0 <= fl < 4 ->
  with_unmanaged_inline_offset_flag (with_unmanaged_inline_offset_flag fl b) c =
  with_unmanaged_inline_offset_flag fl c.
Proof. by intros [->|[->|[->| ->]]]%flags_cases; destruct b, c. Qed.

Lemma with_flag_false_id fl :
  0 <= fl < 4 -> Z.land fl FLAG_UNMANAGED_INLINE_OFFSET = 0 ->
  with_unmanaged_inline_offset_flag fl false = fl.
Proof. by intros [->|[->|[->| ->]]]%flags_cases. Qed.

Lemma flags_from_pinned_range b : 0 <= flags_from_pinned b < 4.
Proof. destruct b; cbv; intuition congruence. Qed.

Lemma nonnull_ok a : is_range usize a -> address_ok (nonnull a).
Proof.
  unfold nonnull. destruct (a =? 0) eqn:E; [done|]. bool_to_prop. unfold address_ok.
  int_bounds. lia.
Qed.

Lemma default_u32_range x : is_range U32 (default 0 (checked U32 x)).
Proof.
  unfold checked. destruct (in_range U32 x) eqn:E; simpl; [by apply in_range_spec|].
  by vm_compute.
Qed.

Lemma pack_offset_val {E} o x y : pack_offset (E:=E) o x = Val y -> is_range U32 y.
Proof.
  unfold pack_offset. destruct (is_unmanaged o).
  - intros [= <-]. apply default_u32_range.
  - destruct (checked U32 x) eqn:Ec; simpl; [|done]. intros [= <-].
    by apply checked_some in Ec as [-> ?].
Qed.

Lemma pack_offset_managed {E} o x :
  is_unmanaged o = false -> is_range U32 x -> pack_offset (E:=E) o x = Val x.
Proof.
  intros Ho Hx. unfold pack_offset. rewrite Ho.
  by rewrite (proj2 (checked_some U32 x x) (conj eq_refl Hx)).
Qed.

Lemma byte_offset_managed p : is_unmanaged (origin p) = false -> byte_offset p = offset p.
Proof. unfold byte_offset. by intros ->. Qed.

Lemma make_ptr_wf {E} v ty o x fl p :
  address_ok v -> 0 <= fl < 4 -> make_ptr (E:=E) v ty o x fl = Val p -> wf p.
Proof.
  intros Hv Hfl. unfold make_ptr. intros (y & Hy & [= <-])%obind_val.
  split; simpl; eauto using pack_offset_val, with_flag_range.
  intros Ho. unfold has_unmanaged_inline_offset. simpl. rewrite with_flag_inline by done.
  by rewrite Ho.
Qed.

(** The offset a freshly made pointer reports. *)
Lemma make_ptr_byte_offset {E} v ty o x fl p :
  0 <= fl < 4 -> make_ptr (E:=E) v ty o x fl = Val p ->
  byte_offset p = (if is_unmanaged o then if in_range U32 x then x
                                          else if x =? 0 then 0 else default 0 v
                   else x).
Proof.
  intros Hfl. unfold make_ptr, pack_offset. intros (y & Hy & [= <-])%obind_val.
  unfold byte_offset, has_unmanaged_inline_offset. simpl. rewrite with_flag_inline by done.
  unfold checked in Hy. destruct (is_unmanaged o); simpl in *.
  - destruct (in_range U32 x) eqn:E0; simpl in Hy; simplify_eq.
    + by rewrite Z.eqb_refl.
    + rewrite (Z.eqb_sym 0 x). done.
  - destruct (in_range U32 x); simpl in Hy; by simplify_eq.
Qed.

Lemma checked_i64_small x y :
  is_range U32 x -> is_range isize y -> 0 <= x + y <= int_max U32 -> checked I64 (x + y) = Some (x + y).
Proof. intros. apply checked_some. split; [done|]. int_bounds. lia. Qed.

(** Pointer arithmetic on a managed origin, case by case. *)
Lemma checked_offset_managed_eq p bytes :
  is_unmanaged (origin p) = false ->
  checked_offset p bytes =
    (let r := offset p + bytes in
     if negb (in_range I64 r) then Err ArithmeticOverflow
     else if r <? 0 then Err NegativeResult
     else if negb (in_range U32 r) then Err CompactRangeExceeded
     else match value p with
          | Some a => match nonnull (wrap usize (a + bytes)) with
                      | None => Err NullCachedAddress
                      | Some a' => Val (set_position p (Some a') r false)
                      end
          | None => Val (set_position p None r false)
          end).
Proof.
  intros Ho. unfold checked_offset. rewrite byte_offset_managed by done. rewrite Ho. simpl.
  unfold checked at 1. destruct (in_range I64 (offset p + bytes)); simpl; [|done].
  destruct (_ <? 0); simpl; [done|].
  unfold checked. destruct (in_range U32 (offset p + bytes)) eqn:E; simpl; [|done].
  rewrite pack_offset_managed by (try apply in_range_spec; done). simpl.
  by destruct (value p) as [a|]; [destruct (nonnull _)|].
Qed.

Lemma set_position_wf p v off :
  wf p -> address_ok v -> is_range U32 off -> is_unmanaged (origin p) = false ->
  wf (set_position p v off false).
Proof.
  intros Hp ? ? Ho. split; [done | done | by apply (with_flag_range (flags p) false), wf_flags |].
  intros _. unfold has_unmanaged_inline_offset, set_position; cbn [flags]. by rewrite with_flag_inline by apply Hp.
Qed.

Lemma wf_flag_false p :
  wf p -> is_unmanaged (origin p) = false ->
  with_unmanaged_inline_offset_flag (flags p) false = flags p.
Proof.
  intros Hp Ho. apply with_flag_false_id; [by apply wf_flags|].
  pose proof (wf_inline p Hp Ho) as H. unfold has_unmanaged_inline_offset in H.
  by apply negb_false_iff, Z.eqb_eq in H.
Qed.

Lemma wrap_usize_add a b c : wrap usize (wrap usize (a + b) + c) = wrap usize (a + (b + c)).
Proof.
  unfold wrap. simpl. rewrite Zplus_mod_idemp_l. f_equal. lia.
Qed.

(** Pointer arithmetic on an unmanaged pointer, case by case. *)
Lemma checked_offset_unmanaged_eq p bytes :
  wf p -> is_unmanaged (origin p) = true ->
  exists q, checked_offset p bytes = Val q /\ wf q /\ origin q = origin p /\
    inner_type q = inner_type p /\ Z.land (flags q) FLAG_PINNED = Z.land (flags p) FLAG_PINNED.
Proof.
  intros Hp Ho. pose proof (wf_flags p Hp) as Hfl. unfold checked_offset. rewrite Ho. simpl.
  assert (Hset : forall v off b, address_ok v -> is_range U32 off ->
    wf (set_position p v off b) /\ origin (set_position p v off b) = origin p /\
    inner_type (set_position p v off b) = inner_type p /\
    Z.land (flags (set_position p v off b)) FLAG_PINNED = Z.land (flags p) FLAG_PINNED).
  { intros. unfold set_position; cbn. rewrite with_flag_pinned by done. split; [|done].
    split; cbn; try done; [by apply with_flag_range | by rewrite Ho]. }
  assert (H0 : is_range U32 0) by by vm_compute.
  destruct (bool_decide (value p = None) && (byte_offset p =? 0)) eqn:En; simpl.
  - destruct (bytes =? 0); [by exists p|]. unfold pack_offset. rewrite Ho. simpl.
    destruct (nonnull _) eqn:En'; eexists; (split; [done|]); apply Hset; try done; auto using default_u32_range.
    rewrite <- En'. apply nonnull_ok, wrap_range.
  - unfold pack_offset. rewrite Ho. simpl. destruct (value p) as [a|].
    + destruct (nonnull _) eqn:En'; eexists; (split; [done|]); apply Hset; try done; auto using default_u32_range.
      rewrite <- En'. apply nonnull_ok, wrap_range.
    + eexists; (split; [done|]); apply Hset; [done | apply default_u32_range].
Qed.

Lemma checked_offset_wf p bytes :
  wf p -> match checked_offset p bytes with Val q => wf q | Err _ => True | Panic => False end.
Proof.
  intros Hp. destruct (is_unmanaged (origin p)) eqn:Ho.
  { by destruct (checked_offset_unmanaged_eq p bytes Hp Ho) as (q & -> & Hq & _). }
  rewrite checked_offset_managed_eq by done. cbn zeta.
  destruct (negb (in_range I64 _)); [done|]. destruct (_ <? 0); [done|].
  destruct (in_range U32 _) eqn:E3; cbn [negb]; [|done]. apply in_range_spec in E3.
  destruct (value p) as [a|]; [|by apply set_position_wf].
  destruct (nonnull _) eqn:En; [|done]. apply set_position_wf; try done.
  rewrite <- En. apply nonnull_ok, wrap_range.
Qed.

(**  Building a pointer from decoded metadata and reading the metadata back
    is the identity up to the canonical form of a null heap origin: the only
    failure is a managed offset outside [u32], and the only offset not kept is an
    unmanaged one outside [u32], where the cached address stands for it. *)
Theorem from_info_into_info info ty pinned :
  info_ok info ->
  match from_info_full (E:=unit) info ty pinned with
  | Val p =>
      wf p /\ is_pinned p = pinned /\ inner_type p = ty /\
      address (into_info p) = address info /\
      info_origin (into_info p) = normalize (info_origin info) /\
      info_offset (into_info p) =
        (if is_unmanaged (normalize (info_origin info)) && negb (in_range U32 (info_offset info))
         then default 0 (address info) else info_offset info)
  | Err _ => False
  | Panic => is_unmanaged (normalize (info_origin info)) = false /\
             int_max U32 < info_offset info
  end.
Proof.
  intros [Ha Hoff]. unfold from_info_full. set (b := _ && _ && _).
  set (o := if b then Unmanaged else normalize (info_origin info)).
  assert (Ho : o = normalize (info_origin info)).
  { subst o b. destruct (info_origin info) as [[h|]| | | | |]; simpl; try done;
      by destruct (_ && _). }
  clearbody o. subst o. clear b. set (o := normalize (info_origin info)).
  pose proof (flags_from_pinned_range pinned) as Hfl.
  destruct (make_ptr (address info) ty o (info_offset info) (flags_from_pinned pinned))
    as [p|e|] eqn:E.
  - pose proof (make_ptr_byte_offset _ _ _ _ _ _ Hfl E) as Hb.
    pose proof (make_ptr_wf _ _ _ _ _ _ Ha Hfl E) as Hp.
    split; [done|]. unfold make_ptr in E. apply obind_val in E as (y & _ & [= <-]).
    cbn [into_info address info_origin info_offset value origin inner_type]. rewrite Hb.
    unfold is_pinned; cbn [flags]. rewrite with_flag_pinned by done.
    split; [by destruct pinned|]. do 3 (split; [done|]).
    destruct (is_unmanaged o); [|done]. simpl. destruct (in_range U32 _) eqn:Er; [done|].
    simpl. destruct (info_offset info =? 0) eqn:E0; [|done].
    apply Z.eqb_eq in E0. by rewrite E0 in Er.
  - unfold make_ptr, pack_offset in E. destruct (is_unmanaged o), (checked U32 _); done.
  - unfold make_ptr, pack_offset in E. destruct (is_unmanaged o); [done|]. split; [done|].
    unfold checked in E. destruct (in_range U32 _) eqn:Er; [done|].
    apply in_range_false in Er. int_bounds. lia.
Qed.

Lemma from_info_into_info_witness :
  let info := {| address := Some 4096; info_origin := FrameHome 7; info_offset := 24 |} in
  info_ok info /\
  match from_info_full (E:=unit) info NULL_TYPE true with
  | Val p => wf p /\ into_info p = info
  | _ => False
  end.
Proof.
  set (info := {| address := Some 4096; info_origin := FrameHome 7; info_offset := 24 |}).
  assert (H : info_ok info) by (split; vm_compute; intuition congruence).
  split; [exact H|]. split; [|reflexivity].
  apply (from_info_into_info info NULL_TYPE true H).
Defined.

(**  Offsetting a managed (not unmanaged) pointer in two steps that both
    succeed gives exactly the pointer obtained by the single offset of the sum. *)
Theorem checked_offset_compose p a b q r :
  wf p -> is_unmanaged (origin p) = false ->
  checked_offset p a = Val q -> checked_offset q b = Val r ->
  checked_offset p (a + b) = Val r.
Proof.
  intros Hp Ho. rewrite (checked_offset_managed_eq p a) by done. cbn zeta.
  destruct (in_range I64 (offset p + a)) eqn:E1; cbn [negb]; [|done].
  destruct (offset p + a <? 0) eqn:E2; [done|].
  destruct (in_range U32 (offset p + a)) eqn:E3; cbn [negb]; [|done].
  intros Hq Hr. assert (Hv : match value p with
    | Some x => nonnull (wrap usize (x + a)) = value q | None => value q = None end /\
    origin q = origin p /\ inner_type q = inner_type p /\ offset q = offset p + a /\
    flags q = flags p).
  { rewrite <- (wf_flag_false p Hp Ho).
    destruct (value p) as [x|]; [destruct (nonnull _) eqn:En|]; simplify_eq; by rewrite ?En. }
  destruct Hv as (Hv & Hoq & Htq & Hof & Hfq).
  rewrite checked_offset_managed_eq in Hr by congruence. cbn zeta in Hr.
  rewrite Hof, <- Z.add_assoc in Hr.
  rewrite checked_offset_managed_eq by done. cbn zeta.
  destruct (in_range I64 (offset p + (a + b))); cbn [negb] in *; [|done].
  destruct (offset p + (a + b) <? 0); [done|].
  destruct (in_range U32 (offset p + (a + b))); cbn [negb] in *; [|done].
  assert (Hs : forall v off, set_position q v off false = set_position p v off false)
    by (intros; unfold set_position; congruence).
  destruct (value p) as [x|].
  - destruct (value q) as [y|] eqn:Hvq.
    + unfold nonnull in Hv. destruct (_ =? 0) eqn:Ez; simplify_eq.
      rewrite wrap_usize_add in Hr. destruct (nonnull (wrap usize (x + (a + b)))); [|done].
      by rewrite Hs in Hr.
    + unfold nonnull in Hv. destruct (_ =? 0) eqn:Ez; simplify_eq.
      unfold nonnull in Hq. by rewrite Ez in Hq.
  - rewrite Hv in Hr. by rewrite Hs in Hr.
Qed.

Lemma checked_offset_compose_witness :
  let p := {| value := Some 4100; origin := Heap (Some 4000); inner_type := NULL_TYPE;
              offset := 100; flags := 1 |} in
  wf p /\ checked_offset p (40 + -60) =
    Val {| value := Some 4080; origin := Heap (Some 4000); inner_type := NULL_TYPE;
           offset := 80; flags := 1 |}.
Proof.
  split; [split; vm_compute; intuition congruence|].
  eapply (checked_offset_compose _ 40 (-60));
    [split; vm_compute; intuition congruence | reflexivity | reflexivity | reflexivity].
Defined.

(**  Pointer arithmetic never panics and keeps pointers well formed, with the
    origin, the element type and the pinned bit unchanged; on a managed origin the
    new offset is the exact sum, and an error is returned exactly when that sum
    overflows, is negative, does not fit [u32], or the cached address wraps to null. *)
Theorem checked_offset_total p bytes :
  wf p -> is_range isize bytes ->
  match checked_offset p bytes with
  | Val q => wf q /\ origin q = origin p /\ inner_type q = inner_type p /\
             is_pinned q = is_pinned p /\
             (is_unmanaged (origin p) = false -> byte_offset q = byte_offset p + bytes /\
               0 <= byte_offset q <= int_max U32)
  | Err e => is_unmanaged (origin p) = false /\
             match e with
             | ArithmeticOverflow => int_max I64 < byte_offset p + bytes
             | NegativeResult => byte_offset p + bytes < 0
             | CompactRangeExceeded => int_max U32 < byte_offset p + bytes
             | NullCachedAddress => exists a, value p = Some a /\ (a + bytes) mod 2 ^ 64 = 0
             end
  | Panic => False
  end.
Proof.
  intros Hp Hb. destruct (is_unmanaged (origin p)) eqn:Ho.
  { destruct (checked_offset_unmanaged_eq p bytes Hp Ho) as (q & -> & Hq & ? & ? & Hpin).
    unfold is_pinned. rewrite Hpin. naive_solver. }
  rewrite checked_offset_managed_eq, byte_offset_managed by done. cbn zeta.
  pose proof (wf_offset p Hp) as Hoff.
  destruct (in_range I64 (offset p + bytes)) eqn:E1; cbn [negb].
  2:{ apply in_range_false in E1. split; [done|]. int_bounds. lia. }
  destruct (offset p + bytes <? 0) eqn:E2; bool_to_prop; [done|].
  destruct (in_range U32 (offset p + bytes)) eqn:E3; cbn [negb].
  2:{ apply in_range_false in E3. split; [done|]. int_bounds. lia. }
  apply in_range_spec in E3.
  assert (Hset : forall v, address_ok v -> wf (set_position p v (offset p + bytes) false) /\
    is_pinned (set_position p v (offset p + bytes) false) = is_pinned p).
  { intros v Hv. split; [by apply set_position_wf|]. unfold is_pinned, set_position; cbn [flags].
    by rewrite with_flag_pinned by apply Hp. }
  assert (Hfin : 0 <= offset p + bytes <= int_max U32) by (int_bounds; lia).
  destruct (value p) as [a|].
  - destruct (nonnull (wrap usize (a + bytes))) as [a'|] eqn:En.
    + destruct (Hset (Some a')) as [? ?]; [rewrite <- En; apply nonnull_ok, wrap_range|].
      repeat (split; [done|]). intros _. by rewrite byte_offset_managed.
    + split; [done|]. exists a. split; [done|]. unfold nonnull in En.
      destruct (_ =? 0) eqn:Ez; [|done]. by apply Z.eqb_eq in Ez.
  - destruct (Hset None) as [? ?]; [done|].
    repeat (split; [done|]). intros _. by rewrite byte_offset_managed.
Qed.

Lemma checked_offset_total_witness :
  let p := {| value := Some 16; origin := Static {| type_desc := NULL_TYPE; generics := [] |};
              inner_type := NULL_TYPE; offset := 4294967290; flags := 0 |} in
  wf p /\ checked_offset p 6 = Err CompactRangeExceeded /\ int_max U32 < 4294967290 + 6.
Proof.
  set (p := {| value := Some 16; origin := _; inner_type := _; offset := _; flags := _ |}).
  assert (Hp : wf p) by (split; vm_compute; intuition congruence).
  split; [exact Hp|]. split; [reflexivity|].
  apply (checked_offset_total p 6 Hp). split; vm_compute; congruence.
Defined.

(**  The frame-home window check grants exactly the ranges inside the live
    block: an unknown serial is [InvalidOrigin], a range that overflows or leaves
    the block is [BoundsCheck], and otherwise the address is the block's base plus
    the offset, inside the block, without wrapping and without panicking. *)
Theorem frame_home_window_spec blocks serial off size base len :
  blocks serial = Some (base, len) -> 0 < base -> base + len <= int_max usize ->
  0 <= off -> 0 <= size ->
  frame_home_window blocks serial off size =
    (if off + size <=? len then Val (base + off) else Err (BoundsCheck off size len)).
Proof.
  intros Hb Hbase Hlen Ho Hs. unfold frame_home_window. rewrite Hb. simpl.
  unfold checked. destruct (in_range usize (off + size)) eqn:E.
  - destruct (off + size <=? len) eqn:El; [|done]. bool_to_prop.
    rewrite wrap_id by (int_bounds; lia). unfold nonnull.
    destruct (base + off =? 0) eqn:Ez; bool_to_prop; [lia|done].
  - apply in_range_false in E. destruct (off + size <=? len) eqn:El; [|done].
    bool_to_prop. int_bounds. lia.
Qed.

Lemma frame_home_window_spec_witness :
  frame_home_window (fun s => if s =? 3 then Some (4096, 32) else None) 3 24 8 = Val 4120 /\
  frame_home_window (fun s => if s =? 3 then Some (4096, 32) else None) 3 25 8 =
    Err (BoundsCheck 25 8 32).
Proof.
  split;
    rewrite (frame_home_window_spec _ 3 _ _ 4096 32) by (reflexivity || (vm_compute; congruence));
    reflexivity.
Defined.
