(* ===== verification/ArenaRegistry.v ===== *)
(** * The arena registry and its leases

    [dotnet-utils/src/gc/cross_arena.rs]: arenas register under an ID, are named by
    a generation-qualified identity and by a token that is never issued twice,
    and may be freed only after every lease on the registration is dropped.

    The registry sections run under one lock, so each is one function.  An
    [Arc<ArenaState>] is named by its generation, which is unique; [states] is the
    store those shared objects live in.  [sys] adds the leases of all threads,
    the threads' [HELD_LEASES] tables, and which registrations are being drained
    or have had their storage freed; [step] interleaves the operations. *)

From Stdlib Require Import ZArith Lia.
From stdpp Require Import base tactics list gmap.
From S2P Require Import Prelude ManagedPtr.

Module Registry.

Inductive ArenaRegistrationError : Set :=
| DuplicateLive (id : Z)
| GenerationExhausted
| TokenExhausted.

Record ArenaState : Set := {
  stw_flag : nat;
  active_leases : Z;
  is_alive : bool;
  st_generation : Z;
  st_token : Z;
}.

Definition new_state (flag : nat) (gen token : Z) : ArenaState :=
  {| stw_flag := flag; active_leases := 0; is_alive := true;
     st_generation := gen; st_token := token |}.

Definition set_leases (st : ArenaState) (n : Z) : ArenaState :=
  {| stw_flag := stw_flag st; active_leases := n; is_alive := is_alive st;
     st_generation := st_generation st; st_token := st_token st |}.

Definition kill (st : ArenaState) : ArenaState :=
  {| stw_flag := stw_flag st; active_leases := active_leases st; is_alive := false;
     st_generation := st_generation st; st_token := st_token st |}.

(** The registry, the fast-path bitset [VALID_ARENAS_FAST], the shared states and
    the stop-the-world flags they point to. *)
Record ArenaRegistry : Set := {
  by_id : gmap Z Z;
  by_token : gmap Z Z;
  next_generation : Z;
  next_token : Z;
  fast : Z;
  states : gmap Z ArenaState;
  stw_flags : gmap nat bool;
}.

Definition empty_registry : ArenaRegistry :=
  {| by_id := ∅; by_token := ∅; next_generation := 0; next_token := 1; fast := 0;
     states := ∅; stw_flags := ∅ |}.

Definition set_states (r : ArenaRegistry) (m : gmap Z ArenaState) : ArenaRegistry :=
  {| by_id := by_id r; by_token := by_token r; next_generation := next_generation r;
     next_token := next_token r; fast := fast r; states := m; stw_flags := stw_flags r |}.

(** [RegistrationToken::from_raw]. *)
Definition token_from_raw (v : Z) : option Z := if v =? 0 then None else Some v.

Definition fast_or (f id : Z) : Z := if id <? 64 then Z.lor f (Z.shiftl 1 id) else f.

Definition fast_and_not (f id : Z) : Z :=
  if id <? 64 then Z.land f (wrap U64 (Z.lnot (Z.shiftl 1 id))) else f.

Definition fast_bit (f id : Z) : bool := negb (Z.land f (Z.shiftl 1 id) =? 0).

Definition register (r : ArenaRegistry) (id : Z) (flag : nat)
  : outcome ArenaRegistrationError (ArenaIdentity * ArenaRegistry) :=
  match by_id r !! id with
  | Some _ => Err (DuplicateLive id)
  | None =>
      let* next_gen := ok_or (checked U64 (next_generation r + 1)) GenerationExhausted in
      let* raw_token :=
        ok_or (match checked U32 (next_token r) with
               | Some v => token_from_raw v
               | None => None
               end) TokenExhausted in
      let identity := {| arena_id := id; generation := next_generation r |} in
      let* next_tok := arith U64 (next_token r + 1) in
      Val (identity,
           {| by_id := <[id := generation identity]> (by_id r);
              by_token := <[raw_token := id]> (by_token r);
              next_generation := next_gen; next_token := next_tok;
              fast := fast_or (fast r) id;
              states := <[generation identity := new_state flag (generation identity) raw_token]>
                          (states r);
              stw_flags := stw_flags r |})
  end.

(** [ArenaRegistry::remove] with the fast-bit update of [remove_registration],
    which runs under the same write lock; the result names the removed state. *)
Definition remove_registration (r : ArenaRegistry) (id : Z) (expected : option ArenaIdentity)
  : option (Z * ArenaRegistry) :=
  match by_id r !! id with
  | None => None
  | Some k =>
      match states r !! k with
      | None => None
      | Some st =>
          if match expected with
             | Some i => negb (arena_id i =? id) || negb (generation i =? st_generation st)
             | None => false
             end
          then None
          else Some (k, {| by_id := delete id (by_id r);
                           by_token := delete (st_token st) (by_token r);
                           next_generation := next_generation r; next_token := next_token r;
                           fast := fast_and_not (fast r) id;
                           states := <[k := kill st]> (states r);
                           stw_flags := stw_flags r |})
      end
  end.

(** A live [ArenaLease]: the thread that holds it, its arena and generation. *)
Record lease : Set := { l_thread : nat; l_arena : Z; l_generation : Z }.

#[export] Instance lease_eq_dec : EqDecision lease.
Proof. solve_decision. Defined.

Definition lease_under_lock (r : ArenaRegistry) (th : nat) (id k : Z) (st : ArenaState)
  : lease * ArenaRegistry :=
  ({| l_thread := th; l_arena := id; l_generation := st_generation st |},
   set_states r (<[k := set_leases st (wrap usize (active_leases st + 1))]> (states r))).

(** The state an ID is registered with. *)
Definition lookup_state (r : ArenaRegistry) (id : Z) : option (Z * ArenaState) :=
  match by_id r !! id with
  | Some k => match states r !! k with Some st => Some (k, st) | None => None end
  | None => None
  end.

Definition try_acquire_lease (r : ArenaRegistry) (th : nat) (id : Z)
  : option (lease * ArenaRegistry) :=
  if (id <? 64) && negb (fast_bit (fast r) id) then None
  else match lookup_state r id with
       | Some (k, st) => Some (lease_under_lock r th id k st)
       | None => None
       end.

Definition try_acquire_lease_for_identity (r : ArenaRegistry) (th : nat) (i : ArenaIdentity)
  : option (lease * ArenaRegistry) :=
  match lookup_state r (arena_id i) with
  | Some (k, st) =>
      if st_generation st =? generation i
      then Some (lease_under_lock r th (arena_id i) k st) else None
  | None => None
  end.

Definition try_acquire_lease_for_token (r : ArenaRegistry) (th : nat) (token : Z)
  : option (lease * ArenaRegistry) :=
  match by_token r !! token with
  | Some id =>
      match lookup_state r id with
      | Some (k, st) => Some (lease_under_lock r th id k st)
      | None => None
      end
  | None => None
  end.

(** [registration_for_identity]: the captured state, without a lease. *)
Definition registration_for_identity (r : ArenaRegistry) (i : ArenaIdentity) : option Z :=
  match lookup_state r (arena_id i) with
  | Some (k, st) => if st_generation st =? generation i then Some k else None
  | None => None
  end.

Definition is_valid_cross_arena_ref (r : ArenaRegistry) (id : Z) : bool :=
  if id <? 64 then fast_bit (fast r) id
  else match by_id r !! id with Some _ => true | None => false end.

(** [ArenaLease::is_valid]. *)
Definition lease_is_valid (r : ArenaRegistry) (l : lease) : bool :=
  match states r !! l_generation l with
  | Some st => is_alive st && (st_generation st =? l_generation l)
  | None => false
  end.

Definition set_stw_in_progress (r : ArenaRegistry) (id : Z) (b : bool) : ArenaRegistry :=
  match lookup_state r id with
  | Some (_, st) =>
      {| by_id := by_id r; by_token := by_token r; next_generation := next_generation r;
         next_token := next_token r; fast := fast r; states := states r;
         stw_flags := <[stw_flag st := b]> (stw_flags r) |}
  | None => r
  end.

Definition is_stw_in_progress (r : ArenaRegistry) (id : Z) : bool :=
  match lookup_state r id with
  | Some (_, st) => default false (stw_flags r !! stw_flag st)
  | None => false
  end.

(** ** The per-thread table of held leases *)

Fixpoint track (h : list (Z * Z)) (id : Z) : list (Z * Z) :=
  match h with
  | [] => [(id, 1)]
  | (i, n) :: h => if i =? id then (i, n + 1) :: h else (i, n) :: track h id
  end.

(** [position] of the entry of an arena. *)
Fixpoint held_position (h : list (Z * Z)) (id : Z) : option nat :=
  match h with
  | [] => None
  | (i, _) :: h => if i =? id then Some O else S <$> held_position h id
  end.

(** [Vec::swap_remove]: the last entry takes the removed entry's place. *)
Definition swap_remove {A} (l : list A) (i : nat) : list A :=
  match last l with
  | None => l
  | Some x =>
      if decide (S i = length l) then take i l
      else take (length l - 1) (<[i := x]> l)
  end.

Definition untrack (h : list (Z * Z)) (id : Z) : list (Z * Z) :=
  match held_position h id with
  | None => h
  | Some i =>
      match h !! i with
      | Some (a, n) => if n - 1 =? 0 then swap_remove h i else <[i := (a, n - 1)]> h
      | None => h
      end
  end.

Definition holds (h : list (Z * Z)) (id : Z) : bool :=
  existsb (fun '(i, _) => i =? id) h.

(** ** All threads *)

Record sys : Set := {
  reg : ArenaRegistry;
  leases : list lease;
  held : gmap nat (list (Z * Z));
  handles : gset (Z * Z);
  draining : gset Z;
  freed : gset Z;
}.

Definition sys0 : sys :=
  {| reg := empty_registry; leases := []; held := ∅; handles := ∅; draining := ∅; freed := ∅ |}.

Definition get_held (s : sys) (th : nat) : list (Z * Z) := default [] (held s !! th).

Definition with_reg (s : sys) (r : ArenaRegistry) : sys :=
  {| reg := r; leases := leases s; held := held s; handles := handles s;
     draining := draining s; freed := freed s |}.

(** A lease obtained: it is tracked in the holder's table. *)
Definition add_lease (s : sys) (l : lease) (r : ArenaRegistry) : sys :=
  {| reg := r; leases := l :: leases s;
     held := <[l_thread l := track (get_held s (l_thread l)) (l_arena l)]> (held s);
     handles := handles s; draining := draining s; freed := freed s |}.

(** [Drop for ArenaLease]. *)
Definition drop_lease (s : sys) (l : lease) (rest : list lease) : sys :=
  {| reg := match states (reg s) !! l_generation l with
            | Some st => set_states (reg s)
                (<[l_generation l := set_leases st (wrap usize (active_leases st - 1))]>
                   (states (reg s)))
            | None => reg s
            end;
     leases := rest;
     held := <[l_thread l := untrack (get_held s (l_thread l)) (l_arena l)]> (held s);
     handles := handles s; draining := draining s; freed := freed s |}.

Definition start_drain (s : sys) (k : Z) (r : ArenaRegistry) : sys :=
  {| reg := r; leases := leases s; held := held s; handles := handles s;
     draining := {[k]} ∪ draining s;
     freed := freed s |}.

(** An owner captures its registration; the handle is the arena ID and the state. *)
Definition add_handle (s : sys) (id k : Z) : sys :=
  {| reg := reg s; leases := leases s; held := held s; handles := {[(id, k)]} ∪ handles s;
     draining := draining s; freed := freed s |}.

(** [unregister_and_drain] up to its wait: the thread [th] removes the
    registration it captured as [k] (whose generation is [k]) if it is still there, and then waits unless
    it holds a lease of that arena itself. *)
Definition unregister_and_drain (s : sys) (th : nat) (id k : Z) : sys :=
  let i := {| arena_id := id; generation := k |} in
  let r := match remove_registration (reg s) id (Some i) with
           | Some (_, r) => r
           | None => reg s
           end in
  if holds (get_held s th) id then with_reg s r else start_drain s k r.

Definition acquired (r : ArenaRegistry) (l : lease) (r' : ArenaRegistry) : Prop :=
  (exists id, try_acquire_lease r (l_thread l) id = Some (l, r')) \/
  (exists i, try_acquire_lease_for_identity r (l_thread l) i = Some (l, r')) \/
  (exists t, try_acquire_lease_for_token r (l_thread l) t = Some (l, r')).

Inductive step : sys -> sys -> Prop :=
| step_register s id flag i r :
    is_range U64 id -> register (reg s) id flag = Val (i, r) -> step s (with_reg s r)
| step_acquire s l r :
    Z.of_nat (length (leases s)) < int_max usize ->
    acquired (reg s) l r -> step s (add_lease s l r)
| step_drop s l rest :
    leases s ≡ₚ l :: rest -> step s (drop_lease s l rest)
| step_remove s id expected k r :
    is_range U64 id -> remove_registration (reg s) id expected = Some (k, r) ->
    step s (start_drain s k r)
| step_capture s i k :
    registration_for_identity (reg s) i = Some k -> step s (add_handle s (arena_id i) k)
| step_teardown s th id k :
    (id, k) ∈ handles s -> step s (unregister_and_drain s th id k)
| step_drained s k st :
    k ∈ draining s -> states (reg s) !! k = Some st -> active_leases st = 0 ->
    step s {| reg := reg s; leases := leases s; held := held s; handles := handles s;
              draining := draining s ∖ {[k]}; freed := {[k]} ∪ freed s |}
| step_stw s id b :
    step s (with_reg s (set_stw_in_progress (reg s) id b)).

(** ** Invariant *)

Definition lease_count (k : Z) (ls : list lease) : Z :=
  Z.of_nat (length (filter (fun l => l_generation l = k) ls)).

Definition thread_lease_count (th : nat) (id : Z) (ls : list lease) : Z :=
  Z.of_nat (length (filter (fun l => l_thread l = th /\ l_arena l = id) ls)).

Record reg_inv (r : ArenaRegistry) : Prop := {
  ri_gen : 0 <= next_generation r;
  ri_tok : 1 <= next_token r;
  ri_state k st : states r !! k = Some st ->
    0 <= k < next_generation r /\ 1 <= st_token st < next_token r /\ st_generation st = k;
  ri_inj k1 k2 st1 st2 : states r !! k1 = Some st1 -> states r !! k2 = Some st2 ->
    st_token st1 = st_token st2 -> k1 = k2;
  ri_id id k : by_id r !! id = Some k ->
    is_range U64 id /\
    exists st, states r !! k = Some st /\ is_alive st = true /\ by_token r !! st_token st = Some id;
  ri_token t id : by_token r !! t = Some id ->
    exists k st, by_id r !! id = Some k /\ states r !! k = Some st /\ st_token st = t;
  ri_fast id : 0 <= id < 64 -> Z.testbit (fast r) id = bool_decide (is_Some (by_id r !! id));
}.

Definition held_ok (th : nat) (h : list (Z * Z)) (ls : list lease) : Prop :=
  NoDup h.*1 /\
  forall id n, (id, n) ∈ h <-> n = thread_lease_count th id ls /\ 0 < n.

Record sys_inv (s : sys) : Prop := {
  si_reg : reg_inv (reg s);
  si_count k st : states (reg s) !! k = Some st -> active_leases st = lease_count k (leases s);
  si_lease l : l ∈ leases s -> is_Some (states (reg s) !! l_generation l);
  si_bound : Z.of_nat (length (leases s)) <= int_max usize;
  si_gone k id : k ∈ draining s ∪ freed s -> by_id (reg s) !! id <> Some k;
  si_state k : k ∈ draining s ∪ freed s -> is_Some (states (reg s) !! k);
  si_freed k : k ∈ freed s -> lease_count k (leases s) = 0;
  si_handle id k : (id, k) ∈ handles s ->
    is_Some (states (reg s) !! k) /\ forall id', by_id (reg s) !! id' = Some k -> id' = id;
  si_held th : held_ok th (get_held s th) (leases s);
}.

(** ** Lemmas on the registry *)

Lemma lookup_state_some r id k st :
  lookup_state r id = Some (k, st) <-> by_id r !! id = Some k /\ states r !! k = Some st.
Proof.
  unfold lookup_state. destruct (by_id r !! id) as [k'|]; [|naive_solver].
  destruct (states r !! k') eqn:E; naive_solver.
Qed.

Lemma testbit_or_shift f id j :
  0 <= id -> 0 <= j -> Z.testbit (Z.lor f (Z.shiftl 1 id)) j = Z.testbit f j || (id =? j).
Proof.
  intros. rewrite Z.lor_spec. f_equal. rewrite Z.shiftl_spec by done.
  destruct (Z.eqb_spec id j) as [->|]; [by rewrite Z.sub_diag|].
  destruct (Z.lt_ge_cases j id); [by rewrite Z.testbit_neg_r by lia|].
  change 1 with (2 ^ 0). apply Z.pow2_bits_false. lia.
Qed.

Lemma testbit_and_not f id j :
  0 <= id < 64 -> 0 <= j < 64 ->
  Z.testbit (Z.land f (wrap U64 (Z.lnot (Z.shiftl 1 id)))) j = Z.testbit f j && negb (id =? j).
Proof.
  intros. rewrite Z.land_spec. f_equal. unfold wrap. simpl.
  change 18446744073709551616 with (2 ^ 64). rewrite Z.mod_pow2_bits_low by lia.
  rewrite Z.lnot_spec by lia. f_equal. rewrite Z.shiftl_spec by lia.
  destruct (Z.eqb_spec id j) as [->|]; [by rewrite Z.sub_diag|].
  destruct (Z.lt_ge_cases j id); [by rewrite Z.testbit_neg_r by lia|].
  change 1 with (2 ^ 0). apply Z.pow2_bits_false. lia.
Qed.

Lemma fast_bit_testbit f id : 0 <= id -> fast_bit f id = Z.testbit f id.
Proof.
  intros. unfold fast_bit. destruct (Z.testbit f id) eqn:E.
  - apply negb_true_iff, Z.eqb_neq. intros H0.
    assert (Ht : Z.testbit (Z.land f (Z.shiftl 1 id)) id = true).
    { rewrite Z.land_spec, E, Z.shiftl_spec, Z.sub_diag by done. done. }
    rewrite H0, Z.testbit_0_l in Ht. done.
  - apply negb_false_iff, Z.eqb_eq. apply Z.bits_inj'. intros n Hn.
    rewrite Z.land_spec, Z.testbit_0_l, Z.shiftl_spec by done.
    destruct (Z.eq_dec n id) as [->|]; [by rewrite E|].
    destruct (Z.lt_ge_cases n id); [by rewrite (Z.testbit_neg_r 1), andb_false_r by lia|].
    change 1 with (2 ^ 0). rewrite Z.pow2_bits_false, andb_false_r by lia. done.
Qed.

Lemma register_val r id flag i r' :
  register r id flag = Val (i, r') ->
  by_id r !! id = None /\ i = {| arena_id := id; generation := next_generation r |} /\
  next_token r <= int_max U32 /\
  by_id r' = <[id := next_generation r]> (by_id r) /\
  by_token r' = <[next_token r := id]> (by_token r) /\
  next_generation r' = next_generation r + 1 /\ next_token r' = next_token r + 1 /\
  fast r' = fast_or (fast r) id /\
  states r' = <[next_generation r := new_state flag (next_generation r) (next_token r)]> (states r).
Proof.
  unfold register. destruct (by_id r !! id) eqn:Eid; [done|].
  intros (ng & Hg & H1)%obind_val. apply obind_val in H1 as (tok & Ht & H2).
  apply obind_val in H2 as (nt & Hn & [= <- <-]). simpl.
  unfold ok_or in *. destruct (checked U64 _) eqn:Eg; [|done].
  apply checked_some in Eg as [-> _]. simplify_eq.
  destruct (checked U32 _) eqn:Et; [|done]. apply checked_some in Et as [-> Hr].
  unfold token_from_raw in Ht. destruct (next_token r =? 0); [done|]. simplify_eq.
  apply arith_val in Hn as [-> _]. unfold is_range in Hr. intuition.
Qed.

Lemma remove_registration_val r id e k r' :
  remove_registration r id e = Some (k, r') ->
  exists st, by_id r !! id = Some k /\ states r !! k = Some st /\
    (forall i, e = Some i -> arena_id i = id /\ generation i = st_generation st) /\
    by_id r' = delete id (by_id r) /\ by_token r' = delete (st_token st) (by_token r) /\
    next_generation r' = next_generation r /\ next_token r' = next_token r /\
    fast r' = fast_and_not (fast r) id /\ states r' = <[k := kill st]> (states r).
Proof.
  unfold remove_registration. destruct (by_id r !! id) as [k'|] eqn:Eid; [|done].
  destruct (states r !! k') as [st|] eqn:Est; [|done].
  destruct (match e with Some _ => _ | None => false end) eqn:Ee; [done|].
  intros [= <- <-]. exists st. simpl. repeat (split; [done|]). split; [|done].
  intros i ->. bool_to_prop. auto.
Qed.

Lemma acquired_val r l r' :
  acquired r l r' ->
  exists k st, by_id r !! l_arena l = Some k /\ states r !! k = Some st /\
    l_generation l = st_generation st /\
    r' = set_states r (<[k := set_leases st (wrap usize (active_leases st + 1))]> (states r)).
Proof.
  intros [[id H]|[[i H]|[t H]]]; revert H.
  - unfold try_acquire_lease. destruct (_ && _); [done|].
    destruct (lookup_state r id) as [[k st]|] eqn:E; [|done]. intros [= <- <-]. simpl.
    apply lookup_state_some in E. naive_solver.
  - unfold try_acquire_lease_for_identity.
    destruct (lookup_state r (arena_id i)) as [[k st]|] eqn:E; [|done].
    destruct (_ =? _); [|done]. intros [= <- <-]. simpl.
    apply lookup_state_some in E. naive_solver.
  - unfold try_acquire_lease_for_token. destruct (by_token r !! t); [|done].
    destruct (lookup_state r z) as [[k st]|] eqn:E; [|done]. intros [= <- <-]. simpl.
    apply lookup_state_some in E. naive_solver.
Qed.

(** ** Lemmas on counts and the held-lease table *)

Lemma lease_count_cons k l ls :
  lease_count k (l :: ls) = lease_count k ls + (if decide (l_generation l = k) then 1 else 0).
Proof. unfold lease_count. rewrite filter_cons. case_decide; simpl; lia. Qed.

Lemma lease_count_perm k ls ls' : ls ≡ₚ ls' -> lease_count k ls = lease_count k ls'.
Proof. intros H. unfold lease_count. by rewrite H. Qed.

Lemma lease_count_bound k ls : 0 <= lease_count k ls <= Z.of_nat (length ls).
Proof. unfold lease_count. pose proof (length_filter (fun l => l_generation l = k) ls). lia. Qed.

Lemma lease_count_zero k ls : lease_count k ls = 0 -> forall l, l ∈ ls -> l_generation l <> k.
Proof.
  intros H l Hl Heq. unfold lease_count in H.
  assert (Hf : filter (fun l => l_generation l = k) ls = []) by (apply nil_length_inv; lia).
  assert (l ∈ filter (fun l => l_generation l = k) ls) as Hin by by apply list_elem_of_filter.
  rewrite Hf in Hin. by apply not_elem_of_nil in Hin.
Qed.

Lemma thread_count_cons th id l ls :
  thread_lease_count th id (l :: ls) =
  thread_lease_count th id ls + (if decide (l_thread l = th /\ l_arena l = id) then 1 else 0).
Proof. unfold thread_lease_count. rewrite filter_cons. case_decide; simpl; lia. Qed.

Lemma thread_count_perm th id ls ls' :
  ls ≡ₚ ls' -> thread_lease_count th id ls = thread_lease_count th id ls'.
Proof. intros H. unfold thread_lease_count. by rewrite H. Qed.

Lemma thread_count_nonneg th id ls : 0 <= thread_lease_count th id ls.
Proof. unfold thread_lease_count. lia. Qed.

(** [track] adds one to the entry of its arena. *)
Lemma track_elem h id i n :
  NoDup h.*1 -> (forall j m, (j, m) ∈ h -> 0 < m) ->
  ((i, n) ∈ track h id <->
   if decide (i = id) then (id, n - 1) ∈ h \/ (n = 1 /\ id ∉ h.*1) else (i, n) ∈ h).
Proof.
  induction h as [|[j m] h IH]; simpl; intros Hnd Hpos.
  - rewrite list_elem_of_singleton. case_decide; rewrite !elem_of_nil; naive_solver.
  - apply NoDup_cons in Hnd as [Hj Hnd]. destruct (Z.eqb_spec j id) as [->|Hne].
    + rewrite elem_of_cons. assert (Hj' : forall m, (id, m) ∉ h)
        by (intros m' Hm'; apply Hj; by apply (list_elem_of_fmap_2 fst) in Hm').
      case_decide as Hi; [subst i | rewrite elem_of_cons; naive_solver].
      rewrite !elem_of_cons. split.
      * intros [?|?%Hj']; [|done]. left. left. simplify_eq. f_equal. lia.
      * intros [[?|?%Hj']|[_ []]]; [|done|by left]. left. simplify_eq. f_equal. lia.
    + rewrite elem_of_cons, IH by (done || set_solver).
      case_decide; rewrite !elem_of_cons; naive_solver.
Qed.

Lemma track_keys h id : NoDup h.*1 -> NoDup (track h id).*1.
Proof.
  assert (Hk : forall h, (track h id).*1 ⊆ id :: h.*1).
  { clear h. induction h as [|[j m] h IH]; simpl; [set_solver|].
    destruct (Z.eqb_spec j id); simpl; set_solver. }
  induction h as [|[j m] h IH]; simpl; intros Hnd; [apply NoDup_singleton|].
  apply NoDup_cons in Hnd as [Hj Hnd]. destruct (Z.eqb_spec j id); simpl; [by constructor|].
  constructor; [|by apply IH]. intros Hin%Hk. set_solver.
Qed.

Lemma swap_remove_perm {A} (l : list A) i x : l !! i = Some x -> l ≡ₚ x :: swap_remove l i.
Proof.
  intros Hi. pose proof (lookup_lt_Some _ _ _ Hi) as Hlt. unfold swap_remove.
  destruct (last l) as [y|] eqn:Hl.
  2:{ apply last_None in Hl as ->. done. }
  apply last_Some in Hl as [l' ->]. rewrite length_app in *. simpl in *.
  destruct (decide _) as [Heq|Hne].
  - assert (i = length l') as -> by lia. rewrite lookup_app_r, Nat.sub_diag in Hi by done.
    simplify_eq/=. rewrite take_app_length. by rewrite Permutation_app_comm.
  - assert (i < length l')%nat by lia. rewrite lookup_app_l in Hi by done.
    replace (length l' + 1 - 1)%nat with (length l') by lia.
    rewrite insert_app_l by done. rewrite <- (length_insert l' i y) at 1.
    rewrite take_app_length. rewrite Permutation_app_comm. simpl.
    rewrite <- (take_drop_middle l' i x) at 1 by done.
    rewrite insert_take_drop by done. rewrite Permutation_app_comm. simpl.
    rewrite (Permutation_app_comm (take i l')). simpl. apply Permutation_swap.
Qed.

Lemma held_position_some h id i :
  held_position h id = Some i -> exists n, h !! i = Some (id, n).
Proof.
  revert i. induction h as [|[j m] h IH]; simpl; intros i; [done|].
  destruct (Z.eqb_spec j id) as [->|]; [intros [= <-]; by exists m|].
  destruct (held_position h id) as [p|]; simpl; [|done]. intros [= <-]. simpl. by apply IH.
Qed.

Lemma held_position_none h id : held_position h id = None -> id ∉ h.*1.
Proof.
  induction h as [|[j m] h IH]; simpl; [set_solver|].
  destruct (Z.eqb_spec j id) as [->|]; [done|].
  destruct (held_position h id); simpl; [done|]. set_solver.
Qed.

(** [untrack] takes one from the entry of its arena, and the entry out at zero. *)
Lemma untrack_elem h id n0 :
  NoDup h.*1 -> (id, n0) ∈ h ->
  NoDup (untrack h id).*1 /\
  forall i n, (i, n) ∈ untrack h id <->
    if decide (i = id) then n = n0 - 1 /\ n <> 0 else (i, n) ∈ h.
Proof.
  intros Hnd Hin. unfold untrack. destruct (held_position h id) as [p|] eqn:Ep.
  2:{ apply held_position_none in Ep. destruct Ep. by apply (list_elem_of_fmap_2 fst) in Hin. }
  apply held_position_some in Ep as [n Hp]. rewrite Hp.
  assert (Hperm : exists rest, h ≡ₚ (id, n) :: rest /\ swap_remove h p ≡ₚ rest /\
     forall y, <[p := y]> h ≡ₚ y :: rest).
  { exists (delete p h). rewrite (delete_Permutation _ _ _ Hp) at 1. split; [done|]. split.
    - apply (Permutation_cons_inv (a := (id, n))).
      by rewrite <- (swap_remove_perm h p) , <- delete_Permutation by done.
    - intros y. pose proof (lookup_lt_Some _ _ _ Hp).
      rewrite (delete_Permutation (<[p:=y]> h) p y) by by rewrite list_lookup_insert_eq.
      apply Permutation_skip. rewrite !delete_take_drop.
      rewrite take_insert_ge, drop_insert_lt by lia. done. }
  destruct Hperm as (rest & Hh & Hs & Hy).
  assert (Hnd' : (id ∉ rest.*1) /\ NoDup rest.*1).
  { rewrite Hh in Hnd. simpl in Hnd. by apply NoDup_cons in Hnd. }
  destruct Hnd' as [Hid Hndr].
  assert (Hno : forall m, (id, m) ∉ rest)
    by (intros m Hm; apply Hid; by apply (list_elem_of_fmap_2 fst) in Hm).
  assert (n = n0) as ->.
  { rewrite Hh in Hin. apply elem_of_cons in Hin as [|Hin]; [by simplify_eq|].
    by apply Hno in Hin. }
  destruct (Z.eqb_spec (n0 - 1) 0) as [E0|E0].
  - rewrite Hs. split; [done|]. intros i m. rewrite Hs.
    case_decide; [subst | rewrite Hh, elem_of_cons; naive_solver].
    split; [by intros ?%Hno | lia].
  - rewrite (Hy (id, n0 - 1)). simpl. split; [by constructor|].
    intros i m. rewrite (Hy (id, n0 - 1)), elem_of_cons.
    case_decide; [subst | rewrite Hh, elem_of_cons; naive_solver].
    split; [intros [?|?%Hno]; naive_solver|]. intros [-> _]. by left.
Qed.

(** ** The registry invariant is preserved *)

Lemma reg_inv_empty : reg_inv empty_registry.
Proof.
  split; simpl; try lia; try (intros *; by rewrite ?lookup_empty).
  intros id _. rewrite Z.testbit_0_l, lookup_empty. done.
Qed.

Lemma reg_inv_set r k st st' :
  reg_inv r -> states r !! k = Some st ->
  st_token st' = st_token st -> st_generation st' = st_generation st -> is_alive st' = is_alive st ->
  reg_inv (set_states r (<[k := st']> (states r))).
Proof.
  intros [H1 H2 H3 H4 H5 H6 H7] Hk Ht Hg Ha.
  assert (Hl : forall j s, <[k := st']> (states r) !! j = Some s ->
    exists s0, states r !! j = Some s0 /\ st_token s = st_token s0 /\
      st_generation s = st_generation s0 /\ is_alive s = is_alive s0).
  { intros j s [[<- <-]|[_ Hj]]%lookup_insert_Some; eauto. }
  assert (Hr : forall j s0, states r !! j = Some s0 -> exists s, <[k := st']> (states r) !! j = Some s /\
      st_token s = st_token s0 /\ is_alive s = is_alive s0).
  { intros j s0 Hj. destruct (decide (k = j)) as [<-|].
    - exists st'. rewrite lookup_insert_eq. naive_solver.
    - exists s0. by rewrite lookup_insert_ne. }
  split; simpl; try done.
  - intros j s (s0 & Hj & -> & -> & _)%Hl. eauto.
  - intros j1 j2 s1 s2 (t1 & Hj1 & -> & _)%Hl (t2 & Hj2 & -> & _)%Hl. eauto.
  - intros id j (Hr' & s0 & Hj & Hal & Htok)%H5. split; [done|].
    destruct (Hr _ _ Hj) as (s & ? & ? & ?). exists s. split; [done|]. split; congruence.
  - intros t id (j & s0 & Hid & Hj & Htok)%H6. destruct (Hr _ _ Hj) as (s & ? & ? & _).
    exists j, s. split; [done|]. split; congruence.
Qed.

Lemma reg_inv_register r id flag i r' :
  reg_inv r -> is_range U64 id -> register r id flag = Val (i, r') -> reg_inv r'.
Proof.
  intros [H1 H2 H3 H4 H5 H6 H7] Hid
    (Hn & _ & _ & Ebi & Ebt & Eg & Et & Ef & Es)%register_val.
  assert (Hfs : states r !! next_generation r = None).
  { destruct (states r !! _) eqn:E; [|done]. apply H3 in E. lia. }
  assert (Hft : by_token r !! next_token r = None).
  { destruct (by_token r !! _) eqn:E; [|done]. apply H6 in E as (k & st & _ & E%H3 & Hk). lia. }
  split; rewrite ?Ebi, ?Ebt, ?Eg, ?Et, ?Ef, ?Es; try lia.
  - intros k st [[<- <-]|[_ Hk]]%lookup_insert_Some; [simpl; lia|]. apply H3 in Hk. lia.
  - intros k1 k2 st1 st2 [[<- <-]|[? Hk1]]%lookup_insert_Some [[<- <-]|[? Hk2]]%lookup_insert_Some;
      simpl; intros Heq; try done; [apply H3 in Hk2; lia | apply H3 in Hk1; lia | eauto].
  - intros j k [[<- <-]|[Hne Hk]]%lookup_insert_Some.
    + split; [done|]. eexists. rewrite lookup_insert_eq. split; [done|]. simpl.
      split; [done|]. by rewrite lookup_insert_eq.
    + destruct (H5 _ _ Hk) as (Hj & st & Hst & Ha & Htok). split; [done|]. exists st.
      rewrite !lookup_insert_ne; [done| |]; intros Heq.
      * apply H3 in Hst. lia.
      * subst k. by rewrite Hfs in Hst.
  - intros t j [[<- <-]|[Hne Hk]]%lookup_insert_Some.
    + exists (next_generation r), (new_state flag (next_generation r) (next_token r)).
      by rewrite !lookup_insert_eq.
    + destruct (H6 _ _ Hk) as (k & st & Hj & Hst & Htok). exists k, st.
      rewrite !lookup_insert_ne; [done| |]; intros Heq.
      * subst k. by rewrite Hfs in Hst.
      * subst j. by rewrite Hn in Hj.
  - intros j Hj. unfold fast_or. destruct (id <? 64) eqn:El; bool_to_prop.
    + int_bounds. rewrite testbit_or_shift, H7 by lia. destruct (Z.eqb_spec id j) as [->|].
      * rewrite lookup_insert_eq, orb_true_r. symmetry. by apply bool_decide_eq_true.
      * by rewrite lookup_insert_ne, orb_false_r.
    + rewrite lookup_insert_ne by lia. by apply H7.
Qed.

Lemma reg_inv_remove r id e k r' :
  reg_inv r -> is_range U64 id -> remove_registration r id e = Some (k, r') ->
  reg_inv r' /\ forall j, by_id r' !! j <> Some k.
Proof.
  intros [H1 H2 H3 H4 H5 H6 H7] Hid
    (st & Hbi & Hst & _ & Ebi & Ebt & Eg & Et & Ef & Es)%remove_registration_val.
  destruct (H5 _ _ Hbi) as (_ & st' & Hst' & Ha & Htok). simplify_eq.
  assert (Huniq : forall j, by_id r !! j = Some k -> j = id).
  { intros j (_ & s & Hs & _ & Hj)%H5. congruence. }
  split; [|intros j; rewrite Ebi; intros [? Hj]%lookup_delete_Some; by apply Huniq in Hj].
  split; rewrite ?Ebi, ?Ebt, ?Eg, ?Et, ?Ef, ?Es; try lia.
  - intros j s [[<- <-]|[_ Hk]]%lookup_insert_Some; [simpl; by apply H3 in Hst | by apply H3].
  - intros k1 k2 s1 s2 [[<- <-]|[? Hk1]]%lookup_insert_Some [[<- <-]|[? Hk2]]%lookup_insert_Some;
      simpl; intros Heq; eauto.
  - intros j kj [Hne Hj]%lookup_delete_Some. destruct (H5 _ _ Hj) as (Hr & s & Hs & Hal & Htj).
    split; [done|]. exists s. rewrite lookup_insert_ne.
    + rewrite lookup_delete_ne; [done|]. intros Heq. rewrite <- Heq in Htj. congruence.
    + intros <-. by apply Hne, eq_sym, Huniq.
  - intros t j [Hne Hj]%lookup_delete_Some. destruct (H6 _ _ Hj) as (kj & s & Hb & Hs & Htj).
    exists kj, s. assert (id <> j) by (intros <-; simplify_eq; congruence).
    rewrite lookup_delete_ne, lookup_insert_ne; [done| |done].
    intros <-. by apply Huniq in Hb.
  - intros j Hj. unfold fast_and_not. destruct (id <? 64) eqn:El; bool_to_prop.
    + int_bounds. rewrite testbit_and_not, H7 by lia. destruct (Z.eqb_spec id j) as [->|].
      * rewrite lookup_delete_eq, andb_false_r. symmetry. apply bool_decide_eq_false.
        by intros [? ?].
      * by rewrite lookup_delete_ne, andb_true_r.
    + rewrite lookup_delete_ne by lia. by apply H7.
Qed.

Lemma reg_inv_stw r id b : reg_inv r -> reg_inv (set_stw_in_progress r id b).
Proof. intros [H1 H2 H3 H4 H5 H6 H7]. unfold set_stw_in_progress. by destruct (lookup_state r id) as [[]|]. Qed.

(** ** The system invariant is preserved *)

Lemma sys_inv_init : sys_inv sys0.
Proof.
  split; simpl; try done; try (apply reg_inv_empty); try (intros *; set_solver).
  intros th. unfold get_held. simpl. rewrite lookup_empty. split; [constructor|].
  intros id n. rewrite elem_of_nil. simpl. split; [done|]. intros [-> ?]. done.
Qed.

(** A registry update that registers only fresh states and keeps the counts. *)
Lemma sys_inv_with_reg s r :
  sys_inv s -> reg_inv r ->
  (forall k st, states r !! k = Some st -> active_leases st = lease_count k (leases s)) ->
  (forall k, is_Some (states (reg s) !! k) -> is_Some (states r !! k)) ->
  (forall k id, is_Some (states (reg s) !! k) -> by_id r !! id = Some k ->
    by_id (reg s) !! id = Some k) ->
  sys_inv (with_reg s r).
Proof.
  intros [H1 H2 H3 H4 H5 H6 H7 H8 H9] Hr Hc Hs Hb. split; simpl; try done; eauto.
  - intros k id Hk Hid. eapply H5; eauto.
  - intros id k Hk. destruct (H8 _ _ Hk) as [Hsk Hid]. split; eauto.
Qed.

Lemma sys_inv_start_drain s k r :
  sys_inv (with_reg s r) -> is_Some (states r !! k) -> (forall id, by_id r !! id <> Some k) ->
  sys_inv (start_drain s k r).
Proof.
  intros [H1 H2 H3 H4 H5 H6 H7 H8 H9] Hs Hk. split; simpl in *; try done.
  - intros j id [[->%elem_of_singleton|Hj]%elem_of_union|Hj]%elem_of_union;
      [done | apply H5; set_solver | apply H5; set_solver].
  - intros j [[->%elem_of_singleton|Hj]%elem_of_union|Hj]%elem_of_union;
      [done | apply H6; set_solver | apply H6; set_solver].
Qed.

Lemma fresh_count s k : sys_inv s -> states (reg s) !! k = None -> lease_count k (leases s) = 0.
Proof.
  intros Hs Hk. unfold lease_count. destruct (filter _ _) as [|l ls] eqn:E; [done|].
  assert (Hl : l ∈ filter (fun l => l_generation l = k) (leases s)) by (rewrite E; left).
  apply list_elem_of_filter in Hl as [<- Hl]. apply (si_lease s Hs) in Hl as [? Hl].
  by rewrite Hk in Hl.
Qed.

Lemma sys_inv_register s id flag i r :
  sys_inv s -> is_range U64 id -> register (reg s) id flag = Val (i, r) -> sys_inv (with_reg s r).
Proof.
  intros Hs Hid H. pose proof (reg_inv_register _ _ _ _ _ (si_reg s Hs) Hid H) as Hr.
  apply register_val in H as (Hn & _ & _ & Ebi & _ & _ & _ & _ & Es).
  assert (Hf : states (reg s) !! next_generation (reg s) = None).
  { destruct (states (reg s) !! _) eqn:E; [|done]. apply (ri_state _ (si_reg s Hs)) in E. lia. }
  apply sys_inv_with_reg; try done; rewrite ?Es, ?Ebi.
  - intros k st [[<- <-]|[_ Hk]]%lookup_insert_Some; [simpl; by rewrite fresh_count|].
    by apply (si_count s Hs).
  - intros k Hk. destruct (decide (next_generation (reg s) = k)) as [<-|].
    + by rewrite lookup_insert_eq.
    + by rewrite lookup_insert_ne.
  - intros k j [st Hk] [[_ <-]|[_ Hj]]%lookup_insert_Some; [congruence|done].
Qed.

Lemma sys_inv_remove s id e k r :
  sys_inv s -> is_range U64 id -> remove_registration (reg s) id e = Some (k, r) ->
  sys_inv (with_reg s r) /\ is_Some (states r !! k) /\ forall j, by_id r !! j <> Some k.
Proof.
  intros Hs Hid H. destruct (reg_inv_remove _ _ _ _ _ (si_reg s Hs) Hid H) as [Hr Hk].
  apply remove_registration_val in H as (st & Hbi & Hst & _ & Ebi & _ & _ & _ & _ & Es).
  split; [|split; [rewrite Es; by rewrite lookup_insert_eq | done]].
  apply sys_inv_with_reg; try done; rewrite ?Es, ?Ebi.
  - intros j s' [[<- <-]|[_ Hj]]%lookup_insert_Some; simpl; by apply (si_count s Hs).
  - intros j Hj. destruct (decide (k = j)) as [<-|]; [by rewrite lookup_insert_eq|].
    by rewrite lookup_insert_ne.
  - by intros j i _ [_ Hi]%lookup_delete_Some.
Qed.

Lemma sys_inv_teardown s th id k :
  sys_inv s -> (id, k) ∈ handles s -> sys_inv (unregister_and_drain s th id k).
Proof.
  intros Hs Hh. destruct (si_handle s Hs id k Hh) as [[st Hst] Hu].
  pose proof (ri_state _ (si_reg s Hs) k st Hst) as (_ & _ & Hg).
  unfold unregister_and_drain.
  assert (Hcase : let r := match remove_registration (reg s) id
      (Some {| arena_id := id; generation := k |}) with Some (_, r) => r | None => reg s end in
    sys_inv (with_reg s r) /\ is_Some (states r !! k) /\ forall j, by_id r !! j <> Some k).
  { simpl. destruct (remove_registration _ _ _) as [[k' r]|] eqn:E.
    - pose proof E as Hv. apply remove_registration_val in Hv as (st' & Hbi & Hst' & Hi & _).
      destruct (Hi _ eq_refl) as [_ Hgen]. simpl in Hgen.
      pose proof (ri_state _ (si_reg s Hs) k' st' Hst') as (_ & _ & Hg'). assert (k' = k) as -> by lia.
      eapply (sys_inv_remove s id); [done | | exact E].
      by apply (ri_id _ (si_reg s Hs)) in Hbi as [? _].
    - split; [by destruct s|]. split; [by rewrite Hst|]. intros j Hj. pose proof (Hu j Hj) as ->.
      unfold remove_registration in E. rewrite Hj, Hst in E. simpl in E.
      rewrite Hg, !Z.eqb_refl in E. done. }
  simpl in Hcase. destruct Hcase as (Hwr & Hsk & Hk).
  destruct (holds _ _); [done|]. by apply sys_inv_start_drain.
Qed.

(** Adding and dropping a lease in the holder's table. *)
Lemma held_ok_track th h ls l :
  l_thread l = th -> held_ok th h ls -> held_ok th (track h (l_arena l)) (l :: ls).
Proof.
  intros <- [Hnd H]. assert (Hpos : forall j m, (j, m) ∈ h -> 0 < m) by (intros j m Hj; by apply H in Hj as [_ ?]).
  split; [by apply track_keys|]. intros id n. rewrite track_elem by done. rewrite thread_count_cons.
  case_decide as Hd.
  - subst id. rewrite decide_True by done. rewrite H. split.
    + intros [[Hn Hp]|[-> Hno]]; [lia|].
      pose proof (thread_count_nonneg (l_thread l) (l_arena l) ls).
      destruct (decide (0 < thread_lease_count (l_thread l) (l_arena l) ls)) as [Hc|]; [|lia].
      destruct Hno. assert ((l_arena l, thread_lease_count (l_thread l) (l_arena l) ls) ∈ h) as Hin
        by by apply H. by apply (list_elem_of_fmap_2 fst) in Hin.
    + intros [-> _]. destruct (decide (0 < thread_lease_count (l_thread l) (l_arena l) ls)); [left; lia|].
      pose proof (thread_count_nonneg (l_thread l) (l_arena l) ls). right. split; [lia|].
      intros ([j m] & Hj & Hin)%list_elem_of_fmap. simpl in Hj. subst j. apply H in Hin. lia.
  - rewrite (decide_False (P := _ /\ _)) by naive_solver. rewrite Z.add_0_r. apply H.
Qed.

Lemma held_ok_untrack th h ls l :
  l_thread l = th -> held_ok th h (l :: ls) -> held_ok th (untrack h (l_arena l)) ls.
Proof.
  intros <- [Hnd H]. set (n0 := thread_lease_count (l_thread l) (l_arena l) ls).
  pose proof (thread_count_nonneg (l_thread l) (l_arena l) ls).
  assert (Hin : (l_arena l, n0 + 1) ∈ h).
  { apply H. rewrite thread_count_cons, decide_True by done. subst n0. lia. }
  destruct (untrack_elem h (l_arena l) (n0 + 1) Hnd Hin) as [Hnd' He].
  split; [done|]. intros id n. rewrite He. case_decide as Hd.
  - subst id n0. lia.
  - rewrite H, thread_count_cons, decide_False by naive_solver. by rewrite Z.add_0_r.
Qed.

Lemma held_ok_other th h ls l :
  l_thread l <> th -> held_ok th h (l :: ls) <-> held_ok th h ls.
Proof.
  intros Hne. unfold held_ok.
  assert (H : forall id, thread_lease_count th id (l :: ls) = thread_lease_count th id ls).
  { intros id. rewrite thread_count_cons, decide_False by naive_solver. lia. }
  by setoid_rewrite H.
Qed.

Lemma held_ok_perm th h ls ls' : ls ≡ₚ ls' -> held_ok th h ls -> held_ok th h ls'.
Proof.
  intros Hp [Hnd H]. split; [done|]. intros id n.
  by rewrite H, (thread_count_perm th id ls ls').
Qed.

Lemma sys_inv_acquire s l r :
  sys_inv s -> Z.of_nat (length (leases s)) < int_max usize -> acquired (reg s) l r ->
  sys_inv (add_lease s l r).
Proof.
  intros Hs Hb (k & st & Hbi & Hst & Hg & ->)%acquired_val.
  pose proof (ri_state _ (si_reg s Hs) k st Hst) as (_ & _ & Hgk). rewrite Hgk in Hg.
  pose proof (lease_count_bound k (leases s)) as Hcb.
  pose proof (si_count s Hs k st Hst) as Hc.
  destruct Hs as [H1 H2 H3 H4 H5 H6 H7 H8 H9].
  assert (Hsome : forall j, is_Some (states (reg s) !! j) ->
    is_Some (<[k := set_leases st (wrap usize (active_leases st + 1))]> (states (reg s)) !! j)).
  { intros j Hj. destruct (decide (k = j)) as [<-|]; [by rewrite lookup_insert_eq|].
    by rewrite lookup_insert_ne. }
  split; simpl.
  - by eapply reg_inv_set.
  - intros j s' [[<- <-]|[Hne Hj]]%lookup_insert_Some; rewrite lease_count_cons; simpl.
    + rewrite decide_True, Hc by done. rewrite wrap_id; [done|]. int_bounds. lia.
    + rewrite decide_False by congruence. rewrite Z.add_0_r. by apply H2.
  - intros l' [->|Hl]%elem_of_cons; [rewrite Hg; by rewrite lookup_insert_eq|].
    by apply Hsome, H3.
  - int_bounds. lia.
  - done.
  - intros j Hj. by apply Hsome, H6.
  - intros j Hj. rewrite lease_count_cons, decide_False; [rewrite Z.add_0_r; by apply H7|].
    rewrite Hg. intros <-. eapply (H5 k); [|done]. set_solver.
  - intros id j Hj. destruct (H8 _ _ Hj) as [? ?]. split; [by apply Hsome | done].
  - intros th. unfold get_held. simpl. destruct (decide (l_thread l = th)) as [<-|Hne].
    + rewrite lookup_insert_eq. simpl. by apply held_ok_track.
    + rewrite lookup_insert_ne by done. apply held_ok_other; [done|]. apply H9.
Qed.

Lemma sys_inv_drop s l rest :
  sys_inv s -> leases s ≡ₚ l :: rest -> sys_inv (drop_lease s l rest).
Proof.
  intros Hs Hp. assert (Hl : l ∈ leases s) by (rewrite Hp; left).
  destruct (si_lease s Hs l Hl) as [st Hst].
  pose proof (ri_state _ (si_reg s Hs) _ st Hst) as (_ & _ & Hgk).
  pose proof (lease_count_bound (l_generation l) rest) as Hcb.
  pose proof (si_count s Hs _ st Hst) as Hc. pose proof (Permutation_length Hp) as Hlen.
  simpl in Hlen. rewrite (lease_count_perm _ _ _ Hp), lease_count_cons, decide_True in Hc by done.
  destruct Hs as [H1 H2 H3 H4 H5 H6 H7 H8 H9].
  assert (Hsome : forall j, is_Some (states (reg s) !! j) ->
    is_Some (<[l_generation l := set_leases st (wrap usize (active_leases st - 1))]>
               (states (reg s)) !! j)).
  { intros j Hj. destruct (decide (l_generation l = j)) as [<-|]; [by rewrite lookup_insert_eq|].
    by rewrite lookup_insert_ne. }
  unfold drop_lease. rewrite Hst. split; simpl.
  - by eapply reg_inv_set.
  - intros j s' [[<- <-]|[Hne Hj]]%lookup_insert_Some; simpl.
    + rewrite Hc. rewrite wrap_id; [lia|]. int_bounds. lia.
    + rewrite (H2 _ _ Hj), (lease_count_perm _ _ _ Hp), lease_count_cons, decide_False by done. lia.
  - intros l' Hl'. apply Hsome, H3. rewrite Hp. by right.
  - lia.
  - done.
  - intros j Hj. by apply Hsome, H6.
  - intros j Hj. pose proof (H7 j Hj) as H0.
    rewrite (lease_count_perm _ _ _ Hp), lease_count_cons in H0.
    pose proof (lease_count_bound j rest). destruct (decide _); lia.
  - intros id j Hj. destruct (H8 _ _ Hj) as [? ?]. split; [by apply Hsome | done].
  - intros th. unfold get_held. simpl. pose proof (held_ok_perm th _ _ _ Hp (H9 th)) as Hok.
    destruct (decide (l_thread l = th)) as [<-|Hne].
    + rewrite lookup_insert_eq. simpl. by apply held_ok_untrack.
    + rewrite lookup_insert_ne by done. by apply held_ok_other in Hok.
Qed.

Lemma sys_inv_capture s i k :
  sys_inv s -> registration_for_identity (reg s) i = Some k -> sys_inv (add_handle s (arena_id i) k).
Proof.
  unfold registration_for_identity. intros Hs H.
  destruct (lookup_state _ _) as [[k' st]|] eqn:E; [|done]. destruct (_ =? _); [|done]. simplify_eq.
  apply lookup_state_some in E as [Hbi Hst].
  assert (Hu : forall j, by_id (reg s) !! j = Some k -> j = arena_id i).
  { intros j Hj. apply (ri_id _ (si_reg s Hs)) in Hj as (_ & s1 & Hs1 & _ & Hj).
    apply (ri_id _ (si_reg s Hs)) in Hbi as (_ & s2 & Hs2 & _ & Hi). congruence. }
  destruct Hs as [H1 H2 H3 H4 H5 H6 H7 H8 H9]. split; simpl; try done.
  intros id j [[= -> ->]%elem_of_singleton|Hj]%elem_of_union; [|by apply H8].
  split; [by rewrite Hst | done].
Qed.

Lemma sys_inv_drained s k st :
  sys_inv s -> k ∈ draining s -> states (reg s) !! k = Some st -> active_leases st = 0 ->
  sys_inv {| reg := reg s; leases := leases s; held := held s; handles := handles s;
             draining := draining s ∖ {[k]}; freed := {[k]} ∪ freed s |}.
Proof.
  intros Hs Hk Hst H0. pose proof (si_count s Hs k st Hst) as Hc.
  destruct Hs as [H1 H2 H3 H4 H5 H6 H7 H8 H9]. split; simpl; try done.
  - intros j id Hj. apply H5. set_solver.
  - intros j Hj. apply H6. set_solver.
  - intros j [->%elem_of_singleton|Hj]%elem_of_union; [lia | by apply H7].
Qed.

Lemma step_inv s s' : step s s' -> sys_inv s -> sys_inv s'.
Proof.
  intros Hst Hs. destruct Hst.
  - by eapply sys_inv_register.
  - by apply sys_inv_acquire.
  - by apply sys_inv_drop.
  - edestruct sys_inv_remove as (? & ? & ?); eauto. by apply sys_inv_start_drain.
  - by apply sys_inv_capture.
  - by apply sys_inv_teardown.
  - by eapply sys_inv_drained.
  - apply sys_inv_with_reg; [done | by apply reg_inv_stw, si_reg | | |];
      unfold set_stw_in_progress; destruct (lookup_state _ _) as [[]|]; simpl; try done;
      by apply (si_count s Hs).
Qed.

Lemma reachable_inv s : rtc step sys0 s -> sys_inv s.
Proof. apply invariant_rtc; eauto using step_inv, sys_inv_init. Qed.

(** ** What survives every step *)

Lemma step_gone s s' k :
  step s s' -> k ∈ draining s ∪ freed s -> k ∈ draining s' ∪ freed s'.
Proof.
  intros Hst Hk. destruct Hst; simpl; try done; try set_solver.
  - unfold unregister_and_drain. destruct (holds _ _); simpl; set_solver.
  - destruct (decide (k = k0)); set_solver.
Qed.

Lemma step_token s s' k st :
  sys_inv s -> step s s' -> states (reg s) !! k = Some st ->
  exists st', states (reg s') !! k = Some st' /\ st_token st' = st_token st.
Proof.
  intros Hs Hst Hk.
  assert (Hupd : forall j s0 s1, states (reg s) !! j = Some s0 -> st_token s1 = st_token s0 ->
    exists st', <[j := s1]> (states (reg s)) !! k = Some st' /\ st_token st' = st_token st).
  { intros j s0 s1 Hj Ht. destruct (decide (j = k)) as [<-|].
    - rewrite lookup_insert_eq. eexists. split; [done|]. congruence.
    - rewrite lookup_insert_ne by done. eauto. }
  assert (Hrem : forall id e j r, remove_registration (reg s) id e = Some (j, r) ->
    exists st', states r !! k = Some st' /\ st_token st' = st_token st).
  { intros id e j r (s0 & _ & Hj & _ & _ & _ & _ & _ & _ & ->)%remove_registration_val.
    by eapply Hupd. }
  destruct Hst; simpl; try eauto.
  - apply register_val in H0 as (_ & _ & _ & _ & _ & _ & _ & _ & ->).
    rewrite lookup_insert_ne; [eauto|]. intros <-.
    apply (ri_state _ (si_reg s Hs)) in Hk. lia.
  - apply acquired_val in H0 as (j & s0 & _ & Hj & _ & ->). simpl. by eapply Hupd.
  - destruct (states (reg s) !! l_generation l) as [s0|] eqn:Hj; simpl; [|eauto]. by eapply Hupd.
  - unfold unregister_and_drain. destruct (remove_registration _ _ _) as [[j r]|] eqn:E;
      destruct (holds _ _); simpl; eauto.
  - unfold set_stw_in_progress. destruct (lookup_state _ _) as [[]|]; simpl; eauto.
Qed.

Lemma gone_persists s s' k st :
  rtc step s s' -> sys_inv s -> k ∈ draining s ∪ freed s -> states (reg s) !! k = Some st ->
  sys_inv s' /\ k ∈ draining s' ∪ freed s' /\
  exists st', states (reg s') !! k = Some st' /\ st_token st' = st_token st.
Proof.
  intros H. revert st. induction H as [|s s1 s2 Hst _ IH]; intros st Hs Hk Hst0; [eauto 6|].
  destruct (step_token _ _ _ _ Hs Hst Hst0) as (st1 & Hst1 & Ht).
  destruct (IH st1) as (? & ? & st2 & ? & ?); eauto using step_inv, step_gone.
  split; [done|]. split; [done|]. exists st2. split; congruence.
Qed.

(** The token of a registration that is gone resolves to nothing. *)
Lemma gone_token s k st th :
  sys_inv s -> k ∈ draining s ∪ freed s -> states (reg s) !! k = Some st ->
  try_acquire_lease_for_token (reg s) th (st_token st) = None.
Proof.
  intros Hs Hgone Hst. unfold try_acquire_lease_for_token.
  destruct (by_token (reg s) !! st_token st) as [j|] eqn:Etok; [|done].
  destruct (ri_token _ (si_reg s Hs) _ _ Etok) as (kj & sj & Hbj & Hsj & Htj).
  rewrite (ri_inj _ (si_reg s Hs) kj k sj st Hsj Hst Htj) in Hbj.
  by apply (si_gone s Hs k j Hgone) in Hbj.
Qed.

(** C8.  A lease protects its arena: in every interleaving of registrations,
    removals, lease acquisitions and drops, and drains, no lease exists on a
    registration whose storage has been freed. *)
Theorem lease_protects_storage s l :
  rtc step sys0 s -> l ∈ leases s -> l_generation l ∉ freed s.
Proof.
  intros Hs%reachable_inv Hl Hf. eapply lease_count_zero; [by apply (si_freed s Hs)|done|done].
Qed.

(** A run used by the witnesses: arena 7 is registered, leased by thread 1, and
    then removed, so that its drain waits for the lease. *)
Definition run_reg : ArenaRegistry :=
  match register empty_registry 7 0 with Val (_, r) => r | _ => empty_registry end.

Definition run_lease : lease := {| l_thread := 1; l_arena := 7; l_generation := 0 |}.

Definition run_s1 : sys := with_reg sys0 run_reg.

Definition run_s2 : sys :=
  match try_acquire_lease run_reg 1 7 with Some (l, r) => add_lease run_s1 l r | None => run_s1 end.

Definition run_s3 : sys :=
  match remove_registration (reg run_s2) 7 None with
  | Some (k, r) => start_drain run_s2 k r
  | None => run_s2
  end.

Lemma run_s2_reachable : rtc step sys0 run_s2.
Proof.
  eapply rtc_l; [eapply (step_register _ 7 0%nat); [split; by vm_compute | vm_compute; reflexivity]|].
  eapply rtc_l; [eapply (step_acquire _ run_lease); [by vm_compute | left; exists 7; vm_compute; reflexivity]|].
  apply rtc_refl.
Qed.

Lemma run_s3_reachable : rtc step sys0 run_s3.
Proof.
  eapply rtc_r; [apply run_s2_reachable|].
  eapply (step_remove _ 7 None); [split; by vm_compute | vm_compute; reflexivity].
Qed.

Lemma lease_protects_storage_witness :
  run_lease ∈ leases run_s3 /\ l_generation run_lease ∉ freed run_s3.
Proof.
  assert (H : run_lease ∈ leases run_s3) by (left).
  split; [exact H|]. exact (lease_protects_storage run_s3 run_lease run_s3_reachable H).
Defined.

(**  A removed registration is gone for good: after a removal, neither the
    token nor the identity it was issued ever yields a lease again, whatever is
    registered later, also under the same arena ID. *)
Theorem stale_token_never_resolves s id e k r st s' th :
  rtc step sys0 s -> is_range U64 id ->
  remove_registration (reg s) id e = Some (k, r) -> states (reg s) !! k = Some st ->
  rtc step (start_drain s k r) s' ->
  try_acquire_lease_for_token (reg s') th (st_token st) = None /\
  try_acquire_lease_for_identity (reg s') th {| arena_id := id; generation := k |} = None.
Proof.
  intros Hs%reachable_inv Hid Hrem Hst Hrun.
  destruct (sys_inv_remove _ _ _ _ _ Hs Hid Hrem) as (Hwr & Hsk & Hk).
  assert (Hd : sys_inv (start_drain s k r)) by by apply sys_inv_start_drain.
  apply remove_registration_val in Hrem as (st0 & Hbi & Hst0 & _ & _ & _ & _ & _ & _ & Es).
  assert (st0 = st) as -> by congruence.
  destruct (gone_persists _ _ k (kill st) Hrun Hd) as (Hs' & Hgone & st' & Hst' & Ht);
    [simpl; set_solver | simpl; rewrite Es; by rewrite lookup_insert_eq |].
  simpl in Ht. split.
  - rewrite <- Ht. by eapply gone_token.
  - unfold try_acquire_lease_for_identity. simpl.
    destruct (lookup_state (reg s') id) as [[kj sj]|] eqn:El; [|done].
    apply lookup_state_some in El as [Hbj Hsj].
    destruct (ri_state _ (si_reg s' Hs') kj sj Hsj) as (_ & _ & Hg).
    destruct (st_generation sj =? k) eqn:Eg; [|done]. bool_to_prop. subst kj. rewrite Eg in Hbj.
    by apply (si_gone s' Hs' k id Hgone) in Hbj.
Qed.

Lemma stale_token_never_resolves_witness :
  try_acquire_lease_for_token (reg run_s3) 2 1 = None.
Proof.
  refine (proj1 (stale_token_never_resolves run_s2 7 None 0 (reg run_s3)
    {| stw_flag := 0; active_leases := 1; is_alive := true; st_generation := 0; st_token := 1 |}
    run_s3 2 run_s2_reachable _ _ _ _)).
  - split; by vm_compute.
  - vm_compute; reflexivity.
  - vm_compute; reflexivity.
  - apply rtc_refl.
Defined.

(**  The thread-local table of held leases is exact: a thread's table names an
    arena precisely when the thread holds a live lease on it.  So the self-held
    check of [unregister_and_drain] lets a thread wait only on leases of others. *)
Theorem held_table_exact s th id :
  rtc step sys0 s ->
  holds (get_held s th) id = true <->
  exists l, l ∈ leases s /\ l_thread l = th /\ l_arena l = id.
Proof.
  intros Hs%reachable_inv. destruct (si_held s Hs th) as [_ H].
  unfold holds. rewrite existsb_exists. split.
  - intros ([i n] & Hin & Hi). apply Z.eqb_eq in Hi as ->. apply list_elem_of_In in Hin.
    apply H in Hin as [Hn Hp]. unfold thread_lease_count in Hn.
    destruct (filter _ (leases s)) as [|l ls] eqn:E; [simpl in Hn; lia|].
    assert (Hl : l ∈ filter (fun l => l_thread l = th /\ l_arena l = id) (leases s))
      by (rewrite E; left).
    apply list_elem_of_filter in Hl as [[? ?] ?]. eauto.
  - intros (l & Hl & <- & <-). exists (l_arena l, thread_lease_count (l_thread l) (l_arena l) (leases s)).
    split; [|by apply Z.eqb_eq]. apply list_elem_of_In, H. split; [done|].
    unfold thread_lease_count.
    assert (Hin : l ∈ filter (fun x => l_thread x = l_thread l /\ l_arena x = l_arena l) (leases s))
      by by apply list_elem_of_filter.
    destruct (filter _ _); [by apply not_elem_of_nil in Hin|]. simpl. lia.
Qed.

Lemma held_table_exact_witness : holds (get_held run_s2 1) 7 = true.
Proof.
  apply (held_table_exact run_s2 1 7 run_s2_reachable). exists run_lease.
  split; [left | split; reflexivity].
Defined.

(**  The lock-free fast path changes no answer: in every reachable state the
    bitset agrees with the registry, so a lease attempt with the fast path is the
    plain locked lookup, and [is_valid_cross_arena_ref] says exactly whether the ID
    is registered. *)
Theorem fast_path_exact s th id :
  rtc step sys0 s -> is_range U64 id ->
  try_acquire_lease (reg s) th id =
    match lookup_state (reg s) id with
    | Some (k, st) => Some (lease_under_lock (reg s) th id k st)
    | None => None
    end /\
  is_valid_cross_arena_ref (reg s) id = bool_decide (is_Some (by_id (reg s) !! id)).
Proof.
  intros Hs%reachable_inv Hid. assert (Hn : 0 <= id) by (int_bounds; lia).
  unfold try_acquire_lease, is_valid_cross_arena_ref. rewrite fast_bit_testbit by done.
  destruct (id <? 64) eqn:El; bool_to_prop; simpl.
  - rewrite (ri_fast _ (si_reg s Hs)) by lia. split; [|done].
    unfold lookup_state. destruct (by_id (reg s) !! id) as [k|] eqn:E; done.
  - split; [done|]. by destruct (by_id (reg s) !! id).
Qed.

Lemma fast_path_exact_witness :
  is_valid_cross_arena_ref (reg run_s2) 7 = true /\ is_valid_cross_arena_ref (reg run_s3) 7 = false.
Proof.
  assert (Hr : is_range U64 7) by (split; by vm_compute).
  split; [rewrite (proj2 (fast_path_exact run_s2 0 7 run_s2_reachable Hr))
         |rewrite (proj2 (fast_path_exact run_s3 0 7 run_s3_reachable Hr))]; reflexivity.
Defined.

End Registry.
