(* ===== verification/PtrSerde.v ===== *)
(** * The serialized form of managed pointers and object references

    [dotnet-value/src/pointer/serde.rs], and the reference storage word of
    [dotnet-value/src/object/mod.rs].  A managed pointer is three words: a tagged
    origin word, the offset, and the exclusive or of the two.  A word is a
    [usize] as a [Z], stored little-endian; pointer provenance is not modelled.

    [statics] is the process-wide registry that names static storage by a number
    ([static_registry], [static_dedup_map], [NEXT_STATIC_ID]); tokens of other
    arenas are resolved by the arena registry of [ArenaRegistry]. *)

From Stdlib Require Import ZArith Lia.
From stdpp Require Import base tactics list gmap.
From S2P Require Import Prelude Bytes ManagedPtr ArenaRegistry.

Module PtrSerde.
Import Registry.

Inductive PointerDeserializationError : Set :=
| UnknownTag (tag : Z)
| UnknownSubtag (tag : Z)
| InvalidStaticId (id : Z)
| ChecksumMismatch
| OffsetMismatch
| UnresolvedStaticStorage
| UnresolvedCrossArenaToken (t : Z)
| UnresolvedFrameHome (serial : Z).

Definition SIZE : nat := 24.

Definition FRAME_HOME_SUBTAG : Z := 3.
Definition FRAME_HOME_SERIAL_SHIFT : Z := 6.
Definition FRAME_HOME_OFFSET_SHIFT : Z := 38.
Definition FRAME_HOME_OFFSET_MIRROR_MASK : Z := 0x03FFFFFF.
Definition LOW_32_BITS : Z := 0xFFFFFFFF.

(** [x << n] on [usize] drops the bits shifted out. *)
Definition shl (x n : Z) : Z := wrap usize (Z.shiftl x n).

Definition frame_home_managed_ptr_words (serial off : Z) : Z * Z :=
  let word0 :=
    Z.lor (Z.lor (Z.lor 7 (shl FRAME_HOME_SUBTAG 3))
                 (shl (Z.land serial LOW_32_BITS) FRAME_HOME_SERIAL_SHIFT))
          (shl (Z.land off FRAME_HOME_OFFSET_MIRROR_MASK) FRAME_HOME_OFFSET_SHIFT) in
  let word1 := Z.lor off (shl (Z.shiftr serial 32) 32) in
  (word0, word1).

Definition parse_frame_home_managed_ptr (word0 word1 : Z)
  : outcome PointerDeserializationError (Z * Z) :=
  let off := Z.land word1 LOW_32_BITS in
  if negb (Z.shiftr word0 FRAME_HOME_OFFSET_SHIFT =? Z.land off FRAME_HOME_OFFSET_MIRROR_MASK)
  then Err OffsetMismatch
  else
    let serial := Z.lor (Z.land (Z.shiftr word0 FRAME_HOME_SERIAL_SHIFT) LOW_32_BITS)
                        (shl (Z.shiftr word1 32) 32) in
    Val (serial, off).

(** ** The registry of static storage *)

Record statics : Set := {
  registry : gmap Z StaticMetadata;
  dedup : gmap StaticMetadata Z;
  next_static_id : Z;
}.

Definition reset_static_registry : statics :=
  {| registry := ∅; dedup := ∅; next_static_id := 1 |}.

(** The ID of a static origin, issued at its first serialization. *)
Definition static_id (st : statics) (m : StaticMetadata) : Z * statics :=
  match dedup st !! m with
  | Some id => (id, st)
  | None =>
      let id := next_static_id st in
      (id, {| registry := <[id := m]> (registry st);
              dedup := <[m := id]> (dedup st);
              next_static_id := wrap U32 (id + 1) |})
  end.

(** ** Writing *)

Definition serialize (p : ManagedPtr) (st : statics) : Z * Z * statics :=
  let off := byte_offset p in
  match origin p with
  | Heap owner => (default 0 owner, off, st)
  | Static m =>
      let '(id, st) := static_id st m in
      (Z.lor (Z.lor (Z.lor 7 (shl 1 3)) (shl (Z.land id 0xFFFFFFFF) 6)) (shl off 38), off, st)
  | Unmanaged => (0, default 0 (value p), st)
  | CrossArenaObjectRef c =>
      (Z.lor (co_ptr c) 5, Z.lor (Z.land off 0xFFFFFFFF) (shl (co_token c) 32), st)
  | FrameHome serial =>
      let '(w0, w1) := frame_home_managed_ptr_words serial off in (w0, w1, st)
  | Transient _ => (Z.lor (Z.lor 7 (shl 2 3)) (shl off 6), off, st)
  end.

Definition write_words (dest : list Z) (w0 w1 w2 : Z) : outcome PointerDeserializationError (list Z) :=
  if decide (length dest < SIZE)%nat then Panic
  else Val (to_le_bytes usize w0 ++ to_le_bytes usize w1 ++ to_le_bytes usize w2 ++ drop SIZE dest).

Definition write (p : ManagedPtr) (dest : list Z) (st : statics)
  : outcome PointerDeserializationError (list Z * statics) :=
  let '(w0, w1, st) := serialize p st in
  let* out := write_words dest w0 w1 (Z.lxor w0 w1) in
  Val (out, st).

(** ** Reading *)

(** The three words of a buffer; a short buffer panics. *)
Definition read_words (source : list Z) : outcome PointerDeserializationError (Z * Z * Z) :=
  if decide (length source < SIZE)%nat then Panic
  else Val (from_le_bytes usize (take 8 source), from_le_bytes usize (take 8 (drop 8 source)),
            from_le_bytes usize (take 8 (drop 16 source))).

(** [cross_arena_ptr_from_ptr] with the origin built under the lease: the token
    is resolved to its registration, the tag bits are masked off. *)
Definition cross_arena_origin (r : ArenaRegistry) (th : nat) (word0 token : Z)
  : option CrossArenaOrigin :=
  match try_acquire_lease_for_token r th token with
  | None => None
  | Some (l, _) =>
      if word0 =? 0 then None
      else
        let ptr := Z.land word0 (wrap usize (Z.lnot 7)) in
        if ptr =? 0 then None
        else match states r !! l_generation l with
             | Some st =>
                 Some {| co_ptr := ptr;
                         co_identity := {| arena_id := l_arena l; generation := l_generation l |};
                         co_token := st_token st |}
             | None => None
             end
  end.

Definition decode (st : statics) (r : ArenaRegistry) (th : nat) (word0 word1 : Z)
  : outcome PointerDeserializationError ManagedPtrInfo :=
  let info o off := {| address := None; info_origin := o; info_offset := off |} in
  match Z.land word0 7 with
  | 1 => Err (UnknownSubtag 1)
  | 5 =>
      let raw_token := wrap U32 (Z.shiftr word1 32) in
      let* token := ok_or (token_from_raw raw_token) (UnresolvedCrossArenaToken raw_token) in
      let* c := ok_or (cross_arena_origin r th word0 token) (UnresolvedCrossArenaToken raw_token) in
      Val (info (CrossArenaObjectRef c) (Z.land word1 0xFFFFFFFF))
  | 7 =>
      let subtag := Z.land (Z.shiftr word0 3) 7 in
      if subtag =? 1 then
        let id := wrap U32 (Z.land (Z.shiftr word0 6) 0xFFFFFFFF) in
        let slot_offset := Z.shiftr word0 38 in
        if (int_max U32 <? word1) || negb (slot_offset =? Z.land word1 0x03FFFFFF)
        then Err OffsetMismatch
        else
          let* m := ok_or (registry st !! id) (InvalidStaticId id) in
          Val (info (Static m) word1)
      else if subtag =? 2 then Err (UnknownSubtag 2)
      else if subtag =? FRAME_HOME_SUBTAG then
        let* (serial, off) := parse_frame_home_managed_ptr word0 word1 in
        Val (info (FrameHome serial) off)
      else Err (UnknownSubtag subtag)
  | 0 =>
      (* [ObjectRef::from_storage_ptr] of an untagged word *)
      Val (info (if word0 =? 0 then Unmanaged else Heap (Some word0)) word1)
  | tag => Err (UnknownTag tag)
  end.

Definition read_metadata_unchecked (st : statics) (r : ArenaRegistry) (th : nat) (source : list Z)
  : outcome PointerDeserializationError ManagedPtrInfo :=
  let* (word0, word1, word2) := read_words source in
  if negb (word2 =? Z.lxor word0 word1) then Err ChecksumMismatch
  else decode st r th word0 word1.

(** The live bases [resolve_metadata_unchecked] consults: the caller's resolver
    and the payload base of a heap object. *)
Record resolver : Type := {
  static_storage_base : StaticMetadata -> option Z;
  frame_home_block : Z -> option (Z * Z);
  raw_data_ptr : Z -> Z;
}.

Definition resolve_metadata_unchecked (res : resolver) (r : ArenaRegistry) (th : nat)
    (info : ManagedPtrInfo) : outcome PointerDeserializationError ManagedPtrInfo :=
  let off := info_offset info in
  let* a :=
    match info_origin info with
    | Static m =>
        let* a := ok_or (match static_storage_base res m with
                         | Some base => nonnull (wrap usize (base + off))
                         | None => None
                         end) UnresolvedStaticStorage in
        Val (Some a)
    | FrameHome serial =>
        let* a := omap_err (fun _ => UnresolvedFrameHome serial)
                    (frame_home_window (frame_home_block res) serial off 0) in
        Val (Some a)
    | Heap (Some h) => Val (nonnull (wrap usize (raw_data_ptr res h + off)))
    | Heap None => Val None
    | Unmanaged => Val (nonnull off)
    | CrossArenaObjectRef c =>
        match try_acquire_lease_for_identity r th (co_identity c) with
        | Some _ => Val (nonnull (wrap usize (raw_data_ptr res (co_ptr c) + off)))
        | None => Err (UnknownTag 5)
        end
    | Transient _ => Panic
    end in
  Val {| address := a; info_origin := info_origin info; info_offset := off |}.

Definition read_resolved_unchecked (st : statics) (r : ArenaRegistry) (th : nat) (res : resolver)
    (source : list Z) : outcome PointerDeserializationError ManagedPtrInfo :=
  let* info := read_metadata_unchecked st r th source in
  resolve_metadata_unchecked res r th info.

(** [read_resolved_with_heap_cache_unchecked]: the cache maps a serialized heap
    word to the handle decoded from it earlier. *)
Definition read_resolved_with_heap_cache (st : statics) (r : ArenaRegistry) (th : nat)
    (res : resolver) (cache : gmap Z Z) (source : list Z)
  : outcome PointerDeserializationError (ManagedPtrInfo * gmap Z Z) :=
  let* (word0, word1, word2) := read_words source in
  if negb (word2 =? Z.lxor word0 word1) then Err ChecksumMismatch
  else if negb (word0 =? 0) && (Z.land word0 7 =? 0) then
    let '(owner, cache) := match cache !! word0 with
                           | Some owner => (owner, cache)
                           | None => (word0, <[word0 := word0]> cache)
                           end in
    let* info := resolve_metadata_unchecked res r th
      {| address := None; info_origin := Heap (Some owner); info_offset := word1 |} in
    Val (info, cache)
  else
    let* info := read_resolved_unchecked st r th res source in
    Val (info, cache).

(** ** The storage word of an object reference *)

Inductive ObjectCodecError : Set :=
| ShortStorage (actual : nat)
| InvalidAddress (addr : Z)
| UnrepresentableOwner (id : Z)
| OwnerUnavailable (id : Z).

Definition check_compact_address (addr : Z) : outcome ObjectCodecError unit :=
  if (addr =? 0) || negb (Z.land addr 7 =? 0) || (2 ^ 48 <=? addr)
  then Err (InvalidAddress addr) else Val tt.

(** [owner_id] reads the arena that owns an object. *)
Definition try_to_storage_ptr (r : ArenaRegistry) (th : nat) (owner_id : Z -> Z) (o : ObjectRef)
  : outcome ObjectCodecError Z :=
  match o with
  | None => Val 0
  | Some ptr =>
      let id := owner_id ptr in
      if negb (id =? INVALID_ARENA) then
        let* owner := ok_or (checked U16 id) (UnrepresentableOwner id) in
        check_compact_address ptr ;*
        match try_acquire_lease r th id with
        | Some _ => Val (Z.lor (Z.lor ptr 5) (shl owner 48))
        | None => Err (OwnerUnavailable id)
        end
      else Val ptr
  end.

Definition try_from_storage_ptr (r : ArenaRegistry) (th : nat) (addr : Z)
  : outcome ObjectCodecError ObjectRef :=
  if Z.land addr 7 =? 5 then
    let owner := wrap U16 (Z.shiftr addr 48) in
    let real := Z.land addr 0x0000FFFFFFFFFFF8 in
    check_compact_address real ;*
    match try_acquire_lease r th owner with
    | Some _ => Val (Some real)
    | None => Err (OwnerUnavailable owner)
    end
  else if negb (Z.land addr 1 =? 0) || (addr =? 0) then Val None
  else Val (Some addr).

(** ** Well-formed inputs *)

Record statics_ok (st : statics) : Prop := {
  so_next : 1 <= next_static_id st <= int_max U32;
  so_dedup m id : dedup st !! m = Some id ->
    registry st !! id = Some m /\ 1 <= id < next_static_id st;
  so_fresh id m : registry st !! id = Some m -> id < next_static_id st;
}.

(** The registration a cross-arena origin was captured under is live. *)
Definition origin_live (r : ArenaRegistry) (c : CrossArenaOrigin) : Prop :=
  is_range U32 (co_token c) /\ co_token c <> 0 /\
  by_token r !! co_token c = Some (arena_id (co_identity c)) /\
  exists st, lookup_state r (arena_id (co_identity c)) = Some (generation (co_identity c), st) /\
    st_generation st = generation (co_identity c) /\ st_token st = co_token c.

Definition handle_ok (h : Z) : Prop := 0 < h <= int_max usize /\ h mod 8 = 0.

Definition serializable (r : ArenaRegistry) (p : ManagedPtr) : Prop :=
  match origin p with
  | Heap (Some h) => handle_ok h
  | CrossArenaObjectRef c => handle_ok (co_ptr c) /\ origin_live r c
  | FrameHome serial => is_range U64 serial
  | Transient _ => False
  | _ => True
  end.

(** ** Lemmas *)

Definition word (x : Z) : Prop := 0 <= x < 2 ^ 64.

Lemma word_range x : word x <-> is_range usize x.
Proof. unfold word, is_range. int_bounds. lia. Qed.

Lemma read_write_words dest w0 w1 w2 :
  (SIZE <= length dest)%nat -> word w0 -> word w1 -> word w2 ->
  exists out, write_words dest w0 w1 w2 = Val out /\ read_words out = Val (w0, w1, w2).
Proof.
  intros Hd H0%word_range H1%word_range H2%word_range. unfold write_words.
  rewrite decide_False by lia. eexists. split; [done|]. unfold read_words.
  pose proof (length_to_le_bytes usize w0) as L0. pose proof (length_to_le_bytes usize w1) as L1.
  pose proof (length_to_le_bytes usize w2) as L2. change (ity_bytes usize) with 8%nat in *.
  rewrite decide_False by (rewrite !length_app, length_drop, L0, L1, L2; unfold SIZE in *; lia).
  rewrite take_app_length' by done.
  rewrite (drop_app_length' _ _ 8) by done. rewrite take_app_length' by done.
  replace (drop 16 _) with (drop 8 (drop 8 (to_le_bytes usize w0 ++ to_le_bytes usize w1 ++
    to_le_bytes usize w2 ++ drop SIZE dest))) by by rewrite drop_drop.
  rewrite (drop_app_length' _ _ 8) by done. rewrite (drop_app_length' _ _ 8) by done.
  rewrite take_app_length' by done. by rewrite !from_to_le_bytes.
Qed.

Lemma shl_field x n m :
  0 <= n -> 0 <= x < 2 ^ m -> n + m <= 64 -> 0 <= m -> shl x n = Z.shiftl x n.
Proof.
  intros. unfold shl. rewrite wrap_shiftl by lia. f_equal. apply Z.mod_small.
  assert (2 ^ m <= 2 ^ (64 - n)) by (apply Z.pow_le_mono_r; lia). lia.
Qed.

Lemma land7 x : Z.land x 7 = x mod 8.
Proof. apply (land_mask x 3). lia. Qed.

Lemma land_low32 x : Z.land x 0xFFFFFFFF = x mod 2 ^ 32.
Proof. apply (land_mask x 32). lia. Qed.

Lemma land_mirror x : Z.land x 0x03FFFFFF = x mod 2 ^ 26.
Proof. apply (land_mask x 26). lia. Qed.

(** The packed origin word [7 | sub << 3 | id << 6 | off << 38]. *)
Lemma packed_word sub id off :
  0 <= sub < 8 -> 0 <= id < 2 ^ 32 -> 0 <= off ->
  Z.lor (Z.lor (Z.lor 7 (shl sub 3)) (shl id 6)) (shl off 38) =
    7 + sub * 8 + id * 64 + (off mod 2 ^ 26) * 2 ^ 38.
Proof.
  intros Hs Hi Ho. rewrite (shl_field sub 3 3), (shl_field id 6 32) by lia.
  rewrite (lor_shiftl_add 7 sub 3), (lor_shiftl_add _ id 6) by lia.
  unfold shl. rewrite wrap_shiftl by lia. change (64 - 38) with 26.
  rewrite lor_shiftl_add; lia.
Qed.

(** The fields of such a word. *)
Lemma packed_word_fields sub id o :
  0 <= sub < 8 -> 0 <= id < 2 ^ 32 -> 0 <= o < 2 ^ 26 ->
  let w := 7 + sub * 8 + id * 64 + o * 2 ^ 38 in
  word w /\ Z.land w 7 = 7 /\ Z.land (Z.shiftr w 3) 7 = sub /\
  Z.land (Z.shiftr w 6) 0xFFFFFFFF = id /\ Z.shiftr w 38 = o.
Proof.
  intros Hs Hi Ho. cbn zeta. rewrite !land7, land_low32, !Z.shiftr_div_pow2 by lia.
  change (2 ^ 3) with 8. change (2 ^ 6) with 64. unfold word.
  change (2 ^ 32) with 4294967296 in *. change (2 ^ 26) with 67108864 in *.
  change (2 ^ 38) with 274877906944 in *. change (2 ^ 64) with 18446744073709551616.
  repeat split; dlia.
Qed.

Lemma tagged_handle h : handle_ok h -> Z.lor h 5 = h + 5 /\ word (h + 5) /\
  Z.land (h + 5) 7 = 5 /\ Z.land (h + 5) (wrap usize (Z.lnot 7)) = h.
Proof.
  intros [Hr Hm]. assert (Hh : h = (h / 8) * 8) by dlia.
  assert (Hlor : Z.lor h 5 = h + 5).
  { replace (Z.lor h 5) with (Z.lor 5 (Z.shiftl (h / 8) 3))
      by (rewrite Z.lor_comm, Z.shiftl_mul_pow2 by lia; f_equal; lia).
    rewrite lor_shiftl_add by lia. lia. }
  assert (Hw : word (h + 5)).
  { unfold word. int_bounds. change (2 ^ 64) with 18446744073709551616.
    dlia. }
  split; [done|]. split; [done|]. rewrite land7. split; [dlia|].
  change (wrap usize (Z.lnot 7)) with (Z.shiftl (2 ^ 61 - 1) 3). rewrite land_field by lia.
  rewrite Z.shiftl_mul_pow2 by lia. change (2 ^ 3) with 8.
  unfold word in Hw. change (2 ^ 64) with 18446744073709551616 in Hw.
  change (2 ^ 61) with 2305843009213693952. dlia.
Qed.

Lemma static_id_ok st m id st' :
  statics_ok st -> next_static_id st < int_max U32 -> static_id st m = (id, st') ->
  statics_ok st' /\ registry st' !! id = Some m /\ 1 <= id < 2 ^ 32.
Proof.
  intros [Hn Hd Hf] Hx. unfold static_id. destruct (dedup st !! m) as [i|] eqn:E.
  - intros [= <- <-]. destruct (Hd _ _ E) as [? ?]. split; [done|]. split; [done|].
    int_bounds. lia.
  - intros [= <- <-]. rewrite wrap_id by (int_bounds; lia).
    split; [|split; [apply lookup_insert_eq | int_bounds; lia]].
    assert (Hno : forall m', registry st !! next_static_id st = Some m' -> False)
      by (intros m' H; apply Hf in H; lia).
    split; simpl; [lia | |].
    + intros m' j [[<- <-]|[? Hj]]%lookup_insert_Some; [rewrite lookup_insert_eq; split; [done|lia]|].
      destruct (Hd _ _ Hj) as [Hr ?]. rewrite lookup_insert_ne by lia. split; [done|lia].
    + intros j m' [[<- <-]|[? Hj]]%lookup_insert_Some; [lia|]. apply Hf in Hj. lia.
Qed.

Lemma statics_ok_reset : statics_ok reset_static_registry.
Proof. split; simpl; [by vm_compute | intros *; by rewrite lookup_empty..]. Qed.

(** What each origin's words decode to. *)
Section decode.
Context (st : statics) (r : ArenaRegistry) (th : nat).

Lemma decode_heap h off :
  handle_ok h ->
  decode st r th h off = Val {| address := None; info_origin := Heap (Some h); info_offset := off |}.
Proof.
  intros [Hr Hm]. unfold decode. rewrite land7, Hm. simpl.
  destruct (h =? 0) eqn:E; [bool_to_prop; lia | done].
Qed.

Lemma decode_null off :
  decode st r th 0 off = Val {| address := None; info_origin := Unmanaged; info_offset := off |}.
Proof. done. Qed.

Lemma decode_packed sub id o off :
  0 <= sub < 8 -> 0 <= id < 2 ^ 32 -> 0 <= o < 2 ^ 26 ->
  decode st r th (7 + sub * 8 + id * 64 + o * 2 ^ 38) off =
    (if sub =? 1 then
       if (int_max U32 <? off) || negb (o =? Z.land off 0x03FFFFFF) then Err OffsetMismatch
       else let* m := ok_or (registry st !! id) (InvalidStaticId id) in
            Val {| address := None; info_origin := Static m; info_offset := off |}
     else if sub =? 2 then Err (UnknownSubtag 2)
     else if sub =? FRAME_HOME_SUBTAG then
       let* (serial, off) := parse_frame_home_managed_ptr (7 + sub * 8 + id * 64 + o * 2 ^ 38) off in
       Val {| address := None; info_origin := FrameHome serial; info_offset := off |}
     else Err (UnknownSubtag sub)).
Proof.
  intros Hs Hi Ho. destruct (packed_word_fields sub id o Hs Hi Ho) as (_ & H7 & H3 & H6 & H38).
  unfold decode. rewrite H7, H3, H6, H38.
  rewrite (wrap_id U32 id) by (int_bounds; change (2 ^ 32) with 4294967296 in Hi; lia). done.
Qed.

Lemma parse_frame_home serial off :
  is_range U64 serial -> is_range U32 off ->
  parse_frame_home_managed_ptr
    (7 + 3 * 8 + (serial mod 2 ^ 32) * 64 + (off mod 2 ^ 26) * 2 ^ 38)
    (off + (serial / 2 ^ 32) * 2 ^ 32) = Val (serial, off).
Proof.
  intros Hs Ho. unfold parse_frame_home_managed_ptr, LOW_32_BITS, FRAME_HOME_OFFSET_MIRROR_MASK,
    FRAME_HOME_SERIAL_SHIFT, FRAME_HOME_OFFSET_SHIFT.
  destruct (packed_word_fields 3 (serial mod 2 ^ 32) (off mod 2 ^ 26)) as (_ & _ & _ & H6 & H38);
    [lia | apply Z.mod_pos_bound; lia | apply Z.mod_pos_bound; lia |].
  rewrite H6, H38, !land_low32, land_mirror, Z.shiftr_div_pow2 by lia.
  assert (E1 : (off + serial / 2 ^ 32 * 2 ^ 32) mod 2 ^ 32 = off).
  { int_bounds. dlia. }
  assert (E2 : (off + serial / 2 ^ 32 * 2 ^ 32) / 2 ^ 32 = serial / 2 ^ 32).
  { int_bounds. dlia. }
  rewrite E1, E2, Z.eqb_refl. simpl. f_equal. f_equal.
  assert (0 <= serial / 2 ^ 32 < 2 ^ 32) by (int_bounds; dlia).
  rewrite (shl_field _ 32 32) by lia. rewrite lor_shiftl_add; [|lia | apply Z.mod_pos_bound; lia].
  int_bounds. dlia.
Qed.

Lemma decode_cross c off :
  handle_ok (co_ptr c) -> origin_live r c -> is_range U32 off ->
  decode st r th (co_ptr c + 5) (off + co_token c * 2 ^ 32) =
    Val {| address := None; info_origin := CrossArenaObjectRef c; info_offset := off |}.
Proof.
  intros Hh (Ht & Hn & Hbt & s & Hls & Hg & Hts) Ho.
  destruct (tagged_handle _ Hh) as (_ & Hw & H5 & Hmask).
  unfold decode. rewrite H5, land_low32, Z.shiftr_div_pow2 by lia.
  assert (E1 : (off + co_token c * 2 ^ 32) mod 2 ^ 32 = off) by (int_bounds; dlia).
  assert (E2 : (off + co_token c * 2 ^ 32) / 2 ^ 32 = co_token c) by (int_bounds; dlia).
  rewrite E1, E2, wrap_id by done. unfold token_from_raw.
  destruct (co_token c =? 0) eqn:E0; [bool_to_prop; done|]. simpl.
  unfold cross_arena_origin, try_acquire_lease_for_token. rewrite Hbt, Hls. simpl.
  rewrite Hmask. destruct Hh as [Hr _].
  destruct (co_ptr c + 5 =? 0) eqn:Ez; [bool_to_prop; lia|].
  destruct (co_ptr c =? 0) eqn:Ez'; [bool_to_prop; lia|].
  apply lookup_state_some in Hls as [_ Hst]. rewrite Hg, Hst, Hts. simpl.
  by destruct c as [? [? ?] ?].
Qed.

End decode.

(** The two words a serializable pointer is written as, and what they decode to. *)
Lemma serialize_decode p st r th w0 w1 st' :
  wf p -> statics_ok st -> next_static_id st < int_max U32 -> serializable r p ->
  serialize p st = (w0, w1, st') ->
  statics_ok st' /\ word w0 /\ word w1 /\
  decode st' r th w0 w1 =
    Val {| address := None; info_origin := normalize (origin p);
           info_offset := match origin p with
                          | Unmanaged => default 0 (value p)
                          | _ => byte_offset p
                          end |}.
Proof.
  intros Hp Hst Hx Hs. pose proof (wf_offset p Hp) as Hoff. pose proof (wf_value p Hp) as Hv.
  assert (Hb : is_unmanaged (origin p) = false -> is_range U32 (byte_offset p) /\ word (byte_offset p)).
  { intros Ho. rewrite byte_offset_managed by done. split; [done|].
    unfold word. int_bounds. lia. }
  unfold serialize, serializable in *.
  destruct (origin p) as [[h|]|m| |serial|c|obj] eqn:Ho; simpl in Hb; try done.
  - intros [= <- <- <-]. destruct (Hb eq_refl). split; [done|]. pose proof Hs as [Hr _].
    split; [unfold word; int_bounds; lia|]. split; [done|]. by apply decode_heap.
  - intros [= <- <- <-]. destruct (Hb eq_refl). done.
  - destruct (static_id st m) as [id st1] eqn:Eid. intros [= <- <- <-].
    destruct (Hb eq_refl) as [Hb32 Hbw].
    destruct (static_id_ok _ _ _ _ Hst Hx Eid) as (Hst1 & Hreg & Hid). split; [done|].
    rewrite land_low32, (Z.mod_small id) by lia.
    assert (Hb0 : 0 <= byte_offset p) by (int_bounds; lia). rewrite packed_word by lia.
    pose proof (Z.mod_pos_bound (byte_offset p) (2 ^ 26) ltac:(lia)) as Hmod.
    destruct (packed_word_fields 1 id (byte_offset p mod 2 ^ 26)) as (Hw & _); [lia..|].
    split; [done|]. split; [done|]. rewrite decode_packed by lia.
    rewrite land_mirror, (Z.eqb_refl (byte_offset p mod _)), Hreg.
    replace (int_max U32 <? byte_offset p) with false; [reflexivity|].
    symmetry. apply Z.ltb_ge. int_bounds. lia.
  - intros [= <- <- <-]. split; [done|]. split; [by vm_compute|].
    split; [|done]. destruct (value p); unfold word; simpl in *; int_bounds; lia.
  - intros [= <- <- <-]. destruct (Hb eq_refl) as [Hb32 Hbw]. split; [done|].
    unfold LOW_32_BITS, FRAME_HOME_OFFSET_MIRROR_MASK, FRAME_HOME_SUBTAG,
      FRAME_HOME_SERIAL_SHIFT, FRAME_HOME_OFFSET_SHIFT.
    rewrite land_low32, land_mirror, packed_word; [|lia | apply Z.mod_pos_bound; lia | by apply Z.mod_pos_bound].
    rewrite Z.mod_mod by lia. rewrite Z.shiftr_div_pow2 by lia.
    assert (Hhi : 0 <= serial / 2 ^ 32 < 2 ^ 32) by (int_bounds; dlia).
    assert (Hlo : 0 <= serial mod 2 ^ 32 < 2 ^ 32) by (apply Z.mod_pos_bound; lia).
    assert (Hmo : 0 <= byte_offset p mod 2 ^ 26 < 2 ^ 26) by (apply Z.mod_pos_bound; lia).
    rewrite (shl_field _ 32 32) by lia. rewrite lor_shiftl_add by (int_bounds; lia).
    destruct (packed_word_fields 3 _ _ ltac:(lia) Hlo Hmo) as (Hw & _).
    split; [done|]. split; [unfold word; int_bounds; dlia|].
    rewrite decode_packed by lia. rewrite parse_frame_home by done. reflexivity.
  - intros [= <- <- <-]. destruct (Hb eq_refl) as [Hb32 Hbw]. destruct Hs as [Hh Hl]. split; [done|].
    destruct (tagged_handle _ Hh) as (-> & Hw & _). split; [done|].
    assert (Ht : is_range U32 (co_token c)) by apply Hl.
    assert (Htw : 0 <= co_token c < 2 ^ 32) by (int_bounds; lia).
    assert (Hbb : 0 <= byte_offset p < 2 ^ 32) by (int_bounds; lia).
    rewrite land_low32, Z.mod_small, (shl_field _ 32 32), lor_shiftl_add by lia.
    split; [unfold word; int_bounds; lia|]. by apply decode_cross.
Qed.

(** C7.  Every serializable managed pointer survives its byte encoding: the
    bytes written decode to the same origin (a null heap origin in its canonical
    form) and the same offset, an unmanaged pointer to its absolute address,
    whatever follows the 24 bytes in the buffer; and the static registry stays
    consistent. *)
Theorem write_read_roundtrip p dest st r th :
  wf p -> statics_ok st -> next_static_id st < int_max U32 -> serializable r p ->
  (SIZE <= length dest)%nat ->
  exists out st', write p dest st = Val (out, st') /\ statics_ok st' /\
    read_metadata_unchecked st' r th out =
      Val {| address := None; info_origin := normalize (origin p);
             info_offset := match origin p with
                            | Unmanaged => default 0 (value p)
                            | _ => byte_offset p
                            end |}.
Proof.
  intros Hp Hst Hx Hs Hd. unfold write.
  destruct (serialize p st) as [[w0 w1] st'] eqn:E.
  destruct (serialize_decode p st r th w0 w1 st' Hp Hst Hx Hs E) as (Hst' & H0 & H1 & Hdec).
  assert (H2 : word (Z.lxor w0 w1)) by (apply lxor_range; [lia | done | done]).
  destruct (read_write_words dest w0 w1 _ Hd H0 H1 H2) as (out & -> & Hr).
  exists out, st'. split; [done|]. split; [done|].
  unfold read_metadata_unchecked. rewrite Hr. simpl. by rewrite Z.eqb_refl.
Qed.

Lemma write_read_roundtrip_witness :
  exists out st', write {| value := Some 4120; origin := FrameHome 0x123456789A;
      inner_type := NULL_TYPE; offset := 0xFEDCBA98; flags := 0 |} (replicate 24 0)
      reset_static_registry = Val (out, st') /\
    read_metadata_unchecked st' empty_registry 0 out =
      Val {| address := None; info_origin := FrameHome 0x123456789A; info_offset := 0xFEDCBA98 |}.
Proof.
  edestruct (write_read_roundtrip {| value := Some 4120; origin := FrameHome 0x123456789A;
      inner_type := NULL_TYPE; offset := 0xFEDCBA98; flags := 0 |} (replicate 24 0)
      reset_static_registry empty_registry 0) as (out & st' & Hw & _ & Hr).
  - split; vm_compute; intuition congruence.
  - apply statics_ok_reset.
  - by vm_compute.
  - split; by vm_compute.
  - vm_compute; lia.
  - exists out, st'. split; [exact Hw | exact Hr].
Defined.

(**  The bytes of a cross-arena pointer are bound to its exact registration:
    once that registration is removed they are rejected as an unresolved token,
    in every later state of the arena registry, whatever is registered then. *)
Theorem stale_cross_arena_bytes_rejected s id e k r s' c p dest st th :
  rtc step sys0 s -> is_range U64 id ->
  remove_registration (reg s) id e = Some (k, r) ->
  (exists a, states (reg s) !! k = Some a /\ st_token a = co_token c) ->
  rtc step (start_drain s k r) s' ->
  wf p -> origin p = CrossArenaObjectRef c -> handle_ok (co_ptr c) -> is_range U32 (co_token c) ->
  (SIZE <= length dest)%nat ->
  exists out, write p dest st = Val (out, st) /\
    read_metadata_unchecked st (reg s') th out = Err (UnresolvedCrossArenaToken (co_token c)).
Proof.
  intros Hs Hid Hrem (a & Ha & Hta) Hrun Hp Ho Hh Ht Hd.
  assert (Hstale : try_acquire_lease_for_token (reg s') th (co_token c) = None).
  { apply reachable_inv in Hs. destruct (sys_inv_remove _ _ _ _ _ Hs Hid Hrem) as (Hwr & Hsk & Hk).
    assert (Hdr : sys_inv (start_drain s k r)) by by apply sys_inv_start_drain.
    apply remove_registration_val in Hrem as (a0 & _ & Ha0 & _ & _ & _ & _ & _ & _ & Es).
    assert (a0 = a) as -> by congruence.
    destruct (gone_persists _ _ k (kill a) Hrun Hdr) as (Hs' & Hgone & a' & Ha' & Hta');
      [simpl; set_solver | simpl; rewrite Es; by rewrite lookup_insert_eq |].
    simpl in Hta'. rewrite <- Hta, <- Hta'. by eapply gone_token. }
  destruct (tagged_handle _ Hh) as (Hlor & Hw & H5 & _).
  assert (Htw : 0 <= co_token c < 2 ^ 32) by (int_bounds; lia).
  pose proof (wf_offset p Hp) as Hoff.
  assert (Hbb : 0 <= offset p < 2 ^ 32) by (int_bounds; lia).
  assert (Hw1 : word (offset p + co_token c * 2 ^ 32)) by (unfold word; int_bounds; lia).
  assert (H2 : word (Z.lxor (co_ptr c + 5) (offset p + co_token c * 2 ^ 32)))
    by (apply lxor_range; [lia | done | done]).
  unfold write, serialize. rewrite Ho, byte_offset_managed, Hlor by by rewrite Ho.
  rewrite land_low32, Z.mod_small, (shl_field _ 32 32), lor_shiftl_add by lia.
  destruct (read_write_words dest _ _ _ Hd Hw Hw1 H2) as (out & -> & Hr).
  exists out. split; [done|]. unfold read_metadata_unchecked. rewrite Hr. simpl.
  rewrite Z.eqb_refl. simpl. unfold decode. rewrite H5, Z.shiftr_div_pow2 by lia.
  assert (E2 : (offset p + co_token c * 2 ^ 32) / 2 ^ 32 = co_token c) by (int_bounds; dlia).
  rewrite E2, wrap_id by done. unfold token_from_raw.
  destruct (co_token c =? 0) eqn:E0; [by apply Z.eqb_eq in E0 as ->|]. simpl.
  unfold cross_arena_origin. by rewrite Hstale.
Qed.

Lemma stale_cross_arena_bytes_rejected_witness :
  exists out, write {| value := None; origin := CrossArenaObjectRef {| co_ptr := 4096;
        co_identity := {| arena_id := 7; generation := 0 |}; co_token := 1 |};
      inner_type := NULL_TYPE; offset := 8; flags := 0 |} (replicate 24 0) reset_static_registry
      = Val (out, reset_static_registry) /\
    read_metadata_unchecked reset_static_registry (reg run_s3) 2 out =
      Err (UnresolvedCrossArenaToken 1).
Proof.
  refine (stale_cross_arena_bytes_rejected run_s2 7 None 0 (reg run_s3) run_s3
    {| co_ptr := 4096; co_identity := {| arena_id := 7; generation := 0 |}; co_token := 1 |}
    {| value := None; origin := _; inner_type := NULL_TYPE; offset := 8; flags := 0 |}
    (replicate 24 0) reset_static_registry 2 run_s2_reachable _ _ _ _ _ _ _ _ _).
  - split; by vm_compute.
  - vm_compute; reflexivity.
  - eexists. split; vm_compute; reflexivity.
  - apply rtc_refl.
  - split; vm_compute; intuition congruence.
  - reflexivity.
  - split; [split|]; by vm_compute.
  - split; by vm_compute.
  - vm_compute; lia.
Defined.

(** A cache whose entries are the handles their words decode to. *)
Definition cache_ok (cache : gmap Z Z) : Prop := forall w o, cache !! w = Some o -> o = w.

(**  Decoding through the heap-handle cache agrees with decoding without it:
    with a cache of correct entries, both give the same pointer or the same error,
    and the cache keeps correct entries. *)
Theorem heap_cache_transparent st r th res cache source :
  cache_ok cache ->
  match read_resolved_with_heap_cache st r th res cache source with
  | Val (info, cache') =>
      read_resolved_unchecked st r th res source = Val info /\ cache_ok cache'
  | Err e => read_resolved_unchecked st r th res source = Err e
  | Panic => read_resolved_unchecked st r th res source = Panic
  end.
Proof.
  intros Hc. unfold read_resolved_with_heap_cache, read_resolved_unchecked, read_metadata_unchecked.
  destruct (read_words source) as [[[w0 w1] w2]|e|]; simpl; [|done..].
  destruct (negb (w2 =? Z.lxor w0 w1)); simpl; [done|].
  destruct (negb (w0 =? 0) && (Z.land w0 7 =? 0)) eqn:E.
  - apply andb_true_iff in E as [E0%negb_true_iff E7%Z.eqb_eq].
    assert (Hd : decode st r th w0 w1 =
      Val {| address := None; info_origin := Heap (Some w0); info_offset := w1 |}).
    { unfold decode. rewrite E7, E0. done. }
    assert (Hl : exists cache', match cache !! w0 with
      | Some o => (o, cache) | None => (w0, <[w0 := w0]> cache) end = (w0, cache') /\ cache_ok cache').
    { destruct (cache !! w0) as [o|] eqn:Ec; [pose proof (Hc _ _ Ec) as ->; eauto|].
      eexists. split; [done|]. intros w o [[<- <-]|[_ Hw]]%lookup_insert_Some; eauto. }
    destruct Hl as (cache' & -> & Hc'). rewrite Hd. simpl. auto.
  - destruct (decode st r th w0 w1); cbn [obind]; [|done..].
    destruct (resolve_metadata_unchecked _ _ _ _); cbn [obind]; auto.
Qed.

Lemma heap_cache_transparent_witness :
  read_resolved_unchecked reset_static_registry empty_registry 0
    {| static_storage_base := fun _ => None; frame_home_block := fun _ => None;
       raw_data_ptr := fun h => h + 16 |}
    (to_le_bytes usize 4096 ++ to_le_bytes usize 4 ++ to_le_bytes usize 4100) =
  Val {| address := Some 4116; info_origin := Heap (Some 4096); info_offset := 4 |}.
Proof.
  assert (Hc : cache_ok ∅) by (intros w o H; by rewrite lookup_empty in H).
  pose proof (heap_cache_transparent reset_static_registry empty_registry 0
    {| static_storage_base := fun _ => None; frame_home_block := fun _ => None;
       raw_data_ptr := fun h => h + 16 |} ∅
    (to_le_bytes usize 4096 ++ to_le_bytes usize 4 ++ to_le_bytes usize 4100) Hc) as H.
  vm_compute in H. vm_compute. exact (proj1 H).
Defined.

(**  An object reference survives its storage word: what [to_storage_ptr]
    produces, for a null reference, a reference owned by no arena, or one tagged
    with its owner's ID, decodes to the same reference. *)
Theorem object_ref_storage_roundtrip r th owner_id o w :
  (forall ptr, o = Some ptr -> handle_ok ptr) ->
  (forall ptr, o = Some ptr -> is_range U64 (owner_id ptr)) ->
  try_to_storage_ptr r th owner_id o = Val w -> try_from_storage_ptr r th w = Val o.
Proof.
  intros Hh Hown. unfold try_to_storage_ptr. destruct o as [ptr|]; [|by intros [= <-]].
  specialize (Hh ptr eq_refl). specialize (Hown ptr eq_refl). pose proof Hh as [Hr Hm].
  destruct (owner_id ptr =? INVALID_ARENA); cbn [negb].
  { intros [= <-]. unfold try_from_storage_ptr. rewrite land7, Hm.
    change (Z.land ptr 1) with (Z.land ptr (2 ^ 1 - 1)). rewrite land_mask by lia. simpl.
    replace (ptr mod 2 ^ 1) with 0 by (change (2 ^ 1) with 2; dlia). simpl. destruct (ptr =? 0) eqn:E; [bool_to_prop; lia|done]. }
  destruct (checked U16 (owner_id ptr)) as [ow|] eqn:Eow; [|done].
  apply checked_some in Eow as [-> How]. cbn [ok_or obind].
  unfold check_compact_address at 1. destruct (_ || _ || _) eqn:Ec; [done|]. cbn [obind].
  apply orb_false_iff in Ec as [_ E48%Z.leb_gt].
  destruct (try_acquire_lease r th (owner_id ptr)) as [l|] eqn:El; [|done]. intros [= <-].
  destruct (tagged_handle _ Hh) as (-> & _).
  assert (Hob : 0 <= owner_id ptr < 2 ^ 16) by (int_bounds; lia).
  assert (Hpb : 0 <= ptr + 5 < 2 ^ 48) by dlia.
  rewrite (shl_field _ 48 16), lor_shiftl_add by lia.
  unfold try_from_storage_ptr. set (x := ptr + 5 + owner_id ptr * 2 ^ 48).
  assert (E7 : Z.land x 7 = 5) by (rewrite land7; subst x; dlia).
  assert (E16 : wrap U16 (Z.shiftr x 48) = owner_id ptr).
  { rewrite Z.shiftr_div_pow2 by lia. replace (x / 2 ^ 48) with (owner_id ptr) by (subst x; dlia).
    by apply wrap_id. }
  assert (Ereal : Z.land x 0x0000FFFFFFFFFFF8 = ptr).
  { change 0x0000FFFFFFFFFFF8 with (Z.shiftl (2 ^ 45 - 1) 3). rewrite land_field by lia.
    rewrite Z.shiftl_mul_pow2 by lia. subst x. dlia. }
  rewrite E7, E16, Ereal, El. unfold check_compact_address.
  replace ((ptr =? 0) || negb (Z.land ptr 7 =? 0) || (2 ^ 48 <=? ptr)) with false; [done|].
  symmetry. rewrite land7, Hm. apply orb_false_iff. split; [|by apply Z.leb_gt].
  apply orb_false_iff. split; [apply Z.eqb_neq; lia | done].
Qed.

Lemma object_ref_storage_roundtrip_witness :
  try_to_storage_ptr (reg run_s2) 0 (fun _ => 7) (Some 0x7FFF12345678) = Val 0x77FFF1234567D /\
  try_from_storage_ptr (reg run_s2) 0 0x77FFF1234567D = Val (Some 0x7FFF12345678).
Proof.
  split; [vm_compute; reflexivity|].
  apply (object_ref_storage_roundtrip (reg run_s2) 0 (fun _ => 7) (Some 0x7FFF12345678)).
  - intros ptr [= <-]. split; [split|]; by vm_compute.
  - intros ptr _. split; by vm_compute.
  - vm_compute; reflexivity.
Defined.

End PtrSerde.
