(* ===== verification/StackValue.v ===== *)
(** * Evaluation-stack values

    [StackValue] of [dotnet-value/src/stack_value.rs]: the CLI stack types, their
    arithmetic, comparison and accessors, and the scalar widening of
    [dotnet-value/src/cts_cli_conversion.rs] that enum operands go through.

    Two answers come from outside: [is_enum], what the metadata says of a type's
    underlying member type, and the [heap_view] of [ManagedPtr].  Overflow checks
    are on in every profile, so plain [-], [/], [%], [<<] and [>>] panic where Rust
    does. *)

From Stdlib Require Import ZArith Lia SpecFloat.
From stdpp Require Import base tactics list option strings.
From S2P Require Import Prelude Bytes Floats ManagedPtr.

(** ** Errors *)

Inductive ExecutionError : Set :=
| StackUnderflow
| InvalidIP (ip : Z)
| TypeMismatch (expected actual : string)
| NullReference
| NotImplemented (what : string)
| InvalidCil (what : string)
| InternalError (what : string)
| FuzzBudgetExceeded
| Aborted (what : string).

Record ManagedExceptionError : Set := { exception_type : string; message : string }.

Definition overflow : ManagedExceptionError :=
  {| exception_type := "System.OverflowException";
     message := "Arithmetic operation resulted in an overflow." |}.

Definition divide_by_zero : ManagedExceptionError :=
  {| exception_type := "System.DivideByZeroException";
     message := "Attempted to divide by zero." |}.

Inductive StackValueError : Set :=
| ManagedException (e : ManagedExceptionError)
| Execution (e : ExecutionError).

Inductive NumberSign : Set := Signed | Unsigned.

(** ** Values *)

Module SV.

Inductive StackValue : Set :=
| Int32 (i : Z)
| Int64 (i : Z)
| NativeInt (i : Z)
| NativeFloat (f : spec_float)
| ObjectRef (o : option Z)
| UnmanagedPtr (a : Z)
| ManagedPtr (m : ManagedPtr.ManagedPtr)
| ValueType (obj : Object)
| TypedRef (m : ManagedPtr.ManagedPtr) (ty : TypeDescription)
| UninitializedTypedRef.

End SV.

Abbreviation StackValue := SV.StackValue (only parsing).

Definition stack_value_kind (v : StackValue) : string :=
  match v with
  | SV.Int32 _ => "Int32"
  | SV.Int64 _ => "Int64"
  | SV.NativeInt _ => "NativeInt"
  | SV.NativeFloat _ => "NativeFloat"
  | SV.ObjectRef _ => "ObjectRef"
  | SV.UnmanagedPtr _ => "UnmanagedPtr"
  | SV.ManagedPtr _ => "ManagedPtr"
  | SV.ValueType _ => "ValueType"
  | SV.TypedRef _ _ => "TypedRef"
  | SV.UninitializedTypedRef => "UninitializedTypedRef"
  end.

(** The ["{}, {}"] of the two kinds. *)
Definition kinds (l r : StackValue) : string :=
  (stack_value_kind l +:+ ", " +:+ stack_value_kind r)%string.

(** ** Scalar storage kinds *)

Module Kind.

Inductive CtsScalarKind : Set :=
| Boolean | Char | Int8 | UInt8 | Int16 | UInt16 | Int32 | UInt32 | Int64 | UInt64
| NativeInt | NativeUInt.

End Kind.

Abbreviation CtsScalarKind := Kind.CtsScalarKind (only parsing).

(** The metadata reader's [BaseType]; the constructors the source does not
    distinguish are one. *)
Module Base.

Inductive BaseType : Set :=
| Boolean | Char | Int8 | UInt8 | Int16 | UInt16 | Int32 | UInt32 | Int64 | UInt64
| IntPtr | UIntPtr | Float32 | Float64 | Object | Other.

End Base.

Inductive MemberType : Set :=
| MBase (b : Base.BaseType)
| MGeneric (n : nat).

Definition from_enum_underlying (base : Base.BaseType) : option CtsScalarKind :=
  match base with
  | Base.Boolean => Some Kind.Boolean
  | Base.Char => Some Kind.Char
  | Base.Int8 => Some Kind.Int8
  | Base.UInt8 => Some Kind.UInt8
  | Base.Int16 => Some Kind.Int16
  | Base.UInt16 => Some Kind.UInt16
  | Base.Int32 => Some Kind.Int32
  | Base.UInt32 => Some Kind.UInt32
  | Base.Int64 => Some Kind.Int64
  | Base.UInt64 => Some Kind.UInt64
  | Base.IntPtr => Some Kind.NativeInt
  | Base.UIntPtr => Some Kind.NativeUInt
  | _ => None
  end.

Definition storage_size (k : CtsScalarKind) : nat :=
  match k with
  | Kind.Boolean | Kind.Int8 | Kind.UInt8 => 1
  | Kind.Char | Kind.Int16 | Kind.UInt16 => 2
  | Kind.Int32 | Kind.UInt32 => 4
  | Kind.Int64 | Kind.UInt64 => 8
  | Kind.NativeInt | Kind.NativeUInt => 8
  end%nat.

Definition widen_raw (k : CtsScalarKind) (raw : Z) : StackValue :=
  match k with
  | Kind.Boolean | Kind.UInt8 => SV.Int32 (wrap U8 raw)
  | Kind.Int8 => SV.Int32 (wrap I8 raw)
  | Kind.Char | Kind.UInt16 => SV.Int32 (wrap U16 raw)
  | Kind.Int16 => SV.Int32 (wrap I16 raw)
  | Kind.Int32 => SV.Int32 (wrap I32 raw)
  | Kind.UInt32 => SV.Int32 (wrap I32 (wrap U32 raw))
  | Kind.Int64 | Kind.UInt64 => SV.Int64 (wrap I64 raw)
  | Kind.NativeInt | Kind.NativeUInt => SV.NativeInt (wrap isize raw)
  end.

(** [data[..width]] panics on a shorter slice. *)
Definition read_le_u64_prefix {E} (data : list Z) (width : nat) : outcome E Z :=
  if (width <=? length data)%nat then Val (le_value (take width data)) else Panic.

Definition widen_enum_underlying_bytes {E} (base : Base.BaseType) (data : list Z)
  : outcome E (option StackValue) :=
  match from_enum_underlying base with
  | None => Val None
  | Some scalar =>
      let* raw := read_le_u64_prefix data (storage_size scalar) in
      Val (Some (widen_raw scalar raw))
  end.

(** ** Accessors *)

Definition try_as_i32 (v : StackValue) : outcome ExecutionError Z :=
  match v with
  | SV.Int32 i => Val i
  | SV.NativeInt i => Val (wrap I32 i)
  | v => Err (TypeMismatch "Int32" (stack_value_kind v))
  end.

Definition try_as_i64 (v : StackValue) : outcome ExecutionError Z :=
  match v with
  | SV.Int64 i => Val i
  | v => Err (TypeMismatch "Int64" (stack_value_kind v))
  end.

Definition try_as_f64 (v : StackValue) : outcome ExecutionError spec_float :=
  match v with
  | SV.NativeFloat f => Val f
  | v => Err (TypeMismatch "NativeFloat" (stack_value_kind v))
  end.

Definition try_as_isize (v : StackValue) : outcome ExecutionError Z :=
  match v with
  | SV.NativeInt i => Val i
  | SV.Int32 i => Val i
  | v => Err (TypeMismatch "NativeInt" (stack_value_kind v))
  end.

Definition try_as_object_ref (v : StackValue) : outcome ExecutionError (option Z) :=
  match v with
  | SV.ObjectRef o => Val o
  | v => Err (TypeMismatch "ObjectRef" (stack_value_kind v))
  end.

Definition try_as_managed_ptr (v : StackValue) : outcome ExecutionError ManagedPtr.ManagedPtr :=
  match v with
  | SV.ManagedPtr m => Val m
  | v => Err (TypeMismatch "ManagedPtr" (stack_value_kind v))
  end.

Definition try_as_value_type (v : StackValue) : outcome ExecutionError Object :=
  match v with
  | SV.ValueType o => Val o
  | v => Err (TypeMismatch "ValueType" (stack_value_kind v))
  end.

Definition is_zero (v : StackValue) : bool :=
  match v with
  | SV.Int32 i | SV.Int64 i | SV.NativeInt i => i =? 0
  | _ => false
  end.

Definition sv_is_null (v : StackValue) : bool :=
  match v with
  | SV.ObjectRef o => match o with None => true | Some _ => false end
  | SV.ManagedPtr m => ManagedPtr.is_null m
  | SV.UnmanagedPtr _ => false
  | v => is_zero v
  end.

(** ** Integer operators *)

(** [/] and [%] panic on a zero divisor and on [MIN / -1]. *)
Definition int_div {E} (t : ity) (l r : Z) : outcome E Z :=
  if r =? 0 then Panic else arith t (Z.quot l r).

Definition int_rem {E} (t : ity) (l r : Z) : outcome E Z :=
  if r =? 0 then Panic else let* _ := arith t (Z.quot l r) in Val (Z.rem l r).

(** [<<] and [>>] panic on an amount of the width or more. *)
Definition int_shl {E} (t : ity) (i amount : Z) : outcome E Z :=
  if amount <? bits t then Val (wrap t (Z.shiftl i amount)) else Panic.

Definition int_shr {E} (t : ity) (i amount : Z) : outcome E Z :=
  if amount <? bits t then Val (Z.shiftr i amount) else Panic.

Definition extract_shift_amount (v : StackValue) : outcome ExecutionError Z :=
  match v with
  | SV.Int32 i => Val (wrap U32 i)
  | SV.NativeInt i => Val (wrap U32 i)
  | v => Err (TypeMismatch "shift amount (Int32 or NativeInt)" (stack_value_kind v))
  end.

(** ** The arithmetic macros *)

(** [checked_arithmetic_op!]: [op] is the exact operation; [checked_*] keeps its
    result when it fits. *)
Definition checked_arithmetic_op (op : Z -> Z -> Z) (l r : StackValue) (sgn : NumberSign)
  : outcome StackValueError StackValue :=
  let fits (t : ity) (x : Z) (k : Z -> StackValue) :=
    ok_or (option_map k (checked t x)) (ManagedException overflow) in
  match l, r, sgn with
  | SV.Int32 l, SV.Int32 r, Signed => fits I32 (op l r) SV.Int32
  | SV.Int32 l, SV.Int32 r, Unsigned =>
      fits U32 (op (wrap U32 l) (wrap U32 r)) (fun v => SV.Int32 (wrap I32 v))
  | SV.Int64 l, SV.Int64 r, Signed => fits I64 (op l r) SV.Int64
  | SV.Int64 l, SV.Int64 r, Unsigned =>
      fits U64 (op (wrap U64 l) (wrap U64 r)) (fun v => SV.Int64 (wrap I64 v))
  | SV.NativeInt l, SV.NativeInt r, Signed => fits isize (op l r) SV.NativeInt
  | SV.NativeInt l, SV.NativeInt r, Unsigned =>
      fits usize (op (wrap usize l) (wrap usize r)) (fun v => SV.NativeInt (wrap isize v))
  | SV.NativeInt l, SV.Int32 r, Signed => fits isize (op l r) SV.NativeInt
  | SV.NativeInt l, SV.Int32 r, Unsigned =>
      fits usize (op (wrap usize l) (wrap U32 r)) (fun v => SV.NativeInt (wrap isize v))
  | SV.Int32 l, SV.NativeInt r, Signed => fits isize (op l r) SV.NativeInt
  | SV.Int32 l, SV.NativeInt r, Unsigned =>
      fits usize (op (wrap U32 l) (wrap usize r)) (fun v => SV.NativeInt (wrap isize v))
  | l, r, _ =>
      Err (Execution (TypeMismatch "checked arithmetic operands (Int32, Int64, NativeInt)" (kinds l r)))
  end.

(** [arithmetic_op!]: [iop] is the operator at an integer type, [fop] on floats. *)
Definition arithmetic_op (iop : ity -> Z -> Z -> outcome ExecutionError Z)
    (fop : spec_float -> spec_float -> spec_float) (l r : StackValue) (sgn : NumberSign)
  : outcome ExecutionError StackValue :=
  match l, r, sgn with
  | SV.Int32 l, SV.Int32 r, Signed => let* v := iop I32 l r in Val (SV.Int32 v)
  | SV.Int32 l, SV.Int32 r, Unsigned =>
      let* v := iop U32 (wrap U32 l) (wrap U32 r) in Val (SV.Int32 (wrap I32 v))
  | SV.Int64 l, SV.Int64 r, Signed => let* v := iop I64 l r in Val (SV.Int64 v)
  | SV.Int64 l, SV.Int64 r, Unsigned =>
      let* v := iop U64 (wrap U64 l) (wrap U64 r) in Val (SV.Int64 (wrap I64 v))
  | SV.NativeInt l, SV.NativeInt r, Signed => let* v := iop isize l r in Val (SV.NativeInt v)
  | SV.NativeInt l, SV.NativeInt r, Unsigned =>
      let* v := iop usize (wrap usize l) (wrap usize r) in Val (SV.NativeInt (wrap isize v))
  | SV.NativeFloat l, SV.NativeFloat r, _ => Val (SV.NativeFloat (fop l r))
  | SV.NativeInt l, SV.Int32 r, Signed => let* v := iop isize l r in Val (SV.NativeInt v)
  | SV.NativeInt l, SV.Int32 r, Unsigned =>
      let* v := iop usize (wrap usize l) (wrap U32 r) in Val (SV.NativeInt (wrap isize v))
  | SV.Int32 l, SV.NativeInt r, Signed => let* v := iop isize l r in Val (SV.NativeInt v)
  | SV.Int32 l, SV.NativeInt r, Unsigned =>
      let* v := iop usize (wrap U32 l) (wrap usize r) in Val (SV.NativeInt (wrap isize v))
  | l, r, _ =>
      Err (TypeMismatch "arithmetic operands (Int32, Int64, NativeInt, NativeFloat)" (kinds l r))
  end.

(** [shift_op!], used at [>>]. *)
Definition shift_op (iop : ity -> Z -> Z -> outcome ExecutionError Z) (target : StackValue)
    (amount : Z) (sgn : NumberSign) : outcome ExecutionError StackValue :=
  match target, sgn with
  | SV.Int32 i, Signed => let* v := iop I32 i amount in Val (SV.Int32 v)
  | SV.Int32 i, Unsigned => let* v := iop U32 (wrap U32 i) amount in Val (SV.Int32 (wrap I32 v))
  | SV.Int64 i, Signed => let* v := iop I64 i amount in Val (SV.Int64 v)
  | SV.Int64 i, Unsigned => let* v := iop U64 (wrap U64 i) amount in Val (SV.Int64 (wrap I64 v))
  | SV.NativeInt i, Signed => let* v := iop isize i amount in Val (SV.NativeInt v)
  | SV.NativeInt i, Unsigned =>
      let* v := iop usize (wrap usize i) amount in Val (SV.NativeInt (wrap isize v))
  | v, _ => Err (TypeMismatch "shift target (Int32, Int64, NativeInt)" (stack_value_kind v))
  end.

(** [bitwise_op!]; widening a signed operand is the identity on [Z]. *)
Definition bitwise_op (op : Z -> Z -> Z) (l r : StackValue) : outcome ExecutionError StackValue :=
  match l, r with
  | SV.Int32 l, SV.Int32 r => Val (SV.Int32 (op l r))
  | SV.Int32 l, SV.NativeInt r => Val (SV.NativeInt (op l r))
  | SV.Int64 l, SV.Int64 r => Val (SV.Int64 (op l r))
  | SV.Int64 l, SV.NativeInt r => Val (SV.Int64 (op l r))
  | SV.NativeInt l, SV.Int32 r => Val (SV.NativeInt (op l r))
  | SV.NativeInt l, SV.Int64 r => Val (SV.Int64 (op l r))
  | SV.NativeInt l, SV.NativeInt r => Val (SV.NativeInt (op l r))
  | l, r => Err (TypeMismatch "bitwise operands (Int32, Int64, NativeInt)" (kinds l r))
  end.

(** The address of an object handle as an [isize], [0] for null. *)
Definition object_address (o : option Z) : Z :=
  match o with Some h => wrap isize h | None => 0 end.

(** [wrapping_arithmetic_op!]: [op] is the exact operation and [wrapping_*] its
    result modulo the width. *)
Definition wrapping_arithmetic_op (op : Z -> Z -> Z)
    (fop : spec_float -> spec_float -> spec_float) (l r : StackValue)
  : outcome ExecutionError StackValue :=
  match l, r with
  | SV.Int32 l, SV.Int32 r => Val (SV.Int32 (wrap I32 (op l r)))
  | SV.Int32 l, SV.NativeInt r => Val (SV.NativeInt (wrap isize (op l r)))
  | SV.Int64 l, SV.Int64 r => Val (SV.Int64 (wrap I64 (op l r)))
  | SV.Int64 l, SV.NativeInt r => Val (SV.Int64 (wrap I64 (op l r)))
  | SV.NativeInt l, SV.Int32 r => Val (SV.NativeInt (wrap isize (op l r)))
  | SV.NativeInt l, SV.Int64 r => Val (SV.Int64 (wrap I64 (op l r)))
  | SV.NativeInt l, SV.NativeInt r => Val (SV.NativeInt (wrap isize (op l r)))
  | SV.NativeFloat l, SV.NativeFloat r => Val (SV.NativeFloat (fop l r))
  | SV.ObjectRef l, SV.NativeInt r => Val (SV.NativeInt (wrap isize (op (object_address l) r)))
  | SV.ObjectRef l, SV.Int32 r => Val (SV.NativeInt (wrap isize (op (object_address l) r)))
  | SV.ObjectRef l, SV.ObjectRef r =>
      Val (SV.NativeInt (wrap isize (op (object_address l) (object_address r))))
  | l, r =>
      Err (TypeMismatch "arithmetic operands (Int32, Int64, NativeInt, NativeFloat, ObjectRef+nint)"
             (kinds l r))
  end.

(** ** Operations *)

Definition unmanaged_ptr (a : Z) : StackValue :=
  match nonnull a with Some p => SV.UnmanagedPtr p | None => SV.NativeInt 0 end.

Definition unmanaged_ptr_offset (p delta : Z) : StackValue :=
  unmanaged_ptr (wrap usize (p + delta)).

Definition managed_offset_error : ExecutionError :=
  NotImplemented "managed pointer offset is unrepresentable (negative or beyond the compact offset range is not supported; overflow or null cached address is unsupported)".

Definition managed_offset (m : ManagedPtr.ManagedPtr) (bytes : Z)
  : outcome ExecutionError StackValue :=
  let* p := omap_err (fun _ => managed_offset_error) (checked_offset m bytes) in
  Val (SV.ManagedPtr p).

Definition add (l r : StackValue) : outcome ExecutionError StackValue :=
  match l, r with
  | SV.Int32 i, SV.ManagedPtr m | SV.ManagedPtr m, SV.Int32 i => managed_offset m i
  | SV.NativeInt i, SV.ManagedPtr m | SV.ManagedPtr m, SV.NativeInt i => managed_offset m i
  | SV.Int32 i, SV.UnmanagedPtr u | SV.UnmanagedPtr u, SV.Int32 i =>
      Val (unmanaged_ptr_offset u i)
  | SV.NativeInt i, SV.UnmanagedPtr u | SV.UnmanagedPtr u, SV.NativeInt i =>
      Val (unmanaged_ptr_offset u i)
  | l, r => wrapping_arithmetic_op Z.add f64_add l r
  end.

Definition mul (l r : StackValue) : outcome ExecutionError StackValue :=
  wrapping_arithmetic_op Z.mul f64_mul l r.

Definition bitand : StackValue -> StackValue -> outcome ExecutionError StackValue :=
  bitwise_op Z.land.
Definition bitor : StackValue -> StackValue -> outcome ExecutionError StackValue :=
  bitwise_op Z.lor.
Definition bitxor : StackValue -> StackValue -> outcome ExecutionError StackValue :=
  bitwise_op Z.lxor.

Definition shl (l r : StackValue) : outcome ExecutionError StackValue :=
  let* amount := extract_shift_amount r in
  match l with
  | SV.Int32 i => let* v := int_shl I32 i amount in Val (SV.Int32 v)
  | SV.Int64 i => let* v := int_shl I64 i amount in Val (SV.Int64 v)
  | SV.NativeInt i => let* v := int_shl isize i amount in Val (SV.NativeInt v)
  | v => Err (TypeMismatch "shift target (Int32, Int64, NativeInt)" (stack_value_kind v))
  end.

Definition shr (l r : StackValue) (sgn : NumberSign) : outcome ExecutionError StackValue :=
  let* amount := extract_shift_amount r in shift_op int_shr l amount sgn.

Definition sv_not (v : StackValue) : outcome ExecutionError StackValue :=
  match v with
  | SV.Int32 i => Val (SV.Int32 (Z.lnot i))
  | SV.Int64 i => Val (SV.Int64 (Z.lnot i))
  | SV.NativeInt i => Val (SV.NativeInt (Z.lnot i))
  | v => Err (TypeMismatch "not operand (Int32, Int64, NativeInt)" (stack_value_kind v))
  end.

Definition neg (v : StackValue) : outcome ExecutionError StackValue :=
  match v with
  | SV.Int32 i => let* x := arith I32 (- i) in Val (SV.Int32 x)
  | SV.Int64 i => let* x := arith I64 (- i) in Val (SV.Int64 x)
  | SV.NativeInt i => let* x := arith isize (- i) in Val (SV.NativeInt x)
  | SV.NativeFloat f => Val (SV.NativeFloat (f64_neg f))
  | v => Err (TypeMismatch "neg operand (Int32, Int64, NativeInt, NativeFloat)" (stack_value_kind v))
  end.

Definition div (l r : StackValue) (sgn : NumberSign) : outcome StackValueError StackValue :=
  if is_zero r then Err (ManagedException divide_by_zero)
  else omap_err Execution (arithmetic_op int_div f64_div l r sgn).

Definition rem (l r : StackValue) (sgn : NumberSign) : outcome StackValueError StackValue :=
  if is_zero r then Err (ManagedException divide_by_zero)
  else omap_err Execution (arithmetic_op int_rem f64_rem l r sgn).

Definition checked_add : StackValue -> StackValue -> NumberSign -> outcome StackValueError StackValue :=
  checked_arithmetic_op Z.add.
Definition checked_sub : StackValue -> StackValue -> NumberSign -> outcome StackValueError StackValue :=
  checked_arithmetic_op Z.sub.
Definition checked_mul : StackValue -> StackValue -> NumberSign -> outcome StackValueError StackValue :=
  checked_arithmetic_op Z.mul.

(** [ObjectRef]'s orders: handles by address, null least. *)
Definition object_ref_eqb (l r : option Z) : bool :=
  match l, r with
  | Some l, Some r => l =? r
  | None, None => true
  | _, _ => false
  end.

Definition object_ref_cmp (l r : option Z) : option comparison :=
  match l, r with
  | Some l, Some r => Some (Z.compare l r)
  | None, None => Some Eq
  | None, _ => Some Lt
  | _, None => Some Gt
  end.

(** [Option<usize>]'s derived order: [None] least. *)
Definition option_cmp (l r : option Z) : option comparison :=
  match l, r with
  | Some l, Some r => Some (Z.compare l r)
  | None, None => Some Eq
  | None, Some _ => Some Lt
  | Some _, None => Some Gt
  end.

Section with_views.

Variable hv : heap_view.
Variable is_enum : TypeDescription -> option MemberType.

Definition managed_ptr_to_raw (m : ManagedPtr.ManagedPtr) : Z := default 0 (observe_address hv m).

Definition pointer_address (v : StackValue) : option Z :=
  match v with
  | SV.NativeInt i => Some (wrap usize i)
  | SV.UnmanagedPtr p => Some p
  | SV.ManagedPtr m => Some (managed_ptr_to_raw m)
  | _ => None
  end.

Definition pointer_difference {E} (l r : StackValue) : outcome E Z :=
  let* l := expect (pointer_address l) in
  let* r := expect (pointer_address r) in
  Val (wrap isize (wrap usize (l - r))).

Definition sub (l r : StackValue) : outcome ExecutionError StackValue :=
  let difference l r := let* d := pointer_difference l r in Val (SV.NativeInt d) in
  match l, r with
  | SV.ManagedPtr m, SV.Int32 i | SV.ManagedPtr m, SV.NativeInt i | SV.ManagedPtr m, SV.Int64 i =>
      let* n := ok_or (checked isize (- i)) managed_offset_error in managed_offset m n
  | SV.UnmanagedPtr u, SV.Int32 i | SV.UnmanagedPtr u, SV.NativeInt i =>
      Val (unmanaged_ptr_offset u (wrap isize (- i)))
  | SV.UnmanagedPtr _, SV.UnmanagedPtr _ => difference l r
  | SV.NativeInt _, SV.UnmanagedPtr _ => difference l r
  | SV.UnmanagedPtr _, SV.ManagedPtr _ => difference l r
  | SV.ManagedPtr _, SV.UnmanagedPtr _ => difference l r
  | SV.ManagedPtr _, SV.ManagedPtr _ => difference l r
  | l, r => wrapping_arithmetic_op Z.sub f64_sub l r
  end.

(** [PartialEq] *)
Definition sv_eqb (l r : StackValue) : bool :=
  let same_address := bool_decide (pointer_address l = pointer_address r) in
  match l, r with
  | SV.Int32 l, SV.Int32 r => l =? r
  | SV.Int32 l, SV.NativeInt r => l =? r
  | SV.Int64 l, SV.Int64 r => l =? r
  | SV.NativeInt l, SV.Int32 r => l =? r
  | SV.NativeInt l, SV.NativeInt r => l =? r
  | SV.NativeFloat l, SV.NativeFloat r => f64_eqb l r
  | SV.ManagedPtr l, SV.ManagedPtr r => ptr_eqb l r
  | SV.ManagedPtr _, (SV.NativeInt _ | SV.UnmanagedPtr _) => same_address
  | SV.UnmanagedPtr _, (SV.ManagedPtr _ | SV.UnmanagedPtr _ | SV.NativeInt _) => same_address
  | SV.NativeInt _, (SV.ManagedPtr _ | SV.UnmanagedPtr _) => same_address
  | SV.ObjectRef l, SV.ObjectRef r => object_ref_eqb l r
  | SV.ValueType l, SV.ValueType r => bool_decide (l = r)
  | _, _ => false
  end.

(** [PartialOrd] *)
Definition partial_cmp (l r : StackValue) : option comparison :=
  let signed_address v := option_map (wrap isize) (pointer_address v) in
  match l, r with
  | SV.Int32 l, SV.Int32 r => Some (Z.compare l r)
  | SV.Int32 l, SV.NativeInt r => Some (Z.compare l r)
  | SV.Int64 l, SV.Int64 r => Some (Z.compare l r)
  | SV.NativeInt l, SV.Int32 r => Some (Z.compare l r)
  | SV.NativeInt l, SV.NativeInt r => Some (Z.compare l r)
  | SV.NativeFloat l, SV.NativeFloat r => f64_cmp l r
  | (SV.ManagedPtr _ | SV.UnmanagedPtr _), (SV.ManagedPtr _ | SV.UnmanagedPtr _) =>
      option_cmp (pointer_address l) (pointer_address r)
  | (SV.ManagedPtr _ | SV.UnmanagedPtr _), SV.NativeInt _
  | SV.NativeInt _, (SV.ManagedPtr _ | SV.UnmanagedPtr _) =>
      option_cmp (signed_address l) (signed_address r)
  | SV.ObjectRef l, SV.ObjectRef r => object_ref_cmp l r
  | _, _ => None
  end.

Definition compare (l r : StackValue) (sgn : NumberSign) : option comparison :=
  match l, r, sgn with
  | SV.Int32 l, SV.Int32 r, Unsigned => Some (Z.compare (wrap U32 l) (wrap U32 r))
  | SV.Int32 l, SV.NativeInt r, Unsigned => Some (Z.compare (wrap U32 l) (wrap usize r))
  | SV.NativeInt l, SV.Int32 r, Unsigned => Some (Z.compare (wrap usize l) (wrap U32 r))
  | SV.NativeInt l, SV.NativeInt r, Unsigned => Some (Z.compare (wrap usize l) (wrap usize r))
  | SV.Int64 l, SV.Int64 r, Unsigned => Some (Z.compare (wrap U64 l) (wrap U64 r))
  | (SV.ManagedPtr _ | SV.UnmanagedPtr _), SV.NativeInt _, Unsigned
  | SV.NativeInt _, (SV.ManagedPtr _ | SV.UnmanagedPtr _), Unsigned =>
      option_cmp (pointer_address l) (pointer_address r)
  | l, r, _ => partial_cmp l r
  end.

Definition enum_value_type_to_underlying {E} (obj : Object) : outcome E (option StackValue) :=
  match is_enum (description obj) with
  | Some (MBase base) => widen_enum_underlying_bytes base (data obj)
  | _ => Val None
  end.

Definition coerce_enum_to_underlying {E} (v : StackValue) : outcome E StackValue :=
  match v with
  | SV.ValueType obj =>
      let* coerced := enum_value_type_to_underlying obj in
      Val (default v coerced)
  | v => Val v
  end.

End with_views.

(** ** Well-formed values *)

Definition handle_ok (o : option Z) : Prop :=
  match o with None => True | Some h => 0 < h <= int_max usize end.

(** Every payload is in the range of its Rust type. *)
Definition sv_ok (v : StackValue) : Prop :=
  match v with
  | SV.Int32 i => is_range I32 i
  | SV.Int64 i => is_range I64 i
  | SV.NativeInt i => is_range isize i
  | SV.NativeFloat _ => True
  | SV.ObjectRef o => handle_ok o
  | SV.UnmanagedPtr a => 0 < a <= int_max usize
  | SV.ManagedPtr m => wf m
  | SV.ValueType o => Forall byte_ok (data o)
  | SV.TypedRef m _ => wf m
  | SV.UninitializedTypedRef => True
  end.

(** ** Ranges *)

(** A signed range is closed under the bitwise operators: shifting out all but
    the sign leaves [0] or [-1]. *)
Lemma signed_range_shiftr n x : 0 <= n -> - 2 ^ n <= x < 2 ^ n <-> Z.shiftr x n = 0 \/ Z.shiftr x n = -1.
Proof.
  intros Hn. rewrite Z.shiftr_div_pow2 by done. pose proof (Z.pow_pos_nonneg 2 n ltac:(lia) Hn).
  pose proof (Z.div_mod x (2 ^ n) ltac:(lia)). pose proof (Z.mod_pos_bound x (2 ^ n) ltac:(lia)). nia.
Qed.

Lemma is_range_signed t x : signed t = true -> is_range t x <-> - 2 ^ (bits t - 1) <= x < 2 ^ (bits t - 1).
Proof. unfold is_range, int_min, int_max. intros ->. lia. Qed.

Lemma bitwise_range t (op : Z -> Z -> Z) x y :
  op = Z.land \/ op = Z.lor \/ op = Z.lxor ->
  signed t = true -> is_range t x -> is_range t y -> is_range t (op x y).
Proof.
  intros Hop Ht. rewrite !is_range_signed by done. rewrite !signed_range_shiftr by (destruct t; simpl; lia).
  intros Hx Hy. destruct Hop as [-> | [-> | ->]];
    rewrite ?Z.shiftr_land, ?Z.shiftr_lor, ?Z.shiftr_lxor;
    destruct Hx as [-> | ->], Hy as [-> | ->]; simpl; auto.
Qed.

Lemma range_zero t : is_range t 0.
Proof. destruct t; vm_compute; intuition congruence. Qed.

Lemma lnot_range t x : signed t = true -> is_range t x -> is_range t (Z.lnot x).
Proof. intros Ht. rewrite !is_range_signed by done. unfold Z.lnot. lia. Qed.

Lemma shiftr_range t x n : 0 <= n -> is_range t x -> is_range t (Z.shiftr x n).
Proof.
  intros Hn Hx. rewrite Z.shiftr_div_pow2 by done. pose proof (Z.pow_pos_nonneg 2 n ltac:(lia) Hn).
  pose proof (range_zero t).
  unfold is_range in *. split.
  - apply Z.div_le_lower_bound; [done|]. nia.
  - apply Z.div_le_upper_bound; [done|]. nia.
Qed.

Lemma quot_small_range t l r : is_range t l -> is_range t r -> r <> 0 ->
  is_range t (Z.quot l r) \/ (signed t = true /\ l = int_min t /\ r = -1).
Proof.
  intros Hl Hr Hz. destruct (decide (r = -1)) as [-> | Hr1].
  { destruct (signed t) eqn:Ht.
    - destruct (decide (l = int_min t)) as [-> | Hlm]; [by right; auto|]. left.
      change (-1) with (Z.opp 1). rewrite Z.quot_opp_r by lia. rewrite Z.quot_1_r. unfold is_range, int_min, int_max in *.
      rewrite Ht in *. lia.
    - unfold is_range, int_min in Hr. rewrite Ht in Hr. lia. }
  left. destruct (decide (r = 1)) as [-> | Hr2]; [by rewrite Z.quot_1_r|].
  assert (Ha : 2 * Z.abs (Z.quot l r) <= Z.abs l).
  { rewrite <- Z.quot_abs by done. pose proof (Z.mul_quot_le (Z.abs l) (Z.abs r) ltac:(lia) ltac:(lia)).
    pose proof (Z.quot_pos (Z.abs l) (Z.abs r) ltac:(lia) ltac:(lia)). nia. }
  unfold is_range, int_min, int_max in *. destruct (signed t) eqn:Ht.
  - pose proof (Z.pow_pos_nonneg 2 (bits t - 1) ltac:(lia) ltac:(pose proof (bits_pos t); lia)). lia.
  - pose proof (Z.quot_pos l r ltac:(lia) ltac:(lia)). lia.
Qed.

Lemma rem_range t l r : is_range t l -> is_range t r -> r <> 0 -> is_range t (Z.rem l r).
Proof.
  intros Hl Hr Hz. pose proof (Z.rem_bound_abs l r Hz) as Hb. pose proof (Z.rem_sign_nz l r Hz) as Hs.
  assert (Hla : Z.abs (Z.rem l r) <= Z.abs l).
  { rewrite <- Z.rem_abs by done. apply Z.rem_le; lia. }
  pose proof (range_zero t). destruct (decide (Z.rem l r = 0)) as [-> | Hnz]; [done|].
  specialize (Hs Hnz). unfold is_range in *. lia.
Qed.

(** ** Operations stay in range *)

Lemma managed_offset_spec m b :
  wf m -> match managed_offset m b with Val v => sv_ok v | Err _ => True | Panic => False end.
Proof.
  intros Hm. unfold managed_offset. pose proof (checked_offset_wf m b Hm).
  by destruct (checked_offset m b).
Qed.

Lemma unmanaged_ptr_ok a : is_range usize a -> sv_ok (unmanaged_ptr a).
Proof.
  intros Ha. unfold unmanaged_ptr, nonnull. destruct (a =? 0) eqn:E; simpl; [apply range_zero|].
  bool_to_prop. int_bounds. lia.
Qed.

Lemma wrapping_op_spec op fop l r :
  match wrapping_arithmetic_op op fop l r with Val v => sv_ok v | Err _ => True | Panic => False end.
Proof. destruct l, r; simpl; auto with vm. Qed.

Lemma add_spec l r :
  sv_ok l -> sv_ok r -> match add l r with Val v => sv_ok v | Err _ => True | Panic => False end.
Proof.
  intros Hl Hr. pose proof (wrapping_op_spec Z.add f64_add l r) as Hw.
  destruct l, r; try exact Hw; first
    [by apply managed_offset_spec | apply unmanaged_ptr_ok, wrap_range].
Qed.

Lemma mul_spec l r : match mul l r with Val v => sv_ok v | Err _ => True | Panic => False end.
Proof. apply wrapping_op_spec. Qed.

Lemma sub_spec hv l r :
  sv_ok l -> sv_ok r -> match sub hv l r with Val v => sv_ok v | Err _ => True | Panic => False end.
Proof.
  intros Hl Hr. pose proof (wrapping_op_spec Z.sub f64_sub l r) as Hw.
  destruct l, r; try exact Hw; simpl; first
    [ apply wrap_range | apply unmanaged_ptr_ok, wrap_range
    | destruct (checked _ _); simpl; [by apply managed_offset_spec | done] ].
Qed.

Lemma bitwise_op_spec op l r :
  op = Z.land \/ op = Z.lor \/ op = Z.lxor -> sv_ok l -> sv_ok r ->
  match bitwise_op op l r with Val v => sv_ok v | Err _ => True | Panic => False end.
Proof.
  intros Hop Hl Hr. destruct l, r; try exact I; simpl in *; apply bitwise_range; try done; int_bounds; lia.
Qed.

Lemma not_spec v :
  sv_ok v -> match sv_not v with Val w => sv_ok w | Err _ => True | Panic => False end.
Proof. intros Hv. destruct v; try exact I; simpl in *; by apply lnot_range. Qed.

Lemma neg_spec v :
  sv_ok v ->
  match neg v with
  | Val w => sv_ok w
  | Err _ => True
  | Panic => v = SV.Int32 (int_min I32) \/ v = SV.Int64 (int_min I64) \/ v = SV.NativeInt (int_min isize)
  end.
Proof.
  assert (Hn : forall t i, signed t = true -> is_range t i ->
    if in_range t (- i) then is_range t (- i) else i = int_min t).
  { intros t i Ht Hi. destruct (in_range t (- i)) eqn:E; [by apply in_range_spec|].
    apply in_range_false in E. unfold is_range, int_min, int_max in *. rewrite Ht in *. lia. }
  intros Hv. destruct v; try exact I; simpl in Hv; cbn [neg]; unfold arith;
    (eapply Hn in Hv; [|done]); destruct (in_range _ _); simpl; subst; auto.
Qed.

Lemma checked_op_spec op l r sgn :
  match checked_arithmetic_op op l r sgn with Val v => sv_ok v | Err _ => True | Panic => False end.
Proof.
  assert (Hc : forall t x, match checked t x with Some y => is_range t y | None => True end).
  { intros t x. destruct (checked t x) eqn:E; [|done]. apply checked_some in E as [-> ?]. done. }
  destruct l, r, sgn; try exact I; unfold checked_arithmetic_op;
    match goal with |- context [checked ?t ?x] => specialize (Hc t x); destruct (checked t x) end;
    cbn [option_map ok_or sv_ok]; first [exact I | exact Hc | apply wrap_range].
Qed.

(** The integer types a pair of operands is computed at, per sign. *)
Definition arith_ty (l r : StackValue) (sgn : NumberSign) : option ity :=
  match l, r, sgn with
  | SV.Int32 _, SV.Int32 _, Signed => Some I32
  | SV.Int32 _, SV.Int32 _, Unsigned => Some U32
  | SV.Int64 _, SV.Int64 _, Signed => Some I64
  | SV.Int64 _, SV.Int64 _, Unsigned => Some U64
  | SV.NativeInt _, (SV.NativeInt _ | SV.Int32 _), Signed => Some isize
  | SV.NativeInt _, (SV.NativeInt _ | SV.Int32 _), Unsigned => Some usize
  | SV.Int32 _, SV.NativeInt _, Signed => Some isize
  | SV.Int32 _, SV.NativeInt _, Unsigned => Some usize
  | _, _, _ => None
  end.

(** An integer operand as the number it denotes under a sign: unsigned operands
    are zero-extended. *)
Definition reading (sgn : NumberSign) (v : StackValue) : option Z :=
  match v, sgn with
  | (SV.Int32 i | SV.Int64 i | SV.NativeInt i), Signed => Some i
  | SV.Int32 i, Unsigned => Some (i mod 2 ^ 32)
  | (SV.Int64 i | SV.NativeInt i), Unsigned => Some (i mod 2 ^ 64)
  | _, _ => None
  end.

(** Operands of one integer kind. *)
Definition same_kind (l r : StackValue) : bool :=
  match l, r with
  | SV.Int32 _, SV.Int32 _ | SV.Int64 _, SV.Int64 _ | SV.NativeInt _, SV.NativeInt _ => true
  | _, _ => false
  end.

(** The one quotient with no representation. *)
Definition min_over_minus_one (l r : StackValue) (sgn : NumberSign) : bool :=
  match sgn, arith_ty l r Signed, reading Signed l, reading Signed r with
  | Signed, Some t, Some a, Some b => (a =? int_min t) && (b =? -1)
  | _, _, _, _ => false
  end.

(** The width of a shift target, and whether the amount reaches it. *)
Definition shift_too_far (l r : StackValue) : bool :=
  match l, r with
  | SV.Int32 _, (SV.Int32 n | SV.NativeInt n) => 32 <=? n mod 2 ^ 32
  | (SV.Int64 _ | SV.NativeInt _), (SV.Int32 n | SV.NativeInt n) => 64 <=? n mod 2 ^ 32
  | _, _ => false
  end.

Lemma wrap_nonzero t u x : bits t = bits u -> is_range t x -> x <> 0 -> wrap u x <> 0.
Proof.
  intros Hb Hx Hz H0. apply Hz. rewrite <- (wrap_id t x Hx), <- (wrap_id t 0 (range_zero t)).
  apply wrap_eq_iff. rewrite Hb, <- (wrap_mod u x), H0. done.
Qed.

Lemma unsigned_range_wider x : is_range U32 x -> is_range usize x.
Proof. int_bounds. lia. Qed.

Lemma int32_range_wider x : is_range I32 x -> is_range isize x.
Proof. int_bounds. lia. Qed.

#[export] Hint Resolve unsigned_range_wider int32_range_wider range_zero : vm.

(** What an operator of [arithmetic_op] promises at its integer type. *)
Definition div_like (iop : ity -> Z -> Z -> outcome ExecutionError Z) : Prop :=
  forall t l r, is_range t l -> is_range t r -> r <> 0 ->
    match iop t l r with
    | Val v => is_range t v /\ (signed t && (l =? int_min t) && (r =? -1)) = false
    | Err _ => False
    | Panic => (signed t && (l =? int_min t) && (r =? -1)) = true
    end.

Lemma min_quot_out_of_range t : signed t = true -> is_range t (Z.quot (int_min t) (-1)) -> False.
Proof. destruct t; try done; vm_compute; intuition congruence. Qed.

Lemma quot_arith t l r :
  is_range t l -> is_range t r -> r <> 0 ->
  arith (E:=ExecutionError) t (Z.quot l r) =
    if signed t && (l =? int_min t) && (r =? -1) then Panic else Val (Z.quot l r).
Proof.
  intros Hl Hr Hz. unfold arith. destruct (in_range t (Z.quot l r)) eqn:E.
  - apply in_range_spec in E. destruct (signed t && _ && _) eqn:E2; [|done]. bool_to_prop. subst.
    by exfalso; eapply min_quot_out_of_range.
  - apply in_range_false in E. destruct (quot_small_range t l r Hl Hr Hz) as [? | (-> & -> & ->)]; [done|].
    by rewrite Z.eqb_refl.
Qed.

Lemma int_div_like : div_like int_div.
Proof.
  intros t l r Hl Hr Hz. unfold int_div. destruct (r =? 0) eqn:E; [by bool_to_prop|].
  rewrite quot_arith by done. destruct (signed t && _ && _) eqn:E2; [done|]. split; [|done].
  destruct (quot_small_range t l r Hl Hr Hz) as [? | (Ht & -> & ->)]; [done|].
  by rewrite Ht, Z.eqb_refl in E2.
Qed.

Lemma int_rem_like : div_like int_rem.
Proof.
  intros t l r Hl Hr Hz. unfold int_rem. destruct (r =? 0) eqn:E; [by bool_to_prop|].
  rewrite quot_arith by done. destruct (signed t && _ && _) eqn:E2; [done|]. simpl.
  split; [|done]. by apply rem_range.
Qed.

Lemma arithmetic_op_spec iop fop l r sgn :
  div_like iop -> sv_ok l -> sv_ok r -> is_zero r = false ->
  match arithmetic_op iop fop l r sgn with
  | Val v => sv_ok v /\ min_over_minus_one l r sgn = false
  | Err _ => min_over_minus_one l r sgn = false
  | Panic => min_over_minus_one l r sgn = true
  end.
Proof.
  intros Hi Hl Hr Hz.
  assert (Hs : forall t x y k, is_range t x -> is_range t y -> y <> 0 ->
    (forall v, is_range t v -> sv_ok (k v)) ->
    match (let* v := iop t x y in Val (k v)) with
    | Val v => sv_ok v /\ (signed t && (x =? int_min t) && (y =? -1)) = false
    | Err _ => (signed t && (x =? int_min t) && (y =? -1)) = false
    | Panic => (signed t && (x =? int_min t) && (y =? -1)) = true
    end).
  { intros t x y k Hx Hy Hyz Hk. specialize (Hi t x y Hx Hy Hyz).
    destruct (iop t x y); simpl; naive_solver. }
  destruct l, r; try (destruct sgn; by split); try (destruct sgn; done);
    simpl in Hl, Hr; cbn [is_zero] in Hz; apply Z.eqb_neq in Hz; destruct sgn;
    cbn [arithmetic_op];
    match goal with |- context [obind (iop ?t ?x ?y) (fun v => Val (@?k v))] =>
      apply (Hs t x y k)
    end; cbn [sv_ok]; try by (eauto using wrap_range with vm || (eapply wrap_nonzero; [|done|done])).
Qed.

Lemma div_spec l r sgn :
  sv_ok l -> sv_ok r ->
  match div l r sgn with
  | Val v => sv_ok v /\ min_over_minus_one l r sgn = false
  | Err _ => min_over_minus_one l r sgn = false
  | Panic => min_over_minus_one l r sgn = true
  end.
Proof.
  intros Hl Hr. unfold div. destruct (is_zero r) eqn:Hz.
  - destruct l, r, sgn; try done; simpl in Hz; apply Z.eqb_eq in Hz as ->; simpl; apply andb_false_r.
  - pose proof (arithmetic_op_spec int_div f64_div l r sgn int_div_like Hl Hr Hz).
    by destruct (arithmetic_op _ _ _ _ _).
Qed.

Lemma rem_spec l r sgn :
  sv_ok l -> sv_ok r ->
  match rem l r sgn with
  | Val v => sv_ok v /\ min_over_minus_one l r sgn = false
  | Err _ => min_over_minus_one l r sgn = false
  | Panic => min_over_minus_one l r sgn = true
  end.
Proof.
  intros Hl Hr. unfold rem. destruct (is_zero r) eqn:Hz.
  - destruct l, r, sgn; try done; simpl in Hz; apply Z.eqb_eq in Hz as ->; simpl; apply andb_false_r.
  - pose proof (arithmetic_op_spec int_rem f64_rem l r sgn int_rem_like Hl Hr Hz).
    by destruct (arithmetic_op _ _ _ _ _).
Qed.

Lemma amount_too_far t n : (n mod 2 ^ 32 <? bits t) = negb (bits t <=? n mod 2 ^ 32).
Proof. apply Z.ltb_antisym. Qed.

Lemma shl_spec l r :
  sv_ok l ->
  match shl l r with
  | Val v => sv_ok v /\ shift_too_far l r = false
  | Err _ => shift_too_far l r = false
  | Panic => shift_too_far l r = true
  end.
Proof.
  intros Hl. destruct r; try by destruct l.
  all: destruct l; try done; unfold shl, extract_shift_amount, int_shl; cbn [obind];
    change (wrap U32 i) with (i mod 2 ^ 32); rewrite amount_too_far; cbn [shift_too_far bits];
    destruct (_ <=? i mod 2 ^ 32); cbn [negb obind sv_ok]; (split || idtac); try done; apply wrap_range.
Qed.

Lemma shr_spec l r sgn :
  sv_ok l ->
  match shr l r sgn with
  | Val v => sv_ok v /\ shift_too_far l r = false
  | Err _ => shift_too_far l r = false
  | Panic => shift_too_far l r = true
  end.
Proof.
  intros Hl. destruct r; try by destruct l, sgn.
  all: destruct l; try by destruct sgn.
  all: destruct sgn; unfold shr, extract_shift_amount, shift_op, int_shr; cbn [obind];
    change (wrap U32 i) with (i mod 2 ^ 32); rewrite amount_too_far; cbn [shift_too_far bits];
    pose proof (Z.mod_pos_bound i (2 ^ 32) ltac:(lia));
    destruct (_ <=? i mod 2 ^ 32); cbn [negb obind sv_ok]; (split || idtac); try done;
    first [apply wrap_range | apply shiftr_range; [lia | done]].
Qed.

(** ** Laws *)

Inductive ArithOp : Set := OpAdd | OpSub | OpMul.

(** The exact operation, and the two routines that compute it. *)
Definition exact (o : ArithOp) : Z -> Z -> Z :=
  match o with OpAdd => Z.add | OpSub => Z.sub | OpMul => Z.mul end.

Definition checked_of (o : ArithOp) : StackValue -> StackValue -> NumberSign -> outcome StackValueError StackValue :=
  match o with OpAdd => checked_add | OpSub => checked_sub | OpMul => checked_mul end.

Definition wrapping_of (hv : heap_view) (o : ArithOp) : StackValue -> StackValue -> outcome ExecutionError StackValue :=
  match o with OpAdd => add | OpSub => sub hv | OpMul => mul end.

Lemma exact_wrap o t u x y :
  bits t = bits u -> wrap t (exact o (wrap u x) (wrap u y)) = wrap t (exact o x y).
Proof.
  intros Hb. apply wrap_eq_iff. rewrite Hb. destruct o; simpl.
  - by rewrite Zplus_mod, !wrap_mod, <- Zplus_mod.
  - by rewrite Zminus_mod, !wrap_mod, <- Zminus_mod.
  - by rewrite Zmult_mod, !wrap_mod, <- Zmult_mod.
Qed.

Lemma wrap_unsigned t x : signed t = false -> wrap t x = x mod 2 ^ bits t.
Proof. intros Ht. unfold wrap. rewrite Ht. simpl. done. Qed.

(** An unsigned number survives being stored in the signed variant. *)
Lemma mod_wrap_signed t u x :
  signed u = false -> bits t = bits u -> is_range u x -> wrap t x mod 2 ^ bits t = x.
Proof.
  intros Hu Hb Hx. rewrite wrap_mod, Hb. unfold is_range, int_min, int_max in Hx. rewrite Hu in Hx.
  apply Z.mod_small. lia.
Qed.

Lemma checked_of_op o : checked_of o = checked_arithmetic_op (exact o).
Proof. by destruct o. Qed.

Lemma wrapping_of_same hv o l r :
  same_kind l r = true ->
  wrapping_of hv o l r = wrapping_arithmetic_op (exact o) f64_add l r.
Proof. by destruct o, l, r. Qed.

(**  Checked addition, subtraction and multiplication are exact: operands
    and result are read as numbers under the instruction's sign, the result is the
    exact one when it fits the operands' integer type and an
    [OverflowException] otherwise, and on operands of one kind it is the value the
    wrapping operation gives. *)
Theorem checked_arithmetic_exact hv o l r sgn a b t :
  sv_ok l -> sv_ok r ->
  arith_ty l r sgn = Some t -> reading sgn l = Some a -> reading sgn r = Some b ->
  if in_range t (exact o a b)
  then exists v, checked_of o l r sgn = Val v /\ sv_ok v /\ reading sgn v = Some (exact o a b) /\
         (same_kind l r = true -> wrapping_of hv o l r = Val v)
  else checked_of o l r sgn = Err (ManagedException overflow).
Proof.
  intros Hl Hr Ht Ha Hb. rewrite checked_of_op.
  pose proof (checked_op_spec (exact o) l r sgn) as Hok. pose proof (wrapping_of_same hv o l r) as Hw.
  destruct l, r, sgn; try discriminate; simpl in Ht, Ha, Hb; simplify_eq;
    unfold checked_arithmetic_op, checked in *;
    rewrite ?(wrap_unsigned U32), ?(wrap_unsigned U64) in * by done; cbn [bits] in *;
    destruct (in_range _ _) eqn:Hin; try done; apply in_range_spec in Hin;
    eexists; (split; [done|]); (split; [exact Hok|]);
    (split; [ first [done | cbn [reading]; f_equal;
                     (by apply (mod_wrap_signed I32 U32) || by apply (mod_wrap_signed I64 U64))]
            | intros Hs; rewrite (Hw Hs); cbn [wrapping_arithmetic_op]; f_equal; f_equal ]).
  all: first [by apply wrap_id | done | idtac].
  all: by rewrite <- ?(wrap_unsigned U32), <- ?(wrap_unsigned U64), exact_wrap.
Qed.

Lemma checked_arithmetic_exact_witness :
  exists v, checked_mul (SV.Int32 (-1)) (SV.Int32 1) Unsigned = Val v /\ sv_ok v /\
            reading Unsigned v = Some 4294967295.
Proof.
  pose proof (checked_arithmetic_exact
    {| payload_base := fun h => h + 8; leased_payload_base := fun _ => None |}
    OpMul (SV.Int32 (-1)) (SV.Int32 1) Unsigned 4294967295 1 U32) as H.
  destruct H as (v & H1 & H2 & H3 & _); [by vm_compute | by vm_compute | done | done | done |].
  by exists v.
Defined.

Lemma quot_rem_wrap t u a b q m :
  bits t = bits u -> is_range t a ->
  q = wrap t (Z.quot (wrap u a) (wrap u b)) -> m = wrap t (Z.rem (wrap u a) (wrap u b)) ->
  wrap t (wrap t (q * b) + m) = a.
Proof.
  intros Hb Ha -> ->. rewrite <- (wrap_id t a Ha) at 3. apply wrap_eq_iff.
  rewrite Zplus_mod, !wrap_mod, (Zmult_mod (wrap t _)), wrap_mod, Hb.
  rewrite <- (wrap_mod u b), <- Zmult_mod, <- Zplus_mod.
  rewrite (Z.mul_comm (Z.quot _ _)), <- Z.quot_rem', wrap_mod. done.
Qed.

Lemma int_div_rem_wrap t u a b :
  bits t = bits u -> is_range t a -> is_range t b -> b <> 0 ->
  signed u && (wrap u a =? int_min u) && (wrap u b =? -1) = false ->
  int_div (E:=ExecutionError) u (wrap u a) (wrap u b) = Val (Z.quot (wrap u a) (wrap u b)) /\
  int_rem (E:=ExecutionError) u (wrap u a) (wrap u b) = Val (Z.rem (wrap u a) (wrap u b)).
Proof.
  intros Hb Ha Hb' Hz Hm. unfold int_div, int_rem.
  destruct (wrap u b =? 0) eqn:E; [apply Z.eqb_eq in E; by destruct (wrap_nonzero t u b)|].
  rewrite quot_arith by (apply wrap_range || by apply Z.eqb_neq). by rewrite Hm.
Qed.

(** Division and remainder computed at [u] and stored at [t] by [k'] restore the
    dividend under the wrapping product and sum. *)
Lemma div_rem_restore t u (k k' : Z -> StackValue) x y a b :
  bits t = bits u -> is_range t a -> is_range t b -> b <> 0 -> x = wrap u a -> y = wrap u b ->
  signed u && (x =? int_min u) && (y =? -1) = false ->
  (forall x y, mul (k x) (k y) = Val (k (wrap t (x * y)))) ->
  (forall x y, add (k x) (k y) = Val (k (wrap t (x + y)))) ->
  (forall v, is_range u v -> k' v = k (wrap t v)) ->
  let go (iop : ity -> Z -> Z -> outcome ExecutionError Z) :=
    omap_err Execution (let* v := iop u x y in Val (k' v)) in
  exists q m p, go int_div = Val q /\ go int_rem = Val m /\ mul q (k b) = Val p /\ add p m = Val (k a).
Proof.
  intros Hb Ha Hb' Hz -> -> Hm Hmul Hadd Hk. simpl.
  pose proof (wrap_nonzero t u b Hb Hb' Hz) as Hnz.
  pose proof (int_div_like u _ _ (wrap_range u a) (wrap_range u b) Hnz) as Hd.
  pose proof (int_rem_like u _ _ (wrap_range u a) (wrap_range u b) Hnz) as Hr.
  destruct (int_div_rem_wrap t u a b Hb Ha Hb' Hz Hm) as [E1 E2]. rewrite E1 in Hd. rewrite E2 in Hr.
  rewrite E1, E2. simpl. rewrite !Hk by (apply Hd || apply Hr).
  do 3 eexists. do 2 (split; [done|]). rewrite Hmul. split; [done|]. rewrite Hadd.
  by erewrite quot_rem_wrap.
Qed.

(**  Division and remainder on operands of one integer kind: a zero divisor
    raises [DivideByZeroException]; the minimum over [-1] under the signed reading
    panics; otherwise both return, and multiplying back and adding restores the
    dividend exactly. *)
Theorem div_rem_law l r sgn :
  sv_ok l -> sv_ok r -> same_kind l r = true ->
  if is_zero r then div l r sgn = Err (ManagedException divide_by_zero) /\
                    rem l r sgn = Err (ManagedException divide_by_zero)
  else if min_over_minus_one l r sgn then div l r sgn = Panic /\ rem l r sgn = Panic
  else exists q m p, div l r sgn = Val q /\ rem l r sgn = Val m /\ mul q r = Val p /\ add p m = Val l.
Proof.
  intros Hl Hr Hs. pose proof (div_spec l r sgn Hl Hr) as Hd. pose proof (rem_spec l r sgn Hl Hr) as Hm.
  unfold div, rem in *. destruct (is_zero r) eqn:Hz; [done|].
  destruct (min_over_minus_one l r sgn) eqn:Hp.
  { destruct (omap_err _ _); destruct (omap_err _ _); naive_solver. }
  clear Hd Hm.
  destruct l, r; try done; simpl in Hl, Hr; cbn [is_zero] in Hz; apply Z.eqb_neq in Hz; destruct sgn;
    cbn [arithmetic_op min_over_minus_one arith_ty reading] in *.
  - apply (div_rem_restore I32 I32 SV.Int32 SV.Int32); auto using eq_sym with vm. intros. by rewrite wrap_id.
  - by apply (div_rem_restore I32 U32 SV.Int32 (fun v => SV.Int32 (wrap I32 v))).
  - apply (div_rem_restore I64 I64 SV.Int64 SV.Int64); auto using eq_sym with vm. intros. by rewrite wrap_id.
  - by apply (div_rem_restore I64 U64 SV.Int64 (fun v => SV.Int64 (wrap I64 v))).
  - apply (div_rem_restore isize isize SV.NativeInt SV.NativeInt); auto using eq_sym with vm.
    intros. by rewrite wrap_id.
  - by apply (div_rem_restore isize usize SV.NativeInt (fun v => SV.NativeInt (wrap isize v))).
Qed.

Lemma div_rem_law_witness :
  exists q m p, div (SV.Int64 (-7)) (SV.Int64 2) Unsigned = Val q /\
    rem (SV.Int64 (-7)) (SV.Int64 2) Unsigned = Val m /\
    mul q (SV.Int64 2) = Val p /\ add p m = Val (SV.Int64 (-7)).
Proof. apply (div_rem_law (SV.Int64 (-7)) (SV.Int64 2) Unsigned); by vm_compute. Defined.

Lemma f64_cmp_antisym x y : f64_cmp y x = option_map CompOpp (f64_cmp x y).
Proof.
  assert (Hp : forall a b : positive, (b ?= a)%positive = CompOpp (a ?= b)%positive)
    by (intros; apply Pos.compare_antisym).
  destruct x as [[] | [] | | [] m e], y as [[] | [] | | [] n f]; try done; cbn;
    rewrite (Z.compare_antisym e f); change (Pos.compare_cont Eq) with Pos.compare;
    destruct (e ?= f)%Z; cbn; try done; by rewrite (Hp m n); destruct (m ?= n)%positive.
Qed.

Lemma f64_eqb_cmp x y : f64_eqb x y = true <-> f64_cmp x y = Some Eq.
Proof. unfold f64_eqb, SFeqb, f64_cmp. destruct (SFcompare x y) as [[]|]; naive_solver. Qed.

Lemma option_cmp_antisym a b : option_cmp b a = option_map CompOpp (option_cmp a b).
Proof. destruct a, b; simpl; by rewrite 1?Z.compare_antisym. Qed.

Lemma option_cmp_eq a b : option_cmp a b = Some Eq <-> a = b.
Proof.
  destruct a as [a|], b as [b|]; simpl; try done.
  split; [by intros [= ->%Z.compare_eq] | by intros [= ->]; rewrite Z.compare_refl].
Qed.

Lemma raw_range hv m : wf m -> is_range usize (managed_ptr_to_raw hv m).
Proof.
  intros Hm. unfold managed_ptr_to_raw, observe_address, observed_address, nonnull.
  pose proof (wf_value m Hm) as Hv.
  assert (H : forall v, address_ok v -> is_range usize (default 0 v)).
  { intros [a|] Ha; simpl in *; [int_bounds; lia | apply range_zero]. }
  assert (H' : forall x, is_range usize (default 0 (if wrap usize x =? 0 then None else Some (wrap usize x)))).
  { intros x. destruct (_ =? 0); [apply range_zero | apply wrap_range]. }
  destruct (origin m) as [[h|]| | | |c|]; simpl; auto using range_zero.
  - destruct (_ =? 0); [apply range_zero | apply H'].
  - destruct (leased_payload_base hv c); [|apply range_zero].
    destruct (_ =? 0); [apply range_zero | apply H'].
Qed.

Lemma pointer_address_range hv v a : sv_ok v -> pointer_address hv v = Some a -> is_range usize a.
Proof.
  destruct v; try done; simpl; intros Hv [= <-]; [apply wrap_range | int_bounds; lia | by apply raw_range].
Qed.

Lemma signed_address_inj hv l r :
  sv_ok l -> sv_ok r ->
  option_map (wrap isize) (pointer_address hv l) = option_map (wrap isize) (pointer_address hv r) <->
  pointer_address hv l = pointer_address hv r.
Proof.
  intros Hl Hr. split; [|by intros ->].
  destruct (pointer_address hv l) as [a|] eqn:El, (pointer_address hv r) as [b|] eqn:Er; try done; simpl.
  intros [= Hw]. f_equal. apply (range_mod_inj usize);
    [exact (pointer_address_range hv l a Hl El) | exact (pointer_address_range hv r b Hr Er)
    | by apply wrap_eq_iff in Hw].
Qed.

(**  The comparison behind every branch and compare instruction is
    antisymmetric on all pairs of stack values, under both signs; and except on two
    managed pointers and on two value types, the signed comparison answers [Equal]
    exactly when the values compare equal with [==]. *)
Theorem compare_lawful hv l r sgn :
  sv_ok l -> sv_ok r ->
  compare hv r l sgn = option_map CompOpp (compare hv l r sgn) /\
  (match l, r with
   | SV.ManagedPtr _, SV.ManagedPtr _ | SV.ValueType _, SV.ValueType _ => True
   | _, _ => sv_eqb hv l r = true <-> compare hv l r Signed = Some Eq
   end).
Proof.
  intros Hl Hr.
  assert (HZ : forall a b : Z, (a =? b) = true <-> Some (a ?= b) = Some Eq).
  { intros. rewrite Z.eqb_eq. split; [by intros ->; rewrite Z.compare_refl | by intros [= ?%Z.compare_eq]]. }
  assert (HP : bool_decide (pointer_address hv l = pointer_address hv r) = true <->
    option_cmp (pointer_address hv l) (pointer_address hv r) = Some Eq)
    by by rewrite bool_decide_eq_true, option_cmp_eq.
  assert (HS : bool_decide (pointer_address hv l = pointer_address hv r) = true <->
    option_cmp (option_map (wrap isize) (pointer_address hv l))
               (option_map (wrap isize) (pointer_address hv r)) = Some Eq)
    by by rewrite bool_decide_eq_true, option_cmp_eq, signed_address_inj.
  split.
  - destruct l, r; try (destruct sgn; done); destruct sgn; cbn [compare partial_cmp];
      first [ apply option_cmp_antisym | apply f64_cmp_antisym
            | by cbn [option_map]; rewrite <- Z.compare_antisym
            | by destruct o, o0; simpl; rewrite <- ?Z.compare_antisym ].
  - destruct l, r; try done; cbn [sv_eqb compare partial_cmp]; auto using f64_eqb_cmp.
    destruct o, o0; simpl; auto; naive_solver.
Qed.

Lemma compare_lawful_witness :
  let hv := {| payload_base := fun h => h + 8; leased_payload_base := fun _ => None |} in
  sv_ok (SV.UnmanagedPtr 18446744073709551615) /\
  compare hv (SV.NativeInt (-1)) (SV.UnmanagedPtr 18446744073709551615) Unsigned =
    option_map CompOpp (compare hv (SV.UnmanagedPtr 18446744073709551615) (SV.NativeInt (-1)) Unsigned).
Proof.
  intros hv. split; [by vm_compute|].
  apply (compare_lawful hv (SV.UnmanagedPtr 18446744073709551615) (SV.NativeInt (-1)) Unsigned); by vm_compute.
Defined.
