(* ===== verification/Ops.v ===== *)
(** * The evaluation-stack interface

    [EvalStackOps], [TypedStackOps] and [ExceptionOps] of
    [dotnet-vm-ops/src/ops.rs] as type classes, the laws their callers rely on, and
    the result a step reports to the dispatch loop ([StepResult] of
    [dotnet-vm-data/src/lib.rs]).  Instruction handlers are written against the
    classes, as in the source; [Stack] implements them for the interpreter and
    [Machine] below for a plain list of operands. *)

From Stdlib Require Import ZArith Lia SpecFloat.
From stdpp Require Import base tactics list option strings.
From S2P Require Import Prelude Bytes Floats ManagedPtr StackValue.

Inductive TypeResolutionError : Set :=
| TypeNotFound (what : string)
| MethodNotFound (what : string)
| FieldNotFound (what : string)
| InvalidHandle
| AssemblyLoadFailed (what : string)
| MassiveAllocation (what : string)
| InvalidLayout (what : string)
| GenericIndexOutOfBounds (index length : Z)
| GenericConstraintViolation (what : string).

#[export] Instance TypeResolutionError_eq_dec : EqDecision TypeResolutionError.
Proof. solve_decision. Defined.

(** [VmError]: the kinds the modelled code raises carry their payload. *)
Inductive VmError : Set :=
| VmExecution (e : ExecutionError)
| VmTypeResolution (e : TypeResolutionError)
| VmMemoryAccess (e : MemoryAccessError)
| VmOther (what : string).

(** [StepResult]; a managed exception is named by its object. *)
Inductive StepResult : Set :=
| Continue
| Jump (target : Z)
| FramePushed
| Return
| MethodThrew (exception : option Z)
| Exception
| Yield
| Error (e : VmError).

(** What a handler does to the context: it panics, or returns. *)
Definition handler (T : Type) : Type := T -> outcome Empty_set (T * StepResult).

(** ** The traits *)

Class EvalStackOps (T : Type) : Type := {
  push : StackValue -> T -> T;
  pop_safe : T -> outcome VmError StackValue * T;
}.

Class ExceptionOps (T : Type) : Type := {
  throw_by_name_with_message : string -> string -> T -> T * StepResult;
}.

Section default_methods.

Context {T : Type} `{!EvalStackOps T}.

(** [pop]: the infallible pop of the trait. *)
Definition pop {E} (c : T) : outcome E (StackValue * T) :=
  match pop_safe c with
  | (Val v, c) => Val (v, c)
  | _ => Panic
  end.

Definition push_i32 (i : Z) : T -> T := push (SV.Int32 i).
Definition push_f64 (f : spec_float) : T -> T := push (SV.NativeFloat f).

Definition pop_f64 {E} (c : T) : outcome E (spec_float * T) :=
  let* (v, c) := pop c in
  match v with SV.NativeFloat f => Val (f, c) | _ => Panic end.

(** [vm_pop!]: an underflow ends the handler with the error. *)
Definition vm_pop (c : T) (k : StackValue -> handler T) : outcome Empty_set (T * StepResult) :=
  match pop_safe c with
  | (Val v, c) => k v c
  | (Err e, c) => Val (c, Error e)
  | (Panic, _) => Panic
  end.

End default_methods.

(** ** The laws *)

(** [view]: the operands of the current frame, the top first. *)
Class EvalStackLaws (T : Type) `{!EvalStackOps T} : Type := {
  stack_ok : T -> Prop;
  view : T -> list StackValue;
  push_law v c : stack_ok c -> stack_ok (push v c) /\ view (push v c) = v :: view c;
  pop_cons_law v vs c :
    stack_ok c -> view c = v :: vs ->
    exists c', pop_safe c = (Val v, c') /\ stack_ok c' /\ view c' = vs;
  pop_nil_law c :
    stack_ok c -> view c = [] ->
    exists c', pop_safe c = (Err (VmExecution StackUnderflow), c') /\ stack_ok c' /\ view c' = [];
}.

(** Throwing leaves the operands alone, and fails only in the host. *)
Class ExceptionLaws (T : Type) `{!EvalStackOps T} `{!EvalStackLaws T} `{!ExceptionOps T} : Prop := {
  throw_law name msg c c' r :
    stack_ok c -> throw_by_name_with_message name msg c = (c', r) ->
    stack_ok c' /\ view c' = view c /\ (r = Exception \/ exists e, r = Error e);
}.

(** ** The operand machine *)

Module Machine.

(** Operands, the top first, and the exception last raised by name. *)
Record machine : Set := { operands : list StackValue; raised : option (string * string) }.

#[export] Instance machine_ops : EvalStackOps machine := {
  push v c := {| operands := v :: operands c; raised := raised c |};
  pop_safe c :=
    match operands c with
    | [] => (Err (VmExecution StackUnderflow), c)
    | v :: vs => (Val v, {| operands := vs; raised := raised c |})
    end;
}.

#[export] Instance machine_exceptions : ExceptionOps machine := {
  throw_by_name_with_message name msg c :=
    ({| operands := operands c; raised := Some (name, msg) |}, Exception);
}.

#[export, refine] Instance machine_laws : EvalStackLaws machine := {
  stack_ok c := True;
  view := operands;
}.
Proof.
  - done.
  - intros v vs [] _ H; simpl in *; subst. by eexists.
  - intros [] _ H; simpl in *; subst. by eexists.
Defined.

#[export] Instance machine_exception_laws : ExceptionLaws machine.
Proof. split. intros name msg c c' r _ [= <- <-]. split; [done|]. split; [done|]. by left. Qed.

(** The machine a lawful context stands for. *)
Definition abs {T} `{EvalStackLaws T} (c : T) : machine := {| operands := view c; raised := None |}.

End Machine.
