(* ===== verification/Instructions.v ===== *)
(** * Operand instructions

    The handlers of [dotnet-vm/src/instructions] that work on the evaluation stack:
    [arithmetic.rs], [comparisons.rs], [conversions.rs], [flow.rs] and the constant,
    [dup] and [pop] handlers of [stack_ops.rs], with the macros of [macros.rs] that
    build them.  They are generic in the context, as in the source. *)

From Stdlib Require Import ZArith Lia SpecFloat.
From stdpp Require Import base tactics list option strings.
From S2P Require Import Prelude Bytes Floats ManagedPtr StackValue Ops.

Import Machine.

Definition INVALID_PROGRAM : string := "System.InvalidProgramException".
Definition INVALID_PROGRAM_MSG : string := "Common Language Runtime detected an invalid program.".
Definition OVERFLOW_MSG : string := "Arithmetic operation resulted in an overflow.".

Inductive ConversionType : Set :=
| CInt8 | CUInt8 | CInt16 | CUInt16 | CInt32 | CUInt32 | CInt64 | CUInt64 | CIntPtr | CUIntPtr.

(** The modelled cases of the metadata reader's [Instruction]. *)
Inductive Instruction : Set :=
| Add | AddOverflow (s : NumberSign) | And | Divide (s : NumberSign)
| Multiply | MultiplyOverflow (s : NumberSign) | Negate | Not | Or
| Remainder (s : NumberSign) | ShiftLeft | ShiftRight (s : NumberSign)
| Subtract | SubtractOverflow (s : NumberSign) | Xor
| CompareEqual | CompareGreater (s : NumberSign) | CompareLess (s : NumberSign) | CheckFinite
| Branch (target : Z) | BranchEqual (target : Z)
| BranchGreaterOrEqual (s : NumberSign) (target : Z) | BranchGreater (s : NumberSign) (target : Z)
| BranchLessOrEqual (s : NumberSign) (target : Z) | BranchLess (s : NumberSign) (target : Z)
| BranchNotEqual (target : Z) | BranchTruthy (target : Z) | BranchFalsy (target : Z)
| Switch (targets : list Z)
| Convert (t : ConversionType) | ConvertOverflow (t : ConversionType) (s : NumberSign)
| ConvertFloat32 | ConvertFloat64 | ConvertUnsignedToFloat
| NoOperation | Pop | Duplicate | LoadConstantInt32 (i : Z) | LoadConstantInt64 (i : Z)
| LoadConstantFloat32 (f : spec_float) | LoadConstantFloat64 (f : spec_float) | LoadNull.

Section handlers.

Context (hv : heap_view) (is_enum : TypeDescription -> option MemberType).
Context {T : Type} `{!EvalStackOps T} `{!ExceptionOps T}.

Definition coerce (v : StackValue) : outcome Empty_set StackValue := coerce_enum_to_underlying is_enum v.

Definition invalid_program (c : T) : outcome Empty_set (T * StepResult) :=
  Val (throw_by_name_with_message INVALID_PROGRAM INVALID_PROGRAM_MSG c).

(** The two operands every binary handler starts with. *)
Definition pop2_coerced (k : StackValue -> StackValue -> handler T) : handler T := fun c =>
  vm_pop c (fun v2 c =>
    let* v2 := coerce v2 in
    vm_pop c (fun v1 c =>
      let* v1 := coerce v1 in
      k v1 v2 c)).

(** [vm_try!(..)] followed by a push. *)
Definition push_result (r : outcome ExecutionError StackValue) : handler T := fun c =>
  match r with
  | Val result => Val (push result c, Continue)
  | Err e => Val (c, Error (VmExecution e))
  | Panic => Panic
  end.

Definition binary_op (op : StackValue -> StackValue -> outcome ExecutionError StackValue) : handler T :=
  pop2_coerced (fun v1 v2 => push_result (op v1 v2)).

Definition binary_op_sgn
    (op : StackValue -> StackValue -> NumberSign -> outcome ExecutionError StackValue)
    (sgn : NumberSign) : handler T :=
  pop2_coerced (fun v1 v2 => push_result (op v1 v2 sgn)).

Definition binary_op_result
    (op : StackValue -> StackValue -> NumberSign -> outcome StackValueError StackValue)
    (sgn : NumberSign) : handler T :=
  pop2_coerced (fun v1 v2 c =>
    match op v1 v2 sgn with
    | Val result => Val (push result c, Continue)
    | Err (ManagedException e) => Val (throw_by_name_with_message (exception_type e) (message e) c)
    | Err (Execution e) => Val (c, Error (VmExecution e))
    | Panic => Panic
    end).

Definition unary_op (op : StackValue -> outcome ExecutionError StackValue) : handler T := fun c =>
  vm_pop c (fun v c => let* v := coerce v in push_result (op v) c).

Definition comparison_op (pat : comparison) (sgn : NumberSign) : handler T :=
  pop2_coerced (fun v1 v2 c =>
    let val := if bool_decide (compare hv v1 v2 sgn = Some pat) then 1 else 0 in
    Val (push_i32 val c, Continue)).

(** [ceq]: the operands are not coerced. *)
Definition ceq : handler T := fun c =>
  vm_pop c (fun v2 c =>
    vm_pop c (fun v1 c =>
      let val := if sv_eqb hv v1 v2 then 1 else 0 in
      Val (push_i32 val c, Continue))).

Definition is_finite (f : spec_float) : bool :=
  match f with S754_infinity _ | S754_nan => false | _ => true end.

Definition ckfinite : handler T := fun c =>
  let* (f, c) := pop_f64 c in
  if is_finite f then Val (push_f64 f c, Continue)
  else Val (throw_by_name_with_message "System.ArithmeticException"
              "Overflow or underflow in the arithmetic operation." c).

(** ** Branches *)

Definition branch_if (cond : StackValue -> StackValue -> bool) (target : Z) : handler T :=
  pop2_coerced (fun v1 v2 c => Val (c, if cond v1 v2 then Jump target else Continue)).

Definition beq : Z -> handler T := branch_if (sv_eqb hv).
Definition bne : Z -> handler T := branch_if (fun v1 v2 => negb (sv_eqb hv v1 v2)).

Definition bge (sgn : NumberSign) : Z -> handler T :=
  branch_if (fun v1 v2 => match compare hv v1 v2 sgn with Some Gt | Some Eq => true | _ => false end).
Definition bgt (sgn : NumberSign) : Z -> handler T :=
  branch_if (fun v1 v2 => match compare hv v1 v2 sgn with Some Gt => true | _ => false end).
Definition ble (sgn : NumberSign) : Z -> handler T :=
  branch_if (fun v1 v2 => match compare hv v1 v2 sgn with Some Lt | Some Eq => true | _ => false end).
Definition blt (sgn : NumberSign) : Z -> handler T :=
  branch_if (fun v1 v2 => match compare hv v1 v2 sgn with Some Lt => true | _ => false end).

Definition brtrue (target : Z) : handler T := fun c =>
  vm_pop c (fun v c =>
    let* v := coerce v in
    let go (cond : bool) := Val (c, if cond then Jump target else Continue) in
    match v with
    | SV.Int32 i | SV.Int64 i | SV.NativeInt i => go (negb (i =? 0))
    | SV.ObjectRef r => go (match r with Some _ => true | None => false end)
    | SV.UnmanagedPtr _ | SV.ManagedPtr _ => go true
    | _ => invalid_program c
    end).

Definition brfalse (target : Z) : handler T := fun c =>
  vm_pop c (fun v c =>
    let* v := coerce v in
    let go (cond : bool) := Val (c, if cond then Jump target else Continue) in
    match v with
    | SV.Int32 i | SV.Int64 i | SV.NativeInt i => go (i =? 0)
    | SV.ObjectRef r => go (match r with Some _ => false | None => true end)
    | SV.UnmanagedPtr _ | SV.ManagedPtr _ => go false
    | _ => invalid_program c
    end).

Definition switch (targets : list Z) : handler T := fun c =>
  vm_pop c (fun v c =>
    let* v := coerce v in
    let at_index (index : Z) :=
      Val (c, if index <? Z.of_nat (length targets)
              then match targets !! Z.to_nat index with Some target => Jump target | None => Continue end
              else Continue) in
    match v with
    | SV.Int32 i => at_index (wrap U32 i)
    | SV.NativeInt i => at_index (wrap usize i)
    | _ => invalid_program c
    end).

(** ** Conversions *)

Definition conversion_ty (t : ConversionType) : ity :=
  match t with
  | CInt8 => I8 | CUInt8 => U8 | CInt16 => I16 | CUInt16 => U16 | CInt32 => I32 | CUInt32 => U32
  | CInt64 => I64 | CUInt64 => U64 | CIntPtr => isize | CUIntPtr => usize
  end.

(** The stack variant a converted number is pushed as: an [as] cast into it. *)
Definition push_converted (t : ConversionType) (x : Z) : StackValue :=
  match t with
  | CInt8 | CUInt8 | CInt16 | CUInt16 | CInt32 | CUInt32 => SV.Int32 (wrap I32 x)
  | CInt64 | CUInt64 => SV.Int64 (wrap I64 x)
  | CIntPtr | CUIntPtr => SV.NativeInt (wrap isize x)
  end.

(** [simple_cast!]: [None] is the invalid-program exit. *)
Definition simple_cast (t : ity) (v : StackValue) : option Z :=
  match v with
  | SV.Int32 i | SV.Int64 i | SV.NativeInt i => Some (wrap t i)
  | SV.UnmanagedPtr p => Some (wrap t p)
  | SV.NativeFloat f => Some (f64_to_int t f)
  | _ => None
  end.

(** The unsigned 64-bit targets zero-extend an [Int32]. *)
Definition unsigned_cast (v : StackValue) : option Z :=
  match v with
  | SV.Int32 i => Some (wrap U32 i)
  | SV.Int64 i | SV.NativeInt i => Some (wrap U64 i)
  | SV.UnmanagedPtr p => Some p
  | SV.NativeFloat f => Some (f64_to_int U64 f)
  | _ => None
  end.

Definition conv (t : ConversionType) : handler T := fun c =>
  vm_pop c (fun value c =>
    let* value := coerce value in
    let done (o : option Z) :=
      match o with
      | Some i => Val (push (push_converted t i) c, Continue)
      | None => invalid_program c
      end in
    let managed_address (m : ManagedPtr.ManagedPtr) (k : Z -> Z) :=
      match try_observe_address hv m with
      | Val a => done (Some (k (default 0 a)))
      | _ => Val (c, Error (VmExecution
                (NotImplemented "Cannot convert a Transient managed pointer to an integer")))
      end in
    match t with
    | CInt8 | CUInt8 | CInt16 | CUInt16 | CInt32 | CUInt32 => done (simple_cast (conversion_ty t) value)
    | CInt64 | CIntPtr =>
        match value with
        | SV.ManagedPtr m => managed_address m (wrap I64)
        | _ => done (simple_cast (conversion_ty t) value)
        end
    | CUInt64 | CUIntPtr =>
        match value with
        | SV.ManagedPtr m => managed_address m (fun a => a)
        | _ => done (unsigned_cast value)
        end
    end).

(** [do_conv!]: the number the operand denotes under the sign, if it fits. *)
Definition conv_ovf_value (t : ity) (value : StackValue) (sgn : NumberSign) : option (option Z) :=
  match value, sgn with
  | SV.Int32 i, Signed => Some (checked t i)
  | SV.Int32 i, Unsigned => Some (checked t (wrap U32 i))
  | SV.Int64 i, Signed => Some (checked t i)
  | SV.Int64 i, Unsigned => Some (checked t (wrap U64 i))
  | SV.NativeInt i, Signed => Some (checked t i)
  | SV.NativeInt i, Unsigned => Some (checked t (wrap usize i))
  | SV.NativeFloat f, _ =>
      let is_nan := match f with S754_nan => true | _ => false end in
      if is_nan || f64_ltb f (f64_of_Z (int_min t)) || f64_ltb (f64_of_Z (int_max t)) f
      then Some None else Some (Some (f64_to_int t f))
  | _, _ => None
  end.

Definition conv_ovf (t : ConversionType) (sgn : NumberSign) : handler T := fun c =>
  vm_pop c (fun value c =>
    match conv_ovf_value (conversion_ty t) value sgn with
    | None => invalid_program c
    | Some (Some v) => Val (push (push_converted t v) c, Continue)
    | Some None => Val (throw_by_name_with_message "System.OverflowException" OVERFLOW_MSG c)
    end).

Definition conv_r4 : handler T := fun c =>
  vm_pop c (fun v c =>
    let go (f : spec_float) := Val (push (SV.NativeFloat (f32_to_f64 f)) c, Continue) in
    match v with
    | SV.Int32 i | SV.Int64 i | SV.NativeInt i => go (f32_of_Z i)
    | SV.NativeFloat f => go (f64_to_f32 f)
    | _ => invalid_program c
    end).

Definition conv_r8 : handler T := fun c =>
  vm_pop c (fun v c =>
    let go (f : spec_float) := Val (push (SV.NativeFloat f) c, Continue) in
    match v with
    | SV.Int32 i | SV.Int64 i | SV.NativeInt i => go (f64_of_Z i)
    | SV.NativeFloat f => go f
    | _ => invalid_program c
    end).

Definition conv_r_un : handler T := fun c =>
  vm_pop c (fun value c =>
    let go (f : spec_float) := Val (push (SV.NativeFloat f) c, Continue) in
    match value with
    | SV.Int32 i => go (f64_of_Z (wrap U32 i))
    | SV.Int64 i => go (f64_of_Z (wrap U64 i))
    | SV.NativeInt i => go (f64_of_Z (wrap usize i))
    | _ => invalid_program c
    end).

(** ** Stack manipulation *)

Definition pop_ins : handler T := fun c => vm_pop c (fun _ c => Val (c, Continue)).

Definition duplicate : handler T := fun c => vm_pop c (fun v c => Val (push v (push v c), Continue)).

Definition load_const (v : StackValue) : handler T := fun c => Val (push v c, Continue).

(** The dispatch table the [dotnet_instruction] attributes build. *)
Definition execute (i : Instruction) : handler T :=
  match i with
  | Add => binary_op add
  | AddOverflow s => binary_op_result checked_add s
  | And => binary_op bitand
  | Divide s => binary_op_result div s
  | Multiply => binary_op mul
  | MultiplyOverflow s => binary_op_result checked_mul s
  | Negate => unary_op neg
  | Not => unary_op sv_not
  | Or => binary_op bitor
  | Remainder s => binary_op_result rem s
  | ShiftLeft => binary_op shl
  | ShiftRight s => binary_op_sgn shr s
  | Subtract => binary_op (sub hv)
  | SubtractOverflow s => binary_op_result checked_sub s
  | Xor => binary_op bitxor
  | CompareEqual => ceq
  | CompareGreater s => comparison_op Gt s
  | CompareLess s => comparison_op Lt s
  | CheckFinite => ckfinite
  | Branch target => fun c => Val (c, Jump target)
  | BranchEqual target => beq target
  | BranchGreaterOrEqual s target => bge s target
  | BranchGreater s target => bgt s target
  | BranchLessOrEqual s target => ble s target
  | BranchLess s target => blt s target
  | BranchNotEqual target => bne target
  | BranchTruthy target => brtrue target
  | BranchFalsy target => brfalse target
  | Switch targets => switch targets
  | Convert t => conv t
  | ConvertOverflow t s => conv_ovf t s
  | ConvertFloat32 => conv_r4
  | ConvertFloat64 => conv_r8
  | ConvertUnsignedToFloat => conv_r_un
  | NoOperation => fun c => Val (c, Continue)
  | Pop => pop_ins
  | Duplicate => duplicate
  | LoadConstantInt32 i => load_const (SV.Int32 i)
  | LoadConstantInt64 i => load_const (SV.Int64 i)
  | LoadConstantFloat32 f => load_const (SV.NativeFloat (f32_to_f64 f))
  | LoadConstantFloat64 f => load_const (SV.NativeFloat f)
  | LoadNull => load_const (SV.ObjectRef None)
  end.

End handlers.

(** ** Handlers on any lawful context *)

(** A context may fail to build the exception object; otherwise results agree. *)
Definition result_refines (r r' : StepResult) : Prop :=
  r = r' \/ (r' = Exception /\ exists e, r = Error e).

Section refinement.

Context (hv : heap_view) (is_enum : TypeDescription -> option MemberType).
Context {T : Type} `{!EvalStackOps T} `{!EvalStackLaws T} `{!ExceptionOps T} `{!ExceptionLaws T}.

Definition outcome_refines (o : outcome Empty_set (T * StepResult))
    (o' : outcome Empty_set (machine * StepResult)) : Prop :=
  match o, o' with
  | Val (c, r), Val (m, r') => stack_ok c /\ view c = operands m /\ result_refines r r'
  | Panic, Panic => True
  | _, _ => False
  end.

Definition simulates (h : handler T) (h' : handler machine) : Prop :=
  forall c m, stack_ok c -> view c = operands m -> outcome_refines (h c) (h' m).

Lemma sim_ret r : simulates (fun c => Val (c, r)) (fun m => Val (m, r)).
Proof. intros c m Hc Hv. split; [done|]. split; [done|]. by left. Qed.

Lemma sim_push v r : simulates (fun c => Val (push v c, r)) (fun m => Val (push v m, r)).
Proof.
  intros c m Hc Hv. destruct (push_law v c Hc) as [Hok Hview]. split; [done|].
  split; [by rewrite Hview, Hv | by left].
Qed.

Lemma sim_push2 v w r :
  simulates (fun c => Val (push v (push w c), r)) (fun m => Val (push v (push w m), r)).
Proof.
  intros c m Hc Hv. destruct (push_law w c Hc) as [Hok Hview].
  apply (sim_push v r (push w c) (push w m)); [done|]. by rewrite Hview, Hv.
Qed.

Lemma sim_panic : simulates (fun _ => Panic) (fun _ => Panic).
Proof. done. Qed.

Lemma sim_throw n s :
  simulates (fun c => Val (throw_by_name_with_message n s c)) (fun m => Val (throw_by_name_with_message n s m)).
Proof.
  intros c m Hc Hv. simpl. destruct (throw_by_name_with_message n s c) as [c' r] eqn:E.
  apply throw_law in E as (Hok & Hview & Hr); [|done]. split; [done|]. split; [by rewrite Hview|].
  destruct Hr as [-> | Hr]; [by left | by right].
Qed.

Lemma sim_pop (k : StackValue -> handler T) (k' : StackValue -> handler machine) :
  (forall v, simulates (k v) (k' v)) -> simulates (fun c => vm_pop c k) (fun m => vm_pop m k').
Proof.
  intros Hk c [ops raised] Hc Hv. simpl in Hv. unfold vm_pop. destruct ops as [|v vs]; simpl.
  - destruct (pop_nil_law c Hc Hv) as (c' & -> & Hok & Hview). split; [done|]. split; [done|]. by left.
  - destruct (pop_cons_law v vs c Hc Hv) as (c' & -> & Hok & Hview). by apply Hk.
Qed.

Lemma sim_bind {A} (o : outcome Empty_set A) (k : A -> handler T) (k' : A -> handler machine) :
  (forall a, simulates (k a) (k' a)) ->
  simulates (fun c => let* a := o in k a c) (fun m => let* a := o in k' a m).
Proof. intros Hk c m Hc Hv. destruct o as [a | [] |]; simpl; [by apply Hk | done]. Qed.

Lemma sim_push_result r : simulates (push_result r) (push_result r).
Proof. destruct r; [apply sim_push | apply sim_ret | by intros c m]. Qed.

Lemma sim_pop2 (k : StackValue -> StackValue -> handler T) (k' : StackValue -> StackValue -> handler machine) :
  (forall v1 v2, simulates (k v1 v2) (k' v1 v2)) ->
  simulates (pop2_coerced is_enum k) (pop2_coerced is_enum k').
Proof.
  intros Hk. apply sim_pop. intros v2. apply sim_bind. intros w2. apply sim_pop. intros v1.
  apply sim_bind. intros w1. apply Hk.
Qed.

Lemma sim_ckfinite : simulates ckfinite ckfinite.
Proof.
  intros c [ops raised] Hc Hv. simpl in Hv. unfold ckfinite, pop_f64, pop. destruct ops as [|v vs]; simpl.
  - by destruct (pop_nil_law c Hc Hv) as (c' & -> & Hok & Hview).
  - destruct (pop_cons_law v vs c Hc Hv) as (c' & -> & Hok & Hview). simpl.
    destruct v; simpl; try done. pose (m := {| operands := vs; raised := raised |}).
    destruct (is_finite f); [exact (sim_push (SV.NativeFloat f) Continue c' m Hok Hview)
                            | exact (sim_throw _ _ c' m Hok Hview)].
Qed.

Ltac sim :=
  repeat first
    [ apply sim_ret | apply sim_push | apply sim_push2 | apply sim_panic | apply sim_throw | apply sim_push_result | apply sim_ckfinite
    | apply sim_pop2; intros | apply sim_pop; intros | apply sim_bind; intros
    | match goal with |- simulates (fun _ => match ?x with _ => _ end) _ => destruct x end ].

Lemma execute_simulates i : simulates (execute hv is_enum i) (execute hv is_enum i).
Proof.
  destruct i; cbn [execute]; unfold binary_op, binary_op_result, binary_op_sgn, unary_op, comparison_op,
    ceq, branch_if, brtrue, brfalse, switch, conv, conv_ovf, conv_r4, conv_r8, conv_r_un, pop_ins,
    load_const, push_i32, invalid_program.
  all: sim.
Qed.

End refinement.

(** ** What handlers preserve

    A relation that pushes and pops keep, and an exit relation that throwing by name
    establishes, hold of every operand instruction. *)

Section preservation.

Context (hv : heap_view) (is_enum : TypeDescription -> option MemberType).
Context {T : Type} `{!EvalStackOps T} `{!ExceptionOps T}.
Context (R : T -> T -> Prop) (Q : T -> T -> StepResult -> Prop).
Hypothesis R_push : forall v c, R c (push v c).
Hypothesis R_pop : forall c x c', pop_safe c = (x, c') -> R c c'.
Hypothesis Q_exit : forall c r, Q c c r.
Hypothesis Q_after : forall c c1 c' r, R c c1 -> Q c1 c' r -> Q c c' r.
Hypothesis Q_throw : forall n s c c' r, throw_by_name_with_message n s c = (c', r) -> Q c c' r.

Definition preserves (h : handler T) : Prop := forall c c' r, h c = Val (c', r) -> Q c c' r.

Lemma pres_ret r : preserves (fun c => Val (c, r)).
Proof. intros c c' r' [= <- <-]. apply Q_exit. Qed.

Lemma pres_push v r : preserves (fun c => Val (push v c, r)).
Proof. intros c c' r' [= <- <-]. eapply Q_after; [apply R_push | apply Q_exit]. Qed.

Lemma pres_push2 v w r : preserves (fun c => Val (push v (push w c), r)).
Proof. intros c c' r' H. eapply Q_after; [apply R_push | by apply (pres_push v r)]. Qed.

Lemma pres_panic : preserves (fun _ => Panic).
Proof. done. Qed.

Lemma pres_throw n s : preserves (fun c => Val (throw_by_name_with_message n s c)).
Proof. intros c c' r [= H]. by eapply Q_throw. Qed.

Lemma pres_pop (k : StackValue -> handler T) : (forall v, preserves (k v)) -> preserves (fun c => vm_pop c k).
Proof.
  intros Hk c c' r. unfold vm_pop. destruct (pop_safe c) as [[v|e|] c1] eqn:E; [| |done].
  - intros H. eapply Q_after; [by eapply R_pop | by eapply Hk].
  - intros [= <- <-]. eapply Q_after; [by eapply R_pop | apply Q_exit].
Qed.

Lemma pres_bind {A} (o : outcome Empty_set A) (k : A -> handler T) :
  (forall a, preserves (k a)) -> preserves (fun c => let* a := o in k a c).
Proof. intros Hk c c' r. destruct o as [a | [] |]; simpl; [apply Hk | done]. Qed.

Lemma pres_push_result r : preserves (push_result r).
Proof. destruct r; [apply pres_push | apply pres_ret | done]. Qed.

Lemma pres_pop2 (k : StackValue -> StackValue -> handler T) :
  (forall v1 v2, preserves (k v1 v2)) -> preserves (pop2_coerced is_enum k).
Proof. intros Hk. apply pres_pop. intros v2. apply pres_bind. intros w2. apply pres_pop. intros v1. by apply pres_bind. Qed.

Lemma pres_ckfinite : preserves ckfinite.
Proof.
  intros c c' r. unfold ckfinite, pop_f64, pop. destruct (pop_safe c) as [[v|e|] c1] eqn:E; simpl; [|done|done].
  destruct v; simpl; try done. intros H. eapply Q_after; [by eapply R_pop|].
  destruct (is_finite f); [by eapply (pres_push (SV.NativeFloat f)) | by eapply pres_throw].
Qed.

Lemma execute_preserves i : preserves (execute hv is_enum i).
Proof.
  destruct i; cbn [execute]; unfold binary_op, binary_op_result, binary_op_sgn, unary_op, comparison_op,
    ceq, branch_if, brtrue, brfalse, switch, conv, conv_ovf, conv_r4, conv_r8, conv_r_un, pop_ins,
    load_const, push_i32, invalid_program.
  all: repeat first
    [ apply pres_ret | apply pres_push | apply pres_push2 | apply pres_panic | apply pres_throw
    | apply pres_push_result | apply pres_ckfinite
    | apply pres_pop2; intros | apply pres_pop; intros | apply pres_bind; intros
    | match goal with |- preserves (fun _ => match ?x with _ => _ end) => destruct x end ].
Qed.

End preservation.

(** ** Types and panics *)

Arguments coerce : simpl never.

(** The constants an instruction carries are in range. *)
Definition ins_ok (i : Instruction) : Prop :=
  match i with
  | LoadConstantInt32 x => is_range I32 x
  | LoadConstantInt64 x => is_range I64 x
  | _ => True
  end.

Section types.

Context (hv : heap_view) (is_enum : TypeDescription -> option MemberType).

(** An enum instance holds at least its underlying scalar. *)
Definition enum_sized (v : StackValue) : Prop :=
  match v with
  | SV.ValueType o =>
      match is_enum (description o) with
      | Some (MBase b) =>
          match from_enum_underlying b with
          | Some k => (storage_size k <= length (data o))%nat
          | None => True
          end
      | _ => True
      end
  | _ => True
  end.

(** An operand after coercion. *)
Definition coerced (v : StackValue) : StackValue :=
  match coerce is_enum v with Val w => w | _ => v end.

Definition is_min (v : StackValue) : bool :=
  match v with
  | SV.Int32 i => i =? int_min I32
  | SV.Int64 i | SV.NativeInt i => i =? int_min I64
  | _ => false
  end.

(** The operands on which an instruction panics. *)
Definition panics (i : Instruction) (ops : list StackValue) : bool :=
  match i, ops with
  | Negate, v :: _ => is_min (coerced v)
  | (Divide s | Remainder s), v2 :: v1 :: _ => min_over_minus_one (coerced v1) (coerced v2) s
  | (ShiftLeft | ShiftRight _), v2 :: v1 :: _ => shift_too_far (coerced v1) (coerced v2)
  | CheckFinite, SV.NativeFloat _ :: _ => false
  | CheckFinite, _ => true
  | _, _ => false
  end.

Lemma widen_raw_ok k x : sv_ok (widen_raw k x).
Proof.
  assert (H : forall t, t = I8 \/ t = U8 \/ t = I16 \/ t = U16 -> is_range I32 (wrap t x)).
  { intros t Ht. pose proof (wrap_range t x). destruct Ht as [-> | [-> | [-> | ->]]]; int_bounds; lia. }
  destruct k; simpl; try apply wrap_range; apply H; auto.
Qed.

Lemma coerce_spec v : sv_ok v -> enum_sized v -> coerce is_enum v = Val (coerced v) /\ sv_ok (coerced v).
Proof.
  intros Hv Hs. unfold coerced, coerce. destruct v; try done. simpl in *.
  unfold enum_value_type_to_underlying, widen_enum_underlying_bytes, read_le_u64_prefix.
  destruct (is_enum _) as [[b|]|]; try done. destruct (from_enum_underlying b) as [k|]; try done.
  rewrite (proj2 (Nat.leb_le _ _) Hs). simpl. split; [done|]. apply widen_raw_ok.
Qed.

(** A handler's result: operands of the right types, and no panic but where [p] says. *)
Definition typed (p : bool) (o : outcome Empty_set (machine * StepResult)) : Prop :=
  match o with
  | Val (m, _) => Forall sv_ok (operands m) /\ p = false
  | Err _ => False
  | Panic => p = true
  end.

Definition operand_ok (v : StackValue) : Prop := sv_ok v /\ enum_sized v.

(** An operation's result, as the [_spec] lemmas of [StackValue] state it. *)
Definition op_typed {E} (p : bool) (o : outcome E StackValue) : Prop :=
  match o with
  | Val v => sv_ok v /\ p = false
  | Err _ => p = false
  | Panic => p = true
  end.

Lemma op_typed_total {E} (o : outcome E StackValue) :
  match o with Val v => sv_ok v | Err _ => True | Panic => False end -> op_typed false o.
Proof. by destruct o. Qed.

Lemma typed_push_result p o m : Forall sv_ok (operands m) -> op_typed p o -> typed p (push_result o m).
Proof. intros Hm Ho. destruct o; simpl in *; naive_solver. Qed.

Lemma typed_pop (k : StackValue -> handler machine) (p : StackValue -> bool) m :
  Forall operand_ok (operands m) ->
  (forall v m', operand_ok v -> Forall operand_ok (operands m') -> typed (p v) (k v m')) ->
  typed (match operands m with v :: _ => p v | [] => false end) (vm_pop m k).
Proof.
  destruct m as [[|v vs] raised]; simpl; [by auto|]. intros [Hv Hvs]%Forall_cons Hk. by apply Hk.
Qed.

Lemma operands_sv_ok ops : Forall operand_ok ops -> Forall sv_ok ops.
Proof. intros H. eapply Forall_impl; [exact H|]. by intros v []. Qed.

Lemma typed_pop1 (k : StackValue -> handler machine) (p : StackValue -> bool) m :
  Forall operand_ok (operands m) ->
  (forall v m', sv_ok v -> Forall sv_ok (operands m') -> typed (p v) (k v m')) ->
  typed (match operands m with v :: _ => p (coerced v) | [] => false end)
    (vm_pop m (fun v m => let* v := coerce is_enum v in k v m)).
Proof.
  intros Hm Hk. apply (typed_pop _ (fun v => p (coerced v))); [done|]. intros v m' [Hv Hs] Hm'.
  destruct (coerce_spec v Hv Hs) as [-> Hc]. simpl. apply Hk; [done | by apply operands_sv_ok].
Qed.

Lemma typed_pop2 (k : StackValue -> StackValue -> handler machine) (p : StackValue -> StackValue -> bool) m :
  Forall operand_ok (operands m) ->
  (forall v1 v2 m', sv_ok v1 -> sv_ok v2 -> Forall sv_ok (operands m') -> typed (p v1 v2) (k v1 v2 m')) ->
  typed (match operands m with v2 :: v1 :: _ => p (coerced v1) (coerced v2) | _ => false end)
    (pop2_coerced is_enum k m).
Proof.
  destruct m as [[|v2 [|v1 vs]] raised]; unfold pop2_coerced, vm_pop; simpl.
  - by auto.
  - intros [[Hv Hs] _]%Forall_cons Hk. destruct (coerce_spec v2 Hv Hs) as [-> Hc]. by simpl.
  - intros [[Hv2 Hs2] [[Hv1 Hs1] Hvs]%Forall_cons]%Forall_cons Hk.
    destruct (coerce_spec v2 Hv2 Hs2) as [-> Hc2]. simpl.
    destruct (coerce_spec v1 Hv1 Hs1) as [-> Hc1]. simpl. apply Hk; [done | done | by apply operands_sv_ok].
Qed.

Lemma typed_pop2_total (k : StackValue -> StackValue -> handler machine) m :
  Forall operand_ok (operands m) ->
  (forall v1 v2 m', sv_ok v1 -> sv_ok v2 -> Forall sv_ok (operands m') -> typed false (k v1 v2 m')) ->
  typed false (pop2_coerced is_enum k m).
Proof.
  intros Hm Hk. pose proof (typed_pop2 k (fun _ _ => false) m Hm Hk) as H.
  by destruct (operands m) as [|? [|? ?]].
Qed.

Lemma typed_pop1_total (k : StackValue -> handler machine) m :
  Forall operand_ok (operands m) ->
  (forall v m', sv_ok v -> Forall sv_ok (operands m') -> typed false (k v m')) ->
  typed false (vm_pop m (fun v m => let* v := coerce is_enum v in k v m)).
Proof.
  intros Hm Hk. pose proof (typed_pop1 k (fun _ => false) m Hm Hk) as H. by destruct (operands m).
Qed.

Lemma typed_pop_total (k : StackValue -> handler machine) m :
  Forall operand_ok (operands m) ->
  (forall v m', operand_ok v -> Forall operand_ok (operands m') -> typed false (k v m')) ->
  typed false (vm_pop m k).
Proof.
  intros Hm Hk. pose proof (typed_pop k (fun _ => false) m Hm Hk) as H. by destruct (operands m).
Qed.

Lemma typed_ret m r : Forall sv_ok (operands m) -> typed false (Val (m, r)).
Proof. by split. Qed.

Lemma typed_push v m r : sv_ok v -> Forall sv_ok (operands m) -> typed false (Val (push v m, r)).
Proof. intros. split; [by constructor | done]. Qed.

Lemma typed_throw n s m : Forall sv_ok (operands m) -> typed false (Val (throw_by_name_with_message n s m)).
Proof. by split. Qed.

Lemma typed_result p m (o : outcome StackValueError StackValue) :
  Forall sv_ok (operands m) -> op_typed p o ->
  typed p (match o with
           | Val result => Val (push result m, Continue)
           | Err (ManagedException e) => Val (throw_by_name_with_message (exception_type e) (message e) m)
           | Err (Execution e) => Val (m, Error (VmExecution e))
           | Panic => Panic
           end).
Proof. intros Hm Ho. destruct o as [v | [e|e] |]; simpl in *; naive_solver. Qed.

Lemma push_converted_ok t x : sv_ok (push_converted t x).
Proof. destruct t; apply wrap_range. Qed.

Lemma neg_op_typed v : sv_ok v -> op_typed (is_min v) (neg v).
Proof.
  intros Hv. pose proof (neg_spec v Hv) as H. unfold op_typed. destruct (neg v) eqn:E.
  - split; [done|]. destruct v; try done; cbn [neg is_min] in *; apply Z.eqb_neq; intros ->; by vm_compute in E.
  - destruct v; try done; cbn [neg] in E; unfold arith in E; by destruct (in_range _ _).
  - by destruct H as [-> | [-> | ->]].
Qed.

(** Closes the goals a handler's body leaves after its pops. *)
Ltac typed_leaf :=
  lazymatch goal with
  | |- typed _ (Val (throw_by_name_with_message _ _ _)) => apply typed_throw
  | |- typed _ (Val (push _ _, _)) => apply typed_push; [try apply push_converted_ok; try exact I|]
  | |- typed _ (Val (_, _)) => apply typed_ret
  | |- typed _ (match ?x with _ => _ end) => destruct x; typed_leaf
  end; try assumption.

Lemma typed_compare (b : bool) m :
  Forall sv_ok (operands m) -> typed false (Val (push_i32 (if b then 1 else 0) m, Continue)).
Proof. intros Hm. apply typed_push; [|done]. by destruct b; vm_compute. Qed.

Lemma typed_branch_if cond target m :
  Forall operand_ok (operands m) -> typed false (branch_if is_enum cond target m).
Proof. intros Hm. apply typed_pop2_total; [done|]. intros. by apply typed_ret. Qed.

Lemma typed_ceq m : Forall operand_ok (operands m) -> typed false (ceq hv m).
Proof.
  intros Hm. apply typed_pop_total; [done|]. intros v2 m2 _ H2. apply typed_pop_total; [done|].
  intros v1 m1 _ H1. by apply typed_compare, operands_sv_ok.
Qed.

Lemma typed_branches m target :
  Forall operand_ok (operands m) ->
  typed false (brtrue is_enum target m) /\ typed false (brfalse is_enum target m).
Proof.
  intros Hm. split; (apply typed_pop1_total; [done|]); intros v m' Hv Hm'; unfold invalid_program; typed_leaf.
Qed.

Lemma typed_switch m targets : Forall operand_ok (operands m) -> typed false (switch is_enum targets m).
Proof.
  intros Hm. apply typed_pop1_total; [done|]. intros v m' Hv Hm'. unfold invalid_program. typed_leaf.
Qed.

Lemma typed_conv t m : Forall operand_ok (operands m) -> typed false (conv hv is_enum t m).
Proof.
  intros Hm. apply typed_pop1_total; [done|]. intros v m' Hv Hm'. unfold invalid_program. cbv zeta.
  destruct t, v; try (destruct (try_observe_address hv m0)); typed_leaf.
Qed.

Lemma typed_conv_ovf t s m : Forall operand_ok (operands m) -> typed false (conv_ovf t s m).
Proof.
  intros Hm. apply typed_pop_total; [done|]. intros v m' [Hv _] Hm'%operands_sv_ok.
  unfold invalid_program. typed_leaf.
Qed.

Lemma typed_conv_r m :
  Forall operand_ok (operands m) ->
  typed false (conv_r4 m) /\ typed false (conv_r8 m) /\ typed false (conv_r_un m).
Proof.
  intros Hm. split; [|split]; (apply typed_pop_total; [done|]); intros v m' [Hv _] Hm'%operands_sv_ok;
    unfold invalid_program; cbv zeta; typed_leaf.
Qed.

Lemma typed_binary op m :
  Forall operand_ok (operands m) ->
  (forall v1 v2, sv_ok v1 -> sv_ok v2 -> match op v1 v2 with Val v => sv_ok v | Err _ => True | Panic => False end) ->
  typed false (binary_op is_enum op m).
Proof.
  intros Hm Ho. apply typed_pop2_total; [done|]. intros v1 v2 m' H1 H2 H3.
  apply typed_push_result; [done|]. by apply op_typed_total, Ho.
Qed.

Lemma typed_checked op s m :
  Forall operand_ok (operands m) -> typed false (binary_op_result is_enum (checked_arithmetic_op op) s m).
Proof.
  intros Hm. apply typed_pop2_total; [done|]. intros v1 v2 m' H1 H2 H3.
  apply typed_result; [done|]. apply op_typed_total, checked_op_spec.
Qed.

Lemma typed_ckfinite m :
  Forall operand_ok (operands m) -> typed (panics CheckFinite (operands m)) (ckfinite m).
Proof.
  destruct m as [[|v vs] raised]; simpl; [done|]. intros [_ Hvs]%Forall_cons. apply operands_sv_ok in Hvs.
  destruct v; try done. unfold ckfinite, pop_f64, pop. simpl. by destruct (is_finite f); split; try constructor.
Qed.

Lemma execute_typed i m :
  ins_ok i -> Forall operand_ok (operands m) -> typed (panics i (operands m)) (execute hv is_enum i m).
Proof.
  intros Hi Hm. pose proof (operands_sv_ok _ Hm) as Hm'. destruct i; cbn [execute panics].
  all: try (apply typed_binary; [done|]; intros;
            first [by apply add_spec | apply mul_spec | by apply sub_spec | apply bitwise_op_spec; by auto]).
  all: try by apply typed_checked.
  all: try by apply typed_branch_if.
  all: try by apply typed_branches.
  all: try by apply typed_conv_r.
  all: try by apply typed_push.
  all: try by apply typed_ret.
  - apply (typed_pop2 _ (fun v1 v2 => min_over_minus_one v1 v2 s)); [done|].
    intros. apply typed_result; [done|]. by apply div_spec.
  - apply (typed_pop1 _ is_min); [done|]. intros. apply typed_push_result; [done|]. by apply neg_op_typed.
  - apply typed_pop1_total; [done|]. intros. apply typed_push_result; [done|].
    by apply op_typed_total, not_spec.
  - apply (typed_pop2 _ (fun v1 v2 => min_over_minus_one v1 v2 s)); [done|].
    intros. apply typed_result; [done|]. by apply rem_spec.
  - apply (typed_pop2 _ shift_too_far); [done|]. intros. apply typed_push_result; [done|]. by apply shl_spec.
  - apply (typed_pop2 _ shift_too_far); [done|]. intros. apply typed_push_result; [done|]. by apply shr_spec.
  - by apply typed_ceq.
  - apply typed_pop2_total; [done|]. intros. by apply typed_compare.
  - apply typed_pop2_total; [done|]. intros. by apply typed_compare.
  - by apply typed_ckfinite.
  - by apply typed_switch.
  - by apply typed_conv.
  - by apply typed_conv_ovf.
  - apply typed_pop_total; [done|]. intros v m1 _ ?. by apply typed_ret, operands_sv_ok.
  - apply typed_pop_total; [done|]. intros v m1 [Hv _] Hm1. apply typed_push; [done|].
    constructor; [done | by apply operands_sv_ok].
Qed.

End types.

(** ** Theorems *)

(**  Every operand instruction, run on any context that satisfies the
    evaluation-stack laws, does what it does on a plain list of operands: it panics
    on the same operands, and otherwise leaves the same operands and reports the
    same step result, except that a context may fail to build an exception object. *)
Theorem execute_refines hv is_enum {T : Type} `{ExceptionLaws T} i (c : T) :
  stack_ok c ->
  match execute hv is_enum i c, execute hv is_enum i (abs c) with
  | Val (c', r), Val (m', r') => stack_ok c' /\ view c' = operands m' /\ result_refines r r'
  | Panic, Panic => True
  | _, _ => False
  end.
Proof. intros Hc. by apply (execute_simulates hv is_enum i c (abs c)). Qed.

Lemma execute_refines_witness :
  let hv := {| payload_base := fun h => h + 8; leased_payload_base := fun _ => None |} in
  let c := {| operands := [SV.Int32 2; SV.Int32 40]; raised := Some ("a"%string, "b"%string) |} in
  match execute hv (fun _ => None) Add c, execute hv (fun _ => None) Add (abs c) with
  | Val (c', r), Val (m', r') => stack_ok c' /\ view c' = operands m' /\ result_refines r r'
  | Panic, Panic => True
  | _, _ => False
  end.
Proof. intros hv c. by apply (execute_refines hv (fun _ => None) Add c). Defined.

(** C26.  Operand instructions keep the stack well typed: on operands whose
    payloads are in range, whatever handler runs, it returns operands in range or it
    panics, and it panics exactly on the operands [panics] lists: negating a minimum,
    a signed minimum divided by [-1], a shift by the width or more, and [ckfinite]
    without a float on top. *)
Theorem execute_typed_and_panics hv is_enum {T : Type} `{ExceptionLaws T} i (c : T) :
  stack_ok c -> ins_ok i -> Forall (operand_ok is_enum) (view c) ->
  match execute hv is_enum i c with
  | Val (c', _) => stack_ok c' /\ Forall sv_ok (view c') /\ panics is_enum i (view c) = false
  | Err _ => False
  | Panic => panics is_enum i (view c) = true
  end.
Proof.
  intros Hc Hi Hv. pose proof (execute_simulates hv is_enum i c (abs c) Hc eq_refl) as Hr.
  pose proof (execute_typed hv is_enum i (abs c) Hi Hv) as Ht. unfold typed in Ht.
  destruct (execute hv is_enum i c) as [[c' r] | [] |], (execute hv is_enum i (abs c)) as [[m' r'] | [] |];
    try done.
  destruct Hr as (? & Hview & _). rewrite Hview. by destruct Ht.
Qed.

Lemma execute_typed_and_panics_witness :
  let hv := {| payload_base := fun h => h + 8; leased_payload_base := fun _ => None |} in
  let c := {| operands := [SV.Int64 (-1); SV.Int64 (int_min I64)]; raised := None |} in
  match execute hv (fun _ => None) (Divide Signed) c with
  | Val (c', _) => stack_ok c' /\ Forall sv_ok (view c') /\ panics (fun _ => None) (Divide Signed) (view c) = false
  | Err _ => False
  | Panic => panics (fun _ => None) (Divide Signed) (view c) = true
  end.
Proof.
  intros hv c. apply (execute_typed_and_panics hv (fun _ => None) (Divide Signed) c); [done | done |].
  repeat constructor; by vm_compute.
Defined.

(** The sign under which a converted value is read back. *)
Definition conversion_sign (t : ConversionType) : NumberSign :=
  if signed (conversion_ty t) then Signed else Unsigned.

Lemma push_converted_reading t a :
  is_range (conversion_ty t) a -> reading (conversion_sign t) (push_converted t a) = Some a.
Proof.
  intros Ha. destruct t; cbn [conversion_sign conversion_ty signed push_converted reading] in *; f_equal;
    first [ apply wrap_id; int_bounds; lia
          | apply (mod_wrap_signed I32 U32); [done | done | int_bounds; lia]
          | apply (mod_wrap_signed I64 U64); [done | done | int_bounds; lia] ].
Qed.

(**  An overflow-checked conversion of an integer operand keeps the number the
    operand denotes under the instruction's sign: if it fits the target type the
    pushed value denotes the same number under the target's sign, and otherwise
    [OverflowException] is thrown with the operand consumed. *)
Theorem conv_ovf_exact hv is_enum t sgn v vs old a :
  sv_ok v -> reading sgn v = Some a ->
  match execute hv is_enum (ConvertOverflow t sgn) {| operands := v :: vs; raised := old |} with
  | Val (m, Continue) =>
      is_range (conversion_ty t) a /\
      exists w, operands m = w :: vs /\ sv_ok w /\ reading (conversion_sign t) w = Some a
  | Val (m, Exception) =>
      ~ is_range (conversion_ty t) a /\ operands m = vs /\
      raised m = Some ("System.OverflowException"%string, OVERFLOW_MSG)
  | _ => False
  end.
Proof.
  intros Hv Hr. cbn [execute]. unfold conv_ovf, vm_pop. simpl pop_safe. cbv iota beta.
  assert (Hc : conv_ovf_value (conversion_ty t) v sgn = Some (checked (conversion_ty t) a)).
  { destruct v, sgn; try done; injection Hr as <-; simpl;
      by rewrite ?(wrap_unsigned U32), ?(wrap_unsigned U64) by done. }
  rewrite Hc. unfold checked. destruct (in_range _ _) eqn:E; simpl.
  - apply in_range_spec in E. split; [done|]. eexists. split; [done|].
    split; [apply push_converted_ok | by apply push_converted_reading].
  - by apply in_range_false in E.
Qed.

Lemma conv_ovf_exact_witness :
  let hv := {| payload_base := fun h => h + 8; leased_payload_base := fun _ => None |} in
  match execute hv (fun _ => None) (ConvertOverflow CUInt8 Unsigned)
          {| operands := [SV.Int32 200; SV.Int32 7]; raised := None |} with
  | Val (m, Continue) =>
      is_range U8 200 /\ exists w, operands m = w :: [SV.Int32 7] /\ sv_ok w /\ reading Unsigned w = Some 200
  | Val (m, Exception) =>
      ~ is_range U8 200 /\ operands m = [SV.Int32 7] /\
      raised m = Some ("System.OverflowException"%string, OVERFLOW_MSG)
  | _ => False
  end.
Proof. intros hv. apply (conv_ovf_exact hv (fun _ => None) CUInt8 Unsigned (SV.Int32 200)); by vm_compute. Defined.

(**  On two floats one of which is NaN, no ordered comparison holds under
    either sign: [cgt] and [clt] push [0] and [bge], [bgt], [ble] and [blt] fall
    through, the unsigned forms included. *)
Theorem unordered_compares_false hv is_enum sgn f old vs target m :
  m = {| operands := SV.NativeFloat S754_nan :: SV.NativeFloat f :: vs; raised := old |} ->
  let zero := Val ({| operands := SV.Int32 0 :: vs; raised := old |}, Continue) in
  let fall := Val ({| operands := vs; raised := old |}, Continue) in
  execute hv is_enum (CompareGreater sgn) m = zero /\ execute hv is_enum (CompareLess sgn) m = zero /\
  execute hv is_enum (BranchGreaterOrEqual sgn target) m = fall /\
  execute hv is_enum (BranchGreater sgn target) m = fall /\
  execute hv is_enum (BranchLessOrEqual sgn target) m = fall /\
  execute hv is_enum (BranchLess sgn target) m = fall.
Proof. intros ->. destruct sgn, f as [[]|[]| |[]]; by repeat split. Qed.

Lemma unordered_compares_false_witness :
  let hv := {| payload_base := fun h => h + 8; leased_payload_base := fun _ => None |} in
  execute hv (fun _ => None) (CompareLess Unsigned)
    {| operands := [SV.NativeFloat S754_nan; SV.NativeFloat (S754_zero false)]; raised := None |} =
  Val ({| operands := [SV.Int32 0]; raised := None |}, Continue).
Proof.
  intros hv. apply (unordered_compares_false hv (fun _ => None) Unsigned (S754_zero false) None [] 0 _ eq_refl).
Defined.
