(* ===== verification/Generics.v ===== *)
(** * Types and generic arguments

    [ConcreteType], [GenericLookup] and the substitution of generic parameters
    ([dotnet-types/src/generics.rs]).

    The syntax of types ([BaseType], [TypeSource], [MethodType], method signatures) is
    the metadata reader's.  Metadata tokens (custom modifiers, calling conventions) are
    numbers, compared for equality only; a resolution scope is a number too, 0 the null
    one.  The standard hasher is a function [finish] of the words written to it. *)

From Stdlib Require Import ZArith Lia.
From stdpp Require Import base tactics list option strings sets.
From S2P Require Import Prelude ManagedPtr Ops.

(** ** Metadata types *)

Inductive UserType : Set := Definition_ (i : nat) | Reference_ (i : nat).
Inductive ValueKind : Set := Class_ | ValueType_.

(** The constructors of [BaseType] without arguments. *)
Inductive prim : Set :=
| Boolean | Char | Int8 | UInt8 | Int16 | UInt16 | Int32 | UInt32 | Int64 | UInt64
| Float32 | Float64 | IntPtr | UIntPtr | Object_ | String_.

Record ArrayShape : Set := { rank : nat; sizes : list nat; lower_bounds : list Z }.

Inductive TypeSource (A : Set) : Set :=
| User (u : UserType)
| Generic (base : UserType) (parameters : list A).

Inductive ParameterType (A : Set) : Set := PValue (t : A) | PRef (t : A) | PTypedReference.
Inductive SigParameter (A : Set) : Set := Param (modifiers : list nat) (t : ParameterType A).
Inductive ReturnType (A : Set) : Set := Ret (modifiers : list nat) (t : option (ParameterType A)).

Record MethodSignature (A : Set) : Set := {
  instance : bool;
  explicit_this : bool;
  calling_convention : nat;
  parameters : list (SigParameter A);
  return_type : ReturnType A;
  varargs : option (list (SigParameter A));
}.

Inductive BaseType (A : Set) : Set :=
| BType (source : TypeSource A) (value_kind : option ValueKind)
| BPrim (p : prim)
| BVector (modifiers : list nat) (t : A)
| BArray (t : A) (shape : ArrayShape)
| BValuePointer (modifiers : list nat) (t : option A)
| BFunctionPointer (sig : MethodSignature A).

Arguments User {A} u.
Arguments Generic {A} base parameters.
Arguments PValue {A} t.
Arguments PRef {A} t.
Arguments PTypedReference {A}.
Arguments Param {A} modifiers t.
Arguments Ret {A} modifiers t.
Arguments instance {A} m.
Arguments explicit_this {A} m.
Arguments calling_convention {A} m.
Arguments parameters {A} m.
Arguments return_type {A} m.
Arguments varargs {A} m.
Arguments BType {A} source value_kind.
Arguments BPrim {A} p.
Arguments BVector {A} modifiers t.
Arguments BArray {A} t shape.
Arguments BValuePointer {A} modifiers t.
Arguments BFunctionPointer {A} sig.

Inductive MethodType : Set :=
| MBase (b : BaseType MethodType)
| TypeGeneric (i : nat)
| MethodGeneric (i : nat).

(** [ConcreteType]; its memoized hash is [ct_hash] below. *)
Inductive ConcreteType : Set := CT (source : nat) (base : BaseType ConcreteType).

Definition ct_source (c : ConcreteType) : nat := match c with CT s _ => s end.
Definition ct_base (c : ConcreteType) : BaseType ConcreteType := match c with CT _ b => b end.

#[export] Instance UserType_eq_dec : EqDecision UserType.
Proof. solve_decision. Defined.
#[export] Instance ValueKind_eq_dec : EqDecision ValueKind.
Proof. solve_decision. Defined.
#[export] Instance prim_eq_dec : EqDecision prim.
Proof. solve_decision. Defined.
#[export] Instance ArrayShape_eq_dec : EqDecision ArrayShape.
Proof. solve_decision. Defined.

(** ** The types within a type *)

Section containers.
Context {A B : Set} (f : A -> B).

Definition pt_map (p : ParameterType A) : ParameterType B :=
  match p with PValue t => PValue (f t) | PRef t => PRef (f t) | PTypedReference => PTypedReference end.

Definition param_map (p : SigParameter A) : SigParameter B := match p with Param m t => Param m (pt_map t) end.

Definition ret_map (r : ReturnType A) : ReturnType B := match r with Ret m t => Ret m (option_map pt_map t) end.

Definition sig_map (s : MethodSignature A) : MethodSignature B :=
  {| instance := instance s; explicit_this := explicit_this s; calling_convention := calling_convention s;
     parameters := map param_map (parameters s); return_type := ret_map (return_type s);
     varargs := option_map (map param_map) (varargs s) |}.

Definition source_map (s : TypeSource A) : TypeSource B :=
  match s with User u => User u | Generic u ps => Generic u (map f ps) end.

(** [BaseType::map] *)
Definition bt_map (b : BaseType A) : BaseType B :=
  match b with
  | BType s k => BType (source_map s) k
  | BPrim p => BPrim p
  | BVector m t => BVector m (f t)
  | BArray t s => BArray (f t) s
  | BValuePointer m t => BValuePointer m (option_map f t)
  | BFunctionPointer s => BFunctionPointer (sig_map s)
  end.
End containers.

Section children.
Context {A : Set}.

Definition pt_types (p : ParameterType A) : list A :=
  match p with PValue t | PRef t => [t] | PTypedReference => [] end.

Definition param_types (p : SigParameter A) : list A := match p with Param _ t => pt_types t end.

Definition ret_types (r : ReturnType A) : list A :=
  match r with Ret _ (Some t) => pt_types t | Ret _ None => [] end.

Definition sig_types (s : MethodSignature A) : list A :=
  concat (map param_types (parameters s)) ++ ret_types (return_type s) ++
  match varargs s with Some ps => concat (map param_types ps) | None => [] end.

Definition source_args (s : TypeSource A) : list A := match s with User _ => [] | Generic _ ps => ps end.

(** The types a type is made of, in the order they are visited. *)
Definition children (b : BaseType A) : list A :=
  match b with
  | BType s _ => source_args s
  | BPrim _ => []
  | BVector _ t | BArray t _ => [t]
  | BValuePointer _ t => match t with Some t => [t] | None => [] end
  | BFunctionPointer s => sig_types s
  end.
End children.

(** ** Induction

    Both types are trees: a measure, and induction with the hypothesis for the parts. *)

Section sum.
Context {A : Set} (f : A -> nat).

Definition pt_sum (p : ParameterType A) : nat := match p with PValue t | PRef t => f t | PTypedReference => 0 end.
Definition param_sum (p : SigParameter A) : nat := match p with Param _ t => pt_sum t end.
Definition params_sum (l : list (SigParameter A)) : nat := foldr (fun p n => param_sum p + n)%nat 0%nat l.

Definition bt_sum (b : BaseType A) : nat :=
  match b with
  | BType (User _) _ => 0
  | BType (Generic _ ps) _ => foldr (fun t n => f t + n)%nat 0%nat ps
  | BPrim _ => 0
  | BVector _ t | BArray t _ => f t
  | BValuePointer _ t => match t with Some t => f t | None => 0 end
  | BFunctionPointer s =>
      params_sum (parameters s) + match return_type s with Ret _ (Some t) => pt_sum t | Ret _ None => 0 end +
      match varargs s with Some ps => params_sum ps | None => 0 end
  end%nat.

Lemma params_sum_in l t : t ∈ concat (map param_types l) -> (f t <= params_sum l)%nat.
Proof.
  induction l as [|[m [x|x|]] l IH]; simpl; [by intros ?%elem_of_nil|..|by intros; apply IH].
  all: intros [->|H]%elem_of_cons; [lia | specialize (IH H); lia].
Qed.

Lemma bt_sum_in b t : t ∈ children b -> (f t <= bt_sum b)%nat.
Proof.
  destruct b as [[u|u ps] k|p|m x|x s|m [x|]|s]; simpl; try (by intros ?%elem_of_nil); try (by intros ->%list_elem_of_singleton).
  - induction ps as [|y ps IH]; simpl; [by intros ?%elem_of_nil|]. intros [->|H]%elem_of_cons; [lia | specialize (IH H); lia].
  - unfold sig_types. intros [H|[H|H]%elem_of_app]%elem_of_app.
    + apply params_sum_in in H. lia.
    + destruct (return_type s) as [m [[x|x|]|]]; simpl in *; try (by apply elem_of_nil in H); apply list_elem_of_singleton in H as ->; lia.
    + destruct (varargs s); [apply params_sum_in in H; lia | by apply elem_of_nil in H].
Qed.
End sum.

Fixpoint ct_size (c : ConcreteType) : nat := match c with CT _ b => S (bt_sum ct_size b) end.

Fixpoint mt_size (t : MethodType) : nat := match t with MBase b => S (bt_sum mt_size b) | _ => 0 end.

Lemma ct_ind (P : ConcreteType -> Prop) :
  (forall s b, (forall c, c ∈ children b -> P c) -> P (CT s b)) -> forall c, P c.
Proof.
  intros H c. remember (ct_size c) as n eqn:Hn. revert c Hn. induction n as [n IH] using lt_wf_ind. intros [s b] ->.
  apply H. intros c Hc. eapply IH; [|done]. simpl. apply (bt_sum_in ct_size) in Hc. lia.
Qed.

Lemma mt_ind (P : MethodType -> Prop) :
  (forall b, (forall t, t ∈ children b -> P t) -> P (MBase b)) -> (forall i, P (TypeGeneric i)) ->
  (forall i, P (MethodGeneric i)) -> forall t, P t.
Proof.
  intros Hb H1 H2 t. remember (mt_size t) as n eqn:Hn. revert t Hn. induction n as [n IH] using lt_wf_ind.
  intros [b|i|i] ->; [|done|done]. apply Hb. intros t Ht. eapply IH; [|done]. simpl. apply (bt_sum_in mt_size) in Ht. lia.
Qed.

(** ** Equality *)

Section compare.
Context {A : Set} (eqb : A -> A -> bool).

Fixpoint all2 {X Y : Type} (f : X -> Y -> bool) (l1 : list X) (l2 : list Y) : bool :=
  match l1, l2 with
  | [], [] => true
  | x :: l1, y :: l2 => f x y && all2 f l1 l2
  | _, _ => false
  end.

Definition opt2 {X Y : Type} (f : X -> Y -> bool) (o1 : option X) (o2 : option Y) : bool :=
  match o1, o2 with Some x, Some y => f x y | None, None => true | _, _ => false end.

Definition pt_eqb (p q : ParameterType A) : bool :=
  match p, q with PValue t, PValue u | PRef t, PRef u => eqb t u | PTypedReference, PTypedReference => true | _, _ => false end.

Definition param_eqb (p q : SigParameter A) : bool :=
  match p, q with Param m t, Param n u => bool_decide (m = n) && pt_eqb t u end.

Definition ret_eqb (p q : ReturnType A) : bool :=
  match p, q with Ret m t, Ret n u => bool_decide (m = n) && opt2 pt_eqb t u end.

Definition sig_eqb (s1 s2 : MethodSignature A) : bool :=
  bool_decide (instance s1 = instance s2) && bool_decide (explicit_this s1 = explicit_this s2) &&
  bool_decide (calling_convention s1 = calling_convention s2) && all2 param_eqb (parameters s1) (parameters s2) &&
  ret_eqb (return_type s1) (return_type s2) && opt2 (all2 param_eqb) (varargs s1) (varargs s2).

Definition source_eqb (s1 s2 : TypeSource A) : bool :=
  match s1, s2 with
  | User u, User v => bool_decide (u = v)
  | Generic u ps, Generic v qs => bool_decide (u = v) && all2 eqb ps qs
  | _, _ => false
  end.

Definition base_type_eq_without_value_kind (left right : BaseType A) : bool :=
  match left, right with
  | BType s1 _, BType s2 _ => source_eqb s1 s2
  | BPrim p, BPrim q => bool_decide (p = q)
  | BVector m t, BVector n u => bool_decide (m = n) && eqb t u
  | BArray t s, BArray u r => eqb t u && bool_decide (s = r)
  | BValuePointer m t, BValuePointer n u => bool_decide (m = n) && opt2 eqb t u
  | BFunctionPointer s, BFunctionPointer r => sig_eqb s r
  | _, _ => false
  end.
End compare.

(** [PartialEq for ConcreteType]; comparing the addresses of the bases first changes
    nothing, since the comparison is reflexive. *)
Fixpoint ct_eqb (c d : ConcreteType) : bool :=
  match c, d with CT s b, CT r e => bool_decide (s = r) && base_type_eq_without_value_kind ct_eqb b e end.

(** Types without their value kinds. *)
Definition without_kind {A : Set} (b : BaseType A) : BaseType A := match b with BType s _ => BType s None | b => b end.

Fixpoint strip (c : ConcreteType) : ConcreteType := match c with CT s b => CT s (without_kind (bt_map strip b)) end.

(** A comparison that decides the equality of images decides it on containers. *)
Section reflect.
Context {A B : Set} (eqb : A -> A -> bool) (f : A -> B).

Definition decides_on (l : list A) : Prop := forall x, x ∈ l -> forall y, eqb x y = true <-> f x = f y.

Lemma decides_cons x l : decides_on (x :: l) <-> (forall y, eqb x y = true <-> f x = f y) /\ decides_on l.
Proof.
  unfold decides_on. split; [intros H; split; [apply H; left | intros z Hz; apply H; by right]|].
  intros [H1 H2] z [->|Hz]%elem_of_cons; auto.
Qed.

Lemma decides_app l1 l2 : decides_on (l1 ++ l2) <-> decides_on l1 /\ decides_on l2.
Proof. unfold decides_on. setoid_rewrite elem_of_app. naive_solver. Qed.

Lemma all2_decides l1 l2 : decides_on l1 -> all2 eqb l1 l2 = true <-> map f l1 = map f l2.
Proof.
  revert l2. induction l1 as [|x l1 IH]; intros [|y l2] H; simpl; try done. apply decides_cons in H as [Hx Hl].
  rewrite andb_true_iff, Hx, IH by done. split; [by intros [-> ->] | by intros [= ? ?]].
Qed.

Lemma pt_decides p q : decides_on (pt_types p) -> pt_eqb eqb p q = true <-> pt_map f p = pt_map f q.
Proof.
  destruct p as [x|x|], q as [y|y|]; simpl; intros H; try done;
    (rewrite (H x) by (by left)); split; [by intros -> | by intros [= ?] | by intros -> | by intros [= ?]].
Qed.

Lemma param_decides p q : decides_on (param_types p) -> param_eqb eqb p q = true <-> param_map f p = param_map f q.
Proof.
  destruct p as [m p], q as [n q]. simpl. intros H. rewrite andb_true_iff, bool_decide_eq_true, pt_decides by done.
  split; [by intros [-> ->] | by intros [= ? ?]].
Qed.

Lemma params_decide l1 l2 : decides_on (concat (map param_types l1)) ->
  all2 (param_eqb eqb) l1 l2 = true <-> map (param_map f) l1 = map (param_map f) l2.
Proof.
  revert l2. induction l1 as [|x l1 IH]; intros [|y l2] H; simpl; try done. apply decides_app in H as [Hx Hl].
  rewrite andb_true_iff, param_decides, IH by done. split; [by intros [-> ->] | by intros [= ? ?]].
Qed.

Lemma ret_decides p q : decides_on (ret_types p) -> ret_eqb eqb p q = true <-> ret_map f p = ret_map f q.
Proof.
  destruct p as [m p], q as [n q]. intros H. simpl. rewrite andb_true_iff, bool_decide_eq_true.
  assert (Hq : opt2 (pt_eqb eqb) p q = true <-> option_map (pt_map f) p = option_map (pt_map f) q).
  { destruct p as [p|], q as [q|]; simpl; try done. rewrite pt_decides by done. split; [by intros -> | by intros [= ?]]. }
  rewrite Hq. split; [by intros [-> ->] | by intros [= ? ?]].
Qed.

Lemma sig_decides s r : decides_on (sig_types s) -> sig_eqb eqb s r = true <-> sig_map f s = sig_map f r.
Proof.
  destruct s as [i1 e1 c1 p1 r1 v1], r as [i2 e2 c2 p2 r2 v2]. unfold sig_types, sig_eqb, sig_map. cbn [instance explicit_this calling_convention parameters return_type varargs].
  intros [Hp [Hr Hv]%decides_app]%decides_app. rewrite !andb_true_iff, !bool_decide_eq_true, params_decide, ret_decides by done.
  assert (Hvar : opt2 (all2 (param_eqb eqb)) v1 v2 = true <-> option_map (map (param_map f)) v1 = option_map (map (param_map f)) v2).
  { destruct v1, v2; simpl; try done. rewrite params_decide by done. split; [by intros -> | by intros [= ?]]. }
  rewrite Hvar. split; [intros (((((-> & ->) & ->) & ->) & ->) & ->); done | intros [= ? ? ? ? ? ?]; done].
Qed.

Lemma base_decides b e : decides_on (children b) ->
  base_type_eq_without_value_kind eqb b e = true <-> without_kind (bt_map f b) = without_kind (bt_map f e).
Proof.
  destruct b as [[u|u ps] k|p|m x|x s|m [x|]|s], e as [[v|v qs] k'|q|n y|y r|n [y|]|r]; simpl; intros H; try done;
    rewrite ?andb_true_iff, ?bool_decide_eq_true, ?all2_decides, ?sig_decides by done;
    rewrite ?(H x) by (by left); (split; [intros; destruct_and?; congruence | intros Hq; repeat split; congruence]).
Qed.
End reflect.

Lemma ct_eqb_strip c d : ct_eqb c d = true <-> strip c = strip d.
Proof.
  revert d. induction c as [s b IH] using ct_ind. intros [r e]. simpl.
  rewrite andb_true_iff, bool_decide_eq_true, (base_decides ct_eqb strip) by done.
  split; [by intros [-> ->] | by intros [= ? ?]].
Qed.

#[export] Instance ct_equivalence : Equivalence (fun c d => ct_eqb c d = true).
Proof. split; red; setoid_rewrite ct_eqb_strip; congruence. Qed.

(** ** Mapping *)

Lemma map_in_ext {A B} (f g : A -> B) l : (forall x, x ∈ l -> f x = g x) -> map f l = map g l.
Proof. intros H. induction l as [|x l IH]; [done|]. simpl. rewrite H by left. f_equal. apply IH. intros. apply H. by right. Qed.

Section mapping.
Context {A B C : Set}.

Lemma pt_map_ext (f g : A -> B) p : (forall x, x ∈ pt_types p -> f x = g x) -> pt_map f p = pt_map g p.
Proof. destruct p; simpl; intros H; rewrite ?H by left; done. Qed.

Lemma params_map_ext (f g : A -> B) l :
  (forall x, x ∈ concat (map param_types l) -> f x = g x) -> map (param_map f) l = map (param_map g) l.
Proof.
  induction l as [|[m p] l IH]; simpl; intros H; [done|]. f_equal.
  - f_equal. apply pt_map_ext. intros. apply H. set_solver.
  - apply IH. intros. apply H. set_solver.
Qed.

Lemma bt_map_ext (f g : A -> B) b : (forall x, x ∈ children b -> f x = g x) -> bt_map f b = bt_map g b.
Proof.
  destruct b as [[u|u ps] k|p|m x|x s|m [x|]|[i e c ps [m r] v]]; simpl; intros H; rewrite ?H by left; try done.
  - by rewrite (map_in_ext f g).
  - unfold sig_types in H. cbn [parameters return_type varargs] in H. unfold sig_map. do 2 f_equal.
    + apply params_map_ext. intros ? ?. apply H. set_solver.
    + destruct r as [r|]; [|done]. simpl. do 2 f_equal. apply pt_map_ext. simpl in H. intros ? ?. apply H. set_solver.
    + destruct v as [v|]; [|done]. simpl. f_equal. apply params_map_ext. intros ? ?. apply H. set_solver.
Qed.

Lemma bt_map_map (f : A -> B) (g : B -> C) b : bt_map g (bt_map f b) = bt_map (fun x => g (f x)) b.
Proof.
  assert (Hp : forall p, param_map g (param_map f p) = param_map (fun x => g (f x)) p) by by intros [m []].
  destruct b as [[u|u ps] k|p|m x|x s|m [x|]|[i e c ps [m r] v]]; simpl; try done.
  - by rewrite map_map.
  - unfold sig_map. cbn. do 2 f_equal.
    + rewrite map_map. by apply map_ext.
    + by destruct r as [[]|].
    + destruct v; [|done]. simpl. f_equal. rewrite map_map. by apply map_ext.
Qed.

Lemma pt_types_map (f : A -> B) p : pt_types (pt_map f p) = map f (pt_types p).
Proof. by destruct p. Qed.

Lemma params_types_map (f : A -> B) l : concat (map param_types (map (param_map f) l)) = map f (concat (map param_types l)).
Proof. induction l as [|[m p] l IH]; simpl; [done|]. by rewrite IH, pt_types_map, map_app. Qed.

Lemma children_map (f : A -> B) b : children (bt_map f b) = map f (children b).
Proof.
  destruct b as [[u|u ps] k|p|m x|x s|m [x|]|[i e c ps [m r] v]]; simpl; try done.
  unfold sig_types. cbn. rewrite !map_app, params_types_map. f_equal. f_equal.
  - destruct r as [r|]; simpl; [apply pt_types_map | done].
  - destruct v; simpl; [apply params_types_map | done].
Qed.

Lemma without_kind_map (f : A -> B) b : without_kind (bt_map f b) = bt_map f (without_kind b).
Proof. by destruct b. Qed.

Lemma children_without_kind (b : BaseType A) : children (without_kind b) = children b.
Proof. by destruct b. Qed.
End mapping.

Lemma strip_strip c : strip (strip c) = strip c.
Proof.
  induction c as [s b IH] using ct_ind. simpl. f_equal. rewrite <- without_kind_map, bt_map_map.
  assert (H : bt_map (fun x => strip (strip x)) b = bt_map strip b) by by apply bt_map_ext.
  rewrite H. by destruct (bt_map strip b).
Qed.

(** ** Hashes *)

Section hash.
(** [Hasher::finish] of the default hasher, over the words written to it. *)
Context (finish : list Z -> Z).

Definition hash_list {X} (h : X -> list Z) (l : list X) : list Z := Z.of_nat (length l) :: concat (map h l).
Definition hash_opt {X} (h : X -> list Z) (o : option X) : list Z := match o with Some x => 1 :: h x | None => [0] end.
Definition hash_nat (n : nat) : list Z := [Z.of_nat n].
Definition hash_user (u : UserType) : list Z := match u with Definition_ i => [0; Z.of_nat i] | Reference_ i => [1; Z.of_nat i] end.
Definition hash_shape (s : ArrayShape) : list Z :=
  Z.of_nat (rank s) :: hash_list hash_nat (sizes s) ++ hash_list (fun z => [z]) (lower_bounds s).
Definition hash_pt (p : ParameterType Z) : list Z := match p with PValue z => [0; z] | PRef z => [1; z] | PTypedReference => [2] end.
Definition hash_param (p : SigParameter Z) : list Z := match p with Param m t => hash_list hash_nat m ++ hash_pt t end.
Definition hash_sig (s : MethodSignature Z) : list Z :=
  [if instance s then 1 else 0; if explicit_this s then 1 else 0; Z.of_nat (calling_convention s)] ++
  hash_list hash_param (parameters s) ++
  match return_type s with Ret m t => hash_list hash_nat m ++ hash_opt hash_pt t end ++
  hash_opt (hash_list hash_param) (varargs s).

Definition prim_tag (p : prim) : Z :=
  match p with
  | Boolean => 1 | Char => 2 | Int8 => 3 | UInt8 => 4 | Int16 => 5 | UInt16 => 6 | Int32 => 7 | UInt32 => 8 | Int64 => 9
  | UInt64 => 10 | Float32 => 11 | Float64 => 12 | IntPtr => 13 | UIntPtr => 14 | Object_ => 15 | String_ => 16
  end.

(** The words of a base whose parts are given by their own hashes. *)
Definition hash_base_type_without_value_kind (b : BaseType Z) : list Z :=
  match b with
  | BType s _ => 0 :: match s with User u => 0 :: hash_user u | Generic u ps => 1 :: hash_user u ++ hash_list (fun z => [z]) ps end
  | BPrim p => [prim_tag p]
  | BVector m z => 17 :: hash_list hash_nat m ++ [z]
  | BArray z s => 18 :: z :: hash_shape s
  | BValuePointer m z => 19 :: hash_list hash_nat m ++ hash_opt (fun z => [z]) z
  | BFunctionPointer s => 20 :: hash_sig s
  end.

(** The memoized hash: computed by [ConcreteType::new] from those of the parts. *)
Fixpoint ct_hash (c : ConcreteType) : Z :=
  match c with CT s b => finish (Z.of_nat s :: hash_base_type_without_value_kind (bt_map ct_hash b)) end.

Lemma ct_hash_strip c : ct_hash (strip c) = ct_hash c.
Proof.
  induction c as [s b IH] using ct_ind. simpl. do 2 f_equal. rewrite <- without_kind_map, bt_map_map.
  assert (H : bt_map (fun x => ct_hash (strip x)) b = bt_map ct_hash b) by by apply bt_map_ext.
  rewrite H. by destruct (bt_map ct_hash b).
Qed.

Lemma ct_eq_hash c d : ct_eqb c d = true -> ct_hash c = ct_hash d.
Proof. intros H%ct_eqb_strip. by rewrite <- (ct_hash_strip c), <- (ct_hash_strip d), H. Qed.
End hash.

(** ** Lookups *)

Definition type_parameters (c : ConcreteType) : option (list ConcreteType) :=
  match ct_base c with BType (Generic _ ps) _ => Some ps | _ => None end.

Record GenericLookup : Set := { type_generics : list ConcreteType; method_generics : list ConcreteType; gl_hash : Z }.

Definition gl_eqb (g h : GenericLookup) : bool :=
  all2 ct_eqb (type_generics g) (type_generics h) && all2 ct_eqb (method_generics g) (method_generics h).

Section lookups.
Context (finish : list Z -> Z).

Definition compute_hash (tg mg : list ConcreteType) : Z :=
  finish (hash_list (fun c => [ct_hash finish c]) tg ++ hash_list (fun c => [ct_hash finish c]) mg).

Definition from_arcs (tg mg : list ConcreteType) : GenericLookup :=
  {| type_generics := tg; method_generics := mg; gl_hash := compute_hash tg mg |}.
Definition from_type_arc (tg : list ConcreteType) : GenericLookup := from_arcs tg [].
Definition new_lookup (tg : list ConcreteType) : GenericLookup := from_type_arc tg.
Definition default_lookup : GenericLookup := from_arcs [] [].

Definition set_type_generics (g : GenericLookup) (tg : list ConcreteType) : GenericLookup :=
  {| type_generics := tg; method_generics := method_generics g; gl_hash := compute_hash tg (method_generics g) |}.
Definition set_method_generics (g : GenericLookup) (mg : list ConcreteType) : GenericLookup :=
  {| type_generics := type_generics g; method_generics := mg; gl_hash := compute_hash (type_generics g) mg |}.

Definition bounded_generic_arg (generics : list ConcreteType) (i : nat) : TypeResolutionError + ConcreteType :=
  match generics !! i with
  | Some c => inr c
  | None => inl (GenericIndexOutOfBounds (Z.of_nat i) (Z.of_nat (length generics)))
  end.
Definition type_arg (g : GenericLookup) (i : nat) : TypeResolutionError + ConcreteType := bounded_generic_arg (type_generics g) i.
Definition method_arg (g : GenericLookup) (i : nat) : TypeResolutionError + ConcreteType := bounded_generic_arg (method_generics g) i.

(** The lookups the constructors and setters make. *)
Inductive made : GenericLookup -> Prop :=
| made_from tg mg : made (from_arcs tg mg)
| made_type g tg : made g -> made (set_type_generics g tg)
| made_method g mg : made g -> made (set_method_generics g mg).

Lemma made_hash g : made g -> gl_hash g = compute_hash (type_generics g) (method_generics g).
Proof. by destruct 1. Qed.
End lookups.

Definition checked_sub_usize (i k : nat) : option nat := if (k <=? i)%nat then Some (i - k)%nat else None.

(** The first of some candidate indices that the list has. *)
Fixpoint first_at (l : list ConcreteType) (candidates : list (option nat)) : option ConcreteType :=
  match candidates with
  | [] => None
  | Some i :: rest => match l !! i with Some c => Some c | None => first_at l rest end
  | None :: rest => first_at l rest
  end.

Definition lookup_method_generic_with_fallback_indices (g : GenericLookup) (i : nat) : option ConcreteType :=
  let type_arity := length (type_generics g) in
  let method_arity := length (method_generics g) in
  first_at (method_generics g)
    [Some i; checked_sub_usize i type_arity; checked_sub_usize i (type_arity + 1); checked_sub_usize i method_arity;
     checked_sub_usize i (method_arity + 1); checked_sub_usize i 1].

Definition lookup_type_generic (g : GenericLookup) (i : nat) : TypeResolutionError + ConcreteType :=
  match type_generics g !! i with
  | Some c => inr c
  | None =>
      match lookup_method_generic_with_fallback_indices g i with
      | Some c => inr c
      | None => inl (GenericIndexOutOfBounds (Z.of_nat i) (Z.of_nat (length (type_generics g))))
      end
  end.

Definition lookup_method_generic (g : GenericLookup) (i : nat) : TypeResolutionError + ConcreteType :=
  match method_generics g !! i with
  | Some c => inr c
  | None =>
      match lookup_method_generic_with_fallback_indices g i with
      | Some c => inr c
      | None =>
          let method_arity := length (method_generics g) in
          match first_at (type_generics g)
                  [Some i; checked_sub_usize i method_arity; checked_sub_usize i (method_arity + 1); checked_sub_usize i 1] with
          | Some c => inr c
          | None => inl (GenericIndexOutOfBounds (Z.of_nat i) (Z.of_nat method_arity))
          end
      end
  end.

(** The error the loop over the parts ends with: each one replaces the last. *)
Fixpoint last_error {E A : Type} (l : list (E + A)) : option E :=
  match l with
  | [] => None
  | r :: l => match last_error l with Some e => Some e | None => match r with inl e => Some e | inr _ => None end end
  end.

Definition result_or {E A : Type} (d : A) (r : E + A) : A := match r with inl _ => d | inr a => a end.

(** [make_concrete] as built by default, without the validation of constraints. *)
Fixpoint make_concrete (g : GenericLookup) (res : nat) (t : MethodType) : TypeResolutionError + ConcreteType :=
  match t with
  | MBase b =>
      let parts := bt_map (make_concrete g res) b in
      match last_error (children parts) with
      | Some e => inl e
      | None => inr (CT res (bt_map (result_or (CT res (BPrim Boolean))) parts))
      end
  | TypeGeneric i => lookup_type_generic g i
  | MethodGeneric i => lookup_method_generic g i
  end.

(** ** Substitution *)

(** Every placeholder of [t] is one of [n] type and [m] method parameters. *)
Fixpoint in_scope (n m : nat) (t : MethodType) : bool :=
  match t with
  | MBase b => forallb id (children (bt_map (in_scope n m) b))
  | TypeGeneric i => (i <? n)%nat
  | MethodGeneric i => (i <? m)%nat
  end.

(** Replacement by position. *)
Fixpoint subst (tg mg : list ConcreteType) (res : nat) (t : MethodType) : ConcreteType :=
  match t with
  | MBase b => CT res (bt_map (subst tg mg res) b)
  | TypeGeneric i => nth i tg (CT res (BPrim Boolean))
  | MethodGeneric i => nth i mg (CT res (BPrim Boolean))
  end.

Lemma forallb_map_children {A : Set} (f : A -> bool) (b : BaseType A) :
  forallb id (children (bt_map f b)) = true <-> forall x, x ∈ children b -> f x = true.
Proof.
  rewrite children_map, forallb_forall. setoid_rewrite in_map_iff. split.
  - intros H x Hx. apply (H (f x)). exists x. split; [done|]. by apply list_elem_of_In.
  - intros H y (x & <- & Hx). apply H. by apply list_elem_of_In.
Qed.

Lemma last_error_none {E A} (l : list (E + A)) : last_error l = None <-> forall r, r ∈ l -> exists a, r = inr a.
Proof.
  induction l as [|r l IH]; simpl; [split; [intros _ r []%elem_of_nil | done]|].
  split.
  - destruct (last_error l) eqn:El; [done|]. destruct r as [e|a]; [done|]. intros _ x [->|Hx]%elem_of_cons; [eauto|]. by apply IH.
  - intros H. rewrite (proj2 IH) by (intros x Hx; apply H; by right). by destruct (H r) as [a ->]; [left|].
Qed.

(** Within the bounds of the arguments a type is made concrete by substitution by position:
    there is no error, and none of the fallback numberings is taken. *)
Lemma make_concrete_in_scope g res t :
  in_scope (length (type_generics g)) (length (method_generics g)) t = true ->
  make_concrete g res t = inr (subst (type_generics g) (method_generics g) res t).
Proof.
  induction t as [b IH|i|i] using mt_ind; simpl.
  - rewrite forallb_map_children. intros H.
    assert (Hp : bt_map (make_concrete g res) b = bt_map (fun t => inr (subst (type_generics g) (method_generics g) res t)) b)
      by (apply bt_map_ext; auto).
    rewrite Hp. replace (last_error _) with (@None TypeResolutionError).
    + rewrite bt_map_map. done.
    + symmetry. apply last_error_none. rewrite children_map. intros r (t & -> & _)%list_elem_of_fmap. eauto.
  - intros H%Nat.ltb_lt. unfold lookup_type_generic. destruct (lookup_lt_is_Some_2 _ _ H) as [c Hc]. rewrite Hc.
    f_equal. symmetry. by apply nth_lookup_Some.
  - intros H%Nat.ltb_lt. unfold lookup_method_generic. destruct (lookup_lt_is_Some_2 _ _ H) as [c Hc]. rewrite Hc.
    f_equal. symmetry. by apply nth_lookup_Some.
Qed.

(** ** Types with a scope

    A type made by the loader carries the scope of its tokens, and so do its parts. *)
Fixpoint sourced (c : ConcreteType) : bool :=
  match c with CT s b => negb (s =? 0)%nat && forallb id (children (bt_map sourced b)) end.

Lemma sourced_spec s b : sourced (CT s b) = true <-> s <> 0%nat /\ forall c, c ∈ children b -> sourced c = true.
Proof. simpl. by rewrite andb_true_iff, negb_true_iff, Nat.eqb_neq, forallb_map_children. Qed.

Lemma sourced_parameters c ps : sourced c = true -> type_parameters c = Some ps -> Forall (fun x => sourced x = true) ps.
Proof.
  destruct c as [s [[u|u l] k|p|m x|x a|m x|f]]; intros [_ H]%sourced_spec [= <-]. apply Forall_forall. exact H.
Qed.

Lemma first_at_in l cs c : first_at l cs = Some c -> c ∈ l.
Proof.
  induction cs as [|[i|] cs IH]; simpl; [done| |done]. destruct (l !! i) eqn:Hi; [|done]. intros [= ->]. by eapply list_elem_of_lookup_2.
Qed.

Lemma make_concrete_sourced g res t c : res <> 0%nat -> Forall (fun x => sourced x = true) (type_generics g) ->
  Forall (fun x => sourced x = true) (method_generics g) -> make_concrete g res t = inr c -> sourced c = true.
Proof.
  intros Hr Ht Hm. rewrite Forall_forall in Ht, Hm. revert c. induction t as [b IH|i|i] using mt_ind; simpl; intros c.
  - set (parts := bt_map (make_concrete g res) b). destruct (last_error (children parts)) eqn:He; [done|]. intros [= <-].
    apply sourced_spec. split; [done|]. intros c Hc. rewrite children_map in Hc. apply list_elem_of_fmap in Hc as (r & -> & Hin).
    pose proof (proj1 (last_error_none _) He r Hin) as [a ->]. simpl. unfold parts in Hin. rewrite children_map in Hin.
    apply list_elem_of_fmap in Hin as (t & Hta & Hin). by apply (IH t).
  - unfold lookup_type_generic, lookup_method_generic_with_fallback_indices. destruct (type_generics g !! i) eqn:Hi.
    { intros [= <-]. apply Ht. by eapply list_elem_of_lookup_2. }
    destruct (first_at _ _) eqn:Hf; [|done]. intros [= <-]. apply Hm. by eapply first_at_in.
  - unfold lookup_method_generic, lookup_method_generic_with_fallback_indices. destruct (method_generics g !! i) eqn:Hi.
    { intros [= <-]. apply Hm. by eapply list_elem_of_lookup_2. }
    destruct (first_at (method_generics g) _) eqn:Hf; [intros [= <-]; apply Hm; by eapply first_at_in|].
    destruct (first_at (type_generics g) _) eqn:Hg; [|done]. intros [= <-]. apply Ht. by eapply first_at_in.
Qed.

(** Equal arguments give equal types. *)
Definition strip_result (r : TypeResolutionError + ConcreteType) : TypeResolutionError + ConcreteType :=
  match r with inl e => inl e | inr c => inr (strip c) end.

Lemma lookup_map_strip (l l' : list ConcreteType) i : map strip l = map strip l' ->
  strip <$> (l !! i) = strip <$> (l' !! i).
Proof. intros H. pose proof (f_equal (fun l => l !! i) H) as Hi. simpl in Hi. by rewrite !list_lookup_fmap in Hi. Qed.

Lemma first_at_strip l l' cs : map strip l = map strip l' -> strip <$> first_at l cs = strip <$> first_at l' cs.
Proof.
  intros H. induction cs as [|[i|] cs IH]; simpl; [done| |done].
  pose proof (lookup_map_strip l l' i H) as Hi. destruct (l !! i), (l' !! i); simpl in *; done.
Qed.

Arguments first_at : simpl never.

Lemma strip_length (l l' : list ConcreteType) : map strip l = map strip l' -> length l = length l'.
Proof. intros H%(f_equal length). by rewrite !length_map in H. Qed.

Section proper.
Context (g h : GenericLookup).
Hypothesis Ht : map strip (type_generics g) = map strip (type_generics h).
Hypothesis Hm : map strip (method_generics g) = map strip (method_generics h).

Lemma fallback_strip i :
  strip <$> lookup_method_generic_with_fallback_indices g i = strip <$> lookup_method_generic_with_fallback_indices h i.
Proof.
  unfold lookup_method_generic_with_fallback_indices. rewrite (strip_length _ _ Ht), (strip_length _ _ Hm). by apply first_at_strip.
Qed.

Lemma lookup_type_strip i : strip_result (lookup_type_generic g i) = strip_result (lookup_type_generic h i).
Proof.
  unfold lookup_type_generic. pose proof (lookup_map_strip _ _ i Ht) as H1. pose proof (fallback_strip i) as H2.
  destruct (type_generics g !! i), (type_generics h !! i); simplify_eq/=; [congruence|].
  destruct (lookup_method_generic_with_fallback_indices g i), (lookup_method_generic_with_fallback_indices h i); simplify_eq/=; [congruence|].
  by rewrite (strip_length _ _ Ht).
Qed.

Lemma lookup_method_strip i : strip_result (lookup_method_generic g i) = strip_result (lookup_method_generic h i).
Proof.
  unfold lookup_method_generic. pose proof (lookup_map_strip _ _ i Hm) as H1. pose proof (fallback_strip i) as H2.
  destruct (method_generics g !! i), (method_generics h !! i); simplify_eq/=; [congruence|].
  destruct (lookup_method_generic_with_fallback_indices g i), (lookup_method_generic_with_fallback_indices h i); simplify_eq/=; [congruence|].
  rewrite (strip_length _ _ Hm).
  match goal with |- context [first_at (type_generics g) ?cs] => pose proof (first_at_strip _ _ cs Ht) as H3 end.
  destruct (first_at (type_generics g) _), (first_at (type_generics h) _); simplify_eq/=; congruence.
Qed.

Lemma last_error_strip l :
  last_error (map strip_result l) = last_error l.
Proof. induction l as [|[] l IH]; simpl; rewrite ?IH; done. Qed.

Lemma make_concrete_strip res t : strip_result (make_concrete g res t) = strip_result (make_concrete h res t).
Proof.
  induction t as [b IH|i|i] using mt_ind; simpl; [|apply lookup_type_strip | apply lookup_method_strip].
  assert (Hb : bt_map strip_result (bt_map (make_concrete g res) b) = bt_map strip_result (bt_map (make_concrete h res) b)).
  { rewrite !bt_map_map. by apply bt_map_ext. }
  set (bg := bt_map (make_concrete g res) b) in *. set (bh := bt_map (make_concrete h res) b) in *. clearbody bg bh.
  assert (He : last_error (children bg) = last_error (children bh)).
  { rewrite <- (last_error_strip (children bg)), <- (last_error_strip (children bh)), <- !children_map. by rewrite Hb. }
  rewrite He. destruct (last_error (children bh)); [done|]. simpl. f_equal. f_equal. rewrite !bt_map_map.
  assert (Hr : forall x, strip (result_or (CT res (BPrim Boolean)) x) = result_or (CT res (BPrim Boolean)) (strip_result x))
    by by intros [].
  rewrite (bt_map_ext _ (fun x => result_or (CT res (BPrim Boolean)) (strip_result x)) bg) by auto.
  rewrite (bt_map_ext _ (fun x => result_or (CT res (BPrim Boolean)) (strip_result x)) bh) by auto.
  rewrite <- (bt_map_map strip_result _ bg), <- (bt_map_map strip_result _ bh). by rewrite Hb.
Qed.
End proper.

(** ** The cache of [make_lookup]

    What the lookup cache relies on of the least-recently-used cache: a value that is
    found was stored under an equal key. *)

Class LruCache (cache V : Type) : Type := {
  lru_get : ConcreteType -> cache -> option V * cache;
  lru_put : ConcreteType -> V -> cache -> cache;
  lru_entry : cache -> ConcreteType -> V -> Prop;
}.

Class LruLaws (cache V : Type) `{LruCache cache V} : Prop := {
  get_entry k c v c' : lru_get k c = (Some v, c') -> exists k', ct_eqb k k' = true /\ lru_entry c k' v;
  get_keeps k c o c' k' v : lru_get k c = (o, c') -> lru_entry c' k' v -> lru_entry c k' v;
  put_entry k v c k' v' : lru_entry (lru_put k v c) k' v' -> lru_entry c k' v' \/ (ct_eqb k k' = true /\ v' = v);
}.

Section make_lookup.
Context (finish : list Z -> Z) {cache : Type} `{LruLaws cache (list ConcreteType)}.

Definition make_lookup (self : ConcreteType) (c : cache) : GenericLookup * cache :=
  match type_parameters self with
  | Some ps =>
      match lru_get self c with
      | (Some tg, c) => (from_type_arc finish tg, c)
      | (None, c) => (from_type_arc finish ps, lru_put self ps c)
      end
  | None => (default_lookup finish, c)
  end.

(** Every cached value is the arguments of its key, up to value kinds. *)
Definition cache_ok (c : cache) : Prop :=
  forall k v, lru_entry c k v -> exists ps, type_parameters k = Some ps /\ map strip v = map strip ps.

Lemma equal_parameters c d ps : ct_eqb c d = true -> type_parameters c = Some ps ->
  exists qs, type_parameters d = Some qs /\ map strip ps = map strip qs.
Proof.
  intros Heq%ct_eqb_strip Hp. destruct c as [s [[u|u l] k|p|m x|x a|m x|f]], d as [r [[v|v l'] k'|q|n y|y b|n y|f']]; simpl in *; try done.
  injection Hp as <-. injection Heq as -> -> Hl. eauto.
Qed.

Lemma map_strip_eqb l l' : all2 ct_eqb l l' = true <-> map strip l = map strip l'.
Proof. apply all2_decides. intros x _ y. apply ct_eqb_strip. Qed.

Lemma make_lookup_spec self c g c' :
  cache_ok c -> make_lookup self c = (g, c') ->
  cache_ok c' /\ gl_eqb g (new_lookup finish (default [] (type_parameters self))) = true /\
  gl_hash g = gl_hash (new_lookup finish (default [] (type_parameters self))).
Proof.
  intros Hc. unfold make_lookup. destruct (type_parameters self) as [ps|] eqn:Hp; [|by intros [= <- <-]].
  assert (Hgo : forall tg, map strip tg = map strip ps ->
    gl_eqb (from_type_arc finish tg) (new_lookup finish ps) = true /\ gl_hash (from_type_arc finish tg) = gl_hash (new_lookup finish ps)).
  { intros tg Hs. split; [unfold gl_eqb; simpl; by rewrite (proj2 (map_strip_eqb _ _) Hs)|]. simpl. unfold compute_hash. do 2 f_equal.
    unfold hash_list. rewrite (strip_length _ _ Hs). f_equal. f_equal.
    assert (Hh : forall l, map (fun c => [ct_hash finish c]) l = map (fun c => [ct_hash finish c]) (map strip l)).
    { intros l. rewrite map_map. apply map_ext. intros x. by rewrite ct_hash_strip. }
    by rewrite (Hh tg), (Hh ps), Hs. }
  destruct (lru_get self c) as [[tg|] c1] eqn:Hg; intros [= <- <-].
  - destruct (get_entry _ _ _ _ Hg) as (k' & Hk & He). destruct (Hc _ _ He) as (qs & Hq & Hs).
    destruct (equal_parameters _ _ _ Hk Hp) as (qs' & Hq' & Hs'). rewrite Hq in Hq'. simplify_eq.
    split; [|apply Hgo; congruence]. intros k v Hkv. apply Hc. by eapply get_keeps.
  - split; [|by apply Hgo]. intros k v [Hkv|[Hk ->]]%put_entry; [apply Hc; by eapply get_keeps|]. by eapply equal_parameters.
Qed.
(** The lookups of a thread, one after the other. *)
Fixpoint lookups (selves : list ConcreteType) (c : cache) : list GenericLookup :=
  match selves with
  | [] => []
  | self :: selves => let '(g, c) := make_lookup self c in g :: lookups selves c
  end.

(** The cache of generic arguments is transparent: over any sequence of lookups, whatever
    the cache evicts, each answer is equal to the arguments of its type, with the same
    hash, as if there were no cache. *)
Theorem lookup_cache_transparent selves c : cache_ok c ->
  Forall2 (fun self g => gl_eqb g (new_lookup finish (default [] (type_parameters self))) = true /\
                         gl_hash g = gl_hash (new_lookup finish (default [] (type_parameters self)))) selves (lookups selves c).
Proof.
  revert c. induction selves as [|self selves IH]; intros c Hc; simpl; [constructor|].
  destruct (make_lookup self c) as [g c'] eqn:E. destruct (make_lookup_spec _ _ _ _ Hc E) as (Hc' & Hg). constructor; [done|]. by apply IH.
Qed.

End make_lookup.

(** A cache as a list, the entry used last in front. *)
Definition capacity : nat := 512.

#[export] Instance list_cache : LruCache (list (ConcreteType * list ConcreteType)) (list ConcreteType) := {
  lru_get k c :=
    match list_find (fun e => ct_eqb k e.1 = true) c with
    | Some (i, (k', v)) => (Some v, (k', v) :: delete i c)
    | None => (None, c)
    end;
  lru_put k v c := take capacity ((k, v) :: filter (fun e => ct_eqb k e.1 = false) c);
  lru_entry c k v := (k, v) ∈ c;
}.

#[export] Instance list_cache_laws : LruLaws (list (ConcreteType * list ConcreteType)) (list ConcreteType).
Proof.
  split; unfold lru_get, lru_put, lru_entry; simpl.
  - intros k c v c'. destruct (list_find _ c) as [[i [k' v']]|] eqn:E; [|done]. intros [= <- <-].
    apply list_find_Some in E as (Hi & Hk & _). exists k'. split; [done|]. by eapply list_elem_of_lookup_2.
  - intros k c o c' k' v'. destruct (list_find _ c) as [[i [k1 v1]]|] eqn:E; intros [= <- <-]; [|done].
    apply list_find_Some in E as (Hi & _). intros [[= -> ->]|Hin]%elem_of_cons; [by eapply list_elem_of_lookup_2|].
    apply list_elem_of_lookup in Hin as [j Hj]. apply list_elem_of_lookup.
    destruct (decide (j < i)%nat); [rewrite list_lookup_delete_lt in Hj by done; eauto | rewrite list_lookup_delete_ge in Hj by lia; eauto].
  - intros k v c k' v' Hin. change (take capacity (?x :: ?l)) with (x :: take (pred capacity) l) in Hin.
    apply elem_of_cons in Hin as [[= -> ->]|Hin]; [right; split; [|done]; by apply ct_eqb_strip|].
    left. apply elem_of_take in Hin as (i & Hi & _). apply list_elem_of_lookup_2 in Hi. by apply list_elem_of_filter in Hi as [_ ?].
Qed.

Definition int32 : ConcreteType := CT 1 (BPrim Int32).
Definition list_of (k : option ValueKind) (t : ConcreteType) : ConcreteType := CT 1 (BType (Generic (Definition_ 2) [t]) k).

Lemma lookup_cache_transparent_witness :
  let selves := [list_of None int32; list_of (Some Class_) int32; int32] in
  Forall2 (fun self g => gl_eqb g (new_lookup (fun _ => 0) (default [] (type_parameters self))) = true /\
                         gl_hash g = gl_hash (new_lookup (fun _ => 0) (default [] (type_parameters self))))
    selves (lookups (fun _ => 0) selves ([] : list (ConcreteType * list ConcreteType))).
Proof. intros selves. apply (lookup_cache_transparent (fun _ => 0) selves []). intros k v Hkv. by apply elem_of_nil in Hkv. Defined.
