(* ===== verification/FrameAlloc.v ===== *)
(** * Frame-owned memory

    [RawBlock] of [dotnet-utils/src/raw_block.rs], and the ledger
    [FrameAllocations] with its per-request, per-frame and per-thread limits of
    [dotnet-vm-data/src/frame_alloc.rs].  The global allocator is an argument
    [alloc_fn], as it is of [RawBlock::zeroed_with]: it answers a layout with an
    address, 0 standing for null.  The two thread-local gauges are the record
    [gauges]; [thread] is one thread with the ledgers of its live frames, and
    [thread_step] the operations the VM runs on it. *)

From Stdlib Require Import ZArith Lia.
From stdpp Require Import base tactics list gmap.
From S2P Require Import Prelude.

Module RawBlocks.

Inductive RawBlockError : Set := InvalidAlignment | LayoutOverflow | AllocationFailed.

(** [std::alloc::Layout]. *)
Record Layout : Set := { layout_size : Z; layout_align : Z }.

Record RawBlock : Set := { base : Z; payload_len : Z; layout : Layout }.

(** The thread-local gauges [THREAD_BYTES] and [LIVE_BLOCKS]. *)
Record gauges : Set := { thread_bytes : Z; live_blocks : Z }.

Definition set_thread_bytes (g : gauges) (n : Z) : gauges :=
  {| thread_bytes := n; live_blocks := live_blocks g |}.

Definition set_live_blocks (g : gauges) (n : Z) : gauges :=
  {| thread_bytes := thread_bytes g; live_blocks := n |}.

Definition is_power_of_two (n : Z) : bool := (0 <? n) && (Z.land n (n - 1) =? 0).

(** [Layout::from_size_align]: the alignment is a power of two and the size,
    rounded up to it, does not exceed [isize::MAX]. *)
Definition from_size_align (size align : Z) : option Layout :=
  if is_power_of_two align && (size <=? int_max isize - (align - 1))
  then Some {| layout_size := size; layout_align := align |} else None.

Definition zeroed_with (payload align : Z) (alloc_fn : Layout -> Z) (g : gauges)
  : outcome RawBlockError (RawBlock * gauges) :=
  if negb (is_power_of_two align) then Err InvalidAlignment
  else
    let* l := ok_or (from_size_align (Z.max payload 1) (Z.max align 16)) LayoutOverflow in
    let a := alloc_fn l in
    if a =? 0 then Err AllocationFailed
    else
      let* n := arith usize (live_blocks g + 1) in
      Val ({| base := a; payload_len := payload; layout := l |}, set_live_blocks g n).

Definition accounted_bytes (b : RawBlock) : Z := Z.max (layout_size (layout b)) 64.

Definition ptr_at (b : RawBlock) (offset : Z) : option Z :=
  if payload_len b <? offset then None else Some (base b + offset).

(** [Drop for RawBlock]: the gauge's share of it. *)
Definition drop_block (g : gauges) : outcome RawBlockError gauges :=
  let* n := arith usize (live_blocks g - 1) in
  Val (set_live_blocks g n).

Lemma zeroed_with_val payload align f g b g' :
  zeroed_with payload align f g = Val (b, g') ->
  payload_len b = payload /\ layout_size (layout b) = Z.max payload 1 /\
  layout_align (layout b) = Z.max align 16 /\ is_power_of_two (layout_align (layout b)) = true /\
  base b = f (layout b) /\ base b <> 0 /\
  g' = set_live_blocks g (live_blocks g + 1) /\ live_blocks g + 1 <= int_max usize.
Proof.
  unfold zeroed_with, from_size_align, ok_or, arith, obind. intros H.
  repeat (split_match; simplify_eq/=).
  repeat match goal with
  | E : in_range _ _ = true |- _ => apply in_range_spec in E; unfold is_range in E
  end.
  bool_to_prop. intuition (try lia).
Qed.

End RawBlocks.

Module Ledger.
Import RawBlocks.

Record FrameBudget : Set := { max_request : Z; per_frame : Z; per_thread : Z }.

Definition DEFAULT : FrameBudget :=
  {| max_request := 0x8000000; per_frame := 0x8000000; per_thread := 0x20000000 |}.

Inductive FrameAllocationError : Set :=
| NegativeSize
| RequestTooLarge
| FrameBudgetExceeded
| ThreadBudgetExceeded
| HostAllocationFailed (e : RawBlockError).

Definition check_request (b : FrameBudget) (size : Z) : outcome FrameAllocationError unit :=
  if max_request b <? size then Err RequestTooLarge else Val tt.

Record FrameAllocations : Set := { blocks : list RawBlock; used : Z }.

Definition empty_ledger : FrameAllocations := {| blocks := []; used := 0 |}.

(** [usize::try_from(isize)]. *)
Definition request_size (size : Z) : outcome FrameAllocationError Z :=
  if size <? 0 then Err NegativeSize else Val size.

Definition charge (size : Z) : Z := Z.max size 64.

(** [counter.checked_add(charge).filter(|t| t <= limit).ok_or(e)]. *)
Definition reserve (counter c limit : Z) (e : FrameAllocationError)
  : outcome FrameAllocationError Z :=
  match checked usize (counter + c) with
  | Some total => if total <=? limit then Val total else Err e
  | None => Err e
  end.

Definition allocate_external (fa : FrameAllocations) (g : gauges) (alloc_fn : Layout -> Z)
    (size alignment : Z) (b : FrameBudget)
  : outcome FrameAllocationError (RawBlock * FrameAllocations * gauges) :=
  check_request b size ;*
  let* frame_bytes := reserve (used fa) (charge size) (per_frame b) FrameBudgetExceeded in
  let* tbytes := reserve (thread_bytes g) (charge size) (per_thread b) ThreadBudgetExceeded in
  let* (block, g') := omap_err HostAllocationFailed (zeroed_with size alignment alloc_fn g) in
  Val (block, {| blocks := blocks fa; used := frame_bytes |}, set_thread_bytes g' tbytes).

(** [reserved] is the answer of [blocks.try_reserve(1)]. *)
Definition allocate_within (fa : FrameAllocations) (g : gauges) (alloc_fn : Layout -> Z)
    (reserved : bool) (size : Z) (b : FrameBudget)
  : outcome FrameAllocationError (Z * FrameAllocations * gauges) :=
  if negb reserved then Err (HostAllocationFailed AllocationFailed)
  else
    let* (block, fa', g') := allocate_external fa g alloc_fn size 16 b in
    Val (base block, {| blocks := blocks fa' ++ [block]; used := used fa' |}, g').

Definition allocate (fa : FrameAllocations) (g : gauges) (alloc_fn : Layout -> Z)
    (reserved : bool) (size : Z)
  : outcome FrameAllocationError (Z * FrameAllocations * gauges) :=
  allocate_within fa g alloc_fn reserved size DEFAULT.

Fixpoint drop_blocks (bs : list RawBlock) (g : gauges) : outcome RawBlockError gauges :=
  match bs with
  | [] => Val g
  | _ :: bs => let* g := drop_block g in drop_blocks bs g
  end.

(** [release_all], also the body of [Drop for FrameAllocations]; the gauge is
    reachable (the thread is not being destroyed). *)
Definition release_all (fa : FrameAllocations) (g : gauges)
  : outcome RawBlockError (FrameAllocations * gauges) :=
  let* g := drop_blocks (blocks fa) g in
  let* n := arith usize (thread_bytes g - used fa) in
  Val (empty_ledger, set_thread_bytes g n).

(** ** One thread *)

(** A thread: its gauges, the ledgers of its frames, and the number of blocks
    [allocate_external] handed to other components and not dropped yet. *)
Record thread : Set := {
  gs : gauges;
  ledgers : gmap nat FrameAllocations;
  external : Z;
}.

Definition thread0 : thread :=
  {| gs := {| thread_bytes := 0; live_blocks := 0 |}; ledgers := ∅; external := 0 |}.

Inductive thread_step : thread -> thread -> Prop :=
| step_frame t i :
    ledgers t !! i = None ->
    thread_step t {| gs := gs t; ledgers := <[i := empty_ledger]> (ledgers t);
                     external := external t |}
| step_allocate t i fa f r size a fa' g' :
    ledgers t !! i = Some fa -> is_range usize size ->
    allocate fa (gs t) f r size = Val (a, fa', g') ->
    thread_step t {| gs := g'; ledgers := <[i := fa']> (ledgers t); external := external t |}
| step_external t i fa f size al blk fa' g' :
    ledgers t !! i = Some fa -> is_range usize size ->
    allocate_external fa (gs t) f size al DEFAULT = Val (blk, fa', g') ->
    thread_step t {| gs := g'; ledgers := <[i := fa']> (ledgers t); external := external t + 1 |}
| step_drop_external t g' :
    0 < external t -> drop_block (gs t) = Val g' ->
    thread_step t {| gs := g'; ledgers := ledgers t; external := external t - 1 |}
| step_release t i fa fa' g' :
    ledgers t !! i = Some fa -> release_all fa (gs t) = Val (fa', g') ->
    thread_step t {| gs := g'; ledgers := <[i := fa']> (ledgers t); external := external t |}
| step_pop t i fa fa' g' :
    ledgers t !! i = Some fa -> release_all fa (gs t) = Val (fa', g') ->
    thread_step t {| gs := g'; ledgers := delete i (ledgers t); external := external t |}.

(** The sums the gauges stand for. *)
Definition sum_used (m : gmap nat FrameAllocations) : Z := map_sum used m.

Definition block_count (fa : FrameAllocations) : Z := Z.of_nat (length (blocks fa)).

Definition sum_blocks (m : gmap nat FrameAllocations) : Z := map_sum block_count m.

(** What the blocks of a frame are charged with. *)
Definition block_bytes (fa : FrameAllocations) : Z :=
  foldr (fun b n => charge (payload_len b) + n) 0 (blocks fa).

Record ledger_inv (t : thread) : Prop := {
  inv_bytes : thread_bytes (gs t) = sum_used (ledgers t);
  inv_live : live_blocks (gs t) = sum_blocks (ledgers t) + external t;
  inv_external : 0 <= external t;
  inv_frame : forall i fa, ledgers t !! i = Some fa -> 0 <= used fa <= per_frame DEFAULT;
  inv_owned : forall i fa, ledgers t !! i = Some fa -> block_bytes fa <= used fa;
  inv_thread : thread_bytes (gs t) <= per_thread DEFAULT;
  inv_counter : live_blocks (gs t) <= int_max usize;
}.

(** ** Lemmas *)

Lemma reserve_val counter c limit e n :
  reserve counter c limit e = Val n -> n = counter + c /\ n <= limit /\ is_range usize n.
Proof.
  unfold reserve. destruct (checked usize _) eqn:E; [|done].
  apply checked_some in E as [-> Hr]. destruct (_ <=? _) eqn:El; [|done].
  bool_to_prop. intros [= <-]. auto.
Qed.

Lemma allocate_external_val fa g f size al b blk fa' g' :
  allocate_external fa g f size al b = Val (blk, fa', g') ->
  blocks fa' = blocks fa /\ used fa' = used fa + charge size /\ used fa' <= per_frame b /\
  thread_bytes g' = thread_bytes g + charge size /\ thread_bytes g' <= per_thread b /\
  live_blocks g' = live_blocks g + 1 /\ live_blocks g' <= int_max usize /\
  size <= max_request b /\ exists gz, zeroed_with size al f g = Val (blk, gz).
Proof.
  unfold allocate_external, check_request. destruct (max_request b <? size) eqn:Hm; [done|].
  simpl. intros (fb & [-> [? ?]]%reserve_val & Hk)%obind_val.
  apply obind_val in Hk as (tb & [-> [? ?]]%reserve_val & Hz1).
  apply obind_val in Hz1 as ([blk' gz] & Hz & Hk). simplify_eq/=.
  destruct (zeroed_with size al f g) eqn:E; simplify_eq/=.
  pose proof (zeroed_with_val _ _ _ _ _ _ E) as Hv. bool_to_prop.
  destruct Hv as (_ & _ & _ & _ & _ & _ & -> & ?). simpl. eauto 12.
Qed.

Lemma allocate_within_val fa g f r size b a fa' g' :
  allocate_within fa g f r size b = Val (a, fa', g') ->
  exists blk fa1, allocate_external fa g f size 16 b = Val (blk, fa1, g') /\
    a = base blk /\ blocks fa' = blocks fa ++ [blk] /\ used fa' = used fa1.
Proof.
  unfold allocate_within. destruct r; [simpl|done].
  intros ([[blk fa1] g1] & He & H)%obind_val. simplify_eq.
  pose proof (allocate_external_val _ _ _ _ _ _ _ _ _ He) as (Hb & _).
  exists blk, fa1. rewrite <- Hb. auto.
Qed.

Lemma drop_blocks_val bs g :
  is_range usize (live_blocks g) -> Z.of_nat (length bs) <= live_blocks g ->
  drop_blocks bs g = Val (set_live_blocks g (live_blocks g - Z.of_nat (length bs))).
Proof.
  revert g. induction bs as [|b bs IH]; intros [tb n] Hr Hl; simpl in *.
  { do 2 f_equal. lia. }
  unfold drop_block. simpl. rewrite arith_ok by (int_bounds; lia). simpl.
  rewrite IH; simpl; [|int_bounds; lia..]. unfold set_live_blocks. simpl. do 2 f_equal. lia.
Qed.

Section inv.
Context (t : thread) (Hinv : ledger_inv t).

Lemma inv_used_le i fa : ledgers t !! i = Some fa -> used fa <= thread_bytes (gs t).
Proof.
  intros. rewrite inv_bytes by done. eapply (map_sum_lookup_le used); [|done].
  intros. by eapply inv_frame.
Qed.

Lemma inv_blocks_le i fa : ledgers t !! i = Some fa -> block_count fa <= live_blocks (gs t).
Proof.
  intros. rewrite inv_live by done. pose proof (inv_external t Hinv).
  enough (block_count fa <= sum_blocks (ledgers t)) by lia.
  eapply (map_sum_lookup_le block_count); [|done]. unfold block_count. lia.
Qed.

Lemma inv_live_range : is_range usize (live_blocks (gs t)).
Proof.
  pose proof (inv_counter t Hinv). pose proof (inv_external t Hinv).
  assert (0 <= sum_blocks (ledgers t)) by (apply map_sum_nonneg; unfold block_count; lia).
  pose proof (inv_live t Hinv). unfold is_range. int_bounds. lia.
Qed.

Lemma release_all_val i fa :
  ledgers t !! i = Some fa ->
  release_all fa (gs t) =
    Val (empty_ledger, {| thread_bytes := thread_bytes (gs t) - used fa;
                          live_blocks := live_blocks (gs t) - block_count fa |}).
Proof.
  intros H. unfold release_all.
  rewrite drop_blocks_val by (eauto using inv_live_range, inv_blocks_le). simpl.
  pose proof (inv_used_le i fa H). pose proof (inv_frame t Hinv i fa H).
  pose proof (inv_thread t Hinv). simpl in *.
  by rewrite arith_ok by (int_bounds; lia).
Qed.
End inv.

Lemma ledger_inv_init : ledger_inv thread0.
Proof. by split. Qed.

Lemma charge_bounds size : 64 <= charge size.
Proof. unfold charge. lia. Qed.

(** Replacing one ledger by one that grew by [c] bytes and [n] blocks. *)
Lemma ledger_inv_grow t i fa fa' g' c n e :
  ledger_inv t -> ledgers t !! i = Some fa -> 0 <= c -> 0 <= e ->
  used fa' = used fa + c -> block_count fa' = block_count fa + n ->
  block_bytes fa' <= used fa' ->
  used fa' <= per_frame DEFAULT -> thread_bytes g' = thread_bytes (gs t) + c ->
  thread_bytes g' <= per_thread DEFAULT ->
  live_blocks g' = live_blocks (gs t) + n + (e - external t) -> live_blocks g' <= int_max usize ->
  ledger_inv {| gs := g'; ledgers := <[i := fa']> (ledgers t); external := e |}.
Proof.
  intros Hinv Hi ? ? Hu Hb Hbb ? Ht ? Hl ?.
  split; simpl; try done.
  - unfold sum_used. rewrite (map_sum_update used _ _ fa) by done.
    fold (sum_used (ledgers t)). rewrite <- inv_bytes by done. lia.
  - unfold sum_blocks. rewrite (map_sum_update block_count _ _ fa) by done.
    fold (sum_blocks (ledgers t)). pose proof (inv_live t Hinv). lia.
  - intros j fb. destruct (decide (i = j)) as [<-|].
    + rewrite lookup_insert_eq. intros [= <-]. pose proof (inv_frame t Hinv i fa Hi). simpl in *. lia.
    + rewrite lookup_insert_ne by done. by apply inv_frame.
  - intros j fb [[<- <-]|[_ Hj]]%lookup_insert_Some; [done | by eapply inv_owned].
Qed.

Lemma ledger_inv_release t i fa g' :
  ledger_inv t -> ledgers t !! i = Some fa -> release_all fa (gs t) = Val (empty_ledger, g') ->
  ledger_inv {| gs := g'; ledgers := <[i := empty_ledger]> (ledgers t); external := external t |}.
Proof.
  intros Hinv Hi H. rewrite (release_all_val t Hinv i fa Hi) in H. simplify_eq.
  pose proof (inv_frame t Hinv i fa Hi). pose proof (inv_thread t Hinv).
  pose proof (inv_counter t Hinv). unfold block_count in *.
  split; simpl in *; try done; try lia.
  - unfold sum_used. rewrite (map_sum_update used _ _ fa) by done.
    fold (sum_used (ledgers t)). rewrite <- inv_bytes by done. simpl. lia.
  - unfold sum_blocks. rewrite (map_sum_update block_count _ _ fa) by done.
    fold (sum_blocks (ledgers t)). pose proof (inv_live t Hinv). unfold block_count. simpl. lia.
  - by apply inv_external.
  - intros j fb. destruct (decide (i = j)) as [<-|].
    + rewrite lookup_insert_eq. intros [= <-]. simpl. lia.
    + rewrite lookup_insert_ne by done. by apply inv_frame.
  - intros j fb [[<- <-]|[_ Hj]]%lookup_insert_Some; [by vm_compute | by eapply inv_owned].
Qed.

(** Removing an empty ledger, and adding one, leave the sums as they are. *)
Lemma ledger_inv_remove t i :
  ledger_inv t -> ledgers t !! i = Some empty_ledger ->
  ledger_inv {| gs := gs t; ledgers := delete i (ledgers t); external := external t |}.
Proof.
  intros [Hb Hl He Hf Ho Ht Hc] Hi. split; simpl; try done.
  - rewrite Hb. unfold sum_used. by rewrite (map_sum_delete used _ _ _ Hi).
  - rewrite Hl. unfold sum_blocks. by rewrite (map_sum_delete block_count _ _ _ Hi).
  - intros j fb [_ Hj]%lookup_delete_Some. eauto.
  - intros j fb [_ Hj]%lookup_delete_Some. eauto.
Qed.

Lemma ledger_inv_add t i :
  ledger_inv t -> ledgers t !! i = None ->
  ledger_inv {| gs := gs t; ledgers := <[i := empty_ledger]> (ledgers t); external := external t |}.
Proof.
  intros [Hb Hl He Hf Ho Ht Hc] Hi. split; simpl; try done.
  - rewrite Hb. unfold sum_used. by rewrite map_sum_insert.
  - rewrite Hl. unfold sum_blocks. by rewrite map_sum_insert.
  - intros j fb [[<- <-]|[_ Hj]]%lookup_insert_Some; [simpl; lia | eauto].
  - intros j fb [[<- <-]|[_ Hj]]%lookup_insert_Some; [by vm_compute | eauto].
Qed.

Lemma block_bytes_snoc fa fa' b :
  blocks fa' = blocks fa ++ [b] -> block_bytes fa' = block_bytes fa + charge (payload_len b).
Proof. intros H. unfold block_bytes. rewrite H. clear H. induction (blocks fa) as [|x l IH]; simpl in *; lia. Qed.

Lemma thread_step_inv t t' : thread_step t t' -> ledger_inv t -> ledger_inv t'.
Proof.
  intros Hstep Hinv. destruct Hstep as
    [t i Hi | t i fa f r size a fa' g' Hi Hs H | t i fa f size al blk fa' g' Hi Hs H
    | t g' Hpos H | t i fa fa' g' Hi H | t i fa fa' g' Hi H].
  - by apply ledger_inv_add.
  - apply allocate_within_val in H as (blk & fa1 & He & -> & Hb & Hu).
    apply allocate_external_val in He as (? & ? & ? & ? & ? & ? & ? & _ & gz & Hz).
    pose proof (charge_bounds size). pose proof (inv_external t Hinv).
    eapply (ledger_inv_grow t i fa fa' g' (charge size) 1); try done; try lia.
    + unfold block_count. rewrite Hb, length_app. simpl. lia.
    + apply zeroed_with_val in Hz as [Hp _]. rewrite (block_bytes_snoc fa fa' blk Hb), Hp.
      pose proof (inv_owned t Hinv i fa Hi). lia.
  - apply allocate_external_val in H as (Hb & ? & ? & ? & ? & ? & ? & _).
    pose proof (charge_bounds size). pose proof (inv_external t Hinv).
    eapply (ledger_inv_grow t i fa fa' g' (charge size) 0); try done; try lia.
    + unfold block_count. rewrite Hb. lia.
    + pose proof (inv_owned t Hinv i fa Hi). unfold block_bytes in *. rewrite Hb. lia.
  - unfold drop_block in H. apply obind_val in H as (n & [-> ?]%arith_val & [= <-]).
    destruct Hinv as [Hb Hl He Hf Ho Ht Hc]. split; simpl; try done; lia.
  - pose proof (release_all_val t Hinv i fa Hi) as Hr. rewrite Hr in H. simplify_eq.
    by eapply ledger_inv_release.
  - pose proof (release_all_val t Hinv i fa Hi) as Hr. rewrite Hr in H. simplify_eq.
    pose proof (ledger_inv_release t i fa _ Hinv Hi Hr) as Hinv'.
    apply (ledger_inv_remove _ i) in Hinv'; simpl in *; [|apply lookup_insert_eq].
    by rewrite delete_insert_eq in Hinv'.
Qed.

Lemma ledger_reachable t : rtc thread_step thread0 t -> ledger_inv t.
Proof. apply invariant_rtc; eauto using thread_step_inv, ledger_inv_init. Qed.

Lemma from_size_align_small size :
  size <= 0x8000000 ->
  from_size_align (Z.max size 1) (Z.max 16 16) =
    Some {| layout_size := Z.max size 1; layout_align := 16 |}.
Proof.
  intros. unfold from_size_align. change (Z.max 16 16) with 16.
  change (is_power_of_two 16) with true. cbn [andb].
  destruct (_ <=? _) eqn:E; [done|]. bool_to_prop. int_bounds. lia.
Qed.

Lemma reserve_ok counter c limit e :
  0 <= counter + c <= limit -> limit <= int_max usize -> reserve counter c limit e = Val (counter + c).
Proof.
  intros. unfold reserve, checked.
  replace (in_range usize (counter + c)) with true
    by (symmetry; apply in_range_spec; unfold is_range; int_bounds; lia).
  destruct (_ <=? _) eqn:E; [done|]. bool_to_prop. lia.
Qed.

(** C6.  In every state a thread reaches by creating frames, allocating under the default
    limits, releasing and popping them in any order, the byte gauge is the sum of what
    its frames have charged, and the block gauge the number of the blocks its frames own
    and of those they handed to other components that are not dropped yet.  A frame is
    charged at least what its own blocks cost; no frame and no thread is over its
    limit; and releasing any frame succeeds (the subtractions never underflow) and
    gives back exactly its charge and its blocks. *)
Theorem thread_ledger_sound t :
  rtc thread_step thread0 t ->
  thread_bytes (gs t) = sum_used (ledgers t) /\
  live_blocks (gs t) = sum_blocks (ledgers t) + external t /\ 0 <= external t /\
  thread_bytes (gs t) <= per_thread DEFAULT /\
  forall i fa, ledgers t !! i = Some fa ->
    block_bytes fa <= used fa <= per_frame DEFAULT /\
    release_all fa (gs t) =
      Val (empty_ledger, {| thread_bytes := thread_bytes (gs t) - used fa;
                            live_blocks := live_blocks (gs t) - block_count fa |}).
Proof.
  intros H%ledger_reachable. split; [by apply inv_bytes|]. split; [by apply inv_live|]. split; [by apply inv_external|].
  split; [by apply inv_thread|]. intros i fa Hi. split; [|by eapply release_all_val].
  split; [by eapply inv_owned | by eapply inv_frame].
Qed.

Lemma thread_ledger_sound_witness :
  exists t, rtc thread_step thread0 t /\ thread_bytes (gs t) = 164 /\
    sum_used (ledgers t) = 164.
Proof.
  assert (H : rtc thread_step thread0
    {| gs := {| thread_bytes := 164; live_blocks := 2 |};
       ledgers := <[0%nat := {| blocks := [ {| base := 4096; payload_len := 100;
                     layout := {| layout_size := 100; layout_align := 16 |} |};
                     {| base := 4096; payload_len := 0;
                     layout := {| layout_size := 1; layout_align := 16 |} |} ]; used := 164 |}]>
                  (<[0%nat := {| blocks := [ {| base := 4096; payload_len := 100;
                     layout := {| layout_size := 100; layout_align := 16 |} |} ]; used := 100 |}]>
                  (<[0%nat := empty_ledger]> ∅)); external := 0 |}).
  { eapply rtc_l; [eapply (step_frame _ 0%nat); reflexivity|].
    eapply rtc_l; [eapply (step_allocate _ 0%nat _ (fun _ => 4096) true 100);
                   [reflexivity | split; vm_compute; discriminate | vm_compute; reflexivity]|].
    eapply rtc_l; [eapply (step_allocate _ 0%nat _ (fun _ => 4096) true 0);
                   [reflexivity | split; vm_compute; discriminate | vm_compute; reflexivity]|].
    apply rtc_refl. }
  eexists. split; [exact H|]. split; [reflexivity|].
  destruct (thread_ledger_sound _ H) as [Hs _]. rewrite <- Hs. reflexivity.
Defined.

(**  With a live allocator and room for one more block, a [localloc] request
    succeeds exactly when the request, the frame and the thread stay within the
    default limits, each block being charged at least 64 bytes. *)
Theorem allocate_succeeds_iff fa g f size :
  0 <= size -> 0 <= used fa -> 0 <= thread_bytes g ->
  0 <= live_blocks g < int_max usize -> (forall l, f l <> 0) ->
  (exists r, allocate fa g f true size = Val r) <->
  size <= 0x8000000 /\ used fa + Z.max size 64 <= 0x8000000 /\
  thread_bytes g + Z.max size 64 <= 0x20000000.
Proof.
  intros Hs Hu Ht Hl Hf. split.
  - intros [[[a fa'] g'] H]. apply allocate_within_val in H as (blk & fa1 & H & _).
    apply allocate_external_val in H as (_ & Hu' & ? & Ht' & ? & _ & _ & ? & _).
    unfold charge in *. simpl in *. lia.
  - intros (Hm & Hfr & Hth). unfold allocate, allocate_within, allocate_external, check_request, charge.
    simpl. destruct (_ <? _) eqn:E; bool_to_prop; [lia|]. simpl.
    rewrite reserve_ok by (int_bounds; lia). simpl. rewrite reserve_ok by (int_bounds; lia). simpl.
    unfold zeroed_with. change (is_power_of_two 16) with true. cbn [negb].
    rewrite from_size_align_small by lia. simpl.
    destruct (f _ =? 0) eqn:Ef; bool_to_prop; [by apply Hf in Ef|].
    rewrite arith_ok by (int_bounds; lia). simpl. eauto.
Qed.

Lemma allocate_succeeds_iff_witness :
  exists r, allocate empty_ledger {| thread_bytes := 0x1FFFFFC0; live_blocks := 3 |}
              (fun _ => 4096) true 10 = Val r.
Proof.
  apply (allocate_succeeds_iff empty_ledger _ (fun _ => 4096) 10);
    try (intros; vm_compute; intuition congruence).
Defined.

(**  What the ledger charges for a block is the block's own accounted size
    (the debug assertion of [allocate_external] holds), and the block obtained has
    the payload asked for, a non-null base, and a power-of-two alignment of at least
    16 and at least the one asked for. *)
Theorem allocate_external_charges fa g f size al b blk fa' g' :
  allocate_external fa g f size al b = Val (blk, fa', g') ->
  used fa' = used fa + accounted_bytes blk /\
  thread_bytes g' = thread_bytes g + accounted_bytes blk /\
  used fa' <= per_frame b /\ thread_bytes g' <= per_thread b /\
  payload_len blk = size /\ base blk <> 0 /\
  is_power_of_two (layout_align (layout blk)) = true /\
  16 <= layout_align (layout blk) /\ al <= layout_align (layout blk).
Proof.
  intros (_ & Hu & ? & Ht & ? & _ & _ & _ & gz & Hz)%allocate_external_val.
  apply zeroed_with_val in Hz as (-> & Hsz & Hal & Hp & _ & Hb & _).
  unfold accounted_bytes. rewrite Hsz. unfold charge in *.
  replace (Z.max (Z.max size 1) 64) with (Z.max size 64) by lia.
  repeat split; try done; lia.
Qed.

Lemma allocate_external_charges_witness :
  exists blk fa' g',
    allocate_external empty_ledger {| thread_bytes := 0; live_blocks := 0 |} (fun _ => 4096)
      200 64 DEFAULT = Val (blk, fa', g') /\ used fa' = 0 + accounted_bytes blk.
Proof.
  eexists _, _, _. split; [vm_compute; reflexivity|].
  eapply proj1, (allocate_external_charges empty_ledger {| thread_bytes := 0; live_blocks := 0 |}
           (fun _ => 4096) 200 64 DEFAULT); vm_compute; reflexivity.
Defined.

End Ledger.
