(* ===== verification/Layout.v ===== *)
(** * Value layouts

    [LayoutManager], [Scalar] and the reference map [GcDesc] of
    [dotnet-value/src/layout.rs].  A [HashMap<FieldKey, FieldLayout>] is an
    association list with one entry per key; nothing depends on its order.  Byte
    offsets and sizes are [usize]s as [Z], and the additions and multiplications that
    panic on overflow are [arith].

    [object_refs] and [managed_ptrs] say where references lie in a layout, by
    recursion on its structure; the theorems relate the bitmap the collector walks to
    them. *)

From Stdlib Require Import ZArith Lia.
From stdpp Require Import base tactics list option strings sorting sets.
From S2P Require Import Prelude Bytes ManagedPtr.

Module Scalars.

Inductive Scalar : Set :=
| ObjectRef | ManagedPtr | Int8 | UInt8 | Int16 | UInt16 | Int32 | Int64 | NativeInt | Float32 | Float64.

#[global] Instance Scalar_eq_dec : EqDecision Scalar.
Proof. solve_decision. Defined.

(** [ObjectRef::SIZE] and [ManagedPtr::SIZE]. *)
Definition OBJECT_REF_SIZE : Z := 8.
Definition MANAGED_PTR_SIZE : Z := 24.

Definition size_const (s : Scalar) : Z :=
  match s with
  | Int8 | UInt8 => 1
  | Int16 | UInt16 => 2
  | Int32 => 4
  | Int64 => 8
  | ObjectRef | NativeInt => OBJECT_REF_SIZE
  | ManagedPtr => MANAGED_PTR_SIZE
  | Float32 => 4
  | Float64 => 8
  end.

End Scalars.

Definition alignment_const (s : Scalars.Scalar) : Z :=
  match s with
  | Scalars.ManagedPtr => Scalars.OBJECT_REF_SIZE
  | s => Scalars.size_const s
  end.

(** [align_up]: [%] by zero and the addition's overflow panic. *)
Definition align_up {E} (value align : Z) : outcome E Z :=
  if align =? 0 then Panic
  else
    let misalignment := value mod align in
    if misalignment =? 0 then Val value
    else let* s := arith usize (value + align) in Val (s - misalignment).

(** ** The reference map *)

Record GcDesc : Set := { bitmap : list Z; unaligned_offsets : list Z }.

Definition empty_desc : GcDesc := {| bitmap := []; unaligned_offsets := [] |}.

Definition BITS_PER_WORD : Z := 64.

Fixpoint pos_trailing_zeros (p : positive) : Z :=
  match p with xO p => 1 + pos_trailing_zeros p | _ => 0 end.

Definition trailing_zeros (x : Z) : Z :=
  match x with Zpos p => pos_trailing_zeros p | _ => 64 end.

(** The loop on one bitmap word: it visits the lowest set bit and clears it.  A
    word has at most 64 set bits, the fuel [for_each_word_index] gives it. *)
Fixpoint visit_bits (fuel : nat) (base remaining_bits : Z) : list Z :=
  match fuel with
  | O => []
  | S fuel =>
      if remaining_bits =? 0 then []
      else (base + trailing_zeros remaining_bits)
             :: visit_bits fuel base (Z.land remaining_bits (remaining_bits - 1))
  end.

Fixpoint visit_words (word_index : Z) (words : list Z) : list Z :=
  match words with
  | [] => []
  | w :: ws => visit_bits 64 (word_index * BITS_PER_WORD) w ++ visit_words (word_index + 1) ws
  end.

(** The slot indices [for_each_word_index] calls its argument on, in order. *)
Definition for_each_word_index (d : GcDesc) : list Z := visit_words 0 (bitmap d).

(** [Vec::resize] to a length not below the present one. *)
Definition grow (ws : list Z) (n : nat) : list Z := ws ++ replicate (n - length ws) 0.

Definition gc_set (d : GcDesc) (word_index : Z) : GcDesc :=
  let i := Z.to_nat (word_index / BITS_PER_WORD) in
  let bit_index := word_index mod BITS_PER_WORD in
  let ws := if (length (bitmap d) <=? i)%nat then grow (bitmap d) (S i) else bitmap d in
  {| bitmap := <[i := Z.lor (ws !!! i) (Z.shiftl 1 bit_index)]> ws;
     unaligned_offsets := unaligned_offsets d |}.

Definition sort_unstable (l : list Z) : list Z := merge_sort Z.le l.

Definition push_unique (l : list Z) (x : Z) : list Z := if bool_decide (x ∈ l) then l else l ++ [x].

Definition set_offset (d : GcDesc) (byte_offset : Z) : GcDesc :=
  let ptr_size := Scalars.OBJECT_REF_SIZE in
  if byte_offset mod ptr_size =? 0 then gc_set d (byte_offset / ptr_size)
  else if bool_decide (byte_offset ∈ unaligned_offsets d) then d
  else {| bitmap := bitmap d; unaligned_offsets := sort_unstable (unaligned_offsets d ++ [byte_offset]) |}.

Fixpoint or_words (ws other : list Z) : list Z :=
  match ws, other with
  | w :: ws, o :: other => Z.lor w o :: or_words ws other
  | ws, [] => ws
  | [], _ => []
  end.

Definition merge (d other : GcDesc) : GcDesc :=
  let ws := if (length (bitmap d) <? length (bitmap other))%nat
            then grow (bitmap d) (length (bitmap other)) else bitmap d in
  {| bitmap := or_words ws (bitmap other);
     unaligned_offsets :=
       sort_unstable (foldl push_unique (unaligned_offsets d) (unaligned_offsets other)) |}.

(** The byte offsets [GcDesc::trace] reads a reference at, in a buffer of [len] bytes. *)
Definition traced_offsets (d : GcDesc) (len : Z) : list Z :=
  let ptr_size := Scalars.OBJECT_REF_SIZE in
  filter (fun off => off + ptr_size <= len)
    (((fun w => w * ptr_size) <$> for_each_word_index d) ++ unaligned_offsets d).

(** ** The set a map stands for *)

Definition word_at (ws : list Z) (i : Z) : Z := default 0 (ws !! Z.to_nat i).

Definition marks (d : GcDesc) (off : Z) : Prop :=
  (off mod 8 = 0 /\ 0 <= off /\ Z.testbit (word_at (bitmap d) (off / 8 / 64)) (off / 8 mod 64) = true)
  \/ off ∈ unaligned_offsets d.

Record desc_ok (d : GcDesc) : Prop := {
  desc_words : Forall (is_range usize) (bitmap d);
  desc_unaligned : Forall (fun o => 0 <= o /\ o mod 8 <> 0) (unaligned_offsets d);
  desc_sorted : StronglySorted Z.le (unaligned_offsets d);
}.

Lemma empty_desc_ok : desc_ok empty_desc.
Proof. split; constructor. Qed.

Lemma marks_empty off : ~ marks empty_desc off.
Proof.
  intros [(_ & _ & H) | H]; [|by apply elem_of_nil in H].
  unfold word_at in H. simpl in H. by rewrite Z.testbit_0_l in H.
Qed.

(** ** Clearing the lowest bit *)

Lemma trailing_zeros_bit p :
  0 <= pos_trailing_zeros p /\ Z.testbit (Zpos p) (pos_trailing_zeros p) = true /\
  forall i, 0 <= i < pos_trailing_zeros p -> Z.testbit (Zpos p) i = false.
Proof.
  induction p as [p _ | p (IH0 & IH1 & IH2) |]; cbn [pos_trailing_zeros];
    [split; [lia|]; split; [done | lia] | | split; [lia|]; split; [done | lia]].
  rewrite Pos2Z.inj_xO. split; [lia|]. split.
  - rewrite (Z.add_comm 1), Z.add_1_r, Z.double_bits_succ. done.
  - intros i Hi. destruct (decide (i = 0)) as [-> | Hz]; [apply Z.testbit_even_0|].
    replace i with (Z.succ (i - 1)) by lia. rewrite Z.double_bits_succ. apply IH2. lia.
Qed.

Lemma clear_lowest p i :
  0 <= i -> Z.testbit (Z.land (Zpos p) (Zpos p - 1)) i =
    (Z.testbit (Zpos p) i && negb (i =? pos_trailing_zeros p)).
Proof.
  revert i. induction p as [p _ | p IH |]; intros i Hi; cbn [pos_trailing_zeros].
  - rewrite Z.land_spec. replace (Zpos p~1 - 1) with (2 * Zpos p) by lia.
    destruct (decide (i = 0)) as [-> | Hz]; [by rewrite Z.testbit_even_0, andb_false_r|].
    rewrite (proj2 (Z.eqb_neq i 0)) by done. rewrite Pos2Z.inj_xI.
    replace i with (Z.succ (i - 1)) by lia.
    rewrite Z.testbit_odd_succ, Z.testbit_even_succ by lia. by destruct (Z.testbit _ _).
  - rewrite Z.land_spec. rewrite Pos2Z.inj_xO. replace (2 * Zpos p - 1) with (2 * (Zpos p - 1) + 1) by lia.
    destruct (decide (i = 0)) as [-> | Hz]; [by rewrite Z.testbit_even_0|].
    replace i with (Z.succ (i - 1)) by lia.
    rewrite Z.testbit_odd_succ, Z.testbit_even_succ by lia.
    rewrite <- Z.land_spec, IH by lia. f_equal. f_equal. apply Bool.eq_iff_eq_true. rewrite !Z.eqb_eq. lia.
  - simpl. destruct (decide (i = 0)) as [-> | Hz]; [done|].
    rewrite Z.testbit_0_l. destruct i; [lia | done | lia].
Qed.

(** A non-negative number is a [usize] when its bits from 64 up are clear. *)
Lemma usize_high_bit x i : is_range usize x -> 64 <= i -> Z.testbit x i = false.
Proof.
  intros Hx Hi. destruct (decide (x = 0)) as [-> | Hz]; [apply Z.testbit_0_l|].
  apply Z.bits_above_log2; [int_bounds; lia|].
  assert (Z.log2 x < 64); [|lia]. apply Z.log2_lt_pow2; int_bounds; lia.
Qed.

Lemma usize_bits x : 0 <= x -> (forall i, 64 <= i -> Z.testbit x i = false) -> is_range usize x.
Proof.
  intros Hx Hb. assert (Hm : x mod 2 ^ 64 = x).
  { apply Z.bits_inj'. intros i Hi. destruct (decide (i < 64)); [by apply Z.mod_pow2_bits_low|].
    rewrite Z.mod_pow2_bits_high by lia. rewrite Hb by lia. done. }
  pose proof (Z.mod_pos_bound x (2 ^ 64) ltac:(lia)). int_bounds. lia.
Qed.

Lemma visit_bits_spec fuel base r x :
  is_range usize r -> (fuel <= 64)%nat ->
  (forall i, 0 <= i < 64 - Z.of_nat fuel -> Z.testbit r i = false) ->
  x ∈ visit_bits fuel base r <-> 0 <= x - base /\ Z.testbit r (x - base) = true.
Proof.
  revert r. induction fuel as [|fuel IH]; intros r Hr Hf Hlow; cbn [visit_bits].
  - rewrite elem_of_nil. split; [done|]. intros [Hx Hb].
    destruct (decide (x - base < 64)); [by rewrite Hlow in Hb by lia|].
    rewrite usize_high_bit in Hb; [done | done | lia].
  - destruct (r =? 0) eqn:E; bool_to_prop.
    { subst. rewrite elem_of_nil, Z.testbit_0_l. naive_solver. }
    destruct r as [|p|p]; [lia | | int_bounds; lia]. cbn [trailing_zeros].
    destruct (trailing_zeros_bit p) as (Ht0 & Ht1 & Ht2).
    assert (Hge : 64 - Z.of_nat (S fuel) <= pos_trailing_zeros p).
    { apply Z.nlt_ge. intros Hlt. rewrite Hlow in Ht1; [done | lia]. }
    rewrite elem_of_cons, IH; [ | | lia | ].
    + split.
      * intros [-> | [Hx Hb]]; [split; [lia|]; by replace (base + _ - base) with (pos_trailing_zeros p) by lia|].
        rewrite clear_lowest in Hb by done. bool_to_prop. done.
      * intros [Hx Hb]. destruct (decide (x - base = pos_trailing_zeros p)); [left; lia|]. right.
        rewrite clear_lowest by done. rewrite Hb, (proj2 (Z.eqb_neq _ _)) by done. done.
    + apply usize_bits; [apply Z.land_nonneg; lia|]. intros i Hi.
      rewrite Z.land_spec, (usize_high_bit (Zpos p)) by done. done.
    + intros i Hi. rewrite clear_lowest by lia. destruct (decide (i = pos_trailing_zeros p)) as [->|];
        [by rewrite Z.eqb_refl, andb_false_r|].
      rewrite (proj2 (Z.eqb_neq i _)) by done. rewrite andb_true_r.
      destruct (decide (i < pos_trailing_zeros p)); [apply Ht2; lia | lia].
Qed.

Lemma visit_words_spec ws k x :
  Forall (is_range usize) ws ->
  x ∈ visit_words k ws <->
  k * 64 <= x /\ Z.testbit (word_at ws (x / 64 - k)) (x mod 64) = true.
Proof.
  revert k. induction ws as [|w ws IH]; intros k Hws; cbn [visit_words].
  { rewrite elem_of_nil. unfold word_at. rewrite lookup_nil. simpl. rewrite Z.testbit_0_l. naive_solver. }
  apply Forall_cons in Hws as [Hw Hws]. rewrite elem_of_app, IH by done.
  rewrite visit_bits_spec; [ | done | done | intros; lia]. unfold BITS_PER_WORD, word_at.
  assert (Hhigh : forall i, 64 <= i -> Z.testbit w i = false).
  { intros. by apply usize_high_bit. }
  destruct (decide (x / 64 = k)) as [Hk | Hk].
  - rewrite Hk. replace (Z.to_nat (k - k)) with 0%nat by lia.
    replace (x - k * 64) with (x mod 64) by dlia. simpl. pose proof (Z.mod_pos_bound x 64 ltac:(lia)). split.
    + intros [[_ ?] | [? ?]]; [|dlia]. split; [dlia | done].
    + intros [? ?]. left. split; [lia | done].
  - split.
    + intros [[Hx Hb] | [Hx Hb]].
      * rewrite Hhigh in Hb; [done | dlia].
      * split; [lia|]. replace (Z.to_nat (x / 64 - k)) with (S (Z.to_nat (x / 64 - (k + 1)))) by dlia. done.
    + intros [Hx Hb]. right. split; [dlia|].
      replace (Z.to_nat (x / 64 - k)) with (S (Z.to_nat (x / 64 - (k + 1)))) in Hb by dlia. done.
Qed.

Lemma word_at_range ws i : Forall (is_range usize) ws -> is_range usize (word_at ws i).
Proof.
  intros Hws. unfold word_at. destruct (ws !! _) eqn:E; simpl; [|int_bounds; lia].
  by eapply Forall_lookup_1 in E.
Qed.

Lemma word_at_grow ws n i : word_at (grow ws n) i = word_at ws i.
Proof.
  unfold word_at, grow. destruct (decide (Z.to_nat i < length ws)%nat).
  - by rewrite lookup_app_l.
  - rewrite lookup_app_r by lia. rewrite (lookup_ge_None_2 ws) by lia.
    destruct (replicate _ _ !! _) eqn:E; [|done]. by apply lookup_replicate in E as [-> _].
Qed.

Lemma grow_range ws n : Forall (is_range usize) ws -> Forall (is_range usize) (grow ws n).
Proof.
  intros. apply Forall_app. split; [done|]. apply Forall_replicate. int_bounds. lia.
Qed.

Lemma lor_range x y : is_range usize x -> is_range usize y -> is_range usize (Z.lor x y).
Proof.
  intros Hx Hy. apply usize_bits; [apply Z.lor_nonneg; int_bounds; lia|].
  intros i Hi. by rewrite Z.lor_spec, !usize_high_bit.
Qed.

(** Marking a slot adds exactly that slot. *)
Lemma gc_set_word d w i :
  0 <= w -> 0 <= i ->
  word_at (bitmap (gc_set d w)) i =
    if decide (i = w / 64) then Z.lor (word_at (bitmap d) i) (Z.shiftl 1 (w mod 64)) else word_at (bitmap d) i.
Proof.
  intros Hw Hi. unfold gc_set, BITS_PER_WORD. cbn [bitmap].
  set (ws := if (_ <=? _)%nat then _ else _).
  assert (Hsame : forall j, word_at ws j = word_at (bitmap d) j).
  { intros j. unfold ws. destruct (_ <=? _)%nat; [apply word_at_grow | done]. }
  assert (Hlen : (Z.to_nat (w / 64) < length ws)%nat).
  { unfold ws. destruct (_ <=? _)%nat eqn:E; [|apply Nat.leb_gt in E; lia].
    apply Nat.leb_le in E. unfold grow. rewrite length_app, length_replicate. lia. }
  unfold word_at at 1. case_decide as Hd.
  - subst i. rewrite list_lookup_insert_eq by done. simpl. rewrite <- Hsame. unfold word_at.
    destruct (lookup_lt_is_Some_2 ws _ Hlen) as [x Hx]. by rewrite (list_lookup_total_correct _ _ _ Hx), Hx.
  - rewrite list_lookup_insert_ne by dlia. apply Hsame.
Qed.

Lemma marks_word d off :
  0 <= off -> off mod 8 = 0 ->
  desc_ok d -> marks d off <-> Z.testbit (word_at (bitmap d) (off / 8 / 64)) (off / 8 mod 64) = true.
Proof.
  intros Ho H8 Hd. split; [|by left]. intros [(_ & _ & H) | H]; [done|].
  by apply (proj1 (Forall_forall _ _) (desc_unaligned d Hd)) in H as [_ ?].
Qed.

Lemma gc_set_ok d w : 0 <= w -> desc_ok d -> desc_ok (gc_set d w).
Proof.
  intros Hw [H1 H2 H3]. split; [|done | done]. cbn [gc_set bitmap].
  assert (Hb : is_range usize (Z.shiftl 1 (w mod BITS_PER_WORD))).
  { rewrite Z.shiftl_1_l. pose proof (Z.mod_pos_bound w 64 ltac:(lia)). unfold BITS_PER_WORD.
    pose proof (Z.pow_le_mono_r 2 (w mod 64) 63 ltac:(lia) ltac:(lia)).
    pose proof (Z.pow_pos_nonneg 2 (w mod 64) ltac:(lia) ltac:(lia)). int_bounds. lia. }
  assert (Hg : forall ws, Forall (is_range usize) ws -> is_range usize (ws !!! Z.to_nat (w / BITS_PER_WORD)) ->
     Forall (is_range usize) (<[Z.to_nat (w / BITS_PER_WORD):=Z.lor (ws !!! Z.to_nat (w / BITS_PER_WORD)) (Z.shiftl 1 (w mod BITS_PER_WORD))]> ws)).
  { intros ws Hws Hi. apply Forall_insert; [done|]. by apply lor_range. }
  assert (Hl : forall ws, Forall (is_range usize) ws -> is_range usize (ws !!! Z.to_nat (w / BITS_PER_WORD))).
  { intros ws Hws. rewrite list_lookup_total_alt. destruct (ws !! _) eqn:E; [by eapply Forall_lookup_1 in E | by vm_compute]. }
  destruct (_ <=? _)%nat; auto using grow_range.
Qed.

Lemma marks_gc_set d w off :
  0 <= w -> marks (gc_set d w) off <-> off = w * 8 \/ marks d off.
Proof.
  intros Hw. unfold marks. cbn [gc_set unaligned_offsets].
  destruct (decide (0 <= off /\ off mod 8 = 0)) as [[Ho H8] | Hno].
  2:{ split; [intros [? | ?]; [tauto | auto] | intros [-> | [? | ?]]; [|tauto | auto]].
      exfalso. apply Hno. dlia. }
  fold (gc_set d w). rewrite gc_set_word by (try done; dlia). case_decide as Hd.
  - rewrite Z.lor_spec, orb_true_iff, Z.shiftl_1_l, Z.pow2_bits_eqb by dlia. rewrite Z.eqb_eq.
    split.
    + intros [(_ & _ & [H | H]) | H]; [auto | left; dlia | auto].
    + intros [-> | [(_ & _ & H) | H]]; [left | left; auto | auto].
      split; [done|]. split; [done|]. right. by rewrite Z.div_mul.
  - split; [intros [? | ?]; auto|]. intros [-> | [? | ?]]; [|auto | auto].
    exfalso. apply Hd. by rewrite Z.div_mul.
Qed.

Lemma elem_of_sort_unstable l x : x ∈ sort_unstable l <-> x ∈ l.
Proof. unfold sort_unstable. by rewrite merge_sort_Permutation. Qed.

Lemma sort_unstable_sorted l : StronglySorted Z.le (sort_unstable l).
Proof. apply StronglySorted_merge_sort; apply _. Qed.

Lemma set_offset_ok d off : 0 <= off -> desc_ok d -> desc_ok (set_offset d off).
Proof.
  intros Ho Hd. unfold set_offset, Scalars.OBJECT_REF_SIZE. destruct (off mod 8 =? 0) eqn:E; bool_to_prop.
  { apply gc_set_ok; [dlia | done]. }
  case_bool_decide; [done|]. destruct Hd as [H1 H2 H3]. split; [done | | apply sort_unstable_sorted].
  cbn [unaligned_offsets]. apply Forall_forall. intros x Hx. rewrite elem_of_sort_unstable in Hx.
  apply elem_of_app in Hx as [Hx | ->%list_elem_of_singleton]; [|done].
  by apply (proj1 (Forall_forall _ _) H2).
Qed.

(** Recording a byte offset adds exactly that offset. *)
Lemma marks_set_offset d off x :
  0 <= off -> marks (set_offset d off) x <-> x = off \/ marks d x.
Proof.
  intros Ho. unfold set_offset, Scalars.OBJECT_REF_SIZE. destruct (off mod 8 =? 0) eqn:E; bool_to_prop.
  { rewrite marks_gc_set by dlia. by replace (off / 8 * 8) with off by dlia. }
  case_bool_decide as Hin.
  - split; [auto|]. intros [-> | ?]; [by right | done].
  - unfold marks. cbn [bitmap unaligned_offsets].
    rewrite elem_of_sort_unstable, elem_of_app, list_elem_of_singleton. tauto.
Qed.

Lemma word_at_or ws other i :
  (length other <= length ws)%nat -> word_at (or_words ws other) i = Z.lor (word_at ws i) (word_at other i).
Proof.
  unfold word_at. generalize (Z.to_nat i) as n. clear i. revert other.
  induction ws as [|w ws IH]; intros [|o other] n Hlen; simpl in Hlen; try lia.
  - by rewrite lookup_nil.
  - simpl. by rewrite Z.lor_0_r.
  - destruct n; [done|]. simpl. apply IH. lia.
Qed.

Lemma or_words_range ws other :
  Forall (is_range usize) ws -> Forall (is_range usize) other -> Forall (is_range usize) (or_words ws other).
Proof.
  intros Hws. revert other. induction Hws as [|w ws Hw Hws IH]; intros [|o other] Ho; simpl; auto.
  apply Forall_cons in Ho as [? ?]. constructor; auto using lor_range.
Qed.

Lemma elem_of_push_all l l' x : x ∈ foldl push_unique l l' <-> x ∈ l \/ x ∈ l'.
Proof.
  revert l. induction l' as [|y l' IH]; intros l; simpl; [rewrite elem_of_nil; tauto|].
  rewrite IH, elem_of_cons. unfold push_unique. case_bool_decide.
  - naive_solver.
  - rewrite elem_of_app, list_elem_of_singleton. tauto.
Qed.

Lemma merge_ok d other : desc_ok d -> desc_ok other -> desc_ok (merge d other).
Proof.
  intros [H1 H2 H3] [H4 H5 H6]. split; [ | | apply sort_unstable_sorted]; cbn [merge bitmap unaligned_offsets].
  - apply or_words_range; [|done]. destruct (_ <? _)%nat; [by apply grow_range | done].
  - apply Forall_forall. intros x Hx. rewrite elem_of_sort_unstable, elem_of_push_all in Hx.
    destruct Hx as [Hx | Hx]; [by apply (proj1 (Forall_forall _ _) H2) | by apply (proj1 (Forall_forall _ _) H5)].
Qed.

(** Merging is the union. *)
Lemma marks_merge d other x : marks (merge d other) x <-> marks d x \/ marks other x.
Proof.
  unfold marks. cbn [merge bitmap unaligned_offsets]. rewrite elem_of_sort_unstable, elem_of_push_all.
  set (ws := if (_ <? _)%nat then _ else _).
  assert (Hsame : forall j, word_at ws j = word_at (bitmap d) j).
  { intros j. unfold ws. destruct (_ <? _)%nat; [apply word_at_grow | done]. }
  rewrite word_at_or, Hsame, Z.lor_spec, orb_true_iff; [tauto|].
  unfold ws. destruct (_ <? _)%nat eqn:E; [|apply Nat.ltb_ge in E; lia].
  unfold grow. rewrite length_app, length_replicate. lia.
Qed.

(** The slots the loop over the bitmap visits are the marked aligned ones. *)
Lemma for_each_word_index_marks d w :
  desc_ok d -> w ∈ for_each_word_index d <-> 0 <= w /\ marks d (w * 8).
Proof.
  intros Hd. unfold for_each_word_index. rewrite visit_words_spec by apply Hd.
  replace (0 * 64) with 0 by lia. rewrite Z.sub_0_r. split.
  - intros [Hw Hb]. split; [done|]. left. rewrite Z.div_mul by done.
    split; [apply Z_mod_mult|]. split; [lia | done].
  - intros [Hw Hm]. split; [done|]. rewrite marks_word in Hm; [|lia | apply Z_mod_mult | done].
    by rewrite Z.div_mul in Hm.
Qed.

(** The loop over the bitmap words and the list of unaligned offsets together
    visit every recorded reference that fits the buffer, and nothing else. *)
Lemma traced_offsets_exact d len off :
  desc_ok d -> off ∈ traced_offsets d len <-> marks d off /\ off + 8 <= len.
Proof.
  intros Hd. unfold traced_offsets, Scalars.OBJECT_REF_SIZE.
  rewrite list_elem_of_filter, elem_of_app, list_elem_of_fmap. split.
  - intros [Hl [(w & -> & Hw) | Hu]]; (split; [|done]); [|by right].
    by apply for_each_word_index_marks in Hw as [_ ?].
  - intros [Hm Hl]. split; [done|]. destruct Hm as [Hm | Hu]; [left | by right].
    exists (off / 8). replace (off / 8 * 8) with off by dlia. split; [done|].
    apply for_each_word_index_marks; [done|]. replace (off / 8 * 8) with off by dlia.
    split; [dlia | by left].
Qed.

(** ** Layouts *)

Record FieldKey : Set := { owner : TypeDescription; name : string }.

#[export] Instance FieldKey_eq_dec : EqDecision FieldKey.
Proof. solve_decision. Defined.

(** [LayoutManager], with its [FieldLayoutManager] and [ArrayLayoutManager]; a field
    is its position and layout. *)
Inductive LayoutManager : Set :=
| LField (fields : list (FieldKey * (Z * LayoutManager))) (total_size alignment : Z) (gc_desc : GcDesc)
    (has_ref_fields : bool)
| LArray (element_layout : LayoutManager) (length : Z)
| LScalar (s : Scalars.Scalar).

Fixpoint size {E} (l : LayoutManager) : outcome E Z :=
  match l with
  | LField _ total _ _ _ => Val total
  | LArray e n => let* s := size e in arith usize (s * n)
  | LScalar s => Val (Scalars.size_const s)
  end.

Fixpoint alignment (l : LayoutManager) : Z :=
  match l with
  | LField _ _ al _ _ => al
  | LArray e _ => alignment e
  | LScalar s => alignment_const s
  end.

Definition is_gc_ptr (l : LayoutManager) : bool :=
  match l with
  | LScalar Scalars.ObjectRef | LScalar Scalars.ManagedPtr => true
  | _ => false
  end.

Fixpoint is_or_contains_refs (l : LayoutManager) : bool :=
  match l with
  | LField fs _ _ _ _ => existsb (fun f => is_or_contains_refs (snd (snd f))) fs
  | LArray e _ => is_or_contains_refs e
  | LScalar Scalars.ObjectRef | LScalar Scalars.ManagedPtr => true
  | _ => false
  end.

Fixpoint has_managed_ptrs (l : LayoutManager) : bool :=
  match l with
  | LField _ _ _ _ hr => hr
  | LArray e _ => has_managed_ptrs e
  | LScalar Scalars.ManagedPtr => true
  | _ => false
  end.

(** [scalar_at]: whether a scalar of the kind starts at the offset. *)
Fixpoint scalar_at (l : LayoutManager) (off : Z) (expected : Scalars.Scalar) : outcome Empty_set bool :=
  match l with
  | LScalar kind => Val ((off =? 0) && bool_decide (kind = expected))
  | LField fs _ _ _ _ =>
      (fix any fs :=
         match fs with
         | [] => Val false
         | (_, (pos, fl)) :: fs =>
             let relative := off - pos in
             if relative <? 0 then any fs
             else
               let* sz := size fl in
               if relative <? sz then
                 let* hit := scalar_at fl relative expected in
                 if hit then Val true else any fs
               else any fs
         end) fs
  | LArray e n =>
      let* width := size e in
      if negb (width =? 0) && (off / width <? n) then scalar_at e (off mod width) expected else Val false
  end.

(** ** Where references lie *)

(** A scalar of kind [s] starts at byte [off] of a value laid out by [l]. *)
Inductive ref_at (s : Scalars.Scalar) : LayoutManager -> Z -> Prop :=
| ref_scalar : ref_at s (LScalar s) 0
| ref_field fs total al d hr k pos l off :
    (k, (pos, l)) ∈ fs -> ref_at s l off -> ref_at s (LField fs total al d hr) (pos + off)
| ref_array e n i off sz :
    0 <= i < n -> size (E:=Empty_set) e = Val sz -> ref_at s e off -> ref_at s (LArray e n) (sz * i + off).

(** A layout the resolver may have built: the reference map of every field layout
    in it marks exactly the object references, and the byref flag is set when there
    is a managed pointer. *)
Inductive layout_ok : LayoutManager -> Prop :=
| ok_scalar s : layout_ok (LScalar s)
| ok_array e n : layout_ok e -> 0 <= n -> layout_ok (LArray e n)
| ok_field fs total al d hr :
    (forall k pos l, (k, (pos, l)) ∈ fs -> layout_ok l) ->
    (forall k pos l, (k, (pos, l)) ∈ fs -> 0 <= pos) ->
    0 <= total -> desc_ok d ->
    (forall off, marks d off <-> ref_at Scalars.ObjectRef (LField fs total al d hr) off) ->
    (forall off, ref_at Scalars.ManagedPtr (LField fs total al d hr) off -> hr = true) ->
    layout_ok (LField fs total al d hr).

(** The error type of [size] is immaterial: it only panics. *)
Lemma size_any {E F} l sz : size (E:=E) l = Val sz -> size (E:=F) l = Val sz.
Proof.
  revert sz. induction l as [| e IH n | s]; intros sz Hs; simpl in *; try by simplify_eq.
  apply obind_val in Hs as (s & Hs1 & [-> Hr]%arith_val). rewrite (IH s Hs1). simpl. by apply arith_ok.
Qed.

Lemma size_nonneg l sz : layout_ok l -> size (E:=Empty_set) l = Val sz -> 0 <= sz.
Proof.
  intros Hl. revert sz. induction Hl as [s | e n He IH Hn | fs total al d hr _ _ _ Ht _ _ _]; intros sz Hs; simpl in Hs.
  - injection Hs as <-. by destruct s.
  - destruct (size e) as [s| |]; simpl in Hs; try done. apply arith_val in Hs as [-> Hr]. int_bounds. lia.
  - by injection Hs as <-.
Qed.

Lemma ref_at_nonneg s l off : layout_ok l -> ref_at s l off -> 0 <= off.
Proof.
  intros Hl Hr. revert Hl. induction Hr as [|fs total al d hr k pos l off Hin Hr IH | e n i off sz Hi Hs Hr IH];
    intros Hl; [done | |]; inversion Hl; subst.
  - assert (0 <= pos) by eauto. specialize (IH ltac:(eauto)). lia.
  - specialize (IH ltac:(done)). pose proof (size_nonneg e sz ltac:(done) Hs). nia.
Qed.

Lemma contains_refs s l off : s = Scalars.ObjectRef \/ s = Scalars.ManagedPtr -> ref_at s l off -> is_or_contains_refs l = true.
Proof.
  intros Hs Hr. induction Hr as [|fs total al d hr k pos l off Hin Hr IH | e n i off sz Hi Hsz Hr IH]; simpl.
  - by destruct Hs as [-> | ->].
  - apply existsb_exists. exists (k, (pos, l)). split; [by apply list_elem_of_In | done].
  - done.
Qed.

Lemma has_managed_ptrs_true l off :
  layout_ok l -> ref_at Scalars.ManagedPtr l off -> has_managed_ptrs l = true.
Proof.
  intros Hl Hr. induction Hr as [|fs total al d hr k pos l off Hin Hr IH | e n i off sz Hi Hsz Hr IH]; simpl.
  - done.
  - inversion Hl; subst. eauto using ref_field.
  - inversion Hl; subst. auto.
Qed.

(** ** Tracing *)

(** The offsets [LayoutManager::visit_managed_ptrs] calls its visitor on. *)
Fixpoint visit_managed_ptrs (l : LayoutManager) (off : Z) : outcome Empty_set (list Z) :=
  match l with
  | LScalar Scalars.ManagedPtr => Val [off]
  | LField fs _ _ _ _ =>
      (fix go fs :=
         match fs with
         | [] => Val []
         | (_, (pos, fl)) :: fs =>
             let* o := arith usize (off + pos) in
             let* here := visit_managed_ptrs fl o in
             let* rest := go fs in
             Val (here ++ rest)
         end) fs
  | LArray e n =>
      let* elem_size := size e in
      (fix go ixs :=
         match ixs with
         | [] => Val []
         | i :: ixs =>
             let* m := arith usize (elem_size * i) in
             let* o := arith usize (off + m) in
             let* here := visit_managed_ptrs e o in
             let* rest := go ixs in
             Val (here ++ rest)
         end) (seqZ 0 n)
  | _ => Val []
  end.

(** [FieldLayoutManager::trace] on a buffer of [len] bytes: the offsets at which an
    object reference and at which a managed pointer is read. *)
Definition trace_fields (l : LayoutManager) (len : Z) : outcome Empty_set (list Z * list Z) :=
  match l with
  | LField _ _ _ d hr =>
      let* ptrs := if hr then visit_managed_ptrs l 0 else Val [] in
      Val (traced_offsets d len, filter (fun off => off + Scalars.MANAGED_PTR_SIZE <= len) ptrs)
  | _ => Val ([], [])
  end.

Lemma visit_managed_ptrs_exact l off ptrs x :
  layout_ok l -> visit_managed_ptrs l off = Val ptrs ->
  x ∈ ptrs <-> exists o, ref_at Scalars.ManagedPtr l o /\ x = off + o.
Proof.
  intros Hl. revert off ptrs. induction Hl as [s | e n He IH Hn | fs total al d hr _ IH _ _ _ _ _];
    intros off ptrs Hv.
  - split.
    + destruct s; simpl in Hv; simplify_eq; rewrite ?elem_of_nil; try done.
      rewrite list_elem_of_singleton. intros ->. exists 0. split; [constructor | lia].
    + intros (o & Hr & ->). inversion Hr; subst. simpl in Hv. simplify_eq.
      rewrite list_elem_of_singleton. lia.
  - cbn [visit_managed_ptrs] in Hv. destruct (size e) as [sz| |] eqn:Hsz; simpl in Hv; try done.
    assert (Hgo : x ∈ ptrs <-> exists i o, i ∈ seqZ 0 n /\ ref_at Scalars.ManagedPtr e o /\ x = off + (sz * i + o)).
    { revert ptrs Hv. induction (seqZ 0 n) as [|i ixs IHi]; intros ptrs Hv.
      { simplify_eq. rewrite elem_of_nil. set_solver. }
      apply obind_val in Hv as (m & [-> _]%arith_val & Hv).
      apply obind_val in Hv as (o & [-> _]%arith_val & Hv).
      apply obind_val in Hv as (here & Hh & (rest & Hr & [= <-])%obind_val).
      rewrite elem_of_app, (IH _ _ Hh), (IHi _ Hr). split.
      - intros [(o & Ho & ->) | (j & o & Hj & Ho & ->)]; [exists i, o | exists j, o]; rewrite elem_of_cons;
          (split; [auto|]; split; [done | lia]).
      - intros (j & o & Hj & Ho & ->). apply elem_of_cons in Hj as [-> | Hj].
        + left. exists o. split; [done | lia].
        + right. by exists j, o. }
    rewrite Hgo. split.
    + intros (i & o & Hi & Ho & ->). apply elem_of_seqZ in Hi. exists (sz * i + o).
      split; [apply ref_array; [lia | done | done] | lia].
    + intros (o & Hr & ->). inversion Hr as [| |? ? i o' sz' Hi Hsz' Ho]; subst.
      rewrite Hsz in Hsz'. simplify_eq. exists i, o'. rewrite elem_of_seqZ. split; [lia | done].
  - cbn [visit_managed_ptrs] in Hv.
    assert (Hgo : x ∈ ptrs <-> exists k pos fl o, (k, (pos, fl)) ∈ fs /\ ref_at Scalars.ManagedPtr fl o /\
      x = off + (pos + o)).
    { revert ptrs Hv. induction fs as [|[k [pos fl]] fs IHf]; intros ptrs Hv.
      { simplify_eq. rewrite elem_of_nil. set_solver. }
      apply obind_val in Hv as (o & [-> _]%arith_val & Hv).
      apply obind_val in Hv as (here & Hh & (rest & Hr & [= <-])%obind_val).
      rewrite elem_of_app, (IH k pos fl ltac:(set_solver) _ _ Hh), (IHf ltac:(set_solver) _ Hr). split.
      - intros [(o & Ho & ->) | (k' & pos' & fl' & o & Hin & Ho & ->)];
          [exists k, pos, fl, o | exists k', pos', fl', o]; (split; [set_solver|]; split; [done | lia]).
      - intros (k' & pos' & fl' & o & Hin & Ho & ->). apply elem_of_cons in Hin as [[= -> -> ->] | Hin].
        + left. exists o. split; [done | lia].
        + right. by exists k', pos', fl', o. }
    rewrite Hgo. split.
    + intros (k & pos & fl & o & Hin & Ho & ->). exists (pos + o). split; [by eapply ref_field | done].
    + intros (o & Hr & ->). inversion Hr; subst. by repeat eexists.
Qed.

(**  Tracing a value visits every object reference and every managed pointer
    its layout contains that fits the buffer, at any nesting depth and alignment, and
    reads a reference nowhere else. *)
Theorem trace_fields_exact fs total al d hr len objs ptrs :
  layout_ok (LField fs total al d hr) -> trace_fields (LField fs total al d hr) len = Val (objs, ptrs) ->
  forall off,
    (off ∈ objs <-> ref_at Scalars.ObjectRef (LField fs total al d hr) off /\ off + 8 <= len) /\
    (off ∈ ptrs <-> ref_at Scalars.ManagedPtr (LField fs total al d hr) off /\ off + 24 <= len).
Proof.
  intros Hl Ht off. cbn [trace_fields] in Ht. apply obind_val in Ht as (ps & Hps & [= <- <-]).
  pose proof Hl as Hl'. inversion Hl' as [| |? ? ? ? ? _ _ _ Hd Hm Hp]; subst. split.
  - by rewrite traced_offsets_exact, Hm.
  - rewrite list_elem_of_filter. unfold Scalars.MANAGED_PTR_SIZE. destruct hr.
    + rewrite (visit_managed_ptrs_exact _ _ _ _ Hl Hps). naive_solver.
    + simplify_eq. rewrite elem_of_nil. split; [tauto|]. intros [Hr _]. by apply Hp in Hr.
Qed.
