(* ===== verification/LayoutBuild.v ===== *)
(** * Building layouts

    The field placement of [dotnet-runtime-resolver/src/layout.rs]: sequential,
    automatic and explicit layouts, the reference map they fill in, the merge with a
    base class and the inline-array expansion of [collect_fields], and the guard on
    array layouts.  Which fields a type has, and their layouts, come from the
    metadata: they are arguments.  Error messages are the source's without the
    formatted detail. *)

From Stdlib Require Import ZArith Lia.
From stdpp Require Import base tactics list option strings sorting sets.
From S2P Require Import Prelude Bytes ManagedPtr StackValue Ops Layout.

(** A field to place: its owner, name, explicit offset and layout. *)
Record FieldSpec : Set := {
  f_owner : TypeDescription;
  f_name : string;
  f_offset : option Z;
  f_layout : LayoutManager;
}.

Definition f_key (f : FieldSpec) : FieldKey := {| owner := f_owner f; name := f_name f |}.

(** The metadata's [Layout]. *)
Inductive TypeLayout : Set :=
| Automatic
| Sequential (packing_class_size : option (Z * Z))
| Explicit (class_size : option Z).

(** [HashMap::insert]. *)
Definition map_insert (m : list (FieldKey * (Z * LayoutManager))) (k : FieldKey) (v : Z * LayoutManager) :=
  (k, v) :: filter (fun kv => kv.1 <> k) m.

(** A [desc.set_offset(base + relative)] for each offset. *)
Definition set_offsets {E} (base : Z) (d : GcDesc) (offs : list Z) : outcome E GcDesc :=
  ofold (fun d o => let* a := arith usize (base + o) in Val (set_offset d a)) d offs.

Fixpoint populate_gc_desc {E} (l : LayoutManager) (base_offset : Z) (desc : GcDesc) : outcome E GcDesc :=
  match l with
  | LScalar Scalars.ObjectRef => Val (set_offset desc base_offset)
  | LField _ _ _ m _ =>
      let* desc := set_offsets base_offset desc ((fun w => w * Scalars.OBJECT_REF_SIZE) <$> for_each_word_index m) in
      set_offsets base_offset desc (unaligned_offsets m)
  | LArray e n =>
      let* elem_size := size e in
      if is_or_contains_refs e then
        ofold (fun desc i =>
                 let* m := arith usize (elem_size * i) in
                 let* o := arith usize (base_offset + m) in
                 populate_gc_desc e o desc) desc (seqZ 0 n)
      else Val desc
  | _ => Val desc
  end.

(** The accumulators of the placement loops. *)
Record placement : Set := {
  mapping : list (FieldKey * (Z * LayoutManager));
  max_alignment : Z;
  next : Z;
  desc : GcDesc;
  has_refs : bool;
}.

Definition placement0 (base_size base_alignment : Z) : placement :=
  {| mapping := []; max_alignment := Z.max base_alignment 1; next := base_size; desc := empty_desc;
     has_refs := false |}.

Definition place_field {E} (packing_size : Z) (p : placement) (f : FieldSpec) : outcome E placement :=
  let field_align := Z.min (alignment (f_layout f)) packing_size in
  let* aligned_offset := align_up (next p) field_align in
  let* d := populate_gc_desc (f_layout f) aligned_offset (desc p) in
  let* sz := size (f_layout f) in
  let* after := arith usize (aligned_offset + sz) in
  Val {| mapping := map_insert (mapping p) (f_key f) (aligned_offset, f_layout f);
         max_alignment := Z.max (max_alignment p) field_align;
         next := after;
         desc := d;
         has_refs := has_refs p || has_managed_ptrs (f_layout f) |}.

Definition place_fields_sequentially {E} (fields : list FieldSpec) (base_size base_alignment packing_size : Z)
  : outcome E (placement * Z) :=
  let* p := ofold (place_field packing_size) (placement0 base_size base_alignment) fields in
  let* total_size := align_up (next p) (max_alignment p) in
  Val (p, total_size).

Section explicit.

(** Whether the owner's name contains [System.Runtime.CompilerServices.MethodTable],
    whose overlaps are tolerated. *)
Variable is_method_table : TypeDescription -> bool.

Definition OVERLAP_MSG : string := "explicit field layout overlaps reference type fields".

(** The check of one field against one placed before it. *)
Definition overlap_ok (f : FieldSpec) (actual_offset actual_end : Z) (prev : Z * Z * LayoutManager) : bool :=
  let '(prev_start, prev_end, prev_layout) := prev in
  let overlap := (actual_offset <? prev_end) && (prev_start <? actual_end) in
  if overlap && (is_or_contains_refs (f_layout f) || is_or_contains_refs prev_layout) then
    let same_range := (actual_offset =? prev_start) && (actual_end =? prev_end) in
    let both_gc_ptrs := is_gc_ptr (f_layout f) && is_gc_ptr prev_layout in
    (same_range && both_gc_ptrs) || is_method_table (f_owner f)
  else true.

Definition place_explicit (base_size : Z) (st : placement * list (Z * Z * LayoutManager)) (f : FieldSpec)
  : outcome TypeResolutionError (placement * list (Z * Z * LayoutManager)) :=
  let '(p, placed_fields) := st in
  let* o := ok_or (f_offset f) (InvalidLayout "explicit field layout requires all fields to have defined offsets") in
  let* actual_offset := arith usize (base_size + o) in
  let* sz := size (f_layout f) in
  let* actual_end := arith usize (actual_offset + sz) in
  if forallb (overlap_ok f actual_offset actual_end) placed_fields then
    let* d := populate_gc_desc (f_layout f) actual_offset (desc p) in
    Val ({| mapping := map_insert (mapping p) (f_key f) (actual_offset, f_layout f);
            max_alignment := Z.max (max_alignment p) (alignment (f_layout f));
            next := Z.max (next p) actual_end;
            desc := d;
            has_refs := has_refs p || has_managed_ptrs (f_layout f) |},
         placed_fields ++ [(actual_offset, actual_end, f_layout f)])
  else Err (InvalidLayout OVERLAP_MSG).

Definition MAX_LAYOUT : Z := 0x10000000.

Definition create_field_layout (fields : list FieldSpec) (layout : TypeLayout) (base_size base_alignment : Z)
  : outcome TypeResolutionError LayoutManager :=
  let* (p, total_size) :=
    match layout with
    | Automatic => place_fields_sequentially fields base_size base_alignment (int_max usize)
    | Sequential s =>
        let '(packing_size, class_size) :=
          match s with
          | None => (8, 0)
          | Some (packing, class_size) => (if packing =? 0 then 8 else packing, class_size)
          end in
        let* (p, total_size) := place_fields_sequentially fields base_size base_alignment packing_size in
        let* declared := arith usize (base_size + class_size) in
        Val (p, Z.max total_size declared)
    | Explicit e =>
        let* (p, _) := ofold (place_explicit base_size) (placement0 base_size base_alignment, []) fields in
        match e with
        | Some class_size =>
            let* declared := arith usize (base_size + class_size) in
            Val (p, Z.max declared (next p))
        | None => Val (p, next p)
        end
    end in
  if MAX_LAYOUT <? total_size then Err (MassiveAllocation "massive field layout detected")
  else Val (LField (mapping p) total_size (max_alignment p) (desc p) (has_refs p)).

(** The rest of [collect_fields]: the base class's fields join the derived layout. *)
Definition merge_base (result base_layout : LayoutManager) : LayoutManager :=
  match result, base_layout with
  | LField fs total al d hr, LField bfs _ _ bd bhr =>
      LField (foldl (fun m kv => map_insert m kv.1 kv.2) fs bfs) total al (merge d bd) (hr || bhr)
  | l, _ => l
  end.

End explicit.

(** The first field in position order of those the type itself declares. *)
Definition first_field (td : TypeDescription) (fs : list (FieldKey * (Z * LayoutManager)))
  : option (Z * LayoutManager) :=
  foldl (fun best kv =>
           if bool_decide (owner kv.1 = td) then
             match best with
             | None => Some kv.2
             | Some current => if kv.2.1 <? current.1 then Some kv.2 else best
             end
           else best) None fs.

(** The inline-array expansion at the end of [collect_fields]: the declared field
    stands for [inline_len] copies. *)
Definition expand_inline {E} (td : TypeDescription) (inline_len : Z) (result : LayoutManager)
  : outcome E LayoutManager :=
  match result with
  | LField fs total al d hr =>
      if inline_len <=? 1 then Val result
      else
        match first_field td fs with
        | None => Val result
        | Some (base_offset, fl) =>
            let* elem_size := size fl in
            let at_index i := saturate usize (base_offset + saturate usize (elem_size * i)) in
            let* total := align_up (at_index inline_len) (Z.max al 1) in
            if is_or_contains_refs fl then
              let* d := ofold (fun d i => populate_gc_desc fl (at_index i) d) empty_desc (seqZ 0 inline_len) in
              Val (LField fs total al d true)
            else Val (LField fs total al d hr)
        end
  | l => Val l
  end.

(** [create_array_layout_with_lookup]'s guard. *)
Definition create_array_layout (element_layout : LayoutManager) (length : Z)
  : outcome TypeResolutionError LayoutManager :=
  let massive := MassiveAllocation "massive array allocation attempt" in
  if 0x40000000 <? length then Err massive
  else if length <=? 0 then Val (LArray element_layout length)
  else
    let* sz := size element_layout in
    if int_max usize / length <? sz then Err massive else Val (LArray element_layout length).

(** ** The reference map of a placed layout *)

(** A loop whose steps each add a set of offsets adds their union. *)
Lemma ofold_marks {E A} (f : GcDesc -> A -> outcome E GcDesc) (R : A -> Z -> Prop) l d d' :
  (forall a d1 d2, a ∈ l -> desc_ok d1 -> f d1 a = Val d2 ->
     desc_ok d2 /\ forall x, marks d2 x <-> marks d1 x \/ R a x) ->
  desc_ok d -> ofold f d l = Val d' ->
  desc_ok d' /\ forall x, marks d' x <-> marks d x \/ exists a, a ∈ l /\ R a x.
Proof.
  revert d. induction l as [|a l IH]; intros d Hf Hd Hs; cbn [ofold] in Hs.
  { simplify_eq. split; [done|]. set_solver. }
  apply obind_val in Hs as (d1 & Hs1 & Hs2).
  destruct (Hf a d d1) as [Hok1 Hm1]; [set_solver | done | done |].
  destruct (IH d1) as [Hok Hm]; [|done | done|].
  { intros b d2 d3 Hb. apply Hf. set_solver. }
  split; [done|]. intros x. rewrite Hm, Hm1. set_solver.
Qed.

Lemma set_offsets_spec {E} base offs d d' :
  (forall o, o ∈ offs -> 0 <= base + o) -> desc_ok d -> set_offsets (E:=E) base d offs = Val d' ->
  desc_ok d' /\ forall x, marks d' x <-> marks d x \/ exists o, o ∈ offs /\ x = base + o.
Proof.
  intros Ho. apply ofold_marks. intros o d1 d2 Hin Hd1 Hs. specialize (Ho o Hin).
  apply obind_val in Hs as (a & [-> _]%arith_val & [= <-]). split; [by apply set_offset_ok|].
  intros x. rewrite marks_set_offset by done. tauto.
Qed.

(** A field layout's own map, added at a base. *)
Lemma populate_field_spec {E} base m d d' :
  0 <= base -> desc_ok m -> desc_ok d ->
  (let* d := set_offsets (E:=E) base d ((fun w => w * 8) <$> for_each_word_index m) in
   set_offsets base d (unaligned_offsets m)) = Val d' ->
  desc_ok d' /\ forall x, marks d' x <-> marks d x \/ exists o, marks m o /\ x = base + o.
Proof.
  intros Hb Hm Hd (d1 & Hp1 & Hp2)%obind_val.
  apply set_offsets_spec in Hp1 as [Hok1 Hm1]; [ | | done].
  2:{ intros o (w & -> & Hw)%list_elem_of_fmap. apply for_each_word_index_marks in Hw as [? _]; [lia | done]. }
  apply set_offsets_spec in Hp2 as [Hok2 Hm2]; [ | | done].
  2:{ intros o Ho. apply (proj1 (Forall_forall _ _) (desc_unaligned m Hm)) in Ho as [? _]. lia. }
  split; [done|]. intros x. rewrite Hm2, Hm1. split.
  - intros [[? | (o & (w & -> & Hw)%list_elem_of_fmap & ->)] | (o & Ho & ->)]; [auto | |]; right.
    + apply for_each_word_index_marks in Hw as [_ Hw]; [|done]. by exists (w * 8).
    + exists o. split; [by right | done].
  - intros [? | (o & [Hr | Hr] & ->)]; [auto | left; right | right; by exists o].
    exists o. split; [|done]. apply list_elem_of_fmap. exists (o / 8). replace (o / 8 * 8) with o by dlia.
    split; [done|]. apply for_each_word_index_marks; [done|]. replace (o / 8 * 8) with o by dlia.
    split; [dlia | by left].
Qed.

(** Populating a map at a base adds exactly the object references of the layout,
    shifted by the base. *)
Lemma populate_spec {E} l base d d' :
  layout_ok l -> 0 <= base -> desc_ok d -> populate_gc_desc (E:=E) l base d = Val d' ->
  desc_ok d' /\ forall x, marks d' x <-> marks d x \/ exists o, ref_at Scalars.ObjectRef l o /\ x = base + o.
Proof.
  intros Hl. revert base d d'.
  induction Hl as [s | e n He IH Hn | fs total al m hr _ _ Hpos Ht Hm Hmarks Hp] ; intros base d d' Hb Hd Hpop.
  - destruct (decide (s = Scalars.ObjectRef)) as [-> | Hs].
    + simpl in Hpop. simplify_eq. split; [by apply set_offset_ok|]. intros x. rewrite marks_set_offset by done.
      split.
      * intros [-> | ?]; [right; exists 0; split; [constructor | lia] | by left].
      * intros [? | (o & Hr & ->)]; [by right|]. inversion Hr; subst. left. lia.
    + assert (d' = d) as -> by (destruct s; try done; by injection Hpop as <-).
      split; [done|]. intros x. split; [auto|]. intros [? | (o & Hr & _)]; [done|]. by inversion Hr; subst.
  - cbn [populate_gc_desc] in Hpop. apply obind_val in Hpop as (sz & Hsz & Hpop).
    pose proof (size_any (F:=Empty_set) e sz Hsz) as Hsz'. pose proof (size_nonneg e sz He Hsz') as H0.
    destruct (is_or_contains_refs e) eqn:Hc.
    2:{ simplify_eq. split; [done|]. intros x. split; [auto|]. intros [? | (o & Hr & _)]; [done|].
        inversion Hr; subst. by rewrite (contains_refs Scalars.ObjectRef e off) in Hc by auto. }
    apply (ofold_marks _ (fun i x => exists o, ref_at Scalars.ObjectRef e o /\ x = base + (sz * i + o)))
      in Hpop as [Hok Hfold]; [ | | done].
    2:{ intros i d1 d2 Hi Hd1 Hstep. apply elem_of_seqZ in Hi.
        apply obind_val in Hstep as (mo & [-> _]%arith_val & (o & [-> _]%arith_val & Hstep)%obind_val).
        destruct (IH (base + sz * i) d1 d2) as [Hok2 Hm2]; [nia | done | done |]. split; [done|].
        intros x. rewrite Hm2. by setoid_rewrite Z.add_assoc. }
    split; [done|]. intros x. rewrite Hfold. split.
    + intros [? | (i & Hi & o & Ho & ->)]; [auto|]. right. apply elem_of_seqZ in Hi.
      exists (sz * i + o). split; [|done]. apply ref_array; [lia | done | done].
    + intros [? | (o & Hr & ->)]; [auto|]. right. inversion Hr as [| |? ? i o' sz' Hi Hs2 Ho]; subst.
      rewrite Hsz' in Hs2. simplify_eq. exists i. rewrite elem_of_seqZ. split; [lia | by exists o'].
  - cbn [populate_gc_desc] in Hpop. apply populate_field_spec in Hpop as [Hok Hx]; [|done..].
    split; [done|]. intros x. rewrite Hx. by setoid_rewrite Hmarks.
Qed.

(** ** Placement *)

Lemma align_up_spec {E} v a r :
  0 <= v -> 0 <= a -> align_up (E:=E) v a = Val r -> 0 < a /\ v <= r < v + a /\ (a | r).
Proof.
  intros Hv Ha. unfold align_up. destruct (a =? 0) eqn:E0; [done|]. bool_to_prop.
  assert (0 < a) by lia. pose proof (Z.mod_pos_bound v a ltac:(lia)).
  destruct (v mod a =? 0) eqn:E1; bool_to_prop.
  - intros [= <-]. split; [done|]. split; [lia|]. by apply Z.mod_divide; [lia|].
  - intros (s & [-> _]%arith_val & [= <-])%obind_val. split; [done|]. split; [lia|].
    exists (v / a + 1). pose proof (Z.div_mod v a ltac:(lia)). lia.
Qed.

(** The accumulators after placing the fields [keys] names. *)
Record placement_ok (keys : list FieldKey) (p : placement) : Prop := {
  pl_desc : desc_ok (desc p);
  pl_keys : forall k pos l, (k, (pos, l)) ∈ mapping p -> k ∈ keys;
  pl_fields : forall k pos l, (k, (pos, l)) ∈ mapping p -> 0 <= pos /\ layout_ok l;
  pl_marks : forall x, marks (desc p) x <->
    exists k pos l o, (k, (pos, l)) ∈ mapping p /\ ref_at Scalars.ObjectRef l o /\ x = pos + o;
  pl_ptrs : forall k pos l o, (k, (pos, l)) ∈ mapping p -> ref_at Scalars.ManagedPtr l o -> has_refs p = true;
}.

Lemma placement0_ok b a : placement_ok [] (placement0 b a).
Proof.
  split; simpl; try (intros; by match goal with H : _ ∈ [] |- _ => apply elem_of_nil in H end).
  - apply empty_desc_ok.
  - intros x. split; [intros H; by apply marks_empty in H|].
    intros (k & pos & l & o & H & _). by apply elem_of_nil in H.
Qed.

Lemma elem_of_map_insert m k v k' v' :
  (forall v, (k, v) ∈ m -> False) -> (k', v') ∈ map_insert m k v <-> (k', v') = (k, v) \/ (k', v') ∈ m.
Proof.
  intros Hk. unfold map_insert. rewrite elem_of_cons, list_elem_of_filter. simpl. split; [tauto|].
  intros [? | Hin]; [auto|]. right. split; [|done]. intros ->. by eapply Hk.
Qed.

(** Placing one more field, at any offset, with its references recorded. *)
Lemma placement_add {E} keys p f pos d' al nx :
  placement_ok keys p -> f_key f ∉ keys -> layout_ok (f_layout f) -> 0 <= pos ->
  populate_gc_desc (E:=E) (f_layout f) pos (desc p) = Val d' ->
  placement_ok (keys ++ [f_key f])
    {| mapping := map_insert (mapping p) (f_key f) (pos, f_layout f); max_alignment := al; next := nx;
       desc := d'; has_refs := has_refs p || has_managed_ptrs (f_layout f) |}.
Proof.
  intros [H1 H2 H3 H4 H5] Hfresh Hl Hpos Hpop.
  assert (Hnew : forall v, (f_key f, v) ∈ mapping p -> False).
  { intros [po l] Hin. by apply Hfresh, (H2 _ po l). }
  destruct (populate_spec _ _ _ _ Hl Hpos H1 Hpop) as [Hok Hm].
  split; simpl.
  - done.
  - intros k po l. rewrite elem_of_map_insert by done. intros [[= -> _ _] | Hin]; [set_solver|].
    apply elem_of_app. left. by eapply H2.
  - intros k po l. rewrite elem_of_map_insert by done. intros [[= -> -> ->] | Hin]; [done | by eapply H3].
  - intros x. rewrite Hm, H4. split.
    + intros [(k & po & l & o & Hin & Hr & ->) | (o & Hr & ->)].
      * exists k, po, l, o. rewrite elem_of_map_insert by done. auto.
      * exists (f_key f), pos, (f_layout f), o. rewrite elem_of_map_insert by done. auto.
    + intros (k & po & l & o & Hin & Hr & ->). rewrite elem_of_map_insert in Hin by done.
      destruct Hin as [[= -> -> ->] | Hin]; [right; by exists o | left; by exists k, po, l, o].
  - intros k po l o. rewrite elem_of_map_insert by done. intros [[= -> -> ->] | Hin] Hr.
    + by rewrite (has_managed_ptrs_true _ _ Hl Hr), orb_true_r.
    + by rewrite (H5 _ _ _ _ Hin Hr).
Qed.

Lemma placement_layout_ok keys p total al :
  placement_ok keys p -> 0 <= total -> layout_ok (LField (mapping p) total al (desc p) (has_refs p)).
Proof.
  intros [H1 H2 H3 H4 H5] Ht. constructor; try done.
  - intros k pos l Hin. by eapply H3.
  - intros k pos l Hin. by eapply H3.
  - intros off. rewrite H4. split.
    + intros (k & pos & l & o & Hin & Hr & ->). by eapply ref_field.
    + intros Hr. inversion Hr; subst. by repeat eexists.
  - intros off Hr. inversion Hr; subst. by eapply H5.
Qed.

(** What the fields handed to the resolver satisfy: distinct names, layouts it
    built before, alignments and offsets that are [usize]s. *)
Definition specs_ok (fields : list FieldSpec) : Prop :=
  NoDup (f_key <$> fields) /\
  Forall (fun f => layout_ok (f_layout f) /\ 0 <= alignment (f_layout f) /\
                   match f_offset f with Some o => 0 <= o | None => True end) fields.

Lemma specs_ok_at fields done f rest :
  specs_ok fields -> fields = done ++ f :: rest ->
  (f_key f ∉ (f_key <$> done)) /\ layout_ok (f_layout f) /\ 0 <= alignment (f_layout f) /\
  match f_offset f with Some o => 0 <= o | None => True end.
Proof.
  intros [Hn Hf] ->. rewrite fmap_app, NoDup_app in Hn. destruct Hn as (_ & Hd & _).
  apply Forall_app in Hf as [_ [Hf _]%Forall_cons]. split; [|done].
  intros Hin. apply (Hd _ Hin). simpl. set_solver.
Qed.

(** What sequential placement has established after the fields placed so far. *)
Record sequential_ok (base_size packing : Z) (keys : list FieldKey) (p : placement) : Prop := {
  sq_ok : placement_ok keys p;
  sq_next : base_size <= next p;
  sq_align : 1 <= max_alignment p;
  sq_in : forall k pos l, (k, (pos, l)) ∈ mapping p ->
    exists sz, size (E:=Empty_set) l = Val sz /\ base_size <= pos /\ 0 <= sz /\ pos + sz <= next p /\
      (Z.min (alignment l) packing | pos) /\ Z.min (alignment l) packing <= max_alignment p;
  sq_disjoint : forall k1 p1 l1 s1 k2 p2 l2 s2,
    (k1, (p1, l1)) ∈ mapping p -> (k2, (p2, l2)) ∈ mapping p -> k1 <> k2 ->
    size (E:=Empty_set) l1 = Val s1 -> size (E:=Empty_set) l2 = Val s2 -> p1 + s1 <= p2 \/ p2 + s2 <= p1;
}.

Lemma place_field_ok {E} base packing keys p f p' :
  0 <= base -> 0 < packing -> sequential_ok base packing keys p -> f_key f ∉ keys ->
  layout_ok (f_layout f) -> 0 <= alignment (f_layout f) ->
  place_field (E:=E) packing p f = Val p' -> sequential_ok base packing (keys ++ [f_key f]) p'.
Proof.
  intros Hb Hpk [H1 H2 H3 H4 H5] Hfresh Hl Hal Hp.
  unfold place_field in Hp. apply obind_val in Hp as (a & Ha & Hp).
  apply obind_val in Hp as (d & Hd & Hp). apply obind_val in Hp as (sz & Hsz & Hp).
  apply obind_val in Hp as (after & [-> _]%arith_val & [= <-]).
  pose proof (size_any (F:=Empty_set) _ _ Hsz) as Hsz'. pose proof (size_nonneg _ _ Hl Hsz') as Hsz0.
  apply align_up_spec in Ha as (Ha0 & Ha1 & Ha2); [|lia | lia].
  assert (Hnew : forall v, (f_key f, v) ∈ mapping p -> False).
  { intros [po l] Hin. by apply Hfresh, (pl_keys _ _ H1 _ po l). }
  split; simpl.
  - eapply placement_add; eauto. lia.
  - lia.
  - lia.
  - intros k po l. rewrite elem_of_map_insert by done. intros [[= -> -> ->] | Hin].
    + exists sz. repeat split; try done; lia.
    + destruct (H4 _ _ _ Hin) as (s & ? & ? & ? & ? & ? & ?). exists s. repeat split; try done; lia.
  - intros k1 p1 l1 s1 k2 p2 l2 s2. rewrite !elem_of_map_insert by done.
    intros [[= -> -> ->] | Hin1] [[= -> -> ->] | Hin2] Hne Hs1 Hs2; try done.
    + destruct (H4 _ _ _ Hin2) as (s & ? & ? & ? & ? & _). assert (s2 = s) as -> by congruence. lia.
    + destruct (H4 _ _ _ Hin1) as (s & ? & ? & ? & ? & _). assert (s1 = s) as -> by congruence. lia.
    + by eapply H5.
Qed.

Lemma place_sequentially_ok {E} fields base al packing p total :
  0 <= base -> 0 < packing -> specs_ok fields ->
  place_fields_sequentially (E:=E) fields base al packing = Val (p, total) ->
  sequential_ok base packing (f_key <$> fields) p /\ next p <= total /\ (max_alignment p | total).
Proof.
  intros Hb Hpk Hs Hp. unfold place_fields_sequentially in Hp.
  apply obind_val in Hp as (q & Hq & Hp). apply obind_val in Hp as (t & Ht & [= -> ->]).
  assert (Hseq : sequential_ok base packing (f_key <$> fields) p).
  { refine (ofold_inv _ (fun done p => sequential_ok base packing (f_key <$> done) p) _ _ _ _ _ Hq).
    - intros done f rest p1 p2 Hsplit Hinv Hstep. rewrite fmap_app.
      destruct (specs_ok_at _ _ _ _ Hs Hsplit) as (? & ? & ? & _). by eapply place_field_ok.
    - split; simpl; [apply placement0_ok | lia | lia | |]; intros *;
        match goal with |- context [_ ∈ []] => intros H; by apply elem_of_nil in H end. }
  split; [done|]. destruct Hseq as [? Hn Ha _ _].
  apply align_up_spec in Ht as (? & ? & ?); [|lia | lia]. split; [lia | done].
Qed.

Lemma filter_all {A} (P : A -> Prop) `{!forall x, Decision (P x)} (l : list A) : (forall x, x ∈ l -> P x) -> filter P l = l.
Proof.
  induction l as [|a l IH]; intros Hl; [done|]. rewrite filter_cons_True by (apply Hl; by left). f_equal. apply IH. intros x Hx.
  apply Hl. by right.
Qed.

(** The map has the fields that were placed, each once. *)
Lemma place_sequentially_mapping {E} fields base al packing p total :
  NoDup (f_key <$> fields) -> place_fields_sequentially (E:=E) fields base al packing = Val (p, total) ->
  (fun kv => (kv.1, kv.2.2)) <$> mapping p = reverse ((fun f => (f_key f, f_layout f)) <$> fields).
Proof.
  intros Hn Hp. unfold place_fields_sequentially in Hp. apply obind_val in Hp as (q & Hq & Hp).
  apply obind_val in Hp as (t & _ & [= -> _]).
  refine (ofold_inv _ (fun done p => (fun kv => (kv.1, kv.2.2)) <$> mapping p =
    reverse ((fun f => (f_key f, f_layout f)) <$> done)) _ _ _ _ _ Hq); [|done].
  intros done f rest p1 p2 -> Hinv Hstep. unfold place_field in Hstep.
  repeat (apply obind_val in Hstep as (? & _ & Hstep)). injection Hstep as <-. cbn [mapping]. unfold map_insert.
  rewrite fmap_app, reverse_app, fmap_cons. cbn [fmap list_fmap reverse rev_append app fst snd]. f_equal.
  rewrite <- Hinv. f_equal. rewrite filter_all; [done|]. intros [k [pos l]] Hin. simpl. intros ->.
  assert (Hk : (f_key f, l) ∈ reverse ((fun f => (f_key f, f_layout f)) <$> done))
    by (rewrite <- Hinv; apply list_elem_of_fmap; by exists (f_key f, (pos, l))).
  apply elem_of_reverse, list_elem_of_fmap in Hk as (g & Hg & Hgin). apply (f_equal fst) in Hg. cbn [fst] in Hg.
  rewrite fmap_app, NoDup_app in Hn. destruct Hn as (_ & Hd & _). eapply (Hd (f_key f)); [|by left].
  apply list_elem_of_fmap. exists g. done.
Qed.

Section create.

Variable is_method_table : TypeDescription -> bool.

Lemma place_explicit_ok base keys p placed f p' placed' :
  0 <= base -> placement_ok keys p /\ base <= next p -> f_key f ∉ keys -> layout_ok (f_layout f) ->
  match f_offset f with Some o => 0 <= o | None => True end ->
  place_explicit is_method_table base (p, placed) f = Val (p', placed') ->
  placement_ok (keys ++ [f_key f]) p' /\ base <= next p'.
Proof.
  intros Hb [Hok Hn] Hfresh Hl Ho Hp. unfold place_explicit in Hp.
  apply obind_val in Hp as (o & Hoff & Hp). destruct (f_offset f) as [o'|]; [|done]. injection Hoff as ->.
  apply obind_val in Hp as (a & [-> _]%arith_val & Hp). apply obind_val in Hp as (sz & Hsz & Hp).
  apply obind_val in Hp as (e & [-> _]%arith_val & Hp).
  destruct (forallb _ _); [|done]. apply obind_val in Hp as (d & Hd & [= <- <-]).
  split; [eapply placement_add; eauto; lia | simpl; lia].
Qed.

Lemma explicit_loop_ok fields base al p placed :
  0 <= base -> specs_ok fields ->
  ofold (place_explicit is_method_table base) (placement0 base al, []) fields = Val (p, placed) ->
  placement_ok (f_key <$> fields) p /\ base <= next p.
Proof.
  intros Hb Hs Hp.
  refine (ofold_inv _ (fun done st => placement_ok (f_key <$> done) st.1 /\ base <= next st.1) _ _ (p, placed) _ _ Hp).
  - intros done f rest [p1 pl1] [p2 pl2] Hsplit Hinv Hstep. rewrite fmap_app.
    destruct (specs_ok_at _ _ _ _ Hs Hsplit) as (? & ? & _ & ?). by eapply place_explicit_ok.
  - split; [apply placement0_ok | simpl; lia].
Qed.

Lemma create_layout_ok fields layout base al l :
  0 <= base -> specs_ok fields ->
  match layout with Sequential (Some (packing, class_size)) => 0 <= packing | _ => True end ->
  create_field_layout is_method_table fields layout base al = Val l ->
  layout_ok l /\ exists fs total la d hr, l = LField fs total la d hr /\ base <= total <= MAX_LAYOUT /\
    (forall k pos fl, (k, (pos, fl)) ∈ fs -> k ∈ (f_key <$> fields)).
Proof.
  intros Hb Hs Hpk Hc. unfold create_field_layout in Hc.
  apply obind_val in Hc as ([p total] & Hp & Hc).
  destruct (MAX_LAYOUT <? total) eqn:Hmax; [done|]. injection Hc as <-. bool_to_prop.
  assert (Hgoal : placement_ok (f_key <$> fields) p /\ base <= total).
  { destruct layout as [|s|e].
    - apply place_sequentially_ok in Hp as ([Hok Hn _ _ _] & ? & _); [split; [done | lia] | done | by vm_compute | done].
    - set (ps := match s with None => (8, 0) | Some (packing, cs) => (if packing =? 0 then 8 else packing, cs) end) in Hp.
      assert (Hps : 0 < fst ps).
      { unfold ps. destruct s as [[packing cs]|]; simpl; [|lia]. destruct (packing =? 0) eqn:E; bool_to_prop; lia. }
      destruct ps as [packing cs]. apply obind_val in Hp as ([q t] & Hq & Hp).
      apply obind_val in Hp as (dc & _ & [= -> <-]).
      apply place_sequentially_ok in Hq as ([Hok Hn _ _ _] & ? & _); [split; [done | lia] | done | done | done].
    - apply obind_val in Hp as ([q placed] & Hq & Hp). apply explicit_loop_ok in Hq as [Hok Hn]; [|done..].
      destruct e as [cs|]; [|injection Hp as <- <-; split; [done | lia]].
      apply obind_val in Hp as (dc & _ & [= -> <-]). split; [done | lia]. }
  destruct Hgoal as [Hok Ht]. split; [eapply placement_layout_ok; [done | lia]|].
  do 5 eexists. split; [done|]. split; [lia|]. apply Hok.
Qed.

End create.

(** Adding a base class's fields to the map of the derived class. *)
Lemma elem_of_fold_insert (bfs fs : list (FieldKey * (Z * LayoutManager))) kv :
  NoDup (fst <$> bfs) -> (forall k v v', (k, v) ∈ bfs -> (k, v') ∈ fs -> False) ->
  kv ∈ foldl (fun m kv => map_insert m kv.1 kv.2) fs bfs <-> kv ∈ fs \/ kv ∈ bfs.
Proof.
  revert fs. induction bfs as [|[k v] bfs IH]; intros fs Hn Hd; simpl; [set_solver|].
  simpl in Hn. apply NoDup_cons in Hn as [Hk Hn]. destruct kv as [k0 v0].
  assert (Hnew : forall v', (k, v') ∈ fs -> False) by (intros v' ?; eapply (Hd k v v'); set_solver).
  rewrite IH; [rewrite elem_of_map_insert by done; set_solver | done |].
  intros k1 v1 v2 H1. rewrite elem_of_map_insert by done. intros [[= -> ->] | H2].
  - apply Hk. apply list_elem_of_fmap. by exists (k, v1).
  - eapply (Hd k1 v1 v2); set_solver.
Qed.

Lemma merge_base_ok result base_layout :
  layout_ok result -> layout_ok base_layout ->
  match result, base_layout with
  | LField fs _ _ _ _, LField bfs _ _ _ _ =>
      NoDup (fst <$> bfs) /\ (forall k v v', (k, v) ∈ bfs -> (k, v') ∈ fs -> False)
  | _, _ => True
  end ->
  layout_ok (merge_base result base_layout).
Proof.
  intros Hl Hbl Hk. destruct result as [fs total al d hr| |]; [|done..].
  destruct base_layout as [bfs bt bal bd bhr| |]; [|done..]. destruct Hk as [Hn Hd]. cbn [merge_base].
  inversion Hl as [| |? ? ? ? ? L1 L2 L3 L4 L5 L6]; inversion Hbl as [| |? ? ? ? ? B1 B2 B3 B4 B5 B6]; subst.
  assert (Hin : forall k pos l, (k, (pos, l)) ∈ foldl (fun m kv => map_insert m kv.1 kv.2) fs bfs <->
    (k, (pos, l)) ∈ fs \/ (k, (pos, l)) ∈ bfs) by (intros; by apply elem_of_fold_insert).
  assert (Href : forall s off, ref_at s (merge_base (LField fs total al d hr) (LField bfs bt bal bd bhr)) off <->
    ref_at s (LField fs total al d hr) off \/ ref_at s (LField bfs bt bal bd bhr) off).
  { intros s off. split.
    - intros Hr. inversion Hr; subst. match goal with H : _ ∈ _ |- _ => apply Hin in H as [?|?] end;
        [left | right]; by eapply ref_field.
    - intros [Hr | Hr]; inversion Hr; subst; (eapply ref_field; [apply Hin|]); eauto. }
  constructor.
  - intros k pos l [?|?]%Hin; eauto.
  - intros k pos l [?|?]%Hin; eauto.
  - done.
  - by apply merge_ok.
  - intros off. rewrite marks_merge, L5, B5. by rewrite <- Href.
  - intros off Hr%Href. destruct Hr as [Hr | Hr]; [by rewrite (L6 _ Hr) | by rewrite (B6 _ Hr), orb_true_r].
Qed.

(** ** Overlap in explicit layouts *)

(** Two placed fields either do not overlap, or hold no reference, or are the same
    reference slot. *)
Definition alias_ok (p1 s1 : Z) (l1 : LayoutManager) (p2 s2 : Z) (l2 : LayoutManager) : Prop :=
  p1 + s1 <= p2 \/ p2 + s2 <= p1 \/
  (is_or_contains_refs l1 = false /\ is_or_contains_refs l2 = false) \/
  (p1 = p2 /\ s1 = s2 /\ is_gc_ptr l1 = true /\ is_gc_ptr l2 = true).

Record explicit_inv (keys : list FieldKey) (st : placement * list (Z * Z * LayoutManager)) : Prop := {
  ex_keys : forall k pos l, (k, (pos, l)) ∈ mapping st.1 -> k ∈ keys;
  ex_placed : forall k pos l, (k, (pos, l)) ∈ mapping st.1 ->
    exists sz, size (E:=Empty_set) l = Val sz /\ (pos, pos + sz, l) ∈ st.2 /\ pos + sz <= next st.1;
  ex_alias : forall k1 p1 l1 s1 k2 p2 l2 s2,
    (k1, (p1, l1)) ∈ mapping st.1 -> (k2, (p2, l2)) ∈ mapping st.1 -> k1 <> k2 ->
    size (E:=Empty_set) l1 = Val s1 -> size (E:=Empty_set) l2 = Val s2 -> alias_ok p1 s1 l1 p2 s2 l2;
}.

Lemma overlap_ok_alias mt f a sz ps psz pl :
  mt (f_owner f) = false -> overlap_ok mt f a (a + sz) (ps, ps + psz, pl) = true ->
  alias_ok a sz (f_layout f) ps psz pl.
Proof.
  intros Hmt. unfold overlap_ok, alias_ok. rewrite Hmt, orb_false_r.
  destruct (a <? ps + psz) eqn:E1; bool_to_prop; [|auto].
  destruct (ps <? a + sz) eqn:E2; bool_to_prop; [|auto].
  destruct (is_or_contains_refs (f_layout f)), (is_or_contains_refs pl); simpl; intros H; auto;
    bool_to_prop; right; right; right; split; try split; try done; lia.
Qed.

Lemma alias_ok_sym p1 s1 l1 p2 s2 l2 : alias_ok p1 s1 l1 p2 s2 l2 -> alias_ok p2 s2 l2 p1 s1 l1.
Proof. unfold alias_ok. intuition. Qed.

Lemma place_explicit_inv mt base keys st f st' :
  explicit_inv keys st -> f_key f ∉ keys -> mt (f_owner f) = false ->
  place_explicit mt base st f = Val st' -> explicit_inv (keys ++ [f_key f]) st'.
Proof.
  destruct st as [p placed]. intros [H1 H2 H3] Hfresh Hmt Hp. unfold place_explicit in Hp. simpl in *.
  apply obind_val in Hp as (o & _ & Hp). apply obind_val in Hp as (a & _ & Hp).
  apply obind_val in Hp as (sz & Hsz & Hp). apply obind_val in Hp as (e & [-> _]%arith_val & Hp).
  destruct (forallb _ _) eqn:Hall; [|done]. apply obind_val in Hp as (d & Hd & [= <-]).
  pose proof (size_any (F:=Empty_set) _ _ Hsz) as Hsz'.
  assert (Hnew : forall v, (f_key f, v) ∈ mapping p -> False) by (intros [po l] Hin; by apply Hfresh, (H1 _ po l)).
  assert (Hover : forall k pos l s, (k, (pos, l)) ∈ mapping p -> size (E:=Empty_set) l = Val s ->
    alias_ok a sz (f_layout f) pos s l).
  { intros k pos l s Hin Hs. destruct (H2 _ _ _ Hin) as (s' & Hs' & Hpl & _). assert (s' = s) as -> by congruence.
    eapply (overlap_ok_alias mt); [done|]. rewrite forallb_forall in Hall. by apply Hall, list_elem_of_In. }
  split; simpl.
  - intros k po l. rewrite elem_of_map_insert by done. intros [[= -> _ _] | Hin]; [set_solver|].
    apply elem_of_app. left. by eapply H1.
  - intros k po l. rewrite elem_of_map_insert by done. intros [[= -> -> ->] | Hin].
    + exists sz. split; [done|]. split; [set_solver | lia].
    + destruct (H2 _ _ _ Hin) as (s & ? & ? & ?). exists s. split; [done|]. split; [set_solver | lia].
  - intros k1 p1 l1 s1 k2 p2 l2 s2. rewrite !elem_of_map_insert by done.
    intros [[= -> -> ->] | Hin1] [[= -> -> ->] | Hin2] Hne Hs1 Hs2; try done.
    + assert (s1 = sz) as -> by congruence. by eapply Hover.
    + assert (s2 = sz) as -> by congruence. apply alias_ok_sym. by eapply Hover.
    + by eapply H3.
Qed.

Lemma explicit_inv_loop mt base al fields p placed :
  NoDup (f_key <$> fields) -> Forall (fun f => mt (f_owner f) = false) fields ->
  ofold (place_explicit mt base) (placement0 base al, []) fields = Val (p, placed) ->
  explicit_inv (f_key <$> fields) (p, placed).
Proof.
  intros Hn Hmt Hp.
  refine (ofold_inv _ (fun done st => explicit_inv (f_key <$> done) st) _ _ (p, placed) _ _ Hp).
  - intros done f rest st1 st2 Hsplit Hinv Hstep. rewrite fmap_app. eapply place_explicit_inv; [done | | | done].
    + rewrite Hsplit, fmap_app, NoDup_app in Hn. destruct Hn as (_ & Hd & _). intros Hin. apply (Hd _ Hin). simpl. set_solver.
    + rewrite Hsplit in Hmt. by apply Forall_app in Hmt as [_ [? _]%Forall_cons].
  - split; simpl; intros *; intros H; by apply elem_of_nil in H.
Qed.

(** ** Theorems *)

(** C24.  A class layout, however its own fields are placed, joined with its base
    class's layout, has an exact reference map: the map marks an offset exactly when
    an object reference lies there, at any depth, and the byref flag is set whenever
    there is a managed pointer. *)
Theorem built_layout_exact mt fields layout base_layout al l :
  match base_layout with
  | LField bfs btotal _ _ _ =>
      layout_ok base_layout /\ NoDup (fst <$> bfs) /\
      (forall k v, (k, v) ∈ bfs -> k ∉ (f_key <$> fields)) /\
      specs_ok fields /\
      match layout with Sequential (Some (packing, class_size)) => 0 <= packing | _ => True end /\
      create_field_layout mt fields layout btotal al = Val l
  | _ => False
  end ->
  layout_ok (merge_base l base_layout).
Proof.
  destruct base_layout as [bfs btotal bal bd bhr| |]; [|done..].
  intros (Hb & Hn & Hk & Hs & Hpk & Hc). assert (0 <= btotal) by by inversion Hb.
  destruct (create_layout_ok mt fields layout btotal al l) as [Hl (fs & t & la & d & hr & -> & _ & Hfs)]; try done.
  apply merge_base_ok; [done | done |]. split; [done|]. intros k v [pos fl] H1 H2. apply (Hk k v H1). by eapply Hfs.
Qed.

(** ** Inline arrays *)

Lemma first_field_in td fs x : first_field td fs = Some x -> exists k, (k, x) ∈ fs.
Proof.
  unfold first_field. assert (H : forall best, (forall y, best = Some y -> exists k, (k, y) ∈ fs) -> forall l, (forall kv, kv ∈ l -> kv ∈ fs) ->
    foldl (fun best kv => if bool_decide (owner kv.1 = td) then
             match best with None => Some kv.2 | Some current => if kv.2.1 <? current.1 then Some kv.2 else best end
           else best) best l = Some x -> exists k, (k, x) ∈ fs); [|intros Hx; by eapply (H None); eauto].
  intros best Hbest l. revert best Hbest. induction l as [|[k v] l IH]; intros best Hbest Hl; cbn [foldl]; [by apply Hbest|].
  apply IH; [|intros kv Hkv; apply Hl; by right].
  assert (Hv : forall y, Some v = Some y -> exists k, (k, y) ∈ fs) by (intros y [= <-]; exists k; apply Hl; by left).
  case_bool_decide; [|done]. destruct best as [c|]; [|done]. cbn [fst snd]. by destruct (v.1 <? c.1).
Qed.

(** An inline array has room for its elements, and its map marks exactly the references
    of the copies of its first field. *)
Theorem expand_inline_exact {E} td n fs total al d hr base fl sz l :
  layout_ok (LField fs total al d hr) -> 0 <= al -> first_field td fs = Some (base, fl) -> 1 < n ->
  size (E:=Empty_set) fl = Val sz -> base + sz * n <= int_max usize ->
  expand_inline (E:=E) td n (LField fs total al d hr) = Val l ->
  exists total' d' hr', l = LField fs total' al d' hr' /\ base + sz * n <= total' /\
    if is_or_contains_refs fl then
      hr' = true /\ desc_ok d' /\
      forall x, marks d' x <-> exists i o, 0 <= i < n /\ ref_at Scalars.ObjectRef fl o /\ x = base + (sz * i + o)
    else d' = d /\ hr' = hr.
Proof.
  intros Hl Hal Hf Hn Hsz Hmax Hx. destruct (first_field_in _ _ _ Hf) as [k Hk].
  inversion Hl as [| |? ? ? ? ? Hls Hpos _ _ _ _]; subst. specialize (Hls _ _ _ Hk). specialize (Hpos _ _ _ Hk).
  pose proof (size_nonneg fl sz Hls Hsz) as H0.
  cbn [expand_inline] in Hx. destruct (Z.leb_spec n 1); [lia|]. rewrite Hf in Hx. cbn [obind] in Hx.
  rewrite (size_any _ _ Hsz) in Hx. cbn [obind] in Hx.
  assert (Hat : forall i, 0 <= i <= n -> saturate usize (base + saturate usize (sz * i)) = base + sz * i).
  { intros i Hi. unfold saturate. int_bounds. assert (0 <= sz * i <= sz * n) by nia. lia. }
  apply obind_val in Hx as (total' & Ht & Hx). rewrite (Hat n) in Ht by lia.
  apply align_up_spec in Ht as (_ & [Ht _] & _); [|nia | lia].
  destruct (is_or_contains_refs fl) eqn:Hc; [|injection Hx as <-; by exists total', d, hr].
  apply obind_val in Hx as (d' & Hd & [= <-]). exists total', d', true. do 2 (split; [done|]). split; [done|].
  apply (ofold_marks _ (fun i x => exists o, ref_at Scalars.ObjectRef fl o /\ x = base + (sz * i + o))) in Hd as [Hok Hm]; cycle 1.
  { intros i d1 d2 Hi Hd1 Hp. apply elem_of_seqZ in Hi. rewrite Hat in Hp by lia.
    apply populate_spec in Hp as [Hok Hm]; [|done | nia | done]. split; [done|]. intros x. rewrite Hm. by setoid_rewrite Z.add_assoc. }
  { apply empty_desc_ok. }
  split; [done|]. intros x. rewrite Hm. setoid_rewrite elem_of_seqZ. split.
  - intros [He|(i & Hi & o & Ho & ->)]; [by apply marks_empty in He|]. exists i, o. split; [lia | done].
  - intros (i & o & Hi & Ho & ->). right. exists i. split; [lia | by exists o].
Qed.

Definition td_a : TypeDescription := {| resolution := 1; index := 1 |}.
Definition td_b : TypeDescription := {| resolution := 1; index := 2 |}.

(** A base class of one object reference, and a derived one of a byte, a packed
    unaligned reference and an array of two references. *)
Definition base_fields : list FieldSpec :=
  [{| f_owner := td_a; f_name := "next"; f_offset := None; f_layout := LScalar Scalars.ObjectRef |}].
Definition derived_fields : list FieldSpec :=
  [{| f_owner := td_b; f_name := "tag"; f_offset := None; f_layout := LScalar Scalars.UInt8 |};
   {| f_owner := td_b; f_name := "data"; f_offset := None; f_layout := LScalar Scalars.ObjectRef |};
   {| f_owner := td_b; f_name := "rest"; f_offset := None; f_layout := LArray (LScalar Scalars.ObjectRef) 2 |};
   {| f_owner := td_b; f_name := "cell"; f_offset := None; f_layout := LScalar Scalars.ManagedPtr |}].

Lemma base_specs_ok : specs_ok base_fields.
Proof. split; [apply NoDup_singleton|]. repeat constructor; vm_compute; congruence. Qed.

Lemma derived_specs_ok : specs_ok derived_fields.
Proof.
  split; [|repeat constructor; vm_compute; congruence].
  apply (bool_decide_unpack _). vm_compute. exact I.
Qed.

Definition base_layout_v : LayoutManager :=
  match create_field_layout (fun _ => false) base_fields Automatic 0 1 with Val l => l | _ => LScalar Scalars.Int8 end.
Definition derived_layout_v : LayoutManager :=
  match create_field_layout (fun _ => false) derived_fields (Sequential (Some (4, 0))) 8 8 with
  | Val l => l | _ => LScalar Scalars.Int8 end.

Lemma base_layout_v_ok : layout_ok base_layout_v.
Proof.
  assert (H : create_field_layout (fun _ => false) base_fields Automatic 0 1 = Val base_layout_v) by by vm_compute.
  by apply create_layout_ok in H as [? _]; [|done | apply base_specs_ok | done].
Qed.

Lemma built_layout_exact_witness : layout_ok (merge_base derived_layout_v base_layout_v).
Proof.
  apply (built_layout_exact (fun _ => false) derived_fields (Sequential (Some (4, 0))) base_layout_v 8).
  split; [apply base_layout_v_ok|]. split; [apply NoDup_singleton|].
  split; [|split; [apply derived_specs_ok | split; [done | by vm_compute]]].
  intros k v Hin. apply list_elem_of_singleton in Hin as [= -> ->].
  apply (bool_decide_unpack _). vm_compute. exact I.
Defined.

Lemma derived_layout_v_ok : layout_ok derived_layout_v.
Proof.
  assert (H : create_field_layout (fun _ => false) derived_fields (Sequential (Some (4, 0))) 8 8 = Val derived_layout_v)
    by by vm_compute.
  by apply create_layout_ok in H as [? _]; [|done | apply derived_specs_ok | done].
Qed.

Lemma trace_fields_exact_witness :
  exists fs d, derived_layout_v = LField fs 64 8 d true /\
    trace_fields (LField fs 64 8 d true) 60 = Val ([12; 20; 28], [36]) /\
    (36 ∈ [36] <-> ref_at Scalars.ManagedPtr (LField fs 64 8 d true) 36 /\ 36 + 24 <= 60).
Proof.
  pose proof derived_layout_v_ok as Hok. unfold derived_layout_v in *.
  destruct (create_field_layout _ _ _ _ _) as [l| |] eqn:E; vm_compute in E; [|done..].
  injection E as <-. eexists _, _. split; [reflexivity|]. split; [reflexivity|].
  eapply (trace_fields_exact _ 64 8 _ true 60 [12; 20; 28] [36] Hok); reflexivity.
Defined.

(**  Sequential and automatic placement: every field starts after the base,
    at a multiple of its packed alignment, and ends within the size; two fields never
    overlap; and the size is a multiple of the class alignment. *)
Theorem sequential_layout_disjoint fields base al packing p total :
  0 <= base -> 0 < packing -> specs_ok fields ->
  place_fields_sequentially (E:=TypeResolutionError) fields base al packing = Val (p, total) ->
  (max_alignment p | total) /\
  (forall k pos l, (k, (pos, l)) ∈ mapping p ->
     exists sz, size (E:=Empty_set) l = Val sz /\ base <= pos /\ 0 <= sz /\ pos + sz <= total /\
       (Z.min (alignment l) packing | pos)) /\
  (forall k1 p1 l1 s1 k2 p2 l2 s2,
     (k1, (p1, l1)) ∈ mapping p -> (k2, (p2, l2)) ∈ mapping p -> k1 <> k2 ->
     size (E:=Empty_set) l1 = Val s1 -> size (E:=Empty_set) l2 = Val s2 -> p1 + s1 <= p2 \/ p2 + s2 <= p1).
Proof.
  intros Hb Hpk Hs Hp. destruct (place_sequentially_ok _ _ _ _ _ _ Hb Hpk Hs Hp) as ([H1 H2 H3 H4 H5] & Hn & Hd).
  split; [done|]. split; [|done]. intros k pos l Hin. destruct (H4 _ _ _ Hin) as (sz & ? & ? & ? & ? & ? & _).
  exists sz. repeat (split; [done || lia|]). done.
Qed.

Lemma sequential_layout_disjoint_witness :
  exists p, place_fields_sequentially (E:=TypeResolutionError) derived_fields 8 8 4 = Val (p, 64) /\
    (max_alignment p | 64).
Proof.
  destruct (place_fields_sequentially (E:=TypeResolutionError) derived_fields 8 8 4) as [[p t]| |] eqn:E;
    vm_compute in E; [|done..]. injection E as <- <-. eexists. split; [reflexivity|].
  eapply (sequential_layout_disjoint derived_fields 8 8 4); [lia | lia | apply derived_specs_ok | by vm_compute].
Defined.

(**  In an explicit layout of a type other than the runtime's method table, a
    reference is never overlaid with anything but the very same reference slot: two
    overlapping fields hold no references, or have the same range and are both
    references. *)
Theorem explicit_refs_never_alias mt fields base al p placed k1 p1 l1 s1 k2 p2 l2 s2 :
  NoDup (f_key <$> fields) -> Forall (fun f => mt (f_owner f) = false) fields ->
  ofold (place_explicit mt base) (placement0 base al, []) fields = Val (p, placed) ->
  (k1, (p1, l1)) ∈ mapping p -> (k2, (p2, l2)) ∈ mapping p -> k1 <> k2 ->
  size (E:=Empty_set) l1 = Val s1 -> size (E:=Empty_set) l2 = Val s2 ->
  alias_ok p1 s1 l1 p2 s2 l2.
Proof. intros Hn Hmt Hp. destruct (explicit_inv_loop _ _ _ _ _ _ Hn Hmt Hp) as [_ _ H]. apply H. Qed.

Definition union_fields : list FieldSpec :=
  [{| f_owner := td_a; f_name := "a"; f_offset := Some 8; f_layout := LScalar Scalars.ObjectRef |};
   {| f_owner := td_a; f_name := "b"; f_offset := Some 8; f_layout := LScalar Scalars.ObjectRef |};
   {| f_owner := td_a; f_name := "c"; f_offset := Some 0; f_layout := LScalar Scalars.Int64 |}].

Lemma explicit_refs_never_alias_witness :
  exists p placed,
    ofold (place_explicit (fun _ => false) 0) (placement0 0 1, []) union_fields = Val (p, placed) /\
    alias_ok 8 8 (LScalar Scalars.ObjectRef) 8 8 (LScalar Scalars.ObjectRef).
Proof.
  destruct (ofold (place_explicit (fun _ => false) 0) (placement0 0 1, []) union_fields) as [[p pl]| |] eqn:E;
    pose proof E as E'; vm_compute in E; [|done..]. injection E as <- <-. eexists _, _. split; [reflexivity|].
  eapply (explicit_refs_never_alias (fun _ => false) union_fields 0 1 _ _
    {| owner := td_a; name := "a" |} 8 _ 8 {| owner := td_a; name := "b" |} 8 _ 8).
  - apply (bool_decide_unpack _). vm_compute. exact I.
  - repeat constructor.
  - exact E'.
  - cbn [mapping]. do 2 apply list_elem_of_further. apply list_elem_of_here.
  - cbn [mapping]. apply list_elem_of_further, list_elem_of_here.
  - done.
  - done.
  - done.
Defined.
