(* ===== verification/FrameHomes.v ===== *)
(** * Homes of addressed variables

    [dotnet-vm-data/src/frame_homes.rs]: the non-moving blocks in which a frame keeps
    the locals and arguments whose address is taken, each named by a serial its
    thread issues.  The thread gauges that dropping a block decrements are the ones of
    [FrameAlloc]; [debug_assert]s are not modelled. *)

From Stdlib Require Import ZArith Lia.
From stdpp Require Import base tactics list option strings sets.
From S2P Require Import Prelude Bytes ManagedPtr FrameAlloc Layout.

Import RawBlocks Ledger.

Record HomeValueType : Set := {
  hv_description : TypeDescription;
  hv_generics : list nat;
  (** the layout, and the name of the shared copy of it *)
  hv_fields : LayoutManager;
  hv_arc : nat;
}.

Record VariableHome : Set := {
  vh_offset : Z;
  vh_layout : LayoutManager;
  vh_value_type : option HomeValueType;
  vh_scalar_type : option TypeDescription;
}.

Record FrameHomeLayout : Set := {
  hl_block : LayoutManager;
  hl_locals : list (option VariableHome);
  hl_arguments : list (option VariableHome);
  hl_needs_trace : bool;
}.

(** [FrameHomeLayout::new]; the block is a field layout. *)
Definition new_layout (block : LayoutManager) (locals arguments : list (option VariableHome)) : FrameHomeLayout :=
  {| hl_block := block; hl_locals := locals; hl_arguments := arguments;
     hl_needs_trace :=
       match block with
       | LField _ _ _ d hr =>
           hr || negb (match unaligned_offsets d with [] => true | _ => false end)
              || existsb (fun w => negb (w =? 0)) (bitmap d)
       | _ => false
       end |}.

Definition layout_local (l : FrameHomeLayout) (i : nat) : option VariableHome := mjoin (hl_locals l !! i).
Definition layout_argument (l : FrameHomeLayout) (i : nat) : option VariableHome := mjoin (hl_arguments l !! i).

Fixpoint homed_from (i : nat) (homes : list (option VariableHome)) : list (nat * VariableHome) :=
  match homes with
  | [] => []
  | Some h :: hs => (i, h) :: homed_from (S i) hs
  | None :: hs => homed_from (S i) hs
  end.

Definition homed_arguments (l : FrameHomeLayout) : list (nat * VariableHome) := homed_from 0 (hl_arguments l).

Definition home_alignment (l : FrameHomeLayout) : Z := Z.max (Layout.alignment (hl_block l)) 16.

Definition home_size (l : FrameHomeLayout) : Z :=
  match hl_block l with LField _ total _ _ _ => total | _ => 0 end.

Record HomeSlot : Set := { slot_address : Z; slot_serial : Z; slot_home : VariableHome }.

Record HomeBlock : Set := { hb_block : RawBlock; hb_layout : FrameHomeLayout; hb_serial : Z }.

Record FrameHomes : Set := { homes : option HomeBlock; temporaries : list HomeBlock }.

(** What a constructor call leaves to do when it returns: the receiver, in a temporary
    home, becomes the value of a slot. *)
Record ConstructorResult : Set := {
  result_slot : nat;
  cr_serial : Z;
  cr_description : TypeDescription;
  cr_generics : list nat;
  cr_fields : LayoutManager;
  cr_arc : nat;
}.

Definition no_homes : FrameHomes := {| homes := None; temporaries := [] |}.

(** [FrameHomes::allocate]; the block's allocator is an argument, as in [FrameAlloc]. *)
Definition homes_allocate (layout : FrameHomeLayout) (serial : Z) (alloc_fn : RawBlocks.Layout -> Z) (g : gauges)
  : outcome RawBlockError (FrameHomes * gauges) :=
  let* (block, g) := zeroed_with (home_size layout) (home_alignment layout) alloc_fn g in
  Val ({| homes := Some {| hb_block := block; hb_layout := layout; hb_serial := serial |}; temporaries := [] |}, g).

Definition is_empty (h : FrameHomes) : bool :=
  match homes h, temporaries h with None, [] => true | _, _ => false end.

Definition blocks_of (h : FrameHomes) : list HomeBlock :=
  match homes h with Some b => b :: temporaries h | None => temporaries h end.

(** [release]: the fields are cleared, and every block dropped. *)
Definition release (h : FrameHomes) (g : gauges) : outcome RawBlockError (FrameHomes * gauges) :=
  let* g := drop_blocks (hb_block <$> blocks_of h) g in
  Val (no_homes, g).

Definition homes_layout (h : FrameHomes) : option FrameHomeLayout := option_map hb_layout (homes h).

(** [slot]: a home offset past the block panics. *)
Definition slot {E} (b : HomeBlock) (home : VariableHome) : outcome E HomeSlot :=
  let* a := expect (ptr_at (hb_block b) (vh_offset home)) in
  Val {| slot_address := a; slot_serial := hb_serial b; slot_home := home |}.

Definition homes_local {E} (h : FrameHomes) (i : nat) : outcome E (option HomeSlot) :=
  match homes h with
  | None => Val None
  | Some b =>
      match layout_local (hb_layout b) i with
      | None => Val None
      | Some home => let* s := slot b home in Val (Some s)
      end
  end.

Definition homes_argument {E} (h : FrameHomes) (i : nat) : outcome E (option HomeSlot) :=
  match homes h with
  | None => Val None
  | Some b =>
      match layout_argument (hb_layout b) i with
      | None => Val None
      | Some home => let* s := slot b home in Val (Some s)
      end
  end.

Definition block_for (h : FrameHomes) (serial : Z) : option (Z * Z) :=
  option_map (fun b => (base (hb_block b), payload_len (hb_block b)))
    (head (filter (fun b => hb_serial b = serial) (blocks_of h))).

(** [allocate_temporary]: the serial must not be live; [reserved] is the answer of
    [try_reserve(1)]. *)
Definition allocate_temporary (h : FrameHomes) (layout : FrameHomeLayout) (serial : Z) (reserved : bool)
    (fa : FrameAllocations) (alloc_fn : RawBlocks.Layout -> Z) (g : gauges)
  : outcome FrameAllocationError (Z * FrameHomes * FrameAllocations * gauges) :=
  match block_for h serial with
  | Some _ => Panic
  | None =>
      if negb reserved then Err (HostAllocationFailed AllocationFailed)
      else
        let* (block, fa, g) := allocate_external fa g alloc_fn (home_size layout) (home_alignment layout) DEFAULT in
        Val (base block,
             {| homes := homes h;
                temporaries := temporaries h ++ [{| hb_block := block; hb_layout := layout; hb_serial := serial |}] |},
             fa, g)
  end.

Definition is_byref_home (h : FrameHomes) (serial off : Z) : bool :=
  existsb (fun b =>
    (hb_serial b =? serial) &&
    existsb (fun home =>
      match home with
      | Some home => (vh_offset home =? off) &&
          match vh_layout home with LScalar Scalars.ManagedPtr => true | _ => false end
      | None => false
      end) (hl_locals (hb_layout b) ++ hl_arguments (hb_layout b))) (blocks_of h).

(** [trace]: per block that needs it, the offsets read as references. *)
Fixpoint trace_blocks (bs : list HomeBlock) : outcome Empty_set (list (Z * (list Z * list Z))) :=
  match bs with
  | [] => Val []
  | b :: bs =>
      let* rest := trace_blocks bs in
      if hl_needs_trace (hb_layout b) then
        let* refs := trace_fields (hl_block (hb_layout b)) (payload_len (hb_block b)) in
        Val ((hb_serial b, refs) :: rest)
      else Val rest
  end.

Definition trace_homes (h : FrameHomes) : outcome Empty_set (list (Z * (list Z * list Z))) :=
  trace_blocks (blocks_of h).

Definition serials (h : FrameHomes) : list Z := hb_serial <$> blocks_of h.

Lemma block_for_some h s a : block_for h s = Some a -> s ∈ serials h.
Proof.
  unfold block_for, serials. intros H. destruct (filter _ _) as [|b bs] eqn:E; [done|].
  assert (Hin : b ∈ filter (fun b => hb_serial b = s) (blocks_of h)) by (rewrite E; set_solver).
  apply list_elem_of_filter in Hin as [<- Hin]. apply list_elem_of_fmap. by exists b.
Qed.

Lemma block_for_none h s : block_for h s = None -> s ∉ serials h.
Proof.
  unfold block_for, serials. destruct (filter _ _) as [|b bs] eqn:E; [|done]. intros _ Hin.
  apply list_elem_of_fmap in Hin as (b & -> & Hin).
  assert (Hin' : b ∈ filter (fun b' => hb_serial b' = hb_serial b) (blocks_of h)) by by apply list_elem_of_filter.
  rewrite E in Hin'. by apply elem_of_nil in Hin'.
Qed.

(**  Skipping the blocks whose layout says they need no trace loses no
    reference: such a block contains no object reference and no managed pointer. *)
Theorem needs_trace_complete fs total al d hr locals arguments off s :
  layout_ok (LField fs total al d hr) -> s = Scalars.ObjectRef \/ s = Scalars.ManagedPtr ->
  hl_needs_trace (new_layout (LField fs total al d hr) locals arguments) = false ->
  ~ ref_at s (LField fs total al d hr) off.
Proof.
  intros Hl Hs Hn Hr. cbn [new_layout hl_needs_trace] in Hn. bool_to_prop.
  inversion Hl as [| |? ? ? ? ? _ _ _ Hd Hm Hp]; subst. destruct Hs as [-> | ->]; [|by apply Hp in Hr; subst].
  apply Hm in Hr as [(_ & _ & Hb) | Hu].
  - assert (Hw : word_at (bitmap d) (off / 8 / 64) = 0); [|by rewrite Hw, Z.testbit_0_l in Hb].
    unfold word_at in *. destruct (bitmap d !! _) as [w|] eqn:E; [|done]. simpl in *.
    destruct (w =? 0) eqn:Ew; [by apply Z.eqb_eq in Ew|].
    assert (He : existsb (fun w => negb (w =? 0)) (bitmap d) = true); [|congruence].
    apply existsb_exists. exists w. rewrite Ew. split; [|done]. apply list_elem_of_In. by eapply list_elem_of_lookup_2.
  - destruct (unaligned_offsets d); [by apply elem_of_nil in Hu | done].
Qed.

Lemma needs_trace_complete_witness :
  hl_needs_trace (new_layout (LField [] 16 8 empty_desc false) [None] []) = false /\
  ~ ref_at Scalars.ObjectRef (LField [] 16 8 empty_desc false) 8.
Proof.
  split; [reflexivity|].
  apply (needs_trace_complete [] 16 8 empty_desc false [None] [] 8 Scalars.ObjectRef); [|by left | reflexivity].
  constructor; try lia; try (intros k pos l H; by apply elem_of_nil in H); [apply empty_desc_ok | |].
  - intros off. split; [intros H; by apply marks_empty in H|]. intros H. inversion H; subst.
    match goal with H : _ ∈ [] |- _ => by apply elem_of_nil in H end.
  - intros off H. inversion H; subst. match goal with H : _ ∈ [] |- _ => by apply elem_of_nil in H end.
Defined.
