(* ===== verification/VmData.v ===== *)
(** * Frames and stacks

    The crate [dotnet-vm-data]: the evaluation stack, frames and the frame stack of
    [stack.rs], the data of exception handling of [exceptions.rs] and the method
    records of [lib.rs].  A [Vec] used as a stack is a list, its top at the end; slots,
    frame and handler indices are [nat], instruction pointers [Z] because
    [usize::MAX] is one.  A method is the fields of [MethodInfo] the modelled code
    reads.  Releasing a frame empties its ledger and homes; what that does to the
    thread's gauges is in [FrameAlloc] and [FrameHomes]. *)

From Stdlib Require Import ZArith Lia.
From stdpp Require Import base tactics list option strings sets relations.
From S2P Require Import Prelude Generics Bytes ManagedPtr StackValue Ops Instructions FrameAlloc Layout FrameHomes.

(** ** Exception data ([exceptions.rs]) *)

(** [Range<usize>]. *)
Record Range : Set := { start : Z; end_ : Z }.

#[export] Instance Range_eq_dec : EqDecision Range.
Proof. solve_decision. Defined.

Definition contains (r : Range) (x : Z) : bool := (start r <=? x) && (x <? end_ r).

(** A resolved catch type; the model only passes it to the type test. *)
Abbreviation ConcreteType := nat (only parsing).

Inductive HandlerKind : Set :=
| Catch (t : ConcreteType)
| Filter (clause_offset : Z)
| Finally
| Fault.

Record Handler : Set := { h_instructions : Range; kind : HandlerKind }.

Record ProtectedSection : Set := { s_instructions : Range; handlers : list Handler }.

Record HandlerAddress : Set := { frame_index : nat; section_index : nat; handler_index : nat }.

#[export] Instance HandlerAddress_eq_dec : EqDecision HandlerAddress.
Proof. solve_decision. Defined.

Record FilterState : Set := {
  fs_exception : option Z;
  fs_handler : HandlerAddress;
  fs_original_ip : Z;
  fs_original_stack_height : nat;
}.

Record SearchState : Set := {
  ss_exception : option Z;
  ss_cursor : HandlerAddress;
  ss_nested_filter : option FilterState;
}.

Inductive UnwindTarget : Set :=
| ToHandler (h : HandlerAddress)
| ToInstruction (ip : Z).

Record UnwindState : Set := {
  us_exception : option (option Z);
  us_target : UnwindTarget;
  us_cursor : HandlerAddress;
  us_nested_filter : option FilterState;
}.

Inductive ExceptionState : Set :=
| NoException
| Throwing (exception : option Z) (preserve : bool)
| Searching (s : SearchState)
| Filtering (s : FilterState)
| Unwinding (s : UnwindState)
| ExecutingHandler (s : UnwindState).

(** [VmContinuation]. *)
Inductive VmContinuation : Set :=
| NoContinuation
| RetryInstruction
| HandlerUnwinds (unwinds : list UnwindState).

(** ** Methods and frames *)

(** An instruction of a method body: an operand instruction, one of the exception
    instructions, or another one, named by a number. *)
Inductive VmInstruction : Set :=
| Operand (i : Instruction)
| Throw
| Rethrow
| Leave (target : Z)
| EndFinally
| EndFilter
| Ret
| Other (n : nat).

Inductive ReturnKind : Set := ReturnsVoid | ReturnsValue | ReturnsTypedReference.

(** A local variable of a method body. *)
Inductive LocalVariable : Set := TypedReferenceLocal | Variable_ (pinned by_ref : bool) (var_type : MethodType).

(** The method is named by a number; [parent] and [synchronized] are read from its metadata. *)
Record MethodInfo : Set := {
  source : nat;
  parent : TypeDescription;
  synchronized : bool;
  signature : MethodSignature MethodType;
  locals : list LocalVariable;
  exceptions : list ProtectedSection;
  instructions : list VmInstruction;
  is_cctor : bool;
  method_homes : option FrameHomeLayout;
}.

Definition return_kind (m : MethodInfo) : ReturnKind :=
  match return_type (signature m) with
  | Generics.Ret _ None => ReturnsVoid
  | Generics.Ret _ (Some PTypedReference) => ReturnsTypedReference
  | Generics.Ret _ (Some _) => ReturnsValue
  end.

(** A receiver counts as an argument. *)
Definition argument_count (m : MethodInfo) : nat :=
  (if instance (signature m) then 1 else 0) + length (parameters (signature m)).

Record BasePointer : Set := { bp_arguments : nat; bp_locals : nat; bp_stack : nat }.

Definition base0 : BasePointer := {| bp_arguments := 0; bp_locals := 0; bp_stack := 0 |}.

Record MulticastState : Set := { targets : Z; next_index : nat; mc_args : list StackValue }.

(** [FrameReturnAction::InvokeReturn]; the type is named by a number. *)
Inductive FrameReturnAction : Set := InvokeReturn (return_type : nat).

Record StackFrame : Set := {
  stack_height : nat;
  frame_base : BasePointer;
  ip : Z;
  info : MethodInfo;
  allocations : Ledger.FrameAllocations;
  generic_inst : Generics.GenericLookup;
  exception_stack : list (option Z);
  pinned_locals : list bool;
  is_finalizer : bool;
  multicast_state : option MulticastState;
  frame_continuation : option FrameReturnAction;
  frame_homes : FrameHomes;
  constructor_result : option ConstructorResult;
}.

Definition new_frame (bp : BasePointer) (m : MethodInfo) (g : Generics.GenericLookup) (pinned : list bool) : StackFrame :=
  {| stack_height := 0; frame_base := bp; ip := 0; info := m; allocations := Ledger.empty_ledger;
     generic_inst := g; exception_stack := []; pinned_locals := pinned; is_finalizer := false;
     multicast_state := None; frame_continuation := None; frame_homes := no_homes; constructor_result := None |}.

(** [reset_for_call]: every field is assigned, so the old frame does not matter;
    assigning [state] drops the old ledger. *)
Definition reset_for_call (f : StackFrame) (bp : BasePointer) (m : MethodInfo) (g : Generics.GenericLookup) (pinned : list bool)
  : StackFrame :=
  {| stack_height := 0; frame_base := bp; ip := 0; info := m; allocations := Ledger.empty_ledger;
     generic_inst := g; exception_stack := []; pinned_locals := pinned; is_finalizer := false;
     multicast_state := None; frame_continuation := None; frame_homes := no_homes; constructor_result := None |}.

Definition prepare_for_pool (f : StackFrame) : StackFrame :=
  {| stack_height := 0; frame_base := base0; ip := ip f; info := info f; allocations := Ledger.empty_ledger;
     generic_inst := generic_inst f; exception_stack := []; pinned_locals := []; is_finalizer := false;
     multicast_state := None; frame_continuation := None; frame_homes := no_homes; constructor_result := None |}.

Definition set_height (f : StackFrame) (h : nat) : StackFrame :=
  {| stack_height := h; frame_base := frame_base f; ip := ip f; info := info f; allocations := allocations f;
     generic_inst := generic_inst f; exception_stack := exception_stack f; pinned_locals := pinned_locals f;
     is_finalizer := is_finalizer f; multicast_state := multicast_state f;
     frame_continuation := frame_continuation f; frame_homes := frame_homes f;
     constructor_result := constructor_result f |}.

Definition set_ip (f : StackFrame) (i : Z) : StackFrame :=
  {| stack_height := stack_height f; frame_base := frame_base f; ip := i; info := info f;
     allocations := allocations f; generic_inst := generic_inst f; exception_stack := exception_stack f;
     pinned_locals := pinned_locals f; is_finalizer := is_finalizer f; multicast_state := multicast_state f;
     frame_continuation := frame_continuation f; frame_homes := frame_homes f;
     constructor_result := constructor_result f |}.

Definition set_exception_stack (f : StackFrame) (es : list (option Z)) : StackFrame :=
  {| stack_height := stack_height f; frame_base := frame_base f; ip := ip f; info := info f;
     allocations := allocations f; generic_inst := generic_inst f; exception_stack := es;
     pinned_locals := pinned_locals f; is_finalizer := is_finalizer f; multicast_state := multicast_state f;
     frame_continuation := frame_continuation f; frame_homes := frame_homes f;
     constructor_result := constructor_result f |}.

Definition set_frame_homes (f : StackFrame) (h : FrameHomes) : StackFrame :=
  {| stack_height := stack_height f; frame_base := frame_base f; ip := ip f; info := info f;
     allocations := allocations f; generic_inst := generic_inst f; exception_stack := exception_stack f;
     pinned_locals := pinned_locals f; is_finalizer := is_finalizer f; multicast_state := multicast_state f;
     frame_continuation := frame_continuation f; frame_homes := h;
     constructor_result := constructor_result f |}.

Definition set_multicast (f : StackFrame) (ms : option MulticastState) : StackFrame :=
  {| stack_height := stack_height f; frame_base := frame_base f; ip := ip f; info := info f;
     allocations := allocations f; generic_inst := generic_inst f; exception_stack := exception_stack f;
     pinned_locals := pinned_locals f; is_finalizer := is_finalizer f; multicast_state := ms;
     frame_continuation := frame_continuation f; frame_homes := frame_homes f; constructor_result := constructor_result f |}.

Definition set_continuation (f : StackFrame) (a : option FrameReturnAction) (r : option ConstructorResult) : StackFrame :=
  {| stack_height := stack_height f; frame_base := frame_base f; ip := ip f; info := info f;
     allocations := allocations f; generic_inst := generic_inst f; exception_stack := exception_stack f;
     pinned_locals := pinned_locals f; is_finalizer := is_finalizer f; multicast_state := multicast_state f;
     frame_continuation := a; frame_homes := frame_homes f; constructor_result := r |}.

Definition set_allocations (f : StackFrame) (fa : Ledger.FrameAllocations) : StackFrame :=
  {| stack_height := stack_height f; frame_base := frame_base f; ip := ip f; info := info f;
     allocations := fa; generic_inst := generic_inst f; exception_stack := exception_stack f;
     pinned_locals := pinned_locals f; is_finalizer := is_finalizer f; multicast_state := multicast_state f;
     frame_continuation := frame_continuation f; frame_homes := frame_homes f;
     constructor_result := constructor_result f |}.

(** [exception_stack.pop()]. *)
Definition pop_exception (f : StackFrame) : StackFrame :=
  set_exception_stack f (removelast (exception_stack f)).

Definition push_exception (f : StackFrame) (e : option Z) : StackFrame :=
  set_exception_stack f (exception_stack f ++ [e]).

(** ** The evaluation stack *)

Record EvaluationStack : Set := { stack : list StackValue; suspended_stack : list StackValue }.

Definition es_push (v : StackValue) (e : EvaluationStack) : EvaluationStack :=
  {| stack := stack e ++ [v]; suspended_stack := suspended_stack e |}.

Definition es_pop_safe (e : EvaluationStack) : outcome VmError (StackValue * EvaluationStack) :=
  match last (stack e) with
  | Some v => Val (v, {| stack := removelast (stack e); suspended_stack := suspended_stack e |})
  | None => Err (VmExecution StackUnderflow)
  end.

Definition copy_slots {E} (e : EvaluationStack) (first count : nat) : outcome E (list StackValue) :=
  if (first + count <=? length (stack e))%nat then Val (take count (drop first (stack e))) else Panic.

Definition peek_stack_at {E} (e : EvaluationStack) (off : nat) : outcome E StackValue :=
  if (S off <=? length (stack e))%nat then expect (stack e !! (length (stack e) - 1 - off)%nat) else Panic.

Definition top_of_stack (e : EvaluationStack) : nat := length (stack e).

Definition get_slot {E} (e : EvaluationStack) (i : nat) : outcome E StackValue := expect (stack e !! i).

Definition set_slot {E} (e : EvaluationStack) (i : nat) (v : StackValue) : outcome E EvaluationStack :=
  if (i <? length (stack e))%nat
  then Val {| stack := <[i := v]> (stack e); suspended_stack := suspended_stack e |} else Panic.

Definition truncate (e : EvaluationStack) (len : nat) : EvaluationStack :=
  {| stack := take len (stack e); suspended_stack := suspended_stack e |}.

(** [set_slot_at]: past the end, the gap is filled with nulls. *)
Definition set_slot_at (e : EvaluationStack) (i : nat) (v : StackValue) : EvaluationStack :=
  if (i <? length (stack e))%nat
  then {| stack := <[i := v]> (stack e); suspended_stack := suspended_stack e |}
  else {| stack := stack e ++ replicate (i - length (stack e)) (SV.ObjectRef None) ++ [v];
          suspended_stack := suspended_stack e |}.

Definition es_clear (e : EvaluationStack) : EvaluationStack := {| stack := []; suspended_stack := [] |}.

Definition es_clear_suspended (e : EvaluationStack) : EvaluationStack :=
  {| stack := stack e; suspended_stack := [] |}.

(** [split_off] panics past the end. *)
Definition es_suspend_above {E} (e : EvaluationStack) (i : nat) : outcome E EvaluationStack :=
  if (i <=? length (stack e))%nat
  then Val {| stack := take i (stack e); suspended_stack := drop i (stack e) |} else Panic.

Definition es_restore_suspended (e : EvaluationStack) : EvaluationStack :=
  {| stack := stack e ++ suspended_stack e; suspended_stack := [] |}.

(** ** The frame stack *)

Record FrameStack : Set := {
  frames : list StackFrame;
  suspended_frames : list StackFrame;
  pooled_frames : list StackFrame;
  last_home_serial : Z;
}.

Definition STACKFRAME_POOL_LIMIT : nat := 64.

Definition set_frames (s : FrameStack) (fs : list StackFrame) : FrameStack :=
  {| frames := fs; suspended_frames := suspended_frames s; pooled_frames := pooled_frames s;
     last_home_serial := last_home_serial s |}.

Definition push_frame (s : FrameStack) (bp : BasePointer) (m : MethodInfo) (g : Generics.GenericLookup) (pinned : list bool)
  : FrameStack :=
  match last (pooled_frames s) with
  | Some f =>
      {| frames := frames s ++ [reset_for_call f bp m g pinned]; suspended_frames := suspended_frames s;
         pooled_frames := removelast (pooled_frames s); last_home_serial := last_home_serial s |}
  | None => set_frames s (frames s ++ [new_frame bp m g pinned])
  end.

Definition pop_frame (s : FrameStack) : option (StackFrame * FrameStack) :=
  match last (frames s) with
  | Some f => Some (f, set_frames s (removelast (frames s)))
  | None => None
  end.

Definition issue_home_serial {E} (s : FrameStack) : outcome E (Z * FrameStack) :=
  let* serial := serial_next (last_home_serial s) in
  Val (serial, {| frames := frames s; suspended_frames := suspended_frames s;
                  pooled_frames := pooled_frames s; last_home_serial := serial |}).

(** The frames [home_block] searches, in its order. *)
Definition live_frames (s : FrameStack) : list StackFrame := reverse (frames s) ++ reverse (suspended_frames s).

Fixpoint find_map {A B} (f : A -> option B) (l : list A) : option B :=
  match l with
  | [] => None
  | a :: l => match f a with Some b => Some b | None => find_map f l end
  end.

Definition home_block (s : FrameStack) (serial : Z) : option (Z * Z) :=
  find_map (fun f => block_for (frame_homes f) serial) (live_frames s).

Definition fs_is_byref_home (s : FrameStack) (serial off : Z) : bool :=
  existsb (fun f => is_byref_home (frame_homes f) serial off) (frames s ++ suspended_frames s).

Definition recycle_frame (s : FrameStack) (f : StackFrame) : FrameStack :=
  if (length (pooled_frames s) <? STACKFRAME_POOL_LIMIT)%nat then
    {| frames := frames s; suspended_frames := suspended_frames s;
       pooled_frames := pooled_frames s ++ [prepare_for_pool f]; last_home_serial := last_home_serial s |}
  else s.

(** [current_frame]: no frame panics. *)
Definition current_frame {E} (s : FrameStack) : outcome E StackFrame := expect (last (frames s)).

(** [frames[i] = ..] for an index in range. *)
Definition update_frame (s : FrameStack) (i : nat) (f : StackFrame -> StackFrame) : FrameStack :=
  set_frames s (alter f i (frames s)).

Definition update_current (s : FrameStack) (f : StackFrame -> StackFrame) : FrameStack :=
  update_frame s (length (frames s) - 1) f.

Definition fs_clear (s : FrameStack) : FrameStack :=
  {| frames := []; suspended_frames := []; pooled_frames := []; last_home_serial := last_home_serial s |}.

Definition fs_clear_suspended (s : FrameStack) : FrameStack :=
  {| frames := frames s; suspended_frames := []; pooled_frames := pooled_frames s;
     last_home_serial := last_home_serial s |}.

Definition fs_suspend_above {E} (s : FrameStack) (i : nat) : outcome E FrameStack :=
  if (S i <=? length (frames s))%nat then
    Val {| frames := take (S i) (frames s); suspended_frames := drop (S i) (frames s);
           pooled_frames := pooled_frames s; last_home_serial := last_home_serial s |}
  else Panic.

Definition fs_restore_suspended (s : FrameStack) : FrameStack :=
  {| frames := frames s ++ suspended_frames s; suspended_frames := []; pooled_frames := pooled_frames s;
     last_home_serial := last_home_serial s |}.

(** ** Serials of home blocks over a thread's life *)

Definition frame_serials (f : StackFrame) : list Z := serials (frame_homes f).

(** The serials of the frames a byref can still reach. *)
Definition all_serials (s : FrameStack) : list Z :=
  mjoin (frame_serials <$> frames s) ++ mjoin (frame_serials <$> suspended_frames s).

(** What the interpreter does to a thread's frame stack. *)
Inductive fs_step : FrameStack -> FrameStack -> Prop :=
| step_push s bp m g pinned : fs_step s (push_frame s bp m g pinned)
| step_return s f s' : pop_frame s = Some (f, s') -> fs_step s (recycle_frame s' f)
| step_install s serial s' b :
    issue_home_serial (E:=Empty_set) s = Val (serial, s') -> hb_serial b = serial ->
    fs_step s (update_current s' (fun f => set_frame_homes f {| homes := Some b; temporaries := [] |}))
| step_temporary s serial s' b :
    issue_home_serial (E:=Empty_set) s = Val (serial, s') -> hb_serial b = serial ->
    fs_step s (update_current s' (fun f =>
      set_frame_homes f {| homes := homes (frame_homes f); temporaries := temporaries (frame_homes f) ++ [b] |}))
| step_touch s i u : (forall f, frame_homes (u f) = frame_homes f) -> fs_step s (update_frame s i u)
| step_suspend s i s' : fs_suspend_above (E:=Empty_set) s i = Val s' -> fs_step s s'
| step_restore s : fs_step s (fs_restore_suspended s)
| step_clear_suspended s : fs_step s (fs_clear_suspended s)
| step_clear s : fs_step s (fs_clear s).

Record serials_ok (s : FrameStack) : Prop := {
  so_last : 0 <= last_home_serial s;
  so_bound : Forall (fun x => 1 <= x <= last_home_serial s) (all_serials s);
  so_nodup : NoDup (all_serials s);
}.

Lemma find_map_some {A B} (f : A -> option B) l b : find_map f l = Some b -> exists a, a ∈ l /\ f a = Some b.
Proof.
  induction l as [|a l IH]; simpl; [done|]. destruct (f a) eqn:E.
  - intros [= <-]. exists a. split; [set_solver | done].
  - intros H. destruct (IH H) as (a' & ? & ?). exists a'. split; [set_solver | done].
Qed.

Lemma find_map_none {A B} (f : A -> option B) l : find_map f l = None -> forall a, a ∈ l -> f a = None.
Proof.
  induction l as [|a l IH]; simpl; [intros _ x Hx; by apply elem_of_nil in Hx|].
  destruct (f a) eqn:E; [done|]. intros H x [-> | Hx]%elem_of_cons; auto.
Qed.

Lemma elem_of_all_serials s x :
  x ∈ all_serials s <-> exists f, f ∈ live_frames s /\ x ∈ frame_serials f.
Proof.
  assert (Hj : forall fs, x ∈ mjoin (frame_serials <$> fs) <-> exists f, f ∈ fs /\ x ∈ frame_serials f).
  { intros fs. rewrite list_elem_of_join. split.
    - intros (l & Hl & (f & -> & Hf)%list_elem_of_fmap). by exists f.
    - intros (f & Hf & Hx). exists (frame_serials f). split; [done|]. apply list_elem_of_fmap. by exists f. }
  unfold all_serials, live_frames. rewrite elem_of_app, !Hj. setoid_rewrite elem_of_app.
  setoid_rewrite elem_of_reverse. split; [intros [(f & ? & ?) | (f & ? & ?)]; exists f; auto|].
  intros (f & [? | ?] & ?); [left | right]; by exists f.
Qed.

(** A serial resolves exactly while a reachable frame owns its block. *)
Lemma home_block_none s x : home_block s x = None <-> x ∉ all_serials s.
Proof.
  rewrite elem_of_all_serials. unfold home_block. split.
  - intros H (f & Hf & Hx). apply (find_map_none _ _ H f), block_for_none in Hf. done.
  - intros H. destruct (find_map _ _) eqn:E; [|done]. apply find_map_some in E as (f & Hf & Hb).
    exfalso. apply H. exists f. split; [done|]. by eapply block_for_some.
Qed.

Lemma last_snoc_inv {A} (l : list A) x : last l = Some x -> l = removelast l ++ [x].
Proof.
  intros H. destruct l as [|a l] using rev_ind; [done|]. rewrite last_snoc in H. injection H as ->.
  by rewrite removelast_app, app_nil_r.
Qed.

Lemma alter_last {A} (f : A -> A) (l : list A) x : alter f (length (l ++ [x]) - 1)%nat (l ++ [x]) = l ++ [f x].
Proof.
  rewrite length_app. simpl. replace (length l + 1 - 1)%nat with (length l + 0)%nat by lia.
  by rewrite alter_app_r.
Qed.

Lemma update_current_cases s u :
  update_current s u = s \/
  exists fs f, frames s = fs ++ [f] /\ update_current s u = set_frames s (fs ++ [u f]).
Proof.
  unfold update_current, update_frame. destruct (frames s) as [|f fs _] eqn:E using rev_ind.
  - left. destruct s; simpl in *. by subst.
  - right. exists fs, f. split; [done|]. by rewrite alter_last.
Qed.

Lemma frames_touch (fs : list StackFrame) (i : nat) (u : StackFrame -> StackFrame) :
  (forall f, frame_homes (u f) = frame_homes f) -> frame_serials <$> alter u i fs = frame_serials <$> fs.
Proof.
  intros Hu. revert i. induction fs as [|f fs IH]; intros [|i]; simpl; [done | done | |].
  - unfold frame_serials at 1. by rewrite Hu.
  - by rewrite <- (IH i) at 1.
Qed.

Lemma frame_serials_temporary f b :
  frame_serials (set_frame_homes f {| homes := homes (frame_homes f); temporaries := temporaries (frame_homes f) ++ [b] |}) =
  frame_serials f ++ [hb_serial b].
Proof.
  unfold frame_serials, serials, blocks_of. simpl. destruct (homes (frame_homes f)); simpl; by rewrite fmap_app.
Qed.

(** A step drops serials, or adds the one it has just issued. *)
Lemma fs_step_serials s s' :
  fs_step s s' ->
  (all_serials s' ⊆+ all_serials s /\ last_home_serial s' = last_home_serial s) \/
  (last_home_serial s' = last_home_serial s + 1 /\ all_serials s' ⊆+ (last_home_serial s + 1) :: all_serials s).
Proof.
  assert (Hissue : forall s serial s', issue_home_serial (E:=Empty_set) s = Val (serial, s') ->
    serial = last_home_serial s + 1 /\ last_home_serial s' = serial /\ frames s' = frames s /\
    suspended_frames s' = suspended_frames s).
  { intros t serial t'. unfold issue_home_serial, serial_next, expect. intros (x & Hx & [= -> <-])%obind_val.
    destruct (checked _ _) eqn:E; [|done]. injection Hx as ->. by apply checked_some in E as [-> _]. }
  intros Hstep. destruct Hstep as [s bp m g pinned | s f s' Hp | s serial s' b Hi Hb | s serial s' b Hi Hb
    | s i u Hu | s i s' Hs | s | s | s].
  - left. unfold push_frame, all_serials. destruct (last (pooled_frames s)); simpl;
      by rewrite fmap_app, join_app, app_nil_r.
  - left. unfold pop_frame in Hp. destruct (last (frames s)) eqn:E; [|done]. injection Hp as <- <-.
    apply last_snoc_inv in E. unfold recycle_frame, all_serials.
    assert (Hsub : mjoin (frame_serials <$> removelast (frames s)) ⊆+ mjoin (frame_serials <$> frames s)).
    { rewrite E at 2. rewrite fmap_app, join_app. apply submseteq_inserts_r. done. }
    destruct (_ <? _)%nat; simpl; (split; [by apply submseteq_skips_r | done]).
  - apply Hissue in Hi as (-> & Hl & Hf & Hsf). right.
    destruct (update_current_cases s' (fun f => set_frame_homes f {| homes := Some b; temporaries := [] |}))
      as [-> | (fs & f & Hfs & ->)]; unfold all_serials; simpl; rewrite Hl, ?Hsf; (split; [done|]).
    + rewrite Hf. by apply submseteq_cons.
    + rewrite <- Hf, Hfs, !fmap_app, !join_app. simpl. rewrite !app_nil_r. unfold frame_serials at 2. simpl.
      rewrite Hb, <- !app_assoc. simpl. rewrite <- Permutation_middle.
      apply submseteq_skip, submseteq_skips_l, submseteq_inserts_l. done.
  - apply Hissue in Hi as (-> & Hl & Hf & Hsf). right.
    match goal with |- context [update_current s' ?u] => destruct (update_current_cases s' u)
      as [-> | (fs & f & Hfs & ->)] end; unfold all_serials; simpl; rewrite Hl, ?Hsf; (split; [done|]).
    + rewrite Hf. by apply submseteq_cons.
    + rewrite <- Hf, Hfs, !fmap_app, !join_app. simpl. rewrite !app_nil_r.
      rewrite frame_serials_temporary, Hb, <- !app_assoc. simpl.
      rewrite (app_assoc (mjoin _)), <- Permutation_middle, <- app_assoc. done.
  - left. unfold update_frame, all_serials. simpl. by rewrite frames_touch.
  - left. unfold fs_suspend_above in Hs. destruct (_ <=? _)%nat; [|done]. injection Hs as <-.
    unfold all_serials. cbn [frames suspended_frames last_home_serial]. rewrite <- join_app, <- fmap_app, take_drop.
    split; [by apply submseteq_inserts_r | done].
  - left. unfold all_serials, fs_restore_suspended. simpl. by rewrite fmap_app, join_app, app_nil_r.
  - left. unfold all_serials, fs_clear_suspended. simpl. rewrite app_nil_r. split; [by apply submseteq_inserts_r | done].
  - left. unfold all_serials, fs_clear. simpl. split; [apply submseteq_nil_l | done].
Qed.

Definition fs0 : FrameStack :=
  {| frames := []; suspended_frames := []; pooled_frames := []; last_home_serial := 0 |}.

Lemma NoDup_sub {A} (l k : list A) : l ⊆+ k -> NoDup k -> NoDup l.
Proof. intros [l' ->]%submseteq_Permutation Hk. by apply NoDup_app in Hk as [? _]. Qed.

Lemma fs_step_ok s s' : serials_ok s -> fs_step s s' -> serials_ok s'.
Proof.
  intros [H1 H2 H3] Hs. rewrite Forall_forall in H2.
  destruct (fs_step_serials s s' Hs) as [[Hsub Hl] | [Hl Hsub]].
  - split; [lia | | by eapply NoDup_sub]. apply Forall_forall. intros x Hx. rewrite Hl.
    by apply H2, (elem_of_submseteq _ _ _ Hx Hsub).
  - split; [lia | |].
    + apply Forall_forall. intros x Hx. apply (elem_of_submseteq _ _ _ Hx) in Hsub.
      apply elem_of_cons in Hsub as [-> | Hin]; [lia|]. apply H2 in Hin. lia.
    + eapply NoDup_sub; [done|]. constructor; [|done]. intros Hin. apply H2 in Hin. lia.
Qed.

Lemma fs_step_dead s s' x :
  serials_ok s -> fs_step s s' -> x <= last_home_serial s -> x ∉ all_serials s ->
  x <= last_home_serial s' /\ x ∉ all_serials s'.
Proof.
  intros _ Hs Hx Hin. destruct (fs_step_serials s s' Hs) as [[Hsub Hl] | [Hl Hsub]].
  - split; [lia|]. intros Hx'. apply Hin. by eapply elem_of_submseteq.
  - split; [lia|]. intros Hx'. apply (elem_of_submseteq _ _ _ Hx') in Hsub.
    apply elem_of_cons in Hsub as [-> | ?]; [lia | done].
Qed.

(** C25.  Home serials over a thread's whole life: at every point no two blocks of
    reachable frames share a serial, and a serial that was issued and no longer
    resolves never resolves again, whatever frames are pushed, popped, recycled from
    the pool, suspended or restored; a byref that outlives its frame cannot reach
    another frame's block. *)
Theorem retired_home_never_resolves s s' x :
  rtc fs_step fs0 s ->
  NoDup (all_serials s) /\
  (x <= last_home_serial s -> home_block s x = None -> rtc fs_step s s' -> home_block s' x = None).
Proof.
  intros Hr. assert (Hok : serials_ok s).
  { apply (invariant_rtc fs_step serials_ok fs0 s); [by intros; eapply fs_step_ok | | done].
    split; simpl; [done | constructor | constructor]. }
  split; [apply Hok|]. intros Hx Hdead Hsteps. apply home_block_none. apply home_block_none in Hdead.
  assert (Hinv : serials_ok s' /\ x <= last_home_serial s' /\ x ∉ all_serials s'); [|tauto].
  apply (invariant_rtc fs_step (fun s => serials_ok s /\ x <= last_home_serial s /\ x ∉ all_serials s) s s');
    [|done | done].
  intros t t' Hstep (Ht & Hxt & Hnt). split; [by eapply fs_step_ok|]. by eapply fs_step_dead.
Qed.

Definition plain_signature (ps : list MethodType) (r : option MethodType) : MethodSignature MethodType :=
  {| instance := false; explicit_this := false; calling_convention := 0; parameters := Param [] <$> (PValue <$> ps);
     return_type := Generics.Ret [] (PValue <$> r); varargs := None |}.

Definition empty_lookup : Generics.GenericLookup := {| type_generics := []; method_generics := []; gl_hash := 0 |}.

Definition test_method : MethodInfo :=
  {| source := 1; parent := {| resolution := 1; index := 1 |}; synchronized := false; signature := plain_signature [] None;
     locals := []; exceptions := []; instructions := [Operand NoOperation; Ret]; is_cctor := false; method_homes := None |}.

Definition test_block (serial : Z) : HomeBlock :=
  {| hb_block := {| RawBlocks.base := 4096; RawBlocks.payload_len := 16;
                    RawBlocks.layout := {| RawBlocks.layout_size := 16; RawBlocks.layout_align := 16 |} |};
     hb_layout := new_layout (LField [] 16 8 empty_desc false) [] []; hb_serial := serial |}.

Lemma retired_home_never_resolves_witness :
  exists s s', home_block s 1 = Some (4096, 16) /\ home_block s' 1 = None /\ home_block s' 2 = Some (4096, 16).
Proof.
  pose (s1 := push_frame fs0 base0 test_method empty_lookup []).
  pose (s2 := update_current {| frames := frames s1; suspended_frames := []; pooled_frames := []; last_home_serial := 1 |}
    (fun f => set_frame_homes f {| homes := Some (test_block 1); temporaries := [] |})).
  assert (R2 : rtc fs_step fs0 s2).
  { eapply rtc_l; [apply step_push|]. eapply rtc_once. by apply (step_install s1 1). }
  pose (s3 := match pop_frame s2 with Some (f, t) => recycle_frame t f | None => s2 end).
  assert (R3 : rtc fs_step fs0 s3) by (eapply rtc_r; [exact R2 | by eapply step_return]).
  pose (s4 := push_frame s3 base0 test_method empty_lookup []).
  pose (s5 := update_current {| frames := frames s4; suspended_frames := []; pooled_frames := []; last_home_serial := 2 |}
    (fun f => set_frame_homes f {| homes := Some (test_block 2); temporaries := [] |})).
  exists s2, s5. split; [reflexivity|]. split; [|reflexivity].
  apply (retired_home_never_resolves s3 s5 1 R3); [done | reflexivity |].
  eapply rtc_l; [apply step_push|]. eapply rtc_once. by apply (step_install s4 2).
Defined.
