(* ===== verification/HomeBuild.v ===== *)
(** * Building the homes of a method

    [dotnet-vm/src/frame_homes.rs]: which variables of a method body get a home, and where
    in the home block of a frame each of them lies.

    The resolver's answers about types are arguments.  The field map of the block is a
    [HashMap] in the source; the names that are looked up in it are distinct, so the order
    of its entries is immaterial. *)

From Stdlib Require Import ZArith Lia.
From stdpp Require Import base tactics list option strings pretty sets.
From S2P Require Import Prelude Generics Bytes ManagedPtr StackValue Ops FrameAlloc Layout LayoutBuild FrameHomes VmData.

(** The instructions of a body, as far as the homes depend on them. *)
Inductive address_instruction : Set :=
| LoadLocalAddress (index : nat)
| LoadArgumentAddress (index : nat)
| OtherInstruction.

(** [try_collect] over an enumeration. *)
Fixpoint collect {E A B} (f : nat -> A -> outcome E B) (i : nat) (l : list A) : outcome E (list B) :=
  match l with
  | [] => Val []
  | a :: l => let* b := f i a in let* bs := collect f (S i) l in Val (b :: bs)
  end.

Section build.

(** The resolution context, for the method whose homes are built. *)
Variable make_concrete : MethodType -> outcome TypeResolutionError Generics.ConcreteType.
Variable normalize_type : Generics.ConcreteType -> outcome TypeResolutionError Generics.ConcreteType.
Variable find_concrete_type : Generics.ConcreteType -> outcome TypeResolutionError TypeDescription.
Variable is_value_type : TypeDescription -> outcome TypeResolutionError bool.
Variable type_name : TypeDescription -> string.
Variable is_enum : TypeDescription -> bool.
Variable type_layout_cached : Generics.ConcreteType -> outcome TypeResolutionError LayoutManager.
Variable instance_field_layout : TypeDescription -> list nat -> outcome TypeResolutionError (LayoutManager * nat).
(** [make_lookup] with the method's generic arguments, by the names objects keep. *)
Variable lookup_of : Generics.ConcreteType -> list nat.
Variable is_method_table : TypeDescription -> bool.

Definition is_type (c : Generics.ConcreteType) : bool :=
  match c with CT _ (BType _ _) => true | _ => false end.

Definition new_home (l : LayoutManager) (vt : option HomeValueType) (st : option TypeDescription) : VariableHome :=
  {| vh_offset := 0; vh_layout := l; vh_value_type := vt; vh_scalar_type := st |}.

Definition byref_home : VariableHome := new_home (LScalar Scalars.ManagedPtr) None None.

Definition variable_home (var_type : MethodType) : outcome TypeResolutionError (option VariableHome) :=
  let* concrete := make_concrete var_type in
  let* normalized := normalize_type concrete in
  if is_type concrete then
    let* description := find_concrete_type concrete in
    let* value := is_value_type description in
    if negb value then
      let* l := type_layout_cached concrete in Val (Some (new_home l None None))
    else if String.eqb (type_name description) "System.TypedReference" then Val None
    else if is_enum description || negb (is_type normalized) then
      let* l := type_layout_cached normalized in Val (Some (new_home l None (Some description)))
    else
      let generics := lookup_of concrete in
      let* (fields, arc) := instance_field_layout description generics in
      Val (Some (new_home fields
                  (Some {| hv_description := description; hv_generics := generics; hv_fields := fields; hv_arc := arc |}) None))
  else
    let* l := type_layout_cached concrete in Val (Some (new_home l None None)).

(** The home of [this]. *)
Definition this_home (parent : TypeDescription) : outcome TypeResolutionError (option VariableHome) :=
  let* value := is_value_type parent in
  Val (Some (if value then byref_home else new_home (LScalar Scalars.ObjectRef) None None)).

(** Which locals, and which arguments, have their address taken. *)
Definition addressed (instructions : list address_instruction) (nlocals narguments : nat) : list bool * list bool :=
  foldl (fun '(locals, arguments) i =>
           match i with
           | LoadLocalAddress index => (<[index := true]> locals, arguments)
           | LoadArgumentAddress index => (locals, <[index := true]> arguments)
           | OtherInstruction => (locals, arguments)
           end) (replicate nlocals false, replicate narguments false) instructions.

Definition local_home (flags : list bool) (i : nat) (l : LocalVariable) : outcome TypeResolutionError (option VariableHome) :=
  match l with
  | Variable_ _ by_ref var_type =>
      let* flag := expect (flags !! i) in
      if flag : bool then if by_ref then Val (Some byref_home) else variable_home var_type else Val None
  | TypedReferenceLocal => Val None
  end.

Definition argument_home (parent : TypeDescription) (sig : MethodSignature MethodType) (has_this : bool) (i : nat) (flag : bool)
  : outcome TypeResolutionError (option VariableHome) :=
  if negb flag then Val None
  else if has_this && (i =? 0)%nat then this_home parent
  else
    let* p := expect (parameters sig !! (i - (if has_this then 1 else 0))%nat) in
    match p with
    | Param _ (PValue var_type) => variable_home var_type
    | Param _ (PRef _) => Val (Some byref_home)
    | Param _ PTypedReference => Val None
    end.

(** [format!("V_{index}")] and [format!("A_{index}")] *)
Definition local_name (i : nat) : string := "V_" +:+ pretty i.
Definition argument_name (i : nat) : string := "A_" +:+ pretty i.

Definition home_fields (parent : TypeDescription) (name_of : nat -> string) (homes : list (option VariableHome)) : list FieldSpec :=
  (fun x => {| f_owner := parent; f_name := name_of x.1; f_offset := None; f_layout := vh_layout x.2 |}) <$> homed_from 0 homes.

Definition position {E} (block : LayoutManager) (n : string) : outcome E Z :=
  match block with
  | LField fs _ _ _ _ => expect (option_map (fun kv => kv.2.1) (list_find (fun kv => Layout.name kv.1 = n) fs ≫= Some ∘ snd))
  | _ => Panic
  end.

Definition place_home {E} (block : LayoutManager) (name_of : nat -> string) (i : nat) (home : option VariableHome)
  : outcome E (option VariableHome) :=
  match home with
  | None => Val None
  | Some h =>
      let* p := position block (name_of i) in
      Val (Some {| vh_offset := p; vh_layout := vh_layout h; vh_value_type := vh_value_type h; vh_scalar_type := vh_scalar_type h |})
  end.

Definition build_frame_homes (parent : TypeDescription) (sig : MethodSignature MethodType) (locals : list LocalVariable)
    (instructions : list address_instruction) : outcome TypeResolutionError (option FrameHomeLayout) :=
  let has_this := instance sig && negb (explicit_this sig) in
  let argument_count := ((if has_this then 1 else 0) + length (parameters sig))%nat in
  let '(addressed_locals, addressed_arguments) := addressed instructions (length locals) argument_count in
  if negb (existsb id addressed_locals) && negb (existsb id addressed_arguments) then Val None
  else
    let* local_homes := collect (local_home addressed_locals) 0 locals in
    let* argument_homes := collect (argument_home parent sig has_this) 0 addressed_arguments in
    match home_fields parent local_name local_homes ++ home_fields parent argument_name argument_homes with
    | [] => Val None
    | fields =>
        let* block := create_field_layout is_method_table fields Automatic 0 1 in
        let* local_homes := collect (place_home block local_name) 0 local_homes in
        let* argument_homes := collect (place_home block argument_name) 0 argument_homes in
        Val (Some (new_layout block local_homes argument_homes))
    end.
End build.

(** ** Variables *)

Inductive variable : Set := LocalVar (i : nat) | ArgumentVar (i : nat).

#[export] Instance variable_eq_dec : EqDecision variable.
Proof. solve_decision. Defined.

Definition layout_home (l : FrameHomeLayout) (x : variable) : option VariableHome :=
  match x with LocalVar i => layout_local l i | ArgumentVar i => layout_argument l i end.

Definition address_of_variable (x : variable) : address_instruction :=
  match x with LocalVar i => LoadLocalAddress i | ArgumentVar i => LoadArgumentAddress i end.

Definition variable_name (x : variable) : string :=
  match x with LocalVar i => local_name i | ArgumentVar i => argument_name i end.

Lemma variable_name_inj x y : variable_name x = variable_name y -> x = y.
Proof.
  destruct x as [i|i], y as [j|j]; simpl; unfold local_name, argument_name; intros H; simpl in H; try done;
    injection H as H; f_equal; by apply (inj pretty).
Qed.

(** The homes are within the block and apart from each other, and the block has the
    references of every variable. *)
Record homes_sound (hl : FrameHomeLayout) (instructions : list address_instruction) : Prop := {
  hs_block : layout_ok (hl_block hl);
  hs_home : forall x h, layout_home hl x = Some h ->
     address_of_variable x ∈ instructions /\
     (exists sz, size (E:=Empty_set) (vh_layout h) = Val sz /\ 0 <= sz /\ 0 <= vh_offset h /\ vh_offset h + sz <= home_size hl) /\
     (forall s o, ref_at s (vh_layout h) o -> ref_at s (hl_block hl) (vh_offset h + o)) /\
     (forall vt, vh_value_type h = Some vt -> hv_fields vt = vh_layout h);
  hs_apart : forall x y h h' sz sz', layout_home hl x = Some h -> layout_home hl y = Some h' -> x <> y ->
     size (E:=Empty_set) (vh_layout h) = Val sz -> size (E:=Empty_set) (vh_layout h') = Val sz' ->
     vh_offset h + sz <= vh_offset h' \/ vh_offset h' + sz' <= vh_offset h;
}.

(** ** The homes that are collected *)

Lemma collect_lookup {E A B} (f : nat -> A -> outcome E B) i l bs j b :
  collect f i l = Val bs -> bs !! j = Some b -> exists a, l !! j = Some a /\ f (i + j)%nat a = Val b.
Proof.
  revert i bs j. induction l as [|a l IH]; intros i bs j; simpl; [intros [= <-]; by rewrite lookup_nil|].
  intros (c & Hc & H)%obind_val. apply obind_val in H as (cs & Hcs & [= <-]). destruct j as [|j]; simpl.
  - intros [= <-]. exists a. by rewrite Nat.add_0_r.
  - intros Hj. rewrite <- Nat.add_succ_comm. by eapply IH.
Qed.

Lemma collect_length {E A B} (f : nat -> A -> outcome E B) i l bs : collect f i l = Val bs -> length bs = length l.
Proof.
  revert i bs. induction l as [|a l IH]; intros i bs; simpl; [by intros [= <-]|].
  intros (c & Hc & H)%obind_val. apply obind_val in H as (cs & Hcs & [= <-]). simpl. f_equal. by eapply IH.
Qed.

Lemma homed_from_elem hs i j h : (j, h) ∈ homed_from i hs <-> exists k, j = (i + k)%nat /\ hs !! k = Some (Some h).
Proof.
  revert i. induction hs as [|[x|] hs IH]; intros i; simpl.
  - rewrite elem_of_nil. split; [done|]. intros (k & _ & Hk). by rewrite lookup_nil in Hk.
  - rewrite elem_of_cons, IH. split.
    + intros [[= -> ->]|(k & -> & Hk)]; [by exists 0%nat | exists (S k)]. split; [lia | done].
    + intros ([|k] & -> & Hk); simpl in Hk; [left; injection Hk as ->; f_equal; lia | right; exists k; split; [lia | done]].
  - rewrite IH. split; intros (k & -> & Hk); [exists (S k); split; [lia | done]|].
    destruct k as [|k]; [done|]. exists k. split; [lia | done].
Qed.

Lemma homed_from_nodup hs i : NoDup (fst <$> homed_from i hs).
Proof.
  revert i. induction hs as [|[x|] hs IH]; intros i; simpl; [constructor | constructor; [|done] | done].
  intros ((j & h) & -> & (k & Hk & _)%homed_from_elem)%list_elem_of_fmap. simpl in Hk. lia.
Qed.

(** ** The block *)

Section placed.
Variable parent : TypeDescription.
Variable mt : TypeDescription -> bool.
Variable local_homes argument_homes : list (option VariableHome).

Definition homes_before (x : variable) : option VariableHome :=
  match x with LocalVar i => mjoin (local_homes !! i) | ArgumentVar i => mjoin (argument_homes !! i) end.

Definition block_fields : list FieldSpec :=
  home_fields parent local_name local_homes ++ home_fields parent argument_name argument_homes.

Definition variable_key (x : variable) : FieldKey := {| owner := parent; name := variable_name x |}.

Lemma variable_key_inj x y : variable_key x = variable_key y -> x = y.
Proof. intros H. apply variable_name_inj, (f_equal name H). Qed.

Lemma mjoin_some {A} (x : option (option A)) a : mjoin x = Some a <-> x = Some (Some a).
Proof. destruct x as [[]|]; simpl; split; congruence. Qed.

Lemma block_fields_elem f : f ∈ block_fields <->
  exists x h, homes_before x = Some h /\
    f = {| f_owner := parent; f_name := variable_name x; f_offset := None; f_layout := vh_layout h |}.
Proof.
  unfold block_fields, home_fields. rewrite elem_of_app, !list_elem_of_fmap. split.
  - intros [([i h] & -> & (k & -> & Hk)%homed_from_elem)|([i h] & -> & (k & -> & Hk)%homed_from_elem)].
    + exists (LocalVar k), h. simpl. by rewrite Hk.
    + exists (ArgumentVar k), h. simpl. by rewrite Hk.
  - intros ([i|i] & h & Hh%mjoin_some & ->); [left | right]; exists (i, h); (split; [done|]); apply homed_from_elem; by exists i.
Qed.

Lemma block_fields_nodup : NoDup (f_key <$> block_fields).
Proof.
  unfold block_fields, home_fields. rewrite fmap_app, <- !list_fmap_compose. apply NoDup_app. split; [|split].
  - pose proof (homed_from_nodup local_homes 0) as Hn. 
    rewrite (list_fmap_ext _ (variable_key ∘ LocalVar ∘ fst)) by done. rewrite list_fmap_compose.
    apply NoDup_fmap_2; [|done]. intros i j H%variable_key_inj. by injection H.
  - intros k Hk1 Hk2. apply list_elem_of_fmap in Hk1 as ([i h] & -> & _). apply list_elem_of_fmap in Hk2 as ([j h'] & H & _). done.
  - pose proof (homed_from_nodup argument_homes 0) as Hn.
    rewrite (list_fmap_ext _ (variable_key ∘ ArgumentVar ∘ fst)) by done. rewrite list_fmap_compose.
    apply NoDup_fmap_2; [|done]. intros i j H%variable_key_inj. by injection H.
Qed.

Variable block : LayoutManager.

(** What the placement needs of the layouts of the variables. *)
Definition layouts_ok : Prop :=
  forall x h, homes_before x = Some h -> layout_ok (vh_layout h) /\ 0 <= alignment (vh_layout h).

Lemma block_specs_ok : layouts_ok -> specs_ok block_fields.
Proof.
  intros Hl. split; [apply block_fields_nodup|]. apply Forall_forall. intros f (x & h & Hh & ->)%block_fields_elem.
  destruct (Hl _ _ Hh). done.
Qed.

Lemma block_placed x h : create_field_layout mt block_fields Automatic 0 1 = Val block -> homes_before x = Some h ->
  exists fs total al d hr pos, block = LField fs total al d hr /\ position (E:=Empty_set) block (variable_name x) = Val pos /\
    (variable_key x, (pos, vh_layout h)) ∈ fs.
Proof.
  intros Hc Hh. unfold create_field_layout in Hc. apply obind_val in Hc as ([p total] & Hp & Hc).
  destruct (_ <? _); [done|]. injection Hc as <-.
  pose proof (place_sequentially_mapping _ _ _ _ _ _ block_fields_nodup Hp) as Hm.
  assert (Hfields : forall k l, (exists pos, (k, (pos, l)) ∈ mapping p) <-> exists y h, homes_before y = Some h /\ k = variable_key y /\ l = vh_layout h).
  { intros k l. trans ((k, l) ∈ (fun kv => (kv.1, kv.2.2)) <$> mapping p).
    { rewrite list_elem_of_fmap. split; [intros [pos H]; by exists (k, (pos, l)) | intros ([k' [pos l']] & [= -> ->] & H); by exists pos]. }
    rewrite Hm, elem_of_reverse, list_elem_of_fmap. split.
    - intros (f & Hf & (y & g & Hg & ->)%block_fields_elem). injection Hf as -> ->. by exists y, g.
    - intros (y & g & Hg & -> & ->). eexists. split; [|apply block_fields_elem; by exists y, g]. done. }
  destruct (proj2 (Hfields (variable_key x) (vh_layout h))) as [pos0 Hin]; [by exists x, h|].
  destruct (list_find_elem_of (fun kv => name kv.1 = variable_name x) (mapping p) _ Hin eq_refl) as [[i [k [pos l]]] Hfind].
  do 5 eexists. exists pos. split; [done|]. unfold position. rewrite Hfind. split; [done|].
  apply list_find_Some in Hfind as (Hi & Hk & _). apply list_elem_of_lookup_2 in Hi.
  destruct (proj1 (Hfields k l)) as (y & g & Hg & -> & ->); [by exists pos|]. apply variable_name_inj in Hk as ->.
  congruence.
Qed.

(** The homes with their offsets. *)
Lemma placed_home homes name_of placed i h :
  collect (E:=TypeResolutionError) (place_home block name_of) 0 homes = Val placed -> mjoin (placed !! i) = Some h ->
  exists h0 pos, mjoin (homes !! i) = Some h0 /\ position (E:=TypeResolutionError) block (name_of i) = Val pos /\
    vh_offset h = pos /\ vh_layout h = vh_layout h0 /\ vh_value_type h = vh_value_type h0.
Proof.
  intros Hc Hh%mjoin_some. destruct (collect_lookup _ _ _ _ _ _ Hc Hh) as ([h0|] & Ha & Hp); simpl in Hp; [|done].
  apply obind_val in Hp as (pos & Hpos & [= <-]). exists h0, pos. rewrite Ha. done.
Qed.
End placed.

(** ** The homes of a method *)

Lemma addressed_locals_true instructions n m i :
  ((addressed instructions n m).1 !! i = Some true -> LoadLocalAddress i ∈ instructions) /\
  ((addressed instructions n m).2 !! i = Some true -> LoadArgumentAddress i ∈ instructions).
Proof.
  unfold addressed. induction instructions as [|ins l IH] using rev_ind; simpl.
  - split; intros H; apply lookup_replicate in H as [H _]; done.
  - rewrite foldl_app. simpl. destruct (foldl _ _ l) as [ls args]. destruct IH as [IH1 IH2].
    destruct ins as [j|j|]; simpl in *; rewrite !elem_of_app, !list_elem_of_singleton; split; intros H; try by auto.
    + apply list_lookup_insert_Some in H as [(-> & _ & _)|[_ H]]; auto.
    + apply list_lookup_insert_Some in H as [(-> & _ & _)|[_ H]]; auto.
Qed.

Lemma position_any {E F} block n p : position (E:=E) block n = Val p -> position (E:=F) block n = Val p.
Proof. unfold position, expect. destruct block; [|done..]. by destruct (option_map _ _); intros [= ->]. Qed.

(** What the resolver says of a variable that gets a home. *)
Definition home_laid_out (h : option VariableHome) : Prop :=
  forall x, h = Some x -> layout_ok (vh_layout x) /\ 0 <= alignment (vh_layout x) /\
    (forall vt, vh_value_type x = Some vt -> hv_fields vt = vh_layout x).

Lemma placed_sound parent mt lh ah pl pa block instructions :
  create_field_layout mt (block_fields parent lh ah) Automatic 0 1 = Val block ->
  collect (E:=TypeResolutionError) (place_home block local_name) 0 lh = Val pl ->
  collect (E:=TypeResolutionError) (place_home block argument_name) 0 ah = Val pa ->
  (forall x h, homes_before lh ah x = Some h ->
    address_of_variable x ∈ instructions /\ home_laid_out (Some h)) ->
  homes_sound (new_layout block pl pa) instructions.
Proof.
  intros Hc Hpl Hpa Hb.
  assert (Hx : forall x h, layout_home (new_layout block pl pa) x = Some h -> exists h0 fs total al d hr,
    homes_before lh ah x = Some h0 /\ (vh_layout h = vh_layout h0 /\ vh_value_type h = vh_value_type h0) /\ block = LField fs total al d hr /\
    (variable_key parent x, (vh_offset h, vh_layout h)) ∈ fs).
  { intros x h Hh. assert (Hp : exists h0 pos, homes_before lh ah x = Some h0 /\
      position (E:=TypeResolutionError) block (variable_name x) = Val pos /\ vh_offset h = pos /\ vh_layout h = vh_layout h0 /\ vh_value_type h = vh_value_type h0)
      by (destruct x; [by eapply (placed_home block lh local_name) | by eapply (placed_home block ah argument_name)]).
    destruct Hp as (h0 & pos & Hh0 & Hpos & <- & Hl & Hv). destruct (block_placed _ _ _ _ _ _ _ Hc Hh0) as (fs & t & al & d & hr & pos & -> & Hp & Hin).
    apply (position_any (F:=TypeResolutionError)) in Hp. assert (pos = vh_offset h) as -> by congruence. rewrite <- Hl in Hin.
    by exists h0, fs, t, al, d, hr. }
  pose proof (block_specs_ok parent lh ah (fun x h H => let '(conj a (conj b _)) := proj2 (Hb x h H) h eq_refl in conj a b)) as Hs.
  destruct (create_layout_ok mt _ Automatic 0 _ _ (Z.le_refl 0) Hs I Hc) as [Hok _].
  unfold create_field_layout in Hc. apply obind_val in Hc as ([p total] & Hp & Hc). destruct (_ <? _); [done|]. injection Hc as <-.
  apply place_sequentially_ok in Hp as ([_ _ _ Hin Hd] & Hn & _); [|lia | by vm_compute | done].
  split; [done | |].
  - intros x h Hh. destruct (Hx x h Hh) as (h0 & fs & t & al & d & hr & Hh0 & Hl & [= <- <- <- <- <-] & Hi).
    destruct (Hb _ _ Hh0) as [Hbi Hbl]. destruct (Hbl _ eq_refl) as (_ & _ & Hvt). destruct Hl as [Hl Hv].
    split; [done|]. split; [|split; [intros s o Ho; by eapply ref_field | rewrite Hv, Hl; exact Hvt]].
    destruct (Hin _ _ _ Hi) as (sz & ? & ? & ? & ? & _). exists sz. unfold home_size. cbn [hl_block new_layout]. repeat split; try done; lia.
  - intros x y h h' sz sz' Hh Hh' Hne Hsz Hsz'. destruct (Hx x h Hh) as (h0 & fs & t & al & d & hr & Hh0 & Hl & [= <- <- <- <- <-] & Hi).
    destruct (Hx y h' Hh') as (h0' & fs & t & al & d & hr & Hh0' & Hl' & [= <- <- <- <- <-] & Hi').
    eapply Hd; [exact Hi | exact Hi' | | done | done]. intros Hk. by apply Hne, (variable_key_inj parent).
Qed.

Section homes_of_method.
Variable make_concrete : MethodType -> outcome TypeResolutionError Generics.ConcreteType.
Variable normalize_type : Generics.ConcreteType -> outcome TypeResolutionError Generics.ConcreteType.
Variable find_concrete_type : Generics.ConcreteType -> outcome TypeResolutionError TypeDescription.
Variable is_value_type : TypeDescription -> outcome TypeResolutionError bool.
Variable type_name : TypeDescription -> string.
Variable is_enum : TypeDescription -> bool.
Variable type_layout_cached : Generics.ConcreteType -> outcome TypeResolutionError LayoutManager.
Variable instance_field_layout : TypeDescription -> list nat -> outcome TypeResolutionError (LayoutManager * nat).
Variable lookup_of : Generics.ConcreteType -> list nat.
Variable mt : TypeDescription -> bool.

Abbreviation build := (build_frame_homes make_concrete normalize_type find_concrete_type is_value_type type_name is_enum
  type_layout_cached instance_field_layout lookup_of mt).

(** The resolver's layouts have exact reference maps ([built_layout_exact]). *)
Definition resolver_ok : Prop :=
  (forall c l, type_layout_cached c = Val l -> layout_ok l /\ 0 <= alignment l) /\
  (forall d g l arc, instance_field_layout d g = Val (l, arc) -> layout_ok l /\ 0 <= alignment l).

Lemma scalar_home s st : home_laid_out (Some (new_home (LScalar s) None st)).
Proof. intros x [= <-]. split; [constructor | split; [by destruct s | done]]. Qed.

Lemma variable_home_laid_out t h : resolver_ok ->
  variable_home make_concrete normalize_type find_concrete_type is_value_type type_name is_enum type_layout_cached
    instance_field_layout lookup_of t = Val h -> home_laid_out h.
Proof.
  intros [H1 H2] H. unfold variable_home in H. apply obind_val in H as (c & _ & H). apply obind_val in H as (n & _ & H).
  assert (Hl : forall c st, (let* l := type_layout_cached c in Val (Some (new_home l None st))) = Val h -> home_laid_out h).
  { intros c' st (l & Hl & [= <-])%obind_val x [= <-]. destruct (H1 _ _ Hl). done. }
  destruct (is_type c); [|by eapply Hl]. apply obind_val in H as (d & _ & H). apply obind_val in H as (v & _ & H).
  destruct v; simpl in H; [|by eapply Hl]. destruct (String.eqb _ _); [injection H as <-; by intros x|].
  destruct (_ || _); [by eapply Hl|]. apply obind_val in H as ([l arc] & Hi & [= <-]). intros x [= <-]. destruct (H2 _ _ _ _ Hi).
  split; [done|]. split; [done|]. by intros vt [= <-].
Qed.

Abbreviation local_home_ := (local_home make_concrete normalize_type find_concrete_type is_value_type type_name is_enum
  type_layout_cached instance_field_layout lookup_of).
Abbreviation argument_home_ := (argument_home make_concrete normalize_type find_concrete_type is_value_type type_name is_enum
  type_layout_cached instance_field_layout lookup_of).

Lemma local_home_spec flags i l h : resolver_ok -> local_home_ flags i l = Val h ->
  home_laid_out h /\ (is_Some h -> flags !! i = Some true).
Proof.
  intros Hr H. destruct l as [|pinned by_ref t]; simpl in H; [injection H as <-; split; [by intros x | by intros []]|].
  destruct (flags !! i) as [[]|]; simpl in H; [|injection H as <-; split; [by intros x | by intros []] | done].
  split; [|done]. destruct by_ref; [injection H as <-; apply scalar_home | by eapply variable_home_laid_out].
Qed.

Lemma argument_home_spec parent sig has_this i flag h : resolver_ok -> argument_home_ parent sig has_this i flag = Val h ->
  home_laid_out h /\ (is_Some h -> flag = true).
Proof.
  intros Hr H. unfold argument_home in H. destruct flag; simpl in H; [|injection H as <-; split; [by intros x | by intros []]].
  split; [|done]. destruct (_ && _).
  - unfold this_home in H. apply obind_val in H as (v & _ & [= <-]). destruct v; apply scalar_home.
  - apply obind_val in H as ([mods p] & _ & H). destruct p; [by eapply variable_home_laid_out | injection H as <-; apply scalar_home|].
    injection H as <-. by intros x.
Qed.

(** C17. The homes of a method body are sound.  A variable has a home only when the body takes
    its address.  Every home lies within the block and two homes never share a byte.  The
    reference map of the block is exact, and covers what every variable holds: a reference
    within a variable is a reference of the block, at the offset of the home.  The bytes of a
    struct are laid out by its fields. *)
Theorem frame_homes_sound parent sig locals instructions hl : resolver_ok ->
  build parent sig locals instructions = Val (Some hl) ->
  homes_sound hl instructions.
Proof.
  intros Hr H. unfold build_frame_homes in H.
  pose proof (addressed_locals_true instructions (length locals)
    ((if instance sig && negb (explicit_this sig) then 1 else 0) + length (parameters sig))) as Hadd.
  destruct (addressed _ _ _) as [fl fa]. destruct (_ && _); [done|].
  apply obind_val in H as (lh & Hlh & H). apply obind_val in H as (ah & Hah & H).
  change (home_fields parent local_name lh ++ home_fields parent argument_name ah) with (block_fields parent lh ah) in H.
  assert (Hb : exists block, create_field_layout mt (block_fields parent lh ah) Automatic 0 1 = Val block /\
    (let* local_homes := collect (E:=TypeResolutionError) (place_home block local_name) 0 lh in
     let* argument_homes := collect (place_home block argument_name) 0 ah in
     Val (Some (new_layout block local_homes argument_homes))) = Val (Some hl)).
  { destruct (block_fields parent lh ah); [done|]. by apply obind_val in H. }
  clear H. destruct Hb as (block & Hc & H). apply obind_val in H as (pl & Hpl & H). apply obind_val in H as (pa & Hpa & [= <-]).
  assert (Hbefore : forall x h, homes_before lh ah x = Some h ->
    address_of_variable x ∈ instructions /\ home_laid_out (Some h)).
  { intros [i|i] h Hh%mjoin_some; [destruct (collect_lookup _ _ _ _ _ _ Hlh Hh) as (a & Ha & Hf); apply local_home_spec in Hf as [Hf Hg]
      | destruct (collect_lookup _ _ _ _ _ _ Hah Hh) as (a & Ha & Hf); apply argument_home_spec in Hf as [Hf Hg]]; try done.
    - split; [apply Hadd, Hg; eauto | done].
    - rewrite Hg in Ha by eauto. split; [by apply Hadd | done]. }
  eapply placed_sound; eauto.
Qed.
End homes_of_method.

(** A method with an [int] and a struct local and the receiver, of which the address of
    every one is taken. *)
Definition sample_concrete (t : MethodType) : outcome TypeResolutionError Generics.ConcreteType :=
  Val (CT 0 (match t with TypeGeneric 0 => BPrim Int32 | _ => BType (User (Definition_ 1)) None end)).

Definition sample_layout (c : Generics.ConcreteType) : LayoutManager :=
  match c with CT _ (BPrim _) => LScalar Scalars.Int32 | _ => derived_layout_v end.

Lemma sample_layout_ok c : layout_ok (sample_layout c) /\ 0 <= alignment (sample_layout c).
Proof.
  assert (Hd : layout_ok derived_layout_v /\ 0 <= alignment derived_layout_v)
    by (split; [apply derived_layout_v_ok | vm_compute; discriminate]).
  destruct c as [s []]; [exact Hd | split; [apply ok_scalar | vm_compute; discriminate] | exact Hd ..].
Qed.

Definition sample_build : outcome TypeResolutionError (option FrameHomeLayout) :=
  build_frame_homes sample_concrete Val (fun _ => Val td_b) (fun _ => Val true) (fun _ => "S") (fun _ => false)
    (fun c => Val (sample_layout c)) (fun _ _ => Val (sample_layout (CT 0 (BType (User (Definition_ 1)) None)), 0%nat)) (fun _ => []) (fun _ => false) td_a
    {| instance := true; explicit_this := false; calling_convention := 0; parameters := [];
       return_type := Generics.Ret [] None; varargs := None |}
    [Variable_ false false (TypeGeneric 0); Variable_ false false (TypeGeneric 1)]
    [LoadLocalAddress 0; OtherInstruction; LoadLocalAddress 1; LoadArgumentAddress 0].

Lemma frame_homes_sound_witness : exists hl, sample_build = Val (Some hl) /\ home_size hl = 96 /\
  (vh_offset <$> layout_home hl (LocalVar 1)) = Some 8 /\
  homes_sound hl [LoadLocalAddress 0; OtherInstruction; LoadLocalAddress 1; LoadArgumentAddress 0].
Proof.
  destruct sample_build as [[hl|]| |] eqn:H; [|vm_compute in H; discriminate H ..]. exists hl. split; [reflexivity|].
  split; [vm_compute in H; injection H as <-; reflexivity|]. split; [vm_compute in H; injection H as <-; reflexivity|].
  refine (frame_homes_sound _ _ _ _ _ _ _ _ _ _ _ _ _ _ _ _ H). split.
  - intros c l Hl. injection Hl as <-. apply sample_layout_ok.
  - intros d g l arc Hl. injection Hl as <- _. apply (sample_layout_ok (CT 0 (BType (User (Definition_ 1)) None))).
Defined.

(** Two numbers, both homed. *)
Definition pair_homes : list (option VariableHome) :=
  [Some (new_home (LScalar Scalars.Int32) None None); Some (new_home (LScalar Scalars.Int64) None None)].

Definition pair_block : LayoutManager :=
  match create_field_layout (fun _ => false) (block_fields td_a pair_homes []) Automatic 0 1 with Val l => l | _ => LScalar Scalars.Int8 end.

Definition pair_layout : FrameHomeLayout :=
  match collect (E:=TypeResolutionError) (place_home pair_block local_name) 0 pair_homes with
  | Val placed => new_layout pair_block placed []
  | _ => new_layout pair_block [] []
  end.

Lemma pair_sound : homes_sound pair_layout [LoadLocalAddress 0; LoadLocalAddress 1].
Proof.
  destruct (collect (E:=TypeResolutionError) (place_home pair_block local_name) 0 pair_homes) as [pl| |] eqn:Hp;
    [|vm_compute in Hp; discriminate Hp ..].
  assert (Hl : pair_layout = new_layout pair_block pl []) by (unfold pair_layout; by rewrite Hp). rewrite Hl.
  apply (placed_sound td_a (fun _ => false) pair_homes []); [by vm_compute | exact Hp | reflexivity|].
  intros [[|[|i]]|i] h Hh; simpl in Hh; try discriminate Hh; injection Hh as <-; (split; [|apply scalar_home]); set_solver.
Qed.
