(* ===== verification/Interp.v ===== *)
(** * The interpreter's context

    [VesContext] of [dotnet-vm/src/stack/context.rs] and
    [dotnet-vm/src/stack/stack_ops_impl.rs]: pushes and pops with the frame-height
    accounting, throwing by name, and the unwinding of one frame.  It implements the
    evaluation-stack interface of [Ops], so the theorems of [Instructions] hold of
    the interpreter itself.

    What the context asks of the rest of the runtime is the record [runtime]: the
    loader's lookups, the allocation of exception objects, the type test of [catch],
    and the heap.  The calls it makes on the class-initialisation table are recorded
    in [cctor_log], the captured stack traces in [traces]. *)

From Stdlib Require Import ZArith Lia.
From stdpp Require Import base tactics list option strings sets gmap.
From S2P Require Import Prelude Generics Bytes ManagedPtr StackValue Ops Instructions FrameAlloc Layout FrameHomes VmData.

Import Machine.

Record runtime : Type := {
  rt_heap : heap_view;
  rt_is_enum : TypeDescription -> option MemberType;
  (** [corlib_wkt(WellKnown::Exception)] *)
  corlib_exception : VmError + unit;
  (** The lookup and allocation of [throw_by_name_*]: the [n]th object created, by
      name, message and inner exception. *)
  new_exception : nat -> string -> string -> option (option Z) -> VmError + Z;
  (** [get_heap_description] and [is_a] *)
  heap_description : Z -> VmError + TypeDescription;
  is_a : TypeDescription -> ConcreteType -> VmError + bool;
  (** whether the exception object has the [_stackTraceString] field; [None] when the
      heap cell is an array, a string or a box *)
  has_trace_field : Z -> option bool;
  type_name : TypeDescription -> string;
}.

Record ctx : Type := {
  eval : EvaluationStack;
  fstack : FrameStack;
  exception_mode : ExceptionState;
  continuation : VmContinuation;
  original_ip : Z;
  original_stack_height : nat;
  processing_finalizer : bool;
  cctor_log : list (TypeDescription * list Generics.ConcreteType * bool);
  traces : gmap Z (list (nat * Z));
  objects_created : nat;
}.

Definition set_eval (c : ctx) (e : EvaluationStack) : ctx :=
  {| eval := e; fstack := fstack c; exception_mode := exception_mode c; continuation := continuation c;
     original_ip := original_ip c; original_stack_height := original_stack_height c;
     processing_finalizer := processing_finalizer c; cctor_log := cctor_log c; traces := traces c;
     objects_created := objects_created c |}.

Definition set_fstack (c : ctx) (s : FrameStack) : ctx :=
  {| eval := eval c; fstack := s; exception_mode := exception_mode c; continuation := continuation c;
     original_ip := original_ip c; original_stack_height := original_stack_height c;
     processing_finalizer := processing_finalizer c; cctor_log := cctor_log c; traces := traces c;
     objects_created := objects_created c |}.

Definition set_mode (c : ctx) (m : ExceptionState) : ctx :=
  {| eval := eval c; fstack := fstack c; exception_mode := m; continuation := continuation c;
     original_ip := original_ip c; original_stack_height := original_stack_height c;
     processing_finalizer := processing_finalizer c; cctor_log := cctor_log c; traces := traces c;
     objects_created := objects_created c |}.

Definition set_cont (c : ctx) (k : VmContinuation) : ctx :=
  {| eval := eval c; fstack := fstack c; exception_mode := exception_mode c; continuation := k;
     original_ip := original_ip c; original_stack_height := original_stack_height c;
     processing_finalizer := processing_finalizer c; cctor_log := cctor_log c; traces := traces c;
     objects_created := objects_created c |}.

Definition set_original (c : ctx) (i : Z) (h : nat) : ctx :=
  {| eval := eval c; fstack := fstack c; exception_mode := exception_mode c; continuation := continuation c;
     original_ip := i; original_stack_height := h; processing_finalizer := processing_finalizer c;
     cctor_log := cctor_log c; traces := traces c; objects_created := objects_created c |}.

Definition set_processing (c : ctx) (b : bool) : ctx :=
  {| eval := eval c; fstack := fstack c; exception_mode := exception_mode c; continuation := continuation c;
     original_ip := original_ip c; original_stack_height := original_stack_height c;
     processing_finalizer := b; cctor_log := cctor_log c; traces := traces c;
     objects_created := objects_created c |}.

Definition log_cctor (c : ctx) (td : TypeDescription) (g : list Generics.ConcreteType) (ok : bool) : ctx :=
  {| eval := eval c; fstack := fstack c; exception_mode := exception_mode c; continuation := continuation c;
     original_ip := original_ip c; original_stack_height := original_stack_height c;
     processing_finalizer := processing_finalizer c; cctor_log := cctor_log c ++ [(td, g, ok)];
     traces := traces c; objects_created := objects_created c |}.

Definition set_trace (c : ctx) (h : Z) (t : list (nat * Z)) : ctx :=
  {| eval := eval c; fstack := fstack c; exception_mode := exception_mode c; continuation := continuation c;
     original_ip := original_ip c; original_stack_height := original_stack_height c;
     processing_finalizer := processing_finalizer c; cctor_log := cctor_log c; traces := <[h := t]> (traces c);
     objects_created := objects_created c |}.

Definition count_object (c : ctx) : ctx :=
  {| eval := eval c; fstack := fstack c; exception_mode := exception_mode c; continuation := continuation c;
     original_ip := original_ip c; original_stack_height := original_stack_height c;
     processing_finalizer := processing_finalizer c; cctor_log := cctor_log c; traces := traces c;
     objects_created := S (objects_created c) |}.

(** ** Pushes and pops *)

Definition on_push (c : ctx) : ctx :=
  set_fstack c (update_current (fstack c) (fun f => set_height f (S (stack_height f)))).

Definition ves_push (v : StackValue) (c : ctx) : ctx := on_push (set_eval c (es_push v (eval c))).

(** [on_pop_safe]: the height of the current frame, if there is one, goes down. *)
Definition on_pop_safe (c : ctx) : outcome VmError ctx :=
  match last (frames (fstack c)) with
  | None => Val c
  | Some f =>
      match stack_height f with
      | O => Err (VmExecution StackUnderflow)
      | S h => Val (set_fstack c (update_current (fstack c) (fun f => set_height f h)))
      end
  end.

Definition ves_pop_safe (c : ctx) : outcome VmError StackValue * ctx :=
  match on_pop_safe c with
  | Val c =>
      match es_pop_safe (eval c) with
      | Val (v, e) => (Val v, set_eval c e)
      | Err e => (Err e, c)
      | Panic => (Panic, c)
      end
  | Err e => (Err e, c)
  | Panic => (Panic, c)
  end.

#[export] Instance ctx_ops : EvalStackOps ctx := { push := ves_push; pop_safe := ves_pop_safe }.

Definition push_obj (o : option Z) : ctx -> ctx := push (SV.ObjectRef o).

Section with_runtime.

Variable rt : runtime.

(** [throw_by_name_with_message]; the fields of the object it builds are the
    allocator's. *)
Definition ves_throw_by_name (name msg : string) (inner : option (option Z)) (c : ctx) : ctx * StepResult :=
  match new_exception rt (objects_created c) name msg inner with
  | inr h => (set_mode (count_object c) (Throwing (Some h) false), Exception)
  | inl e => (c, Error e)
  end.

#[local] Instance ctx_exceptions : ExceptionOps ctx :=
  { throw_by_name_with_message name msg c := ves_throw_by_name name msg None c }.

(** ** Unwinding one frame *)

(** [clear_evaluation_stack_from]: nulls the slots, then truncates. *)
Definition clear_evaluation_stack_from (c : ctx) (first : nat) : ctx := set_eval c (truncate (eval c) first).

Definition mode_exception (m : ExceptionState) : option (option Z) :=
  match m with
  | Throwing e _ => Some e
  | Searching s => Some (ss_exception s)
  | Unwinding u => us_exception u
  | ExecutingHandler u => us_exception u
  | Filtering f => Some (fs_exception f)
  | NoException => None
  end.

Definition cctor_message (td : TypeDescription) : string :=
  ("The type initializer for '" +:+ type_name rt td +:+ "' threw an exception.")%string.

(** [unwind_frame]: no frame panics; a failing class constructor marks its type
    failed and wraps the exception. *)
Definition unwind_frame {E} (c : ctx) : outcome E ctx :=
  match pop_frame (fstack c) with
  | None => Panic
  | Some (f, s) =>
      let c := set_fstack c s in
      let c :=
        if is_cctor (info f) then
          let c := log_cctor c (parent (info f)) (type_generics (generic_inst f)) false in
          match mode_exception (exception_mode c) with
          | Some inner =>
              fst (ves_throw_by_name "System.TypeInitializationException"
                     (cctor_message (parent (info f))) (Some inner) c)
          | None => c
          end
        else c in
      let c := if is_finalizer f then set_processing c false else c in
      let c := clear_evaluation_stack_from c (bp_arguments (frame_base f)) in
      Val (set_fstack c (recycle_frame (fstack c) f))
  end.

End with_runtime.

(** ** The interface laws *)

(** The operands of the current frame are the top of the evaluation stack. *)
Definition ctx_stack_ok (c : ctx) : Prop :=
  exists f, last (frames (fstack c)) = Some f /\ (stack_height f <= length (stack (eval c)))%nat.

Definition ctx_view (c : ctx) : list StackValue :=
  match last (frames (fstack c)) with
  | Some f => reverse (drop (length (stack (eval c)) - stack_height f) (stack (eval c)))
  | None => reverse (stack (eval c))
  end.

Lemma last_update_current s u f :
  last (frames s) = Some f -> last (frames (update_current s u)) = Some (u f).
Proof.
  intros Hl. apply last_snoc_inv in Hl. unfold update_current, update_frame, set_frames; cbn [frames].
  rewrite Hl, alter_last. apply last_snoc.
Qed.

Lemma ctx_push_law v c :
  ctx_stack_ok c -> ctx_stack_ok (ves_push v c) /\ ctx_view (ves_push v c) = v :: ctx_view c.
Proof.
  intros (f & Hf & Hh). unfold ctx_stack_ok, ctx_view, ves_push, on_push, es_push.
  cbn [set_fstack set_eval fstack eval stack]. rewrite Hf.
  rewrite (last_update_current _ _ f) by done. cbn [set_height stack_height]. rewrite length_app. simpl. split.
  - eexists. split; [done|]. simpl. lia.
  - replace (length (stack (eval c)) + 1 - S (stack_height f))%nat
      with (length (stack (eval c)) - stack_height f)%nat by lia.
    rewrite drop_app_le by lia. by rewrite reverse_snoc.
Qed.

Lemma removelast_snoc {A} (l : list A) x : removelast (l ++ [x]) = l.
Proof. rewrite removelast_app by done. simpl. by rewrite app_nil_r. Qed.

Lemma ctx_pop_cons_law v vs c :
  ctx_stack_ok c -> ctx_view c = v :: vs ->
  exists c', ves_pop_safe c = (Val v, c') /\ ctx_stack_ok c' /\ ctx_view c' = vs.
Proof.
  intros (f & Hf & Hh) Hv. unfold ctx_view in Hv. rewrite Hf in Hv.
  destruct (stack (eval c)) as [|x l _] eqn:Es using rev_ind.
  { apply (f_equal length) in Hv. rewrite length_reverse, length_drop in Hv. simpl in Hv. lia. }
  rewrite length_app in Hv, Hh. simpl in Hv, Hh. unfold ves_pop_safe, on_pop_safe. rewrite Hf.
  destruct (stack_height f) as [|h] eqn:Eh.
  { by rewrite drop_ge in Hv by (rewrite length_app; simpl; lia). }
  rewrite drop_app_le, reverse_snoc in Hv by lia. injection Hv as -> Hvs.
  cbn [set_fstack eval]. unfold es_pop_safe. rewrite Es, last_snoc, removelast_snoc.
  eexists. split; [done|]. unfold ctx_stack_ok, ctx_view. cbn [set_eval fstack eval stack set_fstack].
  rewrite (last_update_current _ _ f) by done. cbn [set_height stack_height]. split.
  - eexists. split; [done|]. simpl. lia.
  - rewrite <- Hvs. do 2 f_equal. lia.
Qed.

Lemma ctx_pop_nil_law c :
  ctx_stack_ok c -> ctx_view c = [] ->
  exists c', ves_pop_safe c = (Err (VmExecution StackUnderflow), c') /\ ctx_stack_ok c' /\ ctx_view c' = [].
Proof.
  intros Hok Hv. pose proof Hok as (f & Hf & Hh). pose proof Hv as Hv'. unfold ctx_view in Hv'. rewrite Hf in Hv'.
  exists c. split; [|done]. unfold ves_pop_safe, on_pop_safe. rewrite Hf.
  destruct (stack_height f) as [|h] eqn:Eh; [done|]. exfalso.
  apply (f_equal length) in Hv'. rewrite length_reverse, length_drop in Hv'. simpl in Hv'. lia.
Qed.

#[export] Instance ctx_laws : EvalStackLaws ctx := {
  stack_ok := ctx_stack_ok;
  view := ctx_view;
  push_law := ctx_push_law;
  pop_cons_law := ctx_pop_cons_law;
  pop_nil_law := ctx_pop_nil_law;
}.

Lemma throw_by_name_keeps rt name msg inner c c' r :
  ves_throw_by_name rt name msg inner c = (c', r) ->
  eval c' = eval c /\ fstack c' = fstack c /\ (r = Exception \/ exists e, r = Error e).
Proof. unfold ves_throw_by_name. destruct (new_exception _ _ _ _ _); intros [= <- <-]; simpl; eauto. Qed.

Lemma ctx_exception_laws rt : @ExceptionLaws ctx ctx_ops ctx_laws (ctx_exceptions rt).
Proof.
  split. intros name msg c c' r Hok Ht. apply throw_by_name_keeps in Ht as (He & Hf & Hr).
  simpl in *. unfold ctx_stack_ok, ctx_view in *. by rewrite He, Hf.
Qed.

(** An operand instruction run by the interpreter. *)
Definition ves_execute (rt : runtime) (i : Instruction) : handler ctx :=
  @execute (rt_heap rt) (rt_is_enum rt) ctx ctx_ops (ctx_exceptions rt) i.

(** The interpreter executes an operand instruction as the operand machine does. *)
Lemma ves_execute_simulates rt i c :
  ctx_stack_ok c ->
  match ves_execute rt i c, execute (rt_heap rt) (rt_is_enum rt) i (abs c) with
  | Val (c', r), Val (m', r') =>
      ctx_stack_ok c' /\ ctx_view c' = operands m' /\ result_refines r r'
  | Panic, Panic => True
  | _, _ => False
  end.
Proof.
  intros Hc. unfold ves_execute.
  exact (@execute_simulates (rt_heap rt) (rt_is_enum rt) ctx ctx_ops ctx_laws (ctx_exceptions rt)
           (ctx_exception_laws rt) i c (abs c) Hc eq_refl).
Qed.
