(* ===== verification/Sections.v ===== *)
(** * Protected sections

    [parse] of [dotnet-exceptions/src/lib.rs]: the exception clauses of a method body,
    as the metadata reader gives them, are grouped by protected range and ordered
    innermost first.  The grouping goes through a hash map, whose iteration order is
    the parameter [iter]; the result does not depend on it. *)

From Stdlib Require Import ZArith Lia.
From stdpp Require Import base tactics list option strings sets sorting.
From S2P Require Import Prelude Bytes ManagedPtr StackValue Ops Instructions FrameAlloc Layout FrameHomes VmData.

(** The metadata reader's [body::Exception]; a catch type is a metadata token. *)
Inductive ExceptionKind : Set :=
| TypedException (t : nat)
| KFilter (offset : Z)
| KFinally
| KFault.

Record Clause : Set := {
  c_kind : ExceptionKind;
  try_offset : Z;
  try_length : Z;
  handler_offset : Z;
  handler_length : Z;
}.

Section parse.

(** [make_concrete], and the order in which the hash map yields its entries. *)
Variable make_concrete : nat -> TypeResolutionError + ConcreteType.
Variable iter : list (Range * list Handler) -> list (Range * list Handler).

(** [entry(range).or_default().push(h)]. *)
Fixpoint add_handler (sections : list (Range * list Handler)) (r : Range) (h : Handler) : list (Range * list Handler) :=
  match sections with
  | [] => [(r, [h])]
  | (r', hs) :: rest => if decide (r' = r) then (r', hs ++ [h]) :: rest else (r', hs) :: add_handler rest r h
  end.

Definition range_at {E} (offset length : Z) : outcome E Range :=
  let* e := arith usize (offset + length) in Val {| start := offset; end_ := e |}.

Definition parse_clause (sections : list (Range * list Handler)) (exc : Clause)
  : outcome TypeResolutionError (list (Range * list Handler)) :=
  let* try_range := range_at (try_offset exc) (try_length exc) in
  let* handler_range := range_at (handler_offset exc) (handler_length exc) in
  let* k :=
    match c_kind exc with
    | TypedException t => match make_concrete t with inr t => Val (Catch t) | inl e => Err e end
    | KFilter offset => Val (Filter offset)
    | KFinally => Val Finally
    | KFault => Val Fault
    end in
  Val (add_handler sections try_range {| h_instructions := handler_range; kind := k |}).

(** The sort key [(Reverse(start), end)]. *)
Definition key_le (a b : ProtectedSection) : Prop :=
  start (s_instructions b) < start (s_instructions a) \/
  (start (s_instructions a) = start (s_instructions b) /\ end_ (s_instructions a) <= end_ (s_instructions b)).

#[export] Instance key_le_dec : RelDecision key_le.
Proof. intros a b. unfold key_le. apply _. Defined.

Definition to_section (e : Range * list Handler) : ProtectedSection :=
  {| s_instructions := e.1; handlers := e.2 |}.

Definition parse (source : list Clause) : outcome TypeResolutionError (list ProtectedSection) :=
  let* sections := ofold parse_clause [] source in
  Val (merge_sort key_le (to_section <$> iter sections)).

End parse.

(** ** What [parse] computes *)

Section spec.

Variable make_concrete : nat -> TypeResolutionError + ConcreteType.

Definition try_range (exc : Clause) : Range :=
  {| start := try_offset exc; end_ := try_offset exc + try_length exc |}.

Definition clause_handler (exc : Clause) : option Handler :=
  let h k := {| h_instructions := {| start := handler_offset exc; end_ := handler_offset exc + handler_length exc |};
                kind := k |} in
  match c_kind exc with
  | TypedException t => match make_concrete t with inr t => Some (h (Catch t)) | inl _ => None end
  | KFilter offset => Some (h (Filter offset))
  | KFinally => Some (h Finally)
  | KFault => Some (h Fault)
  end.

(** The handlers of the clauses that protect [r], in the order of the metadata. *)
Definition handlers_for (source : list Clause) (r : Range) : list Handler :=
  omap (fun exc => if decide (try_range exc = r) then clause_handler exc else None) source.

Lemma handlers_for_snoc source exc r h :
  clause_handler exc = Some h ->
  handlers_for (source ++ [exc]) r =
  handlers_for source r ++ (if decide (try_range exc = r) then [h] else []).
Proof. intros H. unfold handlers_for. rewrite omap_app. simpl. rewrite H. by case_decide. Qed.

Lemma range_at_val {E} o l (r : Range) : range_at (E:=E) o l = Val r -> r = {| start := o; end_ := o + l |}.
Proof. unfold range_at. intros (e & He & [= <-])%obind_val. by apply arith_val in He as [-> _]. Qed.

Lemma parse_clause_val acc exc acc' :
  parse_clause make_concrete acc exc = Val acc' ->
  exists h, clause_handler exc = Some h /\ acc' = add_handler acc (try_range exc) h.
Proof.
  unfold parse_clause, clause_handler. intros (tr & Ht & (hr & Hh & (k & Hk & [= <-])%obind_val)%obind_val)%obind_val.
  apply range_at_val in Ht as ->. apply range_at_val in Hh as ->.
  destruct (c_kind exc); simpl in *; [destruct (make_concrete t)|..]; simplify_eq; eauto.
Qed.

(** The entry of a range in the map. *)
Fixpoint group_of (acc : list (Range * list Handler)) (r : Range) : list Handler :=
  match acc with
  | [] => []
  | (r', hs) :: rest => if decide (r' = r) then hs else group_of rest r
  end.

(** The map after a prefix of the clauses. *)
Record grouped (source : list Clause) (acc : list (Range * list Handler)) : Prop := {
  g_nodup : NoDup acc.*1;
  g_groups : forall r, group_of acc r = handlers_for source r;
  g_nonempty : Forall (fun e => e.2 <> []) acc;
}.

Lemma group_of_add acc r h r' :
  group_of (add_handler acc r h) r' = group_of acc r' ++ (if decide (r = r') then [h] else []).
Proof.
  induction acc as [|[r0 hs] acc IH]; simpl; [by case_decide|].
  destruct (decide (r0 = r)) as [->|Hne]; simpl.
  - case_decide; simplify_eq; [done | by rewrite app_nil_r].
  - destruct (decide (r0 = r')) as [->|]; [|done]. rewrite decide_False by congruence. by rewrite app_nil_r.
Qed.

Lemma add_handler_keys acc r h x : x ∈ (add_handler acc r h).*1 <-> x = r \/ x ∈ acc.*1.
Proof.
  induction acc as [|[r0 hs] acc IH]; simpl; [set_solver|].
  destruct (decide (r0 = r)) as [->|]; simpl; set_solver.
Qed.

Lemma add_handler_ok acc r h :
  NoDup acc.*1 -> Forall (fun e => e.2 <> []) acc ->
  NoDup (add_handler acc r h).*1 /\ Forall (fun e => e.2 <> []) (add_handler acc r h).
Proof.
  induction acc as [|[r0 hs] acc IH]; simpl; intros Hn Hf.
  - split; [apply NoDup_singleton | by repeat constructor].
  - apply NoDup_cons in Hn as [Hr0 Hn]. apply Forall_cons in Hf as [Hhs Hf].
    destruct (decide (r0 = r)) as [->|Hne]; simpl.
    + split; [by constructor|]. constructor; [|done]. simpl. by destruct hs.
    + destruct (IH Hn Hf) as [IH1 IH2]. split; [|by constructor]. constructor; [|done].
      rewrite add_handler_keys. intros [-> | ?]; done.
Qed.

Lemma group_of_elem acc r hs : NoDup acc.*1 -> (r, hs) ∈ acc -> group_of acc r = hs.
Proof.
  induction acc as [|[r0 hs0] acc IH]; simpl; intros Hn Hin; [by apply elem_of_nil in Hin|].
  apply NoDup_cons in Hn as [Hr0 Hn]. apply elem_of_cons in Hin as [[= -> ->] | Hin]; [by rewrite decide_True|].
  rewrite decide_False; [auto|]. intros ->. apply Hr0, list_elem_of_fmap. by exists (r, hs).
Qed.

Lemma group_of_in acc r : group_of acc r <> [] -> (r, group_of acc r) ∈ acc.
Proof.
  induction acc as [|[r0 hs0] acc IH]; simpl; [done|].
  case_decide; simplify_eq; [set_solver|]. intros Hg. apply elem_of_cons. auto.
Qed.

Lemma clauses_grouped source acc : ofold (parse_clause make_concrete) [] source = Val acc -> grouped source acc.
Proof.
  apply (ofold_inv (parse_clause make_concrete) grouped).
  - intros before exc rest acc0 acc1 _ [H1 H2 H3] (h & Hh & ->)%parse_clause_val.
    destruct (add_handler_ok acc0 (try_range exc) h H1 H3). split; [done | | done].
    intros r. rewrite group_of_add, H2. symmetry. by apply handlers_for_snoc.
  - split; [constructor | done | constructor].
Qed.

Lemma clauses_have_handlers source acc :
  ofold (parse_clause make_concrete) [] source = Val acc ->
  Forall (fun exc => exists h, clause_handler exc = Some h) source.
Proof.
  apply (ofold_inv (parse_clause make_concrete) (fun before _ => Forall _ before)); [|constructor].
  intros before exc rest acc0 acc1 _ Hb (h & Hh & _)%parse_clause_val. apply Forall_app. split; [done|].
  constructor; [by exists h | constructor].
Qed.

Lemma sorted_lookup (secs : list ProtectedSection) i j a b :
  StronglySorted key_le secs -> secs !! i = Some a -> secs !! j = Some b -> (i < j)%nat -> key_le a b.
Proof.
  intros Hs. revert i j. induction Hs as [|x l Hs IH Hf]; intros [|i] [|j] Hi Hj Hlt; simpl in *; try lia; simplify_eq.
  - rewrite Forall_forall in Hf. by eapply Hf, list_elem_of_lookup_2.
  - apply (IH i j); [done | done | lia].
Qed.

#[export] Instance key_le_total : Total key_le.
Proof. intros a b. unfold key_le. lia. Qed.

#[export] Instance key_le_trans : Transitive key_le.
Proof. intros a b c. unfold key_le. lia. Qed.

Lemma key_le_antisym a b : key_le a b -> key_le b a -> s_instructions a = s_instructions b.
Proof.
  unfold key_le. destruct (s_instructions a) as [sa ea], (s_instructions b) as [sb eb]; simpl.
  intros. f_equal; lia.
Qed.

Definition range_within (a b : Range) : Prop := start b <= start a /\ end_ a <= end_ b.

(** The order in which the hash map yields its entries does not matter. *)
Lemma parse_order iter1 iter2 source :
  (forall l, iter1 l ≡ₚ l) -> (forall l, iter2 l ≡ₚ l) ->
  parse make_concrete iter1 source = parse make_concrete iter2 source.
Proof.
  intros H1 H2. unfold parse. destruct (ofold _ _ _) as [acc| |] eqn:Hacc; [|done|done]. simpl. f_equal.
  apply clauses_grouped in Hacc as [Hn _ _].
  assert (Hp1 : merge_sort key_le (to_section <$> iter1 acc) ≡ₚ to_section <$> acc)
    by (rewrite merge_sort_Permutation; by rewrite H1).
  assert (Hp2 : merge_sort key_le (to_section <$> iter2 acc) ≡ₚ to_section <$> acc)
    by (rewrite merge_sort_Permutation; by rewrite H2).
  apply (StronglySorted_unique_strong key_le); [|apply StronglySorted_merge_sort; apply _..|by rewrite Hp1].
  intros a b Ha Hb Hab Hba. rewrite Hp1 in Ha. rewrite Hp2 in Hb.
  apply list_elem_of_fmap in Ha as ((ra & ha) & -> & Ha). apply list_elem_of_fmap in Hb as ((rb & hb) & -> & Hb).
  pose proof (key_le_antisym _ _ Hab Hba) as Heq. simpl in Heq. subst rb.
  apply (group_of_elem _ _ _ Hn) in Ha. apply (group_of_elem _ _ _ Hn) in Hb. by subst.
Qed.

Section order.

Variable iter : list (Range * list Handler) -> list (Range * list Handler).
Hypothesis iter_permutes : forall l, iter l ≡ₚ l.

Lemma parsed_sections source secs :
  parse make_concrete iter source = Val secs ->
  exists acc, grouped source acc /\ secs ≡ₚ to_section <$> acc /\ StronglySorted key_le secs /\
    Forall (fun exc => exists h, clause_handler exc = Some h) source.
Proof.
  intros (acc & Hacc & [= <-])%obind_val. exists acc. split; [by apply clauses_grouped|].
  rewrite (assoc and). split; [|by eapply clauses_have_handlers].
  split; [|apply (StronglySorted_merge_sort key_le)].
  by rewrite merge_sort_Permutation, iter_permutes.
Qed.

Lemma section_ranges_nodup acc secs :
  NoDup acc.*1 -> secs ≡ₚ to_section <$> acc -> NoDup (s_instructions <$> secs).
Proof.
  intros Hn ->. rewrite <- list_fmap_compose.
  by replace (s_instructions ∘ to_section) with (fst : Range * list Handler -> Range).
Qed.

(**  Parsing the exception clauses of a method: the sections come in the order
    of the sort key with distinct ranges, so a section that lies within another comes
    before it; the handlers of a section are exactly the clauses that protect its
    range, in the order of the metadata; every clause is in a section; and the order
    in which the hash map yields its entries changes nothing. *)
Theorem parse_exact source secs :
  parse make_concrete iter source = Val secs ->
  StronglySorted key_le secs /\
  NoDup (s_instructions <$> secs) /\
  (forall i j a b, secs !! i = Some a -> secs !! j = Some b -> i <> j ->
     range_within (s_instructions a) (s_instructions b) -> (i < j)%nat) /\
  (forall s, s ∈ secs -> handlers s = handlers_for source (s_instructions s) /\ handlers s <> []) /\
  (forall exc, exc ∈ source -> exists s h,
     s ∈ secs /\ s_instructions s = try_range exc /\ clause_handler exc = Some h /\ h ∈ handlers s) /\
  (forall iter', (forall l, iter' l ≡ₚ l) -> parse make_concrete iter' source = Val secs).
Proof.
  intros Hp. destruct (parsed_sections _ _ Hp) as (acc & [H1 H2 H3] & Hperm & Hs & Hc).
  pose proof (section_ranges_nodup _ _ H1 Hperm) as Hn.
  split; [done|]. split; [done|]. split; [|split; [|split]].
  - intros i j a b Hi Hj Hne Hw. destruct (decide (i < j)%nat) as [|Hge]; [done|]. exfalso. apply Hne.
    assert (Hba : key_le b a) by (apply (sorted_lookup secs j i); [done..|lia]).
    assert (Hab : key_le a b) by (destruct Hw; unfold key_le; lia).
    apply (NoDup_lookup (s_instructions <$> secs) i j (s_instructions a)); [done | |];
      rewrite list_lookup_fmap, ?Hi, ?Hj; [done|]. simpl. by rewrite (key_le_antisym b a).
  - intros s Hin. rewrite Hperm in Hin. apply list_elem_of_fmap in Hin as ((r & hs) & -> & Hin). simpl.
    rewrite <- H2, (group_of_elem acc r hs) by done. split; [done|].
    by apply (proj1 (Forall_forall _ _) H3 (r, hs)).
  - intros exc Hin. destruct (proj1 (Forall_forall _ _) Hc exc Hin) as (h & Hh).
    assert (Hg : h ∈ group_of acc (try_range exc)).
    { rewrite H2. apply list_elem_of_omap. exists exc. by rewrite decide_True. }
    exists (to_section (try_range exc, group_of acc (try_range exc))), h. split; [|done].
    rewrite Hperm. apply list_elem_of_fmap_2, group_of_in. by destruct (group_of _ _); [apply elem_of_nil in Hg|].
  - intros iter' Hiter. rewrite <- Hp. by apply parse_order.
Qed.

End order.

End spec.

(** A [try] with two [catch] clauses inside a [try]/[finally] that starts with it. *)
Definition example_clauses : list Clause :=
  [{| c_kind := TypedException 7; try_offset := 2; try_length := 3; handler_offset := 5; handler_length := 2 |};
   {| c_kind := TypedException 8; try_offset := 2; try_length := 3; handler_offset := 7; handler_length := 2 |};
   {| c_kind := KFinally; try_offset := 2; try_length := 7; handler_offset := 9; handler_length := 2 |}].

Lemma parse_exact_witness :
  exists inner outer,
    parse inr reverse example_clauses = Val [inner; outer] /\
    range_within (s_instructions inner) (s_instructions outer) /\ length (handlers inner) = 2%nat /\
    parse inr id example_clauses = Val [inner; outer].
Proof.
  eexists _, _. split; [vm_compute; reflexivity|]. split; [done|]. split; [done|].
  eapply (parse_exact inr reverse); [intros; apply reverse_Permutation | vm_compute; reflexivity | done].
Defined.
