(* ===== verification/Exceptions.v ===== *)
(** * Exception handling

    [dotnet-exceptions/src/lib.rs]: the two-pass state machine [handle_exception]
    with its search and unwind passes; and the exception instructions of
    [dotnet-vm/src/stack/exception_ops_impl.rs].

    [handle_exception] calls itself through its phases; the model takes fuel and
    answers [None] when it runs out, and [handle_exception_terminates] shows that
    [FUEL] always suffices.  Tracing, and the strings of the stack trace, are not
    modelled: a captured trace is the list of methods and instruction pointers. *)

From Stdlib Require Import ZArith Lia.
From stdpp Require Import base tactics list option strings sets gmap.
From S2P Require Import Prelude Generics Bytes ManagedPtr StackValue Ops Instructions FrameAlloc Layout FrameHomes VmData Interp.

(** ** The search pass *)

Section machine.

Variable rt : runtime.

(** What scanning the handlers ends with. *)
Inductive found : Set :=
| NotFound
| FoundCatch (a : HandlerAddress)
| FoundFilter (a : HandlerAddress) (clause_offset : Z)
| SearchError (e : VmError).

(** The type test of one catch clause. *)
Definition catches (exception : option Z) (t : ConcreteType) : VmError + bool :=
  match exception with
  | None => inl (VmTypeResolution InvalidHandle)
  | Some h =>
      match heap_description rt h with
      | inl e => inl e
      | inr td => is_a rt td t
      end
  end.

(** The handlers of one section from [handler_index] on. *)
Fixpoint search_handlers (exception : option Z) (fi si hi : nat) (hs : list Handler) : found :=
  match hs with
  | [] => NotFound
  | h :: hs =>
      let a := {| frame_index := fi; section_index := si; handler_index := hi |} in
      match kind h with
      | Catch t =>
          match catches exception t with
          | inr true => FoundCatch a
          | inr false => search_handlers exception fi si (S hi) hs
          | inl e => SearchError e
          end
      | Filter clause_offset => FoundFilter a clause_offset
      | _ => search_handlers exception fi si (S hi) hs
      end
  end.

(** The sections of one frame from [section_index] on: [at_cursor] when the frame is
    the cursor's, where the first handlers of the cursor's section are skipped. *)
Fixpoint search_sections (exception : option Z) (cursor : HandlerAddress) (ip : Z) (fi si : nat)
    (sections : list ProtectedSection) : found :=
  match sections with
  | [] => NotFound
  | s :: rest =>
      if contains (s_instructions s) ip then
        let handler_start :=
          if (fi =? frame_index cursor)%nat && (si =? section_index cursor)%nat
          then handler_index cursor else O in
        match search_handlers exception fi si handler_start (drop handler_start (handlers s)) with
        | NotFound => search_sections exception cursor ip fi (S si) rest
        | f => f
        end
      else search_sections exception cursor ip fi (S si) rest
  end.

Definition search_frame (exception : option Z) (cursor : HandlerAddress) (fs : list StackFrame) (fi : nat)
  : outcome Empty_set found :=
  let* frame := expect (fs !! fi) in
  let section_start := if (fi =? frame_index cursor)%nat then section_index cursor else O in
  Val (search_sections exception cursor (ip frame) fi section_start
         (drop section_start (exceptions (info frame)))).

(** The frames from [stop + n] down to [stop]. *)
Fixpoint search_frames (exception : option Z) (cursor : HandlerAddress) (fs : list StackFrame) (stop n : nat)
  : outcome Empty_set found :=
  let* r := search_frame exception cursor fs (stop + n) in
  match r, n with
  | NotFound, S n => search_frames exception cursor fs stop n
  | r, _ => Val r
  end.

Definition top_cursor (c : ctx) : HandlerAddress :=
  {| frame_index := length (frames (fstack c)) - 1; section_index := 0; handler_index := 0 |}.

Definition nested_of (c : ctx) : option FilterState :=
  match exception_mode c with Searching s => ss_nested_filter s | _ => None end.

(** Entering a filter: the frames and operands above it are suspended. *)
Definition enter_filter (c : ctx) (exception : option Z) (a : HandlerAddress) (clause_offset : Z)
  : outcome Empty_set (ctx * StepResult) :=
  let* f := expect (frames (fstack c) !! frame_index a) in
  let original_ip := ip f in
  let original_stack_height := (bp_stack (frame_base f) + stack_height f)%nat in
  let c := set_mode c (Filtering {| fs_exception := exception; fs_handler := a;
                                    fs_original_ip := original_ip;
                                    fs_original_stack_height := original_stack_height |}) in
  let* e := es_suspend_above (eval c) (bp_stack (frame_base f)) in
  let c := set_eval c e in
  let* s := fs_suspend_above (fstack c) (frame_index a) in
  let c := set_fstack c s in
  let c := set_original c (ip f) (stack_height f) in
  let c := set_fstack c (update_frame (fstack c) (frame_index a) (fun f =>
             push_exception (set_height (set_ip f clause_offset) 0) exception)) in
  Val (push_obj exception c, Exception).

(** ** The unwind pass *)

Definition is_exiting_section (s : ProtectedSection) (ip : Z) (target : UnwindTarget) : bool :=
  let in_try := contains (s_instructions s) ip in
  match target with
  | ToHandler _ => in_try
  | ToInstruction target_ip =>
      let inside := filter (fun h => contains (h_instructions h) ip = true) (handlers s) in
      if existsb (fun h => contains (h_instructions h) target_ip) inside then false
      else (in_try || negb (match inside with [] => true | _ => false end))
             && negb (contains (s_instructions s) target_ip)
  end.

(** Where a loop of the unwind pass leaves off: it goes on, or the pass returns. *)
Inductive progress : Type :=
| GoOn (c : ctx)
| Stop (c : ctx).

Definition is_filter_or_catch (k : HandlerKind) : bool :=
  match k with Catch _ | Filter _ => true | _ => false end.

Definition should_run (k : HandlerKind) (exception : option (option Z)) : bool :=
  match k with
  | Finally => true
  | Fault => match exception with Some _ => true | None => false end
  | _ => false
  end.

(** The handlers of one exited section from index [hi] on; [count] is the number of
    handlers of the section. *)
Fixpoint unwind_handlers (u : UnwindState) (ip : Z) (fi si hi count : nat) (hs : list Handler) (c : ctx) : progress :=
  match hs with
  | [] => GoOn c
  | h :: hs =>
      if contains (h_instructions h) ip then
        let c := if is_filter_or_catch (kind h)
                 then set_fstack c (update_frame (fstack c) fi pop_exception) else c in
        unwind_handlers u ip fi si (S hi) count hs c
      else if should_run (kind h) (us_exception u) then
        let next_cursor :=
          if (S hi <? count)%nat
          then {| frame_index := fi; section_index := si; handler_index := S hi |}
          else {| frame_index := fi; section_index := S si; handler_index := 0 |} in
        let c := set_mode c (ExecutingHandler {| us_exception := us_exception u; us_target := us_target u;
                                                 us_cursor := next_cursor;
                                                 us_nested_filter := us_nested_filter u |}) in
        Stop (set_fstack c (update_frame (fstack c) fi (fun f =>
                set_height (set_ip f (start (h_instructions h))) 0)))
      else unwind_handlers u ip fi si (S hi) count hs c
  end.

Fixpoint unwind_sections (u : UnwindState) (ip : Z) (fi si : nat) (sections : list ProtectedSection) (c : ctx) : progress :=
  match sections with
  | [] => GoOn c
  | s :: rest =>
      let at_target :=
        match us_target u with
        | ToHandler h => (fi =? frame_index h)%nat && (section_index h <=? si)%nat
        | ToInstruction _ => false
        end in
      if at_target then GoOn c
      else if is_exiting_section s ip (us_target u) then
        let handler_start :=
          if (fi =? frame_index (us_cursor u))%nat && (si =? section_index (us_cursor u))%nat
          then handler_index (us_cursor u) else O in
        match unwind_handlers u ip fi si handler_start (length (handlers s))
                (drop handler_start (handlers s)) c with
        | GoOn c => unwind_sections u ip fi (S si) rest c
        | Stop c => Stop c
        end
      else unwind_sections u ip fi (S si) rest c
  end.

Definition target_frame_of (u : UnwindState) : nat :=
  match us_target u with
  | ToHandler h => frame_index h
  | ToInstruction _ =>
      match us_nested_filter u with
      | Some nested => frame_index (fs_handler nested)
      | None => frame_index (us_cursor u)
      end
  end.

Definition is_throwing (m : ExceptionState) : bool := match m with Throwing _ _ => true | _ => false end.

(** How the loop over the frames ends: at the target, in a handler, or with a new
    exception raised by [unwind_frame]. *)
Inductive unwound : Type :=
| AtTarget (c : ctx)
| InHandler (c : ctx)
| Rethrown (c : ctx).

(** The frames from [target + n] down to [target]. *)
Fixpoint unwind_frames (u : UnwindState) (target n : nat) (c : ctx) : outcome Empty_set unwound :=
  let fi := (target + n)%nat in
  let* f := expect (frames (fstack c) !! fi) in
  let section_start := if (fi =? frame_index (us_cursor u))%nat then section_index (us_cursor u) else O in
  match unwind_sections u (ip f) fi section_start (drop section_start (exceptions (info f))) c with
  | Stop c => Val (InHandler c)
  | GoOn c =>
      match n with
      | O => Val (AtTarget c)
      | S n =>
          let* c := unwind_frame rt c in
          if is_throwing (exception_mode c) then Val (Rethrown c) else unwind_frames u target n c
      end
  end.

Definition pop_handler_unwind (c : ctx) : option UnwindState * ctx :=
  match continuation c with
  | HandlerUnwinds us =>
      (last us,
       set_cont c (match removelast us with [] => NoContinuation | us => HandlerUnwinds us end))
  | _ => (None, c)
  end.

Definition push_handler_unwind (c : ctx) (s : UnwindState) : ctx :=
  set_cont c (match continuation c with
              | HandlerUnwinds us => HandlerUnwinds (us ++ [s])
              | _ => HandlerUnwinds [s]
              end).

Definition USIZE_MAX : Z := int_max usize.

(** The part of [unwind] after the loops, for a target reached. *)
Definition finish_unwind (u : UnwindState) (c : ctx) : outcome Empty_set (ctx * StepResult) :=
  let (resumed, c) :=
    match us_target u with
    | ToInstruction target_ip => if target_ip =? USIZE_MAX then (None, c) else pop_handler_unwind c
    | ToHandler _ => (None, c)
    end in
  let c := set_mode c (match resumed with Some s => ExecutingHandler s | None => NoException end) in
  match us_target u with
  | ToHandler h =>
      let* f := expect (frames (fstack c) !! frame_index h) in
      let* s := expect (exceptions (info f) !! section_index h) in
      let* hd := expect (handlers s !! handler_index h) in
      let c := set_fstack c (update_frame (fstack c) (frame_index h) (fun f =>
                 set_height (set_ip f (start (h_instructions hd))) 0)) in
      let c := set_eval c (truncate (eval c) (bp_stack (frame_base f))) in
      let* exception := expect (us_exception u) in
      let c := set_fstack c (update_frame (fstack c) (frame_index h) (fun f => push_exception f exception)) in
      Val (push_obj exception c, Exception)
  | ToInstruction target_ip =>
      if target_ip =? USIZE_MAX then Val (c, Return)
      else
        let* _ := expect (frames (fstack c) !! target_frame_of u) in
        let c := set_fstack c (update_frame (fstack c) (target_frame_of u) (fun f =>
                   set_height (set_ip f target_ip) 0)) in
        Val (c, Exception)
  end.

(** ** The phases *)

(** A phase of the state machine returns, or goes on with [handle_exception]. *)
Definition phase : Type := outcome Empty_set (ctx * option StepResult).

Definition returns (o : outcome Empty_set (ctx * StepResult)) : phase :=
  let* (c, r) := o in Val (c, Some r).

(** The trace [begin_throwing] formats: the methods and instruction pointers of the
    frames, innermost first. *)
Definition capture_trace (c : ctx) : list (nat * Z) :=
  (fun f => (source (info f), ip f)) <$> reverse (frames (fstack c)).

Definition is_none_or_throwing (m : ExceptionState) : bool :=
  match m with NoException | Throwing _ _ => true | _ => false end.

Definition begin_throwing (c : ctx) (exception : option Z) (preserve_stack_trace : bool) : phase :=
  let* _ := current_frame (fstack c) in
  match corlib_exception rt with
  | inl e => Val (c, Some (Error e))
  | inr _ =>
      let* h := expect exception in
      let* has_field := expect (has_trace_field rt h) in
      let existing_trace := if preserve_stack_trace && has_field then traces c !! h else None in
      let c :=
        if negb preserve_stack_trace || bool_decide (existing_trace = None)
        then if has_field then set_trace c h (capture_trace c) else c
        else c in
      let c :=
        if is_none_or_throwing (exception_mode c)
        then set_fstack (set_eval c (es_clear_suspended (eval c))) (fs_clear_suspended (fstack c))
        else c in
      let nested_filter :=
        match exception_mode c with
        | Filtering s => Some s
        | Searching s => ss_nested_filter s
        | _ => None
        end in
      Val (set_mode c (Searching {| ss_exception := exception; ss_cursor := top_cursor c;
                                    ss_nested_filter := nested_filter |}), None)
  end.

(** [extract_managed_exception]: panics on a null reference or a failed lookup. *)
Definition extract_managed_exception (exception : option Z) : outcome Empty_set (option Z) :=
  let* h := expect exception in
  match heap_description rt h, corlib_exception rt with
  | inr _, inr _ => let* _ := expect (has_trace_field rt h) in Val (Some h)
  | _, _ => Panic
  end.

(** The end of a search that found nothing. *)
Definition search_failed (c : ctx) (exception : option Z) : phase :=
  match nested_of c with
  | Some nested =>
      Val (set_mode c (Unwinding {| us_exception := Some exception; us_target := ToInstruction USIZE_MAX;
                                    us_cursor := top_cursor c; us_nested_filter := Some nested |}), None)
  | None =>
      let* managed_exc := extract_managed_exception exception in
      let c := set_mode c NoException in
      let c := set_fstack c (fs_clear (fstack c)) in
      Val (set_eval c (es_clear (eval c)), Some (MethodThrew managed_exc))
  end.

Definition stop_frame (c : ctx) : outcome Empty_set nat :=
  match nested_of c with
  | Some nested =>
      if (frame_index (fs_handler nested) =? 0)%nat then Panic else Val (frame_index (fs_handler nested))
  | None => Val O
  end.

(** The scan of the search pass: it reads the frames only. *)
Definition scan (c : ctx) (exception : option Z) (cursor : HandlerAddress) : outcome Empty_set found :=
  let* stop := stop_frame c in
  if (frame_index cursor <? stop)%nat then Val NotFound
  else search_frames exception cursor (frames (fstack c)) stop (frame_index cursor - stop).

Definition search_for_handler (c : ctx) (exception : option Z) (cursor : HandlerAddress) : phase :=
  let* r := scan c exception cursor in
  match r with
  | NotFound => search_failed c exception
  | FoundCatch a =>
      Val (set_mode c (Unwinding {| us_exception := Some exception; us_target := ToHandler a;
                                    us_cursor := top_cursor c; us_nested_filter := None |}), Some Exception)
  | FoundFilter a clause_offset => returns (enter_filter c exception a clause_offset)
  | SearchError e => Val (c, Some (Error e))
  end.

(** What [endfilter] and [complete_nested_filter_unwind] restore of the filter's frame. *)
Definition leave_filter (s : FilterState) (f : StackFrame) : StackFrame :=
  pop_exception (set_height (set_ip f (fs_original_ip s))
                   (fs_original_stack_height s - bp_stack (frame_base f))%nat).

Definition after_handler (a : HandlerAddress) : HandlerAddress :=
  {| frame_index := frame_index a; section_index := section_index a; handler_index := S (handler_index a) |}.

Definition complete_nested_filter_unwind (c : ctx) (nested : FilterState) : phase :=
  let c := set_eval c (es_restore_suspended (eval c)) in
  let c := set_fstack c (fs_restore_suspended (fstack c)) in
  let* _ := expect (frames (fstack c) !! frame_index (fs_handler nested)) in
  let c := set_fstack c (update_frame (fstack c) (frame_index (fs_handler nested)) (leave_filter nested)) in
  Val (set_mode c (Searching {| ss_exception := fs_exception nested; ss_cursor := after_handler (fs_handler nested);
                                ss_nested_filter := None |}), None).

Definition unwind_end (u : UnwindState) (r : unwound) : phase :=
  match r with
  | InHandler c => Val (c, Some Exception)
  | Rethrown c => Val (c, None)
  | AtTarget c =>
      match us_target u, us_nested_filter u with
      | ToInstruction t, Some nested =>
          if t =? USIZE_MAX then complete_nested_filter_unwind c nested else returns (finish_unwind u c)
      | _, _ => returns (finish_unwind u c)
      end
  end.

Definition unwind (c : ctx) (u : UnwindState) : phase :=
  let target := target_frame_of u in
  let* r := if (frame_index (us_cursor u) <? target)%nat then Val (AtTarget c)
            else unwind_frames u target (frame_index (us_cursor u) - target) c in
  unwind_end u r.

Definition run_phase (c : ctx) : phase :=
  match exception_mode c with
  | Throwing exception preserve => begin_throwing c exception preserve
  | Searching s => search_for_handler c (ss_exception s) (ss_cursor s)
  | Unwinding u => unwind c u
  | NoException | Filtering _ | ExecutingHandler _ => Val (c, Some Exception)
  end.

Fixpoint handle_exception_fuel (fuel : nat) (c : ctx) : option (outcome Empty_set (ctx * StepResult)) :=
  match fuel with
  | O => None
  | S fuel =>
      match run_phase c with
      | Val (c, Some r) => Some (Val (c, r))
      | Val (c, None) => handle_exception_fuel fuel c
      | Err e => Some (Err e)
      | Panic => Some Panic
      end
  end.

(** Enough for every chain of phases: see [handle_exception_terminates]. *)
Definition FUEL : nat := 4.

Definition handle_exception : handler ctx := fun c =>
  match handle_exception_fuel FUEL c with Some r => r | None => Panic end.

(** ** The exception instructions *)

Definition ctx_throw (exception : option Z) : handler ctx := fun c =>
  handle_exception (set_mode c (Throwing exception false)).

Definition rethrow : handler ctx := fun c =>
  let* f := current_frame (fstack c) in
  match last (exception_stack f) with
  | None => Val (c, Error (VmExecution (InvalidCil "rethrow without active exception")))
  | Some exception => handle_exception (set_mode c (Throwing exception true))
  end.

Definition leave (target_ip : Z) : handler ctx := fun c =>
  let* _ := current_frame (fstack c) in
  let frame := (length (frames (fstack c)) - 1)%nat in
  let c :=
    match exception_mode c with
    | ExecutingHandler state =>
        if (frame_index (us_cursor state) <? frame)%nat then push_handler_unwind c state else c
    | _ => c
    end in
  handle_exception (set_mode c (Unwinding {|
    us_exception := None; us_target := ToInstruction target_ip; us_cursor := top_cursor c;
    us_nested_filter := None |})).

(** The message also prints the state. *)
Definition endfinally : handler ctx := fun c =>
  match exception_mode c with
  | ExecutingHandler state => handle_exception (set_mode c (Unwinding state))
  | _ => Val (c, Error (VmExecution (InvalidCil "endfinally called outside of handler")))
  end.

Definition endfilter (result : Z) : handler ctx := fun c =>
  match exception_mode c with
  | Filtering state =>
      let handler := fs_handler state in
      let* _ := expect (frames (fstack c) !! frame_index handler) in
      let c := set_fstack c (update_frame (fstack c) (frame_index handler) (leave_filter state)) in
      let c := set_eval c (es_restore_suspended (eval c)) in
      let c := set_fstack c (fs_restore_suspended (fstack c)) in
      let c :=
        if result =? 1 then
          set_mode c (Unwinding {| us_exception := Some (fs_exception state); us_target := ToHandler handler;
                                   us_cursor := top_cursor c; us_nested_filter := None |})
        else
          set_mode c (Searching {| ss_exception := fs_exception state; ss_cursor := after_handler handler;
                                   ss_nested_filter := None |}) in
      Val (c, Exception)
  | _ => Val (c, Error (VmExecution (InvalidCil "EndFilter called but not in Filtering mode")))
  end.

Definition has_finally_blocks (f : StackFrame) : bool :=
  existsb (fun s => contains (s_instructions s) (ip f) &&
                    existsb (fun h => match kind h with Finally | Fault => true | _ => false end) (handlers s))
    (exceptions (info f)).

Definition ret : handler ctx := fun c =>
  let* f := current_frame (fstack c) in
  let frame := (length (frames (fstack c)) - 1)%nat in
  let normal :=
    if has_finally_blocks f then
      handle_exception (set_mode c (Unwinding {|
        us_exception := None; us_target := ToInstruction USIZE_MAX; us_cursor := top_cursor c;
        us_nested_filter := None |}))
    else Val (c, Return) in
  match exception_mode c with
  | ExecutingHandler state =>
      if (frame_index (us_cursor state) =? frame)%nat then
        handle_exception (set_mode c (Unwinding {|
          us_exception := us_exception state; us_target := ToInstruction USIZE_MAX;
          us_cursor := us_cursor state; us_nested_filter := us_nested_filter state |}))
      else normal
  | _ => normal
  end.

(** The opcodes: [throw] and [endfilter] take their operand from the stack. *)
Definition execute_throw : handler ctx := fun c =>
  vm_pop c (fun v c =>
    match try_as_object_ref v with
    | Val None =>
        Val (ves_throw_by_name rt "System.NullReferenceException"
               "Object reference not set to an instance of an object." None c)
    | Val (Some h) => ctx_throw (Some h) c
    | Err e => Val (c, Error (VmExecution e))
    | Panic => Panic
    end).

Definition execute_endfilter : handler ctx := fun c =>
  vm_pop c (fun v c =>
    match try_as_i32 v with
    | Val result => endfilter result c
    | Err e => Val (c, Error (VmExecution e))
    | Panic => Panic
    end).

End machine.

(** ** Termination, and what [handle_exception] reports *)

(** The number of phases that can still follow, by state. *)
Definition rank (m : ExceptionState) : nat :=
  match m with
  | Searching s => match ss_nested_filter s with None => 1 | Some _ => 4 end
  | Throwing _ _ => 2
  | Unwinding _ => 3
  | _ => 1
  end.

Definition reports (r : StepResult) : Prop :=
  match r with Exception | Return | MethodThrew _ | Error _ => True | _ => False end.

Section termination.

Variable rt : runtime.

Lemma begin_throwing_ends c e p c' r :
  is_throwing (exception_mode c) = true -> begin_throwing rt c e p = Val (c', r) ->
  match r with
  | None => exists s, exception_mode c' = Searching s /\ ss_nested_filter s = None
  | Some r => reports r
  end.
Proof.
  intros Ht (f & _ & H)%obind_val. destruct (corlib_exception rt); [by injection H as <- <-|].
  apply obind_val in H as (h & _ & (b & _ & [= <- <-])%obind_val).
  destruct (exception_mode c) eqn:E; try done.
  eexists. split; [reflexivity|]. simpl.
  repeat match goal with |- context [if ?b then _ else _] => destruct b end; simpl; by rewrite ?E.
Qed.

Lemma returns_val o c r : returns o = Val (c, r) -> exists r', r = Some r' /\ o = Val (c, r').
Proof. unfold returns. intros ([c0 r0] & -> & [= <- <-])%obind_val. eauto. Qed.

Lemma enter_filter_reports c e a off c' r : enter_filter c e a off = Val (c', r) -> r = Exception.
Proof. intros (f & _ & (e1 & _ & (s1 & _ & [= _ <-])%obind_val)%obind_val)%obind_val. done. Qed.

Lemma search_ends c s c' r :
  exception_mode c = Searching s -> search_for_handler rt c (ss_exception s) (ss_cursor s) = Val (c', r) ->
  match r with
  | None => ss_nested_filter s <> None /\ exists u, exception_mode c' = Unwinding u
  | Some r => reports r
  end.
Proof.
  intros Em (f & _ & H)%obind_val. destruct f as [|a|a off|e].
  - unfold search_failed, nested_of in H. rewrite Em in H. destruct (ss_nested_filter s) as [n|].
    + injection H as <- <-. split; [done|]. eexists. reflexivity.
    + by apply obind_val in H as (m & _ & [= <- <-]).
  - by injection H as <- <-.
  - apply returns_val in H as (r' & -> & H). apply enter_filter_reports in H as ->. done.
  - by injection H as <- <-.
Qed.

Lemma finish_unwind_reports u c c' r : finish_unwind u c = Val (c', r) -> r = Exception \/ r = Return.
Proof.
  unfold finish_unwind. destruct (us_target u) as [h|t].
  - intros (f & _ & (s & _ & (hd & _ & (e & _ & [= _ <-])%obind_val)%obind_val)%obind_val)%obind_val. auto.
  - destruct (t =? USIZE_MAX); [intros [= _ <-]; auto|]. destruct (pop_handler_unwind c).
    intros (f & _ & [= _ <-])%obind_val. auto.
Qed.

(** The loop over the frames keeps an exception it raised in [Throwing]. *)
Lemma unwind_frames_rethrown u target n c c' :
  unwind_frames rt u target n c = Val (Rethrown c') -> is_throwing (exception_mode c') = true.
Proof.
  revert c. induction n as [|n IH]; intros c; simpl; intros (f & _ & H)%obind_val;
    (destruct (unwind_sections _ _ _ _ _ _); [|done]); [done|].
  apply obind_val in H as (c1 & _ & H). destruct (is_throwing (exception_mode c1)) eqn:E; [|by eapply IH].
  by injection H as <-.
Qed.

Lemma unwind_ends c u c' r :
  unwind rt c u = Val (c', r) ->
  match r with
  | None => (rank (exception_mode c') <= 2)%nat
  | Some r => reports r
  end.
Proof.
  intros (w & Hw & H)%obind_val. destruct w as [c1|c1|c1]; simpl in H.
  - assert (Hf : returns (finish_unwind u c1) = Val (c', r) ->
      match r with None => (rank (exception_mode c') <= 2)%nat | Some r => reports r end).
    { intros (r' & -> & Hr)%returns_val. apply finish_unwind_reports in Hr as [-> | ->]; done. }
    destruct (us_target u) as [h|t]; [exact (Hf H)|]. destruct (us_nested_filter u) as [n|]; [|exact (Hf H)].
    destruct (t =? USIZE_MAX); [|exact (Hf H)]. apply obind_val in H as (f & _ & [= <- <-]). simpl. lia.
  - by injection H as <- <-.
  - injection H as <- <-. destruct (_ <? _)%nat; [done|]. apply unwind_frames_rethrown in Hw.
    destruct (exception_mode c1); try done.
Qed.

Lemma run_phase_ends c c' r :
  run_phase rt c = Val (c', r) ->
  match r with
  | None => (rank (exception_mode c') < rank (exception_mode c))%nat
  | Some r => reports r
  end.
Proof.
  unfold run_phase. destruct (exception_mode c) as [|e p|s|s|u|u] eqn:Em;
    try (by intros [= <- <-]); intros H.
  - apply begin_throwing_ends in H; [|by rewrite Em]. destruct r; [done|]. destruct H as (s & -> & Hs). simpl.
    rewrite Hs. lia.
  - apply (search_ends c s) in H; [|done]. destruct r; [done|]. destruct H as (Hn & u & ->). simpl.
    destruct (ss_nested_filter s); [lia | done].
  - apply unwind_ends in H. destruct r; [done|]. simpl. lia.
Qed.

Lemma rank_bound m : (1 <= rank m <= FUEL)%nat.
Proof. unfold FUEL. destruct m; simpl; try lia. destruct (ss_nested_filter s); lia. Qed.

Lemma enough_fuel fuel c : (rank (exception_mode c) <= fuel)%nat ->
  exists r, handle_exception_fuel rt fuel c = Some r /\
    match r with Val (_, r) => reports r | Err _ => False | Panic => True end.
Proof.
  revert c. induction fuel as [|fuel IH]; intros c Hc; [pose proof (rank_bound (exception_mode c)); lia|].
  simpl. destruct (run_phase rt c) as [[c' [r|]]|[]|] eqn:E; [| | by eexists].
  - apply run_phase_ends in E. by eexists.
  - apply run_phase_ends in E. apply IH. lia.
Qed.

Lemma handle_reports c c' r : handle_exception rt c = Val (c', r) -> reports r.
Proof.
  unfold handle_exception. destruct (enough_fuel FUEL c) as (o & -> & Ho); [apply rank_bound|].
  intros ->. exact Ho.
Qed.

(** More fuel does not change the answer. *)
Lemma fuel_monotone n m c r :
  (n <= m)%nat -> handle_exception_fuel rt n c = Some r -> handle_exception_fuel rt m c = Some r.
Proof.
  revert m c. induction n as [|n IH]; intros [|m] c Hle; simpl; [done | done | lia |].
  destruct (run_phase rt c) as [[c' [s|]]|e|]; [done | apply IH; lia | done | done].
Qed.

(** C27.  [handle_exception] terminates from every state: four phases always suffice,
    and more fuel gives the same answer.  It reports an exception to dispatch on, a
    return, an unhandled exception or an error, and never [Continue], which the
    batched loop would take for leave to run on. *)
Theorem handle_exception_terminates c :
  exists r, (forall n, (FUEL <= n)%nat -> handle_exception_fuel rt n c = Some r) /\
    handle_exception rt c = r /\
    match r with Val (_, s) => reports s | Err _ => False | Panic => True end.
Proof.
  destruct (enough_fuel FUEL c) as (r & Hr & Hs); [apply rank_bound|].
  exists r. split; [|split; [|done]].
  - intros n Hn. by apply (fuel_monotone FUEL n).
  - unfold handle_exception. by rewrite Hr.
Qed.

End termination.

(** ** The search pass finds the first handler *)

(** The order of the search: from the inner frame out, and in a frame by section and
    handler. *)
Definition before (a b : HandlerAddress) : Prop :=
  (frame_index b < frame_index a)%nat \/
  (frame_index a = frame_index b /\
   ((section_index a < section_index b)%nat \/
    (section_index a = section_index b /\ (handler_index a < handler_index b)%nat))).

(** The handlers a search from [cursor] down to the frame [stop] considers: those of
    the sections that protect their frame's instruction pointer. *)
Definition eligible (fs : list StackFrame) (stop : nat) (cursor a : HandlerAddress) (h : Handler) : Prop :=
  (stop <= frame_index a <= frame_index cursor)%nat /\
  (exists f s, fs !! frame_index a = Some f /\ exceptions (info f) !! section_index a = Some s /\
     contains (s_instructions s) (ip f) = true /\ handlers s !! handler_index a = Some h) /\
  ~ before a cursor.

Section search.

Variable rt : runtime.
Variable exception : option Z.

(** What the search makes of one handler. *)
Definition hit (a : HandlerAddress) (h : Handler) : found :=
  match kind h with
  | Catch t =>
      match catches rt exception t with
      | inr true => FoundCatch a
      | inr false => NotFound
      | inl e => SearchError e
      end
  | Filter off => FoundFilter a off
  | _ => NotFound
  end.

(** [r] is the hit of the first of the handlers [E] that is one. *)
Definition finds (E : HandlerAddress -> Handler -> Prop) (r : found) : Prop :=
  (r = NotFound /\ forall a h, E a h -> hit a h = NotFound) \/
  (r <> NotFound /\ exists a h, E a h /\ r = hit a h /\
     forall b h', E b h' -> before b a -> hit b h' = NotFound).

Definition or_else (r1 r2 : found) : found := match r1 with NotFound => r2 | _ => r1 end.

Lemma finds_iff E E' r : (forall a h, E a h <-> E' a h) -> finds E r -> finds E' r.
Proof.
  intros HE [[-> H] | (Hr & a & h & Ha & -> & H)].
  - left. split; [done|]. intros a h Ha. by apply H, HE.
  - right. split; [done|]. exists a, h. split; [by apply HE|]. split; [done|].
    intros b h' Hb. apply H. by apply HE.
Qed.

Lemma finds_seq E1 E2 r1 r2 :
  finds E1 r1 -> (r1 = NotFound -> finds E2 r2) -> (forall a h b h', E1 a h -> E2 b h' -> before a b) ->
  finds (fun a h => E1 a h \/ E2 a h) (or_else r1 r2).
Proof.
  intros H1 H2 Hord. destruct H1 as [[-> Hn] | (Hr & a & h & Ha & -> & Hb)].
  - destruct (H2 eq_refl) as [[-> Hn2] | (Hr & a & h & Ha & -> & Hb)].
    + left. split; [done|]. intros a h [?|?]; auto.
    + right. split; [done|]. exists a, h. split; [auto|]. split; [done|]. intros b h' [?|?] ?; eauto.
  - assert (Hm : or_else (hit a h) r2 = hit a h) by (by destruct (hit a h)). rewrite Hm.
    right. split; [exact Hr|]. exists a, h. split; [auto|]. split; [done|].
    intros b h' [Hb1|H] Hba; [by eapply Hb|]. specialize (Hord _ _ _ _ Ha H). unfold before in *. lia.
Qed.

Lemma finds_one a h : finds (fun b h' => b = a /\ h' = h) (hit a h).
Proof.
  assert (Hd : hit a h = NotFound \/ hit a h <> NotFound) by (destruct (hit a h); auto).
  destruct Hd as [E|E]; [left | right]; (split; [done|]).
  - by intros ? ? [-> ->].
  - exists a, h. split; [done|]. split; [done|]. intros b h' [-> ->] Hb. unfold before in Hb. lia.
Qed.

Lemma finds_none E : (forall a h, ~ E a h) -> finds E NotFound.
Proof. intros H. left. split; [done|]. intros a h Ha. by apply H in Ha. Qed.

Lemma search_handlers_cons fi si hi h hs :
  search_handlers rt exception fi si hi (h :: hs) =
  or_else (hit {| frame_index := fi; section_index := si; handler_index := hi |} h)
    (search_handlers rt exception fi si (S hi) hs).
Proof. simpl. unfold hit. destruct (kind h); try done. by destruct (catches rt exception t) as [|[]]. Qed.

Lemma lookup_from {A} (l : list A) x y (n m : nat) :
  (n <= m /\ (x :: l) !! (m - n) = Some y <-> (m = n /\ y = x) \/ (S n <= m /\ l !! (m - S n) = Some y))%nat.
Proof.
  destruct (decide (m = n)) as [->|Hne].
  - rewrite Nat.sub_diag. simpl. split; [intros [_ [= ->]]; auto|]. intros [[_ ->]|[? _]]; [done | lia].
  - split.
    + intros [Hle H]. right. split; [lia|]. replace (m - n)%nat with (S (m - S n))%nat in H by lia. done.
    + intros [[? _] | [Hle H]]; [done|]. split; [lia|].
      by replace (m - n)%nat with (S (m - S n))%nat by lia.
Qed.

Lemma search_handlers_finds fi si hi hs :
  finds (fun a h => frame_index a = fi /\ section_index a = si /\
                    ((hi <= handler_index a)%nat /\ hs !! (handler_index a - hi)%nat = Some h))
    (search_handlers rt exception fi si hi hs).
Proof.
  revert hi. induction hs as [|h hs IH]; intros hi.
  - apply finds_none. by intros a h (_ & _ & _ & [=]).
  - rewrite search_handlers_cons. eapply finds_iff;
      [| apply (finds_seq _ _ _ _ (finds_one {| frame_index := fi; section_index := si; handler_index := hi |} h)
                    (fun _ => IH (S hi)))].
    + intros a h'. rewrite lookup_from. split.
      * intros [[-> ->] | (? & ? & ?)]; simpl; auto.
      * intros (<- & <- & [[Hi ->] | ?]); [left | right; auto]. split; [|done].
        destruct a; simpl in *; by subst.
    + intros a h1 b h2 [-> ->] (Hf & Hs & Hle & _). unfold before. simpl. lia.
Qed.

(** The handlers of the section [s] the cursor lets through. *)
Definition section_hits (cursor : HandlerAddress) (fi si : nat) (s : ProtectedSection) (a : HandlerAddress) (h : Handler)
  : Prop :=
  frame_index a = fi /\ section_index a = si /\ handlers s !! handler_index a = Some h /\
  (fi = frame_index cursor -> si = section_index cursor -> (handler_index cursor <= handler_index a)%nat).

Lemma search_section_finds cursor fi si s :
  finds (section_hits cursor fi si s)
    (let k := if (fi =? frame_index cursor)%nat && (si =? section_index cursor)%nat
              then handler_index cursor else O in
     search_handlers rt exception fi si k (drop k (handlers s))).
Proof.
  set (k := if _ && _ then _ else _). eapply finds_iff; [|apply search_handlers_finds].
  assert (Hk : forall n, (k <= n)%nat <->
    (fi = frame_index cursor -> si = section_index cursor -> (handler_index cursor <= n)%nat)).
  { intros n. subst k. destruct (Nat.eqb_spec fi (frame_index cursor)), (Nat.eqb_spec si (section_index cursor));
      simpl; split; intros; try lia; auto. }
  intros a h. unfold section_hits. rewrite <- Hk. split.
  - intros (-> & -> & Hle & H). rewrite lookup_drop in H. replace (k + _)%nat with (handler_index a) in H by lia. auto.
  - intros (-> & -> & H & Hle). rewrite lookup_drop. replace (k + _)%nat with (handler_index a) by lia. auto.
Qed.

Lemma search_sections_cons cursor ip fi si s secs :
  contains (s_instructions s) ip = true ->
  search_sections rt exception cursor ip fi si (s :: secs) =
  or_else (let k := if (fi =? frame_index cursor)%nat && (si =? section_index cursor)%nat
                    then handler_index cursor else O in
           search_handlers rt exception fi si k (drop k (handlers s)))
    (search_sections rt exception cursor ip fi (S si) secs).
Proof. intros Hc. simpl. rewrite Hc. by destruct (search_handlers _ _ _ _ _ _). Qed.

Lemma search_sections_finds cursor ip fi si secs :
  finds (fun a h => exists s, ((si <= section_index a)%nat /\ secs !! (section_index a - si)%nat = Some s) /\
                     contains (s_instructions s) ip = true /\ section_hits cursor fi (section_index a) s a h)
    (search_sections rt exception cursor ip fi si secs).
Proof.
  revert si. induction secs as [|s secs IH]; intros si.
  - apply finds_none. by intros a h (s & [_ [=]] & _).
  - destruct (contains (s_instructions s) ip) eqn:Ec.
    + rewrite search_sections_cons by done.
      eapply finds_iff; [|apply (finds_seq _ _ _ _ (search_section_finds cursor fi si s) (fun _ => IH (S si)))].
      * intros a h. setoid_rewrite lookup_from. unfold section_hits. split.
        -- intros [(Hf & Hs & H) | (s' & H)]; [exists s | exists s'; tauto]. rewrite Hs. tauto.
        -- intros (s' & [[Hs ->] | Hs] & Hc & H); [left; rewrite Hs in H; tauto | right; exists s'; tauto].
      * intros a h b h' (Hf & Hs & _) (s' & [Hle _] & _ & (Hf' & _)). unfold before. lia.
    + simpl. rewrite Ec. eapply finds_iff; [|apply (IH (S si))]. intros a h. setoid_rewrite lookup_from. split.
      * intros (s' & H). exists s'. tauto.
      * intros (s' & [[_ ->] | Hs] & Hc & H); [congruence | exists s'; tauto].
Qed.

Lemma search_frame_finds cursor fs fi r :
  (fi <= frame_index cursor)%nat -> search_frame rt exception cursor fs fi = Val r ->
  finds (fun a h => frame_index a = fi /\ eligible fs fi cursor a h) r.
Proof.
  intros Hfi (f & Hf & [= <-])%obind_val. unfold expect in Hf. destruct (fs !! fi) eqn:Ef; [|done]. injection Hf as ->.
  set (k := if (fi =? frame_index cursor)%nat then section_index cursor else O).
  eapply finds_iff; [|apply search_sections_finds]. intros a h. unfold section_hits, eligible, before. split.
  - intros (s & [Hle Hs] & Hc & Ha & _ & Hh & Hcur). rewrite lookup_drop in Hs.
    replace (k + _)%nat with (section_index a) in Hs by lia. split; [done|]. split; [lia|]. split.
    + exists f, s. rewrite Ha. auto.
    + subst k. destruct (Nat.eqb_spec fi (frame_index cursor)); lia.
  - intros (Ha & _ & (f' & s & Hf' & Hs & Hc & Hh) & Hb). rewrite Ha in Hf'. simplify_eq.
    exists s. assert (Hk : (k <= section_index a)%nat).
    { subst k. destruct (Nat.eqb_spec (frame_index a) (frame_index cursor)); lia. }
    rewrite lookup_drop. replace (k + _)%nat with (section_index a) by lia.
    repeat split; try done; lia.
Qed.

Lemma search_frames_finds cursor fs stop n r :
  (stop + n <= frame_index cursor)%nat -> search_frames rt exception cursor fs stop n = Val r ->
  finds (fun a h => (frame_index a <= stop + n)%nat /\ eligible fs stop cursor a h) r.
Proof.
  revert r. induction n as [|n IH]; intros r Hle; cbn [search_frames]; intros (r1 & H1 & H)%obind_val.
  - assert (r1 = r) as -> by (destruct r1; congruence).
    apply search_frame_finds in H1; [|lia]. eapply finds_iff; [|done]. intros a h. unfold eligible.
    replace (stop + 0)%nat with stop by lia. split; [intros (? & ?) | intros (? & ? & ?)]; (split; [lia | tauto]).
  - assert (Hr : exists r2, r = or_else r1 r2 /\ (r1 = NotFound ->
      finds (fun a h => (frame_index a <= stop + n)%nat /\ eligible fs stop cursor a h) r2)).
    { destruct r1; [exists r; split; [done|]; intros _; apply IH; [lia | done]|..];
        exists NotFound; (split; [simpl; congruence | done]). }
    destruct Hr as (r2 & -> & H2). apply search_frame_finds in H1; [|lia].
    eapply finds_iff; [|apply (finds_seq _ _ _ _ H1 H2)].
    + intros a h. unfold eligible. split.
      * intros [(? & ? & ?) | (? & ? & ?)]; (split; [lia|]); (split; [lia | tauto]).
      * intros (Hle' & ? & ?). destruct (decide (frame_index a = stop + S n)%nat); [left | right];
          (split; [lia|]); (split; [lia | tauto]).
    + intros a h b h' [Ha _] [Hb _]. unfold before. lia.
Qed.

Lemma search_frames_total cursor fs stop n :
  (stop + n < length fs)%nat -> exists r, search_frames rt exception cursor fs stop n = Val r.
Proof.
  assert (Hone : forall i, (i < length fs)%nat -> exists r, search_frame rt exception cursor fs i = Val r).
  { intros i [f Hf]%lookup_lt_is_Some. unfold search_frame. rewrite Hf. by eexists. }
  induction n as [|n IH]; intros Hlt; cbn [search_frames]; destruct (Hone _ Hlt) as (r & ->); simpl.
  - destruct r; eauto.
  - destruct r; eauto. apply IH. lia.
Qed.

End search.

(**  The search pass: from a cursor, it considers the handlers of the sections
    that protect their frame's instruction pointer, from the cursor's frame outwards
    and in section and handler order, and acts on the first that is a filter, a
    [catch] whose type test succeeds, or a [catch] whose test fails with an error;
    [finally] and [fault] clauses and catches of other types are passed over.  It
    enters the unhandled case only when every handler was passed over. *)
Theorem search_takes_first_handler rt c s :
  exception_mode c = Searching s -> ss_nested_filter s = None ->
  (frame_index (ss_cursor s) < length (frames (fstack c)))%nat ->
  exists r, finds rt (ss_exception s) (eligible (frames (fstack c)) 0 (ss_cursor s)) r /\
    run_phase rt c =
    match r with
    | FoundCatch a =>
        Val (set_mode c (Unwinding {| us_exception := Some (ss_exception s); us_target := ToHandler a;
                                      us_cursor := top_cursor c; us_nested_filter := None |}), Some Exception)
    | FoundFilter a off => returns (enter_filter c (ss_exception s) a off)
    | SearchError e => Val (c, Some (Error e))
    | NotFound =>
        let* m := extract_managed_exception rt (ss_exception s) in
        Val (set_eval (set_fstack (set_mode c NoException) (fs_clear (fstack c))) (es_clear (eval c)),
             Some (MethodThrew m))
    end.
Proof.
  intros Em Hn Hlt. destruct (search_frames_total rt (ss_exception s) (ss_cursor s) (frames (fstack c)) 0
    (frame_index (ss_cursor s))) as (r & Hr); [done|]. exists r. split.
  - apply search_frames_finds in Hr; [|done]. eapply finds_iff; [|done]. intros a h. unfold eligible.
    split; [tauto|]. intros H. split; [lia | tauto].
  - unfold run_phase. rewrite Em. unfold search_for_handler, scan, stop_frame, search_failed, nested_of.
    rewrite Em, Hn. cbn [obind Nat.ltb Nat.leb]. rewrite Nat.sub_0_r, Hr. by destruct r.
Qed.

(** ** A small program, for the witnesses *)

(** Objects have the type of their number; a type test compares numbers. *)
Definition test_runtime : runtime := {|
  rt_heap := {| payload_base := fun h => h; leased_payload_base := fun _ => None |};
  rt_is_enum := fun _ => None;
  corlib_exception := inr tt;
  new_exception := fun n _ _ _ => inr (1000 + Z.of_nat n);
  heap_description := fun h => inr {| resolution := 0; index := Z.to_nat h |};
  is_a := fun td t => inr (index td =? t)%nat;
  has_trace_field := fun _ => Some true;
  type_name := fun _ => "T"%string;
|}.

Definition handler_at (r : Z * Z) (k : HandlerKind) : Handler :=
  {| h_instructions := {| start := r.1; end_ := r.2 |}; kind := k |}.

Definition section_at (r : Z * Z) (hs : list Handler) : ProtectedSection :=
  {| s_instructions := {| start := r.1; end_ := r.2 |}; handlers := hs |}.

Definition method_with (secs : list ProtectedSection) (body : list VmInstruction) : MethodInfo :=
  {| source := 1; parent := {| resolution := 1; index := 1 |}; synchronized := false;
     signature := plain_signature [] (Some (Generics.MBase (BPrim Int32))); locals := []; exceptions := secs; instructions := body;
     is_cctor := false; method_homes := None |}.

Definition frame_at (secs : list ProtectedSection) (i : Z) : StackFrame :=
  set_ip (new_frame base0 (method_with secs []) empty_lookup []) i.

Definition context_of (fs : list StackFrame) (vs : list StackValue) (m : ExceptionState) : ctx :=
  {| eval := {| stack := vs; suspended_stack := [] |};
     fstack := {| frames := fs; suspended_frames := []; pooled_frames := []; last_home_serial := 0 |};
     exception_mode := m; continuation := NoContinuation; original_ip := 0; original_stack_height := 0;
     processing_finalizer := false; cctor_log := []; traces := ∅; objects_created := 0 |}.

(** The caller catches type 8; the callee has a catch of type 7 and a [finally]. *)
Definition caller : StackFrame := frame_at [section_at (0, 4) [handler_at (4, 6) (Catch 8)]] 2.
Definition callee : StackFrame :=
  frame_at [section_at (2, 4) [handler_at (4, 6) (Catch 7)]; section_at (0, 6) [handler_at (6, 8) Finally]] 3.

Definition searching (e : Z) (fi : nat) : ExceptionState :=
  Searching {| ss_exception := Some e; ss_cursor := {| frame_index := fi; section_index := 0; handler_index := 0 |};
               ss_nested_filter := None |}.

Definition first : HandlerAddress := {| frame_index := 0; section_index := 0; handler_index := 0 |}.

Lemma search_takes_first_handler_witness :
  exists r c', finds test_runtime (Some 8) (eligible [caller; callee] 0
      {| frame_index := 1; section_index := 0; handler_index := 0 |}) r /\
    run_phase test_runtime (context_of [caller; callee] [] (searching 8 1)) = Val (c', Some Exception) /\
    match exception_mode c' with Unwinding u => us_target u = ToHandler first | _ => False end.
Proof.
  destruct (search_takes_first_handler test_runtime (context_of [caller; callee] [] (searching 8 1))
    {| ss_exception := Some 8; ss_cursor := {| frame_index := 1; section_index := 0; handler_index := 0 |};
       ss_nested_filter := None |}) as (r & Hr & _); [reflexivity | reflexivity | simpl; lia |].
  eexists r, _. split; [exact Hr|]. split; [vm_compute; reflexivity | reflexivity].
Defined.
