(* ===== verification/Unwinding.v ===== *)
(** * Unwinding runs every finally block once

    The unwind pass of [Exceptions] stops in each [finally] or [fault] block and
    resumes, at [endfinally], with an instruction pointer inside that block.  Here a
    whole unwinding is driven to its end, the bodies of the blocks being any code that
    reaches its [endfinally] and keeps [body_ok], and the blocks it enters are compared
    with the list that the protected sections determine at its start.  What a [leave] in
    the frame of a [finally] block does instead is a theorem of its own.

    The sections are assumed structured, as CIL requires of them: a protected block
    and its handlers lie together inside or outside any region of a later section,
    handlers are not empty, and a [finally] or [fault] is the only handler of its
    block. *)

From Stdlib Require Import ZArith Lia.
From stdpp Require Import base tactics list option strings sets gmap.
From S2P Require Import Prelude Generics Bytes ManagedPtr StackValue Ops Instructions FrameAlloc Layout FrameHomes VmData Interp Exceptions.

(** ** Structured sections *)

Definition regions (s : ProtectedSection) : list Range := s_instructions s :: (h_instructions <$> handlers s).

Definition is_cleanup (k : HandlerKind) : bool := match k with Finally | Fault => true | _ => false end.

Record structured (secs : list ProtectedSection) : Prop := {
  st_nested : forall i j a b h r x y, (i < j)%nat -> secs !! i = Some a -> secs !! j = Some b ->
    h ∈ handlers a -> r ∈ regions b -> contains (s_instructions a) x = true ->
    contains (h_instructions h) y = true -> contains r x = contains r y;
  st_nonempty : forall s h, s ∈ secs -> h ∈ handlers s -> contains (h_instructions h) (start (h_instructions h)) = true;
  st_single : forall s h, s ∈ secs -> h ∈ handlers s -> is_cleanup (kind h) = true -> handlers s = [h];
}.

(** ** The blocks an unwinding runs *)

(** What the unwind pass reads of a frame. *)
Abbreviation code := (MethodInfo * Z * BasePointer)%type (only parsing).

Definition code_of (f : StackFrame) : code := (info f, ip f, frame_base f).

Definition codes (c : ctx) : list code := code_of <$> frames (fstack c).

Definition reached (target : UnwindTarget) (fi si : nat) : bool :=
  match target with
  | ToHandler h => (fi =? frame_index h)%nat && (section_index h <=? si)%nat
  | ToInstruction _ => false
  end.

(** The blocks of the sections from [si] on that [ip] leaves on the way to the
    target: those of the exited sections that do not contain [ip] themselves. *)
Fixpoint section_blocks (e : option (option Z)) (target : UnwindTarget) (ip : Z) (fi si : nat) (secs : list ProtectedSection)
  : list Handler :=
  match secs with
  | [] => []
  | s :: rest =>
      if reached target fi si then []
      else (if is_exiting_section s ip target
            then filter (fun h => contains (h_instructions h) ip = false /\ should_run (kind h) e = true) (handlers s)
            else []) ++ section_blocks e target ip fi (S si) rest
  end.

Definition frame_blocks (e : option (option Z)) (target : UnwindTarget) (fi si : nat) (k : code) : list (nat * Handler) :=
  pair fi <$> section_blocks e target k.1.2 fi si (drop si (exceptions k.1.1)).

(** The blocks of the frames [target_frame + n] down to [target_frame]; [first] is
    the section at which the innermost frame is taken up. *)
Fixpoint blocks (e : option (option Z)) (target : UnwindTarget) (target_frame n first : nat) (ks : list code)
  : list (nat * Handler) :=
  match ks !! (target_frame + n)%nat with
  | None => []
  | Some k =>
      frame_blocks e target (target_frame + n) first k ++
      match n with O => [] | S n => blocks e target target_frame n 0 ks end
  end.

(** ** Driving an unwinding *)

Section drive.

Variable rt : runtime.

(** The code of a block, from its entry to its [endfinally]. *)
Variable body : Handler -> ctx -> ctx.

(** The handler a resume cursor follows. *)
Definition entered (c : ctx) (cursor : HandlerAddress) : option Handler :=
  f ← last (frames (fstack c));
  match handler_index cursor with
  | S hi => s ← exceptions (info f) !! section_index cursor; handlers s !! hi
  | O => s ← exceptions (info f) !! (section_index cursor - 1)%nat; last (handlers s)
  end.

(** A result of the state machine, followed to the end of the unwinding: in a block,
    its body runs and then its [endfinally]. *)
Fixpoint drive (fuel : nat) (o : outcome Empty_set (ctx * StepResult)) : option (list (nat * Handler) * ctx * StepResult) :=
  match fuel, o with
  | S fuel, Val (c, r) =>
      match exception_mode c with
      | ExecutingHandler u =>
          h ← entered c (us_cursor u);
          '(l, c', r) ← drive fuel (endfinally rt (body h c));
          Some ((frame_index (us_cursor u), h) :: l, c', r)
      | _ => Some ([], c, r)
      end
  | _, _ => None
  end.

End drive.

(** ** One frame *)

(** What the passage over a section leaves alone. *)
Record keeps (c c' : ctx) : Prop := {
  k_codes : codes c' = codes c;
  k_eval : eval c' = eval c;
  k_mode : exception_mode c' = exception_mode c;
  k_cont : continuation c' = continuation c;
}.

Lemma keeps_refl c : keeps c c.
Proof. by split. Qed.

Lemma keeps_trans a b c : keeps a b -> keeps b c -> keeps a c.
Proof. intros [] []. split; congruence. Qed.

Lemma codes_alter (g : StackFrame -> StackFrame) i (fs : list StackFrame) :
  (forall f, code_of (g f) = code_of f) -> code_of <$> alter g i fs = code_of <$> fs.
Proof.
  intros Hg. revert i. induction fs as [|f fs IH]; intros [|i]; simpl; [done | done | by rewrite Hg | by rewrite <- (IH i) at 1].
Qed.

Lemma keeps_pop c fi : keeps c (set_fstack c (update_frame (fstack c) fi pop_exception)).
Proof. split; [|done..]. unfold codes. simpl. by apply codes_alter. Qed.

#[local] Hint Resolve keeps_refl keeps_trans keeps_pop : vm.

Lemma unwind_handlers_pass u ip fi si hi count hs c :
  Forall (fun h => is_cleanup (kind h) = false) hs ->
  exists c', unwind_handlers u ip fi si hi count hs c = GoOn c' /\ keeps c c'.
Proof.
  intros Hf. revert hi c. induction Hf as [|h hs Hh Hf IH]; intros hi c; simpl; [eauto with vm|].
  destruct (contains (h_instructions h) ip).
  - destruct (IH (S hi) (if is_filter_or_catch (kind h)
      then set_fstack c (update_frame (fstack c) fi pop_exception) else c)) as (c' & -> & Hk).
    exists c'. split; [done|]. destruct (is_filter_or_catch (kind h)); eauto with vm.
  - assert (should_run (kind h) (us_exception u) = false) as -> by (by destruct (kind h)). apply IH.
Qed.

(** The state in which a block is entered. *)
Definition resume_at (u : UnwindState) (fi si : nat) : UnwindState :=
  {| us_exception := us_exception u; us_target := us_target u;
     us_cursor := {| frame_index := fi; section_index := si; handler_index := 0 |};
     us_nested_filter := us_nested_filter u |}.

Definition enter_block (u : UnwindState) (fi si : nat) (h : Handler) (c : ctx) : ctx :=
  let c := set_mode c (ExecutingHandler (resume_at u fi (S si))) in
  set_fstack c (update_frame (fstack c) fi (fun f => set_height (set_ip f (start (h_instructions h))) 0)).

Lemma unwind_handlers_single u ip fi si h c :
  is_cleanup (kind h) = true ->
  unwind_handlers u ip fi si 0 1 [h] c =
  if bool_decide (contains (h_instructions h) ip = false /\ should_run (kind h) (us_exception u) = true)
  then Stop (enter_block u fi si h c) else GoOn c.
Proof.
  intros Hc. cbn [unwind_handlers]. destruct (contains (h_instructions h) ip).
  - rewrite bool_decide_false by naive_solver. by destruct (kind h).
  - destruct (should_run (kind h) (us_exception u)); [rewrite bool_decide_true by done | rewrite bool_decide_false by naive_solver];
      done.
Qed.

Lemma exiting_single_in_try s h ip target :
  handlers s = [h] -> contains (h_instructions h) ip = false -> is_exiting_section s ip target = true ->
  contains (s_instructions s) ip = true.
Proof.
  intros Hs Hh. unfold is_exiting_section. destruct target as [a|t]; [done|].
  rewrite Hs, filter_cons_False, filter_nil by congruence. simpl. rewrite orb_false_r. by intros [? _]%andb_prop.
Qed.

Lemma single_or_pass s :
  (forall h, h ∈ handlers s -> is_cleanup (kind h) = true -> handlers s = [h]) ->
  Forall (fun h => is_cleanup (kind h) = false) (handlers s) \/
  exists h, handlers s = [h] /\ is_cleanup (kind h) = true.
Proof.
  intros Hs. destruct (decide (Forall (fun h => is_cleanup (kind h) = false) (handlers s))) as [|Hn]; [auto|].
  right. apply not_Forall_Exists in Hn; [|apply _]. apply Exists_exists in Hn as (h & Hin & Hh).
  apply not_false_is_true in Hh. exists h. auto.
Qed.

Lemma pass_blocks e ip hs :
  Forall (fun h => is_cleanup (kind h) = false) hs ->
  filter (fun h => contains (h_instructions h) ip = false /\ should_run (kind h) e = true) hs = [].
Proof.
  induction 1 as [|h hs Hh _ IH]; [done|]. rewrite filter_cons_False; [done|].
  intros [_ Hr]. destruct (kind h); done.
Qed.

(** Passing over the sections of a frame: nothing is left to run, or the first block
    is entered, with what is left to run after it. *)
Lemma unwind_sections_spec u ip fi si secs c :
  handler_index (us_cursor u) = O ->
  (forall s h, s ∈ secs -> h ∈ handlers s -> is_cleanup (kind h) = true -> handlers s = [h]) ->
  match section_blocks (us_exception u) (us_target u) ip fi si secs with
  | [] => exists c', unwind_sections u ip fi si secs c = GoOn c' /\ keeps c c'
  | h :: l => exists c0 j s, unwind_sections u ip fi si secs c = Stop (enter_block u fi (si + j) h c0) /\
      keeps c c0 /\ secs !! j = Some s /\ handlers s = [h] /\ contains (s_instructions s) ip = true /\
      l = section_blocks (us_exception u) (us_target u) ip fi (S (si + j)) (drop (S j) secs)
  end.
Proof.
  intros Hu. revert si c. induction secs as [|s secs IH]; intros si c Hs; cbn [section_blocks unwind_sections].
  { eauto with vm. }
  assert (IH' : forall c', keeps c c' ->
    match section_blocks (us_exception u) (us_target u) ip fi (S si) secs with
    | [] => exists c0, unwind_sections u ip fi (S si) secs c' = GoOn c0 /\ keeps c c0
    | h :: l => exists c0 j s', unwind_sections u ip fi (S si) secs c' = Stop (enter_block u fi (si + j) h c0) /\
        keeps c c0 /\ (s :: secs) !! j = Some s' /\ handlers s' = [h] /\ contains (s_instructions s') ip = true /\
        l = section_blocks (us_exception u) (us_target u) ip fi (S (si + j)) (drop (S j) (s :: secs))
    end).
  { intros c' Hk. specialize (IH (S si) c' ltac:(intros; eapply Hs; [by right | done..])).
    destruct (section_blocks _ _ _ _ _ _) as [|h l].
    - destruct IH as (c0 & -> & ?). eauto with vm.
    - destruct IH as (c0 & j & s' & -> & ? & Hj & ? & ? & ->). exists c0, (S j), s'.
      rewrite Nat.add_succ_r. split; [done|]. split; [by eapply keeps_trans | done]. }
  change (match us_target u with ToHandler h => _ | ToInstruction _ => false end) with (reached (us_target u) fi si).
  destruct (reached (us_target u) fi si); [eauto with vm|].
  destruct (is_exiting_section s ip (us_target u)) eqn:Ee; [|apply IH', keeps_refl].
  rewrite Hu. replace (if _ && _ then O else O) with O by (by destruct (_ && _)). rewrite drop_0.
  destruct (single_or_pass s (fun h => Hs s h (list_elem_of_here _ _))) as [Hf | (h & Hh & Hc)].
  - rewrite pass_blocks by done. destruct (unwind_handlers_pass u ip fi si 0 (length (handlers s)) (handlers s) c Hf)
      as (c' & -> & Hk). by apply IH'.
  - rewrite Hh. cbn [length]. rewrite unwind_handlers_single by done. case_bool_decide as Hd.
    + rewrite filter_cons_True by done. destruct Hd as [Hd1 Hd2]. exists c, O, s.
      rewrite Nat.add_0_r, filter_nil. repeat split; try done. by eapply exiting_single_in_try.
    + rewrite filter_cons_False, filter_nil by done. apply IH', keeps_refl.
Qed.

(** ** All frames *)

Lemma filter_iff_in {A} (P Q : A -> Prop) `{!forall x, Decision (P x), !forall x, Decision (Q x)} (l : list A) :
  (forall x, x ∈ l -> P x <-> Q x) -> filter P l = filter Q l.
Proof.
  induction l as [|x l IH]; intros HPQ; [done|]. rewrite !filter_cons, IH by (intros; apply HPQ; by right).
  pose proof (HPQ x (list_elem_of_here _ _)). do 2 case_decide; tauto.
Qed.

Lemma section_blocks_same e t ip ip' fi si secs :
  (forall s r, s ∈ secs -> r ∈ regions s -> contains r ip = contains r ip') ->
  section_blocks e t ip fi si secs = section_blocks e t ip' fi si secs.
Proof.
  revert si. induction secs as [|s secs IH]; intros si Hr; simpl; [done|].
  destruct (reached t fi si); [done|]. rewrite (IH (S si)) by (intros; eapply Hr; [by right | done]). f_equal.
  assert (Hs : contains (s_instructions s) ip = contains (s_instructions s) ip').
  { apply (Hr s); [by left | by left]. }
  assert (Hh : forall h, h ∈ handlers s -> contains (h_instructions h) ip = contains (h_instructions h) ip').
  { intros h Hin. apply (Hr s); [by left|]. right. by apply list_elem_of_fmap_2. }
  assert (He : is_exiting_section s ip t = is_exiting_section s ip' t).
  { unfold is_exiting_section. rewrite Hs. destruct t as [|t]; [done|].
    rewrite (filter_iff_in (fun h => contains (h_instructions h) ip = true) (fun h => contains (h_instructions h) ip' = true));
      [done|]. intros h Hin. by rewrite Hh. }
  rewrite He. destruct (is_exiting_section s ip' t); [|done]. apply filter_iff_in. intros h Hin. by rewrite Hh.
Qed.

Lemma blocks_ext e t tf n first ks ks' :
  (forall i, (i <= tf + n)%nat -> ks !! i = ks' !! i) -> blocks e t tf n first ks = blocks e t tf n first ks'.
Proof.
  revert first. induction n as [|n IH]; intros first H; simpl; rewrite (H (tf + _)%nat) by lia; [done|].
  destruct (ks' !! _); [|done]. f_equal. apply IH. intros. apply H. lia.
Qed.

Lemma unwind_frame_plain rt c fs f :
  frames (fstack c) = fs ++ [f] -> is_cctor (info f) = false ->
  exists c', unwind_frame (E:=Empty_set) rt c = Val c' /\ frames (fstack c') = fs /\
    exception_mode c' = exception_mode c /\ continuation c' = continuation c.
Proof.
  intros Hf Hc. unfold unwind_frame, pop_frame. rewrite Hf, last_snoc, removelast_snoc, Hc.
  eexists. split; [done|]. unfold recycle_frame. destruct (is_finalizer f), (_ <? _)%nat; done.
Qed.

Lemma codes_snoc c k : 
  last (codes c) = Some k -> exists fs f, frames (fstack c) = fs ++ [f] /\ code_of f = k.
Proof.
  unfold codes. destruct (frames (fstack c)) as [|f fs _] using rev_ind; [done|].
  rewrite fmap_app. simpl. rewrite last_snoc. intros [= <-]. eauto.
Qed.

(** What an unwinding needs of the frames: structured sections, and no class
    constructor above the target, whose failure would start another exception. *)
Record frames_ok (target : nat) (ks : list code) : Prop := {
  fo_structured : forall i k, (target <= i)%nat -> ks !! i = Some k -> structured (exceptions k.1.1);
  fo_plain : forall i k, (target < i)%nat -> ks !! i = Some k -> is_cctor k.1.1 = false;
}.

(** The top frame, taken up at the section [first]. *)
Lemma unwind_top_spec u fi first c k :
  handler_index (us_cursor u) = O -> codes c !! fi = Some k -> structured (exceptions k.1.1) ->
  match frame_blocks (us_exception u) (us_target u) fi first k with
  | [] => exists c', unwind_sections u k.1.2 fi first (drop first (exceptions k.1.1)) c = GoOn c' /\ keeps c c'
  | x :: l => exists c0 j s h, x = (fi, h) /\
      unwind_sections u k.1.2 fi first (drop first (exceptions k.1.1)) c = Stop (enter_block u fi j h c0) /\
      keeps c c0 /\ exceptions k.1.1 !! j = Some s /\ handlers s = [h] /\
      contains (s_instructions s) k.1.2 = true /\
      l = frame_blocks (us_exception u) (us_target u) fi (S j) k
  end.
Proof.
  intros Hu Hk [_ _ Hs]. unfold frame_blocks.
  pose proof (unwind_sections_spec u k.1.2 fi first (drop first (exceptions k.1.1)) c Hu) as H.
  destruct (section_blocks _ _ _ _ first _) as [|h l]; simpl.
  - apply H. intros s h Hin. apply Hs. by apply (subseteq_drop first).
  - destruct H as (c0 & j & s & H1 & H2 & H3 & H4 & H5 & ->).
    { intros s h' Hin. apply Hs. by apply (subseteq_drop first). }
    exists c0, (first + j)%nat, s, h. rewrite lookup_drop in H3. rewrite drop_drop in *.
    rewrite <- plus_n_Sm. auto 10.
Qed.

(** Where the frame [fi] is taken up. *)
Definition first_section (u : UnwindState) (fi : nat) : nat :=
  if (fi =? frame_index (us_cursor u))%nat then section_index (us_cursor u) else O.

Definition frames_below (e : option (option Z)) (t : UnwindTarget) (tf n : nat) (ks : list code) : list (nat * Handler) :=
  match n with O => [] | S n => blocks e t tf n 0 ks end.

Lemma blocks_eq e t tf n first ks k :
  ks !! (tf + n)%nat = Some k ->
  blocks e t tf n first ks = frame_blocks e t (tf + n) first k ++ frames_below e t tf n ks.
Proof. intros Hk. destruct n; cbn [blocks]; by rewrite Hk. Qed.

Lemma unwind_frames_eq rt u tf n c k :
  codes c !! (tf + n)%nat = Some k ->
  unwind_frames rt u tf n c =
  match unwind_sections u k.1.2 (tf + n) (first_section u (tf + n))
          (drop (first_section u (tf + n)) (exceptions k.1.1)) c with
  | Stop c => Val (InHandler c)
  | GoOn c =>
      match n with
      | O => Val (AtTarget c)
      | S n =>
          let* c := unwind_frame rt c in
          if is_throwing (exception_mode c) then Val (Rethrown c) else unwind_frames rt u tf n c
      end
  end.
Proof.
  unfold codes. rewrite list_lookup_fmap. destruct (frames (fstack c) !! (tf + n)%nat) as [f|] eqn:E; [|done].
  intros [= <-]. destruct n; cbn [unwind_frames]; rewrite E; reflexivity.
Qed.

Lemma frames_ok_take tf ks i : frames_ok tf ks -> frames_ok tf (take i ks).
Proof.
  intros [H1 H2]. split; intros j k; rewrite lookup_take_Some; intros ? [? _]; eauto.
Qed.

(** A block is entered, and what is left to run after it. *)
Definition enters (rt : runtime) (u : UnwindState) (tf n : nat) (c : ctx) (x : nat * Handler) (l : list (nat * Handler))
  : Prop :=
  exists c0 fi j s k h, x = (fi, h) /\
    unwind_frames rt u tf n c = Val (InHandler (enter_block u fi j h c0)) /\
    codes c0 = take (S fi) (codes c) /\ continuation c0 = continuation c /\
    (tf <= fi <= tf + n)%nat /\ codes c !! fi = Some k /\ exceptions k.1.1 !! j = Some s /\ handlers s = [h] /\
    contains (s_instructions s) k.1.2 = true /\
    l = blocks (us_exception u) (us_target u) tf (fi - tf) (S j) (codes c).

Lemma enters_below rt u tf n c c2 x l :
  codes c2 = take (S (tf + n)) (codes c) -> continuation c2 = continuation c ->
  unwind_frames rt u tf (S n) c = unwind_frames rt u tf n c2 ->
  enters rt u tf n c2 x l -> enters rt u tf (S n) c x l.
Proof.
  intros Hc Hk He (c0 & fi & j & s & k & h & -> & Hu & Hc0 & Hk0 & Hfi & Hfk & Hj & Hh & Hin & ->).
  rewrite Hc in *. apply lookup_take_Some in Hfk as [Hfk _].
  exists c0, fi, j, s, k, h. rewrite He, Hu, Hc0, take_take, Nat.min_l by lia.
  split; [done|]. split; [done|]. split; [done|]. split; [congruence|]. split; [lia|].
  split; [done|]. split; [done|]. split; [done|]. split; [done|].
  apply blocks_ext. intros i Hi. apply lookup_take_lt. lia.
Qed.

(** The loop over the frames: at the target when no block is left, else in the first
    of the blocks, with the others left. *)
Lemma unwind_frames_spec rt u tf n c :
  handler_index (us_cursor u) = O -> (tf + n <= frame_index (us_cursor u))%nat ->
  length (codes c) = S (tf + n) -> frames_ok tf (codes c) -> is_throwing (exception_mode c) = false ->
  match blocks (us_exception u) (us_target u) tf n (first_section u (tf + n)) (codes c) with
  | [] => exists c', unwind_frames rt u tf n c = Val (AtTarget c') /\
      codes c' = take (S tf) (codes c) /\ continuation c' = continuation c
  | x :: l => enters rt u tf n c x l
  end.
Proof.
  intros Hu. revert c. induction n as [n IH] using lt_wf_ind; intros c Hle Hlen Hok Hm.
  destruct (lookup_lt_is_Some_2 (codes c) (tf + n)%nat ltac:(lia)) as [k Hk].
  pose proof (unwind_top_spec u (tf + n) (first_section u (tf + n)) c k Hu Hk (fo_structured _ _ Hok (tf + n)%nat k ltac:(lia) Hk)) as Htop.
  rewrite (blocks_eq _ _ _ _ _ _ k Hk). destruct (frame_blocks _ _ _ (first_section _ _) k) as [|x l] eqn:Efb.
  - destruct Htop as (c1 & Ht & [Hc1 _ Hm1 Hk1]). destruct n as [|n]; cbn [app frames_below].
    { exists c1. rewrite (unwind_frames_eq _ _ _ _ _ k Hk), Ht, Hc1. split; [done|]. split; [|done]. rewrite take_ge; [done | lia]. }
    destruct (codes_snoc c1 k) as (fs & f & Hfs & Hf).
    { rewrite Hc1, last_lookup, Hlen. done. }
    destruct (unwind_frame_plain rt c1 fs f Hfs) as (c2 & Hu2 & Hf2 & Hm2 & Hk2).
    { change (is_cctor (code_of f).1.1 = false). rewrite Hf. by apply (fo_plain _ _ Hok (tf + S n)%nat); [lia|]. }
    assert (Hc2 : codes c2 = take (S (tf + n)) (codes c)).
    { rewrite <- Hc1 in *. unfold codes in *. rewrite Hf2, Hfs, fmap_app in *. rewrite length_app in Hlen. simpl in Hlen.
      rewrite take_app_length' by lia. done. }
    assert (He : unwind_frames rt u tf (S n) c = unwind_frames rt u tf n c2).
    { rewrite (unwind_frames_eq _ _ _ _ _ k Hk), Ht, Hu2. simpl. by rewrite Hm2, Hm1, Hm. }
    specialize (IH n ltac:(lia) c2 ltac:(lia)). rewrite Hc2 in IH.
    specialize (IH ltac:(rewrite length_take; lia) (frames_ok_take _ _ _ Hok) ltac:(congruence)).
    replace (first_section u (tf + n)) with O in IH
      by (unfold first_section; destruct (Nat.eqb_spec (tf + n) (frame_index (us_cursor u))); [lia | done]).
    rewrite (blocks_ext _ _ _ _ _ (take _ _) (codes c)) in IH by (intros; apply lookup_take_lt; lia).
    destruct (blocks _ _ _ _ _ _) as [|x l].
    + destruct IH as (c' & Hc' & Hcc & Hkc). exists c'. rewrite He, Hc', Hcc, take_take, Nat.min_l by lia.
      split; [done|]. split; [done|]. congruence.
    + eapply enters_below; [done | congruence | done | done].
  - destruct Htop as (c0 & j & s & h & -> & Ht & Hkp & Hj & Hh & Hc & ->).
    exists c0, (tf + n)%nat, j, s, k, h. rewrite (unwind_frames_eq _ _ _ _ _ k Hk), Ht.
    replace (tf + n - tf)%nat with n by lia. rewrite (blocks_eq _ _ _ _ _ _ k Hk).
    rewrite take_ge by lia. split; [done|]. split; [done|]. split; [apply Hkp|]. split; [apply Hkp|].
    split; [lia|]. auto 10.
Qed.

(** ** Whole unwindings *)

(** A block's body runs in its frame and ends inside the block with the exception mode,
    the continuation and the frames below as it found them, whatever else it does to
    its operands, its heap and the frames it calls. *)
Definition body_ok (body : Handler -> ctx -> ctx) : Prop :=
  forall h c fs f, frames (fstack c) = fs ++ [f] -> contains (h_instructions h) (ip f) = true ->
    (exists f', frames (fstack (body h c)) = fs ++ [f'] /\ info f' = info f /\ frame_base f' = frame_base f /\
       contains (h_instructions h) (ip f') = true) /\
    exception_mode (body h c) = exception_mode c /\ continuation (body h c) = continuation c.

(** A state in the middle of an unwinding to the frame [tf]. *)
Record ready (tf : nat) (u : UnwindState) (c : ctx) : Prop := {
  r_mode : exception_mode c = Unwinding u;
  r_handler : handler_index (us_cursor u) = O;
  r_nested : us_nested_filter u = None;
  r_target : target_frame_of u = tf;
  r_above : (tf <= frame_index (us_cursor u))%nat;
  r_top : length (codes c) = S (frame_index (us_cursor u));
  r_frames : frames_ok tf (codes c);
}.

Definition remaining (tf : nat) (u : UnwindState) (c : ctx) : list (nat * Handler) :=
  blocks (us_exception u) (us_target u) tf (frame_index (us_cursor u) - tf) (section_index (us_cursor u)) (codes c).

(** The methods and base pointers of the frames. *)
Definition methods (c : ctx) : list (MethodInfo * BasePointer) := (fun k : code => (k.1.1, k.2)) <$> codes c.

Section whole.

Variable rt : runtime.

Lemma handle_unwinding c u c' r :
  exception_mode c = Unwinding u -> unwind rt c u = Val (c', Some r) -> handle_exception rt c = Val (c', r).
Proof. intros Hm Hu. unfold handle_exception. simpl. unfold run_phase. by rewrite Hm, Hu. Qed.

Lemma ready_frames tf u c :
  ready tf u c ->
  unwind rt c u =
  (let* r := unwind_frames rt u tf (frame_index (us_cursor u) - tf) c in unwind_end u r) /\
  match remaining tf u c with
  | [] => exists c', unwind_frames rt u tf (frame_index (us_cursor u) - tf) c = Val (AtTarget c') /\
      codes c' = take (S tf) (codes c) /\ continuation c' = continuation c
  | x :: l => enters rt u tf (frame_index (us_cursor u) - tf) c x l
  end.
Proof.
  intros [Hm Hh Hn Ht Ha Htop Hf]. split.
  - unfold unwind. rewrite Ht. destruct (Nat.ltb_spec (frame_index (us_cursor u)) tf); [lia | done].
  - pose proof (unwind_frames_spec rt u tf (frame_index (us_cursor u) - tf) c Hh ltac:(lia) ltac:(lia) Hf
      ltac:(by rewrite Hm)) as H.
    unfold first_section in H. replace (tf + _)%nat with (frame_index (us_cursor u)) in H by lia.
    by rewrite Nat.eqb_refl in H.
Qed.

(** No block is left: the pass arrives at its target. *)
Lemma ready_arrives tf u c :
  ready tf u c -> remaining tf u c = [] ->
  exists c', unwind rt c u = returns (finish_unwind u c') /\ codes c' = take (S tf) (codes c) /\
    continuation c' = continuation c.
Proof.
  intros Hr Hrem. destruct (ready_frames tf u c Hr) as [He H]. rewrite Hrem in H.
  destruct H as (c' & Hu & Hc & Hk). exists c'. rewrite He, Hu. simpl. rewrite (r_nested _ _ _ Hr).
  split; [|done]. by destruct (us_target u).
Qed.

Lemma block_frames u fi j h c0 ks k :
  codes c0 = take (S fi) ks -> ks !! fi = Some k ->
  exists fs f, code_of f = k /\ code_of <$> fs = take fi ks /\ length fs = fi /\
    frames (fstack (enter_block u fi j h c0)) = fs ++ [set_height (set_ip f (start (h_instructions h))) 0].
Proof.
  intros Hc Hk. pose proof (take_S_r _ _ _ Hk) as Hs. rewrite Hs in Hc.
  destruct (codes_snoc c0 k) as (fs & f & Hf & Hfk); [by rewrite Hc, last_snoc|].
  unfold codes in Hc. rewrite Hf, fmap_app in Hc. apply app_inj_tail in Hc as [Hfs _].
  assert (Hlen : length fs = fi).
  { apply (f_equal length) in Hfs. rewrite length_fmap, length_take in Hfs.
    apply lookup_lt_Some in Hk. lia. }
  exists fs, f. split; [done|]. split; [done|]. split; [done|].
  unfold enter_block, update_frame. simpl. rewrite Hf.
  replace fi with (length (fs ++ [f]) - 1)%nat at 1 by (rewrite length_app; simpl; lia).
  exact (alter_last (fun f => set_height (set_ip f (start (h_instructions h))) 0) fs f).
Qed.

(** Resuming inside a block of section [j] leaves the later sections to run what they
    had to run. *)
Lemma frame_blocks_resume e t fi j k s h ip' :
  structured (exceptions k.1.1) -> exceptions k.1.1 !! j = Some s -> handlers s = [h] ->
  contains (s_instructions s) k.1.2 = true -> contains (h_instructions h) ip' = true ->
  frame_blocks e t fi (S j) (k.1.1, ip', k.2) = frame_blocks e t fi (S j) k.
Proof.
  intros Hst Hj Hh Hx Hy. unfold frame_blocks. simpl. f_equal. apply section_blocks_same.
  intros s' r (i & Hi)%list_elem_of_lookup Hr. rewrite lookup_drop in Hi. symmetry.
  apply (st_nested _ Hst j (S j + i)%nat s s' h); [lia | done | done | rewrite Hh; by left | done..].
Qed.

Lemma lookup_resumed (ks : list code) fi k k' i y :
  ks !! fi = Some k -> (take fi ks ++ [k']) !! i = Some y -> (i < fi /\ ks !! i = Some y)%nat \/ (i = fi /\ y = k').
Proof.
  intros Hk Hi. assert (Hlen : length (take fi ks) = fi)
    by (apply lookup_lt_Some in Hk; rewrite length_take; lia).
  destruct (decide (i < fi)%nat) as [Hlt|Hge].
  - rewrite lookup_app_l, lookup_take_lt in Hi by lia. auto.
  - rewrite lookup_app_r, Hlen in Hi by lia. right.
    destruct (i - fi)%nat as [|m] eqn:E; simpl in Hi; [injection Hi as <- | by rewrite lookup_nil in Hi].
    split; [lia | done].
Qed.

Lemma frames_ok_resumed tf ks fi k i :
  frames_ok tf ks -> ks !! fi = Some k -> frames_ok tf (take fi ks ++ [(k.1.1, i, k.2)]).
Proof.
  intros [H1 H2] Hk. split; intros n y Hn.
  - intros [[_ Hy] | [-> ->]]%(lookup_resumed _ _ _ _ _ _ Hk); simpl; eauto.
  - intros [[_ Hy] | [-> ->]]%(lookup_resumed _ _ _ _ _ _ Hk); simpl; eauto.
Qed.

Lemma take_resumed (ks : list code) fi k k' i :
  ks !! fi = Some k -> (i < fi)%nat -> (take fi ks ++ [k']) !! i = ks !! i.
Proof.
  intros Hk Hi. rewrite lookup_app_l; [by apply lookup_take_lt|]. rewrite length_take. apply lookup_lt_Some in Hk. lia.
Qed.

Lemma top_resumed (ks : list code) fi k k' : ks !! fi = Some k -> (take fi ks ++ [k']) !! fi = Some k'.
Proof. intros Hk. apply list_lookup_middle. rewrite length_take. apply lookup_lt_Some in Hk. lia. Qed.

(** The frame [fi] resumed at [i] inside the block [h] of its section [j]. *)
Lemma blocks_resumed e t tf fi j ks k s h i :
  (tf <= fi)%nat -> ks !! fi = Some k -> structured (exceptions k.1.1) -> exceptions k.1.1 !! j = Some s ->
  handlers s = [h] -> contains (s_instructions s) k.1.2 = true -> contains (h_instructions h) i = true ->
  blocks e t tf (fi - tf) (S j) (take fi ks ++ [(k.1.1, i, k.2)]) = blocks e t tf (fi - tf) (S j) ks.
Proof.
  intros Hle Hk Hst Hj Hh Hx Hy. assert (Hfi : (tf + (fi - tf))%nat = fi) by lia.
  rewrite (blocks_eq _ _ _ _ _ ks k) by (by rewrite Hfi).
  rewrite (blocks_eq _ _ _ _ _ _ (k.1.1, i, k.2)) by (rewrite Hfi; by eapply top_resumed).
  rewrite Hfi, (frame_blocks_resume _ _ _ _ _ s h) by done. f_equal.
  destruct (fi - tf)%nat eqn:E; [done|]. simpl. apply blocks_ext. intros m Hm. eapply take_resumed; [done | lia].
Qed.

Lemma methods_resumed (ks : list code) tf fi k i :
  (tf <= fi)%nat -> ks !! fi = Some k ->
  take (S tf) ((fun k : code => (k.1.1, k.2)) <$> take fi ks ++ [(k.1.1, i, k.2)]) =
  take (S tf) ((fun k : code => (k.1.1, k.2)) <$> ks).
Proof.
  intros Hle Hk. apply list_eq. intros n.
  destruct (decide (n < S tf)%nat) as [Hn|Hn]; [|by rewrite !lookup_take_ge by lia].
  rewrite !lookup_take_lt, !list_lookup_fmap by lia. destruct (decide (n < fi)%nat).
  - by rewrite (take_resumed _ _ k) by done.
  - assert (n = fi) as -> by lia. rewrite (top_resumed ks fi k _ Hk). simpl. by rewrite Hk.
Qed.

Lemma ready_enters body tf u c x l :
  body_ok body -> ready tf u c -> remaining tf u c = x :: l ->
  exists c1 u' c2, handle_exception rt c = Val (c1, Exception) /\ exception_mode c1 = ExecutingHandler u' /\
    entered c1 (us_cursor u') = Some x.2 /\ frame_index (us_cursor u') = x.1 /\
    endfinally rt (body x.2 c1) = handle_exception rt c2 /\ ready tf u' c2 /\ remaining tf u' c2 = l /\
    us_exception u' = us_exception u /\ us_target u' = us_target u /\
    continuation c2 = continuation c /\ take (S tf) (methods c2) = take (S tf) (methods c).
Proof.
  intros Hb Hr Hrem. destruct (ready_frames tf u c Hr) as [He H]. rewrite Hrem in H.
  destruct H as (c0 & fi & j & s & k & h & -> & Hu & Hc0 & Hk0 & Hfi & Hfk & Hj & Hh & Hin & ->). simpl.
  pose proof Hr as [Hm Hh0 Hn Ht Ha Htop [Hst Hpl]].
  destruct (block_frames u fi j h c0 _ _ Hc0 Hfk) as (fs & f & Hf & Hfs & Hlen & Hc1).
  assert (Hne : contains (h_instructions h) (start (h_instructions h)) = true).
  { apply (st_nonempty _ (Hst fi k ltac:(lia) Hfk) s); [by eapply list_elem_of_lookup_2 | rewrite Hh; by left]. }
  destruct (Hb h _ _ _ Hc1 Hne) as ((f' & Hf' & Hi' & Hb' & Hy) & Hmb & Hkb).
  set (c1 := enter_block u fi j h c0) in *. set (u' := resume_at u fi (S j)).
  assert (Hcodes : codes (body h c1) = take fi (codes c) ++ [(k.1.1, ip f', k.2)]).
  { unfold codes at 1. rewrite Hf', fmap_app, Hfs. simpl. unfold code_of at 1. rewrite Hi', Hb'. by subst k. }
  exists c1, u', (set_mode (body h c1) (Unwinding u')).
  split; [by eapply handle_unwinding; [|rewrite He, Hu]|]. split; [done|].
  split. { unfold entered. rewrite Hc1, last_snoc. simpl. rewrite Nat.sub_0_r. subst k. simpl in Hj.
    rewrite Hj. simpl. by rewrite Hh. }
  split; [done|]. split; [unfold endfinally; by rewrite Hmb|].
  split.
  { split; [done | done | done | | simpl; lia | |].
    - unfold target_frame_of in *. simpl. rewrite Hn in *. destruct (us_target u); [done | lia].
    - change (length (codes (body h c1)) = S fi). rewrite Hcodes, length_app, length_take.
      apply lookup_lt_Some in Hfk. simpl. lia.
    - change (frames_ok tf (codes (body h c1))). rewrite Hcodes.
      by apply frames_ok_resumed. }
  unfold remaining, methods. change (codes (set_mode (body h c1) (Unwinding u'))) with (codes (body h c1)).
  rewrite Hcodes. split; [apply (blocks_resumed _ _ tf fi j _ k s h); [lia | done | apply (Hst fi k); [lia | done] | done..]|].
  split; [done|]. split; [done|]. split; [simpl; rewrite Hkb; simpl; congruence|].
  apply methods_resumed; [lia | done].
Qed.

(** An unwinding with well-behaved bodies runs the remaining blocks in order and
    arrives at its target. *)
Lemma drive_all body tf l u c fuel :
  body_ok body -> ready tf u c -> remaining tf u c = l -> (length l < fuel)%nat ->
  exists u' c', us_exception u' = us_exception u /\ us_target u' = us_target u /\ target_frame_of u' = tf /\
    methods c' = take (S tf) (methods c) /\ continuation c' = continuation c /\
    forall c2 r, finish_unwind u' c' = Val (c2, r) ->
      match exception_mode c2 with ExecutingHandler _ => False | _ => True end ->
      drive rt body fuel (handle_exception rt c) = Some (l, c2, r).
Proof.
  intros Hb. revert u c fuel. induction l as [|x l IH]; intros u c [|fuel] Hr Hrem Hlt; simpl in Hlt; try lia.
  - destruct (ready_arrives tf u c Hr Hrem) as (c' & Hu & Hc & Hk). exists u, c'.
    split; [done|]. split; [done|]. split; [apply Hr|]. split; [unfold methods; by rewrite Hc, fmap_take|].
    split; [done|]. intros c2 r Hfin Hm2. rewrite (handle_unwinding c u c2 r); [|apply Hr | by rewrite Hu, Hfin].
    simpl. by destruct (exception_mode c2).
  - destruct (ready_enters body tf u c x l Hb Hr Hrem) as (c1 & u1 & c2 & Hh & Hm & Hent & Hfi & Hend & Hr2 & Hrem2
      & He & Ht & Hk & Hmeth).
    destruct (IH u1 c2 fuel Hr2 Hrem2 ltac:(lia)) as (u' & c' & He' & Ht' & Htf & Hmeth' & Hk' & Hdrive).
    exists u', c'. split; [congruence|]. split; [congruence|]. split; [done|]. split; [congruence|].
    split; [congruence|]. intros c3 r Hfin Hm3. rewrite Hh. cbn [drive]. rewrite Hm, Hent. cbn [mbind option_bind].
    rewrite Hend, (Hdrive c3 r) by done. cbn. rewrite Hfi. by destruct x.
Qed.

Lemma update_frame_snoc s fs f i u :
  frames s = fs ++ [f] -> i = length fs -> frames (update_frame s i u) = fs ++ [u f].
Proof.
  intros Hs ->. unfold update_frame. simpl. rewrite Hs.
  replace (length fs) with (length (fs ++ [f]) - 1)%nat by (rewrite length_app; simpl; lia). apply alter_last.
Qed.

Lemma ves_push_snoc v c fs f :
  frames (fstack c) = fs ++ [f] ->
  frames (fstack (ves_push v c)) = fs ++ [set_height f (S (stack_height f))] /\
  stack (eval (ves_push v c)) = stack (eval c) ++ [v] /\ exception_mode (ves_push v c) = exception_mode c.
Proof.
  intros Hf. split; [|done]. unfold ves_push, on_push. simpl.
  apply (update_frame_snoc _ _ _ _ (fun f => set_height f (S (stack_height f)))); [done|].
  rewrite Hf, length_app. simpl. lia.
Qed.

Lemma methods_lookup c i f : frames (fstack c) !! i = Some f -> methods c !! i = Some (info f, frame_base f).
Proof. intros Hf. unfold methods, codes. by rewrite !list_lookup_fmap, Hf. Qed.

Lemma methods_lookup_inv c i m b :
  methods c !! i = Some (m, b) -> exists f, frames (fstack c) !! i = Some f /\ info f = m /\ frame_base f = b.
Proof.
  unfold methods, codes. rewrite !list_lookup_fmap. destruct (frames (fstack c) !! i) as [f|]; [|done].
  intros [= <- <-]. eauto.
Qed.

Lemma length_methods c : length (methods c) = length (frames (fstack c)).
Proof. unfold methods, codes. by rewrite !length_fmap. Qed.

(** Arriving at an instruction: the frame's height is reset, the evaluation stack stays. *)
Lemma finish_at_instruction u c tf t f :
  us_target u = ToInstruction t -> t <> USIZE_MAX -> target_frame_of u = tf ->
  continuation c = NoContinuation -> length (frames (fstack c)) = S tf -> frames (fstack c) !! tf = Some f ->
  exists c' f', finish_unwind u c = Val (c', Exception) /\ exception_mode c' = NoException /\
    length (frames (fstack c')) = S tf /\ last (frames (fstack c')) = Some f' /\ info f' = info f /\ ip f' = t /\
    frame_base f' = frame_base f /\ stack_height f' = O /\ eval c' = eval c.
Proof.
  intros Ht Hne Htf Hk Hlen Hf. unfold finish_unwind. rewrite Ht. destruct (Z.eqb_spec t USIZE_MAX); [done|].
  unfold pop_handler_unwind. rewrite Hk, Htf. cbn [fstack set_mode]. rewrite Hf. cbn [expect obind].
  destruct (frames (fstack c)) as [|f0 fs _] eqn:Efs using rev_ind; [done|].
  rewrite length_app in Hlen. simpl in Hlen. rewrite list_lookup_middle in Hf by lia. injection Hf as ->.
  eexists _, _. split; [reflexivity|]. split; [done|]. cbn [set_fstack set_mode fstack].
  rewrite (update_frame_snoc _ fs f _ (fun f => set_height (set_ip f t) 0)) by (done || lia).
  rewrite length_app, last_snoc. simpl. split; [lia | done].
Qed.

Lemma finish_at_handler u c a f s hd e :
  us_target u = ToHandler a -> us_exception u = Some e -> length (frames (fstack c)) = S (frame_index a) ->
  frames (fstack c) !! frame_index a = Some f -> exceptions (info f) !! section_index a = Some s ->
  handlers s !! handler_index a = Some hd ->
  exists c' f', finish_unwind u c = Val (c', Exception) /\ exception_mode c' = NoException /\
    length (frames (fstack c')) = S (frame_index a) /\ last (frames (fstack c')) = Some f' /\
    info f' = info f /\ ip f' = start (h_instructions hd) /\ last (exception_stack f') = Some e /\
    stack (eval c') = take (bp_stack (frame_base f)) (stack (eval c)) ++ [SV.ObjectRef e] /\
    ctx_view c' = [SV.ObjectRef e].
Proof.
  intros Ht He Hlen Hf Hs Hh. unfold finish_unwind. rewrite Ht. cbn [fstack set_mode].
  rewrite Hf. cbn [expect obind]. rewrite Hs. cbn [expect obind]. rewrite Hh. cbn [expect obind]. rewrite He. cbn [expect obind].
  destruct (frames (fstack c)) as [|f0 fs _] eqn:Efs using rev_ind; [done|].
  rewrite length_app in Hlen. simpl in Hlen. rewrite list_lookup_middle in Hf by lia. injection Hf as ->.
  set (c1 := set_fstack (set_eval _ _) _). assert (Hc1 : frames (fstack c1) =
    fs ++ [push_exception (set_height (set_ip f (start (h_instructions hd))) 0) e]).
  { subst c1. cbn [set_fstack set_eval fstack].
    apply (update_frame_snoc _ fs (set_height (set_ip f (start (h_instructions hd))) 0) _
             (fun f => push_exception f e)); [|lia].
    apply (update_frame_snoc _ fs f _ (fun f => set_height (set_ip f (start (h_instructions hd))) 0)); [done | lia]. }
  destruct (ves_push_snoc (SV.ObjectRef e) c1 _ _ Hc1) as (Hf1 & Hs1 & Hm1).
  eexists _, _. split; [reflexivity|]. change (push_obj e c1) with (ves_push (SV.ObjectRef e) c1).
  unfold ctx_view. rewrite Hf1, last_snoc, Hs1, Hm1. split; [done|]. split; [rewrite length_app; simpl; lia|].
  split; [done|]. split; [done|]. split; [done|]. split; [apply last_snoc|]. split; [done|].
  rewrite length_app. simpl. rewrite Nat.add_sub. by rewrite drop_app_length.
Qed.

End whole.

(** C1.  Unwinding to a handler, once the search has chosen it: each [finally] and
    [fault] block of the sections left on the way, from the innermost frame to the
    target section, is entered exactly once and in that order; then the handler is
    entered, in its own frame, with the frames above gone, the exception its only
    operand and the active exception of the frame.  The sections are structured, no
    frame above the target is a class constructor, the unwinding is not nested in a
    filter, and each block reaches its [endfinally] with the exception mode, the
    continuation and the frames below as it found them ([body_ok]): it may compute,
    store and call, but it neither throws out of itself nor executes a [leave] in its
    own frame, which is another matter (see [nested_leave_loses_exception]). *)
Theorem exception_unwinding_runs_blocks rt body u c a e f s hd fuel :
  body_ok body -> exception_mode c = Unwinding u -> us_exception u = Some e -> us_target u = ToHandler a ->
  us_cursor u = top_cursor c -> us_nested_filter u = None ->
  frames (fstack c) !! frame_index a = Some f -> exceptions (info f) !! section_index a = Some s ->
  handlers s !! handler_index a = Some hd -> frames_ok (frame_index a) (codes c) ->
  let l := blocks (Some e) (ToHandler a) (frame_index a) (length (frames (fstack c)) - 1 - frame_index a) 0 (codes c) in
  (length l < fuel)%nat ->
  exists c' f', drive rt body fuel (handle_exception rt c) = Some (l, c', Exception) /\
    exception_mode c' = NoException /\ length (frames (fstack c')) = S (frame_index a) /\
    last (frames (fstack c')) = Some f' /\ info f' = info f /\ ip f' = start (h_instructions hd) /\
    last (exception_stack f') = Some e /\ ctx_view c' = [SV.ObjectRef e].
Proof.
  intros Hb Hm He Ht Hcur Hn Hf Hs Hh Hok l Hl. pose proof (lookup_lt_Some _ _ _ Hf) as Hlt.
  assert (Hr : ready (frame_index a) u c).
  { split; rewrite ?Hcur; try done; simpl; [by unfold target_frame_of; rewrite Ht | lia |].
    unfold codes. rewrite length_fmap. lia. }
  assert (Hrem : remaining (frame_index a) u c = l) by (unfold remaining; by rewrite He, Ht, Hcur).
  destruct (drive_all rt body _ l u c fuel Hb Hr Hrem Hl) as (u' & c' & He' & Ht' & _ & Hmeth & _ & Hdrive).
  assert (Hma : methods c' !! frame_index a = Some (info f, frame_base f)).
  { rewrite Hmeth, lookup_take_lt by lia. by apply methods_lookup. }
  destruct (methods_lookup_inv _ _ _ _ Hma) as (f1 & Hf1 & Hi1 & Hb1).
  destruct (finish_at_handler u' c' a f1 s hd e) as (c2 & f2 & Hfin & Hm2 & Hlen2 & Hl2 & Hi2 & Hip2 & Hex2 & _ & Hv2);
    try congruence.
  { rewrite <- length_methods, Hmeth, length_take, length_methods. lia. }
  exists c2, f2. rewrite (Hdrive c2 Exception Hfin) by (by rewrite Hm2). rewrite Hi2, Hi1. done.
Qed.

(** A [leave] that is not above a suspended handler: its blocks are driven, and execution
    goes on at the target with no exception mode. *)
Lemma leave_drives rt body c fs f t fuel :
  body_ok body -> frames (fstack c) = fs ++ [f] -> structured (exceptions (info f)) -> t <> USIZE_MAX ->
  match exception_mode c with ExecutingHandler u => (length fs <= frame_index (us_cursor u))%nat | _ => True end ->
  continuation c = NoContinuation ->
  let l := frame_blocks None (ToInstruction t) (length fs) 0 (code_of f) in
  (length l < fuel)%nat ->
  exists c' f', drive rt body fuel (leave rt t c) = Some (l, c', Exception) /\
    exception_mode c' = NoException /\ length (frames (fstack c')) = S (length fs) /\
    last (frames (fstack c')) = Some f' /\ info f' = info f /\ ip f' = t.
Proof.
  intros Hb Hf Hst Ht Hm Hk l Hl.
  set (u := {| us_exception := None; us_target := ToInstruction t; us_cursor := top_cursor c; us_nested_filter := None |}).
  set (c0 := set_mode c (Unwinding u)).
  assert (Htop : (length (frames (fstack c)) - 1 = length fs)%nat) by (rewrite Hf, length_app; simpl; lia).
  assert (Hleave : leave rt t c = handle_exception rt c0).
  { unfold leave, current_frame. rewrite Htop, Hf, last_snoc. destruct (exception_mode c) as [| | | | |u0]; try done.
    simpl. by destruct (Nat.ltb_spec (frame_index (us_cursor u0)) (length fs)); [lia|]. }
  assert (Hck : codes c0 !! length fs = Some (code_of f)).
  { unfold codes. simpl. rewrite Hf, list_lookup_fmap, list_lookup_middle; done. }
  assert (Hr : ready (length fs) u c0).
  { split; try done; simpl; rewrite ?Htop; [done | | ].
    - unfold codes. simpl. rewrite length_fmap, Hf, length_app. simpl. lia.
    - split; intros i k Hi Hik; pose proof (lookup_lt_Some _ _ _ Hik) as Hlt; unfold codes in Hlt; simpl in Hlt;
        rewrite length_fmap in Hlt; [|lia].
      assert (i = length fs) as -> by lia. rewrite Hck in Hik. by injection Hik as <-. }
  assert (Hrem : remaining (length fs) u c0 = l).
  { unfold remaining. simpl. rewrite Htop, Nat.sub_diag.
    rewrite (blocks_eq _ _ _ _ _ _ (code_of f)) by (by rewrite Nat.add_0_r). simpl.
    by rewrite Nat.add_0_r, app_nil_r. }
  destruct (drive_all rt body _ l u c0 fuel Hb Hr Hrem Hl) as (u' & c' & _ & Ht' & Htf & Hmeth & Hk' & Hdrive).
  assert (Hmf : methods c' !! length fs = Some (info f, frame_base f)).
  { rewrite Hmeth, lookup_take_lt by lia. apply methods_lookup. simpl. rewrite Hf. by apply list_lookup_middle. }
  destruct (methods_lookup_inv _ _ _ _ Hmf) as (f1 & Hf1 & Hi1 & _).
  destruct (finish_at_instruction u' c' (length fs) t f1) as (c2 & f2 & Hfin & Hm2 & Hlen2 & Hl2 & Hi2 & Hip2 & _);
    [done | done | done | by rewrite Hk' | | done |].
  { rewrite <- length_methods, Hmeth, length_take, length_methods. cbn [c0 set_mode fstack].
    rewrite Hf, length_app. cbn [length]. lia. }
  exists c2, f2. rewrite Hleave, (Hdrive c2 Exception Hfin) by (by rewrite Hm2). rewrite Hi2, Hi1. done.
Qed.

(**  [leave] outside of a running handler: each [finally] block of the sections
    that contain the instruction and not the target is entered exactly once,
    innermost first, [fault] blocks are not, and execution goes on at the target in
    the same frame. *)
Theorem leave_runs_finally_blocks rt body c fs f t fuel :
  body_ok body -> frames (fstack c) = fs ++ [f] -> structured (exceptions (info f)) -> t <> USIZE_MAX ->
  exception_mode c = NoException -> continuation c = NoContinuation ->
  let l := frame_blocks None (ToInstruction t) (length fs) 0 (code_of f) in
  (length l < fuel)%nat ->
  exists c' f', drive rt body fuel (leave rt t c) = Some (l, c', Exception) /\
    exception_mode c' = NoException /\ length (frames (fstack c')) = S (length fs) /\
    last (frames (fstack c')) = Some f' /\ info f' = info f /\ ip f' = t.
Proof. intros Hb Hf Hst Ht Hm. apply leave_drives; [done..|]. by rewrite Hm. Qed.

(** A [finally] block that an exception runs loses the exception when it executes
    a [leave] in its own frame, as the end of a [try] inside the block does: the
    [finally] blocks of the sections the [leave] exits run (well-behaved ones, of
    structured sections, with no suspended unwinding in the continuation), execution
    goes on at its target with no exception in flight, and the [endfinally] of the
    outer block is then reported as invalid code. *)
Theorem nested_leave_loses_exception rt body c fs f t u e fuel :
  body_ok body -> frames (fstack c) = fs ++ [f] -> structured (exceptions (info f)) -> t <> USIZE_MAX ->
  exception_mode c = ExecutingHandler u -> us_exception u = Some e -> frame_index (us_cursor u) = length fs ->
  continuation c = NoContinuation ->
  let l := frame_blocks None (ToInstruction t) (length fs) 0 (code_of f) in
  (length l < fuel)%nat ->
  exists c' f', drive rt body fuel (leave rt t c) = Some (l, c', Exception) /\
    exception_mode c' = NoException /\ last (frames (fstack c')) = Some f' /\ info f' = info f /\ ip f' = t /\
    forall c'', exception_mode c'' = exception_mode c' ->
      endfinally rt c'' = Val (c'', Error (VmExecution (InvalidCil "endfinally called outside of handler"))).
Proof.
  intros Hb Hf Hst Ht Hm He Hi Hk l Hl.
  destruct (leave_drives rt body c fs f t fuel Hb Hf Hst Ht) as (c' & f' & Hd & Hm' & _ & Hl' & Hi' & Hip');
    [by rewrite Hm, Hi | done | done |].
  exists c', f'. do 5 (split; [done|]). intros c'' Hc. unfold endfinally. by rewrite Hc, Hm'.
Qed.

(** ** A caller and a callee *)

Lemma structured_singleton s :
  (forall h, h ∈ handlers s -> contains (h_instructions h) (start (h_instructions h)) = true) ->
  (forall h, h ∈ handlers s -> is_cleanup (kind h) = true -> handlers s = [h]) -> structured [s].
Proof.
  intros H1 H2. split.
  - intros [|i] [|j] a b h r x y Hij; simpl; try done; lia.
  - intros s' h ->%list_elem_of_singleton. auto.
  - intros s' h ->%list_elem_of_singleton. auto.
Qed.

Lemma caller_structured : structured (exceptions (info caller)).
Proof. by apply structured_singleton; intros h ->%list_elem_of_singleton. Qed.

Lemma callee_structured : structured (exceptions (info callee)).
Proof.
  split.
  - intros [|[|i]] [|[|j]] a b h r x y Hij; simpl; try lia; try done. intros [= <-] [= <-] Hh Hr.
    apply list_elem_of_singleton in Hh as ->. unfold contains. simpl.
    apply elem_of_cons in Hr as [-> | ->%list_elem_of_singleton]; simpl; intros Hx Hy;
      apply andb_prop in Hx as [Hx1 Hx2]; apply andb_prop in Hy as [Hy1 Hy2]; apply eq_true_iff_eq;
      rewrite !andb_true_iff, !Z.leb_le, !Z.ltb_lt in *; lia.
  - intros s h Hs Hh. apply elem_of_cons in Hs as [-> | ->%list_elem_of_singleton];
      by apply list_elem_of_singleton in Hh as ->.
  - intros s h Hs Hh. apply elem_of_cons in Hs as [-> | ->%list_elem_of_singleton];
      by apply list_elem_of_singleton in Hh as ->.
Qed.

Lemma body_ok_at_once : body_ok (fun _ c => c).
Proof. intros h c fs f Hf Hin. split; [|done]. by exists f. Qed.

Definition unwinding_to_first : ExceptionState :=
  Unwinding {| us_exception := Some (Some 8); us_target := ToHandler first;
               us_cursor := {| frame_index := 1; section_index := 0; handler_index := 0 |}; us_nested_filter := None |}.

Lemma exception_unwinding_runs_blocks_witness :
  exists c', drive test_runtime (fun _ c => c) 2 (handle_exception test_runtime (context_of [caller; callee] [] unwinding_to_first)) =
      Some ([(1%nat, handler_at (6, 8) Finally)], c', Exception) /\
    ctx_view c' = [SV.ObjectRef (Some 8)].
Proof.
  destruct (exception_unwinding_runs_blocks test_runtime (fun _ c => c)
    {| us_exception := Some (Some 8); us_target := ToHandler first;
       us_cursor := {| frame_index := 1; section_index := 0; handler_index := 0 |}; us_nested_filter := None |}
    (context_of [caller; callee] [] unwinding_to_first) first (Some 8) caller
    (section_at (0, 4) [handler_at (4, 6) (Catch 8)]) (handler_at (4, 6) (Catch 8)) 2)
    as (c' & f' & Hd & _ & _ & _ & _ & _ & _ & Hv); try reflexivity.
  - apply body_ok_at_once.
  - split; intros [|[|i]] k Hi; simpl; try lia; try done; intros [= <-];
      [apply caller_structured | apply callee_structured | done].
  - vm_compute. lia.
  - exists c'. split; [exact Hd | exact Hv].
Defined.

Lemma leave_runs_finally_blocks_witness :
  exists c' f', drive test_runtime (fun _ c => c) 2 (leave test_runtime 9 (context_of [callee] [] NoException)) =
      Some ([(0%nat, handler_at (6, 8) Finally)], c', Exception) /\
    last (frames (fstack c')) = Some f' /\ ip f' = 9.
Proof.
  destruct (leave_runs_finally_blocks test_runtime (fun _ c => c) (context_of [callee] [] NoException) [] callee 9 2)
    as (c' & f' & Hd & _ & _ & Hl & _ & Hip); try reflexivity.
  - apply body_ok_at_once.
  - apply callee_structured.
  - done.
  - vm_compute. lia.
  - exists c', f'. split; [exact Hd | split; [exact Hl | exact Hip]].
Defined.

(** The callee's [finally] at 6 to 8, run by an exception, executes a [leave] to 7. *)
Lemma nested_leave_loses_exception_witness :
  exists c', drive test_runtime (fun _ c => c) 2 (leave test_runtime 7 (context_of [set_ip callee 6] []
      (ExecutingHandler {| us_exception := Some (Some 8); us_target := ToHandler first;
         us_cursor := {| frame_index := 0; section_index := 1; handler_index := 0 |}; us_nested_filter := None |}))) =
      Some ([], c', Exception) /\ exception_mode c' = NoException /\
    endfinally test_runtime c' = Val (c', Error (VmExecution (InvalidCil "endfinally called outside of handler"))).
Proof.
  destruct (nested_leave_loses_exception test_runtime (fun _ c => c) (context_of [set_ip callee 6] []
      (ExecutingHandler {| us_exception := Some (Some 8); us_target := ToHandler first;
         us_cursor := {| frame_index := 0; section_index := 1; handler_index := 0 |}; us_nested_filter := None |}))
      [] (set_ip callee 6) 7
      {| us_exception := Some (Some 8); us_target := ToHandler first;
         us_cursor := {| frame_index := 0; section_index := 1; handler_index := 0 |}; us_nested_filter := None |} (Some 8) 2)
    as (c' & f' & Hd & Hm & _ & _ & _ & He); try reflexivity.
  - apply body_ok_at_once.
  - apply callee_structured.
  - done.
  - vm_compute. lia.
  - exists c'. split; [exact Hd | split; [exact Hm | by apply He]].
Defined.
