(* ===== verification/Filters.v ===== *)
(** * Exception filters

    Running a filter suspends the frames and operands above its frame; [endfilter]
    puts them back.  The round trip is exact.  The second part is about exceptions
    raised while a filter runs: every throw puts the machine in [Throwing] before
    [begin_throwing] looks for an outer filter, so no state ever records one. *)

From Stdlib Require Import ZArith Lia.
From stdpp Require Import base tactics list option strings sets gmap relations.
From S2P Require Import Prelude Generics Bytes ManagedPtr StackValue Ops Instructions FrameAlloc Layout FrameHomes VmData Interp Exceptions Unwinding.

(** ** The round trip *)

(** What the body of a filter of the frame [fi] did between its entry [c1] and its
    [endfilter], which has popped its operand: it moved in its own frame, and its
    operands are used up.  [n] is where the frame's operands start. *)
Record filter_ran (fi n : nat) (c1 c2 : ctx) : Prop := {
  fr_mode : exception_mode c2 = exception_mode c1;
  fr_frames : exists i h, frames (fstack c2) = alter (fun f => set_height (set_ip f i) h) fi (frames (fstack c1));
  fr_suspended_frames : suspended_frames (fstack c2) = suspended_frames (fstack c1);
  fr_stack : stack (eval c2) = take n (stack (eval c1));
  fr_suspended_stack : suspended_stack (eval c2) = suspended_stack (eval c1);
}.

Lemma leave_filter_entered f off exc i h s :
  fs_original_ip s = ip f -> fs_original_stack_height s = (bp_stack (frame_base f) + stack_height f)%nat ->
  leave_filter s (set_height (set_ip (set_height (push_exception (set_height (set_ip f off) 0) exc) 1) i) h) = f.
Proof.
  destruct f as [h0 b0 i0 m0 al0 g0 es0 p0 fin0 mc0 k0 hs0 r0]. cbv [leave_filter pop_exception push_exception set_height set_ip set_exception_stack
    stack_height frame_base ip info allocations generic_inst exception_stack pinned_locals is_finalizer multicast_state
    frame_continuation frame_homes constructor_result].
  intros -> ->. by rewrite removelast_snoc, Nat.add_comm, Nat.add_sub.
Qed.

(** The state in which a filter's body starts. *)
Lemma enter_filter_state c exc a off c1 r :
  enter_filter c exc a off = Val (c1, r) ->
  exists fs f gs, frames (fstack c) = fs ++ f :: gs /\ length fs = frame_index a /\
    frames (fstack c1) = fs ++ [set_height (push_exception (set_height (set_ip f off) 0) exc) 1] /\
    suspended_frames (fstack c1) = gs /\
    (bp_stack (frame_base f) <= length (stack (eval c)))%nat /\
    stack (eval c1) = take (bp_stack (frame_base f)) (stack (eval c)) ++ [SV.ObjectRef exc] /\
    suspended_stack (eval c1) = drop (bp_stack (frame_base f)) (stack (eval c)) /\
    exception_mode c1 = Filtering {| fs_exception := exc; fs_handler := a; fs_original_ip := ip f;
      fs_original_stack_height := (bp_stack (frame_base f) + stack_height f)%nat |}.
Proof.
  intros (f & Hf & (e & He & (s & Hs & [= <- _])%obind_val)%obind_val)%obind_val. unfold expect in Hf.
  destruct (frames (fstack c) !! frame_index a) as [f0|] eqn:E; [|done]. injection Hf as ->.
  unfold es_suspend_above in He. cbn [eval set_mode] in He. destruct (Nat.leb_spec (bp_stack (frame_base f)) (length (stack (eval c)))); [|done].
  injection He as <-.
  unfold fs_suspend_above in Hs. destruct (_ <=? _)%nat; [|done]. injection Hs as <-.
  pose proof (take_drop_middle _ _ _ E) as Hfs. symmetry in Hfs. apply lookup_lt_Some in E as Hlt.
  assert (Hlen : length (take (frame_index a) (frames (fstack c))) = frame_index a) by (rewrite length_take; lia).
  set (fs := take (frame_index a) (frames (fstack c))) in *. set (gs := drop _ (frames (fstack c))) in *.
  exists fs, f, gs.
  split; [done|]. split; [done|]. 
  match goal with |- context [push_obj exc ?x] => set (c0 := x) end.
  change (push_obj exc c0) with (ves_push (SV.ObjectRef exc) c0).
  assert (Hcut : take (S (frame_index a)) (frames (fstack c)) = fs ++ [f] /\
                 drop (S (frame_index a)) (frames (fstack c)) = gs).
  { split; [|done]. rewrite Hfs. change (fs ++ f :: gs) with (fs ++ [f] ++ gs). rewrite (assoc app).
    apply take_app_length'. rewrite length_app. simpl. lia. }
  destruct (ves_push_snoc (SV.ObjectRef exc) c0 fs (push_exception (set_height (set_ip f off) 0) exc))
    as (Hf1 & Hs1 & Hm1).
  { apply (update_frame_snoc _ fs f _ (fun f => push_exception (set_height (set_ip f off) 0) exc)); [|done].
    apply Hcut. }
  rewrite Hf1, Hs1, Hm1. split; [done|]. split; [apply Hcut|]. done.
Qed.

Lemma alter_snoc {A} (g : A -> A) l x i : i = length l -> alter g i (l ++ [x]) = l ++ [g x].
Proof. intros ->. replace (length l) with (length l + 0)%nat by lia. by rewrite alter_app_r. Qed.

(**  A filter runs in a state from which [endfilter] recovers the one before it:
    after any body that uses up its operands, the frames, also the ones above the
    filter, and the operands are those of the state in which the filter was entered;
    the answer 1 starts the unwinding to its handler, any other one resumes the
    search at the next handler. *)
Theorem filter_roundtrip c exc a off c1 r f c2 v :
  enter_filter c exc a off = Val (c1, r) -> frames (fstack c) !! frame_index a = Some f ->
  filter_ran (frame_index a) (bp_stack (frame_base f)) c1 c2 ->
  exists c3, endfilter v c2 = Val (c3, Exception) /\
    frames (fstack c3) = frames (fstack c) /\ suspended_frames (fstack c3) = [] /\
    stack (eval c3) = stack (eval c) /\ suspended_stack (eval c3) = [] /\
    exception_mode c3 =
      (if v =? 1
       then Unwinding {| us_exception := Some exc; us_target := ToHandler a; us_cursor := top_cursor c;
                         us_nested_filter := None |}
       else Searching {| ss_exception := exc; ss_cursor := after_handler a; ss_nested_filter := None |}).
Proof.
  intros He Hf [Hm (i & h & Hfr) Hsf Hst Hss].
  destruct (enter_filter_state _ _ _ _ _ _ He) as (fs & f0 & gs & Hc & Hlen & Hc1 & Hg & Hle & Hs1 & Hd1 & Hm1).
  rewrite Hc, list_lookup_middle in Hf by done. injection Hf as ->.
  rewrite Hc1, (alter_snoc _ _ _ _ (eq_sym Hlen)) in Hfr.
  unfold endfilter. rewrite Hm, Hm1. cbn [fs_handler fs_exception]. rewrite Hfr, list_lookup_middle by done.
  cbn [expect obind]. eexists. split; [reflexivity|].
  match goal with |- context [leave_filter ?s] => set (st := s) end.
  assert (Hfr3 : frames (update_frame (fstack c2) (frame_index a) (leave_filter st)) ++
                 suspended_frames (fstack c2) = frames (fstack c)).
  { rewrite (update_frame_snoc _ fs _ _ (leave_filter st) Hfr) by done.
    rewrite leave_filter_entered by done. by rewrite Hsf, Hg, Hc, <- app_assoc. }
  assert (Hst3 : stack (eval c2) ++ suspended_stack (eval c2) = stack (eval c)).
  { rewrite Hst, Hs1, Hss, Hd1, take_app_length' by (rewrite length_take; lia). apply take_drop. }
  destruct (v =? 1); (split; [exact Hfr3|]; split; [done|]; split; [exact Hst3|]; split; [done|]); [|done].
  cbn [set_mode exception_mode]. unfold top_cursor. rewrite <- Hfr3. reflexivity.
Qed.

(** The filter's frame is below the frame that threw. *)
Definition filtering_caller : StackFrame :=
  set_height (frame_at [section_at (0, 4) [handler_at (4, 6) (Filter 10)]] 2) 1.

Lemma filter_roundtrip_witness :
  exists c1 c2 c3, 
    enter_filter (context_of [filtering_caller; callee] [SV.Int32 5; SV.Int32 6] (searching 8 1)) (Some 8) first 10 =
      Val (c1, Exception) /\ length (frames (fstack c1)) = 1%nat /\
    endfilter 0 c2 = Val (c3, Exception) /\
    frames (fstack c3) = [filtering_caller; callee] /\ stack (eval c3) = [SV.Int32 5; SV.Int32 6].
Proof.
  pose (c := context_of [filtering_caller; callee] [SV.Int32 5; SV.Int32 6] (searching 8 1)).
  pose (c1 := match enter_filter c (Some 8) first 10 with Val (c1, _) => c1 | _ => c end).
  pose (c2 := set_eval c1 (truncate (eval c1) 0)).
  destruct (filter_roundtrip c (Some 8) first 10 c1 Exception filtering_caller c2 0)
    as (c3 & He & Hf & _ & Hs & _); [reflexivity | reflexivity | |].
  - split; try reflexivity. exists 10, 1%nat. reflexivity.
  - exists c1, c2, c3. split; [reflexivity|]. split; [reflexivity|]. split; [exact He|]. split; [exact Hf | exact Hs].
Defined.

(** ** Exceptions in filters *)

Definition mode_not_nested (m : ExceptionState) : Prop :=
  match m with
  | Searching s => ss_nested_filter s = None
  | Unwinding u | ExecutingHandler u => us_nested_filter u = None
  | _ => True
  end.

Definition pending_not_nested (k : VmContinuation) : Prop :=
  match k with HandlerUnwinds us => Forall (fun u => us_nested_filter u = None) us | _ => True end.

Definition not_nested (c : ctx) : Prop :=
  mode_not_nested (exception_mode c) /\ pending_not_nested (continuation c).

Section nested.

Variable rt : runtime.

(** What the exception system and the rest of the interpreter do to the state: the
    others neither unwind nor touch the pending unwinds. *)
Inductive exc_step : ctx -> ctx -> Prop :=
| step_handle c c' r : handle_exception rt c = Val (c', r) -> exc_step c c'
| step_throw e c c' r : ctx_throw rt e c = Val (c', r) -> exc_step c c'
| step_throw_by_name n m i c c' r : ves_throw_by_name rt n m i c = (c', r) -> exc_step c c'
| step_rethrow c c' r : rethrow rt c = Val (c', r) -> exc_step c c'
| step_leave t c c' r : leave rt t c = Val (c', r) -> exc_step c c'
| step_endfinally c c' r : endfinally rt c = Val (c', r) -> exc_step c c'
| step_endfilter v c c' r : endfilter v c = Val (c', r) -> exc_step c c'
| step_ret c c' r : ret rt c = Val (c', r) -> exc_step c c'
| step_unwind_frame c c' : unwind_frame (E:=Empty_set) rt c = Val c' -> exc_step c c'
| step_other c c' :
    exception_mode c' = exception_mode c ->
    (continuation c' = continuation c \/ continuation c' = NoContinuation \/ continuation c' = RetryInstruction) ->
    exc_step c c'.

Lemma throw_by_name_not_nested n m i c c' r :
  ves_throw_by_name rt n m i c = (c', r) -> not_nested c -> not_nested c'.
Proof. unfold ves_throw_by_name. destruct (new_exception _ _ _ _ _); intros [= <- _]; [done|]. by intros [_ ?]. Qed.

Lemma unwind_frame_not_nested c c' : unwind_frame (E:=Empty_set) rt c = Val c' -> not_nested c -> not_nested c'.
Proof.
  unfold unwind_frame. destruct (pop_frame (fstack c)) as [[f s]|]; [|done]. intros [= <-] Hn.
  change (not_nested (set_fstack ?c _)) with (not_nested c).
  assert (H : not_nested (if is_cctor (info f) then
    match mode_exception (exception_mode c) with
    | Some inner => fst (ves_throw_by_name rt "System.TypeInitializationException" (cctor_message rt (parent (info f)))
        (Some inner) (log_cctor (set_fstack c s) (parent (info f)) (type_generics (generic_inst f)) false))
    | None => log_cctor (set_fstack c s) (parent (info f)) (type_generics (generic_inst f)) false
    end else set_fstack c s)).
  { destruct (is_cctor (info f)); [|done]. destruct (mode_exception _); [|done].
    destruct (ves_throw_by_name _ _ _ _ _) eqn:E. by eapply throw_by_name_not_nested in E. }
  destruct (is_finalizer f); exact H.
Qed.

Lemma unwind_sections_not_nested u ip fi si secs c :
  us_nested_filter u = None -> not_nested c ->
  match unwind_sections u ip fi si secs c with GoOn c' | Stop c' => not_nested c' end.
Proof.
  intros Hu. assert (Hh : forall hs hi count c, not_nested c -> forall si,
    match unwind_handlers u ip fi si hi count hs c with GoOn c' | Stop c' => not_nested c' end).
  { induction hs as [|h hs IH]; intros hi count c0 Hc0 si0; simpl; [done|].
    destruct (contains _ _); [apply IH; by destruct (is_filter_or_catch _)|].
    destruct (should_run _ _); [|by apply IH]. by destruct Hc0. }
  revert si c. induction secs as [|s secs IH]; intros si c Hc; simpl; [done|].
  destruct (match us_target u with ToHandler h => _ | _ => _ end); [done|].
  destruct (is_exiting_section _ _ _); [|by apply IH].
  match goal with |- context [unwind_handlers u ip fi si ?k ?n ?hs c] =>
    pose proof (Hh hs k n c Hc si); destruct (unwind_handlers u ip fi si k n hs c) end; [by apply IH | done].
Qed.

Lemma unwind_frames_not_nested u tf n c w :
  us_nested_filter u = None -> not_nested c -> unwind_frames rt u tf n c = Val w ->
  match w with AtTarget c' | InHandler c' | Rethrown c' => not_nested c' end.
Proof.
  intros Hu. revert c. induction n as [|n IH]; intros c Hc; cbn [unwind_frames]; intros (f & _ & H)%obind_val;
    match type of H with context [unwind_sections u ?i ?fi ?si ?secs c] =>
    pose proof (unwind_sections_not_nested u i fi si secs c Hu Hc);
    destruct (unwind_sections u i fi si secs c) end; simplify_eq; try done.
  apply obind_val in H as (c1 & H1 & H). apply unwind_frame_not_nested in H1; [|done].
  destruct (is_throwing _); [by injection H as <- | exact (IH c1 H1 H)].
Qed.

Lemma pop_handler_not_nested c s c' :
  pop_handler_unwind c = (s, c') -> not_nested c ->
  not_nested c' /\ match s with Some s => us_nested_filter s = None | None => True end.
Proof.
  unfold pop_handler_unwind. destruct (continuation c) as [| |us] eqn:Ek; intros [= <- <-] [Hm Hk];
    try (split; [by split; [|rewrite ?Ek] | done]).
  rewrite Ek in Hk. simpl in Hk. destruct us as [|x us _] using rev_ind; [done|]. rewrite last_snoc, removelast_snoc.
  apply Forall_app in Hk as [Hk Hx]. split; [|by inversion Hx]. split; [done|]. simpl. by destruct us.
Qed.

Lemma finish_not_nested u c c' r : not_nested c -> finish_unwind u c = Val (c', r) -> not_nested c'.
Proof.
  intros Hc. unfold finish_unwind. destruct (us_target u) as [h|t].
  - intros (f & _ & (s & _ & (hd & _ & (e & _ & [= <- _])%obind_val)%obind_val)%obind_val)%obind_val. by destruct Hc.
  - destruct (t =? USIZE_MAX); [intros [= <- _]; by destruct Hc|].
    destruct (pop_handler_unwind c) as [s c1] eqn:E. apply pop_handler_not_nested in E as [[_ Hk] Hs]; [|done].
    intros (f & _ & [= <- _])%obind_val. split; [by destruct s | done].
Qed.

Lemma run_phase_not_nested c c' r : not_nested c -> run_phase rt c = Val (c', r) -> not_nested c'.
Proof.
  intros Hc. pose proof Hc as [Hm Hk]. unfold run_phase.
  destruct (exception_mode c) as [|e p|s|s|u|u] eqn:Em; try (by intros [= <- _]).
  - intros H. pose proof H as H'. apply begin_throwing_ends in H'; [|by rewrite Em].
    revert H. intros (f & _ & H)%obind_val. destruct (corlib_exception rt); [by injection H as <- _|].
    apply obind_val in H as (h & _ & (b & _ & [= <- <-])%obind_val). destruct H' as (s & Hs & Hn). split.
    { rewrite Hs. exact Hn. }
    repeat match goal with |- context [if ?b then _ else _] => destruct b end; done.
  - intros (f & _ & H)%obind_val. destruct f as [|a|a off|e].
    + unfold search_failed, nested_of in H. rewrite Em, Hm in H. apply obind_val in H as (m & _ & [= <- _]). by split.
    + injection H as <- _. by split.
    + apply returns_val in H as (r' & -> & H).
      by apply obind_val in H as (f & _ & (e1 & _ & (s1 & _ & [= <- _])%obind_val)%obind_val).
    + injection H as <- _. done.
  - intros (w & Hw & H)%obind_val. simpl in Hm. unfold unwind_end in H. rewrite Hm in H.
    assert (Hw' : match w with AtTarget c' | InHandler c' | Rethrown c' => not_nested c' end).
    { destruct (_ <? _)%nat; [by injection Hw as <-|]. by eapply unwind_frames_not_nested. }
    destruct w as [c1|c1|c1]; [|by injection H as <- _..].
    assert (Hf : returns (finish_unwind u c1) = Val (c', r)) by (by destruct (us_target u)).
    apply returns_val in Hf as (r' & _ & Hf). by eapply finish_not_nested.
Qed.

Lemma handle_not_nested c c' r : not_nested c -> handle_exception rt c = Val (c', r) -> not_nested c'.
Proof.
  unfold handle_exception. generalize FUEL. intros n. revert c. induction n as [|n IH]; intros c Hc; simpl; [done|].
  destruct (run_phase rt c) as [[c1 [s|]]|e|] eqn:E; [| |done|done].
  - intros [= <- _]. by eapply run_phase_not_nested.
  - apply IH. by eapply run_phase_not_nested.
Qed.

Lemma exc_step_not_nested c c' : exc_step c c' -> not_nested c -> not_nested c'.
Proof.
  intros Hs Hc. pose proof Hc as [Hm Hk].
  destruct Hs as [c c' r H | e c c' r H | n m i c c' r H | c c' r H | t c c' r H | c c' r H | v c c' r H | c c' r H
    | c c' H | c c' He Hcont].
  - by eapply handle_not_nested.
  - by eapply handle_not_nested in H.
  - by eapply throw_by_name_not_nested.
  - apply obind_val in H as (f & _ & H). destruct (last (exception_stack f)); [|by injection H as <- _].
    by eapply handle_not_nested in H.
  - apply obind_val in H as (f & _ & H). eapply handle_not_nested in H; [done|]. split; [done|]. simpl.
    destruct (exception_mode c) as [|e p|s|s|u|u]; try done. destruct (_ <? _)%nat; [|done].
    simpl in *. unfold push_handler_unwind. destruct (continuation c); simpl in *; try (by repeat constructor).
    apply Forall_app. split; [done|]. by repeat constructor.
  - unfold endfinally in H. destruct (exception_mode c) eqn:Em; try (by injection H as <- _; split; rewrite ?Em).
    by eapply handle_not_nested in H.
  - unfold endfilter in H. destruct (exception_mode c) eqn:Em; try (by injection H as <- _; split; rewrite ?Em).
    apply obind_val in H as (f & _ & [= <- _]). by destruct (v =? 1).
  - apply obind_val in H as (f & _ & H).
    assert (Hnormal : (if has_finally_blocks f then handle_exception rt (set_mode c (Unwinding {|
        us_exception := None; us_target := ToInstruction USIZE_MAX; us_cursor := top_cursor c;
        us_nested_filter := None |})) else Val (c, Return)) = Val (c', r) -> not_nested c').
    { destruct (has_finally_blocks f); [|by intros [= <- _]]. by apply handle_not_nested. }
    cbv zeta in H. destruct (exception_mode c) as [|e p|s|s|u|u] eqn:Em; try (by apply Hnormal).
    destruct (frame_index (us_cursor u) =? _)%nat; [|by apply Hnormal].
    by eapply handle_not_nested in H.
  - by eapply unwind_frame_not_nested.
  - split; [by rewrite He|]. by destruct Hcont as [-> | [-> | ->]].
Qed.

(**  No state the exception system reaches records an outer filter: the state
    [nested_filter] of a search or an unwinding is always empty, also of the ones that
    are suspended.  A throw while a filter runs therefore starts a search that knows
    nothing of the filter, and what the filter had suspended is discarded. *)
Theorem filters_never_nest c0 c :
  exception_mode c0 = NoException -> continuation c0 = NoContinuation -> rtc exc_step c0 c ->
  not_nested c /\
  (forall e p c', run_phase rt (set_mode c (Throwing e p)) = Val (c', None) ->
     suspended_frames (fstack c') = [] /\ suspended_stack (eval c') = [] /\
     exists s, exception_mode c' = Searching s /\ ss_nested_filter s = None).
Proof.
  intros Hm Hk Hr. split.
  - apply (invariant_rtc exc_step not_nested c0 c); [intros; by eapply exc_step_not_nested | | done].
    split; by rewrite ?Hm, ?Hk.
  - intros e p c' H. cbn [run_phase exception_mode set_mode] in H. pose proof H as He.
    apply begin_throwing_ends in He; [|done]. revert H. intros (f & _ & H)%obind_val.
    destruct (corlib_exception rt); [done|]. apply obind_val in H as (h & _ & (b & _ & [= <-])%obind_val).
    split; [|split; [|exact He]].
    all: repeat match goal with |- context [if negb ?b || ?d then _ else _] => destruct (negb b || d) end;
      by destruct b.
Qed.

End nested.

Lemma filters_never_nest_witness :
  exists c1 c2, enter_filter (context_of [filtering_caller; callee] [] (searching 8 1)) (Some 8) first 10 =
      Val (c1, Exception) /\ suspended_frames (fstack c1) = [callee] /\
    run_phase test_runtime (set_mode c1 (Throwing (Some 9) false)) = Val (c2, None) /\
    suspended_frames (fstack c2) = [].
Proof.
  pose (c0 := context_of [filtering_caller; callee] [] NoException).
  pose (s1 := match handle_exception test_runtime (set_mode c0 (Throwing (Some 8) false)) with Val (c1, _) => c1 | _ => c0 end).
  pose (c1 := match enter_filter (context_of [filtering_caller; callee] [] (searching 8 1)) (Some 8) first 10 with
              | Val (c1, _) => c1 | _ => c0 end).
  pose (c2 := match run_phase test_runtime (set_mode c1 (Throwing (Some 9) false)) with Val (c2, _) => c2 | _ => c0 end).
  exists c1, c2. split; [reflexivity|]. split; [reflexivity|]. split; [vm_compute; reflexivity|].
  assert (Hs1 : ctx_throw test_runtime (Some 8) c0 = Val (s1, Exception)) by (vm_compute; reflexivity).
  destruct (filters_never_nest test_runtime c0 s1 eq_refl eq_refl) as [_ H].
  { apply rtc_once. by eapply step_throw. }
  pose (d2 := match run_phase test_runtime (set_mode s1 (Throwing (Some 9) false)) with Val (c2, _) => c2 | _ => c0 end).
  assert (Hd : suspended_frames (fstack d2) = []) by (apply (H (Some 9) false d2); vm_compute; reflexivity).
  change (suspended_frames (fstack c2) = []). transitivity (suspended_frames (fstack d2)); [|exact Hd].
  vm_compute. reflexivity.
Defined.
