(* ===== verification/Dispatch.v ===== *)
(** * Returns and the dispatch loop

    [return_frame] and [handle_return] of [dotnet-vm/src/stack/context.rs], one step
    and the batched loop of [dotnet-vm/src/dispatch/mod.rs], and the ring buffer of
    the last instructions of [dispatch/ring_buffer.rs].

    Instructions outside of the modelled groups, multicast delegate steps, and what a
    return does with reflection results and constructor receivers are the record
    [calls].  What other threads request (an abort, a stop for the collector) is a
    stream of answers to the polls of the loop; either request has the same effect.
    The loop takes fuel for its outer iterations. *)

From Stdlib Require Import ZArith Lia.
From stdpp Require Import base tactics list option strings sets gmap.
From S2P Require Import Prelude Generics Bytes ManagedPtr StackValue Ops Instructions FrameAlloc Layout FrameHomes VmData Interp Exceptions Unwinding.

(** ** The ring buffer *)

Module Ring.

Record InstructionRingBuffer : Set := { buffer : list (option (Z * VmInstruction)); rb_index : nat }.

Definition new : InstructionRingBuffer := {| buffer := replicate 10 None; rb_index := 0 |}.

(** [push]; the name kept with the pointer is determined by the instruction. *)
Definition push (b : InstructionRingBuffer) (ip : Z) (i : VmInstruction) : InstructionRingBuffer :=
  {| buffer := <[rb_index b := Some (ip, i)]> (buffer b); rb_index := (rb_index b + 1) mod 10 |}.

(** The entries [dump] prints, oldest first. *)
Definition dump (b : InstructionRingBuffer) : list (Z * VmInstruction) :=
  omap (fun i => mjoin (buffer b !! ((rb_index b + i) mod 10)%nat)) (seq 0 10).

End Ring.

Section dispatch.

Variable rt : runtime.

(** The parts of the interpreter the steps below call. *)
Record calls : Type := {
  other : nat -> handler ctx;
  multicast_step : handler ctx;
  (** [complete_constructor_receiver]: what it leaves of the evaluation stack *)
  complete_constructor : ConstructorResult -> ctx -> outcome TypeResolutionError EvaluationStack;
  is_void : nat -> bool;
  is_value_type : nat -> option bool;
  (** the handle of the boxed value, for the [n]th object created *)
  box_value : nat -> nat -> StackValue -> option Z;
}.

Variable k : calls.

(** ** Returning from a frame *)

Definition typedref_return : VmError :=
  VmExecution (InvalidCil "ECMA-335 typedref values cannot be method return values").

(** The value of a non-void return: the slot below the frame's height. *)
Definition return_value (c : ctx) (f : StackFrame) : outcome Empty_set (option StackValue) :=
  match return_kind (info f) with
  | ReturnsVoid => Val None
  | _ =>
      match (bp_stack (frame_base f) + stack_height f)%nat with
      | O => Panic
      | S slot => let* v := get_slot (eval c) slot in Val (Some v)
      end
  end.

(** The result of a call made by reflection: nothing becomes a null, a value type is
    boxed. *)
Definition invoke_return (c : ctx) (t : nat) : outcome Empty_set ctx :=
  if is_void k t then Val (push (SV.ObjectRef None) c)
  else
    let* (v, c) := pop c in
    let* value_type := expect (is_value_type k t) in
    if value_type then
      let* boxed := expect (box_value k (objects_created c) t v) in Val (push_obj (Some boxed) (count_object c))
    else Val (push v c).

(** What [return_frame] does with the frame it has popped, before the return value. *)
Definition retire_frame (c : ctx) (f : StackFrame) : ctx :=
  let c := if is_cctor (info f) then log_cctor c (parent (info f)) (type_generics (generic_inst f)) true else c in
  if is_finalizer f then set_processing c false else c.

(** The end of [return_frame], with the return value pushed: the receiver of a
    constructor is completed, and the caller's pending action is taken. *)
Definition finish_return (f : StackFrame) (c : ctx) : outcome Empty_set (ctx * StepResult) :=
  match match constructor_result f with
        | Some r => complete_constructor k r c
        | None => Val (eval c)
        end with
  | Panic => Panic
  | Err e => Val (set_fstack c (recycle_frame (fstack c) f), Error (VmTypeResolution e))
  | Val e =>
      let c := set_eval c e in
      let action := match last (frames (fstack c)) with Some g => frame_continuation g | None => None end in
      let c := set_fstack c (update_current (fstack c) (fun g => set_continuation g None (constructor_result g))) in
      let* c := match action with
                | Some (InvokeReturn t) => invoke_return c t
                | None => Val c
                end in
      Val (set_fstack c (recycle_frame (fstack c) f), Continue)
  end.

Definition return_frame : handler ctx := fun c =>
  let* f := current_frame (fstack c) in
  match return_kind (info f) with
  | ReturnsTypedReference => Val (c, Error typedref_return)
  | _ =>
      let* (f, s) := expect (pop_frame (fstack c)) in
      let c := retire_frame (set_fstack c s) f in
      let* v := return_value c f in
      let c := clear_evaluation_stack_from c (bp_arguments (frame_base f)) in
      finish_return f (match v with Some v => push v c | None => c end)
  end.

Definition increment_ip (c : ctx) : outcome Empty_set ctx :=
  let* f := current_frame (fstack c) in
  let* i := arith usize (ip f + 1) in
  Val (set_fstack c (update_current (fstack c) (fun f => set_ip f i))).

Definition branch (c : ctx) (target : Z) : outcome Empty_set ctx :=
  let* _ := current_frame (fstack c) in
  Val (set_fstack c (update_current (fstack c) (fun f => set_ip f target))).

Definition past_end (f : StackFrame) : bool := Z.of_nat (length (instructions (info f))) <=? ip f.

(** [handle_return]; every recursive call follows the pop of a frame. *)
Fixpoint handle_return_fuel (fuel : nat) (c : ctx) : option (outcome Empty_set (ctx * StepResult)) :=
  match last (frames (fstack c)) with
  | None => Some (Val (c, Return))
  | Some f =>
      match fuel with
      | O => None
      | S fuel =>
          let was_auto_invoked := is_cctor (info f) || is_finalizer f in
          match return_frame c with
          | Val (c, Continue) =>
              match last (frames (fstack c)) with
              | None => Some (Val (c, Return))
              | Some g =>
                  if was_auto_invoked then Some (Val (c, Continue))
                  else
                    match multicast_state g with
                    | Some _ => Some (Val (c, Continue))
                    | None =>
                        match increment_ip c with
                        | Val c =>
                            match last (frames (fstack c)) with
                            | Some g => if past_end g then handle_return_fuel fuel c else Some (Val (c, Continue))
                            | None => Some Panic
                            end
                        | _ => Some Panic
                        end
                    end
              end
          | r => Some r
          end
      end
  end.

Definition handle_return : handler ctx := fun c =>
  match handle_return_fuel (length (frames (fstack c))) c with Some r => r | None => Panic end.

(** ** One step *)

(** [InstructionRegistry::dispatch]. *)
Definition dispatch (i : VmInstruction) : handler ctx :=
  match i with
  | Operand i => ves_execute rt i
  | Throw => execute_throw rt
  | Rethrow => rethrow rt
  | Leave t => leave rt t
  | EndFinally => endfinally rt
  | EndFilter => execute_endfilter
  | Ret => ret rt
  | Other n => other k n
  end.

Record engine : Type := {
  vm : ctx;
  ring_buffer : Ring.InstructionRingBuffer;
  last_instructions : Ring.InstructionRingBuffer;
  polls : nat;
}.

Definition set_vm (e : engine) (c : ctx) : engine :=
  {| vm := c; ring_buffer := ring_buffer e; last_instructions := last_instructions e; polls := polls e |}.

Definition set_ring (e : engine) (b : Ring.InstructionRingBuffer) : engine :=
  {| vm := vm e; ring_buffer := b; last_instructions := last_instructions e; polls := polls e |}.

Definition snapshot (e : engine) : engine :=
  {| vm := vm e; ring_buffer := ring_buffer e; last_instructions := ring_buffer e; polls := polls e |}.

Definition step_normal (e : engine) : outcome Empty_set (engine * StepResult) :=
  let c := vm e in
  match last (frames (fstack c)) with
  | None => Val (e, Return)
  | Some f =>
      match multicast_state f with
      | Some _ => let* (c, r) := multicast_step k c in Val (set_vm e c, r)
      | None =>
          if past_end f then Val (e, Error (VmExecution (InvalidIP (ip f))))
          else
            let* i := expect (instructions (info f) !! Z.to_nat (ip f)) in
            let c := set_original c (ip f) (top_of_stack (eval c)) in
            let e := set_ring e (Ring.push (ring_buffer e) (ip f) i) in
            let* (c, res) := dispatch i c in
            match res with
            | Continue => let* c := increment_ip c in Val (set_vm e c, Continue)
            | Jump target => let* c := branch c target in Val (set_vm e c, Continue)
            | Return => let* (c, r) := handle_return c in Val (set_vm e c, r)
            | r => Val (set_vm e c, r)
            end
      end
  end.

Definition runnable (m : ExceptionState) : bool :=
  match m with NoException | ExecutingHandler _ | Filtering _ => true | _ => false end.

Definition step (e : engine) : outcome Empty_set (engine * StepResult) :=
  if runnable (exception_mode (vm e)) then step_normal e
  else let* (c, r) := handle_exception rt (vm e) in Val (set_vm e c, r).

(** ** The loop *)

(** What other threads request, poll by poll. *)
Variable requested : nat -> bool.

(** [dispatch_safe_point_poll_interval], from the environment: 32, 64 or 128. *)
Variable poll_interval : nat.

Definition DISPATCH_BATCH_SIZE : nat := 128.

Definition poll (e : engine) : bool * engine :=
  (requested (polls e),
   {| vm := vm e; ring_buffer := ring_buffer e; last_instructions := last_instructions e; polls := S (polls e) |}).

(** [n] instructions are left of the batch. *)
Fixpoint batch (n since_poll : nat) (e : engine) : outcome Empty_set (engine * StepResult) :=
  match n with
  | O => Val (e, Continue)
  | S n =>
      let* (e, r) := step_normal e in
      match r with
      | Continue =>
          if (poll_interval <=? S since_poll)%nat then
            let (stop, e) := poll e in
            if stop then Val (e, Yield) else batch n 0 e
          else batch n (S since_poll) e
      | r => Val (e, r)
      end
  end.

(** One iteration of the loop, after its own poll. *)
Definition iteration (e : engine) : outcome Empty_set (engine * StepResult) :=
  if runnable (exception_mode (vm e)) then
    let* (e, r) := batch DISPATCH_BATCH_SIZE 0 e in
    match r with
    | Continue => Val (e, Continue)
    | r => Val (snapshot e, r)
    end
  else
    let* (c, r) := handle_exception rt (vm e) in
    match r with
    | Jump target => let* c := branch c target in Val (set_vm e c, Continue)
    | Return => let* (c, r) := handle_return c in Val (set_vm e c, r)
    | r => Val (set_vm e c, r)
    end.

Fixpoint run_loop (fuel : nat) (e : engine) : option (outcome Empty_set (engine * StepResult)) :=
  match fuel with
  | O => None
  | S fuel =>
      let (stop, e) := poll e in
      if stop then Some (Val (snapshot e, Yield))
      else
        match iteration e with
        | Val (e, Exception) => run_loop fuel e
        | r => Some r
        end
  end.

Definition run (fuel : nat) (e : engine) : option (outcome Empty_set (engine * StepResult)) :=
  run_loop fuel (set_vm e (match continuation (vm e) with
                           | RetryInstruction => set_cont (vm e) NoContinuation
                           | _ => vm e
                           end)).

End dispatch.

(** ** Batches *)

Section batches.

Variable rt : runtime.
Variable k : calls.

(** What the batched loop relies on: an instruction that leaves the modes in which
    instructions run says so by its result. *)
Definition keeps_running (h : handler ctx) : Prop :=
  forall c c' r, runnable (exception_mode c) = true -> h c = Val (c', r) ->
    match r with Continue | Jump _ | Return => runnable (exception_mode c') = true | _ => True end.

Record calls_ok : Prop := {
  co_other : forall n, keeps_running (other k n);
  co_multicast : keeps_running (multicast_step k);
}.

Lemma pop_safe_mode c x c' : ves_pop_safe c = (x, c') -> exception_mode c' = exception_mode c.
Proof.
  unfold ves_pop_safe, on_pop_safe.
  destruct (last (frames (fstack c))) as [f|]; [destruct (stack_height f)|]; simpl;
    repeat match goal with |- context [es_pop_safe ?e] => destruct (es_pop_safe e) as [[? ?]| |] end;
    intros [= _ <-]; done.
Qed.

Lemma ves_execute_mode i c c' r :
  ves_execute rt i c = Val (c', r) -> r = Exception \/ exception_mode c' = exception_mode c.
Proof.
  apply (execute_preserves (rt_heap rt) (rt_is_enum rt) (fun c c' => exception_mode c' = exception_mode c)
           (fun c c' r => r = Exception \/ exception_mode c' = exception_mode c)).
  - done.
  - exact pop_safe_mode.
  - auto.
  - intros c0 c1 c2 r' H [->|H']; [auto|]. right. congruence.
  - intros n s c0 c1 r' H. simpl in H. unfold ves_throw_by_name in H.
    destruct (new_exception _ _ _ _ _); injection H as <- <-; auto.
Qed.

Lemma run_phase_return c c' : run_phase rt c = Val (c', Some Return) -> exception_mode c' = NoException.
Proof.
  unfold run_phase. destruct (exception_mode c) as [|e p|s|s|u|u] eqn:Em; try done.
  - intros (f & _ & H)%obind_val. destruct (corlib_exception rt); [done|].
    by apply obind_val in H as (h & _ & (b & _ & ?)%obind_val).
  - intros (f & _ & H)%obind_val. destruct f as [|a|a off|e]; try done.
    + unfold search_failed in H. destruct (nested_of c); [done|]. by apply obind_val in H as (m & _ & ?).
    + apply returns_val in H as (r & [= <-] & H). by apply enter_filter_reports in H.
  - intros (w & _ & H)%obind_val. destruct w as [c1|c1|c1]; [|done|done].
    assert (Hf : returns (finish_unwind u c1) = Val (c', Some Return) -> exception_mode c' = NoException).
    { intros (r & [= <-] & Hr)%returns_val. unfold finish_unwind in Hr. destruct (us_target u) as [h|t].
      - by apply obind_val in Hr as (f & _ & (s & _ & (hd & _ & (e & _ & ?)%obind_val)%obind_val)%obind_val).
      - destruct (t =? USIZE_MAX); [by injection Hr as <-|]. destruct (pop_handler_unwind c1).
        by apply obind_val in Hr as (f & _ & ?). }
    simpl in H. destruct (us_target u) as [h|t]; [exact (Hf H)|]. destruct (us_nested_filter u) as [n|]; [|exact (Hf H)].
    destruct (t =? USIZE_MAX); [|exact (Hf H)]. by apply obind_val in H as (f & _ & ?).
Qed.

Lemma handle_exception_return c c' :
  handle_exception rt c = Val (c', Return) -> exception_mode c' = NoException.
Proof.
  unfold handle_exception. generalize FUEL. intros n. revert c. induction n as [|n IH]; intros c; simpl; [done|].
  destruct (run_phase rt c) as [[c1 [s|]]|e|] eqn:E; [|apply IH|done|done].
  intros [= -> ->]. by apply run_phase_return in E.
Qed.

(** Whatever the state it starts from. *)
Lemma handle_exception_keeps c c' r :
  handle_exception rt c = Val (c', r) ->
  match r with Continue | Jump _ | Return => runnable (exception_mode c') = true | _ => True end.
Proof.
  intros H. pose proof (handle_reports rt c c' r H) as Hr. destruct r; try done.
  by rewrite (handle_exception_return c c' H).
Qed.

Lemma dispatch_keeps i : calls_ok -> keeps_running (dispatch rt k i).
Proof.
  intros [Ho _] c c' r Hc. destruct i as [i| | |t| | | |n]; cbn [dispatch]; intros H.
  - destruct (ves_execute_mode i c c' r H) as [-> | Hm]; [done|]. rewrite Hm. by destruct r.
  - unfold execute_throw, vm_pop in H. simpl in H. destruct (ves_pop_safe c) as [[v|e|] c1]; [|by injection H as <- <-|done].
    destruct (try_as_object_ref v) as [[h|]|e|]; [by eapply handle_exception_keeps | | by injection H as <- <- | done].
    unfold ves_throw_by_name in H. destruct (new_exception _ _ _ _ _); by injection H as <- <-.
  - apply obind_val in H as (f & _ & H). destruct (last (exception_stack f)); [by eapply handle_exception_keeps|].
    by injection H as <- <-.
  - apply obind_val in H as (f & _ & H). by eapply handle_exception_keeps.
  - unfold endfinally in H. destruct (exception_mode c); try (by injection H as <- <-). by eapply handle_exception_keeps.
  - unfold execute_endfilter, vm_pop in H. simpl in H. destruct (ves_pop_safe c) as [[v|e|] c1]; [|by injection H as <- <-|done].
    destruct (try_as_i32 v); [|by injection H as <- <-|done].
    unfold endfilter in H. destruct (exception_mode c1); try (by injection H as <- <-).
    by apply obind_val in H as (f & _ & [= <- <-]).
  - apply obind_val in H as (f & _ & H). cbv zeta in H.
    assert (Hn : (if has_finally_blocks f then handle_exception rt (set_mode c (Unwinding {|
        us_exception := None; us_target := ToInstruction USIZE_MAX; us_cursor := top_cursor c;
        us_nested_filter := None |})) else Val (c, Return)) = Val (c', r) ->
      match r with Continue | Jump _ | Return => runnable (exception_mode c') = true | _ => True end).
    { destruct (has_finally_blocks f); [apply handle_exception_keeps|]. by intros [= <- <-]. }
    destruct (exception_mode c) as [|e p|s|s|u|u] eqn:Em; try (by apply Hn).
    destruct (frame_index (us_cursor u) =? _)%nat; [|by apply Hn]. by eapply handle_exception_keeps.
  - by eapply Ho.
Qed.

Lemma invoke_return_mode c t c' : invoke_return k c t = Val c' -> exception_mode c' = exception_mode c.
Proof.
  unfold invoke_return. destruct (is_void k t); [by intros [= <-]|].
  intros ([v c1] & Hp & (b & _ & H)%obind_val)%obind_val. unfold pop in Hp. simpl in Hp.
  destruct (ves_pop_safe c) as [[w|e|] c2] eqn:E; [|done|done]. injection Hp as -> ->.
  apply pop_safe_mode in E. destruct b; [apply obind_val in H as (h & _ & [= <-]) | injection H as <-]; done.
Qed.

Lemma finish_return_mode f c c' r : finish_return k f c = Val (c', r) -> exception_mode c' = exception_mode c.
Proof.
  unfold finish_return. destruct (match constructor_result f with Some r => _ | None => _ end) as [e|e|]; [| |done].
  - intros (c1 & Hc1 & [= <- _])%obind_val. cbn [exception_mode set_fstack].
    destruct (match last _ with Some g => _ | None => _ end) as [[t]|];
      [by apply invoke_return_mode in Hc1 | by injection Hc1 as <-].
  - by intros [= <- _].
Qed.

Lemma return_frame_mode c c' r : return_frame k c = Val (c', r) -> exception_mode c' = exception_mode c.
Proof.
  assert (Hret : forall f s, exception_mode (retire_frame (set_fstack c s) f) = exception_mode c).
  { intros f s. unfold retire_frame. by destruct (is_finalizer f), (is_cctor (info f)). }
  intros (f & _ & H)%obind_val. destruct (return_kind (info f)); [| |by injection H as <- _].
  all: apply obind_val in H as ([g s] & _ & (v & _ & H%finish_return_mode)%obind_val); rewrite H;
    destruct v; apply Hret.
Qed.

Lemma handle_return_mode fuel c c' r :
  handle_return_fuel k fuel c = Some (Val (c', r)) -> exception_mode c' = exception_mode c.
Proof.
  revert c. induction fuel as [|fuel IH]; intros c; simpl; destruct (last (frames (fstack c))) as [f|];
    try done; try (by intros [= <- _]).
  destruct (return_frame k c) as [[c1 r1]|e|] eqn:E; [|done|done]. apply return_frame_mode in E.
  destruct r1; try (by intros [= <- _]). destruct (last (frames (fstack c1))) as [g|]; [|by intros [= <- _]].
  destruct (_ || _); [by intros [= <- _]|]. destruct (multicast_state g); [by intros [= <- _]|].
  destruct (increment_ip c1) as [c2|e|] eqn:Ei; [|done|done].
  assert (Hi : exception_mode c2 = exception_mode c1) by (by apply obind_val in Ei as (h & _ & (i & _ & [= <-])%obind_val)).
  destruct (last (frames (fstack c2))); [|done]. destruct (past_end _); [|by intros [= <- _]; congruence].
  intros H%IH. congruence.
Qed.

Lemma step_normal_keeps e e' :
  calls_ok -> runnable (exception_mode (vm e)) = true -> step_normal rt k e = Val (e', Continue) ->
  runnable (exception_mode (vm e')) = true.
Proof.
  intros Hok He. unfold step_normal. destruct (last (frames (fstack (vm e)))) as [f|]; [|done].
  destruct (multicast_state f).
  { intros ([c r] & H & [= <- ->])%obind_val. by apply (co_multicast Hok _ _ Continue He) in H. }
  destruct (past_end f); [done|]. intros (i & _ & ([c r] & H & H')%obind_val)%obind_val.
  pose proof (dispatch_keeps i Hok (set_original (vm e) (ip f) (top_of_stack (eval (vm e)))) c r He H) as Hr.
  destruct r; try done.
  - apply obind_val in H' as (c1 & Hc1 & [= <-]). by apply obind_val in Hc1 as (g & _ & (j & _ & [= <-])%obind_val).
  - apply obind_val in H' as (c1 & Hc1 & [= <-]). by apply obind_val in Hc1 as (g & _ & [= <-]).
  - apply obind_val in H' as ([c1 r1] & Hc1 & [= <- ->]). unfold handle_return in Hc1.
    destruct (handle_return_fuel _ _ _) eqn:E; [|done]. subst. apply handle_return_mode in E. simpl. by rewrite E.
Qed.

(** The loop that looks at the exception mode before every instruction. *)
Fixpoint checked_batch (requested : nat -> bool) (poll_interval n since_poll : nat) (e : engine)
  : outcome Empty_set (engine * StepResult) :=
  match n with
  | O => Val (e, Continue)
  | S n =>
      if negb (runnable (exception_mode (vm e))) then Val (e, Exception)
      else
        let* (e, r) := step rt k e in
        match r with
        | Continue =>
            if (poll_interval <=? S since_poll)%nat then
              let (stop, e) := poll requested e in
              if stop then Val (e, Yield) else checked_batch requested poll_interval n 0 e
            else checked_batch requested poll_interval n (S since_poll) e
        | r => Val (e, r)
        end
  end.

(**  The batch of the dispatch loop, which looks at the exception mode once,
    does exactly what a loop does that looks at it before every instruction: after
    an instruction that lets the batch go on, the machine is in a mode in which
    instructions run. *)
Theorem batch_checks_once requested poll_interval n since_poll e :
  calls_ok -> runnable (exception_mode (vm e)) = true ->
  batch rt k requested poll_interval n since_poll e = checked_batch requested poll_interval n since_poll e.
Proof.
  intros Hok. revert since_poll e. induction n as [|n IH]; intros since_poll e He; simpl; [done|].
  rewrite He. simpl. unfold step at 1. rewrite He.
  destruct (step_normal rt k e) as [[e' r]|x|] eqn:E; simpl; [|done|done]. destruct r; try done.
  pose proof (step_normal_keeps e e' Hok He E) as He'.
  destruct (poll_interval <=? S since_poll)%nat; [|by apply IH]. destruct (requested (polls e')); [done | by apply IH].
Qed.

End batches.

(** ** Returns *)

Section returns.

Variable rt : runtime.
Variable k : calls.

Lemma length_update_current s u : length (frames (update_current s u)) = length (frames s).
Proof. unfold update_current, update_frame. simpl. apply length_alter. Qed.

Lemma push_frames v c : length (frames (fstack (push v c))) = length (frames (fstack c)).
Proof. apply (length_update_current (fstack c)). Qed.

Lemma pop_frames c x c' : ves_pop_safe c = (x, c') -> length (frames (fstack c')) = length (frames (fstack c)).
Proof.
  unfold ves_pop_safe, on_pop_safe. destruct (last (frames (fstack c))) as [f|]; [destruct (stack_height f) as [|h]|].
  - by intros [= _ <-].
  - cbn [eval set_fstack]. destruct (es_pop_safe (eval c)) as [[v e]| |]; intros [= _ <-];
      apply (length_update_current (fstack c)).
  - destruct (es_pop_safe (eval c)) as [[v e]| |]; by intros [= _ <-].
Qed.

Lemma invoke_return_frames c t c' :
  invoke_return k c t = Val c' -> length (frames (fstack c')) = length (frames (fstack c)).
Proof.
  unfold invoke_return. destruct (is_void k t); [intros [= <-]; apply push_frames|].
  intros ([v c1] & Hp & (b & _ & H)%obind_val)%obind_val. unfold pop in Hp. simpl in Hp.
  destruct (ves_pop_safe c) as [[w|e|] c2] eqn:E; [|done|done]. injection Hp as -> ->.
  rewrite <- (pop_frames _ _ _ E). destruct b.
  - apply obind_val in H as (h & _ & [= <-]). apply (push_frames _ (count_object c1)).
  - injection H as <-. apply push_frames.
Qed.

Lemma recycle_frames s f : frames (recycle_frame s f) = frames s.
Proof. unfold recycle_frame. by destruct (_ <? _)%nat. Qed.

Lemma retire_frames c f : fstack (retire_frame c f) = fstack c /\ eval (retire_frame c f) = eval c.
Proof. unfold retire_frame. by destruct (is_finalizer f), (is_cctor (info f)). Qed.

Lemma return_frame_pops c c' :
  return_frame k c = Val (c', Continue) -> S (length (frames (fstack c'))) = length (frames (fstack c)).
Proof.
  intros (f & Hf & H)%obind_val. unfold current_frame in Hf.
  destruct (last (frames (fstack c))) as [f0|] eqn:El; [|done]. injection Hf as ->.
  pose proof (last_snoc_inv _ _ El) as Hl.
  assert (Hfin : forall s v, length (frames s) = length (removelast (frames (fstack c))) ->
    finish_return k f (match v with Some v => push v (clear_evaluation_stack_from (retire_frame (set_fstack c s) f)
      (bp_arguments (frame_base f))) | None => clear_evaluation_stack_from (retire_frame (set_fstack c s) f)
      (bp_arguments (frame_base f)) end) = Val (c', Continue) ->
    S (length (frames (fstack c'))) = length (frames (fstack c))).
  { intros s v Hs. rewrite Hl, length_app. simpl.
    set (c1 := match v with Some v => _ | None => _ end).
    assert (Hc1 : length (frames (fstack c1)) = length (frames s)).
    { subst c1. destruct v; [rewrite push_frames|]; unfold clear_evaluation_stack_from; cbn [set_eval fstack];
        by rewrite (proj1 (retire_frames _ f)). }
    unfold finish_return. destruct (match constructor_result f with Some r => _ | None => _ end) as [e|e|]; [|done|done].
    intros (c2 & Hc2 & [= <-])%obind_val. cbn [set_fstack fstack]. rewrite recycle_frames.
    assert (Hc2' : length (frames (fstack c2)) = length (frames (fstack c1))).
    { destruct (match last _ with Some g => _ | None => _ end) as [[t]|].
      - apply invoke_return_frames in Hc2. rewrite Hc2. apply (length_update_current (fstack c1)).
      - injection Hc2 as <-. apply (length_update_current (fstack c1)). }
    rewrite Hc2', Hc1, Hs. lia. }
  unfold pop_frame in H. rewrite El in H. cbn [expect obind] in H.
  destruct (return_kind (info f)); [| |done]; apply obind_val in H as (v & _ & H);
    apply (Hfin (set_frames (fstack c) (removelast (frames (fstack c)))) v); done.
Qed.

(** The fuel of [handle_return] suffices: each recursive call has a frame less. *)
Lemma handle_return_total fuel c :
  (length (frames (fstack c)) <= fuel)%nat -> exists r, handle_return_fuel k fuel c = Some r.
Proof.
  revert c. induction fuel as [|fuel IH]; intros c Hle.
  - destruct (frames (fstack c)) eqn:E; [|simpl in Hle; lia]. simpl. rewrite E. eauto.
  - cbn [handle_return_fuel]. destruct (last (frames (fstack c))) as [f|]; [|eauto].
    destruct (return_frame k c) as [[c1 r]|e|] eqn:Er; [|eauto|eauto]. destruct r; eauto.
    apply return_frame_pops in Er.
    destruct (last (frames (fstack c1))) as [g|]; [|eauto]. destruct (_ || _); [eauto|].
    destruct (multicast_state g); [eauto|]. destruct (increment_ip c1) as [c2|e|] eqn:Ei; [|eauto|eauto].
    destruct (last (frames (fstack c2))); [|eauto]. destruct (past_end _); [|eauto]. apply IH.
    apply obind_val in Ei as (h & _ & (i & _ & [= <-])%obind_val). cbn [set_fstack fstack].
    rewrite length_update_current. lia.
Qed.

(** The operands of the frame [f], innermost last. *)
Definition frame_operands (c : ctx) (f : StackFrame) : list StackValue :=
  take (stack_height f) (drop (bp_stack (frame_base f)) (stack (eval c))).

(** The evaluation stack ends with the operands of the frame [f]. *)
Definition aligned (c : ctx) (f : StackFrame) : Prop :=
  length (stack (eval c)) = (bp_stack (frame_base f) + stack_height f)%nat.

(** What a method returns. *)
Definition returned (f : StackFrame) (vs : list StackValue) : Prop :=
  match return_kind (info f) with
  | ReturnsVoid => vs = []
  | ReturnsValue => exists v, vs = [v]
  | ReturnsTypedReference => False
  end.

Lemma finish_return_plain f c fs g :
  frames (fstack c) = fs ++ [g] -> constructor_result f = None -> frame_continuation g = None ->
  exists c', finish_return k f c = Val (c', Continue) /\
    frames (fstack c') = fs ++ [set_continuation g None (constructor_result g)] /\ eval c' = eval c.
Proof.
  intros Hf Hc Hg. unfold finish_return. rewrite Hc. cbn [fstack set_eval]. rewrite Hf, last_snoc, Hg.
  eexists. split; [reflexivity|]. split; [|done]. cbn [set_fstack fstack]. rewrite recycle_frames.
  unfold update_current. cbn [set_eval fstack].
  apply (update_frame_snoc (fstack c) fs g _ (fun g => set_continuation g None (constructor_result g)) Hf).
  rewrite Hf, length_app. simpl. lia.
Qed.

(** The pushes of a list of values. *)
Lemma push_returned fs g vs c :
  frames (fstack c) = fs ++ [g] -> (length vs <= 1)%nat ->
  let c' := match head vs with Some v => push v c | None => c end in
  frames (fstack c') = fs ++ [set_height g (stack_height g + length vs)] /\ stack (eval c') = stack (eval c) ++ vs.
Proof.
  intros Hf Hvs. destruct vs as [|v [|w vs]]; simpl in Hvs; [| |lia]; simpl.
  - rewrite Nat.add_0_r, app_nil_r. split; [|done]. rewrite Hf. by destruct g.
  - destruct (ves_push_snoc v c fs g Hf) as (H1 & H2 & _). by rewrite Nat.add_1_r.
Qed.

(** The slot a return reads is the top operand. *)
Lemma return_value_top c f vs :
  last (frames (fstack c)) = Some f -> returned f vs -> aligned c f -> take (length vs) (ctx_view c) = vs ->
  forall s, return_value (retire_frame (set_fstack c s) f) f = Val (head vs).
Proof.
  intros Hl Hr Ha Htop s. unfold return_value, returned in *.
  destruct (return_kind (info f)); [by subst | | done]. destruct Hr as [v ->]. simpl in *.
  unfold ctx_view, aligned in *. rewrite Hl in Htop.
  destruct (stack (eval c)) as [|x l _] eqn:Es using rev_ind; [by rewrite drop_nil in Htop|].
  rewrite length_app in Ha. simpl in Ha. rewrite (proj2 (retire_frames _ f)). cbn [set_fstack eval].
  destruct (stack_height f) as [|h] eqn:Eh.
  { rewrite drop_ge in Htop by lia. done. }
  rewrite <- Ha, Nat.add_1_r. unfold get_slot. rewrite Es, list_lookup_middle by done. cbn [expect obind].
  rewrite length_app in Htop. simpl in Htop.
  rewrite drop_app_le, reverse_snoc in Htop by lia. simpl in Htop. by injection Htop as ->.
Qed.

(**  Returning from a frame [f] to its caller [g], when the operands of [f] end the
    evaluation stack, the arguments of [f] start where the operands of [g] end, and no
    constructor or reflection call is pending: the frame is popped, its arguments,
    locals and operands are dropped, and the operands of [g] are extended by the top
    operand of [f], or by nothing for a void method. *)
Theorem return_frame_passes_top c fs g f vs :
  frames (fstack c) = fs ++ [g; f] -> returned f vs -> aligned c f ->
  (bp_arguments (frame_base f) <= bp_stack (frame_base f))%nat ->
  bp_arguments (frame_base f) = (bp_stack (frame_base g) + stack_height g)%nat ->
  constructor_result f = None -> frame_continuation g = None ->
  take (length vs) (ctx_view c) = vs ->
  exists c' g', return_frame k c = Val (c', Continue) /\
    frames (fstack c') = fs ++ [g'] /\ info g' = info g /\ ip g' = ip g /\ frame_base g' = frame_base g /\
    exception_stack g' = exception_stack g /\
    aligned c' g' /\ frame_operands c' g' = frame_operands c g ++ vs.
Proof.
  intros Hf Hr Ha Hle Hb Hcons Hcont Htop.
  assert (Hf' : frames (fstack c) = (fs ++ [g]) ++ [f]) by (by rewrite Hf, <- app_assoc).
  assert (Hl : last (frames (fstack c)) = Some f) by (by rewrite Hf', last_snoc).
  pose proof (return_value_top c f vs Hl Hr Ha Htop) as Hv.
  assert (Hvs : (length vs <= 1)%nat).
  { unfold returned in Hr. destruct (return_kind (info f)); [subst; simpl; lia | | done].
    destruct Hr as [v ->]. simpl. lia. }
  assert (Heq : return_frame k c = finish_return k f
    (match head vs with
     | Some v => push v (clear_evaluation_stack_from (retire_frame (set_fstack c (set_frames (fstack c) (fs ++ [g]))) f)
                           (bp_arguments (frame_base f)))
     | None => clear_evaluation_stack_from (retire_frame (set_fstack c (set_frames (fstack c) (fs ++ [g]))) f)
                 (bp_arguments (frame_base f))
     end)).
  { unfold return_frame, current_frame, pop_frame. rewrite Hl, Hf', removelast_snoc. cbn [expect obind].
    rewrite Hv. unfold returned in Hr. by destruct (return_kind (info f)). }
  set (c1 := clear_evaluation_stack_from _ _) in Heq.
  assert (Hc1 : frames (fstack c1) = fs ++ [g]).
  { unfold c1, clear_evaluation_stack_from. cbn [set_eval fstack]. by rewrite (proj1 (retire_frames _ f)). }
  assert (Hs1 : stack (eval c1) = take (bp_arguments (frame_base f)) (stack (eval c))).
  { unfold c1, clear_evaluation_stack_from. cbn [set_eval eval truncate stack]. by rewrite (proj2 (retire_frames _ f)). }
  destruct (push_returned fs g vs c1 Hc1 Hvs) as [Hf2 Hs2].
  destruct (finish_return_plain f _ _ _ Hf2 Hcons Hcont) as (c' & Hfin & Hf3 & He3).
  exists c', (set_continuation (set_height g (stack_height g + length vs)) None
    (constructor_result (set_height g (stack_height g + length vs)))).
  rewrite Heq. split; [exact Hfin|]. split; [exact Hf3|]. do 4 (split; [done|]).
  unfold aligned, frame_operands in *. cbn [set_continuation set_height frame_base stack_height].
  rewrite He3, Hs2, Hs1, Hb. split.
  - rewrite length_app, length_take. lia.
  - rewrite drop_app_le by (rewrite length_take; lia). rewrite skipn_firstn_comm.
    replace (_ - bp_stack (frame_base g))%nat with (stack_height g) by lia.
    rewrite take_app_ge by (rewrite length_take, length_drop; lia). f_equal.
    rewrite length_take, length_drop. apply take_ge. lia.
Qed.

(** A [leave] that has no block to run. *)
Lemma leave_plain c fs f t :
  frames (fstack c) = fs ++ [f] -> structured (exceptions (info f)) -> t <> USIZE_MAX ->
  exception_mode c = NoException -> continuation c = NoContinuation ->
  frame_blocks None (ToInstruction t) (length fs) 0 (code_of f) = [] ->
  exists c' f', leave rt t c = Val (c', Exception) /\ last (frames (fstack c')) = Some f' /\ info f' = info f /\
    ip f' = t /\ frame_base f' = frame_base f /\ stack_height f' = O /\ eval c' = eval c.
Proof.
  intros Hf Hst Ht Hm Hk Hb.
  set (u := {| us_exception := None; us_target := ToInstruction t; us_cursor := top_cursor c; us_nested_filter := None |}).
  assert (Hleave : leave rt t c = handle_exception rt (set_mode c (Unwinding u))).
  { unfold leave, current_frame. rewrite Hf, last_snoc, Hm. done. }
  set (c0 := set_mode c (Unwinding u)) in Hleave.
  assert (Htop : frame_index (us_cursor u) = length fs) by (simpl; rewrite Hf, length_app; simpl; lia).
  assert (Hck : codes c0 !! length fs = Some (code_of f)).
  { unfold codes. simpl. rewrite Hf, list_lookup_fmap, list_lookup_middle; done. }
  pose proof (unwind_top_spec u (length fs) 0 c0 (code_of f) eq_refl Hck Hst) as Hs.
  cbn [us_exception us_target u] in Hs. rewrite Hb in Hs. destruct Hs as (c1 & Hs & [Hcodes Heval _ Hcont]).
  pose proof Hck as Hck1. rewrite <- Hcodes in Hck1. unfold codes in Hck1. rewrite list_lookup_fmap in Hck1.
  destruct (frames (fstack c1) !! length fs) as [f1|] eqn:Hf1; [|done]. injection Hck1 as Hi1 _ Hb1.
  destruct (finish_at_instruction u c1 (length fs) t f1) as (c2 & f2 & Hfin & _ & _ & Hl2 & Hi2 & Hip2 & Hb2 & Hh2 & He2);
    [done | done | done | by rewrite Hcont | | done |].
  { pose proof (f_equal length Hcodes) as Hlen. unfold codes in Hlen. rewrite !length_fmap in Hlen.
    rewrite Hlen. simpl. rewrite Hf, length_app. simpl. lia. }
  exists c2, f2. rewrite Hleave. split; [|repeat split; try congruence; by rewrite He2, Heval].
  apply (handle_unwinding rt c0 u); [done|]. unfold unwind. cbn [target_frame_of us_target us_nested_filter u].
  rewrite Htop, Nat.ltb_irrefl, Nat.sub_diag.
  rewrite (unwind_frames_eq rt u (length fs) 0 c0 (code_of f)) by (by rewrite Nat.add_0_r).
  rewrite Nat.add_0_r. unfold first_section. rewrite Htop, Nat.eqb_refl. cbn [section_index us_cursor u top_cursor].
  rewrite Hs. cbn [obind unwind_end us_target us_nested_filter u]. by rewrite Hfin.
Qed.

(**  A [leave] with operands on the stack of the frame resets the height of the
    frame and keeps the operands, so that the next instruction sees an empty stack and
    finds what it pushed, but a return, which reads the slot given by the height,
    returns the oldest operand [w] from before the [leave], not the value [v] pushed
    after it. *)
Theorem leave_keeps_operands c fs f t w ops v :
  frames (fstack c) = fs ++ [f] -> structured (exceptions (info f)) -> t <> USIZE_MAX ->
  exception_mode c = NoException -> continuation c = NoContinuation ->
  frame_blocks None (ToInstruction t) (length fs) 0 (code_of f) = [] ->
  aligned c f -> frame_operands c f = w :: ops -> return_kind (info f) = ReturnsValue ->
  exists c' f', leave rt t c = Val (c', Exception) /\ stack (eval c') = stack (eval c) /\
    ctx_view c' = [] /\ ctx_view (push v c') = [v] /\
    last (frames (fstack (push v c'))) = Some f' /\ return_value (push v c') f' = Val (Some w).
Proof.
  intros Hf Hst Ht Hm Hk Hb Ha Hops Hr.
  destruct (leave_plain c fs f t Hf Hst Ht Hm Hk Hb) as (c' & f1 & Hl & Hlast & Hi & _ & Hbase & Hh & He).
  apply last_snoc_inv in Hlast. destruct (ves_push_snoc v c' _ f1 Hlast) as (Hpf & Hps & _).
  exists c', (set_height f1 (S (stack_height f1))). split; [done|]. split; [by rewrite He|].
  assert (Hview : ctx_view c' = []).
  { unfold ctx_view. by rewrite Hlast, last_snoc, Hh, Nat.sub_0_r, drop_all. }
  split; [done|]. change (push v c') with (ves_push v c'). rewrite Hpf, last_snoc. split; [|split; [done|]].
  - unfold ctx_view. rewrite Hpf, last_snoc, Hps, length_app. cbn [stack_height set_height length].
    rewrite Hh, drop_app_ge by lia. by replace (_ - 1 - _)%nat with 0%nat by lia.
  - unfold return_value. cbn [info set_height stack_height frame_base]. rewrite Hi, Hr, Hbase, Hh, Nat.add_1_r.
    unfold get_slot. rewrite Hps, He. unfold frame_operands, aligned in *.
    assert (Hw : stack (eval c) !! bp_stack (frame_base f) = Some w).
    { rewrite <- (Nat.add_0_r (bp_stack _)), <- lookup_drop.
      destruct (drop (bp_stack (frame_base f)) (stack (eval c))); [by rewrite take_nil in Hops|].
      destruct (stack_height f); [done|]. by injection Hops as -> _. }
    by rewrite (lookup_app_l_Some _ _ _ _ Hw).
Qed.

End returns.

(** ** A method that leaves a protected block with an operand *)

Definition test_calls : calls := {|
  other := fun n c => Val (c, Error (VmExecution (NotImplemented "instruction")));
  multicast_step := fun c => Val (c, Return);
  complete_constructor := fun _ c => Val (eval c);
  is_void := fun _ => false;
  is_value_type := fun _ => Some false;
  box_value := fun _ _ _ => None;
|}.

Lemma test_calls_ok : calls_ok test_calls.
Proof. by split; [intros n|]; intros c c' r H [= <- <-]. Qed.

Definition guarded : ProtectedSection := section_at (0, 2) [handler_at (2, 3) (Catch 7)].

(** [ldc 1; leave 3; (handler:) leave 3; ldc 2; ret] *)
Definition leaving : MethodInfo :=
  method_with [guarded]
    [Operand (LoadConstantInt32 1); Leave 3; Leave 3; Operand (LoadConstantInt32 2); Ret].

Definition leaving_frame (bp : BasePointer) (i : Z) (h : nat) : StackFrame :=
  set_height (set_ip (new_frame bp leaving empty_lookup []) i) h.

Lemma leaving_structured : structured (exceptions leaving).
Proof. by apply structured_singleton; intros h [= ->]%list_elem_of_singleton. Qed.

Definition plain_frame (bp : BasePointer) (h : nat) : StackFrame :=
  set_height (new_frame bp (method_with [] [Operand NoOperation; Other 0]) empty_lookup []) h.

Definition engine_of (c : ctx) : engine :=
  {| vm := c; ring_buffer := Ring.new; last_instructions := Ring.new; polls := 0 |}.

(** The caller gets 1, where the method returns 2. *)
Definition call_of_leaving : ctx :=
  context_of [plain_frame base0 0; leaving_frame base0 0 0] [] NoException.

Lemma batch_checks_once_witness :
  exists e, batch test_runtime test_calls (fun _ => false) 32 3 0 (engine_of call_of_leaving) = Val (e, Exception) /\
    batch test_runtime test_calls (fun _ => false) 32 3 0 (engine_of call_of_leaving)
    = checked_batch test_runtime test_calls (fun _ => false) 32 3 0 (engine_of call_of_leaving).
Proof.
  eexists. split; [vm_compute; reflexivity|].
  apply batch_checks_once; [exact test_calls_ok | reflexivity].
Defined.

Definition returning : StackFrame := leaving_frame {| bp_arguments := 1; bp_locals := 2; bp_stack := 3 |} 4 2.
Definition return_ctx : ctx :=
  context_of [plain_frame base0 1; returning]
    [SV.Int32 9; SV.Int32 8; SV.Int32 7; SV.Int32 6; SV.Int32 5] NoException.

Lemma return_frame_passes_top_witness :
  exists c' g', return_frame test_calls return_ctx = Val (c', Continue) /\
    frames (fstack c') = [g'] /\ frame_operands c' g' = [SV.Int32 9; SV.Int32 5].
Proof.
  destruct (return_frame_passes_top test_calls return_ctx [] (plain_frame base0 1) returning [SV.Int32 5])
    as (c' & g' & H1 & H2 & _ & _ & _ & _ & _ & H3); try reflexivity.
  - exists (SV.Int32 5). reflexivity.
  - simpl. lia.
  - exists c', g'. split; [exact H1|]. split; [exact H2 | exact H3].
Defined.

Lemma leave_keeps_operands_witness :
  exists c' f', leave test_runtime 3 (context_of [leaving_frame base0 1 1] [SV.Int32 1] NoException) = Val (c', Exception) /\
    ctx_view (push (SV.Int32 2) c') = [SV.Int32 2] /\
    last (frames (fstack (push (SV.Int32 2) c'))) = Some f' /\
    return_value (push (SV.Int32 2) c') f' = Val (Some (SV.Int32 1)).
Proof.
  destruct (leave_keeps_operands test_runtime (context_of [leaving_frame base0 1 1] [SV.Int32 1] NoException)
    [] (leaving_frame base0 1 1) 3 (SV.Int32 1) [] (SV.Int32 2)) as (c' & f' & H1 & _ & _ & H2 & H3 & H4);
    try reflexivity; [apply leaving_structured | discriminate |].
  exists c', f'. split; [exact H1|]. split; [exact H2|]. split; [exact H3 | exact H4].
Defined.

(** The same through the dispatch loop: the caller's next instruction finds 1. *)
Example leaving_returns_1 :
  match run test_runtime test_calls (fun _ => false) 32 4 (engine_of call_of_leaving) with
  | Some (Val (e, Error (VmExecution (NotImplemented _)))) => ctx_view (vm e) = [SV.Int32 1]
  | _ => False
  end.
Proof. vm_compute. reflexivity. Qed.
