(* ===== verification/Stw.v ===== *)
(** * Stop-the-world pauses

    The thread manager of [dotnet-vm/src/threading/basic.rs] and the collection
    protocol of [dotnet-vm/src/gc/coordinator.rs] as a step function: every thread
    has a program counter, and one step is one atomic operation, one critical
    section, or one operation on a condition variable.  The registration and the
    teardown of a thread are those of [Executor::new] and [Executor::drop]
    ([dotnet-vm/src/executor.rs]), its collection [Executor::perform_full_gc].

    Steps interleave as one sequence.  Condition variables wake only by a
    notification (parking_lot), so a wait with a timeout is a step that may be taken
    at any time.  What a thread executes for a command is not modelled here (see
    [Marking]); the targets of a fixed-point round are a choice of the step.
    Thread-safe write guards, which let a poll return without parking, and panics
    inside a pause are not modelled. *)

From Stdlib Require Import ZArith Lia.
From stdpp Require Import base tactics list option sets gmap.
From S2P Require Import Prelude.

(** ** State *)

Inductive MarkPhaseCommand : Set := MarkAll | MarkObjects.
Inductive SweepPhaseCommand : Set := Finalize | Sweep.
Inductive GCCommand : Set := Mark (c : MarkPhaseCommand) | SweepPhase (c : SweepPhaseCommand).

#[export] Instance GCCommand_eq_dec : EqDecision GCCommand.
Proof. unfold EqDecision, Decision. repeat decide equality. Defined.

Inductive ThreadState : Set := TRunning | TAtSafePoint | TExited.

(** Where [safe_point] was called: by the run loop, or while waiting for the
    coordination lock. *)
Inductive caller_of : Set := FromRun | FromTryLock.

Inductive pc : Set :=
| Registering                                  (* in the registry, no arena yet *)
| Running
| Exiting                                      (* arena gone, still in the registry *)
(* [safe_point] *)
| SpEnter (r : caller_of)                      (* the stop was seen *)
| SpCount (r : caller_of)                      (* state set, not counted *)
| SpLoop (r : caller_of)                       (* counted, about to lock its command *)
| SpCheck (r : caller_of)                      (* holds the command lock *)
| SpPreWait (r : caller_of)                    (* holds it, saw a stop and no command *)
| SpAsleep (r : caller_of)
| SpWoken (r : caller_of)                      (* about to lock again *)
| SpExec (r : caller_of) (c : GCCommand)
| SpLeave (r : caller_of)                      (* saw the resume, still counted *)
| SpRun (r : caller_of)                        (* not counted, state not set *)
(* [perform_full_gc] *)
| GcLocked                                     (* holds the collection lock *)
| GcRequest                                    (* [stw_in_progress] is set *)
| GcTryLock                                    (* the stop is requested *)
| GcCount                                      (* holds the coordination lock *)
| GcCheck (target : nat)
| GcStopped                                    (* the pause begins *)
| GcSend (c : GCCommand) (todo : list nat) (mine : bool)
| GcSelf (c : GCCommand)
| GcAwait (c : GCCommand) (todo : list nat)
| GcAsleep (c : GCCommand) (t : nat) (todo : list nat)
| GcRounds
| GcFinish                                     (* all commands are done *)
| GcFinished                                   (* [stw_in_progress] is clear *)
| GcUnlock                                     (* and was seen so *)
| GcResume                                     (* the collection lock is free *)
| GcWake                                       (* the stop is withdrawn *)
| GcNotify (todo : list nat)                   (* holds the lock of the arenas *)
| GcDone.

Record state : Type := {
  pcs : gmap nat pc;
  next_id : nat;                               (* [NEXT_GLOBAL_THREAD_ID] *)
  threads : gmap nat ThreadState;
  gc_stop_requested : bool;
  threads_at_safepoint : Z;
  gc_coordination : option nat;
  stw_in_progress : bool;
  arenas : gmap nat (option GCCommand);        (* with [current_command] *)
  arenas_lock : option nat;
  collection_lock : option nat;
}.

Definition init : state := {|
  pcs := ∅; next_id := 1; threads := ∅; gc_stop_requested := false; threads_at_safepoint := 0;
  gc_coordination := None; stw_in_progress := false; arenas := ∅; arenas_lock := None; collection_lock := None;
|}.

Definition with_pcs (s : state) (m : gmap nat pc) : state := {|
  pcs := m; next_id := next_id s; threads := threads s; gc_stop_requested := gc_stop_requested s;
  threads_at_safepoint := threads_at_safepoint s; gc_coordination := gc_coordination s;
  stw_in_progress := stw_in_progress s; arenas := arenas s; arenas_lock := arenas_lock s;
  collection_lock := collection_lock s |}.

Definition set_pc (s : state) (t : nat) (p : pc) : state := with_pcs s (<[t := p]> (pcs s)).

Definition set_next (s : state) (n : nat) : state := {|
  pcs := pcs s; next_id := n; threads := threads s; gc_stop_requested := gc_stop_requested s;
  threads_at_safepoint := threads_at_safepoint s; gc_coordination := gc_coordination s;
  stw_in_progress := stw_in_progress s; arenas := arenas s; arenas_lock := arenas_lock s;
  collection_lock := collection_lock s |}.

Definition set_threads (s : state) (m : gmap nat ThreadState) : state := {|
  pcs := pcs s; next_id := next_id s; threads := m; gc_stop_requested := gc_stop_requested s;
  threads_at_safepoint := threads_at_safepoint s; gc_coordination := gc_coordination s;
  stw_in_progress := stw_in_progress s; arenas := arenas s; arenas_lock := arenas_lock s;
  collection_lock := collection_lock s |}.

Definition set_stop (s : state) (b : bool) : state := {|
  pcs := pcs s; next_id := next_id s; threads := threads s; gc_stop_requested := b;
  threads_at_safepoint := threads_at_safepoint s; gc_coordination := gc_coordination s;
  stw_in_progress := stw_in_progress s; arenas := arenas s; arenas_lock := arenas_lock s;
  collection_lock := collection_lock s |}.

Definition set_count (s : state) (n : Z) : state := {|
  pcs := pcs s; next_id := next_id s; threads := threads s; gc_stop_requested := gc_stop_requested s;
  threads_at_safepoint := n; gc_coordination := gc_coordination s;
  stw_in_progress := stw_in_progress s; arenas := arenas s; arenas_lock := arenas_lock s;
  collection_lock := collection_lock s |}.

Definition set_coordination (s : state) (l : option nat) : state := {|
  pcs := pcs s; next_id := next_id s; threads := threads s; gc_stop_requested := gc_stop_requested s;
  threads_at_safepoint := threads_at_safepoint s; gc_coordination := l;
  stw_in_progress := stw_in_progress s; arenas := arenas s; arenas_lock := arenas_lock s;
  collection_lock := collection_lock s |}.

Definition set_stw (s : state) (b : bool) : state := {|
  pcs := pcs s; next_id := next_id s; threads := threads s; gc_stop_requested := gc_stop_requested s;
  threads_at_safepoint := threads_at_safepoint s; gc_coordination := gc_coordination s;
  stw_in_progress := b; arenas := arenas s; arenas_lock := arenas_lock s;
  collection_lock := collection_lock s |}.

Definition set_arenas (s : state) (m : gmap nat (option GCCommand)) : state := {|
  pcs := pcs s; next_id := next_id s; threads := threads s; gc_stop_requested := gc_stop_requested s;
  threads_at_safepoint := threads_at_safepoint s; gc_coordination := gc_coordination s;
  stw_in_progress := stw_in_progress s; arenas := m; arenas_lock := arenas_lock s;
  collection_lock := collection_lock s |}.

Definition set_arenas_lock (s : state) (l : option nat) : state := {|
  pcs := pcs s; next_id := next_id s; threads := threads s; gc_stop_requested := gc_stop_requested s;
  threads_at_safepoint := threads_at_safepoint s; gc_coordination := gc_coordination s;
  stw_in_progress := stw_in_progress s; arenas := arenas s; arenas_lock := l;
  collection_lock := collection_lock s |}.

Definition set_collection (s : state) (l : option nat) : state := {|
  pcs := pcs s; next_id := next_id s; threads := threads s; gc_stop_requested := gc_stop_requested s;
  threads_at_safepoint := threads_at_safepoint s; gc_coordination := gc_coordination s;
  stw_in_progress := stw_in_progress s; arenas := arenas s; arenas_lock := arenas_lock s;
  collection_lock := l |}.

(** ** Steps *)

(** The condition variables [command_signal] and [finish_signal] of a thread's arena. *)
Definition wake_command (p : pc) : pc := match p with SpAsleep r => SpWoken r | p => p end.

Definition notify_command (s : state) (u : nat) : state := with_pcs s (alter wake_command u (pcs s)).

Definition wake_awaiting (u : nat) (p : pc) : pc :=
  match p with
  | GcAsleep c v todo => if decide (v = u) then GcAwait c (v :: todo) else p
  | _ => p
  end.

Definition notify_finish (s : state) (u : nat) : state := with_pcs s (wake_awaiting u <$> pcs s).

(** Only the owner of an arena holds its command lock over several steps. *)
Definition holds_command (p : pc) : bool := match p with SpCheck _ | SpPreWait _ => true | _ => false end.

Definition command_free (s : state) (u : nat) : bool :=
  match pcs s !! u with Some p => negb (holds_command p) | None => true end.

Definition arenas_free (s : state) : bool := match arenas_lock s with None => true | Some _ => false end.

Definition keys (s : state) : list nat := (map_to_list (arenas s)).*1.

(** [snapshot_other_arenas] *)
Definition others (s : state) (t : nat) : list nat := filter (fun u => u <> t) (keys s).

(** [assert_no_pending_commands] takes every command lock; [None] while one is held. *)
Definition no_pending (s : state) : bool := forallb (fun x : nat * option GCCommand => bool_decide (x.2 = None)) (map_to_list (arenas s)).
Definition commands_free (s : state) : bool := forallb (command_free s) (keys s).

(** What a thread does where it has a choice. *)
Inductive action : Type :=
| Next
| Poll
| Collect
| Exit
| Round (targets : gset nat)
| EndRounds.

Definition result : Type := option (outcome Empty_set state).

Definition go (s : state) : result := Some (Val s).

(** A step that waits for a lock. *)
Definition when (b : bool) (r : result) : result := if b then r else None.

Definition return_pc (r : caller_of) : pc := match r with FromRun => Running | FromTryLock => GcTryLock end.

(** [allocate_managed_thread_id] and [register_thread] *)
Definition MAX_THREADS : Z := int_max U16.

Definition spawn (s : state) : outcome Empty_set state :=
  let t := next_id s in
  if (1 <=? Z.of_nat t) && (Z.of_nat t <=? MAX_THREADS)
  then Val (set_pc (set_threads (set_next s (S t)) (<[t := TRunning]> (threads s))) t Registering)
  else Panic.

Definition register_arena (s : state) (t : nat) : result :=
  when (arenas_free s) (go (set_pc (set_arenas s (<[t := None]> (arenas s))) t Running)).

Definition unregister_arena (s : state) (t : nat) : result :=
  when (arenas_free s)
    match arenas s !! t with
    | Some _ => go (set_pc (notify_finish (set_arenas s (delete t (arenas s))) t) t Exiting)
    | None => go (set_pc s t Exiting)
    end.

Definition unregister_thread (s : state) (t : nat) : state :=
  with_pcs (set_threads s (delete t (threads s))) (delete t (pcs s)).

(** [safe_point], up to the decision to park. *)
Definition safe_point (s : state) (t : nat) (r : caller_of) : result :=
  if gc_stop_requested s && bool_decide (is_Some (threads s !! t)) then go (set_pc s t (SpEnter r)) else go s.

(** The loop of [wait_for_command_or_resume], with the command lock held. *)
Definition check_command (s : state) (t : nat) (r : caller_of) : result :=
  if gc_stop_requested s then
    match arenas s !! t with
    | Some (Some c) => go (set_pc s t (SpExec r c))
    | _ => go (set_pc s t (SpPreWait r))
    end
  else go (set_pc s t (SpLeave r)).

Definition command_finished (s : state) (t : nat) (r : caller_of) : result :=
  when (arenas_free s)
    match arenas s !! t with
    | Some (Some _) => go (set_pc (notify_finish (set_arenas s (<[t := None]> (arenas s))) t) t (SpLoop r))
    | Some None => Some Panic
    | None => go (set_pc s t (SpLoop r))
    end.

Definition begin_collection (s : state) (t : nat) : result :=
  match collection_lock s with
  | None => go (set_pc (set_collection s (Some t)) t GcLocked)
  | Some _ => go s
  end.

Definition enter_collecting_state (s : state) (t : nat) : result :=
  if stw_in_progress s then Some Panic
  else when (arenas_free s && commands_free s)
    (if no_pending s then go (set_pc (set_stw s true) t GcRequest) else Some Panic).

Definition finish_collection_inner (s : state) (t : nat) : result :=
  if stw_in_progress s then
    when (arenas_free s && commands_free s)
      (if no_pending s then go (set_pc (set_stw s false) t GcFinished) else Some Panic)
  else Some Panic.

(** Its postcondition, after the flags of the arenas are reset. *)
Definition finish_postcondition (s : state) (t : nat) : result :=
  when (arenas_free s && commands_free s)
    (if no_pending s && negb (stw_in_progress s) then go (set_pc s t GcUnlock) else Some Panic).

Definition try_coordination (s : state) (t : nat) : result :=
  match gc_coordination s with
  | None => go (set_pc (set_coordination s (Some t)) t GcCount)
  | Some _ => safe_point s t FromTryLock
  end.

Definition target_stopped (s : state) (t : nat) : nat :=
  if bool_decide (is_Some (threads s !! t)) then (size (threads s) - 1)%nat else size (threads s).

Definition start_send (s : state) (t : nat) (c : GCCommand) : result :=
  when (arenas_free s) (go (set_pc s t (GcSend c (others s t) true))).

Definition start_await (s : state) (t : nat) (c : GCCommand) : result :=
  when (arenas_free s) (go (set_pc s t (GcAwait c (others s t)))).

(** [enqueue_command_for_arena]; the command lock of an arena that is gone is not seen by anyone. *)
Definition enqueue_command (s : state) (u : nat) (c : GCCommand) : result :=
  match arenas s !! u with
  | None => go s
  | Some pending =>
      when (command_free s u)
        match pending with
        | None => go (notify_command (set_arenas s (<[u := Some c]> (arenas s))) u)
        | Some _ => Some Panic
        end
  end.

(** One turn of [wait_on_other_arenas] *)
Definition await_arena (s : state) (t : nat) (c : GCCommand) (u : nat) (todo : list nat) : result :=
  match arenas s !! u with
  | None => go (set_pc s t (GcAwait c todo))
  | Some pending =>
      when (command_free s u)
        match pending with
        | Some _ => go (set_pc s t (GcAsleep c u todo))
        | None => go (set_pc s t (GcAwait c todo))
        end
  end.

(** What follows in [collect_all_arenas] when all arenas have executed a command. *)
Definition after_command (s : state) (t : nat) (c : GCCommand) : result :=
  match c with
  | Mark _ => go (set_pc s t GcRounds)
  | SweepPhase Finalize => start_send s t (SweepPhase Sweep)
  | SweepPhase Sweep => go (set_pc s t GcFinish)
  end.

Definition map_result (r : result) (f : state -> state) : result :=
  match r with Some (Val s) => go (f s) | r => r end.

Definition step (t : nat) (a : action) (s : state) : result :=
  match pcs s !! t, a with
  | Some Registering, Next => register_arena s t
  | Some Running, Poll => safe_point s t FromRun
  | Some Running, Collect => begin_collection s t
  | Some Running, Exit => unregister_arena s t
  | Some Exiting, Next => go (unregister_thread s t)
  | Some (SpEnter r), Next => go (set_pc (set_threads s (<[t := TAtSafePoint]> (threads s))) t (SpCount r))
  | Some (SpCount r), Next => go (set_pc (set_count s (wrap usize (threads_at_safepoint s + 1))) t (SpLoop r))
  | Some (SpLoop r), Next =>
      when (arenas_free s)
        match arenas s !! t with
        | Some _ => go (set_pc s t (SpCheck r))
        | None => go (set_pc s t (SpLeave r))
        end
  | Some (SpCheck r), Next => check_command s t r
  | Some (SpPreWait r), Next => go (set_pc s t (SpAsleep r))
  | Some (SpWoken r), Next => go (set_pc s t (SpCheck r))
  | Some (SpExec r _), Next => command_finished s t r
  | Some (SpLeave r), Next => go (set_pc (set_count s (wrap usize (threads_at_safepoint s - 1))) t (SpRun r))
  | Some (SpRun r), Next => go (set_pc (set_threads s (<[t := TRunning]> (threads s))) t (return_pc r))
  | Some GcLocked, Next => enter_collecting_state s t
  | Some GcRequest, Next => go (set_pc (set_stop s true) t GcTryLock)
  | Some GcTryLock, Next => try_coordination s t
  | Some GcCount, Next => go (set_pc s t (GcCheck (target_stopped s t)))
  | Some (GcCheck target), Next =>
      if Z.of_nat target <=? threads_at_safepoint s then go (set_pc s t GcStopped) else go (set_pc s t GcCount)
  | Some GcStopped, Next =>
      match arenas s !! t with
      | Some _ => start_send s t (Mark MarkAll)
      | None => Some Panic
      end
  | Some (GcSend c (u :: todo) mine), Next =>
      map_result (enqueue_command s u c) (fun s => set_pc s t (GcSend c todo mine))
  | Some (GcSend c [] mine), Next => if mine then go (set_pc s t (GcSelf c)) else start_await s t c
  | Some (GcSelf c), Next =>
      match c, arenas s !! t with
      | Mark MarkObjects, Some (Some _) => Some Panic
      | _, _ => start_await s t c
      end
  | Some (GcAwait c (u :: todo)), Next => await_arena s t c u todo
  | Some (GcAwait c []), Next => after_command s t c
  | Some GcRounds, Round targets =>
      go (set_pc s t (GcSend (Mark MarkObjects) (elements (targets ∖ {[t]})) (bool_decide (t ∈ targets))))
  | Some GcRounds, EndRounds => start_send s t (SweepPhase Finalize)
  | Some GcFinish, Next => finish_collection_inner s t
  | Some GcFinished, Next => finish_postcondition s t
  | Some GcUnlock, Next => go (set_pc (set_collection s None) t GcResume)
  | Some GcResume, Next => go (set_pc (set_stop s false) t GcWake)
  | Some GcWake, Next => when (arenas_free s) (go (set_pc (set_arenas_lock s (Some t)) t (GcNotify (keys s))))
  | Some (GcNotify (u :: todo)), Next => go (set_pc (notify_command s u) t (GcNotify todo))
  | Some (GcNotify []), Next => go (set_pc (set_arenas_lock s None) t GcDone)
  | Some GcDone, Next => go (set_pc (set_coordination s None) t Running)
  | _, _ => None
  end.

(** A label of a transition: a new thread, or a step of a thread. *)
Inductive label : Type := Spawn | Do (t : nat) (a : action).

Definition perform (l : label) (s : state) : result :=
  match l with Spawn => Some (spawn s) | Do t a => step t a s end.

Inductive trans : state -> state -> Prop :=
| trans_intro l s s' : perform l s = Some (Val s') -> trans s s'.

Definition reachable (s : state) : Prop := rtc trans init s.

(** The state after a list of transitions. *)
Fixpoint play (ls : list label) (s : state) : option state :=
  match ls with
  | [] => Some s
  | l :: ls => match perform l s with Some (Val s) => play ls s | _ => None end
  end.
