(* ===== verification/Pauses.v ===== *)
(** * Invariants of the pauses

    What holds in every state the protocol of [Stw] reaches: the counter and the locks
    agree with the program counters, and no assertion of the protocol fails. *)

From Stdlib Require Import ZArith Lia.
From stdpp Require Import base tactics list option sets gmap.
From S2P Require Import Prelude Stw.

(** ** What a step changes *)

(** Inversion of a step into its cases. *)
Ltac step_case :=
  match goal with
  | H : context [match ?x with _ => _ end] |- _ =>
      lazymatch x with
      | context [match _ with _ => _ end] => fail
      | _ => let E := fresh "E" in destruct x eqn:E; try discriminate H
      end
  end.

Ltac step_inv H :=
  unfold step, register_arena, unregister_arena, command_finished, begin_collection,
    enter_collecting_state, finish_collection_inner, finish_postcondition, try_coordination, after_command, start_send, start_await,
    await_arena, map_result, enqueue_command, check_command, safe_point, when, go in H;
  repeat (step_case; simplify_eq).

Ltac fields :=
  unfold unregister_thread, notify_finish, notify_command in *;
  repeat (cbn [pcs next_id threads gc_stop_requested threads_at_safepoint gc_coordination stw_in_progress arenas
    arenas_lock collection_lock with_pcs set_pc set_next set_threads set_stop set_count set_coordination set_stw
    set_arenas set_arenas_lock set_collection] in *).

(** What a notification does to the program counter of another thread. *)
Inductive woken : pc -> pc -> Prop :=
| woken_refl p : woken p p
| woken_safe_point r : woken (SpAsleep r) (SpWoken r)
| woken_await c u todo : woken (GcAsleep c u todo) (GcAwait c (u :: todo)).

Lemma wake_awaiting_woken u p : woken p (wake_awaiting u p).
Proof. destruct p; simpl; try constructor. case_decide; subst; constructor. Qed.

Lemma unchanged_woken (o : option pc) : option_Forall2 woken o o.
Proof. destruct o; repeat constructor. Qed.

Lemma notify_command_woken s u x :
  option_Forall2 woken (pcs s !! x) (pcs (notify_command s u) !! x).
Proof.
  fields. destruct (decide (x = u)) as [->|].
  - rewrite lookup_alter_eq. destruct (pcs s !! u) as [[]|]; repeat constructor.
  - rewrite lookup_alter_ne by done. apply unchanged_woken.
Qed.

Lemma notify_finish_woken s u x :
  option_Forall2 woken (pcs s !! x) (pcs (notify_finish s u) !! x).
Proof.
  unfold notify_finish. simpl. rewrite lookup_fmap. destruct (pcs s !! x); constructor. apply wake_awaiting_woken.
Qed.

Lemma insert_woken (m m' : gmap nat pc) t p x :
  x <> t -> option_Forall2 woken (m !! x) (m' !! x) -> option_Forall2 woken (m !! x) (<[t := p]> m' !! x).
Proof. intros Hx. by rewrite lookup_insert_ne by done. Qed.

#[local] Hint Resolve notify_command_woken notify_finish_woken unchanged_woken insert_woken : vm.

(** A step of [t] changes the other threads only by waking them. *)
Lemma step_others t a s s' x :
  step t a s = Some (Val s') -> x <> t -> option_Forall2 woken (pcs s !! x) (pcs s' !! x).
Proof.
  intros H Hx. step_inv H.
  all: unfold unregister_thread; cbn [pcs with_pcs set_pc set_threads set_count set_coordination set_collection set_stw set_stop
    set_arenas set_arenas_lock]; rewrite ?lookup_insert_ne, ?lookup_delete_ne by done; eauto with vm.
  all: try apply (notify_finish_woken (set_arenas s _)); try apply (notify_command_woken (set_arenas s _)).
Qed.

(** ** Classes of program counters *)

Definition from_try_lock (r : caller_of) : bool := match r with FromTryLock => true | FromRun => false end.

(** The safe point a thread is in, and whether it is counted there. *)
Definition in_safe_point (p : pc) : option (caller_of * bool) :=
  match p with
  | SpEnter r | SpCount r | SpRun r => Some (r, false)
  | SpLoop r | SpCheck r | SpPreWait r | SpAsleep r | SpWoken r | SpExec r _ | SpLeave r => Some (r, true)
  | _ => None
  end.

Definition is_counted (p : pc) : bool := match in_safe_point p with Some (_, b) => b | None => false end.

Definition holds_coordination (p : pc) : bool :=
  match p with
  | GcCount | GcCheck _ | GcStopped | GcSend _ _ _ | GcSelf _ | GcAwait _ _ | GcAsleep _ _ _ | GcRounds | GcFinish
  | GcFinished | GcUnlock | GcResume | GcWake | GcNotify _ | GcDone => true
  | _ => false
  end.

Definition stw_set (p : pc) : bool :=
  match p with
  | GcRequest | GcTryLock => true
  | GcFinished | GcUnlock | GcResume | GcWake | GcNotify _ | GcDone => false
  | p => match in_safe_point p with Some (r, _) => from_try_lock r | None => holds_coordination p end
  end.

Definition holds_collection (p : pc) : bool := match p with GcLocked | GcFinished | GcUnlock => true | p => stw_set p end.

Definition holds_arenas (p : pc) : bool := match p with GcNotify _ => true | _ => false end.

Definition has_arena (p : pc) : bool := match p with Registering | Exiting => false | _ => true end.

Definition cls (f : pc -> bool) (o : option pc) : bool := match o with Some p => f p | None => false end.

Class Unwoken (f : pc -> bool) : Prop := unwoken : forall p q, woken p q -> f q = f p.

Ltac solve_unwoken := by intros p q [].
#[local] Instance is_counted_unwoken : Unwoken is_counted. Proof. solve_unwoken. Qed.
#[local] Instance holds_coordination_unwoken : Unwoken holds_coordination. Proof. solve_unwoken. Qed.
#[local] Instance stw_set_unwoken : Unwoken stw_set. Proof. solve_unwoken. Qed.
#[local] Instance holds_collection_unwoken : Unwoken holds_collection. Proof. solve_unwoken. Qed.
#[local] Instance holds_arenas_unwoken : Unwoken holds_arenas. Proof. solve_unwoken. Qed.
#[local] Instance has_arena_unwoken : Unwoken has_arena. Proof. solve_unwoken. Qed.

Lemma cls_others f `{!Unwoken f} t a s s' x :
  step t a s = Some (Val s') -> x <> t -> cls f (pcs s' !! x) = cls f (pcs s !! x).
Proof. intros H Hx. destruct (step_others t a s s' x H Hx) as [p q Hpq|]; simpl; [by apply unwoken | done]. Qed.

(** ** Locks *)

(** What a step of [t] may do to a lock it holds when [b] before and [b'] after. *)
Definition lock_step (t : nat) (l l' : option nat) (b b' : bool) : Prop :=
  (l' = l /\ b' = b) \/ (l = None /\ l' = Some t /\ b = false /\ b' = true) \/ (l' = None /\ b = true /\ b' = false).

Ltac own_pc :=
  fields; rewrite ?lookup_insert_eq, ?lookup_delete_eq;
  repeat match goal with H : pcs ?s !! ?t = _ |- context [pcs ?s !! ?t] => rewrite H end.

Ltac solve_step H := step_inv H; own_pc; try match goal with r : caller_of |- _ => destruct r end; simpl; eauto 8.

Lemma step_collection t a s s' :
  step t a s = Some (Val s') -> lock_step t (collection_lock s) (collection_lock s')
    (cls holds_collection (pcs s !! t)) (cls holds_collection (pcs s' !! t)).
Proof. intros H. unfold lock_step. solve_step H. Qed.

Lemma step_coordination t a s s' :
  step t a s = Some (Val s') -> lock_step t (gc_coordination s) (gc_coordination s')
    (cls holds_coordination (pcs s !! t)) (cls holds_coordination (pcs s' !! t)).
Proof. intros H. unfold lock_step. solve_step H. Qed.

Lemma step_arenas_lock t a s s' :
  step t a s = Some (Val s') -> lock_step t (arenas_lock s) (arenas_lock s')
    (cls holds_arenas (pcs s !! t)) (cls holds_arenas (pcs s' !! t)).
Proof.
  intros H. unfold lock_step. step_inv H; own_pc; try match goal with r : caller_of |- _ => destruct r end; simpl; eauto 8.
  unfold arenas_free in *. destruct (arenas_lock s); eauto 8; done.
Qed.

(** A lock is held by the thread, and only the thread, whose program counter says so. *)
Definition lock_ok (f : pc -> bool) (l : option nat) (s : state) : Prop :=
  forall t, l = Some t <-> cls f (pcs s !! t) = true.

Lemma lock_preserved f `{!Unwoken f} t a s s' l l' :
  step t a s = Some (Val s') -> lock_step t l l' (cls f (pcs s !! t)) (cls f (pcs s' !! t)) ->
  lock_ok f l s -> lock_ok f l' s'.
Proof.
  intros H Hl Hok x. unfold lock_ok in Hok. pose proof (Hok t) as Ht. pose proof (Hok x) as Hx.
  destruct (decide (x = t)) as [->|Hne].
  - destruct Hl as [[-> ->] | [(-> & -> & _ & ->) | (-> & _ & ->)]]; naive_solver.
  - rewrite (cls_others f t a s s' x H Hne).
    destruct Hl as [[-> _] | [(-> & -> & Hf & _) | (-> & Htrue & _)]]; [done | naive_solver |].
    split; [done|]. intros Hx'. apply Hx in Hx'. apply Ht in Htrue. congruence.
Qed.

(** ** Flags, maps and the counter *)

Lemma step_stw t a s s' :
  step t a s = Some (Val s') ->
  let b := cls stw_set (pcs s !! t) in let b' := cls stw_set (pcs s' !! t) in
  (stw_in_progress s' = stw_in_progress s /\ b' = b) \/ (stw_in_progress s' = true /\ b' = true) \/
  (stw_in_progress s' = false /\ b = true /\ b' = false).
Proof. intros H. step_inv H; own_pc; cbn [cls]; auto. by destruct r; auto. Qed.

Lemma step_threads t a s s' x :
  step t a s = Some (Val s') -> is_Some (pcs s !! t) ->
  (forall y, is_Some (pcs s !! y) <-> is_Some (threads s !! y)) ->
  (is_Some (pcs s' !! x) <-> is_Some (threads s' !! x)).
Proof.
  intros H Ht Hs. destruct (decide (x = t)) as [->|Hne].
  - specialize (Hs t). step_inv H; own_pc; rewrite ?lookup_insert_eq, ?lookup_delete_eq;
      first [by split; eauto | split; [by intros []|by intros []] | by rewrite <- Hs; eauto].
  - pose proof (step_others t a s s' x H Hne) as Hw.
    assert (is_Some (pcs s' !! x) <-> is_Some (pcs s !! x)) as -> by (destruct Hw; split; eauto; by intros []).
    rewrite Hs. step_inv H; fields; rewrite ?lookup_insert_ne, ?lookup_delete_ne by done; done.
Qed.

Lemma step_next t a s s' : step t a s = Some (Val s') -> next_id s' = next_id s.
Proof. intros H. by step_inv H. Qed.

Lemma insert_present {A} (m : gmap nat A) i v x :
  is_Some (m !! i) -> (is_Some (<[i := v]> m !! x) <-> is_Some (m !! x)).
Proof. intros Hi. destruct (decide (i = x)) as [->|]; [rewrite lookup_insert_eq | rewrite lookup_insert_ne by done]; naive_solver. Qed.

Lemma step_arenas t a s s' x :
  step t a s = Some (Val s') ->
  (forall y, is_Some (arenas s !! y) <-> cls has_arena (pcs s !! y) = true) ->
  (is_Some (arenas s' !! x) <-> cls has_arena (pcs s' !! x) = true).
Proof.
  intros H Hs. destruct (decide (x = t)) as [->|Hne].
  - specialize (Hs t). step_inv H; own_pc; rewrite ?insert_present, ?lookup_insert_eq, ?lookup_delete_eq by eauto;
      repeat match goal with E : arenas ?s !! ?t = _ |- context [arenas ?s !! ?t] => rewrite E end;
      first [exact Hs | by destruct r | split; [done | by eauto] | split; [by intros [] | done] | split; [by eauto | by eauto] | naive_solver].
  - rewrite (cls_others has_arena t a s s' x H Hne). rewrite <- Hs. clear Hs.
    step_inv H; fields; rewrite ?insert_present, ?lookup_insert_ne, ?lookup_delete_ne by eauto; done.
Qed.

Definition count_of (p : pc) : Z := Z.b2z (is_counted p).

Definition total (s : state) : Z := map_sum count_of (pcs s).

Lemma sum_at (m : gmap nat pc) t :
  map_sum count_of m = Z.b2z (cls is_counted (m !! t)) + map_sum count_of (delete t m).
Proof.
  destruct (m !! t) as [p|] eqn:E; [by rewrite (map_sum_delete count_of m t p E)|].
  simpl. by rewrite delete_id.
Qed.

Lemma total_step t a s s' :
  step t a s = Some (Val s') ->
  total s' = total s + Z.b2z (cls is_counted (pcs s' !! t)) - Z.b2z (cls is_counted (pcs s !! t)).
Proof.
  intros H. unfold total. rewrite (sum_at (pcs s') t), (sum_at (pcs s) t).
  rewrite (map_sum_ext count_of (delete t (pcs s')) (delete t (pcs s))); [lia|].
  apply map_eq. intros x. rewrite !lookup_fmap. destruct (decide (x = t)) as [->|Hne]; [by rewrite !lookup_delete_eq|].
  rewrite !lookup_delete_ne by done. destruct (step_others t a s s' x H Hne) as [p q Hpq|]; [|done].
  simpl. unfold count_of. by rewrite (is_counted_unwoken _ _ Hpq).
Qed.

Lemma step_count t a s s' :
  step t a s = Some (Val s') ->
  threads_at_safepoint s' = threads_at_safepoint s /\ cls is_counted (pcs s' !! t) = cls is_counted (pcs s !! t) \/
  threads_at_safepoint s' = wrap usize (threads_at_safepoint s + 1) /\
    cls is_counted (pcs s' !! t) = true /\ cls is_counted (pcs s !! t) = false \/
  threads_at_safepoint s' = wrap usize (threads_at_safepoint s - 1) /\
    cls is_counted (pcs s' !! t) = false /\ cls is_counted (pcs s !! t) = true.
Proof. intros H. step_inv H; own_pc; cbn [cls]; auto. by destruct r; auto. Qed.

(** ** The invariant *)

Record consistent (s : state) : Prop := {
  c_threads : forall t, is_Some (pcs s !! t) <-> is_Some (threads s !! t);
  c_ids : forall t, is_Some (pcs s !! t) -> (t < next_id s)%nat;
  c_next : 1 <= Z.of_nat (next_id s) <= MAX_THREADS + 1;
  c_arenas : forall t, is_Some (arenas s !! t) <-> cls has_arena (pcs s !! t) = true;
  c_count : threads_at_safepoint s = total s;
  c_collection : lock_ok holds_collection (collection_lock s) s;
  c_coordination : lock_ok holds_coordination (gc_coordination s) s;
  c_arenas_lock : lock_ok holds_arenas (arenas_lock s) s;
  c_stw : stw_in_progress s = true <-> exists t, cls stw_set (pcs s !! t) = true;
}.

Lemma step_present t a s s' : step t a s = Some (Val s') -> exists p, pcs s !! t = Some p.
Proof. unfold step. destruct (pcs s !! t); [eauto | done]. Qed.

Lemma size_pcs s n : (forall t, is_Some (pcs s !! t) -> (t < n)%nat) -> (size (pcs s) <= n)%nat.
Proof.
  intros H. rewrite <- size_dom. transitivity (size (set_seq 0 n : gset nat)).
  - apply subseteq_size. intros t Ht. apply elem_of_set_seq. apply elem_of_dom, H in Ht. lia.
  - by rewrite size_set_seq.
Qed.

Lemma total_range s : (forall t, is_Some (pcs s !! t) -> (t < next_id s)%nat) ->
  0 <= total s <= Z.of_nat (next_id s).
Proof.
  intros H. unfold total. split.
  - apply map_sum_nonneg. intros. unfold count_of. destruct (is_counted a); simpl; lia.
  - pose proof (size_pcs s _ H). pose proof (map_sum_size count_of (pcs s)). 
    assert (map_sum count_of (pcs s) <= Z.of_nat (size (pcs s))); [|lia].
    apply map_sum_size. intros. unfold count_of. destruct (is_counted a); simpl; lia.
Qed.

Lemma consistent_init : consistent init.
Proof.
  split; unfold lock_ok; simpl; intros; rewrite ?lookup_empty in *; simpl; try done.
  split; [done|]. by intros [t Ht].
Qed.

Lemma stw_holds o : cls stw_set o = true -> cls holds_collection o = true.
Proof. by destruct o as [[]|]. Qed.

Lemma stw_preserved t a s s' :
  step t a s = Some (Val s') -> lock_ok holds_collection (collection_lock s) s ->
  (stw_in_progress s = true <-> exists t, cls stw_set (pcs s !! t) = true) ->
  (stw_in_progress s' = true <-> exists t, cls stw_set (pcs s' !! t) = true).
Proof.
  intros H Hl Hs. pose proof (cls_others stw_set t a s s') as Hoth.
  destruct (step_stw t a s s' H) as [[-> Hb] | [[-> Hb] | (-> & Hb & Hb')]].
  - rewrite Hs. split; intros [x Hx]; exists x; destruct (decide (x = t)) as [->|Hne]; rewrite ?Hb in *;
      rewrite ?(Hoth x H Hne) in *; done.
  - split; eauto.
  - split; [done|]. intros [x Hx]. destruct (decide (x = t)) as [->|Hne]; [congruence|].
    rewrite (Hoth x H Hne) in Hx. apply stw_holds, Hl in Hx. apply stw_holds, Hl in Hb. congruence.
Qed.

Lemma consistent_step t a s s' : consistent s -> step t a s = Some (Val s') -> consistent s'.
Proof.
  intros [Ht Hi Hn Ha Hc Hcl Hco Hal Hs] H.
  assert (Hids : forall x, is_Some (pcs s' !! x) -> (x < next_id s')%nat).
  { intros x Hx. rewrite (step_next _ _ _ _ H). apply Hi. destruct (decide (x = t)) as [->|Hne].
    - destruct (step_present _ _ _ _ H) as [p ->]. eauto.
    - destruct (step_others _ _ _ _ x H Hne); [eauto | done]. }
  split.
  - intros x. apply (step_threads t a s s' x H); [|done]. destruct (step_present _ _ _ _ H) as [p ->]. eauto.
  - done.
  - by rewrite (step_next _ _ _ _ H).
  - intros x. by apply (step_arenas t a s s' x H).
  - pose proof (total_range s Hi) as Hr. pose proof (total_range s' Hids) as Hr'. pose proof (step_next _ _ _ _ H) as Hnx.
    rewrite Hnx in Hr'. pose proof (total_step t a s s' H) as Htot. unfold MAX_THREADS in Hn. int_bounds.
    destruct (step_count t a s s' H) as [(-> & Heq) | [(-> & He1 & He2) | (-> & He1 & He2)]];
      rewrite ?Heq, ?He1, ?He2 in Htot; simpl in Htot; rewrite ?wrap_id; int_bounds; lia.
  - eapply lock_preserved; [apply _ | done | by eapply step_collection | done].
  - eapply lock_preserved; [apply _ | done | by eapply step_coordination | done].
  - eapply lock_preserved; [apply _ | done | by eapply step_arenas_lock | done].
  - by eapply stw_preserved.
Qed.

(** A new thread has a new identity, so that nothing changes for the others. *)
Lemma spawn_cls f s s' x :
  consistent s -> f Registering = false -> spawn s = Val s' -> cls f (pcs s' !! x) = cls f (pcs s !! x).
Proof.
  intros Hs Hf H. unfold spawn in H. destruct (_ && _); [|done]. injection H as <-. fields.
  destruct (decide (x = next_id s)) as [->|]; [|by rewrite lookup_insert_ne].
  rewrite lookup_insert_eq. simpl. rewrite Hf. destruct (pcs s !! next_id s) eqn:E; [|done].
  pose proof (c_ids s Hs (next_id s) ltac:(eauto)). lia.
Qed.

Lemma consistent_spawn s s' : consistent s -> spawn s = Val s' -> consistent s'.
Proof.
  intros Hs H. pose proof (fun f x Hf => spawn_cls f s s' x Hs Hf H) as Hcls.
  assert (Hfresh : pcs s !! next_id s = None).
  { destruct (pcs s !! next_id s) eqn:E; [|done]. pose proof (c_ids s Hs (next_id s) ltac:(eauto)). lia. }
  destruct Hs as [Ht Hi Hn Ha Hc Hcl Hco Hal Hst].
  unfold spawn in H. destruct (_ && _) eqn:Eb; [|done]. bool_to_prop. injection H as <-.
  split; unfold lock_ok; intros *; rewrite ?Hcls by done; fields; try done.
  - rewrite !lookup_insert_is_Some, Ht. done.
  - rewrite lookup_insert_is_Some. intros [<-|[_ Hx]]; [lia|]. specialize (Hi t Hx). lia.
  - lia.
  - unfold total. fields. rewrite (map_sum_insert count_of) by done. by rewrite Hc.
  - rewrite Hst. split; intros [t Hx]; exists t; revert Hx; by rewrite Hcls.
Qed.

Lemma reachable_consistent s : reachable s -> consistent s.
Proof.
  apply (invariant_rtc trans consistent); [|exact consistent_init].
  intros x y [[|t a] x' y' H] Hx; simpl in H; [injection H as H; by eapply consistent_spawn | by eapply consistent_step].
Qed.

(** ** Commands *)

(** The collector at [p] waits for the thread [u] to execute [c]. *)
Definition awaited (p : pc) (u : nat) (c : GCCommand) : Prop :=
  match p with
  | GcSend c' todo _ => c = c' /\ u ∉ todo
  | GcSelf c' => c = c'
  | GcAwait c' todo => c = c' /\ u ∈ todo
  | GcAsleep c' v todo => c = c' /\ u ∈ v :: todo
  | _ => False
  end.

Lemma awaited_holds p u c : awaited p u c -> holds_coordination p = true.
Proof. by destruct p. Qed.

Lemma awaited_woken p q u c : woken p q -> awaited p u c -> awaited q u c.
Proof. by destruct 1. Qed.

Definition pending (s : state) (u : nat) (c : GCCommand) : Prop := arenas s !! u = Some (Some c).

Record commands_ok (s : state) : Prop := {
  k_pending : forall u c, pending s u c -> exists t p, pcs s !! t = Some p /\ u <> t /\ awaited p u c;
  k_exec : forall u r c, pcs s !! u = Some (SpExec r c) -> pending s u c;
  k_awake : forall u c r, pending s u c -> pcs s !! u <> Some (SpAsleep r) /\ pcs s !! u <> Some (SpPreWait r);
  k_todo : forall t c todo mine, pcs s !! t = Some (GcSend c todo mine) -> NoDup todo /\ t ∉ todo;
}.

Lemma pending_step t a s s' u c :
  step t a s = Some (Val s') -> pending s' u c ->
  pending s u c \/
  exists todo mine, pcs s !! t = Some (GcSend c (u :: todo) mine) /\ pcs s' !! t = Some (GcSend c todo mine) /\
    command_free s u = true.
Proof.
  unfold pending. intros H. step_inv H; fields; rewrite ?lookup_insert_Some, ?lookup_delete_Some; try (by auto);
    try (naive_solver).
  intros [[<- [= <-]]|[_ ?]]; [|by auto]. right. eexists _, _. rewrite lookup_insert_eq. eauto.
Qed.

Lemma pending_kept t a s s' u c :
  step t a s = Some (Val s') -> u <> t -> pending s u c -> pending s' u c.
Proof.
  unfold pending. intros H Hu Hp. step_inv H; fields; rewrite ?lookup_insert_ne, ?lookup_delete_ne by congruence; done.
Qed.

Lemma elem_of_others s t u : u ∈ others s t <-> u <> t /\ is_Some (arenas s !! u).
Proof.
  unfold others, keys. rewrite list_elem_of_filter, list_elem_of_fmap. split.
  - intros [? ([x o] & -> & Hx%elem_of_map_to_list)]. eauto.
  - intros [? [o Ho]]. split; [done|]. exists (u, o). by rewrite elem_of_map_to_list.
Qed.

Lemma awaiter_step t a s s' p u c :
  step t a s = Some (Val s') -> pcs s !! t = Some p -> awaited p u c -> u <> t -> pending s u c ->
  exists p', pcs s' !! t = Some p' /\ awaited p' u c.
Proof.
  intros H Hp Haw Hu Hpend. unfold pending in Hpend. unfold step in H. rewrite Hp in H.
  assert (Hoth : u ∈ others s t) by (apply elem_of_others; eauto).
  destruct p; try done; simpl in Haw; destruct a; try done.
  all: unfold map_result, enqueue_command, start_await, await_arena, after_command, start_send, when, go in H.
  all: repeat (step_case; simplify_eq); fields; rewrite ?lookup_insert_eq; eexists; (split; [reflexivity|]); simpl.
  all: set_solver.
Qed.

Lemma others_ok s t : NoDup (others s t) /\ t ∉ others s t.
Proof.
  split; [apply NoDup_filter, NoDup_fst_map_to_list|]. by intros [? _]%elem_of_others.
Qed.

(** A step of [t] enters a command, an idle wait or a round only in these ways. *)
Lemma step_into t a s s' p :
  step t a s = Some (Val s') -> pcs s' !! t = Some p ->
  match p with
  | SpExec _ c => pending s t c /\ arenas s' = arenas s
  | SpPreWait _ => (forall c, ~ pending s t c) /\ arenas s' = arenas s
  | SpAsleep r => pcs s !! t = Some (SpPreWait r) /\ arenas s' = arenas s
  | GcSend c todo mine =>
      (exists u, pcs s !! t = Some (GcSend c (u :: todo) mine)) \/ (NoDup todo /\ t ∉ todo)
  | _ => True
  end.
Proof.
  intros H Hp. unfold pending. step_inv H; fields;
    try (rewrite ?lookup_insert_eq, ?lookup_delete_eq in Hp; simplify_eq);
    try (by eauto); try (destruct r; simpl; done); try (split; [congruence|done]).
  all: right; auto using others_ok. split; [apply NoDup_elements | set_solver].
Qed.

Lemma woken_inv p q : woken p q -> p = q \/ (exists r, q = SpWoken r) \/ (exists c todo, q = GcAwait c todo).
Proof. destruct 1; eauto. Qed.

Lemma others_inv t a s s' x q :
  step t a s = Some (Val s') -> x <> t -> pcs s' !! x = Some q ->
  exists p, pcs s !! x = Some p /\ woken p q.
Proof. intros H Hx Hq. pose proof (step_others t a s s' x H Hx) as Hw. rewrite Hq in Hw. inversion Hw; eauto. Qed.

(** An enqueued command wakes its thread. *)
Lemma enqueued_awake t s s' u c todo mine r :
  pcs s !! t = Some (GcSend c (u :: todo) mine) -> step t Next s = Some (Val s') -> u <> t -> command_free s u = true ->
  is_Some (arenas s !! u) -> pcs s' !! u <> Some (SpAsleep r) /\ pcs s' !! u <> Some (SpPreWait r).
Proof.
  intros Hp H Hu Hfree [o Ho]. unfold step in H. rewrite Hp in H. unfold enqueue_command, map_result, when, go in H.
  rewrite Ho, Hfree in H. destruct o; [done|]. injection H as <-. fields. rewrite lookup_insert_ne, lookup_alter_eq by done.
  unfold command_free in Hfree. destruct (pcs s !! u) as [[]|]; done.
Qed.

Lemma commands_step t a s s' :
  consistent s -> commands_ok s -> step t a s = Some (Val s') -> commands_ok s'.
Proof.
  intros Hs [Hp Hx Ha Ht] H. split.
  - intros u c Hu. destruct (pending_step t a s s' u c H Hu) as [Hu0 | (todo & mine & E & E' & _)].
    + destruct (Hp u c Hu0) as (t0 & p & Ep & Hne & Haw). destruct (decide (t0 = t)) as [->|Hn].
      * destruct (awaiter_step t a s s' p u c H Ep Haw Hne Hu0) as (p' & ? & ?). eauto.
      * pose proof (step_others t a s s' t0 H Hn) as Hw. rewrite Ep in Hw. inversion Hw as [? q Hpq|]; subst.
        exists t0, q. split; [done|]. split; [done|]. by eapply awaited_woken.
    + destruct (Ht _ _ _ _ E) as [Hnd Hni]. apply NoDup_cons in Hnd as [Hu' _].
      exists t, (GcSend c todo mine). split; [done|]. split; [set_solver | done].
  - intros u r c Hu. destruct (decide (u = t)) as [->|Hne].
    + destruct (step_into t a s s' _ H Hu) as [? Har]. unfold pending. by rewrite Har.
    + destruct (others_inv t a s s' u _ H Hne Hu) as (p & Ep & Hw). apply (pending_kept t a s s' u c H Hne).
      apply woken_inv in Hw as [-> | [[? [=]] | (? & ? & [=])]]. by eapply Hx.
  - intros u c r Hu. destruct (decide (u = t)) as [->|Hne].
    + split; intros E; pose proof (step_into t a s s' _ H E) as [Hi Har]; unfold pending in Hu; rewrite Har in Hu.
      * by apply (Ha t c r Hu).
      * by apply (Hi c).
    + destruct (pending_step t a s s' u c H Hu) as [Hu0 | (todo & mine & E & E' & Hfree)].
      * specialize (Ha u c r Hu0).
        split; intros E; destruct (others_inv t a s s' u _ H Hne E) as (p & Ep & Hw);
          apply woken_inv in Hw as [-> | [[? [=]] | (? & ? & [=])]]; tauto.
      * assert (a = Next) as -> by (unfold step in H; rewrite E in H; by destruct a).
        apply (enqueued_awake t s s' u c todo mine r E H Hne Hfree).
        apply (c_arenas s Hs). unfold step in H. rewrite E in H. unfold enqueue_command in H.
        destruct (arenas s !! u) eqn:Eu; [by apply (c_arenas s Hs) |]. exfalso.
        simpl in H. injection H as <-. unfold pending in Hu. fields. congruence.
  - intros x c todo mine E. destruct (decide (x = t)) as [->|Hne].
    + destruct (step_into t a s s' _ H E) as [[u Hu] | ?]; [|done]. apply Ht in Hu as [Hnd Hni].
      apply NoDup_cons in Hnd as [_ ?]. split; [done | set_solver].
    + destruct (others_inv t a s s' x _ H Hne E) as (p & Ep & Hw).
      apply woken_inv in Hw as [-> | [[? [=]] | (? & ? & [=])]]. by eapply Ht.
Qed.

Lemma commands_spawn s s' : consistent s -> commands_ok s -> spawn s = Val s' -> commands_ok s'.
Proof.
  intros Hs [Hp Hx Ha Ht] H.
  assert (Hfresh : pcs s !! next_id s = None).
  { destruct (pcs s !! next_id s) eqn:E; [|done]. pose proof (c_ids s Hs (next_id s) ltac:(eauto)). lia. }
  unfold spawn in H. destruct (_ && _) eqn:Eb; [|done]. injection H as <-.
  split; unfold pending in *; fields.
  - intros u c Hu. destruct (Hp u c Hu) as (t & p & E & Hne & Haw). exists t, p.
    split; [|done]. rewrite lookup_insert_ne; [done | congruence].
  - intros u r c. rewrite lookup_insert_Some. intros [[_ [=]] | [_ ?]]. by eapply Hx.
  - intros u c r Hu. specialize (Ha u c r Hu). destruct (decide (u = next_id s)) as [->|].
    + by rewrite lookup_insert_eq.
    + by rewrite lookup_insert_ne by done.
  - intros t c todo mine. rewrite lookup_insert_Some. intros [[_ [=]] | [_ ?]]. by eapply Ht.
Qed.

Lemma commands_init : commands_ok init.
Proof. split; unfold pending; simpl; intros *; rewrite ?lookup_empty; done. Qed.

Lemma reachable_commands s : reachable s -> commands_ok s.
Proof.
  intros H. enough (consistent s /\ commands_ok s) by tauto. revert H.
  apply (invariant_rtc trans (fun s => consistent s /\ commands_ok s)); [|split; [exact consistent_init | exact commands_init]].
  intros x y [[|t a] x' y' H] [Hx1 Hx2]; simpl in H.
  - injection H as H. split; [by eapply consistent_spawn | by eapply commands_spawn].
  - split; [by eapply consistent_step | by eapply commands_step].
Qed.

(** Two threads never hold the coordination lock. *)
Lemma coordination_unique s t u p q :
  consistent s -> pcs s !! t = Some p -> pcs s !! u = Some q ->
  holds_coordination p = true -> holds_coordination q = true -> t = u.
Proof.
  intros Hs Ep Eq Hp Hq. pose proof (c_coordination s Hs) as Hl.
  assert (gc_coordination s = Some t) by (apply Hl; by rewrite Ep).
  assert (gc_coordination s = Some u) by (apply Hl; by rewrite Eq). congruence.
Qed.

Lemma no_pending_spec s : no_pending s = true <-> forall u c, ~ pending s u c.
Proof.
  unfold no_pending, pending. rewrite forallb_forall. split.
  - intros H u c Hu. specialize (H (u, Some c)). rewrite <- list_elem_of_In, elem_of_map_to_list, bool_decide_eq_true in H.
    by apply H in Hu.
  - intros H [u o] Hu. rewrite <- list_elem_of_In, elem_of_map_to_list in Hu. apply bool_decide_eq_true. simpl.
    destruct o as [c|]; [|done]. by destruct (H u c).
Qed.

(** While [t] holds the collection lock outside of a command, nothing is pending. *)
Lemma idle_no_pending s t p :
  consistent s -> commands_ok s -> pcs s !! t = Some p -> holds_collection p = true ->
  (forall u c, ~ awaited p u c) -> no_pending s = true.
Proof.
  intros Hs Hk Ep Hh Hn. apply no_pending_spec. intros u c Hu.
  destruct (k_pending s Hk u c Hu) as (t' & q & Eq & _ & Haw).
  assert (t' = t) as ->.
  { pose proof (c_collection s Hs) as Hl.
    assert (collection_lock s = Some t) by (apply Hl; by rewrite Ep).
    assert (collection_lock s = Some t') by (apply Hl; rewrite Eq; by destruct q). congruence. }
  rewrite Ep in Eq. injection Eq as <-. by apply (Hn u c).
Qed.

(** C3.  No assertion of the collection protocol fails, in any interleaving of any number of threads:
    a collection begins and ends with no command pending and [stw_in_progress] as
    expected, a command is sent only to an arena without one, a thread that reports a
    command as finished has it, and the collector's arena is registered. *)
Theorem no_assertion_fails s t a : reachable s -> step t a s <> Some Panic.
Proof.
  intros Hr H. pose proof (reachable_consistent s Hr) as Hs. pose proof (reachable_commands s Hr) as Hk.
  assert (Hstw : forall p, pcs s !! t = Some p -> holds_collection p = true -> stw_in_progress s = stw_set p).
  { intros p Ep Hh. apply eq_true_iff_eq. rewrite (c_stw s Hs). split; [intros [x Hx]|intros Hx; exists t; by rewrite Ep].
    pose proof (c_collection s Hs) as Hl. pose proof (proj2 (Hl x) (stw_holds _ Hx)).
    assert (collection_lock s = Some t) by (apply Hl; by rewrite Ep). assert (x = t) as -> by congruence. by rewrite Ep in Hx. }
  assert (Hown : forall p, pcs s !! t = Some p -> has_arena p = true -> is_Some (arenas s !! t)).
  { intros p Ep Hp. apply (c_arenas s Hs). by rewrite Ep. }
  unfold step in H. destruct (pcs s !! t) as [p|] eqn:Ep; [|done].
  destruct p, a; try done; unfold register_arena, unregister_arena, safe_point, command_finished, begin_collection,
    enter_collecting_state, finish_collection_inner, finish_postcondition, try_coordination, after_command, start_send, start_await,
    await_arena, map_result, enqueue_command, check_command, safe_point, when, go in H.
  all: try (by repeat (step_case; simplify_eq)).
  - pose proof (k_exec s Hk _ _ _ Ep) as Hx. unfold pending in Hx. rewrite Hx in H. by destruct (arenas_free s).
  - rewrite (Hstw _ eq_refl eq_refl) in H. simpl in H.
    rewrite (idle_no_pending s t _ Hs Hk Ep eq_refl) in H by (by intros ? ? ?). by destruct (_ && _).
  - destruct (Hown _ eq_refl eq_refl) as [o Ho]. rewrite Ho in H. by destruct (arenas_free s).
  - destruct todo as [|u todo]; [by destruct mine, (arenas_free s)|].
    destruct (arenas s !! u) as [[c'|]|] eqn:Eu; [|by destruct (command_free s u)|done].
    destruct (k_pending s Hk u c' Eu) as (t' & q & Eq & _ & Haw).
    rewrite (coordination_unique s t' t _ _ Hs Eq Ep (awaited_holds _ _ _ Haw) eq_refl), Ep in Eq. injection Eq as <-.
    simpl in Haw. set_solver.
  - destruct (arenas s !! t) as [[c'|]|] eqn:Et; [|by destruct c as [[]|], (arenas_free s)..].
    destruct (k_pending s Hk t c' Et) as (t' & q & Eq & Hne & Haw). destruct Hne.
    by rewrite (coordination_unique s t' t _ _ Hs Eq Ep (awaited_holds _ _ _ Haw) eq_refl).
  - rewrite (Hstw _ eq_refl eq_refl) in H. simpl in H.
    rewrite (idle_no_pending s t _ Hs Hk Ep eq_refl) in H by (by intros ? ? ?). by destruct (_ && _).
  - rewrite (Hstw _ eq_refl eq_refl) in H. simpl in H.
    rewrite (idle_no_pending s t _ Hs Hk Ep eq_refl) in H by (by intros ? ? ?). by destruct (_ && _).
Qed.

(** The command a collector has its arenas execute. *)
Definition serving (p : pc) : option GCCommand :=
  match p with GcSend c _ _ | GcSelf c | GcAwait c _ | GcAsleep c _ _ => Some c | _ => None end.

Lemma awaited_serving p u c : awaited p u c -> serving p = Some c.
Proof. destruct p; simpl; naive_solver. Qed.

(** C4.  A thread executes a command only inside a collection, and all threads that
    execute one at the same time execute the same: the one the only collector has sent
    and waits for.  In particular no arena is swept while another is still being
    marked. *)
Theorem one_phase_at_a_time s u r c :
  reachable s -> pcs s !! u = Some (SpExec r c) ->
  stw_in_progress s = true /\
  exists t p, pcs s !! t = Some p /\ t <> u /\ serving p = Some c /\
    (forall t' p', pcs s !! t' = Some p' -> holds_coordination p' = true -> t' = t) /\
    (forall v r' c', pcs s !! v = Some (SpExec r' c') -> c' = c).
Proof.
  intros Hr E. pose proof (reachable_consistent s Hr) as Hs. pose proof (reachable_commands s Hr) as Hk.
  destruct (k_pending s Hk u c (k_exec s Hk _ _ _ E)) as (t & p & Ep & Hne & Haw). split.
  - apply (c_stw s Hs). exists t. rewrite Ep. by destruct p.
  - exists t, p. split; [done|]. split; [done|]. split; [by eapply awaited_serving|]. split.
    + intros t' p' Ep' Hh. exact (coordination_unique s t' t _ _ Hs Ep' Ep Hh (awaited_holds _ _ _ Haw)).
    + intros v r' c' Ev. destruct (k_pending s Hk v c' (k_exec s Hk _ _ _ Ev)) as (t' & q & Eq & _ & Haw').
      rewrite (coordination_unique s t' t _ _ Hs Eq Ep (awaited_holds _ _ _ Haw') (awaited_holds _ _ _ Haw)), Ep in Eq.
      injection Eq as <-. apply awaited_serving in Haw, Haw'. congruence.
Qed.

(** ** The pause *)

(** A thread that waits in its safe point. *)
Definition parked (p : pc) : bool := match p with SpLeave _ => false | p => is_counted p end.

#[local] Instance parked_unwoken : Unwoken parked. Proof. solve_unwoken. Qed.

(** A collector between its check and the withdrawal of the stop. *)
Definition pausing (p : pc) : bool :=
  match p with
  | GcStopped | GcSend _ _ _ | GcSelf _ | GcAwait _ _ | GcAsleep _ _ _ | GcRounds | GcFinish | GcFinished | GcUnlock | GcResume => true
  | _ => false
  end.

(** All threads but the collector [c] are parked. *)
Definition stopped (c : nat) (s : state) : Prop :=
  gc_stop_requested s = true /\
  (exists p, pcs s !! c = Some p /\ pausing p = true) /\
  forall u, u <> c -> is_Some (pcs s !! u) -> cls parked (pcs s !! u) = true.

(** A step of a thread, during which [c] remains in its pause. *)
Definition pause_step (c : nat) (s s' : state) : Prop :=
  (exists t a, step t a s = Some (Val s')) /\ cls pausing (pcs s' !! c) = true.

Lemma pausing_keeps_stop c p a s s' :
  pcs s !! c = Some p -> pausing p = true -> step c a s = Some (Val s') -> cls pausing (pcs s' !! c) = true ->
  gc_stop_requested s' = gc_stop_requested s.
Proof.
  intros Ep Hp H Hp'. step_inv H; fields; try done. rewrite lookup_insert_eq in Hp'. done.
Qed.

(** A parked thread stays parked while the stop is requested. *)
Lemma parked_stays u p a s s' :
  consistent s -> pcs s !! u = Some p -> parked p = true -> gc_stop_requested s = true ->
  step u a s = Some (Val s') -> cls parked (pcs s' !! u) = true /\ gc_stop_requested s' = true.
Proof.
  intros Hs Ep Hp Hstop H.
  assert (Har : is_Some (arenas s !! u)) by (apply (c_arenas s Hs); rewrite Ep; by destruct p).
  unfold step in H. rewrite Ep in H. destruct p; try done; destruct a; try done.
  all: unfold check_command, command_finished, when, go in H; rewrite ?Hstop in H; destruct Har as [o Ho]; rewrite ?Ho in H.
  all: repeat (step_case; simplify_eq); simplify_eq; fields; by rewrite ?lookup_insert_eq.
Qed.

Lemma stopped_step c s s' : consistent s -> stopped c s -> pause_step c s s' -> stopped c s'.
Proof.
  intros Hs (Hstop & (p & Ep & Hp) & Hall) ((t & a & H) & Hp'). unfold stopped.
  assert (Hpres : forall x, is_Some (pcs s' !! x) -> is_Some (pcs s !! x)).
  { intros x. destruct (decide (x = t)) as [->|Hne].
    - destruct (step_present _ _ _ _ H) as [q ->]. eauto.
    - destruct (step_others t a s s' x H Hne); [eauto | done]. }
  assert (Hc : exists p, pcs s' !! c = Some p /\ pausing p = true).
  { destruct (pcs s' !! c) as [q|]; [eauto | done]. }
  destruct (decide (t = c)) as [->|Hne].
  - split; [by rewrite (pausing_keeps_stop c p a s s' Ep Hp H Hp')|]. split; [done|].
    intros u Hu Hsome. rewrite (cls_others parked c a s s' u H Hu). auto.
  - destruct (step_present _ _ _ _ H) as [q Eq]. pose proof (Hall t Hne ltac:(eauto)) as Hpk. rewrite Eq in Hpk.
    destruct (parked_stays t q a s s' Hs Eq Hpk Hstop H) as [Hpk' Hstop']. split; [done|]. split; [done|].
    intros u Hu Hsome. destruct (decide (u = t)) as [->|Hut]; [done|].
    rewrite (cls_others parked t a s s' u H Hut). auto.
Qed.

Lemma size_threads s : consistent s -> size (threads s) = size (pcs s).
Proof.
  intros Hs. rewrite <- !size_dom. f_equal. apply leibniz_equiv, set_equiv. intros t. rewrite !elem_of_dom.
  symmetry. apply (c_threads s Hs).
Qed.

Lemma count_le_1 p : count_of p <= 1.
Proof. unfold count_of. destruct (is_counted p); simpl; lia. Qed.

Lemma size_delete_present {A} (m : gmap nat A) i a : m !! i = Some a -> size m = S (size (delete i m)).
Proof. intros H. rewrite <- (insert_delete_id m i a H) at 1. by rewrite map_size_insert_None by apply lookup_delete_eq. Qed.

(** A count that leaves out only the collector counts everyone else. *)
Lemma all_counted s c p :
  pcs s !! c = Some p -> is_counted p = false -> Z.of_nat (size (pcs s)) - 1 <= total s ->
  forall u q, u <> c -> pcs s !! u = Some q -> is_counted q = true.
Proof.
  intros Ep Hp Ht u q Hu Eq. destruct (is_counted q) eqn:Hq; [done|]. exfalso. revert Ht. unfold total.
  assert (Eq' : delete c (pcs s) !! u = Some q) by (by rewrite lookup_delete_ne).
  rewrite (map_sum_delete count_of _ c p Ep), (map_sum_delete count_of _ u q Eq'). unfold count_of at 1 2. rewrite Hp, Hq.
  pose proof (map_sum_size count_of (delete u (delete c (pcs s))) (fun _ a _ => count_le_1 a)) as Hsz.
  pose proof (size_delete_present (pcs s) c p Ep). pose proof (size_delete_present (delete c (pcs s)) u q Eq').
  cbn [Z.b2z]. lia.
Qed.

(**  When a collector passes its check with the stop requested, the number of
    threads it compares with up to date, and no thread still on its way out of the
    previous pause, then every other registered thread is parked in its safe point, and
    stays there until the collector withdraws the stop, whatever the threads do; no
    thread is registered meanwhile.  (Without the last two conditions the pause does
    not hold: see [stale_count_breaks_pause].) *)
Theorem pause_holds s c target s1 s2 :
  reachable s -> pcs s !! c = Some (GcCheck target) ->
  step c Next s = Some (Val s1) -> pcs s1 !! c = Some GcStopped ->
  (size (threads s) <= S target)%nat -> gc_stop_requested s = true ->
  (forall u r, pcs s !! u <> Some (SpLeave r)) ->
  rtc (pause_step c) s1 s2 ->
  forall u, u <> c -> is_Some (threads s2 !! u) -> exists p, pcs s2 !! u = Some p /\ parked p = true.
Proof.
  intros Hr Ep H Ep1 Hsz Hstop Hleave Hsteps. pose proof (reachable_consistent s Hr) as Hs.
  pose proof (consistent_step c Next s s1 Hs H) as Hs1.
  assert (Hstart : stopped c s1).
  { unfold step in H. rewrite Ep in H. destruct (Z.leb_spec (Z.of_nat target) (threads_at_safepoint s)) as [Hle|];
      injection H as <-; fields; rewrite lookup_insert_eq in Ep1; [|done].
    split; [done|]. split; [fields; rewrite lookup_insert_eq; eauto|].
    intros u Hu. fields. rewrite lookup_insert_ne by done. intros [q Eq]. rewrite Eq. cbn [cls].
    rewrite (c_count s Hs) in Hle. rewrite (size_threads s Hs) in Hsz.
    pose proof (all_counted s c _ Ep eq_refl ltac:(lia) u q Hu Eq) as Hq. destruct q; try done. by destruct (Hleave u r). }
  assert (Hend : consistent s2 /\ stopped c s2).
  { revert Hsteps. apply (invariant_rtc (pause_step c) (fun s => consistent s /\ stopped c s)); [|done].
    intros x y Hxy [Hx1 Hx2]. split; [destruct Hxy as [(t & a & Hta) _]; by eapply consistent_step | by eapply stopped_step]. }
  destruct Hend as [Hs2 (_ & _ & Hall)]. intros u Hu Hin. apply (c_threads s2 Hs2) in Hin.
  specialize (Hall u Hu Hin). destruct Hin as [p Ep2]. rewrite Ep2 in Hall. eauto.
Qed.
