(* ===== verification/PauseRaces.v ===== *)
(** * Executions of the pauses

    Executions of the protocol of [Stw] in which its guarantees fail, and the progress
    of a command once it is sent. *)

From Stdlib Require Import ZArith Lia.
From stdpp Require Import base tactics list option sets gmap.
From S2P Require Import Prelude Stw Pauses.

Lemma play_reachable ls s s' : reachable s -> play ls s = Some s' -> reachable s'.
Proof.
  revert s. induction ls as [|l ls IH]; intros s Hs; simpl; [by intros [= <-]|].
  destruct (perform l s) as [[s1|[]|]|] eqn:E; try done. apply IH. eapply rtc_r; [exact Hs|]. by econstructor.
Qed.

(** ** Two threads *)

Definition nexts (t k : nat) : list label := repeat (Do t Next) k.

Definition two_threads : list label := [Spawn; Do 1 Next; Spawn; Do 2 Next].

(** Thread [t] takes the collection lock and requests a stop. *)
Definition request (t : nat) : list label := Do t Collect :: nexts t 2.

(** Thread [t] is counted at its safe point. *)
Definition park (t : nat) : list label := Do t Poll :: nexts t 2.

(** Thread 1 sends a command to thread 2, which executes it. *)
Definition serve : list label := nexts 1 2 ++ nexts 2 3 ++ nexts 1 2.

(** Thread 1 collects, up to the end of the sweep. *)
Definition collection : list label :=
  request 1 ++ park 2 ++ nexts 1 4 ++ serve ++ nexts 1 1 ++ [Do 1 EndRounds] ++ serve ++ nexts 1 1 ++ serve ++ nexts 1 3.

(** Thread 1 withdraws the stop, notifies and releases its locks. *)
Definition resume : list label := nexts 1 7.

Definition state_after (ls : list label) : state := default init (play ls init).

Lemma reachable_after ls : is_Some (play ls init) -> reachable (state_after ls).
Proof. intros [s Hs]. unfold state_after. rewrite Hs. simpl. eapply play_reachable; [apply rtc_refl | exact Hs]. Qed.

(**  A collector can pass its check while a thread that was released from the
    previous pause is still counted: that thread then runs managed code, registered and
    unparked, during the pause. *)
Theorem stale_count_breaks_pause :
  exists s c t, reachable s /\ gc_stop_requested s = true /\ pcs s !! c = Some GcStopped /\
    threads s !! t = Some TRunning /\ pcs s !! t = Some Running.
Proof.
  exists (state_after (two_threads ++ collection ++ resume ++ nexts 2 2 ++ request 1 ++ nexts 1 3 ++ nexts 2 2)), 1%nat, 2%nat.
  split; [apply reachable_after; vm_compute; eauto|]. vm_compute. done.
Qed.

(** ** The lost resumption *)

(** A thread outside of every collection. *)
Definition idle (p : pc) : bool :=
  match p with
  | Registering | Running | Exiting => true
  | p => match in_safe_point p with Some (FromRun, _) => true | _ => false end
  end.

(** A transition in which no thread starts a collection. *)
Definition quiet (s s' : state) : Prop :=
  exists l, (forall t, l <> Do t Collect) /\ perform l s = Some (Val s').

Definition all_idle (s : state) : Prop := forall u p, pcs s !! u = Some p -> idle p = true.

Lemma idle_step t a s s' :
  all_idle s -> a <> Collect -> step t a s = Some (Val s') ->
  cls idle (pcs s' !! t) = true \/ pcs s' !! t = None.
Proof.
  intros Hs Ha H. destruct (step_present t a s s' H) as [p Ep]. specialize (Hs t p Ep). step_inv H; try done;
    fields; rewrite ?lookup_insert_eq, ?lookup_delete_eq, ?Ep; auto;
    try match goal with r : caller_of |- _ => destruct r; by auto end.
  rewrite E. auto.
Qed.

(** Without a collector nobody is woken. *)
Lemma idle_others t a s s' x :
  all_idle s -> a <> Collect -> step t a s = Some (Val s') -> x <> t -> pcs s' !! x = pcs s !! x.
Proof.
  intros Hs Ha H Hx. destruct (step_present t a s s' H) as [p0 Ep0]. pose proof (Hs t p0 Ep0) as Hi.
  assert (Hw : forall u, wake_awaiting u <$> pcs s = pcs s).
  { intros u. apply map_eq. intros y. rewrite lookup_fmap. destruct (pcs s !! y) as [q0|] eqn:Ey; [|done].
    simpl. f_equal. pose proof (Hs y q0 Ey). by destruct q0. }
  step_inv H; try done; fields; by rewrite ?Hw, ?lookup_insert_ne, ?lookup_delete_ne by done.
Qed.

Lemma asleep_stays t r s s' :
  consistent s -> pcs s !! t = Some (SpAsleep r) /\ all_idle s -> quiet s s' -> pcs s' !! t = Some (SpAsleep r) /\ all_idle s'.
Proof.
  intros Hs [Ht Hidle] ([|x a] & Hl & H); simpl in H.
  - injection H as H. unfold spawn in H. destruct (_ && _); [|done]. injection H as <-. fields. split.
    + rewrite lookup_insert_ne; [done|]. intros E. pose proof (c_ids s Hs t ltac:(eauto)). lia.
    + intros u p. fields. rewrite lookup_insert_Some. intros [[_ <-] | [_ E]]; [done | by eapply Hidle].
  - assert (Ha : a <> Collect) by (intros ->; by destruct (Hl x)).
    assert (Hx : t <> x). { intros ->. unfold step in H. rewrite Ht in H. by destruct a. }
    split; [by rewrite (idle_others x a s s' t Hidle Ha H Hx)|].
    intros u p E. destruct (decide (u = x)) as [->|Hu].
    + destruct (idle_step x a s s' Hidle Ha H) as [Hi|Hi]; rewrite E in Hi; done.
    + rewrite (idle_others x a s s' u Hidle Ha H Hu) in E. by eapply Hidle.
Qed.

Definition missed_resume : list label := two_threads ++ collection ++ nexts 2 2 ++ resume ++ nexts 2 1.

Lemma missed_resume_state :
  exists s, play missed_resume init = Some s /\ gc_stop_requested s = false /\ collection_lock s = None /\
    map_to_list (pcs s) = [(2%nat, SpAsleep FromRun); (1%nat, Running)].
Proof. eexists. split; [vm_compute; reflexivity|]. done. Qed.

(**  The wakeup of a resumption can be lost: a thread that has read the stop flag
    and found no command, but does not wait yet, misses the notification.  It then
    sleeps in its safe point although the stop is withdrawn and nobody collects, and
    sleeps on, whatever the threads do, until some thread starts another collection. *)
Theorem resume_wakeup_lost :
  exists s t, reachable s /\ gc_stop_requested s = false /\ collection_lock s = None /\
    pcs s !! t = Some (SpAsleep FromRun) /\
    forall s', rtc quiet s s' -> pcs s' !! t = Some (SpAsleep FromRun).
Proof.
  destruct missed_resume_state as (s & Hplay & Hstop & Hlock & Hl).
  assert (Hr : reachable s) by (eapply play_reachable; [apply rtc_refl | exact Hplay]). clear Hplay.
  assert (Ht : pcs s !! 2%nat = Some (SpAsleep FromRun)) by (apply elem_of_map_to_list; rewrite Hl; by left).
  assert (Hidle : all_idle s).
  { intros u p E. apply elem_of_map_to_list in E. rewrite Hl in E.
    apply elem_of_cons in E as [[= -> ->] | [= -> ->]%list_elem_of_singleton]; done. }
  exists s, 2%nat. split; [done|]. do 3 (split; [done|]).
  intros s' Hq. enough (H : consistent s' /\ pcs s' !! 2%nat = Some (SpAsleep FromRun) /\ all_idle s') by tauto.
  revert Hq. apply (invariant_rtc quiet (fun s => consistent s /\ pcs s !! 2%nat = Some (SpAsleep FromRun) /\ all_idle s));
    [|split; [by apply reachable_consistent | done]].
  intros x y Hxy [Hx1 Hx2]. split; [|by eapply asleep_stays]. destruct Hxy as ([|u a] & _ & H); simpl in H.
  - injection H as H. by eapply consistent_spawn.
  - by eapply consistent_step.
Qed.

(** ** The lost stop *)

(** A thread that runs, or comes or goes. *)
Definition outside (p : pc) : bool := match p with Registering | Running | Exiting => true | _ => false end.

(** The collector [c] waits for a stop that nobody is asked for; [u] is a thread that
    does not exit. *)
Record waits_in_vain (c u : nat) (s : state) : Prop := {
  w_ne : u <> c;
  w_stop : gc_stop_requested s = false;
  w_collector : exists p, pcs s !! c = Some p /\ (p = GcCount \/ exists k, p = GcCheck (S k));
  w_other : pcs s !! u = Some Running;
  w_outside : forall x p, x <> c -> pcs s !! x = Some p -> outside p = true;
}.

Lemma vain_count c u s : consistent s -> waits_in_vain c u s -> threads_at_safepoint s = 0.
Proof.
  intros Hs [Hne Hstop (p & Ep & Hp) Hu Hout]. rewrite (c_count s Hs). unfold total.
  assert (Hall : forall x q, pcs s !! x = Some q -> count_of q = 0).
  { intros x q Eq. destruct (decide (x = c)) as [->|Hx].
    - rewrite Ep in Eq. injection Eq as <-. by destruct Hp as [-> | [k ->]].
    - specialize (Hout x q Hx Eq). by destruct q. }
  clear -Hall. induction (pcs s) as [|i q m Hi IH] using map_ind; [apply map_sum_empty|].
  rewrite (map_sum_insert count_of) by done. rewrite (Hall i q) by apply lookup_insert_eq. apply IH.
  intros x q' Eq. apply (Hall x q'). rewrite lookup_insert_ne; [done | congruence].
Qed.

Lemma vain_target c u s : consistent s -> waits_in_vain c u s -> exists k, target_stopped s c = S k.
Proof.
  intros Hs Hw. destruct (w_collector c u s Hw) as (p & Ep & _). unfold target_stopped.
  assert (Hc : is_Some (threads s !! c)) by (apply (c_threads s Hs); eauto). rewrite bool_decide_true by done.
  rewrite (size_threads s Hs), (size_delete_present (pcs s) c p Ep).
  rewrite (size_delete_present (delete c (pcs s)) u Running) by (rewrite lookup_delete_ne; [apply Hw | by destruct Hw]).
  exists (size (delete u (delete c (pcs s)))). lia.
Qed.

(** Any transition but the exit of [u]. *)
Definition stays (u : nat) (s s' : state) : Prop := exists l, l <> Do u Exit /\ perform l s = Some (Val s').

Lemma vain_collector c u a s s' :
  consistent s -> waits_in_vain c u s -> step c a s = Some (Val s') -> waits_in_vain c u s'.
Proof.
  intros Hs Hw H. pose proof (vain_count c u s Hs Hw) as Hcount. destruct (vain_target c u s Hs Hw) as [k Hk].
  destruct Hw as [Hne Hstop (p & Ep & Hp) Hu Hout]. unfold step in H. rewrite Ep in H.
  destruct Hp as [-> | [j ->]]; destruct a; try done.
  - injection H as <-. rewrite Hk. split; fields; rewrite ?lookup_insert_ne by done; try done.
    + eexists. rewrite lookup_insert_eq. eauto.
    + intros x p Hx. rewrite lookup_insert_ne by done. eauto.
  - rewrite Hcount in H. destruct (Z.leb_spec (Z.of_nat (S j)) 0); [lia|]. injection H as <-.
    split; fields; rewrite ?lookup_insert_ne by done; try done.
    + eexists. rewrite lookup_insert_eq. eauto.
    + intros x p Hx. rewrite lookup_insert_ne by done. eauto.
Qed.

Lemma vain_other c u t a s s' :
  consistent s -> waits_in_vain c u s -> t <> c -> Do t a <> Do u Exit -> step t a s = Some (Val s') ->
  waits_in_vain c u s'.
Proof.
  intros Hs Hv Htc Hl H. pose proof Hv as [Hne Hstop (p & Ep & Hp) Hu Hout].
  destruct (step_present t a s s' H) as [q Eq]. pose proof (Hout t q Htc Eq) as Hq.
  assert (Hlock : collection_lock s = Some c).
  { apply (c_collection s Hs). rewrite Ep. by destruct Hp as [-> | [? ->]]. }
  assert (Hw : forall v, wake_awaiting v <$> pcs s = pcs s).
  { intros v. apply map_eq. intros y. rewrite lookup_fmap. destruct (pcs s !! y) as [q0|] eqn:Ey; [|done]. simpl. f_equal.
    destruct (decide (y = c)) as [->|Hy]; [rewrite Ep in Ey; injection Ey as <-; by destruct Hp as [-> | [? ->]]|].
    pose proof (Hout y q0 Hy Ey). by destruct q0. }
  assert (Hcase : s' = s \/ t <> u /\ gc_stop_requested s' = false /\
    (pcs s' = delete t (pcs s) \/ exists q', outside q' = true /\ pcs s' = <[t := q']> (pcs s))).
  { unfold step in H. rewrite Eq in H. destruct q; try done; destruct a; try done;
      unfold register_arena, unregister_arena, safe_point, begin_collection, when, go in H; rewrite ?Hstop, ?Hlock in H.
    all: repeat (step_case; simplify_eq); simplify_eq; fields; rewrite ?Hw; auto; right.
    all: (split; [congruence|]; split; [done|]); first [left; reflexivity | right; eexists; split; [|reflexivity]; reflexivity]. }
  destruct Hcase as [-> | (Htu & Hstop' & Hpcs)]; [done|].
  assert (Hothers : forall x, x <> t -> pcs s' !! x = pcs s !! x).
  { intros x Hx. destruct Hpcs as [-> | (q' & _ & ->)]; [by rewrite lookup_delete_ne | by rewrite lookup_insert_ne]. }
  split; [done | done | | by rewrite Hothers |].
  - exists p. by rewrite Hothers.
  - intros x p' Hx E. destruct (decide (x = t)) as [->|Hxt]; [|rewrite Hothers in E by done; eauto].
    destruct Hpcs as [Hd | (q' & Hq' & Hd)]; rewrite Hd in E; [by rewrite lookup_delete_eq in E|].
    rewrite lookup_insert_eq in E. by injection E as <-.
Qed.

Lemma vain_step c u s s' : consistent s -> waits_in_vain c u s -> stays u s s' -> waits_in_vain c u s'.
Proof.
  intros Hs Hv ([|t a] & Hl & H); simpl in H.
  - destruct Hv as [Hne Hstop (p & Ep & Hp) Hu Hout]. injection H as H. unfold spawn in H.
    assert (Hold : forall x, is_Some (pcs s !! x) -> next_id s <> x).
    { intros x Hx <-. pose proof (c_ids s Hs _ Hx). lia. }
    destruct (_ && _); [|done]. injection H as <-. split; fields; rewrite ?lookup_insert_ne by eauto; try done.
    + exists p. done.
    + intros x p' Hx. rewrite lookup_insert_Some. intros [[_ <-] | [_ E]]; [done | eauto].
  - destruct (decide (t = c)) as [->|Htc]; [by eapply vain_collector | by eapply vain_other].
Qed.

(** Thread 2 is created during a pause of thread 1, starts a collection when the first
    one has released the collection lock, and requests its stop before thread 1
    withdraws its own. *)
Definition lost_stop : list label :=
  [Spawn; Do 1 Next] ++ request 1 ++ nexts 1 7 ++ [Do 1 EndRounds] ++ nexts 1 9 ++
  [Spawn; Do 2 Next] ++ request 2 ++ nexts 1 6 ++ nexts 2 1.

Lemma lost_stop_state :
  exists s, play lost_stop init = Some s /\ gc_stop_requested s = false /\
    map_to_list (pcs s) = [(2%nat, GcCount); (1%nat, Running)].
Proof. eexists. split; [vm_compute; reflexivity|]. done. Qed.

(**  The request of a stop can be lost: when the collector of a finished pause
    withdraws its stop after the next collector has requested its own, the latter
    waits for threads that are not asked to stop, and never gets any further, whatever
    the threads do, while some other thread does not exit. *)
Theorem stop_request_lost :
  exists s c u, reachable s /\ collection_lock s = Some c /\ pcs s !! u = Some Running /\ u <> c /\
    forall s', rtc (stays u) s s' ->
      gc_stop_requested s' = false /\ exists p, pcs s' !! c = Some p /\ (p = GcCount \/ exists k, p = GcCheck k).
Proof.
  destruct lost_stop_state as (s & Hplay & Hstop & Hl).
  assert (Hr : reachable s) by (eapply play_reachable; [apply rtc_refl | exact Hplay]). clear Hplay.
  pose proof (reachable_consistent s Hr) as Hs.
  assert (E1 : pcs s !! 1%nat = Some Running) by (apply elem_of_map_to_list; rewrite Hl; right; by left).
  assert (E2 : pcs s !! 2%nat = Some GcCount) by (apply elem_of_map_to_list; rewrite Hl; by left).
  exists s, 2%nat, 1%nat. split; [done|]. split; [apply (c_collection s Hs); by rewrite E2|]. do 2 (split; [done|]).
  intros s' Hq. enough (H : consistent s' /\ waits_in_vain 2 1 s').
  { destruct H as [_ [_ ? (p & ? & Hp) _ _]]. split; [done|]. exists p. naive_solver. }
  revert Hq. apply (invariant_rtc (stays 1) (fun s => consistent s /\ waits_in_vain 2 1 s)).
  - intros x y Hxy [Hx1 Hx2]. split; [|by eapply vain_step]. destruct Hxy as ([|u a] & _ & H); simpl in H.
    + injection H as H. by eapply consistent_spawn.
    + by eapply consistent_step.
  - split; [done|]. split; [done | done | eauto | done |]. intros x p Hx E. apply elem_of_map_to_list in E. rewrite Hl in E.
    apply elem_of_cons in E as [[= -> ->] | [= -> ->]%list_elem_of_singleton]; done.
Qed.

(** ** Progress of a command *)

(** The steps thread [u] takes in an execution. *)
Fixpoint steps_of (u : nat) (ls : list label) : nat :=
  match ls with
  | [] => 0
  | Do t _ :: ls => if decide (t = u) then S (steps_of u ls) else steps_of u ls
  | Spawn :: ls => steps_of u ls
  end.

(** How many steps of its own a parked thread needs to execute a pending command. *)
Definition rank (p : pc) : nat :=
  match p with SpExec _ _ => 1 | SpCheck _ => 2 | _ => 3 end.

(** A parked thread with a command, during a requested stop. *)
Record commanded (u : nat) (s : state) : Prop := {
  cd_reach : reachable s;
  cd_stop : gc_stop_requested s = true;
  cd_pending : exists c, pending s u c;
  cd_parked : cls parked (pcs s !! u) = true;
}.

(** The collector that waits for [u] is the only one to hold the coordination lock. *)
Lemma commanded_collector u s :
  commanded u s -> exists t p, pcs s !! t = Some p /\ t <> u /\ (exists c, awaited p u c) /\
    forall t' p', pcs s !! t' = Some p' -> holds_coordination p' = true -> t' = t.
Proof.
  intros [Hr _ [c Hc] _]. pose proof (reachable_consistent s Hr) as Hs.
  destruct (k_pending s (reachable_commands s Hr) u c Hc) as (t & p & Ep & Hne & Haw).
  exists t, p. split; [done|]. split; [done|]. split; [eauto|].
  intros t' p' Ep' Hh. exact (coordination_unique s t' t _ _ Hs Ep' Ep Hh (awaited_holds _ _ _ Haw)).
Qed.

Lemma commanded_arenas_free u s : commanded u s -> arenas_free s = true.
Proof.
  intros Hc. destruct (commanded_collector u s Hc) as (t & p & Ep & _ & [c Haw] & Huniq).
  unfold arenas_free. destruct (arenas_lock s) as [x|] eqn:E; [|done].
  apply (c_arenas_lock s (reachable_consistent s (cd_reach u s Hc))) in E.
  destruct (pcs s !! x) as [q|] eqn:Eq; [|done]. assert (x = t) as ->.
  { apply (Huniq x q Eq). by destruct q. }
  rewrite Ep in Eq. injection Eq as ->. by destruct q.
Qed.

Lemma commanded_stop u t a s s' :
  commanded u s -> step t a s = Some (Val s') -> gc_stop_requested s' = true.
Proof.
  intros Hc H. destruct (commanded_collector u s Hc) as (x & p & Ep & _ & [c Haw] & Huniq). pose proof (cd_stop u s Hc).
  assert (E : pcs s !! t <> Some GcResume).
  { intros E. rewrite (Huniq t _ E eq_refl), Ep in E. by injection E as ->. }
  step_inv H; done.
Qed.

(** The step of the thread itself. *)
Lemma commanded_own u s :
  commanded u s -> exists s', step u Next s = Some (Val s') /\
    (arenas s' !! u = Some None \/
     commanded u s' /\ exists p p', pcs s !! u = Some p /\ pcs s' !! u = Some p' /\ (rank p' < rank p)%nat).
Proof.
  intros Hcd. pose proof (commanded_arenas_free u s Hcd) as Hfree. destruct Hcd as [Hr Hstop [c Hc] Hpk].
  pose proof (k_awake s (reachable_commands s Hr) u c) as Hawake. specialize (fun r => Hawake r Hc). unfold pending in Hc.
  destruct (pcs s !! u) as [p|] eqn:Ep; [|done].
  assert (Hgo : forall q, rank q = 2%nat \/ rank q = 1%nat -> (rank q < rank p)%nat -> parked q = true ->
    step u Next s = Some (Val (set_pc s u q)) ->
    exists s', step u Next s = Some (Val s') /\
    (arenas s' !! u = Some None \/
     commanded u s' /\ exists p0 p', Some p = Some p0 /\ pcs s' !! u = Some p' /\ (rank p' < rank p0)%nat)).
  { intros q _ Hlt Hq H. exists (set_pc s u q). split; [done|]. right. split.
    - split; [eapply rtc_r; [done|]; by apply (trans_intro (Do u Next)) | done | by exists c |]. fields. by rewrite lookup_insert_eq.
    - exists p, q. fields. by rewrite lookup_insert_eq. }
  unfold step in *. rewrite Ep in *. destruct p; try done.
  - rewrite Hfree, Hc in *. by apply (Hgo (SpCheck r)); [auto | simpl; lia | | ].
  - unfold check_command in *. rewrite Hstop, Hc in *. by apply (Hgo (SpExec r c)); [auto | simpl; lia | | ].
  - by destruct (Hawake r).
  - by destruct (Hawake r).
  - by apply (Hgo (SpCheck r)); [auto | simpl; lia | | ].
  - unfold command_finished. rewrite Hfree, Hc. eexists. split; [reflexivity|]. left. fields. by rewrite lookup_insert_eq.
Qed.

(** The steps of the others. *)
Lemma commanded_other u l s s' p :
  commanded u s -> pcs s !! u = Some p -> (forall a, l <> Do u a) -> perform l s = Some (Val s') ->
  commanded u s' /\ pcs s' !! u = Some p.
Proof.
  intros Hcd Ep Hl H. assert (Hr' : reachable s') by (eapply rtc_r; [apply Hcd | by econstructor]).
  destruct l as [|t a]; simpl in H.
  - injection H as H. pose proof (c_ids s (reachable_consistent s (cd_reach u s Hcd)) u ltac:(eauto)).
    destruct Hcd as [_ Hstop [c Hc] Hpk]. unfold spawn in H. destruct (_ && _); [|done]. injection H as <-.
    assert (E : next_id s <> u) by lia.
    split; [split; [done | done | by exists c |]|]; fields; by rewrite lookup_insert_ne.
  - assert (Hne : u <> t) by (intros ->; by destruct (Hl a)).
    pose proof (commanded_stop u t a s s' Hcd H) as Hstop. destruct (cd_pending u s Hcd) as [c Hc].
    pose proof (k_awake s (reachable_commands s (cd_reach u s Hcd)) u c) as Hawake.
    assert (Ep' : pcs s' !! u = Some p).
    { pose proof (step_others t a s s' u H Hne) as Hw. rewrite Ep in Hw. inversion Hw as [? q Hpq E1 E2|]; subst.
      f_equal. pose proof (cd_parked u s Hcd) as Hpk. rewrite Ep in Hpk. destruct Hpq as [| r |]; [done | | done].
      by destruct (Hawake r Hc). }
    split; [|done]. split; [done | done | exists c; by eapply pending_kept |]. rewrite Ep'. rewrite <- Ep. apply Hcd.
Qed.

Lemma commanded_run u ls s s' p :
  commanded u s -> pcs s !! u = Some p -> play ls s = Some s' -> (rank p <= steps_of u ls)%nat ->
  exists ls1 ls2 s1, ls = ls1 ++ ls2 /\ play ls1 s = Some s1 /\ arenas s1 !! u = Some None.
Proof.
  revert s p. induction ls as [|l ls IH]; intros s p Hcd Ep Hplay Hrank; simpl in *.
  - destruct p; simpl in Hrank; lia.
  - destruct (perform l s) as [[s0|[]|]|] eqn:Hl; try done.
    assert (Hcons : forall s1 ls1 ls2, ls = ls1 ++ ls2 -> play ls1 s0 = Some s1 -> arenas s1 !! u = Some None ->
      exists ls1 ls2 s1, l :: ls = ls1 ++ ls2 /\ play ls1 s = Some s1 /\ arenas s1 !! u = Some None).
    { intros s1 ls1 ls2 -> H1 H2. exists (l :: ls1), ls2, s1. simpl. by rewrite Hl. }
    assert (Hu : (exists a, l = Do u a) \/ (forall a, l <> Do u a)).
    { destruct l as [|t a]; [by right|]. destruct (decide (t = u)) as [->|]; [eauto | right; congruence]. }
    destruct Hu as [[a ->] | Hu].
    + simpl in Hl. rewrite decide_True in Hrank by done.
      assert (a = Next) as ->.
      { unfold step in Hl. rewrite Ep in Hl. pose proof (cd_parked u s Hcd) as Hpk. rewrite Ep in Hpk.
        destruct p; try done; by destruct a. }
      destruct (commanded_own u s Hcd) as (s2 & Hs2 & Hcase). rewrite Hs2 in Hl. injection Hl as ->.
      destruct Hcase as [Hdone | (Hcd' & p0 & p' & Ep0 & Ep' & Hlt)].
      * by apply (Hcons s0 [] ls).
      * rewrite Ep in Ep0. injection Ep0 as <-. destruct (IH s0 p' Hcd' Ep' Hplay) as (ls1 & ls2 & s1 & H1 & H2 & H3); [lia|].
        by apply (Hcons s1 ls1 ls2).
    + destruct (commanded_other u l s s0 p Hcd Ep Hu Hl) as [Hcd' Ep'].
      destruct (IH s0 p Hcd' Ep' Hplay) as (ls1 & ls2 & s1 & H1 & H2 & H3).
      { destruct l as [|t a]; [done|]. destruct (decide (t = u)) as [->|]; [by destruct (Hu a) | done]. }
      by apply (Hcons s1 ls1 ls2).
Qed.

(** C5.  A command that is pending for a parked thread while the stop is requested is
    executed: the thread is never blocked, and in every execution in which it takes
    three steps of its own, whatever the other threads do in between, the command is
    finished on the way. *)
Theorem command_served s u c p :
  reachable s -> gc_stop_requested s = true -> pending s u c -> pcs s !! u = Some p -> parked p = true ->
  (exists s1, step u Next s = Some (Val s1)) /\
  forall ls s', play ls s = Some s' -> (3 <= steps_of u ls)%nat ->
    exists ls1 ls2 s1, ls = ls1 ++ ls2 /\ play ls1 s = Some s1 /\ arenas s1 !! u = Some None.
Proof.
  intros Hr Hstop Hc Ep Hp.
  assert (Hcd : commanded u s) by (split; [done | done | eauto | by rewrite Ep]). split.
  - destruct (commanded_own u s Hcd) as (s1 & Hs1 & _). eauto.
  - intros ls s' Hplay H3. apply (commanded_run u ls s s' p Hcd Ep Hplay). destruct p; simpl; lia.
Qed.

(** ** Witnesses *)

(** Thread 2 is parked, and thread 1 has sent it the first command. *)
Definition first_command : state := state_after (two_threads ++ request 1 ++ park 2 ++ nexts 1 5).

Lemma first_command_reachable : reachable first_command.
Proof. apply reachable_after. vm_compute. eauto. Qed.

Lemma command_served_witness :
  exists s1, step 2 Next first_command = Some (Val s1) /\
    exists ls1 ls2 s2, nexts 2 3 = ls1 ++ ls2 /\ play ls1 first_command = Some s2 /\ arenas s2 !! 2%nat = Some None.
Proof.
  destruct (command_served first_command 2 (Mark MarkAll) (SpLoop FromRun) first_command_reachable)
    as [[s1 Hs1] Hrun]; [vm_compute; reflexivity .. |].
  exists s1. split; [exact Hs1|]. eapply Hrun; [vm_compute; reflexivity | simpl; lia].
Defined.

Lemma no_assertion_fails_witness : step 2 Next first_command <> Some Panic.
Proof. exact (no_assertion_fails first_command 2 Next first_command_reachable). Defined.

(** Thread 2 executes it. *)
Definition executing : state := state_after (two_threads ++ request 1 ++ park 2 ++ nexts 1 5 ++ nexts 2 2).

Lemma one_phase_at_a_time_witness :
  stw_in_progress executing = true /\
  exists t p, pcs executing !! t = Some p /\ t <> 2%nat /\ serving p = Some (Mark MarkAll).
Proof.
  destruct (one_phase_at_a_time executing 2 FromRun (Mark MarkAll)) as (H & t & p & H1 & H2 & H3 & _).
  - apply reachable_after. vm_compute. eauto.
  - vm_compute. reflexivity.
  - split; [exact H|]. exists t, p. split; [exact H1|]. split; [exact H2 | exact H3].
Defined.

Definition checking : state := state_after (two_threads ++ request 1 ++ park 2 ++ nexts 1 2).

Definition pause_begins : state := state_after (two_threads ++ request 1 ++ park 2 ++ nexts 1 3).

Definition pause_goes_on : state := state_after (two_threads ++ request 1 ++ park 2 ++ nexts 1 3 ++ nexts 2 1).

Lemma pause_holds_witness : exists p, pcs pause_goes_on !! 2%nat = Some p /\ parked p = true.
Proof.
  apply (pause_holds checking 1 1 pause_begins pause_goes_on).
  - apply reachable_after. vm_compute. eauto.
  - vm_compute. reflexivity.
  - vm_compute. reflexivity.
  - vm_compute. reflexivity.
  - vm_compute. lia.
  - vm_compute. reflexivity.
  - intros u r E. apply elem_of_map_to_list in E. vm_compute in E.
    apply elem_of_cons in E as [[=] | [=]%list_elem_of_singleton].
  - apply rtc_once. split; [exists 2%nat, Next; vm_compute; reflexivity | vm_compute; reflexivity].
  - discriminate.
  - vm_compute. eauto.
Defined.
