(* ===== verification/Marking.v ===== *)
(** * Marking across arenas

    What the commands of a collection do ([execute_gc_command_for_current_thread] of
    [dotnet-vm/src/threading/basic.rs]) and the fixed point over cross-arena references
    ([collect_all_arenas] of [dotnet-vm/src/gc/coordinator.rs]), from the first
    [Mark] command to the last; the references met while an arena is traced are
    recorded as in [ObjectRef::trace], [PointerOrigin::trace]
    ([dotnet-value/src/object/mod.rs], [pointer/origin.rs]) and
    [record_cross_arena_ref] ([dotnet-utils/src/gc/cross_arena.rs]).

    An arena marks itself with the [gc_arena] library: [finish_marking] is a
    parameter, and [marking_spec] says what it does.  During a pause the heap and the
    arena registrations do not change, so they are parameters as well.  The arenas
    execute a command at the same time, each on its own arena; here they do so one
    after the other.  What follows in an arena, the check of its finalizers and the sweep,
    is modelled in [Finalization]. *)

From Stdlib Require Import ZArith Lia.
From stdpp Require Import base tactics list option sets gmap.
From S2P Require Import Prelude ManagedPtr.

#[export] Instance ArenaIdentity_countable : Countable ArenaIdentity.
Proof.
  refine (inj_countable' (fun i => (arena_id i, generation i)) (fun x => {| arena_id := x.1; generation := x.2 |}) _).
  by intros [].
Defined.

Record CrossArenaRef : Set := { identity : ArenaIdentity; ref_ptr : Z }.

#[export] Instance CrossArenaRef_eq_dec : EqDecision CrossArenaRef.
Proof. solve_decision. Defined.

#[export] Instance CrossArenaRef_countable : Countable CrossArenaRef.
Proof.
  refine (inj_countable' (fun r => (identity r, ref_ptr r)) (fun x => {| identity := x.1; ref_ptr := x.2 |}) _).
  by intros [].
Defined.

(** A reference held by an object: a handle to an object of some arena, or the origin of
    a managed pointer with the identity it was made under. *)
Inductive edge : Set :=
| Handle (owner ptr : Z)
| Origin (r : CrossArenaRef).

(** The part of an arena's state the collector uses. *)
Record arena : Type := {
  arena_identity : option ArenaIdentity;
  cross_arena_roots : gset Z;
  marked : gset Z;
}.

(** The coordinator: its arenas and the references found during marking, by owner. *)
Record coordinator : Type := {
  co_arenas : gmap Z arena;
  cross_arena_refs : gmap Z (gset CrossArenaRef);
}.

Section marking.

(** The objects of each arena with the references they hold, and the references of its
    root (stacks, handles, statics). *)
Variable objects : gmap Z (gmap Z (list edge)).
Variable root_edges : gmap Z (list edge).

(** The registration of each arena. *)
Variable live : Z -> option ArenaIdentity.

(** [finish_marking a roots m]: arena [a], whose marked objects are [m], marks what is
    reachable from its root and from [roots]. *)
Variable finish_marking : Z -> gset Z -> gset Z -> gset Z.

Definition edges_of (a p : Z) : list edge := default [] (objects !! a ≫= (.!! p)).
Definition roots_of (a : Z) : list edge := default [] (root_edges !! a).

Definition try_acquire_lease_for_identity (i : ArenaIdentity) : bool :=
  bool_decide (live (arena_id i) = Some i).

(** What the trace of a reference records while arena [a] is traced. *)
Definition trace_edge (a : Z) (e : edge) : option CrossArenaRef :=
  match e with
  | Handle owner p =>
      if owner =? a then None
      else match live owner with Some i => Some {| identity := i; ref_ptr := p |} | None => None end
  | Origin r => if try_acquire_lease_for_identity (identity r) then Some r else None
  end.

(** Objects already marked are not traced again; the root is. *)
Definition found_refs (a : Z) (before after : gset Z) : list CrossArenaRef :=
  omap (trace_edge a) (roots_of a ++ (elements (after ∖ before) ≫= edges_of a)).

Definition record_cross_arena_ref (refs : gmap Z (gset CrossArenaRef)) (r : CrossArenaRef) : gmap Z (gset CrossArenaRef) :=
  <[arena_id (identity r) := {[ r ]} ∪ default ∅ (refs !! arena_id (identity r))]> refs.

Definition record_found_cross_arena_refs (refs : gmap Z (gset CrossArenaRef)) (found : list CrossArenaRef)
  : gmap Z (gset CrossArenaRef) :=
  foldl (fun refs r => if try_acquire_lease_for_identity (identity r) then record_cross_arena_ref refs r else refs) refs found.

(** [finish_marking] of arena [a] with its roots replaced, and the harvest. *)
Definition mark_arena (c : coordinator) (a : Z) (ar : arena) (roots : gset Z) : coordinator :=
  let after := finish_marking a roots (marked ar) in
  {| co_arenas := <[a := {| arena_identity := arena_identity ar; cross_arena_roots := roots; marked := after |}]> (co_arenas c);
     cross_arena_refs := record_found_cross_arena_refs (cross_arena_refs c) (found_refs a (marked ar) after) |}.

(** [MarkPhaseCommand::All] *)
Definition mark_all (c : coordinator) (a : Z) : coordinator :=
  match co_arenas c !! a with Some ar => mark_arena c a ar ∅ | None => c end.

Definition install_root (a : Z) (ar : arena) (roots : gset Z) (r : CrossArenaRef) : gset Z :=
  if negb (arena_id (identity r) =? a) || negb (bool_decide (arena_identity ar = Some (identity r))) then roots
  else if try_acquire_lease_for_identity (identity r) then {[ ref_ptr r ]} ∪ roots
  else roots.

(** [MarkPhaseCommand::Objects] *)
Definition mark_objects (c : coordinator) (a : Z) (ptrs : gset CrossArenaRef) : coordinator :=
  match co_arenas c !! a with
  | Some ar => mark_arena c a ar (foldl (install_root a ar) (cross_arena_roots ar) (elements ptrs))
  | None => c
  end.

(** [refs.retain(..)] of the fixed point: what was dispatched before is dropped. *)
Definition fresh_refs (refs : gmap Z (gset CrossArenaRef)) (dispatched : gset CrossArenaRef) : gmap Z (gset CrossArenaRef) :=
  filter (fun x => x.2 <> ∅) ((.∖ dispatched) <$> refs).

Definition all_refs (refs : gmap Z (gset CrossArenaRef)) : gset CrossArenaRef := ⋃ (map_to_list refs).*2.

Fixpoint fixed_point (fuel : nat) (dispatched : gset CrossArenaRef) (c : coordinator) : option coordinator :=
  match fuel with
  | O => None
  | S fuel =>
      let refs := fresh_refs (cross_arena_refs c) dispatched in
      if decide (refs = ∅) then Some {| co_arenas := co_arenas c; cross_arena_refs := refs |}
      else
        let c := {| co_arenas := co_arenas c; cross_arena_refs := ∅ |} in
        let c := foldl (fun c x => mark_objects c x.1 x.2) c (map_to_list refs) in
        if decide (cross_arena_refs c = ∅) then Some c
        else fixed_point fuel (dispatched ∪ all_refs refs) c
  end.

(** The marking of [collect_all_arenas] *)
Definition mark_all_arenas (fuel : nat) (c : coordinator) : option coordinator :=
  let c := {| co_arenas := co_arenas c; cross_arena_refs := ∅ |} in
  fixed_point fuel ∅ (foldl mark_all c (map_to_list (co_arenas c)).*1).

(** ** Specification *)

Definition local_edge (a p q : Z) : Prop := Handle a q ∈ edges_of a p.

Definition closed (a : Z) (m : gset Z) : Prop := forall p q, p ∈ m -> local_edge a p q -> q ∈ m.

(** What [gc_arena] promises of [finish_marking], for a set of objects that were all
    traced. *)
Definition marking_spec : Prop :=
  forall a roots m p, closed a m ->
    (p ∈ finish_marking a roots m <->
     p ∈ m \/ exists r, (Handle a r ∈ roots_of a \/ r ∈ roots) /\ rtc (local_edge a) r p).

(** The object a reference held in arena [a] leads to. *)
Definition points (a : Z) (e : edge) : option (Z * Z) :=
  match e with
  | Handle owner p =>
      if owner =? a then Some (a, p)
      else (fun r => (arena_id (identity r), ref_ptr r)) <$> trace_edge a e
  | Origin _ => (fun r => (arena_id (identity r), ref_ptr r)) <$> trace_edge a e
  end.

(** The objects of the arenas [D] that are reachable from the roots of one of them. *)
Inductive reachable_object (D : gset Z) : Z -> Z -> Prop :=
| ro_root a e b p :
    a ∈ D -> e ∈ roots_of a -> points a e = Some (b, p) -> b ∈ D -> reachable_object D b p
| ro_edge a q e b p :
    reachable_object D a q -> e ∈ edges_of a q -> points a e = Some (b, p) -> b ∈ D -> reachable_object D b p.

(** Every reference that can be found. *)
Definition universe : gset CrossArenaRef :=
  list_to_set (
    (map_to_list root_edges ≫= fun x => omap (trace_edge x.1) x.2) ++
    (map_to_list objects ≫= fun x => map_to_list x.2 ≫= fun y => omap (trace_edge x.1) y.2)).

(** ** Recorded references *)

Definition refs_at (refs : gmap Z (gset CrossArenaRef)) (k : Z) : gset CrossArenaRef := default ∅ (refs !! k).

Definition known (refs : gmap Z (gset CrossArenaRef)) (r : CrossArenaRef) : Prop := r ∈ refs_at refs (arena_id (identity r)).

Lemma record_at refs r k r' :
  r' ∈ refs_at (record_cross_arena_ref refs r) k <-> r' ∈ refs_at refs k \/ (r' = r /\ k = arena_id (identity r)).
Proof.
  unfold refs_at, record_cross_arena_ref. destruct (decide (k = arena_id (identity r))) as [->|Hk].
  - rewrite lookup_insert_eq. simpl. set_solver.
  - rewrite lookup_insert_ne by done. naive_solver.
Qed.

Lemma record_found_at refs found k r :
  r ∈ refs_at (record_found_cross_arena_refs refs found) k <->
  r ∈ refs_at refs k \/ (r ∈ found /\ k = arena_id (identity r) /\ try_acquire_lease_for_identity (identity r) = true).
Proof.
  revert refs. induction found as [|x found IH]; intros refs; simpl; [set_solver|].
  unfold record_found_cross_arena_refs in IH. rewrite IH. destruct (try_acquire_lease_for_identity (identity x)) eqn:E.
  - rewrite record_at. set_solver.
  - rewrite elem_of_cons. split; [naive_solver|]. intros [|([->|] & ? & ?)]; [auto|congruence|auto].
Qed.

Lemma found_refs_spec a before after r :
  r ∈ found_refs a before after <->
  exists e, trace_edge a e = Some r /\ (e ∈ roots_of a \/ exists p, p ∈ after /\ p ∉ before /\ e ∈ edges_of a p).
Proof.
  unfold found_refs. rewrite list_elem_of_omap. split.
  - intros (e & He & Hr). exists e. split; [done|]. apply elem_of_app in He as [He | He]; [auto|].
    apply list_elem_of_bind in He as (p & Hp & Hin). set_solver.
  - intros (e & Hr & [He | (p & Hp & Hn & He)]); exists e; (split; [|done]); apply elem_of_app; [by left|]. right.
    apply list_elem_of_bind. exists p. set_solver.
Qed.

Lemma trace_edge_live a e r : trace_edge a e = Some r -> (forall b i, live b = Some i -> arena_id i = b) ->
  try_acquire_lease_for_identity (identity r) = true.
Proof.
  intros H Hid. unfold try_acquire_lease_for_identity. destruct e as [owner p|x]; simpl in H.
  - destruct (owner =? a); [done|]. destruct (live owner) as [i|] eqn:E; [|done]. injection H as <-. simpl.
    apply bool_decide_eq_true. by rewrite (Hid _ _ E).
  - destruct (try_acquire_lease_for_identity (identity x)) eqn:E; [|done]. by injection H as <-.
Qed.

Lemma universe_spec a e r :
  (e ∈ roots_of a \/ exists p, e ∈ edges_of a p) -> trace_edge a e = Some r -> r ∈ universe.
Proof.
  intros He Hr. unfold universe. rewrite elem_of_list_to_set, elem_of_app. destruct He as [He | [p He]].
  - left. unfold roots_of in He. destruct (root_edges !! a) as [es|] eqn:E; simpl in He; [|set_solver].
    apply list_elem_of_bind. exists (a, es). rewrite elem_of_map_to_list. split; [|done]. apply list_elem_of_omap. eauto.
  - right. unfold edges_of in He. destruct (objects !! a) as [m|] eqn:E; simpl in He; [|set_solver].
    destruct (m !! p) as [es|] eqn:Ep; simpl in He; [|set_solver].
    apply list_elem_of_bind. exists (a, m). rewrite elem_of_map_to_list. split; [|done].
    apply list_elem_of_bind. exists (p, es). rewrite elem_of_map_to_list. split; [|done]. apply list_elem_of_omap. eauto.
Qed.

(** ** The invariant of a collection

    [D] are the registered arenas, [A] those that executed [MarkPhaseCommand::All],
    [seen] the references that were dispatched and [placed] those the owner installed. *)

Hypothesis marking_ok : marking_spec.
Hypothesis live_id : forall b i, live b = Some i -> arena_id i = b.
Variable D : gset Z.

Record collection (A : gset Z) (seen placed : gset CrossArenaRef) (c : coordinator) : Prop := {
  co_dom : dom (co_arenas c) = D;
  co_identity a ar : co_arenas c !! a = Some ar -> arena_identity ar = live a;
  co_closed a ar : co_arenas c !! a = Some ar -> closed a (marked ar);
  co_marked a ar p : co_arenas c !! a = Some ar -> p ∈ marked ar -> reachable_object D a p;
  co_roots a ar p : a ∈ A -> co_arenas c !! a = Some ar -> p ∈ cross_arena_roots ar -> reachable_object D a p;
  co_refs k r : r ∈ refs_at (cross_arena_refs c) k ->
    k = arena_id (identity r) /\ live k = Some (identity r) /\ r ∈ universe /\ (k ∈ D -> reachable_object D k (ref_ptr r));
  co_traced a ar p e r :
    co_arenas c !! a = Some ar -> p ∈ marked ar -> e ∈ edges_of a p -> trace_edge a e = Some r ->
    r ∈ seen \/ known (cross_arena_refs c) r;
  co_traced_root a e r :
    a ∈ A -> e ∈ roots_of a -> trace_edge a e = Some r -> r ∈ seen \/ known (cross_arena_refs c) r;
  co_rooted a ar p : a ∈ A -> co_arenas c !! a = Some ar -> Handle a p ∈ roots_of a -> p ∈ marked ar;
  co_placed r ar : r ∈ placed -> co_arenas c !! arena_id (identity r) = Some ar -> ref_ptr r ∈ marked ar;
}.

Lemma trace_edge_spec a e r :
  trace_edge a e = Some r ->
  live (arena_id (identity r)) = Some (identity r) /\ points a e = Some (arena_id (identity r), ref_ptr r).
Proof.
  intros H. unfold points. rewrite H. destruct e as [owner p|x]; simpl in H.
  - destruct (owner =? a) eqn:Eo; [done|]. destruct (live owner) as [i|] eqn:E; [|done]. injection H as <-. simpl.
    by rewrite (live_id _ _ E).
  - destruct (try_acquire_lease_for_identity (identity x)) eqn:E; [|done]. injection H as <-.
    by apply bool_decide_eq_true in E.
Qed.

Lemma points_cases a e b p :
  points a e = Some (b, p) ->
  (e = Handle a p /\ b = a) \/ exists r, trace_edge a e = Some r /\ b = arena_id (identity r) /\ p = ref_ptr r.
Proof.
  unfold points. destruct e as [owner q|x]; [destruct (Z.eqb_spec owner a) as [->|]|].
  - intros [= <- <-]. auto.
  - destruct (trace_edge a (Handle owner q)) as [r|]; [|done]. intros [= <- <-]. eauto.
  - destruct (trace_edge a (Origin x)) as [r|]; [|done]. intros [= <- <-]. eauto.
Qed.

Lemma points_local a p : points a (Handle a p) = Some (a, p).
Proof. simpl. by rewrite Z.eqb_refl. Qed.

Lemma reachable_rtc a p q : a ∈ D -> rtc (local_edge a) p q -> reachable_object D a p -> reachable_object D a q.
Proof.
  intros Ha. induction 1 as [|p x q Hs _ IH]; [done|]. intros Hp. apply IH. eapply ro_edge; eauto using points_local.
Qed.

Lemma finish_marking_closed a roots m : closed a m -> closed a (finish_marking a roots m).
Proof.
  intros Hm p q Hp Hpq. apply marking_ok in Hp; [|done]. apply marking_ok; [done|].
  destruct Hp as [Hp | (r & Hr & Hp)]; [left; by eapply Hm|]. right. exists r. eauto using rtc_r.
Qed.

(** Marking an arena adds it to the arenas that are rooted. *)
Lemma mark_arena_collection A seen placed c a ar roots :
  collection A seen placed c -> co_arenas c !! a = Some ar ->
  (forall p, p ∈ roots -> reachable_object D a p) ->
  collection ({[ a ]} ∪ A) seen placed (mark_arena c a ar roots).
Proof.
  intros Hc Har Hroots. pose proof (co_closed _ _ _ _ Hc _ _ Har) as Hcl.
  assert (Ha : a ∈ D) by (rewrite <- (co_dom _ _ _ _ Hc); by eapply elem_of_dom_2).
  assert (Hsound : forall p, p ∈ finish_marking a roots (marked ar) -> reachable_object D a p).
  { intros p Hp. apply marking_ok in Hp as [Hp | (r & Hr & Hp)]; [by eapply co_marked| |done].
    eapply reachable_rtc; [done..|]. destruct Hr as [Hr | Hr]; [|auto]. eapply ro_root; eauto using points_local. }
  assert (Hsub : marked ar ⊆ finish_marking a roots (marked ar)) by (intros p Hp; apply marking_ok; auto).
  assert (Hfound : forall e r, trace_edge a e = Some r ->
    e ∈ roots_of a \/ (exists p, p ∈ finish_marking a roots (marked ar) /\ p ∉ marked ar /\ e ∈ edges_of a p) ->
    known (cross_arena_refs (mark_arena c a ar roots)) r).
  { intros e r Hr He. apply record_found_at. right. split; [apply found_refs_spec; eauto|]. split; [done|].
    by eapply trace_edge_live. }
  assert (Hknown : forall r, known (cross_arena_refs c) r -> known (cross_arena_refs (mark_arena c a ar roots)) r).
  { intros r Hr. apply record_found_at. by left. }
  split; simpl.
  - rewrite dom_insert_L, (co_dom _ _ _ _ Hc). set_solver.
  - intros b br. rewrite lookup_insert_Some. intros [[<- <-] | [_ Hb]]; [|by eapply co_identity]. by eapply co_identity in Har.
  - intros b br. rewrite lookup_insert_Some. intros [[<- <-] | [_ Hb]]; [|by eapply co_closed]. by apply finish_marking_closed.
  - intros b br p. rewrite lookup_insert_Some. intros [[<- <-] | [_ Hb]]; [apply Hsound|by eapply co_marked].
  - intros b br p HA. rewrite lookup_insert_Some. intros [[<- <-] | [Hn Hb]]; [apply Hroots|].
    eapply co_roots; eauto. set_solver.
  - intros k r Hr. apply record_found_at in Hr as [Hr | (Hr & -> & _)]; [by apply Hc|].
    apply found_refs_spec in Hr as (e & He & Hin). destruct (trace_edge_spec _ _ _ He) as [Hl Hp].
    split; [done|]. split; [done|]. split; [eapply universe_spec; [|done]; naive_solver|]. intros Hk.
    destruct Hin as [Hin | (p & Hpm & _ & Hin)]; [eapply (ro_root D a); eauto|]. eapply (ro_edge D a); eauto.
  - intros b br p e r. rewrite lookup_insert_Some. intros [[<- <-] | [_ Hb]] Hp He Hr.
    + destruct (decide (p ∈ marked ar)) as [Hin|Hin]; [|right; eapply Hfound; eauto].
      destruct (co_traced _ _ _ _ Hc _ _ _ _ _ Har Hin He Hr); auto.
    + destruct (co_traced _ _ _ _ Hc _ _ _ _ _ Hb Hp He Hr); auto.
  - intros b e r [->%elem_of_singleton | Hb]%elem_of_union He Hr; [right; eapply Hfound; eauto|].
    destruct (co_traced_root _ _ _ _ Hc _ _ _ Hb He Hr); auto.
  - intros b br p Hb. rewrite lookup_insert_Some. intros [[<- <-] | [Hn Hbr]] Hp.
    + apply marking_ok; [done|]. right. exists p. split; [auto|constructor].
    + eapply co_rooted; eauto. set_solver.
  - intros r br Hr. rewrite lookup_insert_Some. intros [[Heq <-] | [_ Hbr]]; [|by eapply co_placed]. simpl.
    apply Hsub. eapply co_placed; eauto. by rewrite <- Heq.
Qed.

Lemma install_roots a ar l roots p :
  (forall r, r ∈ l -> arena_id (identity r) = a /\ live a = Some (identity r)) -> arena_identity ar = live a ->
  p ∈ foldl (install_root a ar) roots l <-> p ∈ roots \/ exists r, r ∈ l /\ ref_ptr r = p.
Proof.
  intros Hl Har. revert roots. induction l as [|x l IH]; intros roots; simpl; [set_solver|].
  destruct (Hl x) as [Hx Hlive]; [left|].
  assert (Hi : install_root a ar roots x = {[ ref_ptr x ]} ∪ roots).
  { unfold install_root, try_acquire_lease_for_identity.
    by rewrite Hx, Z.eqb_refl, !bool_decide_eq_true_2 by congruence. }
  rewrite IH, Hi by (intros r Hr; apply Hl; by right). set_solver.
Qed.

Lemma mark_all_collection A seen placed c a :
  collection A seen placed c -> a ∈ D -> collection ({[ a ]} ∪ A) seen placed (mark_all c a).
Proof.
  intros Hc Ha. unfold mark_all. rewrite <- (co_dom _ _ _ _ Hc), elem_of_dom in Ha. destruct Ha as [ar Har].
  rewrite Har. apply mark_arena_collection; [done..|set_solver].
Qed.

Lemma mark_objects_collection seen placed c a s :
  collection D seen placed c ->
  (forall r, r ∈ s -> a = arena_id (identity r) /\ live a = Some (identity r) /\ (a ∈ D -> reachable_object D a (ref_ptr r))) ->
  collection D seen (placed ∪ s) (mark_objects c a s).
Proof.
  intros Hc Hs. unfold mark_objects. destruct (co_arenas c !! a) as [ar|] eqn:Har.
  - assert (Ha : a ∈ D) by (rewrite <- (co_dom _ _ _ _ Hc); by eapply elem_of_dom_2).
    set (roots := foldl _ _ _).
    assert (Hr : forall p, p ∈ roots <-> p ∈ cross_arena_roots ar \/ exists r, r ∈ elements s /\ ref_ptr r = p).
    { intros p. apply install_roots; [|by eapply co_identity]. intros r Hr%elem_of_elements. destruct (Hs r Hr) as (? & ? & _). auto. }
    assert (Hm : collection ({[ a ]} ∪ D) seen placed (mark_arena c a ar roots)).
    { apply mark_arena_collection; [done..|]. intros p [Hp | (r & Hin%elem_of_elements & <-)]%Hr; [by eapply co_roots|].
      by apply Hs. }
    replace ({[ a ]} ∪ D) with D in Hm by set_solver. destruct Hm. split; [done..|].
    intros r br [Hin | Hin]%elem_of_union Hb; [by eapply co_placed0|]. destruct (Hs r Hin) as [Heq _].
    simpl in Hb. rewrite <- Heq, lookup_insert_eq in Hb. injection Hb as <-. simpl. apply marking_ok; [by eapply co_closed|].
    right. exists (ref_ptr r). split; [|constructor]. right. apply Hr. right. exists r. by rewrite elem_of_elements.
  - destruct Hc. split; [done..|]. intros r br [Hin | Hin]%elem_of_union Hb; [by eapply co_placed0|].
    destruct (Hs r Hin) as [Heq _]. congruence.
Qed.

Lemma all_refs_spec refs r : r ∈ all_refs refs <-> exists k s, refs !! k = Some s /\ r ∈ s.
Proof.
  unfold all_refs. rewrite elem_of_union_list. split.
  - intros (s & ([k s'] & -> & Hin%elem_of_map_to_list)%list_elem_of_fmap & Hr). eauto.
  - intros (k & s & Hk & Hr). exists s. split; [|done]. apply list_elem_of_fmap. exists (k, s). by rewrite elem_of_map_to_list.
Qed.

Lemma fresh_refs_lookup refs seen k s :
  fresh_refs refs seen !! k = Some s <-> exists s', refs !! k = Some s' /\ s = s' ∖ seen /\ s <> ∅.
Proof.
  unfold fresh_refs. rewrite map_lookup_filter_Some, lookup_fmap, fmap_Some. naive_solver.
Qed.

Lemma all_fresh_refs refs seen r :
  r ∈ all_refs (fresh_refs refs seen) <-> (exists k, r ∈ refs_at refs k) /\ r ∉ seen.
Proof.
  rewrite all_refs_spec. unfold refs_at. split.
  - intros (k & s & (s' & Hk & -> & _)%fresh_refs_lookup & Hr). split; [exists k; rewrite Hk|]; set_solver.
  - intros [[k Hr] Hn]. destruct (refs !! k) as [s|] eqn:E; simpl in Hr; [|set_solver].
    exists k, (s ∖ seen). rewrite fresh_refs_lookup. set_solver.
Qed.

(** The commands of one round, in any order. *)
Lemma round_collection seen placed l c :
  collection D seen placed c ->
  (forall k s r, (k, s) ∈ l -> r ∈ s ->
     k = arena_id (identity r) /\ live k = Some (identity r) /\ (k ∈ D -> reachable_object D k (ref_ptr r))) ->
  collection D seen (placed ∪ ⋃ l.*2) (foldl (fun c x => mark_objects c x.1 x.2) c l).
Proof.
  revert placed c. induction l as [|[k s] l IH]; intros placed c Hc Hl; simpl.
  - by rewrite (right_id_L ∅ (∪)).
  - rewrite (assoc_L (∪)). apply IH; [|intros; eapply Hl; [by right|done]].
    apply mark_objects_collection; [done|]. intros r Hr. eapply Hl; [by left|done].
Qed.

Lemma marked_complete seen c :
  collection D seen seen c -> (forall r, known (cross_arena_refs c) r -> r ∈ seen) ->
  forall b p, reachable_object D b p -> exists ar, co_arenas c !! b = Some ar /\ p ∈ marked ar.
Proof.
  intros Hc Hk.
  assert (HD : forall b, b ∈ D -> exists ar, co_arenas c !! b = Some ar).
  { intros b. rewrite <- (co_dom _ _ _ _ Hc), elem_of_dom. by intros [ar ?]; exists ar. }
  assert (Hplaced : forall b r, r ∈ seen \/ known (cross_arena_refs c) r -> arena_id (identity r) = b -> b ∈ D ->
    exists ar, co_arenas c !! b = Some ar /\ ref_ptr r ∈ marked ar).
  { intros b r Hr <- Hb. destruct (HD _ Hb) as [ar Har]. exists ar. split; [done|]. eapply co_placed; eauto.
    destruct Hr; auto. }
  induction 1 as [a e b p Ha He [[-> ->] | (r & Hr & -> & ->)]%points_cases Hb
                 | a q e b p _ (ar & Har & Hq) He [[-> ->] | (r & Hr & -> & ->)]%points_cases Hb].
  - destruct (HD _ Hb) as [ar Har]. eauto using co_rooted.
  - eapply Hplaced; eauto using co_traced_root.
  - exists ar. split; [done|]. eapply co_closed; eauto.
  - eapply Hplaced; eauto using co_traced.
Qed.

(** The references found are taken. *)
Lemma take_collection A seen seen' placed c :
  collection A seen placed c -> seen ⊆ seen' -> (forall r, known (cross_arena_refs c) r -> r ∈ seen') ->
  collection A seen' placed {| co_arenas := co_arenas c; cross_arena_refs := ∅ |}.
Proof.
  intros [] Hs Hk. split; simpl; try done.
  - intros a ar p e r H1 H2 H3 H4. destruct (co_traced0 _ _ _ _ _ H1 H2 H3 H4) as [|Hr]; auto.
  - intros a e r H1 H2 H3. destruct (co_traced_root0 _ _ _ H1 H2 H3) as [|Hr]; auto.
Qed.

Lemma known_empty r : ~ known ∅ r.
Proof. unfold known, refs_at. set_solver. Qed.

Lemma fresh_refs_smaller refs seen :
  fresh_refs refs seen <> ∅ -> all_refs (fresh_refs refs seen) ⊆ universe ->
  (size (universe ∖ (seen ∪ all_refs (fresh_refs refs seen))) < size (universe ∖ seen))%nat.
Proof.
  intros (k & s & Hk)%map_choose Hu. apply fresh_refs_lookup in Hk as Hk'. destruct Hk' as (s' & _ & _ & Hne).
  apply set_choose_L in Hne as [r Hr].
  assert (Hr' : r ∈ all_refs (fresh_refs refs seen)) by (apply all_refs_spec; eauto).
  assert (Hn : r ∉ seen) by (apply all_fresh_refs in Hr'; tauto).
  apply subset_size. set_solver.
Qed.

(** Each round dispatches a reference that was not dispatched before, so the rounds end. *)
Lemma fixed_point_ends fuel seen c :
  collection D seen seen c -> (size (universe ∖ seen) < fuel)%nat ->
  exists c' seen', fixed_point fuel seen c = Some c' /\ collection D seen' seen' c' /\
    forall r, known (cross_arena_refs c') r -> r ∈ seen'.
Proof.
  revert seen c. induction fuel as [|fuel IH]; intros seen c Hc Hf; [lia|]. simpl.
  set (refs := fresh_refs (cross_arena_refs c) seen).
  assert (Hrefs : forall k s r, refs !! k = Some s -> r ∈ s ->
    k = arena_id (identity r) /\ live k = Some (identity r) /\ r ∈ universe /\ (k ∈ D -> reachable_object D k (ref_ptr r))).
  { intros k s r (s' & Hk & -> & _)%fresh_refs_lookup Hr. eapply co_refs; [done|]. unfold refs_at. rewrite Hk. set_solver. }
  assert (Hfresh : forall r, known (cross_arena_refs c) r -> r ∈ seen ∪ all_refs refs).
  { intros r Hr. apply elem_of_union. destruct (decide (r ∈ seen)); [by left|]. right. apply all_fresh_refs.
    split; [by eexists|done]. }
  case_decide as He.
  - eexists _, seen. split; [done|]. simpl. rewrite He in *. split; [|by intros r ?%known_empty].
    eapply take_collection; [done..|]. intros r Hr%Hfresh. unfold all_refs in Hr. rewrite map_to_list_empty in Hr. set_solver.
  - eapply take_collection in Hc; [|by apply union_subseteq_l|exact Hfresh].
    apply (round_collection _ _ (map_to_list refs)) in Hc;
      [|intros k s r Hin%elem_of_map_to_list Hr; destruct (Hrefs _ _ _ Hin Hr) as (? & ? & ? & ?); auto].
    fold (all_refs refs) in Hc. case_decide as He2.
    + eexists _, _. split; [done|]. split; [done|]. rewrite He2. by intros r ?%known_empty.
    + assert (Hu : all_refs refs ⊆ universe) by (intros r (k & s & Hk & Hr)%all_refs_spec; by eapply Hrefs).
      apply IH; [done|]. pose proof (fresh_refs_smaller _ _ He Hu). fold refs in H. lia.
Qed.

Lemma mark_all_fold A l c :
  collection A ∅ ∅ c -> (forall a, a ∈ l -> a ∈ D) -> collection (list_to_set l ∪ A) ∅ ∅ (foldl mark_all c l).
Proof.
  revert A c. induction l as [|a l IH]; intros A c Hc Hl; simpl; [by rewrite (left_id_L ∅ (∪))|].
  replace ({[ a ]} ∪ list_to_set l ∪ A) with (list_to_set l ∪ ({[ a ]} ∪ A)) by set_solver.
  apply IH; [|set_solver]. apply mark_all_collection; [done|set_solver].
Qed.

Lemma start_collection c :
  dom (co_arenas c) = D ->
  (forall a ar, co_arenas c !! a = Some ar -> arena_identity ar = live a /\ marked ar = ∅) ->
  collection ∅ ∅ ∅ {| co_arenas := co_arenas c; cross_arena_refs := ∅ |}.
Proof.
  intros Hd Hc.
  assert (He : forall a ar p, co_arenas c !! a = Some ar -> p ∉ marked ar)
    by (intros a ar p Ha; apply Hc in Ha as [_ ->]; set_solver).
  split; simpl; [done|..].
  - intros a ar Ha. by apply Hc in Ha as [].
  - intros a ar Ha p q Hp. by apply (He _ _ _ Ha) in Hp.
  - intros a ar p Ha Hp. by apply (He _ _ _ Ha) in Hp.
  - set_solver.
  - intros k r Hr. unfold refs_at in Hr. set_solver.
  - intros a ar p e r Ha Hp. by apply (He _ _ _ Ha) in Hp.
  - set_solver.
  - set_solver.
  - set_solver.
Qed.

Lemma mark_all_arenas_ends c :
  dom (co_arenas c) = D ->
  (forall a ar, co_arenas c !! a = Some ar -> arena_identity ar = live a /\ marked ar = ∅) ->
  exists c', mark_all_arenas (S (size universe)) c = Some c' /\ dom (co_arenas c') = D /\
    forall a ar p, co_arenas c' !! a = Some ar -> (p ∈ marked ar <-> reachable_object D a p).
Proof.
  intros Hd Hc.
  assert (Hin : forall a, a ∈ (map_to_list (co_arenas c)).*1 <-> a ∈ D).
  { intros a. rewrite <- Hd, elem_of_dom, list_elem_of_fmap. split.
    - intros ([b ar] & -> & Hb%elem_of_map_to_list). by exists ar.
    - intros [ar Ha]. exists (a, ar). by rewrite elem_of_map_to_list. }
  assert (Hl : list_to_set (map_to_list (co_arenas c)).*1 ∪ ∅ = D).
  { apply set_eq. intros a. rewrite <- Hin. set_solver. }
  pose proof (mark_all_fold _ (map_to_list (co_arenas c)).*1 _ (start_collection c Hd Hc)) as Hm.
  rewrite Hl in Hm.
  destruct (fixed_point_ends (S (size universe)) ∅ _ (Hm (fun a => proj1 (Hin a)))) as (c' & seen & Hf & Hc' & Hk).
  { rewrite difference_empty_L. lia. }
  exists c'. split; [done|]. split; [by eapply co_dom|]. intros a ar p Ha. split; [by eapply co_marked|].
  intros Hp. destruct (marked_complete _ _ Hc' Hk _ _ Hp) as (ar' & Ha' & Hpm). by simplify_eq.
Qed.

End marking.

(** C2. Whatever the heap and however its arenas refer to each other, a collection that starts with
    nothing marked ends its fixed point, within one round more than there are references,
    and then every registered arena has marked exactly the objects that are reachable from
    the roots of the registered arenas, through handles and managed-pointer origins whose
    registration is live. *)
Theorem mark_all_arenas_exact objects root_edges live finish_marking c :
  marking_spec objects root_edges finish_marking ->
  (forall a i, live a = Some i -> arena_id i = a) ->
  (forall a ar, co_arenas c !! a = Some ar -> arena_identity ar = live a /\ marked ar = ∅) ->
  exists c', mark_all_arenas objects root_edges live finish_marking (S (size (universe objects root_edges live))) c = Some c' /\
    dom (co_arenas c') = dom (co_arenas c) /\
    forall a ar p, co_arenas c' !! a = Some ar ->
      (p ∈ marked ar <-> reachable_object objects root_edges live (dom (co_arenas c)) a p).
Proof. intros Hm Hl Hc. by apply mark_all_arenas_ends. Qed.

(** *** Two arenas that keep each other's objects alive

    Arena 1 roots object 10, which refers to 20 of arena 2; 20 has a managed pointer into
    11 of arena 1, which refers to 12.  Objects 13 and 22 refer to each other and are
    garbage. *)
Module Pair.

Definition id (a : Z) : ArenaIdentity := {| arena_id := a; generation := 1 |}.

Definition live (a : Z) : option ArenaIdentity := if (a =? 1) || (a =? 2) then Some (id a) else None.

Definition objects : gmap Z (gmap Z (list edge)) :=
  {[ 1 := {[ 10 := [Handle 2 20]; 11 := [Handle 1 12]; 13 := [Handle 2 22] ]};
     2 := {[ 20 := [Origin {| identity := id 1; ref_ptr := 11 |}; Handle 3 30]; 22 := [Handle 1 13] ]} ]}.

Definition root_edges : gmap Z (list edge) := {[ 1 := [Handle 1 10] ]}.

Definition fresh (a : Z) : arena := {| arena_identity := live a; cross_arena_roots := {[ 13 ]}; marked := ∅ |}.

Definition start : coordinator := {| co_arenas := {[ 1 := fresh 1; 2 := fresh 2 ]}; cross_arena_refs := ∅ |}.

Definition successors (a : Z) (es : list edge) : gset Z :=
  list_to_set (omap (fun e => match e with Handle b q => if b =? a then Some q else None | Origin _ => None end) es).

(** In this heap no local path is longer than one reference. *)
Definition finish_marking (a : Z) (roots m : gset Z) : gset Z :=
  let start := successors a (roots_of root_edges a) ∪ roots in
  m ∪ start ∪ set_bind (fun p => successors a (edges_of objects a p)) start.

Lemma successors_spec a es q : q ∈ successors a es <-> Handle a q ∈ es.
Proof.
  unfold successors. rewrite elem_of_list_to_set, list_elem_of_omap. split.
  - intros ([b p|] & Hin & Heq); [|done]. destruct (Z.eqb_spec b a) as [->|]; [|done]. by injection Heq as ->.
  - intros Hin. exists (Handle a q). by rewrite Z.eqb_refl.
Qed.

Lemma edges_cases a p e :
  e ∈ edges_of objects a p ->
  (a, p, e) ∈ [(1, 10, Handle 2 20); (1, 11, Handle 1 12); (1, 13, Handle 2 22);
               (2, 20, Origin {| identity := id 1; ref_ptr := 11 |}); (2, 20, Handle 3 30); (2, 22, Handle 1 13)].
Proof.
  unfold edges_of, objects.
  destruct (decide (a = 1)) as [->|]; [|destruct (decide (a = 2)) as [->|]].
  - change (_ !! 1) with (Some ({[ 10 := [Handle 2 20]; 11 := [Handle 1 12]; 13 := [Handle 2 22] ]} : gmap Z (list edge))).
    simpl. destruct (decide (p = 10)) as [->|]; [|destruct (decide (p = 11)) as [->|]; [|destruct (decide (p = 13)) as [->|]]];
      [set_solver..|]. rewrite ?lookup_insert_ne, lookup_singleton_ne by done. simpl. set_solver.
  - change (_ !! 2) with (Some ({[ 20 := [Origin {| identity := id 1; ref_ptr := 11 |}; Handle 3 30]; 22 := [Handle 1 13] ]} : gmap Z (list edge))).
    simpl. destruct (decide (p = 20)) as [->|]; [|destruct (decide (p = 22)) as [->|]];
      [set_solver..|]. rewrite ?lookup_insert_ne, lookup_singleton_ne by done. simpl. set_solver.
  - rewrite ?lookup_insert_ne, lookup_singleton_ne by done. simpl. set_solver.
Qed.

Lemma local_edge_cases a p q : local_edge objects a p q -> a = 1 /\ p = 11 /\ q = 12.
Proof. intros H%edges_cases. set_unfold. naive_solver. Qed.

Lemma finish_marking_ok : marking_spec objects root_edges finish_marking.
Proof.
  intros a roots m p _. unfold finish_marking. rewrite !elem_of_union, elem_of_set_bind. split.
  - intros [[Hp | Hp] | (q & Hq & Hp)]; [auto|right..].
    + exists p. rewrite successors_spec in Hp. split; [tauto|constructor].
    + exists q. rewrite elem_of_union, successors_spec in Hq. rewrite successors_spec in Hp. split; [tauto|].
      by apply rtc_once.
  - intros [Hp | (r & Hr & Hp)]; [auto|]. rewrite <- successors_spec in Hr. inversion Hp as [|? y ? H1 H2]; subst; [tauto|].
    right. exists r. split; [set_solver|]. apply successors_spec.
    inversion H2 as [|? z ? H3 H4]; subst; [done|].
    apply local_edge_cases in H1 as (_ & _ & ->). apply local_edge_cases in H3. lia.
Qed.

End Pair.

Lemma mark_all_arenas_exact_witness :
  exists c', mark_all_arenas Pair.objects Pair.root_edges Pair.live Pair.finish_marking
               (S (size (universe Pair.objects Pair.root_edges Pair.live))) Pair.start = Some c' /\
    marked <$> co_arenas c' = {[ 1 := {[ 10; 11; 12 ]}; 2 := {[ 20 ]} ]}.
Proof.
  destruct (mark_all_arenas_exact Pair.objects Pair.root_edges Pair.live Pair.finish_marking Pair.start) as (c' & Hc' & _ & _).
  - apply Pair.finish_marking_ok.
  - unfold Pair.live. intros a i. destruct (_ || _); [|done]. by intros [= <-].
  - intros a ar. unfold Pair.start. simpl. rewrite lookup_insert_Some, lookup_singleton_Some. naive_solver.
  - exists c'. split; [exact Hc'|]. vm_compute in Hc'. injection Hc' as <-. vm_compute. reflexivity.
Defined.
