(* ===== verification/Monitors.v ===== *)
(** * Monitors

    Sync blocks and their manager ([dotnet-vm/src/sync/]): the operations of the
    threaded and of the single-threaded block, behind the trait [SyncBlockOps], and the
    monitor of an object as threads use it through [MonitorHost]
    ([dotnet-vm/src/stack/context_ops.rs]): reading the object's index, getting or
    creating the block, publishing the index, and the loops that wait for the block.

    One step of a thread is one critical section.  The waits have timeouts, so a
    waiting thread may wake at any time; whether a deadline has passed and whether a
    stop is requested are choices of the step.  The contention metrics are not
    modelled. *)

From Stdlib Require Import ZArith Lia.
From stdpp Require Import base tactics list option strings sets gmap.
From S2P Require Import Prelude ManagedPtr.

Inductive LockResult : Set := Success | Timeout | LockYield.

(** ** The trait *)

(** The operations that do not wait; [None] of the recursion count panics. *)
Class SyncBlockOps (B : Type) : Type := {
  new_block : B;
  try_enter : B -> Z -> outcome Empty_set (bool * B);
  exit_block : B -> Z -> bool * B;
  wait_block : B -> Z -> option Z -> outcome string unit;
  pulse : B -> Z -> outcome string unit;
  pulse_all : B -> Z -> outcome string unit;
}.

(** ** The threaded block *)

Record SyncBlockState : Set := { owner_thread_id : Z; recursion_count : Z }.

Definition mark_entered (thread_id : Z) : SyncBlockState :=
  {| owner_thread_id := thread_id; recursion_count := 1 |}.

Definition reenter (s : SyncBlockState) : outcome Empty_set SyncBlockState :=
  let* n := arith usize (recursion_count s + 1) in
  Val {| owner_thread_id := owner_thread_id s; recursion_count := n |}.

Definition threaded_new : SyncBlockState := {| owner_thread_id := INVALID_ARENA; recursion_count := 0 |}.

Inductive EnterState : Set := Acquired (s : SyncBlockState) | Contended.

Definition lock_and_try_enter (s : SyncBlockState) (thread_id : Z) : outcome Empty_set EnterState :=
  if owner_thread_id s =? thread_id then let* s := reenter s in Val (Acquired s)
  else if owner_thread_id s =? INVALID_ARENA then Val (Acquired (mark_entered thread_id))
  else Val Contended.

Definition threaded_try_enter (s : SyncBlockState) (thread_id : Z) : outcome Empty_set (bool * SyncBlockState) :=
  if owner_thread_id s =? INVALID_ARENA then Val (true, mark_entered thread_id)
  else if owner_thread_id s =? thread_id then let* s := reenter s in Val (true, s)
  else Val (false, s).

Definition threaded_exit (s : SyncBlockState) (thread_id : Z) : bool * SyncBlockState :=
  if negb (owner_thread_id s =? thread_id) || (thread_id =? INVALID_ARENA) then (false, s)
  else if recursion_count s =? 0 then (false, s)
  else
    let n := recursion_count s - 1 in
    (true, {| owner_thread_id := if n =? 0 then INVALID_ARENA else owner_thread_id s; recursion_count := n |}).

#[export] Instance threaded_ops : SyncBlockOps SyncBlockState := {
  new_block := threaded_new;
  try_enter := threaded_try_enter;
  exit_block := threaded_exit;
  wait_block _ _ _ := Err "Monitor.Wait() is not yet implemented";
  pulse _ _ := Err "Monitor.Pulse() is not yet implemented";
  pulse_all _ _ := Err "Monitor.PulseAll() is not yet implemented";
}.

(** ** The single-threaded block *)

(** The atomic counter wraps. *)
Record SingleBlock : Set := { recursions : Z }.

Definition single_new : SingleBlock := {| recursions := 0 |}.

Definition single_try_enter (b : SingleBlock) (thread_id : Z) : outcome Empty_set (bool * SingleBlock) :=
  Val (true, {| recursions := wrap usize (recursions b + 1) |}).

Definition single_exit (b : SingleBlock) (thread_id : Z) : bool * SingleBlock :=
  if 0 <? recursions b then (true, {| recursions := wrap usize (recursions b - 1) |}) else (false, b).

#[export] Instance single_ops : SyncBlockOps SingleBlock := {
  new_block := single_new;
  try_enter := single_try_enter;
  exit_block := single_exit;
  wait_block _ _ _ := Err "Monitor.Wait() is not supported in single-threaded mode";
  pulse _ _ := Err "Monitor.Pulse() is not supported in single-threaded mode";
  pulse_all _ _ := Err "Monitor.PulseAll() is not supported in single-threaded mode";
}.

(** The waiting operations of the single-threaded block never wait. *)
Definition single_enter (b : SingleBlock) (thread_id : Z) : outcome Empty_set SingleBlock :=
  let* (_, b) := single_try_enter b thread_id in Val b.

Definition single_enter_with_timeout (b : SingleBlock) (thread_id timeout_ms : Z) : outcome Empty_set (bool * SingleBlock) :=
  let* b := single_enter b thread_id in Val (true, b).

Definition single_enter_safe (b : SingleBlock) (thread_id : Z) : outcome Empty_set (LockResult * SingleBlock) :=
  let* b := single_enter b thread_id in Val (Success, b).

Definition single_enter_with_timeout_safe (b : SingleBlock) (thread_id deadline now : Z)
  : outcome Empty_set (LockResult * SingleBlock) :=
  let timeout_ms := if now <? deadline then wrap U64 (deadline - now) else 0 in
  let* (ok, b) := single_enter_with_timeout b thread_id timeout_ms in
  Val (if ok : bool then Success else Timeout, b).

(** ** The manager *)

Record SyncBlockManager : Type := { blocks : gmap Z SyncBlockState; next_index : Z }.

Definition manager_new : SyncBlockManager := {| blocks := ∅; next_index := 1 |}.

Definition get_or_create_sync_block (m : SyncBlockManager) (current_index : option Z)
  : outcome Empty_set (Z * SyncBlockManager) :=
  match current_index ≫= fun i => (fun _ => i) <$> blocks m !! i with
  | Some i => Val (i, m)
  | None =>
      let idx := next_index m in
      let* next := expect (checked usize (idx + 1)) in
      if idx =? 0 then Panic
      else Val (idx, {| blocks := <[idx := threaded_new]> (blocks m); next_index := next |})
  end.

Definition get_sync_block (m : SyncBlockManager) (index : Z) : option Z :=
  (fun _ => index) <$> blocks m !! index.

(** ** Threads that use monitors *)

(** The entering operations: [try_enter], [enter], [enter_with_timeout] (with a timeout
    that is not zero), [enter_safe] and [enter_with_timeout_safe]. *)
Inductive entry : Set := ETry | EEnter | ETimeout | ESafe | ETimeoutSafe.

Inductive mpc : Set :=
| Outside
| Looked (k : entry) (o : Z) (current : option Z)            (* the index of the object was read *)
| Got (k : entry) (o : Z) (current : option Z) (index : Z)   (* the manager gave a block *)
| Entering (k : entry) (o b : Z)                             (* about to lock the state of the block *)
| Waiting (k : entry) (o b : Z)                              (* in the condition variable *)
| Checking (k : entry) (o b : Z)                             (* about to read the stop flag *)
| ExitLooked (o index : Z)
| ExitGot (o b : Z).

Record monitors : Type := { obj_index : gmap Z Z; manager : SyncBlockManager; mpcs : gmap Z mpc }.

(** What an operation on the monitor of an object reported. *)
Inductive event : Set :=
| Entered (t o b : Z)
| Refused (t o : Z)
| Yielded (t o : Z)
| Left (t o b : Z)
| NotLocked (t o : Z).

Definition monitors_init : monitors := {| obj_index := ∅; manager := manager_new; mpcs := ∅ |}.

Definition mpc_of (s : monitors) (t : Z) : mpc := default Outside (mpcs s !! t).

Definition set_mpc (s : monitors) (t : Z) (p : mpc) : monitors :=
  {| obj_index := obj_index s; manager := manager s; mpcs := <[t := p]> (mpcs s) |}.

Definition set_manager (s : monitors) (m : SyncBlockManager) : monitors :=
  {| obj_index := obj_index s; manager := m; mpcs := mpcs s |}.

Definition set_sync_block_index (s : monitors) (o i : Z) : monitors :=
  {| obj_index := <[o := i]> (obj_index s); manager := manager s; mpcs := mpcs s |}.

Definition set_block (s : monitors) (b : Z) (st : SyncBlockState) : monitors :=
  set_manager s {| blocks := <[b := st]> (blocks (manager s)); next_index := next_index (manager s) |}.

Definition mresult : Type := option (outcome Empty_set (monitors * list event)).

Definition mret (s : monitors) (evs : list event) : mresult := Some (Val (s, evs)).

(** The rest of [monitor_get_or_create_sync_block_for_object], with the block of the
    manager at hand. *)
Definition publish (s : monitors) (t : Z) (k : entry) (o : Z) (current : option Z) (index : Z) : monitors :=
  match current with
  | Some existing =>
      if existing =? index then set_mpc s t (Entering k o index)
      else match get_sync_block (manager s) existing with
           | Some block => set_mpc s t (Entering k o block)
           | None => set_mpc (set_sync_block_index s o index) t (Entering k o index)
           end
  | None => set_mpc (set_sync_block_index s o index) t (Entering k o index)
  end.

Definition entered (s : monitors) (t o b : Z) (st : SyncBlockState) : monitors * list event :=
  (set_mpc (set_block s b st) t Outside, [Entered t o b]).

(** One turn of an entering operation, with the state of the block locked. *)
Definition enter_step (s : monitors) (t : Z) (late : bool) (k : entry) (o b : Z) : mresult :=
  match blocks (manager s) !! b with
  | None => None
  | Some st =>
      Some match k with
      | ETry =>
          let* (ok, st) := threaded_try_enter st t in
          Val (if ok : bool then entered s t o b st else (set_mpc s t Outside, [Refused t o]))
      | _ =>
          let* e := lock_and_try_enter st t in
          Val match e with
          | Acquired st => entered s t o b st
          | Contended =>
              match k, late with
              | (ETimeout | ETimeoutSafe), true => (set_mpc s t Outside, [Refused t o])
              | _, _ => (set_mpc s t (Waiting k o b), [])
              end
          end
      end
  end.

(** After the condition variable, with the state of the block locked again. *)
Definition wake_step (s : monitors) (t : Z) (late : bool) (k : entry) (o b : Z) : mresult :=
  match blocks (manager s) !! b with
  | None => None
  | Some st =>
      if owner_thread_id st =? INVALID_ARENA then Some (Val (entered s t o b (mark_entered t)))
      else match k with
           | ETry => None
           | EEnter => mret s []
           | ETimeout => if late then mret (set_mpc s t Outside) [Refused t o] else mret s []
           | ESafe | ETimeoutSafe => mret (set_mpc s t (Checking k o b)) []
           end
  end.

Definition leave_step (s : monitors) (t o b : Z) : mresult :=
  match blocks (manager s) !! b with
  | None => None
  | Some st =>
      let (ok, st) := threaded_exit st t in
      mret (set_mpc (set_block s b st) t Outside) [if ok : bool then Left t o b else NotLocked t o]
  end.

Definition advance (s : monitors) (t : Z) (stop late : bool) : mresult :=
  match mpc_of s t with
  | Outside => None
  | Looked k o current =>
      Some (let* (i, m) := get_or_create_sync_block (manager s) current in
            Val (set_mpc (set_manager s m) t (Got k o current i), []))
  | Got k o current i => mret (publish s t k o current i) []
  | Entering k o b => enter_step s t late k o b
  | Waiting k o b => wake_step s t late k o b
  | Checking k o b =>
      if stop then mret (set_mpc s t Outside) [Yielded t o] else mret (set_mpc s t (Entering k o b)) []
  | ExitLooked o i =>
      match get_sync_block (manager s) i with
      | Some b => mret (set_mpc s t (ExitGot o b)) []
      | None => mret (set_mpc s t Outside) [NotLocked t o]
      end
  | ExitGot o b => leave_step s t o b
  end.

(** The intrinsics refuse a thread without an identity. *)
Definition call_enter (s : monitors) (t : Z) (k : entry) (o : Z) : mresult :=
  if t =? INVALID_ARENA then Some Panic
  else match mpc_of s t with
       | Outside => mret (set_mpc s t (Looked k o (obj_index s !! o))) []
       | _ => None
       end.

Definition call_exit (s : monitors) (t o : Z) : mresult :=
  if t =? INVALID_ARENA then Some Panic
  else match mpc_of s t with
       | Outside =>
           match obj_index s !! o with
           | Some i => mret (set_mpc s t (ExitLooked o i)) []
           | None => mret s [NotLocked t o]
           end
       | _ => None
       end.

Inductive mlabel : Set :=
| Enter (t : Z) (k : entry) (o : Z)
| Leave (t o : Z)
| Advance (t : Z) (stop late : bool).

Definition mstep (l : mlabel) (s : monitors) : mresult :=
  match l with
  | Enter t k o => call_enter s t k o
  | Leave t o => call_exit s t o
  | Advance t stop late => advance s t stop late
  end.

(** The states reached from the start by steps that are [allowed], with what the
    operations reported. *)
Inductive history (allowed : mlabel -> monitors -> Prop) : list event -> monitors -> Prop :=
| history_init : history allowed [] monitors_init
| history_step l evs s evs' s' :
    history allowed evs s -> allowed l s -> mstep l s = Some (Val (s', evs')) -> history allowed (evs ++ evs') s'.

Definition anything (l : mlabel) (s : monitors) : Prop := True.

(** How often a thread has entered a block without leaving it. *)
Definition weigh (t b : Z) (e : event) : Z :=
  match e with
  | Entered t' _ b' => if (t' =? t) && (b' =? b) then 1 else 0
  | Left t' _ b' => if (t' =? t) && (b' =? b) then -1 else 0
  | _ => 0
  end.

Definition depth (t b : Z) (evs : list event) : Z := foldr (fun e n => weigh t b e + n) 0 evs.

(** ** The ledger of a block *)

Lemma depth_app t b evs evs' : depth t b (evs ++ evs') = depth t b evs + depth t b evs'.
Proof. induction evs as [|e evs IH]; simpl; lia. Qed.

Lemma depth_entered t b t' o b' : depth t b [Entered t' o b'] = if decide (t' = t /\ b' = b) then 1 else 0.
Proof. simpl. destruct (Z.eqb_spec t' t), (Z.eqb_spec b' b); case_decide; simpl; intuition lia. Qed.

Lemma depth_left t b t' o b' : depth t b [Left t' o b'] = if decide (t' = t /\ b' = b) then -1 else 0.
Proof. simpl. destruct (Z.eqb_spec t' t), (Z.eqb_spec b' b); case_decide; simpl; intuition lia. Qed.

(** What a step does to the blocks. *)
Inductive effect (m : SyncBlockManager) : SyncBlockManager -> list event -> Prop :=
| effect_none evs : (forall t b, depth t b evs = 0) -> effect m m evs
| effect_new :
    0 < next_index m ->
    effect m {| blocks := <[next_index m := threaded_new]> (blocks m); next_index := next_index m + 1 |} []
| effect_enter t o b st st' :
    blocks m !! b = Some st -> t <> INVALID_ARENA ->
    (owner_thread_id st = INVALID_ARENA /\ st' = mark_entered t \/
     owner_thread_id st = t /\ reenter st = Val st') ->
    effect m {| blocks := <[b := st']> (blocks m); next_index := next_index m |} [Entered t o b]
| effect_leave t o b st st' :
    blocks m !! b = Some st -> threaded_exit st t = (true, st') ->
    effect m {| blocks := <[b := st']> (blocks m); next_index := next_index m |} [Left t o b].

Lemma enter_cases st t e :
  lock_and_try_enter st t = Val e ->
  match e with
  | Acquired st' =>
      owner_thread_id st = INVALID_ARENA /\ st' = mark_entered t \/ owner_thread_id st = t /\ reenter st = Val st'
  | Contended => owner_thread_id st <> t /\ owner_thread_id st <> INVALID_ARENA
  end.
Proof.
  unfold lock_and_try_enter. destruct (Z.eqb_spec (owner_thread_id st) t) as [Ht|Ht].
  - destruct (reenter st) as [st'| |]; simpl; [|done..]. intros [= <-]. auto.
  - destruct (Z.eqb_spec (owner_thread_id st) INVALID_ARENA); intros [= <-]; auto.
Qed.

Lemma try_enter_cases st t ok st' :
  threaded_try_enter st t = Val (ok, st') ->
  if ok then owner_thread_id st = INVALID_ARENA /\ st' = mark_entered t \/ owner_thread_id st = t /\ reenter st = Val st'
  else st' = st.
Proof.
  unfold threaded_try_enter. destruct (Z.eqb_spec (owner_thread_id st) INVALID_ARENA); [intros [= <- <-]; auto|].
  destruct (Z.eqb_spec (owner_thread_id st) t) as [Ht|Ht]; [|by intros [= <- <-]].
  destruct (reenter st) as [s| |]; simpl; [|done..]. intros [= <- <-]. auto.
Qed.

Lemma exit_false st t st' : threaded_exit st t = (false, st') -> st' = st.
Proof. unfold threaded_exit. repeat case_match; by intros [= <-]. Qed.

Lemma set_block_same s b st : blocks (manager s) !! b = Some st -> manager (set_block s b st) = manager s.
Proof. intros H. simpl. rewrite insert_id by done. by destruct (manager s). Qed.

Lemma quiet e : (forall t b, weigh t b e = 0) -> forall t b, depth t b [e] = 0.
Proof. intros He t b. simpl. rewrite He. lia. Qed.

Lemma enter_step_effect s t late k o b s' evs :
  t <> INVALID_ARENA -> enter_step s t late k o b = Some (Val (s', evs)) -> effect (manager s) (manager s') evs.
Proof.
  unfold enter_step, entered. intros Ht Hs. destruct (blocks (manager s) !! b) as [st|] eqn:Eb; [|done]. injection Hs as Hs.
  assert (Hlock : forall late' : bool, (let* e := lock_and_try_enter st t in
      Val match e with
          | Acquired st' => (set_mpc (set_block s b st') t Outside, [Entered t o b])
          | Contended => if late' then (set_mpc s t Outside, [Refused t o]) else (set_mpc s t (Waiting k o b), [])
          end) = Val (s', evs) -> effect (manager s) (manager s') evs).
  { intros late' Heq. destruct (lock_and_try_enter st t) as [e| |] eqn:He; simplify_eq/=. apply enter_cases in He.
    destruct e; [|destruct late'; simplify_eq/=; constructor; by apply quiet || done].
    simplify_eq/=. by econstructor. }
  destruct k; [|by apply (Hlock false)|by apply (Hlock late)|by apply (Hlock false)|by apply (Hlock late)].
  destruct (threaded_try_enter st t) as [[ok st']| |] eqn:Etry; simplify_eq/=. apply try_enter_cases in Etry.
  destruct ok; simplify_eq/=; [by econstructor|]. constructor. by apply quiet.
Qed.

Lemma leave_step_effect s t o b s' evs :
  leave_step s t o b = Some (Val (s', evs)) -> effect (manager s) (manager s') evs.
Proof.
  unfold leave_step, mret. intros Hs. destruct (blocks (manager s) !! b) as [st|] eqn:Eb; [|done].
  destruct (threaded_exit st t) as [ok st'] eqn:Ex. destruct ok; injection Hs as <- <-; [by econstructor|].
  apply exit_false in Ex as ->. change (effect (manager s) (manager (set_block s b st)) [NotLocked t o]).
  rewrite set_block_same by done. constructor. by apply quiet.
Qed.

Lemma mstep_effect l s s' evs :
  mpc_of s INVALID_ARENA = Outside -> 0 < next_index (manager s) ->
  mstep l s = Some (Val (s', evs)) -> effect (manager s) (manager s') evs.
Proof.
  intros Hinv Hnext Hs.
  assert (Ht : forall t, mpc_of s t <> Outside -> t <> INVALID_ARENA) by (intros t ? ->; done).
  destruct l as [t k o|t o|t stop late]; simpl in Hs.
  - unfold call_enter, mret in Hs. repeat case_match; simplify_eq; by constructor.
  - unfold call_exit, mret in Hs. repeat case_match; simplify_eq; constructor; by apply quiet || done.
  - specialize (Ht t). unfold advance, mret in Hs.
    destruct (mpc_of s t) as [|k o c|k o c i|k o b|k o b|k o b|o i|o b] eqn:Ep; try done.
    + injection Hs as Hs. unfold get_or_create_sync_block in Hs. case_match; simplify_eq/=; [by constructor|].
      destruct (checked usize _) as [n|] eqn:En; simplify_eq/=. case_match; simplify_eq/=.
      unfold checked in En. case_match; simplify_eq. by constructor.
    + injection Hs as <- <-. unfold publish. repeat case_match; by constructor.
    + apply enter_step_effect in Hs; [done|by apply Ht].
    + unfold wake_step, mret in Hs. destruct (blocks (manager s) !! b) as [st|] eqn:Eb; [|done].
      destruct (Z.eqb_spec (owner_thread_id st) INVALID_ARENA).
      * injection Hs as <- <-. econstructor; eauto.
      * destruct k, late; simplify_eq/=; constructor; by apply quiet || done.
    + destruct stop; simplify_eq/=; constructor; by apply quiet || done.
    + repeat case_match; simplify_eq/=; constructor; by apply quiet || done.
    + by apply leave_step_effect in Hs.
Qed.

(** A block is free and nobody is inside, or its owner is inside as often as it counts
    and nobody else is. *)
Definition ledger (evs : list event) (b : Z) (st : SyncBlockState) : Prop :=
  owner_thread_id st = INVALID_ARENA /\ recursion_count st = 0 /\ (forall t, depth t b evs = 0) \/
  owner_thread_id st <> INVALID_ARENA /\ 1 <= recursion_count st /\
  depth (owner_thread_id st) b evs = recursion_count st /\ (forall t, t <> owner_thread_id st -> depth t b evs = 0).

Record blocks_ok (evs : list event) (m : SyncBlockManager) : Prop := {
  bo_next : 0 < next_index m;
  bo_fresh b : is_Some (blocks m !! b) -> 0 < b < next_index m;
  bo_ledger b st : blocks m !! b = Some st -> ledger evs b st;
  bo_absent t b : blocks m !! b = None -> depth t b evs = 0;
}.

Lemma ledger_enter evs b st st' t o :
  ledger evs b st -> t <> INVALID_ARENA ->
  owner_thread_id st = INVALID_ARENA /\ st' = mark_entered t \/ owner_thread_id st = t /\ reenter st = Val st' ->
  ledger (evs ++ [Entered t o b]) b st'.
Proof.
  intros [(Ho & Hc & Hd) | (Ho & Hc & Hown & Hd)] Ht [[Hi ->] | [Hi Hr]]; try congruence.
  - right. split; [done|]. split; [simpl; lia|]. simpl owner_thread_id. simpl recursion_count. split.
    + rewrite depth_app, depth_entered, Hd, decide_True by done. lia.
    + intros u Hu. rewrite depth_app, depth_entered, Hd, decide_False by naive_solver. lia.
  - right. unfold reenter, arith in Hr. case_match; simplify_eq/=. split; [done|]. split; [lia|]. split.
    + rewrite depth_app, depth_entered, Hown, decide_True by done. lia.
    + intros u Hu. rewrite depth_app, depth_entered, Hd, decide_False by naive_solver. lia.
Qed.

Lemma ledger_leave evs b st st' t o :
  ledger evs b st -> threaded_exit st t = (true, st') -> ledger (evs ++ [Left t o b]) b st'.
Proof.
  unfold threaded_exit. intros Hl Hx.
  destruct (Z.eqb_spec (owner_thread_id st) t) as [Ht|]; simpl in Hx; [|done].
  destruct (Z.eqb_spec t INVALID_ARENA) as [|Hv]; [done|]. destruct (Z.eqb_spec (recursion_count st) 0) as [|Hn]; [done|].
  injection Hx as <-. destruct Hl as [(Ho & _) | (Ho & Hc & Hown & Hd)]; [congruence|].
  assert (Hself : depth t b (evs ++ [Left t o b]) = recursion_count st - 1).
  { rewrite depth_app, depth_left, decide_True by done. rewrite <- Ht, Hown. lia. }
  assert (Hrest : forall u, u <> t -> depth u b (evs ++ [Left t o b]) = 0).
  { intros u Hu. rewrite depth_app, depth_left, decide_False by naive_solver. rewrite Hd by congruence. lia. }
  destruct (Z.eqb_spec (recursion_count st - 1) 0) as [H0|H0]; [left | right]; simpl.
  - split; [done|]. split; [done|]. intros u. destruct (decide (u = t)) as [->|]; [lia|auto].
  - rewrite Ht. split; [done|]. split; [lia|]. split; [lia|auto].
Qed.

(** The events of one block do not touch another. *)
Lemma ledger_other evs evs' b st : (forall t, depth t b evs' = 0) -> ledger evs b st -> ledger (evs ++ evs') b st.
Proof.
  intros H. unfold ledger. setoid_rewrite depth_app. setoid_rewrite H. setoid_rewrite Z.add_0_r. done.
Qed.

Lemma effect_ok evs m m' evs' : blocks_ok evs m -> effect m m' evs' -> blocks_ok (evs ++ evs') m'.
Proof.
  intros [Hn Hf Hl Ha] He. destruct He as [evs' Hq | Hpos | t o b st st' Hb Ht Hst | t o b st st' Hb Hx].
  - split; [done..| |].
    + intros b st Hb. apply ledger_other; auto.
    + intros t b Hb. rewrite depth_app, Hq, Ha by done. lia.
  - rewrite app_nil_r. split; simpl; [lia| | |].
    + intros b. rewrite lookup_insert_is_Some. intros [<- | [_ Hb%Hf]]; lia.
    + intros b st. rewrite lookup_insert_Some. intros [[<- <-] | [_ Hb]]; [|by apply Hl]. left. split; [done|]. split; [done|].
      intros t. apply Ha. apply eq_None_not_Some. intros ?%Hf. lia.
    + intros t b. rewrite lookup_insert_None. intros [Hb _]. by apply Ha.
  - split; simpl; [done| | |].
    + intros b'. rewrite lookup_insert_is_Some. intros [<- | [_ Hb']]; apply Hf; [by exists st|done].
    + intros b' st''. rewrite lookup_insert_Some. intros [[<- <-] | [Hne Hb']]; [eapply ledger_enter; eauto|].
      apply ledger_other; [|auto]. intros u. rewrite depth_entered, decide_False by naive_solver. done.
    + intros u b'. rewrite lookup_insert_None. intros [Hb' Hne]. rewrite depth_app, depth_entered, decide_False by naive_solver.
      rewrite Ha by done. lia.
  - split; simpl; [done| | |].
    + intros b'. rewrite lookup_insert_is_Some. intros [<- | [_ Hb']]; apply Hf; [by exists st|done].
    + intros b' st''. rewrite lookup_insert_Some. intros [[<- <-] | [Hne Hb']]; [eapply ledger_leave; eauto|].
      apply ledger_other; [|auto]. intros u. rewrite depth_left, decide_False by naive_solver. done.
    + intros u b'. rewrite lookup_insert_None. intros [Hb' Hne]. rewrite depth_app, depth_left, decide_False by naive_solver.
      rewrite Ha by done. lia.
Qed.

Lemma mpc_of_set s t p u : mpc_of (set_mpc s t p) u = if decide (u = t) then p else mpc_of s u.
Proof.
  unfold mpc_of. simpl. case_decide as H; [subst; by rewrite lookup_insert_eq|]. by rewrite lookup_insert_ne.
Qed.

Ltac pc_set := intros ?; by rewrite mpc_of_set.

(** The thread that takes a step. *)
Definition thread_of (l : mlabel) : Z := match l with Enter t _ _ | Leave t _ | Advance t _ _ => t end.

(** What a step does to the thread that takes it, and to the indices of the objects. *)
Inductive turn (s : monitors) (t : Z) : mpc -> mpc -> gmap Z Z -> list event -> Prop :=
| turn_look k o : turn s t Outside (Looked k o (obj_index s !! o)) (obj_index s) []
| turn_find k o i :
    is_Some (blocks (manager s) !! i) -> turn s t (Looked k o (Some i)) (Got k o (Some i) i) (obj_index s) []
| turn_create k o c :
    (forall j, c = Some j -> blocks (manager s) !! j = None) ->
    turn s t (Looked k o c) (Got k o c (next_index (manager s))) (obj_index s) []
| turn_keep k o i j :
    turn s t (Got k o (Some i) j) (Entering k o i) (obj_index s) []
| turn_publish k o c i :
    (forall j, c = Some j -> blocks (manager s) !! j = None) ->
    turn s t (Got k o c i) (Entering k o i) (<[o := i]> (obj_index s)) []
| turn_enter p k o b :
    p = Entering k o b \/ p = Waiting k o b -> turn s t p Outside (obj_index s) [Entered t o b]
| turn_wait k o b : turn s t (Entering k o b) (Waiting k o b) (obj_index s) []
| turn_check k o b : turn s t (Waiting k o b) (Checking k o b) (obj_index s) []
| turn_again k o b : turn s t (Checking k o b) (Entering k o b) (obj_index s) []
| turn_sleep k o b : turn s t (Waiting k o b) (Waiting k o b) (obj_index s) []
| turn_give_up p e : (forall u b, weigh u b e = 0) -> turn s t p Outside (obj_index s) [e]
| turn_exit_look o i : obj_index s !! o = Some i -> turn s t Outside (ExitLooked o i) (obj_index s) []
| turn_exit_find o i : turn s t (ExitLooked o i) (ExitGot o i) (obj_index s) []
| turn_leave o b : turn s t (ExitGot o b) Outside (obj_index s) [Left t o b].

Lemma enter_step_turn s t late k o b s' evs :
  enter_step s t late k o b = Some (Val (s', evs)) ->
  exists p', turn s t (Entering k o b) p' (obj_index s') evs /\
    forall u, mpc_of s' u = if decide (u = t) then p' else mpc_of s u.
Proof.
  unfold enter_step, entered. destruct (blocks (manager s) !! b) as [st|]; [|done]. intros [= Hs].
  assert (Hlock : forall late' : bool, (let* e := lock_and_try_enter st t in
      Val match e with
          | Acquired st' => (set_mpc (set_block s b st') t Outside, [Entered t o b])
          | Contended => if late' then (set_mpc s t Outside, [Refused t o]) else (set_mpc s t (Waiting k o b), [])
          end) = Val (s', evs) -> exists p', turn s t (Entering k o b) p' (obj_index s') evs /\
    forall u, mpc_of s' u = if decide (u = t) then p' else mpc_of s u).
  { intros late' Heq. destruct (lock_and_try_enter st t) as [[st'|]| |]; simplify_eq/=; [|destruct late'; simplify_eq/=].
    - eexists. split; [simpl; eapply turn_enter; by left|]. pc_set.
    - eexists. split; [simpl; by apply turn_give_up|]. pc_set.
    - eexists. split; [simpl; apply turn_wait|]. pc_set. }
  destruct k; [|by apply (Hlock false)|by apply (Hlock late)|by apply (Hlock false)|by apply (Hlock late)].
  destruct (threaded_try_enter st t) as [[ok st']| |]; simplify_eq/=. destruct ok; simplify_eq/=; eexists.
  - split; [simpl; eapply turn_enter; by left|]. pc_set.
  - split; [simpl; by apply turn_give_up|]. pc_set.
Qed.

Lemma mstep_turn l s s' evs :
  mstep l s = Some (Val (s', evs)) ->
  exists p', turn s (thread_of l) (mpc_of s (thread_of l)) p' (obj_index s') evs /\
    forall u, mpc_of s' u = if decide (u = thread_of l) then p' else mpc_of s u.
Proof.
  intros Hs.
  assert (Hstay : forall t u, mpc_of s u = if decide (u = t) then mpc_of s t else mpc_of s u)
    by (intros t u; by case_decide; subst).
  destruct l as [t k o|t o|t stop late]; simpl in *.
  - unfold call_enter, mret in Hs. repeat case_match; simplify_eq. eexists. split; [simpl; apply turn_look|]. pc_set.
  - unfold call_exit, mret in Hs. destruct (t =? INVALID_ARENA); [done|]. destruct (mpc_of s t) eqn:Ep; try done.
    case_match; simplify_eq; eexists.
    + split; [simpl; by apply turn_exit_look|]. pc_set.
    + split; [simpl; by apply turn_give_up|]. intros u. specialize (Hstay t u). by rewrite Ep in Hstay.
  - unfold advance, publish, wake_step, leave_step, entered, get_sync_block, mret in Hs.
    destruct (mpc_of s t) as [|k o c|k o c i|k o b|k o b|k o b|o i|o b] eqn:Ep; try done.
    + injection Hs as Hs. unfold get_or_create_sync_block in Hs.
      destruct c as [c|]; simpl in Hs; [destruct (blocks (manager s) !! c) eqn:Ec; simpl in Hs|].
      * simplify_eq. eexists. split; [simpl; by apply turn_find|]. pc_set.
      * destruct (expect _); simplify_eq/=. case_match; simplify_eq/=. eexists. split; [simpl; apply turn_create; by intros j [= <-]|]. pc_set.
      * destruct (expect _); simplify_eq/=. case_match; simplify_eq/=. eexists. split; [simpl; by apply turn_create|]. pc_set.
    + injection Hs as <- <-. destruct c as [c|]; [destruct (Z.eqb_spec c i) as [->|]; [|destruct (blocks (manager s) !! c) eqn:Ec; simpl]|].
      * eexists. split; [simpl; apply turn_keep|]. pc_set.
      * eexists. split; [simpl; apply turn_keep|]. pc_set.
      * eexists. split; [simpl; apply turn_publish; by intros j [= <-]|]. pc_set.
      * eexists. split; [simpl; by apply turn_publish|]. pc_set.
    + by apply enter_step_turn in Hs.
    + destruct (blocks (manager s) !! b) as [st|]; [|done]. destruct (owner_thread_id st =? INVALID_ARENA).
      * simplify_eq. eexists. split; [simpl; eapply turn_enter; by right|]. pc_set.
      * destruct k, late; simplify_eq; eexists.
        all: first [split; [simpl; apply turn_check|pc_set]
                   |split; [simpl; by apply turn_give_up|pc_set]
                   |split; [simpl; apply turn_sleep|intros u; specialize (Hstay t u); by rewrite Ep in Hstay]].
    + destruct stop; simplify_eq; eexists; (split; [simpl|pc_set]); [by apply turn_give_up|apply turn_again].
    + destruct (blocks (manager s) !! i); simplify_eq/=; eexists; (split; [simpl|pc_set]);
        [apply turn_exit_find|by apply turn_give_up].
    + destruct (blocks (manager s) !! b) as [st|]; [|done]. destruct (threaded_exit st t) as [ok st'].
      destruct ok; simplify_eq/=; eexists; (split; [simpl|pc_set]); [apply turn_leave|by apply turn_give_up].
Qed.

Lemma mstep_others l s s' evs u :
  mstep l s = Some (Val (s', evs)) -> u <> thread_of l -> mpc_of s' u = mpc_of s u.
Proof. intros (p' & _ & Hu)%mstep_turn Hne. rewrite Hu. by rewrite decide_False. Qed.

Section histories.

Context {allowed : mlabel -> monitors -> Prop}.

Lemma history_blocks evs s :
  history allowed evs s -> mpc_of s INVALID_ARENA = Outside /\ blocks_ok evs (manager s).
Proof.
  induction 1 as [|l evs s evs' s' _ [Hi Hb] _ Hs].
  - split; [done|]. split; simpl; [lia|intros b; rewrite lookup_empty; by intros []|intros b st; by rewrite lookup_empty|done].
  - split; [|by eapply effect_ok, mstep_effect; eauto using bo_next].
    destruct (decide (thread_of l = INVALID_ARENA)) as [Ht|Ht]; [|by erewrite mstep_others by eauto].
    destruct l as [t k o|t o|t stop late]; simpl in Ht; subst; simpl in Hs; unfold call_enter, call_exit in Hs.
    + by rewrite Z.eqb_refl in Hs.
    + by rewrite Z.eqb_refl in Hs.
    + unfold advance in Hs. by rewrite Hi in Hs.
Qed.

Lemma ledger_owner evs b st t :
  ledger evs b st -> 0 < depth t b evs -> owner_thread_id st = t /\ recursion_count st = depth t b evs.
Proof.
  intros [(_ & _ & Hd) | (_ & _ & Hown & Hd)] Ht; [specialize (Hd t); lia|].
  destruct (decide (t = owner_thread_id st)) as [->|Hne]; [done|]. apply Hd in Hne. lia.
Qed.

Lemma inside_owner evs s b t :
  history allowed evs s -> 0 < depth t b evs ->
  exists st, blocks (manager s) !! b = Some st /\ owner_thread_id st = t /\ recursion_count st = depth t b evs.
Proof.
  intros [_ Hb]%history_blocks Ht. destruct (blocks (manager s) !! b) as [st|] eqn:Eb.
  - exists st. split; [done|]. apply ledger_owner; [|done]. by eapply bo_ledger.
  - rewrite (bo_absent _ _ Hb) in Ht by done. lia.
Qed.

(** *** Which object a block belongs to *)

Definition pc_ties (p : mpc) : list (Z * Z) :=
  match p with
  | Outside | Looked _ _ None => []
  | Looked _ o (Some i) => [(o, i)]
  | Got _ o c i => (o, i) :: match c with Some j => [(o, j)] | None => [] end
  | Entering _ o b | Waiting _ o b | Checking _ o b => [(o, b)]
  | ExitLooked o i | ExitGot o i => [(o, i)]
  end.

Definition event_ties (e : event) : list (Z * Z) :=
  match e with Entered _ o b | Left _ o b => [(o, b)] | _ => [] end.

Lemma quiet_ties e : (forall t b, weigh t b e = 0) -> event_ties e = [].
Proof.
  intros He. destruct e as [u o b| | |u o b|]; simpl in *; try done; specialize (He u b);
    rewrite !Z.eqb_refl in He; simpl in He; lia.
Qed.

(** Block [b] was used, is used or will be used as the block of object [o]. *)
Inductive tied (evs : list event) (s : monitors) (o b : Z) : Prop :=
| tied_index : obj_index s !! o = Some b -> tied evs s o b
| tied_pc t : (o, b) ∈ pc_ties (mpc_of s t) -> tied evs s o b
| tied_event e : e ∈ evs -> (o, b) ∈ event_ties e -> tied evs s o b.

(** What a turn ties is tied before, or is new. *)
Lemma turn_ties s t p p' idx evs o b :
  turn s t p p' idx evs -> mpc_of s t = p ->
  (o, b) ∈ pc_ties p' \/ idx !! o = Some b \/ (exists e, e ∈ evs /\ (o, b) ∈ event_ties e) ->
  (forall evs0, tied evs0 s o b) \/
  b = next_index (manager s) /\ exists k c, p = Looked k o c /\ p' = Got k o c b.
Proof.
  intros Ht Hp Hin.
  assert (Hpc : (o, b) ∈ pc_ties p -> forall evs0, tied evs0 s o b) by (intros H evs0; apply tied_pc with t; by rewrite Hp).
  assert (Hidx : obj_index s !! o = Some b -> forall evs0, tied evs0 s o b) by (intros H evs0; by apply tied_index).
  destruct Ht as [k o'|k o' i Hi|k o' c Hc|k o' i j|k o' c i Hc|p k o' b' Hp'|k o' b'|k o' b'|k o' b'|k o' b'|p e He|o' i Hi|o' i|o' b'];
    simpl in *.
  all: try (left; set_solver).
  - left. destruct (obj_index s !! o') eqn:Eo; set_solver.
  - destruct Hin as [Hin | Hin]; [|left; set_solver]. apply elem_of_cons in Hin as [[= -> ->] | Hin]; [|left; by apply Hpc].
    right. eauto.
  - left. rewrite lookup_insert_Some in Hin. destruct Hin as [Hin | [[[<- <-] | [_ Hin]] | Hin]]; [set_solver| |auto|set_solver].
    apply Hpc. by left.
  - left. destruct Hin as [Hin | [Hin | (e & ->%list_elem_of_singleton & Hob)]]; [set_solver|auto|].
    apply Hpc. by destruct Hp'; subst p.
  - left. destruct Hin as [Hin | [Hin | (e' & ->%list_elem_of_singleton & Hob)]]; [set_solver|auto|].
    rewrite (quiet_ties _ He) in Hob. by apply elem_of_nil in Hob.
  - left. destruct Hin as [Hin | [Hin | (e & ->%list_elem_of_singleton & Hob)]]; [set_solver|auto|auto].
Qed.

Lemma get_or_create_block m c i m' :
  get_or_create_sync_block m c = Val (i, m') -> is_Some (blocks m' !! i).
Proof.
  unfold get_or_create_sync_block. destruct (c ≫= _) as [j|] eqn:Ec.
  - intros [= <- <-]. apply bind_Some in Ec as (x & _ & Hx). apply fmap_Some in Hx as (st & Hst & ->). by exists st.
  - destruct (expect _) as [n| |]; simpl; [|done..]. case_match; [done|]. intros [= <- <-]. simpl. rewrite lookup_insert_eq. eauto.
Qed.

Lemma got_block l s s' evs k o c i :
  mstep l s = Some (Val (s', evs)) -> mpc_of s' (thread_of l) = Got k o c i -> is_Some (blocks (manager s') !! i).
Proof.
  intros Hs Hp. destruct (mstep_turn _ _ _ _ Hs) as (p' & Ht & Hpc). specialize (Hpc (thread_of l)).
  rewrite decide_True in Hpc by done. rewrite Hpc in Hp. subst p'.
  assert (Hl : exists c', mpc_of s (thread_of l) = Looked k o c') by (inversion Ht; eauto). destruct Hl as [c' Hl].
  destruct l as [t k' o'|t o'|t stop late]; simpl in *.
  - unfold call_enter in Hs. case_match; [done|]. by rewrite Hl in Hs.
  - unfold call_exit in Hs. case_match; [done|]. by rewrite Hl in Hs.
  - unfold advance in Hs. rewrite Hl in Hs. injection Hs as Hs.
    destruct (get_or_create_sync_block (manager s) c') as [[j m]| |] eqn:Eg; simplify_eq/=.
    rewrite mpc_of_set, decide_True in Hpc by done. simplify_eq. by eapply get_or_create_block.
Qed.

Lemma effect_grows m m' evs b : effect m m' evs -> is_Some (blocks m !! b) -> is_Some (blocks m' !! b).
Proof.
  intros He Hb. assert (Hi : forall j st, is_Some (<[j := st]> (blocks m) !! b)); [|destruct He; simpl; [exact Hb|apply Hi..]].
  intros j st. rewrite lookup_insert_is_Some. destruct (decide (j = b)); auto.
Qed.

(** Every block belongs to one object. *)
Definition ties_ok (evs : list event) (s : monitors) : Prop :=
  (forall o b, tied evs s o b -> is_Some (blocks (manager s) !! b)) /\
  (forall o o' b, tied evs s o b -> tied evs s o' b -> o = o').

(** A step ties what was tied before, or a new block to one object. *)
Lemma step_ties l evs s evs' s' o b :
  mstep l s = Some (Val (s', evs')) -> tied (evs ++ evs') s' o b ->
  tied evs s o b \/ b = next_index (manager s) /\ exists k c, mpc_of s (thread_of l) = Looked k o c /\ mpc_of s' (thread_of l) = Got k o c b.
Proof.
  intros Hs Ht. destruct (mstep_turn _ _ _ _ Hs) as (p' & Hturn & Hpc).
  assert (Hp' : mpc_of s' (thread_of l) = p') by (rewrite Hpc; by rewrite decide_True).
  rewrite Hp'.
  destruct Ht as [Ht | u Ht | e [He | He]%elem_of_app Ht].
  - destruct (turn_ties _ _ _ _ _ _ o b Hturn eq_refl) as [|]; auto.
  - rewrite Hpc in Ht. case_decide; [|left; by apply tied_pc with u].
    destruct (turn_ties _ _ _ _ _ _ o b Hturn eq_refl) as [|]; auto.
  - left. by apply tied_event with e.
  - destruct (turn_ties _ _ _ _ _ _ o b Hturn eq_refl) as [|]; eauto.
Qed.

Lemma history_ties evs s : history allowed evs s -> ties_ok evs s.
Proof.
  induction 1 as [|l evs s evs' s' Hh [Hb Ho] _ Hs].
  - split; [intros o b [Ht | t Ht | e Ht _] | intros o o' b [Ht | t Ht | e Ht _] _];
      unfold mpc_of in Ht; simpl in Ht; try rewrite lookup_empty in Ht; set_solver.
  - destruct (history_blocks _ _ Hh) as [Hinv Hok].
    pose proof (mstep_effect _ _ _ _ Hinv (bo_next _ _ Hok) Hs) as Heff.
    assert (Hold : forall o b, tied evs s o b -> b <> next_index (manager s)).
    { intros o b Ht. apply Hb in Ht. apply (bo_fresh _ _ Hok) in Ht. lia. }
    split.
    + intros o b [Ht | (_ & k & c & _ & Hp)]%(step_ties _ _ _ _ _ _ _ Hs); [|by eapply got_block].
      eapply effect_grows; eauto.
    + intros o o' b [Ht | (Hn & k & c & Hp & _)]%(step_ties _ _ _ _ _ _ _ Hs)
        [Ht' | (Hn' & k' & c' & Hp' & _)]%(step_ties _ _ _ _ _ _ _ Hs); [eauto| | |congruence].
      * by apply Hold in Ht.
      * by apply Hold in Ht'.
Qed.

End histories.

(** *** Objects whose block is created once *)

Section unraced.

Variable o : Z.

(** Between reading that the object has no index and publishing one. *)
Definition creating (p : mpc) : bool :=
  match p with Looked _ o' None | Got _ o' None _ => o' =? o | _ => false end.

(** No thread starts to create the block of the object while another one does. *)
Definition unraced (l : mlabel) (s : monitors) : Prop :=
  forall t k, l = Enter t k o -> obj_index s !! o = None -> forall u, creating (mpc_of s u) = false.

Definition settled (evs : list event) (s : monitors) : Prop :=
  match obj_index s !! o with
  | None =>
      (forall t b, (o, b) ∈ pc_ties (mpc_of s t) -> exists k, mpc_of s t = Got k o None b) /\
      (forall e b, e ∈ evs -> (o, b) ∉ event_ties e) /\
      (forall t u, creating (mpc_of s t) = true -> creating (mpc_of s u) = true -> t = u)
  | Some i => (forall b, tied evs s o b -> b = i) /\ forall t, creating (mpc_of s t) = false
  end.

Lemma turn_creating s t p p' idx evs :
  turn s t p p' idx evs -> creating p' = true ->
  creating p = true \/ p = Outside /\ obj_index s !! o = None /\ exists k, p' = Looked k o None.
Proof.
  destruct 1 as [k o'|k o' i Hi|k o' c Hc| | | | | | | | | | |]; simpl; try done.
  - destruct (obj_index s !! o') eqn:Eo; [done|]. intros ->%Z.eqb_eq. eauto.
  - auto.
Qed.

Lemma turn_before s t p p' idx evs :
  turn s t p p' idx evs -> obj_index s !! o = None ->
  (forall b, (o, b) ∈ pc_ties p -> exists k, p = Got k o None b) ->
  (exists k i, p = Got k o None i /\ p' = Entering k o i /\ idx !! o = Some i /\ evs = []) \/
  (idx !! o = None /\ (forall b, (o, b) ∈ pc_ties p' -> exists k, p' = Got k o None b) /\
   forall e b, e ∈ evs -> (o, b) ∉ event_ties e).
Proof.
  intros Ht Hn Hp.
  destruct Ht as [k o'|k o' i Hi|k o' c Hc|k o' i j|k o' c i Hc|p k o' b' Hp'|k o' b'|k o' b'|k o' b'|k o' b'|p e He|o' i Hi|o' i|o' b'];
    simpl in *.
  (* a thread that is not about to publish is not tied to the object *)
  all: try (right; split; [done|]; split; [intros b Hb; by apply Hp in Hb as [? ?]|by intros e b ?%elem_of_nil]).
  - right. split; [done|]. split; [|by intros e b ?%elem_of_nil]. intros b Hb.
    destruct (obj_index s !! o') eqn:Eo; [|by apply elem_of_nil in Hb]. apply list_elem_of_singleton in Hb. congruence.
  - right. split; [done|]. split; [|by intros e b ?%elem_of_nil]. intros b Hb. exfalso.
    destruct (Hp b) as [? ?]; [|done]. set_solver.
  - right. split; [done|]. split; [|by intros e b ?%elem_of_nil]. intros b [[= -> ->] | Hb]%elem_of_cons.
    + destruct c as [j|]; [|by eexists]. by destruct (Hp j) as [? ?]; [set_solver|].
    + by apply Hp in Hb as [? ?].
  - right. split; [done|]. split; [|by intros e b ?%elem_of_nil]. intros b Hb. exfalso.
    destruct (Hp b) as [? ?]; [|done]. set_solver.
  - destruct (decide (o' = o)) as [->|Hne].
    + destruct (Hp i) as [k' [= -> ->]]; [by left|]. left. exists k', i. by rewrite lookup_insert_eq.
    + right. rewrite lookup_insert_ne by done. split; [done|]. split; [|by intros e b ?%elem_of_nil].
      intros b [[= -> ->] | Hb]%elem_of_cons; [done|by apply elem_of_nil in Hb].
  - right. split; [done|]. split; [by intros b ?%elem_of_nil|]. intros e b ->%list_elem_of_singleton Hb.
    destruct (Hp b) as [? ?]; [by destruct Hp' as [-> | ->]|]. by destruct Hp'; subst p.
  - right. split; [done|]. split; [by intros b ?%elem_of_nil|]. intros e' b ->%list_elem_of_singleton Hb.
    rewrite (quiet_ties _ He) in Hb. by apply elem_of_nil in Hb.
  - right. split; [done|]. split; [|by intros e b ?%elem_of_nil]. intros b Hb%list_elem_of_singleton. congruence.
  - right. split; [done|]. split; [by intros b ?%elem_of_nil|]. intros e b ->%list_elem_of_singleton Hb.
    by destruct (Hp b) as [? ?].
Qed.


Lemma settled_before l evs s evs' s' :
  unraced l s -> mstep l s = Some (Val (s', evs')) ->
  obj_index s !! o = None -> settled evs s -> settled (evs ++ evs') s'.
Proof.
  unfold settled at 1. intros Hun Hs Hn Hset. rewrite Hn in Hset. destruct Hset as (Hties & Hevs & Hone).
  destruct (mstep_turn _ _ _ _ Hs) as (p' & Ht & Hpc).
  assert (Hself : mpc_of s' (thread_of l) = p') by (rewrite Hpc; by rewrite decide_True).
  destruct (turn_before _ _ _ _ _ _ Ht Hn (Hties _)) as [(k & i & Hp & -> & Hi & ->) | (Hi & Hp' & He')].
  - unfold settled. rewrite Hi, app_nil_r.
    assert (Hc : forall u, creating (mpc_of s u) = true -> u = thread_of l).
    { intros u Hu. apply Hone; [done|]. rewrite Hp. simpl. apply Z.eqb_refl. }
    split.
    + intros b [Hb | u Hb | e Hin Hb]; [congruence| |by apply Hevs in Hb].
      rewrite Hpc in Hb. case_decide as Hu; [set_solver|]. apply Hties in Hb as [k' Hb].
      contradict Hu. apply Hc. rewrite Hb. simpl. apply Z.eqb_refl.
    + intros u. destruct (creating (mpc_of s' u)) eqn:Eu; [|done]. rewrite Hpc in Eu. case_decide; [done|]. by apply Hc in Eu.
  - unfold settled. rewrite Hi. split; [|split].
    + intros u b Hb. rewrite Hpc in *. case_decide; auto.
    + intros e b [Hin | Hin]%elem_of_app; auto.
    + assert (Hcr : forall u, creating (mpc_of s' u) = true ->
        creating (mpc_of s u) = true \/ u = thread_of l /\ forall v, creating (mpc_of s v) = false).
      { intros u Hu. rewrite Hpc in Hu. case_decide as Hul; [|auto]. subst u.
        destruct (turn_creating _ _ _ _ _ _ Ht Hu) as [|(Hout & _ & k & ->)]; [auto|]. right. split; [done|].
        destruct l as [t k' o'|t o'|t stop late]; simpl in *.
        - unfold call_enter, mret in Hs. repeat case_match; simplify_eq.
          rewrite mpc_of_set, decide_True in Hself by done. simplify_eq. by eapply Hun.
        - unfold call_exit, mret in Hs. rewrite Hout in Hs. repeat case_match; simplify_eq;
            rewrite ?mpc_of_set, ?decide_True in Hself by done; congruence.
        - unfold advance in Hs. by rewrite Hout in Hs. }
      intros t u [Ht1 | [-> Ht1]]%Hcr [Hu1 | [-> Hu1]]%Hcr; [by apply Hone|..|done]; congruence.
Qed.

Lemma settled_after l evs s evs' s' i :
  blocks_ok evs (manager s) -> ties_ok evs s -> mstep l s = Some (Val (s', evs')) ->
  obj_index s !! o = Some i -> settled evs s -> settled (evs ++ evs') s'.
Proof.
  unfold settled at 1. intros Hok Hto Hs Hn Hset. rewrite Hn in Hset. destruct Hset as (Hties & Hcr).
  destruct (mstep_turn _ _ _ _ Hs) as (p' & Ht & Hpc).
  assert (Hself : mpc_of s' (thread_of l) = p') by (rewrite Hpc; by rewrite decide_True).
  assert (Hi : is_Some (blocks (manager s) !! i)) by (eapply Hto; by apply tied_index).
  assert (Hnew : forall b, tied (evs ++ evs') s' o b -> b = i).
  { intros b [Hb | (-> & k & c & Hp & Hp')]%(step_ties _ _ _ _ _ _ _ Hs); [auto|]. exfalso.
    specialize (Hcr (thread_of l)). rewrite Hp in Hcr. destruct c as [j|]; [|simpl in Hcr; by rewrite Z.eqb_refl in Hcr].
    assert (j = i) as -> by (apply Hties; apply tied_pc with (thread_of l); rewrite Hp; set_solver).
    rewrite Hp, <- Hself, Hp' in Ht. inversion Ht as [|? ? ? Hb|? ? ? Hc| | | | | | | | | | |]; subst.
    - apply (bo_fresh _ _ Hok) in Hb. lia.
    - rewrite Hc in Hi by done. by destruct Hi. }
  assert (Hidx : obj_index s' !! o = Some i).
  { assert (Hd : obj_index s' !! o = obj_index s !! o \/ exists j, obj_index s' !! o = Some j).
    { inversion Ht; auto. destruct (decide (o0 = o)) as [->|]; [rewrite lookup_insert_eq; eauto|]. left. by rewrite lookup_insert_ne. }
    destruct Hd as [->|[j Hj]]; [done|]. rewrite Hj. f_equal. apply Hnew. by apply tied_index. }
  unfold settled. rewrite Hidx. split; [done|]. intros u. rewrite Hpc. case_decide; [|done].
  destruct (creating p') eqn:Ec; [|done]. destruct (turn_creating _ _ _ _ _ _ Ht Ec) as [|(_ & Hno & _)]; congruence.
Qed.

Lemma history_settled evs s : history unraced evs s -> settled evs s.
Proof.
  induction 1 as [|l evs s evs' s' Hh IH Hun Hs].
  - split; [|split]; unfold mpc_of; simpl; [intros t b; set_solver|set_solver|done].
  - destruct (obj_index s !! o) as [i|] eqn:Eo; [|by eapply settled_before].
    destruct (history_blocks _ _ Hh) as [_ Hok]. eapply settled_after; eauto using history_ties.
Qed.

End unraced.

(** ** Theorems *)

(** How often a thread has entered the monitor of an object without leaving it. *)
Definition oweigh (t o : Z) (e : event) : Z :=
  match e with
  | Entered t' o' _ => if (t' =? t) && (o' =? o) then 1 else 0
  | Left t' o' _ => if (t' =? t) && (o' =? o) then -1 else 0
  | _ => 0
  end.

Definition odepth (t o : Z) (evs : list event) : Z := foldr (fun e n => oweigh t o e + n) 0 evs.

Lemma odepth_depth t o i evs :
  (forall e o' b, e ∈ evs -> (o', b) ∈ event_ties e -> o' = o <-> b = i) -> odepth t o evs = depth t i evs.
Proof.
  induction evs as [|e evs IH]; intros H; simpl; [done|]. rewrite IH by (intros; eapply H; [by right|done]). f_equal.
  destruct e as [u o' b'| | |u o' b'|]; simpl; try done;
    (assert (Hob : o' = o <-> b' = i) by (eapply H; [by left|simpl; set_solver]));
    destruct (Z.eqb_spec o' o), (Z.eqb_spec b' i); tauto || done.
Qed.

Lemma odepth_settled o evs s t :
  history (unraced o) evs s -> 0 < odepth t o evs ->
  exists i, obj_index s !! o = Some i /\ (forall b, tied evs s o b -> b = i) /\ forall u, odepth u o evs = depth u i evs.
Proof.
  intros Hh Ht. pose proof (history_settled _ _ _ Hh) as Hset. pose proof (history_ties _ _ Hh) as [_ Huniq].
  unfold settled in Hset. destruct (obj_index s !! o) as [i|] eqn:Ei.
  - exists i. destruct Hset as [Hi _]. split; [done|]. split; [done|]. intros u. apply odepth_depth. intros e o' b He Hb.
    assert (Hob : tied evs s o' b) by by apply tied_event with e. split; [intros ->; auto|]. intros ->.
    apply (Huniq o' o i Hob). by apply tied_index.
  - destruct Hset as (_ & Hev & _). exfalso. clear Hh Huniq.
    assert (H0 : odepth t o evs = 0); [|lia]. clear Ht. induction evs as [|e evs IH]; [done|]. simpl.
    rewrite IH by (intros; apply Hev; by right). assert (Hno : forall b, (o, b) ∉ event_ties e) by (intros b; apply Hev; by left).
    destruct e as [u o' b'| | |u o' b'|]; simpl in *; try done;
      (destruct (Z.eqb_spec o' o) as [->|]; [by destruct (Hno b'); left|by rewrite andb_false_r]).
Qed.

(** Whatever the threads do, a sync block counts exactly: its owner is inside as often as
    its recursion count says, and no other thread is inside. *)
Theorem block_excludes evs s b t :
  history anything evs s -> 0 < depth t b evs ->
  (exists st, blocks (manager s) !! b = Some st /\ owner_thread_id st = t /\ recursion_count st = depth t b evs) /\
  forall u, 0 < depth u b evs -> u = t.
Proof.
  intros Hh Ht. destruct (inside_owner _ _ _ _ Hh Ht) as (st & Hb & Ho & Hc). split; [eauto|].
  intros u Hu. destruct (inside_owner _ _ _ _ Hh Hu) as (st' & Hb' & Ho' & _). congruence.
Qed.

(** What is left of [Monitor.Exit] succeeds, wherever the thread is in it: from outside the
    call looks up the index of the object, the block is found under it, and leaving it
    reports that the monitor was left. *)
Definition leaves (t o : Z) (s : monitors) : Prop := forall stop late,
  match mpc_of s t with
  | Outside => exists s' i, mstep (Leave t o) s = Some (Val (s', [])) /\ mpc_of s' t = ExitLooked o i
  | ExitLooked o' _ => o' = o -> exists s' b, mstep (Advance t stop late) s = Some (Val (s', [])) /\ mpc_of s' t = ExitGot o b
  | ExitGot o' b => o' = o -> exists s', mstep (Advance t stop late) s = Some (Val (s', [Left t o b])) /\ mpc_of s' t = Outside
  | _ => True
  end.

Lemma inside_leaves o evs s t i st :
  history (unraced o) evs s -> obj_index s !! o = Some i -> (forall b, tied evs s o b -> b = i) ->
  blocks (manager s) !! i = Some st -> owner_thread_id st = t -> 0 < recursion_count st -> t <> INVALID_ARENA -> leaves t o s.
Proof.
  intros Hh Hi Htied Hb Ho Hc Ht stop late.
  assert (Hself : forall s p, mpc_of (set_mpc s t p) t = p) by (intros; rewrite mpc_of_set; by rewrite decide_True).
  destruct (mpc_of s t) as [| | | | | |o' i'|o' b] eqn:Hp; try done; simpl.
  - unfold call_exit. rewrite (proj2 (Z.eqb_neq t INVALID_ARENA) Ht), Hp, Hi. do 2 eexists. split; [reflexivity | apply Hself].
  - intros ->. assert (i' = i) as -> by (apply Htied; apply tied_pc with t; rewrite Hp; by left).
    unfold advance, get_sync_block. rewrite Hp, Hb. do 2 eexists. split; [reflexivity | apply Hself].
  - intros ->. assert (b = i) as -> by (apply Htied; apply tied_pc with t; rewrite Hp; by left).
    unfold advance, leave_step, threaded_exit. rewrite Hp, Hb, Ho, Z.eqb_refl, (proj2 (Z.eqb_neq t INVALID_ARENA) Ht).
    destruct (Z.eqb_spec (recursion_count st) 0); [lia|]. eexists. split; [reflexivity | apply Hself].
Qed.

(** C30. The monitor of an object excludes, provided that no thread starts to create its sync
    block while another does: one thread at a time is inside, however often it entered,
    and its [Monitor.Exit] succeeds, at every one of its steps and whatever the other
    threads do in between. *)
Theorem monitor_excludes o evs s t :
  history (unraced o) evs s -> 0 < odepth t o evs ->
  (forall u, 0 < odepth u o evs -> u = t) /\ leaves t o s.
Proof.
  intros Hh Ht. destruct (odepth_settled _ _ _ _ Hh Ht) as (i & Hi & Htied & Hd).
  rewrite Hd in Ht. destruct (inside_owner _ _ _ _ Hh Ht) as (st & Hb & Ho & Hc). split.
  - intros u Hu. rewrite Hd in Hu. destruct (inside_owner _ _ _ _ Hh Hu) as (st' & Hb' & Ho' & _). congruence.
  - eapply inside_leaves; eauto; [lia|]. destruct (history_blocks _ _ Hh) as [_ Hok].
    destruct (bo_ledger _ _ Hok _ _ Hb) as [(_ & _ & H0)|(Hne & _)]; [specialize (H0 t); lia | congruence].
Qed.

(** *** Concrete histories *)

Fixpoint mplay (check : mlabel -> monitors -> bool) (ls : list mlabel) (evs : list event) (s : monitors)
  : option (list event * monitors) :=
  match ls with
  | [] => Some (evs, s)
  | l :: ls =>
      if check l s then
        match mstep l s with Some (Val (s', evs')) => mplay check ls (evs ++ evs') s' | _ => None end
      else None
  end.

Lemma mplay_history check allowed ls evs s r :
  (forall l s, check l s = true -> allowed l s) -> history allowed evs s ->
  mplay check ls evs s = Some r -> history allowed r.1 r.2.
Proof.
  intros Hc. revert evs s. induction ls as [|l ls IH]; intros evs s Hh; simpl; [by intros [= <-]|].
  destruct (check l s) eqn:El; [|done]. destruct (mstep l s) as [[[s' evs']| |]|] eqn:Es; try done.
  apply IH. eapply history_step; eauto.
Qed.

Definition unraced_check (o : Z) (l : mlabel) (s : monitors) : bool :=
  match l with
  | Enter _ _ _ => forallb (fun x : Z * mpc => negb (creating o x.2)) (map_to_list (mpcs s))
  | _ => true
  end.

Lemma unraced_check_ok o l s : unraced_check o l s = true -> unraced o l s.
Proof.
  intros Hc t k -> _ u. simpl in Hc. rewrite forallb_forall in Hc. unfold mpc_of.
  destruct (mpcs s !! u) as [p|] eqn:Eu; [|done]. simpl. apply negb_true_iff.
  apply (Hc (u, p)). apply list_elem_of_In. by apply elem_of_map_to_list.
Qed.

Definition steps (t : Z) (n : nat) : list mlabel := repeat (Advance t false false) n.

(** Thread 1 enters object 7 twice, thread 2 waits, thread 1 is about to leave. *)
Definition orderly : list mlabel :=
  Enter 1 ESafe 7 :: steps 1 3 ++ Enter 1 ETry 7 :: steps 1 3 ++ Enter 2 ETimeoutSafe 7 :: steps 2 3 ++ Leave 1 7 :: steps 1 1.

(** Threads 1 and 2 enter object 7, each having read that it has no index. *)
Definition racing : list mlabel := Enter 1 ESafe 7 :: Enter 2 ESafe 7 :: steps 1 3 ++ steps 2 3.

Lemma block_excludes_witness :
  exists evs s, history anything evs s /\ depth 1 1 evs = 2 /\ mpc_of s 2 = Waiting ETimeoutSafe 7 1 /\ depth 2 1 evs <= 0.
Proof.
  destruct (mplay (fun _ _ => true) orderly [] monitors_init) as [[evs s]|] eqn:E; [|by vm_compute in E].
  assert (Hh : history anything evs s) by (eapply (mplay_history _ _ _ _ _ (evs, s)); eauto using history_init; done).
  exists evs, s. vm_compute in E. injection E as He Hs. rewrite <- Hs at 2. rewrite <- He at 2 3.
  split; [exact Hh|]. split; [reflexivity|]. split; [reflexivity|].
  assert (H1 : 0 < depth 1 1 evs) by (by rewrite <- He). destruct (block_excludes evs s 1 1 Hh H1) as [_ Hu].
  apply Z.le_ngt. intros H2. assert (H : 0 < depth 2 1 evs) by (by rewrite <- He). by apply Hu in H.
Defined.

Lemma monitor_excludes_witness :
  exists evs s s', history (unraced 7) evs s /\ odepth 1 7 evs = 2 /\
    mstep (Advance 1 false false) s = Some (Val (s', [Left 1 7 1])).
Proof.
  destruct (mplay (unraced_check 7) orderly [] monitors_init) as [[evs s]|] eqn:E; [|by vm_compute in E].
  assert (Hh : history (unraced 7) evs s).
  { eapply (mplay_history _ _ _ _ _ (evs, s)); eauto using history_init, unraced_check_ok. }
  vm_compute in E. injection E as He Hs.
  assert (H1 : 0 < odepth 1 7 evs) by (by rewrite <- He). assert (Hp : mpc_of s 1 = ExitGot 7 1) by (by rewrite <- Hs).
  destruct (monitor_excludes 7 evs s 1 Hh H1) as [_ Hx]. specialize (Hx false false). rewrite Hp in Hx.
  destruct (Hx eq_refl) as (s' & Hs' & _).
  exists evs, s, s'. split; [exact Hh|]. split; [by rewrite <- He|exact Hs'].
Defined.

(** Two threads can be inside the monitor of the same object: both read that the object
    has no sync block, each creates one and enters it.  The index of the second replaces
    that of the first, so leaving then fails for the first thread. *)
Theorem sync_block_race :
  exists evs s, history anything evs s /\ odepth 1 7 evs = 1 /\ odepth 2 7 evs = 1 /\
    exists s', mplay (fun _ _ => true) (Leave 1 7 :: steps 1 2) evs s = Some (evs ++ [NotLocked 1 7], s').
Proof.
  destruct (mplay (fun _ _ => true) racing [] monitors_init) as [[evs s]|] eqn:E; [|by vm_compute in E].
  assert (Hh : history anything evs s) by (eapply (mplay_history _ _ _ _ _ (evs, s)); eauto using history_init; done).
  exists evs, s. split; [exact Hh|]. vm_compute in E. injection E as <- <-.
  split; [reflexivity|]. split; [reflexivity|]. eexists. vm_compute. reflexivity.
Qed.

(** *** One thread *)

(** A client of the trait: it enters where the list says [true] and leaves where it says
    [false], and records the answers. *)
Fixpoint client {B} `{SyncBlockOps B} (t : Z) (ops : list bool) (b : B) : outcome Empty_set (list bool * B) :=
  match ops with
  | [] => Val ([], b)
  | enter :: ops =>
      let* (ok, b) := if enter : bool then try_enter b t else Val (exit_block b t) in
      let* (oks, b) := client t ops b in Val (ok :: oks, b)
  end.

(** The two blocks of one thread that has entered [n] times. *)
Definition same_depth (t : Z) (st : SyncBlockState) (b : SingleBlock) : Prop :=
  recursion_count st = recursions b /\ 0 <= recursions b /\
  owner_thread_id st = if recursions b =? 0 then INVALID_ARENA else t.

Lemma same_depth_enter t st b :
  t <> INVALID_ARENA -> same_depth t st b -> recursions b < int_max usize ->
  exists st' b', threaded_try_enter st t = Val (true, st') /\ single_try_enter b t = Val (true, b') /\
    same_depth t st' b' /\ recursions b' = recursions b + 1 /\ lock_and_try_enter st t = Val (Acquired st').
Proof.
  intros Ht (Hc & Hn & Ho) Hm. unfold threaded_try_enter, single_try_enter, lock_and_try_enter, reenter, arith.
  assert (Hr : is_range usize (recursions b + 1)) by (unfold is_range, int_min, int_max in *; simpl in *; lia).
  rewrite Hc, Ho, (proj2 (in_range_spec _ _) Hr), (wrap_id _ _ Hr).
  destruct (Z.eqb_spec (recursions b) 0) as [H0|H0].
  - rewrite Z.eqb_refl. destruct (Z.eqb_spec INVALID_ARENA t); [congruence|]. eexists _, _. split; [done|]. split; [done|].
    split; [|split; [simpl; lia|done]].
    split; simpl; [lia|]. split; [lia|]. destruct (Z.eqb_spec (recursions b + 1) 0); [lia|done].
  - rewrite Z.eqb_refl. destruct (Z.eqb_spec t INVALID_ARENA); [done|]. simpl. eexists _, _. split; [done|]. split; [done|].
    split; [|done]. split; simpl; [lia|]. split; [lia|]. destruct (Z.eqb_spec (recursions b + 1) 0); [lia|done].
Qed.

Lemma same_depth_exit t st b :
  t <> INVALID_ARENA -> same_depth t st b -> recursions b <= int_max usize ->
  exists ok st' b', threaded_exit st t = (ok, st') /\ single_exit b t = (ok, b') /\
    same_depth t st' b' /\ recursions b' <= recursions b.
Proof.
  intros Ht (Hc & Hn & Ho) Hm. unfold threaded_exit, single_exit. rewrite Hc, Ho.
  destruct (Z.eqb_spec (recursions b) 0) as [H0|H0].
  - destruct (Z.eqb_spec INVALID_ARENA t); [congruence|]. simpl. destruct (Z.ltb_spec 0 (recursions b)); [lia|].
    eexists _, _, _. split; [done|]. split; [done|]. split; [|lia]. split; [done|]. by rewrite H0.
  - destruct (Z.eqb_spec t INVALID_ARENA); [done|]. rewrite Z.eqb_refl. simpl. destruct (Z.ltb_spec 0 (recursions b)); [|lia].
    assert (Hr : is_range usize (recursions b - 1)) by (unfold is_range, int_min, int_max in *; simpl in *; lia).
    rewrite (wrap_id _ _ Hr). eexists _, _, _. split; [done|]. split; [done|]. split; simpl; [|lia].
    split; simpl; [lia|]. split; [lia|]. by destruct (Z.eqb_spec (recursions b - 1) 0).
Qed.

Lemma client_agrees t ops st b :
  t <> INVALID_ARENA -> same_depth t st b -> recursions b + Z.of_nat (length ops) <= int_max usize ->
  exists oks st' b', client t ops st = Val (oks, st') /\ client t ops b = Val (oks, b') /\
    recursion_count st' = recursions b' /\ lock_and_try_enter st' t <> Val Contended.
Proof.
  intros Ht. revert st b. induction ops as [|op ops IH]; intros st b Hs Hm; simpl in *.
  - exists [], st, b. split; [done|]. split; [done|]. destruct Hs as (Hc & Hn & Ho). split; [done|].
    unfold lock_and_try_enter. rewrite Ho. destruct (recursions b =? 0).
    + rewrite Z.eqb_refl. destruct (INVALID_ARENA =? t); [by destruct (reenter st)|done].
    + rewrite Z.eqb_refl. by destruct (reenter st).
  - destruct op.
    + destruct (same_depth_enter t st b Ht Hs) as (st1 & b1 & -> & -> & Hs1 & Hn & _); [lia|]. simpl.
      destruct (IH st1 b1 Hs1) as (oks & st' & b' & -> & -> & Hc & Hl); [lia|]. by eexists _, _, _.
    + destruct (same_depth_exit t st b Ht Hs) as (ok & st1 & b1 & -> & -> & Hs1 & Hn); [lia|]. simpl.
      destruct (IH st1 b1 Hs1) as (oks & st' & b' & -> & -> & Hc & Hl); [lia|]. by eexists _, _, _.
Qed.

(** For a client on one thread the single-threaded block is as good as the threaded
    one: entering and leaving in any order, fewer than 2^64 times, gives the same
    answers and the same count on both, and the thread never finds the block contended. *)
Theorem single_threaded_agrees t ops :
  t <> INVALID_ARENA -> Z.of_nat (length ops) <= int_max usize ->
  exists oks (st : SyncBlockState) (b : SingleBlock),
    client t ops new_block = Val (oks, st) /\ client t ops new_block = Val (oks, b) /\
    recursion_count st = recursions b /\ lock_and_try_enter st t <> Val Contended.
Proof. intros Ht Hm. apply client_agrees; [done|done|simpl; lia]. Qed.

Lemma single_threaded_agrees_witness :
  exists (st : SyncBlockState) (b : SingleBlock),
    client 5 [false; true; true; false; true] new_block = Val ([false; true; true; true; true], st) /\
    client 5 [false; true; true; false; true] new_block = Val ([false; true; true; true; true], b) /\
    recursion_count st = 2.
Proof.
  destruct (single_threaded_agrees 5 [false; true; true; false; true]) as (oks & st & b & H1 & H2 & H3 & _);
    [done|vm_compute; discriminate|].
  exists st, b. vm_compute in H1. injection H1 as <- <-. split; [reflexivity|]. split; [exact H2|reflexivity].
Defined.
