(* ===== verification/MonitorCalls.v ===== *)
(** * The monitor intrinsics

    The handlers of [dotnet-intrinsics-threading/src/monitor.rs], written against the
    evaluation-stack interface of [Ops] and the trait [MonitorHost]
    ([dotnet-intrinsics-threading/src/lib.rs]).  The sync blocks behind the trait are
    those of [Monitors]; here a host is any type with the operations and the laws the
    handlers rely on.  The clock is a parameter of the host; times are milliseconds. *)

From Stdlib Require Import ZArith Lia.
From stdpp Require Import base tactics list option strings.
From S2P Require Import Prelude ManagedPtr StackValue Ops Monitors.

Definition NULL_REF_MSG : string := "Object reference not set to an instance of an object.".

(** ** The host *)

Class MonitorHost (T : Type) : Type := {
  SyncBlock : Type;
  monitor_get_sync_block_for_object : T -> Z -> option SyncBlock;
  monitor_get_or_create_sync_block_for_object : T -> Z -> outcome Empty_set (SyncBlock * T);
  monitor_try_enter : T -> SyncBlock -> Z -> outcome Empty_set (bool * T);
  monitor_enter_safe : T -> SyncBlock -> Z -> outcome Empty_set (LockResult * T);
  monitor_enter_with_timeout_safe : T -> SyncBlock -> Z -> Z -> outcome Empty_set (LockResult * T);
  monitor_exit : T -> SyncBlock -> Z -> outcome Empty_set (bool * T);
  (** [thread_id], [peek_stack_at], and the write of the flag through a byref *)
  thread_id : T -> Z;
  peek_stack_at : T -> nat -> outcome Empty_set StackValue;
  write_flag : T -> ManagedPtr.ManagedPtr -> bool -> outcome Empty_set T;
  (** [Instant::now] and the thread-local [CURRENT_DEADLINE] *)
  now : T -> Z;
  current_deadline : T -> option Z;
  set_deadline : option Z -> T -> T;
}.

(** [as_*]: a [try_as_*] that panics. *)
Definition must {E A} (m : outcome ExecutionError A) : outcome E A :=
  match m with Val a => Val a | _ => Panic end.

Section calls.

Context {T : Type} `{!EvalStackOps T} `{!ExceptionOps T} `{!MonitorHost T}.

Definition FOREVER : Z := 100 * 365 * 24 * 3600 * 1000.

Definition get_deadline (timeout_ms : Z) (c : T) : Z * T :=
  match current_deadline c with
  | Some d => (d, c)
  | None =>
      let d := now c + if timeout_ms <? 0 then FOREVER else timeout_ms in
      (d, set_deadline (Some d) c)
  end.

Definition clear_deadline : T -> T := set_deadline None.

Fixpoint drop_top (n : nat) (c : T) : outcome Empty_set T :=
  match n with
  | O => Val c
  | S n => let* (_, c) := pop c in drop_top n c
  end.

(** [assert_ne!(thread_id, ArenaId::INVALID)] *)
Definition registered (c : T) : outcome Empty_set Z :=
  if thread_id c =? INVALID_ARENA then Panic else Val (thread_id c).

Definition throw (name msg : string) : handler T := fun c => Val (throw_by_name_with_message name msg c).

Definition intrinsic_monitor_exit : handler T := fun c =>
  let* (v, c) := pop c in
  let* obj := must (try_as_object_ref v) in
  match obj with
  | Some o =>
      let* t := registered c in
      match monitor_get_sync_block_for_object c o with
      | Some b =>
          let* (ok, c) := monitor_exit c b t in
          if ok : bool then Val (c, Continue)
          else throw "System.Threading.SynchronizationLockException" "Object not locked by current thread" c
      | None => throw "System.Threading.SynchronizationLockException" "Object not locked" c
      end
  | None => throw "System.ArgumentNullException" "Value cannot be null." c
  end.

Definition intrinsic_monitor_enter_obj : handler T := fun c =>
  let* v := peek_stack_at c 0 in
  let* obj := must (try_as_object_ref v) in
  match obj with
  | Some o =>
      let* t := registered c in
      let* (b, c) := monitor_get_or_create_sync_block_for_object c o in
      let* (r, c) := monitor_enter_safe c b t in
      match r with
      | Success => let* (_, c) := pop c in Val (c, Continue)
      | LockYield => Val (c, Yield)
      | Timeout => Panic
      end
  | None => let* (_, c) := pop c in throw "System.NullReferenceException" NULL_REF_MSG c
  end.

Definition intrinsic_monitor_reliable_enter : handler T := fun c =>
  let* p := peek_stack_at c 0 in
  let* success_ptr := must (try_as_managed_ptr p) in
  let* v := peek_stack_at c 1 in
  let* obj := must (try_as_object_ref v) in
  match obj with
  | Some o =>
      let* t := registered c in
      let* (b, c) := monitor_get_or_create_sync_block_for_object c o in
      let* (r, c) := monitor_enter_safe c b t in
      match r with
      | Success =>
          let* c := write_flag c success_ptr true in
          let* c := drop_top 2 c in Val (c, Continue)
      | LockYield => Val (c, Yield)
      | Timeout => Panic
      end
  | None => let* c := drop_top 2 c in throw "System.NullReferenceException" NULL_REF_MSG c
  end.

Definition intrinsic_monitor_try_enter_fast_path : handler T := fun c =>
  let* (v, c) := pop c in
  let* obj := must (try_as_object_ref v) in
  match obj with
  | Some o =>
      let* t := registered c in
      let* (b, c) := monitor_get_or_create_sync_block_for_object c o in
      let* (ok, c) := monitor_try_enter c b t in
      Val (push_i32 (if ok : bool then 1 else 0) c, Continue)
  | None => throw "System.NullReferenceException" NULL_REF_MSG c
  end.

(** The attempt both [TryEnter] forms make: [None] when it has to be repeated. *)
Definition try_enter_until (o timeout_ms : Z) (c : T) : outcome Empty_set (option bool * T) :=
  let* t := registered c in
  let* (b, c) := monitor_get_or_create_sync_block_for_object c o in
  let (deadline, c) := get_deadline timeout_ms c in
  let* (r, c) := monitor_enter_with_timeout_safe c b t deadline in
  Val match r with
  | Success => (Some true, clear_deadline c)
  | Timeout => (Some false, clear_deadline c)
  | LockYield => (None, c)
  end.

Definition intrinsic_monitor_try_enter_timeout_ref : handler T := fun c =>
  let* p := peek_stack_at c 0 in
  let* success_ptr := must (try_as_managed_ptr p) in
  let* m := peek_stack_at c 1 in
  let* timeout_ms := must (try_as_i32 m) in
  let* v := peek_stack_at c 2 in
  let* obj := must (try_as_object_ref v) in
  match obj with
  | Some o =>
      let* (r, c) := try_enter_until o timeout_ms c in
      match r with
      | Some success =>
          let* c := write_flag c success_ptr success in
          let* c := drop_top 3 c in Val (c, Continue)
      | None => Val (c, Yield)
      end
  | None => let* c := drop_top 3 c in throw "System.NullReferenceException" NULL_REF_MSG c
  end.

Definition intrinsic_monitor_try_enter_timeout : handler T := fun c =>
  let* m := peek_stack_at c 0 in
  let* timeout_ms := must (try_as_i32 m) in
  let* v := peek_stack_at c 1 in
  let* obj := must (try_as_object_ref v) in
  match obj with
  | Some o =>
      let* (r, c) := try_enter_until o timeout_ms c in
      match r with
      | Some success => let* c := drop_top 2 c in Val (push_i32 (if success : bool then 1 else 0) c, Continue)
      | None => Val (c, Yield)
      end
  | None => let* c := drop_top 2 c in throw "System.NullReferenceException" NULL_REF_MSG c
  end.

End calls.

(** ** What the handlers rely on *)

(** An operation of the host leaves the operands and the deadline alone. *)
Definition keeps {T} `{EvalStackLaws T} `{!MonitorHost T} (c c' : T) : Prop :=
  stack_ok c' /\ view c' = view c /\ current_deadline c' = current_deadline c.

Class MonitorLaws (T : Type) `{EvalStackLaws T} `{!ExceptionOps T} `{!MonitorHost T} : Prop := {
  peek_law c n v : stack_ok c -> view c !! n = Some v -> peek_stack_at c n = Val v;
  get_or_create_law c o b c' :
    stack_ok c -> monitor_get_or_create_sync_block_for_object c o = Val (b, c') -> keeps c c';
  try_enter_law c b t r c' : stack_ok c -> monitor_try_enter c b t = Val (r, c') -> keeps c c';
  enter_law c b t r c' : stack_ok c -> monitor_enter_safe c b t = Val (r, c') -> keeps c c';
  enter_timeout_law c b t d r c' :
    stack_ok c -> monitor_enter_with_timeout_safe c b t d = Val (r, c') -> keeps c c';
  exit_law c b t r c' : stack_ok c -> monitor_exit c b t = Val (r, c') -> keeps c c';
  write_flag_law c p f c' : stack_ok c -> write_flag c p f = Val c' -> keeps c c';
  deadline_law d c : stack_ok c ->
    stack_ok (set_deadline d c) /\ view (set_deadline d c) = view c /\ current_deadline (set_deadline d c) = d;
  push_deadline_law v c : current_deadline (push v c) = current_deadline c;
  pop_deadline_law c r c' : pop_safe c = (r, c') -> current_deadline c' = current_deadline c;
  throw_deadline_law n m c c' r : throw_by_name_with_message n m c = (c', r) -> current_deadline c' = current_deadline c;
}.

Inductive monitor_call : Set := CallExit | CallEnter | CallReliableEnter | CallTryFast | CallTry | CallTryRef.

Definition operands_of (m : monitor_call) : nat :=
  match m with CallExit | CallEnter | CallTryFast => 1 | CallReliableEnter | CallTry => 2 | CallTryRef => 3 end.

Definition results_of (m : monitor_call) : nat := match m with CallTryFast | CallTry => 1 | _ => 0 end.

Section operands.

Context {T : Type} `{!EvalStackOps T} `{!EvalStackLaws T} `{!ExceptionOps T} `{!ExceptionLaws T} `{!MonitorHost T} `{!MonitorLaws T}.

Definition monitor_handler (m : monitor_call) : handler T :=
  match m with
  | CallExit => intrinsic_monitor_exit
  | CallEnter => intrinsic_monitor_enter_obj
  | CallReliableEnter => intrinsic_monitor_reliable_enter
  | CallTryFast => intrinsic_monitor_try_enter_fast_path
  | CallTry => intrinsic_monitor_try_enter_timeout
  | CallTryRef => intrinsic_monitor_try_enter_timeout_ref
  end.

Lemma pop_view {E} (c : T) v c' :
  stack_ok c -> pop (E := E) c = Val (v, c') ->
  stack_ok c' /\ view c = v :: view c' /\ current_deadline c' = current_deadline c.
Proof.
  unfold pop. intros Hc Hp. destruct (view c) as [|w vs] eqn:Ev.
  - destruct (pop_nil_law c Hc Ev) as (c1 & Heq & _). by rewrite Heq in Hp.
  - destruct (pop_cons_law w vs c Hc Ev) as (c1 & Heq & Hok & Hv). rewrite Heq in Hp. simplify_eq.
    split; [done|]. split; [done|]. by eapply pop_deadline_law.
Qed.

Lemma drop_top_view n (c c' : T) :
  stack_ok c -> drop_top n c = Val c' -> stack_ok c' /\ view c' = drop n (view c) /\ current_deadline c' = current_deadline c.
Proof.
  revert c. induction n as [|n IH]; intros c Hc; simpl; [by intros [= <-]|].
  destruct (pop c) as [[v c1]| |] eqn:Ep; simpl; [|done..]. intros Hd. destruct (pop_view _ _ _ Hc Ep) as (H1 & Hv & Hdl).
  destruct (IH _ H1 Hd) as (? & Hv' & Hdl'). rewrite Hv, Hv', Hdl', Hdl. done.
Qed.

(** What a handler may do with [n] operands and [k] results; [timed] handlers own the
    deadline. *)
Definition completes (n k : nat) (timed : bool) (c c' : T) (r : StepResult) : Prop :=
  stack_ok c' /\
  match r with
  | Yield =>
      view c' = view c /\
      if timed then exists d, current_deadline c' = Some d /\ forall d0, current_deadline c = Some d0 -> d = d0
      else current_deadline c' = current_deadline c
  | Continue =>
      (exists vs, length vs = k /\ view c' = vs ++ drop n (view c)) /\
      current_deadline c' = if timed then None else current_deadline c
  | _ => view c' = drop n (view c) /\ current_deadline c' = current_deadline c
  end.

Lemma throw_completes n k timed name msg (c c1 c' : T) r :
  stack_ok c1 -> view c1 = drop n (view c) -> current_deadline c1 = current_deadline c ->
  throw name msg c1 = Val (c', r) -> completes n k timed c c' r.
Proof.
  unfold throw. intros Hok Hv Hd [= Ht]. destruct (throw_law _ _ _ _ _ Hok Ht) as (Hok' & Hv' & Hr).
  apply throw_deadline_law in Ht. split; [done|]. rewrite Hv', Hv, Ht, Hd. by destruct Hr as [-> | [e ->]].
Qed.

(** Case analysis on the next call of a handler. *)
Ltac next_call H x E :=
  match type of H with
  | obind ?m _ = _ => destruct m as [x| |] eqn:E; cbn [obind] in H; [|done..]
  end.

Lemma try_enter_until_view o ms (c c' : T) r :
  stack_ok c -> try_enter_until o ms c = Val (r, c') ->
  stack_ok c' /\ view c' = view c /\
  match r with
  | None => exists d, current_deadline c' = Some d /\ forall d0, current_deadline c = Some d0 -> d = d0
  | Some _ => current_deadline c' = None
  end.
Proof.
  unfold try_enter_until. intros Hc H. next_call H t E1. next_call H p E2. destruct p as [b c1].
  destruct (get_or_create_law _ _ _ _ Hc E2) as (H1 & V1 & D1).
  destruct (get_deadline ms c1) as [d c2] eqn:Ed.
  assert (H2 : stack_ok c2 /\ view c2 = view c1 /\ current_deadline c2 = Some d /\ forall d0, current_deadline c = Some d0 -> d = d0).
  { unfold get_deadline in Ed. rewrite D1 in Ed. destruct (current_deadline c) as [d0|] eqn:E0; injection Ed as <- <-.
    - split; [done|]. split; [done|]. split; [congruence|]. by intros ? [= <-].
    - destruct (deadline_law (Some (now c1 + (if ms <? 0 then FOREVER else ms))) c1 H1) as (? & ? & ->). done. }
  destruct H2 as (H2 & V2 & D2 & Dd). next_call H p E3. destruct p as [l c3].
  destruct (enter_timeout_law _ _ _ _ _ _ H2 E3) as (H3 & V3 & D3). destruct (deadline_law None c3 H3) as (H4 & V4 & D4).
  destruct l; simplify_eq; (split; [done|]); (split; [unfold clear_deadline; congruence|]); [done|done|]. exists d. split; [congruence|done].
Qed.

Lemma yield_completes n k (c c' : T) : keeps c c' -> completes n k false c c' Yield.
Proof. intros (H & V & D). by split. Qed.

Lemma continue_completes n (c c1 c2 : T) : keeps c c1 -> drop_top n c1 = Val c2 -> completes n 0 false c c2 Continue.
Proof.
  intros (H1 & V1 & D1) Hd. destruct (drop_top_view _ _ _ H1 Hd) as (H2 & V2 & D2). split; [done|].
  split; [|congruence]. exists []. split; [done|]. cbn [app]. congruence.
Qed.

Lemma null_completes n k timed name msg (c c' : T) r :
  stack_ok c -> (let* c := drop_top n c in throw name msg c) = Val (c', r) -> completes n k timed c c' r.
Proof.
  intros Hc H. next_call H c1 E. destruct (drop_top_view _ _ _ Hc E) as (H1 & V1 & D1). by eapply throw_completes.
Qed.

Lemma call_keeps_trans (c c1 c2 : T) : keeps c c1 -> keeps c1 c2 -> keeps c c2.
Proof. unfold keeps. intros (? & ? & ?) (? & ? & ?). split; [done|]. split; congruence. Qed.

Lemma exit_completes (c c' : T) r : stack_ok c -> intrinsic_monitor_exit c = Val (c', r) -> completes 1 0 false c c' r.
Proof.
  unfold intrinsic_monitor_exit. intros Hc H. next_call H p E1. destruct p as [v c1].
  destruct (pop_view _ _ _ Hc E1) as (H1 & V1 & D1). assert (V1' : view c1 = drop 1 (view c)) by by rewrite V1.
  next_call H o E2. destruct o as [o|]; [|by eapply throw_completes].
  next_call H t E3. destruct (monitor_get_sync_block_for_object c1 o) as [b|]; [|by eapply throw_completes].
  next_call H p E4. destruct p as [ok c2]. destruct (exit_law _ _ _ _ _ H1 E4) as (H2 & V2 & D2).
  destruct ok; [|eapply throw_completes; [..|done]; congruence]. simplify_eq. split; [done|]. split; [|congruence].
  exists []. split; [done|]. cbn [app]. congruence.
Qed.

Lemma try_fast_completes (c c' : T) r :
  stack_ok c -> intrinsic_monitor_try_enter_fast_path c = Val (c', r) -> completes 1 1 false c c' r.
Proof.
  unfold intrinsic_monitor_try_enter_fast_path. intros Hc H. next_call H p E1. destruct p as [v c1].
  destruct (pop_view _ _ _ Hc E1) as (H1 & V1 & D1). assert (V1' : view c1 = drop 1 (view c)) by by rewrite V1.
  next_call H o E2. destruct o as [o|]; [|by eapply throw_completes].
  next_call H t E3. next_call H p E4. destruct p as [b c2]. destruct (get_or_create_law _ _ _ _ H1 E4) as (H2 & V2 & D2).
  next_call H p E5. destruct p as [ok c3]. destruct (try_enter_law _ _ _ _ _ H2 E5) as (H3 & V3 & D3). simplify_eq.
  destruct (push_law (SV.Int32 (if ok then 1 else 0)) c3 H3) as [H4 V4]. split; [done|].
  split; [|unfold push_i32; rewrite push_deadline_law; congruence].
  eexists [_]. split; [done|]. unfold push_i32. by rewrite V4, V3, V2, V1'.
Qed.

Lemma enter_completes (c c' : T) r :
  stack_ok c -> intrinsic_monitor_enter_obj c = Val (c', r) -> completes 1 0 false c c' r.
Proof.
  unfold intrinsic_monitor_enter_obj. intros Hc H. next_call H v E1. next_call H o E2.
  destruct o as [o|]; [|apply (null_completes 1 0 false "System.NullReferenceException" NULL_REF_MSG); [done|]; simpl; destruct (pop c) as [[w c1]| |]; done].
  next_call H t E3. next_call H p E4. destruct p as [b c1]. pose proof (get_or_create_law _ _ _ _ Hc E4) as K1.
  next_call H p E5. destruct p as [l c2]. pose proof (call_keeps_trans _ _ _ K1 (enter_law _ _ _ _ _ (proj1 K1) E5)) as K2.
  destruct l; [|done|simplify_eq; by apply yield_completes].
  next_call H p E6. destruct p as [w c3]. simplify_eq. eapply (continue_completes 1); [done|]. simpl. by rewrite E6.
Qed.

Lemma reliable_enter_completes (c c' : T) r :
  stack_ok c -> intrinsic_monitor_reliable_enter c = Val (c', r) -> completes 2 0 false c c' r.
Proof.
  unfold intrinsic_monitor_reliable_enter. intros Hc H. next_call H v E1. next_call H q E2. next_call H w E3. next_call H o E4.
  destruct o as [o|]; [|by apply (null_completes 2 0 false) in H].
  next_call H t E5. next_call H p E6. destruct p as [b c1]. pose proof (get_or_create_law _ _ _ _ Hc E6) as K1.
  next_call H p E7. destruct p as [l c2]. pose proof (call_keeps_trans _ _ _ K1 (enter_law _ _ _ _ _ (proj1 K1) E7)) as K2.
  destruct l; [|done|simplify_eq; by apply yield_completes].
  next_call H c3 E8. pose proof (call_keeps_trans _ _ _ K2 (write_flag_law _ _ _ _ (proj1 K2) E8)) as K3.
  next_call H c4 E9. simplify_eq. by eapply continue_completes.
Qed.

Lemma try_completes (c c' : T) r :
  stack_ok c -> intrinsic_monitor_try_enter_timeout c = Val (c', r) -> completes 2 1 true c c' r.
Proof.
  unfold intrinsic_monitor_try_enter_timeout. intros Hc H. next_call H v E1. next_call H ms E2. next_call H w E3. next_call H o E4.
  destruct o as [o|]; [|by apply (null_completes 2 1 true) in H].
  next_call H p E5. destruct p as [ok c1]. destruct (try_enter_until_view _ _ _ _ _ Hc E5) as (H1 & V1 & D1).
  destruct ok as [ok|]; [|simplify_eq; by split].
  next_call H c2 E6. destruct (drop_top_view _ _ _ H1 E6) as (H2 & V2 & D2). simplify_eq.
  destruct (push_law (SV.Int32 (if ok then 1 else 0)) c2 H2) as [H3 V3]. split; [done|].
  split; [|unfold push_i32; rewrite push_deadline_law; congruence].
  eexists [_]. split; [done|]. unfold push_i32. by rewrite V3, V2, V1.
Qed.

Lemma try_ref_completes (c c' : T) r :
  stack_ok c -> intrinsic_monitor_try_enter_timeout_ref c = Val (c', r) -> completes 3 0 true c c' r.
Proof.
  unfold intrinsic_monitor_try_enter_timeout_ref. intros Hc H. next_call H v E1. next_call H q E2. next_call H w E3.
  next_call H ms E4. next_call H x E5. next_call H o E6. destruct o as [o|]; [|by apply (null_completes 3 0 true) in H].
  next_call H p E7. destruct p as [ok c1]. destruct (try_enter_until_view _ _ _ _ _ Hc E7) as (H1 & V1 & D1).
  destruct ok as [ok|]; [|simplify_eq; by split].
  next_call H c2 E8. destruct (write_flag_law _ _ _ _ H1 E8) as (H2 & V2 & D2).
  next_call H c3 E9. destruct (drop_top_view _ _ _ H2 E9) as (H3 & V3 & D3). simplify_eq. split; [done|].
  split; [|congruence]. exists []. split; [done|]. cbn [app]. congruence.
Qed.

(** C31. A monitor call can be resumed and then completes once: when it yields it leaves all
    its operands in place, and a timed call keeps the deadline of its first attempt;
    when it completes it has taken exactly its operands, left its result, and a timed
    call has forgotten its deadline; when it throws it has taken its operands. *)
Theorem monitor_call_resumable m (c c' : T) r :
  stack_ok c -> monitor_handler m c = Val (c', r) ->
  completes (operands_of m) (results_of m) (match m with CallTry | CallTryRef => true | _ => false end) c c' r.
Proof.
  intros Hc. destruct m; simpl;
    eauto using exit_completes, try_fast_completes, enter_completes, reliable_enter_completes, try_completes, try_ref_completes.
Qed.

End operands.

(** ** A host with one sync block *)

Module OneBlock.

Record host : Type := {
  operands : list StackValue;
  block : SyncBlockState;
  flag : bool;
  deadline : option Z;
  me : Z;
}.

Definition with_operands (c : host) (vs : list StackValue) : host :=
  {| operands := vs; block := block c; flag := flag c; deadline := deadline c; me := me c |}.

Definition with_block (c : host) (b : SyncBlockState) : host :=
  {| operands := operands c; block := b; flag := flag c; deadline := deadline c; me := me c |}.

#[export] Instance host_ops : EvalStackOps host := {
  push v c := with_operands c (v :: operands c);
  pop_safe c :=
    match operands c with
    | [] => (Err (VmExecution StackUnderflow), c)
    | v :: vs => (Val v, with_operands c vs)
    end;
}.

#[export] Instance host_exceptions : ExceptionOps host := {
  throw_by_name_with_message name msg c := (c, Exception);
}.

(** Entering a block another thread owns yields. *)
Definition enter (c : host) (t : Z) : outcome Empty_set (LockResult * host) :=
  let* e := lock_and_try_enter (block c) t in
  Val match e with Acquired b => (Success, with_block c b) | Contended => (LockYield, c) end.

#[export] Instance host_monitor : MonitorHost host := {
  SyncBlock := unit;
  monitor_get_sync_block_for_object c o := Some tt;
  monitor_get_or_create_sync_block_for_object c o := Val (tt, c);
  monitor_try_enter c b t := let* (ok, b) := threaded_try_enter (block c) t in Val (ok, with_block c b);
  monitor_enter_safe c b t := enter c t;
  monitor_enter_with_timeout_safe c b t d := enter c t;
  monitor_exit c b t := let (ok, b) := threaded_exit (block c) t in Val (ok, with_block c b);
  thread_id := me;
  peek_stack_at c n := expect (operands c !! n);
  write_flag c p f := Val {| operands := operands c; block := block c; flag := f; deadline := deadline c; me := me c |};
  now c := 1000;
  current_deadline := deadline;
  set_deadline d c := {| operands := operands c; block := block c; flag := flag c; deadline := d; me := me c |};
}.

#[export, refine] Instance host_laws : EvalStackLaws host := { stack_ok c := True; view := operands }.
Proof.
  - done.
  - intros v vs c _ H. simpl in *. rewrite H. by eexists.
  - intros c _ H. simpl in *. rewrite H. by eexists.
Defined.

#[export] Instance host_exception_laws : ExceptionLaws host.
Proof. split. intros name msg c c' r _ [= <- <-]. split; [done|]. split; [done|]. by left. Qed.

Lemma enter_keeps c t r c' : enter c t = Val (r, c') -> keeps c c'.
Proof. unfold enter. destruct (lock_and_try_enter (block c) t) as [[b|]| |]; simpl; intros; by simplify_eq. Qed.

#[export] Instance host_monitor_laws : MonitorLaws host.
Proof.
  split; simpl; try done.
  - intros c n v _ H. by rewrite H.
  - intros c o b c' _ [= _ <-]. done.
  - intros c b t r c' _ H. destruct (threaded_try_enter (block c) t) as [[ok b']| |]; by simplify_eq/=.
  - intros c b t r c' _ H. by eapply enter_keeps.
  - intros c b t d r c' _ H. by eapply enter_keeps.
  - intros c b t r c' _ H. destruct (threaded_exit (block c) t) as [ok b']. by simplify_eq/=.
  - intros c p f c' _ [= <-]. done.
  - intros c r c'. destruct (operands c); by intros [= <- <-].
  - intros n m c c' r [= <- _]. done.
Qed.

(** Thread 2 tries to enter, with a timeout, what thread 1 owns. *)
Definition waiting : host :=
  {| operands := [SV.Int32 50; SV.ObjectRef (Some 7)]; block := mark_entered 1; flag := false; deadline := None; me := 2 |}.

End OneBlock.

Import OneBlock.

Lemma monitor_call_resumable_witness :
  exists c' : OneBlock.host, monitor_handler CallTry OneBlock.waiting = Val (c', Yield) /\
    completes 2 1 true OneBlock.waiting c' Yield /\ OneBlock.deadline c' = Some 1050.
Proof.
  eexists. assert (H : monitor_handler CallTry OneBlock.waiting = Val (OneBlock.Build_host [SV.Int32 50; SV.ObjectRef (Some 7)] (mark_entered 1) false (Some 1050) 2, Yield))
    by (vm_compute; reflexivity).
  split; [exact H|]. split; [exact (monitor_call_resumable CallTry OneBlock.waiting _ _ I H)|reflexivity].
Defined.
