(* ===== verification/Statics.v ===== *)
(** * Class initialisation

    Static storage and its initialisation states ([dotnet-vm/src/statics.rs]): which
    thread runs the class constructor of a type, who waits for whom, and the wait graph
    that lets a thread proceed when waiting would close a cycle; with the use
    [initialize_static_storage] makes of it ([dotnet-vm/src/stack/context_ops.rs]) and
    the end of a constructor in [return_frame] and [unwind_frame].

    A type instantiation is a number; whether it has a class constructor is a
    parameter.  One step of a thread is one atomic operation or one critical section;
    the stores made under the mutex of a storage are one step with it.  The shards of
    the table are one map, and the wait on the condition variable, which has a timeout,
    may end at any time. *)

From Stdlib Require Import ZArith Lia.
From stdpp Require Import base tactics list option sets gmap relations.
From S2P Require Import Prelude.

Definition INIT_STATE_UNINITIALIZED : Z := 0.
Definition INIT_STATE_INITIALIZING : Z := 1.
Definition INIT_STATE_INITIALIZED : Z := 2.
Definition INIT_STATE_FAILED : Z := 3.

Record StaticStorage : Set := { init_state : Z; initializing_thread : Z }.

Definition new_storage : StaticStorage :=
  {| init_state := INIT_STATE_UNINITIALIZED; initializing_thread := 0 |}.

Inductive StaticInitResult : Set := Execute | Initialized | Recursive | Failed | Waiting.

#[export] Instance StaticInitResult_eq_dec : EqDecision StaticInitResult.
Proof. solve_decision. Defined.

(** ** The wait graph *)

(** [causes_cycle]; [None] when the fuel does not suffice. *)
Fixpoint causes_cycle (fuel : nat) (wait_graph : gmap Z Z) (start current : Z) : option bool :=
  match fuel with
  | O => None
  | S fuel =>
      match wait_graph !! current with
      | Some next => if next =? start then Some true else causes_cycle fuel wait_graph start next
      | None => Some false
      end
  end.

(** [WaitGraphEdgeGuard::update] *)
Definition update_edge (wait_graph : gmap Z Z) (waiter target : Z) : gmap Z Z :=
  if (target =? 0) || (target =? waiter) then wait_graph else <[waiter := target]> wait_graph.

(** ** Threads *)

Inductive spc : Set :=
| Idle
| Ensured (k : Z)                    (* the storage exists *)
| OwnerCheck (k : Z)                 (* the state was INITIALIZING *)
| CctorCheck (k : Z)
| Locking (k : Z)                    (* about to lock the storage *)
| WLoop (k : Z)                      (* [wait_for_init] *)
| WTarget (k : Z)
| WUpdate (k target : Z)
| WPoll (k : Z)
| WLock (k : Z)
| Recheck (k : Z).                   (* [wait_for_init] returned *)

#[export] Instance spc_eq_dec : EqDecision spc.
Proof. solve_decision. Defined.

Record StaticStorageManager : Type := {
  storages : gmap Z StaticStorage;
  wait_graph : gmap Z Z;
  spcs : gmap Z spc;
  running : gmap Z (list Z);         (* the class constructors a thread executes *)
}.

Inductive sevent : Set :=
| Told (t k : Z) (r : StaticInitResult)
| WaitOver (t k : Z) (initialized : bool)
| YieldWait (t k : Z)
| Marked (t k : Z) (initialized : bool).

Definition statics_init : StaticStorageManager := {| storages := ∅; wait_graph := ∅; spcs := ∅; running := ∅ |}.

Definition spc_of (s : StaticStorageManager) (t : Z) : spc := default Idle (spcs s !! t).
Definition run_of (s : StaticStorageManager) (t : Z) : list Z := default [] (running s !! t).

Definition set_spc (s : StaticStorageManager) (t : Z) (p : spc) : StaticStorageManager :=
  {| storages := storages s; wait_graph := wait_graph s; spcs := <[t := p]> (spcs s); running := running s |}.

Definition set_storage (s : StaticStorageManager) (k : Z) (st : StaticStorage) : StaticStorageManager :=
  {| storages := <[k := st]> (storages s); wait_graph := wait_graph s; spcs := spcs s; running := running s |}.

Definition set_graph (s : StaticStorageManager) (g : gmap Z Z) : StaticStorageManager :=
  {| storages := storages s; wait_graph := g; spcs := spcs s; running := running s |}.

Definition set_running (s : StaticStorageManager) (t : Z) (ks : list Z) : StaticStorageManager :=
  {| storages := storages s; wait_graph := wait_graph s; spcs := spcs s; running := <[t := ks]> (running s) |}.

Definition sresult : Type := option (outcome Empty_set (StaticStorageManager * list sevent)).

Definition sret (s : StaticStorageManager) (evs : list sevent) : sresult := Some (Val (s, evs)).

(** [init] is left with an answer. *)
Definition told (s : StaticStorageManager) (t k : Z) (r : StaticInitResult) : sresult :=
  sret (set_spc s t Idle) [Told t k r].

Section with_types.

(** [static_initializer().is_some()] *)
Variable has_cctor : Z -> bool.

(** [init] up to the existence of the storage. *)
Definition ensure_storage (s : StaticStorageManager) (t k : Z) : StaticStorageManager :=
  set_spc (set_storage s k (default new_storage (storages s !! k))) t (Ensured k).

(** [init] under the mutex of the storage. *)
Definition init_locked (s : StaticStorageManager) (t k : Z) (st : StaticStorage) : sresult :=
  if init_state st =? INIT_STATE_UNINITIALIZED then
    told (set_running (set_storage s k {| init_state := INIT_STATE_INITIALIZING; initializing_thread := t |})
            t (k :: run_of s t)) t k Execute
  else if init_state st =? INIT_STATE_INITIALIZED then told s t k Initialized
  else if init_state st =? INIT_STATE_FAILED then told s t k Failed
  else if init_state st =? INIT_STATE_INITIALIZING then
    let target := initializing_thread st in
    if target =? 0 then sret (set_spc s t (WLoop k)) [Told t k Waiting]
    else match causes_cycle (S (size (wait_graph s))) (wait_graph s) t target with
         | Some true => told s t k Recursive
         | Some false => sret (set_spc (set_graph s (<[t := target]> (wait_graph s))) t (WLoop k)) [Told t k Waiting]
         | None => None
         end
  else Some Panic.

(** [wait_for_init] returns: the guard removes the edge. *)
Definition end_wait (s : StaticStorageManager) (t : Z) (p : spc) (evs : list sevent) : sresult :=
  sret (set_spc (set_graph s (delete t (wait_graph s))) t p) evs.

(** One step of a thread; [stop] is what it reads of the stop flag. *)
Definition sgo (s : StaticStorageManager) (t : Z) (stop : bool) : sresult :=
  let at_storage k f := match storages s !! k with Some st => f st | None => Some Panic end in
  match spc_of s t with
  | Idle => None
  | Ensured k => at_storage k (fun st =>
      if init_state st =? INIT_STATE_INITIALIZED then told s t k Initialized
      else if init_state st =? INIT_STATE_FAILED then told s t k Failed
      else if init_state st =? INIT_STATE_INITIALIZING then sret (set_spc s t (OwnerCheck k)) []
      else sret (set_spc s t (CctorCheck k)) [])
  | OwnerCheck k => at_storage k (fun st =>
      if initializing_thread st =? t then told s t k Recursive else sret (set_spc s t (CctorCheck k)) [])
  | CctorCheck k =>
      if has_cctor k then sret (set_spc s t (Locking k)) []
      else at_storage k (fun st =>
        if init_state st =? INIT_STATE_UNINITIALIZED
        then told (set_storage s k {| init_state := INIT_STATE_INITIALIZED; initializing_thread := initializing_thread st |}) t k Initialized
        else told s t k Initialized)
  | Locking k => at_storage k (init_locked s t k)
  | WLoop k => at_storage k (fun st =>
      if init_state st =? INIT_STATE_INITIALIZING then sret (set_spc s t (WTarget k)) [] else end_wait s t (Recheck k) [])
  | WTarget k => at_storage k (fun st => sret (set_spc s t (WUpdate k (initializing_thread st))) [])
  | WUpdate k target => sret (set_spc (set_graph s (update_edge (wait_graph s) t target)) t (WPoll k)) []
  | WPoll k => if stop then end_wait s t Idle [YieldWait t k] else sret (set_spc s t (WLock k)) []
  | WLock k => at_storage k (fun st =>
      if init_state st =? INIT_STATE_INITIALIZING then sret (set_spc s t (WLoop k)) [] else end_wait s t (Recheck k) [])
  | Recheck k => at_storage k (fun st =>
      if init_state st =? INIT_STATE_INITIALIZED then sret (set_spc s t Idle) [WaitOver t k true]
      else if init_state st =? INIT_STATE_FAILED then sret (set_spc s t Idle) [WaitOver t k false]
      else Some Panic)
  end.

(** [mark_initialized] and [mark_failed], at the end of the innermost constructor. *)
Definition mark (s : StaticStorageManager) (t : Z) (initialized : bool) : sresult :=
  match spc_of s t, run_of s t with
  | Idle, k :: ks =>
      let s' := match storages s !! k with
        | Some _ => set_storage s k
            {| init_state := if initialized then INIT_STATE_INITIALIZED else INIT_STATE_FAILED; initializing_thread := 0 |}
        | None => s
        end in
      sret (set_running s' t ks) [Marked t k initialized]
  | _, _ => None
  end.

Inductive slabel : Set :=
| SInit (t k : Z)
| SGo (t : Z) (stop : bool)
| SMark (t : Z) (initialized : bool).

(** Threads have positive identities. *)
Definition sstep (l : slabel) (s : StaticStorageManager) : sresult :=
  match l with
  | SInit t k => match spc_of s t with Idle => if 0 <? t then sret (ensure_storage s t k) [] else None | _ => None end
  | SGo t stop => sgo s t stop
  | SMark t ok => mark s t ok
  end.

Inductive shistory : list sevent -> StaticStorageManager -> Prop :=
| shistory_init : shistory [] statics_init
| shistory_step l evs s evs' s' :
    shistory evs s -> sstep l s = Some (Val (s', evs')) -> shistory (evs ++ evs') s'.

End with_types.

(** ** Wait graphs *)

Definition edge (g : gmap Z Z) (x y : Z) : Prop := g !! x = Some y.

Definition acyclic (g : gmap Z Z) : Prop := forall x, ~ tc (edge g) x x.

Lemma edge_first g x z : tc (edge g) x z -> exists y, g !! x = Some y /\ rtc (edge g) y z.
Proof. intros H. inversion H as [? ? Hxz|? y ? Hxy Hyz]; subst; eauto using rtc_refl, tc_rtc. Qed.

(** In a graph without cycles every chain ends. *)
Lemma chain_ends_from g n (V : gset Z) x :
  acyclic g -> (forall v, v ∈ V -> tc (edge g) v x) -> V ⊆ dom g -> (size (dom g ∖ V) <= n)%nat ->
  exists k u, (k <= n)%nat /\ nsteps (edge g) k x u /\ g !! u = None.
Proof.
  intros Ha. revert V x. induction n as [|n IH]; intros V x HV Hdom Hsize.
  all: destruct (g !! x) as [y|] eqn:Ex; [|exists 0%nat, x; split; [lia|]; split; [constructor|done]].
  all: assert (Hx : x ∉ V) by (intros Hx; by apply (Ha x), HV).
  all: assert (Hxd : x ∈ dom g) by (by apply elem_of_dom_2 with y).
  all: assert (Hlt : (size (dom g ∖ ({[ x ]} ∪ V)) < size (dom g ∖ V))%nat) by (apply subset_size; set_solver).
  - lia.
  - destruct (IH ({[ x ]} ∪ V) y) as (k & u & Hk & Hs & Hu); [| |lia|].
    + intros v [->%elem_of_singleton | Hv]%elem_of_union; [by apply tc_once|]. eapply tc_r; [by apply HV|done].
    + set_solver.
    + exists (S k), u. split; [lia|]. split; [|done]. by eapply nsteps_l.
Qed.

Lemma chain_ends g x : acyclic g -> exists k u, (k <= size g)%nat /\ nsteps (edge g) k x u /\ g !! u = None.
Proof.
  intros Ha. apply (chain_ends_from g _ ∅); [done|set_solver|set_solver|]. rewrite difference_empty_L, size_dom. lia.
Qed.

Lemma causes_cycle_chain g start k x u fuel :
  nsteps (edge g) k x u -> g !! u = None -> (k < fuel)%nat ->
  exists b, causes_cycle fuel g start x = Some b /\ (b = true <-> tc (edge g) x start).
Proof.
  intros Hs Hu. revert fuel. induction Hs as [x|k x y z Hxy Hs IH]; intros [|fuel] Hf; try lia; simpl.
  - rewrite Hu. exists false. split; [done|]. split; [done|]. intros Ht. exfalso.
    destruct (edge_first _ _ _ Ht) as (y & Hy & _). congruence.
  - unfold edge in Hxy. rewrite Hxy. destruct (Z.eqb_spec y start) as [->|Hne].
    + exists true. split; [done|]. split; [intros _|done]. by apply tc_once.
    + destruct (IH Hu fuel) as (b & Hb & Hbt); [lia|]. exists b. split; [done|]. rewrite Hbt. split.
      * intros Ht. by eapply tc_l.
      * intros Ht. destruct (edge_first _ _ _ Ht) as (y' & Hy' & Hr). assert (y' = y) as -> by congruence.
        apply rtc_tc in Hr. by destruct Hr.
Qed.

Lemma causes_cycle_spec g start x :
  acyclic g -> exists b, causes_cycle (S (size g)) g start x = Some b /\ (b = true <-> tc (edge g) x start).
Proof.
  intros Ha. destruct (chain_ends g x Ha) as (k & u & Hk & Hs & Hu). eapply causes_cycle_chain; eauto. lia.
Qed.

(** A cycle that leads to a thread goes through it. *)
Lemma cycle_through g x y : rtc (edge g) y x -> tc (edge g) y y -> tc (edge g) x x.
Proof.
  induction 1 as [|y b x Hyb _ IH]; [done|]. intros Hc. apply IH.
  destruct (edge_first _ _ _ Hc) as (b' & Hb' & Hr). unfold edge in Hyb. assert (b' = b) as -> by congruence.
  eapply tc_rtc_l; [exact Hr|]. by apply tc_once.
Qed.

Lemma insert_edge_away g x target a y : rtc (edge (<[x := target]> g)) a y -> y = x -> rtc (edge g) a y.
Proof.
  induction 1 as [|a b y Hab _ IH]; intros Hy; [constructor|]. destruct (decide (a = y)) as [->|Hne]; [constructor|].
  unfold edge in Hab. rewrite lookup_insert_ne in Hab by congruence. eapply rtc_l; [done|auto].
Qed.

Lemma insert_edge_split g x target y z :
  tc (edge (<[x := target]> g)) y z -> tc (edge g) y z \/ rtc (edge (<[x := target]> g)) y x.
Proof.
  induction 1 as [y z Hyz|y b z Hyb _ IH].
  - unfold edge in Hyz. destruct (decide (y = x)) as [->|Hne]; [right; constructor|]. left. apply tc_once.
    by rewrite lookup_insert_ne in Hyz.
  - destruct (decide (y = x)) as [->|Hne]; [right; constructor|].
    destruct IH as [Ht | Hr]; [left | right; by eapply rtc_l].
    unfold edge in Hyb. rewrite lookup_insert_ne in Hyb by done. by eapply tc_l.
Qed.

(** An edge that closes no cycle may be added. *)
Lemma acyclic_insert g x target :
  acyclic g -> target <> x -> ~ tc (edge g) target x -> acyclic (<[x := target]> g).
Proof.
  intros Ha Hne Hno y Hy.
  assert (Hx : tc (edge (<[x := target]> g)) x x).
  { destruct (insert_edge_split _ _ _ _ _ Hy) as [Hg | Hr]; [by apply Ha in Hg|]. by eapply cycle_through. }
  destruct (edge_first _ _ _ Hx) as (b & Hb & Hr). rewrite lookup_insert_eq in Hb. injection Hb as <-.
  apply insert_edge_away in Hr; [|done]. apply rtc_tc in Hr. by destruct Hr.
Qed.

Lemma acyclic_delete g x : acyclic g -> acyclic (delete x g).
Proof.
  intros Ha. assert (Hsub : forall y z, tc (edge (delete x g)) y z -> tc (edge g) y z); [|intros y Hy; by apply (Ha y), Hsub].
  assert (He : forall y z, edge (delete x g) y z -> edge g y z) by (intros y z Hyz; by apply lookup_delete_Some in Hyz as [_ Hyz]).
  induction 1 as [y z Hyz|y b z Hyb _ IH]; [by apply tc_once, He|]. eapply tc_l; [by apply He|done].
Qed.

Lemma acyclic_empty : acyclic ∅.
Proof. intros x Hx. by destruct (edge_first _ _ _ Hx) as (y & Hy & _). Qed.

(** ** Steps *)

(** The type a thread is asking about, waits for. *)
Definition asks (p : spc) : option Z :=
  match p with Ensured k | OwnerCheck k | CctorCheck k | Locking k => Some k | _ => None end.

Definition waits (p : spc) : option Z :=
  match p with WLoop k | WTarget k | WUpdate k _ | WPoll k | WLock k => Some k | _ => None end.

Section steps.

Variable has_cctor : Z -> bool.

Abbreviation sstep := (sstep has_cctor).
Abbreviation shistory := (shistory has_cctor).

(** The ways a thread can take a step. *)
Inductive smove (s : StaticStorageManager) (t : Z) : StaticStorageManager -> list sevent -> Prop :=
| sm_ensure k : spc_of s t = Idle -> 0 < t -> smove s t (ensure_storage s t k) []
| sm_pass k p' :
    asks (spc_of s t) = Some k -> asks p' = Some k ->
    (p' = Locking k -> spc_of s t = CctorCheck k /\ has_cctor k = true) ->
    (p' = CctorCheck k -> exists st, storages s !! k = Some st /\
       (init_state st <> INIT_STATE_INITIALIZING \/ initializing_thread st <> t)) ->
    smove s t (set_spc s t p') []
| sm_answer k st r :
    asks (spc_of s t) = Some k -> storages s !! k = Some st ->
    (r = Initialized /\ (init_state st = INIT_STATE_INITIALIZED \/ has_cctor k = false /\ init_state st <> INIT_STATE_UNINITIALIZED) \/
     r = Failed /\ init_state st = INIT_STATE_FAILED \/ r = Recursive) ->
    smove s t (set_spc s t Idle) [Told t k r]
| sm_no_cctor k st :
    asks (spc_of s t) = Some k -> storages s !! k = Some st -> has_cctor k = false ->
    init_state st = INIT_STATE_UNINITIALIZED ->
    smove s t (set_spc (set_storage s k {| init_state := INIT_STATE_INITIALIZED; initializing_thread := initializing_thread st |}) t Idle)
      [Told t k Initialized]
| sm_execute k st :
    spc_of s t = Locking k -> storages s !! k = Some st -> init_state st = INIT_STATE_UNINITIALIZED ->
    smove s t (set_spc (set_running (set_storage s k {| init_state := INIT_STATE_INITIALIZING; initializing_thread := t |})
                          t (k :: run_of s t)) t Idle) [Told t k Execute]
| sm_wait k st :
    spc_of s t = Locking k -> storages s !! k = Some st -> init_state st = INIT_STATE_INITIALIZING ->
    initializing_thread st <> 0 ->
    causes_cycle (S (size (wait_graph s))) (wait_graph s) t (initializing_thread st) = Some false ->
    smove s t (set_spc (set_graph s (<[t := initializing_thread st]> (wait_graph s))) t (WLoop k)) [Told t k Waiting]
| sm_wait_unknown k st :
    spc_of s t = Locking k -> storages s !! k = Some st -> init_state st = INIT_STATE_INITIALIZING ->
    initializing_thread st = 0 -> smove s t (set_spc s t (WLoop k)) [Told t k Waiting]
| sm_spin k p' :
    waits (spc_of s t) = Some k -> waits p' = Some k ->
    (forall target, p' = WUpdate k target -> exists st, storages s !! k = Some st /\ target = initializing_thread st) ->
    smove s t (set_spc s t p') []
| sm_update k target :
    spc_of s t = WUpdate k target ->
    smove s t (set_spc (set_graph s (update_edge (wait_graph s) t target)) t (WPoll k)) []
| sm_end k st :
    waits (spc_of s t) = Some k -> storages s !! k = Some st -> init_state st <> INIT_STATE_INITIALIZING ->
    smove s t (set_spc (set_graph s (delete t (wait_graph s))) t (Recheck k)) []
| sm_yield k :
    waits (spc_of s t) = Some k ->
    smove s t (set_spc (set_graph s (delete t (wait_graph s))) t Idle) [YieldWait t k]
| sm_over k st ok :
    spc_of s t = Recheck k -> storages s !! k = Some st ->
    init_state st = (if ok : bool then INIT_STATE_INITIALIZED else INIT_STATE_FAILED) ->
    smove s t (set_spc s t Idle) [WaitOver t k ok]
| sm_mark k ks ok :
    spc_of s t = Idle -> run_of s t = k :: ks ->
    smove s t (set_running (match storages s !! k with
        | Some _ => set_storage s k
            {| init_state := if ok : bool then INIT_STATE_INITIALIZED else INIT_STATE_FAILED; initializing_thread := 0 |}
        | None => s end) t ks) [Marked t k ok].

Lemma locked_move s t k st s' evs :
  spc_of s t = Locking k -> storages s !! k = Some st ->
  init_locked s t k st = Some (Val (s', evs)) -> smove s t s' evs.
Proof.
  intros Hp Hst H. assert (Ha : asks (spc_of s t) = Some k) by by rewrite Hp.
  unfold init_locked, told, sret in H.
  destruct (Z.eqb_spec (init_state st) INIT_STATE_UNINITIALIZED); [simplify_eq; by eapply sm_execute|].
  destruct (Z.eqb_spec (init_state st) INIT_STATE_INITIALIZED); [simplify_eq; eapply sm_answer; eauto|].
  destruct (Z.eqb_spec (init_state st) INIT_STATE_FAILED); [simplify_eq; eapply sm_answer; eauto|].
  destruct (Z.eqb_spec (init_state st) INIT_STATE_INITIALIZING); [|done].
  destruct (Z.eqb_spec (initializing_thread st) 0); [simplify_eq; by eapply sm_wait_unknown|].
  destruct (causes_cycle _ _ _ _) as [[]|] eqn:Ec; simplify_eq; [eapply sm_answer; eauto|by eapply sm_wait].
Qed.

Lemma go_move s t stop s' evs : sgo has_cctor s t stop = Some (Val (s', evs)) -> smove s t s' evs.
Proof.
  unfold sgo, told, end_wait, sret. intros H.
  destruct (spc_of s t) as [|k|k|k|k|k|k|k target|k|k|k] eqn:Ep; [done|..].
  - destruct (storages s !! k) as [st|] eqn:Est; [|done].
    destruct (Z.eqb_spec (init_state st) INIT_STATE_INITIALIZED); [simplify_eq; eapply sm_answer; eauto; by rewrite Ep|].
    destruct (Z.eqb_spec (init_state st) INIT_STATE_FAILED); [simplify_eq; eapply sm_answer; eauto; by rewrite Ep|].
    destruct (Z.eqb_spec (init_state st) INIT_STATE_INITIALIZING); simplify_eq;
      (eapply sm_pass; [by rewrite Ep|done|done|by eauto]).
  - destruct (storages s !! k) as [st|] eqn:Est; [|done].
    destruct (Z.eqb_spec (initializing_thread st) t); simplify_eq; [eapply sm_answer; eauto; by rewrite Ep|].
    eapply sm_pass; [by rewrite Ep|done|done|by eauto].
  - destruct (has_cctor k) eqn:Ec; [simplify_eq; eapply sm_pass; [by rewrite Ep|done|done|done]|].
    destruct (storages s !! k) as [st|] eqn:Est; [|done].
    destruct (Z.eqb_spec (init_state st) INIT_STATE_UNINITIALIZED); simplify_eq;
      [eapply sm_no_cctor; eauto; by rewrite Ep|eapply sm_answer; eauto; by rewrite Ep].
  - destruct (storages s !! k) as [st|] eqn:Est; [|done]. by eapply locked_move.
  - destruct (storages s !! k) as [st|] eqn:Est; [|done].
    destruct (Z.eqb_spec (init_state st) INIT_STATE_INITIALIZING); simplify_eq;
      [eapply sm_spin; by rewrite ?Ep|eapply sm_end; eauto; by rewrite Ep].
  - destruct (storages s !! k) as [st|] eqn:Est; [|done]. simplify_eq. eapply sm_spin; [by rewrite Ep|done|].
    intros target [= <-]. eauto.
  - simplify_eq. by eapply sm_update.
  - destruct stop; simplify_eq; [eapply sm_yield; by rewrite Ep|eapply sm_spin; by rewrite ?Ep].
  - destruct (storages s !! k) as [st|] eqn:Est; [|done].
    destruct (Z.eqb_spec (init_state st) INIT_STATE_INITIALIZING); simplify_eq;
      [eapply sm_spin; by rewrite ?Ep|eapply sm_end; eauto; by rewrite Ep].
  - destruct (storages s !! k) as [st|] eqn:Est; [|done].
    destruct (Z.eqb_spec (init_state st) INIT_STATE_INITIALIZED); [simplify_eq; by eapply (sm_over _ _ k st true)|].
    destruct (Z.eqb_spec (init_state st) INIT_STATE_FAILED); simplify_eq. by eapply (sm_over _ _ k st false).
Qed.

Lemma sstep_move l s s' evs : sstep l s = Some (Val (s', evs)) -> exists t, smove s t s' evs.
Proof.
  destruct l as [t k|t stop|t ok]; simpl; intros H; exists t.
  - destruct (spc_of s t) eqn:Ep; try done. destruct (Z.ltb_spec 0 t); [|done]. unfold sret in H. simplify_eq. by apply sm_ensure.
  - by eapply go_move.
  - unfold mark, sret in H. destruct (spc_of s t) eqn:Ep; try done. destruct (run_of s t) as [|k ks] eqn:Er; [done|].
    simplify_eq. by apply sm_mark.
Qed.

(** ** The invariant *)

Lemma spc_of_set s t p u : spc_of (set_spc s t p) u = if decide (u = t) then p else spc_of s u.
Proof.
  unfold spc_of. simpl. case_decide as H; [subst; by rewrite lookup_insert_eq|]. by rewrite lookup_insert_ne.
Qed.

Lemma run_of_set s t ks u : run_of (set_running s t ks) u = if decide (u = t) then ks else run_of s u.
Proof.
  unfold run_of. simpl. case_decide as H; [subst; by rewrite lookup_insert_eq|]. by rewrite lookup_insert_ne.
Qed.

(** Which constructors run, and the states of their types. *)
Record runs_ok (storages : gmap Z StaticStorage) (run : Z -> list Z) : Prop := {
  ro_running t k : k ∈ run t ->
    storages !! k = Some {| init_state := INIT_STATE_INITIALIZING; initializing_thread := t |} /\ 0 < t;
  ro_nodup t : NoDup (run t);
  ro_state k st : storages !! k = Some st ->
    init_state st = INIT_STATE_INITIALIZING /\ k ∈ run (initializing_thread st) /\ has_cctor k = true \/
    initializing_thread st = 0 /\
      (init_state st = INIT_STATE_UNINITIALIZED \/ init_state st = INIT_STATE_INITIALIZED \/
       init_state st = INIT_STATE_FAILED /\ has_cctor k = true);
}.

(** Who waits for whom. *)
Record waits_ok (s : StaticStorageManager) : Prop := {
  wo_edge t u : wait_graph s !! t = Some u -> is_Some (waits (spc_of s t));
  wo_owner t k st : waits (spc_of s t) = Some k -> storages s !! k = Some st ->
    init_state st = INIT_STATE_INITIALIZING -> wait_graph s !! t = Some (initializing_thread st);
  wo_target t k target : spc_of s t = WUpdate k target -> target = 0 \/ wait_graph s !! t = Some target;
  wo_acyclic : acyclic (wait_graph s);
}.

(** What the program counters say about the storages. *)
Record pcs_ok (s : StaticStorageManager) : Prop := {
  po_storage t k : asks (spc_of s t) = Some k -> is_Some (storages s !! k);
  po_waits t k : waits (spc_of s t) = Some k ->
    exists st, storages s !! k = Some st /\ init_state st <> INIT_STATE_UNINITIALIZED;
  po_recheck t k : spc_of s t = Recheck k ->
    exists st, storages s !! k = Some st /\ (init_state st = INIT_STATE_INITIALIZED \/ init_state st = INIT_STATE_FAILED);
  po_locking t k : spc_of s t = Locking k -> has_cctor k = true;
  po_own t k : spc_of s t = CctorCheck k \/ spc_of s t = Locking k -> k ∉ run_of s t;
  po_thread t : spc_of s t <> Idle -> 0 < t;
}.


Lemma runs_insert storages run k st :
  runs_ok storages run -> storages !! k = None \/ (exists st0, storages !! k = Some st0 /\ init_state st0 = INIT_STATE_UNINITIALIZED) ->
  initializing_thread st = 0 -> init_state st = INIT_STATE_UNINITIALIZED \/ init_state st = INIT_STATE_INITIALIZED ->
  runs_ok (<[k := st]> storages) run.
Proof.
  intros [Hr Hd Hs] Hk Ht Hst. split; [|done|].
  - intros t j Hj. rewrite lookup_insert_ne; [by apply Hr|]. intros <-. destruct (Hr _ _ Hj) as [Hj' _].
    destruct Hk as [Hk | (st0 & Hk & Hu)]; [congruence|]. rewrite Hk in Hj'. by simplify_eq.
  - intros j st'. rewrite lookup_insert_Some. intros [[<- <-] | [_ Hj]]; [|by apply Hs]. right. intuition.
Qed.

Lemma runs_execute storages run run' k t :
  runs_ok storages run -> 0 < t -> has_cctor k = true ->
  (exists st, storages !! k = Some st /\ init_state st = INIT_STATE_UNINITIALIZED) ->
  (forall u, run' u = if decide (u = t) then k :: run t else run u) ->
  runs_ok (<[k := {| init_state := INIT_STATE_INITIALIZING; initializing_thread := t |}]> storages) run'.
Proof.
  intros [Hr Hd Hs] Ht Hc (st & Hk & Hu) Hrun.
  assert (Hnot : forall u, k ∉ run u) by (intros u Hin; destruct (Hr _ _ Hin) as [Hk' _]; rewrite Hk in Hk'; by simplify_eq).
  split.
  - intros u j. rewrite Hrun. case_decide as Hu'; [subst u; rewrite elem_of_cons; intros [-> | Hj]|intros Hj].
    + by rewrite lookup_insert_eq.
    + rewrite lookup_insert_ne by (intros <-; by apply Hnot in Hj). by apply Hr.
    + rewrite lookup_insert_ne by (intros <-; by apply Hnot in Hj). by apply Hr.
  - intros u. rewrite Hrun. case_decide; [|done]. by apply NoDup_cons.
  - intros j st'. rewrite lookup_insert_Some. intros [[<- <-] | [_ Hj]].
    + left. split; [done|]. split; [|done]. simpl. rewrite Hrun, decide_True by done. by left.
    + destruct (Hs _ _ Hj) as [(? & Hin & ?) | ?]; [left | by right]. split; [done|]. split; [|done].
      rewrite Hrun. case_decide as Hu'; [rewrite Hu' in Hin; by right|done].
Qed.

Lemma runs_mark storages run run' k ks t (ok : bool) :
  runs_ok storages run -> run t = k :: ks -> (forall u, run' u = if decide (u = t) then ks else run u) ->
  runs_ok (<[k := {| init_state := if ok then INIT_STATE_INITIALIZED else INIT_STATE_FAILED; initializing_thread := 0 |}]> storages) run'.
Proof.
  intros [Hr Hd Hs] Ht Hrun. pose proof (Hd t) as Hnd. rewrite Ht in Hnd. apply NoDup_cons in Hnd as [Hnin Hnd].
  assert (Hkt : k ∈ run t) by (rewrite Ht; by left). destruct (Hr _ _ Hkt) as [Hk _].
  assert (Hsub : forall u j, j ∈ run' u -> j ∈ run u /\ j <> k).
  { intros u j. rewrite Hrun. case_decide as Hu; [subst u; intros Hj; split; [rewrite Ht; by right|congruence]|].
    intros Hj. split; [done|]. intros ->. destruct (Hr _ _ Hj) as [Hk' _]. congruence. }
  split.
  - intros u j [Hj Hne]%Hsub. rewrite lookup_insert_ne by done. by apply Hr.
  - intros u. rewrite Hrun. by case_decide.
  - intros j st'. rewrite lookup_insert_Some. intros [[<- <-] | [Hne Hj]].
    + right. split; [done|]. destruct (Hs _ _ Hk) as [(_ & _ & Hc) | [_ Hd']]; [|simpl in Hd'; unfold INIT_STATE_INITIALIZING, INIT_STATE_UNINITIALIZED, INIT_STATE_INITIALIZED, INIT_STATE_FAILED in Hd'; lia].
      destruct ok; auto.
    + destruct (Hs _ _ Hj) as [(? & Hin & ?) | ?]; [left | by right]. split; [done|]. split; [|done].
      rewrite Hrun. case_decide as Hu; [|done]. rewrite Hu, Ht in Hin. apply elem_of_cons in Hin as [->|]; done.
Qed.

Lemma runs_step s t s' evs :
  runs_ok (storages s) (run_of s) -> pcs_ok s -> smove s t s' evs -> runs_ok (storages s') (run_of s').
Proof.
  intros Hr Hp Hm. destruct Hm as [k Hi Ht|k p'|k st r|k st Ha Hst Hc Hu|k st Hl Hst Hu|k st Hl Hst Hi Hn Hcy|k st|k p'|k target|k st|k|k st ok|k ks ok Hi Hrun];
    try exact Hr.
  - unfold ensure_storage. change (runs_ok (<[k := default new_storage (storages s !! k)]> (storages s)) (run_of s)).
    destruct (storages s !! k) as [st|] eqn:Ek; simpl; [by rewrite insert_id|]. apply runs_insert; auto.
  - change (runs_ok (<[k := {| init_state := INIT_STATE_INITIALIZED; initializing_thread := initializing_thread st |}]> (storages s)) (run_of s)).
    apply runs_insert; eauto. simpl. destruct (ro_state _ _ Hr _ _ Hst) as [(Hx & _) | [? _]]; [by rewrite Hu in Hx|done].
  - eapply (runs_execute (storages s) (run_of s)); eauto using po_locking.
    + apply (po_thread _ Hp). by rewrite Hl.
    + intros u. exact (run_of_set s t (k :: run_of s t) u).
  - assert (Hk : is_Some (storages s !! k)).
    { destruct (ro_running _ _ Hr t k) as [-> _]; [rewrite Hrun; by left|eauto]. }
    destruct Hk as [st ->]. eapply (runs_mark (storages s) (run_of s)); eauto. intros u. exact (run_of_set s t ks u).
Qed.

Lemma move_others s t s' evs u :
  smove s t s' evs -> u <> t -> spc_of s' u = spc_of s u /\ run_of s' u = run_of s u.
Proof.
  intros Hm Hu.
  assert (Hp : forall s0 p, spc_of (set_spc s0 t p) u = spc_of s0 u) by (intros; rewrite spc_of_set; by rewrite decide_False).
  assert (Hr : forall s0 ks, run_of (set_running s0 t ks) u = run_of s0 u) by (intros; rewrite run_of_set; by rewrite decide_False).
  destruct Hm as [k Hi Ht|k p'|k st r|k st|k st|k st|k st|k p'|k target|k st|k|k st ok|k ks ok];
    unfold ensure_storage; split; rewrite ?Hp; try done.
  - exact (Hr s _).
  - by destruct (storages s !! k).
  - rewrite Hr. by destruct (storages s !! k).
Qed.

(** How a storage changes. *)
Definition evolves (st st' : StaticStorage) : Prop :=
  st' = st \/ init_state st = INIT_STATE_UNINITIALIZED \/
  init_state st = INIT_STATE_INITIALIZING /\ (init_state st' = INIT_STATE_INITIALIZED \/ init_state st' = INIT_STATE_FAILED).

Lemma move_storage s t s' evs k st :
  runs_ok (storages s) (run_of s) -> smove s t s' evs -> storages s !! k = Some st ->
  exists st', storages s' !! k = Some st' /\ evolves st st'.
Proof.
  intros Hr Hm Hk.
  assert (Hins : forall j stj, (j = k -> evolves st stj) -> exists st', <[j := stj]> (storages s) !! k = Some st' /\ evolves st st').
  { intros j stj Hj. destruct (decide (j = k)) as [->|Hne]; [rewrite lookup_insert_eq; eauto|].
    rewrite lookup_insert_ne by done. exists st. split; [done|by left]. }
  assert (Hsame : exists st', storages s !! k = Some st' /\ evolves st st') by (exists st; split; [done|by left]).
  destruct Hm as [j Hi Ht|j p'|j stj r|j stj Ha Hst Hc Hu|j stj Hl Hst Hu|j stj|j stj|j p'|j target|j stj|j|j stj ok|j ks ok Hi Hrun]; try exact Hsame.
  - apply Hins. intros ->. rewrite Hk. by left.
  - apply Hins. intros ->. right. left. congruence.
  - apply Hins. intros ->. right. left. congruence.
  - destruct (ro_running _ _ Hr t j) as [Hj _]; [rewrite Hrun; by left|]. rewrite Hj. apply Hins. intros ->.
    right. right. rewrite Hj in Hk. injection Hk as <-. split; [done|]. destruct ok; auto.
Qed.

Lemma move_own s t s' evs :
  smove s t s' evs ->
  match spc_of s' t with
  | CctorCheck k => run_of s' t = run_of s t /\ exists st, storages s !! k = Some st /\
      (init_state st <> INIT_STATE_INITIALIZING \/ initializing_thread st <> t)
  | Locking k => run_of s' t = run_of s t /\ spc_of s t = CctorCheck k /\ has_cctor k = true
  | Recheck k => exists st, storages s !! k = Some st /\ storages s' = storages s /\ init_state st <> INIT_STATE_INITIALIZING /\
      waits (spc_of s t) = Some k
  | _ => True
  end.
Proof.
  assert (Hself : forall s0 p, spc_of (set_spc s0 t p) t = p) by (intros; rewrite spc_of_set; by rewrite decide_True).
  destruct 1 as [k Hi Ht|k p' Ha Ha' Hl Hc|k st r|k st|k st|k st|k st|k p' Hw Hw'|k target|k st Hw Hst Hn|k|k st ok|k ks ok Hi Hrun];
    unfold ensure_storage; rewrite ?Hself; try done.
  - destruct p'; simplify_eq/=; try done; [by split; [|apply Hc]|by split; [|apply Hl]].
  - by destruct p'.
  - eauto.
  - assert (Hp : spc_of (set_running (match storages s !! k with
        | Some _ => set_storage s k {| init_state := if ok then INIT_STATE_INITIALIZED else INIT_STATE_FAILED; initializing_thread := 0 |}
        | None => s end) t ks) t = Idle) by (by destruct (storages s !! k)). by rewrite Hp.
Qed.

Lemma set_spc_self s t p : spc_of (set_spc s t p) t = p.
Proof. rewrite spc_of_set. by rewrite decide_True. Qed.

Lemma mark_idle s t k ks ok :
  spc_of s t = Idle ->
  spc_of (set_running (match storages s !! k with
    | Some _ => set_storage s k {| init_state := if ok : bool then INIT_STATE_INITIALIZED else INIT_STATE_FAILED; initializing_thread := 0 |}
    | None => s end) t ks) t = Idle.
Proof. intros H. by destruct (storages s !! k). Qed.

(** What a thread asks about is what it did before, or has a storage now. *)
Lemma move_asks s t s' evs k :
  smove s t s' evs -> asks (spc_of s' t) = Some k -> asks (spc_of s t) = Some k \/ is_Some (storages s' !! k).
Proof.
  destruct 1 as [j Hi Ht|j p' Ha Ha' Hl Hc|j st r|j st|j st|j st Hl|j st Hl|j p' Hw Hw'|j target Hw|j st Hw Hst Hn|j|j st ok|j ks ok Hi Hrun];
    unfold ensure_storage; rewrite ?set_spc_self, ?mark_idle by done; intros Hk; try done.
  - right. injection Hk as <-. simpl. rewrite lookup_insert_eq. eauto.
  - left. congruence.
  - by destruct p'.
Qed.

(** A thread starts to wait only for a type that is being initialised. *)
Lemma move_waits s t s' evs k :
  smove s t s' evs -> waits (spc_of s' t) = Some k ->
  waits (spc_of s t) = Some k /\ storages s' = storages s \/
  exists st, storages s !! k = Some st /\ init_state st = INIT_STATE_INITIALIZING /\ storages s' = storages s /\
    (initializing_thread st <> 0 -> wait_graph s' !! t = Some (initializing_thread st)).
Proof.
  destruct 1 as [j Hi Ht|j p' Ha Ha' Hl Hc|j st r|j st|j st|j st Hl Hst Hi Hn Hcy|j st Hl Hst Hi Hn|j p' Hw Hw'|j target Hw|j st Hw Hst Hn|j|j st ok|j ks ok Hi Hrun];
    unfold ensure_storage; rewrite ?set_spc_self, ?mark_idle by done; intros Hk; try done.
  - by destruct p'.
  - right. injection Hk as <-. exists st. split; [done|]. split; [done|]. split; [done|]. intros _. simpl. by rewrite lookup_insert_eq.
  - right. injection Hk as <-. exists st. done.
  - left. split; [congruence|done].
  - left. injection Hk as <-. rewrite Hw. done.
Qed.

Lemma pcs_step s t s' evs :
  runs_ok (storages s) (run_of s) -> pcs_ok s -> smove s t s' evs -> pcs_ok s'.
Proof.
  intros Hr [Hsto Hwait Hrec Hlock Hown Hthr] Hm. pose proof (move_own _ _ _ _ Hm) as Hself.
  assert (Hkeep : forall k st, storages s !! k = Some st -> exists st', storages s' !! k = Some st' /\ evolves st st')
    by eauto using move_storage.
  assert (Hothers : forall u, u <> t -> spc_of s' u = spc_of s u /\ run_of s' u = run_of s u) by eauto using move_others.
  split.
  - intros u k Hk. destruct (decide (u = t)) as [->|Hne].
    + destruct (move_asks _ _ _ _ _ Hm Hk) as [Ha|]; [|done]. apply Hsto in Ha as [st Hst]. apply Hkeep in Hst as (? & -> & _). eauto.
    + destruct (Hothers u Hne) as [Hp _]. rewrite Hp in Hk. apply Hsto in Hk as [st Hst]. apply Hkeep in Hst as (? & -> & _). eauto.
  - assert (Hold : forall u k, waits (spc_of s u) = Some k -> exists st, storages s' !! k = Some st /\ init_state st <> INIT_STATE_UNINITIALIZED).
    { intros u k Hk. apply Hwait in Hk as (st & Hst & Hn). apply Hkeep in Hst as (st' & Hst' & He). exists st'. split; [done|].
      destruct He as [->|[?|[_ [->| ->]]]]; done. }
    intros u k Hk. destruct (decide (u = t)) as [->|Hne]; [|destruct (Hothers u Hne) as [Hp _]; rewrite Hp in Hk; eauto].
    destruct (move_waits _ _ _ _ _ Hm Hk) as [[Hw _] | (st & Hst & Hi & Heq & _)]; [eauto|]. exists st. rewrite Heq, Hi. done.
  - intros u k Hk. destruct (decide (u = t)) as [->|Hne].
    + rewrite Hk in Hself. destruct Hself as (st & Hst & Heq & Hn & Hw). exists st. rewrite Heq. split; [done|].
      apply Hwait in Hw as (st0 & Hst0 & Hn0). simplify_eq.
      destruct (ro_state _ _ Hr _ _ Hst) as [(? & _) | (_ & [Hu | [?|[? _]]])]; auto; congruence.
    + destruct (Hothers u Hne) as [Hp _]. rewrite Hp in Hk. apply Hrec in Hk as (st & Hst & Hd).
      apply Hkeep in Hst as (st' & Hst' & He). exists st'. split; [done|].
      destruct He as [->|[Hu|[Hu _]]]; [done|..]; rewrite Hu in Hd; by destruct Hd.
  - intros u k Hk. destruct (decide (u = t)) as [->|Hne]; [|destruct (Hothers u Hne) as [Hp _]; rewrite Hp in Hk; eauto].
    rewrite Hk in Hself. tauto.
  - intros u k Hk. destruct (decide (u = t)) as [->|Hne].
    + destruct Hk as [Hk|Hk]; rewrite Hk in Hself.
      * destruct Hself as [-> (st & Hst & Hd)]. intros Hin%(ro_running _ _ Hr). destruct Hin as [Hin _]. rewrite Hst in Hin.
        simplify_eq. by destruct Hd.
      * destruct Hself as (-> & Hc & _). apply Hown. by left.
    + destruct (Hothers u Hne) as [Hp ->]. rewrite Hp in Hk. eauto.
  - intros u Hk. destruct (decide (u = t)) as [->|Hne]; [|destruct (Hothers u Hne) as [Hp _]; rewrite Hp in Hk; eauto].
    destruct (decide (spc_of s t = Idle)) as [Hi|]; [|auto].
    destruct Hm; try congruence; try by rewrite Hi in *.
    by rewrite mark_idle in Hk.
Qed.

Lemma update_same s t k target : waits_ok s -> spc_of s t = WUpdate k target -> update_edge (wait_graph s) t target = wait_graph s.
Proof.
  intros Hw Hp. unfold update_edge. destruct (Z.eqb_spec target 0); [done|]. destruct (target =? t); [done|]. simpl.
  destruct (wo_target _ Hw _ _ _ Hp); [done|]. by apply insert_id.
Qed.

(** How a step changes the graph. *)
Lemma move_graph s t s' evs :
  waits_ok s -> smove s t s' evs ->
  wait_graph s' = wait_graph s /\ (is_Some (waits (spc_of s t)) -> is_Some (waits (spc_of s' t))) \/
  wait_graph s' = delete t (wait_graph s) /\ waits (spc_of s' t) = None \/
  exists k st, spc_of s t = Locking k /\ storages s !! k = Some st /\ init_state st = INIT_STATE_INITIALIZING /\
    causes_cycle (S (size (wait_graph s))) (wait_graph s) t (initializing_thread st) = Some false /\
    wait_graph s' = <[t := initializing_thread st]> (wait_graph s) /\ waits (spc_of s' t) = Some k.
Proof.
  intros Hok Hm. destruct Hm as [j Hi Ht|j p' Ha Ha' Hl Hc|j st r Ha|j st Ha|j st Hl|j st Hl Hst Hi Hn Hcy|j st Hl Hst Hi Hn|j p' Hw Hw'|j target Hw|j st Hw Hst Hn|j|j st ok Hl|j ks ok Hi Hrun];
    unfold ensure_storage; rewrite ?set_spc_self, ?mark_idle by done.
  all: try (left; split; [done|]; intros [j' Hj']; first [by rewrite Hi in Hj' | by rewrite Hl in Hj' | destruct (spc_of s t); done]).
  - right. right. by exists j, st.
  - left. simpl. rewrite (update_same _ _ _ _ Hok Hw), Hw. done.
  - by right; left.
  - by right; left.
  - left. rewrite Hi. simpl. split; [by destruct (storages s !! j)|done].
Qed.

Lemma waits_step s t s' evs :
  runs_ok (storages s) (run_of s) -> pcs_ok s -> waits_ok s -> smove s t s' evs -> waits_ok s'.
Proof.
  intros Hr Hp Hok Hm.
  assert (Hothers : forall u, u <> t -> spc_of s' u = spc_of s u /\ run_of s' u = run_of s u) by eauto using move_others.
  assert (Hgraph : forall u, u <> t -> wait_graph s' !! u = wait_graph s !! u).
  { intros u Hu. destruct (move_graph _ _ _ _ Hok Hm) as [[-> _] | [[-> _] | (k & st & _ & _ & _ & _ & -> & _)]]; [done|..];
      [by rewrite lookup_delete_ne|by rewrite lookup_insert_ne]. }
  assert (Hback : forall u k st, waits (spc_of s u) = Some k -> storages s' !! k = Some st ->
    init_state st = INIT_STATE_INITIALIZING -> storages s !! k = Some st).
  { intros u k st' Hk Hst' Hi. destruct (po_waits _ Hp _ _ Hk) as (st & Hst & Hn).
    destruct (move_storage _ _ _ _ _ _ Hr Hm Hst) as (st2 & Hst2 & He). simplify_eq.
    destruct He as [->|[?|[_ [He|He]]]]; [done|done|..]; by rewrite He in Hi. }
  split.
  - intros u v Huv. destruct (decide (u = t)) as [->|Hne].
    + destruct (move_graph _ _ _ _ Hok Hm) as [[Hg Hw] | [[Hg _] | (k & st & _ & _ & _ & _ & _ & Hw)]].
      * rewrite Hg in Huv. apply Hw. by eapply wo_edge.
      * rewrite Hg, lookup_delete_eq in Huv. done.
      * by rewrite Hw.
    + rewrite Hgraph in Huv by done. destruct (Hothers u Hne) as [-> _]. by eapply wo_edge.
  - intros u k st Hk Hst Hi. destruct (decide (u = t)) as [->|Hne].
    + destruct (move_waits _ _ _ _ _ Hm Hk) as [[Hw Heq] | (st0 & Hst0 & Hi0 & Heq & Hedge)].
      * rewrite Heq in Hst. pose proof (wo_owner _ Hok _ _ _ Hw Hst Hi) as Hg.
        destruct (move_graph _ _ _ _ Hok Hm) as [[-> _] | [[_ Hd] | (k' & st' & Hl & _)]]; [done|congruence|by rewrite Hl in Hw].
      * rewrite Heq in Hst. simplify_eq. apply Hedge.
        destruct (ro_state _ _ Hr _ _ Hst) as [(_ & Hin & _) | (_ & Hd)].
        -- apply (ro_running _ _ Hr) in Hin as [_ Hpos]. lia.
        -- rewrite Hi in Hd. by destruct Hd as [|[|[]]].
    + destruct (Hothers u Hne) as [Heq _]. rewrite Heq in Hk. rewrite Hgraph by done. eapply wo_owner; eauto.
  - intros u k target Hk. destruct (decide (u = t)) as [->|Hne].
    + assert (Hw : waits (spc_of s' t) = Some k) by by rewrite Hk.
      assert (Hspin : exists st, storages s !! k = Some st /\ target = initializing_thread st /\ waits (spc_of s t) = Some k /\ wait_graph s' = wait_graph s).
      { destruct Hm as [ |j p' Ha Ha' | | | | | |j p' Hw1 Hw2 Ht| | | | | ]; unfold ensure_storage in Hk; rewrite ?set_spc_self, ?mark_idle in Hk by done; try done.
        - by rewrite Hk in Ha'.
        - subst p'. simpl in Hw2. injection Hw2 as ->. destruct (Ht target eq_refl) as (st & ? & ?). by exists st. }
      destruct Hspin as (st & Hst & -> & Hwk & ->). destruct (ro_state _ _ Hr _ _ Hst) as [(Hi & _) | [? _]]; [right | by left].
      eapply wo_owner; eauto.
    + destruct (Hothers u Hne) as [Heq _]. rewrite Heq in Hk. rewrite Hgraph by done. eapply wo_target; eauto.
  - destruct (move_graph _ _ _ _ Hok Hm) as [[-> _] | [[-> _] | (k & st & Hl & Hst & Hi & Hc & -> & _)]].
    + by apply wo_acyclic.
    + by apply acyclic_delete, wo_acyclic.
    + destruct (causes_cycle_spec (wait_graph s) t (initializing_thread st)) as (b & Hb & Hbt); [by apply wo_acyclic|].
      apply acyclic_insert; [by apply wo_acyclic| |].
      * intros Heq. destruct (ro_state _ _ Hr _ _ Hst) as [(_ & Hin & _) | (_ & Hd)].
        -- rewrite Heq in Hin. apply (po_own _ Hp t k) in Hin; [done|]. by right.
        -- rewrite Hi in Hd. by destruct Hd as [|[|[]]].
      * rewrite <- Hbt. congruence.
Qed.

(** *** What the threads were told *)

Definition is_execute (k : Z) (e : sevent) : bool :=
  match e with Told _ k' Execute => k' =? k | _ => false end.

(** How often a thread was told to execute the class constructor of [k]. *)
Definition executions (k : Z) (evs : list sevent) : nat := length (filter (fun e => is_execute k e = true) evs).

Record told_ok (evs : list sevent) (s : StaticStorageManager) : Prop := {
  to_fresh k : (forall st, storages s !! k = Some st -> init_state st = INIT_STATE_UNINITIALIZED) -> executions k evs = 0%nat;
  to_once k : (executions k evs <= 1)%nat;
  to_running t k : k ∈ run_of s t -> Told t k Execute ∈ evs;
  to_state k st : storages s !! k = Some st -> init_state st = INIT_STATE_INITIALIZED ->
    has_cctor k = false \/ exists u, Told u k Execute ∈ evs /\ Marked u k true ∈ evs;
  to_initialized t k : Told t k Initialized ∈ evs \/ WaitOver t k true ∈ evs ->
    exists st, storages s !! k = Some st /\ init_state st = INIT_STATE_INITIALIZED;
}.

Lemma executions_app k evs evs' : executions k (evs ++ evs') = (executions k evs + executions k evs')%nat.
Proof. unfold executions. by rewrite filter_app, length_app. Qed.

(** Only the storing of an INITIALIZING state is announced as an execution. *)
Lemma move_executions s t s' evs k :
  smove s t s' evs ->
  executions k evs = 0%nat \/
  executions k evs = 1%nat /\ (exists st, storages s !! k = Some st /\ init_state st = INIT_STATE_UNINITIALIZED) /\
    storages s' !! k = Some {| init_state := INIT_STATE_INITIALIZING; initializing_thread := t |}.
Proof.
  destruct 1 as [ | |j st r Ha Hst [[-> _] | [[-> _] | ->]]| |j st Hl Hst Hu| | | | | | | | ]; try by left.
  unfold executions. simpl. unfold filter. simpl. destruct (Z.eqb_spec j k) as [->|Hne]; [right|by left].
  split; [done|]. split; [eauto|]. simpl. by rewrite lookup_insert_eq.
Qed.

Lemma told_step evs s t s' evs' :
  runs_ok (storages s) (run_of s) -> pcs_ok s -> told_ok evs s -> smove s t s' evs' -> told_ok (evs ++ evs') s'.
Proof.
  intros Hr Hp [Hf Ho Hrun Hst Hini] Hm.
  assert (Hkeep : forall k st, storages s !! k = Some st -> exists st', storages s' !! k = Some st' /\ evolves st st')
    by eauto using move_storage.
  assert (Hpcs : forall u, u <> t -> spc_of s' u = spc_of s u /\ run_of s' u = run_of s u) by eauto using move_others.
  split.
  - intros k Hk. rewrite executions_app. destruct (move_executions _ _ _ _ k Hm) as [-> | (_ & _ & Hs')].
    + rewrite Hf; [done|]. intros st Hs. destruct (Hkeep _ _ Hs) as (st' & Hs' & He). apply Hk in Hs'.
      destruct He as [->|[?|[_ [He|He]]]]; [done|done|..]; by rewrite He in Hs'.
    + by apply Hk in Hs'.
  - intros k. rewrite executions_app. destruct (move_executions _ _ _ _ k Hm) as [-> | (-> & (st & Hs & Hu) & _)]; [specialize (Ho k); lia|].
    rewrite Hf; [lia|]. intros st' Hs'. by simplify_eq.
  - intros u k Hk. apply elem_of_app. destruct (decide (u = t)) as [->|Hne]; [|destruct (Hpcs u Hne) as [_ Heq]; rewrite Heq in Hk; auto].
    destruct Hm as [j Hi Ht|j p'|j st r|j st|j st Hl Hs Hu|j st|j st|j p'|j target|j st|j|j st ok|j ks ok Hi Hru]; try (by left; apply Hrun).
    + change (k ∈ run_of (set_running s t (j :: run_of s t)) t) in Hk. rewrite run_of_set, decide_True in Hk by done.
      apply elem_of_cons in Hk as [->|Hk]; [right; by left|left; auto].
    + left. apply Hrun. rewrite Hru. right. rewrite run_of_set, decide_True in Hk by done. done.
  - assert (Hold : forall k st, storages s !! k = Some st -> init_state st = INIT_STATE_INITIALIZED ->
      has_cctor k = false \/ exists u, Told u k Execute ∈ evs ++ evs' /\ Marked u k true ∈ evs ++ evs').
    { intros k st H1 H2. destruct (Hst _ _ H1 H2) as [|(u & Hu1 & Hu2)]; [auto|]. right. exists u. rewrite !elem_of_app. auto. }
    intros k st Hs Hi. destruct Hm as [j Hj Ht|j p'|j stj r|j stj Ha Hsj Hc Hu|j stj Hl Hsj Hu|j stj|j stj|j p'|j target|j stj|j|j stj ok|j ks ok Hj Hru];
      eauto.
    + simpl in Hs. rewrite lookup_insert_Some in Hs. destruct Hs as [[<- <-] | [_ Hs]]; [|eauto].
      destruct (storages s !! j) as [stj|] eqn:Ej; [by eapply Hold|done].
    + simpl in Hs. rewrite lookup_insert_Some in Hs. destruct Hs as [[<- <-] | [_ Hs]]; [auto|eauto].
    + simpl in Hs. rewrite lookup_insert_Some in Hs. destruct Hs as [[<- <-] | [_ Hs]]; [done|eauto].
    + assert (Hjt : j ∈ run_of s t) by (rewrite Hru; by left). destruct (ro_running _ _ Hr _ _ Hjt) as [Hj' _]. rewrite Hj' in Hs.
      simpl in Hs. rewrite lookup_insert_Some in Hs. destruct Hs as [[<- <-] | [_ Hs]]; [|eauto].
      destruct ok; [|done]. right. exists t. rewrite !elem_of_app. split; [left; auto|right; by left].
  - intros u k Hk. rewrite !elem_of_app in Hk.
    assert (Hd : (Told u k Initialized ∈ evs \/ WaitOver u k true ∈ evs) \/ (Told u k Initialized ∈ evs' \/ WaitOver u k true ∈ evs')) by tauto.
    destruct Hd as [Hd|Hd].
    + destruct (Hini _ _ Hd) as (st & Hs & Hi). destruct (Hkeep _ _ Hs) as (st' & Hs' & He). exists st'. split; [done|].
      destruct He as [->|[He|[He _]]]; [done|..]; by rewrite He in Hi.
    + clear Hk. destruct Hm as [j Hj Ht|j p'|j stj r Ha Hsj Hc|j stj Ha Hsj Hc Hu|j stj Hl Hsj Hu|j stj|j stj|j p'|j target|j stj|j|j stj ok Hl Hsj Hok|j ks ok Hj Hru];
        rewrite ?list_elem_of_singleton, ?elem_of_nil in Hd; try (destruct Hd; done).
      * destruct Hd as [Hd|]; [|done]. injection Hd as -> -> <-. exists stj. split; [done|].
        destruct Hc as [[_ [Hc|[Hc Hn]]] | [[Hc _]|Hc]]; [done| |done|done].
        destruct (ro_state _ _ Hr _ _ Hsj) as [(_ & _ & Hcc) | (_ & [|[|[_ Hcc]]])]; congruence.
      * destruct Hd as [Hd|]; [|done]. injection Hd as -> ->. eexists. simpl. rewrite lookup_insert_eq. done.
      * destruct Hd as [|Hd]; [done|]. injection Hd as -> -> <-. exists stj. done.
Qed.

Lemma history_ok evs s :
  shistory evs s -> runs_ok (storages s) (run_of s) /\ pcs_ok s /\ waits_ok s /\ told_ok evs s.
Proof.
  induction 1 as [|l evs s evs' s' _ (Hr & Hp & Hw & Ht) Hs].
  - split; [|split; [|split]].
    + split; [intros t k; set_solver|intros t; apply NoDup_nil_2|done].
    + split; unfold spc_of, run_of; simpl; intros t; rewrite lookup_empty; try done. intros k [|]; done.
    + split; try done. apply acyclic_empty.
    + split; try done; [intros k; unfold executions, filter; simpl; lia|set_solver|set_solver].
  - apply sstep_move in Hs as [t Hm].
    eauto 10 using runs_step, pcs_step, waits_step, told_step.
Qed.

(** ** Progress *)

Lemma state_cases storages run k st :
  runs_ok storages run -> storages !! k = Some st ->
  init_state st = INIT_STATE_UNINITIALIZED \/ init_state st = INIT_STATE_INITIALIZING \/
  init_state st = INIT_STATE_INITIALIZED \/ init_state st = INIT_STATE_FAILED.
Proof. intros Hr Hs. destruct (ro_state _ _ Hr _ _ Hs) as [(? & _) | (_ & [|[|[]]])]; auto. Qed.

Lemma locked_total s t k st :
  runs_ok (storages s) (run_of s) -> waits_ok s -> storages s !! k = Some st ->
  exists r, init_locked s t k st = Some (Val r).
Proof.
  intros Hr Hw Hs.
  destruct (causes_cycle_spec (wait_graph s) t (initializing_thread st)) as (b & Hb & _); [by apply wo_acyclic|].
  unfold init_locked, told, sret. rewrite Hb.
  destruct (state_cases _ _ _ _ Hr Hs) as [-> | [-> | [-> | ->]]]; simpl; eauto.
  destruct (initializing_thread st =? 0); [eauto|]. destruct b; eauto.
Qed.

Lemma go_total s t stop :
  runs_ok (storages s) (run_of s) -> pcs_ok s -> waits_ok s -> spc_of s t <> Idle ->
  exists r, sgo has_cctor s t stop = Some (Val r).
Proof.
  intros Hr Hp Hw Hn. unfold sgo, told, end_wait, sret.
  assert (Ha : forall k, asks (spc_of s t) = Some k -> exists st, storages s !! k = Some st) by apply (po_storage _ Hp).
  assert (Hwt : forall k, waits (spc_of s t) = Some k -> exists st, storages s !! k = Some st).
  { intros k Hk. destruct (po_waits _ Hp _ _ Hk) as (st & Hst & _). eauto. }
  destruct (spc_of s t) as [|k|k|k|k|k|k|k target|k|k|k] eqn:Ep; [done|..].
  - destruct (Ha k eq_refl) as [st ->]. repeat case_match; eauto.
  - destruct (Ha k eq_refl) as [st ->]. repeat case_match; eauto.
  - destruct (Ha k eq_refl) as [st ->]. repeat case_match; eauto.
  - destruct (Ha k eq_refl) as [st Hst]. rewrite Hst. by apply locked_total.
  - destruct (Hwt k eq_refl) as [st ->]. repeat case_match; eauto.
  - destruct (Hwt k eq_refl) as [st ->]. eauto.
  - eauto.
  - destruct stop; eauto.
  - destruct (Hwt k eq_refl) as [st ->]. repeat case_match; eauto.
  - destruct (po_recheck _ Hp _ _ Ep) as (st & -> & [-> | ->]); simpl; eauto.
Qed.

(** A thread waits for another one. *)
Definition blocked_on (s : StaticStorageManager) (t u : Z) : Prop :=
  exists k st, waits (spc_of s t) = Some k /\ storages s !! k = Some st /\
    init_state st = INIT_STATE_INITIALIZING /\ initializing_thread st = u.

Lemma blocked_chain s n t w u :
  waits_ok s -> nsteps (edge (wait_graph s)) n t w -> wait_graph s !! w = None -> blocked_on s t u ->
  exists v, tc (blocked_on s) t v /\ forall x, ~ blocked_on s v x.
Proof.
  intros Hw Hs Hend. revert u. induction Hs as [t|n t t' w Ht Hs IH]; intros u Hb.
  - destruct Hb as (k & st & Hk & Hst & Hi & _). pose proof (wo_owner _ Hw _ _ _ Hk Hst Hi). congruence.
  - assert (u = t') as ->.
    { destruct Hb as (k & st & Hk & Hst & Hi & <-). pose proof (wo_owner _ Hw _ _ _ Hk Hst Hi) as He. unfold edge in Ht. congruence. }
    destruct (waits (spc_of s t')) as [k|] eqn:Ek; [destruct (storages s !! k) as [st|] eqn:Est|].
    + destruct (decide (init_state st = INIT_STATE_INITIALIZING)) as [Hi|Hi].
      * assert (Hb' : blocked_on s t' (initializing_thread st)) by (by exists k, st).
        destruct (IH Hend _ Hb') as (v & Hv & Hno). exists v. split; [by eapply tc_l|done].
      * exists t'. split; [by apply tc_once|]. intros x (k' & st' & ? & ? & ? & _). congruence.
    + exists t'. split; [by apply tc_once|]. intros x (k' & st' & ? & ? & _). congruence.
    + exists t'. split; [by apply tc_once|]. intros x (k' & st' & ? & _). congruence.
Qed.

Lemma blocked_owner s t u : runs_ok (storages s) (run_of s) -> tc (blocked_on s) t u -> run_of s u <> [].
Proof.
  intros Hr. induction 1 as [t u (k & st & _ & Hst & Hi & <-)|]; [|done]. intros Hnil.
  destruct (ro_state _ _ Hr _ _ Hst) as [(_ & Hin & _) | (_ & Hd)].
  - rewrite Hnil in Hin. by apply elem_of_nil in Hin.
  - rewrite Hi in Hd. by destruct Hd as [|[|[]]].
Qed.

End steps.

(** ** Theorems *)

(** C28. In every interleaving a class constructor is executed by one thread at most, and when
    a thread is told that the type is initialised, also after waiting, either the type
    has no class constructor or the thread that executes it has completed it. *)
Theorem class_initialized_once has_cctor evs s k :
  shistory has_cctor evs s ->
  (executions k evs <= 1)%nat /\
  forall t, Told t k Initialized ∈ evs \/ WaitOver t k true ∈ evs ->
    has_cctor k = false \/ exists u, Told u k Execute ∈ evs /\ Marked u k true ∈ evs.
Proof.
  intros (_ & _ & _ & Ht)%history_ok. split; [by eapply to_once|]. intros t Hk.
  destruct (to_initialized _ _ _ Ht _ _ Hk) as (st & Hst & Hi). by eapply to_state.
Qed.

(** The search for a cycle in the wait graph ends, and no thread that is initialising or
    waiting gets stuck or reaches a state that the code calls unreachable: its next step
    is always possible and does not panic. *)
Theorem initialization_progress has_cctor evs s t stop :
  shistory has_cctor evs s -> spc_of s t <> Idle -> exists r, sstep has_cctor (SGo t stop) s = Some (Val r).
Proof. intros (Hr & Hp & Hw & _)%history_ok Hn. by apply go_total. Qed.

(** C29. Class initialisation never deadlocks: following a thread that waits to the owner of
    what it waits for, and that owner to what it waits for, and so on, leads to a thread
    that executes a class constructor, waits for nobody, and can take a step. *)
Theorem initialization_never_deadlocks has_cctor evs s t u :
  shistory has_cctor evs s -> blocked_on s t u ->
  exists v, tc (blocked_on s) t v /\ (forall x, ~ blocked_on s v x) /\ run_of s v <> [] /\
    exists l r, sstep has_cctor l s = Some (Val r) /\ (l = SGo v false \/ l = SMark v true).
Proof.
  intros (Hr & Hp & Hw & _)%history_ok Hb.
  destruct (chain_ends (wait_graph s) t) as (n & w & _ & Hn & Hend); [by apply wo_acyclic|].
  destruct (blocked_chain _ _ _ _ _ Hw Hn Hend Hb) as (v & Hv & Hno).
  pose proof (blocked_owner _ _ _ _ Hr Hv) as Hrun. exists v. split; [done|]. split; [done|]. split; [done|].
  destruct (decide (spc_of s v = Idle)) as [Hi|Hi].
  - exists (SMark v true). simpl. unfold mark. rewrite Hi. destruct (run_of s v); [done|]. eexists. split; [done|auto].
  - destruct (go_total has_cctor s v false Hr Hp Hw Hi) as [r Hr']. exists (SGo v false), r. auto.
Qed.

(** *** Two threads and two types *)

Fixpoint splay (ls : list slabel) (evs : list sevent) (s : StaticStorageManager) : option (list sevent * StaticStorageManager) :=
  match ls with
  | [] => Some (evs, s)
  | l :: ls =>
      match sstep (fun _ => true) l s with Some (Val (s', evs')) => splay ls (evs ++ evs') s' | _ => None end
  end.

Lemma splay_history ls evs s r :
  shistory (fun _ => true) evs s -> splay ls evs s = Some r -> shistory (fun _ => true) r.1 r.2.
Proof.
  revert evs s. induction ls as [|l ls IH]; intros evs s Hh; simpl; [by intros [= <-]|].
  destruct (sstep _ l s) as [[[s' evs']| |]|] eqn:Es; try done. apply IH. eapply shistory_step; eauto.
Qed.

Definition go_steps (t : Z) (n : nat) : list slabel := repeat (SGo t false) n.

(** Thread 1 initialises type 10 and thread 2 type 20; then thread 1 waits for type 20. *)
Definition one_waits : list slabel :=
  SInit 1 10 :: go_steps 1 3 ++ SInit 2 20 :: go_steps 2 3 ++ SInit 1 20 :: go_steps 1 4.

(** Then thread 2 completes type 20 and asks for type 10. *)
Definition two_asks : list slabel := one_waits ++ SMark 2 true :: SInit 2 10 :: go_steps 2 4.

Lemma class_initialized_once_witness :
  exists evs s, shistory (fun _ => true) evs s /\ WaitOver 1 20 true ∈ evs /\ (executions 20 evs <= 1)%nat /\
    exists u, Told u 20 Execute ∈ evs /\ Marked u 20 true ∈ evs.
Proof.
  destruct (splay (two_asks ++ go_steps 1 2) [] statics_init) as [[evs s]|] eqn:E; [|by vm_compute in E].
  assert (Hh : shistory (fun _ => true) evs s) by (eapply (splay_history _ _ _ (evs, s)); eauto using shistory_init).
  assert (Hw : WaitOver 1 20 true ∈ evs) by (vm_compute in E; injection E as <- _; set_solver).
  exists evs, s. split; [exact Hh|]. split; [exact Hw|].
  destruct (class_initialized_once (fun _ => true) evs s 20 Hh) as [H1 H2]. split; [exact H1|].
  destruct (H2 1 (or_intror Hw)) as [|Hu]; [done|exact Hu].
Defined.

Lemma initialization_progress_witness :
  exists evs s r, shistory (fun _ => true) evs s /\ spc_of s 1 = WLoop 20 /\ sstep (fun _ => true) (SGo 1 false) s = Some (Val r).
Proof.
  destruct (splay one_waits [] statics_init) as [[evs s]|] eqn:E; [|by vm_compute in E].
  assert (Hh : shistory (fun _ => true) evs s) by (eapply (splay_history _ _ _ (evs, s)); eauto using shistory_init).
  assert (Hp : spc_of s 1 = WLoop 20) by (vm_compute in E; injection E as _ <-; reflexivity).
  destruct (initialization_progress (fun _ => true) evs s 1 false Hh) as [r Hr]; [by rewrite Hp|].
  exists evs, s, r. split; [exact Hh|]. split; [exact Hp|exact Hr].
Defined.

Lemma initialization_never_deadlocks_witness :
  exists evs s v, shistory (fun _ => true) evs s /\ blocked_on s 1 2 /\ tc (blocked_on s) 1 v /\ run_of s v <> [].
Proof.
  destruct (splay one_waits [] statics_init) as [[evs s]|] eqn:E; [|by vm_compute in E].
  assert (Hh : shistory (fun _ => true) evs s) by (eapply (splay_history _ _ _ (evs, s)); eauto using shistory_init).
  assert (Hb : blocked_on s 1 2).
  { exists 20, {| init_state := INIT_STATE_INITIALIZING; initializing_thread := 2 |}.
    vm_compute in E. injection E as _ <-. split; [reflexivity|]. split; [reflexivity|]. split; reflexivity. }
  destruct (initialization_never_deadlocks (fun _ => true) evs s 1 2 Hh Hb) as (v & Hv & _ & Hr & _).
  exists evs, s, v. split; [exact Hh|]. split; [exact Hb|]. split; [exact Hv|exact Hr].
Defined.

(** The edge of a thread whose wait is over, but which has not noticed yet, makes another
    thread see a cycle where there is none: thread 2, which executes no class
    constructor at all, is told to proceed with type 10 as in a recursive call although
    thread 1 is still initialising it and waits for nobody. *)
Theorem stale_edge_recursion :
  exists evs s, shistory (fun _ => true) (evs ++ [Told 2 10 Recursive]) s /\
    storages s !! 10 = Some {| init_state := INIT_STATE_INITIALIZING; initializing_thread := 1 |} /\
    run_of s 2 = [] /\ forall u, ~ blocked_on s 1 u.
Proof.
  destruct (splay two_asks [] statics_init) as [[evs s]|] eqn:E; [|by vm_compute in E].
  assert (Hh : shistory (fun _ => true) evs s) by (eapply (splay_history _ _ _ (evs, s)); eauto using shistory_init).
  vm_compute in E. injection E as He Hs. exists (removelast evs), s. split.
  - rewrite <- He in Hh |- *. exact Hh.
  - rewrite <- Hs. split; [reflexivity|]. split; [reflexivity|]. intros u (k & st & Hk & Hst & Hi & _).
    vm_compute in Hk. injection Hk as <-. vm_compute in Hst. injection Hst as <-. done.
Qed.
