(* ===== verification/LockOrder.v ===== *)
(** * The lock order

    The lock levels of [dotnet-utils/src/sync/lock_order.rs], which levels may be
    acquired first and which after which, and the locks of the runtime as
    [OrderedMutex] guards acquire and release them.

    The type system checks that a lock is acquired with the token of a level it may
    follow, but a token is no proof that its level is the only one held: [lock] passes
    [Unlocked] whatever the thread holds, and a collector that holds the coordination
    lock acquires the lock of the arenas with the token of the collection lock.
    Threads here also respect [rank], an order that extends the declared one and that
    the nested acquisitions of the runtime follow.  Guards may be dropped in any order.
    Reader-writer locks are not distinguished from mutexes. *)

From Stdlib Require Import ZArith Lia Sorted.
From stdpp Require Import base tactics list option sets gmap relations.
From S2P Require Import Prelude.

Inductive level : Set :=
| Unlocked
| CollectionLock
| GcCoordination
| ThreadRegistry
| CoordinatorArenas
| ArenaCurrentCommand
| CrossArenaRefs
| StaticInitMutex
| StaticWaitGraph
| SyncBlocks
| SyncNextIndex
| SyncState.

#[export] Instance level_eq_dec : EqDecision level.
Proof. solve_decision. Defined.

(** [impl AcquireAfter<prev> for next] *)
Definition acquire_after (next prev : level) : bool :=
  match next, prev with
  | (CollectionLock | GcCoordination | ThreadRegistry | CoordinatorArenas | ArenaCurrentCommand
     | CrossArenaRefs | StaticInitMutex | StaticWaitGraph | SyncBlocks | SyncState), Unlocked => true
  | GcCoordination, CollectionLock => true
  | ThreadRegistry, GcCoordination => true
  | ThreadRegistry, CollectionLock => true
  | CoordinatorArenas, CollectionLock => true
  | ArenaCurrentCommand, CoordinatorArenas => true
  | CrossArenaRefs, CollectionLock => true
  | StaticWaitGraph, StaticInitMutex => true
  | SyncNextIndex, SyncBlocks => true
  | _, _ => false
  end.

(** A lock: there are many of some levels, one per arena, storage or sync block. *)
Definition lock : Type := (level * nat)%type.

(** The guards of a thread, the last acquired first, and the lock it waits for. *)
Record locker : Type := { guards : list lock; wanted : option lock }.

Record locks : Type := { lockers : gmap nat locker }.

Definition locker_of (s : locks) (t : nat) : locker := default {| guards := []; wanted := None |} (lockers s !! t).

Definition set_locker (s : locks) (t : nat) (x : locker) : locks := {| lockers := <[t := x]> (lockers s) |}.

(** The order in which the runtime nests its locks. *)
Definition rank (l : level) : nat :=
  match l with
  | Unlocked => 0
  | CollectionLock | StaticInitMutex | SyncBlocks | SyncState => 1
  | GcCoordination | StaticWaitGraph | SyncNextIndex => 2
  | CoordinatorArenas => 3
  | ThreadRegistry | ArenaCurrentCommand | CrossArenaRefs => 4
  end.

(** The tokens a thread can pass. *)
Definition has_token (gs : list lock) (prev : level) : Prop := prev = Unlocked \/ exists g, g ∈ gs /\ g.1 = prev.

Inductive token_step (s : locks) : locks -> Prop :=
| lock_request t l prev :
    wanted (locker_of s t) = None -> has_token (guards (locker_of s t)) prev -> acquire_after l.1 prev = true ->
    Forall (fun g => rank g.1 < rank l.1)%nat (guards (locker_of s t)) ->
    token_step s (set_locker s t {| guards := guards (locker_of s t); wanted := Some l |})
| lock_grant t l :
    wanted (locker_of s t) = Some l -> (forall u, l ∉ guards (locker_of s u)) ->
    token_step s (set_locker s t {| guards := l :: guards (locker_of s t); wanted := None |})
| lock_release t before l after :
    wanted (locker_of s t) = None -> guards (locker_of s t) = before ++ l :: after ->
    token_step s (set_locker s t {| guards := before ++ after; wanted := None |}).

Definition locks_init : locks := {| lockers := ∅ |}.

(** Thread [t] waits for a lock that [u] holds. *)
Definition waits_for (s : locks) (t u : nat) : Prop :=
  exists l, wanted (locker_of s t) = Some l /\ l ∈ guards (locker_of s u).

(** ** The order *)

(** The declared order is part of it. *)
Lemma acquire_after_rank next prev : acquire_after next prev = true -> (rank prev < rank next)%nat.
Proof. destruct next, prev; simpl; (done || lia). Qed.

(** What a thread wants and holds is in descending order. *)
Definition ordered (x : locker) : Prop :=
  StronglySorted (fun a b => rank b.1 < rank a.1)%nat (match wanted x with Some l => l :: guards x | None => guards x end).

Lemma locker_of_set s t x u : locker_of (set_locker s t x) u = if decide (u = t) then x else locker_of s u.
Proof.
  unfold locker_of. simpl. case_decide as H; [subst; by rewrite lookup_insert_eq|]. by rewrite lookup_insert_ne.
Qed.

Lemma ordered_release before l after :
  StronglySorted (fun a b : lock => rank b.1 < rank a.1)%nat (before ++ l :: after) ->
  StronglySorted (fun a b : lock => rank b.1 < rank a.1)%nat (before ++ after).
Proof.
  induction before as [|b before IH]; simpl; intros Hs; inversion Hs as [|? ? Ht Hf]; subst; [done|].
  constructor; [by apply IH|]. rewrite Forall_app in *. destruct Hf as [? Hf]. by inversion Hf.
Qed.

Lemma step_ordered s s' :
  (forall t, ordered (locker_of s t)) -> token_step s s' -> forall t, ordered (locker_of s' t).
Proof.
  intros Ho Hs u.
  destruct Hs as [t l prev Hw _ _ Hf|t l Hw _|t before l after Hw Hg]; rewrite locker_of_set; case_decide; [|done| |done| |done];
    subst u; specialize (Ho t); unfold ordered in *; rewrite Hw in Ho; simpl.
  - by constructor.
  - done.
  - rewrite Hg in Ho. by eapply ordered_release.
Qed.

Lemma reachable_ordered s : rtc token_step locks_init s -> forall t, ordered (locker_of s t).
Proof.
  intros H. assert (H0 : forall t, ordered (locker_of locks_init t)) by (intros t; constructor).
  revert H0. induction H as [|x y z Hxy _ IH]; [done|]. intros Hx. apply IH. by eapply step_ordered.
Qed.

(** The rank of what a thread waits for. *)
Definition wanted_rank (s : locks) (t : nat) : nat := match wanted (locker_of s t) with Some l => rank l.1 | None => 5 end.

Lemma waits_for_rank s t u :
  (forall v, ordered (locker_of s v)) -> waits_for s t u -> (wanted_rank s t < wanted_rank s u)%nat.
Proof.
  intros Ho (l & Hw & Hin). unfold wanted_rank. rewrite Hw. specialize (Ho u). unfold ordered in Ho.
  destruct (wanted (locker_of s u)) as [m|].
  - inversion Ho as [|? ? _ Hf]; subst. rewrite Forall_forall in Hf. by apply Hf.
  - destruct l as [[] n]; simpl; lia.
Qed.

(** Threads that acquire locks with tokens they have, and in the order [rank], never
    deadlock, whatever the order in which they drop their guards: no chain of threads
    each waiting for a lock of the next is circular. *)
Theorem lock_order_no_deadlock s t : rtc token_step locks_init s -> ~ tc (waits_for s) t t.
Proof.
  intros Hr Ht. pose proof (reachable_ordered _ Hr) as Ho.
  assert (Hlt : forall x y, tc (waits_for s) x y -> (wanted_rank s x < wanted_rank s y)%nat).
  { induction 1 as [x y Hxy|x y z Hxy _ IH]; apply waits_for_rank in Hxy; (done || lia). }
  apply Hlt in Ht. lia.
Qed.

(** A thread holds the collection lock and the lock of the arenas, and another waits. *)
Lemma lock_order_no_deadlock_witness :
  exists s, rtc token_step locks_init s /\ waits_for s 2%nat 1%nat /\ ~ tc (waits_for s) 2%nat 2%nat.
Proof.
  set (s1 := set_locker locks_init 1 {| guards := []; wanted := Some (CollectionLock, 0%nat) |}).
  set (s2 := set_locker s1 1 {| guards := [(CollectionLock, 0%nat)]; wanted := None |}).
  set (s3 := set_locker s2 2 {| guards := []; wanted := Some (CollectionLock, 0%nat) |}).
  assert (H : rtc token_step locks_init s3).
  { eapply rtc_l; [apply (lock_request _ 1 (CollectionLock, 0%nat) Unlocked); [done|by left|done|constructor]|].
    eapply rtc_l; [apply (lock_grant _ 1 (CollectionLock, 0%nat)); [done|]|].
    - intros u. rewrite locker_of_set. case_decide; set_solver.
    - eapply rtc_l; [apply (lock_request _ 2 (CollectionLock, 0%nat) Unlocked); [done|by left|done|constructor]|]. apply rtc_refl. }
  exists s3. split; [exact H|]. split; [|exact (lock_order_no_deadlock s3 2 H)].
  exists (CollectionLock, 0%nat). split; [reflexivity|]. by left.
Defined.
