(* ===== verification/MemoryChecks.v ===== *)
(** * The checks of raw memory access

    [dotnet-runtime-memory/src/validation.rs] and the checks and scans of
    [dotnet-runtime-memory/src/access.rs]: whether an access lies within its object,
    whether a write keeps the references of the object whole, whether a read takes
    references only from where there are some, and which reference slots the write
    barrier looks at after a write.

    Addresses, offsets and sizes are [usize]s.  The fields of a layout are visited in
    the order of its list; the theorems do not depend on it. *)

From Stdlib Require Import ZArith Lia.
From stdpp Require Import base tactics list option strings pretty.
From S2P Require Import Prelude ManagedPtr Layout.

Abbreviation checked_unit := (outcome MemoryAccessError unit) (only parsing).

(** ** Bounds *)

(** A null [base] disables the check. *)
Definition check_bounds (ptr base len sz : Z) : checked_unit :=
  if negb (base =? 0)
  then if (ptr <? base) || match checked usize (ptr - base + sz) with None => true | Some e => len <? e end
       then Err (BoundsCheck (wrap usize (ptr - base)) sz len)
       else Val tt
  else Val tt.

(** ** Where references lie *)

Fixpoint has_ref_at {E} (l : LayoutManager) (off : Z) : outcome E bool :=
  match l with
  | LScalar Scalars.ObjectRef | LScalar Scalars.ManagedPtr => Val (off =? 0)
  | LScalar _ => Val false
  | LField fs _ _ _ _ =>
      ofind (fun f : FieldKey * (Z * LayoutManager) =>
        let pos := f.2.1 in
        if off <? pos then Val None
        else
          let* sz := size f.2.2 in
          let* e := arith usize (pos + sz) in
          if off <? e then let* b := has_ref_at f.2.2 (off - pos) in Val (Some b) else Val None) false fs
  | LArray e n =>
      let* elem_size := size e in
      if elem_size =? 0 then Val false
      else if n <=? off / elem_size then Val false
      else has_ref_at e (off mod elem_size)
  end.

(** The offsets [check_refs_in_layout] calls its argument on. *)
Fixpoint check_refs_in_layout {E} (l : LayoutManager) (base : Z) : outcome E (list Z) :=
  match l with
  | LScalar Scalars.ObjectRef | LScalar Scalars.ManagedPtr => Val [base]
  | LScalar _ => Val []
  | LField fs _ _ _ _ =>
      oflat (fun f : FieldKey * (Z * LayoutManager) =>
        let* b := arith usize (base + f.2.1) in check_refs_in_layout f.2.2 b) fs
  | LArray e n =>
      if is_or_contains_refs e then
        let* sz := size e in
        oflat (fun i => let* o := arith usize (sz * i) in
                        let* b := arith usize (base + o) in
                        check_refs_in_layout e b) (seqZ 0 n)
      else Val []
  end.

(** After the first error the callback of [check_read_safety] does nothing. *)
Definition check_read_safety (result_layout : LayoutManager) (src_layout : option LayoutManager) (src_ptr_offset : Z)
  : checked_unit :=
  let* refs := check_refs_in_layout result_layout 0 in
  oiter (fun ref_offset =>
    let* target_src := arith usize (src_ptr_offset + ref_offset) in
    match src_layout with
    | None => Val tt
    | Some sl =>
        let* hit := has_ref_at sl target_src in
        if negb hit then
          Err (MemoryTypeMismatch ("Heap Corruption: Reading ObjectRef from non-ref memory at offset " +:+ pretty target_src))
        else if negb (target_src mod 8 =? 0) then Err (UnalignedAccess target_src)
        else Val tt
    end) refs.

Definition check_slot (ref_start range_start range_end : Z) (src_layout : LayoutManager) : checked_unit :=
  let* ref_end := arith usize (ref_start + 8) in
  if (ref_start <? range_end) && (range_start <? ref_end) then
    if ref_start <? range_start then
      Err (MemoryTypeMismatch ("Heap Corruption: Write starts in the middle of an ObjectRef at " +:+ pretty ref_start))
    else if range_end <? ref_end then
      Err (MemoryTypeMismatch ("Heap Corruption: Write ends in the middle of an ObjectRef at " +:+ pretty ref_start))
    else
      let* hit := has_ref_at src_layout (ref_start - range_start) in
      if negb hit then
        Err (MemoryTypeMismatch ("Heap Corruption: Writing non-ref data over ObjectRef at offset " +:+ pretty ref_start))
      else if negb (ref_start mod 8 =? 0) then Err (UnalignedAccess ref_start)
      else Val tt
  else Val tt.

(** [saturating_sub] and [div_ceil]. *)
Definition sat_sub (x y : Z) : Z := Z.max 0 (x - y).
Definition div_ceil (x y : Z) : Z := (x + y - 1) / y.

Fixpoint validate_ref_integrity (dest_layout : LayoutManager) (base_offset range_start range_end : Z)
    (src_layout : LayoutManager) : checked_unit :=
  match dest_layout with
  | LScalar Scalars.ObjectRef | LScalar Scalars.ManagedPtr => check_slot base_offset range_start range_end src_layout
  | LScalar _ => Val tt
  | LField fs _ _ _ _ =>
      oiter (fun f : FieldKey * (Z * LayoutManager) =>
        let* f_start := arith usize (base_offset + f.2.1) in
        let* sz := size f.2.2 in
        let* f_end := arith usize (f_start + sz) in
        if (f_start <? range_end) && (range_start <? f_end)
        then validate_ref_integrity f.2.2 f_start range_start range_end src_layout
        else Val tt) fs
  | LArray e n =>
      if is_or_contains_refs e then
        let* elem_size := size e in
        if elem_size =? 0 then Val tt
        else
          let rel_start := sat_sub range_start base_offset in
          let rel_end := sat_sub range_end base_offset in
          let start_idx := rel_start / elem_size in
          let end_idx := Z.min (div_ceil rel_end elem_size) n in
          oiter (fun i => let* o := arith usize (elem_size * i) in
                          let* b := arith usize (base_offset + o) in
                          validate_ref_integrity e b range_start range_end src_layout)
            (seqZ start_idx (end_idx - start_idx))
      else Val tt
  end.

Definition check_integrity_internal_with_layout (ptr : Z) (dest_layout : option LayoutManager) (base : Z)
    (src_layout : LayoutManager) : checked_unit :=
  if negb (base =? 0) then
    let offset := wrap usize (ptr - base) in
    match dest_layout with
    | Some dl =>
        let* sz := size src_layout in
        let* e := arith usize (offset + sz) in
        validate_ref_integrity dl 0 offset e src_layout
    | None => Val tt
    end
  else Val tt.

(** ** The slots the write barrier looks at *)

(** [record_refs_recursive_with_recorder]: the kind and place of every slot it records
    of a value at [ptr]. *)
Fixpoint record_refs_recursive (l : LayoutManager) (ptr : Z) : outcome Empty_set (list (Scalars.Scalar * Z)) :=
  if negb (is_or_contains_refs l) then Val []
  else
    match l with
    | LScalar Scalars.ObjectRef => Val [(Scalars.ObjectRef, ptr)]
    | LScalar Scalars.ManagedPtr => Val [(Scalars.ManagedPtr, ptr)]
    | LScalar _ => Val []
    | LField _ _ _ d hr =>
        let words := (fun w => (Scalars.ObjectRef, ptr + w * Scalars.OBJECT_REF_SIZE)) <$> for_each_word_index d in
        let unaligned := (fun o => (Scalars.ObjectRef, ptr + o)) <$> unaligned_offsets d in
        let* ptrs := if hr then visit_managed_ptrs l 0 else Val [] in
        Val (words ++ unaligned ++ ((fun o => (Scalars.ManagedPtr, ptr + o)) <$> ptrs))
    | LArray e n =>
        if is_or_contains_refs e then
          let* elem_size := size e in
          oflat (fun i => let* o := arith usize (i * elem_size) in record_refs_recursive e (ptr + o)) (seqZ 0 n)
        else Val []
    end.

(** [record_refs_in_range_with_recorder]: the slots recorded after a write of the bytes
    from [range_start] to [range_end] of a value at [ptr]. *)
Fixpoint record_refs_in_range (l : LayoutManager) (ptr range_start range_end : Z)
  : outcome Empty_set (list (Scalars.Scalar * Z)) :=
  if negb (is_or_contains_refs l) then Val []
  else
    match l with
    | LScalar Scalars.ObjectRef | LScalar Scalars.ManagedPtr => record_refs_recursive l ptr
    | LScalar _ => Val []
    | LField fs _ _ _ _ =>
        oflat (fun f : FieldKey * (Z * LayoutManager) =>
          let f_start := f.2.1 in
          let* sz := size f.2.2 in
          let* f_end := arith usize (f_start + sz) in
          if (f_start <? range_end) && (range_start <? f_end)
          then record_refs_in_range f.2.2 (ptr + f_start) (sat_sub range_start f_start) (sat_sub range_end f_start)
          else Val []) fs
    | LArray e n =>
        let* elem_size := size e in
        if elem_size =? 0 then Val []
        else
          let* end_idx := arith usize (range_end / elem_size + if range_end mod elem_size =? 0 then 0 else 1) in
          let start_idx := Z.min (range_start / elem_size) n in
          let end_idx := Z.min end_idx n in
          oflat (fun i => let* f_start := arith usize (i * elem_size) in
                          record_refs_in_range e (ptr + f_start) (sat_sub range_start f_start) (sat_sub range_end f_start))
            (seqZ start_idx (end_idx - start_idx))
    end.

(** ** Loops *)

Lemma oflat_exact {E A B} (f : A -> outcome E (list B)) (P : A -> B -> Prop) l :
  (forall a, a ∈ l -> exists y, f a = Val y /\ forall x, x ∈ y <-> P a x) ->
  exists r, oflat f l = Val r /\ forall x, x ∈ r <-> exists a, a ∈ l /\ P a x.
Proof.
  intros H. destruct (oflat_total f l) as [r Hr]; [intros a Ha; destruct (H a Ha) as (y & Hy & _); eauto|].
  exists r. split; [done|]. intros x. rewrite (oflat_elem _ _ _ _ Hr). split.
  - intros (a & y & Ha & Hy & Hx). exists a. split; [done|]. destruct (H a Ha) as (y' & Hy' & Hel).
    rewrite Hy in Hy'. injection Hy' as <-. by apply Hel.
  - intros (a & Ha & Hp). destruct (H a Ha) as (y & Hy & Hel). exists a, y. split; [done|]. split; [done|]. by apply Hel.
Qed.

(** The loop of the goal collects the elements that satisfy [P]. *)
Ltac collects P :=
  match goal with
  | |- context [oflat ?f ?l] =>
      let refs := fresh "refs" in let Hrefs := fresh "Hrefs" in
      destruct (oflat_exact f P l) as (refs & -> & Hrefs);
      [|exists refs; split; [done|]; intros x; rewrite Hrefs; clear refs Hrefs]
  end.

(** ** Layouts whose parts fit *)

Definition is_ref (s : Scalars.Scalar) : Prop := s = Scalars.ObjectRef \/ s = Scalars.ManagedPtr.

(** A reference of either kind starts at [off]. *)
Definition slot (l : LayoutManager) (off : Z) : Prop := exists s, is_ref s /\ ref_at s l off.

(** Every field ends within its layout, and every size is a [usize]. *)
Inductive fits : LayoutManager -> Prop :=
| fits_scalar s : fits (LScalar s)
| fits_array e n sz : fits e -> 0 <= n -> size (E:=Empty_set) (LArray e n) = Val sz -> fits (LArray e n)
| fits_field fs total al d hr :
    (forall k pos l, (k, (pos, l)) ∈ fs -> fits l) ->
    (forall k pos l, (k, (pos, l)) ∈ fs -> 0 <= pos /\ exists sz, size (E:=Empty_set) l = Val sz /\ pos + sz <= total) ->
    is_range usize total -> fits (LField fs total al d hr).

(** Two fields over the same byte agree on whether a reference starts there. *)
Inductive coherent : LayoutManager -> Prop :=
| coherent_scalar s : coherent (LScalar s)
| coherent_array e n : coherent e -> coherent (LArray e n)
| coherent_field fs total al d hr :
    (forall k pos l, (k, (pos, l)) ∈ fs -> coherent l) ->
    (forall k1 p1 l1 s1 k2 p2 l2 s2 o, (k1, (p1, l1)) ∈ fs -> (k2, (p2, l2)) ∈ fs ->
       size (E:=Empty_set) l1 = Val s1 -> size (E:=Empty_set) l2 = Val s2 ->
       p1 <= o < p1 + s1 -> p2 <= o < p2 + s2 -> slot l1 (o - p1) -> slot l2 (o - p2)) ->
    coherent (LField fs total al d hr).

Lemma fits_size {E} l : fits l -> exists sz, size (E:=E) l = Val sz /\ is_range usize sz.
Proof.
  intros H. inversion H as [s | e n sz He Hn Hs | fs total al d hr _ _ Ht]; subst.
  - exists (Scalars.size_const s). split; [done|]. destruct s; by vm_compute.
  - exists sz. split; [by eapply size_any|]. simpl in Hs. apply obind_val in Hs as (s & _ & [-> ?]%arith_val). done.
  - by exists total.
Qed.

Lemma fits_array_inv {E} e n : fits (LArray e n) ->
  exists sz, size (E:=E) e = Val sz /\ fits e /\ 0 <= n /\ 0 <= sz /\ is_range usize (sz * n).
Proof.
  intros H. inversion H as [| ? ? s He Hn Hs |]; subst. simpl in Hs. apply obind_val in Hs as (sz & Hsz & [-> Hr]%arith_val).
  exists sz. destruct (fits_size (E:=Empty_set) e He) as (sz' & Hsz' & Hr'). rewrite Hsz in Hsz'. simplify_eq.
  split; [by eapply size_any|]. int_bounds. split; [done|]. lia.
Qed.

Lemma fits_field_inv {E} fs total al d hr k pos l : fits (LField fs total al d hr) -> (k, (pos, l)) ∈ fs ->
  exists sz, size (E:=E) l = Val sz /\ fits l /\ 0 <= pos /\ 0 <= sz /\ pos + sz <= total /\ is_range usize total.
Proof.
  intros H Hin. inversion H as [| |? ? ? ? ? H1 H2 H3]; subst. destruct (H2 _ _ _ Hin) as (Hp & sz & Hsz & Hle).
  exists sz. destruct (fits_size (E:=Empty_set) l (H1 _ _ _ Hin)) as (sz' & Hsz' & Hr'). rewrite Hsz in Hsz'. simplify_eq.
  split; [by eapply size_any|]. split; [by eapply H1|]. int_bounds. split; [done|]. split; [lia|]. done.
Qed.

Lemma slot_within s l off sz :
  fits l -> ref_at s l off -> size (E:=Empty_set) l = Val sz -> 0 <= off /\ off + Scalars.size_const s <= sz.
Proof.
  intros Hl Hr. revert Hl sz. induction Hr as [|fs total al d hr k pos l off Hin Hr IH | e n i off sz Hi Hs Hr IH];
    intros Hl sz' Hsz'.
  - simpl in Hsz'. simplify_eq. lia.
  - destruct (fits_field_inv (E:=Empty_set) _ _ _ _ _ _ _ _ Hl Hin) as (s' & Hs' & Hf & Hp & Hn & Hle & _).
    simpl in Hsz'. simplify_eq. specialize (IH Hf _ Hs'). lia.
  - destruct (fits_array_inv (E:=Empty_set) _ _ Hl) as (s' & Hs' & Hf & Hn & Hs0 & _). rewrite Hs in Hs'. simplify_eq.
    specialize (IH Hf _ Hs). simpl in Hsz'. rewrite Hs in Hsz'. simpl in Hsz'. apply arith_val in Hsz' as [-> _]. nia.
Qed.

Lemma ref_size s : is_ref s -> 8 <= Scalars.size_const s.
Proof. by intros [-> | ->]. Qed.

(** The element of an array that holds a byte of it. *)
Lemma array_index sz n i o : 0 < sz -> 0 <= i < n -> 0 <= o < sz ->
  (sz * i + o) / sz = i /\ (sz * i + o) mod sz = o.
Proof.
  intros Hsz Hi Ho. split.
  - rewrite Z.add_comm, Z.mul_comm, Z.div_add by lia. rewrite Z.div_small by lia. lia.
  - rewrite Z.add_comm, Z.mul_comm, Z.mod_add by lia. by apply Z.mod_small.
Qed.

(** ** [has_ref_at] *)

Lemma has_ref_at_total {E} l off : fits l -> exists b, has_ref_at (E:=E) l off = Val b.
Proof.
  intros Hl. revert off. induction Hl as [s | e n sz He IH Hn Hs | fs total al d hr Hf IH Hp Ht]; intros off.
  - destruct s; simpl; eauto.
  - simpl. destruct (fits_size (E:=E) e He) as (s & -> & _). simpl. destruct (s =? 0); [eauto|]. destruct (n <=? _); eauto.
  - assert (HF : fits (LField fs total al d hr)) by by constructor. cbn [has_ref_at]. apply ofind_total.
    intros [k [pos fl]] Hin. cbn [fst snd].
    destruct (off <? pos); [eauto|].
    destruct (fits_field_inv (E:=E) _ _ _ _ _ _ _ _ HF Hin) as (s & -> & _ & ? & ? & ? & ?). simpl.
    rewrite arith_ok by (int_bounds; lia). simpl. destruct (off <? pos + s); [|eauto].
    destruct (IH _ _ _ Hin (off - pos)) as [b ->]. simpl. eauto.
Qed.

Lemma has_ref_at_sound {E} l off : has_ref_at (E:=E) l off = Val true -> fits l -> 0 <= off -> slot l off.
Proof.
  intros H Hl. revert off H. induction Hl as [s | e n sz He IH Hn Hs | fs total al d hr Hf IH Hp Ht]; intros off H Ho.
  - destruct s; simpl in H; simplify_eq; apply Z.eqb_eq in H; subst; eexists; (split; [|constructor]); [by left | by right].
  - simpl in H. destruct (fits_size (E:=Empty_set) e He) as (s & Hsz & Hr). rewrite (size_any _ _ Hsz) in H. simpl in H.
    crush_match. destruct (IH _ H) as (s' & Hr' & Hat); [apply Z.mod_pos_bound; int_bounds; lia|].
    exists s'. split; [done|]. rewrite (Z.div_mod off s) by done. apply ref_array; [|done|done].
    split; [apply Z.div_pos; int_bounds; lia | lia].
  - cbn [has_ref_at] in H. apply ofind_some in H as [([k [pos fl]] & Hin & H) | [[=] _]]. cbn [fst snd] in H. crush_match.
    apply obind_val in H as (s & Hs & (e & [-> _]%arith_val & H)%obind_val). crush_match.
    apply obind_val in H as (b & Hb & [= ->]). destruct (IH _ _ _ Hin _ Hb) as (s' & Hr' & Hat); [lia|].
    exists s'. split; [done|]. replace off with (pos + (off - pos)) by lia. by eapply ref_field.
Qed.

Lemma has_ref_at_complete {E} l off : fits l -> coherent l -> slot l off -> has_ref_at (E:=E) l off = Val true.
Proof.
  intros Hl. revert off. induction Hl as [s | e n sz He IH Hn Hs | fs total al d hr Hf IH Hp Ht]; intros off Hc (s' & Hr & Hat).
  - inversion Hat; subst. by destruct Hr as [-> | ->].
  - inversion Hat as [| |? ? i o s Hi Hsz Ho]; subst. inversion Hc; subst.
    pose proof (slot_within _ _ _ _ He Ho Hsz) as Hw. pose proof (ref_size _ Hr).
    simpl. rewrite (size_any _ _ Hsz). simpl. destruct (Z.eqb_spec s 0); [lia|].
    destruct (array_index s n i o) as [-> ->]; [lia..|]. destruct (Z.leb_spec n i); [lia|]. apply IH; [done|]. by exists s'.
  - inversion Hat as [|? ? ? ? ? k pos fl o Hin Ho|]; subst. inversion Hc as [| |? ? ? ? ? Hc1 Hc2]; subst.
    assert (HF : fits (LField fs total al d hr)) by by constructor.
    destruct (fits_field_inv (E:=Empty_set) _ _ _ _ _ _ _ _ HF Hin) as (s & Hsz & Hfl & Hp0 & Hs0 & Hle & Hr0).
    pose proof (slot_within _ _ _ _ Hfl Ho Hsz) as Hw. pose proof (ref_size _ Hr).
    destruct (has_ref_at_total (E:=E) _ (pos + o) HF) as [b Hb]. rewrite Hb. f_equal.
    cbn [has_ref_at] in Hb. apply ofind_some in Hb as [([k2 [p2 l2]] & Hin2 & Hb) | [-> Hn]].
    + cbn [fst snd] in Hb. crush_match. apply obind_val in Hb as (s2 & Hs2 & (e & [-> _]%arith_val & Hb)%obind_val).
      crush_match. apply obind_val in Hb as (b' & Hb & [= ->]).
      rewrite (IH _ _ _ Hin2) in Hb; [by injection Hb | by eapply Hc1|].
      eapply (Hc2 k pos fl s k2 p2 l2 s2); [done | done | done | by eapply size_any | lia | lia |].
      exists s'. split; [done|]. by replace (pos + o - pos) with o by lia.
    + specialize (Hn _ Hin). cbn [fst snd] in Hn. destruct (Z.ltb_spec (pos + o) pos); [lia|].
      rewrite (size_any _ _ Hsz) in Hn. cbn [obind] in Hn. rewrite arith_ok in Hn by (int_bounds; lia). cbn [obind] in Hn.
      destruct (Z.ltb_spec (pos + o) (pos + s)); [|lia]. destruct (has_ref_at (E:=E) fl (pos + o - pos)); done.
Qed.

(** ** Writes keep references whole *)

(** What becomes of the 8 bytes at [b] under a write of the bytes from [rs] to [re]:
    nothing, or they are replaced by a reference of the source, aligned. *)
Definition kept (src : LayoutManager) (rs re b : Z) : Prop :=
  b < re -> rs < b + 8 ->
  rs <= b /\ b + 8 <= re /\ has_ref_at (E:=MemoryAccessError) src (b - rs) = Val true /\ b mod 8 = 0.

Definition decides (m : checked_unit) (P : Prop) : Prop := (m = Val tt <-> P) /\ m <> Panic.

Lemma decides_ok (P : Prop) : P -> decides (Val tt) P.
Proof. by split. Qed.

Lemma decides_iff m (P Q : Prop) : (P <-> Q) -> decides m P -> decides m Q.
Proof. unfold decides. tauto. Qed.

Lemma oiter_decides {A} (f : A -> checked_unit) (P : A -> Prop) l :
  (forall a, a ∈ l -> decides (f a) (P a)) -> decides (oiter f l) (forall a, a ∈ l -> P a).
Proof.
  intros H. split.
  - rewrite oiter_val. split; intros Ha a Hin; by apply (proj1 (H a Hin)), Ha.
  - apply oiter_no_panic. intros a Hin. apply H, Hin.
Qed.

Lemma check_slot_decides b rs re src :
  fits src -> 0 <= b -> b + 8 <= int_max usize -> decides (check_slot b rs re src) (kept src rs re b).
Proof.
  intros Hs Hb Hm. unfold check_slot, kept, decides. rewrite arith_ok by (int_bounds; lia). cbn [obind].
  destruct (Z.ltb_spec b re), (Z.ltb_spec rs (b + 8)); simpl; [|split; [split; [lia|done]|done]..].
  destruct (Z.ltb_spec b rs); [split; [split; [done|lia]|done]|].
  destruct (Z.ltb_spec re (b + 8)); [split; [split; [done|lia]|done]|].
  destruct (has_ref_at_total (E:=MemoryAccessError) src (b - rs) Hs) as [[] ->]; simpl;
    [|split; [split; [done|intros HH; destruct HH as (_ & _ & [=] & _); lia]|done]].
  destruct (Z.eqb_spec (b mod 8) 0); simpl; (split; [|done]); split; try done; intros HH; tauto || lia.
Qed.

Section integrity.
Context (src : LayoutManager) (rs re : Z).
Hypothesis Hsrc : fits src.
Hypothesis Hrs : 0 <= rs.
Hypothesis Hre : 0 <= re.

(** A slot of a part that the write does not touch is kept. *)
Lemma kept_outside s l sz b o :
  fits l -> size (E:=Empty_set) l = Val sz -> is_ref s -> ref_at s l o -> re <= b \/ b + sz <= rs -> kept src rs re (b + o).
Proof. intros Hf Hsz Hr Ho Hd ? ?. pose proof (slot_within _ _ _ _ Hf Ho Hsz). pose proof (ref_size _ Hr). lia. Qed.

Definition all_kept (l : LayoutManager) (b : Z) : Prop := forall o, slot l o -> kept src rs re (b + o).

Lemma no_refs_kept l b : is_or_contains_refs l = false -> all_kept l b.
Proof. intros Hn o (s & Hr & Ho). apply contains_refs in Ho; [congruence|done]. Qed.

Lemma validate_ref_integrity_decides l b sz :
  fits l -> size (E:=Empty_set) l = Val sz -> 0 <= b -> b + sz <= int_max usize ->
  decides (validate_ref_integrity l b rs re src) (all_kept l b).
Proof.
  intros Hl. revert b sz. induction Hl as [s | e n sz0 He IH Hn Hs | fs total al d hr Hf IH Hp Ht]; intros b sz Hsz Hb Hmax.
  - assert (Hno : ~ is_ref s -> decides (Val tt) (all_kept (LScalar s) b)).
    { intros Hs. apply decides_ok. intros o (s' & Hr & Ho). inversion Ho; subst. done. }
    assert (Hyes : is_ref s -> decides (check_slot b rs re src) (all_kept (LScalar s) b)).
    { intros Hs. eapply decides_iff; [|apply check_slot_decides; [done|done|]].
      - split.
        + intros Hk o (s' & _ & Ho). inversion Ho; subst. by rewrite Z.add_0_r.
        + intros Hk. rewrite <- (Z.add_0_r b). apply Hk. exists s. split; [done|constructor].
      - simpl in Hsz. simplify_eq. pose proof (ref_size _ Hs). lia. }
    destruct s; simpl; first [apply Hyes; by (left + right) | apply Hno; by intros [|]].
  - assert (HA : fits (LArray e n)) by by econstructor.
    destruct (fits_array_inv (E:=MemoryAccessError) _ _ HA) as (es & Hes & _ & _ & Hes0 & Hr).
    assert (sz = es * n) as ->.
    { simpl in Hsz. rewrite (size_any _ _ Hes) in Hsz. simpl in Hsz. by apply arith_val in Hsz as [-> _]. }
    cbn [validate_ref_integrity]. destruct (is_or_contains_refs e) eqn:Hc; [|by apply decides_ok, no_refs_kept].
    rewrite Hes. cbn [obind]. destruct (Z.eqb_spec es 0) as [->|Hz].
    { apply decides_ok. intros o (s' & Hr' & Ho). pose proof (slot_within _ _ _ _ HA Ho Hsz). pose proof (ref_size _ Hr'). lia. }
    set (st := sat_sub rs b / es). set (en := Z.min (div_ceil (sat_sub re b) es) n).
    assert (Hst : 0 <= st) by (apply Z.div_pos; unfold sat_sub; lia).
    eapply decides_iff; [|apply (oiter_decides _ (fun i => all_kept e (b + es * i)))].
    + split.
      * intros Hk o (s' & Hr' & Ho). inversion Ho as [| |? ? i o' es' Hi Hes' Ho']; subst.
        rewrite (size_any _ _ Hes) in Hes'. injection Hes' as <-. rewrite Z.add_assoc.
        destruct (decide (st <= i < en)) as [Hin|Hout].
        { apply (Hk i); [apply elem_of_seqZ; lia | by exists s']. }
        apply (kept_outside s' e es); [done | by eapply size_any | done | done |].
        unfold st, en, div_ceil, sat_sub in Hout. Z.div_mod_to_equations. nia.
      * intros Hk i Hi o (s' & Hr' & Ho). apply elem_of_seqZ in Hi. rewrite <- Z.add_assoc. apply Hk. exists s'. split; [done|].
        apply ref_array; [unfold en in Hi; lia | by eapply size_any | done].
    + intros i Hi%elem_of_seqZ. assert (0 <= i < n) by (unfold en in Hi; lia).
      assert (0 <= es * i /\ es * i + es <= es * n) by nia.
      rewrite !arith_ok by (int_bounds; lia). cbn [obind]. rewrite arith_ok by (int_bounds; lia). cbn [obind].
      apply (IH _ es); [by eapply size_any | lia | lia].
  - assert (HF : fits (LField fs total al d hr)) by by constructor. simpl in Hsz. injection Hsz as <-.
    cbn [validate_ref_integrity]. eapply decides_iff; [|apply (oiter_decides _ (fun f => all_kept f.2.2 (b + f.2.1)))].
    + split.
      * intros Hk o (s' & Hr' & Ho). inversion Ho as [|? ? ? ? ? k pos fl o' Hin Ho'|]; subst.
        rewrite Z.add_assoc. apply (Hk _ Hin). by exists s'.
      * intros Hk [k [pos fl]] Hin o (s' & Hr' & Ho). cbn [fst snd] in *. rewrite <- Z.add_assoc. apply Hk. exists s'.
        split; [done|]. by eapply ref_field.
    + intros [k [pos fl]] Hin. cbn [fst snd].
      destruct (fits_field_inv (E:=MemoryAccessError) _ _ _ _ _ _ _ _ HF Hin) as (fsz & Hfsz & Hfl & ? & ? & ? & ?).
      rewrite arith_ok by (int_bounds; lia). cbn [obind]. rewrite Hfsz. cbn [obind].
      rewrite arith_ok by (int_bounds; lia). cbn [obind].
      destruct (Z.ltb_spec (b + pos) re), (Z.ltb_spec rs (b + pos + fsz)); cbn [andb];
        [eapply IH; [done | by eapply size_any | lia | lia]|..];
        (apply decides_ok; intros o (s' & Hr' & Ho); eapply kept_outside; [done | by eapply size_any | done | done | lia]).
Qed.

End integrity.

(** ** Bounds *)

(** An access at [offset] of an object at [base]; the address may wrap around. *)
Lemma check_bounds_spec base len offset sz :
  0 < base -> base + len <= int_max usize -> is_range usize offset -> 0 <= len -> 0 <= sz ->
  check_bounds (wrap usize (base + offset)) base len sz =
    if offset + sz <=? len then Val tt else Err (BoundsCheck offset sz len).
Proof.
  intros Hb Hbl Ho Hl Hs. unfold check_bounds. destruct (Z.eqb_spec base 0); [lia|]. cbn [negb].
  destruct (decide (base + offset <= int_max usize)) as [Hin|Hout].
  - rewrite wrap_id by (int_bounds; lia). replace (base + offset - base) with offset by lia.
    rewrite (wrap_id usize offset) by done. destruct (Z.ltb_spec (base + offset) base); [int_bounds; lia|]. cbn [orb].
    unfold checked. destruct (in_range usize (offset + sz)) eqn:E.
    + destruct (Z.ltb_spec len (offset + sz)), (Z.leb_spec (offset + sz) len); done || lia.
    + apply in_range_false in E. destruct (Z.leb_spec (offset + sz) len); [int_bounds; lia | done].
  - assert (Hw : wrap usize (base + offset) = base + offset - 2 ^ 64).
    { apply (range_mod_inj usize); [apply wrap_range | int_bounds; lia|]. rewrite wrap_mod. cbn [bits].
      by rewrite <- (Z_mod_plus_full (base + offset - 2 ^ 64) 1), Z.mul_1_l, Z.sub_add. }
    rewrite Hw. destruct (Z.ltb_spec (base + offset - 2 ^ 64) base); [|int_bounds; lia]. cbn [orb].
    assert (wrap usize (base + offset - 2 ^ 64 - base) = offset) as ->.
    { apply (range_mod_inj usize); [apply wrap_range | done|]. rewrite wrap_mod. cbn [bits].
      replace (base + offset - 2 ^ 64 - base) with (offset + (-1) * 2 ^ 64) by lia. apply Z_mod_plus_full. }
    destruct (Z.leb_spec (offset + sz) len); [int_bounds; lia | done].
Qed.

(** ** Reads *)

Lemma check_refs_exact {E} l b sz :
  fits l -> size (E:=Empty_set) l = Val sz -> 0 <= b -> b + sz <= int_max usize ->
  exists refs, check_refs_in_layout (E:=E) l b = Val refs /\ forall x, x ∈ refs <-> exists o, slot l o /\ x = b + o.
Proof.
  intros Hl. revert b sz. induction Hl as [s | e n sz0 He IH Hn Hs | fs total al d hr Hf IH Hp Ht]; intros b sz Hsz Hb Hmax.
  - assert (Hno : ~ is_ref s -> forall x, x ∈ [] <-> exists o, slot (LScalar s) o /\ x = b + o).
    { intros Hs x. rewrite elem_of_nil. split; [done|]. intros (o & (s' & Hr & Ho) & _). inversion Ho; subst. done. }
    assert (Hyes : is_ref s -> forall x, x ∈ [b] <-> exists o, slot (LScalar s) o /\ x = b + o).
    { intros Hs x. rewrite list_elem_of_singleton. split.
      - intros ->. exists 0. split; [|lia]. exists s. split; [done|constructor].
      - intros (o & (s' & _ & Ho) & ->). inversion Ho; subst. lia. }
    destruct s; simpl; eexists; (split; [done|]); first [apply Hyes; by (left + right) | apply Hno; by intros [|]].
  - assert (HA : fits (LArray e n)) by by econstructor.
    destruct (fits_array_inv (E:=E) _ _ HA) as (es & Hes & _ & _ & Hes0 & Hr).
    assert (sz = es * n) as ->.
    { simpl in Hsz. rewrite (size_any _ _ Hes) in Hsz. simpl in Hsz. by apply arith_val in Hsz as [-> _]. }
    cbn [check_refs_in_layout]. destruct (is_or_contains_refs e) eqn:Hc.
    2:{ exists []. split; [done|]. intros x. rewrite elem_of_nil. split; [done|].
        intros (o & (s' & Hr' & Ho) & _). apply contains_refs in Ho; [|done]. simpl in Ho. congruence. }
    rewrite Hes. cbn [obind]. collects (fun i x => exists o, slot e o /\ x = b + es * i + o).
    { intros i Hi%elem_of_seqZ. assert (0 <= es * i /\ es * i + es <= es * n) by nia.
      rewrite arith_ok by (int_bounds; lia). cbn [obind]. rewrite arith_ok by (int_bounds; lia). cbn [obind].
      apply (IH _ es); [by eapply size_any | lia | lia]. }
    split.
    + intros (i & Hi%elem_of_seqZ & o & (s' & Hr' & Ho) & ->). exists (es * i + o). split; [|lia].
      exists s'. split; [done|]. apply ref_array; [lia | by eapply size_any | done].
    + intros (o & (s' & Hr' & Ho) & ->). inversion Ho as [| |? ? i o' es' Hi Hes' Ho']; subst.
      rewrite (size_any _ _ Hes) in Hes'. injection Hes' as <-. exists i. split; [apply elem_of_seqZ; lia|].
      exists o'. split; [by exists s' | lia].
  - assert (HF : fits (LField fs total al d hr)) by by constructor. simpl in Hsz. injection Hsz as <-.
    cbn [check_refs_in_layout].
    collects (fun (f : FieldKey * (Z * LayoutManager)) x => exists o, slot f.2.2 o /\ x = b + f.2.1 + o).
    { intros [k [pos fl]] Hin. cbn [fst snd].
      destruct (fits_field_inv (E:=E) _ _ _ _ _ _ _ _ HF Hin) as (fsz & Hfsz & Hfl & ? & ? & ? & ?).
      rewrite arith_ok by (int_bounds; lia). cbn [obind]. eapply IH; [done | by eapply size_any | lia | lia]. }
    split.
    + intros ([k [pos fl]] & Hin & o & (s' & Hr' & Ho) & ->). exists (pos + o). split; [|simpl; lia].
      exists s'. split; [done|]. by eapply ref_field.
    + intros (o & (s' & Hr' & Ho) & ->). inversion Ho as [|? ? ? ? ? k pos fl o' Hin Ho'|]; subst.
      exists (k, (pos, fl)). split; [done|]. exists o'. split; [by exists s' | simpl; lia].
Qed.

Lemma check_read_safety_decides res sl off sz :
  fits res -> fits sl -> size (E:=Empty_set) res = Val sz -> 0 <= off -> off + sz <= int_max usize ->
  decides (check_read_safety res (Some sl) off)
    (forall o, slot res o -> has_ref_at (E:=MemoryAccessError) sl (off + o) = Val true /\ (off + o) mod 8 = 0).
Proof.
  intros Hres Hsl Hsz Ho Hmax. unfold check_read_safety.
  destruct (check_refs_exact (E:=MemoryAccessError) res 0 sz) as (refs & -> & Hrefs); [done | done | lia | lia |]. cbn [obind].
  eapply decides_iff; [|apply (oiter_decides _ (fun r => has_ref_at (E:=MemoryAccessError) sl (off + r) = Val true /\ (off + r) mod 8 = 0))].
  - split; [intros H o Hs; apply H, Hrefs; by exists o | intros H r (o & Hs & ->)%Hrefs; by apply H].
  - intros r (o & (s & Hr & Hs) & ->)%Hrefs. rewrite Z.add_0_l.
    pose proof (slot_within _ _ _ _ Hres Hs Hsz). pose proof (ref_size _ Hr).
    rewrite arith_ok by (int_bounds; lia). cbn [obind].
    destruct (has_ref_at_total (E:=MemoryAccessError) sl (off + o) Hsl) as [[] ->]; cbn [obind negb].
    + destruct (Z.eqb_spec ((off + o) mod 8) 0); (split; [|done]); split; [done | done | done | by intros [_ ?]].
    + split; [|done]. by split; [|intros [[=] _]].
Qed.

Lemma check_read_safety_none res off sz :
  fits res -> size (E:=Empty_set) res = Val sz -> 0 <= off -> off + sz <= int_max usize ->
  check_read_safety res None off = Val tt.
Proof.
  intros Hres Hsz Ho Hmax. unfold check_read_safety.
  destruct (check_refs_exact (E:=MemoryAccessError) res 0 sz) as (refs & -> & Hrefs); [done | done | lia | lia |]. cbn [obind].
  apply oiter_val. intros x (o & (s & Hr & Hs) & ->)%Hrefs. rewrite Z.add_0_l.
  pose proof (slot_within _ _ _ _ Hres Hs Hsz). pose proof (ref_size _ Hr). by rewrite arith_ok by (int_bounds; lia).
Qed.

(** ** What the write barrier records *)

Lemma visit_managed_ptrs_total l off sz :
  fits l -> size (E:=Empty_set) l = Val sz -> 0 <= off -> off + sz <= int_max usize ->
  exists ptrs, visit_managed_ptrs l off = Val ptrs.
Proof.
  intros Hl. revert off sz. induction Hl as [s | e n sz0 He IH Hn Hs | fs total al d hr Hf IH Hp Ht]; intros off sz Hsz Ho Hmax.
  - destruct s; simpl; eauto.
  - assert (HA : fits (LArray e n)) by by econstructor.
    destruct (fits_array_inv (E:=Empty_set) _ _ HA) as (es & Hes & _ & _ & Hes0 & Hr).
    simpl in Hsz. rewrite Hes in Hsz. simpl in Hsz. apply arith_val in Hsz as [-> _].
    cbn [visit_managed_ptrs]. rewrite Hes. cbn [obind].
    assert (Hix : forall i, i ∈ seqZ 0 n -> 0 <= i < n) by (intros i Hi%elem_of_seqZ; lia).
    induction (seqZ 0 n) as [|i ixs IHi]; [eauto|].
    assert (0 <= i < n) by (apply Hix; by left). assert (0 <= es * i /\ es * i + es <= es * n) by nia.
    rewrite arith_ok by (int_bounds; lia). cbn [obind]. rewrite arith_ok by (int_bounds; lia). cbn [obind].
    destruct (IH (off + es * i) es) as [here ->]; [done | lia | lia |]. cbn [obind].
    destruct IHi as [rest ->]; [intros; apply Hix; by right|]. simpl. eauto.
  - assert (HF : fits (LField fs total al d hr)) by by constructor. simpl in Hsz. injection Hsz as <-.
    cbn [visit_managed_ptrs]. assert (Hin : forall f, f ∈ fs -> f ∈ fs) by done. revert Hin. generalize fs at 1 3. intros gs Hin.
    induction gs as [|[k [pos fl]] gs IHg]; [eauto|]. assert (Hfl : (k, (pos, fl)) ∈ fs) by (apply Hin; by left).
    destruct (fits_field_inv (E:=Empty_set) _ _ _ _ _ _ _ _ HF Hfl) as (fsz & Hfsz & _ & ? & ? & ? & ?).
    rewrite arith_ok by (int_bounds; lia). cbn [obind].
    destruct (IH _ _ _ Hfl (off + pos) fsz) as [here ->]; [done | lia | lia |]. cbn [obind].
    destruct IHg as [rest ->]; [intros; apply Hin; by right|]. simpl. eauto.
Qed.

(** A slot of the value at [ptr] laid out by [l]. *)
Definition recorded (l : LayoutManager) (ptr : Z) (x : Scalars.Scalar * Z) : Prop :=
  is_ref x.1 /\ exists o, ref_at x.1 l o /\ x.2 = ptr + o.

Lemma not_recorded l ptr x : is_or_contains_refs l = false -> ~ recorded l ptr x.
Proof. intros Hn (Hr & o & Ho & _). apply contains_refs in Ho; [congruence|done]. Qed.

Lemma recorded_scalar s ptr x : is_ref s -> recorded (LScalar s) ptr x <-> x = (s, ptr).
Proof.
  intros Hs. destruct x as [s' y]. split.
  - intros (_ & o & Ho & Hy). simpl in *. inversion Ho; subst. f_equal. lia.
  - intros [= -> ->]. split; [done|]. exists 0. split; [constructor | simpl; lia].
Qed.

Lemma recorded_array e n es ptr x : size (E:=Empty_set) e = Val es ->
  recorded (LArray e n) ptr x <-> exists i, i ∈ seqZ 0 n /\ recorded e (ptr + i * es) x.
Proof.
  intros Hes. split.
  - intros (Hr & o & Ho & Hx). inversion Ho as [| |? ? i o' es' Hi Hes' Ho']; subst. rewrite Hes in Hes'. injection Hes' as <-.
    exists i. split; [apply elem_of_seqZ; lia|]. split; [done|]. exists o'. split; [done | lia].
  - intros (i & Hi%elem_of_seqZ & Hr & o & Ho & Hx). split; [done|]. exists (es * i + o).
    split; [apply ref_array; [lia | done | done] | lia].
Qed.

Lemma record_refs_recursive_exact l ptr :
  layout_ok l -> fits l -> exists r, record_refs_recursive l ptr = Val r /\ forall x, x ∈ r <-> recorded l ptr x.
Proof.
  intros Hl Hfit. revert ptr Hfit. induction Hl as [s | e n He IH Hn | fs total al d hr Hok IH Hp Ht Hd Hm Hhr]; intros ptr Hfit.
  - assert (Hno : ~ is_ref s -> forall x, x ∈ [] <-> recorded (LScalar s) ptr x).
    { intros Hs x. rewrite elem_of_nil. split; [done|]. intros (Hr & o & Ho & _). inversion Ho; subst. done. }
    assert (Hyes : is_ref s -> forall x, x ∈ [(s, ptr)] <-> recorded (LScalar s) ptr x).
    { intros Hs x. by rewrite list_elem_of_singleton, recorded_scalar. }
    destruct s; simpl; eexists; (split; [done|]); first [apply Hyes; by (left + right) | apply Hno; by intros [|]].
  - cbn [record_refs_recursive]. destruct (is_or_contains_refs (LArray e n)) eqn:Hc; cbn [negb].
    2:{ exists []. split; [done|]. intros x. rewrite elem_of_nil. split; [done|]. by intros ?%not_recorded. }
    simpl in Hc. rewrite Hc. destruct (fits_array_inv (E:=Empty_set) _ _ Hfit) as (es & Hes & Hfe & _ & Hes0 & Hr).
    rewrite Hes. cbn [obind]. collects (fun i x => recorded e (ptr + i * es) x); [|by rewrite (recorded_array e n es)].
    intros i Hi%elem_of_seqZ. rewrite arith_ok by (int_bounds; nia). cbn [obind]. by apply IH.
  - cbn [record_refs_recursive]. destruct (is_or_contains_refs (LField fs total al d hr)) eqn:Hc; cbn [negb].
    2:{ exists []. split; [done|]. intros x. rewrite elem_of_nil. split; [done|]. by intros ?%not_recorded. }
    set (l := LField fs total al d hr) in *. assert (Hl : layout_ok l) by by constructor.
    assert (Hptrs : exists ptrs, (if hr then visit_managed_ptrs l 0 else Val []) = Val ptrs /\
      forall x, x ∈ ptrs <-> ref_at Scalars.ManagedPtr l x).
    { destruct hr.
      - destruct (fits_size (E:=Empty_set) l Hfit) as (sz & Hsz & Hr).
        destruct (visit_managed_ptrs_total l 0 sz) as [ptrs Hv]; [done | done | lia | int_bounds; lia |].
        exists ptrs. split; [done|]. intros x. rewrite (visit_managed_ptrs_exact _ _ _ _ Hl Hv). naive_solver.
      - exists []. split; [done|]. intros x. rewrite elem_of_nil. split; [done|]. intros Hx. by apply Hhr in Hx. }
    destruct Hptrs as (ptrs & -> & Hptrs). cbn [obind]. eexists. split; [done|]. intros [s x].
    rewrite !elem_of_app, !list_elem_of_fmap. unfold recorded. cbn [fst snd]. split.
    + intros [(w & [= -> ->] & Hw) | [(o & [= -> ->] & Hu) | (o & [= -> ->] & Ho)]].
      * apply for_each_word_index_marks in Hw as [_ Hw]; [|done]. split; [by left|]. exists (w * 8). split; [by apply Hm | done].
      * split; [by left|]. exists o. split; [apply Hm; by right | done].
      * split; [by right|]. exists o. split; [by apply Hptrs | done].
    + intros ([-> | ->] & o & Ho & ->).
      * apply Hm in Ho. destruct (decide (o ∈ unaligned_offsets d)); [right; left; by exists o|]. left.
        destruct Ho as [(H8 & H0 & Hb)|]; [|done]. exists (o / 8). unfold Scalars.OBJECT_REF_SIZE.
        assert (o / 8 * 8 = o) as -> by dlia. split; [done|]. apply for_each_word_index_marks; [done|].
        assert (o / 8 * 8 = o) as -> by dlia. split; [dlia | by left].
      * right; right. exists o. split; [done|]. by apply Hptrs.
Qed.

(** The bytes of the slot share one with the range. *)
Definition touched (rs re : Z) (s : Scalars.Scalar) (o : Z) : Prop := o < re /\ rs < o + Scalars.size_const s.

(** A scan of a range records slots only, and every slot of which a byte was written. *)
Definition scans (l : LayoutManager) (ptr rs re : Z) (r : list (Scalars.Scalar * Z)) : Prop :=
  (forall x, x ∈ r -> recorded l ptr x) /\
  (forall s o, is_ref s -> ref_at s l o -> touched rs re s o -> (s, ptr + o) ∈ r).

Lemma scans_nothing l ptr rs re : is_or_contains_refs l = false -> scans l ptr rs re [].
Proof.
  intros Hn. split; [intros x Hx; by apply elem_of_nil in Hx|].
  intros s o Hr Ho. apply contains_refs in Ho; [congruence|done].
Qed.

Lemma touched_shift rs re s b o : 0 <= o -> touched rs re s (b + o) -> touched (sat_sub rs b) (sat_sub re b) s o.
Proof. unfold touched, sat_sub. intros. assert (0 < Scalars.size_const s) by by destruct s. lia. Qed.

Lemma oflat_each {E A B} (f : A -> outcome E (list B)) (Q : A -> list B -> Prop) l :
  (forall a, a ∈ l -> exists r, f a = Val r /\ Q a r) ->
  exists r, oflat f l = Val r /\ (forall x, x ∈ r -> exists a y, a ∈ l /\ Q a y /\ x ∈ y) /\
    (forall a, a ∈ l -> exists y, Q a y /\ forall x, x ∈ y -> x ∈ r).
Proof.
  intros H. destruct (oflat_total f l) as [r Hr]; [intros a Ha; destruct (H a Ha) as (y & Hy & _); eauto|].
  exists r. split; [done|]. split.
  - intros x (a & y & Ha & Hy & Hx)%(oflat_elem _ _ _ _ Hr). destruct (H a Ha) as (y' & Hy' & Hq).
    rewrite Hy in Hy'. injection Hy' as <-. eauto.
  - intros a Ha. destruct (H a Ha) as (y & Hy & Hq). exists y. split; [done|]. intros x Hx. apply (oflat_elem _ _ _ _ Hr). eauto.
Qed.

(** The scan of one kind of layout, given that of its parts. *)
Definition scannable (l : LayoutManager) : Prop :=
  forall ptr rs re, 0 <= rs -> is_range usize re -> exists r, record_refs_in_range l ptr rs re = Val r /\ scans l ptr rs re r.

Lemma scan_scalar s : scannable (LScalar s).
Proof.
  intros ptr rs re _ _. destruct (record_refs_recursive_exact (LScalar s) ptr) as (r & Hr & Hel); [constructor | constructor |].
  assert (Hyes : exists r, record_refs_recursive (LScalar s) ptr = Val r /\ scans (LScalar s) ptr rs re r).
  { exists r. split; [done|]. split; [intros x Hx; by apply Hel|]. intros s' o Hs' Ho _. apply Hel. split; [done|]. by exists o. }
  destruct s; cbn [record_refs_in_range is_or_contains_refs negb];
    first [exact Hyes | exists []; split; [done|]; by apply scans_nothing].
Qed.

Lemma scan_array e n : fits (LArray e n) -> scannable e -> scannable (LArray e n).
Proof.
  intros Hfit IH ptr rs re Hrs Hre. cbn [record_refs_in_range].
  destruct (is_or_contains_refs (LArray e n)) eqn:Hc; cbn [negb]; [|exists []; split; [done|]; by apply scans_nothing].
  destruct (fits_array_inv (E:=Empty_set) _ _ Hfit) as (es & Hes & Hfe & Hn & Hes0 & Hr). rewrite Hes. cbn [obind].
  destruct (Z.eqb_spec es 0) as [->|Hz].
  { exists []. split; [done|]. split; [intros x Hx; by apply elem_of_nil in Hx|]. intros s o Hs Ho _.
    inversion Ho as [| |? ? i o' es' Hi Hes' Ho']; subst.
    pose proof (slot_within _ _ _ _ Hfe Ho' Hes). pose proof (ref_size _ Hs). lia. }
  assert (Hq : re / es + (if re mod es =? 0 then 0 else 1) = div_ceil re es).
  { unfold div_ceil. destruct (Z.eqb_spec (re mod es) 0); Z.div_mod_to_equations; nia. }
  rewrite Hq. assert (Hce : 0 <= div_ceil re es <= re) by (unfold div_ceil; int_bounds; Z.div_mod_to_equations; nia).
  rewrite arith_ok by (int_bounds; lia). cbn [obind].
  set (st := Z.min (rs / es) n). set (en := Z.min (div_ceil re es) n).
  assert (Hst : 0 <= st) by (pose proof (Z.div_pos rs es); lia).
  match goal with |- context [oflat ?f ?ixs] => destruct (oflat_each f
    (fun i => scans e (ptr + i * es) (sat_sub rs (i * es)) (sat_sub re (i * es))) ixs) as (r & -> & Hin & Hall) end.
  { intros i Hi%elem_of_seqZ. assert (0 <= i < n) by (unfold en in Hi; lia).
    rewrite arith_ok by (int_bounds; nia). cbn [obind]. assert (0 <= i * es) by nia.
    apply IH; unfold sat_sub; int_bounds; lia. }
  exists r. split; [done|]. split.
  - intros x (i & y & Hi%elem_of_seqZ & [Hsc _] & Hx)%Hin. apply (recorded_array e n es); [done|]. exists i.
    split; [apply elem_of_seqZ; unfold en in Hi; lia | by apply Hsc].
  - intros s o Hs Ho Ht. inversion Ho as [| |? ? i o' es' Hi Hes' Ho']; subst. rewrite Hes in Hes'. injection Hes' as <-.
    pose proof (slot_within _ _ _ _ Hfe Ho' Hes) as Hw. destruct (Hall i) as (y & [_ Hsc] & Hy).
    { apply elem_of_seqZ. unfold st, en, div_ceil, touched in *. Z.div_mod_to_equations. nia. }
    apply Hy. rewrite (Z.mul_comm es i), Z.add_assoc. apply Hsc; [done | done |]. apply touched_shift; [lia|].
    by rewrite (Z.mul_comm i es).
Qed.

Lemma scan_fields fs total al d hr :
  fits (LField fs total al d hr) -> (forall k pos l, (k, (pos, l)) ∈ fs -> scannable l) -> scannable (LField fs total al d hr).
Proof.
  intros Hfit IH ptr rs re Hrs Hre. cbn [record_refs_in_range].
  destruct (is_or_contains_refs (LField fs total al d hr)) eqn:Hc; cbn [negb]; [|exists []; split; [done|]; by apply scans_nothing].
  match goal with |- context [oflat ?f fs] => destruct (oflat_each f
    (fun fl => scans fl.2.2 (ptr + fl.2.1) (sat_sub rs fl.2.1) (sat_sub re fl.2.1)) fs) as (r & -> & Hin & Hall) end.
  { intros [k [pos fl]] Hin. cbn [fst snd].
    destruct (fits_field_inv (E:=Empty_set) _ _ _ _ _ _ _ _ Hfit Hin) as (fsz & Hfsz & Hfl & ? & ? & ? & ?).
    rewrite Hfsz. cbn [obind]. rewrite arith_ok by (int_bounds; lia). cbn [obind].
    destruct (Z.ltb_spec pos re), (Z.ltb_spec rs (pos + fsz)); cbn [andb];
      [eapply IH; [done | unfold sat_sub; lia | unfold sat_sub; int_bounds; lia]|..];
      (exists []; split; [done|]; split; [intros x Hx; by apply elem_of_nil in Hx|]; intros s o Hs Ho Ht';
       pose proof (slot_within _ _ _ _ Hfl Ho Hfsz); unfold touched, sat_sub in Ht'; lia). }
  exists r. split; [done|]. split.
  - intros x ([k [pos fl]] & y & Hf & [Hsc _] & Hx)%Hin. destruct (Hsc _ Hx) as (Hs & o & Ho & Hxo).
    split; [done|]. exists (pos + o). split; [by eapply ref_field | simpl in *; lia].
  - intros s o Hs Ho Ht'. inversion Ho as [|? ? ? ? ? k pos fl o' Hf Ho'|]; subst.
    destruct (Hall _ Hf) as (y & [_ Hsc] & Hy). apply Hy. rewrite Z.add_assoc. apply (Hsc s o'); [done | done |].
    destruct (fits_field_inv (E:=Empty_set) _ _ _ _ _ _ _ _ Hfit Hf) as (fsz & Hfsz & Hfl & _).
    apply touched_shift; [|done]. by apply (slot_within _ _ _ _ Hfl Ho' Hfsz).
Qed.

Lemma record_refs_in_range_scans l : fits l -> scannable l.
Proof.
  induction 1 as [s | e n sz He IH Hn Hs | fs total al d hr Hf IH Hp Ht];
    [apply scan_scalar | apply scan_array; [by econstructor | done] | apply scan_fields; [by constructor | done]].
Qed.

(** ** What the integrity check allows *)

(** Of the 8 bytes at [o], a write of an [l] from [off] to [e] touches none, or replaces them
    by a reference of it, aligned. *)
Definition replaced (l : LayoutManager) (off e o : Z) : Prop :=
  e <= o \/ o + 8 <= off \/ (off <= o /\ o + 8 <= e /\ slot l (o - off) /\ o mod 8 = 0).

Lemma kept_replaced l off e o : fits l -> coherent l -> kept l off e o <-> replaced l off e o.
Proof.
  intros Hf Hc. unfold kept, replaced. split.
  - intros H. destruct (decide (e <= o)); [by left|]. destruct (decide (o + 8 <= off)); [by right; left|]. right; right.
    destruct H as (H1 & H2 & H3 & H4); [lia | lia|]. split; [done|]. split; [done|]. split; [|done].
    apply has_ref_at_sound in H3; [done | done | lia].
  - intros [H | [H | (H1 & H2 & H3 & H4)]] Ha Hb; [lia | lia|]. split; [done|]. split; [done|]. split; [|done].
    by apply has_ref_at_complete.
Qed.

(** The integrity check accepts a write exactly if every reference of the object that it
    touches is overwritten whole, at an aligned place, by a reference of the value; any
    other write is an error, and it never panics. *)
Theorem reference_integrity base off dl l sz lsz :
  0 < base -> base + sz <= int_max usize -> fits dl -> size (E:=Empty_set) dl = Val sz ->
  fits l -> coherent l -> size (E:=Empty_set) l = Val lsz -> 0 <= off -> off + lsz <= sz ->
  let result := check_integrity_internal_with_layout (base + off) (Some dl) base l in
  result <> Panic /\ (result = Val tt <-> forall o, slot dl o -> replaced l off (off + lsz) o).
Proof.
  intros Hb Hmax Hdl Hsz Hl Hc Hlsz Hoff Hin. destruct (fits_size (E:=MemoryAccessError) l Hl) as (lsz' & Hs' & Hr).
  assert (lsz' = lsz) as -> by (apply (size_any (F:=Empty_set)) in Hs'; congruence).
  unfold check_integrity_internal_with_layout. destruct (Z.eqb_spec base 0); [lia|]. cbn [negb].
  replace (base + off - base) with off by lia. rewrite wrap_id by (int_bounds; lia). rewrite Hs'. cbn [obind].
  rewrite arith_ok by (int_bounds; lia). cbn [obind].
  destruct (validate_ref_integrity_decides l off (off + lsz) Hl Hoff ltac:(int_bounds; lia) dl 0 sz Hdl Hsz) as [Hd Hp]; [lia | lia|].
  split; [done|]. rewrite Hd. unfold all_kept. by split; intros H o Ho; specialize (H o Ho); rewrite Z.add_0_l, kept_replaced in *.
Qed.

Lemma reference_integrity_witness :
  check_integrity_internal_with_layout 1008 (Some (LArray (LScalar Scalars.ObjectRef) 2)) 1000 (LScalar Scalars.ObjectRef) = Val tt.
Proof.
  apply (reference_integrity 1000 8 (LArray (LScalar Scalars.ObjectRef) 2) (LScalar Scalars.ObjectRef) 16 8); try done; [| constructor | constructor |].
  - by apply (fits_array _ _ 16); [constructor | | vm_compute].
  - intros o (s & _ & Ho). inversion Ho as [| |? ? i ? sz Hi Hs H0]; subst. inversion H0; subst. injection Hs as <-. unfold replaced.
    assert (i = 0 \/ i = 1) as [-> | ->] by lia; [by right; left|]. right; right. do 2 (split; [done|]). split; [|done].
    exists Scalars.ObjectRef. split; [by left | constructor].
Defined.

(** A managed pointer is 24 bytes long, and the check guards the first 8: any value may
    be written over the rest, where its owner and offset are kept. *)
Theorem managed_ptr_tail_unchecked base off l sz :
  0 < base -> base + 24 <= int_max usize -> fits l -> size (E:=Empty_set) l = Val sz -> 8 <= off -> off + sz <= 24 ->
  size (E:=Empty_set) (LScalar Scalars.ManagedPtr) = Val 24 /\
  check_integrity_internal_with_layout (base + off) (Some (LScalar Scalars.ManagedPtr)) base l = Val tt.
Proof.
  intros Hb Hmax Hl Hsz Hoff Hin. split; [done|]. destruct (fits_size (E:=Empty_set) l Hl) as (s & Hs & Hr).
  rewrite Hsz in Hs. injection Hs as <-.
  unfold check_integrity_internal_with_layout. destruct (Z.eqb_spec base 0); [lia|]. cbn [negb].
  replace (base + off - base) with off by lia. rewrite wrap_id by (int_bounds; lia). rewrite (size_any _ _ Hsz). cbn [obind].
  rewrite arith_ok by (int_bounds; lia). cbn [obind validate_ref_integrity]. unfold check_slot.
  rewrite arith_ok by by vm_compute. cbn [obind]. destruct (Z.ltb_spec off (0 + 8)); [lia|]. by rewrite andb_false_r.
Qed.

Lemma managed_ptr_tail_unchecked_witness :
  check_integrity_internal_with_layout 1016 (Some (LScalar Scalars.ManagedPtr)) 1000 (LScalar Scalars.Int64) = Val tt.
Proof.
  apply (managed_ptr_tail_unchecked 1000 16 (LScalar Scalars.Int64) 8); done || constructor.
Defined.
