(* ===== verification/Memory.v ===== *)
(** * Raw memory access

    [RawMemoryAccess] of [dotnet-runtime-memory/src/access.rs] over the heap cells of
    [dotnet-value/src/object], the write-barrier buffer of
    [dotnet-runtime-memory/src/write_barrier.rs] and the sized atomics of
    [dotnet-utils/src/atomic.rs], multithreaded build.

    A heap object is named by its handle and has its payload at a base address;
    unmanaged memory is a map from addresses to bytes.  The operations are [unsafe]:
    an access outside their contract (an address that is not mapped, a handle that is
    not live) is [Undefined].  The registry of arenas, in which leases are taken and
    dropped within an operation, is a parameter, and so is the flush threshold.  The
    text of an error that shows a value in debug form names its kind instead. *)

From Stdlib Require Import ZArith Lia SpecFloat.
From stdpp Require Import base tactics list option gmap strings.
From S2P Require Import Prelude Bytes Floats Marking ManagedPtr ArenaRegistry PtrSerde StackValue Layout MemoryChecks.

Import Registry.

(** ** State *)

Inductive HeapStorage : Set :=
| HVec (element_layout : LayoutManager) (length : Z) (bytes : list Z)
| HObj (layout : LayoutManager) (bytes : list Z)
| HStr (bytes : list Z)
| HBoxed (layout : LayoutManager) (bytes : list Z).

Record HeapObject : Set := { ho_owner : Z; ho_base : Z; ho_storage : HeapStorage }.

Record mem : Type := {
  heap : gmap Z HeapObject;
  raw : gmap Z Z;
  static_ids : PtrSerde.statics;
  wb_buffer : list CrossArenaRef;
  (** [FOUND_CROSS_ARENA_REFS], and whether [CURRENTLY_TRACING_THREAD_ID] is set *)
  found_refs : list CrossArenaRef;
  is_tracing : bool;
  (** objects the collector looks at again *)
  barriers : list Z;
  next_arc : nat;
}.

Definition payload (s : HeapStorage) : list Z :=
  match s with HVec _ _ bs | HObj _ bs | HStr bs | HBoxed _ bs => bs end.

Definition set_payload (s : HeapStorage) (bs : list Z) : HeapStorage :=
  match s with
  | HVec e n _ => HVec e n bs
  | HObj l _ => HObj l bs
  | HStr _ => HStr bs
  | HBoxed l _ => HBoxed l bs
  end.

Definition with_payload (o : HeapObject) (bs : list Z) : HeapObject :=
  {| ho_owner := ho_owner o; ho_base := ho_base o; ho_storage := set_payload (ho_storage o) bs |}.

Definition storage_layout (s : HeapStorage) : option LayoutManager :=
  match s with
  | HObj l _ => Some l
  | HVec e n _ => Some (LArray e n)
  | HBoxed l _ => Some l
  | HStr _ => None
  end.

Definition set_heap (m : mem) (h : gmap Z HeapObject) : mem :=
  {| heap := h; raw := raw m; static_ids := static_ids m; wb_buffer := wb_buffer m; found_refs := found_refs m;
     is_tracing := is_tracing m; barriers := barriers m; next_arc := next_arc m |}.
Definition set_raw (m : mem) (x : gmap Z Z) : mem :=
  {| heap := heap m; raw := x; static_ids := static_ids m; wb_buffer := wb_buffer m; found_refs := found_refs m;
     is_tracing := is_tracing m; barriers := barriers m; next_arc := next_arc m |}.
Definition set_static_ids (m : mem) (x : PtrSerde.statics) : mem :=
  {| heap := heap m; raw := raw m; static_ids := x; wb_buffer := wb_buffer m; found_refs := found_refs m;
     is_tracing := is_tracing m; barriers := barriers m; next_arc := next_arc m |}.
Definition set_wb (m : mem) (buffer found : list CrossArenaRef) : mem :=
  {| heap := heap m; raw := raw m; static_ids := static_ids m; wb_buffer := buffer; found_refs := found;
     is_tracing := is_tracing m; barriers := barriers m; next_arc := next_arc m |}.
Definition add_barrier (m : mem) (h : Z) : mem :=
  {| heap := heap m; raw := raw m; static_ids := static_ids m; wb_buffer := wb_buffer m; found_refs := found_refs m;
     is_tracing := is_tracing m; barriers := barriers m ++ [h]; next_arc := next_arc m |}.
Definition bump_arc (m : mem) : mem :=
  {| heap := heap m; raw := raw m; static_ids := static_ids m; wb_buffer := wb_buffer m; found_refs := found_refs m;
     is_tracing := is_tracing m; barriers := barriers m; next_arc := S (next_arc m) |}.

(** ** Operations

    An operation may have changed the state also when it fails. *)

Inductive fault (E : Type) : Type :=
| Access (e : E)
| Undefined.

Arguments Access {E} e.
Arguments Undefined {E}.

Definition op (E A : Type) : Type := mem -> outcome (fault E) A * mem.

Definition mret {E A} (a : A) : op E A := fun m => (Val a, m).

Definition mbind {E A B} (x : op E A) (f : A -> op E B) : op E B := fun m =>
  match x m with
  | (Val a, m) => f a m
  | (Err e, m) => (Err e, m)
  | (Panic, m) => (Panic, m)
  end.

Definition mmap_err {E F A} (g : E -> F) (x : op E A) : op F A := fun m =>
  match x m with
  | (Val a, m) => (Val a, m)
  | (Err (Access e), m) => (Err (Access (g e)), m)
  | (Err Undefined, m) => (Err Undefined, m)
  | (Panic, m) => (Panic, m)
  end.

Definition lift {E A} (x : outcome E A) : op E A := fun m =>
  (match x with Val a => Val a | Err e => Err (Access e) | Panic => Panic end, m).

(** [unwrap_or_else(|e| panic!(..))] *)
Definition unwrap {E F A} (x : outcome F A) : op E A := fun m =>
  (match x with Val a => Val a | _ => Panic end, m).

Definition fail {E A} (e : E) : op E A := fun m => (Err (Access e), m).
Definition panic {E A} : op E A := fun m => (Panic, m).
Definition undefined {E A} : op E A := fun m => (Err Undefined, m).
Definition modify {E} (f : mem -> mem) : op E unit := fun m => (Val tt, f m).
Definition gets {E A} (f : mem -> A) : op E A := fun m => (Val (f m), m).

Notation "'let!' x ':=' m 'in' k" := (mbind m (fun x => k))
  (at level 10, x pattern, m at level 100, k at level 200) : vm_scope.
Notation "m ';!' k" := (mbind m (fun _ => k)) (at level 100, right associativity) : vm_scope.

Fixpoint miter {E A} (f : A -> op E unit) (l : list A) : op E unit :=
  match l with
  | [] => mret tt
  | a :: l => f a ;! miter f l
  end.

(** ** Places *)

(** A byte of an object's payload, or an address. *)
Inductive place : Set := InHeap (h off : Z) | Raw (a : Z).

Definition slice (bs : list Z) (off n : nat) : list Z := take n (drop off bs).
Definition splice (bs : list Z) (off : nat) (new : list Z) : list Z := take off bs ++ new ++ drop (off + length new) bs.

Definition addresses (a : Z) (n : nat) : list Z := seqZ a (Z.of_nat n).

Definition peek {E} (p : place) (n : Z) : op E (list Z) :=
  let! m := gets id in
  match p with
  | InHeap h off =>
      match heap m !! h with
      | Some o =>
          let bs := payload (ho_storage o) in
          if (0 <=? off) && (0 <=? n) && (off + n <=? Z.of_nat (length bs))
          then mret (slice bs (Z.to_nat off) (Z.to_nat n)) else undefined
      | None => undefined
      end
  | Raw a =>
      match mapM (raw m !!.) (addresses a (Z.to_nat n)) with
      | Some bs => mret bs
      | None => undefined
      end
  end.

Definition poke {E} (p : place) (new : list Z) : op E unit :=
  let! m := gets id in
  match p with
  | InHeap h off =>
      match heap m !! h with
      | Some o =>
          let bs := payload (ho_storage o) in
          if (0 <=? off) && (off + Z.of_nat (length new) <=? Z.of_nat (length bs))
          then modify (fun m => set_heap m (<[h := with_payload o (splice bs (Z.to_nat off) new)]> (heap m)))
          else undefined
      | None => undefined
      end
  | Raw a =>
      match mapM (raw m !!.) (addresses a (length new)) with
      | Some _ => modify (fun m => set_raw m (list_to_map (zip (addresses a (length new)) new) ∪ raw m))
      | None => undefined
      end
  end.

Section access.

Variable r : ArenaRegistry.
Variable th : nat.
Variable is_enum : TypeDescription -> option MemberType.
(** [WRITE_BARRIER_FLUSH_THRESHOLD] *)
Variable threshold : nat.

(** ** Owners *)

Inductive MemoryOwner : Set := Local (o : ObjectRef) | CrossArena (origin : CrossArenaOrigin).

Definition object_owner (m : mem) (h : Z) : Z := match heap m !! h with Some o => ho_owner o | None => INVALID_ARENA end.

Definition owner_id (m : mem) (o : MemoryOwner) : Z :=
  match o with
  | Local (Some h) => object_owner m h
  | Local None => INVALID_ARENA
  | CrossArena c => arena_id (co_identity c)
  end.

(** The object of an owner; a cross-arena owner needs its exact registration. *)
Definition owner_object (o : MemoryOwner) : op MemoryAccessError (Z * HeapObject) :=
  let! h := match o with
            | Local (Some h) => mret h
            | Local None => panic
            | CrossArena c =>
                match try_acquire_lease_for_identity r th (co_identity c) with
                | Some _ => mret (co_ptr c)
                | None => fail CrossArenaViolation
                end
            end in
  let! m := gets id in
  match heap m !! h with Some obj => mret (h, obj) | None => undefined end.

Definition as_heap_storage (o : MemoryOwner) : op MemoryAccessError HeapStorage :=
  let! (_, obj) := owner_object o in mret (ho_storage obj).

Definition with_data (o : MemoryOwner) : op MemoryAccessError (Z * HeapObject) := owner_object o.

(** Borrowing a local object mutably triggers the collector's backward barrier. *)
Definition with_data_mut (o : MemoryOwner) : op MemoryAccessError (Z * HeapObject) :=
  let! (h, obj) := owner_object o in
  match o with
  | Local _ => modify (fun m => add_barrier m h) ;! mret (h, obj)
  | CrossArena _ => mret (h, obj)
  end.

Definition get_layout_from_owner (o : MemoryOwner) : op MemoryAccessError (option LayoutManager) :=
  let! s := as_heap_storage o in mret (storage_layout s).

(** ** The write barrier *)

(** Outside a tracing phase nothing is recorded. *)
Definition record_cross_arena_ref (m : mem) (reference : CrossArenaRef) : mem :=
  match try_acquire_lease_for_identity r th (identity reference) with
  | None => m
  | Some _ => if is_tracing m then set_wb m (wb_buffer m) (found_refs m ++ [reference]) else m
  end.

Definition flush_write_barrier_entries {E} : op E unit :=
  modify (fun m => let m' := foldl record_cross_arena_ref m (wb_buffer m) in set_wb m' [] (found_refs m')).

Definition maybe_flush_write_barrier_entries {E} : op E unit :=
  let! m := gets id in
  if decide (threshold <= length (wb_buffer m))%nat then flush_write_barrier_entries else mret tt.

Definition push_reference {E} (x : CrossArenaRef) : op E unit :=
  modify (fun m => set_wb m (wb_buffer m ++ [x]) (found_refs m)) ;! maybe_flush_write_barrier_entries.

(** [WriteBarrierRecorder] is the arena of the written object. *)
Definition record_ref {E} (arena : Z) (target : ObjectRef) : op E unit :=
  if arena =? INVALID_ARENA then mret tt
  else
    match target with
    | None => mret tt
    | Some h =>
        let! m := gets id in
        match heap m !! h with
        | None => undefined
        | Some obj =>
            let ref_tid := ho_owner obj in
            if negb (ref_tid =? arena) then
              match try_acquire_lease r th ref_tid with
              | Some (l, _) =>
                  push_reference {| identity := {| arena_id := l_arena l; generation := l_generation l |}; ref_ptr := h |}
              | None => mret tt
              end
            else mret tt
        end
    end.

Definition cross_arena_ref (c : CrossArenaOrigin) : CrossArenaRef := {| identity := co_identity c; ref_ptr := co_ptr c |}.

Definition record_origin {E} (arena : Z) (o : PointerOrigin) : op E unit :=
  match o with
  | CrossArenaObjectRef c =>
      if negb (arena_id (co_identity c) =? arena) then push_reference (cross_arena_ref c) else mret tt
  | Heap target => record_ref arena target
  | _ => mret tt
  end.

Definition record_managed_ptr {E} (arena : Z) (p : ManagedPtr.ManagedPtr) : op E unit :=
  if arena =? INVALID_ARENA then mret tt else record_origin arena (origin p).

(** [NoManagedPtrResolver]: only the payload bases of heap objects are known. *)
Definition no_resolver (m : mem) : PtrSerde.resolver :=
  {| PtrSerde.static_storage_base := fun _ => None;
     PtrSerde.frame_home_block := fun _ => None;
     PtrSerde.raw_data_ptr := fun h => match heap m !! h with Some o => ho_base o | None => 0 end |}.

Definition record_objref_at_ptr {E} (arena : Z) (p : place) : op E unit :=
  let! bs := peek p 8 in
  let! target := unwrap (PtrSerde.try_from_storage_ptr r th (from_le_bytes usize bs)) in
  record_ref arena target.

Definition record_managedptr_at_ptr {E} (arena : Z) (p : place) : op E unit :=
  if arena =? INVALID_ARENA then mret tt
  else
    let! bs := peek p 24 in
    let! m := gets id in
    let! info := unwrap (PtrSerde.read_resolved_unchecked (static_ids m) r th (no_resolver m) bs) in
    record_origin arena (info_origin info).

(** [ptr.add] *)
Definition at_offset (p : place) (off : Z) : place :=
  match p with InHeap h o => InHeap h (o + off) | Raw a => Raw (a + off) end.

Definition record_slot {E} (arena : Z) (p : place) (x : Scalars.Scalar * Z) : op E unit :=
  match x.1 with
  | Scalars.ManagedPtr => record_managedptr_at_ptr arena (at_offset p x.2)
  | _ => record_objref_at_ptr arena (at_offset p x.2)
  end.

Definition record_refs_recursive_with_recorder {E} (arena : Z) (p : place) (l : LayoutManager) : op E unit :=
  if arena =? INVALID_ARENA then mret tt
  else let! slots := unwrap (record_refs_recursive l 0) in miter (record_slot arena p) slots.

Definition record_refs_in_range_with_recorder {E} (arena : Z) (p : place) (l : LayoutManager) (range_start range_end : Z)
  : op E unit :=
  let! slots := unwrap (record_refs_in_range l 0 range_start range_end) in miter (record_slot arena p) slots.

Definition field_layout_contains_heap_refs (l : LayoutManager) : bool :=
  match l with
  | LField _ _ _ d hr => hr || negb (bool_decide (bitmap d = [])) || negb (bool_decide (unaligned_offsets d = []))
  | _ => false
  end.

Definition backward_barrier_for_heap_atomic_write {E} (o : option MemoryOwner) : op E unit :=
  match o with
  | Some (Local (Some h)) => modify (fun m => add_barrier m h)
  | _ => mret tt
  end.

(** [ManagedPtr::owner] *)
Definition pointer_owner (p : ManagedPtr.ManagedPtr) : option ObjectRef :=
  match origin p with Heap o => Some o | _ => None end.

Definition backward_barrier_for_heap_ref_write {E} (o : option MemoryOwner) (v : StackValue) (l : LayoutManager)
  : op E unit :=
  let should_barrier :=
    match l with
    | LScalar Scalars.ObjectRef => match v with SV.ObjectRef (Some _) => true | _ => false end
    | LScalar Scalars.ManagedPtr =>
        match v with
        | SV.ManagedPtr p => match pointer_owner p with Some (Some _) => true | _ => false end
        | _ => false
        end
    | LField _ _ _ _ _ => field_layout_contains_heap_refs l && match v with SV.ValueType _ => true | _ => false end
    | _ => false
    end in
  if should_barrier then backward_barrier_for_heap_atomic_write o else mret tt.

(** ** Values *)

Definition mismatch {A} (expected : string) (v : StackValue) : op MemoryAccessError A :=
  fail (MemoryTypeMismatch ("Expected " +:+ expected +:+ ", got " +:+ stack_value_kind v)).

Definition extract_int (v : StackValue) : op MemoryAccessError Z :=
  let! v := lift (coerce_enum_to_underlying is_enum v) in
  match v with SV.Int32 i => mret i | _ => mismatch "Int32" v end.

Definition extract_long (v : StackValue) : op MemoryAccessError Z :=
  let! v := lift (coerce_enum_to_underlying is_enum v) in
  match v with SV.Int64 i => mret i | _ => mismatch "Int64" v end.

Definition extract_native_int (v : StackValue) : op MemoryAccessError Z :=
  let! v := lift (coerce_enum_to_underlying is_enum v) in
  match v with
  | SV.NativeInt i => mret i
  | SV.UnmanagedPtr p => mret (wrap isize p)
  | _ => mismatch "NativeInt" v
  end.

Definition extract_float (v : StackValue) : op MemoryAccessError spec_float :=
  match v with SV.NativeFloat f => mret f | _ => mismatch "NativeFloat" v end.

(** The address of a place. *)
Definition address_of (m : mem) (p : place) : Z :=
  match p with
  | InHeap h off => wrap usize (match heap m !! h with Some o => ho_base o | None => 0 end + off)
  | Raw a => a
  end.

(** [v as t] of an integer, stored unaligned. *)
Definition write_int (p : place) (t : ity) (v : Z) : op MemoryAccessError unit := poke p (to_le_bytes t (wrap t v)).

Definition write_scalar (arena : Z) (p : place) (o : option MemoryOwner) (v : StackValue) (s : Scalars.Scalar)
  : op MemoryAccessError unit :=
  match s with
  | Scalars.Int8 => let! i := extract_int v in write_int p I8 i
  | Scalars.UInt8 => let! i := extract_int v in write_int p U8 i
  | Scalars.Int16 => let! i := extract_int v in write_int p I16 i
  | Scalars.UInt16 => let! i := extract_int v in write_int p U16 i
  | Scalars.Int32 => let! i := extract_int v in write_int p I32 i
  | Scalars.Int64 => let! i := extract_long v in write_int p I64 i
  | Scalars.NativeInt => let! i := extract_native_int v in write_int p isize i
  | Scalars.Float32 => let! f := extract_float v in write_int p U32 (f32_to_bits (f64_to_f32 f))
  | Scalars.Float64 => let! f := extract_float v in write_int p U64 (f64_to_bits f)
  | Scalars.ManagedPtr =>
      match v with
      | SV.ManagedPtr q =>
          match origin q with
          | Transient _ => fail InvalidOrigin
          | _ =>
              let! old := peek p 24 in
              let! m := gets id in
              let! (bs, st) := unwrap (PtrSerde.write q old (static_ids m)) in
              modify (fun m => set_static_ids m st) ;!
              poke p bs ;!
              match o with Some _ => record_managed_ptr arena q | None => mret tt end
          end
      | _ => fail (MemoryTypeMismatch "Expected ManagedPtr")
      end
  | Scalars.ObjectRef =>
      match v with
      | SV.ObjectRef x =>
          let! m := gets id in
          let! w := unwrap (PtrSerde.try_to_storage_ptr r th (object_owner m) x) in
          poke p (to_le_bytes usize w) ;!
          match o with Some _ => record_ref arena x | None => mret tt end
      | _ => fail (MemoryTypeMismatch "Expected ObjectRef")
      end
  end.

(** [write_value_internal_with_recorder] *)
Definition write_value (arena : Z) (p : place) (o : option MemoryOwner) (v : StackValue) (l : LayoutManager)
  : op MemoryAccessError unit :=
  let! m := gets id in
  if address_of m p =? 0 then fail (NullPointer "RawMemoryAccess::write_value_internal called with null pointer!")
  else
    backward_barrier_for_heap_ref_write o v l ;!
    match l with
    | LScalar s => write_scalar arena p o v s
    | LField _ total _ _ _ =>
        match v with
        | SV.ValueType obj =>
            if total <=? Z.of_nat (length (data obj)) then
              poke p (take (Z.to_nat total) (data obj)) ;!
              match o with Some _ => record_refs_recursive_with_recorder arena p l | None => mret tt end
            else undefined
        | _ => fail (MemoryTypeMismatch "Expected ValueType for Struct write")
        end
    | LArray _ _ => fail (MemoryTypeMismatch "Cannot write entire array unaligned")
    end.

Definition read_int (p : place) (t : ity) : op MemoryAccessError Z :=
  let! bs := peek p (bits t / 8) in mret (from_le_bytes t bs).

Definition read_managed_ptr (m : mem) (bs : list Z) : outcome PtrSerde.PointerDeserializationError ManagedPtrInfo :=
  match PtrSerde.read_resolved_unchecked (static_ids m) r th (no_resolver m) bs with
  | Err PtrSerde.UnresolvedStaticStorage | Err (PtrSerde.UnresolvedFrameHome _) =>
      PtrSerde.read_metadata_unchecked (static_ids m) r th bs
  | x => x
  end.

Definition read_scalar (p : place) (s : Scalars.Scalar) (type_desc : option TypeDescription)
  : op MemoryAccessError StackValue :=
  match s with
  | Scalars.Int8 => let! i := read_int p I8 in mret (SV.Int32 i)
  | Scalars.UInt8 => let! i := read_int p U8 in mret (SV.Int32 i)
  | Scalars.Int16 => let! i := read_int p I16 in mret (SV.Int32 i)
  | Scalars.UInt16 => let! i := read_int p U16 in mret (SV.Int32 i)
  | Scalars.Int32 => let! i := read_int p I32 in mret (SV.Int32 i)
  | Scalars.Int64 => let! i := read_int p I64 in mret (SV.Int64 i)
  | Scalars.NativeInt => let! i := read_int p isize in mret (SV.NativeInt i)
  | Scalars.Float32 => let! b := read_int p U32 in mret (SV.NativeFloat (f32_to_f64 (f32_from_bits b)))
  | Scalars.Float64 => let! b := read_int p U64 in mret (SV.NativeFloat (f64_from_bits b))
  | Scalars.ObjectRef =>
      let! bs := peek p 8 in
      let! x := unwrap (PtrSerde.try_from_storage_ptr r th (from_le_bytes usize bs)) in
      mret (SV.ObjectRef x)
  | Scalars.ManagedPtr =>
      let! bs := peek p 24 in
      let! m := gets id in
      let! info := match read_managed_ptr m bs with
                   | Val info => mret info
                   | Err _ => fail (MemoryTypeMismatch "ManagedPtr read failed")
                   | Panic => panic
                   end in
      let! q := unwrap (E:=MemoryAccessError) (F:=Empty_set) (from_info_full info (default NULL_TYPE type_desc) false) in
      mret (SV.ManagedPtr q)
  end.

(** [read_value_internal]; the layout of a struct that is read is a new [Arc]. *)
Definition read_value (p : place) (l : LayoutManager) (type_desc : option TypeDescription) : op MemoryAccessError StackValue :=
  let! m := gets id in
  if address_of m p =? 0 then fail (NullPointer "RawMemoryAccess::read_value_internal called with null pointer!")
  else
    match l with
    | LScalar s => read_scalar p s type_desc
    | LField _ total _ _ _ =>
        match type_desc with
        | Some desc =>
            let! bs := peek p total in
            modify bump_arc ;!
            mret (SV.ValueType {| description := desc; obj_generics := []; layout_arc := next_arc m; data := bs;
                                  has_finalizer := false; finalizer_suppressed := false |})
        | None => fail (MemoryTypeMismatch "Struct read requires TypeDescription, which is not passed to read_unaligned")
        end
    | LArray _ _ => fail (MemoryTypeMismatch "Array read not supported")
    end.

(** ** Reading and writing values *)

Definition write_heap_value_with_barrier (o : MemoryOwner) (off : Z) (v : StackValue) (l : LayoutManager)
    (dest_layout : option LayoutManager) : op MemoryAccessError unit :=
  let! m := gets id in
  let arena := owner_id m o in
  let! (h, obj) := with_data_mut o in
  let base := ho_base obj in
  let ptr := wrap usize (base + off) in
  let! sz := lift (size l) in
  lift (check_bounds ptr base (Z.of_nat (length (payload (ho_storage obj)))) sz) ;!
  lift (check_integrity_internal_with_layout ptr dest_layout base l) ;!
  write_value arena (InHeap h off) (Some o) v l.

Definition write_to_heap (o : MemoryOwner) (off : Z) (v : StackValue) (l : LayoutManager) : op MemoryAccessError unit :=
  as_heap_storage o ;!
  let! dest_layout := get_layout_from_owner o in
  write_heap_value_with_barrier o off v l dest_layout.

Definition write_to_unmanaged (ptr : Z) (v : StackValue) (l : LayoutManager) : op MemoryAccessError unit :=
  if ptr =? 0 then fail (NullPointer "NullReferenceException: writing to unmanaged null pointer")
  else write_value INVALID_ARENA (Raw ptr) None v l.

Definition write_unaligned (o : option MemoryOwner) (off : Z) (v : StackValue) (l : LayoutManager)
  : op MemoryAccessError unit :=
  match o with
  | Some o => write_to_heap o off v l
  | None => write_to_unmanaged off v l
  end.

Definition read_unaligned (o : option MemoryOwner) (off : Z) (l : LayoutManager) (type_desc : option TypeDescription)
  : op MemoryAccessError StackValue :=
  match o with
  | Some o =>
      as_heap_storage o ;!
      let! src_layout := get_layout_from_owner o in
      let! (h, obj) := with_data o in
      let base := ho_base obj in
      let! sz := lift (size l) in
      lift (check_bounds (wrap usize (base + off)) base (Z.of_nat (length (payload (ho_storage obj)))) sz) ;!
      (if negb (off =? 0) || match src_layout with Some _ => true | None => false end
       then lift (check_read_safety l src_layout off) else mret tt) ;!
      read_value (InHeap h off) l type_desc
  | None =>
      if off =? 0 then fail (NullPointer "NullReferenceException: reading from unmanaged null pointer")
      else read_value (Raw off) l type_desc
  end.

(** ** Bytes *)

Definition write_bytes (o : option MemoryOwner) (off : Z) (bs : list Z) : op MemoryAccessError unit :=
  let n := Z.of_nat (length bs) in
  match o with
  | Some o =>
      as_heap_storage o ;!
      let! layout := get_layout_from_owner o in
      let! m := gets id in
      let arena := owner_id m o in
      let! (h, obj) := with_data_mut o in
      let base := ho_base obj in
      lift (check_bounds (wrap usize (base + off)) base (Z.of_nat (length (payload (ho_storage obj)))) n) ;!
      poke (InHeap h off) bs ;!
      match layout with
      | Some l =>
          let! e := lift (arith usize (off + n)) in
          record_refs_in_range_with_recorder arena (InHeap h 0) l off e
      | None => mret tt
      end
  | None =>
      if off =? 0 then fail (NullPointer "NullReferenceException: writing bytes to unmanaged null pointer")
      else poke (Raw off) bs
  end.

Definition write_bytes_ptr (ptr : Z) (bs : list Z) : op MemoryAccessError unit := poke (Raw ptr) bs.

(** [n] bytes are read. *)
Definition read_bytes (o : option MemoryOwner) (off n : Z) : op MemoryAccessError (list Z) :=
  match o with
  | Some o =>
      let! (h, obj) := with_data o in
      let len := Z.of_nat (length (payload (ho_storage obj))) in
      let! e := lift (arith usize (off + n)) in
      if len <? e then fail (BoundsCheck off n len) else peek (InHeap h off) n
  | None =>
      if off =? 0 then fail (NullPointer "NullReferenceException: reading bytes from unmanaged null pointer")
      else peek (Raw off) n
  end.

Definition read_bytes_ptr (ptr n : Z) : op MemoryAccessError (list Z) := peek (Raw ptr) n.

(** ** Atomic operations *)

Inductive Ordering : Set := Relaxed | Release | Acquire | AcqRel | SeqCst.

Inductive CompareExchangeError : Set :=
| Mismatch (current : Z)
| Bounds (e : MemoryAccessError).

Definition is_ptr_aligned_to_field (addr field_size : Z) : bool :=
  if field_size =? 1 then true
  else if field_size =? 0 then addr =? 0
  else addr mod field_size =? 0.

(** [dispatch_atomic_width]: the representation of a supported width. *)
Definition atomic_width (sz : Z) : option ity :=
  if sz =? 1 then Some U8 else if sz =? 2 then Some U16 else if sz =? 4 then Some U32 else if sz =? 8 then Some U64 else None.

(** [validate_ordering] *)
Definition ordering_ok (ordering : Ordering) (is_load : bool) : bool :=
  match is_load, ordering with
  | true, (Release | AcqRel) | false, (Acquire | AcqRel) => false
  | _, _ => true
  end.

Definition peek_word {E} (p : place) (t : ity) : op E Z :=
  let! bs := peek p (bits t / 8) in mret (from_le_bytes t bs).

Definition poke_word {E} (p : place) (t : ity) (v : Z) : op E unit := poke p (to_le_bytes t (wrap t v)).

(** The aligned access validates its ordering, the copying one has none. *)
Definition load_atomic_with_unaligned_fallback {E} (p : place) (sz : Z) (ordering : Ordering) : op E Z :=
  match atomic_width sz with
  | None => panic
  | Some t =>
      let! m := gets id in
      if is_ptr_aligned_to_field (address_of m p) sz && negb (ordering_ok ordering true) then panic else peek_word p t
  end.

Definition store_atomic_with_unaligned_fallback {E} (p : place) (sz v : Z) (ordering : Ordering) : op E unit :=
  match atomic_width sz with
  | None => panic
  | Some t =>
      let! m := gets id in
      if is_ptr_aligned_to_field (address_of m p) sz && negb (ordering_ok ordering false) then panic else poke_word p t v
  end.

(** The [_sized] operations of [StandardAtomicAccess]; the failure ordering of a
    compare-and-exchange is one of a load. *)
Definition compare_exchange_atomic_sized (p : place) (sz expected new : Z) (failure : Ordering) : op CompareExchangeError Z :=
  match atomic_width sz with
  | None => panic
  | Some t =>
      if negb (ordering_ok failure true) then panic
      else
        let! current := peek_word p t in
        if current =? wrap t expected then poke_word p t new ;! mret current else fail (Mismatch current)
  end.

Definition exchange_atomic_sized {E} (p : place) (sz new : Z) : op E Z :=
  match atomic_width sz with
  | None => panic
  | Some t => let! current := peek_word p t in poke_word p t new ;! mret current
  end.

Definition exchange_add_atomic_sized {E} (p : place) (sz v : Z) : op E Z :=
  match atomic_width sz with
  | None => panic
  | Some t => let! current := peek_word p t in poke_word p t (current + wrap t v) ;! mret current
  end.

(** The slot of an owner an atomic operation acts on, within its bounds. *)
Definition owner_slot (with_object : MemoryOwner -> op MemoryAccessError (Z * HeapObject)) (o : MemoryOwner) (off sz : Z)
  : op MemoryAccessError place :=
  let! (h, obj) := with_object o in
  let base := ho_base obj in
  lift (check_bounds (wrap usize (base + off)) base (Z.of_nat (length (payload (ho_storage obj)))) sz) ;!
  mret (InHeap h off).

Definition check_aligned (p : place) (sz : Z) : op MemoryAccessError unit :=
  let! m := gets id in
  if is_ptr_aligned_to_field (address_of m p) sz then mret tt else fail (UnalignedAccess (address_of m p)).

Definition compare_exchange_atomic_ptr (ptr expected new sz : Z) (failure : Ordering) : op CompareExchangeError Z :=
  mmap_err Bounds (check_aligned (Raw ptr) sz) ;! compare_exchange_atomic_sized (Raw ptr) sz expected new failure.

Definition compare_exchange_atomic (o : option MemoryOwner) (off expected new sz : Z) (failure : Ordering)
  : op CompareExchangeError Z :=
  match o with
  | Some o =>
      let! p := mmap_err Bounds (let! p := owner_slot with_data_mut o off sz in check_aligned p sz ;! mret p) in
      let! result := compare_exchange_atomic_sized p sz expected new failure in
      backward_barrier_for_heap_atomic_write (Some o) ;! mret result
  | None => compare_exchange_atomic_ptr off expected new sz failure
  end.

Definition exchange_atomic_ptr (ptr v sz : Z) : op MemoryAccessError Z :=
  check_aligned (Raw ptr) sz ;! exchange_atomic_sized (Raw ptr) sz v.

Definition exchange_atomic (o : option MemoryOwner) (off v sz : Z) : op MemoryAccessError Z :=
  match o with
  | Some o =>
      let! p := owner_slot with_data_mut o off sz in
      check_aligned p sz ;!
      let! result := exchange_atomic_sized p sz v in
      backward_barrier_for_heap_atomic_write (Some o) ;! mret result
  | None =>
      if off =? 0 then fail (NullPointer "NullReferenceException: exchange_atomic to unmanaged null pointer")
      else exchange_atomic_ptr off v sz
  end.

Definition exchange_add_atomic_ptr (ptr v sz : Z) : op MemoryAccessError Z :=
  check_aligned (Raw ptr) sz ;! exchange_add_atomic_sized (Raw ptr) sz v.

Definition exchange_add_atomic (o : option MemoryOwner) (off v sz : Z) : op MemoryAccessError Z :=
  match o with
  | Some o =>
      let! p := owner_slot with_data_mut o off sz in
      check_aligned p sz ;! exchange_add_atomic_sized p sz v
  | None =>
      if off =? 0 then fail (NullPointer "NullReferenceException: exchange_add_atomic to unmanaged null pointer")
      else exchange_add_atomic_ptr off v sz
  end.

Definition load_atomic_ptr (ptr sz : Z) (ordering : Ordering) : op MemoryAccessError Z :=
  load_atomic_with_unaligned_fallback (Raw ptr) sz ordering.

Definition load_atomic (o : option MemoryOwner) (off sz : Z) (ordering : Ordering) : op MemoryAccessError Z :=
  match o with
  | Some o =>
      let! p := owner_slot with_data o off sz in load_atomic_with_unaligned_fallback p sz ordering
  | None =>
      if off =? 0 then fail (NullPointer "NullReferenceException: load_atomic from unmanaged null pointer")
      else load_atomic_ptr off sz ordering
  end.

Definition store_atomic_ptr (ptr v sz : Z) (ordering : Ordering) : op MemoryAccessError unit :=
  store_atomic_with_unaligned_fallback (Raw ptr) sz v ordering.

Definition store_atomic (o : option MemoryOwner) (off v sz : Z) (ordering : Ordering) : op MemoryAccessError unit :=
  match o with
  | Some o =>
      let! p := owner_slot with_data_mut o off sz in
      store_atomic_with_unaligned_fallback p sz v ordering ;!
      backward_barrier_for_heap_atomic_write (Some o)
  | None =>
      if off =? 0 then fail (NullPointer "NullReferenceException: store_atomic to unmanaged null pointer")
      else store_atomic_ptr off v sz ordering
  end.

(** ** Atomic operations on object references *)

Inductive PointerAtomicOp : Set :=
| Load (ordering : Ordering)
| Store (v : Z) (ordering : Ordering)
| Exchange (v : Z) (ordering : Ordering)
| CompareExchange (expected v : Z) (success failure : Ordering).

(** [PointerAtomicOp::execute]: the previous value and whether the slot was written,
    or nothing for an unaligned read-modify-write. *)
Definition execute (a : PointerAtomicOp) (p : place) : op MemoryAccessError (option (Z * bool)) :=
  let! m := gets id in
  if is_ptr_aligned_to_field (address_of m p) 8 then
    match a with
    | Load ordering =>
        if negb (ordering_ok ordering true) then panic else let! w := peek_word p usize in mret (Some (w, false))
    | Store v ordering =>
        if negb (ordering_ok ordering false) then panic else poke_word p usize v ;! mret (Some (0, true))
    | Exchange v _ => let! w := peek_word p usize in poke_word p usize v ;! mret (Some (w, true))
    | CompareExchange expected v _ failure =>
        if negb (ordering_ok failure true) then panic
        else
          let! w := peek_word p usize in
          if w =? expected then poke_word p usize v ;! mret (Some (w, true)) else mret (Some (w, false))
    end
  else
    match a with
    | Load _ => let! w := peek_word p usize in mret (Some (w, false))
    | Store v _ => poke_word p usize v ;! mret (Some (0, true))
    | _ => mret None
    end.

Definition executed {A} (m : mem) (p : place) (x : option A) : op MemoryAccessError A :=
  match x with Some x => mret x | None => fail (UnalignedAccess (address_of m p)) end.

Definition object_atomic_ptr (ptr : Z) (a : PointerAtomicOp) : op MemoryAccessError Z :=
  let! x := execute a (Raw ptr) in
  let! m := gets id in
  let! (previous, _) := executed m (Raw ptr) x in mret previous.

Definition object_atomic (o : option MemoryOwner) (off : Z) (a : PointerAtomicOp) : op MemoryAccessError Z :=
  match o with
  | Some o =>
      let! p := owner_slot with_data_mut o off 8 in
      let! x := execute a p in
      let! m := gets id in
      let! (previous, written) := executed m p x in
      if written : bool then
        backward_barrier_for_heap_atomic_write (Some o) ;!
        let! v := match a with
                  | Store v _ | Exchange v _ | CompareExchange _ v _ _ => mret v
                  | Load _ => panic
                  end in
        let! target := unwrap (PtrSerde.try_from_storage_ptr r th v) in
        let! m := gets id in
        record_ref (owner_id m o) target ;! mret previous
      else mret previous
  | None =>
      if off =? 0 then fail (NullPointer "object atomic operation on null pointer")
      else object_atomic_ptr off a
  end.

End access.
