(* ===== verification/MemorySafety.v ===== *)
(** * What raw memory access guarantees

    Theorems about [Memory]: a checked write leaves every reference of the object whole
    and is read back, the write barrier buffers exactly the references to other arenas
    that a write stores, and atomic operations change exactly their slot. *)

From Stdlib Require Import ZArith Lia SpecFloat.
From stdpp Require Import base tactics list option gmap strings.
From S2P Require Import Prelude Bytes Floats Marking ManagedPtr ArenaRegistry PtrSerde StackValue Layout MemoryChecks Memory.

Import Registry.

(** ** Operations that succeed *)

Lemma mbind_val {E A B} (x : op E A) (f : A -> op E B) m b m' :
  mbind x f m = (Val b, m') <-> exists a m1, x m = (Val a, m1) /\ f a m1 = (Val b, m').
Proof.
  unfold mbind. destruct (x m) as [[a| |] m1]; split; [eauto | | done | | done |];
    intros (a' & m1' & [=] & Hf); by subst.
Qed.

Lemma lift_val {E A} (x : outcome E A) m a m' : lift x m = (Val a, m') <-> x = Val a /\ m' = m.
Proof. unfold lift. destruct x; split; [intros [= -> ->] | intros [[= ->] ->] | | intros [[=] _] | | intros [[=] _]]; done. Qed.

Lemma unwrap_val {E F A} (x : outcome F A) m a m' : unwrap (E:=E) x m = (Val a, m') <-> x = Val a /\ m' = m.
Proof. unfold unwrap. destruct x; split; [intros [= -> ->] | intros [[= ->] ->] | | intros [[=] _] | | intros [[=] _]]; done. Qed.

Lemma gets_val {E A} (f : mem -> A) m a m' : gets (E:=E) f m = (Val a, m') <-> a = f m /\ m' = m.
Proof. unfold gets. split; [by intros [= -> ->] | by intros [-> ->]]. Qed.

Lemma modify_val {E} f m a m' : modify (E:=E) f m = (Val a, m') <-> a = tt /\ m' = f m.
Proof. unfold modify. split; [by intros [= <- ->] | by intros [-> ->]]. Qed.

Lemma mret_val {E A} (x : A) m a m' : mret (E:=E) x m = (Val a, m') <-> a = x /\ m' = m.
Proof. unfold mret. split; [by intros [= -> ->] | by intros [-> ->]]. Qed.

(** Takes the first step of an operation that succeeded. *)
Ltac op_step H :=
  let a := fresh "a" in let m1 := fresh "m" in let H1 := fresh "H" in
  apply mbind_val in H as (a & m1 & H1 & H);
  first [ apply gets_val in H1 as [-> ->]; cbn [id] in H
        | apply modify_val in H1 as [-> ->]
        | apply mret_val in H1 as [-> ->]
        | apply lift_val in H1 as [H1 ->]
        | apply unwrap_val in H1 as [H1 ->]
        | idtac ].

(** ** Slices *)

Lemma slice_lookup bs off n i : slice bs off n !! i = if decide (i < n)%nat then bs !! (off + i)%nat else None.
Proof.
  unfold slice. case_decide; [|by apply lookup_ge_None_2; rewrite length_take; lia].
  by rewrite lookup_take_lt, lookup_drop by done.
Qed.

Lemma splice_lookup bs off new j : (off <= length bs)%nat ->
  splice bs off new !! j =
    if decide (j < off)%nat then bs !! j else if decide (j < off + length new)%nat then new !! (j - off)%nat else bs !! j.
Proof.
  intros Hl. unfold splice. case_decide.
  - rewrite lookup_app_l by (rewrite length_take; lia). by apply lookup_take_lt.
  - rewrite lookup_app_r by (rewrite length_take; lia). rewrite length_take, Nat.min_l by done. case_decide.
    + by rewrite lookup_app_l by lia.
    + rewrite lookup_app_r by lia. rewrite lookup_drop. f_equal. lia.
Qed.

Lemma length_splice bs off new : (off + length new <= length bs)%nat -> length (splice bs off new) = length bs.
Proof. intros. unfold splice. rewrite !length_app, length_take, length_drop. lia. Qed.

Lemma slice_splice_out bs off new o n : (off + length new <= length bs)%nat ->
  (o + n <= off \/ off + length new <= o)%nat -> slice (splice bs off new) o n = slice bs o n.
Proof.
  intros Hl Hd. apply list_eq. intros i. rewrite !slice_lookup. case_decide; [|done].
  rewrite splice_lookup by lia. case_decide; [done|]. case_decide; [lia | done].
Qed.

Lemma slice_splice_in bs off new o n : (off + length new <= length bs)%nat ->
  (off <= o)%nat -> (o + n <= off + length new)%nat -> slice (splice bs off new) o n = slice new (o - off) n.
Proof.
  intros Hl Ho Hn. apply list_eq. intros i. rewrite !slice_lookup. case_decide; [|done].
  rewrite splice_lookup by lia. case_decide; [lia|]. case_decide; [|lia]. f_equal. lia.
Qed.

Lemma slice_take bs k o n : (o + n <= k)%nat -> slice (take k bs) o n = slice bs o n.
Proof. intros. apply list_eq. intros i. rewrite !slice_lookup. case_decide; [|done]. by rewrite lookup_take_lt by lia. Qed.

Lemma slice_all bs : slice bs 0 (length bs) = bs.
Proof. unfold slice. by rewrite drop_0, firstn_all. Qed.

(** ** The buffer of the write barrier *)

Section buffer.

Variable r : ArenaRegistry.
Variable th : nat.
Variable threshold : nat.

Definition live_identity (x : CrossArenaRef) : Prop := is_Some (try_acquire_lease_for_identity r th (identity x)).

#[global] Instance live_identity_dec x : Decision (live_identity x).
Proof. unfold live_identity. apply _. Defined.

(** The entries [xs] have been appended to the buffer, in order.  The first [n] of what it
    then held are gone from it: a flush hands them to [record_cross_arena_ref], which
    keeps those of live arenas in a tracing phase and none outside.  Nothing is flushed
    while the buffer stays below the threshold, and it does stay below. *)
Record buffered (xs : list CrossArenaRef) (m m' : mem) : Prop := {
  b_tracing : is_tracing m' = is_tracing m;
  b_flushed : exists n, (n <= length (wb_buffer m ++ xs))%nat /\ wb_buffer m' = drop n (wb_buffer m ++ xs) /\
    found_refs m' = found_refs m ++ (if is_tracing m then filter live_identity (take n (wb_buffer m ++ xs)) else []) /\
    (n = O \/ (threshold <= length (wb_buffer m ++ xs))%nat);
  b_short : (0 < threshold)%nat -> (length (wb_buffer m) < threshold)%nat -> (length (wb_buffer m') < threshold)%nat;
}.

Lemma buffered_same m m' :
  wb_buffer m' = wb_buffer m -> found_refs m' = found_refs m -> is_tracing m' = is_tracing m -> buffered [] m m'.
Proof.
  intros Hb Hf Ht. split; [done| |by rewrite Hb]. exists O. rewrite app_nil_r, take_0, drop_0. split; [lia|].
  split; [done|]. split; [|by left]. rewrite Hf. destruct (is_tracing m); by rewrite app_nil_r.
Qed.

Lemma buffered_trans xs ys m1 m2 m3 : buffered xs m1 m2 -> buffered ys m2 m3 -> buffered (xs ++ ys) m1 m3.
Proof.
  intros [Ht1 (n1 & Hl1 & Hb1 & Hf1 & Hn1) Hs1] [Ht2 (n2 & Hl2 & Hb2 & Hf2 & Hn2) Hs2].
  rewrite Ht1 in *. split; [congruence| |auto]. rewrite Hb1 in *. rewrite length_app, length_drop in Hl2.
  exists (n1 + n2)%nat. rewrite (app_assoc _ xs ys). set (a := wb_buffer m1 ++ xs) in *.
  assert (Hd : drop n1 a ++ ys = drop n1 (a ++ ys)) by (by rewrite drop_app_le).
  rewrite Hd in *. split; [rewrite length_app; lia|]. split; [by rewrite Hb2, drop_drop|]. split.
  - rewrite Hf2, Hf1, <- app_assoc. f_equal. destruct (is_tracing m1); [|done].
    rewrite <- filter_app. f_equal. rewrite <- (take_app_le a ys n1) by done. apply take_take_drop.
  - rewrite length_drop in Hn2. rewrite length_app in *. destruct Hn1; [|right; lia]. destruct Hn2; [left; lia | right; lia].
Qed.

Lemma record_all_spec l m :
  foldl (record_cross_arena_ref r th) m l =
    set_wb m (wb_buffer m) (found_refs m ++ (if is_tracing m then filter live_identity l else [])).
Proof.
  revert m. induction l as [|x l IH]; intros m; cbn [foldl].
  - rewrite filter_nil. destruct (is_tracing m) eqn:E; rewrite app_nil_r; by destruct m.
  - rewrite IH, filter_cons. unfold Memory.record_cross_arena_ref. destruct (decide (live_identity x)) as [[y E]|E].
    + rewrite E. destruct (is_tracing m) eqn:Et; [|by rewrite Et]. simpl. rewrite Et.
      unfold set_wb. simpl. by rewrite <- app_assoc.
    + apply eq_None_not_Some in E. by rewrite E.
Qed.

Lemma push_buffered {E} x m :
  exists m', push_reference (E:=E) r th threshold x m = (Val tt, m') /\ buffered [x] m m' /\
    heap m' = heap m /\ raw m' = raw m /\ static_ids m' = static_ids m /\ barriers m' = barriers m /\ next_arc m' = next_arc m.
Proof.
  unfold push_reference, maybe_flush_write_barrier_entries, mbind, modify, gets. cbn [fst snd id wb_buffer set_wb].
  destruct (decide _) as [Hge|Hlt]; (eexists; split; [reflexivity|]).
  - unfold flush_write_barrier_entries, modify. cbn [snd]. rewrite record_all_spec. simpl.
    split; [|done]. split; [done| |simpl; lia]. exists (length (wb_buffer m ++ [x])). simpl.
    rewrite drop_all, firstn_all. split; [lia|]. split; [done|]. split; [done | by right].
  - split; [|done]. split; [done| |simpl; lia]. exists O. simpl. rewrite take_0, drop_0. split; [lia|]. split; [done|].
    split; [|by left]. destruct (is_tracing m); by rewrite app_nil_r.
Qed.

(** Only what the write barrier notes has changed, and it has noted [xs]. *)
Record quiet (xs : list CrossArenaRef) (m m' : mem) : Prop := {
  q_heap : heap m' = heap m;
  q_raw : raw m' = raw m;
  q_ids : static_ids m' = static_ids m;
  q_barriers : forall h, h ∈ barriers m -> h ∈ barriers m';
  q_arc : next_arc m' = next_arc m;
  q_buffered : buffered xs m m';
}.

Lemma quiet_refl m : quiet [] m m.
Proof. split; try done. by apply buffered_same. Qed.

Lemma quiet_trans xs ys m1 m2 m3 : quiet xs m1 m2 -> quiet ys m2 m3 -> quiet (xs ++ ys) m1 m3.
Proof. intros [] []. split; [congruence..| auto | congruence | by eapply buffered_trans]. Qed.

Lemma quiet_barrier m h : quiet [] m (add_barrier m h).
Proof. split; try done; [simpl; set_solver | by apply buffered_same]. Qed.

Lemma push_quiet {E} x m : exists m', push_reference (E:=E) r th threshold x m = (Val tt, m') /\ quiet [x] m m'.
Proof.
  destruct (push_buffered (E:=E) x m) as (m' & Hp & Hb & Hh & Hr & Hi & Hba & Ha). exists m'. split; [done|].
  split; try done. by rewrite Hba.
Qed.

End buffer.

#[export] Hint Resolve quiet_refl quiet_barrier : vm.

(** ** What the write barrier records *)

Section safety.

Variable r : ArenaRegistry.
Variable th : nat.
Variable is_enum : TypeDescription -> option MemberType.
Variable threshold : nat.

Abbreviation write_value := (write_value r th is_enum threshold).
Abbreviation write_to_heap := (write_to_heap r th is_enum threshold).
Abbreviation quiet := (quiet r th threshold).
Abbreviation buffered := (buffered r th threshold).

(** The entry for a reference stored in an object of [arena]; none is due within the arena
    or to an arena that is gone. *)
Definition due (m : mem) (arena : Z) (h : Z) (x : CrossArenaRef) : Prop :=
  arena <> INVALID_ARENA /\ ref_ptr x = h /\ exists obj l r', heap m !! h = Some obj /\ ho_owner obj <> arena /\
    try_acquire_lease r th (ho_owner obj) = Some (l, r') /\ identity x = {| arena_id := l_arena l; generation := l_generation l |}.

(** The entry for a reference or the origin of a managed pointer. *)
Definition entry (m : mem) (arena : Z) (og : PointerOrigin) (x : CrossArenaRef) : Prop :=
  match og with
  | Heap (Some h) => due m arena h x
  | CrossArenaObjectRef c => arena <> INVALID_ARENA /\ arena_id (co_identity c) <> arena /\ x = cross_arena_ref c
  | _ => False
  end.

Lemma entry_invalid m og x : ~ entry m INVALID_ARENA og x.
Proof. destruct og as [[h|]| | | | |]; simpl; try tauto; by intros [? _]. Qed.

Lemma record_ref_spec {E} arena t m m' :
  record_ref (E:=E) r th threshold arena t m = (Val tt, m') ->
  exists xs, quiet xs m m' /\ forall x, x ∈ xs <-> entry m arena (Heap t) x.
Proof.
  assert (Hno : m' = m -> (forall x, ~ entry m arena (Heap t) x) ->
    exists xs, quiet xs m m' /\ forall x, x ∈ xs <-> entry m arena (Heap t) x).
  { intros -> Hn. exists []. split; [auto with vm|]. intros x. split; [by intros ?%elem_of_nil | by intros ?%Hn]. }
  unfold record_ref. destruct (Z.eqb_spec arena INVALID_ARENA) as [->|Hv].
  { intros [= ->]. apply Hno; [done|]. apply entry_invalid. }
  destruct t as [h|]; [|intros [= ->]; by apply Hno; [|intros x []]]. intros H. op_step H. simpl in H.
  destruct (heap m !! h) as [obj|] eqn:Hh; [|done].
  destruct (Z.eqb_spec (ho_owner obj) arena) as [Ho|Ho]; simpl in H.
  { injection H as <-. apply Hno; [done|]. intros x (_ & _ & obj' & l & r' & Hh' & Hne & _). congruence. }
  destruct (try_acquire_lease r th (ho_owner obj)) as [[l r']|] eqn:El.
  - edestruct (push_quiet r th threshold (E:=E)) as (m2 & Hp & Hq). rewrite Hp in H. injection H as <-. eexists. split; [done|].
    intros [i q]. rewrite list_elem_of_singleton. simpl. unfold due. simpl. split.
    + intros [= -> ->]. split; [done|]. split; [done|]. by exists obj, l, r'.
    + intros (_ & -> & obj' & l' & r'' & Hh' & _ & El' & Hid). rewrite Hh in Hh'. simplify_eq. congruence.
  - injection H as <-. apply Hno; [done|]. intros x (_ & _ & obj' & l & r' & Hh' & _ & El' & _). congruence.
Qed.

Lemma record_origin_spec {E} arena og m m' :
  arena <> INVALID_ARENA -> record_origin (E:=E) r th threshold arena og m = (Val tt, m') ->
  exists xs, quiet xs m m' /\ forall x, x ∈ xs <-> entry m arena og x.
Proof.
  intros Hv. assert (Hno : m' = m -> (forall x, ~ entry m arena og x) ->
    exists xs, quiet xs m m' /\ forall x, x ∈ xs <-> entry m arena og x).
  { intros -> Hn. exists []. split; [auto with vm|]. intros x. split; [by intros ?%elem_of_nil | by intros ?%Hn]. }
  unfold record_origin. destruct og as [t| | | |c|]; try (intros [= ->]; by apply Hno; [|intros x []]);
    [by intros ?%record_ref_spec|].
  destruct (Z.eqb_spec (arena_id (co_identity c)) arena) as [He|He]; simpl.
  - intros [= ->]. apply Hno; [done|]. by intros x (_ & ? & _).
  - edestruct (push_quiet r th threshold (E:=E)) as (m2 & Hp & Hq). rewrite Hp. intros [= <-]. eexists. split; [done|].
    intros x. rewrite list_elem_of_singleton. simpl. by split; [intros -> | intros (_ & _ & ->)].
Qed.

(** ** Places *)

Definition bytes_of (o : HeapObject) : list Z := payload (ho_storage o).

Lemma set_payload_layout s bs : storage_layout (set_payload s bs) = storage_layout s.
Proof. by destruct s. Qed.

Lemma bytes_of_with o bs : bytes_of (with_payload o bs) = bs.
Proof. unfold bytes_of. simpl. by destruct (ho_storage o). Qed.

Lemma peek_unchanged {E} p n m bs m' : peek (E:=E) p n m = (Val bs, m') -> m' = m.
Proof.
  unfold peek. intros H. op_step H. destruct p as [h off|a].
  - destruct (heap m !! h); [|done]. destruct (_ && _); [|done]. by apply mret_val in H as [_ ->].
  - destruct (mapM _ _); [|done]. by apply mret_val in H as [_ ->].
Qed.

Lemma peek_heap {E} h off n m o :
  heap m !! h = Some o -> 0 <= off -> 0 <= n -> off + n <= Z.of_nat (length (bytes_of o)) ->
  peek (E:=E) (InHeap h off) n m = (Val (slice (bytes_of o) (Z.to_nat off) (Z.to_nat n)), m).
Proof.
  intros Hh Ho Hn Hl. unfold peek, mbind, gets. cbn [id]. rewrite Hh. fold (bytes_of o).
  by rewrite (proj2 (Z.leb_le 0 off)), (proj2 (Z.leb_le 0 n)), (proj2 (Z.leb_le _ _) Hl) by done.
Qed.

Lemma poke_heap_val {E} h off new m m' :
  poke (E:=E) (InHeap h off) new m = (Val tt, m') ->
  exists o, heap m !! h = Some o /\ 0 <= off /\ off + Z.of_nat (length new) <= Z.of_nat (length (bytes_of o)) /\
    m' = set_heap m (<[h := with_payload o (splice (bytes_of o) (Z.to_nat off) new)]> (heap m)).
Proof.
  unfold poke. intros H. op_step H. destruct (heap m !! h) as [o|] eqn:Hh; [|done]. exists o. split; [done|].
  destruct (_ && _) eqn:Eb in H; [|done]. bool_to_prop. apply modify_val in H as [_ ->]. unfold bytes_of. done.
Qed.

Lemma entry_heap m m' arena og x : heap m' = heap m -> entry m arena og x <-> entry m' arena og x.
Proof. intros He. destruct og as [[h|]| | | | |]; simpl; try done. unfold due. by rewrite He. Qed.

(** What the slot of a layout at [o] holds: an object reference, or the origin of the
    managed pointer, as far as it resolves without statics and frame homes. *)
Definition slot_origin (m : mem) (p : place) (s : Scalars.Scalar) (o : Z) (og : PointerOrigin) : Prop :=
  match s with
  | Scalars.ManagedPtr =>
      exists bs info, peek (E:=Empty_set) (at_offset p o) 24 m = (Val bs, m) /\
        PtrSerde.read_resolved_unchecked (static_ids m) r th (no_resolver m) bs = Val info /\ og = info_origin info
  | _ =>
      exists bs t, peek (E:=Empty_set) (at_offset p o) 8 m = (Val bs, m) /\
        PtrSerde.try_from_storage_ptr r th (from_le_bytes usize bs) = Val t /\ og = Heap t
  end.

Lemma peek_same {E F} p n m m' bs :
  heap m' = heap m -> raw m' = raw m -> peek (E:=E) p n m = (Val bs, m) <-> peek (E:=F) p n m' = (Val bs, m').
Proof.
  intros Hh Hr. unfold peek, mbind, gets. cbn [id]. rewrite Hh, Hr.
  destruct p; repeat case_match; unfold mret, undefined; split; intros [=]; congruence.
Qed.

Lemma slot_origin_same m m' p s o og :
  heap m' = heap m -> raw m' = raw m -> static_ids m' = static_ids m -> slot_origin m p s o og <-> slot_origin m' p s o og.
Proof.
  intros Hh Hr Hi. unfold slot_origin, no_resolver. rewrite Hh, Hi.
  assert (Hp : forall n bs, peek (E:=Empty_set) (at_offset p o) n m = (Val bs, m) <->
    peek (E:=Empty_set) (at_offset p o) n m' = (Val bs, m')) by (intros; by apply peek_same).
  destruct s; by setoid_rewrite Hp.
Qed.

Lemma record_slot_spec {E} arena p s o m m' :
  record_slot (E:=E) r th threshold arena p (s, o) m = (Val tt, m') ->
  exists xs, quiet xs m m' /\ forall x, x ∈ xs <-> exists og, slot_origin m p s o og /\ entry m arena og x.
Proof.
  assert (Hobj : record_objref_at_ptr (E:=E) r th threshold arena (at_offset p o) m = (Val tt, m') ->
    exists xs, quiet xs m m' /\ forall x, x ∈ xs <-> exists og,
      (exists bs t, peek (E:=Empty_set) (at_offset p o) 8 m = (Val bs, m) /\
        PtrSerde.try_from_storage_ptr r th (from_le_bytes usize bs) = Val t /\ og = Heap t) /\ entry m arena og x).
  { unfold record_objref_at_ptr. intros H. op_step H. pose proof (peek_unchanged _ _ _ _ _ H0) as ->. op_step H.
    apply record_ref_spec in H as (xs & Hq & Hin). exists xs. split; [done|]. intros x. rewrite Hin.
    apply (peek_same (F:=Empty_set) _ _ m m) in H0; [|done..]. split.
    - intros Hx. exists (Heap a0). split; [|done]. by exists a, a0.
    - intros (og & (bs & t & Hp & Ht & ->) & Hx). rewrite H0 in Hp. injection Hp as <-. rewrite H1 in Ht. by injection Ht as <-. }
  intros H. unfold record_slot in H. cbn [fst snd] in H. destruct s; try (by apply Hobj). clear Hobj.
  unfold record_managedptr_at_ptr in H. destruct (Z.eqb_spec arena INVALID_ARENA) as [->|Hv].
  { injection H as <-. exists []. split; [auto with vm|]. intros x.
    split; [by intros ?%elem_of_nil | by intros (og & _ & ?%entry_invalid)]. }
  op_step H. pose proof (peek_unchanged _ _ _ _ _ H0) as ->. op_step H. op_step H.
  apply record_origin_spec in H as (xs & Hq & Hin); [|done]. exists xs. split; [done|]. intros x. rewrite Hin.
  apply (peek_same (F:=Empty_set) _ _ m m) in H0; [|done..]. simpl. split.
  - intros Hx. eexists. split; [|done]. by exists a, a0.
  - intros (og & (bs & t & Hp & Ht & ->) & Hx). rewrite H0 in Hp. injection Hp as <-. rewrite H1 in Ht. by injection Ht as <-.
Qed.

Lemma record_slots_spec {E} arena p slots m m' :
  miter (record_slot (E:=E) r th threshold arena p) slots m = (Val tt, m') ->
  exists xs, quiet xs m m' /\
    forall x, x ∈ xs <-> exists s o og, (s, o) ∈ slots /\ slot_origin m p s o og /\ entry m arena og x.
Proof.
  revert m. induction slots as [|[s o] slots IH]; intros m H; cbn [miter] in H.
  { apply mret_val in H as [_ ->]. exists []. split; [auto with vm|]. intros x.
    split; [by intros ?%elem_of_nil | by intros (s & o & og & ?%elem_of_nil & _)]. }
  op_step H. destruct a. apply record_slot_spec in H0 as (xs & Hq & Hin). apply IH in H as (ys & Hq' & Hin').
  exists (xs ++ ys). split; [by eapply quiet_trans|]. pose proof Hq as [Hh Hr Hi _ _ _].
  intros x. rewrite elem_of_app, Hin, Hin'. split.
  - intros [(og & Hs & Hx) | (s' & o' & og & Hel & Hs & Hx)]; [exists s, o, og | exists s', o', og].
    + split; [by left | done].
    + split; [by right|]. split; [by apply (slot_origin_same m m0) | by apply (entry_heap m m0)].
  - intros (s' & o' & og & Hel & Hs & Hx). apply elem_of_cons in Hel as [[= -> ->] | Hel]; [left; by exists og|].
    right. exists s', o', og. split; [done|]. split; [by apply (slot_origin_same m m0) | by apply (entry_heap m m0)].
Qed.

(** ** Writing a value *)

(** The bytes that represent [v] as an [l]. *)
Definition scalar_bytes (m : mem) (v : StackValue) (s : Scalars.Scalar) (bs : list Z) : Prop :=
  let as_int t := exists i, coerce_enum_to_underlying (E:=MemoryAccessError) is_enum v = Val (SV.Int32 i) /\ bs = to_le_bytes t (wrap t i) in
  match s with
  | Scalars.Int8 => as_int I8
  | Scalars.UInt8 => as_int U8
  | Scalars.Int16 => as_int I16
  | Scalars.UInt16 => as_int U16
  | Scalars.Int32 => as_int I32
  | Scalars.Int64 =>
      exists i, coerce_enum_to_underlying (E:=MemoryAccessError) is_enum v = Val (SV.Int64 i) /\ bs = to_le_bytes I64 (wrap I64 i)
  | Scalars.NativeInt =>
      exists i, bs = to_le_bytes isize (wrap isize i) /\
        (coerce_enum_to_underlying (E:=MemoryAccessError) is_enum v = Val (SV.NativeInt i) \/
         exists p, coerce_enum_to_underlying (E:=MemoryAccessError) is_enum v = Val (SV.UnmanagedPtr p) /\ i = wrap isize p)
  | Scalars.Float32 => exists f, v = SV.NativeFloat f /\ bs = to_le_bytes U32 (wrap U32 (f32_to_bits (f64_to_f32 f)))
  | Scalars.Float64 => exists f, v = SV.NativeFloat f /\ bs = to_le_bytes U64 (wrap U64 (f64_to_bits f))
  | Scalars.ObjectRef =>
      exists x w, v = SV.ObjectRef x /\ PtrSerde.try_to_storage_ptr r th (object_owner m) x = Val w /\ bs = to_le_bytes usize w
  | Scalars.ManagedPtr =>
      exists q old st', v = SV.ManagedPtr q /\ length old = 24%nat /\ PtrSerde.write q old (static_ids m) = Val (bs, st')
  end.

Definition value_bytes (m : mem) (v : StackValue) (l : LayoutManager) (bs : list Z) : Prop :=
  match l with
  | LScalar s => scalar_bytes m v s bs
  | LField _ total _ _ _ =>
      exists obj, v = SV.ValueType obj /\ total <= Z.of_nat (length (data obj)) /\ bs = take (Z.to_nat total) (data obj)
  | LArray _ _ => False
  end.

(** The object [o] at [h] has got [bs] at [off], the write barrier has noted [xs], and
    nothing else has changed but the numbering of static fields. *)
Record written (h off : Z) (o : HeapObject) (bs : list Z) (xs : list CrossArenaRef) (m m' : mem) : Prop := {
  w_off : 0 <= off;
  w_fits : off + Z.of_nat (length bs) <= Z.of_nat (length (bytes_of o));
  w_heap : heap m' = <[h := with_payload o (splice (bytes_of o) (Z.to_nat off) bs)]> (heap m);
  w_raw : raw m' = raw m;
  w_arc : next_arc m' = next_arc m;
  w_barriers : forall h, h ∈ barriers m -> h ∈ barriers m';
  w_buffered : buffered xs m m';
}.

Lemma poke_written {E} h off bs m m' :
  poke (E:=E) (InHeap h off) bs m = (Val tt, m') -> exists o, heap m !! h = Some o /\ written h off o bs [] m m'.
Proof. intros (o & Hh & Ho & Hl & ->)%poke_heap_val. exists o. split; [done|]. split; try done. by apply buffered_same. Qed.

Lemma quiet_written m0 h off o bs xs ys m m' :
  quiet xs m0 m -> written h off o bs ys m m' -> written h off o bs (xs ++ ys) m0 m'.
Proof. intros [] []. split; try done; [congruence..|auto|by eapply buffered_trans]. Qed.

Lemma written_quiet h off o bs xs ys m m' m'' :
  written h off o bs xs m m' -> quiet ys m' m'' -> written h off o bs (xs ++ ys) m m''.
Proof. intros [] []. split; try done; [congruence..|auto|by eapply buffered_trans]. Qed.

Lemma backward_barrier_quiet {E} o v l m m' :
  backward_barrier_for_heap_ref_write (E:=E) o v l m = (Val tt, m') -> quiet [] m m'.
Proof.
  unfold backward_barrier_for_heap_ref_write, backward_barrier_for_heap_atomic_write.
  destruct (match l with LScalar _ => _ | _ => _ end); [|intros [= <-]; auto with vm].
  destruct o as [[[h|]|]|]; intros [= <-]; auto with vm.
Qed.

(** The references a value holds as an [l]: itself, or what the slots of a struct hold. *)
Definition held (m : mem) (v : StackValue) (l : LayoutManager) (og : PointerOrigin) : Prop :=
  match l, v with
  | LScalar Scalars.ObjectRef, SV.ObjectRef x => og = Heap x
  | LScalar Scalars.ManagedPtr, SV.ManagedPtr q => og = origin q
  | LField _ _ _ _ _, SV.ValueType obj =>
      (exists k t, ref_at Scalars.ObjectRef l k /\ og = Heap t /\
         PtrSerde.try_from_storage_ptr r th (from_le_bytes usize (slice (data obj) (Z.to_nat k) 8)) = Val t) \/
      (exists k info, ref_at Scalars.ManagedPtr l k /\ og = info_origin info /\
         PtrSerde.read_resolved_unchecked (static_ids m) r th (no_resolver m) (slice (data obj) (Z.to_nat k) 24) = Val info)
  | _, _ => False
  end.

Lemma held_same m m' v l og :
  heap m' = heap m -> static_ids m' = static_ids m -> held m v l og <-> held m' v l og.
Proof. intros Hh Hi. unfold held, no_resolver. by rewrite Hh, Hi. Qed.

Lemma extract_int_val v m i m' :
  extract_int is_enum v m = (Val i, m') -> coerce_enum_to_underlying (E:=MemoryAccessError) is_enum v = Val (SV.Int32 i) /\ m' = m.
Proof. unfold extract_int. intros H. op_step H. destruct a; try done. apply mret_val in H as [-> ->]. done. Qed.

Lemma extract_long_val v m i m' :
  extract_long is_enum v m = (Val i, m') -> coerce_enum_to_underlying (E:=MemoryAccessError) is_enum v = Val (SV.Int64 i) /\ m' = m.
Proof. unfold extract_long. intros H. op_step H. destruct a; try done. apply mret_val in H as [-> ->]. done. Qed.

Lemma extract_native_int_val v m i m' :
  extract_native_int is_enum v m = (Val i, m') ->
  (coerce_enum_to_underlying (E:=MemoryAccessError) is_enum v = Val (SV.NativeInt i) \/
   exists p, coerce_enum_to_underlying (E:=MemoryAccessError) is_enum v = Val (SV.UnmanagedPtr p) /\ i = wrap isize p) /\ m' = m.
Proof.
  unfold extract_native_int. intros H. op_step H. destruct a; try done; apply mret_val in H as [-> ->]; (split; [|done]); eauto.
Qed.

Lemma extract_float_val v m f m' : extract_float v m = (Val f, m') -> v = SV.NativeFloat f /\ m' = m.
Proof. unfold extract_float. destruct v; try done. by intros [-> ->]%mret_val. Qed.


Lemma write_int_written h off t i m m' :
  write_int (InHeap h off) t i m = (Val tt, m') ->
  exists obj, heap m !! h = Some obj /\ written h off obj (to_le_bytes t (wrap t i)) [] m m'.
Proof. apply poke_written. Qed.

(** The entries [xs] are those of the references that the value holds. *)
Definition noted (arena : Z) (v : StackValue) (l : LayoutManager) (xs : list CrossArenaRef) (m : mem) : Prop :=
  forall x, x ∈ xs <-> exists og, held m v l og /\ entry m arena og x.

Lemma noted_quiet arena v l xs ys m m' : quiet ys m m' -> noted arena v l xs m -> noted arena v l xs m'.
Proof.
  intros [Hh _ Hi _ _ _] Hn x. rewrite (Hn x).
  split; intros (og & Ho & Hx); exists og; split; first [by apply (held_same m m') | by apply (entry_heap m m')].
Qed.

Lemma noted_one arena v l og xs m :
  (forall og', held m v l og' <-> og' = og) -> (forall x, x ∈ xs <-> entry m arena og x) -> noted arena v l xs m.
Proof.
  intros Ho Hx x. rewrite Hx. split; [intros; exists og; split; [by apply Ho | done] | by intros (og' & ->%Ho & ?)].
Qed.

Lemma write_scalar_written arena h off o v s m m' :
  write_scalar r th is_enum threshold arena (InHeap h off) o v s m = (Val tt, m') ->
  exists obj bs xs, heap m !! h = Some obj /\ scalar_bytes m v s bs /\ written h off obj bs xs m m' /\
    (is_Some o -> noted arena v (LScalar s) xs m').
Proof.
  intros H. destruct s; cbn [write_scalar scalar_bytes] in *.
  3-11: op_step H; first [ apply extract_int_val in H0 as [Hc ->] | apply extract_long_val in H0 as [Hc ->]
    | apply extract_native_int_val in H0 as [Hc ->] | apply extract_float_val in H0 as [-> ->] ];
    apply write_int_written in H as (obj & Hh & Hw); exists obj; eexists _, []; (split; [done|]);
    (split; [eauto 8|]); (split; [done|]); intros _ x; (split; [by intros ?%elem_of_nil | by intros (og & [] & _)]).
  - destruct v as [| | | |y| | | | |]; try done. op_step H. op_step H. op_step H. destruct a0.
    apply poke_written in H1 as (obj & Hh & Hw). destruct o as [o|].
    + apply record_ref_spec in H as (xs & Hq & Hin). exists obj, (to_le_bytes usize a), ([] ++ xs).
      split; [done|]. split; [eauto|]. split; [by eapply written_quiet|]. intros _. eapply noted_quiet; [exact Hq|].
      by apply (noted_one _ _ _ (Heap y)).
    + apply mret_val in H as [_ ->]. exists obj, (to_le_bytes usize a), []. split; [done|]. split; [eauto|].
      split; [done|]. by intros [? [=]].
  - destruct v as [| | | | | |q| | |]; try done.
    assert (Hgo : (let! old := peek (InHeap h off) 24 in let! m := gets id in
      let! (bs, st) := unwrap (PtrSerde.write q old (static_ids m)) in
      modify (fun m => set_static_ids m st) ;! poke (InHeap h off) bs ;!
      match o with Some _ => record_managed_ptr r th threshold arena q | None => mret tt end) m = (Val tt, m'))
      by (destruct (origin q); done || exact H). clear H.
    op_step Hgo. pose proof (peek_unchanged _ _ _ _ _ H) as ->. op_step Hgo. op_step Hgo. destruct a0 as [bs st].
    op_step Hgo. op_step Hgo. destruct a0. apply poke_written in H1 as (obj & Hh & Hw). simpl in Hh. exists obj, bs.
    assert (Hw' : written h off obj bs [] m m0) by (destruct Hw as [? ? ? ? ? ? [Ht Hf Hs]]; split; try done; by split).
    assert (Hbs : exists q' old st', SV.ManagedPtr q = SV.ManagedPtr q' /\ length old = 24%nat /\
      PtrSerde.write q' old (static_ids m) = Val (bs, st')).
    { exists q, a, st. split; [done|]. split; [|done]. unfold peek in H. op_step H. rewrite Hh in H.
      destruct (_ && _) eqn:Eb in H; [|done]. bool_to_prop. apply mret_val in H as [-> _].
      unfold slice. rewrite length_take, length_drop. lia. }
    destruct o as [o|]; [|apply mret_val in Hgo as [_ ->]; exists []; do 3 (split; [done|]); by intros [? [=]]].
    unfold record_managed_ptr in Hgo. destruct (Z.eqb_spec arena INVALID_ARENA) as [->|Hv].
    + apply mret_val in Hgo as [_ ->]. exists []. do 3 (split; [done|]). intros _ x.
      split; [by intros ?%elem_of_nil | by intros (og & _ & ?%entry_invalid)].
    + apply record_origin_spec in Hgo as (xs & Hq & Hin); [|done]. exists ([] ++ xs). split; [done|]. split; [done|].
      split; [by eapply written_quiet|]. intros _. eapply noted_quiet; [exact Hq|]. by apply (noted_one _ _ _ (origin q)).
Qed.

(** A slot of a struct that was just copied to the heap holds what it held. *)
Lemma copied_slot h off o obj xs m m' fs total al d hr k n :
  written h off o (take (Z.to_nat total) (data obj)) xs m m' ->
  fits (LField fs total al d hr) -> total <= Z.of_nat (length (data obj)) -> 0 <= k -> 0 <= n -> k + n <= total ->
  peek (E:=Empty_set) (at_offset (InHeap h off) k) n m' = (Val (slice (data obj) (Z.to_nat k) (Z.to_nat n)), m').
Proof.
  intros [Hoff Hl Hh _ _ _ _] Hf Ht Hk Hn Hkn. cbn [at_offset]. rewrite length_take in Hl.
  erewrite peek_heap; [|rewrite Hh; apply lookup_insert_eq|lia|lia|].
  - rewrite bytes_of_with, slice_splice_in by (rewrite ?length_take; lia). do 2 f_equal.
    replace (Z.to_nat (off + k) - Z.to_nat off)%nat with (Z.to_nat k) by lia. apply slice_take. lia.
  - rewrite bytes_of_with, length_splice by (rewrite ?length_take; lia). lia.
Qed.

Lemma struct_noted arena h off o obj xs ys m m' fs total al d hr slots :
  let l := LField fs total al d hr in
  written h off o (take (Z.to_nat total) (data obj)) ys m m' -> layout_ok l -> fits l ->
  total <= Z.of_nat (length (data obj)) -> record_refs_recursive l 0 = Val slots ->
  (forall x, x ∈ xs <-> exists s k og, (s, k) ∈ slots /\ slot_origin m' (InHeap h off) s k og /\ entry m' arena og x) ->
  noted arena (SV.ValueType obj) l xs m'.
Proof.
  intros l Hw Hl Hf Ht Hs Hx x. rewrite Hx. destruct (record_refs_recursive_exact _ 0 Hl Hf) as (slots' & Hs' & Hin).
  rewrite Hs in Hs'. injection Hs' as <-.
  assert (Hsz : size (E:=Empty_set) l = Val total) by done.
  assert (Hpk : forall s k, ref_at s l k -> is_ref s -> peek (E:=Empty_set) (at_offset (InHeap h off) k) (Scalars.size_const s) m' =
    (Val (slice (data obj) (Z.to_nat k) (Z.to_nat (Scalars.size_const s))), m')).
  { intros s k Hk Hr. pose proof (slot_within _ _ _ _ Hf Hk Hsz). pose proof (ref_size _ Hr).
    eapply copied_slot; eauto; lia. }
  assert (Hslot : forall s k, (s, k) ∈ slots <-> is_ref s /\ ref_at s l k).
  { intros s k. rewrite Hin. unfold recorded. simpl. split; [intros (? & k' & ? & ->); by rewrite Z.add_0_l | intros [? ?]; eauto]. }
  setoid_rewrite Hslot. split.
  - intros (s & k & og & [Hr Hk] & Hso & He). exists og. split; [|done]. pose proof (Hpk s k Hk Hr) as Hp.
    destruct Hr as [-> | ->]; [left | right]; destruct Hso as (bs & t & Hp' & Ht' & ->); pose proof (eq_trans (eq_sym Hp) Hp') as Heq;
      injection Heq as <-; eauto 6.
  - intros (og & [(k & t & Hk & -> & Ht') | (k & t & Hk & -> & Ht')] & He).
    + exists Scalars.ObjectRef, k, (Heap t). split; [by split; [left|]|]. split; [|done].
      eexists _, t. split; [by apply (Hpk Scalars.ObjectRef k Hk (or_introl eq_refl)) | done].
    + exists Scalars.ManagedPtr, k, (info_origin t). split; [by split; [right|]|]. split; [|done].
      eexists _, t. split; [by apply (Hpk Scalars.ManagedPtr k Hk (or_intror eq_refl)) | done].
Qed.

Lemma write_value_written arena h off o v l m m' :
  write_value arena (InHeap h off) o v l m = (Val tt, m') ->
  exists obj bs xs, heap m !! h = Some obj /\ value_bytes m v l bs /\ written h off obj bs xs m m' /\
    (is_Some o -> layout_ok l -> fits l -> noted arena v l xs m').
Proof.
  unfold Memory.write_value. intros H. op_step H. destruct (_ =? 0); [done|]. op_step H. destruct a.
  apply backward_barrier_quiet in H0. assert (Hsame : heap m0 = heap m /\ static_ids m0 = static_ids m) by by destruct H0.
  destruct Hsame as [Hh Hids]. destruct l as [fs total al d hr|e n|s]; cbn [value_bytes]; [|done|].
  - destruct v as [| | | | | | |obj| |]; try done. destruct (Z.leb_spec total (Z.of_nat (length (data obj)))); [|done].
    op_step H. destruct a. apply poke_written in H2 as (ho & Hho & Hw). exists ho, (take (Z.to_nat total) (data obj)).
    destruct o as [o|].
    + unfold record_refs_recursive_with_recorder in H. destruct (Z.eqb_spec arena INVALID_ARENA) as [->|Hv].
      { apply mret_val in H as [_ ->]. exists ([] ++ []). split; [congruence|]. split; [eauto|]. split; [by eapply quiet_written|].
        intros _ _ _ x. split; [by intros ?%elem_of_nil | by intros (og & _ & ?%entry_invalid)]. }
      op_step H. apply record_slots_spec in H as (xs & Hq & Hin). exists ([] ++ ([] ++ xs)). split; [congruence|]. split; [eauto|].
      split; [by eapply quiet_written, written_quiet|]. intros _ Hl Hf. eapply noted_quiet; [exact Hq|].
      eapply struct_noted; eauto.
    + apply mret_val in H as [_ ->]. exists ([] ++ []). split; [congruence|]. split; [eauto|].
      split; [by eapply quiet_written | by intros [? [=]]].
  - apply write_scalar_written in H as (obj & bs & xs & Hobj & Hbs & Hw & Hn). exists obj, bs, ([] ++ xs). split; [congruence|].
    split; [|split; [by eapply quiet_written | auto]]. unfold scalar_bytes, object_owner in *. by rewrite <- Hh, <- Hids.
Qed.

Lemma ptr_write_length q old st bs st' : PtrSerde.write q old st = Val (bs, st') -> length old = 24%nat -> length bs = 24%nat.
Proof.
  unfold PtrSerde.write. destruct (PtrSerde.serialize q st) as [[w0 w1] st1]. intros (out & Hw & [= <- _])%obind_val Hl.
  unfold PtrSerde.write_words in Hw. destruct (decide _); [done|].
  assert (Hv : forall a b : list Z, Val (E:=PtrSerde.PointerDeserializationError) a = Val b -> a = b) by congruence.
  apply Hv in Hw as <-. rewrite !length_app, !length_to_le_bytes, length_drop, Hl. done.
Qed.

Lemma value_bytes_length m v l bs : fits l -> value_bytes m v l bs -> size (E:=Empty_set) l = Val (Z.of_nat (length bs)).
Proof.
  intros Hf. destruct l as [fs total al d hr|e n|s]; cbn [value_bytes]; [|done|].
  - intros (obj & -> & Hl & ->). inversion Hf; subst. simpl. f_equal. rewrite length_take. int_bounds. lia.
  - destruct s; simpl; intros Hb; decompose [ex and or] Hb; subst; rewrite ?length_to_le_bytes; try done.
    by erewrite ptr_write_length.
Qed.

(** ** Where objects lie *)

Record object_placed (h : Z) (o : HeapObject) : Prop := {
  op_handle : PtrSerde.handle_ok h;
  op_owner : is_range U64 (ho_owner o);
  op_base : 0 < ho_base o;
  op_end : ho_base o + Z.of_nat (length (bytes_of o)) <= int_max usize;
  op_bytes : Forall byte_ok (bytes_of o);
}.

Definition mem_placed (m : mem) : Prop := forall h o, heap m !! h = Some o -> object_placed h o.

Definition owner_handle (o : MemoryOwner) : option Z :=
  match o with Local x => x | CrossArena c => Some (co_ptr c) end.

Lemma owner_object_val o m h obj m' :
  owner_object r th o m = (Val (h, obj), m') -> m' = m /\ owner_handle o = Some h /\ heap m !! h = Some obj.
Proof.
  unfold owner_object. intros H. op_step H.
  assert (m0 = m /\ owner_handle o = Some a) as [-> Ho].
  { destruct o as [[x|]|c]; simpl in *; [apply mret_val in H0 as [-> ->]; done | done|].
    destruct (try_acquire_lease_for_identity r th (co_identity c)); [|done]. apply mret_val in H0 as [-> ->]. done. }
  op_step H. destruct (heap m !! a) eqn:Ha; [|done]. apply mret_val in H as [[= -> ->] ->]. done.
Qed.

Lemma with_data_mut_val o m h obj m' :
  with_data_mut r th o m = (Val (h, obj), m') ->
  quiet [] m m' /\ owner_handle o = Some h /\ heap m !! h = Some obj /\ (forall x, o = Local x -> h ∈ barriers m').
Proof.
  unfold with_data_mut. intros H. op_step H. destruct a as [h' obj']. apply owner_object_val in H0 as (-> & Ho & Hh).
  destruct o as [x|c].
  - op_step H. apply mret_val in H as [[= -> ->] ->]. split; [auto with vm|]. split; [done|].
    split; [done|]. intros _ _. simpl. set_solver.
  - apply mret_val in H as [[= -> ->] ->]. split; [auto with vm|]. done.
Qed.

Lemma as_heap_storage_val o m s m' :
  as_heap_storage r th o m = (Val s, m') ->
  m' = m /\ exists h obj, owner_object r th o m = (Val (h, obj), m) /\ owner_handle o = Some h /\ heap m !! h = Some obj /\ s = ho_storage obj.
Proof.
  unfold as_heap_storage. intros H. op_step H. destruct a as [h obj]. pose proof H0 as Hown.
  apply owner_object_val in H0 as (-> & Ho & Hh). apply mret_val in H as [-> ->]. split; [done|]. by exists h, obj.
Qed.

Lemma get_layout_val o m dl m' :
  get_layout_from_owner r th o m = (Val dl, m') ->
  m' = m /\ exists h obj, owner_handle o = Some h /\ heap m !! h = Some obj /\ dl = storage_layout (ho_storage obj).
Proof.
  unfold get_layout_from_owner. intros H. op_step H. apply as_heap_storage_val in H0 as (-> & h & obj & _ & Ho & Hh & ->).
  apply mret_val in H as [-> ->]. split; [done|]. by exists h, obj.
Qed.

Lemma owner_object_again o m m1 h obj m' obj' :
  owner_object r th o m = (Val (h, obj), m1) -> heap m' !! h = Some obj' -> owner_object r th o m' = (Val (h, obj'), m').
Proof.
  intros H Hh'. pose proof (owner_object_val _ _ _ _ _ H) as (_ & Ho & _). unfold owner_object, mbind, gets, mret in *.
  destruct o as [[x|]|c]; simpl in *; [injection Ho as ->; by rewrite Hh' | done|]. injection Ho as ->.
  destruct (try_acquire_lease_for_identity r th (co_identity c)); [by rewrite Hh' | done].
Qed.

(** What it takes for a checked write to succeed, and what it then does. *)
Lemma write_to_heap_val o off v l m m' :
  write_to_heap o off v l m = (Val tt, m') -> mem_placed m -> is_range usize off -> fits l ->
  exists h obj bs xs, owner_object r th o m = (Val (h, obj), m) /\ heap m !! h = Some obj /\ value_bytes m v l bs /\
    size (E:=Empty_set) l = Val (Z.of_nat (length bs)) /\ written h off obj bs xs m m' /\
    (layout_ok l -> noted (owner_id m o) v l xs m') /\ (forall x, o = Local x -> h ∈ barriers m') /\
    (forall dl, storage_layout (ho_storage obj) = Some dl ->
       validate_ref_integrity dl 0 off (off + Z.of_nat (length bs)) l = Val tt).
Proof.
  intros H Hp Hoff Hf. unfold Memory.write_to_heap, write_heap_value_with_barrier in H.
  op_step H. apply as_heap_storage_val in H0 as (-> & h & obj & Hown & Ho & Hh & ->).
  op_step H. apply get_layout_val in H0 as (-> & h' & obj' & Ho' & Hh' & ->).
  rewrite Ho in Ho'. injection Ho' as <-. rewrite Hh in Hh'. injection Hh' as <-.
  op_step H. op_step H. destruct a as [h' obj']. apply with_data_mut_val in H0 as (Hq & Ho' & Hh' & Hbar).
  rewrite Ho in Ho'. injection Ho' as <-. rewrite Hh in Hh'. injection Hh' as <-.
  op_step H. rename H0 into Hsz. apply (size_any (F:=Empty_set)) in Hsz. op_step H. rename H0 into Hbounds. op_step H. rename H0 into Hint.
  apply write_value_written in H as (obj' & bs & xs & Hobj' & Hbs & Hw & Hn).
  rewrite (q_heap _ _ _ _ _ _ Hq), Hh in Hobj'. injection Hobj' as <-.
  assert (Hbs' : value_bytes m v l bs).
  { unfold value_bytes, scalar_bytes, object_owner in *. by rewrite <- (q_heap _ _ _ _ _ _ Hq), <- (q_ids _ _ _ _ _ _ Hq). }
  exists h, obj, bs, ([] ++ xs). pose proof (value_bytes_length _ _ _ _ Hf Hbs') as Hlen. rewrite Hlen in Hsz. injection Hsz as <-.
  split; [done|]. split; [done|]. split; [done|]. split; [done|]. split; [by eapply quiet_written|]. split; [eauto|].
  split; [intros x Hx; eapply w_barriers, Hbar; eauto|]. intros dl Hdl. destruct (Hp _ _ Hh) as [_ _ Hb He _].
  unfold check_integrity_internal_with_layout in Hint. destruct (Z.eqb_spec (ho_base obj) 0); [lia|]. cbn [negb] in Hint.
  rewrite Hdl, (size_any _ _ Hlen) in Hint. cbn [obind] in Hint.
  assert (Hwr : wrap usize (wrap usize (ho_base obj + off) - ho_base obj) = off).
  { pose proof (w_fits _ _ _ _ _ _ _ Hw). rewrite (wrap_id _ (ho_base obj + off)) by (int_bounds; lia).
    replace (ho_base obj + off - ho_base obj) with off by lia. by apply wrap_id. }
  rewrite Hwr in Hint. apply obind_val in Hint as (e & [-> _]%arith_val & Hint).
  match type of Hint with _ = Val ?u => by destruct u end.
Qed.

(** ** References stay whole *)

(** The 8 bytes are the storage word of a null or live reference. *)
Definition word_ok (m : mem) (bs : list Z) : Prop :=
  exists x, PtrSerde.try_from_storage_ptr r th (from_le_bytes usize bs) = Val x /\ forall h, x = Some h -> is_Some (heap m !! h).

(** An object is as long as its layout says. *)
Definition sized (o : HeapObject) : Prop :=
  forall dl, storage_layout (ho_storage o) = Some dl ->
    fits dl /\ size (E:=Empty_set) dl = Val (Z.of_nat (length (bytes_of o))).

Definition object_refs_ok (m : mem) (o : HeapObject) : Prop :=
  forall dl off, storage_layout (ho_storage o) = Some dl -> ref_at Scalars.ObjectRef dl off ->
    word_ok m (slice (bytes_of o) (Z.to_nat off) 8).

(** Every object is placed in memory, has the size of its layout, and holds null or live
    references wherever its layout says there is one. *)
Definition heap_ok (m : mem) : Prop :=
  mem_placed m /\ forall h o, heap m !! h = Some o -> sized o /\ object_refs_ok m o.

(** A value whose object references are null or live. *)
Definition value_refs_ok (m : mem) (v : StackValue) (l : LayoutManager) : Prop :=
  (forall h, v = SV.ObjectRef (Some h) -> is_Some (heap m !! h)) /\
  (forall obj, v = SV.ValueType obj ->
     Forall byte_ok (data obj) /\
     forall o, ref_at Scalars.ObjectRef l o -> word_ok m (slice (data obj) (Z.to_nat o) 8)).

Lemma object_word_ok m x w :
  mem_placed m -> (forall h, x = Some h -> is_Some (heap m !! h)) ->
  PtrSerde.try_to_storage_ptr r th (object_owner m) x = Val w ->
  is_range usize w /\ PtrSerde.try_from_storage_ptr r th w = Val x.
Proof.
  intros Hp Hx Hw.
  assert (Hh : forall h, x = Some h -> exists o, heap m !! h = Some o /\ object_placed h o).
  { intros h ->. destruct (Hx h eq_refl) as [o Ho]. exists o. split; [done|]. by apply Hp. }
  split.
  - unfold PtrSerde.try_to_storage_ptr in Hw. destruct x as [h|]; [|injection Hw as <-; by vm_compute].
    destruct (Hh h eq_refl) as (o & Ho & [[Hr Hm] Hown _ _ _]). assert (Hh8 : PtrSerde.handle_ok h) by by split.
    destruct (negb _); [|injection Hw as <-; int_bounds; lia].
    apply obind_val in Hw as (ow & Hc & Hw). apply obind_val in Hw as ([] & Ha & Hw).
    destruct (checked U16 _) as [ow'|] eqn:Eow in Hc; [|done]. injection Hc as <-. apply checked_some in Eow as [-> How].
    unfold PtrSerde.check_compact_address in Ha. destruct (_ || _ || _) eqn:Eb in Ha; [done|].
    apply orb_false_iff in Eb as [_ H48%Z.leb_gt]. destruct (try_acquire_lease _ _ _); [|done].
    injection Hw as <-. destruct (PtrSerde.tagged_handle _ Hh8) as (-> & _).
    assert (Hob : 0 <= object_owner m h < 2 ^ 16) by (int_bounds; lia).
    rewrite (PtrSerde.shl_field _ 48 16), lor_shiftl_add by (try lia; dlia). int_bounds. dlia.
  - eapply PtrSerde.object_ref_storage_roundtrip; [| |done].
    + intros h Hxh. by destruct (Hh h Hxh) as (o & _ & []).
    + intros h Hxh. destruct (Hh h Hxh) as (o & Ho & []). unfold object_owner. by rewrite Ho.
Qed.

(** The bytes of a value have a live reference wherever its layout does. *)
Lemma value_bytes_refs m v l bs o :
  mem_placed m -> fits l -> value_refs_ok m v l -> value_bytes m v l bs -> ref_at Scalars.ObjectRef l o ->
  word_ok m (slice bs (Z.to_nat o) 8).
Proof.
  intros Hp Hf (Href & Hval) Hbs Ho. pose proof (value_bytes_length _ _ _ _ Hf Hbs) as Hlen.
  pose proof (slot_within _ _ _ _ Hf Ho Hlen) as Hw. simpl in Hw. unfold Scalars.OBJECT_REF_SIZE in Hw.
  destruct l as [fs total al d hr|e n|s]; cbn [value_bytes] in Hbs; [|done|].
  - destruct Hbs as (obj & -> & Hl & ->). rewrite slice_take by (rewrite length_take in Hw; lia). by apply (Hval obj eq_refl).
  - inversion Ho; subst. destruct Hbs as (x & w & -> & Hx & ->). change (Z.to_nat 0) with 0%nat.
    change 8%nat with (length (to_le_bytes usize w)). rewrite slice_all.
    destruct (object_word_ok m x w) as [Hr Hd]; [done | intros h ->; by apply Href | done|].
    exists x. rewrite from_to_le_bytes by done. split; [done|]. intros h ->. by apply Href.
Qed.


Lemma ptr_write_bytes q old st bs st' :
  PtrSerde.write q old st = Val (bs, st') -> length old = 24%nat -> Forall byte_ok bs.
Proof.
  unfold PtrSerde.write. destruct (PtrSerde.serialize q st) as [[w0 w1] st1]. intros (out & Hw & [= <- _])%obind_val Hl.
  unfold PtrSerde.write_words in Hw. destruct (decide _); [done|].
  assert (Hv : forall a b : list Z, Val (E:=PtrSerde.PointerDeserializationError) a = Val b -> a = b) by congruence.
  apply Hv in Hw as <-. rewrite drop_ge by (change PtrSerde.SIZE with 24%nat; lia). repeat (apply Forall_app; split); try apply le_bytes_ok; constructor.
Qed.

Lemma value_bytes_ok m v l bs : value_refs_ok m v l -> value_bytes m v l bs -> Forall byte_ok bs.
Proof.
  intros (_ & Hval) Hbs. destruct l as [fs total al d hr|e n|s]; cbn [value_bytes] in Hbs; [|done|].
  - destruct Hbs as (obj & -> & _ & ->). apply Forall_take. by destruct (Hval obj eq_refl).
  - destruct s; cbn [scalar_bytes] in Hbs; decompose [ex and or] Hbs; subst; try apply le_bytes_ok.
    by eapply ptr_write_bytes.
Qed.

(** What a write leaves of the heap: all objects, at the same places. *)
Lemma written_lookup h off o bs xs m m' k :
  written h off o bs xs m m' -> heap m !! h = Some o -> is_Some (heap m' !! k) <-> is_Some (heap m !! k).
Proof.
  intros Hw Ho. rewrite (w_heap _ _ _ _ _ _ _ Hw). destruct (decide (h = k)) as [<-|]; [|by rewrite lookup_insert_ne].
  rewrite lookup_insert_eq, Ho. by split.
Qed.

Lemma word_ok_written h off o bs xs m m' w : written h off o bs xs m m' -> heap m !! h = Some o -> word_ok m w -> word_ok m' w.
Proof. intros Hw Ho (x & Hx & Hl). exists x. split; [done|]. intros k Hk. eapply written_lookup; eauto. Qed.

Lemma written_object h off o bs xs m m' :
  written h off o bs xs m m' -> heap_ok m -> heap m !! h = Some o -> Forall byte_ok bs ->
  object_placed h (with_payload o (splice (bytes_of o) (Z.to_nat off) bs)) /\
  sized (with_payload o (splice (bytes_of o) (Z.to_nat off) bs)).
Proof.
  intros Hw [Hp Hr] Ho Hb. destruct (Hp _ _ Ho) as [H1 H2 H3 H4 H5], (Hr _ _ Ho) as [Hs _], Hw.
  assert (Hlen : length (splice (bytes_of o) (Z.to_nat off) bs) = length (bytes_of o)) by (apply length_splice; lia). split.
  - split; try done; rewrite bytes_of_with; [by rewrite Hlen|]. unfold splice. apply Forall_app. split; [by apply Forall_take|].
    apply Forall_app. split; [done | by apply Forall_drop].
  - intros dl Hdl. rewrite bytes_of_with, Hlen. apply Hs. by rewrite <- Hdl; simpl; rewrite set_payload_layout.
Qed.

(** A slot of the object written to holds what it held, or a reference of the value. *)
Lemma written_slots o off v l bs m dl k :
  heap_ok m -> fits l -> value_refs_ok m v l -> ~ ref_at Scalars.ManagedPtr l (k - off) -> value_bytes m v l bs ->
  storage_layout (ho_storage o) = Some dl -> sized o -> object_refs_ok m o ->
  0 <= off -> off + Z.of_nat (length bs) <= Z.of_nat (length (bytes_of o)) ->
  Z.of_nat (length (bytes_of o)) <= int_max usize ->
  validate_ref_integrity dl 0 off (off + Z.of_nat (length bs)) l = Val tt -> ref_at Scalars.ObjectRef dl k ->
  word_ok m (slice (splice (bytes_of o) (Z.to_nat off) bs) (Z.to_nat k) 8).
Proof.
  intros Hok Hf Hv Hnm Hbs Hdl Hs Hr Hoff Hfit Hmax Hval Hk. destruct (Hs dl Hdl) as [Hfd Hsd].
  pose proof (slot_within _ _ _ _ Hfd Hk Hsd) as Hw. simpl in Hw. unfold Scalars.OBJECT_REF_SIZE in Hw.
  edestruct (validate_ref_integrity_decides l off (off + Z.of_nat (length bs)) Hf) as [[Hkept _] _];
    [lia | lia | exact Hfd | exact Hsd | apply Z.le_refl | lia |].
  specialize (Hkept Hval k (ex_intro _ _ (conj (or_introl eq_refl) Hk))). rewrite Z.add_0_l in Hkept. unfold kept in Hkept.
  destruct (decide (k < off + Z.of_nat (length bs) /\ off < k + 8)) as [[H1 H2]|Hout].
  - destruct (Hkept H1 H2) as (Hle & Hge & Hhas & _). rewrite slice_splice_in by lia.
    replace (Z.to_nat k - Z.to_nat off)%nat with (Z.to_nat (k - off)) by lia.
    apply has_ref_at_sound in Hhas as (s' & [-> | ->] & Hs'); [| done | done | lia].
    destruct Hok as [Hp _]. apply (value_bytes_refs m v l bs); done.
  - rewrite slice_splice_out by lia. by eapply Hr.
Qed.

(** ** Reading back *)

Definition coerced (v : StackValue) : StackValue :=
  match coerce_enum_to_underlying (E:=MemoryAccessError) is_enum v with Val v => v | _ => v end.

(** What a value written as an [l] is read as: narrowed to the width of a scalar, or cut to
    the size of a struct. *)
Definition loaded (td : TypeDescription) (arc : nat) (l : LayoutManager) (v : StackValue) : StackValue :=
  match l with
  | LScalar s =>
      match s, coerced v with
      | Scalars.Int8, SV.Int32 i => SV.Int32 (wrap I8 i)
      | Scalars.UInt8, SV.Int32 i => SV.Int32 (wrap U8 i)
      | Scalars.Int16, SV.Int32 i => SV.Int32 (wrap I16 i)
      | Scalars.UInt16, SV.Int32 i => SV.Int32 (wrap U16 i)
      | Scalars.NativeInt, SV.UnmanagedPtr p => SV.NativeInt (wrap isize p)
      | Scalars.Float32, SV.NativeFloat f => SV.NativeFloat (f32_to_f64 (f64_to_f32 f))
      | _, v => v
      end
  | LField _ total _ _ _ =>
      match v with
      | SV.ValueType obj =>
          SV.ValueType {| description := td; obj_generics := []; layout_arc := arc; data := take (Z.to_nat total) (data obj);
                          has_finalizer := false; finalizer_suppressed := false |}
      | v => v
      end
  | LArray _ _ => v
  end.

(** A value of its Rust type: integers in range, floats canonical, references live. *)
Definition loadable (m : mem) (l : LayoutManager) (v : StackValue) : Prop :=
  sv_ok (coerced v) /\ l <> LScalar Scalars.ManagedPtr /\
  (forall f, v = SV.NativeFloat f -> valid_binary 53 1024 f = true /\ valid_binary 24 128 (f64_to_f32 f) = true) /\
  (forall h, v = SV.ObjectRef (Some h) -> is_Some (heap m !! h)).

Lemma read_int_at p t m i : peek (E:=MemoryAccessError) p (bits t / 8) m = (Val (to_le_bytes t (wrap t i)), m) -> read_int p t m = (Val (wrap t i), m).
Proof. intros Hp. unfold read_int, mbind. rewrite Hp. unfold mret. by rewrite from_to_le_bytes by apply wrap_range. Qed.

Lemma read_scalar_at p m0 m v s bs td :
  (forall E, peek (E:=E) p (Z.of_nat (length bs)) m = (Val bs, m)) -> mem_placed m0 ->
  loadable m0 (LScalar s) v -> scalar_bytes m0 v s bs ->
  read_scalar r th p s td m = (Val (loaded NULL_TYPE 0 (LScalar s) v), m).
Proof.
  intros Hpeek Hp (Hok & Hnm & Hf & Hr) Hbs. unfold loaded, coerced in *.
  assert (Hgo : forall t i (k : Z -> StackValue), bs = to_le_bytes t (wrap t i) ->
    (let! x := read_int p t in mret (k x)) m = (Val (k (wrap t i)), m)).
  { intros t i k ->. rewrite length_to_le_bytes in *. unfold mbind. rewrite (read_int_at _ _ _ i); [done|].
    replace (bits t / 8) with (Z.of_nat (ity_bytes t)) by by destruct t. done. }
  destruct s; cbn [scalar_bytes read_scalar] in *.
  - destruct Hbs as (x & w & -> & Hw & ->). destruct (object_word_ok m0 x w) as [Hwr Hd]; [done | intros k ->; by apply Hr | done|].
    rewrite length_to_le_bytes in *. change (Z.of_nat (ity_bytes usize)) with 8 in *. unfold mbind at 1.
    rewrite Hpeek. unfold mbind, unwrap. rewrite from_to_le_bytes, Hd by done. done.
  - done.
  - destruct Hbs as (i & -> & ->). by rewrite (Hgo I8 i).
  - destruct Hbs as (i & -> & ->). by rewrite (Hgo U8 i).
  - destruct Hbs as (i & -> & ->). by rewrite (Hgo I16 i).
  - destruct Hbs as (i & -> & ->). by rewrite (Hgo U16 i).
  - destruct Hbs as (i & Hc & ->). rewrite Hc in *. rewrite (Hgo I32 i) by done. by rewrite wrap_id.
  - destruct Hbs as (i & Hc & ->). rewrite Hc in *. rewrite (Hgo I64 i) by done. by rewrite wrap_id.
  - destruct Hbs as (i & -> & Hc). rewrite (Hgo isize i) by done.
    destruct Hc as [Hc | (q & Hc & ->)]; rewrite Hc in *; [by rewrite wrap_id|]. by rewrite wrap_wrap.
  - destruct Hbs as (f & -> & ->). destruct (Hf f eq_refl) as [_ Hv]. rewrite (Hgo U32 _ (fun b => SV.NativeFloat (f32_to_f64 (f32_from_bits b)))) by done.
    destruct (float_bits_roundtrip 23 8 ltac:(lia) ltac:(lia) _ Hv) as [Hb Hrange].
    rewrite wrap_id by (unfold f32_to_bits; int_bounds; lia). unfold f32_from_bits, f32_to_bits. by rewrite Hb.
  - destruct Hbs as (f & -> & ->). destruct (Hf f eq_refl) as [Hv _]. rewrite (Hgo U64 _ (fun b => SV.NativeFloat (f64_from_bits b))) by done.
    destruct (float_bits_roundtrip 52 11 ltac:(lia) ltac:(lia) _ Hv) as [Hb Hrange].
    rewrite wrap_id by (unfold f64_to_bits; int_bounds; lia). unfold f64_from_bits, f64_to_bits. by rewrite Hb.
Qed.

Lemma read_scalar_back h off o m0 m v s bs td :
  heap m !! h = Some o -> 0 <= off -> off + Z.of_nat (length bs) <= Z.of_nat (length (bytes_of o)) ->
  slice (bytes_of o) (Z.to_nat off) (length bs) = bs -> mem_placed m0 ->
  loadable m0 (LScalar s) v -> scalar_bytes m0 v s bs ->
  read_scalar r th (InHeap h off) s td m = (Val (loaded NULL_TYPE 0 (LScalar s) v), m).
Proof.
  intros Hh Ho Hl Hs. apply read_scalar_at. intros E. rewrite (peek_heap _ _ _ _ o) by (done || lia). by rewrite Nat2Z.id, Hs.
Qed.

(** ** Theorems *)

(** C9. A checked write keeps the heap well formed: every place that a layout marks as an
    object reference still holds a null or live reference, never a part of one or plain
    data, and every object is as long as its layout says.  The object references in the value are null or
    live, and no managed pointer of the written layout falls on a place where the object
    has an object reference: the check takes the one for the other
    ([managed_pointer_over_reference]). *)
Theorem write_keeps_references o off v l m m' :
  heap_ok m -> is_range usize off -> fits l -> value_refs_ok m v l ->
  (forall h obj dl k, owner_handle o = Some h -> heap m !! h = Some obj -> storage_layout (ho_storage obj) = Some dl ->
     ref_at Scalars.ObjectRef dl k -> ~ ref_at Scalars.ManagedPtr l (k - off)) ->
  write_to_heap o off v l m = (Val tt, m') -> heap_ok m'.
Proof.
  intros Hok Hoff Hf Hv Hnm Hw.
  destruct (write_to_heap_val _ _ _ _ _ _ Hw (proj1 Hok) Hoff Hf) as (h & obj & bs & xs & Hown & Hh & Hbs & _ & Hwr & _ & _ & Hval).
  apply owner_object_val in Hown as (_ & Hown & _).
  destruct (written_object _ _ _ _ _ _ _ Hwr Hok Hh (value_bytes_ok _ _ _ _ Hv Hbs)) as [Hpl Hsz].
  assert (Hall : forall k x, heap m' !! k = Some x -> (k = h /\ x = with_payload obj (splice (bytes_of obj) (Z.to_nat off) bs)) \/
    (k <> h /\ heap m !! k = Some x)).
  { intros k x. rewrite (w_heap _ _ _ _ _ _ _ Hwr). destruct (decide (k = h)) as [->|Hne].
    - rewrite lookup_insert_eq. intros [= <-]. by left.
    - rewrite lookup_insert_ne by done. by right. }
  split; intros k x Hx; destruct (Hall k x Hx) as [[-> ->] | [Hne Hx']]; [done | by apply (proj1 Hok) | |].
  - split; [done|]. intros dl o' Hdl Ho'. eapply word_ok_written; [done | done|]. rewrite bytes_of_with.
    simpl in Hdl. rewrite set_payload_layout in Hdl. destruct (proj2 Hok _ _ Hh) as [Hs Hr]. destruct (proj1 Hok _ _ Hh).
    eapply written_slots; eauto using w_off, w_fits. lia.
  - destruct (proj2 Hok _ _ Hx') as [Hs Hr]. split; [done|]. intros dl o' Hdl Ho'. eapply word_ok_written; eauto.
Qed.

Lemma read_value_back h off o m0 m v l bs td :
  heap m !! h = Some o -> 0 < ho_base o -> ho_base o + Z.of_nat (length (bytes_of o)) <= int_max usize ->
  0 <= off -> off + Z.of_nat (length bs) <= Z.of_nat (length (bytes_of o)) ->
  slice (bytes_of o) (Z.to_nat off) (length bs) = bs -> mem_placed m0 -> fits l ->
  loadable m0 l v -> value_bytes m0 v l bs ->
  exists m', read_value r th (InHeap h off) l (Some td) m = (Val (loaded td (next_arc m) l v), m').
Proof.
  intros Hh Hb He Ho Hl Hs Hp Hf Hv Hbs. unfold read_value, mbind at 1, gets. cbn [id address_of]. rewrite Hh.
  rewrite wrap_id by (int_bounds; lia). destruct (Z.eqb_spec (ho_base o + off) 0); [lia|].
  destruct l as [fs total al d hr|e n'|s]; cbn [value_bytes] in Hbs; [|done|].
  - destruct Hbs as (obj & -> & Hle & ->). inversion Hf; subst. rewrite length_take in *.
    assert (Hmin : (Z.to_nat total `min` length (data obj))%nat = Z.to_nat total) by (int_bounds; lia). rewrite Hmin in *.
    unfold mbind. rewrite (peek_heap _ _ _ _ o) by (done || (int_bounds; lia)). rewrite Hs. eexists. reflexivity.
  - exists m. by rewrite (read_scalar_back h off o m0 m v s bs (Some td)).
Qed.

(** The check of a read of an [l] at [off] of the object. *)
Definition read_check (obj : HeapObject) (l : LayoutManager) (off : Z) : outcome MemoryAccessError unit :=
  match storage_layout (ho_storage obj) with
  | Some dl => check_read_safety l (Some dl) off
  | None => Val tt
  end.

(** C10. What is written to an object is read back: a number narrowed to the width of its
    field, a reference or a struct as it was, unless the check of a read (that every
    reference of the layout lies on a reference of the object) refuses, and then the
    read fails with the error of the check.  No other byte of the heap changes.  The
    layout is any but that of a bare managed pointer, which is read back with another
    type. *)
Theorem write_read_back o off v l m m' td :
  mem_placed m -> is_range usize off -> fits l -> loadable m l v ->
  write_to_heap o off v l m = (Val tt, m') ->
  exists h obj obj', owner_handle o = Some h /\ heap m !! h = Some obj /\ heap m' !! h = Some obj' /\
    match read_check obj l off with
    | Val _ => exists m'', read_unaligned r th (Some o) off l (Some td) m' = (Val (loaded td (next_arc m) l v), m'')
    | Err e => read_unaligned r th (Some o) off l (Some td) m' = (Err (Access e), m')
    | Panic => read_unaligned r th (Some o) off l (Some td) m' = (Panic, m')
    end /\
    (forall sz i, size (E:=Empty_set) l = Val sz -> Z.of_nat i < off \/ off + sz <= Z.of_nat i ->
       bytes_of obj' !! i = bytes_of obj !! i) /\
    (forall k, k <> h -> heap m' !! k = heap m !! k).
Proof.
  intros Hp Hoff Hf Hv Hw.
  destruct (write_to_heap_val _ _ _ _ _ _ Hw Hp Hoff Hf) as (h & obj & bs & xs & Hown & Hh & Hbs & Hsz & Hwr & _).
  pose proof (owner_object_val _ _ _ _ _ Hown) as (_ & Ho & _). destruct (Hp _ _ Hh) as [_ _ Hb He _].
  pose proof Hwr as [Hw0 Hw1 Hw2 _ Harc _ _]. set (obj' := with_payload obj (splice (bytes_of obj) (Z.to_nat off) bs)) in *.
  assert (Hh' : heap m' !! h = Some obj') by by rewrite Hw2, lookup_insert_eq.
  assert (Hlen : length (bytes_of obj') = length (bytes_of obj)) by (unfold obj'; rewrite bytes_of_with; apply length_splice; lia).
  destruct (read_value_back h off obj' m m' v l bs td) as [m'' Hread]; try done.
  { by rewrite Hlen. }
  { by rewrite Hlen. }
  { unfold obj'. rewrite bytes_of_with, slice_splice_in by lia. rewrite Nat.sub_diag. apply slice_all. }
  exists h, obj, obj'. split; [done|]. split; [done|]. split; [done|]. split; [|split].
  - assert (Hru : read_unaligned r th (Some o) off l (Some td) m' =
      mbind (lift (read_check obj l off)) (fun _ => read_value r th (InHeap h off) l (Some td)) m').
    { unfold read_unaligned, as_heap_storage, get_layout_from_owner, as_heap_storage, with_data, read_check.
      unfold mbind, mret. rewrite !(owner_object_again _ _ _ _ _ _ _ Hown Hh'). unfold lift. rewrite (size_any _ _ Hsz).
      change (payload (ho_storage obj')) with (bytes_of obj'). change (ho_base obj') with (ho_base obj). rewrite Hlen.
      rewrite check_bounds_spec by (done || lia). rewrite (proj2 (Z.leb_le _ _) Hw1).
      replace (storage_layout (ho_storage obj')) with (storage_layout (ho_storage obj)) by (symmetry; apply set_payload_layout).
      destruct (storage_layout (ho_storage obj)) as [dl|]; [by rewrite orb_true_r|].
      rewrite (check_read_safety_none l off _ Hf Hsz) by (int_bounds; lia). by destruct (negb _ || _). }
    rewrite Hru. unfold mbind, lift. destruct (read_check obj l off); [|done|done].
    exists m''. by rewrite <- Harc.
  - intros sz i Hsz' Hi. rewrite Hsz in Hsz'. injection Hsz' as <-. unfold obj'. rewrite bytes_of_with, splice_lookup by lia.
    case_decide; [done|]. case_decide; [lia | done].
  - intros k Hk. by rewrite Hw2, lookup_insert_ne.
Qed.

(** ** The write barrier *)


(** ** Bytes *)

(** Writing raw bytes changes exactly those bytes of the object, and the write barrier
    notes every reference to another arena that a slot of which a byte was written now
    holds. *)
Theorem write_bytes_exact o off bs m m' :
  mem_placed m -> is_range usize off -> write_bytes r th threshold (Some o) off bs m = (Val tt, m') ->
  exists h obj xs, owner_handle o = Some h /\ heap m !! h = Some obj /\ written h off obj bs xs m m' /\
    forall dl s k og x, storage_layout (ho_storage obj) = Some dl -> fits dl -> is_ref s ->
      ref_at s dl k -> touched off (off + Z.of_nat (length bs)) s k ->
      slot_origin m' (InHeap h 0) s k og -> entry m' (owner_id m o) og x -> x ∈ xs.
Proof.
  intros Hp Hoff H. unfold write_bytes in H.
  op_step H. apply as_heap_storage_val in H0 as (-> & h & obj & Hown & Ho & Hh & ->).
  op_step H. apply get_layout_val in H0 as (-> & h' & obj1 & Ho1 & Hh1 & ->).
  rewrite Ho in Ho1. injection Ho1 as <-. rewrite Hh in Hh1. injection Hh1 as <-.
  op_step H. op_step H. destruct a as [h' obj1]. apply with_data_mut_val in H0 as (Hq & Ho1 & Hh1 & _).
  rewrite Ho in Ho1. injection Ho1 as <-. rewrite Hh in Hh1. injection Hh1 as <-.
  op_step H. op_step H. destruct a0. apply poke_written in H1 as (obj1 & Hh1 & Hw).
  rewrite (q_heap _ _ _ _ _ _ Hq), Hh in Hh1. injection Hh1 as <-.
  assert (Hw' : written h off obj bs ([] ++ []) m m1) by by eapply quiet_written.
  destruct (storage_layout (ho_storage obj)) as [dl|] eqn:Hdl;
    [|apply mret_val in H as [_ ->]; exists h, obj, ([] ++ []); do 3 (split; [done|]); congruence].
  op_step H. apply arith_val in H1 as [-> Hr]. unfold record_refs_in_range_with_recorder in H. op_step H.
  apply record_slots_spec in H as (xs & Hq' & Hrec). exists h, obj, (([] ++ []) ++ xs).
  split; [done|]. split; [done|]. split; [by eapply written_quiet|].
  intros dl' s k og x Hdl' Hfd Hs Hk Hto Hso He. rewrite Hdl in Hdl'. injection Hdl' as <-.
  destruct (record_refs_in_range_scans dl Hfd 0 off _ ltac:(int_bounds; lia) Hr) as (slots & Hsl & _ & Hin). rewrite H1 in Hsl. injection Hsl as ->.
  pose proof Hq' as [Hqh Hqr Hqi _ _ _]. apply Hrec. exists s, k, og.
  split; [by apply (Hin _ _ Hs Hk Hto)|]. split; [by apply (slot_origin_same m1 m') | by apply (entry_heap m1 m')].
Qed.

(** Where the other accesses report a bounds error, reading bytes at an offset whose end
    overflows panics. *)
Lemma read_bytes_overflow o off n m h obj bs :
  owner_object r th o m = (Val (h, obj), m) -> object_placed h obj -> is_range usize off -> 0 <= n ->
  int_max usize < off + n -> Z.of_nat (length bs) = n ->
  read_bytes r th (Some o) off n m = (Panic, m) /\
  exists m', write_bytes r th threshold (Some o) off bs m =
    (Err (Access (BoundsCheck off n (Z.of_nat (length (bytes_of obj))))), m').
Proof.
  intros Hown [_ _ Hb He _] Hoff Hn Hov Hbs. split.
  - unfold read_bytes, with_data, mbind. rewrite Hown. unfold lift, arith.
    assert (in_range usize (off + n) = false) as -> by (apply in_range_false; unfold is_range; lia). done.
  - destruct (with_data_mut r th o m) as [x m1] eqn:Ew. exists m1.
    unfold write_bytes, as_heap_storage, get_layout_from_owner, as_heap_storage, mbind, mret, gets. rewrite !Hown, Ew.
    unfold with_data_mut, mbind, modify, mret in Ew. rewrite Hown in Ew. fold (bytes_of obj).
    destruct o; injection Ew as <- <-; unfold lift; fold (bytes_of obj);
      rewrite check_bounds_spec, Hbs by (done || lia); (destruct (Z.leb_spec (off + n) (Z.of_nat (length (bytes_of obj)))); [lia | done]).
Qed.


(** ** Atomic operations *)

Inductive atomic_update : Set := UExchange (v : Z) | UAdd (v : Z) | UCompareExchange (expected new : Z).

(** The value an update leaves in a slot of type [t] that holds [old], if it writes. *)
Definition updated (u : atomic_update) (t : ity) (old : Z) : option Z :=
  match u with
  | UExchange v => Some (wrap t v)
  | UAdd v => Some (wrap t (old + v))
  | UCompareExchange expected new => if old =? wrap t expected then Some (wrap t new) else None
  end.

Definition run_update (u : atomic_update) (o : option MemoryOwner) (off sz : Z) (failure : Ordering) : op CompareExchangeError Z :=
  match u with
  | UExchange v => mmap_err Bounds (exchange_atomic r th o off v sz)
  | UAdd v => mmap_err Bounds (exchange_add_atomic r th o off v sz)
  | UCompareExchange expected new => compare_exchange_atomic r th o off expected new sz failure
  end.

Definition run_sized (u : atomic_update) (p : place) (sz : Z) (failure : Ordering) : op CompareExchangeError Z :=
  match u with
  | UExchange v => exchange_atomic_sized p sz v
  | UAdd v => exchange_add_atomic_sized p sz v
  | UCompareExchange expected new => compare_exchange_atomic_sized p sz expected new failure
  end.

Lemma atomic_width_bits sz t : atomic_width sz = Some t -> sz = bits t / 8 /\ signed t = false.
Proof.
  unfold atomic_width. intros H. destruct (Z.eqb_spec sz 1) as [->|]; [by injection H as <-|].
  destruct (Z.eqb_spec sz 2) as [->|]; [by injection H as <-|]. destruct (Z.eqb_spec sz 4) as [->|]; [by injection H as <-|].
  destruct (Z.eqb_spec sz 8) as [->|]; [by injection H as <-|done].
Qed.

Lemma aligned_mod a sz t : atomic_width sz = Some t -> is_ptr_aligned_to_field a sz = (a mod sz =? 0).
Proof.
  intros H%atomic_width_bits. unfold is_ptr_aligned_to_field. destruct (Z.eqb_spec sz 1) as [->|]; [by rewrite Z.mod_1_r|].
  destruct (Z.eqb_spec sz 0); [|done]. destruct H as [-> _]. by destruct t.
Qed.

Lemma wrap_add_wrap t x y : wrap t (x + wrap t y) = wrap t (x + y).
Proof.
  apply wrap_eq_iff. rewrite <- Zplus_mod_idemp_r, wrap_mod, Zplus_mod_idemp_r. done.
Qed.

(** The [_sized] operations on a slot within an object. *)
Lemma run_sized_exact u h off sz t failure m o :
  heap m !! h = Some o -> 0 <= off -> off + sz <= Z.of_nat (length (bytes_of o)) -> atomic_width sz = Some t ->
  ordering_ok failure true = true ->
  run_sized u (InHeap h off) sz failure m =
    let old := from_le_bytes t (slice (bytes_of o) (Z.to_nat off) (Z.to_nat sz)) in
    match updated u t old with
    | Some new => (Val old, set_heap m (<[h := with_payload o (splice (bytes_of o) (Z.to_nat off) (to_le_bytes t new))]> (heap m)))
    | None => (Err (Access (Mismatch old)), m)
    end.
Proof.
  intros Hh Ho Hl Ht Hf. destruct (atomic_width_bits _ _ Ht) as [-> Hs]. cbv zeta.
  set (old := from_le_bytes t _). assert (Hb : 0 <= bits t / 8) by by destruct t.
  assert (Hpeek : forall E, peek_word (E:=E) (InHeap h off) t m = (Val old, m)).
  { intros E. unfold peek_word, mbind. rewrite (peek_heap _ _ _ _ o) by done. done. }
  assert (Hpoke : forall E v, poke_word (E:=E) (InHeap h off) t v m =
    (Val tt, set_heap m (<[h := with_payload o (splice (bytes_of o) (Z.to_nat off) (to_le_bytes t (wrap t v)))]> (heap m)))).
  { intros E v. unfold poke_word, poke, mbind, gets. cbn [id]. rewrite Hh. fold (bytes_of o). rewrite length_to_le_bytes.
    replace (Z.of_nat (ity_bytes t)) with (bits t / 8) by by destruct t.
    by rewrite (proj2 (Z.leb_le 0 off)), (proj2 (Z.leb_le _ _) Hl) by done. }
  destruct u as [v|v|expected new]; cbn [run_sized updated].
  - unfold exchange_atomic_sized. rewrite Ht. unfold mbind. by rewrite Hpeek, Hpoke.
  - unfold exchange_add_atomic_sized. rewrite Ht. unfold mbind. by rewrite Hpeek, Hpoke, wrap_add_wrap.
  - unfold compare_exchange_atomic_sized. rewrite Ht, Hf. cbn [negb]. unfold mbind. rewrite Hpeek.
    destruct (old =? wrap t expected); [by rewrite Hpoke | done].
Qed.

Definition slot_error (obj : HeapObject) (off sz : Z) : option MemoryAccessError :=
  if off + sz <=? Z.of_nat (length (bytes_of obj)) then
    if (ho_base obj + off) mod sz =? 0 then None else Some (UnalignedAccess (ho_base obj + off))
  else Some (BoundsCheck off sz (Z.of_nat (length (bytes_of obj)))).

(** The checks before an atomic update either refuse it or hand on the slot. *)
Lemma checked_slot o off sz t m h obj :
  owner_object r th o m = (Val (h, obj), m) -> object_placed h obj -> is_range usize off -> atomic_width sz = Some t ->
  exists m1, quiet [] m m1 /\ heap m1 !! h = Some obj /\
    (let! p := owner_slot (with_data_mut r th) o off sz in check_aligned p sz ;! mret p) m =
      (match slot_error obj off sz with Some e => Err (Access e) | None => Val (InHeap h off) end, m1).
Proof.
  intros Hown [_ _ Hb He _] Hoff Ht. pose proof (atomic_width_bits _ _ Ht) as [Hsz _].
  assert (0 <= sz) by (rewrite Hsz; by destruct t).
  destruct (with_data_mut r th o m) as [x m1] eqn:Ew.
  assert (x = Val (h, obj)) as ->.
  { unfold with_data_mut, mbind in Ew. rewrite Hown in Ew. by destruct o; injection Ew as <- _. }
  destruct (with_data_mut_val _ _ _ _ _ Ew) as (Hq & _ & Hh & _). exists m1. split; [done|].
  rewrite (q_heap _ _ _ _ _ _ Hq). split; [done|]. unfold owner_slot, mbind at 1 2. rewrite Ew. unfold mbind, lift, slot_error.
  fold (bytes_of obj). rewrite check_bounds_spec by (done || lia). destruct (Z.leb_spec (off + sz) (Z.of_nat (length (bytes_of obj)))) as [Hl|]; [|done].
  cbn [mret]. unfold check_aligned, mbind, gets. cbn [id address_of]. rewrite (q_heap _ _ _ _ _ _ Hq), Hh.
  rewrite wrap_id by (int_bounds; lia). rewrite (aligned_mod _ _ _ Ht). by destruct (_ =? 0).
Qed.

(** What an update does after it has stored: all but the addition note a local object. *)
Definition stored (u : atomic_update) (o : MemoryOwner) (m : mem) : mem :=
  match u, o with
  | UAdd _, _ | _, CrossArena _ | _, Local None => m
  | _, Local (Some h) => add_barrier m h
  end.

Lemma stored_heap u o m : heap (stored u o m) = heap m.
Proof. by destruct u, o as [[]|]. Qed.

(** An exchange fails only by undefined behaviour, which no error type changes. *)
Lemma exchange_any {E F} (g : E -> F) p sz v m :
  mmap_err g (exchange_atomic_sized p sz v) m = exchange_atomic_sized p sz v m /\
  mmap_err g (exchange_add_atomic_sized p sz v) m = exchange_add_atomic_sized p sz v m.
Proof.
  unfold exchange_atomic_sized, exchange_add_atomic_sized, mmap_err, poke_word, peek_word, mbind, peek, poke, gets, mbind, modify, mret, undefined.
  cbn [id]. split; (destruct (atomic_width sz); [|done]); destruct p; repeat (case_match; simplify_eq; try done).
Qed.

Lemma run_update_slot u o off sz failure m x m1 :
  (let! p := owner_slot (with_data_mut r th) o off sz in check_aligned p sz ;! mret p) m = (x, m1) ->
  run_update u (Some o) off sz failure m =
    match x with
    | Val p => match run_sized u p sz failure m1 with (Val y, m2) => (Val y, stored u o m2) | z => z end
    | Err (Access e) => (Err (Access (Bounds e)), m1)
    | Err Undefined => (Err Undefined, m1)
    | Panic => (Panic, m1)
    end.
Proof.
  intros H.
  assert (Hb : forall E (y : Z) m2, (backward_barrier_for_heap_atomic_write (E:=E) (Some o) ;! mret y) m2 =
    (Val y, match o with Local (Some h) => add_barrier m2 h | _ => m2 end)) by (intros; by destruct o as [[]|]).
  destruct u as [v|v|expected new]; cbn [run_update run_sized].
  - unfold exchange_atomic, mmap_err in *. unfold mbind in H. unfold mbind at 1.
    destruct (owner_slot _ _ _ _ m) as [[p|[]|] m0]; [|by injection H as <- <-..]. unfold mbind at 1.
    destruct (check_aligned p sz m0) as [[[]|[]|] m2]; [|by injection H as <- <-..]. injection H as <- <-. unfold mbind at 1.
    rewrite <- (proj1 (exchange_any Bounds p sz v m2)). unfold mmap_err.
    destruct (exchange_atomic_sized p sz v m2) as [[y|[]|] m3]; [|done..]. rewrite Hb. by destruct o as [[]|].
  - unfold exchange_add_atomic, mmap_err in *. unfold mbind in H. unfold mbind at 1.
    destruct (owner_slot _ _ _ _ m) as [[p|[]|] m0]; [|by injection H as <- <-..]. unfold mbind at 1.
    destruct (check_aligned p sz m0) as [[[]|[]|] m2]; [|by injection H as <- <-..]. injection H as <- <-.
    rewrite <- (proj2 (exchange_any Bounds p sz v m2)). unfold mmap_err.
    by destruct (exchange_add_atomic_sized p sz v m2) as [[y|[]|] m3].
  - unfold compare_exchange_atomic, mmap_err. unfold mbind at 1. rewrite H. destruct x as [p|[]|]; [|done..]. unfold mbind at 1.
    destruct (compare_exchange_atomic_sized p sz expected new failure m1) as [[y|[]|] m3]; [|done..]. rewrite Hb. by destruct o as [[]|].
Qed.

(** An atomic update of an object is refused out of its bounds or off its alignment,
    and a comparison that fails changes nothing; otherwise it returns what the slot held
    and stores the new value, wrapped to the width of the slot, there and nowhere else. *)
Theorem atomic_update_exact u o off sz t failure m h obj :
  owner_object r th o m = (Val (h, obj), m) -> object_placed h obj -> is_range usize off -> atomic_width sz = Some t ->
  ordering_ok failure true = true ->
  let old := from_le_bytes t (slice (bytes_of obj) (Z.to_nat off) (Z.to_nat sz)) in
  let '(result, m') := run_update u (Some o) off sz failure m in
  match slot_error obj off sz, updated u t old with
  | Some e, _ => result = Err (Access (Bounds e)) /\ heap m' = heap m
  | None, None => result = Err (Access (Mismatch old)) /\ heap m' = heap m
  | None, Some new => result = Val old /\
      heap m' = <[h := with_payload obj (splice (bytes_of obj) (Z.to_nat off) (to_le_bytes t new))]> (heap m)
  end.
Proof.
  intros Hown Hpl Hoff Ht Hf old.
  destruct (checked_slot o off sz t m h obj Hown Hpl Hoff Ht) as (m1 & Hq & Hh & Hslot).
  rewrite <- (q_heap _ _ _ _ _ _ Hq). rewrite (run_update_slot u o off sz failure m _ _ Hslot).
  destruct (slot_error obj off sz) eqn:Es; [done|].
  rewrite (run_sized_exact u h off sz t failure m1 obj) by (done || (unfold slot_error in Es; crush_match; int_bounds; lia)).
  cbv zeta. fold old. destruct (updated u t old); [|done]. by rewrite stored_heap.
Qed.

End safety.

(** ** Instances *)

(** An array of two references in arena 3 and a string in arena 7, which is registered. *)
Definition demo_array : HeapObject := {| ho_owner := 3; ho_base := 1000; ho_storage := HVec (LScalar Scalars.ObjectRef) 2 (replicate 16 0) |}.
Definition demo_string : HeapObject := {| ho_owner := 7; ho_base := 2000; ho_storage := HStr [104; 105] |}.

Definition demo_mem : mem :=
  {| heap := <[64 := demo_array]> {[128 := demo_string]}; raw := ∅; static_ids := PtrSerde.reset_static_registry; wb_buffer := []; found_refs := [];
     is_tracing := false; barriers := []; next_arc := 0 |}.

Definition demo_run {A E} (x : op E A) : mem := snd (x demo_mem).

Definition demo_write : op MemoryAccessError unit :=
  write_to_heap (reg run_s2) 2 (fun _ => None) 4 (Local (Some 64)) 8 (SV.ObjectRef (Some 128)) (LScalar Scalars.ObjectRef).

Lemma demo_objects h o : heap demo_mem !! h = Some o -> h = 64 /\ o = demo_array \/ h = 128 /\ o = demo_string.
Proof.
  simpl. destruct (decide (h = 64)) as [->|]; [rewrite lookup_insert_eq; intros [= <-]; by left|].
  rewrite lookup_insert_ne by done. intros [<- <-]%lookup_singleton_Some. by right.
Qed.

Lemma demo_placed : mem_placed demo_mem.
Proof.
  intros h o [[-> ->] | [-> ->]]%demo_objects; (split; [repeat split; by vm_compute | split; by vm_compute | done | by vm_compute |]);
    unfold bytes_of; simpl; repeat constructor; unfold byte_ok; lia.
Qed.

Lemma demo_array_fits : fits (LArray (LScalar Scalars.ObjectRef) 2).
Proof. by apply (fits_array _ _ 16); [constructor | | vm_compute]. Qed.

Lemma demo_ok : heap_ok (reg run_s2) 2 demo_mem.
Proof.
  split; [apply demo_placed|]. intros h o [[-> ->] | [-> ->]]%demo_objects.
  - split; [intros dl [= <-]; split; [apply demo_array_fits | by vm_compute]|].
    intros dl off [= <-] Hr. inversion Hr as [| |? ? i ? sz Hi Hs H0]; subst. inversion H0; subst. injection Hs as <-.
    exists None. split; [|done]. assert (i = 0 \/ i = 1) as [-> | ->] by lia; by vm_compute.
  - split; [intros dl [=] | intros dl off [=]].
Qed.

Lemma demo_value_ok : value_refs_ok (reg run_s2) 2 demo_mem (SV.ObjectRef (Some 128)) (LScalar Scalars.ObjectRef).
Proof.
  split; [|done]. intros h [= <-]. by exists demo_string.
Qed.

Lemma write_keeps_references_witness : heap_ok (reg run_s2) 2 (demo_run demo_write).
Proof.
  apply (write_keeps_references (reg run_s2) 2 (fun _ => None) 4 (Local (Some 64)) 8 (SV.ObjectRef (Some 128))
    (LScalar Scalars.ObjectRef) demo_mem); [apply demo_ok | by vm_compute | constructor | apply demo_value_ok | |].
  - intros h obj dl k _ _ _ _ Hr. inversion Hr.
  - by vm_compute.
Defined.

Lemma write_read_back_witness : exists m'',
  read_unaligned (reg run_s2) 2 (Some (Local (Some 64))) 8 (LScalar Scalars.ObjectRef) (Some NULL_TYPE) (demo_run demo_write) =
    (Val (SV.ObjectRef (Some 128)), m'').
Proof.
  destruct (write_read_back (reg run_s2) 2 (fun _ => None) 4 (Local (Some 64)) 8 (SV.ObjectRef (Some 128))
    (LScalar Scalars.ObjectRef) demo_mem (demo_run demo_write) NULL_TYPE) as (h & obj & obj' & Ho & Hobj & _ & Hr & _);
    [apply demo_placed | by vm_compute | constructor | | by vm_compute |].
  - split; [done|]. split; [done|]. split; [done|]. intros h [= <-]. by exists demo_string.
  - injection Ho as <-. apply demo_objects in Hobj as [[_ ->] | [[=] _]].
    change (read_check demo_array (LScalar Scalars.ObjectRef) 8) with (Val (E:=MemoryAccessError) tt) in Hr. exact Hr.
Defined.


(** A reference and sixteen bytes of plain data. *)
Definition demo_layout : LayoutManager :=
  LField [({| owner := NULL_TYPE; name := "next" |}, (0, LScalar Scalars.ObjectRef))] 24 8
    {| bitmap := [1]; unaligned_offsets := [] |} true.

Definition demo_object : HeapObject := {| ho_owner := 3; ho_base := 1000; ho_storage := HObj demo_layout (replicate 24 0) |}.

Definition demo_object_mem : mem := set_heap demo_mem (<[64 := demo_object]> {[128 := demo_string]}).

Definition demo_pointer : ManagedPtr.ManagedPtr :=
  {| value := Some 2000; origin := CrossArenaObjectRef {| co_identity := {| arena_id := 7; generation := 0 |}; co_ptr := 128; co_token := 0 |};
     inner_type := NULL_TYPE; offset := 0; flags := 0 |}.

(** A managed pointer into the string of the other arena, written over that reference: the check passes, and
    the slot holds no reference any more. *)
Lemma managed_pointer_over_reference :
  exists m', write_to_heap (reg run_s2) 2 (fun _ => None) 4 (Local (Some 64)) 0 (SV.ManagedPtr demo_pointer)
      (LScalar Scalars.ManagedPtr) demo_object_mem = (Val tt, m') /\
    ~ heap_ok (reg run_s2) 2 m'.
Proof.
  destruct (write_to_heap _ _ _ _ _ _ _ _ demo_object_mem) as [x m'] eqn:E. exists m'.
  assert (x = Val tt) as -> by (apply (f_equal fst) in E; symmetry; by vm_compute in E). split; [done|].
  intros [_ Hr]. apply (f_equal snd) in E. cbn [snd] in E. subst m'.
  destruct (Hr 64 (with_payload demo_object (to_le_bytes usize 133 ++ to_le_bytes usize 0 ++ to_le_bytes usize 133))) as [_ Hrefs];
    [by vm_compute|].
  destruct (Hrefs demo_layout 0) as (y & Hy & _); [done | | by vm_compute in Hy].
  apply (ref_field _ _ _ _ _ _ {| owner := NULL_TYPE; name := "next" |} 0 (LScalar Scalars.ObjectRef) 0); [by left | constructor].
Qed.

(** The word of a reference to the string, copied as bytes. *)
Definition demo_copy : op MemoryAccessError unit := write_bytes (reg run_s2) 2 4 (Some (Local (Some 64))) 8 (to_le_bytes usize 128).

Lemma write_bytes_exact_witness :
  exists obj xs, {| identity := {| arena_id := 7; generation := 0 |}; ref_ptr := 128 |} ∈ xs /\
    written (reg run_s2) 2 4 64 8 obj (to_le_bytes usize 128) xs demo_mem (demo_run demo_copy).
Proof.
  destruct (write_bytes_exact (reg run_s2) 2 4 (Local (Some 64)) 8 (to_le_bytes usize 128) demo_mem (demo_run demo_copy))
    as (h & obj & xs & Hh & Hobj & Hw & Hn); [apply demo_placed | by vm_compute | by vm_compute |].
  injection Hh as <-. exists obj, xs. split; [|exact Hw]. apply demo_objects in Hobj as [[_ ->] | [[=] _]].
  eapply (Hn _ Scalars.ObjectRef 8 (Heap (Some 128))); [reflexivity | apply demo_array_fits | by left |
    apply (ref_array _ _ _ 1 0 8); [done | done | constructor] | by vm_compute | |].
  - eexists _, (Some 128). split; [by vm_compute|]. by split; [vm_compute|].
  - split; [done|]. split; [done|]. eexists demo_string, _, _. split; [done|]. split; [done|]. by split.
Defined.

Lemma atomic_update_exact_witness :
  heap (demo_run (run_update (reg run_s2) 2 (UAdd (-1)) (Some (Local (Some 64))) 8 4 SeqCst)) !! 64 =
    Some (with_payload demo_array (replicate 8 0 ++ replicate 4 255 ++ replicate 4 0)).
Proof.
  pose proof (atomic_update_exact (reg run_s2) 2 4 (UAdd (-1)) (Local (Some 64)) 8 4 U32 SeqCst demo_mem 64 demo_array
    eq_refl (demo_placed 64 demo_array eq_refl) ltac:(by vm_compute) eq_refl eq_refl) as H.
  unfold demo_run. destruct (run_update _ _ _ _ _ _ _ demo_mem) as [x m']. apply proj2 in H. cbn [snd]. rewrite H. by vm_compute.
Defined.

