(* ===== verification/RawOps.v ===== *)
(** * Access through pointers

    The raw memory operations of the interpreter
    ([dotnet-vm/src/stack/raw_memory_ops_impl/mod.rs]): an access at an offset from the
    origin of a managed pointer goes to the heap, to another arena, to static storage, to
    the home of a variable or to a raw address.

    Static storage, transient objects and frame homes lie at stable addresses, so their
    bytes are those of the raw memory of [Memory].  The count of active borrows, which
    every operation raises and lowers, is not modelled. *)

From Stdlib Require Import ZArith Lia.
From stdpp Require Import base tactics list option strings gmap.
From S2P Require Import Prelude Generics Bytes Floats Marking ManagedPtr ArenaRegistry PtrSerde StackValue Ops Instructions FrameAlloc Layout FrameHomes VmData HomeBuild Interp Exceptions MemoryChecks Memory MemorySafety.

Import Registry.

Local Open Scope vm_scope.

(** ** State *)

(** A thread: its interpreter, the memory it sees, and its allocation gauges.  Static
    storage is a block, by address and length. *)
Record vm : Type := {
  context : ctx;
  memory : mem;
  thread_gauges : RawBlocks.gauges;
  static_storage : gmap StaticMetadata (Z * Z);
}.

Definition set_context (v : vm) (c : ctx) : vm :=
  {| context := c; memory := memory v; thread_gauges := thread_gauges v; static_storage := static_storage v |}.
Definition set_memory (v : vm) (m : mem) : vm :=
  {| context := context v; memory := m; thread_gauges := thread_gauges v; static_storage := static_storage v |}.
Definition set_gauges (v : vm) (g : RawBlocks.gauges) : vm :=
  {| context := context v; memory := memory v; thread_gauges := g; static_storage := static_storage v |}.

(** An action of the thread; as an operation on memory, it may have changed the state
    also when it fails. *)
Definition act (E A : Type) : Type := vm -> outcome (fault E) A * vm.

Definition aret {E A} (a : A) : act E A := fun v => (Val a, v).
Definition abind {E A B} (x : act E A) (f : A -> act E B) : act E B := fun v =>
  match x v with
  | (Val a, v) => f a v
  | (Err e, v) => (Err e, v)
  | (Panic, v) => (Panic, v)
  end.
Definition alift {E A} (x : outcome E A) : act E A := fun v =>
  (match x with Val a => Val a | Err e => Err (Access e) | Panic => Panic end, v).
Definition afail {E A} (e : E) : act E A := fun v => (Err (Access e), v).
Definition apanic {E A} : act E A := fun v => (Panic, v).
Definition aundefined {E A} : act E A := fun v => (Err Undefined, v).
Definition agets {E A} (f : vm -> A) : act E A := fun v => (Val (f v), v).
Definition amodify {E} (f : vm -> vm) : act E unit := fun v => (Val tt, f v).
Definition on_memory {E A} (x : op E A) : act E A := fun v => let '(a, m) := x (memory v) in (a, set_memory v m).

(** [map_err] *)
Definition amap_err {E F A} (g : E -> F) (x : act E A) : act F A := fun v =>
  match x v with
  | (Val a, v) => (Val a, v)
  | (Err (Access e), v) => (Err (Access (g e)), v)
  | (Err Undefined, v) => (Err Undefined, v)
  | (Panic, v) => (Panic, v)
  end.

Notation "'let^' x ':=' m 'in' k" := (abind m (fun x => k))
  (at level 10, x pattern, m at level 100, k at level 200) : vm_scope.
Notation "m ';^' k" := (abind m (fun _ => k)) (at level 100, right associativity) : vm_scope.

Section raw_ops.

Variable r : ArenaRegistry.
Variable th : nat.
Variable is_enum : TypeDescription -> option MemberType.
Variable threshold : nat.
(** Where the storage of a transient object lies; the object names it. *)
Variable transient_base : Object -> Z.

(** ** Where an origin leads *)

(** [StaticStorageManager::get]: storage that was not made panics. *)
Definition static_block {E} (m : StaticMetadata) : act E (Z * Z) := fun v =>
  (match static_storage v !! m with Some b => Val b | None => Panic end, v).

Definition transient_block (obj : Object) : Z * Z := (transient_base obj, Z.of_nat (length (data obj))).

(** [frame_home_window] with the frames of the thread as the resolver. *)
Definition home_window (serial off sz : Z) : act MemoryAccessError Z := fun v =>
  alift (frame_home_window (home_block (fstack (context v))) serial off sz) v.

(** [ldind.i] and [stind.i] on a variable that holds a reference move the whole of it. *)
Definition home_layout (serial off : Z) (l : LayoutManager) : act MemoryAccessError LayoutManager :=
  let^ v := agets id in
  aret match l with
       | LScalar Scalars.NativeInt =>
           if fs_is_byref_home (fstack (context v)) serial off then LScalar Scalars.ManagedPtr else l
       | _ => l
       end.

(** The range check of [write_to_inline_storage] and [read_from_inline_storage]. *)
Definition inline_slot (block : Z * Z) (off sz : Z) : act MemoryAccessError Z :=
  match checked usize (off + sz) with
  | Some e => if e <=? block.2 then aret (block.1 + off) else afail (BoundsCheck off sz block.2)
  | None => afail (BoundsCheck off sz block.2)
  end.

(** ** Values *)

Definition write_to_inline_storage (block : Z * Z) (off : Z) (v : StackValue) (l : LayoutManager)
  : act MemoryAccessError unit :=
  let^ sz := alift (size l) in
  let^ p := inline_slot block off sz in
  on_memory (write_to_unmanaged r th is_enum threshold p v l).

Definition read_from_inline_storage (block : Z * Z) (off : Z) (l : LayoutManager) (td : option TypeDescription)
  : act MemoryAccessError StackValue :=
  let^ sz := alift (size l) in
  let^ p := inline_slot block off sz in
  on_memory (read_value r th (Raw p) l td).

Definition write_unaligned (o : PointerOrigin) (off : Z) (v : StackValue) (l : LayoutManager)
  : act MemoryAccessError unit :=
  match o with
  | FrameHome serial =>
      let^ l := home_layout serial off l in
      let^ sz := alift (size l) in
      let^ p := home_window serial off sz in
      on_memory (write_to_unmanaged r th is_enum threshold p v l)
  | Static m => let^ b := static_block m in write_to_inline_storage b off v l
  | Heap owner => on_memory (write_to_heap r th is_enum threshold (Local owner) off v l)
  | Unmanaged => on_memory (write_to_unmanaged r th is_enum threshold off v l)
  | CrossArenaObjectRef c => on_memory (write_to_heap r th is_enum threshold (CrossArena c) off v l)
  | Transient obj => write_to_inline_storage (transient_block obj) off v l
  end.

Definition read_unaligned (o : PointerOrigin) (off : Z) (l : LayoutManager) (td : option TypeDescription)
  : act MemoryAccessError StackValue :=
  match o with
  | FrameHome serial =>
      let^ l := home_layout serial off l in
      let^ sz := alift (size l) in
      let^ p := home_window serial off sz in
      on_memory (read_value r th (Raw p) l td)
  | Static m => let^ b := static_block m in read_from_inline_storage b off l td
  | Heap owner => on_memory (Memory.read_unaligned r th (Some (Local owner)) off l td)
  | Unmanaged => on_memory (Memory.read_unaligned r th None off l td)
  | CrossArenaObjectRef c => on_memory (Memory.read_unaligned r th (Some (CrossArena c)) off l td)
  | Transient obj => read_from_inline_storage (transient_block obj) off l td
  end.

(** ** Bytes *)

(** The addition that overflows panics. *)
Definition bounds_checked_slice (block : Z * Z) (off n : Z) : act MemoryAccessError Z :=
  let^ e := alift (arith usize (off + n)) in
  if block.2 <? e then afail (BoundsCheck off n block.2) else aret (block.1 + off).

Definition bounds_checked_slice_copy (block : Z * Z) (bs : list Z) (off : Z) : act MemoryAccessError unit :=
  let^ p := bounds_checked_slice block off (Z.of_nat (length bs)) in on_memory (poke (Raw p) bs).

Definition bounds_checked_slice_read (block : Z * Z) (off n : Z) : act MemoryAccessError (list Z) :=
  let^ p := bounds_checked_slice block off n in on_memory (peek (Raw p) n).

Definition write_bytes (o : PointerOrigin) (off : Z) (bs : list Z) : act MemoryAccessError unit :=
  match o with
  | FrameHome serial =>
      let^ p := home_window serial off (Z.of_nat (length bs)) in on_memory (write_bytes_ptr p bs)
  | Static m => let^ b := static_block m in bounds_checked_slice_copy b bs off
  | Heap owner => on_memory (Memory.write_bytes r th threshold (Some (Local owner)) off bs)
  | Unmanaged => on_memory (Memory.write_bytes r th threshold None off bs)
  | CrossArenaObjectRef c => on_memory (Memory.write_bytes r th threshold (Some (CrossArena c)) off bs)
  | Transient obj => bounds_checked_slice_copy (transient_block obj) bs off
  end.

Definition read_bytes (o : PointerOrigin) (off n : Z) : act MemoryAccessError (list Z) :=
  match o with
  | FrameHome serial => let^ p := home_window serial off n in on_memory (read_bytes_ptr p n)
  | Static m => let^ b := static_block m in bounds_checked_slice_read b off n
  | Heap owner => on_memory (Memory.read_bytes r th (Some (Local owner)) off n)
  | Unmanaged => on_memory (Memory.read_bytes r th None off n)
  | CrossArenaObjectRef c => on_memory (Memory.read_bytes r th (Some (CrossArena c)) off n)
  | Transient obj => bounds_checked_slice_read (transient_block obj) off n
  end.

(** ** Atomic operations

    On static and transient storage the range is the caller's to keep. *)

Definition unchecked_slot {E} (block : Z * Z) (off sz : Z) : act E Z :=
  if (0 <=? off) && (off + sz <=? block.2) then aret (block.1 + off) else aundefined.

Definition atomic_at {E A} (bounds : MemoryAccessError -> E) (on_owner : option MemoryOwner -> op E A) (on_ptr : Z -> op E A)
    (o : PointerOrigin) (off sz : Z) : act E A :=
  match o with
  | Heap owner => on_memory (on_owner (Some (Local owner)))
  | Static m => let^ b := static_block m in let^ p := unchecked_slot b off sz in on_memory (on_ptr p)
  | FrameHome serial => let^ p := amap_err bounds (home_window serial off sz) in on_memory (on_ptr p)
  | Transient obj => let^ p := unchecked_slot (transient_block obj) off sz in on_memory (on_ptr p)
  | Unmanaged => on_memory (on_owner None)
  | CrossArenaObjectRef c => on_memory (on_owner (Some (CrossArena c)))
  end.

Definition compare_exchange_atomic (o : PointerOrigin) (off expected new sz : Z) (failure : Ordering)
  : act CompareExchangeError Z :=
  atomic_at Bounds (fun w => Memory.compare_exchange_atomic r th w off expected new sz failure)
    (fun p => compare_exchange_atomic_ptr p expected new sz failure) o off sz.

Definition exchange_atomic (o : PointerOrigin) (off v sz : Z) : act MemoryAccessError Z :=
  atomic_at id (fun w => Memory.exchange_atomic r th w off v sz) (fun p => exchange_atomic_ptr p v sz) o off sz.

Definition exchange_add_atomic (o : PointerOrigin) (off v sz : Z) : act MemoryAccessError Z :=
  atomic_at id (fun w => Memory.exchange_add_atomic r th w off v sz) (fun p => exchange_add_atomic_ptr p v sz) o off sz.

Definition load_atomic (o : PointerOrigin) (off sz : Z) (ordering : Ordering) : act MemoryAccessError Z :=
  atomic_at id (fun w => Memory.load_atomic r th w off sz ordering) (fun p => load_atomic_ptr p sz ordering) o off sz.

Definition store_atomic (o : PointerOrigin) (off v sz : Z) (ordering : Ordering) : act MemoryAccessError unit :=
  atomic_at id (fun w => Memory.store_atomic r th w off v sz ordering) (fun p => store_atomic_ptr p v sz ordering) o off sz.

(** On references the range is checked for every origin. *)
Definition object_atomic (o : PointerOrigin) (off : Z) (a : PointerAtomicOp) : act MemoryAccessError Z :=
  match o with
  | Heap owner => on_memory (Memory.object_atomic r th threshold (Some (Local owner)) off a)
  | CrossArenaObjectRef c => on_memory (Memory.object_atomic r th threshold (Some (CrossArena c)) off a)
  | Static m =>
      let^ b := static_block m in let^ p := inline_slot b off 8 in on_memory (object_atomic_ptr p a)
  | FrameHome serial => let^ p := home_window serial off 8 in on_memory (object_atomic_ptr p a)
  | Transient obj => let^ p := inline_slot (transient_block obj) off 8 in on_memory (object_atomic_ptr p a)
  | Unmanaged => on_memory (Memory.object_atomic r th threshold None off a)
  end.

(** ** Addresses and frame memory *)

Definition resolve_address (o : PointerOrigin) (off : Z) : act MemoryAccessError Z :=
  match o with
  | Static m => let^ b := static_block m in unchecked_slot b off 0
  | FrameHome serial => home_window serial off 0
  | Heap owner =>
      let^ (_, obj) := on_memory (owner_object r th (Local owner)) in
      match observed_address (ho_base obj) off with Some a => aret a | None => apanic end
  | Unmanaged => if off =? 0 then apanic else aret off
  | CrossArenaObjectRef c =>
      let^ (_, obj) := on_memory (owner_object r th (CrossArena c)) in
      match observed_address (ho_base obj) off with Some a => aret a | None => apanic end
  | Transient obj => unchecked_slot (transient_block obj) off 0
  end.

(** A new block of zeroes. *)
Definition map_zeroed (base n : Z) (m : mem) : mem :=
  set_raw m (list_to_map ((fun a => (a, 0)) <$> addresses base (Z.to_nat n)) ∪ raw m).

(** [localloc] charges the ledger of the current frame; [reserved] is the answer of
    [try_reserve] for its list of blocks. *)
Definition localloc (alloc_fn : RawBlocks.Layout -> Z) (reserved : bool) (sz : Z) : act Ledger.FrameAllocationError Z := fun v =>
  match current_frame (E:=Empty_set) (fstack (context v)) with
  | Val f =>
      match Ledger.allocate (allocations f) (thread_gauges v) alloc_fn reserved sz with
      | Val (p, fa, g) =>
          (Val p, set_memory (set_gauges (set_context v (set_fstack (context v)
             (update_current (fstack (context v)) (fun f => set_allocations f fa)))) g) (map_zeroed p sz (memory v)))
      | Err e => (Err (Access e), v)
      | Panic => (Panic, v)
      end
  | _ => (Panic, v)
  end.

End raw_ops.

(** ** Operations that stay within a range *)

Definition agree (p n : Z) (w w' : gmap Z Z) : Prop := forall a, p <= a < p + n -> w !! a = w' !! a.

(** The operation changes no object, and of raw memory only the [n] bytes at [p]; and it
    looks only at those: with other bytes elsewhere it gives the same result and the same
    bytes there. *)
Definition stays {E A} (p n : Z) (x : op E A) : Prop := forall m res m', x m = (res, m') ->
  heap m' = heap m /\ barriers m' = barriers m /\ (forall a, ~ p <= a < p + n -> raw m' !! a = raw m !! a) /\
  forall w, agree p n w (raw m) -> exists w', x (set_raw m w) = (res, set_raw m' w') /\ agree p n w' (raw m').

Section stays.
Context {E : Type} (p n : Z).

Lemma stays_pure {A} (r : outcome (fault E) A) (x : op E A) : (forall m, x m = (r, m)) -> stays p n x.
Proof.
  intros H m res m' Hx. rewrite H in Hx. injection Hx as <- <-. do 3 (split; [done|]). intros w Hw. exists w. by rewrite H.
Qed.

Lemma stays_bind_val {A B} (x : op E A) (f : A -> op E B) : stays p n x ->
  (forall m a m', x m = (Val a, m') -> stays p n (f a)) -> stays p n (mbind x f).
Proof.
  intros Hx Hf m res m'. unfold mbind. destruct (x m) as [[a|e|] m1] eqn:E1; intros H.
  - destruct (Hx _ _ _ E1) as (H1 & H2 & H3 & H4). destruct (Hf _ _ _ E1 _ _ _ H) as (H5 & H6 & H7 & H8).
    split; [congruence|]. split; [congruence|]. split; [intros b Hb; by rewrite H7, H3|]. intros w Hw.
    destruct (H4 w Hw) as (w1 & -> & Hw1). apply H8. exact Hw1.
  - injection H as <- <-. destruct (Hx _ _ _ E1) as (H1 & H2 & H3 & H4). do 3 (split; [done|]). intros w Hw.
    destruct (H4 w Hw) as (w1 & -> & Hw1). by exists w1.
  - injection H as <- <-. destruct (Hx _ _ _ E1) as (H1 & H2 & H3 & H4). do 3 (split; [done|]). intros w Hw.
    destruct (H4 w Hw) as (w1 & -> & Hw1). by exists w1.
Qed.

Lemma stays_bind {A B} (x : op E A) (f : A -> op E B) : stays p n x -> (forall a, stays p n (f a)) -> stays p n (mbind x f).
Proof. intros Hx Hf. apply stays_bind_val; auto. Qed.

(** The state is looked at, but not the raw memory. *)
Lemma stays_state {A} (f : mem -> op E A) : (forall m w, f (set_raw m w) = f m) -> (forall m, stays p n (f m)) ->
  stays p n (mbind (gets id) f).
Proof.
  intros Hf Hs m res m' H. destruct (Hs m m res m' H) as (H1 & H2 & H3 & H4). do 3 (split; [done|]). intros w Hw.
  destruct (H4 w Hw) as (w' & Hx & Hw'). exists w'. split; [|done]. unfold mbind, gets, id in *. by rewrite Hf.
Qed.

Lemma stays_map_err {F A} (g : E -> F) (x : op E A) : stays p n x -> stays p n (mmap_err g x).
Proof.
  intros Hx m res m'. unfold mmap_err. destruct (x m) as [[a|[e|]|] m1] eqn:E1; intros [= <- <-];
    destruct (Hx _ _ _ E1) as (H1 & H2 & H3 & H4); (do 3 (split; [done|])); intros w Hw; destruct (H4 w Hw) as (w1 & -> & Hw1); by exists w1.
Qed.

Lemma stays_unmap {F A} (g : E -> F) (x : op E A) : Inj (=) (=) g -> stays p n (mmap_err g x) -> stays p n x.
Proof.
  intros Hg Hx m res m' H. specialize (Hx m). unfold mmap_err in Hx. rewrite H in Hx. destruct res as [a|[e|]|];
    destruct (Hx _ _ eq_refl) as (H1 & H2 & H3 & H4); (do 3 (split; [done|])); intros w Hw; destruct (H4 w Hw) as (w1 & Hr & Hw1);
    exists w1; (split; [|done]); destruct (x (set_raw m w)) as [[?|[?|]|] ?]; by simplify_eq.
Qed.

Lemma stays_unbind {A} (x : op E unit) (b : A) : stays p n (x ;! mret b) -> stays p n x.
Proof.
  intros Hx m res m' H. specialize (Hx m). unfold mbind, mret in Hx. rewrite H in Hx. destruct res as [[]|e|];
    destruct (Hx _ _ eq_refl) as (H1 & H2 & H3 & H4); (do 3 (split; [done|])); intros w Hw; destruct (H4 w Hw) as (w1 & Hr & Hw1);
    exists w1; (split; [|done]); destruct (x (set_raw m w)) as [[[]|?|] ?]; by simplify_eq.
Qed.

Lemma addresses_elem a k x : x ∈ addresses a k <-> a <= x < a + Z.of_nat k.
Proof. unfold addresses. apply elem_of_seqZ. Qed.

Lemma agree_addresses w w' q k : p <= q -> q + Z.of_nat k <= p + n -> agree p n w w' ->
  mapM (w !!.) (addresses q k) = mapM (w' !!.) (addresses q k).
Proof.
  intros H1 H2 Hw. assert (Hin : forall x, x ∈ addresses q k -> p <= x < p + n) by (intros x; rewrite addresses_elem; lia).
  induction (addresses q k) as [|x l IH]; [done|]. simpl. rewrite (Hw x) by (apply Hin; by left).
  rewrite IH; [done|]. intros y Hy. apply Hin. by right.
Qed.

Lemma stays_peek q k : p <= q -> q + Z.max 0 k <= p + n -> stays p n (peek (E:=E) (Raw q) k).
Proof.
  intros H1 H2 m res m'. unfold peek, mbind, gets, mret, undefined, id. intros H.
  assert (m' = m) as -> by (by destruct (mapM (raw m !!.) _); injection H as _ <-). do 3 (split; [done|]). intros w Hw. exists w.
  split; [|done]. cbn [raw set_raw]. rewrite (agree_addresses w (raw m)) by (done || lia).
  by destruct (mapM (raw m !!.) _); injection H as <-.
Qed.

Lemma stays_poke q bs : p <= q -> q + Z.of_nat (length bs) <= p + n -> stays p n (poke (E:=E) (Raw q) bs).
Proof.
  intros H1 H2 m res m'. unfold poke, mbind, gets, id, modify, undefined. intros H.
  assert (Hout : forall (w : gmap Z Z) a, ~ p <= a < p + n -> (list_to_map (zip (addresses q (length bs)) bs) ∪ w) !! a = w !! a).
  { intros w a Ha. rewrite lookup_union_r; [done|]. apply not_elem_of_list_to_map.
    rewrite fst_zip by (unfold addresses; rewrite length_seqZ; lia). rewrite addresses_elem. lia. }
  destruct (mapM (raw m !!.) _) eqn:Em; injection H as <- <-; (do 2 (split; [done|])).
  - split; [intros a Ha; by apply Hout|]. intros w Hw. exists (list_to_map (zip (addresses q (length bs)) bs) ∪ w). cbn [raw set_raw].
    rewrite (agree_addresses w (raw m)), Em by (done || lia). split; [done|]. intros a Ha. simpl. rewrite !lookup_union. by rewrite (Hw a Ha).
  - split; [done|]. intros w Hw. exists w. cbn [raw set_raw]. by rewrite (agree_addresses w (raw m)), Em by (done || lia).
Qed.

Lemma stays_statics f : (forall m, heap (f m) = heap m /\ raw (f m) = raw m /\ barriers (f m) = barriers m) ->
  (forall m w, f (set_raw m w) = set_raw (f m) w) -> stays p n (modify (E:=E) f).
Proof.
  intros H Hf m res m' [= <- <-]. destruct (H m) as (-> & Hr & ->). rewrite Hr. do 3 (split; [done|]). intros w Hw. exists w.
  unfold modify. by rewrite Hf.
Qed.
End stays.

Create HintDb stays.
#[export] Hint Extern 1 (stays _ _ (peek (Raw _) _)) => apply stays_peek; lia : stays.
#[export] Hint Extern 1 (stays _ _ (mret _)) => eapply stays_pure; intros; reflexivity : stays.
#[export] Hint Extern 1 (stays _ _ (lift _)) => eapply stays_pure; intros; reflexivity : stays.
#[export] Hint Extern 1 (stays _ _ (unwrap _)) => eapply stays_pure; intros; reflexivity : stays.
#[export] Hint Extern 1 (stays _ _ (fail _)) => eapply stays_pure; intros; reflexivity : stays.
#[export] Hint Extern 1 (stays _ _ panic) => eapply stays_pure; intros; reflexivity : stays.
#[export] Hint Extern 1 (stays _ _ undefined) => eapply stays_pure; intros; reflexivity : stays.

(** Goes through an operation by its structure. *)
Ltac stays_steps :=
  repeat first
    [ progress intros
    | solve [eauto 2 with stays]
    | match goal with
      | |- stays _ _ (mbind (gets id) _) => apply stays_state; [intros; reflexivity|]
      | |- stays _ _ (mbind _ _) => apply stays_bind
      | |- stays _ _ (mmap_err _ _) => apply stays_map_err
      | |- stays _ _ (match ?x with _ => _ end) => destruct x eqn:?
      | |- stays _ _ (if ?b then _ else _) => destruct b eqn:?
      | |- stays _ _ (let '_ := ?x in _) => destruct x
      end ].

(** A peek returns as many bytes as it was asked for. *)
Lemma peek_length {E} q k m bs m' : 0 <= k -> peek (E:=E) q k m = (Val bs, m') -> length bs = Z.to_nat k.
Proof.
  intros Hk. unfold peek, mbind, gets, mret, undefined, id. destruct q as [h off|a].
  - destruct (heap m !! h) as [o|]; [|done]. destruct (_ && _) eqn:Hb; [|done]. intros [= <- _].
    unfold slice. rewrite length_take, length_drop. lia.
  - destruct (mapM _ _) eqn:Hm; [|done]. intros [= <- _]. apply mapM_Some in Hm. apply Forall2_length in Hm. unfold addresses in Hm.
    rewrite length_seqZ in Hm. lia.
Qed.

Section stays_values.
Variable r : ArenaRegistry.
Variable th : nat.
Variable is_enum : TypeDescription -> option MemberType.
Variable threshold : nat.

Lemma write_int_stays p t i : stays p (bits t / 8) (write_int (Raw p) t i).
Proof.
  apply stays_poke; [lia|]. rewrite length_to_le_bytes. by destruct t.
Qed.

Lemma extract_stays p n v : stays p n (extract_int is_enum v) /\ stays p n (extract_long is_enum v) /\
  stays p n (extract_native_int is_enum v) /\ stays p n (extract_float v).
Proof.
  unfold extract_int, extract_long, extract_native_int, extract_float, mismatch.
  split; [|split; [|split]]; stays_steps.
Qed.

Lemma write_managed_stays {A} p q (k : op MemoryAccessError A) : stays p 24 k ->
  stays p 24 (let! old := peek (Raw p) 24 in let! m := gets id in
    let! (bs, st) := unwrap (PtrSerde.write q old (static_ids m)) in
    modify (fun m => set_static_ids m st) ;! poke (Raw p) bs ;! k).
Proof.
  intros Hk. apply stays_bind_val; [apply stays_peek; lia|]. intros m0 old m1 Hold%peek_length; [|lia].
  apply stays_state; [done|]. intros m. apply stays_bind_val; [stays_steps|]. intros m2 [bs st] m3 Hw.
  apply unwrap_val in Hw as [Hw _]. apply ptr_write_length in Hw; [|lia].
  apply stays_bind; [by apply stays_statics|]. intros _. apply stays_bind; [apply stays_poke; lia | done].
Qed.

Lemma write_scalar_stays arena p v s : stays p (Scalars.size_const s) (write_scalar r th is_enum threshold arena (Raw p) None v s).
Proof.
  destruct (extract_stays p (Scalars.size_const s) v) as (H1 & H2 & H3 & H4).
  destruct s; cbn [write_scalar Scalars.size_const] in *;
    try (apply stays_bind; [done | intros; apply write_int_stays]).
  - destruct v; stays_steps. apply stays_poke; [lia|]. rewrite length_to_le_bytes. done.
  - destruct v as [| | | | | |q| | |]; try (by stays_steps). destruct (origin q); [..|stays_steps];
      apply write_managed_stays; stays_steps.
Qed.

Lemma write_value_stays arena p v l sz : size (E:=Empty_set) l = Val sz -> is_range usize sz ->
  stays p sz (write_value r th is_enum threshold arena (Raw p) None v l).
Proof.
  intros Hs Hr. unfold write_value. apply stays_state; [done|]. intros m. destruct (_ =? 0); [stays_steps|].
  apply stays_bind; [apply (stays_pure _ _ (Val tt)); intros; unfold backward_barrier_for_heap_ref_write; by repeat case_match|].
  intros _. destruct l as [fs total al d hr|e n|s]; [|stays_steps|].
  - injection Hs as ->. destruct v; try (by stays_steps). destruct (sz <=? _); [|stays_steps].
    apply stays_bind; [|intros; stays_steps]. apply stays_poke; [lia|]. rewrite length_take. int_bounds; lia.
  - injection Hs as <-. apply write_scalar_stays.
Qed.

Lemma read_scalar_stays p s td : stays p (Scalars.size_const s) (read_scalar r th (Raw p) s td).
Proof. destruct s; cbn [read_scalar Scalars.size_const]; unfold read_int; stays_steps; apply stays_peek; try lia; by apply Z.add_le_mono_l. Qed.

Lemma read_value_stays p l td sz : size (E:=Empty_set) l = Val sz -> is_range usize sz -> stays p sz (read_value r th (Raw p) l td).
Proof.
  intros Hs Hr. unfold read_value. apply stays_state; [done|]. intros m. destruct (_ =? 0); [stays_steps|].
  destruct l as [fs total al d hr|e n|s]; [|stays_steps|injection Hs as <-; apply read_scalar_stays].
  injection Hs as ->. destruct td; [|stays_steps]. apply stays_bind; [apply stays_peek; int_bounds; lia|]. intros bs.
  apply stays_bind; [by apply stays_statics|]. stays_steps.
Qed.

Lemma peek_word_stays {E} p t : stays p (bits t / 8) (peek_word (E:=E) (Raw p) t).
Proof. unfold peek_word. apply stays_bind; [apply stays_peek; [lia | apply Z.add_le_mono_l; by destruct t]|]. stays_steps. Qed.

Lemma poke_word_stays {E} p t v : stays p (bits t / 8) (poke_word (E:=E) (Raw p) t v).
Proof. apply stays_poke; [lia|]. rewrite length_to_le_bytes. by destruct t. Qed.

Lemma stays_wider {E A} p n q k (x : op E A) : q <= p -> p + n <= q + k -> stays p n x -> stays q k x.
Proof.
  intros Hq Hn Hx m res m' H. destruct (Hx _ _ _ H) as (H1 & H2 & H3 & H4). split; [done|]. split; [done|].
  split; [intros a Ha; apply H3; lia|]. intros w Hw. destruct (H4 w) as (w' & Hr & Hw'); [intros a Ha; apply Hw; lia|].
  exists w'. split; [done|]. intros a Ha. destruct (decide (p <= a < p + n)) as [|Hout]; [by apply Hw'|].
  destruct (Hx (set_raw m w) res (set_raw m' w') Hr) as (_ & _ & H5 & _). cbn [raw set_raw] in H5. rewrite H5, H3 by done. by apply Hw.
Qed.
End stays_values.

(** ** Atomic operations at an address *)

Lemma sized_stays p sz t failure expected v : atomic_width sz = Some t ->
  stays p sz (compare_exchange_atomic_sized (Raw p) sz expected v failure) /\
  stays p sz (exchange_atomic_sized (E:=MemoryAccessError) (Raw p) sz v) /\
  stays p sz (exchange_add_atomic_sized (E:=MemoryAccessError) (Raw p) sz v).
Proof.
  intros Ht. destruct (atomic_width_bits _ _ Ht) as [Hsz _].
  assert (Hw : forall E w, stays p sz (poke_word (E:=E) (Raw p) t w)) by (intros; rewrite Hsz; apply poke_word_stays).
  assert (Hp : forall E, stays p sz (peek_word (E:=E) (Raw p) t)) by (intros; rewrite Hsz; apply peek_word_stays).
  unfold compare_exchange_atomic_sized, exchange_atomic_sized, exchange_add_atomic_sized. rewrite Ht.
  split; [|split]; stays_steps.
Qed.

(** The operations on an address, as one. *)
Inductive word_access : Set :=
| WCompareExchange (expected v : Z) (failure : Ordering)
| WExchange (v : Z)
| WAdd (v : Z)
| WLoad (ordering : Ordering)
| WStore (v : Z) (ordering : Ordering).

Definition word_ptr (a : word_access) (p sz : Z) : op CompareExchangeError Z :=
  match a with
  | WCompareExchange expected v failure => compare_exchange_atomic_ptr p expected v sz failure
  | WExchange v => mmap_err Bounds (exchange_atomic_ptr p v sz)
  | WAdd v => mmap_err Bounds (exchange_add_atomic_ptr p v sz)
  | WLoad ordering => mmap_err Bounds (load_atomic_ptr p sz ordering)
  | WStore v ordering => mmap_err Bounds (store_atomic_ptr p v sz ordering ;! mret 0)
  end.

Lemma word_ptr_stays a p sz : 0 <= sz -> stays p sz (word_ptr a p sz).
Proof.
  intros Hsz. assert (Hal : stays p sz (check_aligned (Raw p) sz)) by (unfold check_aligned; stays_steps).
  destruct (atomic_width sz) as [t|] eqn:Ht.
  - assert (Hw : forall w, stays p sz (poke_word (E:=MemoryAccessError) (Raw p) t w))
      by (intros; rewrite (proj1 (atomic_width_bits _ _ Ht)); apply poke_word_stays).
    assert (Hp : stays p sz (peek_word (E:=MemoryAccessError) (Raw p) t))
      by (rewrite (proj1 (atomic_width_bits _ _ Ht)); apply peek_word_stays).
    pose proof (fun f e v => sized_stays p sz t f e v Ht) as Hsized.
    destruct a as [e v f|v|v|o|v o]; cbn [word_ptr];
      [destruct (Hsized f e v) as (S1 & S2 & S3) | destruct (Hsized Relaxed 0 v) as (S1 & S2 & S3) | destruct (Hsized Relaxed 0 v) as (S1 & S2 & S3) | | ];
      unfold compare_exchange_atomic_ptr, exchange_atomic_ptr, exchange_add_atomic_ptr, load_atomic_ptr,
      store_atomic_ptr, load_atomic_with_unaligned_fallback, store_atomic_with_unaligned_fallback; rewrite ?Ht;
      stays_steps.
  - destruct a; cbn [word_ptr]; unfold compare_exchange_atomic_ptr, exchange_atomic_ptr, exchange_add_atomic_ptr, load_atomic_ptr,
      store_atomic_ptr, load_atomic_with_unaligned_fallback, store_atomic_with_unaligned_fallback,
      compare_exchange_atomic_sized, exchange_atomic_sized, exchange_add_atomic_sized; rewrite Ht; stays_steps.
Qed.

Lemma object_atomic_ptr_stays a p : stays p 8 (object_atomic_ptr p a).
Proof.
  assert (Hw : forall E w, stays p 8 (poke_word (E:=E) (Raw p) usize w)) by (intros; apply (poke_word_stays p usize)).
  assert (Hp : forall E, stays p 8 (peek_word (E:=E) (Raw p) usize)) by (intros; apply (peek_word_stays p usize)).
  unfold object_atomic_ptr, execute, executed. stays_steps.
Qed.

(** ** Accesses through the address of a variable *)

Inductive access : Set :=
| AWrite (v : StackValue) (l : LayoutManager)
| ARead (l : LayoutManager) (td : option TypeDescription)
| AWriteBytes (bs : list Z)
| AReadBytes (n : Z)
| AWord (a : word_access) (sz : Z)
| AObject (a : PointerAtomicOp).

Definition access_ok (a : access) : Prop :=
  match a with
  | AWrite _ l | ARead l _ => exists sz, size (E:=Empty_set) l = Val sz /\ is_range usize sz
  | AWriteBytes _ | AObject _ => True
  | AReadBytes n | AWord _ n => 0 <= n
  end.

(** What an access answers. *)
Inductive answer : Set := Done | Loaded (v : StackValue) | LoadedBytes (bs : list Z) | LoadedWord (w : Z).

Definition amap {E A B} (f : A -> B) (x : act E A) : act E B := let^ a := x in aret (f a).

(** The number of bytes it moves: [home_layout] widens a native integer to the managed
    pointer that a variable holds. *)
Definition access_size (a : access) (byref : bool) : Z :=
  match a with
  | AWrite _ l | ARead l _ =>
      match l with
      | LScalar Scalars.NativeInt => if byref then 24 else 8
      | _ => match size (E:=Empty_set) l with Val sz => sz | _ => 0 end
      end
  | AWriteBytes bs => Z.of_nat (length bs)
  | AReadBytes n | AWord _ n => n
  | AObject _ => 8
  end.

Section access.
Variable r : ArenaRegistry.
Variable th : nat.
Variable is_enum : TypeDescription -> option MemberType.
Variable threshold : nat.
Variable transient_base : Object -> Z.

Definition run_access (a : access) (o : PointerOrigin) (off : Z) : act CompareExchangeError answer :=
  match a with
  | AWrite v l => amap_err Bounds (amap (fun _ => Done) (write_unaligned r th is_enum threshold transient_base o off v l))
  | ARead l td => amap_err Bounds (amap Loaded (read_unaligned r th transient_base o off l td))
  | AWriteBytes bs => amap_err Bounds (amap (fun _ => Done) (write_bytes r th threshold transient_base o off bs))
  | AReadBytes n => amap_err Bounds (amap LoadedBytes (read_bytes r th transient_base o off n))
  | AWord (WCompareExchange e v f) sz => amap LoadedWord (compare_exchange_atomic r th transient_base o off e v sz f)
  | AWord (WExchange v) sz => amap_err Bounds (amap LoadedWord (exchange_atomic r th transient_base o off v sz))
  | AWord (WAdd v) sz => amap_err Bounds (amap LoadedWord (exchange_add_atomic r th transient_base o off v sz))
  | AWord (WLoad ordering) sz => amap_err Bounds (amap LoadedWord (load_atomic r th transient_base o off sz ordering))
  | AWord (WStore v ordering) sz => amap_err Bounds (amap (fun _ => Done) (store_atomic r th transient_base o off v sz ordering))
  | AObject a => amap_err Bounds (amap LoadedWord (object_atomic r th threshold transient_base o off a))
  end.

(** The same thread with other bytes in raw memory. *)
Definition with_raw (v : vm) (w : gmap Z Z) : vm := set_memory v (set_raw (memory v) w).

(** The action on [sz] bytes at [off] of the home [serial] does nothing but fail when the
    home is gone or the range is not within it, and otherwise changes nothing outside of
    its block and looks at nothing outside of it. *)
Definition confined {E A} (g : MemoryAccessError -> E) (serial off : Z) (sz : vm -> Z) (x : act E A) : Prop := forall v res v', x v = (res, v') ->
  (forall b n, home_block (fstack (context v)) serial = Some (b, n) -> 0 < b /\ b + n <= int_max usize) ->
  match home_block (fstack (context v)) serial with
  | None => res = Err (Access (g InvalidOrigin)) /\ v' = v
  | Some (b, n) =>
      (n < off + sz v -> res = Err (Access (g (BoundsCheck off (sz v) n))) /\ v' = v) /\
      context v' = context v /\ heap (memory v') = heap (memory v) /\
      (forall a, ~ b <= a < b + n -> raw (memory v') !! a = raw (memory v) !! a) /\
      (forall w, agree b n w (raw (memory v)) ->
         exists w', x (with_raw v w) = (res, with_raw v' w') /\ agree b n w' (raw (memory v')))
  end.

Lemma confined_window {E A} (g : MemoryAccessError -> E) serial off sz (k : Z -> op E A) :
  is_range usize off -> 0 <= sz -> (forall p, stays p sz (k p)) ->
  confined g serial off (fun _ => sz) (let^ p := amap_err g (home_window serial off sz) in on_memory (k p)).
Proof.
  intros Ho Hsz Hk v res v' H Hb.
  assert (Hat : forall w, (let^ p := amap_err g (home_window serial off sz) in on_memory (k p)) (with_raw v w) =
    match home_block (fstack (context v)) serial with
    | None => (Err (Access (g InvalidOrigin)), with_raw v w)
    | Some (b, n) => if off + sz <=? n then on_memory (k (b + off)) (with_raw v w) else (Err (Access (g (BoundsCheck off sz n))), with_raw v w)
    end).
  { intros w. unfold abind, amap_err, home_window, alift, frame_home_window. cbn [with_raw set_memory context].
    destruct (home_block (fstack (context v)) serial) as [[b n]|]; [|done]. cbn [ok_or obind].
    destruct (Hb b n eq_refl) as [Hb0 Hb1]. destruct (checked usize (off + sz)) as [e|] eqn:He.
    - apply checked_some in He as [-> _]. destruct (Z.leb_spec (off + sz) n); [|done].
      rewrite wrap_id by (int_bounds; lia). unfold nonnull. by destruct (Z.eqb_spec (b + off) 0); [int_bounds; lia|].
    - destruct (Z.leb_spec (off + sz) n); [|done]. exfalso.
      assert (checked usize (off + sz) = Some (off + sz)) by (apply checked_some; split; [done | int_bounds; lia]). congruence. }
  assert (Hself : with_raw v (raw (memory v)) = v) by (destruct v as [c m g0 st]; by destruct m).
  pose proof (Hat (raw (memory v))) as H0. rewrite Hself, H in H0.
  destruct (home_block (fstack (context v)) serial) as [[b n]|]; [|by injection H0 as <- <-].
  destruct (Z.leb_spec (off + sz) n) as [Hle|Hgt].
  - split; [lia|]. unfold on_memory in H0. destruct (k (b + off) (memory v)) as [a m'] eqn:Hx. injection H0 as -> ->.
    destruct (stays_wider (b + off) sz b n _ ltac:(int_bounds; lia) ltac:(lia) (Hk _) _ _ _ Hx) as (H1 & _ & H3 & H4).
    split; [done|]. split; [done|]. split; [done|]. intros w Hw. destruct (H4 w Hw) as (w' & Hw1 & Hw2). exists w'. split; [|done].
    rewrite Hat. unfold on_memory. cbn [with_raw set_memory memory]. by rewrite Hw1.
  - injection H0 as -> ->. split; [done|]. do 3 (split; [done|]). intros w Hw. exists w. by rewrite Hat.
Qed.

Lemma confined_window_id {A} serial off sz (k : Z -> op MemoryAccessError A) :
  is_range usize off -> 0 <= sz -> (forall p, stays p sz (k p)) ->
  confined id serial off (fun _ => sz) (let^ p := home_window serial off sz in on_memory (k p)).
Proof.
  intros Ho Hsz Hk v res v' H Hb.
  assert (He : forall v, (let^ p := amap_err id (home_window serial off sz) in on_memory (k p)) v =
    (let^ p := home_window serial off sz in on_memory (k p)) v).
  { intros v0. unfold abind, amap_err, id. by destruct (home_window serial off sz v0) as [[|[]|] ?]. }
  pose proof (confined_window id serial off sz k Ho Hsz Hk v res v') as Hc. rewrite He in Hc. specialize (Hc H Hb).
  destruct (home_block _ _) as [[b n]|]; [|done]. destruct Hc as (H1 & H2 & H3 & H4 & H5). do 4 (split; [done|]).
  intros w Hw. rewrite <- He. by apply H5.
Qed.

Lemma confined_map_err {E F A} (h : E -> F) g serial off sz (x : act E A) :
  confined g serial off sz x -> confined (fun e => h (g e)) serial off sz (amap_err h x).
Proof.
  intros Hx v res v' H Hb. unfold amap_err in *. destruct (x v) as [y v1] eqn:E1. specialize (Hx _ _ _ E1 Hb).
  destruct (home_block _ _) as [[b n]|]; [|destruct Hx as [-> ->]; by injection H as <- <-].
  destruct Hx as (H1 & H2 & H3 & H4 & H5).
  assert (v' = v1) as -> by (by destruct y as [|[]|]; injection H as _ <-). split; [|do 3 (split; [done|])].
  - intros Hn. destruct (H1 Hn) as [-> ->]. by injection H as <-.
  - intros w Hw. destruct (H5 w Hw) as (w' & -> & Hw'). exists w'. split; [|done]. by destruct y as [|[]|]; injection H as <-.
Qed.

Lemma confined_map {E A B} (f : A -> B) (g : MemoryAccessError -> E) serial off sz (x : act E A) :
  confined g serial off sz x -> confined g serial off sz (amap f x).
Proof.
  intros Hx v res v' H Hb. unfold amap, abind, aret in *. destruct (x v) as [y v1] eqn:E1. specialize (Hx _ _ _ E1 Hb).
  destruct (home_block _ _) as [[b n]|]; [|destruct Hx as [-> ->]; by injection H as <- <-].
  destruct Hx as (H1 & H2 & H3 & H4 & H5).
  assert (v' = v1) as -> by (by destruct y; injection H as _ <-). split; [|do 3 (split; [done|])].
  - intros Hn. destruct (H1 Hn) as [-> ->]. by injection H as <-.
  - intros w Hw. destruct (H5 w Hw) as (w' & -> & Hw'). exists w'. split; [|done]. by destruct y; injection H as <-.
Qed.

Lemma write_to_unmanaged_stays p v l sz : size (E:=Empty_set) l = Val sz -> is_range usize sz ->
  stays p sz (write_to_unmanaged r th is_enum threshold p v l).
Proof. intros. unfold write_to_unmanaged. destruct (p =? 0); [stays_steps | by apply write_value_stays]. Qed.

(** The typed accesses, up to the layout a variable that holds a reference is moved with. *)
Definition moved_layout (l : LayoutManager) (byref : bool) : LayoutManager :=
  match l with LScalar Scalars.NativeInt => if byref then LScalar Scalars.ManagedPtr else l | _ => l end.

Lemma confined_typed {A} serial off l sz (k : LayoutManager -> Z -> op MemoryAccessError A) :
  is_range usize off -> size (E:=Empty_set) l = Val sz -> is_range usize sz ->
  (forall l sz p, size (E:=Empty_set) l = Val sz -> is_range usize sz -> stays p sz (k l p)) ->
  confined id serial off (fun v => match size (E:=Empty_set) (moved_layout l (fs_is_byref_home (fstack (context v)) serial off)) with Val sz => sz | _ => 0 end)
    (let^ l := home_layout serial off l in
     let^ sz := alift (size l) in
     let^ p := home_window serial off sz in on_memory (k l p)).
Proof.
  intros Ho Hl Hr Hk v res v' H Hb. set (l' := moved_layout l (fs_is_byref_home (fstack (context v)) serial off)).
  assert (Hl' : exists sz', size (E:=Empty_set) l' = Val sz' /\ is_range usize sz').
  { unfold l', moved_layout. destruct l as [| |[]]; eauto. destruct (fs_is_byref_home _ _ _); [exists 24; split; [done | int_bounds; lia] | eauto]. }
  destruct Hl' as (sz' & Hl' & Hr').
  assert (Hat : forall u, context u = context v -> (let^ l := home_layout serial off l in let^ sz := alift (size l) in
     let^ p := home_window serial off sz in on_memory (k l p)) u = (let^ p := home_window serial off sz' in on_memory (k l' p)) u).
  { intros u Hu. unfold home_layout, agets, aret, id, abind at 1. unfold abind at 1. rewrite Hu.
    change (match l with LScalar Scalars.NativeInt => _ | _ => l end) with l'.
    unfold abind at 1, alift at 1. by rewrite (size_any _ _ Hl'). }
  rewrite Hat in H by done. pose proof (confined_window_id serial off sz' (k l') Ho ltac:(int_bounds; lia) ltac:(intros; by apply Hk) v res v' H Hb) as Hc.
  destruct (home_block _ _) as [[b n]|]; [|done]. rewrite Hl'. destruct Hc as (H1 & H2 & H3 & H4 & H5). do 4 (split; [done|]).
  intros w Hw. rewrite Hat by done. by apply H5.
Qed.

Lemma confined_size {E A} (g : MemoryAccessError -> E) serial off (sz sz' : vm -> Z) (x : act E A) :
  (forall v, sz v = sz' v) -> confined g serial off sz x -> confined g serial off sz' x.
Proof. intros Hs Hx v res v' H Hb. specialize (Hx v res v' H Hb). by rewrite <- Hs. Qed.

Lemma moved_size l sz byref td v : size (E:=Empty_set) l = Val sz ->
  match size (E:=Empty_set) (moved_layout l byref) with Val sz => sz | _ => 0 end = access_size (ARead l td) byref /\
  access_size (AWrite v l) byref = access_size (ARead l td) byref.
Proof. intros Hl. split; [|done]. unfold moved_layout, access_size. destruct l as [| |[]]; try done. by destruct byref. Qed.

(** C16. An access through the address of a variable stays within the variables of its frame,
    whatever its kind (typed, raw bytes or atomic), its offset and its size.  When the
    frame has returned it is refused and changes nothing, and so it is when its bytes are
    not all within the home block.  Otherwise it changes no object and no byte outside of
    the block, and what it answers and leaves there depends on no byte outside of it. *)
Theorem home_access_confined a serial off v res v' : access_ok a -> is_range usize off ->
  (forall b n, home_block (fstack (context v)) serial = Some (b, n) -> 0 < b /\ b + n <= int_max usize) ->
  run_access a (FrameHome serial) off v = (res, v') ->
  match home_block (fstack (context v)) serial with
  | None => res = Err (Access (Bounds InvalidOrigin)) /\ v' = v
  | Some (b, n) =>
      let sz := access_size a (fs_is_byref_home (fstack (context v)) serial off) in
      (n < off + sz -> res = Err (Access (Bounds (BoundsCheck off sz n))) /\ v' = v) /\
      context v' = context v /\ heap (memory v') = heap (memory v) /\
      (forall x, ~ b <= x < b + n -> raw (memory v') !! x = raw (memory v) !! x) /\
      (forall w, agree b n w (raw (memory v)) ->
         exists w', run_access a (FrameHome serial) off (with_raw v w) = (res, with_raw v' w') /\ agree b n w' (raw (memory v')))
  end.
Proof.
  intros Ha Ho Hb H. revert v res v' H Hb.
  change (confined Bounds serial off (fun v => access_size a (fs_is_byref_home (fstack (context v)) serial off)) (run_access a (FrameHome serial) off)).
  assert (Hword : forall w sz, 0 <= sz -> forall p, stays p sz (word_ptr w p sz)) by (intros; by apply word_ptr_stays).
  assert (Inj (=) (=) Bounds) by (by intros ?? [=]).
  destruct a as [v l|l td|bs|n|w sz|w]; cbn [run_access access_ok] in *.
  - destruct Ha as (sz & Hl & Hr). apply (confined_map_err Bounds id), confined_map.
    eapply confined_size; [|eapply confined_typed; eauto using write_to_unmanaged_stays].
    intros u. destruct (moved_size l sz (fs_is_byref_home (fstack (context u)) serial off) None v Hl) as [-> <-]. done.
  - destruct Ha as (sz & Hl & Hr). apply (confined_map_err Bounds id), confined_map.
    eapply confined_size; [|eapply (confined_typed _ _ _ _ (fun l p => read_value r th (Raw p) l td)); eauto using read_value_stays].
    intros u. by apply (moved_size l sz _ td (SV.Int32 0)).
  - apply (confined_map_err Bounds id), confined_map, confined_window_id; [done | lia|]. intros. by apply stays_poke.
  - apply (confined_map_err Bounds id), confined_map, confined_window_id; [done | done|]. intros. apply stays_peek; lia.
  - specialize (Hword w sz Ha). destruct w; cbn [word_ptr] in Hword.
    + by apply confined_map, confined_window.
    + apply (confined_map_err Bounds id), confined_map, (confined_window id); eauto using stays_unmap.
    + apply (confined_map_err Bounds id), confined_map, (confined_window id); eauto using stays_unmap.
    + apply (confined_map_err Bounds id), confined_map, (confined_window id); eauto using stays_unmap.
    + apply (confined_map_err Bounds id), confined_map, (confined_window id); [done | done|]. intros p.
      eapply stays_unbind, stays_unmap; [|apply Hword]. done.
  - apply (confined_map_err Bounds id), confined_map, confined_window_id; [done | done|]. intros. apply object_atomic_ptr_stays.
Qed.
End access.

(** A thread in a frame with two homed numbers, and nothing else in memory. *)
Definition pair_frame : StackFrame :=
  set_frame_homes (new_frame {| bp_arguments := 0; bp_locals := 1; bp_stack := 3 |} test_method empty_lookup [])
    {| homes := Some {| hb_block := {| RawBlocks.base := 4096; RawBlocks.payload_len := 16;
                                       RawBlocks.layout := {| RawBlocks.layout_size := 16; RawBlocks.layout_align := 16 |} |};
                        hb_layout := pair_layout; hb_serial := 1 |}; temporaries := [] |}.

Definition pair_vm : vm :=
  {| context := context_of [pair_frame] [SV.Int32 5; SV.ObjectRef None; SV.ObjectRef None] NoException;
     memory := map_zeroed 4096 16 demo_mem;
     thread_gauges := {| RawBlocks.thread_bytes := 64; RawBlocks.live_blocks := 1 |}; static_storage := ∅ |}.

Lemma home_access_confined_witness :
  let run := run_access (reg run_s2) 2 (fun _ => None) 4 (fun _ => 0) (ARead (LScalar Scalars.Int32) None) (FrameHome 1) in
  fst (run 4 pair_vm) = Val (Loaded (SV.Int32 0)) /\ fst (run 16 pair_vm) = Err (Access (Bounds (BoundsCheck 16 4 16))).
Proof.
  intros run. split; [vm_compute; reflexivity|].
  assert (Hb : home_block (fstack (context pair_vm)) 1 = Some (4096, 16)) by (vm_compute; reflexivity).
  pose proof (home_access_confined (reg run_s2) 2 (fun _ => None) 4 (fun _ => 0) (ARead (LScalar Scalars.Int32) None) 1 16
    pair_vm (fst (run 16 pair_vm)) (snd (run 16 pair_vm))) as H. rewrite Hb in H. apply H.
  - exists 4. split; [reflexivity | vm_compute; split; discriminate].
  - vm_compute; split; discriminate.
  - intros b n Hn. injection Hn as <- <-. split; [reflexivity | vm_compute; discriminate].
  - apply surjective_pairing.
  - reflexivity.
Defined.
