(* ===== verification/Variables.v ===== *)
(** * Variables

    Locals and arguments ([dotnet-vm/src/stack/stack_ops_impl.rs]) and the instructions that
    load, store and address them or go through an address
    ([dotnet-vm/src/instructions/stack_ops.rs] and [memory.rs]).

    A variable whose address is taken lives in the home block of its frame, any other one
    in a slot of the evaluation stack.  The bytes of a value type are as many as its layout
    has ([FieldStorage]). *)

From Stdlib Require Import ZArith Lia.
From stdpp Require Import base tactics list option strings gmap.
From S2P Require Import Prelude Generics Bytes Floats Marking ManagedPtr ArenaRegistry PtrSerde StackValue Ops Instructions FrameAlloc Layout FrameHomes VmData HomeBuild Interp Exceptions MemoryChecks Memory MemorySafety RawOps.

Import Registry.

Local Open Scope vm_scope.

(** [Result] as a value: the error is caught. *)
Definition catch {E F A} (x : act E A) : act F (E + A) := fun v =>
  match x v with
  | (Val a, v) => (Val (inr a), v)
  | (Err (Access e), v) => (Val (inl e), v)
  | (Err Undefined, v) => (Err Undefined, v)
  | (Panic, v) => (Panic, v)
  end.

(** [expect] *)
Definition aexpect {E F A} (x : act E A) : act F A :=
  let^ y := catch x in match y with inr a => aret a | inl _ => apanic end.

(** [?] in a function that returns a step. *)
Notation "'let?' x ':=' m 'in' k" :=
  (abind (catch m) (fun y => match y with inl e => aret (Error e) | inr x => k end))
  (at level 10, x pattern, m at level 100, k at level 200) : vm_scope.

(** Bytes that a borrowed slice holds, at an address of their own. *)
Definition on_slice {E A} (bs : list Z) (k : place -> op E A) : op E A := fun m =>
  let '(x, m') := k (Raw 1) (set_raw m (list_to_map (zip (addresses 1 (length bs)) bs))) in (x, set_raw m' (raw m)).

Section variables.

Variable r : ArenaRegistry.
Variable th : nat.
Variable rt : runtime.
Variable threshold : nat.
Variable transient_base : Object -> Z.
(** [ResolverService::stack_value_type] *)
Variable stack_value_type : StackValue -> TypeResolutionError + TypeDescription.

Abbreviation is_enum := (rt_is_enum rt).

(** ** The interpreter *)

Definition apush {E} (x : StackValue) : act E unit := amodify (fun v => set_context v (push x (context v))).

Definition apop : act VmError StackValue := fun v =>
  let '(x, c) := pop_safe (context v) in
  (match x with Val x => Val x | Err e => Err (Access e) | Panic => Panic end, set_context v c).

Definition athrow {E} (name msg : string) : act E StepResult := fun v =>
  let '(c, s) := ves_throw_by_name rt name msg None (context v) in (Val s, set_context v c).

Definition frame {E} : act E StackFrame := fun v => (current_frame (fstack (context v)), v).

(** ** Homes *)

Definition load_home {E} (a : Z) (home : VariableHome) : act E StackValue :=
  match vh_value_type home with
  | Some vt =>
      let^ sz := alift (size (hv_fields vt)) in
      let^ bs := on_memory (peek (Raw a) sz) in
      aret (SV.ValueType {| description := hv_description vt; obj_generics := hv_generics vt; layout_arc := hv_arc vt;
                            data := bs; has_finalizer := false; finalizer_suppressed := false |})
  | None => aexpect (on_memory (read_value r th (Raw a) (vh_layout home) None))
  end.

Definition home_mismatch {A} (what : string) : act VmError A := afail (VmMemoryAccess (MemoryTypeMismatch what)).

(** The value of an enum or another scalar type wrapped in a value type. *)
Definition unwrap_scalar (home : VariableHome) (x : StackValue) : act VmError StackValue :=
  match vh_scalar_type home, x with
  | Some expected, SV.ValueType obj =>
      if negb (bool_decide (description obj = expected)) then home_mismatch "stored scalar value type does not match its home"
      else
        let^ sz := alift (size (vh_layout home)) in
        if negb (Z.of_nat (length (data obj)) =? sz) then home_mismatch "stored scalar value type does not match its home"
        else amap_err VmMemoryAccess (on_memory (on_slice (data obj) (fun p => read_value r th p (vh_layout home) None)))
  | _, _ => aret x
  end.

(** The implicit conversions of a store. *)
Definition convert_for_home (l : LayoutManager) (x : StackValue) : act VmError StackValue :=
  match l, x with
  | LScalar Scalars.NativeInt, SV.Int32 i => aret (SV.NativeInt i)
  | LScalar Scalars.NativeInt, SV.ManagedPtr q =>
      match try_observe_address (rt_heap rt) q with
      | Val a => aret (SV.NativeInt (wrap isize (default 0 a)))
      | _ => afail (VmMemoryAccess InvalidOrigin)
      end
  | LScalar (Scalars.Int8 | Scalars.UInt8 | Scalars.Int16 | Scalars.UInt16 | Scalars.Int32), SV.NativeInt i =>
      aret (SV.Int32 (wrap I32 i))
  | LField _ total _ _ _, SV.ValueType obj =>
      if Z.of_nat (length (data obj)) =? total then aret x
      else home_mismatch "stored value type does not match the local's layout"
  | _, _ => aret x
  end.

Definition store_home (a : Z) (home : VariableHome) (x : StackValue) : act VmError unit :=
  let^ x := unwrap_scalar home x in
  let^ x := convert_for_home (vh_layout home) x in
  amap_err VmMemoryAccess (on_memory (write_to_unmanaged r th is_enum threshold a x (vh_layout home))).

(** ** Locals and arguments *)

Definition slot_value {E} (i : nat) : act E StackValue := fun v =>
  (match get_slot (E:=Empty_set) (eval (context v)) i with Val x => Val x | _ => Panic end, v).

Definition set_slot_value {E} (i : nat) (x : StackValue) : act E unit := fun v =>
  match set_slot (E:=Empty_set) (eval (context v)) i x with
  | Val e => (Val tt, set_context v (set_eval (context v) e))
  | _ => (Panic, v)
  end.

Definition get_local {E} (i : nat) : act E StackValue :=
  let^ f := frame in
  let^ s := alift (homes_local (frame_homes f) i) in
  match s with
  | Some s => load_home (slot_address s) (slot_home s)
  | None => slot_value (bp_locals (frame_base f) + i)
  end.

Definition set_local (i : nat) (x : StackValue) : act VmError unit :=
  let^ f := frame in
  let^ s := alift (homes_local (frame_homes f) i) in
  match s with
  | Some s => store_home (slot_address s) (slot_home s) x
  | None => set_slot_value (bp_locals (frame_base f) + i) x
  end.

Definition get_argument {E} (i : nat) : act E StackValue :=
  let^ f := frame in
  let^ s := alift (homes_argument (frame_homes f) i) in
  match s with
  | Some s => load_home (slot_address s) (slot_home s)
  | None => slot_value (bp_arguments (frame_base f) + i)
  end.

Definition set_argument (i : nat) (x : StackValue) : act VmError unit :=
  let^ f := frame in
  let^ s := alift (homes_argument (frame_homes f) i) in
  match s with
  | Some s => store_home (slot_address s) (slot_home s) x
  | None => set_slot_value (bp_arguments (frame_base f) + i) x
  end.

(** ** Addresses *)

Definition home_address (s : HomeSlot) (pinned : bool) : act TypeResolutionError StackValue :=
  let^ ty := match vh_scalar_type (slot_home s), vh_value_type (slot_home s) with
             | Some d, _ => aret d
             | None, Some vt => aret (hv_description vt)
             | None, None =>
                 let^ x := load_home (slot_address s) (slot_home s) in
                 match stack_value_type x with inr d => aret d | inl e => afail e end
             end in
  let^ q := alift (new_frame_home (slot_address s) ty (slot_serial s) (vh_offset (slot_home s)) pinned) in
  aret (SV.ManagedPtr q).

Definition not_homed {A} : act TypeResolutionError A :=
  afail (InvalidLayout "address-taking requires a supported frame home; TypedReference addresses are not supported").

Definition local_address (i : nat) : act TypeResolutionError StackValue :=
  let^ f := frame in
  let^ s := alift (homes_local (frame_homes f) i) in
  match s with
  | Some s => home_address s (default false (pinned_locals f !! i))
  | None => not_homed
  end.

Definition argument_address (i : nat) : act TypeResolutionError StackValue :=
  let^ f := frame in
  let^ s := alift (homes_argument (frame_homes f) i) in
  match s with
  | Some s => home_address s true
  | None => not_homed
  end.

(** [install_frame_homes]: the homed arguments get the values the caller passed. *)
Definition install_argument (x : nat * VariableHome) : act TypeResolutionError unit :=
  let^ f := frame in
  let^ s := alift (homes_argument (frame_homes f) x.1) in
  match s with
  | None => apanic
  | Some s =>
      let^ y := slot_value (bp_arguments (frame_base f) + x.1) in
      amap_err (fun _ => InvalidLayout "argument does not match its parameter type") (store_home (slot_address s) x.2 y)
  end.

Fixpoint aiter {E A} (f : A -> act E unit) (l : list A) : act E unit :=
  match l with
  | [] => aret tt
  | a :: l => f a ;^ aiter f l
  end.

Definition install_frame_homes (h : FrameHomes) : act TypeResolutionError unit :=
  let^ _ := frame in
  amodify (fun v => set_context v (set_fstack (context v) (update_current (fstack (context v)) (fun f => set_frame_homes f h)))) ;^
  match homes_layout h with
  | None => aret tt
  | Some l => aiter install_argument (homed_arguments l)
  end.

(** ** Instructions *)

Abbreviation instruction := (act Empty_set StepResult).

Definition ldloc (i : nat) : instruction := let^ x := get_local i in apush x ;^ aret Continue.
Definition ldarg (i : nat) : instruction := let^ x := get_argument i in apush x ;^ aret Continue.

Definition stloc (i : nat) : instruction :=
  let? x := apop in let? _ := set_local i x in aret Continue.
Definition starg (i : nat) : instruction :=
  let? x := apop in let? _ := set_argument i x in aret Continue.

Definition INVALID_PROGRAM_MSG : string := "Common Language Runtime detected an invalid program.".
Definition ACCESS_VIOLATION_MSG : string := "Attempted to read or write protected memory.".
Definition OVERFLOW_MSG : string := "Arithmetic operation resulted in an overflow.".
Definition OUT_OF_MEMORY_MSG : string := "Insufficient memory to continue the execution of the program.".
Definition NULL_REF_MSG : string := "Object reference not set to an instance of an object.".

Definition push_address (address : act TypeResolutionError StackValue) : instruction :=
  let^ q := catch address in
  match q with
  | inr q => apush q ;^ aret Continue
  | inl (InvalidLayout _) => athrow "System.InvalidProgramException" INVALID_PROGRAM_MSG
  | inl e => aret (Error (VmTypeResolution e))
  end.

Definition ldloca (i : nat) : instruction := push_address (local_address i).
Definition ldarga (i : nat) : instruction := push_address (argument_address i).

(** *** Through an address *)

Definition resolve_indirect_origin_and_offset (a : StackValue) : act Empty_set (StepResult + PointerOrigin * Z) :=
  if sv_is_null a then let^ s := athrow "System.NullReferenceException" NULL_REF_MSG in aret (inl s)
  else
    match a with
    | SV.NativeInt p => aret (inr (Unmanaged, wrap usize p))
    | SV.ManagedPtr m => aret (inr (origin m, byte_offset m))
    | SV.UnmanagedPtr u => aret (inr (Unmanaged, u))
    | _ => let^ s := athrow "System.InvalidProgramException" INVALID_PROGRAM_MSG in aret (inl s)
    end.

Definition stale_frame_home (o : PointerOrigin) (e : MemoryAccessError) : option StepResult :=
  match o, e with
  | FrameHome _, InvalidOrigin => Some (Error (VmMemoryAccess e))
  | _, _ => None
  end.

(** What an access that failed becomes. *)
Definition access_failed (o : PointerOrigin) (off : Z) (e : MemoryAccessError) : instruction :=
  match stale_frame_home o e with
  | Some s => aret s
  | None =>
      if match o with Unmanaged => true | _ => false end && (off =? 0)
      then athrow "System.NullReferenceException" NULL_REF_MSG
      else athrow "System.AccessViolationException" ACCESS_VIOLATION_MSG
  end.

Inductive StoreType : Set := StInt8 | StInt16 | StInt32 | StInt64 | StIntPtr | StFloat32 | StFloat64 | StObject.
Inductive LoadType : Set :=
  LdInt8 | LdUInt8 | LdInt16 | LdUInt16 | LdInt32 | LdUInt32 | LdInt64 | LdFloat32 | LdFloat64 | LdIntPtr | LdObject.

Definition store_layout (t : StoreType) : LayoutManager :=
  LScalar match t with
          | StInt8 => Scalars.Int8 | StInt16 => Scalars.Int16 | StInt32 => Scalars.Int32 | StInt64 => Scalars.Int64
          | StIntPtr => Scalars.NativeInt | StFloat32 => Scalars.Float32 | StFloat64 => Scalars.Float64
          | StObject => Scalars.ObjectRef
          end.

Definition load_layout (t : LoadType) : LayoutManager :=
  LScalar match t with
          | LdInt8 => Scalars.Int8 | LdUInt8 => Scalars.UInt8 | LdInt16 => Scalars.Int16 | LdUInt16 => Scalars.UInt16
          | LdInt32 | LdUInt32 => Scalars.Int32 | LdInt64 => Scalars.Int64 | LdFloat32 => Scalars.Float32
          | LdFloat64 => Scalars.Float64 | LdIntPtr => Scalars.NativeInt | LdObject => Scalars.ObjectRef
          end.

Definition stind (t : StoreType) : instruction :=
  let? x := apop in
  let? a := apop in
  let^ place := resolve_indirect_origin_and_offset a in
  match place with
  | inl s => aret s
  | inr (o, off) =>
      let^ res := catch (write_unaligned r th is_enum threshold transient_base o off x (store_layout t)) in
      match res with inr _ => aret Continue | inl e => access_failed o off e end
  end.

Definition ldind (t : LoadType) : instruction :=
  let? a := apop in
  let^ place := resolve_indirect_origin_and_offset a in
  match place with
  | inl s => aret s
  | inr (o, off) =>
      let^ res := catch (read_unaligned r th transient_base o off (load_layout t) None) in
      match res with inr x => apush x ;^ aret Continue | inl e => access_failed o off e end
  end.

(** [localloc] *)
Definition localloc_instruction (alloc_fn : RawBlocks.Layout -> Z) (reserved : bool) : instruction :=
  let? x := apop in
  let? n := alift (omap_err VmExecution (try_as_isize x)) in
  let^ res := catch (let^ sz := alift (Ledger.request_size n) in localloc alloc_fn reserved sz) in
  match res with
  | inr p => apush (SV.UnmanagedPtr p) ;^ aret Continue
  | inl Ledger.NegativeSize => athrow "System.OverflowException" OVERFLOW_MSG
  | inl _ => athrow "System.OutOfMemoryException" OUT_OF_MEMORY_MSG
  end.
End variables.

(** ** Raw memory after a write *)

(** [bs] is at [p]; nothing else has changed. *)
Record poked (p : Z) (bs : list Z) (m m' : mem) : Prop := {
  pk_mapped : forall a, p <= a < p + Z.of_nat (length bs) -> is_Some (raw m !! a);
  pk_raw : raw m' = list_to_map (zip (addresses p (length bs)) bs) ∪ raw m;
  pk_heap : heap m' = heap m;
  pk_ids : static_ids m' = static_ids m;
}.

Lemma poke_poked {E} p bs m m' : poke (E:=E) (Raw p) bs m = (Val tt, m') -> poked p bs m m'.
Proof.
  unfold poke, mbind, gets, id. destruct (mapM _ _) as [old|] eqn:Hm; [|done]. intros [= <-]. split; try done.
  intros a Ha. apply mapM_Some in Hm. assert (Hin : a ∈ addresses p (length bs)) by (apply addresses_elem; lia).
  apply list_elem_of_lookup in Hin as [i Hi]. destruct (Forall2_lookup_l _ _ _ _ _ Hm Hi) as (y & _ & Hy). eauto.
Qed.

Lemma lookup_zip_addresses p bs i x : bs !! i = Some x ->
  (list_to_map (zip (addresses p (length bs)) bs) : gmap Z Z) !! (p + Z.of_nat i) = Some x.
Proof.
  intros Hi. assert (Hl : (i < length bs)%nat) by (apply lookup_lt_Some in Hi; done).
  apply elem_of_list_to_map_1.
  - rewrite fst_zip by (unfold addresses; rewrite length_seqZ; lia). apply NoDup_seqZ.
  - apply list_elem_of_lookup. exists i. rewrite lookup_zip_with. unfold addresses. rewrite lookup_seqZ_lt by lia. simpl.
    by rewrite Hi.
Qed.

Lemma poked_peek {E} p bs m m' : poked p bs m m' -> peek (E:=E) (Raw p) (Z.of_nat (length bs)) m' = (Val bs, m').
Proof.
  intros [_ Hr _ _]. unfold peek, mbind, gets, id, mret. rewrite Nat2Z.id.
  assert (Hm : mapM (raw m' !!.) (addresses p (length bs)) = Some bs); [|by rewrite Hm].
  apply mapM_Some, Forall2_same_length_lookup_2; [unfold addresses; rewrite length_seqZ; lia|].
  intros i a x Ha Hx. unfold addresses in Ha. apply lookup_seqZ in Ha as [-> _]. rewrite Hr.
  apply lookup_union_Some_l, lookup_zip_addresses. done.
Qed.

Lemma mapM_ext_elem {A B} (f g : A -> option B) l : (forall x, x ∈ l -> f x = g x) -> mapM f l = mapM g l.
Proof.
  induction l as [|a l IH]; intros H; [done|]. simpl. rewrite (H a) by left. rewrite IH; [done|]. intros x Hx. apply H. by right.
Qed.

Lemma poked_elsewhere {E} p bs m m' q n : poked p bs m m' -> q + n <= p \/ p + Z.of_nat (length bs) <= q ->
  fst (peek (E:=E) (Raw q) n m') = fst (peek (E:=E) (Raw q) n m).
Proof.
  intros [_ Hr _ _] Hd. unfold peek, mbind, gets, id, mret, undefined.
  rewrite (mapM_ext_elem (raw m' !!.) (raw m !!.)); [by destruct (mapM _ _)|]. intros a Ha%addresses_elem. rewrite Hr.
  apply lookup_union_r, not_elem_of_list_to_map. rewrite fst_zip by (unfold addresses; rewrite length_seqZ; lia).
  rewrite addresses_elem. lia.
Qed.

(** ** What a home holds *)

(** Operations that only read. *)
Definition reads {E A} (x : op E A) : Prop := forall m, snd (x m) = m.

Lemma reads_bind {E A B} (x : op E A) (f : A -> op E B) : reads x -> (forall a, reads (f a)) -> reads (mbind x f).
Proof.
  intros Hx Hf m. unfold mbind. specialize (Hx m). destruct (x m) as [[a|e|] m1]; simpl in *; subst; [apply Hf | done | done].
Qed.

Lemma reads_peek {E} p n : reads (peek (E:=E) p n).
Proof. intros m. unfold peek, mbind, gets, mret, undefined, id. destruct p; repeat case_match; done. Qed.

Lemma read_scalar_reads r th p s td : reads (read_scalar r th p s td).
Proof.
  destruct s; cbn [read_scalar]; unfold read_int;
    repeat first [apply reads_peek | match goal with |- reads (mbind _ _) => apply reads_bind; [|intros] end | done | case_match].
Qed.

Section home_laws.

Variable r : ArenaRegistry.
Variable th : nat.
Variable rt : runtime.
Variable threshold : nat.

Abbreviation is_enum := (rt_is_enum rt).

Lemma write_int_poked p t i m m' : write_int (Raw p) t i m = (Val tt, m') -> poked p (to_le_bytes t (wrap t i)) m m'.
Proof. apply poke_poked. Qed.

Lemma write_scalar_poked arena p v s m m' : s <> Scalars.ManagedPtr ->
  write_scalar r th is_enum threshold arena (Raw p) None v s m = (Val tt, m') ->
  exists bs, scalar_bytes r th is_enum m v s bs /\ poked p bs m m'.
Proof.
  intros Hs H. destruct s; cbn [write_scalar scalar_bytes] in *; [|done|..].
  2-10: op_step H; first [ apply extract_int_val in H0 as [Hc ->] | apply extract_long_val in H0 as [Hc ->]
    | apply extract_native_int_val in H0 as [Hc ->] | apply extract_float_val in H0 as [-> ->] ];
    apply write_int_poked in H; eauto 8.
  destruct v; try done. op_step H. op_step H. op_step H. destruct a0. apply poke_poked in H1. apply mret_val in H as [_ ->].
  exists (to_le_bytes usize a). eauto 8.
Qed.

(** A variable is a scalar, or a value type with the layout of its fields. *)
Definition home_ok (home : VariableHome) : Prop :=
  match vh_value_type home with
  | Some vt => hv_fields vt = vh_layout home /\ exists fs total al d hr, vh_layout home = LField fs total al d hr /\ is_range usize total
  | None => exists s, vh_layout home = LScalar s /\ s <> Scalars.ManagedPtr
  end.

Lemma write_to_unmanaged_poked a home x m m' : home_ok home ->
  write_to_unmanaged r th is_enum threshold a x (vh_layout home) m = (Val tt, m') ->
  a <> 0 /\ exists bs, value_bytes r th is_enum m x (vh_layout home) bs /\ poked a bs m m'.
Proof.
  unfold home_ok, write_to_unmanaged, Memory.write_value. intros Hok H. destruct (Z.eqb_spec a 0) as [|Ha]; [done|]. split; [done|].
  op_step H. simpl in H. destruct (Z.eqb_spec a 0); [done|]. op_step H. destruct a0.
  assert (Hsame : m0 = m).
  { unfold backward_barrier_for_heap_ref_write in H0. by destruct (match vh_layout home with LField _ _ _ _ _ => _ | _ => _ end);
      apply mret_val in H0 as [_ ->]. }
  subst m0. destruct (vh_value_type home) as [vt|].
  - destruct Hok as (_ & fs & total & al & d & hr & Hl & _). rewrite Hl in *. destruct x as [| | | | | | |obj| |]; try done.
    destruct (Z.leb_spec total (Z.of_nat (length (data obj)))); [|done]. op_step H. destruct a0. apply mret_val in H as [_ ->].
    apply poke_poked in H2. cbn [value_bytes]. eauto 8.
  - destruct Hok as (s & Hl & Hs). rewrite Hl in *. by eapply write_scalar_poked.
Qed.

(** The value a store leaves in the home. *)
Definition stored_as (home : VariableHome) (x : StackValue) : act VmError StackValue :=
  let^ x := unwrap_scalar r th home x in convert_for_home rt (vh_layout home) x.

(** What is loaded from the home after it. *)
Definition home_loaded (home : VariableHome) (x : StackValue) : StackValue :=
  match vh_value_type home, x with
  | Some vt, SV.ValueType obj =>
      SV.ValueType {| description := hv_description vt; obj_generics := hv_generics vt; layout_arc := hv_arc vt;
                      data := data obj; has_finalizer := false; finalizer_suppressed := false |}
  | Some _, x => x
  | None, x => loaded is_enum NULL_TYPE 0 (vh_layout home) x
  end.

Lemma set_raw_back m x : set_raw (set_raw m x) (raw m) = m.
Proof. by destruct m. Qed.

Lemma read_value_reads p l : reads (read_value r th p l None).
Proof.
  intros m. unfold read_value, mbind, gets, id. destruct (_ =? 0); [done|]. destruct l; [done | done|]. apply read_scalar_reads.
Qed.

Lemma on_slice_reads {E A} bs (k : place -> op E A) : (forall p, reads (k p)) -> reads (on_slice bs k).
Proof.
  intros Hk m. unfold on_slice. specialize (Hk (Raw 1) (set_raw m (list_to_map (zip (addresses 1 (length bs)) bs)))).
  destruct (k _ _) as [x m']. simpl in *. subst. apply set_raw_back.
Qed.

Lemma set_memory_id v : set_memory v (memory v) = v.
Proof. by destruct v. Qed.

Lemma on_memory_reads {E A} (x : op E A) v y v' : reads x -> on_memory x v = (y, v') -> v' = v.
Proof.
  intros Hx H. unfold on_memory in H. specialize (Hx (memory v)). destruct (x (memory v)). simpl in *. subst.
  injection H as _ <-. apply set_memory_id.
Qed.

Lemma stored_as_reads home x v y v' : stored_as home x v = (y, v') -> v' = v.
Proof.
  unfold stored_as, abind. destruct (unwrap_scalar r th home x v) as [z v1] eqn:Hu.
  assert (Hv : v1 = v).
  { unfold unwrap_scalar in Hu. destruct (vh_scalar_type home); [|by injection Hu as _ <-].
    destruct x as [| | | | | | |obj| |]; try by injection Hu as _ <-. destruct (negb _); [by injection Hu as _ <-|]. unfold abind, alift in Hu.
    destruct (size (vh_layout home)); [|by injection Hu as _ <-..]. destruct (negb _); [by injection Hu as _ <-|].
    unfold amap_err in Hu. destruct (on_memory _ v) as [w v2] eqn:Hm.
    apply on_memory_reads in Hm as ->; [|apply on_slice_reads; intros; apply read_value_reads].
    destruct w as [|[]|]; by injection Hu as _ <-. }
  subst v1. destruct z as [x'|e|]; [|by intros [= _ <-]..]. unfold convert_for_home, home_mismatch.
  repeat case_match; by intros [= _ <-].
Qed.

(** A store that succeeds has written the bytes of the value. *)
Lemma store_home_poked a home x v v' : home_ok home -> store_home r th rt threshold a home x v = (Val tt, v') ->
  a <> 0 /\ exists x' bs, stored_as home x v = (Val x', v) /\ value_bytes r th is_enum (memory v) x' (vh_layout home) bs /\
    poked a bs (memory v) (memory v') /\ v' = set_memory v (memory v').
Proof.
  intros Hok H. assert (Heq : store_home r th rt threshold a home x v =
    (let^ x := stored_as home x in
     amap_err VmMemoryAccess (on_memory (write_to_unmanaged r th is_enum threshold a x (vh_layout home)))) v).
  { unfold store_home, stored_as, abind. by destruct (unwrap_scalar r th home x v) as [[]]. }
  rewrite Heq in H. unfold abind in H. destruct (stored_as home x v) as [y v1] eqn:Hs.
  pose proof (stored_as_reads _ _ _ _ _ Hs) as ->. destruct y as [x'|e|]; [|done..]. unfold amap_err, on_memory in H.
  destruct (write_to_unmanaged _ _ _ _ _ _ _ (memory v)) as [w m'] eqn:Hw. destruct w as [[]|[]|]; try done. injection H as <-.
  apply write_to_unmanaged_poked in Hw as (Ha & bs & Hb & Hp); [|done]. split; [done|]. exists x', bs. done.
Qed.

Lemma load_home_poked {E} a home x bs v v' : home_ok home -> a <> 0 -> mem_placed (memory v) ->
  value_bytes r th is_enum (memory v) x (vh_layout home) bs ->
  (vh_value_type home = None -> loadable is_enum (memory v) (vh_layout home) x) ->
  (forall obj total, vh_value_type home <> None -> x = SV.ValueType obj -> size (E:=Empty_set) (vh_layout home) = Val total ->
     Z.of_nat (length (data obj)) = total) ->
  poked a bs (memory v) (memory v') -> load_home (E:=E) r th a home v' = (Val (home_loaded home x), v').
Proof.
  unfold home_ok, load_home, home_loaded. intros Hok Ha Hpl Hb Hl Hsz Hp. destruct (vh_value_type home) as [vt|].
  - destruct Hok as (Hf & fs & total & al & d & hr & Hlay & Hr). rewrite Hf, Hlay in *. destruct Hb as (obj & -> & Hle & ->).
    specialize (Hsz obj total ltac:(done) eq_refl eq_refl). unfold abind at 1, alift. cbn [size].
    rewrite take_ge in Hp by lia. pose proof (poked_peek (E:=E) _ _ _ _ Hp) as Hpk. rewrite Hsz in Hpk.
    unfold abind, on_memory. rewrite Hpk. unfold aret. by rewrite set_memory_id.
  - destruct Hok as (s & Hlay & Hs). rewrite Hlay in *. unfold aexpect, abind, catch, on_memory.
    assert (Hrd : read_value r th (Raw a) (LScalar s) None (memory v') = (Val (loaded is_enum NULL_TYPE 0 (LScalar s) x), memory v')).
    { unfold read_value, mbind, gets, id. cbn [address_of]. destruct (Z.eqb_spec a 0); [done|].
      eapply read_scalar_at; eauto. intros F. by eapply poked_peek. }
    rewrite Hrd. unfold aret. by rewrite set_memory_id.
Qed.

(** ** Elsewhere *)

Lemma read_int_elsewhere q t m m' : fst (peek (E:=MemoryAccessError) (Raw q) (bits t / 8) m') = fst (peek (E:=MemoryAccessError) (Raw q) (bits t / 8) m) ->
  fst (read_int (Raw q) t m') = fst (read_int (Raw q) t m).
Proof.
  intros H. unfold read_int, mbind. destruct (peek _ _ m') as [x' m1'], (peek _ _ m) as [x m1]. simpl in H. subst. by destruct x.
Qed.

Lemma bind_same {E A B} (x : op E A) (f g : A -> op E B) m m' :
  reads x -> fst (x m') = fst (x m) -> (forall a, fst (f a m') = fst (g a m)) -> fst (mbind x f m') = fst (mbind x g m).
Proof.
  intros Hx H Hf. unfold mbind. pose proof (Hx m) as H1. pose proof (Hx m') as H2.
  destruct (x m') as [y' m1'], (x m) as [y m1]. simpl in *. subst. by destruct y.
Qed.

Lemma read_scalar_elsewhere q s m m' :
  (forall E, fst (peek (E:=E) (Raw q) (Scalars.size_const s) m') = fst (peek (E:=E) (Raw q) (Scalars.size_const s) m)) ->
  heap m' = heap m -> static_ids m' = static_ids m ->
  fst (read_scalar r th (Raw q) s None m') = fst (read_scalar r th (Raw q) s None m).
Proof.
  intros Hp Hh Hi. assert (Hrd : forall t, reads (read_int (Raw q) t)) by
    (intros; unfold read_int; apply reads_bind; [apply reads_peek | done]).
  destruct s; cbn [read_scalar];
    try (apply bind_same; [apply Hrd | apply read_int_elsewhere, Hp | done]).
  - apply bind_same; [apply reads_peek | apply Hp|]. intros bs. unfold mbind, unwrap. by destruct (PtrSerde.try_from_storage_ptr _ _ _).
  - apply bind_same; [apply reads_peek | apply Hp|]. intros bs.
    assert (Heq : read_managed_ptr r th m' bs = read_managed_ptr r th m bs) by (unfold read_managed_ptr, no_resolver; by rewrite Hh, Hi).
    unfold mbind, gets, id. rewrite Heq. destruct (read_managed_ptr r th m bs) as [info|e|]; [|done..]. unfold mret, unwrap.
    by destruct (from_info_full _ _ _).
Qed.

(** A home that does not overlap what was written. *)
Lemma load_home_elsewhere {E} p bs v v' a home sz : poked p bs (memory v) (memory v') ->
  size (E:=Empty_set) (vh_layout home) = Val sz -> (forall vt, vh_value_type home = Some vt -> hv_fields vt = vh_layout home) ->
  a + sz <= p \/ p + Z.of_nat (length bs) <= a ->
  fst (load_home (E:=E) r th a home v') = fst (load_home (E:=E) r th a home v).
Proof.
  intros Hp Hs Hv Hd. assert (Hpk : forall F, fst (peek (E:=F) (Raw a) sz (memory v')) = fst (peek (E:=F) (Raw a) sz (memory v)))
    by (intros; by eapply poked_elsewhere).
  unfold load_home. destruct (vh_value_type home) as [vt|].
  - rewrite (Hv vt eq_refl). unfold abind, alift. rewrite (size_any _ _ Hs). unfold on_memory. specialize (Hpk E).
    destruct (peek _ _ (memory v')) as [x m1], (peek _ _ (memory v)) as [y m2]. simpl in Hpk. subst. by destruct y.
  - assert (Hr : fst (read_value r th (Raw a) (vh_layout home) None (memory v')) = fst (read_value r th (Raw a) (vh_layout home) None (memory v))).
    { unfold read_value, mbind, gets, id. cbn [address_of]. destruct (a =? 0); [done|]. destruct (vh_layout home); [done | done|].
      injection Hs as <-. destruct Hp. by apply read_scalar_elsewhere. }
    unfold aexpect, abind, catch, on_memory. destruct (read_value _ _ _ _ _ (memory v')) as [x m1], (read_value _ _ _ _ _ (memory v)) as [y m2].
    simpl in Hr. subst. by destruct y as [|[]|].
Qed.

(** ** Locals and arguments as one *)

Definition get_variable {E} (x : variable) : act E StackValue :=
  match x with LocalVar i => get_local r th i | ArgumentVar i => get_argument r th i end.

Definition set_variable (x : variable) (y : StackValue) : act VmError unit :=
  match x with LocalVar i => set_local r th rt threshold i y | ArgumentVar i => set_argument r th rt threshold i y end.

Definition frame_slot (f : StackFrame) (x : variable) : nat :=
  match x with LocalVar i => bp_locals (frame_base f) + i | ArgumentVar i => bp_arguments (frame_base f) + i end%nat.

Definition frame_home (f : StackFrame) (x : variable) : outcome Empty_set (option HomeSlot) :=
  match homes (frame_homes f) with
  | None => Val None
  | Some b =>
      match layout_home (hb_layout b) x with
      | None => Val None
      | Some home => let* s := FrameHomes.slot b home in Val (Some s)
      end
  end.

(** The slots of the arguments are below those of the locals, and the homes are the ones
    that are built for a method. *)
Record frame_laid_out (f : StackFrame) (arguments locals : nat) : Prop := {
  fl_slots : (bp_arguments (frame_base f) + arguments <= bp_locals (frame_base f))%nat;
  fl_homes : forall b, homes (frame_homes f) = Some b -> exists instructions, homes_sound (hb_layout b) instructions;
}.

Definition declared (arguments locals : nat) (x : variable) : Prop :=
  match x with LocalVar i => (i < locals)%nat | ArgumentVar i => (i < arguments)%nat end.

Definition at_home {E A} (f : StackFrame) (x : variable) (home : HomeSlot -> act E A) (slot : nat -> act E A) : act E A :=
  match frame_home f x with
  | Val (Some s) => home s
  | Val None => slot (frame_slot f x)
  | _ => apanic
  end.

Lemma get_variable_at {E} f x v : current_frame (E:=Empty_set) (fstack (context v)) = Val f ->
  get_variable (E:=E) x v = at_home f x (fun s => load_home r th (slot_address s) (slot_home s)) slot_value v.
Proof.
  intros Hf. assert (Hf' : frame (E:=E) v = (Val f, v)).
  { unfold frame, current_frame, expect in *. destruct (last _); [by injection Hf as -> | done]. }
  unfold get_variable, get_local, get_argument, at_home, frame_home, homes_local, homes_argument, layout_home, FrameHomes.slot, expect.
  destruct x as [i|i]; unfold abind, alift; rewrite Hf'; repeat (case_match; simplify_eq/=); done.
Qed.

Lemma set_variable_at f x y v : current_frame (E:=Empty_set) (fstack (context v)) = Val f ->
  set_variable x y v = at_home f x (fun s => store_home r th rt threshold (slot_address s) (slot_home s) y)
                         (fun i => set_slot_value i y) v.
Proof.
  intros Hf. assert (Hf' : frame (E:=VmError) v = (Val f, v)).
  { unfold frame, current_frame, expect in *. destruct (last _); [by injection Hf as -> | done]. }
  unfold set_variable, set_local, set_argument, at_home, frame_home, homes_local, homes_argument, layout_home, FrameHomes.slot, expect.
  destruct x as [i|i]; unfold abind, alift; rewrite Hf'; repeat (case_match; simplify_eq/=); done.
Qed.

Lemma stored_as_sized home x v obj v' total : home_ok home -> vh_value_type home <> None ->
  stored_as home x v = (Val (SV.ValueType obj), v') -> size (E:=Empty_set) (vh_layout home) = Val total ->
  Z.of_nat (length (data obj)) = total.
Proof.
  unfold home_ok. intros Hok Hv. destruct (vh_value_type home); [|done].
  destruct Hok as (_ & fs & t & al & d & hr & Hl & _). unfold stored_as, abind. rewrite Hl. intros H [= <-].
  destruct (unwrap_scalar r th home x v) as [[y|e|] v1]; [|done..]. unfold convert_for_home, home_mismatch in H.
  destruct y as [| | | | | | |o| |]; try by injection H. destruct (Z.eqb_spec (Z.of_nat (length (data o))) t); [|done]. by injection H as <-.
Qed.

Lemma home_bytes_length home m x bs : home_ok home -> value_bytes r th is_enum m x (vh_layout home) bs ->
  size (E:=Empty_set) (vh_layout home) = Val (Z.of_nat (length bs)).
Proof.
  unfold home_ok. destruct (vh_value_type home).
  - intros (_ & fs & t & al & d & hr & -> & Hr) (obj & -> & Hl & ->). simpl. f_equal. rewrite length_take. int_bounds. lia.
  - intros (s & -> & _). apply value_bytes_length. constructor.
Qed.

Lemma frame_home_at f x s : frame_home f x = Val (Some s) -> exists b, homes (frame_homes f) = Some b /\
  layout_home (hb_layout b) x = Some (slot_home s) /\ slot_address s = RawBlocks.base (hb_block b) + vh_offset (slot_home s).
Proof.
  unfold frame_home, FrameHomes.slot, RawBlocks.ptr_at. destruct (homes (frame_homes f)) as [b|]; [|done].
  destruct (layout_home _ x) as [h|] eqn:Hh; [|done]. destruct (_ <? _); [done|]. intros [= <-]. by exists b.
Qed.

Lemma frame_slot_inj f arguments locals x y : frame_laid_out f arguments locals -> declared arguments locals x ->
  declared arguments locals y -> frame_slot f x = frame_slot f y -> x = y.
Proof. intros [H _] Hx Hy He. destruct x, y; simpl in *; f_equal; lia. Qed.

(** Two variables in homes do not share a byte. *)
Lemma homes_apart f arguments locals x y s s' n n' : frame_laid_out f arguments locals -> x <> y ->
  frame_home f x = Val (Some s) -> frame_home f y = Val (Some s') ->
  size (E:=Empty_set) (vh_layout (slot_home s)) = Val n -> size (E:=Empty_set) (vh_layout (slot_home s')) = Val n' ->
  slot_address s' + n' <= slot_address s \/ slot_address s + n <= slot_address s'.
Proof.
  intros Hf Hne (b & Hb & Hx & ->)%frame_home_at (b' & Hb' & Hy & ->)%frame_home_at Hn Hn'. rewrite Hb in Hb'. injection Hb' as <-.
  destruct (fl_homes _ _ _ Hf b Hb) as [ins Hs]. destruct (hs_apart _ _ Hs _ _ _ _ _ _ Hx Hy Hne Hn Hn'); lia.
Qed.

Lemma load_home_memory {E} a home v v' : memory v' = memory v -> fst (load_home (E:=E) r th a home v') = fst (load_home (E:=E) r th a home v).
Proof.
  intros Hm. unfold load_home. destruct (vh_value_type home); unfold aexpect, abind, alift, catch, on_memory.
  - destruct (size _); [|done..]. rewrite Hm. destruct (peek _ _ _) as [[] ?]; done.
  - rewrite Hm. destruct (read_value _ _ _ _ _ _) as [[|[]|] ?]; done.
Qed.

(** A store to a variable leaves the others alone. *)
Lemma set_variable_elsewhere {E} f arguments locals x y val v v' :
  current_frame (E:=Empty_set) (fstack (context v)) = Val f -> frame_laid_out f arguments locals ->
  declared arguments locals x -> declared arguments locals y -> x <> y ->
  (forall s, frame_home f x = Val (Some s) -> home_ok (slot_home s)) ->
  set_variable x val v = (Val tt, v') ->
  current_frame (E:=Empty_set) (fstack (context v')) = Val f /\ fst (get_variable (E:=E) y v') = fst (get_variable (E:=E) y v).
Proof.
  intros Hf Hl Hx Hy Hne Hok Hs. rewrite (set_variable_at f) in Hs by done. unfold at_home in Hs.
  destruct (frame_home f x) as [[s|]|e|] eqn:Hh; try done.
  - specialize (Hok s eq_refl). apply store_home_poked in Hs as (Ha & x' & bs & _ & Hb & Hp & Hv); [|done].
    assert (Hf' : current_frame (E:=Empty_set) (fstack (context v')) = Val f) by (rewrite Hv; done). split; [done|].
    rewrite !(get_variable_at f) by done. unfold at_home.
    destruct (frame_home f y) as [[s'|]|e|] eqn:Hh'; [|unfold slot_value; by rewrite Hv | done..].
    destruct (frame_home_at _ _ _ Hh') as (b & Hbl & Hlay & _). destruct (fl_homes _ _ _ Hl b Hbl) as [ins Hso].
    destruct (hs_home _ _ Hso _ _ Hlay) as (_ & (n & Hn & _) & _ & Hvt).
    eapply load_home_elsewhere; [done | done | done|]. eapply homes_apart; eauto. by eapply home_bytes_length.
  - unfold set_slot_value, set_slot in Hs. destruct (_ <? _)%nat; [|done]. injection Hs as <-. split; [done|].
    rewrite !(get_variable_at f) by done. unfold at_home.
    destruct (frame_home f y) as [[s'|]|e|] eqn:Hh'; [| |done..].
    + by apply load_home_memory.
    + unfold slot_value, get_slot. simpl. rewrite list_lookup_insert_ne; [done|].
      intros He. by eapply Hne, frame_slot_inj.
Qed.

End home_laws.

Lemma pair_frame_laid_out : frame_laid_out pair_frame 1 2.
Proof.
  split; [vm_compute; lia|]. intros b Hb. injection Hb as <-. eexists. apply pair_sound.
Qed.

