(* ===== verification/Blocks.v ===== *)
(** * Blocks of memory

    [cpblk] and [initblk] ([dotnet-vm/src/instructions/memory.rs]) and the pointers they
    retain ([dotnet-value/src/pointer/retained.rs]): a block is copied or filled in chunks,
    with a look at the stop request of the collector between two chunks.

    An integer is an address of raw memory.  The debug registry of atomic accesses is not
    modelled. *)

From Stdlib Require Import ZArith Lia.
From stdpp Require Import base tactics list option strings gmap.
From S2P Require Import Prelude Generics Bytes Marking ManagedPtr ArenaRegistry PtrSerde StackValue Ops FrameAlloc Layout FrameHomes VmData HomeBuild Interp Exceptions MemoryChecks Memory MemorySafety RawOps Variables.

Import Registry.

Local Open Scope vm_scope.

Section blocks.

Variable r : ArenaRegistry.
Variable th : nat.
Variable rt : runtime.
(** Whether the collector has asked for a stop when it is looked at for the [i]th time. *)
Variable stop_requested : nat -> bool.

Abbreviation instruction := (act Empty_set StepResult).

(** ** Retained pointers *)

(** The address, and the place whose bytes are there. *)
Record RetainedPtr : Type := { ptr : Z; ptr_place : place; ptr_owner : StackValue }.

Definition heap_view_of (m : mem) : heap_view :=
  {| payload_base := fun h => match heap m !! h with Some o => ho_base o | None => 0 end;
     leased_payload_base := fun c =>
       match try_acquire_lease_for_identity r th (co_identity c) with
       | Some _ => match heap m !! co_ptr c with Some o => Some (ho_base o) | None => None end
       | None => None
       end |}.

(** [managed_ptr_as_ptr] *)
Definition managed_ptr_as_ptr (m : mem) (q : ManagedPtr.ManagedPtr) : Z :=
  if ManagedPtr.is_null q then 0 else default 0 (observe_address (heap_view_of m) q).

Definition managed_place (m : mem) (q : ManagedPtr.ManagedPtr) : place :=
  match origin q with
  | Heap (Some h) => InHeap h (byte_offset q)
  | CrossArenaObjectRef c => InHeap (co_ptr c) (byte_offset q)
  | _ => Raw (managed_ptr_as_ptr m q)
  end.

(** [retained_stack_value_lease]; the lease lasts as long as the instruction. *)
Definition retained_stack_value_lease (q : ManagedPtr.ManagedPtr) : act VmError unit :=
  match origin q with
  | CrossArenaObjectRef c =>
      match try_acquire_lease_for_identity r th (co_identity c) with
      | Some _ => aret tt
      | None => afail (VmExecution (InternalError "cross-arena owner is unavailable"))
      end
  | _ => aret tt
  end.

Definition try_from_stack_value (x : StackValue) : act VmError RetainedPtr :=
  match x with
  | SV.NativeInt i => aret {| ptr := wrap usize i; ptr_place := Raw (wrap usize i); ptr_owner := x |}
  | SV.UnmanagedPtr a => aret {| ptr := a; ptr_place := Raw a; ptr_owner := x |}
  | SV.ManagedPtr q | SV.TypedRef q _ =>
      let^ m := agets memory in
      retained_stack_value_lease q ;^
      aret {| ptr := managed_ptr_as_ptr m q; ptr_place := managed_place m q; ptr_owner := x |}
  | _ => afail (VmExecution (TypeMismatch "pointer" (stack_value_kind x)))
  end.

(** [checked_range]: only a frame home has its range checked. *)
Definition checked_range (p : RetainedPtr) (sz : Z) : act MemoryAccessError (Z * place) :=
  match ptr_owner p with
  | SV.ManagedPtr q | SV.TypedRef q _ =>
      match origin q with
      | FrameHome serial => let^ a := home_window serial (byte_offset q) sz in aret (a, Raw a)
      | _ => aret (ptr p, ptr_place p)
      end
  | _ => aret (ptr p, ptr_place p)
  end.

(** ** Chunks *)

Definition CHUNK_SIZE : Z := 1024 * 1024.

(** The offsets and lengths the loops go through; [fuel] bounds their number. *)
Fixpoint chunks_from (fuel : nat) (off sz : Z) : list (Z * Z) :=
  match fuel with
  | O => []
  | S fuel =>
      if off <? sz then
        let current_chunk := Z.min (sz - off) CHUNK_SIZE in
        (off, current_chunk) :: chunks_from fuel (off + current_chunk) sz
      else []
  end.

Definition chunks (sz : Z) : list (Z * Z) := chunks_from (Z.to_nat (sz / CHUNK_SIZE + 1)) 0 sz.

Fixpoint in_chunks (step : Z -> Z -> op Empty_set unit) (i : nat) (cs : list (Z * Z)) : act Empty_set StepResult :=
  match cs with
  | [] => aret Continue
  | (off, n) :: cs =>
      on_memory (step off n) ;^
      match cs with
      | [] => aret Continue
      | _ => if stop_requested i then aret Yield else in_chunks step (S i) cs
      end
  end.

(** [ptr::copy], which allows for overlap. *)
Definition move_chunk (src dest : place) (off n : Z) : op Empty_set unit :=
  let! bs := peek (at_offset src off) n in poke (at_offset dest off) bs.

Definition fill_chunk (dest : place) (b off n : Z) : op Empty_set unit :=
  poke (at_offset dest off) (replicate (Z.to_nat n) b).

(** ** Instructions *)

Definition pop_isize (k : Z -> instruction) : instruction :=
  let? x := apop in let? n := alift (omap_err VmExecution (try_as_isize x)) in k n.

Definition pop_range (sz : Z) (k : Z -> place -> instruction) : instruction :=
  let? x := apop in
  let? p := try_from_stack_value x in
  let? (a, pl) := amap_err VmMemoryAccess (checked_range p sz) in
  k a pl.

Definition cpblk : instruction :=
  pop_isize (fun n =>
    let sz := wrap usize n in
    pop_range sz (fun src src_place =>
    pop_range sz (fun dest dest_place =>
      if (src =? 0) || (dest =? 0) then athrow rt "System.NullReferenceException" NULL_REF_MSG
      else in_chunks (move_chunk src_place dest_place) 0 (chunks sz)))).

Definition initblk : instruction :=
  pop_isize (fun n =>
    let sz := wrap usize n in
    pop_isize (fun b =>
    pop_range sz (fun a pl =>
      if a =? 0 then athrow rt "System.NullReferenceException" NULL_REF_MSG
      else in_chunks (fill_chunk pl (wrap U8 b)) 0 (chunks sz)))).

End blocks.

(** ** Bytes at an address *)

Definition bytes_at (m : mem) (p : Z) (bs : list Z) : Prop := forall i b, bs !! i = Some b -> raw m !! (p + Z.of_nat i) = Some b.

Definition mapped (m : mem) (p n : Z) : Prop := forall a, p <= a < p + n -> is_Some (raw m !! a).

Lemma peek_bytes_at {E} m p bs : bytes_at m p bs -> peek (E:=E) (Raw p) (Z.of_nat (length bs)) m = (Val bs, m).
Proof.
  intros Hb. unfold peek, mbind, gets, id, mret. rewrite Nat2Z.id.
  assert (Hm : mapM (raw m !!.) (addresses p (length bs)) = Some bs); [|by rewrite Hm].
  apply mapM_Some, Forall2_same_length_lookup_2; [unfold addresses; rewrite length_seqZ; lia|].
  intros i a x Ha Hx. unfold addresses in Ha. apply lookup_seqZ in Ha as [-> _]. by apply Hb.
Qed.

Lemma poke_mapped {E} m p bs : mapped m p (Z.of_nat (length bs)) -> exists m', poke (E:=E) (Raw p) bs m = (Val tt, m').
Proof.
  intros Hm. unfold poke, mbind, gets, id, modify, undefined. destruct (mapM _ _) eqn:Hx; [eauto|].
  exfalso. apply eq_None_not_Some in Hx. apply Hx, mapM_is_Some, Forall_forall. intros a Ha%addresses_elem. by apply Hm.
Qed.

Lemma poked_nil p m : poked p [] m m.
Proof. split; try done; simpl; [lia|]. symmetry. apply map_empty_union. Qed.

Lemma poke_lookup p bs (x : gmap Z Z) a :
  ((list_to_map (zip (addresses p (length bs)) bs) : gmap Z Z) ∪ x) !! a =
  if decide (p <= a < p + Z.of_nat (length bs)) then bs !! Z.to_nat (a - p) else x !! a.
Proof.
  destruct (decide _) as [Ha|Ha].
  - destruct (lookup_lt_is_Some_2 bs (Z.to_nat (a - p))) as [b Hb]; [lia|]. rewrite Hb. apply lookup_union_Some_l.
    replace a with (p + Z.of_nat (Z.to_nat (a - p))) at 1 by lia. by apply lookup_zip_addresses.
  - apply lookup_union_r, not_elem_of_list_to_map. rewrite fst_zip by (unfold addresses; rewrite length_seqZ; lia).
    rewrite addresses_elem. lia.
Qed.

Lemma poked_lookup p bs m m' a : poked p bs m m' ->
  raw m' !! a = if decide (p <= a < p + Z.of_nat (length bs)) then bs !! Z.to_nat (a - p) else raw m !! a.
Proof. intros [_ Hr _ _]. rewrite Hr. apply poke_lookup. Qed.

(** Two writes next to each other are one. *)
Lemma poked_app p bs bs' m m1 m2 : poked p bs m m1 -> poked (p + Z.of_nat (length bs)) bs' m1 m2 -> poked p (bs ++ bs') m m2.
Proof.
  intros H1 H2. pose proof (fun a => poked_lookup _ _ _ _ a H1) as L1. pose proof (fun a => poked_lookup _ _ _ _ a H2) as L2.
  destruct H1 as [Hm1 _ Hh1 Hi1], H2 as [Hm2 _ Hh2 Hi2]. split; [| |congruence | congruence].
  - rewrite length_app, Nat2Z.inj_add. intros a Ha. destruct (decide (a < p + Z.of_nat (length bs))); [apply Hm1; lia|].
    destruct (Hm2 a) as [x Hx]; [lia|]. rewrite L1, decide_False in Hx by lia. eauto.
  - apply map_eq. intros a. rewrite poke_lookup, L2, L1, length_app, Nat2Z.inj_add.
    repeat case_decide; try lia; [rewrite lookup_app_r by lia; f_equal; lia | rewrite lookup_app_l by lia; done | done].
Qed.

(** ** Copies *)

Lemma bytes_at_app m p bs bs' : bytes_at m p (bs ++ bs') <-> bytes_at m p bs /\ bytes_at m (p + Z.of_nat (length bs)) bs'.
Proof.
  split.
  - intros H. split; intros i b Hi; [apply H; by apply lookup_app_l_Some|].
    replace (p + Z.of_nat (length bs) + Z.of_nat i) with (p + Z.of_nat (length bs + i)) by lia. apply H.
    rewrite lookup_app_r by lia. by replace (length bs + i - length bs)%nat with i by lia.
  - intros [H1 H2] i b. rewrite lookup_app_Some. intros [Hi|[Hl Hi]]; [by apply H1|]. apply H2 in Hi. rewrite <- Hi. f_equal. lia.
Qed.

(** What a write does not overlap is still there. *)
Lemma bytes_at_poked p bs m m' q bs' : poked p bs m m' -> bytes_at m q bs' ->
  bs = [] \/ q + Z.of_nat (length bs') <= p \/ p + Z.of_nat (length bs) <= q -> bytes_at m' q bs'.
Proof.
  intros Hp Hb Hd i b Hi. rewrite (poked_lookup _ _ _ _ _ Hp). apply lookup_lt_Some in Hi as Hl.
  rewrite decide_False by (destruct Hd as [->|]; simpl in *; lia). by apply Hb.
Qed.

(** ** The loop *)

Section loop.
Variable stop : nat -> bool.

(** How far the loop has come when it returns: to the end when no stop was requested at a
    look between two chunks, and else to the first look that finds one. *)
Definition progress (i : nat) (sz : Z) (res : StepResult) (copied : Z) : Prop :=
  (res = Continue /\ copied = sz /\ forall j, (i <= j)%nat -> Z.of_nat (S j) * CHUNK_SIZE < sz -> stop j = false) \/
  (exists k, (i <= k)%nat /\ Z.of_nat (S k) * CHUNK_SIZE < sz /\ stop k = true /\ (forall j, (i <= j < k)%nat -> stop j = false) /\
     res = Yield /\ copied = Z.of_nat (S k) * CHUNK_SIZE).

Lemma progress_next i sz res copied : stop i = false -> progress (S i) sz res copied -> progress i sz res copied.
Proof.
  intros Hi [(-> & -> & H)|(k & Hk & Hsz & Hs & Hj & -> & ->)].
  - left. do 2 (split; [done|]). intros j Hj. destruct (decide (j = i)) as [->|]; [done | apply H; lia].
  - right. exists k. split; [lia|]. do 2 (split; [done|]). split; [|done]. intros j ?.
    destruct (decide (j = i)) as [->|]; [done | apply Hj; lia].
Qed.

(** Chunks that extend what is written, in the order of the loop. *)
Lemma chunks_from_poked step dest bs m0 fuel : forall i v, let sz := Z.of_nat (length bs) in let off := Z.of_nat i * CHUNK_SIZE in
  off <= sz <= Z.of_nat (i + fuel) * CHUNK_SIZE ->
  (forall k n m, let o := Z.of_nat k * CHUNK_SIZE in 0 < n <= CHUNK_SIZE -> o + n <= sz -> poked dest (take (Z.to_nat o) bs) m0 m ->
     exists m', step o n m = (Val tt, m') /\ poked dest (take (Z.to_nat (o + n)) bs) m0 m') ->
  poked dest (take (Z.to_nat off) bs) m0 (memory v) ->
  exists res copied m', in_chunks stop step i (chunks_from fuel off sz) v = (Val res, set_memory v m') /\
    poked dest (take (Z.to_nat copied) bs) m0 m' /\ progress i sz res copied.
Proof.
  assert (HC : 0 < CHUNK_SIZE) by reflexivity.
  induction fuel as [|fuel IH]; intros i v sz off Hsz Hstep Hp; cbn [chunks_from].
  { exists Continue, sz, (memory v). unfold aret. rewrite set_memory_id. split; [reflexivity|].
    replace sz with off by (unfold off in *; lia). split; [exact Hp|]. left. split; [reflexivity|]. split; [reflexivity|]. intros. nia. }
  destruct (Z.ltb_spec off sz) as [Hlt|]; cycle 1.
  { exists Continue, sz, (memory v). unfold aret. rewrite set_memory_id. split; [reflexivity|].
    replace sz with off by lia. split; [exact Hp|]. left. split; [reflexivity|]. split; [reflexivity|]. intros. unfold off in *. nia. }
  set (n := Z.min (sz - off) CHUNK_SIZE). cbn [in_chunks].
  destruct (Hstep i n (memory v)) as (m1 & Hs & Hp1); [lia | fold off; lia | exact Hp|]. fold off in Hs, Hp1.
  unfold abind at 1, on_memory at 1. rewrite Hs.
  destruct (Z.ltb_spec (Z.of_nat (S i) * CHUNK_SIZE) sz) as [Hmore|Hend].
  - replace (off + n) with (Z.of_nat (S i) * CHUNK_SIZE) in * by lia.
    assert (Hcs : exists c cs, chunks_from fuel (Z.of_nat (S i) * CHUNK_SIZE) sz = c :: cs).
    { destruct fuel; cbn [chunks_from]; [lia|]. destruct (Z.ltb_spec (Z.of_nat (S i) * CHUNK_SIZE) sz); [eauto | lia]. }
    destruct (stop i) eqn:Hst.
    + destruct Hcs as (c & cs & ->). exists Yield, (Z.of_nat (S i) * CHUNK_SIZE), m1. split; [reflexivity|]. split; [exact Hp1|].
      right. exists i. split; [lia|]. do 2 (split; [assumption|]). split; [intros; lia | split; reflexivity].
    + destruct (IH (S i) (set_memory v m1)) as (res & copied & m' & Hi & Hp' & Hpr); [fold sz; lia | exact Hstep | exact Hp1|].
      exists res, copied, m'. fold sz in Hi, Hpr. destruct Hcs as (c & cs & Hcs). rewrite Hcs in *.
      split; [exact Hi|]. split; [exact Hp' | by apply progress_next].
  - replace (off + n) with sz in * by lia. exists Continue, sz, m1. split; [|split; [exact Hp1|]].
    + destruct fuel; cbn [chunks_from]; [reflexivity|]. rewrite Z.ltb_irrefl. reflexivity.
    + left. split; [reflexivity|]. split; [reflexivity|]. intros. nia.
Qed.

Lemma in_chunks_poked step dest bs v : let sz := Z.of_nat (length bs) in
  (forall k n m, let o := Z.of_nat k * CHUNK_SIZE in 0 < n <= CHUNK_SIZE -> o + n <= sz -> poked dest (take (Z.to_nat o) bs) (memory v) m ->
     exists m', step o n m = (Val tt, m') /\ poked dest (take (Z.to_nat (o + n)) bs) (memory v) m') ->
  exists res copied m', in_chunks stop step 0 (chunks sz) v = (Val res, set_memory v m') /\
    poked dest (take (Z.to_nat copied) bs) (memory v) m' /\ progress 0 sz res copied.
Proof.
  intros sz Hstep. apply (chunks_from_poked step dest bs (memory v) _ 0 v); [|exact Hstep | apply poked_nil].
  pose proof (Z.div_pos sz CHUNK_SIZE ltac:(lia) ltac:(reflexivity)). pose proof (Z.mod_pos_bound sz CHUNK_SIZE ltac:(reflexivity)).
  pose proof (Z.div_mod sz CHUNK_SIZE ltac:(discriminate)). fold sz. rewrite Nat.add_0_l, Z2Nat.id by lia. lia.
Qed.
End loop.

Lemma move_chunk_poked src dest bs m0 o n m : bytes_at m0 src bs -> mapped m0 dest (Z.of_nat (length bs)) ->
  0 <= o -> 0 < n -> o + n <= Z.of_nat (length bs) ->
  o = 0 \/ dest <= src \/ src + Z.of_nat (length bs) <= dest ->
  poked dest (take (Z.to_nat o) bs) m0 m ->
  exists m', move_chunk (Raw src) (Raw dest) o n m = (Val tt, m') /\ poked dest (take (Z.to_nat (o + n)) bs) m0 m'.
Proof.
  intros Hb Hm Ho Hn Hle Hov Hp. set (l := Z.to_nat o) in *. set (c := take (Z.to_nat n) (drop l bs)).
  assert (Hlc : Z.of_nat (length c) = n) by (unfold c; rewrite length_take, length_drop; lia).
  assert (Hlt : Z.of_nat (length (take l bs)) = o) by (rewrite length_take; lia).
  assert (Hbs : take (Z.to_nat (o + n)) bs = take l bs ++ c).
  { unfold c. rewrite take_drop_commute. replace (l + Z.to_nat n)%nat with (Z.to_nat (o + n)) by lia.
    rewrite <- (take_drop l (take (Z.to_nat (o + n)) bs)) at 1. by rewrite take_take, Nat.min_l by lia. }
  assert (Hc : bytes_at m (src + o) c).
  { eapply bytes_at_poked; [exact Hp | |].
    - rewrite <- (take_drop (Z.to_nat (o + n)) bs), Hbs in Hb. apply bytes_at_app in Hb as [Hb _].
      apply bytes_at_app in Hb as [_ Hb]. by rewrite Hlt in Hb.
    - rewrite Hlc, Hlt. destruct Hov as [->|[?|?]]; [by left | right; lia ..]. }
  unfold move_chunk, mbind. cbn [at_offset]. rewrite <- Hlc, (peek_bytes_at m _ _ Hc).
  destruct (poke_mapped (E:=Empty_set) m (dest + o) c) as [m' Hk].
  { intros a Ha. rewrite (poked_lookup _ _ _ _ _ Hp), decide_False by lia. apply Hm. lia. }
  exists m'. split; [done|]. rewrite Hlc, Hbs. eapply poked_app; [done|]. rewrite Hlt. by apply (poke_poked (E:=Empty_set)).
Qed.

Lemma fill_chunk_poked dest b sz m0 o n m : mapped m0 dest sz -> 0 <= o -> 0 < n -> o + n <= sz ->
  poked dest (take (Z.to_nat o) (replicate (Z.to_nat sz) b)) m0 m ->
  exists m', fill_chunk (Raw dest) b o n m = (Val tt, m') /\ poked dest (take (Z.to_nat (o + n)) (replicate (Z.to_nat sz) b)) m0 m'.
Proof.
  intros Hm Ho Hn Hle Hp. rewrite take_replicate, Nat.min_l in Hp by lia. unfold fill_chunk. cbn [at_offset].
  destruct (poke_mapped (E:=Empty_set) m (dest + o) (replicate (Z.to_nat n) b)) as [m' Hk].
  { rewrite length_replicate. intros a Ha. rewrite (poked_lookup _ _ _ _ _ Hp), length_replicate, decide_False by lia. apply Hm. lia. }
  exists m'. split; [done|]. rewrite take_replicate, Nat.min_l by lia.
  replace (Z.to_nat (o + n)) with (Z.to_nat o + Z.to_nat n)%nat by lia. rewrite replicate_add.
  eapply poked_app; [done|]. rewrite length_replicate, Z2Nat.id by lia. by apply (poke_poked (E:=Empty_set)).
Qed.

(** ** Operands *)

(** The evaluation stack of the current frame is [xs]. *)
Definition has_operands (v : vm) (below xs : list StackValue) : Prop :=
  stack (eval (context v)) = below ++ xs /\ exists f, last (frames (fstack (context v))) = Some f /\ stack_height f = length xs.

Lemma apop_operand v below xs x : has_operands v below (xs ++ [x]) ->
  exists v1, apop v = (Val x, v1) /\ has_operands v1 below xs /\ memory v1 = memory v.
Proof.
  intros [Hs (f & Hf & Hh)]. unfold apop. cbn [pop_safe ctx_ops]. unfold ves_pop_safe, on_pop_safe. rewrite Hf, Hh, length_app.
  replace (length xs + length [x])%nat with (S (length xs)) by (simpl; lia).
  unfold es_pop_safe. cbn [eval set_fstack]. rewrite Hs, app_assoc, last_snoc. eexists. split; [done|]. split; [|done].
  split; cbn [context set_context eval set_eval stack]; [by rewrite removelast_last|].
  exists (set_height f (length xs)). split; [|done]. cbn [fstack set_eval set_fstack]. apply (last_update_current _ (fun f => set_height f (length xs)) f Hf).
Qed.

(** The operand is the address [a] of raw memory. *)
Definition is_address (x : StackValue) (a : Z) : Prop :=
  match x with SV.NativeInt i => wrap usize i = a | SV.UnmanagedPtr p => p = a | _ => False end.

Section operands.
Variable r : ArenaRegistry.
Variable th : nat.

Lemma pop_isize_operand v below xs x n k : has_operands v below (xs ++ [x]) -> try_as_isize x = Val n ->
  exists v1, pop_isize k v = k n v1 /\ has_operands v1 below xs /\ memory v1 = memory v.
Proof.
  intros Ho Hx. destruct (apop_operand _ _ _ _ Ho) as (v1 & Hp & Ho1 & Hm). exists v1. split; [|done].
  unfold pop_isize, abind, catch, alift. rewrite Hp, Hx. done.
Qed.

Lemma pop_range_operand v below xs x a sz k : has_operands v below (xs ++ [x]) -> is_address x a ->
  exists v1, pop_range r th sz k v = k a (Raw a) v1 /\ has_operands v1 below xs /\ memory v1 = memory v.
Proof.
  intros Ho Hx. destruct (apop_operand _ _ _ _ Ho) as (v1 & Hp & Ho1 & Hm). exists v1. split; [|done].
  unfold pop_range, abind, catch, amap_err, aret. rewrite Hp. destruct x; try done; simpl in Hx; subst; done.
Qed.
End operands.

Lemma has_operands_memory v below xs m : has_operands v below xs -> has_operands (set_memory v m) below xs.
Proof. done. Qed.

(** ** Theorems *)

Section theorems.
Variable r : ArenaRegistry.
Variable th : nat.
Variable rt : runtime.

(** A block copy up to its loop. *)
Lemma cpblk_loop stop v below xd xs xn dest src sz : has_operands v below [xd; xs; xn] ->
  is_address xd dest -> is_address xs src -> try_as_isize xn = Val sz -> 0 <= sz -> is_range usize sz -> src <> 0 -> dest <> 0 ->
  exists v1, cpblk r th rt stop v = in_chunks stop (move_chunk (Raw src) (Raw dest)) 0 (chunks sz) v1 /\
    has_operands v1 below [] /\ memory v1 = memory v.
Proof.
  intros Ho Hd Hs Hn H0 Hr Hs0 Hd0. unfold cpblk.
  edestruct (pop_isize_operand v below [xd; xs] xn sz) as (v1 & H1 & Ho1 & Hm1); [done | done|].
  rewrite H1. cbv zeta. rewrite wrap_id by done.
  edestruct (pop_range_operand r th v1 below [xd] xs src sz) as (v2 & H2 & Ho2 & Hm2); [done | done|]. rewrite H2.
  edestruct (pop_range_operand r th v2 below [] xd dest sz) as (v3 & H3 & Ho3 & Hm3); [done | done|]. rewrite H3.
  destruct (Z.eqb_spec src 0), (Z.eqb_spec dest 0); try done. exists v3. split; [done|]. split; [done | congruence].
Qed.

(** Without its operands a block copy fails. *)
Lemma cpblk_underflow stop v below : has_operands v below [] -> fst (cpblk r th rt stop v) = Val (Error (VmExecution StackUnderflow)).
Proof.
  intros [_ (f & Hf & Hh)]. unfold cpblk, pop_isize, abind, catch, apop. cbn [pop_safe ctx_ops].
  unfold ves_pop_safe, on_pop_safe. rewrite Hf, Hh. done.
Qed.

(** C21. A block copy between addresses of raw memory moves the bytes: those that were at the
    source are at the destination, nothing else has changed, and the operands are gone.
    The ranges may overlap when the copy goes to lower addresses or the block is one chunk.
    This is so when the collector requests no stop at a look between two chunks; at the
    first look that finds a request the copy yields with the chunks before it copied, and
    as its operands are gone, executing it again fails. *)
Theorem cpblk_exact stop v below xd xs xn dest src bs : has_operands v below [xd; xs; xn] ->
  is_address xd dest -> is_address xs src -> try_as_isize xn = Val (Z.of_nat (length bs)) -> is_range usize (Z.of_nat (length bs)) ->
  src <> 0 -> dest <> 0 -> bytes_at (memory v) src bs -> mapped (memory v) dest (Z.of_nat (length bs)) ->
  dest <= src \/ src + Z.of_nat (length bs) <= dest \/ Z.of_nat (length bs) <= CHUNK_SIZE ->
  exists res v', cpblk r th rt stop v = (Val res, v') /\ has_operands v' below [] /\
    ((res = Continue /\ poked dest bs (memory v) (memory v') /\
        forall j, Z.of_nat (S j) * CHUNK_SIZE < Z.of_nat (length bs) -> stop j = false) \/
     (exists k, Z.of_nat (S k) * CHUNK_SIZE < Z.of_nat (length bs) /\ stop k = true /\ (forall j, (j < k)%nat -> stop j = false) /\
        res = Yield /\ poked dest (take (Z.to_nat (Z.of_nat (S k) * CHUNK_SIZE)) bs) (memory v) (memory v') /\
        forall stop', fst (cpblk r th rt stop' v') = Val (Error (VmExecution StackUnderflow)))).
Proof.
  intros Ho Hd Hs Hn Hr Hs0 Hd0 Hb Hm Hov. assert (HC : 0 < CHUNK_SIZE) by reflexivity.
  destruct (cpblk_loop stop _ _ _ _ _ _ _ _ Ho Hd Hs Hn ltac:(lia) Hr Hs0 Hd0) as (v1 & H1 & Ho1 & Hm1). rewrite H1.
  destruct (in_chunks_poked stop (move_chunk (Raw src) (Raw dest)) dest bs v1) as (res & copied & m' & H2 & Hp & Hpr).
  { intros k n m o Hn0 Hle Hp. rewrite Hm1 in *. apply move_chunk_poked; try assumption; [lia | lia|].
    destruct Hov as [?|[?|Hsmall]]; [right; left; assumption | right; right; assumption|]. left. unfold o in *.
    destruct k; [reflexivity|]. rewrite Nat2Z.inj_succ, Z.mul_succ_l in Hle. exfalso. unfold CHUNK_SIZE in *. lia. }
  assert (Hgone : has_operands (set_memory v1 m') below []) by (by apply has_operands_memory).
  exists res, (set_memory v1 m'). split; [exact H2|]. split; [exact Hgone|]. rewrite Hm1 in Hp.
  destruct Hpr as [(-> & -> & Hst)|(k & _ & Hk & Hst & Hbefore & -> & ->)].
  - left. split; [reflexivity|]. rewrite take_ge in Hp by lia. split; [exact Hp|]. intros j. apply Hst. lia.
  - right. exists k. do 2 (split; [assumption|]). split; [intros; apply Hbefore; lia|]. split; [reflexivity|]. split; [exact Hp|].
    intros stop'. by eapply cpblk_underflow.
Qed.

(** Filling a block sets its bytes and nothing else, up to where a stop is requested. *)
Theorem initblk_exact stop v below xa xb xn a b sz : has_operands v below [xa; xb; xn] ->
  is_address xa a -> try_as_isize xb = Val b -> try_as_isize xn = Val sz -> 0 <= sz -> is_range usize sz -> a <> 0 ->
  mapped (memory v) a sz ->
  exists res filled v', initblk r th rt stop v = (Val res, v') /\ progress stop 0 sz res filled /\
    poked a (replicate (Z.to_nat filled) (wrap U8 b)) (memory v) (memory v') /\ has_operands v' below [].
Proof.
  intros Ho Ha Hb Hn H0 Hr Ha0 Hm. unfold initblk. assert (HC : 0 < CHUNK_SIZE) by reflexivity.
  edestruct (pop_isize_operand v below [xa; xb] xn sz) as (v1 & H1 & Ho1 & Hm1); [done | done|]. rewrite H1. cbv zeta.
  rewrite wrap_id by done. edestruct (pop_isize_operand v1 below [xa] xb b) as (v2 & H2 & Ho2 & Hm2); [done | done|]. rewrite H2.
  edestruct (pop_range_operand r th v2 below [] xa a sz) as (v3 & H3 & Ho3 & Hm3); [done | done|]. rewrite H3.
  destruct (Z.eqb_spec a 0) as [?|_]; [done|]. assert (Hmem : memory v3 = memory v) by congruence.
  destruct (in_chunks_poked stop (fill_chunk (Raw a) (wrap U8 b)) a (replicate (Z.to_nat sz) (wrap U8 b)) v3) as (res & filled & m' & H4 & Hp & Hpr).
  { rewrite length_replicate, Z2Nat.id by lia. intros k n m o Hn0 Hle Hp. rewrite Hmem in *. apply fill_chunk_poked; try assumption; unfold o; lia. }
  rewrite length_replicate, Z2Nat.id in H4, Hpr by lia. rewrite Hmem, take_replicate in Hp.
  exists res, filled, (set_memory v3 m'). split; [exact H4|]. split; [exact Hpr|]. split; [|by apply has_operands_memory].
  replace (Z.to_nat filled `min` Z.to_nat sz)%nat with (Z.to_nat filled) in Hp; [exact Hp|].
  destruct Hpr as [(_ & -> & _)|(k & _ & Hk & _ & _ & _ & ->)]; lia.
Qed.

(** ** Overlapping copies *)

(** What arrives when the destination is [d] bytes above the source: a byte that an earlier
    chunk has overwritten at the source is what was written there. *)
Fixpoint smear (d : Z) (acc bs : list Z) : list Z :=
  match bs with
  | [] => acc
  | b :: bs =>
      let j := Z.of_nat (length acc) in
      smear d (acc ++ [if (j mod CHUNK_SIZE <? d) && (d <=? j) then default b (acc !! Z.to_nat (j - d)) else b]) bs
  end.

Lemma smear_length d bs : forall acc, length (smear d acc bs) = (length acc + length bs)%nat.
Proof. induction bs as [|b bs IH]; intros acc; simpl; [lia|]. rewrite IH, length_app. simpl. lia. Qed.

Lemma smear_prefix d bs : forall acc, smear d acc bs = acc ++ drop (length acc) (smear d acc bs).
Proof.
  induction bs as [|b bs IH]; intros acc; cbn [smear]; [by rewrite drop_all, app_nil_r|].
  match goal with |- context [acc ++ [?y]] => set (x := y) end. rewrite (IH (acc ++ [x])), <- app_assoc, drop_app_length. done.
Qed.

Lemma smear_lookup d bs : 0 < d -> forall acc j, (length acc <= j < length acc + length bs)%nat ->
  smear d acc bs !! j =
  if (Z.of_nat j mod CHUNK_SIZE <? d) && (d <=? Z.of_nat j) then smear d acc bs !! Z.to_nat (Z.of_nat j - d) else bs !! (j - length acc)%nat.
Proof.
  intros Hd. induction bs as [|b bs IH]; intros acc j Hj; cbn [smear length] in *; [lia|]. match goal with |- context [acc ++ [?y]] => set (x := y) end.
  destruct (decide (j = length acc)) as [->|Hne].
  - rewrite Nat.sub_diag. rewrite (smear_prefix d bs (acc ++ [x])), <- app_assoc, lookup_app_r, Nat.sub_diag by lia.
    cbn [lookup list_lookup app]. unfold x. destruct (_ && _) eqn:Hc; [|done].
    apply andb_true_iff in Hc as [_ Hc%Z.leb_le]. rewrite lookup_app_l by lia.
    destruct (lookup_lt_is_Some_2 acc (Z.to_nat (Z.of_nat (length acc) - d))) as [y ->]; [lia | done].
  - rewrite IH by (rewrite length_app; simpl; lia). rewrite length_app. cbn [length].
    by replace (j - length acc)%nat with (S (j - (length acc + 1))) by lia.
Qed.

Lemma chunk_position k t : 0 <= t < CHUNK_SIZE -> (Z.of_nat k * CHUNK_SIZE + t) mod CHUNK_SIZE = t.
Proof. intros Ht. rewrite Z.add_comm, Z_mod_plus_full. by apply Z.mod_small. Qed.

(** One chunk of such a copy. *)
Lemma move_chunk_smeared src d bs m0 k n m : let o := Z.of_nat k * CHUNK_SIZE in let out := smear d [] bs in
  0 < d -> bytes_at m0 src bs -> mapped m0 (src + d) (Z.of_nat (length bs)) ->
  0 < n <= CHUNK_SIZE -> o + n <= Z.of_nat (length bs) -> poked (src + d) (take (Z.to_nat o) out) m0 m ->
  exists m', move_chunk (Raw src) (Raw (src + d)) o n m = (Val tt, m') /\ poked (src + d) (take (Z.to_nat (o + n)) out) m0 m'.
Proof.
  intros o out Hd Hb Hm Hn Hle Hp. assert (Ho : 0 <= o) by (unfold o, CHUNK_SIZE; lia).
  assert (Hlen : length out = length bs) by (unfold out; by rewrite smear_length).
  set (c := take (Z.to_nat n) (drop (Z.to_nat o) out)).
  assert (Hlc : Z.of_nat (length c) = n) by (unfold c; rewrite length_take, length_drop; lia).
  assert (Hlt : Z.of_nat (length (take (Z.to_nat o) out)) = o) by (rewrite length_take; lia).
  assert (Hout : take (Z.to_nat (o + n)) out = take (Z.to_nat o) out ++ c).
  { unfold c. rewrite take_drop_commute, Z2Nat.inj_add by lia.
    rewrite <- (take_drop (Z.to_nat o) (take (Z.to_nat o + Z.to_nat n) out)) at 1. by rewrite take_take, Nat.min_l by lia. }
  assert (Hc : bytes_at m (src + o) c).
  { intros t b Ht. pose proof (lookup_lt_Some _ _ _ Ht). unfold c in Ht. apply lookup_take_Some in Ht as [Ht _]. rewrite lookup_drop in Ht.
    rewrite (poked_lookup _ _ _ _ _ Hp), Hlt. unfold out in Ht. rewrite smear_lookup in Ht by (simpl; lia). fold out in Ht.
    replace (Z.of_nat (Z.to_nat o + t)) with (o + Z.of_nat t) in Ht by lia. unfold o in Ht at 1. rewrite chunk_position in Ht by lia.
    destruct (decide _) as [Hin|Hin].
    - destruct (Z.ltb_spec (Z.of_nat t) d), (Z.leb_spec d (o + Z.of_nat t)); try lia. cbn [andb] in Ht.
      rewrite lookup_take_lt by lia. rewrite <- Ht. f_equal. lia.
    - assert (Hold : bs !! (Z.to_nat o + t)%nat = Some b).
      { rewrite <- Ht. destruct (Z.ltb_spec (Z.of_nat t) d), (Z.leb_spec d (o + Z.of_nat t)); try lia; cbn [andb length]; f_equal; lia. }
      rewrite <- (Hb _ _ Hold). f_equal. lia. }
  unfold move_chunk, mbind. cbn [at_offset]. rewrite <- Hlc, (peek_bytes_at m _ _ Hc).
  destruct (poke_mapped (E:=Empty_set) m (src + d + o) c) as [m' Hk].
  { intros a Ha. rewrite (poked_lookup _ _ _ _ _ Hp), decide_False by lia. apply Hm. lia. }
  exists m'. split; [exact Hk|]. rewrite Hlc, Hout. eapply poked_app; [exact Hp|]. rewrite Hlt. by apply (poke_poked (E:=Empty_set)).
Qed.

(** C34. A block copy of more than one chunk to a higher address that overlaps the source is
    not a move, wherever the two are and whatever the bytes: at the larger of the distance
    and the size of a chunk, the byte that arrives is the one [distance] bytes before it,
    which an earlier chunk has written over it.  All that arrives is [smear]. *)
Theorem cpblk_overlap_corrupts stop v below xd xs xn src d bs : has_operands v below [xd; xs; xn] ->
  is_address xd (src + d) -> is_address xs src -> try_as_isize xn = Val (Z.of_nat (length bs)) -> is_range usize (Z.of_nat (length bs)) ->
  0 < src -> 0 < d < Z.of_nat (length bs) -> CHUNK_SIZE < Z.of_nat (length bs) ->
  bytes_at (memory v) src bs -> mapped (memory v) (src + d) (Z.of_nat (length bs)) -> (forall i, stop i = false) ->
  exists v', cpblk r th rt stop v = (Val Continue, v') /\ poked (src + d) (smear d [] bs) (memory v) (memory v') /\
    raw (memory v') !! (src + d + Z.max d CHUNK_SIZE) = bs !! Z.to_nat (Z.max d CHUNK_SIZE - d).
Proof.
  intros Ho Hd Hs Hn Hr Hs0 Hd0 Hbig Hb Hm Hst. assert (HC : 0 < CHUNK_SIZE) by reflexivity.
  destruct (cpblk_loop stop _ _ _ _ _ _ _ _ Ho Hd Hs Hn ltac:(lia) Hr ltac:(lia) ltac:(lia)) as (v1 & H1 & Ho1 & Hm1). rewrite H1.
  assert (Hlen : length (smear d [] bs) = length bs) by (by rewrite smear_length).
  destruct (in_chunks_poked stop (move_chunk (Raw src) (Raw (src + d))) (src + d) (smear d [] bs) v1) as (res & copied & m' & H2 & Hp & Hpr).
  { intros k n m o Hn0 Hle Hp. rewrite Hm1 in *. rewrite Hlen in Hle. apply move_chunk_smeared; try assumption. lia. }
  rewrite Hlen in *. destruct Hpr as [(-> & -> & _)|(k & _ & _ & Hk & _)]; [|congruence].
  rewrite take_ge, Hm1 in Hp by lia. exists (set_memory v1 m'). split; [exact H2|]. split; [exact Hp|]. cbn [memory set_memory].
  rewrite (poked_lookup _ _ _ _ _ Hp), decide_True by lia. set (j := Z.max d CHUNK_SIZE).
  replace (src + d + j - (src + d)) with j by lia.
  assert (Hj : j mod CHUNK_SIZE < d <= j).
  { unfold j. split; [|lia]. destruct (Z.max_spec d CHUNK_SIZE) as [[_ ->]|[? ->]]; [rewrite Z.mod_same; lia|].
    pose proof (Z.mod_pos_bound d CHUNK_SIZE HC). destruct (decide (d = CHUNK_SIZE)) as [->|]; [rewrite Z.mod_same; lia | lia]. }
  rewrite smear_lookup by (cbn [length]; lia). rewrite Z2Nat.id by lia.
  destruct (Z.ltb_spec (j mod CHUNK_SIZE) d), (Z.leb_spec d j); try lia. cbn [andb].
  rewrite smear_lookup by (cbn [length]; lia). rewrite Z2Nat.id by lia. cbn [length]. rewrite Nat.sub_0_r.
  destruct (Z.leb_spec d (j - d)); [|by rewrite andb_false_r]. rewrite Z.mod_small by lia.
  destruct (Z.ltb_spec (j - d) d); [lia | reflexivity].
Qed.
End theorems.

(** ** Instances *)

(** A thread with three operands and the memory [m]. *)
Definition block_vm (dest src n : Z) (m : mem) : vm :=
  {| context := context_of [set_height (new_frame base0 test_method empty_lookup []) 3] [SV.UnmanagedPtr dest; SV.NativeInt src; SV.NativeInt n] NoException;
     memory := m; thread_gauges := {| RawBlocks.thread_bytes := 0; RawBlocks.live_blocks := 0 |}; static_storage := ∅ |}.

Lemma block_vm_operands dest src n m : has_operands (block_vm dest src n m) [] [SV.UnmanagedPtr dest; SV.NativeInt src; SV.NativeInt n].
Proof. split; [reflexivity|]. eexists. split; reflexivity. Qed.

Lemma map_zeroed_lookup base n m a : base <= a < base + n -> raw (map_zeroed base n m) !! a = Some 0.
Proof.
  intros Ha. cbn [map_zeroed set_raw raw]. apply lookup_union_Some_l, elem_of_list_to_map_1'.
  - intros y Hy. apply list_elem_of_fmap in Hy as (? & [= _ ->] & _). done.
  - apply list_elem_of_fmap. exists a. split; [done|]. apply addresses_elem. lia.
Qed.

Lemma map_zeroed_bytes base n m p k : base <= p -> p + Z.of_nat k <= base + n -> bytes_at (map_zeroed base n m) p (replicate k 0).
Proof. intros H1 H2 i b Hi. apply lookup_replicate in Hi as [-> Hi]. apply map_zeroed_lookup. lia. Qed.

(** Six bytes of eight, two further. *)
Lemma cpblk_exact_witness :
  let v := block_vm 4098 4096 6 (map_zeroed 4096 8 demo_mem) in
  exists v', cpblk (reg run_s2) 2 test_runtime (fun _ => false) v = (Val Continue, v') /\
    poked 4098 (replicate 6 0) (memory v) (memory v').
Proof.
  intros v. destruct (cpblk_exact (reg run_s2) 2 test_runtime (fun _ => false) v [] (SV.UnmanagedPtr 4098) (SV.NativeInt 4096) (SV.NativeInt 6) 4098 4096 (replicate 6 0))
    as (res & v' & Hv & _ & [(-> & Hp & _)|(k & _ & [=] & _)]).
  - apply block_vm_operands.
  - reflexivity.
  - reflexivity.
  - reflexivity.
  - vm_compute. split; discriminate.
  - discriminate.
  - discriminate.
  - apply map_zeroed_bytes; simpl; lia.
  - intros a Ha. simpl in Ha. exists 0. apply map_zeroed_lookup. lia.
  - right. right. vm_compute. discriminate.
  - exists v'. split; [exact Hv | exact Hp].
Defined.

(** A megabyte of zeroes and a one after it, moved by one. *)
Definition overlap_mem : mem :=
  let m := map_zeroed 4096 (CHUNK_SIZE + 2) demo_mem in set_raw m (<[4096 + CHUNK_SIZE := 1]> (raw m)).

Lemma cpblk_overlap_corrupts_witness :
  exists v', cpblk (reg run_s2) 2 test_runtime (fun _ => false) (block_vm 4097 4096 (CHUNK_SIZE + 1) overlap_mem) = (Val Continue, v') /\
    raw overlap_mem !! (4096 + CHUNK_SIZE) = Some 1 /\ raw (memory v') !! (4097 + CHUNK_SIZE) = Some 0.
Proof.
  assert (HC : 1 < CHUNK_SIZE < 2 ^ 32) by (split; reflexivity).
  assert (Hraw : forall a, 4096 <= a < 4096 + CHUNK_SIZE + 2 -> raw overlap_mem !! a = Some (if decide (a = 4096 + CHUNK_SIZE) then 1 else 0)).
  { intros a Ha. unfold overlap_mem. cbn [raw set_raw]. destruct (decide (a = 4096 + CHUNK_SIZE)) as [->|Hne].
    - apply lookup_insert_eq.
    - rewrite lookup_insert_ne by congruence. apply map_zeroed_lookup. lia. }
  assert (Hlen : Z.of_nat (length (replicate (Z.to_nat CHUNK_SIZE) 0 ++ [1])) = CHUNK_SIZE + 1)
    by (rewrite length_app, length_replicate; change (length [1]) with 1%nat; lia).
  destruct (cpblk_overlap_corrupts (reg run_s2) 2 test_runtime (fun _ => false) (block_vm 4097 4096 (CHUNK_SIZE + 1) overlap_mem) []
    (SV.UnmanagedPtr 4097) (SV.NativeInt 4096) (SV.NativeInt (CHUNK_SIZE + 1)) 4096 1 (replicate (Z.to_nat CHUNK_SIZE) 0 ++ [1])) as (v' & H1 & _ & H3).
  - apply block_vm_operands.
  - reflexivity.
  - reflexivity.
  - rewrite Hlen. reflexivity.
  - rewrite Hlen. vm_compute. split; discriminate.
  - reflexivity.
  - rewrite Hlen. lia.
  - rewrite Hlen. lia.
  - intros i b Hi. cbn [memory block_vm]. apply lookup_app_Some in Hi as [Hi|[Hl Hi]].
    + apply lookup_replicate in Hi as [-> Hi]. rewrite Hraw by lia. rewrite decide_False by lia. reflexivity.
    + rewrite length_replicate in *. apply list_lookup_singleton_Some in Hi as [Hi <-]. rewrite Hraw by lia. rewrite decide_True by lia. reflexivity.
  - rewrite Hlen. intros a Ha. cbn [memory block_vm]. rewrite Hraw by lia. eauto.
  - reflexivity.
  - exists v'. split; [exact H1|]. split; [rewrite Hraw by lia; rewrite decide_True by reflexivity; reflexivity|].
    change (4097 + CHUNK_SIZE) with (4096 + 1 + Z.max 1 CHUNK_SIZE). rewrite H3. change (Z.max 1 CHUNK_SIZE - 1) with (CHUNK_SIZE - 1).
    rewrite lookup_app_l by (rewrite length_replicate; lia). apply lookup_replicate_2. lia.
Defined.
