(* ===== verification/Calls.v ===== *)
(** * Calls

    Frames for calls ([dotnet-vm/src/stack/call_ops_impl.rs] and [context.rs]): the frame
    of a managed method with its arguments, locals and homes, the receivers of
    constructors, tail calls and jumps, the limit on the depth of frames, and what a call
    does before a frame is pushed; and the invocation of a delegate
    ([dotnet-intrinsics-delegates/src/invoke.rs]).

    What the resolver says of a method or a type, the intrinsics, native calls and the
    fields of a delegate are arguments.  Reserving capacity and tracing have no effect here. *)

From Stdlib Require Import ZArith Lia SpecFloat.
From stdpp Require Import base tactics list option strings gmap.
From S2P Require Import Prelude Generics Bytes Floats Marking ManagedPtr ArenaRegistry PtrSerde StackValue Ops FrameAlloc Layout FrameHomes VmData HomeBuild Interp Exceptions Dispatch MemoryChecks Memory MemorySafety RawOps Variables.

Import Registry.

Local Open Scope vm_scope.

Section calls.

Variable r : ArenaRegistry.
Variable th : nat.
Variable rt : runtime.
Variable threshold : nat.
(** The host's allocator, and whether it has room for one more entry of a list. *)
Variable alloc_fn : RawBlocks.Layout -> Z.
Variable reserved : bool.

(** The resolver. *)
Variable make_concrete : Generics.GenericLookup -> MethodType -> outcome TypeResolutionError Generics.ConcreteType.
Variable find_concrete_type : Generics.ConcreteType -> outcome TypeResolutionError TypeDescription.
Variable is_value_type : TypeDescription -> outcome TypeResolutionError bool.
Variable type_name : TypeDescription -> string.
Variable new_object : TypeDescription -> Generics.ConcreteType -> Generics.GenericLookup -> outcome TypeResolutionError Object.

(** ** Locals *)

(** The value a local starts with; one in a home has it there. *)
Definition primitive_default (p : prim) : StackValue :=
  match p with
  | Boolean | Char | Int8 | UInt8 | Int16 | UInt16 | Int32 | UInt32 => SV.Int32 0
  | Int64 | UInt64 => SV.Int64 0
  | Float32 | Float64 => SV.NativeFloat (S754_zero false)
  | IntPtr | UIntPtr => SV.NativeInt 0
  | Object_ | String_ => SV.ObjectRef None
  end.

Definition init_local (homes : option FrameHomeLayout) (generics : Generics.GenericLookup) (i : nat) (l : LocalVariable)
  : outcome TypeResolutionError (bool * StackValue) :=
  match l with
  | TypedReferenceLocal => Val (false, SV.UninitializedTypedRef)
  | Variable_ pinned _ var_type =>
      match homes ≫= (fun h => layout_local h i) with
      | Some _ => Val (pinned, SV.ObjectRef None)
      | None =>
          let* c := make_concrete generics var_type in
          let* x := match c with
                    | CT _ (BPrim p) => Val (primitive_default p)
                    | CT _ (BFunctionPointer _) | CT _ (BValuePointer _ _) => Val (SV.NativeInt 0)
                    | CT _ (BArray _ _) | CT _ (BVector _ _) => Val (SV.ObjectRef None)
                    | CT _ (BType _ _) =>
                        let* desc := find_concrete_type c in
                        if String.eqb (type_name desc) "System.TypedReference" then Val SV.UninitializedTypedRef
                        else
                          let* value := is_value_type desc in
                          if value : bool then let* obj := new_object desc c generics in Val (SV.ValueType obj)
                          else Val (SV.ObjectRef None)
                    end in
          Val (pinned, x)
      end
  end.

Definition aset_slot_at {E} (i : nat) (x : StackValue) : act E unit :=
  amodify (fun v => set_context v (set_eval (context v) (set_slot_at (eval (context v)) i x))).

(** From the [i]th local on. *)
Fixpoint init_locals (homes : option FrameHomeLayout) (generics : Generics.GenericLookup) (locals_base i : nat) (ls : list LocalVariable)
  : act TypeResolutionError (list bool) :=
  match ls with
  | [] => aret []
  | l :: ls =>
      let^ (pinned, x) := alift (init_local homes generics i l) in
      aset_slot_at (locals_base + i) x ;^
      let^ rest := init_locals homes generics locals_base (S i) ls in
      aret (pinned :: rest)
  end.

(** ** Frames *)

Definition on_frames {E} (f : FrameStack -> FrameStack) : act E unit :=
  amodify (fun v => set_context v (set_fstack (context v) (f (fstack (context v))))).

Definition atop {E} : act E nat := agets (fun v => top_of_stack (eval (context v))).

Definition aissue_home_serial {E} : act E Z := fun v =>
  match issue_home_serial (E:=Empty_set) (fstack (context v)) with
  | Val (serial, s) => (Val serial, set_context v (set_fstack (context v) s))
  | _ => (Panic, v)
  end.

(** [allocate_frame_homes] *)
Definition allocate_frame_homes (method : MethodInfo) : act TypeResolutionError FrameHomes :=
  match method_homes method with
  | None => aret no_homes
  | Some layout =>
      let^ serial := aissue_home_serial in
      fun v =>
        match homes_allocate layout serial alloc_fn (thread_gauges v) with
        | Val (h, g) =>
            let m := match homes h with
                     | Some b => map_zeroed (RawBlocks.base (hb_block b)) (RawBlocks.payload_len (hb_block b)) (memory v)
                     | None => memory v
                     end in
            (Val h, set_memory (set_gauges v g) m)
        | Err _ => (Err (Access (MassiveAllocation "local home block")), v)
        | Panic => (Panic, v)
        end
  end.

(** A boxed receiver becomes a managed pointer to its payload. *)
Definition canonicalize_this (method : MethodInfo) (argument_base : nat) : act TypeResolutionError unit :=
  if negb (instance (signature method)) then aret tt
  else
    let^ this := slot_value argument_base in
    match this with
    | SV.ObjectRef obj =>
        let^ value := alift (is_value_type (parent method)) in
        if negb value then aret tt
        else
          let^ m := agets memory in
          match obj with
          | None => apanic
          | Some h =>
              match heap m !! h with
              | None => aundefined
              | Some o =>
                  match ho_storage o with
                  | HBoxed _ _ | HObj _ _ =>
                      let^ q := alift (ManagedPtr.new (nonnull (ho_base o)) (parent method) (Some obj) false (Some 0)) in
                      aset_slot_at argument_base (SV.ManagedPtr q)
                  | _ => apanic
                  end
              end
          end
    | _ => aret tt
    end.

(** The caller, if there is one, has passed its arguments. *)
Definition consume_arguments {E} (n : nat) : act E unit := fun v =>
  match last (frames (fstack (context v))) with
  | None => (Val tt, v)
  | Some f =>
      if (n <=? stack_height f)%nat
      then (Val tt, set_context v (set_fstack (context v) (update_current (fstack (context v)) (fun f => set_height f (stack_height f - n)))))
      else (Panic, v)
  end.

Abbreviation install := (install_frame_homes r th rt threshold).

Definition call_frame (method : MethodInfo) (generic_inst : Generics.GenericLookup) : act TypeResolutionError unit :=
  let num_args := argument_count method in
  let^ top := atop in
  if (top <? num_args)%nat then apanic
  else
    let argument_base := (top - num_args)%nat in
    let locals_base := top in
    let^ pinned := init_locals (method_homes method) generic_inst locals_base 0 (locals method) in
    let^ homes := allocate_frame_homes method in
    let stack_base := (locals_base + length pinned)%nat in
    canonicalize_this method argument_base ;^
    consume_arguments num_args ;^
    on_frames (fun s => push_frame s {| bp_arguments := argument_base; bp_locals := locals_base; bp_stack := stack_base |}
                          method generic_inst pinned) ;^
    install homes.

Fixpoint push_all {E} (xs : list StackValue) : act E unit :=
  match xs with [] => aret tt | x :: xs => apush x ;^ push_all xs end.

Definition entrypoint_frame (method : MethodInfo) (generic_inst : Generics.GenericLookup) (args : list StackValue)
  : act TypeResolutionError unit :=
  let^ argument_base := atop in
  push_all args ;^
  let^ locals_base := atop in
  let^ pinned := init_locals (method_homes method) generic_inst locals_base 0 (locals method) in
  let^ homes := allocate_frame_homes method in
  let stack_base := (locals_base + length pinned)%nat in
  on_frames (fun s => push_frame s {| bp_arguments := argument_base; bp_locals := locals_base; bp_stack := stack_base |}
                        method generic_inst pinned) ;^
  install homes.

(** ** Constructors *)

(** The layout an object shares, and the allocation of an object. *)
Variable layout_of : nat -> LayoutManager.
Variable alloc_obj_ref : Object -> act TypeResolutionError Z.

(** [pop], which panics without an operand. *)
Definition apop_some {E} : act E StackValue := fun v =>
  match apop v with (Val x, v) => (Val x, v) | (_, v) => (Panic, v) end.

Fixpoint pop_n {E} (n : nat) : act E (list StackValue) :=
  match n with
  | O => aret []
  | S n => let^ x := apop_some in let^ xs := pop_n n in aret (x :: xs)
  end.

(** [pop_call_args_into_buffer] and [pop_multiple]: the operands in the order they were pushed. *)
Definition pop_call_args {E} (n : nat) : act E (list StackValue) := let^ xs := pop_n n in aret (reverse xs).

Definition prepare_constructor_receiver (obj : Object) : act TypeResolutionError (ConstructorResult * StackValue) :=
  let fields := layout_of (layout_arc obj) in
  let layout := new_layout fields [] [] in
  let^ serial := aissue_home_serial in
  let^ f := frame in
  let^ address := fun v =>
    match allocate_temporary (frame_homes f) layout serial reserved (allocations f) alloc_fn (thread_gauges v) with
    | Val (a, h, fa, g) =>
        (Val a, set_memory (set_gauges (set_context v (set_fstack (context v) (update_current (fstack (context v))
                  (fun f => set_allocations (set_frame_homes f h) fa)))) g)
                (map_zeroed a (home_size layout) (memory v)))
    | Err _ => (Err (Access (MassiveAllocation "constructor receiver allocation failed")), v)
    | Panic => (Panic, v)
    end in
  on_memory (poke (Raw address) (data obj)) ;^
  let^ result_slot := atop in
  let^ pointer := alift (new_frame_home address (description obj) serial 0 false) in
  apush (SV.ObjectRef None) ;^
  aret ({| result_slot := result_slot; cr_serial := serial; cr_description := description obj; cr_generics := obj_generics obj;
           cr_fields := fields; cr_arc := layout_arc obj |}, SV.ManagedPtr pointer).

Definition complete_constructor_receiver (res : ConstructorResult) : act TypeResolutionError unit :=
  let^ sz := alift (size (cr_fields res)) in
  let^ a := amap_err (fun _ => InvalidLayout "constructor receiver is no longer live") (home_window (cr_serial res) 0 sz) in
  let^ bs := on_memory (peek (Raw a) sz) in
  set_slot_value (result_slot res)
    (SV.ValueType {| description := cr_description res; obj_generics := cr_generics res; layout_arc := cr_arc res;
                     data := bs; has_finalizer := false; finalizer_suppressed := false |}).

(** A second completion fails the assertion. *)
Definition defer_constructor_receiver {E} (res : ConstructorResult) : act E unit :=
  let^ f := frame in
  match constructor_result f with
  | Some _ => apanic
  | None => on_frames (fun s => update_current s (fun f => set_continuation f (frame_continuation f) (Some res)))
  end.

Definition constructor_frame (obj : Object) (method : MethodInfo) (generic_inst : Generics.GenericLookup)
  : act TypeResolutionError unit :=
  let^ value := alift (is_value_type (description obj)) in
  let^ args := pop_call_args (length (parameters (signature method))) in
  let^ completion :=
    if value : bool then
      let^ (res, pointer) := prepare_constructor_receiver obj in
      apush pointer ;^ aret (Some res)
    else
      let^ h := alloc_obj_ref obj in
      apush (SV.ObjectRef (Some h)) ;^ apush (SV.ObjectRef (Some h)) ;^ aret None in
  push_all args ;^
  call_frame method generic_inst ;^
  match completion with Some res => defer_constructor_receiver res | None => aret tt end.

(** ** The depth of frames *)

(** [managed_frame_limit], from the environment; the text of the report is left out. *)
Variable frame_limit : option nat.

Definition managed_frame_abort (v : vm) : option VmError :=
  match frame_limit with
  | None => None
  | Some limit =>
      if (length (frames (fstack (context v))) + 1 <=? limit)%nat then None
      else Some (VmExecution (Aborted "managed frame depth budget exceeded"))
  end.

Abbreviation instruction := (act Empty_set StepResult).

(** [vm_try!] *)
Definition vm_try {A} (x : act TypeResolutionError A) (k : A -> instruction) : instruction :=
  let^ y := catch x in match y with inr a => k a | inl e => aret (Error (VmTypeResolution e)) end.

(** The end of every dispatch to a managed body. *)
Definition push_managed (info : MethodInfo) (lookup : Generics.GenericLookup) : instruction :=
  let^ v := agets id in
  match managed_frame_abort v with
  | Some e => aret (Error e)
  | None => vm_try (call_frame info lookup) (fun _ => aret FramePushed)
  end.

(** ** Tail calls and jumps *)

(** What a frame owned is freed. *)
Definition unmap (b : RawBlocks.RawBlock) (x : gmap Z Z) : gmap Z Z :=
  filter (fun kv => ~ (RawBlocks.base b <= kv.1 < RawBlocks.base b + RawBlocks.payload_len b)) x.

Definition frame_blocks (f : StackFrame) : list RawBlocks.RawBlock :=
  (hb_block <$> blocks_of (frame_homes f)) ++ Ledger.blocks (allocations f).

Definition free_frame {E} (f : StackFrame) : act E unit := fun v =>
  match (let* (_, g) := release (frame_homes f) (thread_gauges v) in Ledger.release_all (allocations f) g) with
  | Val (_, g) => (Val tt, set_memory (set_gauges v g) (set_raw (memory v) (foldr unmap (raw (memory v)) (frame_blocks f))))
  | _ => (Panic, v)
  end.

(** [pop_and_recycle_frame_with_trace]; no frame panics. *)
Definition pop_and_recycle_frame {E} : act E unit := fun v =>
  match pop_frame (fstack (context v)) with
  | None => (Panic, v)
  | Some (f, s) => free_frame f (set_context v (set_fstack (context v) (recycle_frame s f)))
  end.

Definition aclear_from {E} (first : nat) : act E unit :=
  amodify (fun v => set_context v (clear_evaluation_stack_from (context v) first)).

Definition in_handlers (f : StackFrame) : bool :=
  existsb (fun sec => contains (s_instructions sec) (ip f) || existsb (fun h => contains (h_instructions h) (ip f)) (handlers sec))
    (exceptions (info f)).

Definition should_honor_tail_call (f : StackFrame) (arg_count : nat) : bool :=
  negb (synchronized (info f)) &&
  negb (is_cctor (info f) || is_finalizer f || bool_decide (is_Some (multicast_state f)) ||
        bool_decide (is_Some (frame_continuation f)) || bool_decide (is_Some (constructor_result f))) &&
  match instructions (info f) !! Z.to_nat (ip f + 1) with Some Ret => true | _ => false end &&
  (stack_height f =? arg_count)%nat &&
  negb (in_handlers f).

(** [copy_slots_into] *)
Definition copy_slots {E} (start count : nat) : act E (list StackValue) := fun v =>
  (if (start + count <=? length (stack (eval (context v))))%nat
   then Val (take count (drop start (stack (eval (context v))))) else Panic, v).

(** The end of [dispatch_method_tail]: an honoured tail call replaces the frame. *)
Definition tail_to (info : MethodInfo) (lookup : Generics.GenericLookup) : instruction :=
  let arg_count := argument_count info in
  let^ f := frame in
  if negb (should_honor_tail_call f arg_count) then push_managed info lookup
  else
    let^ args := copy_slots (bp_stack (frame_base f)) arg_count in
    pop_and_recycle_frame ;^
    aclear_from (bp_arguments (frame_base f)) ;^
    push_all args ;^
    push_managed info lookup.

(** What dispatch reads of a [MethodDescription]; [m_id] tells methods apart. *)
Record Method : Type := {
  m_id : nat;
  m_name : string;
  m_parent : TypeDescription;
  m_signature : MethodSignature MethodType;
  m_parent_arity : nat;
  m_parent_generics : list Generics.ConcreteType;
  m_before_field_init : bool;
  m_parent_interface : bool;
  m_pinvoke : bool;
  m_has_body : bool;
  m_internal_call : bool;
  m_virtual : bool;
  m_abstract : bool;
}.

Variable method_info : Method -> Generics.GenericLookup -> outcome TypeResolutionError MethodInfo.
(** [signatures_equal], between the current and the target signature *)
Variable signatures_equal : MethodSignature MethodType -> Generics.GenericLookup -> MethodSignature MethodType -> Generics.GenericLookup -> bool.

Definition aborted (what : string) : instruction := aret (Error (VmExecution (Aborted what))).

(** The [i]th arguments of the current frame, from [i] on. *)
Fixpoint get_arguments {E} (i n : nat) : act E (list StackValue) :=
  match n with
  | O => aret []
  | S n => let^ x := get_argument r th i in let^ xs := get_arguments (S i) n in aret (x :: xs)
  end.

Definition jmp_region (f : StackFrame) : option string :=
  foldr (fun sec rest =>
      if contains (s_instructions sec) (ip f) then Some "jmp out of try/catch/finally block"%string
      else if existsb (fun h => contains (h_instructions h) (ip f)) (handlers sec) then Some "jmp out of exception handler"%string
      else rest)
    None (exceptions (info f)).

Definition dispatch_method_jmp (m : Method) (lookup : Generics.GenericLookup) : instruction :=
  let^ f := frame in
  if negb (stack_height f =? 0)%nat then aborted "jmp requires empty evaluation stack"
  else match jmp_region f with Some what => aborted what | None =>
  if negb (signatures_equal (signature (info f)) (generic_inst f) (m_signature m) lookup) then aborted "jmp signature mismatch"
  else
    let arg_count := ((if instance (m_signature m) then 1 else 0) + length (parameters (m_signature m)))%nat in
    let^ args := get_arguments 0 arg_count in
    on_frames (fun s => update_current s (fun f => set_continuation f (frame_continuation f) None)) ;^
    pop_and_recycle_frame ;^
    aclear_from (bp_arguments (frame_base f)) ;^
    push_all args ;^
    let? i := alift (omap_err VmTypeResolution (method_info m lookup)) in
    let^ v := agets id in
    match managed_frame_abort v with
    | Some e => aret (Error e)
    | None =>
        vm_try (call_frame i lookup) (fun _ =>
          on_frames (fun s => update_current s (fun g => set_continuation g (frame_continuation g) (constructor_result f))) ;^
          aret FramePushed)
    end
  end.

(** ** Dispatch *)

Inductive ResolvedMethodDispatchMode : Set := VmContext | ExecutionEngineApi.

(** The class-library functions, native calls, delegates and class constructors. *)
Variable intrinsic : ResolvedMethodDispatchMode -> Method -> option (Generics.GenericLookup -> instruction).
Variable external_call : Method -> instruction.
Variable delegate_dispatch : Method -> Generics.GenericLookup -> option instruction.
Variable initialize_static_storage : TypeDescription -> Generics.GenericLookup -> instruction.
(** The resolver: the heap type and generic arguments of an object, virtual resolution,
    assignability, and the methods of a type. *)
Variable heap_description_of : Z -> outcome TypeResolutionError TypeDescription.
Variable object_generics_of : Z -> list Generics.ConcreteType.
Variable resolve_virtual_method : Method -> TypeDescription -> Generics.GenericLookup -> outcome TypeResolutionError Method.
Variable receiver_assignable : TypeDescription -> Generics.GenericLookup -> Method -> bool.
Variable methods_of : TypeDescription -> list Method.
Variable set_type_generics : Generics.GenericLookup -> list Generics.ConcreteType -> Generics.GenericLookup.

Definition INVALID_CAST_MSG : string := "Specified cast is not valid.".

Definition is_boolean_parameter (p : SigParameter MethodType) : bool :=
  match p with Param _ (PValue (Generics.MBase (BPrim Boolean))) => true | _ => false end.

Definition redirect_expression_compile (m : Method) : option Method :=
  let parent_name := type_name (m_parent m) in
  if negb (String.eqb parent_name "System.Linq.Expressions.LambdaExpression" || String.eqb parent_name "System.Linq.Expressions.Expression`1") then None
  else if negb (String.eqb (m_name m) "Compile") then None
  else match parameters (m_signature m) with
       | _ :: _ => None
       | [] =>
           snd <$> list_find (fun c => (String.eqb (m_name c) "Compile" &&
             match parameters (m_signature c) with [p] => is_boolean_parameter p | _ => false end) = true) (methods_of (m_parent m))
       end.

Definition no_body_runtime_stub (m : Method) : bool :=
  String.eqb (type_name (m_parent m)) "System.Dynamic.Utils.DelegateHelpers" &&
  String.eqb (m_name m) "<CreateObjectArrayDelegateRefEmit>g__ForceAllowDynamicCode|19_1".

Definition apeek_at {E} (i : nat) : act E StackValue := fun v =>
  match stack (eval (context v)) !! (length (stack (eval (context v))) - 1 - i)%nat with
  | Some x => if (i <? length (stack (eval (context v))))%nat then (Val x, v) else (Panic, v)
  | None => (Panic, v)
  end.

Definition drop_top {E} (n : nat) : act E unit := pop_n n ;^ aret tt.

(** [merge_receiver_lookup_for_virtual_dispatch] *)
Definition merge_receiver_lookup (m : Method) (lookup : Generics.GenericLookup) : act Empty_set Generics.GenericLookup :=
  let^ this := apeek_at (length (parameters (m_signature m))) in
  let^ generics := match this with
                   | SV.ObjectRef (Some h) => aret (object_generics_of h)
                   | SV.ManagedPtr q =>
                       match origin q with
                       | Heap (Some h) => aret (object_generics_of h)
                       | Heap None => apanic
                       | _ => aret []
                       end
                   | _ => aret []
                   end in
  aret match generics with [] => lookup | g => set_type_generics lookup g end.

(** [rebind_lookup_to_resolved_method] *)
Definition rebind_lookup (lookup : Generics.GenericLookup) (m : Method) : Generics.GenericLookup :=
  if (m_parent_arity m =? 0)%nat then set_type_generics lookup []
  else if (length (m_parent_generics m) =? m_parent_arity m)%nat then set_type_generics lookup (m_parent_generics m)
  else set_type_generics lookup (take (m_parent_arity m) (type_generics lookup)).

(** [try_interface_method_not_found_invalid_cast] *)
Definition not_found (m : Method) (this_type : TypeDescription) (lookup : Generics.GenericLookup) (e : TypeResolutionError) : instruction :=
  match e with
  | MethodNotFound _ =>
      if m_parent_interface m && negb (receiver_assignable this_type lookup m)
      then athrow rt "System.InvalidCastException" INVALID_CAST_MSG
      else aret (Error (VmTypeResolution e))
  | _ => aret (Error (VmTypeResolution e))
  end.

(** The type of the receiver of a call with [n] arguments, or the step it ends in. *)
Definition receiver_type (n : nat) (k : TypeDescription -> instruction) : instruction :=
  let^ this := apeek_at (n - 1) in
  match this with
  | SV.ObjectRef None => drop_top n ;^ athrow rt "System.NullReferenceException" NULL_REF_MSG
  | SV.ObjectRef (Some h) => vm_try (alift (heap_description_of h)) k
  | SV.ManagedPtr q => k (inner_type q)
  | x => drop_top n ;^ aret (Error (VmExecution (TypeMismatch "ObjectRef or ManagedPtr" (stack_value_kind x))))
  end.

Definition needs_class_init (m : Method) (value : bool) : bool :=
  negb (m_before_field_init m) &&
  (negb (instance (m_signature m)) || value || String.eqb (m_name m) ".ctor").

(** [dispatch_resolved_method_with_mode]; [dispatch] makes the call of a method that an
    abstract slot resolves to. *)
Definition dispatch_resolved_method (dispatch : Method -> Generics.GenericLookup -> instruction) (mode : ResolvedMethodDispatchMode)
    (m : Method) (lookup : Generics.GenericLookup) : instruction :=
  match intrinsic mode m with
  | Some h => h lookup
  | None =>
      if m_pinvoke m then external_call m
      else if negb (m_has_body m) then
        if match mode with ExecutionEngineApi => m_internal_call m | VmContext => false end
        then aret (Error (VmExecution (NotImplemented "intrinsic not found")))
        else if no_body_runtime_stub m then apop_some ;^ apush (SV.ObjectRef None) ;^ aret Continue
        else
          match delegate_dispatch m lookup with
          | Some h => h
          | None =>
              let no_body := aret (Error (VmExecution (NotImplemented "no body in executing method"))) in
              if negb (instance (m_signature m) && m_virtual m && m_abstract m) then no_body
              else
                receiver_type (1 + length (parameters (m_signature m))) (fun this_type =>
                  let^ l := merge_receiver_lookup m lookup in
                  match resolve_virtual_method m this_type l with
                  | Val target =>
                      if (m_id target =? m_id m)%nat then no_body
                      else dispatch target (rebind_lookup l target)
                  | Err e => not_found m this_type l e
                  | Panic => apanic
                  end)
          end
      else vm_try (alift (method_info m lookup)) (fun i => push_managed i lookup)
  end.

(** Every redirection and every abstract slot that is resolved takes one unit of fuel. *)
Fixpoint dispatch_method (fuel : nat) (m : Method) (lookup : Generics.GenericLookup) : instruction :=
  match fuel with
  | O => aundefined
  | S fuel =>
      let resolved :=
        match redirect_expression_compile m with
        | Some c => apush (SV.Int32 1) ;^ dispatch_method fuel c lookup
        | None => dispatch_resolved_method (dispatch_method fuel) VmContext m lookup
        end in
      if m_before_field_init m then resolved
      else
        vm_try (alift (is_value_type (m_parent m))) (fun value =>
          if needs_class_init m value then
            let^ res := initialize_static_storage (m_parent m) lookup in
            match res with Continue => resolved | res => aret res end
          else resolved)
  end.

Definition dispatch_method_tail (fuel : nat) (m : Method) (lookup : Generics.GenericLookup) : instruction :=
  match intrinsic VmContext m with
  | Some h => h lookup
  | None =>
      if m_pinvoke m then external_call m
      else if negb (m_has_body m) then dispatch_method fuel m lookup
      else vm_try (alift (method_info m lookup)) (fun i => tail_to i lookup)
  end.

(** [unified_dispatch_common], with a method that is found; [this_type] is the type of the
    receiver of a virtual call. *)
Definition unified_dispatch (dispatch_fn : Method -> Generics.GenericLookup -> instruction)
    (target : outcome TypeResolutionError (Method * Generics.GenericLookup)) (this_type : option TypeDescription) : instruction :=
  vm_try (alift target) (fun '(m, lookup) =>
    match this_type with
    | None => dispatch_fn m lookup
    | Some this_type =>
        let^ lookup := merge_receiver_lookup m lookup in
        match resolve_virtual_method m this_type lookup with
        | Val final => dispatch_fn final (rebind_lookup lookup final)
        | Err e => not_found m this_type lookup e
        | Panic => apanic
        end
    end).

(** ** Delegates *)

(** The fields of a delegate: the vector of a multicast delegate with its elements, the
    target, and the method with its generic arguments; and the [Debug] text of an operand. *)
Variable multicast_targets : Z -> option (Z * list (option Z)).
Variable delegate_target : Z -> option Z.
Variable delegate_method : Z -> Method * Generics.GenericLookup.
Variable debug_text : StackValue -> string.

(** The vector to go through, unless the delegate is its only element. *)
Definition spread_targets (h : Z) : outcome Empty_set (option Z) :=
  match multicast_targets h with
  | None => Val None
  | Some (vector, elements) =>
      if (1 <? length elements)%nat then Val (Some vector)
      else let* first := expect (head elements) in Val (if bool_decide (first = Some h) then None else Some vector)
  end.

(** The frame of [Invoke] that calls the targets one after the other. *)
Definition multicast_frame (m : Method) (lookup : Generics.GenericLookup) (h vector : Z) (args : list StackValue) : instruction :=
  vm_try (alift (method_info m lookup)) (fun i =>
    apush (SV.ObjectRef (Some h)) ;^
    push_all args ;^
    vm_try (call_frame i lookup) (fun _ =>
      on_frames (fun s => update_current s (fun f => set_multicast f (Some {| targets := vector; next_index := 0; mc_args := args |}))) ;^
      aret FramePushed)).

Definition invoke_delegate (dispatch : Method -> Generics.GenericLookup -> instruction) (m : Method) (lookup : Generics.GenericLookup) : instruction :=
  let^ args := pop_call_args (length (parameters (m_signature m))) in
  let^ x := apop_some in
  match x with
  | SV.ObjectRef None => athrow rt "System.NullReferenceException" NULL_REF_MSG
  | SV.ObjectRef (Some h) =>
      let^ spread := alift (spread_targets h) in
      match spread with
      | Some vector => multicast_frame m lookup h vector args
      | None =>
          let '(target, target_lookup) := delegate_method h in
          (if instance (m_signature target) || bool_decide (is_Some (delegate_target h))
           then apush (SV.ObjectRef (delegate_target h)) else aret tt) ;^
          push_all args ;^
          dispatch target target_lookup
      end
  | x => aret (Error (VmExecution (TypeMismatch "delegate object reference" (debug_text x))))
  end.

(** ** Instructions

    A method source is resolved by [find_generic_method], whose answer is the argument. *)

Definition call (fuel : nat) (tail_call : bool) (target : outcome TypeResolutionError (Method * Generics.GenericLookup)) : instruction :=
  unified_dispatch (if tail_call then dispatch_method_tail fuel else dispatch_method fuel) target None.

Definition dispatch_callvirt (fuel : nat) (tail_call : bool) (target : outcome TypeResolutionError (Method * Generics.GenericLookup))
  : instruction :=
  vm_try (alift target) (fun '(m, lookup) =>
    receiver_type (1 + length (parameters (m_signature m))) (fun this_type =>
      unified_dispatch (if tail_call then dispatch_method_tail fuel else dispatch_method fuel) (Val (m, lookup)) (Some this_type))).

Definition jmp (target : outcome TypeResolutionError (Method * Generics.GenericLookup)) : instruction :=
  vm_try (alift target) (fun '(m, lookup) => dispatch_method_jmp m lookup).

End calls.
