(* ===== verification/CallLaws.v ===== *)
(** * Laws of calls

    Frames tile the evaluation stack; what a call, a tail call, a jump and a return do to
    it; how deep frames get; and when a class constructor runs before a call ([Calls],
    [Dispatch]). *)

From Stdlib Require Import ZArith Lia.
From stdpp Require Import base tactics list option strings gmap relations.
From S2P Require Import Prelude Generics Bytes Marking ManagedPtr ArenaRegistry PtrSerde StackValue Ops Instructions FrameAlloc Layout FrameHomes VmData HomeBuild Interp Exceptions Unwinding Dispatch MemoryChecks Memory MemorySafety RawOps Variables Calls.

Import Registry.

Local Open Scope vm_scope.

(** ** Actions that succeed *)

Lemma abind_val {E A B} (x : act E A) (f : A -> act E B) v b v' :
  abind x f v = (Val b, v') -> exists a v1, x v = (Val a, v1) /\ f a v1 = (Val b, v').
Proof. unfold abind. destruct (x v) as [[a|e|] v1]; [|done..]. eauto. Qed.

Lemma alift_val {E A} (x : outcome E A) v a v' : alift x v = (Val a, v') -> x = Val a /\ v' = v.
Proof. unfold alift. destruct x; intros [= ]; subst; done. Qed.

(** Takes a successful action apart. *)
Ltac act_step H :=
  let a := fresh "a" in let v := fresh "v" in let Hx := fresh "H" in
  apply abind_val in H as (a & v & Hx & H).

(** An action that leaves the interpreter alone. *)
Definition keeps_context {E A} (x : act E A) : Prop := forall v, context (snd (x v)) = context v.

Lemma keeps_context_bind {E A B} (x : act E A) (f : A -> act E B) :
  keeps_context x -> (forall a, keeps_context (f a)) -> keeps_context (abind x f).
Proof.
  intros Hx Hf v. unfold abind. specialize (Hx v). destruct (x v) as [[a|e|] v1]; simpl in *; [|done..]. by rewrite Hf.
Qed.

Lemma keeps_result {E A} (x : act E A) v y v' : x v = (y, v') -> keeps_context x -> context v' = context v.
Proof. intros H Hx. specialize (Hx v). by rewrite H in Hx. Qed.

Lemma keeps_map_err {E F A} (g : E -> F) (x : act E A) : keeps_context x -> keeps_context (amap_err g x).
Proof. intros Hx v. unfold amap_err. specialize (Hx v). by destruct (x v) as [[|[]|] ?]. Qed.

Lemma keeps_on_memory {E A} (x : op E A) : keeps_context (on_memory x).
Proof. intros v. unfold on_memory. by destruct (x (memory v)). Qed.

Lemma keeps_catch {E F A} (x : act E A) : keeps_context x -> keeps_context (catch (F:=F) x).
Proof. intros Hx v. unfold catch. specialize (Hx v). by destruct (x v) as [[|[]|] ?]. Qed.

Create HintDb keeps.
#[export] Hint Extern 1 (keeps_context (on_memory _)) => apply keeps_on_memory : keeps.
#[export] Hint Extern 1 (keeps_context (amap_err _ _)) => apply keeps_map_err : keeps.
#[export] Hint Extern 2 (keeps_context _) => (intros ?; reflexivity) : keeps.

Ltac keeps_steps :=
  repeat first
    [ progress intros
    | solve [eauto 3 with keeps]
    | match goal with
      | |- keeps_context (abind _ _) => apply keeps_context_bind
      | |- keeps_context (amap_err _ _) => apply keeps_map_err
      | |- keeps_context (catch _) => apply keeps_catch
      | |- keeps_context (aexpect _) => unfold aexpect
      | |- keeps_context (match ?x with _ => _ end) => destruct x
      | |- keeps_context (if ?b then _ else _) => destruct b
      end ].

Lemma store_home_keeps r th rt threshold a home x : keeps_context (store_home r th rt threshold a home x).
Proof. unfold store_home, unwrap_scalar, convert_for_home, home_mismatch. keeps_steps. Qed.

Lemma install_argument_keeps r th rt threshold x : keeps_context (install_argument r th rt threshold x).
Proof. unfold install_argument. keeps_steps. apply store_home_keeps. Qed.

Lemma aiter_keeps {E A} (f : A -> act E unit) l : (forall a, keeps_context (f a)) -> keeps_context (aiter f l).
Proof. intros Hf. induction l; cbn [aiter]; keeps_steps; done. Qed.

(** ** The parts of a call *)

Abbreviation ev v := (stack (eval (context v))).
Abbreviation frs v := (frames (fstack (context v))).
Abbreviation depth c := (length (frames (fstack c))).

Lemma push_frame_frames s bp m g pinned : frames (push_frame s bp m g pinned) = frames s ++ [new_frame bp m g pinned].
Proof. unfold push_frame. by destruct (last (pooled_frames s)). Qed.

Lemma update_current_snoc s fs f u : frames s = fs ++ [f] -> frames (update_current s u) = fs ++ [u f].
Proof. intros Hs. unfold update_current, update_frame, set_frames; cbn [frames]. by rewrite Hs, alter_last. Qed.

(** A boxed receiver may have been replaced by a pointer to its payload. *)
Definition passed (args args' : list StackValue) : Prop :=
  args' = args \/
  exists h q rest, args = SV.ObjectRef (Some h) :: rest /\ args' = SV.ManagedPtr q :: rest /\ origin q = Heap (Some h).

Lemma passed_length args args' : passed args args' -> length args' = length args.
Proof. by intros [-> | (h & q & rest & -> & -> & _)]. Qed.

Lemma make_ptr_origin {E} a ty o off fl q : make_ptr (E:=E) a ty o off fl = Val q -> origin q = o.
Proof. unfold make_ptr. intros (p & _ & [= <-])%obind_val. done. Qed.

(** The frames, when the last one has passed [n] arguments. *)
Definition consumed (n : nat) (fs : list StackFrame) : list StackFrame :=
  match last fs with
  | Some f => removelast fs ++ [set_height f (stack_height f - n)]
  | None => []
  end.

Lemma consumed_snoc n fs f : consumed n (fs ++ [f]) = fs ++ [set_height f (stack_height f - n)].
Proof. unfold consumed. by rewrite last_snoc, removelast_snoc. Qed.

(** The frame that a call pushes. *)
Definition callee_frame (below n : nat) (m : MethodInfo) (g : Generics.GenericLookup) (pinned : list bool) (h : FrameHomes) : StackFrame :=
  set_frame_homes (new_frame {| bp_arguments := below; bp_locals := below + n; bp_stack := below + n + length (locals m) |} m g pinned) h.

(** ** Tiling *)

(** From [base] to [top] the frames follow each other: the arguments of a frame start where
    the operands of its caller end; its locals come next, then its operands. *)
Fixpoint tiled (base : nat) (fs : list StackFrame) (top : nat) : Prop :=
  match fs with
  | [] => base = top
  | f :: fs =>
      bp_arguments (frame_base f) = base /\
      bp_locals (frame_base f) = (base + argument_count (info f))%nat /\
      bp_stack (frame_base f) = (bp_locals (frame_base f) + length (locals (info f)))%nat /\
      tiled (bp_stack (frame_base f) + stack_height f) fs top
  end.

Definition stack_tiled (base : nat) (c : ctx) : Prop :=
  tiled base (frames (fstack c)) (length (stack (eval c))) /\ frames (fstack c) <> [].

Lemma tiled_snoc base fs f top : tiled base (fs ++ [f]) top <->
  tiled base fs (bp_arguments (frame_base f)) /\
  bp_locals (frame_base f) = (bp_arguments (frame_base f) + argument_count (info f))%nat /\
  bp_stack (frame_base f) = (bp_locals (frame_base f) + length (locals (info f)))%nat /\
  (bp_stack (frame_base f) + stack_height f)%nat = top.
Proof.
  revert base. induction fs as [|f' fs IH]; intros base; simpl; [|rewrite IH; naive_solver].
  split; [intros (<- & ? & ? & ?) | intros (<- & ? & ? & ?)]; done.
Qed.

(** Only the base, the method and the height matter. *)
Definition same_place (f g : StackFrame) : Prop :=
  frame_base g = frame_base f /\ info g = info f /\ stack_height g = stack_height f.

Lemma tiled_same base fs f g top : same_place f g -> tiled base (fs ++ [f]) top -> tiled base (fs ++ [g]) top.
Proof. intros (H1 & H2 & H3). rewrite !tiled_snoc, H1, H2, H3. done. Qed.

(** The last frame is changed in place. *)
Lemma update_current_tiled base c u : (forall f, same_place f (u f)) -> stack_tiled base c ->
  stack_tiled base (set_fstack c (update_current (fstack c) u)).
Proof.
  intros Hu [Ht Hn]. destruct (frames (fstack c)) as [|f fs _] eqn:Hf using rev_ind; [done|].
  assert (Hf' : frames (update_current (fstack c) u) = fs ++ [u f]) by by apply update_current_snoc.
  split; cbn [fstack set_fstack eval]; rewrite Hf'; [|by destruct fs]. by apply (tiled_same base fs f).
Qed.

(** The height of the last frame and the operands grow and shrink together. *)
Lemma tiled_height base fs f top n : tiled base (fs ++ [f]) top -> tiled base (fs ++ [set_height f (stack_height f + n)]) (top + n).
Proof. rewrite !tiled_snoc. cbn [set_height frame_base info stack_height]. intros (H1 & H2 & H3 & <-). repeat split; try done. lia. Qed.

Lemma tiled_height_sub base fs f top n : (n <= stack_height f)%nat -> tiled base (fs ++ [f]) top ->
  tiled base (fs ++ [set_height f (stack_height f - n)]) (top - n).
Proof. intros Hn. rewrite !tiled_snoc. cbn [set_height frame_base info stack_height]. intros (H1 & H2 & H3 & <-). repeat split; try done. lia. Qed.

(** The frame of a callee goes on top. *)
Lemma tiled_callee base fs below n m g pinned h top : tiled base fs below -> n = argument_count m -> top = (below + n + length (locals m))%nat ->
  tiled base (fs ++ [callee_frame below n m g pinned h]) top.
Proof. intros Hf -> ->. rewrite tiled_snoc. cbn. repeat split; first [done | lia]. Qed.

Lemma push_tiled base x c : stack_tiled base c -> stack_tiled base (push x c).
Proof.
  change (push x c) with (ves_push x c). intros [Ht Hn]. destruct (frames (fstack c)) as [|f fs _] eqn:Hf using rev_ind; [done|].
  destruct (ves_push_snoc x c fs f Hf) as (H1 & H2 & _). split; [|rewrite H1; by destruct fs].
  rewrite H1, H2, length_app. rewrite <- Nat.add_1_r. by apply tiled_height.
Qed.

Lemma pop_tiled base c x c' : pop_safe c = (Val x, c') -> stack_tiled base c -> stack_tiled base c'.
Proof.
  intros H [Ht Hn]. cbn [pop_safe ctx_ops] in H. unfold ves_pop_safe, on_pop_safe in H.
  destruct (frames (fstack c)) as [|f fs _] eqn:Hf using rev_ind; [done|]. rewrite last_snoc in H.
  destruct (stack_height f) as [|k] eqn:Hh; [done|]. unfold es_pop_safe in H. cbn [eval set_fstack] in H.
  destruct (last (stack (eval c))) as [y|] eqn:Hl; [|done]. injection H as <- <-.
  assert (Hfr : frames (update_current (fstack c) (fun f => set_height f k)) = fs ++ [set_height f k])
    by by apply (update_current_snoc _ fs f (fun f => set_height f k)).
  split; cbn [fstack set_eval set_fstack eval stack]; rewrite Hfr; [|by destruct fs].
  apply last_snoc_inv in Hl. rewrite Hl in Ht. rewrite length_app in Ht. simpl in Ht.
  replace (length (removelast (stack (eval c)))) with (length (removelast (stack (eval c))) + 1 - 1)%nat by lia.
  replace k with (stack_height f - 1)%nat by lia. apply tiled_height_sub; [lia | done].
Qed.

(** The frames, when [n] operands have been pushed. *)
Definition raised (n : nat) (fs : list StackFrame) : list StackFrame :=
  match last fs with
  | Some f => removelast fs ++ [set_height f (stack_height f + n)]
  | None => []
  end.

Lemma set_height_same f : set_height f (stack_height f) = f.
Proof. by destruct f. Qed.

Lemma raised_snoc n fs f : raised n (fs ++ [f]) = fs ++ [set_height f (stack_height f + n)].
Proof. unfold raised. by rewrite last_snoc, removelast_snoc. Qed.

Lemma raised_0 fs : raised 0 fs = fs.
Proof. destruct fs as [|f fs _] using rev_ind; [done|]. by rewrite raised_snoc, Nat.add_0_r, set_height_same. Qed.

Lemma raised_raised n m fs : raised n (raised m fs) = raised (m + n) fs.
Proof. destruct fs as [|f fs _] using rev_ind; [done|]. rewrite !raised_snoc. cbn [set_height stack_height]. by rewrite Nat.add_assoc. Qed.

Lemma consumed_raised n fs : consumed n (raised n fs) = fs.
Proof.
  destruct fs as [|f fs _] using rev_ind; [done|]. rewrite raised_snoc, consumed_snoc. cbn [set_height stack_height].
  replace (stack_height f + n - n)%nat with (stack_height f) by lia.
  change (set_height (set_height f _) (stack_height f)) with (set_height f (stack_height f)). by rewrite set_height_same.
Qed.

Lemma push_val {E} x v v' : apush (E:=E) x v = (Val tt, v') -> ev v' = ev v ++ [x] /\ frs v' = raised 1 (frs v).
Proof.
  unfold apush, amodify. intros [= <-]. cbn [context set_context]. change (push x (context v)) with (ves_push x (context v)).
  split; [done|]. destruct (frs v) as [|f fs _] eqn:Hf using rev_ind.
  - unfold ves_push, on_push. cbn [fstack set_eval]. unfold update_current, update_frame, set_frames. cbn [frames set_fstack fstack]. by rewrite Hf.
  - rewrite raised_snoc, Nat.add_1_r. by apply (ves_push_snoc x (context v) fs f).
Qed.

Lemma push_all_val {E} xs : forall v v', push_all (E:=E) xs v = (Val tt, v') -> ev v' = ev v ++ xs /\ frs v' = raised (length xs) (frs v).
Proof.
  induction xs as [|x xs IH]; intros v v' H; cbn [push_all] in H.
  - injection H as <-. by rewrite app_nil_r, raised_0.
  - apply abind_val in H as ([] & v1 & [H1 H2]%push_val & [H3 H4]%IH). rewrite H3, H4, H1, H2, raised_raised, <- app_assoc. done.
Qed.

Lemma pop_and_recycle_val {E} v v' fs f : pop_and_recycle_frame (E:=E) v = (Val tt, v') -> frs v = fs ++ [f] ->
  frs v' = fs /\ ev v' = ev v.
Proof.
  unfold pop_and_recycle_frame, pop_frame. intros H Hf. rewrite Hf, last_snoc, removelast_snoc in H. unfold free_frame in H.
  destruct (obind _ _) as [[? g]| |]; [|done..]. injection H as <-. cbn [context set_memory set_gauges set_context fstack set_fstack eval].
  split; [|done]. unfold recycle_frame. by destruct (_ <? _)%nat.
Qed.

(** ** Calls *)

Section calls.
Variable r : ArenaRegistry.
Variable th : nat.
Variable rt : runtime.
Variable threshold : nat.
Variable alloc_fn : RawBlocks.Layout -> Z.
Variable make_concrete : Generics.GenericLookup -> MethodType -> outcome TypeResolutionError Generics.ConcreteType.
Variable find_concrete_type : Generics.ConcreteType -> outcome TypeResolutionError TypeDescription.
Variable is_value_type : TypeDescription -> outcome TypeResolutionError bool.
Variable type_name : TypeDescription -> string.
Variable new_object : TypeDescription -> Generics.ConcreteType -> Generics.GenericLookup -> outcome TypeResolutionError Object.

Abbreviation init := (init_locals make_concrete find_concrete_type is_value_type type_name new_object).
Abbreviation call := (call_frame r th rt threshold alloc_fn make_concrete find_concrete_type is_value_type type_name new_object).

Lemma init_locals_val homes g base ls : forall i v pinned v', init homes g base i ls v = (Val pinned, v') -> length (ev v) = (base + i)%nat ->
  length pinned = length ls /\ frs v' = frs v /\ exists xs, length xs = length ls /\ ev v' = ev v ++ xs.
Proof.
  induction ls as [|l ls IH]; intros i v pinned v' H Hl; cbn [init_locals] in H.
  - injection H as <- <-. split; [done|]. split; [done|]. exists []. by rewrite app_nil_r.
  - act_step H. apply alift_val in H0 as [_ ->]. destruct a as [p x]. act_step H. injection H0 as _ <-. act_step H. injection H as <- <-.
    assert (He : set_slot_at (eval (context v)) (base + i) x = es_push x (eval (context v))).
    { unfold set_slot_at, es_push. rewrite <- Hl, Nat.ltb_irrefl, Nat.sub_diag. done. }
    apply IH in H0 as (H1 & H2 & xs & H3 & H4).
    + cbn [context set_context fstack set_eval eval] in *. rewrite He in H4. split; [simpl; lia|]. split; [done|].
      exists (x :: xs). split; [simpl; lia|]. rewrite H4. cbn [es_push stack]. by rewrite <- app_assoc.
    + cbn [context set_context eval set_eval]. rewrite He. cbn [es_push stack]. rewrite length_app, Hl. simpl. lia.
Qed.

Lemma allocate_frame_homes_val m v h v' : allocate_frame_homes alloc_fn m v = (Val h, v') -> frs v' = frs v /\ ev v' = ev v.
Proof.
  unfold allocate_frame_homes. destruct (method_homes m); [|by intros [= _ <-]]. intros H. act_step H.
  unfold aissue_home_serial in H0. destruct (issue_home_serial _) as [[s fs]| |] eqn:Hi; [|done..]. injection H0 as <- <-.
  unfold issue_home_serial in Hi. apply obind_val in Hi as (sn & _ & [= <- <-]).
  destruct (homes_allocate _ _ _ _) as [[h' g]| |]; [|done..]. by injection H as <- <-.
Qed.

Lemma canonicalize_val m base v v' : canonicalize_this is_value_type m base v = (Val tt, v') ->
  frs v' = frs v /\ (ev v' = ev v \/ exists h q, instance (signature m) = true /\ ev v !! base = Some (SV.ObjectRef (Some h)) /\
    origin q = Heap (Some h) /\ ev v' = <[base := SV.ManagedPtr q]> (ev v)).
Proof.
  unfold canonicalize_this. destruct (instance (signature m)); simpl; [|by intros [= <-]; auto]. intros H. act_step H.
  unfold slot_value, get_slot, expect in H0. destruct (ev v !! base) as [x|] eqn:Hx; [|done]. injection H0 as <- <-.
  destruct x as [| | | |obj| | | | |]; try (injection H as <-; by auto). act_step H. apply alift_val in H0 as [_ ->].
  destruct a; simpl in H; [|injection H as <-; by auto]. act_step H. injection H0 as <- <-. destruct obj as [h|]; [|done].
  destruct (heap (memory v) !! h) as [o|]; [|done].
  assert (Hq : forall v', (let^ q := alift (E:=TypeResolutionError) (ManagedPtr.new (nonnull (ho_base o)) (parent m) (Some (Some h)) false (Some 0)) in
    aset_slot_at base (SV.ManagedPtr q)) v = (Val tt, v') -> exists q, origin q = Heap (Some h) /\
    v' = set_context v (set_eval (context v) (set_slot_at (eval (context v)) base (SV.ManagedPtr q)))).
  { intros v1 Hv. act_step Hv. apply alift_val in H0 as [Hn ->]. unfold ManagedPtr.new in Hn. apply make_ptr_origin in Hn.
    injection Hv as <-. eauto. }
  destruct (ho_storage o); try done; apply Hq in H as (q & Hq1 & ->); (split; [done|]); right; exists h, q; (split; [done|]);
    (split; [done|]); (split; [done|]); cbn [context set_context eval set_eval]; unfold set_slot_at;
    (destruct (Nat.ltb_spec base (length (ev v))); [done|]); apply lookup_lt_Some in Hx; lia.
Qed.

Lemma consume_val {E} n v v' : consume_arguments (E:=E) n v = (Val tt, v') ->
  frs v' = consumed n (frs v) /\ ev v' = ev v /\ (forall fs f, frs v = fs ++ [f] -> (n <= stack_height f)%nat).
Proof.
  unfold consume_arguments, consumed. destruct (last (frs v)) as [f|] eqn:Hl; intros H.
  - destruct (Nat.leb_spec n (stack_height f)); [|done]. injection H as <-. split; [|split; [done|]].
    + cbn [context set_context fstack set_fstack]. apply last_snoc_inv in Hl.
      by apply (update_current_snoc _ (removelast (frs v)) f (fun f => set_height f (stack_height f - n))).
    + intros fs f' Hf. rewrite Hf, last_snoc in Hl. injection Hl as ->. done.
  - injection H as <-. apply last_None in Hl. rewrite Hl. split; [done|]. split; [done|]. by intros [] ?.
Qed.

Lemma install_val h v v' fs f : install_frame_homes r th rt threshold h v = (Val tt, v') -> frs v = fs ++ [f] ->
  frs v' = fs ++ [set_frame_homes f h] /\ ev v' = ev v.
Proof.
  unfold install_frame_homes. intros H Hf. act_step H. unfold frame, current_frame in H0. rewrite Hf, last_snoc in H0.
  injection H0 as _ <-. act_step H. injection H0 as _ <-.
  set (v1 := set_context v _) in H. assert (Hc : context v' = context v1).
  { destruct (homes_layout h) as [l|]; [|by injection H as <-]. pose proof (aiter_keeps (install_argument r th rt threshold) (homed_arguments l)
      (install_argument_keeps r th rt threshold) v1) as Hk. by rewrite H in Hk. }
  rewrite Hc. unfold v1. cbn [context set_context fstack set_fstack eval]. split; [|done].
  by apply (update_current_snoc _ fs f (fun f => set_frame_homes f h)).
Qed.

(** A call takes the arguments off the operands of the caller and puts the locals above
    them. *)
Lemma call_frame_val m g v v' : call m g v = (Val tt, v') ->
  exists below args args' ls pinned h,
    ev v = below ++ args /\ length args = argument_count m /\
    (forall fs f, frs v = fs ++ [f] -> (argument_count m <= stack_height f)%nat) /\
    ev v' = below ++ args' ++ ls /\ passed args args' /\ length ls = length (locals m) /\
    frs v' = consumed (argument_count m) (frs v) ++ [callee_frame (length below) (argument_count m) m g pinned h].
Proof.
  unfold call_frame. intros H. apply abind_val in H as (top & v0 & [= <- <-] & H).
  unfold top_of_stack in H. destruct (Nat.ltb_spec (length (ev v)) (argument_count m)) as [|Hle]; [done|].
  set (n := argument_count m) in *. set (base := (length (ev v) - n)%nat) in *.
  apply abind_val in H as (pinned & v1 & H1 & H). apply init_locals_val in H1 as (Hp & Hf1 & ls & Hls & He1); [|lia].
  apply abind_val in H as (hs & v2 & H2 & H). apply allocate_frame_homes_val in H2 as [Hf2 He2].
  apply abind_val in H as ([] & v3 & H3 & H). apply canonicalize_val in H3 as [Hf3 He3].
  apply abind_val in H as ([] & v4 & H4 & H). apply consume_val in H4 as (Hf4 & He4 & Hh). rewrite Hf3, Hf2, Hf1 in *.
  apply abind_val in H as ([] & v5 & [= <-] & H). eapply install_val in H as [Hf5 He5];
    [|cbn [context set_context fstack set_fstack]; rewrite push_frame_frames, Hf4; reflexivity].
  cbn [context set_context eval set_fstack] in He5.
  set (below := take base (ev v)). set (args := drop base (ev v)).
  assert (Hb : length below = base) by (unfold below; rewrite length_take; lia).
  assert (Ha : length args = n) by (unfold args; rewrite length_drop; lia).
  assert (Hev : ev v = below ++ args) by (unfold below, args; by rewrite take_drop).
  assert (Hst : exists args', ev v4 = below ++ args' ++ ls /\ passed args args').
  { rewrite He4. rewrite He2, He1, Hev, <- app_assoc in He3. destruct He3 as [-> | (h & q & Hi & Hx & Hq & ->)]; [by exists args; split; [|left]|].
    rewrite <- Hb, lookup_app_r, Nat.sub_diag in Hx by lia. rewrite <- Hb.
    destruct args as [|x rest] eqn:Hargs.
    { simpl in Ha. unfold n, argument_count in Ha. rewrite Hi in Ha. done. }
    injection Hx as ->. exists (SV.ManagedPtr q :: rest). split; [by rewrite insert_app_r_alt, Nat.sub_diag by lia|].
    right. by exists h, q, rest. }
  destruct Hst as (args' & Hst & Hpa). exists below, args, args', ls, pinned, hs.
  split; [done|]. split; [done|]. split; [done|]. split; [by rewrite He5|]. split; [done|]. split; [done|].
  rewrite Hf5. unfold callee_frame. rewrite Hb, <- Hp.
  replace (base + n)%nat with (length (ev v)) by lia. done.
Qed.
(** Frames that tile the stack below the arguments tile it after the call. *)
Lemma call_frame_tiled base m g v v' : call m g v = (Val tt, v') ->
  tiled base (consumed (argument_count m) (frs v)) (length (ev v) - argument_count m) -> stack_tiled base (context v').
Proof.
  intros (below & args & args' & ls & pinned & h & He & Ha & _ & He' & Hp & Hl & Hf)%call_frame_val Ht.
  apply passed_length in Hp. split; [|rewrite Hf; by destruct (consumed _ _)]. rewrite Hf, He', !length_app.
  apply tiled_callee; [|done | lia]. rewrite He, length_app, Ha, Nat.add_sub in Ht. done.
Qed.

Lemma call_from_tiled base m g v v' : call m g v = (Val tt, v') -> stack_tiled base (context v) -> stack_tiled base (context v').
Proof.
  intros H [Ht Hn]. apply (call_frame_tiled base m g v v' H).
  apply call_frame_val in H as (_ & _ & _ & _ & _ & _ & _ & _ & Hh & _).
  destruct (frs v) as [|f fs _] eqn:Hf using rev_ind; [done|]. rewrite consumed_snoc. apply tiled_height_sub; [by apply (Hh fs) | done].
Qed.

(** Frames replaced by the arguments of a callee. *)
Lemma call_after_push base m g xs v v1 v' : push_all (E:=Empty_set) xs v = (Val tt, v1) -> call m g v1 = (Val tt, v') ->
  argument_count m = length xs -> tiled base (frs v) (length (ev v)) -> stack_tiled base (context v').
Proof.
  intros [He Hf]%push_all_val Hc Hn Ht. apply (call_frame_tiled base m g v1 v' Hc).
  by rewrite Hf, He, Hn, consumed_raised, length_app, Nat.add_sub.
Qed.

Variable frame_limit : option nat.
Abbreviation managed := (push_managed r th rt threshold alloc_fn make_concrete find_concrete_type is_value_type type_name new_object frame_limit).
Abbreviation tail_call := (tail_to r th rt threshold alloc_fn make_concrete find_concrete_type is_value_type type_name new_object frame_limit).

Lemma catch_val {E F A} (x : act E A) v a v' : catch (F:=F) x v = (Val (inr a), v') -> x v = (Val a, v').
Proof. unfold catch. destruct (x v) as [[?|[]|] ?]; intros [= ]; subst; done. Qed.

Lemma vm_try_pushed {A} (x : act TypeResolutionError A) k v v' : vm_try x k v = (Val FramePushed, v') ->
  exists a v1, x v = (Val a, v1) /\ k a v1 = (Val FramePushed, v').
Proof. unfold vm_try. intros ([e|a] & v1 & H1 & H)%abind_val; [done|]. apply catch_val in H1. eauto. Qed.

Lemma managed_pushed m g v v' : managed m g v = (Val FramePushed, v') ->
  managed_frame_abort frame_limit v = None /\ call m g v = (Val tt, v').
Proof.
  unfold push_managed. intros (a & v0 & [= <- <-] & H)%abind_val. unfold id in H.
  destruct (managed_frame_abort frame_limit v); [done|]. apply vm_try_pushed in H as ([] & v1 & H1 & [= <-]). done.
Qed.

(** What is left when a frame has gone: the caller's operands reach the end of the stack. *)
Lemma replaced_tiled {E} base v fs f v1 : tiled base (fs ++ [f]) (length (ev v)) -> frs v1 = fs -> ev v1 = ev v ->
  forall v2, aclear_from (E:=E) (bp_arguments (frame_base f)) v1 = (Val tt, v2) ->
  ev v2 = take (bp_arguments (frame_base f)) (ev v) /\ frs v2 = fs /\ tiled base (frs v2) (length (ev v2)).
Proof.
  intros Ht Hf He v2 [= <-]. rewrite tiled_snoc in Ht. destruct Ht as (Ht & H1 & H2 & H3).
  cbn [context set_context clear_evaluation_stack_from eval set_eval truncate stack fstack]. rewrite He, Hf.
  split; [done|]. split; [done|]. rewrite length_take. replace (_ `min` _)%nat with (bp_arguments (frame_base f)) by lia. done.
Qed.

Lemma frame_val {E} v f v' : frame (E:=E) v = (Val f, v') -> v' = v /\ exists fs, frs v = fs ++ [f].
Proof.
  unfold frame, current_frame, expect. destruct (last (frs v)) as [g|] eqn:Hl; intros [= -> <-]. split; [done|].
  apply last_snoc_inv in Hl. eauto.
Qed.

Lemma copy_slots_val {E} first n v xs v' : Calls.copy_slots (E:=E) first n v = (Val xs, v') ->
  v' = v /\ xs = take n (drop first (ev v)) /\ length xs = n.
Proof.
  unfold Calls.copy_slots. destruct (Nat.leb_spec (first + n) (length (ev v))); intros [= <- <-].
  split; [done|]. split; [done|]. rewrite length_take, length_drop. lia.
Qed.

Lemma tail_call_tiled base m g v v' : tail_call m g v = (Val FramePushed, v') ->
  stack_tiled base (context v) -> stack_tiled base (context v').
Proof.
  unfold tail_to. intros H Ht. apply abind_val in H as (f & v0 & [-> (fs & Hf)]%frame_val & H).
  destruct (should_honor_tail_call f _); cbn [negb] in H; [|apply managed_pushed in H as [_ H]; by apply (call_from_tiled base) in H].
  apply abind_val in H as (xs & v0 & (-> & _ & Hxs)%copy_slots_val & H).
  apply abind_val in H as ([] & v1 & H1 & H). apply (pop_and_recycle_val _ _ fs f) in H1 as [Hf1 He1]; [|done].
  apply abind_val in H as ([] & v2 & H2 & H). destruct Ht as [Ht _]. rewrite Hf in Ht.
  apply (replaced_tiled base v fs f v1 Ht Hf1 He1) in H2 as (He2 & Hf2 & Ht2).
  apply abind_val in H as ([] & v3 & H3 & H). apply managed_pushed in H as [_ H].
  by apply (call_after_push base m g xs v2 v3 v' H3 H).
Qed.

Variable method_info : Method -> Generics.GenericLookup -> outcome TypeResolutionError MethodInfo.
Variable signatures_equal : MethodSignature MethodType -> Generics.GenericLookup -> MethodSignature MethodType -> Generics.GenericLookup -> bool.
Abbreviation jump := (dispatch_method_jmp r th rt threshold alloc_fn make_concrete find_concrete_type is_value_type type_name new_object frame_limit method_info signatures_equal).

(** The description of a method that is built for a call has its signature. *)
Hypothesis method_info_signature : forall m g i, method_info m g = Val i -> signature i = m_signature m.

Lemma get_arguments_val {E} n : forall i v xs v', get_arguments r th (E:=E) i n v = (Val xs, v') -> length xs = n /\ context v' = context v.
Proof.
  induction n as [|n IH]; intros i v xs v' H; cbn [get_arguments] in H; [by injection H as <- <-|].
  apply abind_val in H as (x & v1 & H1 & H). apply abind_val in H as (ys & v2 & [H2 H3]%IH & [= <- <-]). split; [simpl; lia|].
  rewrite H3. assert (Hk : keeps_context (get_argument r th (E:=E) i)) by (unfold get_argument, load_home, frame; keeps_steps).
  specialize (Hk v). by rewrite H1 in Hk.
Qed.

Lemma jump_tiled base m g v v' : jump m g v = (Val FramePushed, v') -> stack_tiled base (context v) -> stack_tiled base (context v').
Proof.
  unfold dispatch_method_jmp. intros H [Ht Hn]. apply abind_val in H as (f & v0 & [-> (fs & Hf)]%frame_val & H).
  destruct (stack_height f =? 0)%nat; [|done]. cbn [negb] in H. destruct (jmp_region f); [done|].
  destruct (signatures_equal _ _ _ _); [|done]. cbn [negb] in H.
  apply abind_val in H as (xs & v1 & [Hxs Hc1]%get_arguments_val & H). rewrite <- Hc1 in Ht, Hf, Hn.
  apply abind_val in H as ([] & v2 & [= <-] & H).
  set (f2 := set_continuation f (frame_continuation f) None). set (v2 := set_context v1 _) in H.
  assert (Hf2 : frs v2 = fs ++ [f2]) by (unfold v2; cbn [context set_context fstack set_fstack];
    by apply (update_current_snoc _ fs f (fun f => set_continuation f (frame_continuation f) None))).
  apply abind_val in H as ([] & v3 & H3 & H). apply (pop_and_recycle_val _ _ fs f2 H3) in Hf2 as [Hf3 He3].
  apply abind_val in H as ([] & v4 & H4 & H). rewrite Hf in Ht. apply (replaced_tiled base v1 fs f v3 Ht Hf3 He3) in H4 as (He4 & Hf4 & Ht4).
  apply abind_val in H as ([] & v5 & H5 & H). apply abind_val in H as ([e|i] & v6 & H6 & H); [done|].
  apply catch_val, alift_val in H6 as [Hi ->].
  apply abind_val in H as (w & v7 & [= <- <-] & H). unfold id in H. destruct (managed_frame_abort frame_limit v5); [done|].
  apply vm_try_pushed in H as ([] & v8 & H8 & H). apply abind_val in H as ([] & v9 & [= <-] & [= <-]).
  assert (Hs : argument_count i = length xs).
  { rewrite Hxs. destruct (method_info m g) as [i'| |] eqn:Hm; try done. injection Hi as ->. unfold argument_count.
    by rewrite (method_info_signature _ _ _ Hm). }
  apply (call_after_push base i g xs v4 v5 v8 H5 H8 Hs) in Ht4. by apply update_current_tiled.
Qed.

(** *** Constructors *)

Variable reserved : bool.
Variable layout_of : nat -> LayoutManager.
Variable alloc_obj_ref : Object -> act TypeResolutionError Z.
Abbreviation construct := (constructor_frame r th rt threshold alloc_fn reserved make_concrete find_concrete_type is_value_type type_name new_object layout_of alloc_obj_ref).

(** Allocating an object leaves the frames and the operands. *)
Hypothesis alloc_obj_ref_keeps : forall o v, frs (snd (alloc_obj_ref o v)) = frs v /\ ev (snd (alloc_obj_ref o v)) = ev v.

Lemma apush_tiled {E} base x v v' : apush (E:=E) x v = (Val tt, v') -> stack_tiled base (context v) -> stack_tiled base (context v').
Proof. intros [= <-]. apply push_tiled. Qed.

Lemma push_all_tiled {E} base xs : forall v v', push_all (E:=E) xs v = (Val tt, v') -> stack_tiled base (context v) -> stack_tiled base (context v').
Proof.
  induction xs as [|x xs IH]; intros v v' H Ht; cbn [push_all] in H; [by injection H as <-|].
  apply abind_val in H as ([] & v1 & H1 & H). apply (apush_tiled base) in H1; [|done]. by apply (IH v1).
Qed.

Lemma apop_tiled base x v v' : apop v = (Val x, v') -> stack_tiled base (context v) -> stack_tiled base (context v').
Proof.
  unfold apop. destruct (pop_safe (context v)) as [[y|e|] c] eqn:Hp; intros [= -> <-]. by apply (pop_tiled base _ _ _ Hp).
Qed.

Lemma pop_n_tiled {E} base n : forall v xs v', pop_n (E:=E) n v = (Val xs, v') -> stack_tiled base (context v) -> stack_tiled base (context v').
Proof.
  induction n as [|n IH]; intros v xs v' H Ht; cbn [pop_n] in H; [by injection H as <- <-|].
  apply abind_val in H as (x & v1 & H1 & H). apply abind_val in H as (ys & v2 & H2 & [= <- <-]). apply (IH _ _ _ H2).
  unfold apop_some in H1. destruct (apop v) as [[y|e|] w] eqn:Hp; try done. injection H1 as <- <-. by apply (apop_tiled base _ _ _ Hp).
Qed.

Lemma issue_home_serial_tiled {E} base v n v' : aissue_home_serial (E:=E) v = (Val n, v') ->
  stack_tiled base (context v) -> stack_tiled base (context v').
Proof.
  unfold aissue_home_serial. destruct (issue_home_serial _) as [[s fs]| |] eqn:Hi; [|done..]. intros [= <- <-].
  unfold issue_home_serial in Hi. apply obind_val in Hi as (sn & _ & [= <- <-]). done.
Qed.

Lemma prepare_tiled base o v x v' : prepare_constructor_receiver alloc_fn reserved layout_of o v = (Val x, v') ->
  stack_tiled base (context v) -> stack_tiled base (context v').
Proof.
  unfold prepare_constructor_receiver. intros H Ht.
  apply abind_val in H as (n & v1 & H1 & H). apply (issue_home_serial_tiled base) in H1; [|done].
  apply abind_val in H as (f & v2 & [-> _]%frame_val & H).
  apply abind_val in H as (a & v3 & H3 & H).
  assert (Ht3 : stack_tiled base (context v3)).
  { destruct (allocate_temporary _ _ _ _ _ _ _) as [[[[a' h] fa] ga]| |]; [|done..]. injection H3 as <- <-.
    by apply (update_current_tiled base (context v1) (fun f => set_allocations (set_frame_homes f h) fa)). }
  apply abind_val in H as (u & v4 & H4 & H).
  assert (Hc4 : context v4 = context v3) by (pose proof (keeps_on_memory (E:=TypeResolutionError) (poke (Raw a) (data o)) v3) as Hk; by rewrite H4 in Hk).
  apply abind_val in H as (slot & v5 & [= _ <-] & H). apply abind_val in H as (q & v6 & [_ ->]%alift_val & H).
  apply abind_val in H as ([] & v7 & H7 & [= _ <-]). apply (apush_tiled base) in H7; [done | by rewrite Hc4].
Qed.

Lemma construct_tiled base o m g v v' : construct o m g v = (Val tt, v') -> stack_tiled base (context v) -> stack_tiled base (context v').
Proof.
  unfold constructor_frame. intros H Ht. apply abind_val in H as (value & v1 & [_ ->]%alift_val & H).
  apply abind_val in H as (args & v2 & H2 & H). apply abind_val in H2 as (xs & v3 & H3 & [= <- <-]). apply (pop_n_tiled base) in H3; [|done].
  apply abind_val in H as (done_ & v4 & H4 & H).
  assert (Ht4 : stack_tiled base (context v4)).
  { destruct value.
    - apply abind_val in H4 as ([res q] & v5 & H5 & H4). apply (prepare_tiled base) in H5; [|done].
      apply abind_val in H4 as ([] & v6 & H6 & [= _ <-]). by apply (apush_tiled base _ _ _ H6).
    - apply abind_val in H4 as (h & v5 & H5 & H4). pose proof (alloc_obj_ref_keeps o v3) as Hk. rewrite H5 in Hk. cbn [snd] in Hk.
      unfold stack_tiled in H3. rewrite <- (proj1 Hk), <- (proj2 Hk) in H3.
      apply abind_val in H4 as ([] & v6 & H6 & H4). apply abind_val in H4 as ([] & v7 & H7 & [= _ <-]).
      apply (apush_tiled base _ _ _ H7), (apush_tiled base _ _ _ H6), H3. }
  apply abind_val in H as ([] & v5 & H5 & H). apply (push_all_tiled base) in H5; [|done].
  apply abind_val in H as ([] & v6 & H6 & H). apply (call_from_tiled base) in H6; [|done].
  destruct done_ as [res|]; [|by injection H as <-]. unfold defer_constructor_receiver in H.
  apply abind_val in H as (f & v7 & [-> _]%frame_val & H). destruct (constructor_result f); [done|]. injection H as <-.
  by apply (update_current_tiled base (context v6)).
Qed.

(** *** Returns *)

Variable k : calls.

(** The value type that a constructor has built takes the place of a slot. *)
Hypothesis complete_constructor_length : forall res c e, complete_constructor k res c = Val e -> length (stack e) = length (stack (eval c)).

(** [complete_constructor_receiver] does. *)
Lemma complete_constructor_receiver_length res v v' : complete_constructor_receiver res v = (Val tt, v') ->
  frs v' = frs v /\ length (ev v') = length (ev v).
Proof.
  unfold complete_constructor_receiver. intros H. apply abind_val in H as (sz & v1 & [_ ->]%alift_val & H).
  apply abind_val in H as (a & v2 & H2%keeps_result & H); [|unfold home_window; keeps_steps].
  apply abind_val in H as (bs & v3 & H3%keeps_result & H); [|keeps_steps]. unfold set_slot_value, set_slot in H.
  destruct (_ <? _)%nat; [|done]. injection H as <-. cbn [context set_context fstack set_eval eval stack].
  by rewrite H3, H2, length_insert.
Qed.

Lemma invoke_return_tiled base c t c' : invoke_return k c t = Val c' -> stack_tiled base c -> stack_tiled base c'.
Proof.
  unfold invoke_return. destruct (is_void k t); [intros [= <-]; apply push_tiled|]. intros H Ht.
  apply obind_val in H as ([x c1] & Hp & H). unfold pop in Hp. destruct (pop_safe c) as [[y|e|] c2] eqn:Hq; try done. injection Hp as <- <-.
  apply (pop_tiled base) in Hq; [|done]. apply obind_val in H as (value & _ & H). destruct value; [|injection H as <-; by apply push_tiled].
  apply obind_val in H as (b & _ & [= <-]). by apply push_tiled.
Qed.

Lemma recycle_tiled base c f : stack_tiled base c -> stack_tiled base (set_fstack c (recycle_frame (fstack c) f)).
Proof. intros [Ht Hn]. unfold recycle_frame. destruct (_ <? _)%nat; by split. Qed.

Lemma finish_return_tiled base f c c' : finish_return k f c = Val (c', Continue) -> stack_tiled base c -> stack_tiled base c'.
Proof.
  unfold finish_return. intros H Ht. set (x := match constructor_result f with Some _ => _ | None => _ end) in H.
  assert (Hx : forall e, x = Val e -> length (stack e) = length (stack (eval c))).
  { intros e. unfold x. destruct (constructor_result f); [apply complete_constructor_length | by intros [= <-]]. }
  destruct x as [e|e|]; [|done..]. specialize (Hx e eq_refl).
  assert (Ht1 : stack_tiled base (set_eval c e)) by (destruct Ht as [Ht Hn]; split; cbn [set_eval eval fstack]; by rewrite ?Hx).
  apply obind_val in H as (c1 & H1 & [= <-]). apply recycle_tiled.
  apply (update_current_tiled base _ (fun g => set_continuation g None (constructor_result g))) in Ht1; [|done].
  destruct (match last _ with Some _ => _ | None => _ end) as [[t]|]; [|by injection H1 as <-]. by apply (invoke_return_tiled base _ _ _ H1).
Qed.

Lemma retire_frame_same c f : fstack (retire_frame c f) = fstack c /\ eval (retire_frame c f) = eval c.
Proof. unfold retire_frame. by destruct (is_cctor (info f)), (is_finalizer f). Qed.

(** The context after the return of [f], before its value is pushed. *)
Definition returned_ctx (c : ctx) (f : StackFrame) : ctx :=
  clear_evaluation_stack_from (retire_frame (set_fstack c (set_frames (fstack c) (removelast (frames (fstack c))))) f)
    (bp_arguments (frame_base f)).

Lemma return_frame_val c c' : return_frame k c = Val (c', Continue) ->
  exists f x, last (frames (fstack c)) = Some f /\
    finish_return k f (match x with Some v => push v (returned_ctx c f) | None => returned_ctx c f end) = Val (c', Continue).
Proof.
  unfold return_frame. intros H. apply obind_val in H as (f & _ & H).
  assert (H' : (let* (f, s) := expect (pop_frame (fstack c)) in let c := retire_frame (set_fstack c s) f in
    let* v := return_value c f in let c := clear_evaluation_stack_from c (bp_arguments (frame_base f)) in
    finish_return k f (match v with Some v => push v c | None => c end)) = Val (c', Continue)) by by destruct (return_kind (info f)).
  apply obind_val in H' as ([f1 s] & Hp & H'). unfold pop_frame in Hp. destruct (last (frames (fstack c))) as [f2|]; [|done].
  injection Hp as <- <-. apply obind_val in H' as (x & _ & H'). by exists f2, x.
Qed.

Lemma returned_ctx_frames c f : frames (fstack (returned_ctx c f)) = removelast (frames (fstack c)).
Proof. unfold returned_ctx. cbn [clear_evaluation_stack_from set_eval fstack]. by rewrite (proj1 (retire_frame_same _ _)). Qed.

Lemma returned_ctx_stack c f : stack (eval (returned_ctx c f)) = take (bp_arguments (frame_base f)) (stack (eval c)).
Proof.
  unfold returned_ctx. cbn [clear_evaluation_stack_from set_eval eval truncate stack]. by rewrite (proj2 (retire_frame_same _ _)).
Qed.

Lemma return_tiled base c c' : return_frame k c = Val (c', Continue) -> (2 <= length (frames (fstack c)))%nat ->
  stack_tiled base c -> stack_tiled base c'.
Proof.
  intros (f & x & Hlast & H)%return_frame_val Hl [Ht Hn]. apply (finish_return_tiled base _ _ _ H).
  apply last_snoc_inv in Hlast. rewrite Hlast in Ht. apply tiled_snoc in Ht as (Ht & H1 & H2 & H3).
  assert (Ht1 : stack_tiled base (returned_ctx c f)).
  { split; rewrite returned_ctx_frames, ?returned_ctx_stack.
    - rewrite length_take. replace (_ `min` _)%nat with (bp_arguments (frame_base f)) by lia. done.
    - intros Hnil. rewrite Hlast, Hnil in Hl. simpl in Hl. lia. }
  destruct x; [by apply push_tiled | done].
Qed.

(** *** Runs *)

(** What running code does to the frames and the operands, without an exception: operands
    come and go, slots are stored to, the instruction pointer moves, memory changes, and
    methods are called, tail called, jumped to, constructed with (when [newobj] holds) and
    returned from to a caller. *)
Inductive step (newobj : bool) (v v' : vm) : Prop :=
  | Pushed x : apush (E:=Empty_set) x v = (Val tt, v') -> step newobj v v'
  | Popped x : apop v = (Val x, v') -> step newobj v v'
  | StoredSlot i x : set_slot_value (E:=Empty_set) i x v = (Val tt, v') -> step newobj v v'
  | StoredMemory : context v' = context v -> step newobj v v'
  | Branched c t : branch (context v) t = Val c -> v' = set_context v c -> step newobj v v'
  | Called m g : managed m g v = (Val FramePushed, v') -> step newobj v v'
  | TailCalled m g : tail_call m g v = (Val FramePushed, v') -> step newobj v v'
  | Jumped m g : jump m g v = (Val FramePushed, v') -> step newobj v v'
  | Constructed o m g : newobj = true -> construct o m g v = (Val tt, v') -> step newobj v v'
  | Returned c : return_frame k (context v) = Val (c, Continue) -> (2 <= length (frs v))%nat -> v' = set_context v c -> step newobj v v'.

Lemma set_slot_value_val {E} i x v v' : set_slot_value (E:=E) i x v = (Val tt, v') -> frs v' = frs v /\ length (ev v') = length (ev v).
Proof.
  unfold set_slot_value, set_slot. destruct (_ <? _)%nat; [|done]. intros [= <-].
  cbn [context set_context fstack set_eval eval stack]. by rewrite length_insert.
Qed.

Lemma branch_val c t c' : branch c t = Val c' -> c' = set_fstack c (update_current (fstack c) (fun f => set_ip f t)).
Proof. unfold branch. intros (f & _ & [= <-])%obind_val. done. Qed.

Lemma step_tiled newobj base v v' : step newobj v v' -> stack_tiled base (context v) -> stack_tiled base (context v').
Proof.
  intros [x H | x H | i x H | H | c t H -> | m g H | m g H | m g H | o m g _ H | c H Hl ->] Ht.
  - by apply (apush_tiled base _ _ _ H).
  - by apply (apop_tiled base _ _ _ H).
  - apply set_slot_value_val in H as [H1 H2]. unfold stack_tiled. by rewrite H1, H2.
  - by rewrite H.
  - rewrite (branch_val _ _ _ H). by apply update_current_tiled.
  - apply managed_pushed in H as [_ H]. by apply (call_from_tiled base _ _ _ _ H).
  - by apply (tail_call_tiled base _ _ _ _ H).
  - by apply (jump_tiled base _ _ _ _ H).
  - by apply (construct_tiled base _ _ _ _ _ H).
  - by apply (return_tiled base _ _ H).
Qed.

Abbreviation enter := (entrypoint_frame r th rt threshold alloc_fn make_concrete find_concrete_type is_value_type type_name new_object).

Lemma entrypoint_tiled m g args v v' : enter m g args v = (Val tt, v') -> frs v = [] -> length args = argument_count m ->
  stack_tiled (length (ev v)) (context v').
Proof.
  unfold entrypoint_frame. intros H Hn Ha. apply abind_val in H as (b & v0 & [= <- <-] & H).
  apply abind_val in H as ([] & v1 & [He1 Hf1]%push_all_val & H). apply abind_val in H as (lb & v2 & [= <- <-] & H).
  unfold top_of_stack in H. rewrite Hn in Hf1.
  apply abind_val in H as (pinned & v3 & H3 & H). apply init_locals_val in H3 as (Hp & Hf3 & ls & Hls & He3); [|lia].
  apply abind_val in H as (hs & v4 & H4 & H). apply allocate_frame_homes_val in H4 as [Hf4 He4].
  apply abind_val in H as ([] & v5 & [= <-] & H). eapply install_val in H as [Hf5 He5];
    [|cbn [context set_context fstack set_fstack]; rewrite push_frame_frames, Hf4, Hf3, Hf1; reflexivity].
  cbn [context set_context eval set_fstack] in He5. rewrite He4, He3, He1 in He5.
  split; [|rewrite Hf5; done]. rewrite Hf5, He5, He1, !length_app, Hp. cbn. lia.
Qed.

(** C19. Frames tile the evaluation stack. From the frame of the entry point on, through
    pushes, pops, stores, branches, calls, tail calls, jumps, constructor calls and returns
    to a caller, every frame's arguments start where its caller's operands end, its locals
    follow its arguments, its operands follow its locals, and the operands of the last
    frame end the stack. *)
Theorem frames_tile m g args v0 v v' :
  enter m g args v0 = (Val tt, v) -> frs v0 = [] -> length args = argument_count m -> rtc (step true) v v' ->
  stack_tiled (length (ev v0)) (context v').
Proof.
  intros He Hn Ha Hr. apply (entrypoint_tiled _ _ _ _ _ He Hn) in Ha. clear He.
  induction Hr as [v | v v1 v2 H1 _ IH]; [done|]. apply IH. by apply (step_tiled true _ v).
Qed.

(** *** Depth *)

Lemma consumed_length n fs : length (consumed n fs) = length fs.
Proof. destruct fs as [|f fs _] using rev_ind; [done|]. by rewrite consumed_snoc, !length_app. Qed.

Lemma raised_length n fs : length (raised n fs) = length fs.
Proof. destruct fs as [|f fs _] using rev_ind; [done|]. by rewrite raised_snoc, !length_app. Qed.

Lemma call_frame_depth m g v v' : call m g v = (Val tt, v') -> depth (context v') = S (depth (context v)).
Proof.
  intros (below & args & args' & ls & pinned & h & _ & _ & _ & _ & _ & _ & Hf)%call_frame_val.
  by rewrite Hf, length_app, consumed_length, Nat.add_1_r.
Qed.

Variable limit : nat.
Hypothesis frame_limit_is : frame_limit = Some limit.

Lemma abort_depth v : managed_frame_abort frame_limit v = None -> (S (depth (context v)) <= limit)%nat.
Proof. unfold managed_frame_abort. rewrite frame_limit_is. destruct (Nat.leb_spec (depth (context v) + 1) limit); [lia | done]. Qed.

Lemma managed_depth m g v v' : managed m g v = (Val FramePushed, v') -> (depth (context v') <= limit)%nat.
Proof. intros [Ha%abort_depth Hc%call_frame_depth]%managed_pushed. lia. Qed.

Lemma tail_call_depth m g v v' : tail_call m g v = (Val FramePushed, v') -> (depth (context v') <= limit)%nat.
Proof.
  unfold tail_to. intros H. apply abind_val in H as (f & v0 & _ & H).
  destruct (should_honor_tail_call f _); cbn [negb] in H; [|by apply managed_depth in H].
  do 4 apply abind_val in H as (? & ? & _ & H). by apply managed_depth in H.
Qed.

Lemma jump_depth m g v v' : jump m g v = (Val FramePushed, v') -> (depth (context v') <= limit)%nat.
Proof.
  unfold dispatch_method_jmp. intros H. apply abind_val in H as (f & v0 & _ & H).
  destruct (stack_height f =? 0)%nat; [|done]. cbn [negb] in H. destruct (jmp_region f); [done|].
  destruct (signatures_equal _ _ _ _); [|done]. cbn [negb] in H.
  do 5 apply abind_val in H as (? & ? & _ & H). apply abind_val in H as ([e|i] & v6 & _ & H); [done|].
  apply abind_val in H as (w & v7 & [= <- <-] & H). unfold id in H.
  destruct (managed_frame_abort frame_limit v6) eqn:Ha; [done|]. apply abort_depth in Ha.
  apply vm_try_pushed in H as ([] & v8 & H8%call_frame_depth & H). apply abind_val in H as ([] & v9 & [= <-] & [= <-]).
  cbn [context set_context fstack set_fstack]. rewrite length_update_current. lia.
Qed.

Lemma finish_return_depth f c c' : finish_return k f c = Val (c', Continue) -> depth c' = depth c.
Proof.
  unfold finish_return. intros H. destruct (match constructor_result f with Some _ => _ | None => _ end) as [e|e|]; [|done..].
  apply obind_val in H as (c1 & H1 & [= <-]). cbn [fstack set_fstack]. rewrite recycle_frames.
  set (c2 := set_fstack (set_eval c e) _) in H1.
  assert (Hc2 : depth c2 = depth c) by (unfold c2; cbn [fstack set_fstack set_eval]; apply length_update_current).
  destruct (match last _ with Some _ => _ | None => _ end) as [[t]|]; [|by injection H1 as <-]. rewrite <- Hc2.
  unfold invoke_return in H1. destruct (is_void k t); [injection H1 as <-; apply push_frames|].
  apply obind_val in H1 as ([x c3] & Hp & H1). unfold pop in Hp. destruct (pop_safe c2) as [[y|e'|] c4] eqn:Hq; try done.
  injection Hp as <- <-. apply pop_frames in Hq. rewrite <- Hq. apply obind_val in H1 as ([|] & _ & H1); [|injection H1 as <-; apply push_frames].
  apply obind_val in H1 as (b & _ & [= <-]). unfold push_obj. by rewrite push_frames.
Qed.

Lemma return_depth c c' : return_frame k c = Val (c', Continue) -> (depth c' <= depth c)%nat.
Proof.
  intros (f & x & Hl & ->%finish_return_depth)%return_frame_val. apply last_snoc_inv in Hl.
  assert (Hd : (depth (returned_ctx c f) <= depth c)%nat) by (apply (f_equal length) in Hl; rewrite length_app in Hl; rewrite returned_ctx_frames; simpl in Hl; lia).
  destruct x; by rewrite ?push_frames.
Qed.

Lemma step_depth v v' : step false v v' -> (depth (context v) <= limit)%nat -> (depth (context v') <= limit)%nat.
Proof.
  intros [x H | x H | i x H | H | c t H -> | m g H | m g H | m g H | o m g [=] | c H _ ->] Ht.
  - injection H as <-. cbn [context set_context]. by rewrite push_frames.
  - unfold apop in H. destruct (pop_safe (context v)) as [y c] eqn:Hp. injection H as _ <-. apply pop_frames in Hp. cbn [context set_context]. by rewrite Hp.
  - apply set_slot_value_val in H as [-> _]. done.
  - by rewrite H.
  - rewrite (branch_val _ _ _ H). cbn [context set_context fstack set_fstack]. by rewrite length_update_current.
  - by apply managed_depth in H.
  - by apply tail_call_depth in H.
  - by apply jump_depth in H.
  - apply return_depth in H. cbn [context set_context]. lia.
Qed.

Lemma pop_n_depth {E} n : forall v xs v', pop_n (E:=E) n v = (Val xs, v') -> depth (context v') = depth (context v).
Proof.
  induction n as [|n IH]; intros v xs v' H; cbn [pop_n] in H; [by injection H as <- <-|].
  apply abind_val in H as (x & v1 & H1 & H). apply abind_val in H as (ys & v2 & H2%IH & [= <- <-]). rewrite H2.
  unfold apop_some, apop in H1. destruct (pop_safe (context v)) as [[y|e|] c] eqn:Hp; try done. injection H1 as <- <-. by apply pop_frames in Hp.
Qed.

Lemma prepare_depth o v x v' : prepare_constructor_receiver alloc_fn reserved layout_of o v = (Val x, v') -> depth (context v') = depth (context v).
Proof.
  unfold prepare_constructor_receiver. intros H. apply abind_val in H as (n & v1 & H1 & H).
  assert (Hd1 : depth (context v1) = depth (context v)).
  { unfold aissue_home_serial in H1. destruct (issue_home_serial _) as [[s fs]| |] eqn:Hi; [|done..]. injection H1 as <- <-.
    unfold issue_home_serial in Hi. apply obind_val in Hi as (sn & _ & [= <- <-]). done. }
  apply abind_val in H as (f & v2 & [-> _]%frame_val & H). apply abind_val in H as (a & v3 & H3 & H).
  assert (Hd3 : depth (context v3) = depth (context v1)).
  { destruct (allocate_temporary _ _ _ _ _ _ _) as [[[[a' h] fa] ga]| |]; [|done..]. injection H3 as <- <-. apply length_update_current. }
  apply abind_val in H as (u & v4 & Hc4%keeps_result & H); [|keeps_steps].
  apply abind_val in H as (slot & v5 & [= _ <-] & H). apply abind_val in H as (q & v6 & [_ ->]%alift_val & H).
  apply abind_val in H as ([] & v7 & [= <-] & [= _ <-]). cbn [context set_context]. rewrite push_frames, Hc4. lia.
Qed.

(** A constructor call grows the frames by one, whatever the limit. *)
Lemma construct_depth o m g v v' : construct o m g v = (Val tt, v') -> depth (context v') = S (depth (context v)).
Proof.
  unfold constructor_frame. intros H. apply abind_val in H as (value & v1 & [_ ->]%alift_val & H).
  apply abind_val in H as (args & v2 & H2 & H). apply abind_val in H2 as (xs & v3 & H3%pop_n_depth & [= <- <-]).
  apply abind_val in H as (done_ & v4 & H4 & H).
  assert (Hd4 : depth (context v4) = depth (context v3)).
  { destruct value.
    - apply abind_val in H4 as ([res q] & v5 & H5%prepare_depth & H4).
      apply abind_val in H4 as ([] & v6 & [= <-] & [= _ <-]). cbn [context set_context]. by rewrite push_frames.
    - apply abind_val in H4 as (h & v5 & H5 & H4). pose proof (alloc_obj_ref_keeps o v3) as [Hk _]. rewrite H5 in Hk. cbn [snd] in Hk.
      apply abind_val in H4 as ([] & v6 & [= <-] & H4). apply abind_val in H4 as ([] & v7 & [= <-] & [= _ <-]).
      cbn [context set_context]. by rewrite !push_frames, Hk. }
  apply abind_val in H as ([] & v5 & [_ H5]%push_all_val & H). apply (f_equal length) in H5. rewrite raised_length in H5.
  apply abind_val in H as ([] & v6 & H6%call_frame_depth & H). transitivity (depth (context v6)); [|lia].
  destruct done_ as [res|]; [|by injection H as <-]. unfold defer_constructor_receiver in H.
  apply abind_val in H as (f & v7 & [-> _]%frame_val & H). destruct (constructor_result f); [done|]. injection H as <-.
  apply length_update_current.
Qed.

(** And so does the frame of a multicast delegate. *)
Abbreviation multicast := (multicast_frame r th rt threshold alloc_fn make_concrete find_concrete_type is_value_type type_name new_object method_info).

Lemma multicast_depth m g h vector args v v' : multicast m g h vector args v = (Val FramePushed, v') -> depth (context v') = S (depth (context v)).
Proof.
  unfold multicast_frame. intros H. apply vm_try_pushed in H as (i & v1 & [_ ->]%alift_val & H).
  apply abind_val in H as ([] & v2 & [= <-] & H). apply abind_val in H as ([] & v3 & [_ H3]%push_all_val & H).
  apply (f_equal length) in H3. rewrite raised_length in H3. cbn [context set_context] in H3. rewrite push_frames in H3.
  apply vm_try_pushed in H as ([] & v4 & H4%call_frame_depth & H). apply abind_val in H as ([] & v5 & [= <-] & [= <-]).
  cbn [context set_context fstack set_fstack]. rewrite length_update_current. lia.
Qed.

(** C35. The frame limit stops calls, but neither constructors nor multicast delegates.
    Calls, tail calls and jumps to a managed body never take a run past the limit, however
    long it is, and at the limit a call is refused with nothing changed; but [newobj]
    pushes the frame of its constructor there, and the invocation of a multicast delegate
    the frame that goes through its targets. *)
Theorem frame_limit_bypassed v v' :
  (depth (context v) <= limit)%nat -> rtc (step false) v v' -> depth (context v') = limit ->
  (forall u, rtc (step false) v u -> (depth (context u) <= limit)%nat) /\
  (forall m g, exists e, managed m g v' = (Val (Error e), v')) /\
  (forall o m g w, construct o m g v' = (Val tt, w) -> depth (context w) = S limit) /\
  (forall m g h vector args w, multicast m g h vector args v' = (Val FramePushed, w) -> depth (context w) = S limit).
Proof.
  intros Hv Hr Hd. split; [|split; [|split]].
  - intros u Hu. clear -Hv Hu frame_limit_is.
    induction Hu as [u | u u1 u2 H1 _ IH]; [done|]. apply IH. by apply step_depth in H1.
  - intros m g. unfold push_managed, managed_frame_abort, abind, agets, id. rewrite frame_limit_is, Hd.
    destruct (Nat.leb_spec (limit + 1) limit); [lia|]. by eexists.
  - intros o m g w Hc%construct_depth. lia.
  - intros m g h vector args w Hc%multicast_depth. lia.
Qed.

(** *** Tail calls *)

Lemma managed_val m g v v' : managed m g v = (Val FramePushed, v') ->
  exists below args args' ls pinned h, ev v = below ++ args /\ length args = argument_count m /\ ev v' = below ++ args' ++ ls /\
    passed args args' /\ length ls = length (locals m) /\
    frs v' = consumed (argument_count m) (frs v) ++ [callee_frame (length below) (argument_count m) m g pinned h].
Proof. intros [_ (b & a & a' & ls & pn & h & H1 & H2 & _ & H3 & H4 & H5 & H6)%call_frame_val]%managed_pushed. by exists b, a, a', ls, pn, h. Qed.

(** An honoured tail call puts the callee where the frame was. *)
Lemma tail_call_val base m g v v' fs f : tail_call m g v = (Val FramePushed, v') -> frs v = fs ++ [f] ->
  should_honor_tail_call f (argument_count m) = true -> stack_tiled base (context v) ->
  exists args' ls pinned h, ev v' = take (bp_arguments (frame_base f)) (ev v) ++ args' ++ ls /\
    passed (frame_operands (context v) f) args' /\ length ls = length (locals m) /\
    frs v' = fs ++ [callee_frame (bp_arguments (frame_base f)) (argument_count m) m g pinned h].
Proof.
  unfold tail_to. intros H Hf Hs [Ht _]. apply abind_val in H as (f' & v0 & [-> (fs' & Hf')]%frame_val & H).
  rewrite Hf in Hf'. apply app_inj_tail in Hf' as [-> ->]. rewrite Hs in H. cbn [negb] in H.
  apply abind_val in H as (xs & v0 & (-> & Hx & Hxs)%copy_slots_val & H).
  apply abind_val in H as ([] & v1 & H1 & H). apply (pop_and_recycle_val _ _ fs' f') in H1 as [Hf1 He1]; [|done].
  apply abind_val in H as ([] & v2 & H2 & H). rewrite Hf in Ht.
  apply (replaced_tiled base v fs' f' v1 Ht Hf1 He1) in H2 as (He2 & Hf2 & Ht2). apply tiled_snoc in Ht as (_ & Hl & Hb & Htop).
  apply abind_val in H as ([] & v3 & [He3 Hf3]%push_all_val & H).
  apply managed_val in H as (below & args & args' & ls & pinned & h & E1 & E2 & E3 & E4 & E5 & E6).
  rewrite He3 in E1. apply app_inj_2 in E1 as [<- <-]; [|lia].
  rewrite Hf3, Hxs, consumed_raised, Hf2, He2, length_take in E6. replace (_ `min` _)%nat with (bp_arguments (frame_base f')) in E6 by lia.
  exists args', ls, pinned, h. rewrite E3, He2. repeat split; [|done..].
  unfold frame_operands. apply andb_prop in Hs as [[_ Hh%Nat.eqb_eq]%andb_prop _]. by rewrite Hh, <- Hx.
Qed.

(** C20. An honoured tail call returns to the caller of the frame it replaces. The frame
    is gone, its operands are the arguments of the callee, the caller's frame and the slots
    below are untouched, the depth is what it was; and whenever the callee returns, its
    value goes on top of the operands of that caller, where the replaced frame would have
    returned it. *)
Theorem tail_call_passes_on base m g v v' fs caller f :
  tail_call m g v = (Val FramePushed, v') -> frs v = fs ++ [caller; f] ->
  should_honor_tail_call f (argument_count m) = true -> stack_tiled base (context v) -> frame_continuation caller = None ->
  exists args' ls h, frs v' = fs ++ [caller; h] /\ info h = m /\
    ev v' = take (bp_arguments (frame_base f)) (ev v) ++ args' ++ ls /\ passed (frame_operands (context v) f) args' /\
    length ls = length (locals m) /\
    forall c h' vs, frames (fstack c) = fs ++ [caller; h'] -> frame_base h' = frame_base h -> info h' = m -> constructor_result h' = None ->
      returned h' vs -> aligned c h' -> take (length vs) (ctx_view c) = vs ->
      exists c' caller', return_frame k c = Val (c', Continue) /\ frames (fstack c') = fs ++ [caller'] /\
        info caller' = info caller /\ ip caller' = ip caller /\ frame_operands c' caller' = frame_operands c caller ++ vs.
Proof.
  intros H Hf Hs Ht Hc. replace (fs ++ [caller; f]) with ((fs ++ [caller]) ++ [f]) in Hf by by rewrite <- app_assoc.
  pose proof (tail_call_val base m g v v' _ f H Hf Hs Ht) as (args' & ls & pinned & h & He & Hp & Hl & Hf').
  exists args', ls, (callee_frame (bp_arguments (frame_base f)) (argument_count m) m g pinned h).
  rewrite <- app_assoc in Hf'. split; [done|]. split; [done|]. split; [done|]. split; [done|]. split; [done|].
  intros c h' vs Hfc Hb Hi Hr Hv Ha Htop. destruct Ht as [Ht _]. rewrite Hf in Ht. apply tiled_snoc in Ht as [Ht _]. apply tiled_snoc in Ht as (_ & _ & _ & Ht).
  destruct (return_frame_passes_top k c fs caller h' vs) as (c' & g' & R1 & R2 & R3 & R4 & _ & _ & _ & R5); try done.
  - rewrite Hb. cbn. lia.
  - rewrite Hb. cbn. lia.
  - by exists c', g'.
Qed.
End calls.

(** ** Class constructors *)

Section dispatch.
Variable r : ArenaRegistry.
Variable th : nat.
Variable rt : runtime.
Variable threshold : nat.
Variable alloc_fn : RawBlocks.Layout -> Z.
Variable make_concrete : Generics.GenericLookup -> MethodType -> outcome TypeResolutionError Generics.ConcreteType.
Variable find_concrete_type : Generics.ConcreteType -> outcome TypeResolutionError TypeDescription.
Variable is_value_type : TypeDescription -> outcome TypeResolutionError bool.
Variable type_name : TypeDescription -> string.
Variable new_object : TypeDescription -> Generics.ConcreteType -> Generics.GenericLookup -> outcome TypeResolutionError Object.
Variable frame_limit : option nat.
Variable method_info : Method -> Generics.GenericLookup -> outcome TypeResolutionError MethodInfo.
Variable intrinsic : ResolvedMethodDispatchMode -> Method -> option (Generics.GenericLookup -> act Empty_set StepResult).
Variable external_call : Method -> act Empty_set StepResult.
Variable delegate_dispatch : Method -> Generics.GenericLookup -> option (act Empty_set StepResult).
Variable heap_description_of : Z -> outcome TypeResolutionError TypeDescription.
Variable object_generics_of : Z -> list Generics.ConcreteType.
Variable resolve_virtual_method : Method -> TypeDescription -> Generics.GenericLookup -> outcome TypeResolutionError Method.
Variable receiver_assignable : TypeDescription -> Generics.GenericLookup -> Method -> bool.
Variable methods_of : TypeDescription -> list Method.
Variable set_type_generics : Generics.GenericLookup -> list Generics.ConcreteType -> Generics.GenericLookup.

Abbreviation dispatch initialize := (dispatch_method r th rt threshold alloc_fn make_concrete find_concrete_type is_value_type type_name new_object
  frame_limit method_info intrinsic external_call delegate_dispatch initialize heap_description_of object_generics_of resolve_virtual_method
  receiver_assignable methods_of set_type_generics).
Abbreviation dispatch_tail initialize := (dispatch_method_tail r th rt threshold alloc_fn make_concrete find_concrete_type is_value_type type_name
  new_object frame_limit method_info intrinsic external_call delegate_dispatch initialize heap_description_of object_generics_of
  resolve_virtual_method receiver_assignable methods_of set_type_generics).

(** The frame on top runs [i]. *)
Definition runs (i : MethodInfo) (v : vm) : Prop := info <$> last (frs v) = Some i.

Lemma call_frame_runs m g v v' :
  call_frame r th rt threshold alloc_fn make_concrete find_concrete_type is_value_type type_name new_object m g v = (Val tt, v') -> runs m v'.
Proof.
  intros (below & args & args' & ls & pinned & h & _ & _ & _ & _ & _ & _ & Hf)%call_frame_val. unfold runs. by rewrite Hf, last_snoc.
Qed.

Lemma tail_to_runs m g v v' :
  tail_to r th rt threshold alloc_fn make_concrete find_concrete_type is_value_type type_name new_object frame_limit m g v = (Val FramePushed, v') ->
  runs m v'.
Proof.
  unfold tail_to. intros H. apply abind_val in H as (f & v0 & _ & H).
  destruct (should_honor_tail_call f _); cbn [negb] in H; [do 4 apply abind_val in H as (? & ? & _ & H)|];
    apply managed_pushed in H as [_ H]; by apply call_frame_runs in H.
Qed.

(** C36. A tail call runs a static method before its class is initialized. For a static
    method with a body of a class without [beforefieldinit], a call runs the class
    constructor first: when [initialize_static_storage] pushes its frame, or waits, that
    is the step of the call, and the call is made again later. A tail call to the same
    method from the same state never asks: whatever the state of the class, the frame it
    pushes is that of the method. *)
Theorem tail_call_skips_initializer initialize fuel m g i v res v1 v' :
  m_before_field_init m = false -> instance (m_signature m) = false -> m_has_body m = true -> m_pinvoke m = false ->
  intrinsic VmContext m = None -> (exists b, is_value_type (m_parent m) = Val b) -> method_info m g = Val i ->
  initialize (m_parent m) g v = (Val res, v1) -> res <> Continue ->
  dispatch_tail initialize fuel m g v = (Val FramePushed, v') ->
  dispatch initialize (S fuel) m g v = (Val res, v1) /\ runs i v' /\
  forall initialize', dispatch_tail initialize' fuel m g v = (Val FramePushed, v').
Proof.
  intros Hb Hs Hbody Hp Hi [b Hv] Hm Hinit Hres Ht. unfold dispatch_method_tail in *. rewrite Hi, Hp, Hbody in *. cbn [negb] in *.
  split; [|split; [|done]].
  - cbn [dispatch_method]. rewrite Hb, Hv. unfold vm_try, catch, alift, abind. cbn. unfold needs_class_init. rewrite Hb, Hs. cbn.
    unfold abind. rewrite Hinit. by destruct res.
  - apply vm_try_pushed in Ht as (i' & v2 & [E ->]%alift_val & Ht). rewrite Hm in E. injection E as ->. by apply tail_to_runs in Ht.
Qed.
End dispatch.

(** ** A run *)

Definition int_concrete : Generics.GenericLookup -> MethodType -> outcome TypeResolutionError Generics.ConcreteType :=
  fun _ _ => Val (CT 0 (BPrim Int32)).
Definition no_type (_ : Generics.ConcreteType) : outcome TypeResolutionError TypeDescription := Err InvalidHandle.
Definition is_value (t : TypeDescription) : outcome TypeResolutionError bool := Val (index t =? 2)%nat.
Definition no_object (_ : TypeDescription) (_ : Generics.ConcreteType) (_ : Generics.GenericLookup) : outcome TypeResolutionError Object := Err InvalidHandle.
Definition name_of (_ : TypeDescription) : string := "T".

Definition int_type : MethodType := Generics.MBase (BPrim Int32).

(** Takes an integer, has a local, returns an integer. *)
Definition demo_method : MethodInfo :=
  {| source := 2; parent := {| resolution := 1; index := 1 |}; synchronized := false; signature := plain_signature [int_type] (Some int_type);
     locals := [Variable_ false false int_type]; exceptions := []; instructions := [Operand NoOperation; Ret]; is_cctor := false; method_homes := None |}.
Definition demo_main : MethodInfo :=
  {| source := 3; parent := {| resolution := 1; index := 1 |}; synchronized := false; signature := plain_signature [] None;
     locals := [Variable_ false false int_type]; exceptions := []; instructions := [Operand NoOperation; Ret]; is_cctor := false; method_homes := None |}.

Definition empty_vm : vm :=
  {| context := context_of [] [] NoException; memory := demo_mem;
     thread_gauges := {| RawBlocks.thread_bytes := 0; RawBlocks.live_blocks := 0 |}; static_storage := ∅ |}.
Definition demo_enter := entrypoint_frame (reg run_s2) 2 test_runtime 4 (fun _ => 4096) int_concrete no_type is_value name_of no_object.
Definition demo_call := push_managed (reg run_s2) 2 test_runtime 4 (fun _ => 4096) int_concrete no_type is_value name_of no_object.
Definition demo_tail := tail_to (reg run_s2) 2 test_runtime 4 (fun _ => 4096) int_concrete no_type is_value name_of no_object.
Definition entered : vm := snd (demo_enter demo_main empty_lookup [] empty_vm).
Definition pushed (x : StackValue) (v : vm) : vm := set_context v (push x (context v)).
Definition called : vm := snd (demo_call None demo_method empty_lookup (pushed (SV.Int32 5) entered)).
Definition ready : vm := pushed (SV.Int32 7) called.
Definition tail_called : vm := snd (demo_tail None demo_method empty_lookup ready).

Example demo_run : ev called = [SV.Int32 0; SV.Int32 5; SV.Int32 0] /\ ev tail_called = [SV.Int32 0; SV.Int32 7; SV.Int32 0].
Proof. split; vm_compute; reflexivity. Qed.

(** A description with the signature of the method. *)
Definition info_of (m : Method) : MethodInfo :=
  {| source := m_id m; parent := m_parent m; synchronized := false; signature := m_signature m; locals := locals demo_method;
         exceptions := []; instructions := instructions demo_method; is_cctor := false; method_homes := None |}.
Definition demo_info (m : Method) (_ : Generics.GenericLookup) : outcome TypeResolutionError MethodInfo := Val (info_of m).
Definition demo_alloc (_ : Object) : act TypeResolutionError Z := aret 8.

Lemma demo_info_signature m g i : demo_info m g = Val i -> signature i = m_signature m.
Proof. by intros [= <-]. Qed.
Lemma demo_alloc_keeps o v : frs (snd (demo_alloc o v)) = frs v /\ ev (snd (demo_alloc o v)) = ev v.
Proof. done. Qed.
Lemma test_calls_length res c e : complete_constructor test_calls res c = Val e -> length (stack e) = length (stack (eval c)).
Proof. by intros [= <-]. Qed.

Abbreviation demo_step limit := (step (reg run_s2) 2 test_runtime 4 (fun _ => 4096) int_concrete no_type is_value name_of no_object limit
  demo_info (fun _ _ _ _ => true) false (fun _ => LScalar Scalars.Int32) demo_alloc test_calls).

Lemma demo_steps limit newobj : demo_call limit demo_method empty_lookup (pushed (SV.Int32 5) entered) = (Val FramePushed, called) ->
  rtc (demo_step limit newobj) entered ready.
Proof.
  intros Hc. eapply rtc_l; [apply (Pushed _ _ _ _ _ _ _ _ _ _ _ _ _ _ _ _ _ _ _ _ (SV.Int32 5)); reflexivity|].
  eapply rtc_l; [eapply Called; exact Hc|]. apply rtc_once. apply (Pushed _ _ _ _ _ _ _ _ _ _ _ _ _ _ _ _ _ _ _ _ (SV.Int32 7)). reflexivity.
Qed.

Lemma frames_tile_witness : stack_tiled 0 (context tail_called) /\ depth (context tail_called) = 2%nat /\
  bp_arguments ∘ frame_base <$> frs tail_called = [0; 1]%nat.
Proof.
  split; [|split; vm_compute; reflexivity].
  apply (frames_tile (reg run_s2) 2 test_runtime 4 (fun _ => 4096) int_concrete no_type is_value name_of no_object None
    demo_info (fun _ _ _ _ => true) demo_info_signature false (fun _ => LScalar Scalars.Int32) demo_alloc demo_alloc_keeps test_calls test_calls_length
    demo_main empty_lookup [] empty_vm entered tail_called).
  - vm_compute. reflexivity.
  - reflexivity.
  - reflexivity.
  - eapply rtc_r; [apply demo_steps; vm_compute; reflexivity|]. apply (TailCalled _ _ _ _ _ _ _ _ _ _ _ _ _ _ _ _ _ _ _ _ demo_method empty_lookup).
    vm_compute. reflexivity.
Defined.

Lemma tail_call_passes_on_witness : exists args' ls h, frs tail_called = removelast (frs tail_called) ++ [h] /\ info h = demo_method /\
  ev tail_called = [SV.Int32 0] ++ args' ++ ls /\ passed [SV.Int32 7] args'.
Proof.
  destruct (frs ready) as [|main [|f [|? ?]]] eqn:Hf; try (vm_compute in Hf; discriminate).
  destruct (tail_call_passes_on (reg run_s2) 2 test_runtime 4 (fun _ => 4096) int_concrete no_type is_value name_of no_object None
    test_calls 0 demo_method empty_lookup ready tail_called [] main f) as (args' & ls & h & H1 & H2 & H3 & H4 & _).
  - vm_compute. reflexivity.
  - exact Hf.
  - vm_compute in Hf. injection Hf as <- <-. vm_compute. reflexivity.
  - vm_compute. repeat split; discriminate.
  - vm_compute in Hf. injection Hf as <- <-. reflexivity.
  - exists args', ls, h. rewrite H1. split; [reflexivity|]. split; [exact H2|].
    vm_compute in Hf. injection Hf as <- <-. split; [exact H3 | exact H4].
Defined.

Definition demo_ctor : MethodInfo :=
  {| source := 4; parent := {| resolution := 1; index := 1 |}; synchronized := false;
     signature := {| instance := true; explicit_this := false; calling_convention := 0; parameters := []; return_type := Generics.Ret [] None; varargs := None |};
     locals := []; exceptions := []; instructions := [Ret]; is_cctor := false; method_homes := None |}.
Definition demo_object : Object :=
  {| description := {| resolution := 1; index := 1 |}; obj_generics := []; layout_arc := 0; data := []; has_finalizer := false;
     finalizer_suppressed := false |}.
Definition demo_construct := constructor_frame (reg run_s2) 2 test_runtime 4 (fun _ => 4096) false int_concrete no_type is_value name_of no_object
  (fun _ => LScalar Scalars.Int32) demo_alloc.
Definition constructed : vm := snd (demo_construct demo_object demo_ctor empty_lookup entered).

(** At a limit of one frame: a call, a constructor and a delegate with the targets at 9. *)
Definition demo_multicast := multicast_frame (reg run_s2) 2 test_runtime 4 (fun _ => 4096) int_concrete no_type is_value name_of no_object demo_info.
Definition demo_invoke : Method :=
  {| m_id := 6; m_name := "Invoke"; m_parent := {| resolution := 1; index := 1 |};
     m_signature := {| instance := true; explicit_this := false; calling_convention := 0; parameters := []; return_type := Generics.Ret [] None; varargs := None |};
     m_parent_arity := 0; m_parent_generics := []; m_before_field_init := false; m_parent_interface := false; m_pinvoke := false;
     m_has_body := false; m_internal_call := false; m_virtual := true; m_abstract := false |}.
Definition invoked : vm := snd (demo_multicast demo_invoke empty_lookup 8 9 [] entered).

Lemma frame_limit_bypassed_witness :
  (exists e, demo_call (Some 1%nat) demo_ctor empty_lookup entered = (Val (Error e), entered)) /\ depth (context constructed) = 2%nat /\
  depth (context invoked) = 2%nat.
Proof.
  destruct (frame_limit_bypassed (reg run_s2) 2 test_runtime 4 (fun _ => 4096) int_concrete no_type is_value name_of no_object (Some 1%nat)
    demo_info (fun _ _ _ _ => true) false (fun _ => LScalar Scalars.Int32) demo_alloc demo_alloc_keeps test_calls
    1 eq_refl entered entered) as (_ & H1 & H2 & H3).
  - vm_compute. reflexivity.
  - apply rtc_refl.
  - vm_compute. reflexivity.
  - split; [apply H1|]. split; [apply (H2 demo_object demo_ctor empty_lookup); vm_compute; reflexivity|].
    apply (H3 demo_invoke empty_lookup 8 9 []); vm_compute; reflexivity.
Defined.

Definition demo_static : Method :=
  {| m_id := 5; m_name := "Run"; m_parent := {| resolution := 1; index := 1 |}; m_signature := plain_signature [int_type] (Some int_type);
     m_parent_arity := 0; m_parent_generics := []; m_before_field_init := false; m_parent_interface := false; m_pinvoke := false;
     m_has_body := true; m_internal_call := false; m_virtual := false; m_abstract := false |}.

(** The class constructor's frame is pushed. *)
Definition run_cctor (_ : TypeDescription) (g : Generics.GenericLookup) : act Empty_set StepResult := demo_call None demo_main g.

Definition demo_dispatch_tail initialize := dispatch_method_tail (reg run_s2) 2 test_runtime 4 (fun _ => 4096) int_concrete no_type is_value name_of
  no_object None demo_info (fun _ _ => None) (fun _ => aret Return) (fun _ _ => None) initialize (fun _ => Err InvalidHandle) (fun _ => [])
  (fun _ _ _ => Err InvalidHandle) (fun _ _ _ => false) (fun _ => []) (fun l _ => l).

Lemma tail_call_skips_initializer_witness : exists i v', demo_info demo_static empty_lookup = Val i /\
  demo_dispatch_tail run_cctor 2 demo_static empty_lookup ready = (Val FramePushed, v') /\ runs i v' /\
  fst (run_cctor (m_parent demo_static) empty_lookup ready) = Val FramePushed.
Proof.
  exists (info_of demo_static), (snd (demo_dispatch_tail run_cctor 2 demo_static empty_lookup ready)).
  destruct (tail_call_skips_initializer (reg run_s2) 2 test_runtime 4 (fun _ => 4096) int_concrete no_type is_value name_of no_object None demo_info
    (fun _ _ => None) (fun _ => aret Return) (fun _ _ => None) (fun _ => Err InvalidHandle) (fun _ => []) (fun _ _ _ => Err InvalidHandle)
    (fun _ _ _ => false) (fun _ => []) (fun l _ => l) run_cctor 2 demo_static empty_lookup (info_of demo_static) ready FramePushed
    (snd (run_cctor (m_parent demo_static) empty_lookup ready)) (snd (demo_dispatch_tail run_cctor 2 demo_static empty_lookup ready))) as (_ & H & _).
  - reflexivity.
  - reflexivity.
  - reflexivity.
  - reflexivity.
  - reflexivity.
  - exists false. reflexivity.
  - reflexivity.
  - vm_compute. reflexivity.
  - discriminate.
  - vm_compute. reflexivity.
  - split; [reflexivity|]. split; [vm_compute; reflexivity|]. split; [exact H | vm_compute; reflexivity].
Defined.
