(* ===== verification/Cache.v ===== *)
(** * Caches

    The runtime's caches: a shared store with an optional limit, in front of which each
    thread may keep a small least-recently-used cache ([dotnet-vm/src/cache.rs]).

    The store is a concurrent or a locked hash map; which entry it iterates to first, and
    so evicts, is arbitrary.  The least-recently-used cache is a library's: what it gives
    back was put under an equal key. *)

From Stdlib Require Import ZArith Lia.
From stdpp Require Import base tactics list option.
From S2P Require Import Prelude.

(** ** What users of a cache rely on *)

Class MemoCache (K V C : Type) : Type := {
  memo_get : K -> C -> option V * C;
  memo_put : K -> V -> C -> C;
  memo_entry : C -> K -> V -> Prop;
}.

(** A hit was stored under an equal key; nothing else appears in the cache. *)
Class MemoLaws (K V C : Type) (eqk : K -> K -> bool) `{MemoCache K V C} : Prop := {
  memo_hit k c v c' : memo_get k c = (Some v, c') -> exists k', eqk k k' = true /\ memo_entry c k' v;
  memo_get_entry k c o c' k' v : memo_get k c = (o, c') -> memo_entry c' k' v ->
    memo_entry c k' v \/ eqk k k' = true /\ o = Some v;
  memo_put_entry k v c k' v' : memo_entry (memo_put k v c) k' v' -> memo_entry c k' v' \/ eqk k k' = true /\ v = v';
}.

(** The least-recently-used cache of a library. *)
Class Lru (K V L : Type) : Type := {
  lru_new : nat -> L;
  lru_lookup : K -> L -> option V * L;
  lru_store : K -> V -> L -> L;
  lru_holds : L -> K -> V -> Prop;
}.

Class LruSound (K V L : Type) (eqk : K -> K -> bool) `{Lru K V L} : Prop := {
  lru_new_empty n k v : ~ lru_holds (lru_new n) k v;
  lru_lookup_hit k l v l' : lru_lookup k l = (Some v, l') -> exists k', eqk k k' = true /\ lru_holds l k' v;
  lru_lookup_holds k l o l' k' v : lru_lookup k l = (o, l') -> lru_holds l' k' v -> lru_holds l k' v;
  lru_store_holds k v l k' v' : lru_holds (lru_store k v l) k' v' -> lru_holds l k' v' \/ eqk k k' = true /\ v = v';
}.

Section cache.
Context {K V L : Type} (eqk : K -> K -> bool) `{LruSound K V L eqk}.
Context (eqk_equiv : Equivalence (fun k l => eqk k l = true)).

Lemma eqk_refl k : eqk k k = true.
Proof. exact (@Equivalence_Reflexive _ _ eqk_equiv k). Qed.

(** The place of the entry a store iterates to first. *)
Context (first_entry : list (K * V) -> nat).

(** ** The store *)

Definition get_cloned (s : list (K * V)) (k : K) : option V := snd <$> List.find (fun e => eqk k e.1) s.

Definition contains_key (s : list (K * V)) (k : K) : bool := existsb (fun e => eqk k e.1) s.

(** A key that is present keeps its place and gets the new value. *)
Fixpoint store_insert (s : list (K * V)) (k : K) (v : V) : list (K * V) :=
  match s with
  | [] => [(k, v)]
  | e :: s => if eqk k e.1 then (e.1, v) :: s else e :: store_insert s k v
  end.

Definition evict_arbitrary (s : list (K * V)) : bool * list (K * V) :=
  match s with [] => (false, []) | _ => (true, delete (first_entry s mod length s)%nat s) end.

(** ** A limited store *)

(** Evicts until there is room; the fuel is the number of entries. *)
Fixpoint make_room (n max_entries : nat) (s : list (K * V)) : list (K * V) :=
  if (max_entries <=? length s)%nat then
    match n with
    | O => s
    | S n => let '(evicted, s) := evict_arbitrary s in if evicted then make_room n max_entries s else s
    end
  else s.

Definition insert_entry (capacity : option nat) (s : list (K * V)) (k : K) (v : V) : list (K * V) :=
  match capacity with
  | None => store_insert s k v
  | Some max_entries =>
      if contains_key s k then store_insert s k v else store_insert (make_room (length s) max_entries s) k v
  end.

(** ** The cache of a thread *)

Record FrontCachePolicy : Set := { enabled : bool; front_capacity : nat }.

Record FrontCache : Type := { front_entries : option L; current_capacity : nat }.

Definition front_get (f : FrontCache) (k : K) : option V * FrontCache :=
  match front_entries f with
  | None => (None, f)
  | Some l => let '(v, l) := lru_lookup k l in (v, {| front_entries := Some l; current_capacity := current_capacity f |})
  end.

Definition ensure_capacity (f : FrontCache) (capacity : nat) : bool * FrontCache :=
  if (capacity =? 0)%nat then (false, {| front_entries := None; current_capacity := 0 |})
  else if (current_capacity f =? capacity)%nat then (true, f)
  else (true, {| front_entries := Some (lru_new capacity); current_capacity := capacity |}).

Definition front_insert (f : FrontCache) (k : K) (v : V) (capacity : nat) : FrontCache :=
  let '(b, f) := ensure_capacity f capacity in
  if b then
    match front_entries f with
    | Some l => {| front_entries := Some (lru_store k v l); current_capacity := current_capacity f |}
    | None => f
    end
  else f.

(** ** Both *)

Record tiers : Type := { store : list (K * V); fronts : nat -> FrontCache }.

Definition set_front (c : tiers) (t : nat) (f : FrontCache) : tiers :=
  {| store := store c; fronts u := if (u =? t)%nat then f else fronts c u |}.

Section policy.
Context (capacity : option nat) (front_policy : option FrontCachePolicy).

Definition front_enabled : option nat :=
  match front_policy with Some p => if enabled p then Some (front_capacity p) else None | None => None end.

Definition try_get_with_front (t : nat) (k : K) (c : tiers) : option V * tiers :=
  match front_enabled with
  | None => (get_cloned (store c) k, c)
  | Some cap =>
      let '(v, f) := front_get (fronts c t) k in
      let c := set_front c t f in
      match v with
      | Some v => (Some v, c)
      | None =>
          match get_cloned (store c) k with
          | None => (None, c)
          | Some v => (Some v, set_front c t (front_insert (fronts c t) k v cap))
          end
      end
  end.

Definition insert_with_front (t : nat) (k : K) (v : V) (c : tiers) : tiers :=
  let c' := {| store := insert_entry capacity (store c) k v; fronts := fronts c |} in
  match front_enabled with
  | None => c'
  | Some cap => set_front c' t (front_insert (fronts c' t) k v cap)
  end.

(** *** What the cache holds *)

Definition front_holds (f : FrontCache) (k : K) (v : V) : Prop := exists l, front_entries f = Some l /\ lru_holds l k v.

Definition tier_entry (c : tiers) (k : K) (v : V) : Prop := (k, v) ∈ store c \/ exists t, front_holds (fronts c t) k v.

Lemma get_cloned_entry s k v : get_cloned s k = Some v -> exists k', eqk k k' = true /\ (k', v) ∈ s.
Proof.
  unfold get_cloned. intros ([k' v'] & [Hin Hk]%find_some & ->)%fmap_Some. exists k'. split; [done|]. by apply list_elem_of_In.
Qed.

Lemma store_insert_entry s k v k' v' : (k', v') ∈ store_insert s k v -> (k', v') ∈ s \/ eqk k k' = true /\ v = v'.
Proof.
  induction s as [|e s IH]; simpl.
  - intros [= -> ->]%list_elem_of_singleton. right. split; [apply eqk_refl | done].
  - destruct (eqk k e.1) eqn:Hk.
    + intros [[= -> ->]|Hin]%elem_of_cons; [by right | left; by right].
    + intros [->|Hin]%elem_of_cons; [left; by left|]. destruct (IH Hin); [left; by right | by right].
Qed.

Lemma evict_subset s : (evict_arbitrary s).2 ⊆ s.
Proof.
  destruct s as [|e s]; [done|]. cbn [evict_arbitrary snd]. intros x Hx.
  by apply list_elem_of_delete_inv in Hx.
Qed.

Lemma make_room_subset n m s : make_room n m s ⊆ s.
Proof.
  revert s. induction n as [|n IH]; intros s; cbn [make_room]; (destruct (_ <=? _)%nat; [|done]); [done|].
  pose proof (evict_subset s) as He. destruct (evict_arbitrary s) as [[|] s']; [|done]. intros x Hx. by apply He, IH.
Qed.

Lemma insert_entry_entry s k v k' v' : (k', v') ∈ insert_entry capacity s k v -> (k', v') ∈ s \/ eqk k k' = true /\ v = v'.
Proof.
  unfold insert_entry. destruct capacity as [m|]; [|apply store_insert_entry]. destruct (contains_key s k); [apply store_insert_entry|].
  intros [Hin|Hin]%store_insert_entry; [left; by apply make_room_subset in Hin | by right].
Qed.

Lemma front_insert_holds f k v cap k' v' : front_holds (front_insert f k v cap) k' v' -> front_holds f k' v' \/ eqk k k' = true /\ v = v'.
Proof.
  unfold front_insert, ensure_capacity. destruct (cap =? 0)%nat; [by intros (l & [=] & _)|].
  destruct (current_capacity f =? cap)%nat; simpl.
  - destruct (front_entries f) as [l|] eqn:Hf; [|by intros (l & H1 & _); rewrite Hf in H1].
    intros (l' & [= <-] & [Hl|Hl]%lru_store_holds); [left; by exists l | by right].
  - intros (l' & [= <-] & [Hl|Hl]%lru_store_holds); [by apply lru_new_empty in Hl | by right].
Qed.

Lemma front_get_hit f k v f' : front_get f k = (Some v, f') -> exists k', eqk k k' = true /\ front_holds f k' v.
Proof.
  unfold front_get. destruct (front_entries f) as [l|] eqn:Hf; [|done]. destruct (lru_lookup k l) as [o l'] eqn:Hl. intros [= -> <-].
  apply lru_lookup_hit in Hl as (k' & Hk & Hh). exists k'. split; [done|]. by exists l.
Qed.

Lemma front_get_holds f k o f' k' v : front_get f k = (o, f') -> front_holds f' k' v -> front_holds f k' v.
Proof.
  unfold front_get. destruct (front_entries f) as [l|] eqn:Hf; [|by intros [= <- <-]]. destruct (lru_lookup k l) as [x l'] eqn:Hl. intros [= -> <-].
  intros (l2 & [= <-] & Hh). exists l. split; [done|]. by eapply lru_lookup_holds.
Qed.

Lemma set_front_entry c t f k v : tier_entry (set_front c t f) k v -> (k, v) ∈ store c \/ front_holds f k v \/ tier_entry c k v.
Proof.
  intros [Hs|[u Hu]]; [by left|]. simpl in Hu. destruct (u =? t)%nat; [by right; left|]. right; right; right. by exists u.
Qed.

(** The cache of a thread keeps the interface of a cache. *)
Context (t : nat).

#[export] Instance tiers_memo : MemoCache K V tiers :=
  {| memo_get := try_get_with_front t; memo_put := insert_with_front t; memo_entry := tier_entry |}.

#[export] Instance tiers_laws : MemoLaws K V tiers eqk.
Proof.
  split.
  - intros k c v c'. unfold memo_get, tiers_memo, try_get_with_front, tier_entry. destruct front_enabled as [cap|].
    + destruct (front_get (fronts c t) k) as [[x|] f] eqn:Hf.
      * intros [= -> _]. apply front_get_hit in Hf as (k' & Hk & Hh). exists k'. split; [done|]. right. by exists t.
      * simpl. destruct (get_cloned (store c) k) as [x|] eqn:Hg; [|done]. intros [= -> _].
        apply get_cloned_entry in Hg as (k' & Hk & Hin). exists k'. split; [done | by left].
    + intros [= Hg _]. apply get_cloned_entry in Hg as (k' & Hk & Hin). exists k'. split; [done | by left].
  - intros k c o c' k' v. unfold memo_get, memo_entry, tiers_memo, try_get_with_front. destruct front_enabled as [cap|]; [|intros [= _ <-]; by left].
    destruct (front_get (fronts c t) k) as [x f] eqn:Hf.
    assert (Hset : forall k' v, tier_entry (set_front c t f) k' v -> tier_entry c k' v).
    { intros k2 v2 [Hs|[Hs|Hs]]%set_front_entry; [by left | right; exists t; by eapply front_get_holds | done]. }
    destruct x as [x|]; [intros [= _ <-] ?; left; by apply Hset|]. simpl.
    destruct (get_cloned (store c) k) as [x|] eqn:Hg; [|intros [= _ <-] ?; left; by apply Hset]. intros [= <- <-].
    intros [Hs|[Hs|Hs]]%set_front_entry; [by left; left | | left; by apply Hset].
    rewrite Nat.eqb_refl in Hs. apply front_insert_holds in Hs as [Hs|[Hk ->]]; [|by right].
    left. right. exists t. by eapply front_get_holds.
  - intros k v c k' v'. unfold memo_put, memo_entry, tiers_memo, insert_with_front.
    assert (Hs : forall k' v', tier_entry {| store := insert_entry capacity (store c) k v; fronts := fronts c |} k' v' ->
        tier_entry c k' v' \/ eqk k k' = true /\ v = v').
    { intros k2 v2 [[Hs|Hs]%insert_entry_entry|Hf]; [by left; left | by right | left; by right]. }
    destruct front_enabled as [cap|]; [|apply Hs]. intros [Hin|[Hh|Hh]]%set_front_entry; [apply Hs; by left | | by apply Hs].
    apply front_insert_holds in Hh as [Hh|Hh]; [|by right]. left. right. by exists t.
Qed.
End policy.

(** ** The limit *)

Lemma store_insert_length s k v : length (store_insert s k v) = if contains_key s k then length s else S (length s).
Proof.
  induction s as [|e s IH]; [done|]. simpl. destruct (eqk k e.1); simpl; [done|]. rewrite IH. by destruct (contains_key s k).
Qed.

Lemma make_room_length n m s : (0 < m)%nat -> (length s <= n)%nat -> (length (make_room n m s) < m)%nat.
Proof.
  intros Hm. revert s. induction n as [|n IH]; intros s Hn; cbn [make_room]; destruct (Nat.leb_spec m (length s)); try lia.
  destruct s as [|e s]; [simpl in *; lia|]. cbn [evict_arbitrary]. apply IH.
  rewrite length_delete by (apply lookup_lt_is_Some_2, Nat.mod_upper_bound; done). simpl in *. lia.
Qed.

(** A limited cache stays within its limit, whichever entries it evicts, and what was
    just inserted is found. *)
Theorem cache_bounded max_entries s k v : (0 < max_entries)%nat -> (length s <= max_entries)%nat ->
  (length (insert_entry (Some max_entries) s k v) <= max_entries)%nat /\
  get_cloned (insert_entry (Some max_entries) s k v) k = Some v.
Proof.
  intros Hm Hs.
  assert (Hfound : forall s, get_cloned (store_insert s k v) k = Some v).
  { intros l. unfold get_cloned. induction l as [|e l IH]; simpl.
    - by rewrite eqk_refl.
    - destruct (eqk k e.1) eqn:Hk; simpl; rewrite Hk; [done | apply IH]. }
  split.
  - unfold insert_entry. destruct (contains_key s k) eqn:Hc; rewrite store_insert_length; [by rewrite Hc|].
    pose proof (make_room_length (length s) max_entries s Hm ltac:(lia)). match goal with |- context [contains_key ?x k] => destruct (contains_key x k) end; lia.
  - unfold insert_entry. destruct (contains_key s k); apply Hfound.
Qed.
End cache.

Lemma nat_eqb_equiv : Equivalence (fun k l => Nat.eqb k l = true).
Proof. split; red; setoid_rewrite Nat.eqb_eq; congruence. Qed.

Lemma cache_bounded_witness :
  (length (insert_entry Nat.eqb (fun _ => 0%nat) (Some 2%nat) [(1, 10); (2, 20)]%nat 3%nat 30%nat) <= 2)%nat /\
  get_cloned Nat.eqb (insert_entry Nat.eqb (fun _ => 0%nat) (Some 2%nat) [(1, 10); (2, 20)]%nat 3%nat 30%nat) 3%nat = Some 30%nat.
Proof. apply (cache_bounded Nat.eqb nat_eqb_equiv (fun _ => 0%nat) 2 [(1, 10); (2, 20)]%nat 3%nat 30%nat); simpl; lia. Defined.
