(* ===== verification/Comparer.v ===== *)
(** * Comparing types

    Type equality across assemblies and the signatures of methods
    ([dotnet-types/src/comparer.rs], and the trait [TypeResolver] of
    [dotnet-types/src/lib.rs]).  What the loader and the metadata reader answer is a
    record of functions. *)

From Stdlib Require Import ZArith Lia.
From stdpp Require Import base tactics list option strings sets.
From S2P Require Import Prelude ManagedPtr Ops Generics.

(** ** Metadata *)

Inductive MemberType : Set := MemberBase (b : BaseType MemberType) | MemberGeneric (i : nat).

Inductive Variance : Set := Invariant | Covariant | Contravariant.

Record GenericParameter : Set := {
  variance : Variance;
  reference_type : bool;
  value_type : bool;
  has_default_constructor_constraint : bool;
  type_constraints : list MethodType;
}.

(** The members of a type that are methods. *)
Inductive MethodMemberIndex : Set :=
| MethodAt (i : nat)
| PropertyGetter (i : nat)
| PropertySetter (i : nat)
| PropertyOther (property other : nat)
| EventAdd (i : nat)
| EventRemove (i : nat)
| EventRaise (i : nat)
| EventOther (event other : nat).

#[export] Instance MethodMemberIndex_eq_dec : EqDecision MethodMemberIndex.
Proof. solve_decision. Defined.

Inductive UserMethod : Set := MDefinition (parent_type : nat) (member : MethodMemberIndex) | MReference (i : nat).

#[export] Instance UserMethod_eq_dec : EqDecision UserMethod.
Proof. solve_decision. Defined.

(** A method; decoding its signature may fail, and it may have no body. *)
Record Method : Set := {
  method_name : string;
  public : bool;
  virtual_member : bool;
  method_generic_parameters : list GenericParameter;
  signature : option (MethodSignature MethodType);
  has_body : bool;
}.

Record Property : Set := { property_name : string; getter : option Method; setter : option Method; property_other : list Method }.

Record Event : Set := {
  event_name : string;
  add_listener : Method;
  remove_listener : Method;
  raise_event : option Method;
  event_other : list Method;
}.

Record TypeDefinition : Set := {
  type_def_name : string;
  namespace : option string;
  extends : option (TypeSource MemberType);
  implements : list (TypeSource MemberType);
  generic_parameters : list GenericParameter;
  interface : bool;
  abstract_type : bool;
  methods : list Method;
  properties : list Property;
  events : list Event;
  fields : list string;
  overrides : list (UserMethod * UserMethod);
  encloser : option nat;
}.

(** The loader, and what it reads from metadata. *)
Record TypeResolver : Type := {
  locate_type : nat -> UserType -> TypeResolutionError + TypeDescription;
  find_concrete_type : ConcreteType -> TypeResolutionError + TypeDescription;
  canonical_type_name : string -> string;
  metadata : TypeDescription -> TypeDefinition;
  nested_type_name : TypeDescription -> string;
  user_type_name : UserType -> nat -> string;
}.

Definition td_is_null (td : TypeDescription) : bool := (resolution td =? 0)%nat.

Fixpoint method_type_of (t : MemberType) : MethodType :=
  match t with MemberBase b => MBase (bt_map method_type_of b) | MemberGeneric i => TypeGeneric i end.

Definition member_to_method_type (src : TypeSource MemberType) : MethodType :=
  match src with
  | User h => MBase (BType (User h) None)
  | Generic base ps => MBase (BType (Generic base (map method_type_of ps)) None)
  end.

Definition decompose_type_source {A : Set} (t : TypeSource A) : UserType * list A :=
  match t with User u => (u, []) | Generic base ps => (base, ps) end.

(** ** Policies *)

Inductive TypeIdentityComparison : Set := CanonicalNameFallback | DefinitionNameFallback.
Inductive TypeResolutionFailureBehavior : Set := ReturnFalse | PanicOnFailure | CompareResultsThenReturnFalse.

Record TypeComparisonPolicy : Set :=
  { type_identity : TypeIdentityComparison; resolution_failure : TypeResolutionFailureBehavior }.

Definition TYPES_EQUAL : TypeComparisonPolicy :=
  {| type_identity := CanonicalNameFallback; resolution_failure := ReturnFalse |}.
Definition CONCRETE_EQUALS_BASE_TYPE : TypeComparisonPolicy :=
  {| type_identity := DefinitionNameFallback; resolution_failure := PanicOnFailure |}.
Definition CONCRETE_TYPES_EQUAL : TypeComparisonPolicy :=
  {| type_identity := DefinitionNameFallback; resolution_failure := CompareResultsThenReturnFalse |}.

(** A comparison panics or answers. *)
Abbreviation test := (outcome Empty_set bool) (only parsing).

Definition test_and (m : test) (k : test) : test := let* b := m in if b then k else Val false.

(** Pairwise tests, up to the first that fails. *)
Section pairwise.
Context {A B : Type} (f : A -> B -> test).
Fixpoint all_pairs (l1 : list A) (l2 : list B) {struct l2} : test :=
  match l2, l1 with
  | y :: l2, x :: l1 => test_and (f x y) (all_pairs l1 l2)
  | _, _ => Val true
  end.
Definition slices_equal (l1 : list A) (l2 : list B) : test :=
  if negb (length l1 =? length l2)%nat then Val false else all_pairs l1 l2.
End pairwise.

Section comparer.
Context (loader : TypeResolver).

Definition definition (td : TypeDescription) : outcome Empty_set TypeDefinition :=
  if td_is_null td then Panic else Val (metadata loader td).

Definition type_name (td : TypeDescription) : string :=
  if td_is_null td then "UNRESOLVED_TYPE_DEF" else nested_type_name loader td.

Definition resolved_types_equal (left right : TypeDescription) (policy : TypeComparisonPolicy) : test :=
  if bool_decide (left = right) then Val true
  else
    match type_identity policy with
    | CanonicalNameFallback =>
        Val (negb (td_is_null left) && negb (td_is_null right) &&
             bool_decide (canonical_type_name loader (type_name left) = canonical_type_name loader (type_name right)))
    | DefinitionNameFallback =>
        let* l := definition left in
        let* r := definition right in
        Val (bool_decide (type_def_name l = type_def_name r) && bool_decide (namespace l = namespace r))
    end.

Definition resolve_type_with_policy (res : nat) (u : UserType) (policy : TypeComparisonPolicy)
  : outcome Empty_set (option TypeDescription) :=
  match locate_type loader res u, resolution_failure policy with
  | inr td, _ => Val (Some td)
  | inl _, PanicOnFailure => Panic
  | inl _, _ => Val None
  end.

Definition same_type (left_res : nat) (u1 : UserType) (right_res : nat) (u2 : UserType) (policy : TypeComparisonPolicy) : test :=
  match resolution_failure policy with
  | CompareResultsThenReturnFalse =>
      match locate_type loader left_res u1, locate_type loader right_res u2 with
      | inr l, inr r => resolved_types_equal l r policy
      | inl e, inl f => Val (bool_decide (e = f))
      | _, _ => Val false
      end
  | _ =>
      let* l := resolve_type_with_policy left_res u1 policy in
      match l with
      | None => Val false
      | Some l =>
          let* r := resolve_type_with_policy right_res u2 policy in
          match r with None => Val false | Some r => resolved_types_equal l r policy end
      end
  end.

Section base.
Context {L R : Set} (policy : TypeComparisonPolicy) (child_equal : L -> R -> test).
Definition normalized_base_types_equal (left_res : nat) (left : BaseType L) (right_res : nat) (right : BaseType R) : test :=
  match left, right with
  | BType ts1 _, BType ts2 _ =>
      let '(u1, _) := decompose_type_source ts1 in
      let '(u2, _) := decompose_type_source ts2 in
      test_and (same_type left_res u1 right_res u2 policy)
        match ts1, ts2 with
        | Generic _ g1, Generic _ g2 => slices_equal child_equal g1 g2
        | User _, User _ => Val true
        | Generic _ g, User _ | User _, Generic _ g => Val (length g =? 0)%nat
        end
  | BPrim p, BPrim q => Val (bool_decide (p = q))
  | BVector _ l, BVector _ r => child_equal l r
  | BArray l _, BArray r _ => child_equal l r
  | BValuePointer _ l, BValuePointer _ r =>
      match l, r with None, None => Val true | Some l, Some r => child_equal l r | _, _ => Val false end
  | _, _ => Val false
  end.
End base.

(** ** Types against types *)

Definition resolve_generic_type (generics : option GenericLookup) (t : MethodType) : option ConcreteType :=
  match generics with
  | None => None
  | Some g =>
      match t with
      | TypeGeneric i => type_generics g !! i
      | MethodGeneric i => method_generics g !! i
      | MBase _ => None
      end
  end.

Definition same_generic_placeholder (left right : MethodType) : bool :=
  match left, right with
  | TypeGeneric i, TypeGeneric j | MethodGeneric i, MethodGeneric j => (i =? j)%nat
  | _, _ => false
  end.

Fixpoint normalized_concrete_equals_method_type (policy : TypeComparisonPolicy) (concrete : ConcreteType) (res : nat)
    (generics : option GenericLookup) (t : MethodType) {struct t} : test :=
  match resolve_generic_type generics t with
  | Some other => Val (ct_eqb concrete other)
  | None =>
      match t with
      | MBase b =>
          normalized_base_types_equal policy
            (fun l r => normalized_concrete_equals_method_type policy l res generics r)
            (ct_source concrete) (ct_base concrete) res b
      | _ => Val false
      end
  end.

Fixpoint normalized_method_types_equal (policy : TypeComparisonPolicy) (left_res : nat) (left_generics : option GenericLookup)
    (left : MethodType) (right_res : nat) (right_generics : option GenericLookup) (right : MethodType) {struct right} : test :=
  if same_generic_placeholder left right then Val true
  else
    match resolve_generic_type left_generics left, resolve_generic_type right_generics right with
    | Some concrete, _ => normalized_concrete_equals_method_type policy concrete right_res right_generics right
    | None, Some concrete => normalized_concrete_equals_method_type policy concrete left_res left_generics left
    | None, None =>
        match left, right with
        | MBase l, MBase r =>
            normalized_base_types_equal policy
              (fun x y => normalized_method_types_equal policy left_res left_generics x right_res right_generics y)
              left_res l right_res r
        | _, _ => Val false
        end
    end.

Fixpoint normalized_concrete_types_equal (policy : TypeComparisonPolicy) (left right : ConcreteType) {struct right} : test :=
  if ct_eqb left right then Val true
  else
    match right with
    | CT s b => normalized_base_types_equal policy (normalized_concrete_types_equal policy) (ct_source left) (ct_base left) s b
    end.

Definition types_equal (res1 : nat) (a : MethodType) (generics1 : option GenericLookup)
    (res2 : nat) (b : MethodType) (generics2 : option GenericLookup) : test :=
  normalized_method_types_equal TYPES_EQUAL res1 generics1 a res2 generics2 b.

Definition type_slices_equal (res1 : nat) (a : list MethodType) (generics1 : option GenericLookup)
    (res2 : nat) (b : list MethodType) (generics2 : option GenericLookup) : test :=
  slices_equal (fun x y => types_equal res1 x generics1 res2 y generics2) a b.

Definition concrete_equals_method_type (c : ConcreteType) (res2 : nat) (b : MethodType) (generics2 : option GenericLookup) : test :=
  normalized_concrete_equals_method_type CONCRETE_EQUALS_BASE_TYPE c res2 generics2 b.

Definition concrete_equals_base_type (c : ConcreteType) (res2 : nat) (b : BaseType MethodType) (generics2 : option GenericLookup) : test :=
  normalized_base_types_equal CONCRETE_EQUALS_BASE_TYPE
    (fun l r => concrete_equals_method_type l res2 r generics2) (ct_source c) (ct_base c) res2 b.

Definition concrete_types_equal (c1 c2 : ConcreteType) : test := normalized_concrete_types_equal CONCRETE_TYPES_EQUAL c1 c2.

(** ** Signatures without variance *)

Definition param_types_equal (res1 : nat) (a : ParameterType MethodType) (generics1 : option GenericLookup)
    (res2 : nat) (b : ParameterType MethodType) (generics2 : option GenericLookup) : test :=
  match a, b with
  | PValue l, PValue r | PRef l, PRef r => types_equal res1 l generics1 res2 r generics2
  | PTypedReference, PTypedReference => Val true
  | _, _ => Val false
  end.

Definition param_type {A : Set} (p : SigParameter A) : ParameterType A := match p with Param _ t => t end.
Definition ret_type {A : Set} (r : ReturnType A) : option (ParameterType A) := match r with Ret _ t => t end.

Definition params_equal (res1 : nat) (a : list (SigParameter MethodType)) (generics1 : option GenericLookup)
    (res2 : nat) (b : list (SigParameter MethodType)) (generics2 : option GenericLookup) : test :=
  slices_equal (fun p q => param_types_equal res1 (param_type p) generics1 res2 (param_type q) generics2) a b.

(** [signatures_match] in the mode [Invariant]. *)
Definition signatures_equal (res1 : nat) (a : MethodSignature MethodType) (generics1 : option GenericLookup)
    (res2 : nat) (b : MethodSignature MethodType) (generics2 : option GenericLookup) : test :=
  if negb (bool_decide (instance a = instance b)) then Val false
  else if negb (length (parameters a) =? length (parameters b))%nat then Val false
  else
    test_and
      match ret_type (return_type a), ret_type (return_type b) with
      | None, None => Val true
      | Some l, Some r => param_types_equal res1 l generics1 res2 r generics2
      | _, _ => Val false
      end
      (all_pairs (fun p q => param_types_equal res1 (param_type p) generics1 res2 (param_type q) generics2)
         (parameters a) (parameters b)).

(** ** Answers *)

(** The test does not panic and answers whether [P] holds. *)
Definition answers (m : test) (P : Prop) : Prop := exists b, m = Val b /\ (b = true <-> P).

Lemma answers_true (P : Prop) : P -> answers (Val true) P.
Proof. intros H. by exists true. Qed.

Lemma answers_false (P : Prop) : ~ P -> answers (Val false) P.
Proof. intros H. by exists false. Qed.

Lemma answers_bool (b : bool) (P : Prop) : (b = true <-> P) -> answers (Val b) P.
Proof. intros H. by exists b. Qed.

Lemma answers_iff m (P Q : Prop) : (P <-> Q) -> answers m P -> answers m Q.
Proof. intros H (b & -> & Hb). exists b. split; [done|]. by rewrite Hb. Qed.

Lemma answers_and m k (P Q : Prop) : answers m P -> (P -> answers k Q) -> answers (test_and m k) (P /\ Q).
Proof.
  intros (b & -> & Hb) Hk. unfold test_and. simpl. destruct b.
  - destruct (Hk (proj1 Hb eq_refl)) as (c & -> & Hc). exists c. split; [done|]. rewrite Hc. naive_solver.
  - apply answers_false. intros [H _]. by apply Hb in H.
Qed.

Lemma all_pairs_answers {A B} (f : A -> B -> test) (R : A -> B -> Prop) l1 l2 :
  length l1 = length l2 -> (forall x y, x ∈ l1 -> y ∈ l2 -> answers (f x y) (R x y)) ->
  answers (all_pairs f l1 l2) (Forall2 R l1 l2).
Proof.
  revert l1. induction l2 as [|y l2 IH]; intros [|x l1] Hl H; simplify_eq/=; [apply answers_true; constructor|].
  eapply answers_iff; [|apply answers_and; [apply H; left | intros _; apply IH; [done|]; intros; apply H; by right]].
  by rewrite Forall2_cons.
Qed.

Lemma slices_equal_answers {A B} (f : A -> B -> test) (R : A -> B -> Prop) l1 l2 :
  (forall x y, x ∈ l1 -> y ∈ l2 -> answers (f x y) (R x y)) -> answers (slices_equal f l1 l2) (Forall2 R l1 l2).
Proof.
  intros H. unfold slices_equal. destruct (Nat.eqb_spec (length l1) (length l2)); simpl.
  - by apply all_pairs_answers.
  - apply answers_false. by intros ?%Forall2_length.
Qed.

Lemma Forall2_map_eq {A B C} (f : A -> C) (g : B -> C) l1 l2 :
  Forall2 (fun x y => f x = g y) l1 l2 <-> map f l1 = map g l2.
Proof.
  split; [by induction 1; simpl; f_equal|]. revert l2. induction l1 as [|x l1 IH]; intros [|y l2] [=]; constructor; auto.
Qed.

(** ** What equality of types means *)

(** The loader resolves the tokens of a scope to definitions. *)
Definition resolves : Prop := forall r u td, r <> 0%nat -> locate_type loader r u = inr td -> td_is_null td = false.

(** A type up to where it was found: a definition counts by its name. *)
Inductive erased : Set :=
| EType (key : TypeResolutionError + (string * option string)) (args : list erased)
| EPrim (p : prim)
| EVector (e : erased)
| EArray (e : erased)
| EPointer (e : option erased)
| EFunction (c : ConcreteType).

Definition type_key (res : nat) (u : UserType) : TypeResolutionError + (string * option string) :=
  match locate_type loader res u with
  | inl e => inl e
  | inr td => inr (type_def_name (metadata loader td), namespace (metadata loader td))
  end.

Fixpoint erase (c : ConcreteType) : erased :=
  match c with
  | CT s b =>
      match bt_map erase b with
      | BType ts _ => let '(u, args) := decompose_type_source ts in EType (type_key s u) args
      | BPrim p => EPrim p
      | BVector _ e => EVector e
      | BArray e _ => EArray e
      | BValuePointer _ e => EPointer e
      | BFunctionPointer _ => EFunction (strip c)
      end
  end.

Lemma erase_strip c : erase (strip c) = erase c.
Proof.
  induction c as [s b IH] using ct_ind. pose proof (strip_strip (CT s b)) as Hs.
  assert (H : bt_map erase (bt_map strip b) = bt_map erase b) by (rewrite bt_map_map; by apply bt_map_ext).
  change (strip (CT s b)) with (CT s (without_kind (bt_map strip b))) in *. cbn [erase].
  rewrite <- without_kind_map. rewrite H. destruct b as [ts k|p|m x|x sh|m x|f]; try done.
  cbn -[strip]. f_equal. exact Hs.
Qed.

Lemma erase_type s ts k : erase (CT s (BType ts k)) =
  let '(u, args) := decompose_type_source ts in EType (type_key s u) (map erase args).
Proof. by destruct ts. Qed.

(** The generic arguments of two type sources. *)
Lemma args_answers {A B : Set} (f : A -> B -> test) (R : A -> B -> Prop) ts1 ts2 u1 u2 g1 g2 :
  decompose_type_source ts1 = (u1, g1) -> decompose_type_source ts2 = (u2, g2) ->
  (forall x y, x ∈ g1 -> y ∈ g2 -> answers (f x y) (R x y)) ->
  answers match ts1, ts2 with
          | Generic _ g1, Generic _ g2 => slices_equal f g1 g2
          | User _, User _ => Val true
          | Generic _ g, User _ => Val (length g =? 0)%nat
          | User _, Generic _ g => Val (length g =? 0)%nat
          end (Forall2 R g1 g2).
Proof.
  intros H1 H2 H. destruct ts1 as [v1|v1 l1], ts2 as [v2|v2 l2]; injection H1 as <- <-; injection H2 as <- <-.
  - apply answers_true. constructor.
  - apply answers_bool. rewrite Nat.eqb_eq. destruct l2; simpl; split; try done; intros Hf; inversion Hf.
  - apply answers_bool. rewrite Nat.eqb_eq. destruct l1; simpl; split; try done; intros Hf; inversion Hf.
  - by apply slices_equal_answers.
Qed.

Section equality.
Hypothesis Hl : resolves.

Lemma same_type_key r1 u1 r2 u2 : r1 <> 0%nat -> r2 <> 0%nat -> answers (same_type r1 u1 r2 u2 CONCRETE_TYPES_EQUAL) (type_key r1 u1 = type_key r2 u2).
Proof.
  intros Hr1 Hr2. unfold same_type, type_key. simpl.
  destruct (locate_type loader r1 u1) as [e|l] eqn:H1, (locate_type loader r2 u2) as [f|r] eqn:H2.
  - apply answers_bool. rewrite bool_decide_eq_true. split; [by intros -> | by intros [=]].
  - by apply answers_false.
  - by apply answers_false.
  - unfold resolved_types_equal, definition. simpl. case_bool_decide as Hlr; [apply answers_true; by subst|].
    rewrite (Hl _ _ _ Hr1 H1), (Hl _ _ _ Hr2 H2). simpl. apply answers_bool.
    rewrite andb_true_iff, !bool_decide_eq_true. split; [by intros [-> ->] | by intros [= -> ->]].
Qed.

(** Two concrete types are equal if they are built alike from definitions of the same
    name and namespace; modifiers, shapes of arrays and value kinds do not count. *)
Lemma concrete_types_equal_answers c d : sourced c = true -> sourced d = true -> answers (concrete_types_equal c d) (erase c = erase d).
Proof.
  unfold concrete_types_equal. revert d. induction c as [s b IH] using ct_ind. intros [r e] [Hs0 Hsb]%sourced_spec [Hr Hre]%sourced_spec.
  cbn [normalized_concrete_types_equal]. destruct (ct_eqb (CT s b) (CT r e)) eqn:Heq.
  { apply answers_true. apply ct_eqb_strip in Heq. by rewrite <- (erase_strip (CT s b)), Heq, erase_strip. }
  cbn [ct_source ct_base]. destruct b as [ts1 k1|p|m x|x sh|m x|f], e as [ts2 k2|q|n y|y sh'|n y|f'];
    cbn [normalized_base_types_equal]; try (apply answers_false; cbn [erase bt_map]; repeat case_match; congruence).
  - rewrite !erase_type. destruct (decompose_type_source ts1) as [u1 g1] eqn:E1, (decompose_type_source ts2) as [u2 g2] eqn:E2.
    eapply answers_iff; [|apply answers_and; [by apply same_type_key | intros _; apply (args_answers _ (fun x y => erase x = erase y) _ _ _ _ _ _ E1 E2)]].
    + rewrite Forall2_map_eq. split; [by intros [-> ->] | by intros [= ? ?]].
    + intros x y Hx Hy. assert (x ∈ source_args ts1) by by destruct ts1; injection E1 as <- <-.
      assert (y ∈ source_args ts2) by by destruct ts2; injection E2 as <- <-. apply IH; auto.
  - apply answers_bool. rewrite bool_decide_eq_true. simpl. split; [by intros -> | by intros [= ?]].
  - eapply answers_iff; [|apply IH; [left | apply Hsb; left | apply Hre; left]]. simpl. split; [by intros -> | by intros [= ?]].
  - eapply answers_iff; [|apply IH; [left | apply Hsb; left | apply Hre; left]]. simpl. split; [by intros -> | by intros [= ?]].
  - destruct x as [x|], y as [y|]; simpl; [|by apply answers_false | by apply answers_false | by apply answers_true].
    eapply answers_iff; [|apply IH; [left | apply Hsb; left | apply Hre; left]]. split; [by intros -> | by intros [= ?]].
  - apply answers_false. intros H. assert (Hs : strip (CT s (BFunctionPointer f)) = strip (CT r (BFunctionPointer f'))).
    { change (EFunction (strip (CT s (BFunctionPointer f))) = EFunction (strip (CT r (BFunctionPointer f')))) in H. congruence. }
    apply ct_eqb_strip in Hs. congruence.
Qed.
End equality.

(** ** Symmetry *)

Lemma same_type_sym r1 u1 r2 u2 : same_type r1 u1 r2 u2 TYPES_EQUAL = same_type r2 u2 r1 u1 TYPES_EQUAL.
Proof.
  unfold same_type, resolve_type_with_policy. simpl.
  destruct (locate_type loader r1 u1) as [e|l], (locate_type loader r2 u2) as [f|r]; simpl; try done.
  unfold resolved_types_equal. simpl. rewrite (bool_decide_ext (l = r) (r = l)) by done.
  case_bool_decide; [done|]. f_equal. rewrite (andb_comm (negb (td_is_null l))). f_equal. by apply bool_decide_ext.
Qed.

Lemma all_pairs_sym {A B} (f : A -> B -> test) (g : B -> A -> test) l1 l2 :
  (forall x y, x ∈ l1 -> y ∈ l2 -> f x y = g y x) -> all_pairs f l1 l2 = all_pairs g l2 l1.
Proof.
  revert l1. induction l2 as [|y l2 IH]; intros [|x l1] H; simpl; try done.
  rewrite H by left. f_equal. apply IH. intros. apply H; by right.
Qed.

Lemma slices_equal_sym {A B} (f : A -> B -> test) (g : B -> A -> test) l1 l2 :
  (forall x y, x ∈ l1 -> y ∈ l2 -> f x y = g y x) -> slices_equal f l1 l2 = slices_equal g l2 l1.
Proof. intros H. unfold slices_equal. rewrite (Nat.eqb_sym (length l1)). by rewrite (all_pairs_sym f g). Qed.

Lemma normalized_base_sym {L R : Set} (f : L -> R -> test) (g : R -> L -> test) r1 (l : BaseType L) r2 (r : BaseType R) :
  (forall x y, x ∈ children l -> y ∈ children r -> f x y = g y x) ->
  normalized_base_types_equal TYPES_EQUAL f r1 l r2 r = normalized_base_types_equal TYPES_EQUAL g r2 r r1 l.
Proof.
  intros H. destruct l as [[u|u ps] k|p|m x|x s|m [x|]|sg], r as [[v|v qs] k'|q|n y|y s'|n [y|]|sg']; simpl in *; try done;
    try (rewrite same_type_sym; done); try (apply H; by left).
  - rewrite same_type_sym. by rewrite (slices_equal_sym f g).
  - f_equal. by apply bool_decide_ext.
Qed.

Lemma same_placeholder_sym a b : same_generic_placeholder a b = same_generic_placeholder b a.
Proof. destruct a, b; simpl; try done; apply Nat.eqb_sym. Qed.

Lemma concrete_resolved policy c r g t o :
  resolve_generic_type g t = Some o -> normalized_concrete_equals_method_type policy c r g t = Val (ct_eqb c o).
Proof. intros H. destruct t; cbn [normalized_concrete_equals_method_type]; by rewrite H. Qed.

Lemma ct_eqb_sym c d : ct_eqb c d = ct_eqb d c.
Proof. apply eq_true_iff_eq. rewrite !ct_eqb_strip. by split. Qed.

Lemma method_types_unfold policy r1 g1 a r2 g2 b :
  normalized_method_types_equal policy r1 g1 a r2 g2 b =
    if same_generic_placeholder a b then Val true
    else match resolve_generic_type g1 a, resolve_generic_type g2 b with
         | Some c, _ => normalized_concrete_equals_method_type policy c r2 g2 b
         | None, Some c => normalized_concrete_equals_method_type policy c r1 g1 a
         | None, None =>
             match a, b with
             | MBase l, MBase r => normalized_base_types_equal policy
                 (fun x y => normalized_method_types_equal policy r1 g1 x r2 g2 y) r1 l r2 r
             | _, _ => Val false
             end
         end.
Proof. by destruct b. Qed.

Lemma types_equal_sym r1 a g1 r2 b g2 : types_equal r1 a g1 r2 b g2 = types_equal r2 b g2 r1 a g1.
Proof.
  unfold types_equal. revert b. induction a as [ba IH|i|i] using mt_ind; intros b;
    rewrite (method_types_unfold _ r1), (method_types_unfold _ r2), same_placeholder_sym;
    (destruct (same_generic_placeholder b _); [done|]);
    destruct (resolve_generic_type g1 _) as [c|] eqn:H1, (resolve_generic_type g2 b) as [d|] eqn:H2; try done;
    try (rewrite (concrete_resolved _ _ _ _ _ _ H1), (concrete_resolved _ _ _ _ _ _ H2), ct_eqb_sym; done);
    destruct b as [bb|j|j]; try done.
  apply normalized_base_sym. intros x y Hx _. by apply IH.
Qed.

Lemma param_types_equal_sym r1 a g1 r2 b g2 : param_types_equal r1 a g1 r2 b g2 = param_types_equal r2 b g2 r1 a g1.
Proof. destruct a, b; simpl; try done; apply types_equal_sym. Qed.

(** Matching of signatures is symmetric, whatever generic arguments the two sides have. *)
Lemma signatures_equal_sym r1 a g1 r2 b g2 : signatures_equal r1 a g1 r2 b g2 = signatures_equal r2 b g2 r1 a g1.
Proof.
  unfold signatures_equal. rewrite (bool_decide_ext (instance a = instance b) (instance b = instance a)) by done.
  rewrite (Nat.eqb_sym (length (parameters a))). destruct (negb _); [done|]. destruct (negb _); [done|].
  f_equal; [|apply all_pairs_sym; intros; apply param_types_equal_sym].
  destruct (ret_type (return_type a)), (ret_type (return_type b)); try done. apply param_types_equal_sym.
Qed.

(** ** Comparing signatures never panics *)

Definition returns (m : test) : Prop := exists b, m = Val b.

Lemma returns_bool b : returns (Val b).
Proof. by exists b. Qed.

Lemma returns_and m k : returns m -> returns k -> returns (test_and m k).
Proof. intros [b ->] [c ->]. unfold test_and. simpl. destruct b; apply returns_bool. Qed.

Lemma returns_all_pairs {A B} (f : A -> B -> test) l1 l2 :
  (forall x y, x ∈ l1 -> y ∈ l2 -> returns (f x y)) -> returns (all_pairs f l1 l2).
Proof.
  revert l1. induction l2 as [|y l2 IH]; intros [|x l1] H; try apply returns_bool.
  apply returns_and; [apply H; left | apply IH; intros; apply H; by right].
Qed.

Lemma same_type_returns r1 u1 r2 u2 : returns (same_type r1 u1 r2 u2 TYPES_EQUAL).
Proof.
  unfold same_type, resolve_type_with_policy, resolved_types_equal. simpl.
  repeat (case_match; simpl); simplify_eq/=; try apply returns_bool; repeat case_bool_decide; apply returns_bool.
Qed.

Lemma normalized_base_returns {L R : Set} (f : L -> R -> test) r1 (l : BaseType L) r2 (r : BaseType R) :
  (forall x y, y ∈ children r -> returns (f x y)) -> returns (normalized_base_types_equal TYPES_EQUAL f r1 l r2 r).
Proof.
  intros H. destruct l as [[u|u ps] k|p|m x|x s|m [x|]|sg], r as [[v|v qs] k'|q|n y|y s'|n [y|]|sg']; simpl in *;
    try apply returns_bool; try (apply H; by left); apply returns_and; try apply same_type_returns; try apply returns_bool.
  unfold slices_equal. destruct (negb _); [apply returns_bool|]. apply returns_all_pairs. auto.
Qed.

Lemma concrete_equals_method_returns c r g t : returns (normalized_concrete_equals_method_type TYPES_EQUAL c r g t).
Proof.
  revert c. induction t as [b IH|i|i] using mt_ind; intros c; cbn [normalized_concrete_equals_method_type];
    destruct (resolve_generic_type g _); try apply returns_bool. apply normalized_base_returns. auto.
Qed.

Lemma types_equal_returns r1 a g1 r2 b g2 : returns (types_equal r1 a g1 r2 b g2).
Proof.
  unfold types_equal. revert a. induction b as [bb IH|i|i] using mt_ind; intros a; rewrite method_types_unfold;
    (destruct (same_generic_placeholder a _); [apply returns_bool|]);
    destruct (resolve_generic_type g1 a); try apply concrete_equals_method_returns;
    destruct (resolve_generic_type g2 _); try apply concrete_equals_method_returns;
    destruct a; try apply returns_bool. apply normalized_base_returns. auto.
Qed.

Lemma param_types_equal_returns r1 a g1 r2 b g2 : returns (param_types_equal r1 a g1 r2 b g2).
Proof. destruct a, b; simpl; try apply returns_bool; apply types_equal_returns. Qed.

Lemma signatures_equal_returns r1 a g1 r2 b g2 : returns (signatures_equal r1 a g1 r2 b g2).
Proof.
  unfold signatures_equal. destruct (negb _); [apply returns_bool|]. destruct (negb _); [apply returns_bool|].
  apply returns_and; [|apply returns_all_pairs; intros; apply param_types_equal_returns].
  destruct (ret_type (return_type a)), (ret_type (return_type b)); try apply returns_bool. apply param_types_equal_returns.
Qed.

(** C33. Equality of concrete types never panics and is an equivalence relation, coarser than
    structural equality: it holds exactly of the types that [erase] does not tell apart.
    These are types built alike, where a definition counts by its name and namespace, in
    whatever assembly and type it is nested; a definition that is not found, by the error
    of the loader; an array, by its elements, whatever its shape; and a function pointer,
    by its structure and the assemblies of its parts. *)
Theorem concrete_equality_lawful c d e : resolves -> sourced c = true -> sourced d = true -> sourced e = true ->
  concrete_types_equal c c = Val true /\ concrete_types_equal c d = concrete_types_equal d c /\
  (concrete_types_equal c d = Val true -> concrete_types_equal d e = Val true -> concrete_types_equal c e = Val true) /\
  (ct_eqb c d = true -> concrete_types_equal c d = Val true) /\
  concrete_types_equal c d <> Panic /\ (concrete_types_equal c d = Val true <-> erase c = erase d).
Proof.
  intros Hr Hc Hd He.
  assert (Hiff : forall c d, sourced c = true -> sourced d = true -> concrete_types_equal c d = Val true <-> erase c = erase d).
  { intros x y Hx Hy. destruct (concrete_types_equal_answers Hr x y Hx Hy) as (b & -> & <-). split; [by intros [= ->] | by intros ->]. }
  destruct (concrete_types_equal_answers Hr c d Hc Hd) as (b & Hb & Hbe), (concrete_types_equal_answers Hr d c Hd Hc) as (b' & Hb' & Hbe').
  split; [by apply Hiff|]. split; [|split; [rewrite !Hiff by done; congruence|split; [|split; [by rewrite Hb | by apply Hiff]]]].
  - rewrite Hb, Hb'. f_equal. apply eq_true_iff_eq. rewrite Hbe, Hbe'. by split.
  - intros H%ct_eqb_strip. apply Hiff; [done | done|]. by rewrite <- (erase_strip c), H, erase_strip.
Qed.
End comparer.

(** Two assemblies with a type of the same name. *)
Definition two_assemblies : TypeResolver := {|
  locate_type r u := match r, u with
                     | S _, Definition_ 0 => inr {| resolution := r; index := 0 |}
                     | _, _ => inl InvalidHandle
                     end;
  find_concrete_type c := inl InvalidHandle;
  canonical_type_name n := n;
  metadata td := {| type_def_name := "T"; namespace := None; extends := None; implements := []; generic_parameters := [];
                    interface := false; abstract_type := false; methods := []; properties := []; events := [];
                    fields := []; overrides := []; encloser := None |};
  nested_type_name td := "T"%string;
  user_type_name u r := "T"%string;
|}.

Lemma concrete_equality_lawful_witness :
  concrete_types_equal two_assemblies (CT 1 (BType (User (Definition_ 0)) None)) (CT 2 (BType (User (Definition_ 0)) None)) = Val true.
Proof.
  apply (concrete_equality_lawful two_assemblies (CT 1 (BType (User (Definition_ 0)) None)) (CT 2 (BType (User (Definition_ 0)) None))
    (CT 2 (BType (User (Definition_ 0)) None))); try done.
  intros [|r] [[|i]|i] td Hr H; simpl in H; simplify_eq; done.
Defined.
