(* ===== verification/Assignability.v ===== *)
(** * Assignability

    Subtyping of concrete types with generic variance, the search for methods, and what
    a type is ([dotnet-types/src/comparer.rs] and [generics.rs]).

    The walks over base classes and interfaces of malformed or expanding generic
    hierarchies need not end, so they take fuel; [None] means it ran out.  The argument
    lists [make_lookup] caches are those of the type, up to value kinds
    ([Generics.make_lookup_spec]). *)

From Stdlib Require Import ZArith Lia.
From stdpp Require Import base tactics list option strings sets.
From S2P Require Import Prelude ManagedPtr Ops Generics Comparer.

(** ** Computations of a comparer *)

(** [assignability_cache] and [assignability_in_progress]. *)
Record comparer : Set := {
  assignability_cache : list (ConcreteType * ConcreteType * bool);
  assignability_in_progress : list (ConcreteType * ConcreteType);
}.

(** [TypeComparer::new] *)
Definition new_comparer : comparer := {| assignability_cache := []; assignability_in_progress := [] |}.

Definition M (A : Type) : Type := comparer -> option (outcome Empty_set (A * comparer)).

Definition m_ret {A} (a : A) : M A := fun c => Some (Val (a, c)).
Definition m_bind {A B} (x : M A) (f : A -> M B) : M B := fun c =>
  match x c with
  | Some (Val (a, c)) => f a c
  | Some (Err e) => Some (Err e)
  | Some Panic => Some Panic
  | None => None
  end.

(** A computation that does not touch the comparer, and one that may run out of fuel. *)
Definition m_pure {A} (x : outcome Empty_set A) : M A := fun c =>
  match x with Val a => Some (Val (a, c)) | Err e => Some (Err e) | Panic => Some Panic end.
Definition m_fuel {A} (x : option (outcome Empty_set A)) : M A := fun c =>
  match x with Some x => m_pure x c | None => None end.

Notation "'let+' x ':=' m 'in' k" := (m_bind m (fun x => k))
  (at level 10, x pattern, m at level 100, k at level 200) : vm_scope.

(** [if test { return true; } rest] and [if !test { return false; } rest]. *)
Definition or_else (x : M bool) (k : M bool) : M bool := let+ b := x in if b then m_ret true else k.
Definition and_then (x : M bool) (k : M bool) : M bool := let+ b := x in if b then k else m_ret false.

Definition pair_eqb (p q : ConcreteType * ConcreteType) : bool := ct_eqb p.1 q.1 && ct_eqb p.2 q.2.

Fixpoint cached (l : list (ConcreteType * ConcreteType * bool)) (k : ConcreteType * ConcreteType) : option bool :=
  match l with
  | [] => None
  | (k', b) :: l => if pair_eqb k k' then Some b else cached l k
  end.

Definition is_in (l : list (ConcreteType * ConcreteType)) (k : ConcreteType * ConcreteType) : bool := existsb (pair_eqb k) l.

Definition begin_check (k : ConcreteType * ConcreteType) (c : comparer) : comparer :=
  {| assignability_cache := assignability_cache c; assignability_in_progress := k :: assignability_in_progress c |}.

Definition end_check (k : ConcreteType * ConcreteType) (b : bool) (c : comparer) : comparer :=
  {| assignability_cache := (k, b) :: assignability_cache c;
     assignability_in_progress := filter (fun k' => negb (pair_eqb k k') = true) (assignability_in_progress c) |}.

Section assignability.
Context (loader : TypeResolver) (finish : list Z -> Z).

(** The address of the base of the [n]-th type allocated by the walk over the base classes
    of a type; the walk of [is_value_type] stops at an address it has seen. *)
Context (addr : ConcreteType -> nat -> Z).

Definition own_lookup (c : ConcreteType) : GenericLookup := new_lookup finish (default [] (type_parameters c)).

Definition concrete_of (c : ConcreteType) (td : TypeDescription) (src : TypeSource MemberType) : option ConcreteType :=
  match make_concrete (own_lookup c) (resolution td) (member_to_method_type src) with inr t => Some t | inl _ => None end.

(** The definition of a type, if the loader finds it. *)
Definition find_definition (c : ConcreteType) : outcome Empty_set (option (TypeDescription * TypeDefinition)) :=
  match find_concrete_type loader c with
  | inl _ => Val None
  | inr td => let* d := definition loader td in Val (Some (td, d))
  end.

Definition base_in (c : ConcreteType) (x : TypeDescription * TypeDefinition) : option ConcreteType :=
  match extends x.2 with Some src => concrete_of c x.1 src | None => None end.

(** ** What a type is *)

Definition named (d : TypeDefinition) (n : string) : bool :=
  bool_decide (type_def_name d = n) && bool_decide (namespace d = Some "System"%string).

Fixpoint value_type_loop (fuel : nat) (self : ConcreteType) (n : nat) (seen : list Z) (curr : ConcreteType)
  : option (outcome Empty_set bool) :=
  match fuel with
  | O => None
  | S fuel =>
      if bool_decide (addr self n ∈ seen) then Some (Val false)
      else
        match find_definition curr with
        | Val (Some x) =>
            if named x.2 "ValueType" then Some (Val true)
            else
              match base_in curr x with
              | Some base => value_type_loop fuel self (S n) (addr self n :: seen) base
              | None => Some (Val false)
              end
        | Val None => Some (Val false)
        | Err e => Some (Err e)
        | Panic => Some Panic
        end
  end.

Definition is_value_type (fuel : nat) (c : ConcreteType) : option (outcome Empty_set bool) :=
  match ct_base c with
  | BType _ (Some ValueType_) => Some (Val true)
  | BPrim Object_ | BPrim String_ => Some (Val false)
  | BPrim _ => Some (Val true)
  | BType _ _ => value_type_loop fuel c 0 [] c
  | _ => Some (Val false)
  end.

Definition is_class (fuel : nat) (c : ConcreteType) : option (outcome Empty_set bool) :=
  match is_value_type fuel c with
  | Some (Val true) => Some (Val false)
  | Some (Val false) =>
      Some (Val match ct_base c with BType _ _ | BPrim Object_ | BPrim String_ | BVector _ _ | BArray _ _ => true | _ => false end)
  | r => r
  end.

Definition is_interface (c : ConcreteType) : test :=
  let* x := find_definition c in Val match x with Some (_, d) => interface d | None => false end.

Definition is_nullable (c : ConcreteType) : test :=
  let* x := find_definition c in Val match x with Some (_, d) => named d "Nullable`1" | None => false end.

(** The decoded signature of a method ([expect]). *)
Definition decoded (m : Method) : outcome Empty_set (MethodSignature MethodType) := expect (signature m).

Definition has_default_constructor (fuel : nat) (c : ConcreteType) : option (outcome Empty_set bool) :=
  match is_value_type fuel c with
  | Some (Val true) => Some (Val true)
  | Some (Val false) =>
      Some (let* x := find_definition c in
            match x with
            | None => Val false
            | Some (_, d) =>
                if abstract_type d then Val false
                else ofind (fun m =>
                       if bool_decide (method_name m = ".ctor"%string) && public m then
                         let* s := decoded m in
                         match parameters s with [] => Val (Some true) | _ => Val None end
                       else Val None) false (methods d)
            end)
  | r => r
  end.

Definition has_canonical_metadata_name (c : ConcreteType) (n : string) : bool :=
  match ct_base c with
  | BType src _ =>
      let '(u, _) := decompose_type_source src in
      if (ct_source c =? 0)%nat then false
      else bool_decide (canonical_type_name loader (user_type_name loader u (ct_source c)) = n)
  | _ => false
  end.

Definition is_system_enum (c : ConcreteType) : bool := has_canonical_metadata_name c "System.Enum".
Definition is_system_value_type (c : ConcreteType) : bool := has_canonical_metadata_name c "System.ValueType".

(** ** Base classes *)

Definition base_class (c : ConcreteType) : outcome Empty_set (option ConcreteType) :=
  let* x := find_definition c in Val match x with Some x => base_in c x | None => None end.

Fixpoint subclass_loop (fuel : nat) (seen : list ConcreteType) (curr target : ConcreteType) : option (outcome Empty_set bool) :=
  match fuel with
  | O => None
  | S fuel =>
      if existsb (ct_eqb curr) seen then Some (Val false)
      else
        match base_class curr with
        | Val None => Some (Val false)
        | Val (Some base) =>
            match concrete_types_equal loader base target with
            | Val true => Some (Val true)
            | Val false => subclass_loop fuel (curr :: seen) base target
            | r => Some r
            end
        | Err e => Some (Err e)
        | Panic => Some Panic
        end
  end.

Definition is_subclass_of (fuel : nat) (source target : ConcreteType) : option (outcome Empty_set bool) :=
  subclass_loop fuel [] source target.

(** ** Variance and interfaces *)

Section recursive.
Context (fuel : nat) (assignable : ConcreteType -> ConcreteType -> M bool).

Fixpoint arguments_compatible (params : list GenericParameter) (l1 l2 : list ConcreteType) {struct l1} : M bool :=
  match l1, l2 with
  | g1 :: l1, g2 :: l2 =>
      match params with
      | [] => m_pure Panic
      | p :: params =>
          and_then
            match variance p with
            | Invariant => m_pure (concrete_types_equal loader g1 g2)
            | Covariant => assignable g1 g2
            | Contravariant => assignable g2 g1
            end
            (arguments_compatible params l1 l2)
      end
  | _, _ => m_ret true
  end.

Definition compatible_with_variance (source target : ConcreteType) : M bool :=
  or_else (m_pure (concrete_types_equal loader source target))
    match ct_base source, ct_base target with
    | BType ts1 _, BType ts2 _ =>
        let '(u1, g1) := decompose_type_source ts1 in
        let '(u2, g2) := decompose_type_source ts2 in
        match locate_type loader (ct_source source) u1, locate_type loader (ct_source target) u2 with
        | inr td1, inr td2 =>
            if negb (bool_decide (td1 = td2)) then m_ret false
            else if negb (length g1 =? length g2)%nat then m_ret false
            else let+ d := m_pure (definition loader td1) in arguments_compatible (generic_parameters d) g1 g2
        | _, _ => m_ret false
        end
    | _, _ => m_ret false
    end.

(** The interfaces of one type: whether one of them will do, and else the types to look at
    and those seen. *)
Fixpoint scan_interfaces (c : ConcreteType) (td : TypeDescription) (target : ConcreteType) (srcs : list (TypeSource MemberType))
    (queue seen : list ConcreteType) : M (option (list ConcreteType * list ConcreteType)) :=
  match srcs with
  | [] => m_ret (Some (queue, seen))
  | src :: srcs =>
      match concrete_of c td src with
      | None => scan_interfaces c td target srcs queue seen
      | Some itf =>
          let+ b := compatible_with_variance itf target in
          if b then m_ret None
          else if existsb (ct_eqb itf) seen then scan_interfaces c td target srcs queue seen
          else scan_interfaces c td target srcs (queue ++ [itf]) (itf :: seen)
      end
  end.

Fixpoint implements_loop (fuel : nat) (queue seen : list ConcreteType) (target : ConcreteType) : M bool :=
  match fuel with
  | O => m_fuel None
  | S fuel =>
      match queue with
      | [] => m_ret false
      | curr :: queue =>
          let+ x := m_pure (find_definition curr) in
          match x with
          | None => implements_loop fuel queue seen target
          | Some (td, d) =>
              let+ r := scan_interfaces curr td target (implements d) queue seen in
              match r with
              | None => m_ret true
              | Some (queue, seen) =>
                  match base_in curr (td, d) with
                  | Some base =>
                      if existsb (ct_eqb base) seen then implements_loop fuel queue seen target
                      else implements_loop fuel (queue ++ [base]) (base :: seen) target
                  | None => implements_loop fuel queue seen target
                  end
              end
          end
      end
  end.

Definition implements_interface (source target : ConcreteType) : M bool := implements_loop fuel [source] [source] target.

Definition is_assignable_to_impl (source target : ConcreteType) : M bool :=
  or_else (m_pure (concrete_types_equal loader source target))
    (or_else (compatible_with_variance source target)
      (if match ct_base target with BPrim Object_ => true | _ => false end then m_ret true
       else if is_system_enum target then m_fuel (is_subclass_of fuel source target)
       else if is_system_value_type target then m_fuel (is_value_type fuel source)
       else
         let+ i := m_pure (is_interface target) in
         if i then implements_interface source target
         else
           let+ k := m_fuel (is_class fuel target) in
           if k then m_fuel (is_subclass_of fuel source target) else m_ret false)).
End recursive.

Fixpoint is_assignable_to (fuel : nat) (source target : ConcreteType) : M bool := fun c =>
  match fuel with
  | O => None
  | S fuel =>
      let key := (source, target) in
      match cached (assignability_cache c) key with
      | Some b => Some (Val (b, c))
      | None =>
          if is_in (assignability_in_progress c) key then Some (Val (true, c))
          else
            match is_assignable_to_impl fuel (is_assignable_to fuel) source target (begin_check key c) with
            | Some (Val (b, c)) => Some (Val (b, end_check key b c))
            | r => r
            end
      end
  end.

(** ** Signatures with variance *)

Definition variance_assignable_method_types (fuel : nat) (source_res : nat) (source : MethodType) (source_lookup : GenericLookup)
    (target_res : nat) (target : MethodType) (target_lookup : GenericLookup) : M bool :=
  match make_concrete source_lookup source_res source, make_concrete target_lookup target_res target with
  | inr s, inr t => is_assignable_to fuel s t
  | _, _ => m_ret false
  end.

Definition plain_type {A : Set} (p : ParameterType A) : option A :=
  match p with PValue t | PRef t => Some t | PTypedReference => None end.

(** [signatures_match] in the mode [Variant]: [a] is the target, [b] the candidate. *)
Definition signatures_compatible_with_variance (fuel : nat) (res1 : nat) (a : MethodSignature MethodType)
    (generics1 : option GenericLookup) (res2 : nat) (b : MethodSignature MethodType) (generics2 : option GenericLookup) : M bool :=
  let lookup1 := default (default_lookup finish) generics1 in
  let lookup2 := default (default_lookup finish) generics2 in
  if negb (bool_decide (instance a = instance b)) then m_ret false
  else if negb (length (parameters a) =? length (parameters b))%nat then m_ret false
  else
    and_then
      match ret_type (return_type a), ret_type (return_type b) with
      | None, None => m_ret true
      | Some l, Some r =>
          match plain_type l, plain_type r with
          | Some lt, Some rt => variance_assignable_method_types fuel res2 rt lookup2 res1 lt lookup1
          | _, _ => m_ret false
          end
      | _, _ => m_ret false
      end
      ((fix go (l1 l2 : list (SigParameter MethodType)) : M bool :=
          match l1, l2 with
          | p :: l1, q :: l2 =>
              and_then
                match param_type p, param_type q with
                | PValue lt, PValue rt => variance_assignable_method_types fuel res1 lt lookup1 res2 rt lookup2
                | lt, rt => m_pure (param_types_equal loader res1 lt generics1 res2 rt generics2)
                end
                (go l1 l2)
          | _, _ => m_ret true
          end) (parameters a) (parameters b)).
End assignability.
