(* ===== verification/Subtyping.v ===== *)
(** * What assignability decides

    Theorems about [Assignability]: the walks over base classes and interfaces are exact
    and end on finite hierarchies, the answers of a comparer are stable, and a cached
    answer can depend on the order of the questions. *)

From Stdlib Require Import ZArith Lia.
From stdpp Require Import base tactics list option strings sets relations.
From S2P Require Import Prelude ManagedPtr Ops Generics Comparer Assignability.

Section subtyping.
Context (loader : TypeResolver) (finish : list Z -> Z) (addr : ConcreteType -> nat -> Z).

(** The loader resolves types to definitions, and equal types to the same one. *)
Hypothesis Hl : resolves loader.
Hypothesis Hfind : forall c td, sourced c = true -> find_concrete_type loader c = inr td -> td_is_null td = false.
Hypothesis Hproper : forall c d, ct_eqb c d = true -> find_concrete_type loader c = find_concrete_type loader d.

Abbreviation base_class := (base_class loader finish).
Abbreviation is_subclass_of := (is_subclass_of loader finish).
Abbreviation concrete_of := (concrete_of finish).

(** ** Definitions of equal types *)

Lemma find_definition_total c : sourced c = true -> exists x, find_definition loader c = Val x.
Proof.
  intros Hs. unfold find_definition. destruct (find_concrete_type loader c) as [e|td] eqn:H; [eauto|].
  unfold definition. rewrite (Hfind _ _ Hs H). simpl. eauto.
Qed.

Lemma find_definition_strip c d : strip c = strip d -> find_definition loader c = find_definition loader d.
Proof. intros H%ct_eqb_strip. unfold find_definition. by rewrite (Hproper _ _ H). Qed.

Lemma own_lookup_strip c d : strip c = strip d ->
  map strip (type_generics (own_lookup finish c)) = map strip (type_generics (own_lookup finish d)).
Proof.
  intros H. assert (Heq : ct_eqb c d = true) by by apply ct_eqb_strip.
  assert (Heq' : ct_eqb d c = true) by by apply ct_eqb_strip. simpl.
  destruct (type_parameters c) as [ps|] eqn:Hc.
  - destruct (equal_parameters _ _ _ Heq Hc) as (qs & -> & Hs). done.
  - destruct (type_parameters d) as [qs|] eqn:Hd; [|done]. destruct (equal_parameters _ _ _ Heq' Hd) as (ps & Hp & _). congruence.
Qed.

Lemma concrete_of_strip c d td src : strip c = strip d -> strip <$> concrete_of c td src = strip <$> concrete_of d td src.
Proof.
  intros H. unfold Assignability.concrete_of.
  pose proof (make_concrete_strip _ _ (own_lookup_strip _ _ H) eq_refl (resolution td) (member_to_method_type src)) as Hm.
  destruct (make_concrete (own_lookup finish c) _ _), (make_concrete (own_lookup finish d) _ _); simpl in *; congruence.
Qed.

Lemma base_in_strip c d x : strip c = strip d -> strip <$> base_in finish c x = strip <$> base_in finish d x.
Proof. intros H. unfold base_in. destruct (extends x.2); [by apply concrete_of_strip | done]. Qed.

Lemma erase_strip_eq c d : strip c = strip d -> erase loader c = erase loader d.
Proof. intros H. by rewrite <- (erase_strip loader c), H, erase_strip. Qed.

Lemma find_definition_scope c td d : sourced c = true -> find_definition loader c = Val (Some (td, d)) -> resolution td <> 0%nat.
Proof.
  unfold find_definition. intros Hs. destruct (find_concrete_type loader c) as [e|td'] eqn:H; [done|].
  pose proof (Hfind _ _ Hs H) as Hn. unfold definition. rewrite Hn. intros [= <- _]. by apply Nat.eqb_neq in Hn.
Qed.

Lemma concrete_of_sourced c td src t : sourced c = true -> resolution td <> 0%nat -> concrete_of c td src = Some t -> sourced t = true.
Proof.
  intros Hc Hr. unfold Assignability.concrete_of. destruct (make_concrete _ _ _) eqn:E; [done|]. intros [= <-].
  apply (make_concrete_sourced (own_lookup finish c) (resolution td) (member_to_method_type src)); [done | | constructor | done]. simpl.
  destruct (type_parameters c) eqn:Hp; [by eapply sourced_parameters | constructor].
Qed.

(** ** Base classes *)

Definition base_of (c : ConcreteType) : option ConcreteType := match base_class c with Val o => o | _ => None end.

Lemma base_class_val c : sourced c = true -> base_class c = Val (base_of c).
Proof. intros Hs. unfold base_of, Assignability.base_class. by destruct (find_definition_total c Hs) as [x ->]. Qed.

Lemma base_of_sourced c b : sourced c = true -> base_of c = Some b -> sourced b = true.
Proof.
  intros Hs. unfold base_of, Assignability.base_class. destruct (find_definition loader c) as [[[td d]|]| |] eqn:E; try done.
  simpl. unfold base_in. simpl. destruct (extends d); [|done]. apply concrete_of_sourced; [done|]. by eapply find_definition_scope.
Qed.

Lemma base_of_strip c d : strip c = strip d -> strip <$> base_of c = strip <$> base_of d.
Proof.
  intros H. unfold base_of, Assignability.base_class. rewrite (find_definition_strip _ _ H).
  destruct (find_definition loader d) as [[x|]| |]; try done. simpl. by apply base_in_strip.
Qed.

(** The [n]-th base class. *)
Fixpoint ancestor (c : ConcreteType) (n : nat) : option ConcreteType :=
  match n with O => Some c | S n => match ancestor c n with Some a => base_of a | None => None end end.

Lemma ancestor_strip c i j m : strip <$> ancestor c i = strip <$> ancestor c j ->
  strip <$> ancestor c (i + m) = strip <$> ancestor c (j + m).
Proof.
  intros H. induction m as [|m IH]; [by rewrite !Nat.add_0_r|]. rewrite !Nat.add_succ_r. simpl.
  destruct (ancestor c (i + m)), (ancestor c (j + m)); simplify_eq/=; [by apply base_of_strip | done].
Qed.

(** A chain that comes back to where it was has shown all its types. *)
Lemma ancestor_cycle c i k j a : (k < i)%nat -> strip <$> ancestor c i = strip <$> ancestor c k -> (0 < j)%nat ->
  ancestor c j = Some a -> exists j' a', (0 < j' <= i)%nat /\ ancestor c j' = Some a' /\ strip a' = strip a.
Proof.
  intros Hk Hc. revert a. induction j as [j IH] using lt_wf_ind. intros a Hj Ha.
  destruct (decide (j <= i)%nat); [exists j, a; done|].
  pose proof (ancestor_strip c i k (j - i) Hc) as H. replace (i + (j - i))%nat with j in H by lia. rewrite Ha in H.
  destruct (ancestor c (k + (j - i))) as [a'|] eqn:Ha'; simplify_eq/=.
  destruct (IH (k + (j - i))%nat) with (a := a') as (j2 & a2 & Hj2 & Ha2 & Hs2); [lia | lia | done|].
  exists j2, a2. split; [done|]. split; [done|]. congruence.
Qed.

Lemma existsb_strip x l : existsb (ct_eqb x) l = true <-> exists y, y ∈ l /\ strip x = strip y.
Proof.
  rewrite existsb_exists. setoid_rewrite ct_eqb_strip. setoid_rewrite list_elem_of_In. done.
Qed.

Lemma ancestor_sourced c n a : sourced c = true -> ancestor c n = Some a -> sourced a = true.
Proof.
  intros Hs. revert a. induction n as [|n IH]; simpl; intros a; [congruence|].
  destruct (ancestor c n) as [b|]; [|done]. apply base_of_sourced. by apply IH.
Qed.

Section subclass.
Context (source target : ConcreteType).
Hypothesis Hsource : sourced source = true.
Hypothesis Htarget : sourced target = true.

Definition has_base : Prop := exists n a, ancestor source (S n) = Some a /\ erase loader a = erase loader target.

Lemma subclass_loop_exact fuel i seen curr r :
  ancestor source i = Some curr -> (forall x, x ∈ seen <-> exists k, (k < i)%nat /\ ancestor source k = Some x) ->
  (forall j a, (0 < j <= i)%nat -> ancestor source j = Some a -> erase loader a <> erase loader target) ->
  subclass_loop loader finish fuel seen curr target = Some r -> exists b, r = Val b /\ (b = true <-> has_base).
Proof.
  revert i seen curr. induction fuel as [|fuel IH]; intros i seen curr Hi Hseen Hno; [done|]. cbn [subclass_loop].
  destruct (existsb (ct_eqb curr) seen) eqn:Hin.
  { intros [= <-]. exists false. split; [done|]. split; [done|]. intros (n & a & Ha & He). exfalso.
    apply existsb_strip in Hin as (y & (k & Hk & Hy)%Hseen & Hs).
    destruct (ancestor_cycle source i k (S n) a Hk) as (j & a' & Hj & Ha' & Hs'); [by rewrite Hi, Hy; simpl; f_equal | lia | done|].
    eapply Hno; [exact Hj | exact Ha'|]. rewrite <- He. by apply erase_strip_eq. }
  pose proof (ancestor_sourced _ _ _ Hsource Hi) as Hcs. rewrite base_class_val by done. destruct (base_of curr) as [base|] eqn:Hb.
  - assert (Hbi : ancestor source (S i) = Some base) by (simpl; by rewrite Hi).
    destruct (concrete_types_equal_answers loader Hl base target) as (b & -> & Hb'); [by eapply base_of_sourced | done|]. destruct b.
    + intros [= <-]. exists true. split; [done|]. split; [|done]. intros _. exists i, base. split; [done|]. by apply Hb'.
    + apply (IH (S i)); [done| |].
      * intros x. rewrite elem_of_cons, Hseen. split.
        -- intros [-> | (k & ? & ?)]; [exists i; auto | exists k; auto].
        -- intros (k & Hk & Hx). destruct (decide (k = i)) as [->|]; [left; congruence | right; exists k; split; [lia|done]].
      * intros j a Hj Ha. destruct (decide (j = S i)) as [->|]; [|apply (Hno j); [lia|done]].
        rewrite Hbi in Ha. injection Ha as <-. intros He. by apply Hb' in He.
  - intros [= <-]. exists false. split; [done|]. split; [done|]. intros (n & a & Ha & He). exfalso.
    assert (Hend : forall m, (i < m)%nat -> ancestor source m = None).
    { induction m as [|m IHm]; [lia|]. intros Hm. simpl. destruct (decide (m = i)) as [->|]; [by rewrite Hi|]. by rewrite IHm by lia. }
    destruct (decide (S n <= i)%nat); [apply (Hno (S n) a); [lia | done | done]|]. rewrite Hend in Ha by lia. done.
Qed.
End subclass.

(** [is_subclass_of] answers whether one of the base classes is the target, also when the
    chain of base classes is a cycle. *)
Lemma is_subclass_of_exact fuel s t r : sourced s = true -> sourced t = true ->
  is_subclass_of fuel s t = Some r -> exists b, r = Val b /\ (b = true <-> has_base s t).
Proof.
  intros Hs Ht. apply (subclass_loop_exact s t Hs Ht fuel 0); [done| |].
  - intros x. split; [by intros ?%elem_of_nil | intros (k & ? & _); lia].
  - intros j a Hj. lia.
Qed.

(** A hierarchy is finite up to equality. *)
Definition covers (U : list ConcreteType) (P : ConcreteType -> Prop) : Prop := forall c, P c -> strip c ∈ map strip U.

Lemma covered_length U (l : list ConcreteType) :
  NoDup (map strip l) -> (forall c, c ∈ l -> strip c ∈ map strip U) -> (length l <= length U)%nat.
Proof.
  intros Hn Hin. rewrite <- (length_map strip l), <- (length_map strip U). apply submseteq_length, NoDup_submseteq; [done|].
  intros x (c & -> & Hc)%list_elem_of_fmap. by apply Hin.
Qed.

Lemma subclass_loop_total U s t fuel seen curr : sourced s = true -> sourced t = true ->
  covers U (fun c => exists n, ancestor s n = Some c) ->
  (exists n, ancestor s n = Some curr) -> (forall c, c ∈ seen -> exists n, ancestor s n = Some c) ->
  NoDup (map strip seen) -> (length U < fuel + length seen)%nat ->
  is_Some (subclass_loop loader finish fuel seen curr t).
Proof.
  intros Hs Ht HU. revert seen curr. induction fuel as [|fuel IH]; intros seen curr (n & Hn) Hseen Hnd Hf.
  { pose proof (covered_length U seen Hnd ltac:(auto)). lia. }
  cbn [subclass_loop]. destruct (existsb (ct_eqb curr) seen) eqn:Hin; [eauto|].
  pose proof (ancestor_sourced _ _ _ Hs Hn) as Hsc. rewrite base_class_val by done.
  destruct (base_of curr) as [base|] eqn:Hb; [|eauto]. destruct (concrete_types_equal_answers loader Hl base t) as ([] & -> & _); [by eapply base_of_sourced | done | eauto |].
  apply IH; [exists (S n); simpl; by rewrite Hn | | | simpl; lia].
  - intros c [->|Hc]%elem_of_cons; eauto.
  - simpl. constructor; [|done]. intros (y & Hy & Hin')%list_elem_of_fmap.
    assert (existsb (ct_eqb curr) seen = true) by (apply existsb_strip; eauto). congruence.
Qed.

(** ** Interfaces *)

(** The types a type names: its interfaces, and its base class. *)
Definition interfaces (c : ConcreteType) : list ConcreteType :=
  match find_definition loader c with Val (Some (td, d)) => omap (concrete_of c td) (implements d) | _ => [] end.

Definition parents (c : ConcreteType) : list ConcreteType := interfaces c ++ option_list (base_of c).

Lemma interfaces_strip c d : strip c = strip d -> map strip (interfaces c) = map strip (interfaces d).
Proof.
  intros H. unfold interfaces. rewrite (find_definition_strip _ _ H). destruct (find_definition loader d) as [[[td df]|]| |]; try done.
  induction (implements df) as [|src l IH]; [done|]. simpl. pose proof (concrete_of_strip c d td src H) as Hs.
  destruct (concrete_of c td src), (concrete_of d td src); simplify_eq/=; [f_equal; [congruence|done] | done].
Qed.

Lemma parents_strip c d p : strip c = strip d -> p ∈ parents c -> exists q, q ∈ parents d /\ strip q = strip p.
Proof.
  intros H. assert (Hp : map strip (parents c) = map strip (parents d)).
  { unfold parents. rewrite !map_app. f_equal; [by apply interfaces_strip|]. pose proof (base_of_strip _ _ H) as Hb.
    destruct (base_of c), (base_of d); simplify_eq/=; [by f_equal | done]. }
  intros Hin. assert (Hs : strip p ∈ map strip (parents d)) by (rewrite <- Hp; by apply list_elem_of_fmap_2).
  apply list_elem_of_fmap in Hs as (q & Hq & Hqi). eauto.
Qed.

(** [t] is among the interfaces of [s], of its base classes and of those interfaces. *)
Definition has_interface (s t : ConcreteType) : Prop :=
  exists n i, rtc (fun c p => p ∈ parents c) s n /\ i ∈ interfaces n /\ erase loader i = erase loader t.

(** Not an instance of a generic type. *)
Definition plain (t : ConcreteType) : bool := match ct_base t with BType (Generic _ _) _ => false | _ => true end.

Section plain_target.
(** A target without generic arguments leaves nothing to variance. *)
Context (assignable : ConcreteType -> ConcreteType -> M bool) (t : ConcreteType).
Hypothesis Ht : plain t = true.
Hypothesis Hts : sourced t = true.

Lemma compatible_plain i comp : sourced i = true -> exists b,
  compatible_with_variance loader assignable i t comp = Some (Val (b, comp)) /\ (b = true <-> erase loader i = erase loader t).
Proof.
  intros His. destruct (concrete_types_equal_answers loader Hl i t His Hts) as (b & Hb & He).
  unfold compatible_with_variance, or_else, m_bind, m_pure. rewrite Hb. destruct b; [by exists true|].
  exists false. split; [|done]. unfold plain in Ht. destruct (ct_base i) as [ts1 k1| | | | |] eqn:Hi; try done.
  destruct (ct_base t) as [[u|u gs] k| | | | |] eqn:Hbt; try done. cbn [decompose_type_source].
  destruct (decompose_type_source ts1) as [u1 g1] eqn:E1.
  destruct (locate_type loader (ct_source i) u1) as [|td1] eqn:L1; [done|].
  destruct (locate_type loader (ct_source t) u) as [|td2] eqn:L2; [done|].
  case_bool_decide as Htd; [|done]. cbn [negb]. destruct (Nat.eqb_spec (length g1) (@length ConcreteType [])) as [Hg|]; [|done].
  exfalso. assert (erase loader i = erase loader t) as Heq; [|apply He in Heq; done].
  clear His Hts Ht. destruct i as [si bi], t as [st bt]. simpl in *. subst bi bt td2.
  change (erase loader (CT si (BType ts1 k1)) = erase loader (CT st (BType (User u) k))).
  rewrite !erase_type, E1. destruct g1; [|done]. simpl. unfold type_key. by rewrite L1, L2.
Qed.

Lemma scan_interfaces_exact c td srcs queue seen comp : sourced c = true -> resolution td <> 0%nat -> exists r,
  scan_interfaces loader finish assignable c td t srcs queue seen comp = Some (Val (r, comp)) /\
  let its := omap (concrete_of c td) srcs in
  match r with
  | None => exists i, i ∈ its /\ erase loader i = erase loader t
  | Some (queue', seen') =>
      (forall i, i ∈ its -> erase loader i <> erase loader t /\ strip i ∈ map strip seen') /\
      (NoDup (map strip seen) -> NoDup (map strip seen')) /\
      exists new, queue' = queue ++ new /\ (forall x, x ∈ seen' <-> x ∈ new \/ x ∈ seen) /\ (forall x, x ∈ new -> x ∈ its) /\
        length seen' = (length new + length seen)%nat
  end.
Proof.
  intros Hc Htd. revert queue seen. induction srcs as [|src srcs IH]; intros queue seen; cbn [scan_interfaces omap list_omap].
  { exists (Some (queue, seen)). split; [done|]. split; [by intros i ?%elem_of_nil|]. split; [done|]. exists [].
    rewrite app_nil_r. repeat split; set_solver. }
  destruct (concrete_of c td src) as [i|] eqn:Hi; [|apply IH].
  unfold m_bind. destruct (compatible_plain i comp) as (b & -> & Hb); [by eapply concrete_of_sourced|]. destruct b.
  { exists None. split; [done|]. exists i. split; [left|]. by apply Hb. }
  assert (Hne : erase loader i <> erase loader t) by (intros He; by apply Hb in He).
  destruct (existsb (ct_eqb i) seen) eqn:Hin.
  - destruct (IH queue seen) as (r & Hr & Hspec). exists r. split; [exact Hr|]. cbv zeta in *.
    destruct r as [[queue' seen']|]; [|destruct Hspec as (x & Hx & He); exists x; split; [by right | done]].
    destruct Hspec as (H1 & H2 & new & -> & H3 & H4 & H5). split.
    + intros x [->|Hx]%elem_of_cons; [|by apply H1]. split; [done|]. apply existsb_strip in Hin as (y & Hy & Hs).
      rewrite Hs. apply list_elem_of_fmap_2, H3. by right.
    + split; [done|]. exists new. repeat split; try done; try apply H3. intros x Hx. right. by apply H4.
  - destruct (IH (queue ++ [i]) (i :: seen)) as (r & Hr & Hspec). exists r. split; [exact Hr|]. cbv zeta in *.
    destruct r as [[queue' seen']|]; [|destruct Hspec as (x & Hx & He); exists x; split; [by right | done]].
    destruct Hspec as (H1 & H2 & new & -> & H3 & H4 & H5). split; [|split].
    + intros x [->|Hx]%elem_of_cons; [|by apply H1]. split; [done|]. apply list_elem_of_fmap_2, H3. right. left.
    + intros Hnd. apply H2. simpl. constructor; [|done]. intros (y & Hy & Hyi)%list_elem_of_fmap.
      assert (existsb (ct_eqb i) seen = true) by (apply existsb_strip; eauto). congruence.
    + exists (i :: new). rewrite <- app_assoc. split; [done|]. split; [intros x; rewrite H3, !elem_of_cons; tauto|].
      split; [intros x [->|Hx]%elem_of_cons; [left | right; by apply H4] | simpl in *; lia].
Qed.

(** ** The search over interfaces *)

Context (source : ConcreteType).
Hypothesis Hsource : sourced source = true.

Abbreviation reached := (rtc (fun c p => p ∈ parents c) source).

Lemma parents_sourced c p : sourced c = true -> p ∈ parents c -> sourced p = true.
Proof.
  intros Hc [Hp|Hp]%elem_of_app.
  - unfold interfaces in Hp. destruct (find_definition loader c) as [[[td d]|]| |] eqn:E; try (by apply elem_of_nil in Hp).
    apply list_elem_of_omap in Hp as (src & _ & Hs). eapply concrete_of_sourced; [exact Hc | by eapply find_definition_scope | exact Hs].
  - destruct (base_of c) eqn:Hb; [|by apply elem_of_nil in Hp]. apply list_elem_of_singleton in Hp as ->. by eapply base_of_sourced.
Qed.

Lemma reached_sourced c : reached c -> sourced c = true.
Proof.
  intros H. refine (rtc_ind_r (fun c => sourced c = true) source Hsource _ c H). intros y z _ Hz Hy. by eapply parents_sourced.
Qed.

(** A type that needs no further look. *)
Definition settled (seen : list ConcreteType) (x : ConcreteType) : Prop :=
  (forall i, i ∈ interfaces x -> erase loader i <> erase loader t) /\ (forall p, p ∈ parents x -> strip p ∈ map strip seen).

Record search_ok (queue seen : list ConcreteType) : Prop := {
  so_source : source ∈ seen;
  so_queue x : x ∈ queue -> x ∈ seen;
  so_seen x : x ∈ seen -> reached x /\ (x ∈ queue \/ settled seen x);
  so_nodup : NoDup (map strip seen);
}.

Lemma settled_mono seen seen' x : (forall y, y ∈ seen -> y ∈ seen') -> settled seen x -> settled seen' x.
Proof.
  intros H [H1 H2]. split; [done|]. intros p (y & Hs & Hy)%H2%list_elem_of_fmap. rewrite Hs. apply list_elem_of_fmap_2. auto.
Qed.

Lemma search_done seen : search_ok [] seen -> ~ has_interface source t.
Proof.
  intros [H1 _ H3 _] (n & i & Hn & Hi & He).
  assert (exists x, x ∈ seen /\ strip x = strip n) as (x & Hx & Hs).
  { refine (rtc_ind_r (fun c => exists x, x ∈ seen /\ strip x = strip c) source _ _ n Hn); [eauto|].
    clear n i Hn Hi He. intros y n _ Hn (x & Hx & Hs). destruct (H3 x Hx) as [_ [?%elem_of_nil|[_ Hset]]]; [done|].
    destruct (parents_strip _ _ _ (eq_sym Hs) Hn) as (q & Hq & Hqs).
    apply Hset, list_elem_of_fmap in Hq as (z & Hz & Hzi). exists z. split; [done|]. congruence. }
  destruct (H3 x Hx) as [_ [?%elem_of_nil|[Hset _]]]; [done|].
  assert (strip i ∈ map strip (interfaces x)) as (j & Hj & Hji)%list_elem_of_fmap.
  { rewrite (interfaces_strip _ _ Hs). by apply list_elem_of_fmap_2. }
  apply (Hset j Hji). rewrite <- He. by apply erase_strip_eq.
Qed.

Lemma pop_unknown curr queue seen : find_definition loader curr = Val None ->
  search_ok (curr :: queue) seen -> search_ok queue seen.
Proof.
  intros Hd [H1 H2 H3 H4]. split; [done | intros x Hx; apply H2; by right | | done].
  intros x Hx. destruct (H3 x Hx) as [Hr [[->|Hq]%elem_of_cons|Hs]]; [|by split; [|left]|by split; [|right]].
  split; [done|]. right. unfold settled, parents, interfaces, base_of, Assignability.base_class. rewrite Hd. simpl.
  split; intros y Hy; by apply elem_of_nil in Hy.
Qed.

(** One type is looked at: its interfaces are not the target, and [seen'] has its parents. *)
Lemma pop_known curr queue seen new seen' :
  search_ok (curr :: queue) seen ->
  (forall i, i ∈ interfaces curr -> erase loader i <> erase loader t) ->
  (forall p, p ∈ parents curr -> strip p ∈ map strip seen') ->
  (forall x, x ∈ seen' <-> x ∈ new \/ x ∈ seen) -> (forall x, x ∈ new -> x ∈ parents curr) -> NoDup (map strip seen') ->
  search_ok (queue ++ new) seen'.
Proof.
  intros [H1 H2 H3 H4] Hi Hp Hs Hn Hnd.
  assert (Hm : forall y, y ∈ seen -> y ∈ seen') by (intros y Hy; apply Hs; by right).
  split; [by apply Hm | intros x [Hx|Hx]%elem_of_app; [apply Hm, H2; by right | apply Hs; by left] | | done].
  intros x [Hx|Hx]%Hs.
  - split; [|left; set_solver]. eapply rtc_r; [|by apply Hn]. apply (H3 curr), H2. left.
  - destruct (H3 x Hx) as [Hr [[->|Hq]%elem_of_cons|Hset]]; (split; [done|]); [by right | left; set_solver | right; by eapply settled_mono].
Qed.

Lemma implements_loop_exact fuel queue seen comp : search_ok queue seen ->
  match implements_loop loader finish assignable fuel queue seen t comp with
  | None => forall U, covers U reached -> (fuel + length seen <= length U + length queue)%nat
  | Some r => exists b, r = Val (b, comp) /\ (b = true <-> has_interface source t)
  end.
Proof.
  revert queue seen. induction fuel as [|fuel IH]; intros queue seen Hok; cbn [implements_loop].
  { simpl. intros U HU. pose proof (covered_length U seen (so_nodup _ _ Hok)) as Hlen. destruct Hok as [_ _ H3 _].
    specialize (Hlen ltac:(intros c Hc; apply HU; by apply H3)). lia. }
  destruct queue as [|curr queue]; [exists false; split; [done|]; split; [done|]; intros H; by apply search_done in Hok|].
  assert (Hcs : sourced curr = true) by (apply reached_sourced; destruct Hok as [_ H2 H3 _]; apply (H3 curr), H2; left).
  unfold m_bind at 1, m_pure. destruct (find_definition_total curr Hcs) as [[[td d]|] Hd]; rewrite Hd.
  2:{ specialize (IH queue seen (pop_unknown _ _ _ Hd Hok)). destruct (implements_loop _ _ _ fuel queue seen t comp); [done|].
      intros U HU. specialize (IH U HU). simpl. lia. }
  unfold m_bind at 1. destruct (scan_interfaces_exact curr td (implements d) queue seen comp Hcs) as (r & -> & Hr); [by eapply find_definition_scope|]. cbv zeta in Hr.
  assert (Hits : interfaces curr = omap (concrete_of curr td) (implements d)) by (unfold interfaces; by rewrite Hd).
  assert (Hbase : base_of curr = base_in finish curr (td, d)) by (unfold base_of, Assignability.base_class; by rewrite Hd).
  rewrite <- Hits in Hr. destruct r as [[queue' seen']|].
  2:{ exists true. split; [done|]. split; [|done]. intros _. destruct Hr as (i & Hi & He). exists curr, i. split; [|done].
      destruct Hok as [_ H2 H3 _]. apply (H3 curr), H2. left. }
  destruct Hr as (H1 & H2 & new & -> & H3 & H4 & H5). specialize (H2 (so_nodup _ _ Hok)).
  assert (Hi : forall i, i ∈ interfaces curr -> erase loader i <> erase loader t) by (intros i ?; by apply H1).
  assert (Hgo : forall new' seen'', search_ok (queue ++ new') seen'' -> length seen'' = (length new' + length seen)%nat ->
    match implements_loop loader finish assignable fuel (queue ++ new') seen'' t comp with
    | None => forall U, covers U reached -> (S fuel + length seen <= length U + length (curr :: queue))%nat
    | Some r => exists b, r = Val (b, comp) /\ (b = true <-> has_interface source t)
    end).
  { intros new' seen'' Hs Hlen. specialize (IH _ _ Hs). destruct (implements_loop _ _ _ fuel _ seen'' t comp); [done|].
    intros U HU. specialize (IH U HU). rewrite length_app in IH. simpl. lia. }
  assert (Hold : forall p, p ∈ interfaces curr -> strip p ∈ map strip seen') by (intros p ?; by apply H1).
  rewrite <- Hbase. destruct (base_of curr) as [base|] eqn:Hb; [destruct (existsb (ct_eqb base) seen') eqn:Hin|].
  - apply Hgo; [|done]. apply (pop_known curr queue seen new seen'); try done; unfold parents; rewrite Hb.
    + intros p [Hp|Hp%list_elem_of_singleton]%elem_of_app; [by apply Hold|]. subst p.
      apply existsb_strip in Hin as (y & Hy & Hs). rewrite Hs. by apply list_elem_of_fmap_2.
    + intros x Hx. apply elem_of_app. left. by apply H4.
  - rewrite <- app_assoc. apply Hgo; [|rewrite length_app; simpl; lia].
    apply (pop_known curr queue seen (new ++ [base]) (base :: seen')); try done; unfold parents; rewrite ?Hb.
    + intros p [Hp|Hp%list_elem_of_singleton]%elem_of_app; [right; by apply Hold | subst; left].
    + intros x. rewrite elem_of_cons, elem_of_app, list_elem_of_singleton, H3. tauto.
    + intros x [Hx|Hx]%elem_of_app; apply elem_of_app; [left; by apply H4 | by right].
    + simpl. constructor; [|done]. intros (y & Hy & Hyi)%list_elem_of_fmap.
      assert (existsb (ct_eqb base) seen' = true) by (apply existsb_strip; eauto). congruence.
  - apply Hgo; [|done]. apply (pop_known curr queue seen new seen'); try done; unfold parents; rewrite Hb; simpl; rewrite app_nil_r; done.
Qed.

Lemma search_start : search_ok [source] [source].
Proof.
  split; [left | done | | repeat constructor; by intros ?%elem_of_nil].
  intros x ->%list_elem_of_singleton. split; [constructor | left; left].
Qed.

Lemma implements_interface_exact fuel comp :
  match implements_interface loader finish fuel assignable source t comp with
  | None => forall U, covers U reached -> (fuel <= length U)%nat
  | Some r => exists b, r = Val (b, comp) /\ (b = true <-> has_interface source t)
  end.
Proof.
  unfold implements_interface. pose proof (implements_loop_exact fuel [source] [source] comp search_start) as H.
  destruct (implements_loop _ _ _ fuel [source] [source] t comp); [done|].
  intros U HU. specialize (H U HU). simpl in H. lia.
Qed.
End plain_target.

(** ** Assignability to a type without generic arguments *)

Lemma ancestors_reached s n c : ancestor s n = Some c -> rtc (fun c p => p ∈ parents c) s c.
Proof.
  revert c. induction n as [|n IH]; simpl; intros c H; [injection H as ->; constructor|].
  destruct (ancestor s n) as [a|] eqn:Ha; [|done]. eapply rtc_r; [by apply IH|]. unfold parents. rewrite H. apply elem_of_app. right. left.
Qed.

Lemma is_subclass_of_total U fuel s t : sourced s = true -> sourced t = true -> covers U (rtc (fun c p => p ∈ parents c) s) -> (length U < fuel)%nat ->
  exists b, is_subclass_of fuel s t = Some (Val b) /\ (b = true <-> has_base s t).
Proof.
  intros Hs Ht HU Hf. destruct (subclass_loop_total U s t fuel [] s Hs Ht) as [r Hr].
  - intros c (n & Hn). apply HU. by eapply ancestors_reached.
  - by exists 0%nat.
  - by intros c ?%elem_of_nil.
  - constructor.
  - simpl. lia.
  - destruct (is_subclass_of_exact _ _ _ _ Hs Ht Hr) as (b & -> & Hb). eauto.
Qed.

Definition is_object (t : ConcreteType) : bool := match ct_base t with BPrim Object_ => true | _ => false end.

(** What makes a type assignable to another one: everything is an object; [System.Enum] is a
    base class; a value type is a [System.ValueType]; an interface is among those the type
    has, and a class among its base classes. *)
Definition above (fuel : nat) (s t : ConcreteType) : Prop :=
  if is_object t then True
  else if is_system_enum loader t then has_base s t
  else if is_system_value_type loader t then is_value_type loader finish addr fuel s = Some (Val true)
  else match is_interface loader t with
       | Val true => has_interface s t
       | _ => is_class loader finish addr fuel t = Some (Val true) /\ has_base s t
       end.

(** The walks that tell value types from classes end where they are needed; they stop by the
    addresses of the types they hold, and not by the types. *)
Definition kinds_known (fuel : nat) (s t : ConcreteType) : Prop :=
  is_Some (is_value_type loader finish addr fuel s) /\ is_Some (is_value_type loader finish addr fuel t).

Lemma value_type_loop_val fuel self : forall n seen c r, sourced c = true ->
  value_type_loop loader finish addr fuel self n seen c = Some r -> exists b, r = Val b.
Proof.
  induction fuel as [|fuel IH]; intros n seen c r Hs; [done|]. cbn [value_type_loop]. case_bool_decide; [intros [= <-]; eauto|].
  destruct (find_definition_total c Hs) as [[x|] Hx]; rewrite Hx; [|intros [= <-]; eauto].
  destruct (named x.2 "ValueType"); [intros [= <-]; eauto|]. destruct (base_in finish c x) as [b|] eqn:Hb; [|intros [= <-]; eauto].
  apply IH. apply (base_of_sourced c); [done|]. unfold base_of, Assignability.base_class. by rewrite Hx.
Qed.

Lemma is_value_type_val fuel c : sourced c = true -> is_Some (is_value_type loader finish addr fuel c) ->
  exists b, is_value_type loader finish addr fuel c = Some (Val b).
Proof.
  intros Hs [r Hr]. rewrite Hr. enough (exists b, r = Val b) as [b ->] by eauto. unfold is_value_type in Hr.
  destruct (ct_base c) as [src [[]|]|[]| | | |]; try (injection Hr as <-; eauto); by eapply value_type_loop_val.
Qed.

Lemma is_class_val fuel c : sourced c = true -> is_Some (is_value_type loader finish addr fuel c) ->
  exists b, is_class loader finish addr fuel c = Some (Val b).
Proof.
  intros Hs Hr. unfold is_class. destruct (is_value_type_val fuel c Hs Hr) as [[] ->]; eauto.
Qed.

(** C32. Whether a type is assignable to a type that is not a generic instance is decided
    exactly: it is, if the two are equal as [erase] has it, or the target is the object
    type, or it is [System.ValueType] and the source a value type, or it is an interface
    among those the source, its base classes and their interfaces name, or else a class
    among the source's base classes.  On a hierarchy that is finite up to equality, cyclic
    or not, fuel for one more step than it has types is enough, where the walks that tell
    value types from classes end.  The comparer may be any that has not been asked this
    question. *)
Theorem assignable_exact fuel s t U c : sourced s = true -> sourced t = true -> plain t = true -> kinds_known fuel s t ->
  covers U (rtc (fun c p => p ∈ parents c) s) -> (length U < fuel)%nat ->
  cached (assignability_cache c) (s, t) = None -> is_in (assignability_in_progress c) (s, t) = false ->
  exists b c', is_assignable_to loader finish addr (S fuel) s t c = Some (Val (b, c')) /\
    (b = true <-> erase loader s = erase loader t \/ above fuel s t).
Proof.
  intros Hss Hts Ht [Hvs Hvt] HU Hf Hcache Hprog. cbn [is_assignable_to]. rewrite Hcache, Hprog.
  set (c0 := begin_check (s, t) c). set (rec := is_assignable_to loader finish addr fuel).
  assert (exists b, is_assignable_to_impl loader finish addr fuel rec s t c0 = Some (Val (b, c0)) /\
    (b = true <-> erase loader s = erase loader t \/ above fuel s t)) as (b & -> & Hb); [|eauto].
  unfold is_assignable_to_impl, or_else. unfold m_bind at 1, m_pure at 1.
  destruct (concrete_types_equal_answers loader Hl s t Hss Hts) as (e & -> & He). destruct e; [exists true; naive_solver|].
  unfold m_bind at 1. destruct (compatible_plain rec t Ht Hts s c0 Hss) as (e & -> & He'). destruct e; [exists true; naive_solver|].
  assert (Hne : erase loader s <> erase loader t) by (intros H; by apply He in H).
  change (match ct_base t with BPrim Object_ => true | _ => false end) with (is_object t). unfold above.
  destruct (is_object t); [exists true; naive_solver|].
  assert (Hsub : exists b, m_fuel (is_subclass_of fuel s t) c0 = Some (Val (b, c0)) /\ (b = true <-> has_base s t)).
  { destruct (is_subclass_of_total U fuel s t Hss Hts HU Hf) as (b & -> & Hb). by exists b. }
  destruct (is_system_enum loader t); [destruct Hsub as (b & -> & Hb); exists b; naive_solver|].
  destruct (is_system_value_type loader t).
  { destruct (is_value_type_val fuel s Hss Hvs) as [b Hb]. rewrite Hb. exists b. split; [done|]. destruct b; naive_solver. }
  unfold m_bind at 1, m_pure at 1. destruct (find_definition_total t Hts) as [x Hx]. unfold is_interface. rewrite Hx. cbn [obind].
  destruct (match x with Some (_, d) => interface d | None => false end).
  - pose proof (implements_interface_exact rec t Ht Hts s Hss fuel c0) as H. destruct (implements_interface _ _ _ _ s t c0) as [r|].
    + destruct H as (b & -> & Hb). exists b. naive_solver.
    + specialize (H U HU). lia.
  - destruct (is_class_val fuel t Hts Hvt) as [b Hb]. unfold m_bind at 1, m_fuel at 1. rewrite Hb. simpl.
    destruct b; [destruct Hsub as (b & -> & Hsub); exists b; naive_solver | exists false; naive_solver].
Qed.

End subtyping.

(** ** The answers of a comparer *)

Lemma pair_eqb_strip p q : pair_eqb p q = true <-> strip p.1 = strip q.1 /\ strip p.2 = strip q.2.
Proof. unfold pair_eqb. by rewrite andb_true_iff, !ct_eqb_strip. Qed.

Lemma cached_proper l k k' : pair_eqb k k' = true -> cached l k = cached l k'.
Proof.
  intros H. induction l as [|[q b] l IH]; [done|]. simpl. rewrite IH. replace (pair_eqb k q) with (pair_eqb k' q); [done|].
  apply eq_true_iff_eq. apply pair_eqb_strip in H as [H1 H2]. rewrite !pair_eqb_strip. by rewrite H1, H2.
Qed.

(** The checks in progress are the same afterwards, and no answer is forgotten. *)
Record kept (c c' : comparer) : Prop := {
  kept_progress : assignability_in_progress c' = assignability_in_progress c;
  kept_answers k b : cached (assignability_cache c) k = Some b -> cached (assignability_cache c') k = Some b;
}.

Definition keeps {A} (x : M A) : Prop := forall c a c', x c = Some (Val (a, c')) -> kept c c'.

Lemma kept_refl c : kept c c.
Proof. by split. Qed.

Lemma kept_trans c1 c2 c3 : kept c1 c2 -> kept c2 c3 -> kept c1 c3.
Proof. intros [] []. split; [congruence | auto]. Qed.

Lemma keeps_ret {A} (a : A) : keeps (m_ret a).
Proof. intros c b c' [= <- <-]. apply kept_refl. Qed.

Lemma keeps_pure {A} (x : outcome Empty_set A) : keeps (m_pure x).
Proof. intros c b c' H. destruct x; [|done|done]. injection H as <- <-. apply kept_refl. Qed.

Lemma keeps_fuel {A} (x : option (outcome Empty_set A)) : keeps (m_fuel x).
Proof. destruct x; [apply keeps_pure | by intros ? ? ?]. Qed.

Lemma keeps_bind {A B} (x : M A) (f : A -> M B) : keeps x -> (forall a, keeps (f a)) -> keeps (m_bind x f).
Proof.
  intros Hx Hf c b c'. unfold m_bind. destruct (x c) as [[[a c1]| |]|] eqn:E; try done. intros H.
  eapply kept_trans; [by eapply Hx | by eapply Hf].
Qed.

Create HintDb keeps.
#[export] Hint Resolve keeps_ret keeps_pure keeps_fuel keeps_bind : keeps.
#[export] Hint Extern 4 (keeps (or_else _ _)) => unfold or_else : keeps.
#[export] Hint Extern 4 (keeps (and_then _ _)) => unfold and_then : keeps.

(** Case analysis, then the rules above. *)
Ltac keeps_tac := repeat first [ progress eauto 2 with keeps | apply keeps_bind; [|intros] | case_match | unfold or_else, and_then ].

Section keeps.
Context (loader : TypeResolver) (finish : list Z -> Z) (addr : ConcreteType -> nat -> Z).
Context (fuel : nat) (assignable : ConcreteType -> ConcreteType -> M bool).
Hypothesis Ha : forall s t, keeps (assignable s t).
#[local] Hint Resolve Ha : keeps.

Lemma keeps_arguments ps l1 l2 : keeps (arguments_compatible loader assignable ps l1 l2).
Proof. revert ps l2. induction l1 as [|g1 l1 IH]; intros ps [|g2 l2]; simpl; keeps_tac. Qed.
#[local] Hint Resolve keeps_arguments : keeps.

Lemma keeps_compatible s t : keeps (compatible_with_variance loader assignable s t).
Proof. unfold compatible_with_variance. keeps_tac. Qed.
#[local] Hint Resolve keeps_compatible : keeps.

Lemma keeps_scan c td t srcs queue seen : keeps (scan_interfaces loader finish assignable c td t srcs queue seen).
Proof. revert queue seen. induction srcs as [|src srcs IH]; intros queue seen; simpl; keeps_tac. Qed.
#[local] Hint Resolve keeps_scan : keeps.

Lemma keeps_implements n queue seen t : keeps (implements_loop loader finish assignable n queue seen t).
Proof. revert queue seen. induction n as [|n IH]; intros queue seen; simpl; [apply keeps_fuel|]. keeps_tac. Qed.
#[local] Hint Resolve keeps_implements : keeps.

Lemma keeps_impl s t : keeps (is_assignable_to_impl loader finish addr fuel assignable s t).
Proof. unfold is_assignable_to_impl, implements_interface. keeps_tac. Qed.
End keeps.

Section answers_of.
Context (loader : TypeResolver) (finish : list Z -> Z) (addr : ConcreteType -> nat -> Z).
Abbreviation is_assignable_to := (is_assignable_to loader finish addr).

Lemma keeps_assignable fuel s t : keeps (is_assignable_to fuel s t).
Proof.
  revert s t. induction fuel as [|fuel IH]; intros s t c b c'; [done|]. cbn [Assignability.is_assignable_to].
  destruct (cached _ (s, t)) eqn:Hc; [intros [= <- <-]; apply kept_refl|].
  destruct (is_in _ (s, t)) eqn:Hi; [intros [= <- <-]; apply kept_refl|].
  destruct (is_assignable_to_impl _ _ _ _ _ s t _) as [[[b1 c1]| |]|] eqn:E; try done. intros [= <- <-].
  apply (keeps_impl loader finish addr fuel _ IH) in E as [Hp Hk]. simpl in *. split.
  - cbn [end_check assignability_in_progress]. rewrite Hp, filter_cons, decide_False by (by rewrite (proj2 (pair_eqb_strip (s, t) (s, t)))).
    unfold is_in in Hi. clear -Hi. induction (assignability_in_progress c) as [|q l IHl]; [done|]. simpl in Hi.
    apply orb_false_iff in Hi as [Hq Hl]. rewrite filter_cons, decide_True by by rewrite Hq. f_equal. by apply IHl.
  - intros k v Hv. simpl. destruct (pair_eqb k (s, t)) eqn:Hks; [|by apply Hk].
    rewrite (cached_proper _ _ _ Hks) in Hv. congruence.
Qed.

(** A sequence of further questions. *)
Inductive asked : comparer -> comparer -> Prop :=
| asked_none c : asked c c
| asked_more fuel s t c b c1 c2 : is_assignable_to fuel s t c = Some (Val (b, c1)) -> asked c1 c2 -> asked c c2.

Lemma asked_kept c c' : asked c c' -> kept c c'.
Proof. induction 1 as [c|fuel s t c b c1 c2 H _ IH]; [apply kept_refl|]. eapply kept_trans; [by eapply keeps_assignable | done]. Qed.

Lemma answer_cached fuel s t c b c' :
  assignability_in_progress c = [] -> is_assignable_to fuel s t c = Some (Val (b, c')) ->
  cached (assignability_cache c') (s, t) = Some b.
Proof.
  intros Hp. destruct fuel as [|fuel]; [done|]. cbn [Assignability.is_assignable_to].
  destruct (cached _ (s, t)) eqn:Hc; [intros [= <- <-]; done|]. rewrite Hp. cbn [is_in existsb].
  destruct (is_assignable_to_impl _ _ _ _ _ s t _) as [[[b1 c1]| |]|]; try done. intros [= <- <-]. simpl.
  by rewrite (proj2 (pair_eqb_strip _ _)).
Qed.

(** A comparer never changes an answer: once a question has been answered, it gets the
    same answer whatever was asked in between. *)
Theorem answers_are_stable fuel s t c b c1 c2 fuel' :
  assignability_in_progress c = [] -> is_assignable_to fuel s t c = Some (Val (b, c1)) -> asked c1 c2 ->
  is_assignable_to (S fuel') s t c2 = Some (Val (b, c2)).
Proof.
  intros Hp Ha Hq. pose proof (answer_cached _ _ _ _ _ _ Hp Ha) as Hc. apply asked_kept in Hq as [_ Hk].
  cbn [Assignability.is_assignable_to]. by rewrite (Hk _ _ Hc).
Qed.
End answers_of.

(** ** A hierarchy

    [interface IPair<out A, out B>], [interface ISink<in T>], [interface ISource<out T>],
    [class X : ISink<ISource<IPair<ISink<Z>, Y2>>>], [class Z : ISource<IPair<X, X2>>],
    two unrelated classes [X2] and [Y2], and [interface IMarker], [class C : IMarker],
    [class D : C]. *)
Section hierarchy.

Definition plain_definition (n : string) (vs : list Variance) (itf : bool) (impls : list (TypeSource MemberType)) : TypeDefinition :=
  {| type_def_name := n; namespace := None; extends := None; implements := impls;
     generic_parameters := map (fun v => {| variance := v; reference_type := false; value_type := false;
                                            has_default_constructor_constraint := false; type_constraints := [] |}) vs;
     interface := itf; abstract_type := itf; methods := []; properties := []; events := [];
     fields := []; overrides := []; encloser := None |}.

Definition mem_user (i : nat) : MemberType := MemberBase (BType (User (Definition_ i)) None).
Definition mem_generic (i : nat) (args : list MemberType) : MemberType := MemberBase (BType (Generic (Definition_ i) args) None).

Definition demo_definition (i : nat) : TypeDefinition :=
  match i with
  | 0 => plain_definition "IPair" [Covariant; Covariant] true []
  | 1 => plain_definition "ISink" [Contravariant] true []
  | 2 => plain_definition "ISource" [Covariant] true []
  | 3 => plain_definition "X" [] false
           [Generic (Definition_ 1) [mem_generic 2 [mem_generic 0 [mem_generic 1 [mem_user 4]; mem_user 6]]]]
  | 4 => plain_definition "Z" [] false [Generic (Definition_ 2) [mem_generic 0 [mem_user 3; mem_user 5]]]
  | 5 => plain_definition "X2" [] false []
  | 6 => plain_definition "Y2" [] false []
  | 7 => plain_definition "IMarker" [] true []
  | 8 => plain_definition "C" [] false [User (Definition_ 7)]
  | _ => plain_definition "D" [] false []
  end%nat.

Definition demo_metadata (td : TypeDescription) : TypeDefinition :=
  let d := demo_definition (index td) in
  {| type_def_name := type_def_name d; namespace := namespace d;
     extends := if (index td =? 9)%nat then Some (User (Definition_ 8)) else None; implements := implements d;
     generic_parameters := generic_parameters d; interface := interface d; abstract_type := abstract_type d;
     methods := methods d; properties := properties d; events := events d;
     fields := fields d; overrides := overrides d; encloser := encloser d |}.

Definition demo_locate (r : nat) (u : UserType) : TypeResolutionError + TypeDescription :=
  match r, u with
  | 1%nat, Definition_ i => if (i <? 10)%nat then inr {| resolution := 1; index := i |} else inl InvalidHandle
  | _, _ => inl InvalidHandle
  end.

Definition demo_loader : TypeResolver := {|
  locate_type := demo_locate;
  find_concrete_type c := match ct_base c with BType src _ => demo_locate (ct_source c) (decompose_type_source src).1 | _ => inl InvalidHandle end;
  canonical_type_name n := n;
  metadata := demo_metadata;
  nested_type_name td := type_def_name (demo_definition (index td));
  user_type_name u _ := match u with Definition_ i => type_def_name (demo_definition i) | Reference_ _ => ""%string end;
|}.

Definition user (i : nat) : ConcreteType := CT 1 (BType (User (Definition_ i)) None).
Definition inst (i : nat) (args : list ConcreteType) : ConcreteType := CT 1 (BType (Generic (Definition_ i) args) None).

Definition pair_x : ConcreteType := inst 0 [user 3; user 5].
Definition pair_y : ConcreteType := inst 0 [inst 1 [user 4]; user 6].
Definition sink_z : ConcreteType := inst 1 [user 4].

Definition no_hash (l : list Z) : Z := 0.
Definition distinct (c : ConcreteType) (n : nat) : Z := Z.of_nat n.
Abbreviation ask := (is_assignable_to demo_loader no_hash distinct 20).

Definition answer (r : option (outcome Empty_set (bool * comparer))) : option bool :=
  match r with Some (Val (b, _)) => Some b | _ => None end.
Definition comparer_after (r : option (outcome Empty_set (bool * comparer))) : comparer :=
  match r with Some (Val (_, c)) => c | _ => new_comparer end.

Lemma demo_resolves : resolves demo_loader.
Proof. intros [|[|r]] [i|i] td Hr H; simpl in H; try done. by destruct (i <? 10)%nat; simplify_eq/=. Qed.

Lemma demo_finds c td : sourced c = true -> find_concrete_type demo_loader c = inr td -> td_is_null td = false.
Proof.
  intros Hs. simpl. destruct c as [s [src k| | | | |]]; try done. apply demo_resolves. by apply sourced_spec in Hs as [? _].
Qed.

Lemma demo_proper c d : ct_eqb c d = true -> find_concrete_type demo_loader c = find_concrete_type demo_loader d.
Proof.
  intros H%ct_eqb_strip. destruct c as [s [[u|u l] k| | | | |]], d as [r [[v|v l'] k'| | | | |]]; simpl in *; congruence.
Qed.

Lemma demo_covers : covers [user 9; user 8; user 7] (rtc (fun c p => p ∈ parents demo_loader no_hash c) (user 9)).
Proof.
  intros c Hc. assert (Hin : c ∈ [user 9; user 8; user 7]); [|by apply list_elem_of_fmap_2].
  refine (rtc_ind_r (fun c => c ∈ [user 9; user 8; user 7]) (user 9) _ _ c Hc); [left|].
  intros y z _ Hz Hy. repeat (apply elem_of_cons in Hy as [->|Hy]); [..|by apply elem_of_nil in Hy];
    vm_compute in Hz; set_solver.
Qed.

Lemma assignable_exact_witness : exists b c,
  is_assignable_to demo_loader no_hash distinct 5 (user 9) (user 7) new_comparer = Some (Val (b, c)) /\
  (b = true <-> erase demo_loader (user 9) = erase demo_loader (user 7) \/ above demo_loader no_hash distinct 4 (user 9) (user 7)).
Proof.
  apply (assignable_exact demo_loader no_hash distinct demo_resolves demo_finds demo_proper 4 (user 9) (user 7)
    [user 9; user 8; user 7]); [done | done | done | split; vm_compute; eauto | apply demo_covers | simpl; lia | done | done].
Defined.

Lemma answers_are_stable_witness :
  is_assignable_to demo_loader no_hash distinct 1 pair_x pair_y (comparer_after (ask (user 3) sink_z new_comparer)) =
    Some (Val (false, comparer_after (ask (user 3) sink_z new_comparer))).
Proof.
  apply (answers_are_stable demo_loader no_hash distinct 20 pair_x pair_y
    (comparer_after (ask (user 3) sink_z new_comparer)) false (comparer_after (ask (user 3) sink_z new_comparer))
    (comparer_after (ask (user 3) sink_z new_comparer)) 0); [by vm_compute | by vm_compute | constructor].
Defined.

(** An answer can depend on what was asked before: a check that meets itself counts as
    true, and what was concluded from that stays cached when the check turns out false.
    Here [X] is not assignable to [ISink<Z>], but it is after one has asked for
    [IPair<X, X2>] and [IPair<ISink<Z>, Y2>]. *)
Theorem answers_depend_on_order :
  answer (ask (user 3) sink_z new_comparer) = Some false /\
  answer (ask (user 3) sink_z (comparer_after (ask pair_x pair_y new_comparer))) = Some true.
Proof. split; vm_compute; reflexivity. Qed.
End hierarchy.

