(* ===== verification/Methods.v ===== *)
(** * Methods of a type

    Descriptions of methods ([dotnet-types/src/members.rs]) and the search of a type for
    a method by name and signature ([dotnet-types/src/comparer.rs]). *)

From Stdlib Require Import ZArith Lia Ascii.
From stdpp Require Import base tactics list option strings sets.
From S2P Require Import Prelude ManagedPtr Ops Generics Comparer Assignability.

(** ** Members *)

Record MethodDescription : Set := {
  parent : TypeDescription;
  parent_generics : GenericLookup;
  method_resolution : nat;
  method_member_index : MethodMemberIndex;
}.

Definition md_eqb (m n : MethodDescription) : bool :=
  bool_decide (parent m = parent n) && gl_eqb (parent_generics m) (parent_generics n) &&
  bool_decide (method_resolution m = method_resolution n) &&
  bool_decide (method_member_index m = method_member_index n).

(** The member of a definition an index names. *)
Definition member (d : TypeDefinition) (i : MethodMemberIndex) : option Method :=
  match i with
  | MethodAt i => methods d !! i
  | PropertyGetter i => p ← properties d !! i; getter p
  | PropertySetter i => p ← properties d !! i; setter p
  | PropertyOther i j => p ← properties d !! i; property_other p !! j
  | EventAdd i => add_listener <$> events d !! i
  | EventRemove i => remove_listener <$> events d !! i
  | EventRaise i => e ← events d !! i; raise_event e
  | EventOther i j => e ← events d !! i; event_other e !! j
  end.

Section members.
Context (loader : TypeResolver).

(** [MethodDescription::method]: an index out of range and a missing accessor panic. *)
Definition method (m : MethodDescription) : outcome Empty_set Method :=
  let* d := definition loader (parent m) in expect (member d (method_member_index m)).

(** [MethodDescription::index_for], and the method the index is of. *)
Definition index_for (res parent : nat) (i : MethodMemberIndex) : outcome Empty_set (nat * MethodMemberIndex) :=
  let* d := definition loader {| resolution := res; index := parent |} in
  let* _ := expect (member d i) in
  Val (parent, i).

Definition indexed (res : nat) (i : nat * MethodMemberIndex) : outcome Empty_set Method :=
  let* d := definition loader {| resolution := res; index := i.1 |} in expect (member d i.2).

Definition method_index (m : MethodDescription) : outcome Empty_set (nat * MethodMemberIndex) :=
  index_for (method_resolution m) (index (parent m)) (method_member_index m).

(** [MethodDescription::body]: whether the method has one. *)
Definition body (m : MethodDescription) : outcome Empty_set bool :=
  let* i := method_index m in
  let* x := indexed (method_resolution m) i in
  Val (has_body x).

Definition method_signature (m : MethodDescription) : outcome Empty_set (MethodSignature MethodType) :=
  let* i := method_index m in
  let* x := indexed (method_resolution m) i in
  decoded x.
End members.

(** ** The order of the search *)

Fixpoint strip_prefix (p s : string) : option string :=
  match p, s with
  | EmptyString, _ => Some s
  | String a p, String b s => if bool_decide (a = b) then strip_prefix p s else None
  | String _ _, EmptyString => None
  end.

Definition enumerate {A} (l : list A) : list (nat * A) := imap pair l.

Abbreviation candidate := (MethodMemberIndex * Method)%type.

Definition tagged (i : MethodMemberIndex) (m : option Method) : option candidate := pair i <$> m.

(** The accessors of the properties called as the rest of the name, and those of events. *)
Definition property_accessors (d : TypeDefinition) (name : string) : list candidate :=
  match strip_prefix "get_" name with
  | Some n => omap (fun '(i, p) => if bool_decide (property_name p = n) then tagged (PropertyGetter i) (getter p) else None)
                (enumerate (properties d))
  | None =>
      match strip_prefix "set_" name with
      | Some n => omap (fun '(i, p) => if bool_decide (property_name p = n) then tagged (PropertySetter i) (setter p) else None)
                    (enumerate (properties d))
      | None => []
      end
  end.

Definition event_accessors (d : TypeDefinition) (name : string) : list candidate :=
  match strip_prefix "add_" name with
  | Some n => omap (fun '(i, e) => if bool_decide (event_name e = n) then Some (EventAdd i, add_listener e) else None)
                (enumerate (events d))
  | None =>
      match strip_prefix "remove_" name with
      | Some n => omap (fun '(i, e) => if bool_decide (event_name e = n) then Some (EventRemove i, remove_listener e) else None)
                    (enumerate (events d))
      | None =>
          match strip_prefix "raise_" name with
          | Some n => omap (fun '(i, e) => if bool_decide (event_name e = n) then tagged (EventRaise i) (raise_event e) else None)
                        (enumerate (events d))
          | None => []
          end
      end
  end.

Definition opt_list {A} (o : option A) : list A := match o with Some a => [a] | None => [] end.

Definition property_methods (x : nat * Property) : list candidate :=
  map (fun '(j, m) => (PropertyOther x.1 j, m)) (enumerate (property_other x.2)) ++
  opt_list (tagged (PropertyGetter x.1) (getter x.2)) ++ opt_list (tagged (PropertySetter x.1) (setter x.2)).

Definition event_methods (x : nat * Event) : list candidate :=
  map (fun '(j, m) => (EventOther x.1 j, m)) (enumerate (event_other x.2)) ++
  [(EventAdd x.1, add_listener x.2); (EventRemove x.1, remove_listener x.2)] ++
  opt_list (tagged (EventRaise x.1) (raise_event x.2)).

Definition search_order (d : TypeDefinition) (name : string) : list candidate :=
  reverse (map (fun '(i, m) => (MethodAt i, m)) (enumerate (methods d))) ++
  property_accessors d name ++ event_accessors d name ++
  concat (map property_methods (enumerate (properties d))) ++
  concat (map event_methods (enumerate (events d))).

(** ** The search *)

Section search.
Context (loader : TypeResolver) (finish : list Z -> Z) (addr : ConcreteType -> nat -> Z).

Section check.
Context (fuel : nat) (desc : TypeDescription) (name : string) (sig : MethodSignature MethodType) (sig_res : nat)
  (sig_generics type_generics : option GenericLookup) (allow_variance : bool).

(** The macro [check!]. *)
Definition check (x : candidate) : M bool :=
  if negb (bool_decide (method_name x.2 = name)) then m_ret false
  else
    let+ i := m_pure (index_for loader (resolution desc) (index desc) x.1) in
    let+ y := m_pure (indexed loader (resolution desc) i) in
    let+ s := m_pure (decoded y) in
    if negb (length (parameters s) =? length (parameters sig))%nat then m_ret false
    else if allow_variance
    then signatures_compatible_with_variance loader finish addr fuel sig_res sig sig_generics (resolution desc) s type_generics
    else m_pure (signatures_equal loader sig_res sig sig_generics (resolution desc) s type_generics).

Definition found (i : MethodMemberIndex) : MethodDescription :=
  {| parent := desc; parent_generics := default (default_lookup finish) type_generics;
     method_resolution := resolution desc; method_member_index := i |}.

Fixpoint first_match (l : list candidate) : M (option MethodDescription) :=
  match l with
  | [] => m_ret None
  | x :: l => let+ b := check x in if b then m_ret (Some (found x.1)) else first_match l
  end.

Definition find_method_in_type_internal : M (option MethodDescription) :=
  let+ d := m_pure (definition loader desc) in first_match (search_order d name).
End check.

Definition find_method_in_type_with_substitution (fuel : nat) (desc : TypeDescription) (name : string)
    (sig : MethodSignature MethodType) (sig_res : nat) (generics : GenericLookup) (allow_variance : bool)
  : M (option MethodDescription) :=
  find_method_in_type_internal fuel desc name sig sig_res (Some generics) (Some generics) allow_variance.

Definition find_method_in_type (fuel : nat) (desc : TypeDescription) (name : string) (sig : MethodSignature MethodType)
    (sig_res : nat) : M (option MethodDescription) :=
  find_method_in_type_internal fuel desc name sig sig_res None None false.
End search.

(** ** What is searched *)

Lemma elem_of_enumerate {A} (l : list A) i x : (i, x) ∈ enumerate l <-> l !! i = Some x.
Proof.
  unfold enumerate. rewrite elem_of_lookup_imap. split; [by intros (j & y & [= -> ->] & H) | intros H; eauto].
Qed.

Lemma elem_of_opt_list {A} (o : option A) x : x ∈ opt_list o <-> o = Some x.
Proof. destruct o; simpl; set_solver. Qed.

Lemma elem_of_map_pair {A} (f : nat -> MethodMemberIndex) (l : list A) i x :
  (i, x) ∈ map (fun '(j, m) => (f j, m)) (enumerate l) <-> exists j, i = f j /\ l !! j = Some x.
Proof.
  rewrite list_elem_of_fmap. split; [intros ([j y] & [= -> ->] & H%elem_of_enumerate); eauto|].
  intros (j & -> & H). exists (j, x). by rewrite elem_of_enumerate.
Qed.

Lemma elem_of_concat_map {A B} (f : A -> list B) l y : y ∈ concat (map f l) <-> exists x, x ∈ l /\ y ∈ f x.
Proof.
  induction l as [|x l IH]; simpl; [set_solver|]. rewrite elem_of_app, IH. set_solver.
Qed.

Lemma tagged_some i o x : tagged i o = Some x <-> exists m, o = Some m /\ x = (i, m).
Proof. destruct o; simpl; naive_solver. Qed.

Lemma property_methods_spec j p i m : (i, m) ∈ property_methods (j, p) <->
  (exists k, i = PropertyOther j k /\ property_other p !! k = Some m) \/ i = PropertyGetter j /\ getter p = Some m \/
  i = PropertySetter j /\ setter p = Some m.
Proof.
  unfold property_methods. simpl. rewrite !elem_of_app, elem_of_map_pair, !elem_of_opt_list, !tagged_some. naive_solver.
Qed.

Lemma event_methods_spec j e i m : (i, m) ∈ event_methods (j, e) <->
  (exists k, i = EventOther j k /\ event_other e !! k = Some m) \/ i = EventAdd j /\ add_listener e = m \/
  i = EventRemove j /\ remove_listener e = m \/ i = EventRaise j /\ raise_event e = Some m.
Proof.
  unfold event_methods. cbn [fst snd]. rewrite elem_of_app, elem_of_map_pair, elem_of_app, elem_of_opt_list, tagged_some.
  rewrite !elem_of_cons, elem_of_nil. naive_solver.
Qed.

(** The accessors looked at first are members like the others. *)
Lemma omap_accessors {A} (f : nat * A -> option candidate) (l : list A) (d : TypeDefinition) i m :
  (forall j x, l !! j = Some x -> f (j, x) = Some (i, m) -> member d i = Some m) ->
  (i, m) ∈ omap f (enumerate l) -> member d i = Some m.
Proof. intros H ([j x] & Hx%elem_of_enumerate & Hf)%list_elem_of_omap. eauto. Qed.

Lemma property_accessors_members d name i m : (i, m) ∈ property_accessors d name -> member d i = Some m.
Proof.
  unfold property_accessors. repeat case_match; [..|by intros ?%elem_of_nil]; apply omap_accessors;
    intros j x Hx; case_bool_decide; [|done | |done]; intros (n & Hn & [= -> ->])%tagged_some; simpl; by rewrite Hx.
Qed.

Lemma event_accessors_members d name i m : (i, m) ∈ event_accessors d name -> member d i = Some m.
Proof.
  unfold event_accessors. repeat case_match; [..|by intros ?%elem_of_nil]; apply omap_accessors;
    intros j x Hx; case_bool_decide; try done; [intros [= <- <-] .. | intros (n & Hn & [= -> ->])%tagged_some];
    simpl; by rewrite Hx.
Qed.

Lemma methods_part d i m : (i, m) ∈ reverse (map (fun '(i, m) => (MethodAt i, m)) (enumerate (methods d))) <->
  exists j, i = MethodAt j /\ methods d !! j = Some m.
Proof. by rewrite elem_of_reverse, elem_of_map_pair. Qed.

Lemma properties_part d i m : (i, m) ∈ concat (map property_methods (enumerate (properties d))) <->
  exists j p, properties d !! j = Some p /\ (i, m) ∈ property_methods (j, p).
Proof.
  rewrite elem_of_concat_map. split; [intros ([j p] & H%elem_of_enumerate & Hp); eauto|].
  intros (j & p & H & Hp). exists (j, p). by rewrite elem_of_enumerate.
Qed.

Lemma events_part d i m : (i, m) ∈ concat (map event_methods (enumerate (events d))) <->
  exists j e, events d !! j = Some e /\ (i, m) ∈ event_methods (j, e).
Proof.
  rewrite elem_of_concat_map. split; [intros ([j p] & H%elem_of_enumerate & Hp); eauto|].
  intros (j & p & H & Hp). exists (j, p). by rewrite elem_of_enumerate.
Qed.

(** Every member is searched, and only members are. *)
Lemma search_order_members d name i m : (i, m) ∈ search_order d name <-> member d i = Some m.
Proof.
  unfold search_order. rewrite !elem_of_app, methods_part, properties_part, events_part. split.
  - intros [(j & -> & H)|[H|[H|[(j & p & Hp & H)|(j & e & He & H)]]]]; [done | by eapply property_accessors_members |
      by eapply event_accessors_members |..].
    + apply property_methods_spec in H as [(k & -> & H)|[[-> H]|[-> H]]]; simpl; by rewrite Hp.
    + apply event_methods_spec in H as [(k & -> & H)|[[-> H]|[[-> H]|[-> H]]]]; simpl; rewrite He; simpl; congruence.
  - destruct i; simpl; intros H; [left; eauto|..];
      (apply bind_Some in H as (x & Hx & H) || apply fmap_Some in H as (x & Hx & ->)); do 3 right.
    1-3: left; eexists _, _; split; [exact Hx|]; apply property_methods_spec; naive_solver.
    1-4: right; eexists _, _; split; [exact Hx|]; apply event_methods_spec; naive_solver.
Qed.

(** ** What is found *)

Section exact.
Context (loader : TypeResolver) (finish : list Z -> Z) (addr : ConcreteType -> nat -> Z).
Context (fuel : nat) (desc : TypeDescription) (d : TypeDefinition) (name : string) (sig : MethodSignature MethodType) (sig_res : nat)
  (sig_generics type_generics : option GenericLookup).
Hypothesis Hd : definition loader desc = Val d.

(** The signatures of the members of that name can be decoded. *)
Hypothesis Hdecode : forall i m, member d i = Some m -> method_name m = name -> is_Some (signature m).

Abbreviation check := (check loader finish addr fuel desc name sig sig_res sig_generics type_generics false).

(** A member is the method asked for: it has the name and an equal signature. *)
Definition is_match (x : candidate) : bool :=
  bool_decide (method_name x.2 = name) &&
  match signature x.2 with
  | Some s =>
      (length (parameters s) =? length (parameters sig))%nat &&
      match signatures_equal loader sig_res sig sig_generics (resolution desc) s type_generics with Val b => b | _ => false end
  | None => false
  end.

Lemma check_match i m c : member d i = Some m -> check (i, m) c = Some (Val (is_match (i, m), c)).
Proof.
  intros Hm. unfold Methods.check, is_match. cbn [fst snd]. case_bool_decide as Hn; [|done]. simpl.
  assert (Hi : index_for loader (resolution desc) (index desc) i = Val (index desc, i)).
  { unfold index_for. destruct desc as [r x]. simpl. rewrite Hd. simpl. by rewrite Hm. }
  assert (Hx : indexed loader (resolution desc) (index desc, i) = Val m).
  { unfold indexed. simpl. destruct desc as [r x]. simpl. rewrite Hd. simpl. by rewrite Hm. }
  destruct (Hdecode i m Hm Hn) as [s Hs]. unfold m_bind. rewrite Hi. simpl. rewrite Hx. simpl. unfold decoded. rewrite Hs. simpl.
  destruct (length (parameters s) =? _)%nat; [|done]. simpl.
  by destruct (signatures_equal_returns loader sig_res sig sig_generics (resolution desc) s type_generics) as [b ->].
Qed.

Lemma first_match_find l c : (forall x, x ∈ l -> member d x.1 = Some x.2) ->
  first_match loader finish addr fuel desc name sig sig_res sig_generics type_generics false l c =
    Some (Val (found finish desc type_generics ∘ fst <$> List.find is_match l, c)).
Proof.
  induction l as [|[i m] l IH]; intros H; [done|]. cbn [first_match List.find]. unfold m_bind.
  rewrite check_match by apply (H (i, m) ltac:(left)). destruct (is_match (i, m)); [done|].
  apply IH. intros. apply H. by right.
Qed.

Lemma search_finds c :
  find_method_in_type_internal loader finish addr fuel desc name sig sig_res sig_generics type_generics false c =
    Some (Val (found finish desc type_generics ∘ fst <$> List.find is_match (search_order d name), c)).
Proof.
  unfold find_method_in_type_internal. unfold m_bind, m_pure. rewrite Hd. apply first_match_find.
  intros [i m]. apply search_order_members.
Qed.

(** The name, and a signature that is equal under the generic arguments of the two sides. *)
Definition matches (m : Method) : Prop :=
  method_name m = name /\
  exists s, signature m = Some s /\
    signatures_equal loader sig_res sig sig_generics (resolution desc) s type_generics = Val true.

Lemma signatures_equal_length r1 a g1 r2 b g2 :
  signatures_equal loader r1 a g1 r2 b g2 = Val true -> length (parameters a) = length (parameters b).
Proof.
  clear Hd Hdecode. unfold signatures_equal. destruct (negb _); [done|]. destruct (Nat.eqb_spec (length (parameters a)) (length (parameters b))); done.
Qed.

Lemma is_match_spec i m : is_match (i, m) = true <-> matches m.
Proof.
  clear Hd Hdecode. unfold is_match, matches. cbn [snd]. rewrite andb_true_iff, bool_decide_eq_true.
  destruct (signature m) as [s|]; [|naive_solver]. rewrite andb_true_iff, Nat.eqb_eq. split.
  - intros (Hn & _ & H). split; [done|]. exists s. split; [done|]. by repeat case_match; simplify_eq.
  - intros (Hn & s' & [= <-] & H). rewrite H. split; [done|]. split; [|done]. by apply signatures_equal_length in H.
Qed.

(** Of the methods of the table the last one that matches is taken, before any accessor. *)
Lemma find_last {A} (f : A -> bool) l rest x :
  List.find f (reverse l ++ rest) = Some x ->
  (exists k, l !! k = Some x /\ forall j y, l !! j = Some y -> f y = true -> (j <= k)%nat) \/
  (forall y, y ∈ l -> f y = false) /\ List.find f rest = Some x.
Proof.
  clear Hd Hdecode. induction l as [|a l IH] using rev_ind; simpl; [intros H; right; split; [by intros ? ?%elem_of_nil | done]|].
  rewrite reverse_snoc. simpl. destruct (f a) eqn:Ha.
  - intros [= ->]. left. exists (length l). split; [by rewrite lookup_app_r, Nat.sub_diag|].
    intros j y Hj _. apply lookup_lt_Some in Hj. rewrite length_app in Hj. simpl in Hj. lia.
  - intros [(k & Hk & Hmax)|[Hn Hr]]%IH.
    + left. exists k. split; [by apply lookup_app_l_Some|]. intros j y Hj Hy. apply lookup_app_Some in Hj as [Hj|[_ Hj]]; [eauto|].
      apply list_elem_of_lookup_2 in Hj. apply list_elem_of_singleton in Hj as ->. congruence.
    + right. split; [|done]. intros y [Hy|Hy%list_elem_of_singleton]%elem_of_app; [auto | by subst].
Qed.

Lemma method_found i m : member d i = Some m -> method loader (found finish desc type_generics i) = Val m.
Proof. intros Hm. unfold method. simpl. rewrite Hd. simpl. by rewrite Hm. Qed.
End exact.

(** The search of a type for a method by name and signature is exact: it finds a
    member that matches whenever the type has one, among its methods and the accessors
    of its properties and events; the method found has the name and an equal signature;
    and a later declaration in the method table takes precedence over an earlier one,
    and over the accessors. *)
Theorem method_search_exact loader finish addr fuel desc d name sig sig_res sig_generics type_generics c :
  definition loader desc = Val d ->
  (forall i m, member d i = Some m -> method_name m = name -> is_Some (signature m)) ->
  exists r,
    find_method_in_type_internal loader finish addr fuel desc name sig sig_res sig_generics type_generics false c =
      Some (Val (r, c)) /\
    match r with
    | Some md =>
        (exists m, method loader md = Val m /\ matches loader desc name sig sig_res sig_generics type_generics m) /\
        parent md = desc /\ parent_generics md = default (default_lookup finish) type_generics /\
        forall j m, methods d !! j = Some m -> matches loader desc name sig sig_res sig_generics type_generics m ->
          exists k, method_member_index md = MethodAt k /\ (j <= k)%nat
    | None => forall i m, member d i = Some m -> ~ matches loader desc name sig sig_res sig_generics type_generics m
    end.
Proof.
  intros Hd Hdecode. eexists. split; [by apply search_finds|].
  set (f := is_match loader desc name sig sig_res sig_generics type_generics).
  assert (Hf : forall i m, f (i, m) = true <-> matches loader desc name sig sig_res sig_generics type_generics m)
    by (intros; apply is_match_spec).
  destruct (List.find f (search_order d name)) as [[i m]|] eqn:Hr; simpl.
  - pose proof (find_some _ _ Hr) as [Hin%list_elem_of_In%search_order_members Hm%Hf].
    split; [exists m; split; [by apply method_found with d | done]|]. split; [done|]. split; [done|].
    unfold search_order in Hr. apply find_last in Hr as [(k & Hk & Hmax)|[Hn _]]; intros j x Hj Hx.
    + assert (Hl : forall j x, methods d !! j = Some x -> map (fun '(i, m) => (MethodAt i, m)) (enumerate (methods d)) !! j = Some (MethodAt j, x)).
      { intros j' x' H'. unfold enumerate. by rewrite list_lookup_fmap, list_lookup_imap, H'. }
      rewrite list_lookup_fmap in Hk. unfold enumerate in Hk. rewrite list_lookup_imap in Hk.
      destruct (methods d !! k) as [y|] eqn:Hy; simplify_eq/=. exists k. split; [done|].
      apply (Hmax j (MethodAt j, x)); [by apply Hl | by apply Hf].
    + exfalso. specialize (Hn (MethodAt j, x)). apply (Hf (MethodAt j)) in Hx. rewrite Hx in Hn.
      discriminate Hn. apply elem_of_map_pair. eauto.
  - intros i m Hm Hx%(Hf i). apply search_order_members with (name := name) in Hm. apply list_elem_of_In in Hm.
    by rewrite (find_none _ _ Hr _ Hm) in Hx.
Qed.

(** ** A type

    [class Shape { void Draw(); int Area { get; } void Draw(int); }] *)
Section shape.

Definition signature_of (ps : list MethodType) (r : option MethodType) : MethodSignature MethodType :=
  {| instance := true; explicit_this := false; calling_convention := 0; parameters := map (fun t => Param [] (PValue t)) ps;
     return_type := Ret [] (PValue <$> r); varargs := None |}.

Definition public_method (n : string) (ps : list MethodType) (r : option MethodType) : Method :=
  {| method_name := n; public := true; virtual_member := true; method_generic_parameters := [];
     signature := Some (signature_of ps r); has_body := true |}.

Definition int_type : MethodType := MBase (BPrim Int32).

Definition shape_definition : TypeDefinition :=
  {| type_def_name := "Shape"; namespace := None; extends := None; implements := []; generic_parameters := [];
     interface := false; abstract_type := false;
     methods := [public_method "Draw" [] None; public_method "Draw" [int_type] None];
     properties := [{| property_name := "Area"; getter := Some (public_method "get_Area" [] (Some int_type)); setter := None;
                       property_other := [] |}];
     events := []; fields := []; overrides := []; encloser := None |}.

Definition one_type (d : TypeDefinition) : TypeResolver := {|
  locate_type r u := match u with Definition_ 0 => inr {| resolution := r; index := 0 |} | _ => inl InvalidHandle end;
  find_concrete_type c := match ct_base c with
                          | BType (User (Definition_ 0)) _ => inr {| resolution := ct_source c; index := 0 |}
                          | _ => inl InvalidHandle
                          end;
  canonical_type_name n := n;
  metadata td := d;
  nested_type_name td := type_def_name d;
  user_type_name u _ := type_def_name d;
|}.

Lemma method_search_exact_witness : exists r,
  find_method_in_type_internal (one_type shape_definition) (fun _ => 0) (fun _ _ => 0) 1 {| resolution := 1; index := 0 |} "get_Area"
    (signature_of [] (Some int_type)) 1 None None false new_comparer = Some (Val (r, new_comparer)) /\
  is_Some r.
Proof.
  edestruct (method_search_exact (one_type shape_definition) (fun _ => 0) (fun _ _ => 0) 1 {| resolution := 1; index := 0 |} shape_definition
    "get_Area" (signature_of [] (Some int_type)) 1 None None new_comparer) as (r & Hr & Hm); [reflexivity | |].
  - intros i m Hm. apply (search_order_members _ "") in Hm. vm_compute in Hm.
    repeat (apply elem_of_cons in Hm as [[= -> ->]|Hm]; [intros _; eexists; reflexivity|]). by apply elem_of_nil in Hm.
  - exists r. split; [exact Hr|]. destruct r as [md|]; [eauto|].
    destruct (Hm (PropertyGetter 0) (public_method "get_Area" [] (Some int_type)) eq_refl). split; [reflexivity|].
    eexists. split; reflexivity.
Defined.
End shape.

(** ** A signature is equal to itself

    Whatever the generic arguments of the two sides: placeholders are compared first.
    Function pointers are never equal, and tokens have to resolve. *)

Fixpoint comparable (loader : TypeResolver) (r : nat) (t : MethodType) : bool :=
  match t with
  | MBase b =>
      match b with
      | BType ts _ => match locate_type loader r (decompose_type_source ts).1 with inr _ => true | inl _ => false end
      | BFunctionPointer _ => false
      | _ => true
      end && forallb id (children (bt_map (comparable loader r) b))
  | TypeGeneric _ | MethodGeneric _ => true
  end.

Definition comparable_parameter (loader : TypeResolver) (r : nat) (p : ParameterType MethodType) : bool :=
  match p with PValue t | PRef t => comparable loader r t | PTypedReference => true end.

Definition comparable_signature (loader : TypeResolver) (r : nat) (s : MethodSignature MethodType) : bool :=
  forallb (fun p => comparable_parameter loader r (param_type p)) (parameters s) &&
  match ret_type (return_type s) with Some p => comparable_parameter loader r p | None => true end.

Section self.
Context (loader : TypeResolver) (r : nat).

Lemma same_type_refl u : match locate_type loader r u with inr _ => true | inl _ => false end = true ->
  same_type loader r u r u TYPES_EQUAL = Val true.
Proof.
  unfold same_type, resolve_type_with_policy. simpl. destruct (locate_type loader r u) as [e|td]; [done|]. intros _. simpl.
  unfold resolved_types_equal. by rewrite bool_decide_eq_true_2.
Qed.

Lemma slices_equal_refl {A} (f : A -> A -> test) l : (forall x, x ∈ l -> f x x = Val true) -> slices_equal f l l = Val true.
Proof.
  intros H. unfold slices_equal. rewrite Nat.eqb_refl. simpl. induction l as [|x l IH]; [done|]. simpl. rewrite H by left. simpl.
  apply IH. intros. apply H. by right.
Qed.

Lemma types_equal_refl t g1 g2 : comparable loader r t = true -> types_equal loader r t g1 r t g2 = Val true.
Proof.
  unfold types_equal. induction t as [b IH|i|i] using mt_ind; intros Hc; rewrite method_types_unfold; [|by simpl; rewrite Nat.eqb_refl..].
  assert (Hn : forall g, resolve_generic_type g (MBase b) = None) by (by intros []). rewrite !Hn. simpl.
  cbn [comparable] in Hc. apply andb_prop in Hc as [Hb Hch]. rewrite forallb_map_children in Hch.
  assert (Hx : forall x, x ∈ children b -> normalized_method_types_equal loader TYPES_EQUAL r g1 x r g2 x = Val true) by auto.
  clear IH Hch. destruct b as [[u|u ps] k|p|m x|x s|m [x|]|sg]; simpl in *; try done; try (apply Hx; by left).
  - by rewrite (same_type_refl u).
  - rewrite (same_type_refl u) by done. simpl. by apply slices_equal_refl.
  - by rewrite bool_decide_eq_true_2.
Qed.

Lemma param_types_equal_refl p g1 g2 : comparable_parameter loader r p = true -> param_types_equal loader r p g1 r p g2 = Val true.
Proof. destruct p; simpl; intros; [by apply types_equal_refl .. | done]. Qed.

Lemma signatures_equal_refl s g1 g2 : comparable_signature loader r s = true -> signatures_equal loader r s g1 r s g2 = Val true.
Proof.
  intros [Hp Hr]%andb_prop. unfold signatures_equal. rewrite bool_decide_eq_true_2, Nat.eqb_refl by done. simpl.
  assert (Hret : match ret_type (return_type s), ret_type (return_type s) with
    | None, None => Val true | Some l, Some r' => param_types_equal loader r l g1 r r' g2 | _, _ => Val false end = Val true).
  { destruct (ret_type (return_type s)); [by apply param_types_equal_refl | done]. }
  rewrite Hret. simpl. clear Hret Hr. revert Hp. generalize (parameters s). intros l. induction l as [|p l IH]; [done|].
  simpl. intros [Hp Hl]%andb_prop. rewrite param_types_equal_refl by done. simpl. by apply IH.
Qed.
End self.
