(* ===== verification/WellKnown.v ===== *)
(** * Well-known types

    The types the runtime refers to by name ([dotnet-types/src/wkt.rs]). *)

From Stdlib Require Import Lia.
From stdpp Require Import base tactics list option strings.
From S2P Require Import Prelude.

Inductive WellKnown : Set :=
| WBoolean | WSByte | WByte | WSingle | WChar | WUInt16 | WDouble | WUInt32 | WInt16 | WUInt64 | WInt32 | WUIntPtr
| WInt64 | WIntPtr | WArray | WAttribute | WByRef1 | WDelegate | WEnum | WException | WExceptionDispatchState
| WMemoryExtensions | WMulticastDelegate | WNullable1 | WObject | WReadOnlySpan1 | WString | WType
| WTypedReference | WValueType | WVoid | WICollection1 | WIEnumerable1 | WIList1 | WIReadOnlyCollection1
| WIReadOnlyList1 | WIoMemoryStream | WReflectionAssembly | WReflectionAssemblyName | WReflectionConstructorInfo
| WReflectionFieldInfo | WReflectionMemberInfo | WReflectionMethodInfo | WReflectionParameterInfo
| WReflectionPropertyInfo | WReflectionRuntimeAssembly | WReflectionTypeDelegator | WRuntimeFieldHandle
| WRuntimeMethodHandle | WRuntimeType | WRuntimeTypeHandle | WSupportComparersEqualityComparer1
| WSupportComparersOrderingComparer1 | WSupportConstructorInfo | WSupportFieldInfo | WSupportMethodInfo
| WSupportParameterInfo | WSupportPropertyInfo | WSupportSZArrayHelper1 | WSpan1.

#[export] Instance WellKnown_eq_dec : EqDecision WellKnown.
Proof. solve_decision. Defined.

Module WellKnownNames.
Definition all : list WellKnown := [
  WBoolean; WSByte; WByte; WSingle; WChar; WUInt16; WDouble; WUInt32; WInt16; WUInt64; WInt32; WUIntPtr; WInt64;
  WIntPtr; WArray; WAttribute; WByRef1; WDelegate; WEnum; WException; WExceptionDispatchState; WMemoryExtensions;
  WMulticastDelegate; WNullable1; WObject; WReadOnlySpan1; WString; WType; WTypedReference; WValueType; WVoid;
  WICollection1; WIEnumerable1; WIList1; WIReadOnlyCollection1; WIReadOnlyList1; WIoMemoryStream;
  WReflectionAssembly; WReflectionAssemblyName; WReflectionConstructorInfo; WReflectionFieldInfo;
  WReflectionMemberInfo; WReflectionMethodInfo; WReflectionParameterInfo; WReflectionPropertyInfo;
  WReflectionRuntimeAssembly; WReflectionTypeDelegator; WRuntimeFieldHandle; WRuntimeMethodHandle; WRuntimeType;
  WRuntimeTypeHandle; WSupportComparersEqualityComparer1; WSupportComparersOrderingComparer1;
  WSupportConstructorInfo; WSupportFieldInfo; WSupportMethodInfo; WSupportParameterInfo; WSupportPropertyInfo;
  WSupportSZArrayHelper1; WSpan1
].

Definition COUNT : nat := 60.

(** The discriminant. *)
Definition discriminant (w : WellKnown) : nat :=
  match w with
  | WBoolean => 0 | WSByte => 1 | WByte => 2 | WSingle => 3 | WChar => 4 | WUInt16 => 5 | WDouble => 6
  | WUInt32 => 7 | WInt16 => 8 | WUInt64 => 9 | WInt32 => 10 | WUIntPtr => 11 | WInt64 => 12 | WIntPtr => 13
  | WArray => 14 | WAttribute => 15 | WByRef1 => 16 | WDelegate => 17 | WEnum => 18 | WException => 19
  | WExceptionDispatchState => 20 | WMemoryExtensions => 21 | WMulticastDelegate => 22 | WNullable1 => 23
  | WObject => 24 | WReadOnlySpan1 => 25 | WString => 26 | WType => 27 | WTypedReference => 28 | WValueType => 29
  | WVoid => 30 | WICollection1 => 31 | WIEnumerable1 => 32 | WIList1 => 33 | WIReadOnlyCollection1 => 34
  | WIReadOnlyList1 => 35 | WIoMemoryStream => 36 | WReflectionAssembly => 37 | WReflectionAssemblyName => 38
  | WReflectionConstructorInfo => 39 | WReflectionFieldInfo => 40 | WReflectionMemberInfo => 41
  | WReflectionMethodInfo => 42 | WReflectionParameterInfo => 43 | WReflectionPropertyInfo => 44
  | WReflectionRuntimeAssembly => 45 | WReflectionTypeDelegator => 46 | WRuntimeFieldHandle => 47
  | WRuntimeMethodHandle => 48 | WRuntimeType => 49 | WRuntimeTypeHandle => 50
  | WSupportComparersEqualityComparer1 => 51 | WSupportComparersOrderingComparer1 => 52
  | WSupportConstructorInfo => 53 | WSupportFieldInfo => 54 | WSupportMethodInfo => 55
  | WSupportParameterInfo => 56 | WSupportPropertyInfo => 57 | WSupportSZArrayHelper1 => 58 | WSpan1 => 59
  end.

Definition name (w : WellKnown) : string :=
  match w with
  | WBoolean => "System.Boolean"
  | WSByte => "System.SByte"
  | WByte => "System.Byte"
  | WSingle => "System.Single"
  | WChar => "System.Char"
  | WUInt16 => "System.UInt16"
  | WDouble => "System.Double"
  | WUInt32 => "System.UInt32"
  | WInt16 => "System.Int16"
  | WUInt64 => "System.UInt64"
  | WInt32 => "System.Int32"
  | WUIntPtr => "System.UIntPtr"
  | WInt64 => "System.Int64"
  | WIntPtr => "System.IntPtr"
  | WArray => "System.Array"
  | WAttribute => "System.Attribute"
  | WByRef1 => "System.ByReference`1"
  | WDelegate => "System.Delegate"
  | WEnum => "System.Enum"
  | WException => "System.Exception"
  | WExceptionDispatchState => "System.Exception+DispatchState"
  | WMemoryExtensions => "System.MemoryExtensions"
  | WMulticastDelegate => "System.MulticastDelegate"
  | WNullable1 => "System.Nullable`1"
  | WObject => "System.Object"
  | WReadOnlySpan1 => "System.ReadOnlySpan`1"
  | WString => "System.String"
  | WType => "System.Type"
  | WTypedReference => "System.TypedReference"
  | WValueType => "System.ValueType"
  | WVoid => "System.Void"
  | WICollection1 => "System.Collections.Generic.ICollection`1"
  | WIEnumerable1 => "System.Collections.Generic.IEnumerable`1"
  | WIList1 => "System.Collections.Generic.IList`1"
  | WIReadOnlyCollection1 => "System.Collections.Generic.IReadOnlyCollection`1"
  | WIReadOnlyList1 => "System.Collections.Generic.IReadOnlyList`1"
  | WIoMemoryStream => "System.IO.MemoryStream"
  | WReflectionAssembly => "System.Reflection.Assembly"
  | WReflectionAssemblyName => "System.Reflection.AssemblyName"
  | WReflectionConstructorInfo => "System.Reflection.ConstructorInfo"
  | WReflectionFieldInfo => "System.Reflection.FieldInfo"
  | WReflectionMemberInfo => "System.Reflection.MemberInfo"
  | WReflectionMethodInfo => "System.Reflection.MethodInfo"
  | WReflectionParameterInfo => "System.Reflection.ParameterInfo"
  | WReflectionPropertyInfo => "System.Reflection.PropertyInfo"
  | WReflectionRuntimeAssembly => "System.Reflection.RuntimeAssembly"
  | WReflectionTypeDelegator => "System.Reflection.TypeDelegator"
  | WRuntimeFieldHandle => "System.RuntimeFieldHandle"
  | WRuntimeMethodHandle => "System.RuntimeMethodHandle"
  | WRuntimeType => "System.RuntimeType"
  | WRuntimeTypeHandle => "System.RuntimeTypeHandle"
  | WSupportComparersEqualityComparer1 => "DotnetRs.Comparers.Equality/GenericEqualityComparer`1"
  | WSupportComparersOrderingComparer1 => "DotnetRs.Comparers.Ordering/FallbackComparer`1"
  | WSupportConstructorInfo => "DotnetRs.ConstructorInfo"
  | WSupportFieldInfo => "DotnetRs.FieldInfo"
  | WSupportMethodInfo => "DotnetRs.MethodInfo"
  | WSupportParameterInfo => "DotnetRs.ParameterInfo"
  | WSupportPropertyInfo => "DotnetRs.PropertyInfo"
  | WSupportSZArrayHelper1 => "DotnetRs.SZArrayHelper`1"
  | WSpan1 => "System.Span`1"
  end.

Definition from_name (s : string) : option WellKnown :=
  match list_find (fun p => s = p.1) [
    ("System.Boolean", WBoolean);
    ("System.SByte", WSByte);
    ("System.Byte", WByte);
    ("System.Single", WSingle);
    ("System.Char", WChar);
    ("System.UInt16", WUInt16);
    ("System.Double", WDouble);
    ("System.UInt32", WUInt32);
    ("System.Int16", WInt16);
    ("System.UInt64", WUInt64);
    ("System.Int32", WInt32);
    ("System.UIntPtr", WUIntPtr);
    ("System.Int64", WInt64);
    ("System.IntPtr", WIntPtr);
    ("System.Array", WArray);
    ("System.Attribute", WAttribute);
    ("System.ByReference`1", WByRef1);
    ("System.Delegate", WDelegate);
    ("System.Enum", WEnum);
    ("System.Exception", WException);
    ("System.Exception+DispatchState", WExceptionDispatchState);
    ("System.Exception/DispatchState", WExceptionDispatchState);
    ("System.MemoryExtensions", WMemoryExtensions);
    ("System.MulticastDelegate", WMulticastDelegate);
    ("System.Nullable`1", WNullable1);
    ("System.Object", WObject);
    ("System.ReadOnlySpan`1", WReadOnlySpan1);
    ("System.String", WString);
    ("System.Type", WType);
    ("System.TypedReference", WTypedReference);
    ("System.ValueType", WValueType);
    ("System.Void", WVoid);
    ("System.Collections.Generic.ICollection`1", WICollection1);
    ("System.Collections.Generic.IEnumerable`1", WIEnumerable1);
    ("System.Collections.Generic.IList`1", WIList1);
    ("System.Collections.Generic.IReadOnlyCollection`1", WIReadOnlyCollection1);
    ("System.Collections.Generic.IReadOnlyList`1", WIReadOnlyList1);
    ("System.IO.MemoryStream", WIoMemoryStream);
    ("System.Reflection.Assembly", WReflectionAssembly);
    ("System.Reflection.AssemblyName", WReflectionAssemblyName);
    ("System.Reflection.ConstructorInfo", WReflectionConstructorInfo);
    ("System.Reflection.FieldInfo", WReflectionFieldInfo);
    ("System.Reflection.MemberInfo", WReflectionMemberInfo);
    ("System.Reflection.MethodInfo", WReflectionMethodInfo);
    ("System.Reflection.ParameterInfo", WReflectionParameterInfo);
    ("System.Reflection.PropertyInfo", WReflectionPropertyInfo);
    ("System.Reflection.RuntimeAssembly", WReflectionRuntimeAssembly);
    ("System.Reflection.TypeDelegator", WReflectionTypeDelegator);
    ("System.RuntimeFieldHandle", WRuntimeFieldHandle);
    ("System.RuntimeMethodHandle", WRuntimeMethodHandle);
    ("System.RuntimeType", WRuntimeType);
    ("System.RuntimeTypeHandle", WRuntimeTypeHandle);
    ("DotnetRs.Comparers.Equality/GenericEqualityComparer`1", WSupportComparersEqualityComparer1);
    ("DotnetRs.Comparers.Ordering/FallbackComparer`1", WSupportComparersOrderingComparer1);
    ("DotnetRs.ConstructorInfo", WSupportConstructorInfo);
    ("DotnetRs.FieldInfo", WSupportFieldInfo);
    ("DotnetRs.MethodInfo", WSupportMethodInfo);
    ("DotnetRs.ParameterInfo", WSupportParameterInfo);
    ("DotnetRs.PropertyInfo", WSupportPropertyInfo);
    ("DotnetRs.SZArrayHelper`1", WSupportSZArrayHelper1);
    ("System.Span`1", WSpan1)
  ]%string with
  | Some (_, (_, w)) => Some w
  | None => None
  end.

(** A type is found under its name, and its discriminant is its place in the table. *)
Lemma from_name_name w : from_name (name w) = Some w.
Proof. destruct w; vm_compute; reflexivity. Qed.

Lemma discriminant_index w : all !! discriminant w = Some w.
Proof. destruct w; reflexivity. Qed.

Lemma discriminant_bound w : (discriminant w < COUNT)%nat.
Proof. destruct w; unfold COUNT; simpl; lia. Qed.

Lemma discriminant_inj w v : discriminant w = discriminant v -> w = v.
Proof. intros H. pose proof (discriminant_index w) as Hw. rewrite H, discriminant_index in Hw. congruence. Qed.
End WellKnownNames.
