(* ===== verification/Assemblies.v ===== *)
(** * Loading assemblies

    The table of assemblies of the loader: versions and binding redirects, probing
    paths, and loading on demand ([dotnet-assemblies/src/loader.rs]).

    The file system does not change: what a path holds, and how the metadata reader
    parses it, is a function.  A resolution scope is the number under which its metadata
    is kept, from 1 on. *)

From Stdlib Require Import ZArith Lia Ascii.
From stdpp Require Import base tactics list option strings gmap pretty.
From S2P Require Import Prelude ManagedPtr Ops Generics Comparer.

Local Open Scope Z_scope.

(** ** Versions *)

Record Version : Set := { major : Z; minor : Z; build : Z; revision : Z }.

#[export] Instance Version_eq_dec : EqDecision Version.
Proof. solve_decision. Defined.

Definition versions_equal (v1 v2 : Version) : bool :=
  (major v1 =? major v2) && (minor v1 =? minor v2) && (build v1 =? build v2) && (revision v1 =? revision v2).

Definition version_ge (v1 v2 : Version) : bool :=
  if major v2 <? major v1 then true
  else if major v1 <? major v2 then false
  else if minor v2 <? minor v1 then true
  else if minor v1 <? minor v2 then false
  else if build v2 <? build v1 then true
  else if build v1 <? build v2 then false
  else revision v2 <=? revision v1.

Record BindingRedirect : Set := { from_version_start : Version; from_version_end : Version; to_version : Version }.

Definition redirect_matches (r : BindingRedirect) (v : Version) : bool :=
  version_ge v (from_version_start r) && version_ge (from_version_end r) v.

(** [s.split(c)] *)
Fixpoint split_on (c : ascii) (s : string) : list string :=
  match s with
  | EmptyString => [EmptyString]
  | String a s =>
      if bool_decide (a = c) then EmptyString :: split_on c s
      else match split_on c s with part :: rest => String a part :: rest | [] => [] end
  end.

Definition digit (a : ascii) : option Z :=
  let n := Z.of_nat (nat_of_ascii a) - 48 in if (0 <=? n) && (n <=? 9) then Some n else None.

(** The digits of a [u16], refused when the value does not fit. *)
Fixpoint parse_digits (acc : Z) (s : string) : option Z :=
  match s with
  | EmptyString => Some acc
  | String a s =>
      d ← digit a;
      let acc := acc * 10 + d in
      if acc <=? 65535 then parse_digits acc s else None
  end.

(** [u16::from_str] *)
Definition parse_u16 (s : string) : option Z :=
  match s with
  | EmptyString => None
  | String "+" EmptyString => None
  | String "+" s => parse_digits 0 s
  | s => parse_digits 0 s
  end.

Definition parse_version (s : string) : option Version :=
  match split_on "." s with
  | [a; b; c; d] =>
      a ← parse_u16 a; b ← parse_u16 b; c ← parse_u16 c; d ← parse_u16 d;
      Some {| major := a; minor := b; build := c; revision := d |}
  | _ => None
  end.

(** ** Metadata of an assembly *)

Inductive TypeImplementation : Set := ImplNested | ImplModuleFile | TypeForwarder (assembly_ref : nat).

Record ExportedType : Set := {
  exported_name : string;
  exported_namespace : option string;
  implementation : TypeImplementation;
}.

Inductive ResolutionScope : Set :=
| ExternalModule | CurrentModule | AssemblyScope (assembly_ref : nat) | ExportedScope | NestedScope (owner : nat).

Record TypeReference : Set := { ref_name : string; ref_namespace : option string; scope : ResolutionScope }.

Inductive MethodReferenceParent : Set := ParentType (t : MethodType) | ParentModule | VarargMethod.

(** A method reference; decoding its signature may fail. *)
Record MethodReference : Set := {
  method_ref_name : string;
  method_ref_parent : MethodReferenceParent;
  method_ref_signature : string + MethodSignature MethodType;
}.

Record FieldReference : Set := { field_ref_name : string; field_ref_parent : option MethodType }.

Record Resolution : Set := {
  assembly : option (string * Version);
  type_definitions : list TypeDefinition;
  exported_types : list ExportedType;
  assembly_references : list (string * Version);
  type_references : list TypeReference;
  method_references : list MethodReference;
  field_references : list FieldReference;
}.

Inductive AssemblyLoadError : Set :=
| FileNotFound (what : string)
| InvalidFormat (what : string)
| IoError (what : string)
| DllParse (what : string)
| DllValidity (what : string)
| DllResolve (what : string)
| SupportContractViolation (type_name field_name reason : string)
| UnrecognizedSupportSlot (type_name field_name : string).

(** ** The table *)

Record loader : Set := {
  external : gmap string (option nat);
  probing_paths : gmap string string;
  metadata_arena : list Resolution;
}.

Definition set_external (l : loader) (e : gmap string (option nat)) : loader :=
  {| external := e; probing_paths := probing_paths l; metadata_arena := metadata_arena l |}.

(** The metadata of a scope. *)
Definition resolution_at (l : loader) (r : nat) : option Resolution :=
  match r with O => None | S i => metadata_arena l !! i end.

Section loading.
(** [assembly_root] joined with the name of a file, the file system, the redirects and
    [strict_versioning]. *)
Context (in_root : string -> string) (exists_file : string -> bool) (parse : string -> AssemblyLoadError + Resolution)
  (redirects : string -> option (list BindingRedirect)) (strict_versioning : bool).

Definition register_probing_path (l : loader) (name path : string) : loader :=
  match external l !! name with
  | Some _ => l
  | None =>
      {| external := <[name := None]> (external l); probing_paths := <[name := path]> (probing_paths l);
         metadata_arena := metadata_arena l |}
  end.

Definition file_of (l : loader) (name : string) : string := default (in_root (name +:+ ".dll")) (probing_paths l !! name).

(** [load_resolution_from_file]: the metadata is kept under a number of its own. *)
Definition load_resolution_from_file (l : loader) (path : string) : (AssemblyLoadError + nat) * loader :=
  match parse path with
  | inl e => (inl e, l)
  | inr res =>
      (inr (S (length (metadata_arena l))),
       {| external := external l; probing_paths := probing_paths l; metadata_arena := metadata_arena l ++ [res] |})
  end.

Definition not_found (l : loader) (name : string) : AssemblyLoadError :=
  FileNotFound match probing_paths l !! name with
               | Some path => "could not find assembly " +:+ name +:+ " at " +:+ path
               | None => "could not find assembly " +:+ name +:+ " in root " +:+ in_root ""
               end.

(** The entries written under the lock of the table. *)
Definition register (l : loader) (name : string) (r : nat) : (AssemblyLoadError + nat) * loader :=
  match r_assembly ← resolution_at l r; assembly r_assembly with
  | None => (inl (InvalidFormat "no assembly present in external module"), l)
  | Some (a, _) =>
      let e := <[a := Some r]> (external l) in
      (inr r, set_external l (if bool_decide (a = name) then e else <[name := Some r]> e))
  end.

Definition load_and_register (l : loader) (name : string) (check_exists : bool) : (AssemblyLoadError + nat) * loader :=
  let file := file_of l name in
  if check_exists && negb (exists_file file) then (inl (not_found l name), l)
  else
    match load_resolution_from_file l file with
    | (inl e, l) => (inl e, l)
    | (inr r, l) => register l name r
    end.

Definition redirected (name : string) (v : Version) : Version :=
  match redirects name with
  | None => v
  | Some rs => match List.find (fun r => redirect_matches r v) rs with Some r => to_version r | None => v end
  end.

Definition show_version (v : Version) : string :=
  pretty (major v) +:+ "." +:+ pretty (minor v) +:+ "." +:+ pretty (build v) +:+ "." +:+ pretty (revision v).

(** The error of a version that does not do, whether or not it is reported. *)
Definition version_error (name : string) (actual requested : Version) : option string :=
  if negb (major actual =? major requested) || negb (minor actual =? minor requested) then
    Some ("assembly " +:+ name +:+ " has version " +:+ show_version actual +:+ ", but " +:+ show_version requested +:+
          " was requested (and no redirect matched)")
  else if negb (version_ge actual requested) then
    Some ("assembly " +:+ name +:+ " has version " +:+ show_version actual +:+ ", which is older than the requested " +:+
          show_version requested)
  else None.

Definition check_version (l : loader) (name : string) (requested : option Version) (r : nat) : AssemblyLoadError + nat :=
  match requested, resolution_at l r ≫= assembly with
  | Some v, Some (_, actual) =>
      match version_error name actual v with
      | Some msg => if strict_versioning then inl (InvalidFormat msg) else inr r
      | None => inr r
      end
  | _, _ => inr r
  end.

Definition get_assembly_with_version (l : loader) (name : string) (requested : option Version)
  : (AssemblyLoadError + nat) * loader :=
  let requested := redirected name <$> requested in
  let '(res, l) :=
    match external l !! name with
    | None => load_and_register l name true
    | Some None => load_and_register l name false
    | Some (Some r) => (inr r, l)
    end in
  match res with
  | inl e => (inl e, l)
  | inr r => (check_version l name requested r, l)
  end.

Definition get_assembly (l : loader) (name : string) : (AssemblyLoadError + nat) * loader :=
  get_assembly_with_version l name None.

(** [register_owned_assembly] *)
Definition register_owned_assembly (l : loader) (res : Resolution) : nat * loader :=
  let r := S (length (metadata_arena l)) in
  let l := {| external := external l; probing_paths := probing_paths l; metadata_arena := metadata_arena l ++ [res] |} in
  (r, match assembly res with Some (a, _) => set_external l (<[a := Some r]> (external l)) | None => l end).

Definition assemblies (l : loader) : list nat := omap snd (map_to_list (external l)).
End loading.

(** ** Versions are ordered *)

Lemma version_ge_spec v w : version_ge v w = true <->
  major w < major v \/ major w = major v /\ (minor w < minor v \/ minor w = minor v /\ (build w < build v \/
    build w = build v /\ revision w <= revision v)).
Proof. unfold version_ge. repeat (case_match; [|]); rewrite ?Z.ltb_lt, ?Z.ltb_ge, ?Z.leb_le in *; lia. Qed.

#[export] Instance version_ge_preorder : PreOrder (fun v w => version_ge v w = true).
Proof. split; red; setoid_rewrite version_ge_spec; intros; lia. Qed.

Lemma version_ge_total v w : version_ge v w = true \/ version_ge w v = true.
Proof. rewrite !version_ge_spec. lia. Qed.

Lemma version_ge_antisym v w : version_ge v w = true -> version_ge w v = true -> v = w.
Proof. rewrite !version_ge_spec. destruct v, w; simpl. intros. f_equal; lia. Qed.

(** ** An assembly is loaded once *)

Section once.
Context (in_root : string -> string) (exists_file : string -> bool) (parse : string -> AssemblyLoadError + Resolution)
  (redirects : string -> option (list BindingRedirect)) (strict_versioning : bool).

Abbreviation get_assembly_with_version := (get_assembly_with_version in_root exists_file parse redirects strict_versioning).
Abbreviation load_and_register := (load_and_register in_root exists_file parse).

(** The file at [path] holds, if anything, the assembly called [name]. *)
Definition file_named (name path : string) : Prop :=
  forall res a v, parse path = inr res -> assembly res = Some (a, v) -> a = name.

Definition well_named (l : loader) : Prop := forall name, file_named name (file_of in_root l name).

Definition loaded (l : loader) (name : string) (r : nat) : Prop :=
  external l !! name = Some (Some r) /\ is_Some (resolution_at l r).

(** What happens to a loader: requests, probing paths of the host, and assemblies built in
    memory under a name that is not loaded yet. *)
Inductive loader_step (l : loader) : loader -> Prop :=
| step_get name v : loader_step l (get_assembly_with_version l name v).2
| step_probe name path : file_named name path -> loader_step l (register_probing_path l name path)
| step_own res : (forall a v r, assembly res = Some (a, v) -> external l !! a <> Some (Some r)) ->
    loader_step l (register_owned_assembly l res).2.

(** Scopes keep their metadata and loaded names their scopes. *)
Definition keeps_loaded (l l' : loader) : Prop :=
  (forall r x, resolution_at l r = Some x -> resolution_at l' r = Some x) /\
  (forall n r, loaded l n r -> loaded l' n r) /\ (well_named l -> well_named l').

Lemma keeps_loaded_refl l : keeps_loaded l l.
Proof. split; [done|]. by split. Qed.

Lemma keeps_loaded_trans l1 l2 l3 : keeps_loaded l1 l2 -> keeps_loaded l2 l3 -> keeps_loaded l1 l3.
Proof. intros (A1 & B1 & C1) (A2 & B2 & C2). split; [eauto|]. split; eauto. Qed.

Lemma resolution_at_snoc l e p res r x : resolution_at l r = Some x ->
  resolution_at {| external := e; probing_paths := p; metadata_arena := metadata_arena l ++ [res] |} r = Some x.
Proof. destruct r; [done|]. simpl. intros H. by apply lookup_app_l_Some. Qed.

Lemma resolution_at_new l e p res :
  resolution_at {| external := e; probing_paths := p; metadata_arena := metadata_arena l ++ [res] |}
    (S (length (metadata_arena l))) = Some res.
Proof. simpl. by rewrite lookup_app_r, Nat.sub_diag. Qed.

Lemma well_named_file l : (forall name path, probing_paths l !! name = Some path -> file_named name path) ->
  (forall name, file_named name (in_root (name +:+ ".dll"))) -> well_named l.
Proof. intros Hp Hr name. unfold file_of. destruct (probing_paths l !! name) eqn:H; simpl; auto. Qed.

(** Loading registers the assembly under its name, and touches no other entry. *)
Lemma load_and_register_spec l name b r l' : well_named l -> load_and_register l name b = (inr r, l') ->
  exists res v, parse (file_of in_root l name) = inr res /\ assembly res = Some (name, v) /\ r = S (length (metadata_arena l)) /\
    l' = {| external := <[name := Some r]> (external l); probing_paths := probing_paths l; metadata_arena := metadata_arena l ++ [res] |}.
Proof.
  intros Hw. unfold Assemblies.load_and_register, load_resolution_from_file. destruct (b && _); [done|].
  destruct (parse (file_of in_root l name)) as [e|res] eqn:Hp; [done|]. unfold register. rewrite resolution_at_new. simpl.
  destruct (assembly res) as [[a v]|] eqn:Ha; [|done]. pose proof (Hw name res a v Hp Ha) as ->.
  rewrite bool_decide_eq_true_2 by done. intros [= <- <-]. eauto 10.
Qed.

Lemma load_and_register_error l name b e l' : load_and_register l name b = (inl e, l') -> keeps_loaded l l'.
Proof.
  unfold Assemblies.load_and_register, load_resolution_from_file. destruct (b && _); [intros [= <- <-]; apply keeps_loaded_refl|].
  destruct (parse (file_of in_root l name)) as [x|res]; [intros [= <- <-]; apply keeps_loaded_refl|].
  unfold register. rewrite resolution_at_new. simpl. destruct (assembly res) as [[a v]|]; [done|]. intros [= <- <-].
  split; [intros; by apply resolution_at_snoc|]. split; [|done]. intros n r [H [x Hx]]. split; [done|]. exists x. by apply resolution_at_snoc.
Qed.

Lemma insert_keeps l name r res e p : (forall n s, external l !! n = Some (Some s) -> e !! n = Some (Some s)) ->
  (well_named l -> well_named {| external := e; probing_paths := p; metadata_arena := metadata_arena l ++ [res] |}) ->
  keeps_loaded l {| external := <[name := Some r]> e; probing_paths := p; metadata_arena := metadata_arena l ++ [res] |} \/
  exists s, external l !! name = Some (Some s).
Proof.
  intros He Hw. destruct (external l !! name) as [[s|]|] eqn:Hn; [by right; exists s|..];
    (left; split; [intros; by apply resolution_at_snoc|]; split; [|exact Hw]; intros n s [H [x Hx]];
     split; [|exists x; by apply resolution_at_snoc]; simpl; destruct (decide (n = name)) as [->|]; [congruence|];
     rewrite lookup_insert_ne by done; by apply He).
Qed.

Lemma get_keeps l name v : well_named l -> keeps_loaded l (get_assembly_with_version l name v).2.
Proof.
  intros Hw. unfold Assemblies.get_assembly_with_version.
  assert (Hload : forall b, (forall s, external l !! name <> Some (Some s)) -> keeps_loaded l (load_and_register l name b).2).
  { intros b Hn. destruct (load_and_register l name b) as [[e|r] l'] eqn:H; [by eapply load_and_register_error|].
    apply load_and_register_spec in H as (res & w & Hp & Ha & -> & ->); [|done]. simpl.
    destruct (insert_keeps l name (S (length (metadata_arena l))) res (external l) (probing_paths l)) as [Hk|[s Hs]]; [done.. | |].
    - done.
    - by apply Hn in Hs. }
  destruct (external l !! name) as [[r|]|] eqn:Hn.
  - apply keeps_loaded_refl.
  - specialize (Hload false ltac:(congruence)). by destruct (load_and_register l name false) as [[e|r] l'].
  - specialize (Hload true ltac:(congruence)). by destruct (load_and_register l name true) as [[e|r] l'].
Qed.

Lemma probe_keeps l name path : file_named name path -> keeps_loaded l (register_probing_path l name path).
Proof.
  intros Hf. unfold register_probing_path. destruct (external l !! name) eqn:Hn; [apply keeps_loaded_refl|].
  split; [done|]. split.
  - intros n r [H Hr]. split; [|done]. simpl. rewrite lookup_insert_ne; [done | congruence].
  - intros Hw n. unfold file_of. simpl. destruct (decide (n = name)) as [->|]; [by rewrite lookup_insert_eq|].
    rewrite lookup_insert_ne by done. apply Hw.
Qed.

Lemma own_keeps l res : (forall a v r, assembly res = Some (a, v) -> external l !! a <> Some (Some r)) ->
  keeps_loaded l (register_owned_assembly l res).2.
Proof.
  intros Hn. unfold register_owned_assembly. destruct (assembly res) as [[a v]|] eqn:Ha; simpl.
  - destruct (insert_keeps l a (S (length (metadata_arena l))) res (external l) (probing_paths l)) as [Hk|[s Hs]]; [done.. | |].
    + exact Hk.
    + exfalso. by apply (Hn a v s).
  - split; [intros; by apply resolution_at_snoc|]. split; [|done]. intros n r [H [x Hx]]. split; [done|]. exists x. by apply resolution_at_snoc.
Qed.

Lemma steps_keep l l' : well_named l -> rtc loader_step l l' -> keeps_loaded l l'.
Proof.
  intros Hw H. induction H as [l|l1 l2 l3 H12 _ IH]; [apply keeps_loaded_refl|].
  assert (Hk : keeps_loaded l1 l2) by (destruct H12; [by apply get_keeps | by apply probe_keeps | by apply own_keeps]).
  eapply keeps_loaded_trans; [done|]. apply IH. by apply Hk.
Qed.

Definition scopes_valid (l : loader) : Prop := forall n r, external l !! n = Some (Some r) -> is_Some (resolution_at l r).

Lemma check_version_kept l name v r r' : check_version strict_versioning l name v r = inr r' -> r' = r.
Proof. unfold check_version. repeat case_match; congruence. Qed.

Lemma get_loads l name v r l' : well_named l -> scopes_valid l -> get_assembly_with_version l name v = (inr r, l') ->
  loaded l' name r /\ check_version strict_versioning l' name (redirected redirects name <$> v) r = inr r.
Proof.
  intros Hw Hv. unfold Assemblies.get_assembly_with_version.
  assert (Hload : forall b, (let '(res, l) := load_and_register l name b in
      match res with inl e => (inl e, l) | inr r => (check_version strict_versioning l name (redirected redirects name <$> v) r, l) end) = (inr r, l') ->
      loaded l' name r /\ check_version strict_versioning l' name (redirected redirects name <$> v) r = inr r).
  { intros b. destruct (load_and_register l name b) as [[e|r0] l0] eqn:H; [done|]. intros [= Hc <-].
    pose proof (check_version_kept _ _ _ _ _ Hc) as ->. split; [|done].
    apply load_and_register_spec in H as (res & w & Hp & Ha & -> & ->); [|done]. split; [simpl; by rewrite lookup_insert_eq|].
    exists res. apply resolution_at_new. }
  destruct (external l !! name) as [[r0|]|] eqn:Hn; [|apply Hload|apply Hload].
  intros [= Hc <-]. pose proof (check_version_kept _ _ _ _ _ Hc) as ->. split; [|done]. split; [done | by apply (Hv name)].
Qed.

(** An assembly is loaded once: when a request for it has been served, the same request
    is served with the same scope from then on, without loading anything, and any request
    for the name that succeeds gives that scope; provided the files are named as the
    assemblies they hold. *)
Theorem assembly_loaded_once l name v r l1 l2 : well_named l -> scopes_valid l ->
  get_assembly_with_version l name v = (inr r, l1) -> rtc loader_step l1 l2 ->
  get_assembly_with_version l2 name v = (inr r, l2) /\
  forall v' r' l3, get_assembly_with_version l2 name v' = (inr r', l3) -> r' = r.
Proof.
  intros Hw Hv Hg Hs. destruct (get_loads _ _ _ _ _ Hw Hv Hg) as [Hl Hc].
  assert (Hw1 : well_named l1) by (replace l1 with (get_assembly_with_version l name v).2 by (by rewrite Hg); by apply get_keeps).
  destruct (steps_keep _ _ Hw1 Hs) as (Hr & Hk & _). destruct (Hk _ _ Hl) as [Hn _].
  assert (Hsame : forall v', get_assembly_with_version l2 name v' =
            (check_version strict_versioning l2 name (redirected redirects name <$> v') r, l2)).
  { intros v'. unfold Assemblies.get_assembly_with_version. by rewrite Hn. }
  split.
  - rewrite Hsame. f_equal. rewrite <- Hc. unfold check_version. destruct Hl as [_ [x Hx]]. by rewrite (Hr _ _ Hx), Hx.
  - intros v' r' l3. rewrite Hsame. intros [= H _]. by apply check_version_kept in H.
Qed.
End once.

(** ** Requests on several threads

    Other threads run between the look at the table, reading the file, and the entry of
    the result. *)
Section threads.
Context (in_root : string -> string) (exists_file : string -> bool) (parse : string -> AssemblyLoadError + Resolution).

Inductive pc : Set :=
| Asking (name : string)
| Missing (name : string) (check_exists : bool)
| Read_ (name : string) (r : nat)
| Served (name : string) (r : nat)
| Refused (name : string) (e : AssemblyLoadError).

Definition thread_step (l : loader) (p : pc) : loader * pc :=
  match p with
  | Asking name =>
      match external l !! name with
      | None => (l, Missing name true)
      | Some None => (l, Missing name false)
      | Some (Some r) => (l, Served name r)
      end
  | Missing name check_exists =>
      let file := file_of in_root l name in
      if check_exists && negb (exists_file file) then (l, Refused name (not_found in_root l name))
      else
        match load_resolution_from_file parse l file with
        | (inl e, l) => (l, Refused name e)
        | (inr r, l) => (l, Read_ name r)
        end
  | Read_ name r =>
      match register l name r with
      | (inl e, l) => (l, Refused name e)
      | (inr r, l) => (l, Served name r)
      end
  | p => (l, p)
  end.

Fixpoint run_threads (schedule : list nat) (l : loader) (ps : list pc) : loader * list pc :=
  match schedule with
  | [] => (l, ps)
  | t :: schedule =>
      match ps !! t with
      | Some p => let '(l, p) := thread_step l p in run_threads schedule l (<[t := p]> ps)
      | None => run_threads schedule l ps
      end
  end.

(** A request that is not interrupted is [get_assembly]. *)
Lemma alone redirects strict l name :
  run_threads [0; 0; 0]%nat l [Asking name] =
    match get_assembly in_root exists_file parse redirects strict l name with
    | (inr r, l) => (l, [Served name r])
    | (inl e, l) => (l, [Refused name e])
    end.
Proof.
  unfold get_assembly, get_assembly_with_version, load_and_register, check_version. cbn -[register load_resolution_from_file].
  destruct (external l !! name) as [[r|]|] eqn:Hn; cbn -[register load_resolution_from_file]; [done|..].
  - destruct (load_resolution_from_file parse l (file_of in_root l name)) as [[e|r] l'] eqn:Hl; cbn -[register load_resolution_from_file]; [done|].
    by destruct (register l' name r) as [[e|r'] l''].
  - destruct (exists_file (file_of in_root l name)); cbn -[register load_resolution_from_file]; [|done].
    destruct (load_resolution_from_file parse l (file_of in_root l name)) as [[e|r] l'] eqn:Hl; cbn -[register load_resolution_from_file]; [done|].
    by destruct (register l' name r) as [[e|r'] l''].
Qed.
End threads.

(** ** Two scopes for one assembly *)

Section identity.
Definition demo_version : Version := {| major := 1; minor := 0; build := 0; revision := 0 |}.
Definition demo_assembly (name : string) : Resolution :=
  {| assembly := Some (name, demo_version); type_definitions := []; exported_types := []; assembly_references := [];
     type_references := []; method_references := []; field_references := [] |}.

Definition demo_table : loader :=
  {| external := {[ "App"%string := None ]}; probing_paths := ∅; metadata_arena := [] |}.

(** A file system with the files [App.dll] and [Facade.dll], which hold [app] and [facade]. *)
Definition demo_parse (app facade path : string) : AssemblyLoadError + Resolution :=
  if bool_decide (path = "App.dll"%string) then inr (demo_assembly app)
  else if bool_decide (path = "Facade.dll"%string) then inr (demo_assembly facade)
  else inl (IoError path).

Lemma append_length (s t : string) : String.length (s +:+ t) = (String.length s + String.length t)%nat.
Proof. induction s as [|a s IH]; [done|]. simpl. by rewrite IH. Qed.

Lemma append_inj_r (s t u : string) : s +:+ u = t +:+ u -> s = t.
Proof.
  revert t. induction s as [|a s IH]; intros [|b t] H; [done|..].
  - apply (f_equal String.length) in H. rewrite !append_length in H. simpl in H. lia.
  - apply (f_equal String.length) in H. rewrite !append_length in H. simpl in H. lia.
  - injection H as -> H. f_equal. by apply IH.
Qed.

Lemma demo_named : well_named id (demo_parse "App" "Facade") demo_table.
Proof.
  intros name res a v. unfold file_of, demo_table, demo_parse, id. simpl.
  case_bool_decide as H1; [|case_bool_decide as H2; [|done]]; intros [= <-] [= <- _].
  - symmetry. by apply (append_inj_r _ "App" ".dll").
  - symmetry. by apply (append_inj_r _ "Facade" ".dll").
Qed.

Abbreviation demo_get := (get_assembly_with_version id (fun _ => true) (demo_parse "App" "Facade") (fun _ => None) true).

Lemma assembly_loaded_once_witness :
  demo_get (demo_get (demo_get demo_table "App" (Some demo_version)).2 "Facade" None).2 "App" (Some demo_version) =
    (inr 1%nat, (demo_get (demo_get demo_table "App" (Some demo_version)).2 "Facade" None).2).
Proof.
  refine (proj1 (assembly_loaded_once id (fun _ => true) (demo_parse "App" "Facade") (fun _ => None) true demo_table "App"
    (Some demo_version) 1%nat (demo_get demo_table "App" (Some demo_version)).2 _ demo_named _ _ (rtc_once _ _ (step_get _ _ _ _ _ _ _ _)))).
  - intros n r H. unfold demo_table in H. simpl in H. apply lookup_singleton_Some in H as [_ [=]].
  - vm_compute. reflexivity.
Defined.

(** An assembly can be loaded more than once: two threads that ask for it at the same
    time get different scopes for one file, and a file that holds an assembly of
    another name replaces the scope of that assembly when it is loaded. *)
Theorem assembly_loaded_twice :
  (exists schedule l r1 r2, well_named id (demo_parse "App" "Facade") demo_table /\
    run_threads id (fun _ => true) (demo_parse "App" "Facade") schedule demo_table [Asking "App"; Asking "App"] =
      (l, [Served "App" r1; Served "App" r2]) /\
    r1 <> r2 /\ resolution_at l r1 = resolution_at l r2) /\
  (exists l1 l2 r1 r2 r3,
    get_assembly id (fun _ => true) (demo_parse "App" "App") (fun _ => None) true demo_table "App" = (inr r1, l1) /\
    get_assembly id (fun _ => true) (demo_parse "App" "App") (fun _ => None) true l1 "Facade" = (inr r2, l2) /\
    get_assembly id (fun _ => true) (demo_parse "App" "App") (fun _ => None) true l2 "App" = (inr r3, l2) /\ r3 <> r1).
Proof.
  split.
  - exists [0; 1; 0; 1; 0; 1]%nat. do 3 eexists. split; [apply demo_named|]. split; [vm_compute; reflexivity|]. by split.
  - do 5 eexists. split; [vm_compute; reflexivity|]. split; [vm_compute; reflexivity|]. split; [vm_compute; reflexivity|]. done.
Qed.
End identity.
