(* ===== verification/Locating.v ===== *)
(** * Locating types

    From names and metadata tokens to type definitions: forwarders, stubs, the core
    library and the caches ([dotnet-assemblies/src/resolution.rs] and
    [dotnet-assemblies/src/ancestors.rs]).

    The assemblies the program refers to are loaded: asking for one gives its scope, or
    the error it was refused with ([Assemblies.assembly_loaded_once]).  Following
    forwarders takes fuel, since nothing bounds it; [None] means it ran out. *)

From Stdlib Require Import ZArith Lia Ascii.
From stdpp Require Import base tactics list option strings gmap.
From S2P Require Import Prelude ManagedPtr Ops Generics Comparer WellKnown Assemblies.

(** ** What is loaded, and what the metadata reader prints *)

Class AssemblyTable : Type := {
  get : string -> option Version -> AssemblyLoadError + nat;
  known : string -> bool;
  resolution_of : nat -> option Resolution;
}.

Class MetadataNames : Type := {
  full_name : option string -> string -> string;
  nested_name : nat -> nat -> string;
  user_name : UserType -> nat -> string;
  load_error : AssemblyLoadError -> string;
  show_with_name : MethodSignature MethodType -> nat -> string -> string;
  default_version : Version;
}.

(** Results of a lookup. *)
Abbreviation F A := (option (outcome TypeResolutionError A)) (only parsing).

Definition f_bind {A B} (x : F A) (k : A -> F B) : F B :=
  match x with
  | Some (Val a) => k a
  | Some (Err e) => Some (Err e)
  | Some Panic => Some Panic
  | None => None
  end.
Notation "'let&' x ':=' m 'in' k" := (f_bind m (fun x => k))
  (at level 10, x pattern, m at level 100, k at level 200) : vm_scope.

Definition ok {A} (a : A) : F A := Some (Val a).
Definition fails {A} (e : TypeResolutionError) : F A := Some (Err e).
Definition panics {A} : F A := Some Panic.

(** [Result::ok] *)
Definition f_ok {A} (x : F A) : F (option A) :=
  match x with
  | Some (Val a) => ok (Some a)
  | Some (Err _) => ok None
  | Some Panic => panics
  | None => None
  end.

(** ** Names *)

(** The parts before and after the last dot. *)
Fixpoint split_last (s : string) : option (string * string) :=
  match s with
  | EmptyString => None
  | String a s =>
      match split_last s with
      | Some (p, q) => Some (String a p, q)
      | None => if bool_decide (a = "."%char) then Some (EmptyString, s) else None
      end
  end.

Definition parse_name (full : string) : string * string := default (""%string, full) (split_last full).

Fixpoint contains_char (c : ascii) (s : string) : bool :=
  match s with EmptyString => false | String a s => bool_decide (a = c) || contains_char c s end.

(** [replace('/', "+")] *)
Fixpoint normalized (s : string) : string :=
  match s with EmptyString => EmptyString | String a s => String (if bool_decide (a = "/"%char) then "+"%char else a) (normalized s) end.

Definition named_so (ns name : string) (n : string) (o : option string) : bool :=
  bool_decide (n = name) && bool_decide (default ""%string o = ns).

Definition definition_index (res : Resolution) (ns name : string) : option nat :=
  fst <$> list_find (fun t => named_so ns name (type_def_name t) (namespace t) = true) (type_definitions res).

Definition exported_type (res : Resolution) (ns name : string) : option ExportedType :=
  List.find (fun e => named_so ns name (exported_name e) (exported_namespace e)) (exported_types res).

Definition SUPPORT_ASSEMBLY : string := "__dotnetrs_support".

Section locating.
Context {T : AssemblyTable} {N : MetadataNames} (stubs : gmap string TypeDescription) (reverse_stubs : gmap string string).

(** [ResolutionS::definition] *)
Definition scope_metadata (r : nat) : F Resolution := match resolution_of r with Some res => ok res | None => panics end.

Definition canonical_name (n : string) : string := default n (reverse_stubs !! n).

Definition display_name (r i : nat) : string := if (r =? 0)%nat then "UNRESOLVED_TYPE_DEF" else nested_name r i.

Definition find_nested_type_definition_index (r : nat) (res : Resolution) (full : string) : option nat :=
  if negb (contains_char "+" full || contains_char "/" full) then None
  else
    fst <$> list_find (fun x => bool_decide (is_Some (encloser x.2)) && bool_decide (normalized (display_name r x.1) = normalized full) = true)
              (imap pair (type_definitions res)).

Definition parse_and_find_type_definition_index (r : nat) (res : Resolution) (full : string) (include_nested_fallback : bool)
  : string * string * option nat :=
  let '(ns, name) := parse_name full in
  match definition_index res ns name with
  | Some i => (ns, name, Some i)
  | None => (ns, name, if include_nested_fallback then find_nested_type_definition_index r res full else None)
  end.

Definition find_exported_type (find_in_assembly : string * Version -> string -> F TypeDescription) (res : Resolution) (e : ExportedType)
  : F TypeDescription :=
  let name := full_name (exported_namespace e) (exported_name e) in
  match implementation e with
  | ImplNested => fails (TypeNotFound ("Nested exported type not implemented: " +:+ name))
  | ImplModuleFile => fails (TypeNotFound ("ModuleFile exported type not implemented: " +:+ name))
  | TypeForwarder a => match assembly_references res !! a with Some asm => find_in_assembly asm name | None => panics end
  end.

Definition get_scope (name : string) (v : option Version) : F nat :=
  match get name v with inl e => fails (AssemblyLoadFailed (load_error e)) | inr r => ok r end.

Fixpoint find_in_assembly (fuel : nat) (asm : string * Version) (full : string) : F TypeDescription :=
  match fuel with
  | O => None
  | S fuel =>
      match stubs !! full with
      | Some t => ok t
      | None =>
          let& r := get_scope asm.1 (Some asm.2) in
          let& res := scope_metadata r in
          let '(ns, name, i) := parse_and_find_type_definition_index r res full false in
          match i with
          | Some i => ok {| resolution := r; index := i |}
          | None =>
              match exported_type res ns name with
              | Some e => find_exported_type (find_in_assembly fuel) res e
              | None => fails (TypeNotFound ("could not find type " +:+ full +:+ " in assembly " +:+ asm.1))
              end
          end
      end
  end.

Definition try_find_in_assembly (fuel : nat) (r : nat) (full : string) : F (option TypeDescription) :=
  let& res := scope_metadata r in
  let '(ns, name, i) := parse_and_find_type_definition_index r res full false in
  match i with
  | Some i => ok (Some {| resolution := r; index := i |})
  | None =>
      match exported_type res ns name with
      | Some e => f_ok (find_exported_type (find_in_assembly fuel) res e)
      | None =>
          let '(_, _, j) := parse_and_find_type_definition_index r res full true in
          ok ((fun j => {| resolution := r; index := j |}) <$> j)
      end
  end.

(** ** The core library *)

(** One of the assemblies of the core library, if the loader knows of it. *)
Definition try_known (fuel : nat) (asm name : string) : F (option TypeDescription) :=
  if known asm then let& r := get_scope asm None in try_find_in_assembly fuel r name else ok None.

Definition corlib_type_internal (fuel : nat) (name : string) : F TypeDescription :=
  match stubs !! name with
  | Some t => ok t
  | None =>
      let& a := try_known fuel "mscorlib" name in
      match a with
      | Some t => ok t
      | None =>
          let& b := try_known fuel "System.Private.CoreLib" name in
          match b with
          | Some t => ok t
          | None =>
              let& c := try_known fuel SUPPORT_ASSEMBLY name in
              match c with
              | Some t => ok t
              | None =>
                  if known "mscorlib" then fails (TypeNotFound ("could not find type " +:+ name +:+ " in corlib"))
                  else find_in_assembly fuel ("mscorlib"%string, default_version) name
              end
          end
      end
  end.

Definition corlib_type_internal_for_wkt (fuel : nat) (w : WellKnown) : F TypeDescription :=
  match w with
  | WExceptionDispatchState =>
      match corlib_type_internal fuel "System.Exception/DispatchState" with
      | Some (Err _) => corlib_type_internal fuel "System.Exception+DispatchState"
      | r => r
      end
  | w => corlib_type_internal fuel (WellKnownNames.name w)
  end.

(** ** Tokens *)

Fixpoint locate_type_ref (fuel : nat) (r : nat) (i : nat) : F TypeDescription :=
  match fuel with
  | O => None
  | S fuel =>
      let& res := scope_metadata r in
      match type_references res !! i with
      | None => panics
      | Some ref =>
          let name := full_name (ref_namespace ref) (ref_name ref) in
          match scope ref with
          | ExternalModule => fails (TypeNotFound ("ExternalModule scope not implemented for type: " +:+ name))
          | CurrentModule => fails (TypeNotFound ("CurrentModule scope not implemented for type: " +:+ name))
          | ExportedScope => fails (TypeNotFound ("Exported (type-forwarder) scope not implemented for type: " +:+ name))
          | AssemblyScope a => match assembly_references res !! a with Some asm => find_in_assembly fuel asm name | None => panics end
          | NestedScope o =>
              let& td := locate_type_ref fuel r o in
              let& owner_res := scope_metadata (resolution td) in
              match type_definitions owner_res !! index td with
              | None => panics
              | Some owner =>
                  match list_find (fun t => bool_decide (encloser t = Some (index td)) &&
                          bool_decide (full_name (namespace t) (type_def_name t) = name) = true) (type_definitions owner_res) with
                  | Some (j, _) => ok {| resolution := resolution td; index := j |}
                  | None => fails (TypeNotFound ("could not find type " +:+ name +:+ " nested in " +:+
                                                 full_name (namespace owner) (type_def_name owner)))
                  end
              end
          end
      end
  end.

Definition resolve_token (fuel : nat) (r : nat) (u : UserType) : F TypeDescription :=
  match u with
  | Definition_ d => ok {| resolution := r; index := d |}
  | Reference_ i => locate_type_ref fuel r i
  end.
End locating.

(** ** Caches *)

#[export] Instance UserType_countable : Countable UserType.
Proof.
  refine (inj_countable' (fun u => match u with Definition_ i => inl i | Reference_ i => inr i end)
                         (fun x => match x with inl i => Definition_ i | inr i => Reference_ i end) _). by intros [].
Defined.

Record lookup_caches : Set := {
  type_cache : gmap (nat * UserType) TypeDescription;
  wkt_table : list (option TypeDescription);
  dynamic_corlib_cache : gmap string TypeDescription;
}.

Definition new_caches : lookup_caches :=
  {| type_cache := ∅; wkt_table := replicate WellKnownNames.COUNT None; dynamic_corlib_cache := ∅ |}.

Section caching.
Context {T : AssemblyTable} {N : MetadataNames} (stubs : gmap string TypeDescription) (fuel : nat).

Definition LC (A : Type) : Type := lookup_caches -> option (outcome TypeResolutionError A * lookup_caches).

(** A computed answer is kept if it is one. *)
Definition cache_with (save : TypeDescription -> lookup_caches -> lookup_caches) (x : F TypeDescription) : LC TypeDescription := fun c =>
  match x with
  | Some (Val t) => Some (Val t, save t c)
  | Some r => Some (r, c)
  | None => None
  end.

Definition corlib_type (name : string) : LC TypeDescription := fun c =>
  match dynamic_corlib_cache c !! name with
  | Some t => Some (Val t, c)
  | None =>
      cache_with (fun t c => {| type_cache := type_cache c; wkt_table := wkt_table c;
                                dynamic_corlib_cache := <[name := t]> (dynamic_corlib_cache c) |})
        (corlib_type_internal stubs fuel name) c
  end.

(** The cell of a well-known type is written once, by whoever resolves it. *)
Definition corlib_wkt (w : WellKnown) : LC TypeDescription := fun c =>
  match wkt_table c !! WellKnownNames.discriminant w with
  | None => Some (Panic, c)
  | Some (Some t) => Some (Val t, c)
  | Some None =>
      cache_with (fun t c => {| type_cache := type_cache c;
                                wkt_table := <[WellKnownNames.discriminant w := Some t]> (wkt_table c);
                                dynamic_corlib_cache := dynamic_corlib_cache c |})
        (corlib_type_internal_for_wkt stubs fuel w) c
  end.

Definition locate_type (r : nat) (u : UserType) : LC TypeDescription := fun c =>
  match type_cache c !! (r, u) with
  | Some t => Some (Val t, c)
  | None =>
      cache_with (fun t c => {| type_cache := <[(r, u) := t]> (type_cache c); wkt_table := wkt_table c;
                                dynamic_corlib_cache := dynamic_corlib_cache c |})
        (resolve_token stubs fuel r u) c
  end.

Definition prim_type (p : prim) : WellKnown :=
  match p with
  | Boolean => WBoolean | Char => WChar | Int8 => WSByte | UInt8 => WByte | Int16 => WInt16 | UInt16 => WUInt16
  | Int32 => WInt32 | UInt32 => WUInt32 | Int64 => WInt64 | UInt64 => WUInt64 | Float32 => WSingle | Float64 => WDouble
  | IntPtr => WIntPtr | UIntPtr => WUIntPtr | Object_ => WObject | String_ => WString
  end.

(** The token or the well-known type a concrete type is found by. *)
Definition concrete_key (ty : ConcreteType) : (nat * UserType) + WellKnown :=
  match ct_base ty with
  | BType source _ => inl (ct_source ty, (decompose_type_source source).1)
  | BPrim p => inr (prim_type p)
  | BValuePointer _ _ | BFunctionPointer _ => inr WIntPtr
  | BVector _ _ | BArray _ _ => inr WArray
  end.

Definition find_concrete_type (ty : ConcreteType) : LC TypeDescription :=
  match concrete_key ty with inl (r, u) => locate_type r u | inr w => corlib_wkt w end.

(** *** Without the caches *)

Definition find_concrete_uncached (ty : ConcreteType) : F TypeDescription :=
  match concrete_key ty with inl (r, u) => resolve_token stubs fuel r u | inr w => corlib_type_internal_for_wkt stubs fuel w end.

Inductive query : Set := QCorlib (name : string) | QWellKnown (w : WellKnown) | QToken (r : nat) (u : UserType) | QConcrete (ty : ConcreteType).

Definition ask_caches (q : query) : LC TypeDescription :=
  match q with
  | QCorlib name => corlib_type name
  | QWellKnown w => corlib_wkt w
  | QToken r u => locate_type r u
  | QConcrete ty => find_concrete_type ty
  end.

Definition ask_uncached (q : query) : F TypeDescription :=
  match q with
  | QCorlib name => corlib_type_internal stubs fuel name
  | QWellKnown w => corlib_type_internal_for_wkt stubs fuel w
  | QToken r u => resolve_token stubs fuel r u
  | QConcrete ty => find_concrete_uncached ty
  end.

(** The caches after some queries, each of which came back. *)
Fixpoint after_queries (qs : list query) (c : lookup_caches) : option lookup_caches :=
  match qs with [] => Some c | q :: qs => match ask_caches q c with Some (_, c) => after_queries qs c | None => None end end.

Definition coherent (c : lookup_caches) : Prop :=
  (forall r u t, type_cache c !! (r, u) = Some t -> resolve_token stubs fuel r u = ok t) /\
  (forall w t, wkt_table c !! WellKnownNames.discriminant w = Some (Some t) -> corlib_type_internal_for_wkt stubs fuel w = ok t) /\
  (forall n t, dynamic_corlib_cache c !! n = Some t -> corlib_type_internal stubs fuel n = ok t) /\
  length (wkt_table c) = WellKnownNames.COUNT.

(** The answer is that of [x], and the caches stay coherent. *)
Definition agrees (x : F TypeDescription) (m : LC TypeDescription) : Prop := forall c, coherent c ->
  match m c with
  | None => x = None
  | Some (o, c') => x = Some o /\ coherent c'
  end.

Lemma cache_with_agrees save x c : coherent c -> (forall t, x = ok t -> coherent (save t c)) ->
  match cache_with save x c with None => x = None | Some (o, c') => x = Some o /\ coherent c' end.
Proof. intros Hc Hs. unfold cache_with. destruct x as [[t|e|]|]; try done. split; [done | by apply Hs]. Qed.

Lemma corlib_type_agrees n : agrees (corlib_type_internal stubs fuel n) (corlib_type n).
Proof.
  intros c Hc. unfold corlib_type. pose proof Hc as (H1 & H2 & H3 & H4). destruct (dynamic_corlib_cache c !! n) as [t|] eqn:E.
  - split; [by apply H3 | done].
  - apply cache_with_agrees; [done|]. intros t Ht. split; [done|]. split; [done|]. split; [|done]. simpl.
    intros m s [[-> ->]|[Hm Hs]]%lookup_insert_Some; [done | auto].
Qed.

Lemma corlib_wkt_agrees w : agrees (corlib_type_internal_for_wkt stubs fuel w) (corlib_wkt w).
Proof.
  intros c Hc. unfold corlib_wkt. pose proof Hc as (H1 & H2 & H3 & H4).
  destruct (wkt_table c !! WellKnownNames.discriminant w) as [[t|]|] eqn:E.
  - split; [by apply H2 | done].
  - apply cache_with_agrees; [done|]. intros t Ht. split; [done|]. split; [|split; [done | simpl; by rewrite length_insert]]. simpl.
    intros v s Hv. apply list_lookup_insert_Some in Hv as [(Hd & [= ->] & _)|[Hd Hv]]; [|auto].
    by apply WellKnownNames.discriminant_inj in Hd as ->.
  - apply lookup_ge_None in E. pose proof (WellKnownNames.discriminant_bound w). lia.
Qed.

Lemma locate_type_agrees r u : agrees (resolve_token stubs fuel r u) (locate_type r u).
Proof.
  intros c Hc. unfold locate_type. pose proof Hc as (H1 & H2 & H3 & H4). destruct (type_cache c !! (r, u)) as [t|] eqn:E.
  - split; [by apply H1 | done].
  - apply cache_with_agrees; [done|]. intros t Ht. split; [|done]. simpl.
    intros r' u' s [[[= -> ->] ->]|[Hm Hs]]%lookup_insert_Some; [done | auto].
Qed.

Lemma ask_agrees q : agrees (ask_uncached q) (ask_caches q).
Proof.
  destruct q as [n|w|r u|ty]; [apply corlib_type_agrees | apply corlib_wkt_agrees | apply locate_type_agrees|].
  simpl. unfold find_concrete_uncached, find_concrete_type. destruct (concrete_key ty) as [[r u]|w];
    [apply locate_type_agrees | apply corlib_wkt_agrees].
Qed.

Lemma new_coherent : coherent new_caches.
Proof.
  unfold coherent, new_caches. cbn [type_cache wkt_table dynamic_corlib_cache].
  split; [intros *; by rewrite lookup_empty|]. split; [|split; [intros *; by rewrite lookup_empty | done]]. intros w t H. by apply lookup_replicate in H as [H _].
Qed.

Lemma after_queries_coherent qs c c' : coherent c -> after_queries qs c = Some c' -> coherent c'.
Proof.
  revert c. induction qs as [|q qs IH]; simpl; intros c Hc; [by intros [= <-]|].
  pose proof (ask_agrees q c Hc) as Ha. destruct (ask_caches q c) as [[o c1]|]; [|done]. apply IH, Ha.
Qed.

(** The caches of the loader change no answer: after any lookups, each lookup, by token,
    by concrete type, by name in the core library or of a well-known type, answers what
    it would without caches; failures are not cached. *)
Theorem type_caches_transparent qs c q : after_queries qs new_caches = Some c ->
  fst <$> ask_caches q c = ask_uncached q.
Proof.
  intros H. pose proof (ask_agrees q c (after_queries_coherent _ _ _ new_coherent H)) as Ha.
  destruct (ask_caches q c) as [[o c']|]; simpl; [by destruct Ha as [-> _] | done].
Qed.
End caching.

(** ** Following forwarders *)

Lemma split_last_none s : contains_char "." s = false -> split_last s = None.
Proof.
  induction s as [|a s IH]; [done|]. simpl. case_bool_decide; [done|]. simpl. intros H'. by rewrite IH.
Qed.

Lemma split_last_app p q : contains_char "." q = false -> split_last (p +:+ "." +:+ q) = Some (p, q).
Proof.
  intros Hq. induction p as [|a p IH]; simpl.
  - by rewrite split_last_none.
  - change (split_last (p +:+ "." +:+ q)) with (split_last (p +:+ "." +:+ q)) in IH. simpl in IH. by rewrite IH.
Qed.

Lemma split_last_some s p q : split_last s = Some (p, q) -> contains_char "." q = false.
Proof.
  revert p q. induction s as [|a s IH]; intros p q; simpl; [done|].
  destruct (split_last s) as [[p' q']|] eqn:E; [intros [= <- <-]; by eapply IH|].
  case_bool_decide; [|done]. intros [= <- <-]. clear -E. induction s as [|b s IHs]; [done|]. simpl in *.
  destruct (split_last s) as [[]|]; [done|]. case_bool_decide; [done|]. simpl. by apply IHs.
Qed.

Lemma parse_name_dotless full ns name : parse_name full = (ns, name) -> contains_char "." name = false.
Proof.
  unfold parse_name. destruct (split_last full) as [[p q]|] eqn:E; simpl; [intros [= <- <-]; by eapply split_last_some|].
  intros [= <- <-]. induction full as [|a s IH]; [done|]. simpl in *.
  destruct (split_last s) as [[]|]; [done|]. case_bool_decide; [done|]. simpl. by apply IH.
Qed.

Section forwarding.
Context {T : AssemblyTable} {N : MetadataNames} (stubs : gmap string TypeDescription).

(** The reader prints a type as its name, after its namespace and a dot if it has one. *)
Hypothesis full_name_dotted : forall ns n, full_name ns n = match ns with Some ns => ns +:+ "." +:+ n | None => n end.

(** The scope exports the type from another assembly. *)
Definition forwards (ns name : string) (r r' : nat) : Prop :=
  exists res e a asm v, resolution_of r = Some res /\ definition_index res ns name = None /\
    exported_type res ns name = Some e /\ implementation e = TypeForwarder a /\
    assembly_references res !! a = Some (asm, v) /\ get asm (Some v) = inr r'.

(** The definition of a type, in the scope itself or where its forwarders lead. *)
Inductive defined_at (ns name : string) : nat -> TypeDescription -> Prop :=
| defined_here r res i : resolution_of r = Some res -> definition_index res ns name = Some i ->
    defined_at ns name r {| resolution := r; index := i |}
| defined_there r r' td : forwards ns name r r' -> defined_at ns name r' td -> defined_at ns name r td.

Lemma definition_index_some res ns name i : definition_index res ns name = Some i ->
  exists t, type_definitions res !! i = Some t /\ type_def_name t = name /\ default ""%string (namespace t) = ns.
Proof.
  unfold definition_index. intros ([j t] & (Ht & Hn & _)%list_find_Some & ->)%fmap_Some. exists t.
  apply andb_prop in Hn as [H1%bool_decide_eq_true H2%bool_decide_eq_true]. done.
Qed.

Lemma defined_at_named ns name r td : defined_at ns name r td -> exists res t,
  resolution_of (resolution td) = Some res /\ type_definitions res !! index td = Some t /\
  type_def_name t = name /\ default ""%string (namespace t) = ns.
Proof. induction 1 as [r res i Hr (t & Ht)%definition_index_some|]; [|done]. simpl. naive_solver. Qed.

Lemma defined_at_unfold ns name r td : defined_at ns name r td <->
  (exists res i, resolution_of r = Some res /\ definition_index res ns name = Some i /\ td = {| resolution := r; index := i |}) \/
  (exists r', forwards ns name r r' /\ defined_at ns name r' td).
Proof. split; [inversion 1; subst; naive_solver|]. intros [(res & i & Hr & Hi & ->)|(r' & Hf & Hd)]; by econstructor. Qed.

(** A scope that neither defines nor forwards the type does not have it. *)
Lemma undefined_at ns name r td : (forall res, resolution_of r = Some res -> definition_index res ns name = None) ->
  (forall r', ~ forwards ns name r r') -> ~ defined_at ns name r td.
Proof. intros Hi Hf [(res & i & Hr & H & _)|(r' & H & _)]%defined_at_unfold; [by rewrite (Hi res) in H | by apply Hf in H]. Qed.

(** A forwarded type is asked for under the same name. *)
Lemma exported_name_parsed res ns name e full : parse_name full = (ns, name) -> exported_type res ns name = Some e ->
  parse_name (full_name (exported_namespace e) (exported_name e)) = (ns, name).
Proof.
  intros Hp%parse_name_dotless [_ He]%find_some. apply andb_prop in He as [H1%bool_decide_eq_true H2%bool_decide_eq_true].
  rewrite full_name_dotted, H1. unfold parse_name. destruct (exported_namespace e) as [n|]; simpl in H2; subst.
  - by rewrite split_last_app.
  - by rewrite split_last_none.
Qed.

Section name.
Context (ns name : string).
Hypothesis no_stub : forall full, parse_name full = (ns, name) -> stubs !! full = None.

(** Forwarders of the type lead to scopes of lower rank. *)
Context (rank : nat -> nat).
Hypothesis ranked : forall r r', forwards ns name r r' -> (rank r' < rank r)%nat.

(** An answer that is not a type is right where the type is not defined. *)
Lemma no_answer (o : outcome TypeResolutionError TypeDescription) r : (forall td, o <> Val td) -> (forall td, ~ defined_at ns name r td) ->
  exists o', Some o = Some o' /\ forall td, o' = Val td <-> defined_at ns name r td.
Proof. intros Ho Hd. exists o. split; [done|]. intros td. split; intros H; [by apply Ho in H | by apply Hd in H]. Qed.

Lemma find_in_assembly_defined fuel asm full r : parse_name full = (ns, name) -> get asm.1 (Some asm.2) = inr r ->
  (S (rank r) < fuel)%nat -> exists o, find_in_assembly stubs fuel asm full = Some o /\ forall td, o = Val td <-> defined_at ns name r td.
Proof.
  revert asm full r. induction fuel as [|fuel IH]; intros asm full r Hp Hg Hr; [lia|]. cbn [find_in_assembly].
  rewrite no_stub by done. unfold get_scope. rewrite Hg. cbn [f_bind ok]. unfold scope_metadata.
  destruct (resolution_of r) as [res|] eqn:Hres; cbn [f_bind ok panics].
  2: { apply no_answer; [done|]. intros td. apply undefined_at; [congruence|]. intros r' (res & ? & ? & ? & ? & ? & _). congruence. }
  unfold parse_and_find_type_definition_index. rewrite Hp. destruct (definition_index res ns name) as [i|] eqn:Hi.
  { eexists. split; [done|]. intros td. rewrite defined_at_unfold. split; [intros [= <-]; left; eauto|].
    intros [(res' & j & ? & ? & ->)|(r' & (res' & ? & ? & ? & ? & ? & ? & _) & _)]; by simplify_eq. }
  assert (Hun : (forall e a asm' v r', exported_type res ns name = Some e -> implementation e = TypeForwarder a ->
      assembly_references res !! a = Some (asm', v) -> get asm' (Some v) <> inr r') -> forall td, ~ defined_at ns name r td).
  { intros H td. apply undefined_at; [congruence|]. intros r' (res' & e & a & asm' & v & ? & ? & ? & ? & ? & ?). simplify_eq. by eapply H. }
  destruct (exported_type res ns name) as [e|] eqn:He; [|apply no_answer; [done|]; apply Hun; congruence].
  unfold find_exported_type. destruct (implementation e) as [| |a] eqn:Hm; [apply no_answer; [done|]; apply Hun; congruence..|].
  destruct (assembly_references res !! a) as [[asm' v]|] eqn:Ha; [|apply no_answer; [done|]; apply Hun; congruence].
  pose proof (exported_name_parsed _ _ _ _ _ Hp He) as Hp'. destruct (get asm' (Some v)) as [err|r'] eqn:Hg'.
  { destruct fuel as [|fuel]; [lia|]. cbn [find_in_assembly]. rewrite no_stub by done. unfold get_scope. cbn [fst snd]. rewrite Hg'.
    apply no_answer; [done|]. apply Hun. congruence. }
  assert (Hf : forwards ns name r r') by (exists res, e, a, asm', v; done).
  destruct (IH (asm', v) _ r' Hp' Hg') as (o & Ho & Hd); [specialize (ranked _ _ Hf); lia|].
  exists o. split; [done|]. intros td. rewrite Hd, (defined_at_unfold ns name r). split; [eauto|].
  intros [(? & ? & ? & ? & _)|(r2 & (res2 & e2 & a2 & asm2 & v2 & ? & ? & ? & ? & ? & ?) & Ht)]; [congruence|].
  assert (res2 = res) as -> by congruence. assert (e2 = e) as -> by congruence. assert (a2 = a) as -> by congruence.
  assert (asm2 = asm' /\ v2 = v) as [-> ->] by (split; congruence). by assert (r2 = r') as -> by congruence.
Qed.
End name.

(** A type is found by name exactly where it is defined: with fuel for two steps more
    than the rank of the scope, the search ends, and it gives a definition if and only
    if it is the one the forwarders lead to, which has that name and namespace; a stub
    of the name takes precedence over any assembly. *)
Theorem type_lookup_exact ns name rank fuel asm full r :
  parse_name full = (ns, name) -> (forall r r', forwards ns name r r' -> (rank r' < rank r)%nat) ->
  get asm.1 (Some asm.2) = inr r -> (S (rank r) < fuel)%nat ->
  match stubs !! full with
  | Some t => find_in_assembly stubs fuel asm full = ok t
  | None =>
      (forall full', parse_name full' = (ns, name) -> stubs !! full' = None) ->
      exists o, find_in_assembly stubs fuel asm full = Some o /\
        (forall td, o = Val td <-> defined_at ns name r td) /\
        forall td, o = Val td -> exists res t, resolution_of (resolution td) = Some res /\
          type_definitions res !! index td = Some t /\ type_def_name t = name /\ default ""%string (namespace t) = ns
  end.
Proof.
  intros Hp Hr Hg Hf. destruct (stubs !! full) as [t|] eqn:Hs; [destruct fuel; [lia|]; simpl; by rewrite Hs|].
  intros Hn. destruct (find_in_assembly_defined ns name Hn rank Hr fuel asm full r Hp Hg Hf) as (o & Ho & Hd).
  exists o. split; [done|]. split; [done|]. intros td ?%Hd. by eapply defined_at_named.
Qed.
End forwarding.

(** ** The table of a loader *)

Section settled.
Context (in_root : string -> string) (exists_file : string -> bool) (parse : string -> AssemblyLoadError + Resolution)
  (redirects : string -> option (list BindingRedirect)) (strict_versioning : bool).

(** Requests change nothing: what can be loaded is loaded. *)
Definition settled (l : loader) : Prop := forall name v,
  (get_assembly_with_version in_root exists_file parse redirects strict_versioning l name v).2 = l.

Definition table_of (l : loader) : AssemblyTable := {|
  get name v := (get_assembly_with_version in_root exists_file parse redirects strict_versioning l name v).1;
  known name := bool_decide (is_Some (external l !! name));
  resolution_of := resolution_at l;
|}.

(** The table is settled once every name is loaded or refused without reading a file. *)
Lemma settled_table l : (forall name, (exists r, external l !! name = Some (Some r)) \/
    (external l !! name = None /\ exists_file (file_of in_root l name) = false)) -> settled l.
Proof.
  intros H name v. unfold get_assembly_with_version. destruct (H name) as [[r ->]|[-> Hf]]; [done|].
  unfold load_and_register. by rewrite Hf.
Qed.
End settled.

(** ** Two assemblies

    [A] forwards [N.T] to [B]; [B] defines it or forwards it back. *)
Section forwarder.

Definition demo_names : MetadataNames := {|
  full_name ns n := match ns with Some ns => ns +:+ "." +:+ n | None => n end;
  nested_name _ _ := "N.T"%string;
  user_name _ _ := "N.T"%string;
  load_error _ := ""%string;
  show_with_name _ _ n := n;
  default_version := demo_version;
|}.

Definition forwards_to (name target : string) : Resolution :=
  {| assembly := Some (name, demo_version); type_definitions := [];
     exported_types := [{| exported_name := "T"; exported_namespace := Some "N"%string; implementation := TypeForwarder 0 |}];
     assembly_references := [(target, demo_version)]; type_references := []; method_references := []; field_references := [] |}.

Definition defines_t : Resolution :=
  {| assembly := Some ("B"%string, demo_version);
     type_definitions := [{| type_def_name := "T"; namespace := Some "N"%string; extends := None; implements := []; generic_parameters := [];
                             interface := false; abstract_type := false; methods := []; properties := []; events := [];
                             fields := []; overrides := []; encloser := None |}];
     exported_types := []; assembly_references := []; type_references := []; method_references := []; field_references := [] |}.

Definition two_assemblies (b : Resolution) : loader :=
  {| external := <["A"%string := Some 1%nat]> {[ "B"%string := Some 2%nat ]}; probing_paths := ∅;
     metadata_arena := [forwards_to "A" "B"; b] |}.

Definition demo_tables (b : Resolution) : AssemblyTable :=
  table_of id (fun _ => false) (fun p => inl (IoError p)) (fun _ => None) true (two_assemblies b).

Lemma demo_settled b : settled id (fun _ => false) (fun p => inl (IoError p)) (fun _ => None) true (two_assemblies b).
Proof.
  apply settled_table. intros name. unfold two_assemblies. simpl.
  destruct (decide (name = "A"%string)) as [->|]; [left; exists 1%nat; by rewrite lookup_insert_eq|].
  rewrite lookup_insert_ne by done. destruct (decide (name = "B"%string)) as [->|]; [left; exists 2%nat; by rewrite lookup_singleton_eq|].
  right. by rewrite lookup_singleton_ne.
Qed.

Lemma type_lookup_exact_witness : exists td,
  @find_in_assembly (demo_tables defines_t) demo_names ∅ 3 ("A"%string, demo_version) "N.T" = ok td /\
  @defined_at (demo_tables defines_t) "N" "T" 1 td.
Proof.
  assert (Hd : @defined_at (demo_tables defines_t) "N" "T" 1 {| resolution := 2; index := 0 |}).
  { eapply (defined_there _ _ 1 2); [|by eapply (defined_here _ _ 2)].
    do 5 eexists. repeat split; vm_compute; reflexivity. }
  destruct (@type_lookup_exact (demo_tables defines_t) demo_names ∅ (fun _ _ => eq_refl) "N" "T" (fun r => 2 - r)%nat 3
    ("A"%string, demo_version) "N.T" 1) as (o & Ho & Hspec & _).
  - reflexivity.
  - intros r r' (res & e & a & asm & v & Hr & Hi & He & Hm & Ha & Hg). destruct r as [|[|[|r]]]; simpl in Hr; simplify_eq;
      vm_compute in He; simplify_eq. simpl in Hm. simplify_eq. simpl in Ha. simplify_eq. vm_compute in Hg. simplify_eq. simpl. lia.
  - reflexivity.
  - simpl. lia.
  - intros full _. apply lookup_empty.
  - exists {| resolution := 2; index := 0 |}. split; [|done]. rewrite Ho. unfold ok. f_equal. by apply Hspec.
Defined.

Lemma type_caches_transparent_witness : exists c,
  after_queries (T := demo_tables defines_t) (N := demo_names) ∅ 3 [QToken 2 (Definition_ 0)] new_caches = Some c /\
  fst <$> ask_caches (T := demo_tables defines_t) (N := demo_names) ∅ 3 (QToken 2 (Definition_ 0)) c =
    ok {| resolution := 2; index := 0 |}.
Proof.
  eexists. split; [reflexivity|].
  apply (type_caches_transparent (T := demo_tables defines_t) (N := demo_names) ∅ 3 [QToken 2 (Definition_ 0)]). reflexivity.
Defined.

(** Forwarders that lead back to where they came from are followed without end: when two
    assemblies forward a type to each other, no number of steps gives an answer. *)
Theorem forwarder_cycle_diverges fuel :
  @find_in_assembly (demo_tables (forwards_to "B" "A")) demo_names ∅ fuel ("A"%string, demo_version) "N.T" = None /\
  @find_in_assembly (demo_tables (forwards_to "B" "A")) demo_names ∅ fuel ("B"%string, demo_version) "N.T" = None.
Proof.
  induction fuel as [|fuel [IHa IHb]]; [done|].
  split; cbn [find_in_assembly]; rewrite lookup_empty; [exact IHb | exact IHa].
Qed.
End forwarder.
