(* ===== verification/MethodLookup.v ===== *)
(** * Locating methods and fields

    The loader as the comparer sees it, and the lookup of method and field tokens with
    its cache ([dotnet-assemblies/src/resolution.rs]), and the walk over base classes
    ([dotnet-assemblies/src/ancestors.rs]). *)

From Stdlib Require Import ZArith Lia Ascii.
From stdpp Require Import base tactics list option strings gmap.
From S2P Require Import Prelude ManagedPtr Ops Generics Comparer Assignability Methods WellKnown Assemblies Locating.

(** The definition of a type that metadata does not have; never looked at. *)
Definition blank_definition : TypeDefinition :=
  {| type_def_name := ""; namespace := None; extends := None; implements := []; generic_parameters := []; interface := false;
     abstract_type := false; methods := []; properties := []; events := []; fields := []; overrides := []; encloser := None |}.

Section lookup.
Context {T : AssemblyTable} {N : MetadataNames} (stubs : gmap string TypeDescription) (reverse_stubs : gmap string string)
  (finish : list Z -> Z) (addr : ConcreteType -> nat -> Z) (fuel : nat).

(** ** The loader of the comparer *)

Definition settle {A} (x : F A) : TypeResolutionError + A :=
  match x with Some (Val a) => inr a | Some (Err e) => inl e | _ => inl InvalidHandle end.

Definition definition_at (td : TypeDescription) : option TypeDefinition :=
  res ← resolution_of (resolution td); type_definitions res !! index td.

Definition loader_types : TypeResolver := {|
  Comparer.locate_type r u := settle (resolve_token stubs fuel r u);
  Comparer.find_concrete_type ty := settle (find_concrete_uncached stubs fuel ty);
  canonical_type_name := canonical_name reverse_stubs;
  metadata td := default blank_definition (definition_at td);
  nested_type_name td := nested_name (resolution td) (index td);
  user_type_name := user_name;
|}.

Abbreviation type_name := (type_name loader_types).
Abbreviation canonical := (canonical_name reverse_stubs).

Definition f_outcome {A} (x : outcome Empty_set A) : F A :=
  match x with Val a => ok a | Err e => match e with end | Panic => panics end.

Definition f_result {A} (x : TypeResolutionError + A) : F A := match x with inr a => ok a | inl e => fails e end.

(** A computation of a new comparer. *)
Definition compare_anew {A} (m : M A) : F A :=
  match m new_comparer with
  | Some (Val (a, _)) => ok a
  | Some (Err e) => match e with end
  | Some Panic => panics
  | None => None
  end.

Definition definition_of (td : TypeDescription) : F TypeDefinition := f_outcome (definition loader_types td).

Definition corlib (w : WellKnown) : F TypeDescription := corlib_type_internal_for_wkt stubs fuel w.

Definition find_method_with_substitution (desc : TypeDescription) (name : string) (sig : MethodSignature MethodType) (sig_res : nat)
    (generics : GenericLookup) (allow_variance : bool) : F (option MethodDescription) :=
  compare_anew (find_method_in_type_with_substitution loader_types finish addr fuel desc name sig sig_res generics allow_variance).

(** ** Ancestors *)

(** The base class of a type; a delegate derives from the runtime's own. *)
Definition base_of (child : TypeDescription) : F (option TypeDescription) :=
  let& d := definition_of child in
  match extends d with
  | None => ok None
  | Some src =>
      let u := (decompose_type_source src).1 in
      let name := canonical (user_name u (resolution child)) in
      let located :=
        if bool_decide (name = "System.Delegate"%string) then corlib WDelegate
        else if bool_decide (name = "System.MulticastDelegate"%string) then corlib WMulticastDelegate
        else resolve_token stubs fuel (resolution child) u in
      match located with
      | Some (Val td) => ok (Some td)
      | Some (Err _) => panics
      | Some Panic => panics
      | None => None
      end
  end.

(** The iterator [AncestorsImpl]: the next ancestor, with the arguments of its base class, and the one after it. *)
Definition next_ancestor (child : TypeDescription) : F (TypeDescription * list MemberType * option TypeDescription) :=
  let& b := base_of child in
  let& d := definition_of child in
  ok (child, match extends d with Some (Generic _ ps) => ps | _ => [] end, b).

Fixpoint ancestors (n : nat) (child : TypeDescription) : F (list (TypeDescription * list MemberType)) :=
  match n with
  | O => None
  | S n =>
      let& x := next_ancestor child in
      let '(td, ps, b) := x in
      match b with
      | None => ok [(td, ps)]
      | Some b => let& rest := ancestors n b in ok ((td, ps) :: rest)
      end
  end.

(** ** Methods *)

(** The members of a type in the order they are compared with a method. *)
Definition scan_order (d : TypeDefinition) : list candidate :=
  map (fun '(i, m) => (MethodAt i, m)) (enumerate (methods d)) ++
  concat (map (fun x => opt_list (tagged (PropertyGetter x.1) (getter x.2)) ++ opt_list (tagged (PropertySetter x.1) (setter x.2)) ++
                        map (fun '(j, m) => (PropertyOther x.1 j, m)) (enumerate (property_other x.2))) (enumerate (properties d))) ++
  concat (map (fun x => [(EventAdd x.1, add_listener x.2); (EventRemove x.1, remove_listener x.2)] ++
                        opt_list (tagged (EventRaise x.1) (raise_event x.2)) ++
                        map (fun '(j, m) => (EventOther x.1 j, m)) (enumerate (event_other x.2))) (enumerate (events d))).

(** A method is recognized by its address: two members have the same one only if they are the same. *)
Definition method_member_index_from_index (d : TypeDefinition) (i : MethodMemberIndex) : outcome Empty_set MethodMemberIndex :=
  let* _ := expect (member d i) in
  match List.find (fun x => bool_decide (x.1 = i)) (scan_order d) with Some x => Val x.1 | None => Panic end.

Definition try_resolve_method_via_corelib_fallback (parent_type : TypeDescription) (ref : MethodReference) (r : nat) (lookup : GenericLookup)
  : F (option MethodDescription) :=
  match get "System.Private.CoreLib" None with
  | inl _ => ok None
  | inr corelib =>
      let& p := try_find_in_assembly stubs fuel corelib (type_name parent_type) in
      match p with
      | None => ok None
      | Some p =>
          match method_ref_signature ref with
          | inl _ => ok None
          | inr sig => find_method_with_substitution p (method_ref_name ref) sig r lookup false
          end
      end
  end.

Definition with_generics (m : MethodDescription) (g : GenericLookup) : MethodDescription :=
  {| parent := parent m; parent_generics := g; method_resolution := method_resolution m; method_member_index := method_member_index m |}.

(** A definition token; the second component says whether the answer is cached. *)
Definition resolve_definition (r parent_type : nat) (i : MethodMemberIndex) (generic_inst : GenericLookup) : F (MethodDescription * bool) :=
  let& p := resolve_token stubs fuel r (Definition_ parent_type) in
  let& d := definition_of {| resolution := r; index := parent_type |} in
  let& m := f_outcome (expect (member d i)) in
  let& j := f_outcome (method_member_index_from_index d i) in
  let canonical_parent := canonical (type_name p) in
  let& sig := f_outcome (method_signature loader_types
                {| parent := p; parent_generics := default_lookup finish; method_resolution := r; method_member_index := j |}) in
  let& redirected :=
    if bool_decide (canonical_parent = "System.Array"%string) && bool_decide (method_name m = "Copy"%string) && negb (instance sig) then
      match stubs !! canonical_parent with
      | Some stub => find_method_with_substitution stub (method_name m) sig r generic_inst false
      | None => ok None
      end
    else ok None in
  match redirected with
  | Some stub_method => ok (stub_method, false)
  | None =>
      let& pd := definition_of p in
      let arity := length (generic_parameters pd) in
      ok ({| parent := p;
             parent_generics := from_arcs finish (if (arity =? 0)%nat then [] else take arity (type_generics generic_inst)) [];
             method_resolution := r; method_member_index := j |}, true)
  end.

(** The constructor of an array type. *)
Definition array_constructor : F (MethodDescription * bool) :=
  let& array_type := corlib WArray in
  let& d := definition_of array_type in
  match list_find (fun m => method_name m = "CtorArraySentinel"%string) (methods d) with
  | Some (i, _) =>
      ok ({| parent := array_type; parent_generics := default_lookup finish; method_resolution := resolution array_type;
             method_member_index := MethodAt i |}, false)
  | None => fails (MethodNotFound "CtorArraySentinel not found in System.Array")
  end.

(** A reference to a member of a type. *)
Definition resolve_member (r : nat) (ref : MethodReference) (concrete : ConcreteType) (generic_inst : GenericLookup)
  : F (MethodDescription * bool) :=
  if bool_decide (method_ref_name ref = ".ctor"%string) && match ct_base concrete with BArray _ _ => true | _ => false end
  then array_constructor
  else
    let& p := find_concrete_uncached stubs fuel concrete in
    let parent_generics := own_lookup finish concrete in
    let lookup := set_method_generics finish parent_generics (method_generics generic_inst) in
    match method_ref_signature ref with
    | inl e => fails (MethodNotFound ("failed to decode method ref signature: " +:+ e))
    | inr sig =>
        let& m := find_method_with_substitution p (method_ref_name ref) sig r lookup false in
        match m with
        | Some m => ok (with_generics m parent_generics, true)
        | None =>
            let& m := try_resolve_method_via_corelib_fallback p ref r lookup in
            match m with
            | Some m => ok (with_generics m parent_generics, false)
            | None => fails (MethodNotFound ("could not find " +:+ show_with_name sig r (method_ref_name ref) +:+ " in type " +:+ type_name p))
            end
        end
    end.

Definition resolve_method (r : nat) (handle : UserMethod) (generic_inst : GenericLookup) (pre_resolved_parent : option ConcreteType)
  : F (MethodDescription * bool) :=
  match handle with
  | MDefinition p i => resolve_definition r p i generic_inst
  | MReference i =>
      let& res := scope_metadata r in
      match method_references res !! i with
      | None => panics
      | Some ref =>
          match method_ref_parent ref with
          | ParentType t =>
              let& concrete := match pre_resolved_parent with Some p => ok p | None => f_result (make_concrete generic_inst r t) end in
              resolve_member r ref concrete generic_inst
          | ParentModule => fails (MethodNotFound ("Module method references are not implemented: " +:+ method_ref_name ref))
          | VarargMethod => fails (MethodNotFound ("Vararg method references are not implemented: " +:+ method_ref_name ref))
          end
      end
  end.

(** *** The cache *)

Definition method_key : Set := nat * UserMethod * GenericLookup * option ConcreteType.

Definition method_key_eqb (k l : method_key) : bool :=
  let '(r, h, g, p) := k in
  let '(r', h', g', p') := l in
  bool_decide (r = r') && bool_decide (h = h') && gl_eqb g g' && opt2 ct_eqb p p'.

Definition method_cache : Type := list (method_key * MethodDescription).

Fixpoint cached_method (c : method_cache) (k : method_key) : option MethodDescription :=
  match c with [] => None | (k', m) :: c => if method_key_eqb k k' then Some m else cached_method c k end.

Definition locate_method (r : nat) (handle : UserMethod) (generic_inst : GenericLookup) (pre_resolved_parent : option ConcreteType)
    (c : method_cache) : option (outcome TypeResolutionError MethodDescription * method_cache) :=
  let key := (r, handle, generic_inst, pre_resolved_parent) in
  match cached_method c key with
  | Some m => Some (Val m, c)
  | None =>
      match resolve_method r handle generic_inst pre_resolved_parent with
      | Some (Val (m, true)) => Some (Val m, (key, m) :: c)
      | Some (Val (m, false)) => Some (Val m, c)
      | Some (Err e) => Some (Err e, c)
      | Some Panic => Some (Panic, c)
      | None => None
      end
  end.

Definition locate_attribute (r : nat) (constructor : UserMethod) : method_cache -> option (outcome TypeResolutionError MethodDescription * method_cache) :=
  locate_method r constructor (default_lookup finish) None.

(** ** Fields *)

Record FieldDescription : Set := { field_parent : TypeDescription; field_resolution : nat; field_index : nat }.

Definition fd_eqb (x y : FieldDescription) : bool :=
  bool_decide (field_index x = field_index y) && bool_decide (field_parent x = field_parent y).

Inductive FieldSource : Set := FDefinition (parent_type index : nat) | FReference (i : nat).

Definition locate_field (r : nat) (field : FieldSource) (generic_inst : GenericLookup) : F (FieldDescription * GenericLookup) :=
  match field with
  | FDefinition p i =>
      let& parent := resolve_token stubs fuel r (Definition_ p) in
      let& d := definition_of parent in
      match fields d !! i with
      | None => panics
      | Some _ => ok ({| field_parent := parent; field_resolution := r; field_index := i |}, generic_inst)
      end
  | FReference i =>
      let& res := scope_metadata r in
      match field_references res !! i with
      | None => panics
      | Some ref =>
          match field_ref_parent ref with
          | None => fails (FieldNotFound ("Field references with non-type parents are not implemented: " +:+ field_ref_name ref))
          | Some t =>
              let& t := f_result (make_concrete generic_inst r t) in
              let& parent := find_concrete_uncached stubs fuel t in
              let& d := definition_of parent in
              match list_find (fun n => n = field_ref_name ref) (fields d) with
              | Some (j, _) =>
                  ok ({| field_parent := parent; field_resolution := resolution parent; field_index := j |},
                      new_lookup finish (default [] (type_parameters t)))
              | None => fails (FieldNotFound ("could not find " +:+ type_name parent +:+ "::" +:+ field_ref_name ref))
              end
          end
      end
  end.
End lookup.
