(* ===== verification/KindIndependence.v ===== *)
(** * Value kinds in lookups

    Equality of concrete types ignores the value kind written in a type.  So lookups
    keyed by types may answer one question with what was found for another that differs
    in value kinds.  This file shows that the lookup of methods does not depend on them,
    and that its cache therefore changes no answer. *)

From Stdlib Require Import ZArith Lia Ascii.
From stdpp Require Import base tactics list option strings gmap.
From S2P Require Import Prelude ManagedPtr Ops Generics Comparer Assignability Methods WellKnown Assemblies Locating MethodLookup.

(** ** Types and lookups up to value kinds *)

Definition ct_equiv (c d : ConcreteType) : Prop := strip c = strip d.
Definition cts_equiv (l m : list ConcreteType) : Prop := map strip l = map strip m.

(** Two lookups with equal arguments. *)
Definition gl_equiv (g h : GenericLookup) : Prop :=
  cts_equiv (type_generics g) (type_generics h) /\ cts_equiv (method_generics g) (method_generics h).

#[export] Instance gl_equivalence : Equivalence gl_equiv.
Proof.
  unfold gl_equiv, cts_equiv. split; [done | by intros ? ? [-> ->] | by intros ? ? ? [-> ->] [-> ->]].
Qed.

Lemma all2_strip l m : all2 ct_eqb l m = true <-> cts_equiv l m.
Proof. apply all2_decides. intros x _ y. apply ct_eqb_strip. Qed.

Lemma gl_eqb_equiv g h : gl_eqb g h = true <-> gl_equiv g h.
Proof. unfold gl_eqb, gl_equiv. by rewrite andb_true_iff, !all2_strip. Qed.

Definition gls_equiv (g h : option GenericLookup) : Prop :=
  match g, h with Some g, Some h => gl_equiv g h | None, None => True | _, _ => False end.

(** ** Comparing *)

Section comparing.
Context (loader : TypeResolver).

Lemma slices_equal_kinds {R : Type} (f f' : ConcreteType -> R -> test) l1 l2 qs : cts_equiv l1 l2 ->
  (forall x x' y, y ∈ qs -> ct_equiv x x' -> f x y = f' x' y) -> slices_equal f l1 qs = slices_equal f' l2 qs.
Proof.
  intros Hl Hf. unfold slices_equal. rewrite (strip_length _ _ Hl). destruct (negb _); [done|].
  revert l1 l2 Hl. induction qs as [|q qs IH]; intros [|x l1] [|y l2] Hl; try done. simpl. injection Hl as Hx Hl.
  rewrite (Hf x y q) by (done || left). f_equal. apply IH; [|done]. intros. apply Hf; [by right | done].
Qed.

Lemma normalized_base_kinds {R : Set} policy (f f' : ConcreteType -> R -> test) s l l' r (b : BaseType R) :
  without_kind (bt_map strip l) = without_kind (bt_map strip l') ->
  (forall x x' y, y ∈ children b -> ct_equiv x x' -> f x y = f' x' y) ->
  normalized_base_types_equal loader policy f s l r b = normalized_base_types_equal loader policy f' s l' r b.
Proof.
  intros Hl Hf.
  destruct l as [[u|u ps] k|p|m x|x sh|m [x|]|sg], l' as [[u'|u' ps'] k'|p'|m' x'|x' sh'|m' [x'|]|sg']; simpl in Hl; simplify_eq;
    destruct b as [[v|v qs] kk|q|n y|y sh2|n [y|]|sg2]; simpl in *; try done; try (apply Hf; [by left | done]).
  - assert (Hlen : length ps = length ps') by (by apply strip_length). by rewrite Hlen.
  - by rewrite (slices_equal_kinds f f' ps ps').
Qed.

Lemma resolve_generic_kinds g h t : gls_equiv g h ->
  strip <$> resolve_generic_type g t = strip <$> resolve_generic_type h t.
Proof. destruct g as [g|], h as [h|]; try done. intros [H1 H2]. destruct t; simpl; [done | by apply lookup_map_strip ..]. Qed.

Lemma ct_eqb_kinds c c' d d' : ct_equiv c c' -> ct_equiv d d' -> ct_eqb c d = ct_eqb c' d'.
Proof. unfold ct_equiv. intros H1 H2. apply eq_true_iff_eq. by rewrite !ct_eqb_strip, H1, H2. Qed.

Lemma concrete_equals_kinds policy c d r g h t : ct_equiv c d -> gls_equiv g h ->
  normalized_concrete_equals_method_type loader policy c r g t = normalized_concrete_equals_method_type loader policy d r h t.
Proof.
  intros Hc Hg. revert c d Hc. induction t as [b IH|i|i] using mt_ind; intros c d Hc; cbn [normalized_concrete_equals_method_type].
  2-3: pose proof (resolve_generic_kinds g h) as Hr; match goal with |- context [resolve_generic_type _ ?t] => specialize (Hr t Hg) end;
    destruct (resolve_generic_type g _), (resolve_generic_type h _); try done; injection Hr as Hr; by rewrite (ct_eqb_kinds c d _ _ Hc Hr).
  assert (Hn : forall g, resolve_generic_type g (MBase b) = None) by (by intros []). rewrite !Hn.
  destruct c as [s bc], d as [s' bd]. unfold ct_equiv in Hc. simpl in Hc. injection Hc as -> Hb. simpl.
  apply normalized_base_kinds; [done|]. auto.
Qed.

Lemma method_types_kinds policy r1 g1 h1 a r2 g2 h2 b : gls_equiv g1 h1 -> gls_equiv g2 h2 ->
  normalized_method_types_equal loader policy r1 g1 a r2 g2 b = normalized_method_types_equal loader policy r1 h1 a r2 h2 b.
Proof.
  intros H1 H2. revert a. induction b as [bb IH|i|i] using mt_ind; intros a; rewrite !method_types_unfold;
    (destruct (same_generic_placeholder a _); [done|]);
    pose proof (resolve_generic_kinds g1 h1 a H1) as Ha;
    match goal with |- context [resolve_generic_type g2 ?t] => pose proof (resolve_generic_kinds g2 h2 t H2) as Hb end;
    destruct (resolve_generic_type g1 a), (resolve_generic_type h1 a); try done; try (injection Ha as Ha; by apply concrete_equals_kinds);
    destruct (resolve_generic_type g2 _), (resolve_generic_type h2 _); try done; try (injection Hb as Hb; by apply concrete_equals_kinds);
    destruct a as [ba|j|j]; try done.
  assert (Hbase : forall f f' : MethodType -> MethodType -> test, (forall x y, y ∈ children bb -> f x y = f' x y) ->
    normalized_base_types_equal loader policy f r1 ba r2 bb = normalized_base_types_equal loader policy f' r1 ba r2 bb); [|by apply Hbase; auto].
  clear. intros f f' Hf. destruct ba as [[u|u ps] k|p|m x|x sh|m [x|]|sg], bb as [[v|v qs] kk|q|n y|y sh2|n [y|]|sg2]; simpl in *;
    try done; try (apply Hf; by left).
  f_equal. unfold slices_equal. destruct (negb _); [done|]. revert ps Hf. clear. induction qs as [|q qs IH]; intros [|x ps] Hf; try done.
  simpl. rewrite Hf by left. f_equal. apply IH. intros. apply Hf. by right.
Qed.

Lemma param_types_kinds r1 g1 h1 a r2 g2 h2 b : gls_equiv g1 h1 -> gls_equiv g2 h2 ->
  param_types_equal loader r1 a g1 r2 b g2 = param_types_equal loader r1 a h1 r2 b h2.
Proof. intros H1 H2. destruct a, b; simpl; try done; unfold types_equal; by apply method_types_kinds. Qed.

Lemma signatures_kinds r1 g1 h1 a r2 g2 h2 b : gls_equiv g1 h1 -> gls_equiv g2 h2 ->
  signatures_equal loader r1 a g1 r2 b g2 = signatures_equal loader r1 a h1 r2 b h2.
Proof.
  intros H1 H2. unfold signatures_equal. destruct (negb _); [done|]. destruct (negb _); [done|]. f_equal.
  - destruct (ret_type (return_type a)), (ret_type (return_type b)); try done. by apply param_types_kinds.
  - generalize (parameters a) as l1, (parameters b) as l2. intros l1 l2. revert l1.
    induction l2 as [|q l2 IH]; intros [|p l1]; try done. simpl. rewrite (param_types_kinds _ _ _ _ _ _ _ _ H1 H2). f_equal. apply IH.
Qed.
End comparing.

(** ** Results up to value kinds *)

Definition md_equiv (m n : MethodDescription) : Prop :=
  parent m = parent n /\ gl_equiv (parent_generics m) (parent_generics n) /\
  method_resolution m = method_resolution n /\ method_member_index m = method_member_index n.

#[export] Instance md_equivalence : Equivalence md_equiv.
Proof.
  unfold md_equiv. split.
  - intros m. split_and!; reflexivity.
  - intros m n (H1 & H2 & H3 & H4). split; [done|]. split; [by symmetry | done].
  - intros m n o (H1 & H2 & H3 & H4) (K1 & K2 & K3 & K4). split; [congruence|]. split; [by transitivity (parent_generics n)|].
    split; congruence.
Qed.

Lemma md_eqb_equiv m n : md_eqb m n = true <-> md_equiv m n.
Proof. unfold md_eqb, md_equiv. rewrite !andb_true_iff, !bool_decide_eq_true, gl_eqb_equiv. naive_solver. Qed.

(** The same kind of result, with related values. *)
Definition f_rel {A B} (R : A -> B -> Prop) (x : F A) (y : F B) : Prop :=
  match x, y with
  | Some (Val a), Some (Val b) => R a b
  | Some (Err e), Some (Err e') => e = e'
  | Some Panic, Some Panic | None, None => True
  | _, _ => False
  end.

Lemma f_rel_bind {A B C D} (R : A -> B -> Prop) (S : C -> D -> Prop) x y k l :
  f_rel R x y -> (forall a b, R a b -> f_rel S (k a) (l b)) -> f_rel S (f_bind x k) (f_bind y l).
Proof. destruct x as [[a|e|]|], y as [[b|e'|]|]; try done. simpl. auto. Qed.

Lemma f_rel_refl {A} (R : A -> A -> Prop) x : Reflexive R -> f_rel R x x.
Proof. intros H. destruct x as [[a|e|]|]; simpl; [apply H | done..]. Qed.

Lemma f_rel_eq {A} (x y : F A) : x = y -> f_rel eq x y.
Proof. intros ->. by apply f_rel_refl. Qed.

Definition opt_rel {A B} (R : A -> B -> Prop) (x : option A) (y : option B) : Prop :=
  match x, y with Some a, Some b => R a b | None, None => True | _, _ => False end.

Definition answer_equiv (x y : MethodDescription * bool) : Prop := md_equiv x.1 y.1 /\ x.2 = y.2.

#[export] Instance answer_equiv_equivalence : Equivalence answer_equiv.
Proof.
  split.
  - intros x. by split.
  - intros x y [H1 H2]. by split.
  - intros x y z [H1 H2] [H3 H4]. split; [by transitivity y.1 | congruence].
Qed.

(** ** Searching and locating *)

Section locating.
Context {T : AssemblyTable} {N : MetadataNames} (stubs : gmap string TypeDescription) (reverse_stubs : gmap string string)
  (finish : list Z -> Z) (addr : ConcreteType -> nat -> Z) (fuel : nat).

Abbreviation find_method_with_substitution := (find_method_with_substitution stubs reverse_stubs finish addr fuel).
Abbreviation resolve_method := (resolve_method stubs reverse_stubs finish addr fuel).

Lemma check_kinds loader desc name sig r g1 h1 g2 h2 x c : gls_equiv g1 h1 -> gls_equiv g2 h2 ->
  check loader finish addr fuel desc name sig r g1 g2 false x c = check loader finish addr fuel desc name sig r h1 h2 false x c.
Proof.
  intros H1 H2. unfold check. destruct (negb _); [done|]. unfold m_bind.
  destruct (m_pure (index_for _ _ _ _) c) as [[[i c1]|e|]|]; try done.
  destruct (m_pure (indexed _ _ _) c1) as [[[m c2]|e|]|]; try done.
  destruct (m_pure (decoded _) c2) as [[[s c3]|e|]|]; try done. destruct (negb _); [done|]. simpl.
  by rewrite (signatures_kinds _ _ _ _ _ _ _ _ _ H1 H2).
Qed.

Lemma first_match_kinds loader desc name sig r g1 h1 g2 h2 l c : gls_equiv g1 h1 -> gls_equiv g2 h2 ->
  match first_match loader finish addr fuel desc name sig r g1 g2 false l c, first_match loader finish addr fuel desc name sig r h1 h2 false l c with
  | Some (Val (a, c1)), Some (Val (b, c2)) => opt_rel md_equiv a b
  | Some Panic, Some Panic | None, None => True
  | _, _ => False
  end.
Proof.
  intros H1 H2. revert c. induction l as [|x l IH]; intros c; [done|]. cbn [first_match]. unfold m_bind.
  rewrite (check_kinds _ _ _ _ _ _ _ _ _ _ _ H1 H2). destruct (check _ _ _ _ _ _ _ _ _ _ _ _ _) as [[[[] c1]|e|]|]; try done.
  - simpl. split; [done|]. split; [|done]. simpl. destruct g2, h2; done.
  - apply IH.
Qed.

Lemma find_method_kinds desc name sig r g h : gl_equiv g h ->
  f_rel (opt_rel md_equiv) (find_method_with_substitution desc name sig r g false) (find_method_with_substitution desc name sig r h false).
Proof.
  intros H. unfold MethodLookup.find_method_with_substitution, compare_anew, find_method_in_type_with_substitution, find_method_in_type_internal.
  unfold m_bind. destruct (m_pure (definition _ desc) new_comparer) as [[[d c]|e|]|]; try done.
  pose proof (first_match_kinds (loader_types stubs reverse_stubs fuel) desc name sig r (Some g) (Some h) (Some g) (Some h) (search_order d name) c H H) as Hm.
  destruct (first_match _ _ _ _ _ _ _ _ (Some g) (Some g) _ _ c) as [[[a c1]|[]|]|], (first_match _ _ _ _ _ _ _ _ (Some h) (Some h) _ _ c) as [[[b c2]|[]|]|]; done.
Qed.

Lemma concrete_key_kinds c d : ct_equiv c d -> concrete_key c = concrete_key d.
Proof.
  intros H. destruct c as [s [[u|u l] k|p|m x|x sh|m x|f]], d as [s' [[v|v l'] k'|q|n y|y sh'|n y|f']]; unfold ct_equiv in H; simpl in H; simplify_eq; done.
Qed.

Lemma own_lookup_kinds c d : ct_equiv c d -> gl_equiv (own_lookup finish c) (own_lookup finish d).
Proof.
  intros H. split; [|done]. unfold cts_equiv. simpl.
  destruct c as [s [[u|u l] k|p|m x|x sh|m x|f]], d as [s' [[v|v l'] k'|q|n y|y sh'|n y|f']]; unfold ct_equiv in H; simpl in H; simplify_eq; done.
Qed.

Lemma fallback_method_kinds p ref r g h : gl_equiv g h ->
  f_rel (opt_rel md_equiv) (try_resolve_method_via_corelib_fallback stubs reverse_stubs finish addr fuel p ref r g)
    (try_resolve_method_via_corelib_fallback stubs reverse_stubs finish addr fuel p ref r h).
Proof.
  intros H. unfold try_resolve_method_via_corelib_fallback. destruct (get _ _); [done|].
  eapply f_rel_bind; [by apply f_rel_eq|]. intros ? [q|] ->; [|done]. destruct (method_ref_signature ref); [done|]. by apply find_method_kinds.
Qed.

Lemma is_array_kinds c d : ct_equiv c d ->
  match ct_base c with BArray _ _ => true | _ => false end = match ct_base d with BArray _ _ => true | _ => false end.
Proof.
  intros H. destruct c as [s [ts k|p|m x|x sh|m x|f]], d as [s' [ts' k'|q|n y|y sh'|n y|f']]; unfold ct_equiv in H; simpl in H; by simplify_eq.
Qed.

Lemma with_generics_kinds m n g h : md_equiv m n -> gl_equiv g h -> md_equiv (with_generics m g) (with_generics n h).
Proof. intros (H1 & _ & H3 & H4) H. by repeat split; try apply H. Qed.

Lemma resolve_member_kinds r ref c d g h : ct_equiv c d -> gl_equiv g h ->
  f_rel answer_equiv (resolve_member stubs reverse_stubs finish addr fuel r ref c g) (resolve_member stubs reverse_stubs finish addr fuel r ref d h).
Proof.
  intros Hc Hg. unfold resolve_member. rewrite (is_array_kinds c d Hc). destruct (_ && _); [apply f_rel_refl, answer_equiv_equivalence|].
  unfold find_concrete_uncached. rewrite (concrete_key_kinds c d Hc). eapply f_rel_bind; [by apply f_rel_eq|]. intros ? p ->.
  destruct (method_ref_signature ref) as [e|sig]; [done|]. pose proof (own_lookup_kinds c d Hc) as Ho.
  assert (Hl : gl_equiv (set_method_generics finish (own_lookup finish c) (method_generics g)) (set_method_generics finish (own_lookup finish d) (method_generics h))).
  { split; [apply Ho | apply Hg]. }
  eapply f_rel_bind; [by apply find_method_kinds|]. intros [m|] [n|] Hm; try done; [split; [by apply with_generics_kinds | done]|].
  eapply f_rel_bind; [by apply fallback_method_kinds|]. intros [m|] [n|] Hm'; try done. split; [by apply with_generics_kinds | done].
Qed.

Lemma resolve_definition_kinds r p i g h : gl_equiv g h ->
  f_rel answer_equiv (resolve_definition stubs reverse_stubs finish addr fuel r p i g) (resolve_definition stubs reverse_stubs finish addr fuel r p i h).
Proof.
  intros Hg. unfold resolve_definition.
  do 5 (eapply f_rel_bind; [by apply f_rel_eq|]; intros ? ? ->). eapply (f_rel_bind (opt_rel md_equiv)).
  - destruct (_ && _); [|done]. destruct (stubs !! _); [by apply find_method_kinds | done].
  - intros [m|] [n|] Hm; try done. eapply f_rel_bind; [by apply f_rel_eq|]. intros ? d ->. split; [|done]. split; [done|].
    split; [|done]. split; [|done]. unfold cts_equiv. simpl. destruct (_ =? _)%nat; [done|]. destruct Hg as [H _].
    by rewrite <- !firstn_map, H.
Qed.

(** Equal questions have equal answers. *)
Lemma resolve_method_kinds r handle g h p q : gl_equiv g h -> opt_rel ct_equiv p q ->
  f_rel answer_equiv (resolve_method r handle g p) (resolve_method r handle h q).
Proof.
  intros Hg Hp. destruct handle as [t i|i]; [by apply resolve_definition_kinds|]. unfold MethodLookup.resolve_method.
  eapply f_rel_bind; [by apply f_rel_eq|]. intros ? res ->. destruct (method_references res !! i) as [ref|]; [|done].
  destruct (method_ref_parent ref) as [t| |]; [|done..]. eapply (f_rel_bind ct_equiv).
  - destruct p as [p|], q as [q|]; try done. pose proof (make_concrete_strip g h (proj1 Hg) (proj2 Hg) r t) as Hm.
    destruct (make_concrete g r t), (make_concrete h r t); simpl in Hm; simplify_eq; done.
  - intros c d Hc. by apply resolve_member_kinds.
Qed.
(** ** The cache of methods *)

Definition resolve_key (k : method_key) : F (MethodDescription * bool) := let '(r, u, g, p) := k in resolve_method r u g p.
Definition locate_key (k : method_key) (c : method_cache) : option (outcome TypeResolutionError MethodDescription * method_cache) :=
  let '(r, u, g, p) := k in locate_method stubs reverse_stubs finish addr fuel r u g p c.

(** The cache after some lookups, each of which came back. *)
Fixpoint after_lookups (ks : list method_key) (c : method_cache) : option method_cache :=
  match ks with [] => Some c | k :: ks => match locate_key k c with Some (_, c) => after_lookups ks c | None => None end end.

Definition methods_coherent (c : method_cache) : Prop :=
  forall k m, (k, m) ∈ c -> exists b, resolve_key k = ok (m, b).

Lemma cached_method_in c k m : cached_method c k = Some m -> exists k', method_key_eqb k k' = true /\ (k', m) ∈ c.
Proof.
  induction c as [|[k' m'] c IH]; simpl; [done|]. destruct (method_key_eqb k k') eqn:Hk.
  - intros [= ->]. exists k'. split; [done | by left].
  - intros (k2 & H1 & H2)%IH. exists k2. split; [done | by right].
Qed.

Lemma resolve_key_kinds k l : method_key_eqb k l = true -> f_rel answer_equiv (resolve_key k) (resolve_key l).
Proof.
  destruct k as [[[r u] g] p], l as [[[r' u'] g'] p']. simpl. rewrite !andb_true_iff, !bool_decide_eq_true, gl_eqb_equiv.
  intros [[[-> ->] Hg] Hp]. apply resolve_method_kinds; [done|].
  destruct p, p'; try done. by apply ct_eqb_strip in Hp.
Qed.

(** A lookup answers what [resolve_method] answers, up to value kinds, and keeps the cache so. *)
Lemma locate_key_coherent k c : methods_coherent c ->
  f_rel md_equiv (fst <$> locate_key k c) (let& x := resolve_key k in ok x.1) /\
  forall o c', locate_key k c = Some (o, c') -> methods_coherent c'.
Proof.
  intros Hc. destruct k as [[[r u] g] p] eqn:Ek. unfold locate_key, locate_method.
  destruct (cached_method c (r, u, g, p)) as [m|] eqn:Hm.
  - apply cached_method_in in Hm as (k' & Hk & Hin). destruct (Hc _ _ Hin) as [b Hb]. apply resolve_key_kinds in Hk. rewrite Hb in Hk.
    split; [|by intros o c' [= <- <-]]. change (resolve_key (r, u, g, p)) with (resolve_method r u g p) in *.
    destruct (resolve_method r u g p) as [[x|e|]|]; try done.
    destruct Hk as [Hk _]. exact (Equivalence_Symmetric _ _ Hk).
  - change (resolve_key (r, u, g, p)) with (resolve_method r u g p).
    destruct (resolve_method r u g p) as [[[m [|]]|e|]|] eqn:Hr; simpl; (split; [done|]); intros o c' [= <- <-]; try done.
    intros k2 m2 [[= -> ->]|Hin]%elem_of_cons; [by exists true | by apply Hc].
Qed.

Lemma after_lookups_coherent ks c c' : methods_coherent c -> after_lookups ks c = Some c' -> methods_coherent c'.
Proof.
  revert c. induction ks as [|k ks IH]; simpl; intros c Hc; [by intros [= <-]|].
  destruct (locate_key k c) as [[o c1]|] eqn:Hk; [|done]. apply IH. by eapply locate_key_coherent.
Qed.

(** The cache of methods changes no answer: after any lookups, a token, with its generic
    arguments and its parent type, is answered as without the cache, up to the value
    kinds written in the generic arguments. *)
Theorem method_cache_transparent ks c k : after_lookups ks [] = Some c ->
  f_rel md_equiv (fst <$> locate_key k c) (let& x := resolve_key k in ok x.1).
Proof.
  intros H. apply locate_key_coherent. eapply after_lookups_coherent; [|done]. by intros ? ? ?%elem_of_nil.
Qed.
End locating.

(** ** What the comparer relies on

    The loader gives definitions, not the null type, and types that are equal have the same definition. *)

Section lawful.
Context {T : AssemblyTable} {N : MetadataNames} (stubs : gmap string TypeDescription) (reverse_stubs : gmap string string) (fuel : nat).
Hypothesis stubs_defined : forall n td, stubs !! n = Some td -> resolution td <> 0%nat.
Hypothesis scopes_defined : forall n v r, get n v = inr r -> r <> 0%nat.

Definition defined (x : F TypeDescription) : Prop := forall td, x = ok td -> resolution td <> 0%nat.

Lemma defined_bind {A} (x : F A) k : (forall a, x = ok a -> defined (k a)) -> defined (f_bind x k).
Proof. intros H. destruct x as [[a|e|]|]; try (by intros ? [=]). by apply H. Qed.

Lemma get_scope_defined n v r : get_scope n v = ok r -> r <> 0%nat.
Proof. unfold get_scope. destruct (get n v) eqn:H; intros [= <-]. by eapply scopes_defined. Qed.

Lemma find_in_assembly_nonnull n asm full : defined (find_in_assembly stubs n asm full).
Proof.
  revert asm full. induction n as [|n IH]; intros asm full; [by intros td|]. cbn [find_in_assembly].
  destruct (stubs !! full) eqn:Hs; [intros td [= <-]; by eapply stubs_defined|].
  apply defined_bind. intros r Hr%get_scope_defined. apply defined_bind. intros res _.
  destruct (parse_and_find_type_definition_index r res full false) as [[ns name] [i|]]; [by intros td [= <-]|].
  destruct (exported_type res ns name) as [e|]; [|by intros td [=]]. unfold find_exported_type.
  destruct (implementation e) as [| |a]; [by intros td [=]..|]. destruct (assembly_references res !! a); [apply IH | by intros td [=]].
Qed.

Lemma locate_type_ref_nonnull n r i : defined (locate_type_ref stubs n r i).
Proof.
  revert i. induction n as [|n IH]; intros i; [by intros td|]. cbn [locate_type_ref]. apply defined_bind. intros res _.
  destruct (type_references res !! i) as [ref|]; [|by intros td [=]]. destruct (scope ref) as [| |a| |o]; try by intros td [=].
  - destruct (assembly_references res !! a); [apply find_in_assembly_nonnull | by intros td [=]].
  - apply defined_bind. intros td Htd%IH. apply defined_bind. intros ores _. destruct (type_definitions ores !! index td); [|by intros ? [=]].
    destruct (list_find _ _) as [[j x]|]; [by intros ? [= <-] | by intros ? [=]].
Qed.

Lemma try_known_nonnull asm name td : try_known stubs fuel asm name = ok (Some td) -> resolution td <> 0%nat.
Proof.
  unfold try_known. destruct (known asm); [|done]. destruct (get_scope asm None) as [[r|e|]|] eqn:Hg; try done.
  apply get_scope_defined in Hg. unfold try_find_in_assembly. simpl. destruct (scope_metadata r) as [[res|e|]|]; try done. simpl.
  destruct (parse_and_find_type_definition_index r res name false) as [[ns n] [i|]]; [by intros [= <-]|].
  destruct (exported_type res ns n) as [e|].
  - unfold find_exported_type. destruct (implementation e) as [| |a]; try done. destruct (assembly_references res !! a) as [asm'|]; [|done].
    pose proof (find_in_assembly_nonnull fuel asm' (full_name (exported_namespace e) (exported_name e))) as Hf.
    destruct (find_in_assembly _ _ _ _) as [[x|e'|]|]; try done. intros [= <-]. by apply Hf.
  - destruct (parse_and_find_type_definition_index r res name true) as [[ns' n'] [j|]]; [by intros [= <-] | done].
Qed.

Lemma corlib_type_nonnull name : defined (corlib_type_internal stubs fuel name).
Proof.
  unfold corlib_type_internal. destruct (stubs !! name) eqn:Hs; [intros td [= <-]; by eapply stubs_defined|].
  apply defined_bind. intros [t|] Ha; [intros td [= <-]; by apply try_known_nonnull in Ha|].
  apply defined_bind. intros [t|] Hb; [intros td [= <-]; by apply try_known_nonnull in Hb|].
  apply defined_bind. intros [t|] Hc; [intros td [= <-]; by apply try_known_nonnull in Hc|].
  destruct (known _); [by intros td [=] | apply find_in_assembly_nonnull].
Qed.

Lemma wkt_nonnull w : defined (corlib_type_internal_for_wkt stubs fuel w).
Proof.
  unfold corlib_type_internal_for_wkt. destruct w; try apply corlib_type_nonnull.
  pose proof (corlib_type_nonnull "System.Exception/DispatchState") as H.
  destruct (corlib_type_internal stubs fuel "System.Exception/DispatchState") as [[x|e|]|]; try done. apply corlib_type_nonnull.
Qed.

Lemma settle_some {A} (x : F A) a : settle x = inr a -> x = ok a.
Proof. destruct x as [[b|e|]|]; simpl; by intros [= ->]. Qed.

Lemma loader_resolves : resolves (loader_types stubs reverse_stubs fuel).
Proof.
  intros r u td Hr H%settle_some. unfold td_is_null. apply Nat.eqb_neq. destruct u; simpl in H; [by injection H as <-|].
  by apply locate_type_ref_nonnull in H.
Qed.

Lemma loader_finds c td : sourced c = true -> Comparer.find_concrete_type (loader_types stubs reverse_stubs fuel) c = inr td -> td_is_null td = false.
Proof.
  intros Hs H%settle_some. unfold find_concrete_uncached, concrete_key in H. destruct c as [s b]. apply sourced_spec in Hs as [Hs _].
  apply Nat.eqb_neq. destruct b; cbn [ct_base ct_source] in H; [|by eapply wkt_nonnull..].
  destruct (decompose_type_source source).1 eqn:E; simpl in H; [by injection H as <- | by apply locate_type_ref_nonnull in H].
Qed.

Lemma loader_proper c d : ct_eqb c d = true ->
  Comparer.find_concrete_type (loader_types stubs reverse_stubs fuel) c = Comparer.find_concrete_type (loader_types stubs reverse_stubs fuel) d.
Proof. intros H%ct_eqb_strip. simpl. unfold find_concrete_uncached. by rewrite (concrete_key_kinds c d H). Qed.
End lawful.

(** ** An assembly with one type *)

Section one_assembly.

Definition shape_assembly : Resolution :=
  {| assembly := Some ("Shapes"%string, demo_version); type_definitions := [shape_definition]; exported_types := [];
     assembly_references := []; type_references := []; method_references := []; field_references := [] |}.

Definition shape_table : AssemblyTable :=
  {| get name _ := if bool_decide (name = "Shapes"%string) then inr 1%nat else inl (FileNotFound name);
     known := fun name => bool_decide (name = "Shapes"%string);
     resolution_of r := match r with 1%nat => Some shape_assembly | _ => None end |}.

Definition draw_key : method_key := (1%nat, MDefinition 0 (MethodAt 1), default_lookup (fun _ => 0%Z), None).

Lemma method_cache_transparent_witness : exists c,
  after_lookups (T := shape_table) (N := demo_names) ∅ ∅ (fun _ => 0%Z) (fun _ _ => 0%Z) 3 [draw_key] [] = Some c /\ length c = 1%nat /\
  f_rel md_equiv (fst <$> locate_key (T := shape_table) (N := demo_names) ∅ ∅ (fun _ => 0%Z) (fun _ _ => 0%Z) 3 draw_key c)
    (let& x := resolve_key (T := shape_table) (N := demo_names) ∅ ∅ (fun _ => 0%Z) (fun _ _ => 0%Z) 3 draw_key in ok x.1).
Proof.
  eexists. split; [vm_compute; reflexivity|]. split; [reflexivity|].
  apply (method_cache_transparent (T := shape_table) (N := demo_names) ∅ ∅ (fun _ => 0%Z) (fun _ _ => 0%Z) 3 [draw_key]). vm_compute. reflexivity.
Defined.
End one_assembly.
