(* ===== verification/VirtualDispatch.v ===== *)
(** * Virtual dispatch

    Which method a virtual call, an interface call or a constrained static call runs
    ([dotnet-runtime-resolver/src/methods.rs]), with the caches of the resolver.

    Tokens are located without the cache of the loader, which changes no answer
    ([KindIndependence.method_cache_transparent]).  A hash map is the list of its entries in
    the order in which it is iterated.  Each map has a random seed of its own: [order n]
    is the order the [n]th map that is built gives to its entries. *)

From Stdlib Require Import ZArith Lia Ascii.
From stdpp Require Import base tactics list option strings gmap.
From S2P Require Import Prelude Cache ManagedPtr Ops Generics Comparer Assignability Methods WellKnown Assemblies Locating MethodLookup KindIndependence.

(** ** Keys and maps *)

Abbreviation vmt_key := (MethodDescription * TypeDescription * GenericLookup)%type.
Abbreviation overrides_key := (TypeDescription * GenericLookup)%type.
Abbreviation override_map := (list (MethodDescription * MethodDescription)).

Definition vmt_eqb (k l : vmt_key) : bool := md_eqb k.1.1 l.1.1 && bool_decide (k.1.2 = l.1.2) && gl_eqb k.2 l.2.
Definition overrides_eqb (k l : overrides_key) : bool := bool_decide (k.1 = l.1) && gl_eqb k.2 l.2.

Record StaticConstrainedCacheKey : Set := { constraint : ConcreteType; base_method : MethodDescription; source_lookup : GenericLookup }.

Definition static_eqb (k l : StaticConstrainedCacheKey) : bool :=
  ct_eqb (constraint k) (constraint l) && md_eqb (base_method k) (base_method l) && gl_eqb (source_lookup k) (source_lookup l).

Definition concrete_of_description (td : TypeDescription) : ConcreteType := CT (resolution td) (BType (User (Definition_ (index td))) None).

Section dispatch.
Context {T : AssemblyTable} {N : MetadataNames} (stubs : gmap string TypeDescription) (reverse_stubs : gmap string string)
  (finish : list Z -> Z) (addr : ConcreteType -> nat -> Z) (fuel : nat) (order : nat -> override_map -> override_map).

Context {C1 C2 C3 : Type} `{MemoCache vmt_key MethodDescription C1} `{MemoCache overrides_key override_map C2}
  `{MemoCache StaticConstrainedCacheKey MethodDescription C3}.

(** [maps_built] counts the maps of overrides built so far. *)
Record resolver_caches : Type := { vmt : C1; overrides_cache : C2; static_constrained : C3; maps_built : nat }.

Definition set_vmt (c : resolver_caches) (v : C1) : resolver_caches :=
  {| vmt := v; overrides_cache := overrides_cache c; static_constrained := static_constrained c; maps_built := maps_built c |}.
Definition set_overrides (c : resolver_caches) (v : C2) : resolver_caches :=
  {| vmt := vmt c; overrides_cache := v; static_constrained := static_constrained c; maps_built := maps_built c |}.
Definition set_static (c : resolver_caches) (v : C3) : resolver_caches :=
  {| vmt := vmt c; overrides_cache := overrides_cache c; static_constrained := v; maps_built := maps_built c |}.

Definition count_map (c : resolver_caches) : resolver_caches :=
  {| vmt := vmt c; overrides_cache := overrides_cache c; static_constrained := static_constrained c; maps_built := S (maps_built c) |}.

(** Computations of the resolver. *)
Definition D (A : Type) : Type := resolver_caches -> option (outcome TypeResolutionError A * resolver_caches).

Definition d_pure {A} (x : F A) : D A := fun c => match x with Some o => Some (o, c) | None => None end.
Definition d_ret {A} (a : A) : D A := d_pure (ok a).
Definition d_bind {A B} (x : D A) (k : A -> D B) : D B := fun c =>
  match x c with
  | Some (Val a, c) => k a c
  | Some (Err e, c) => Some (Err e, c)
  | Some (Panic, c) => Some (Panic, c)
  | None => None
  end.
Notation "'let@' x ':=' m 'in' k" := (d_bind m (fun x => k)) (at level 10, x pattern, m at level 100, k at level 200).

Definition get_vmt_cached (k : vmt_key) : D (option MethodDescription) := fun c =>
  let '(m, v) := memo_get k (vmt c) in Some (Val m, set_vmt c v).
Definition set_vmt_cached (k : vmt_key) (m : MethodDescription) : D unit := fun c =>
  Some (Val tt, set_vmt c (memo_put k m (vmt c))).
Definition get_overrides_cached (k : overrides_key) : D (option override_map) := fun c =>
  let '(m, v) := memo_get k (overrides_cache c) in Some (Val m, set_overrides c v).
Definition set_overrides_cached (k : overrides_key) (m : override_map) : D unit := fun c =>
  Some (Val tt, set_overrides c (memo_put k m (overrides_cache c))).

(** A [HashMap] with the entries inserted. *)
Definition hash_map (entries : override_map) : D override_map := fun c => Some (Val (order (maps_built c) entries), count_map c).

Abbreviation loader := (loader_types stubs reverse_stubs fuel).
Abbreviation canonical := (canonical_name reverse_stubs).

(** [locate_method] of the loader. *)
Definition locate (r : nat) (handle : UserMethod) (g : GenericLookup) (p : option ConcreteType) : F MethodDescription :=
  let& x := resolve_method stubs reverse_stubs finish addr fuel r handle g p in ok x.1.

Definition md_method (m : MethodDescription) : F Method := f_outcome (method loader m).
Definition md_signature (m : MethodDescription) : F (MethodSignature MethodType) := f_outcome (method_signature loader m).
Definition md_body (m : MethodDescription) : F bool := f_outcome (body loader m).

Definition find_method_internal (desc : TypeDescription) (name : string) (sig : MethodSignature MethodType) (sig_res : nat)
    (sig_generics type_generics : GenericLookup) (allow_variance : bool) : F (option MethodDescription) :=
  compare_anew (find_method_in_type_internal loader finish addr fuel desc name sig sig_res (Some sig_generics) (Some type_generics) allow_variance).

(** ** Explicit overrides *)

Definition method_for_lookup (m : MethodDescription) (generics : GenericLookup) (allow_variance : bool) : MethodDescription :=
  let g := parent_generics m in
  let g := if allow_variance && (length (type_generics g) =? length (type_generics generics))%nat &&
              negb (all2 ct_eqb (type_generics g) (type_generics generics))
           then set_type_generics finish g (type_generics generics) else g in
  with_generics m (set_method_generics finish g (method_generics generics)).

(** [HashMap::insert] and [HashMap::get] *)
Fixpoint override_insert (l : override_map) (k v : MethodDescription) : override_map :=
  match l with
  | [] => [(k, v)]
  | e :: l => if md_eqb k e.1 then (e.1, v) :: l else e :: override_insert l k v
  end.
Definition override_get (l : override_map) (k : MethodDescription) : option MethodDescription :=
  snd <$> List.find (fun e => md_eqb k e.1) l.

Fixpoint build_overrides (this_type : TypeDescription) (generics : GenericLookup) (l : list (UserMethod * UserMethod)) (map : override_map)
  : F override_map :=
  match l with
  | [] => ok map
  | (declaration, implementation) :: l =>
      let& decl := locate (resolution this_type) declaration generics None in
      let& impl := locate (resolution this_type) implementation generics (Some (concrete_of_description this_type)) in
      build_overrides this_type generics l (override_insert map decl impl)
  end.

(** Whether a declaration is the method under another identity: the same canonical parent,
    name and signature. *)
Definition bridges (m for_lookup decl : MethodDescription) (allow_variance : bool) : F bool :=
  if negb (bool_decide (canonical (type_name loader (parent decl)) = canonical (type_name loader (parent m)))) then ok false
  else
    let& dm := md_method decl in
    let& mm := md_method m in
    if negb (bool_decide (method_name dm = method_name mm)) then ok false
    else
      let& s := md_signature for_lookup in
      let& t := md_signature decl in
      if allow_variance then
        compare_anew (signatures_compatible_with_variance loader finish addr fuel (method_resolution for_lookup) s
                        (Some (parent_generics for_lookup)) (method_resolution decl) t (Some (parent_generics decl)))
      else
        f_outcome (signatures_equal loader (method_resolution for_lookup) s (Some (parent_generics for_lookup))
                     (method_resolution decl) t (Some (parent_generics decl))).

Fixpoint find_bridge (m for_lookup : MethodDescription) (allow_variance : bool) (l : override_map) : F (option MethodDescription) :=
  match l with
  | [] => ok None
  | (decl, impl) :: l => let& b := bridges m for_lookup decl allow_variance in if b then ok (Some impl) else find_bridge m for_lookup allow_variance l
  end.

(** The implementation a map of overrides gives for a method. *)
Definition lookup_override (m for_lookup : MethodDescription) (allow_variance : bool) (map : override_map) : F (option MethodDescription) :=
  match override_get map m with
  | Some impl => ok (Some impl)
  | None =>
      match override_get map for_lookup with
      | Some impl => ok (Some impl)
      | None => find_bridge m for_lookup allow_variance map
      end
  end.

Definition find_override_implementation (this_type : TypeDescription) (m : MethodDescription) (generics : GenericLookup) (allow_variance : bool)
  : D (option MethodDescription) :=
  let@ d := d_pure (definition_of stubs reverse_stubs fuel this_type) in
  match overrides d with
  | [] => d_ret None
  | _ =>
      let for_lookup := method_for_lookup m generics allow_variance in
      let key := (this_type, generics) in
      let@ hit := get_overrides_cached key in
      let@ map :=
        match hit with
        | Some map => d_ret map
        | None =>
            let@ entries := d_pure (build_overrides this_type generics (overrides d) []) in
            let@ map := hash_map entries in
            let@ _ := set_overrides_cached key map in
            d_ret map
        end in
      d_pure (lookup_override m for_lookup allow_variance map)
  end.

(** ** One type *)

(** The method a type has for a method of a base class or an interface. *)
Definition find_and_cache_method (this_type : TypeDescription) (m : MethodDescription) (generics : GenericLookup) (allow_variance : bool)
  : D (option MethodDescription) :=
  let for_lookup := method_for_lookup m generics allow_variance in
  let key := (m, this_type, generics) in
  let@ impl := find_override_implementation this_type m generics allow_variance in
  match impl with
  | Some impl => let@ _ := set_vmt_cached key impl in d_ret (Some impl)
  | None =>
      let signature_lookup := parent_generics for_lookup in
      let@ mm := d_pure (md_method m) in
      let@ sig := d_pure (md_signature m) in
      let@ exact := d_pure (find_method_internal this_type (method_name mm) sig (method_resolution m) signature_lookup generics false) in
      match exact with
      | Some x =>
          let@ xm := d_pure (if allow_variance then md_method x else ok mm) in
          if allow_variance && negb (public xm) then d_ret None
          else let@ _ := set_vmt_cached key x in d_ret (Some x)
      | None =>
          let@ b := d_pure (if allow_variance then md_body m else ok false) in
          if allow_variance && b then d_ret None
          else if allow_variance then
            let@ wide := d_pure (find_method_internal this_type (method_name mm) sig (method_resolution m) signature_lookup generics true) in
            match wide with
            | Some x =>
                let@ xm := d_pure (md_method x) in
                if negb (public xm) then d_ret None
                else let@ _ := set_vmt_cached key x in d_ret (Some x)
            | None => d_ret None
            end
          else d_ret None
      end
  end.

(** ** Interfaces *)

Definition enqueue_interface_type (src : TypeSource MemberType) (r : nat) (lookup : GenericLookup) (seen queue : list ConcreteType)
  : F (list ConcreteType * list ConcreteType) :=
  let& t := f_result (make_concrete lookup r (member_to_method_type src)) in
  ok (if existsb (ct_eqb t) seen then (seen, queue) else (t :: seen, queue ++ [t])).

Fixpoint enqueue_all (srcs : list (TypeSource MemberType)) (r : nat) (lookup : GenericLookup) (seen queue : list ConcreteType)
  : F (list ConcreteType * list ConcreteType) :=
  match srcs with
  | [] => ok (seen, queue)
  | src :: srcs => let& x := enqueue_interface_type src r lookup seen queue in enqueue_all srcs r lookup x.1 x.2
  end.

Fixpoint interface_loop (n : nat) (m : MethodDescription) (dispatch_generics : GenericLookup) (seen queue : list ConcreteType)
  : D (option MethodDescription) :=
  match n with
  | O => d_pure None
  | S n =>
      match queue with
      | [] => d_ret None
      | t :: queue =>
          let@ desc := d_pure (find_concrete_uncached stubs fuel t) in
          let lookup := set_method_generics finish (own_lookup finish t) (method_generics dispatch_generics) in
          let@ impl := find_override_implementation desc m lookup true in
          match impl with
          | Some impl => if negb (md_eqb impl m) then d_ret (Some impl) else
              let@ d := d_pure (definition_of stubs reverse_stubs fuel desc) in
              let@ x := d_pure (enqueue_all (implements d) (resolution desc) lookup seen queue) in
              interface_loop n m dispatch_generics x.1 x.2
          | None =>
              let@ d := d_pure (definition_of stubs reverse_stubs fuel desc) in
              let@ x := d_pure (enqueue_all (implements d) (resolution desc) lookup seen queue) in
              interface_loop n m dispatch_generics x.1 x.2
          end
      end
  end.

Definition find_interface_override_for_receiver (receiver : TypeDescription) (receiver_lookup : GenericLookup) (m : MethodDescription)
    (dispatch_generics : GenericLookup) : D (option MethodDescription) :=
  let@ d := d_pure (definition_of stubs reverse_stubs fuel receiver) in
  let@ x := d_pure (enqueue_all (implements d) (resolution receiver) receiver_lookup [] []) in
  interface_loop fuel m dispatch_generics x.1 x.2.

(** Interfaces of arrays are implemented by a helper of the support library. *)
Definition array_interfaces : list string :=
  ["System.Collections.Generic.IEnumerable`1"; "System.Collections.Generic.ICollection`1"; "System.Collections.Generic.IList`1";
   "System.Collections.Generic.IReadOnlyCollection`1"; "System.Collections.Generic.IReadOnlyList`1"]%string.

Definition try_resolve_array_generic_interface_method (m : MethodDescription) (this_type : TypeDescription) (generics : GenericLookup)
  : F (option MethodDescription) :=
  if negb (bool_decide (canonical (type_name loader this_type) = "System.Array"%string)) then ok None
  else if negb (bool_decide (canonical (type_name loader (parent m)) ∈ array_interfaces)) then ok None
  else
    match type_generics (parent_generics m) with
    | [] => ok None
    | element_type :: _ =>
        let signature_lookup := set_method_generics finish (parent_generics m) (method_generics generics) in
        let& helper := corlib stubs fuel WSupportSZArrayHelper1 in
        let& mm := md_method m in
        let& sig := md_signature m in
        find_method_internal helper (method_name mm) sig (method_resolution m) signature_lookup (from_arcs finish [element_type] []) true
    end.

(** ** Virtual calls *)

Fixpoint is_delegate_type_in_hierarchy (n : nat) (td : TypeDescription) : F bool :=
  match n with
  | O => None
  | S n =>
      let& x := next_ancestor stubs reverse_stubs fuel td in
      let '(a, _, b) := x in
      let name := canonical (type_name loader a) in
      if bool_decide (name = "System.Delegate"%string) || bool_decide (name = "System.MulticastDelegate"%string) then ok true
      else match b with Some b => is_delegate_type_in_hierarchy n b | None => ok false end
  end.

Definition cache_and_return (key : vmt_key) (m : MethodDescription) : D MethodDescription :=
  let@ _ := set_vmt_cached key m in d_ret m.

(** The arguments of a base class, in terms of those of the class. *)
Fixpoint base_arguments (r : nat) (lookup : GenericLookup) (ps : list MemberType) : F (list ConcreteType) :=
  match ps with
  | [] => ok []
  | p :: ps =>
      let& t := f_result (make_concrete lookup r (method_type_of p)) in
      let& ts := base_arguments r lookup ps in
      ok (t :: ts)
  end.

Fixpoint search_ancestors (m : MethodDescription) (is_interface : bool) (generics : GenericLookup) (lookup : GenericLookup)
    (l : list (TypeDescription * list MemberType)) : D (option MethodDescription) :=
  match l with
  | [] => d_ret None
  | (p, ps) :: l =>
      let@ x := find_and_cache_method p m lookup is_interface in
      match x with
      | Some x => d_ret (Some x)
      | None =>
          let@ y := if is_interface then find_interface_override_for_receiver p lookup m generics else d_ret None in
          match y with
          | Some y => d_ret (Some y)
          | None =>
              match l with
              | [] => d_ret None
              | _ =>
                  let@ args := d_pure (base_arguments (resolution p) lookup ps) in
                  search_ancestors m is_interface generics (from_arcs finish args (method_generics generics)) l
              end
          end
      end
  end.

Definition trim_generics (arity : nat) (generics : GenericLookup) : GenericLookup :=
  if (arity <? length (method_generics generics))%nat
  then from_arcs finish (type_generics generics) (take arity (method_generics generics)) else generics.

Definition delegate_method (name : string) : bool :=
  bool_decide (name = "Invoke"%string) || bool_decide (name = "BeginInvoke"%string) || bool_decide (name = "EndInvoke"%string).

(** The text of the error, which also prints the method, the type and the arguments, is shortened. *)
Definition resolve_virtual_method (m : MethodDescription) (this_type : TypeDescription) (generics : GenericLookup) : D MethodDescription :=
  let@ mm := d_pure (md_method m) in
  let generics := trim_generics (length (method_generic_parameters mm)) generics in
  let key := (m, this_type, generics) in
  if negb (virtual_member mm) then cache_and_return key m
  else
    let@ hit := get_vmt_cached key in
    match hit with
    | Some x => d_ret x
    | None =>
        let@ pd := d_pure (definition_of stubs reverse_stubs fuel (parent m)) in
        let is_interface := interface pd in
        let@ helper := d_pure (if is_interface then try_resolve_array_generic_interface_method m this_type generics else ok None) in
        match helper with
        | Some x => cache_and_return key x
        | None =>
            let@ runtime :=
              d_pure (if delegate_method (method_name mm) then
                        let& b := is_delegate_type_in_hierarchy fuel this_type in
                        if b then let& x := md_body m in ok (negb x) else ok false
                      else ok false) in
            if (runtime : bool) then cache_and_return key m
            else
              let@ l := d_pure (ancestors stubs reverse_stubs fuel fuel this_type) in
              let@ x := search_ancestors m is_interface generics generics l in
              match x with
              | Some x => cache_and_return key x
              | None =>
                  let@ b := d_pure (if is_interface then md_body m else ok false) in
                  if is_interface && b then cache_and_return key m
                  else d_pure (fails (MethodNotFound "could not find virtual method implementation"))
              end
        end
    end.

(** ** Constrained calls of static methods *)

Definition resolve_static_constrained_method_uncached (key : StaticConstrainedCacheKey) : D MethodDescription :=
  let m := base_method key in
  let g := source_lookup key in
  let@ desc := d_pure (find_concrete_uncached stubs fuel (constraint key)) in
  let@ impl := find_override_implementation desc m g false in
  match impl with
  | Some x => d_ret x
  | None =>
      let@ mm := d_pure (md_method m) in
      let@ sig := d_pure (md_signature m) in
      let@ direct := d_pure (find_method_internal desc (method_name mm) sig (method_resolution m) g g false) in
      match direct with
      | Some x => d_ret x
      | None =>
          let@ b := d_pure (md_body m) in
          if (b : bool) then d_ret m
          else
            let@ wide := find_override_implementation desc m g true in
            match wide with
            | Some x => d_ret x
            | None =>
                let signature_lookup := parent_generics (method_for_lookup m g true) in
                let@ x := d_pure (find_method_internal desc (method_name mm) sig (method_resolution m) signature_lookup g true) in
                d_ret (default m x)
            end
      end
  end.

(** [cache_enabled] and [shadow_enabled] are environment variables. *)
Definition resolve_static_constrained_method (cache_enabled shadow_enabled : bool) (c : ConcreteType) (m : MethodDescription) (g : GenericLookup)
  : D MethodDescription :=
  let key := {| constraint := c; base_method := m; source_lookup := g |} in
  if negb cache_enabled then resolve_static_constrained_method_uncached key
  else
    let@ hit := fun c => let '(x, s) := memo_get key (static_constrained c) in Some (Val x, set_static c s) in
    match hit with
    | Some x =>
        if (shadow_enabled : bool) then
          let@ y := resolve_static_constrained_method_uncached key in
          if md_eqb x y then d_ret x else d_pure panics
        else d_ret x
    | None =>
        let@ x := resolve_static_constrained_method_uncached key in
        let@ _ := fun c => Some (Val tt, set_static c (memo_put key x (static_constrained c))) in
        d_ret x
    end.

(** ** Method tokens of instructions *)

Inductive MethodSource : Set := MUser (u : UserMethod) | MGeneric (base : UserMethod) (parameters : list MethodType).

Fixpoint concrete_arguments (r : nat) (g : GenericLookup) (ts : list MethodType) : F (list ConcreteType) :=
  match ts with
  | [] => ok []
  | t :: ts =>
      let& c := f_result (make_concrete g r t) in
      let& cs := concrete_arguments r g ts in
      ok (c :: cs)
  end.

Definition find_generic_method (r : nat) (generics : GenericLookup) (source : MethodSource) : F (MethodDescription * GenericLookup) :=
  let& x := match source with
            | MUser u => ok (u, generics)
            | MGeneric base ps => let& cs := concrete_arguments r generics ps in ok (base, set_method_generics finish generics cs)
            end in
  let '(u, lookup) := x in
  let& y :=
    match u with
    | MReference i =>
        let& res := scope_metadata r in
        match method_references res !! i with
        | None => panics
        | Some ref =>
            match method_ref_parent ref with
            | ParentType t =>
                let& parent := f_result (make_concrete generics r t) in
                let& td := find_concrete_uncached stubs fuel parent in
                let& d := definition_of stubs reverse_stubs fuel td in
                let args := type_generics (own_lookup finish parent) in
                ok (Some parent,
                    if (length (generic_parameters d) =? 0)%nat then set_type_generics finish lookup []
                    else match args with [] => lookup | _ => set_type_generics finish lookup args end)
            | _ => ok (None, lookup)
            end
        end
    | MDefinition _ _ => ok (None, lookup)
    end in
  let& m := locate r u y.2 y.1 in
  ok (m, y.2).
End dispatch.
