(* ===== verification/DispatchLaws.v ===== *)
(** * What virtual dispatch finds

    For a virtual method of a class, a call runs what the nearest class has for it, from
    the class of the object upwards; the caches of the resolver change nothing, and
    neither does the order in which hash maps are iterated, as long as a class does not
    have two explicit overrides that compete for the method. *)

From Stdlib Require Import ZArith Lia Ascii.
From stdpp Require Import base tactics list option strings gmap.
From S2P Require Import Prelude Cache ManagedPtr Ops Generics Comparer Assignability Methods WellKnown Assemblies Locating MethodLookup KindIndependence VirtualDispatch.

Section laws.
Context {T : AssemblyTable} {N : MetadataNames} (stubs : gmap string TypeDescription) (reverse_stubs : gmap string string)
  (finish : list Z -> Z) (addr : ConcreteType -> nat -> Z) (fuel : nat).

Abbreviation loader := (loader_types stubs reverse_stubs fuel).
Abbreviation definition_of := (definition_of stubs reverse_stubs fuel).
Abbreviation md_method := (md_method stubs reverse_stubs fuel).
Abbreviation md_signature := (md_signature stubs reverse_stubs fuel).
Abbreviation md_body := (md_body stubs reverse_stubs fuel).
Abbreviation find_method_internal := (find_method_internal stubs reverse_stubs finish addr fuel).
Abbreviation build_overrides := (build_overrides stubs reverse_stubs finish addr fuel).
Abbreviation bridges := (bridges stubs reverse_stubs finish addr fuel).
Abbreviation lookup_override := (lookup_override stubs reverse_stubs finish addr fuel).
Abbreviation find_bridge := (find_bridge stubs reverse_stubs finish addr fuel).
Abbreviation method_for_lookup := (method_for_lookup finish).
Abbreviation next_ancestor := (next_ancestor stubs reverse_stubs fuel).
Abbreviation ancestors := (ancestors stubs reverse_stubs fuel).
Abbreviation is_delegate := (is_delegate_type_in_hierarchy stubs reverse_stubs fuel).

(** ** Dispatch without caches *)

Definition override_of (td : TypeDescription) (m : MethodDescription) (g : GenericLookup) : F (option MethodDescription) :=
  let& d := definition_of td in
  match overrides d with
  | [] => ok None
  | _ => let& map := build_overrides td g (overrides d) [] in lookup_override m (method_for_lookup m g false) false map
  end.

(** What a class has for a method: an explicit override, or a method of the same name and signature. *)
Definition implementation_of (td : TypeDescription) (m : MethodDescription) (g : GenericLookup) : F (option MethodDescription) :=
  let& o := override_of td m g in
  match o with
  | Some x => ok (Some x)
  | None =>
      let& mm := md_method m in
      let& sig := md_signature m in
      find_method_internal td (method_name mm) sig (method_resolution m) (parent_generics (method_for_lookup m g false)) g false
  end.

(** The nearest class that has something, each with its own generic arguments. *)
Fixpoint nearest (m : MethodDescription) (g : GenericLookup) (l : list (TypeDescription * list MemberType)) : F (option MethodDescription) :=
  match l with
  | [] => ok None
  | (p, ps) :: l =>
      let& x := implementation_of p m g in
      match x with
      | Some x => ok (Some x)
      | None =>
          match l with
          | [] => ok None
          | _ => let& args := base_arguments (resolution p) g ps in nearest m (from_arcs finish args (method_generics g)) l
          end
      end
  end.

(** The methods of delegates are the runtime's own. *)
Definition runtime_provided (m : MethodDescription) (name : string) (td : TypeDescription) : F bool :=
  if delegate_method name then
    let& b := is_delegate fuel td in
    if b then let& x := md_body m in ok (negb x) else ok false
  else ok false.

Definition dispatch (m : MethodDescription) (mm : Method) (td : TypeDescription) (g : GenericLookup) : F MethodDescription :=
  let& r := runtime_provided m (method_name mm) td in
  if r then ok m
  else
    let& l := ancestors fuel td in
    let& x := nearest m g l in
    match x with Some x => ok x | None => fails (MethodNotFound "could not find virtual method implementation") end.

(** ** Value kinds do not matter *)

Definition entry_equiv (x y : MethodDescription * MethodDescription) : Prop := md_equiv x.1 y.1 /\ md_equiv x.2 y.2.
Definition map_equiv : override_map -> override_map -> Prop := Forall2 entry_equiv.

#[export] Instance map_equiv_equivalence : Equivalence map_equiv.
Proof.
  split.
  - intros l. induction l; constructor; [by split | done].
  - intros l l' H. induction H as [|x y l l' [H1 H2]]; constructor; [by split; symmetry | done].
  - intros l1 l2 l3 H. revert l3. induction H as [|x y l l' [H1 H2] _ IH]; intros l3 H3; [done|].
    inversion H3 as [|? z ? l4 [H5 H6] H7]; subst. constructor; [split; by etransitivity | by apply IH].
Qed.

Lemma md_method_kinds m n : md_equiv m n -> md_method m = md_method n.
Proof. intros (H1 & _ & _ & H4). unfold VirtualDispatch.md_method, method. by rewrite H1, H4. Qed.

Lemma md_signature_kinds m n : md_equiv m n -> md_signature m = md_signature n.
Proof.
  intros (H1 & _ & H3 & H4). unfold VirtualDispatch.md_signature, method_signature, method_index. by rewrite H1, H3, H4.
Qed.

Lemma md_body_kinds m n : md_equiv m n -> md_body m = md_body n.
Proof. intros (H1 & _ & H3 & H4). unfold VirtualDispatch.md_body, body, method_index. by rewrite H1, H3, H4. Qed.

Lemma method_for_lookup_kinds m n g h : md_equiv m n -> gl_equiv g h -> md_equiv (method_for_lookup m g false) (method_for_lookup n h false).
Proof. intros (H1 & [H2 _] & H3 & H4) [_ H5]. by repeat split. Qed.

Lemma find_internal_kinds td name sig r g1 h1 g2 h2 : gl_equiv g1 h1 -> gl_equiv g2 h2 ->
  f_rel (opt_rel md_equiv) (find_method_internal td name sig r g1 g2 false) (find_method_internal td name sig r h1 h2 false).
Proof.
  intros H1 H2. unfold VirtualDispatch.find_method_internal, compare_anew, find_method_in_type_internal.
  unfold m_bind. destruct (m_pure (definition _ td) new_comparer) as [[[d c]|e|]|]; try done.
  pose proof (first_match_kinds finish addr fuel loader td name sig r (Some g1) (Some h1) (Some g2) (Some h2) (search_order d name) c H1 H2) as Hm.
  destruct (first_match _ _ _ _ _ _ _ _ (Some g1) (Some g2) _ _ c) as [[[a c1]|[]|]|],
    (first_match _ _ _ _ _ _ _ _ (Some h1) (Some h2) _ _ c) as [[[b c2]|[]|]|]; done.
Qed.

Lemma bridges_kinds m n fl fl' d d' : md_equiv m n -> md_equiv fl fl' -> md_equiv d d' -> bridges m fl d false = bridges n fl' d' false.
Proof.
  intros Hm Hf Hd. unfold VirtualDispatch.bridges. rewrite <- (proj1 Hm), <- (proj1 Hd). destruct (negb _); [done|].
  rewrite (md_method_kinds m n Hm), (md_method_kinds d d' Hd), (md_signature_kinds fl fl' Hf), (md_signature_kinds d d' Hd).
  destruct Hf as (_ & Hf & Hr & _), Hd as (_ & Hd & Hs & _). rewrite <- Hr, <- Hs.
  destruct (md_method d') as [[dm|e|]|]; try done. simpl. destruct (md_method n) as [[mm|e|]|]; try done. simpl.
  destruct (negb _); [done|]. destruct (md_signature fl') as [[s|e|]|]; try done. simpl. destruct (md_signature d') as [[t|e|]|]; try done. simpl.
  by rewrite (signatures_kinds _ _ (Some (parent_generics fl)) (Some (parent_generics fl')) s _ (Some (parent_generics d)) (Some (parent_generics d')) t Hf Hd).
Qed.

Lemma override_get_kinds l l' k k' : map_equiv l l' -> md_equiv k k' -> opt_rel md_equiv (override_get l k) (override_get l' k').
Proof.
  intros Hl Hk. unfold override_get. induction Hl as [|x y l l' [H1 H2] _ IH]; [done|]. simpl.
  assert (Hb : md_eqb k x.1 = md_eqb k' y.1).
  { apply eq_true_iff_eq. rewrite !md_eqb_equiv. by rewrite Hk, H1. }
  rewrite Hb. destruct (md_eqb k' y.1); [done | apply IH].
Qed.

Lemma override_insert_kinds l l' k k' v v' : map_equiv l l' -> md_equiv k k' -> md_equiv v v' ->
  map_equiv (override_insert l k v) (override_insert l' k' v').
Proof.
  intros Hl Hk Hv. induction Hl as [|x y l l' [H1 H2] Hl IH]; [constructor; [by split | constructor]|]. simpl.
  assert (Hb : md_eqb k x.1 = md_eqb k' y.1).
  { apply eq_true_iff_eq. rewrite !md_eqb_equiv. by rewrite Hk, H1. }
  rewrite Hb. destruct (md_eqb k' y.1); by constructor.
Qed.

Lemma lookup_override_kinds m n fl fl' map map' : md_equiv m n -> md_equiv fl fl' -> map_equiv map map' ->
  f_rel (opt_rel md_equiv) (lookup_override m fl false map) (lookup_override n fl' false map').
Proof.
  intros Hm Hf Hl. unfold VirtualDispatch.lookup_override. pose proof (override_get_kinds _ _ _ _ Hl Hm) as H1.
  destruct (override_get map m), (override_get map' n); try done. pose proof (override_get_kinds _ _ _ _ Hl Hf) as H2.
  destruct (override_get map fl), (override_get map' fl'); try done. clear H1 H2.
  induction Hl as [|[d i] [d' i'] l l' [Hd Hi] _ IH]; [done|]. simpl in *. rewrite (bridges_kinds m n fl fl' d d' Hm Hf Hd).
  destruct (bridges n fl' d' false) as [[[]|e|]|]; done.
Qed.

Lemma locate_kinds r u g h p q : gl_equiv g h -> opt_rel ct_equiv p q ->
  f_rel md_equiv (locate stubs reverse_stubs finish addr fuel r u g p) (locate stubs reverse_stubs finish addr fuel r u h q).
Proof.
  intros Hg Hp. eapply f_rel_bind; [by apply resolve_method_kinds|]. by intros a b [H _].
Qed.

Lemma build_overrides_kinds td g h l map map' : gl_equiv g h -> map_equiv map map' ->
  f_rel map_equiv (build_overrides td g l map) (build_overrides td h l map').
Proof.
  intros Hg. revert map map'. induction l as [|[d i] l IH]; intros map map' Hm; [done|]. cbn [VirtualDispatch.build_overrides].
  eapply f_rel_bind; [by apply locate_kinds|]. intros a b Hab. eapply f_rel_bind; [by apply locate_kinds|]. intros x y Hxy.
  apply IH. by apply override_insert_kinds.
Qed.

Lemma override_of_kinds td m n g h : md_equiv m n -> gl_equiv g h -> f_rel (opt_rel md_equiv) (override_of td m g) (override_of td n h).
Proof.
  intros Hm Hg. unfold override_of. eapply f_rel_bind; [by apply f_rel_eq|]. intros ? d ->. destruct (overrides d) as [|o l]; [done|].
  eapply f_rel_bind; [by apply build_overrides_kinds|]. intros a b Hab.
  apply lookup_override_kinds; [done | by apply method_for_lookup_kinds | done].
Qed.

Lemma implementation_of_kinds td m n g h : md_equiv m n -> gl_equiv g h ->
  f_rel (opt_rel md_equiv) (implementation_of td m g) (implementation_of td n h).
Proof.
  intros Hm Hg. unfold implementation_of. eapply f_rel_bind; [by apply override_of_kinds|]. intros [a|] [b|] Hab; try done.
  rewrite (md_method_kinds m n Hm), (md_signature_kinds m n Hm). do 2 (eapply f_rel_bind; [by apply f_rel_eq|]; intros ? ? ->).
  destruct (method_for_lookup_kinds m n g h Hm Hg) as (_ & Hl & _). destruct Hm as (_ & _ & -> & _). by apply find_internal_kinds.
Qed.

Lemma base_arguments_kinds r g h ps : gl_equiv g h -> f_rel cts_equiv (base_arguments r g ps) (base_arguments r h ps).
Proof.
  intros Hg. induction ps as [|p ps IH]; [done|]. cbn [base_arguments]. eapply (f_rel_bind ct_equiv).
  - pose proof (make_concrete_strip g h (proj1 Hg) (proj2 Hg) r (method_type_of p)) as Hm.
    destruct (make_concrete g r _), (make_concrete h r _); simpl in Hm; simplify_eq; done.
  - intros a b Hab. eapply f_rel_bind; [exact IH|]. intros x y Hxy. unfold cts_equiv in *. simpl. by rewrite (Hab : strip a = strip b), Hxy.
Qed.

Lemma nearest_kinds m n g h l : md_equiv m n -> gl_equiv g h -> f_rel (opt_rel md_equiv) (nearest m g l) (nearest n h l).
Proof.
  intros Hm. revert g h. induction l as [|[p ps] l IH]; intros g h Hg; [done|]. cbn [nearest].
  eapply f_rel_bind; [by apply implementation_of_kinds|]. intros [a|] [b|] Hab; try done. destruct l as [|x l]; [done|].
  eapply f_rel_bind; [by apply base_arguments_kinds|]. intros a b Ha. apply IH. by split; [|apply Hg].
Qed.

Lemma dispatch_kinds m n mm td g h : md_equiv m n -> gl_equiv g h -> f_rel md_equiv (dispatch m mm td g) (dispatch n mm td h).
Proof.
  intros Hm Hg. unfold dispatch, runtime_provided. rewrite (md_body_kinds m n Hm). eapply f_rel_bind; [by apply f_rel_eq|].
  intros ? [|] ->; [done|]. eapply f_rel_bind; [by apply f_rel_eq|]. intros ? l ->.
  eapply f_rel_bind; [by apply nearest_kinds|]. by intros [a|] [b|] Hab.
Qed.

(** ** The order of a hash map *)

(** No two keys of the map are equal. *)
Fixpoint distinct_keys (l : override_map) : Prop :=
  match l with [] => True | e :: l => Forall (fun e' => ~ md_equiv e.1 e'.1) l /\ distinct_keys l end.

Lemma override_insert_Forall (P : MethodDescription -> Prop) l k v :
  P k -> Forall (fun e => P e.1) l -> Forall (fun e => P e.1) (override_insert l k v).
Proof. intros Hk Hl. induction Hl as [|e l He Hl IH]; simpl; [by constructor|]. destruct (md_eqb k e.1); by constructor. Qed.

Lemma override_insert_distinct l k v : distinct_keys l -> distinct_keys (override_insert l k v).
Proof.
  induction l as [|e l IH]; simpl; [done|]. intros [He Hl]. destruct (md_eqb k e.1) eqn:Hk; simpl; [done|]. split; [|by apply IH].
  apply (override_insert_Forall (fun x => ~ md_equiv e.1 x)); [|done]. intros Heq.
  apply Bool.not_true_iff_false in Hk. apply Hk, md_eqb_equiv. by symmetry.
Qed.

Lemma build_overrides_distinct td g l map map' : distinct_keys map -> build_overrides td g l map = ok map' -> distinct_keys map'.
Proof.
  revert map. induction l as [|[d i] l IH]; intros map Hm; cbn [VirtualDispatch.build_overrides]; [by intros [= <-]|].
  destruct (locate _ _ _ _ _ _ d _ _) as [[a|e|]|]; try done. simpl. destruct (locate _ _ _ _ _ _ i _ _) as [[b|e|]|]; try done. simpl.
  apply IH. by apply override_insert_distinct.
Qed.

Lemma distinct_unique l x y : distinct_keys l -> x ∈ l -> y ∈ l -> md_equiv x.1 y.1 -> x = y.
Proof.
  induction l as [|e l IH]; intros Hd Hx Hy Hk; [by apply elem_of_nil in Hx|]. destruct Hd as [He Hd]. rewrite Forall_forall in He.
  apply elem_of_cons in Hx as [-> | Hx]; apply elem_of_cons in Hy as [-> | Hy]; [done | by apply He in Hk | | auto].
  symmetry in Hk. by apply He in Hk.
Qed.

Lemma override_get_perm l l' k : distinct_keys l -> l' ≡ₚ l -> override_get l' k = override_get l k.
Proof.
  intros Hd Hp. unfold override_get.
  destruct (List.find (fun e => md_eqb k e.1) l) as [x|] eqn:Hx, (List.find (fun e => md_eqb k e.1) l') as [y|] eqn:Hy; try done.
  - apply find_some in Hx as [Hx%list_elem_of_In Hkx%md_eqb_equiv], Hy as [Hy%list_elem_of_In Hky%md_eqb_equiv].
    rewrite Hp in Hy. rewrite (distinct_unique l x y); [done..|]. by rewrite <- Hkx.
  - apply find_some in Hx as [Hx%list_elem_of_In Hkx]. rewrite <- Hp in Hx. apply list_elem_of_In in Hx.
    pose proof (find_none _ _ Hy x Hx) as Hn. simpl in Hn. by rewrite Hkx in Hn.
  - apply find_some in Hy as [Hy%list_elem_of_In Hky]. rewrite Hp in Hy. apply list_elem_of_In in Hy.
    pose proof (find_none _ _ Hx y Hy) as Hn. simpl in Hn. by rewrite Hky in Hn.
Qed.

(** The entries that bridge to the method agree on its implementation. *)
Definition settled_map (m fl : MethodDescription) (l : override_map) : Prop :=
  (forall e, e ∈ l -> exists b, bridges m fl e.1 false = ok b) /\
  (forall e e', e ∈ l -> e' ∈ l -> bridges m fl e.1 false = ok true -> bridges m fl e'.1 false = ok true -> md_equiv e.2 e'.2).

Lemma find_bridge_settled m fl l : settled_map m fl l ->
  (exists e, e ∈ l /\ bridges m fl e.1 false = ok true /\ find_bridge m fl false l = ok (Some e.2)) \/
  ((forall e, e ∈ l -> bridges m fl e.1 false = ok false) /\ find_bridge m fl false l = ok None).
Proof.
  intros [Ht _]. induction l as [|[d i] l IH]; [right; split; [by intros e ?%elem_of_nil | done]|]. cbn [VirtualDispatch.find_bridge].
  destruct (Ht (d, i)) as [[] Hb]; [by left| |]; simpl in Hb; rewrite Hb; simpl; [left; exists (d, i); split; [by left | done]|].
  destruct IH as [(e & He & Hbe & ->) | [Hn ->]]; [intros e He; apply Ht; by right | left; exists e; split; [by right | done]|].
  right. split; [|done]. intros e [-> | He]%elem_of_cons; [done | auto].
Qed.

(** What a map gives for a method does not depend on the order of its entries. *)
Lemma lookup_override_perm m fl l l' : distinct_keys l -> l' ≡ₚ l ->
  (override_get l m = None -> override_get l fl = None -> settled_map m fl l) ->
  f_rel (opt_rel md_equiv) (lookup_override m fl false l') (lookup_override m fl false l).
Proof.
  intros Hd Hp Hs. unfold VirtualDispatch.lookup_override. rewrite !(override_get_perm l l') by done.
  destruct (override_get l m); [done|]. destruct (override_get l fl); [done|]. specialize (Hs eq_refl eq_refl).
  assert (Hs' : settled_map m fl l') by (destruct Hs as [H1 H2]; split; intros; [apply H1 | eapply H2]; rewrite <- ?Hp; eauto).
  destruct (find_bridge_settled m fl l Hs) as [(e & He & Hb & ->) | [Hn ->]],
    (find_bridge_settled m fl l' Hs') as [(e' & He' & Hb' & ->) | [Hn' ->]]; try done.
  - simpl. rewrite Hp in He'. by apply (proj2 Hs).
  - rewrite <- Hp in He. by rewrite (Hn' e He) in Hb.
  - rewrite Hp in He'. by rewrite (Hn e' He') in Hb'.
Qed.

(** A class does not have two explicit overrides that compete for the method. *)
Definition settled_class (m : MethodDescription) (td : TypeDescription) (g : GenericLookup) : Prop :=
  forall d map, definition_of td = ok d -> build_overrides td g (overrides d) [] = ok map ->
    override_get map m = None -> override_get map (method_for_lookup m g false) = None -> settled_map m (method_for_lookup m g false) map.

(** No class of the hierarchy, each with its own generic arguments, does. *)
Fixpoint settled (m : MethodDescription) (g : GenericLookup) (l : list (TypeDescription * list MemberType)) : Prop :=
  match l with
  | [] => True
  | (p, ps) :: l =>
      settled_class m p g /\
      match l with
      | [] => True
      | _ => forall args, base_arguments (resolution p) g ps = ok args -> settled m (from_arcs finish args (method_generics g)) l
      end
  end.

Definition settled_call (m : MethodDescription) (td : TypeDescription) (g : GenericLookup) : Prop :=
  forall l, ancestors fuel td = ok l -> settled m g l.

Lemma map_equiv_elem l l' e : map_equiv l l' -> e ∈ l' -> exists e0, e0 ∈ l /\ entry_equiv e0 e.
Proof.
  intros Hl (i & Hi)%list_elem_of_lookup. destruct (Forall2_lookup_r _ _ _ _ _ Hl Hi) as (e0 & H0 & He).
  exists e0. split; [by eapply list_elem_of_lookup_2 | done].
Qed.

Lemma settled_class_kinds m n td g h : md_equiv m n -> gl_equiv g h -> settled_class m td g -> settled_class n td h.
Proof.
  intros Hm Hg Hs d map' Hd Hb Hn1 Hn2. pose proof (build_overrides_kinds td g h (overrides d) [] [] Hg (reflexivity _)) as Hk.
  rewrite Hb in Hk. destruct (build_overrides td g (overrides d) []) as [[map|e|]|] eqn:Hmap; try done. simpl in Hk.
  pose proof (method_for_lookup_kinds m n g h Hm Hg) as Hf.
  pose proof (override_get_kinds _ _ _ _ Hk Hm) as G1. pose proof (override_get_kinds _ _ _ _ Hk Hf) as G2. rewrite Hn1 in G1. rewrite Hn2 in G2.
  assert (Hnone : forall (o : option MethodDescription), opt_rel md_equiv o None -> o = None) by (by intros []).
  destruct (Hs d map Hd Hmap) as [H1 H2]; [by apply (Hnone _ G1) | by apply (Hnone _ G2) |]. split.
  - intros e He. destruct (map_equiv_elem _ _ _ Hk He) as (e0 & He0 & [Hd0 _]). destruct (H1 e0 He0) as [b Hb0]. exists b.
    by rewrite <- (bridges_kinds m n _ _ e0.1 e.1 Hm Hf Hd0).
  - intros e e' He He' Hb1 Hb2. destruct (map_equiv_elem _ _ _ Hk He) as (e0 & He0 & [Hd0 Hi0]), (map_equiv_elem _ _ _ Hk He') as (e1 & He1 & [Hd1 Hi1]).
    rewrite <- (bridges_kinds m n _ _ e0.1 e.1 Hm Hf Hd0) in Hb1. rewrite <- (bridges_kinds m n _ _ e1.1 e'.1 Hm Hf Hd1) in Hb2.
    rewrite <- Hi0, <- Hi1. by apply H2.
Qed.

Lemma settled_kinds m n g h l : md_equiv m n -> gl_equiv g h -> settled m g l -> settled n h l.
Proof.
  intros Hm. revert g h. induction l as [|[p ps] l IH]; intros g h Hg; [done|]. cbn [settled].
  intros [Hc Hs]. split; [by eapply settled_class_kinds|]. destruct l as [|x l]; [done|]. intros args Ha.
  pose proof (base_arguments_kinds (resolution p) g h ps Hg) as Hb. rewrite Ha in Hb.
  destruct (base_arguments (resolution p) g ps) as [[args'|e|]|]; try done. apply (IH (from_arcs finish args' (method_generics g))); [|by apply Hs].
  by split; [|apply Hg].
Qed.

(** ** Ancestors *)

Definition delegate_named (x : TypeDescription * list MemberType) : bool :=
  let name := canonical_name reverse_stubs (type_name loader x.1) in
  bool_decide (name = "System.Delegate"%string) || bool_decide (name = "System.MulticastDelegate"%string).

Lemma ancestors_mono n k td l : ancestors n td = ok l -> ancestors (n + k) td = ok l.
Proof.
  revert td l. induction n as [|n IH]; intros td l; [done|]. cbn [MethodLookup.ancestors Nat.add].
  destruct (next_ancestor td) as [[[[a ps] [b|]]|e|]|]; try done. simpl.
  destruct (ancestors n b) as [[rest|e|]|] eqn:Hb; try done. rewrite (IH _ _ Hb). done.
Qed.

Lemma ancestors_cons n td p ps q l : ancestors n td = ok ((p, ps) :: q :: l) ->
  exists k, n = S k /\ ancestors k q.1 = ok (q :: l).
Proof.
  destruct n as [|n]; [done|]. cbn [MethodLookup.ancestors]. destruct (next_ancestor td) as [[[[a rs] [b|]]|e|]|]; try done. simpl.
  destruct (ancestors n b) as [[rest|e|]|] eqn:Hb; try done. intros [= <- <- ->]. exists n. split; [done|].
  assert (Hq : q.1 = b); [|by rewrite Hq].
  destruct n as [|n]; [done|]. cbn [MethodLookup.ancestors] in Hb.
  assert (Hn : forall a ps b', next_ancestor b = ok (a, ps, b') -> a = b).
  { intros a' ps' b'. unfold MethodLookup.next_ancestor. destruct (base_of _ _ _ b) as [[x|e|]|]; try done. simpl.
    destruct (definition_of b) as [[d|e|]|]; try done. by intros [= <- <- <-]. }
  destruct (next_ancestor b) as [[[[a2 ps2] [b2|]]|e|]|] eqn:Hx; try done; simpl in Hb.
  - destruct (ancestors n b2) as [[rest|e|]|]; try done. injection Hb as <- <-. by eapply Hn.
  - injection Hb as <- <-. by eapply Hn.
Qed.

Lemma is_delegate_ancestors n td l : ancestors n td = ok l -> is_delegate n td = ok (existsb delegate_named l).
Proof.
  revert td l. induction n as [|n IH]; intros td l; [done|]. cbn [MethodLookup.ancestors is_delegate_type_in_hierarchy].
  destruct (next_ancestor td) as [[[[a ps] [b|]]|e|]|]; try done; simpl.
  - destruct (ancestors n b) as [[rest|e|]|] eqn:Hb; try done. intros [= <-]. simpl. rewrite (IH _ _ Hb). unfold delegate_named at 2. simpl.
    by destruct (_ || _).
  - intros [= <-]. simpl. unfold delegate_named. simpl. by destruct (_ || _).
Qed.

Lemma ancestors_le n n' td l : (n <= n')%nat -> ancestors n td = ok l -> ancestors n' td = ok l.
Proof. intros Hn H. replace n' with (n + (n' - n))%nat by lia. by apply ancestors_mono. Qed.

(** What the runtime does not provide for a class it does not provide for its bases. *)
Lemma runtime_provided_base m name td l n p l' : (n <= fuel)%nat ->
  ancestors fuel td = ok l -> ancestors n p = ok l' -> l' ⊆ l ->
  runtime_provided m name td = ok false -> runtime_provided m name p = ok false.
Proof.
  intros Hn Hl Hl' Hs. unfold runtime_provided. destruct (delegate_method name); [|done].
  rewrite (is_delegate_ancestors _ _ _ Hl), (is_delegate_ancestors _ _ _ (ancestors_le _ _ _ _ Hn Hl')). simpl.
  destruct (existsb delegate_named l') eqn:He; [|done].
  apply existsb_exists in He as (x & Hx & Hd). assert (existsb delegate_named l = true) as ->; [|done].
  apply existsb_exists. exists x. split; [|done]. apply list_elem_of_In. apply Hs. by apply list_elem_of_In.
Qed.

(** What a class has for a method is where dispatch on it ends. *)
Lemma dispatch_here m mm n p ps l g x : (n <= fuel)%nat -> ancestors n p = ok ((p, ps) :: l) ->
  runtime_provided m (method_name mm) p = ok false -> implementation_of p m g = ok (Some x) -> dispatch m mm p g = ok x.
Proof.
  intros Hn Hl Hr Hi. unfold dispatch. rewrite Hr. simpl. rewrite (ancestors_le _ _ _ _ Hn Hl). simpl. by rewrite Hi.
Qed.

(** ** Coherent caches *)

(** Each map iterates its entries in some order of its own. *)
Context (order : nat -> override_map -> override_map).
Hypothesis order_entries : forall n l, order n l ≡ₚ l.

Context {C1 C2 C3 : Type} `{MemoLaws vmt_key MethodDescription C1 vmt_eqb} `{MemoLaws overrides_key override_map C2 overrides_eqb}
  `{MemoCache StaticConstrainedCacheKey MethodDescription C3}.

Abbreviation caches := (@resolver_caches C1 C2 C3).
Abbreviation D := (@D C1 C2 C3).

(** A virtual method of a class. *)
Definition class_virtual (m : MethodDescription) (mm : Method) : Prop :=
  md_method m = ok mm /\ virtual_member mm = true /\ exists pd, definition_of (parent m) = ok pd /\ interface pd = false.

Definition vmt_ok (k : vmt_key) (v : MethodDescription) : Prop :=
  forall mm, class_virtual k.1.1 mm -> settled_call k.1.1 k.1.2 k.2 -> f_rel md_equiv (ok v) (dispatch k.1.1 mm k.1.2 k.2).

(** The same entries up to value kinds, in any order. *)
Definition map_perm (l l' : override_map) : Prop := exists l1, map_equiv l l1 /\ l1 ≡ₚ l'.

Definition overrides_ok (k : overrides_key) (map : override_map) : Prop :=
  exists d, definition_of k.1 = ok d /\ f_rel map_perm (ok map) (build_overrides k.1 k.2 (overrides d) []).

Definition coherent_caches (c : caches) : Prop :=
  (forall k v, memo_entry (vmt c) k v -> vmt_ok k v) /\ (forall k v, memo_entry (overrides_cache c) k v -> overrides_ok k v).

Lemma class_virtual_kinds m n mm : md_equiv m n -> class_virtual m mm -> class_virtual n mm.
Proof. intros Hm. unfold class_virtual. rewrite (md_method_kinds m n Hm). by destruct Hm as (-> & _). Qed.

Lemma f_rel_sym_trans {A} (R : A -> A -> Prop) `{!Equivalence R} x y z : f_rel R x y -> f_rel R z y -> f_rel R x z.
Proof.
  destruct x as [[a|e|]|], y as [[b|e'|]|], z as [[c|e2|]|]; try done; simpl; [|congruence].
  intros H5 H6. by rewrite H5, H6.
Qed.

Lemma vmt_ok_equal k k' v : vmt_eqb k k' = true -> vmt_ok k' v -> vmt_ok k v.
Proof.
  destruct k as [[m td] g], k' as [[n td'] h]. unfold vmt_eqb. simpl. rewrite !andb_true_iff, bool_decide_eq_true, md_eqb_equiv, gl_eqb_equiv.
  intros [[Hm ->] Hg] Hv mm Hc Hs. cbn [fst snd] in *. specialize (Hv mm (class_virtual_kinds _ _ _ Hm Hc)).
  cbn [fst snd] in Hv. specialize (Hv (fun l Hl => settled_kinds _ _ _ _ _ Hm Hg (Hs l Hl))). eapply f_rel_sym_trans; [apply md_equivalence | exact Hv|]. by apply dispatch_kinds.
Qed.

Lemma vmt_ok_value k v w : md_equiv v w -> vmt_ok k v -> vmt_ok k w.
Proof.
  intros He Hv mm Hc Hs. specialize (Hv mm Hc Hs). destruct (dispatch _ _ _ _) as [[x|e|]|]; try done. simpl in *. by rewrite <- He.
Qed.

Lemma overrides_ok_equal k k' v : overrides_eqb k k' = true -> overrides_ok k' v -> overrides_ok k v.
Proof.
  destruct k as [td g], k' as [td' h]. unfold overrides_eqb. simpl. rewrite andb_true_iff, bool_decide_eq_true, gl_eqb_equiv.
  intros [-> Hg] (d & Hd & Hb). exists d. split; [done|]. cbn [fst snd] in *.
  pose proof (build_overrides_kinds td' g h (overrides d) [] [] Hg (reflexivity _)) as Hk.
  destruct (build_overrides td' h (overrides d) []) as [[map0|e|]|]; try done.
  destruct (build_overrides td' g (overrides d) []) as [[map0'|e|]|]; try done. simpl in *. destruct Hb as (map1 & He & Hp).
  symmetry in Hk, Hp. destruct (Permutation_Forall2 Hp Hk) as (map1' & Hp' & He').
  exists map1'. split; [by etransitivity | by symmetry].
Qed.

(** ** Computations that agree with one without caches *)

Definition agrees {A B} (R : A -> B -> Prop) (x : D A) (y : F B) : Prop := forall c, coherent_caches c ->
  f_rel R (fst <$> x c) y /\ forall o c', x c = Some (o, c') -> coherent_caches c'.

Definition preserves {A} (x : D A) : Prop := forall c o c', coherent_caches c -> x c = Some (o, c') -> coherent_caches c'.

Lemma agrees_preserves {A B} (R : A -> B -> Prop) x y : agrees R x y -> preserves x.
Proof. intros H5 c o c' Hc. by apply H5. Qed.

Lemma agrees_pure {A B} (R : A -> B -> Prop) x y : f_rel R x y -> agrees R (d_pure x) y.
Proof.
  intros Hx c Hc. unfold d_pure. destruct x as [o|]; simpl; (split; [done|]); [by intros ? ? [= _ <-] | done].
Qed.

Lemma agrees_bind {A B A' B'} (R : A -> B -> Prop) (S : A' -> B' -> Prop) x y k l :
  agrees R x y -> (forall a b, y = ok b -> R a b -> agrees S (k a) (l b)) -> agrees S (d_bind x k) (f_bind y l).
Proof.
  intros Hx Hk c Hc. destruct (Hx c Hc) as [Hr Hp]. unfold d_bind. destruct (x c) as [[[a|e|] c1]|]; simpl in Hr.
  - destruct y as [[b|e|]|]; try done. apply (Hk a b eq_refl Hr). by eapply Hp.
  - destruct y as [[b|e'|]|]; try done. split; [done|]. intros ? ? [= _ <-]. by eapply Hp.
  - destruct y as [[b|e'|]|]; try done. split; [done|]. intros ? ? [= _ <-]. by eapply Hp.
  - destruct y as [[b|e'|]|]; try done.
Qed.

(** A step whose answer is not compared. *)
Lemma agrees_skip {A A' B'} (P : A -> Prop) (S : A' -> B' -> Prop) x k (y : F B') :
  agrees (fun a (_ : unit) => P a) x (ok tt) -> (forall a, P a -> agrees S (k a) y) -> agrees S (d_bind x k) y.
Proof. intros Hx Hk. change y with (f_bind (ok tt) (fun _ => y)). eapply agrees_bind; [exact Hx|]. intros a b _ Ha. by apply Hk. Qed.

Lemma preserves_pure {A} (x : F A) : preserves (d_pure x).
Proof. intros c o c' Hc. unfold d_pure. destruct x; [by intros [= _ <-] | done]. Qed.

Lemma preserves_bind {A B} (x : D A) (k : A -> D B) : preserves x -> (forall a, preserves (k a)) -> preserves (d_bind x k).
Proof.
  intros Hx Hk c o c' Hc. unfold d_bind. destruct (x c) as [[[a|e|] c1]|] eqn:E; try done.
  - apply Hk. by eapply Hx.
  - intros [= _ <-]. by eapply Hx.
  - intros [= _ <-]. by eapply Hx.
Qed.

(** What is known of the answer of the first step may be used in the second. *)
Lemma preserves_bind_with {A B} (Q : A -> Prop) (x : D A) (k : A -> D B) : preserves x ->
  (forall c a c', coherent_caches c -> x c = Some (Val a, c') -> Q a) -> (forall a, Q a -> preserves (k a)) -> preserves (d_bind x k).
Proof.
  intros Hx HQ Hk c o c' Hc. unfold d_bind. destruct (x c) as [[[a|e|] c1]|] eqn:E; try done.
  - apply Hk; [by eapply HQ | by eapply Hx].
  - intros [= _ <-]. by eapply Hx.
  - intros [= _ <-]. by eapply Hx.
Qed.

Lemma agrees_answer {A B} (R : A -> B -> Prop) x y c a c' : agrees R x y -> coherent_caches c -> x c = Some (Val a, c') -> f_rel R (ok a) y.
Proof. intros Ha Hc Hx. destruct (Ha c Hc) as [Hr _]. by rewrite Hx in Hr. Qed.

Lemma set_vmt_agrees k v : vmt_ok k v -> agrees (fun _ _ => True) (set_vmt_cached k v) (ok tt).
Proof.
  intros Hv c [Hc1 Hc2]. split; [done|]. intros o c' [= _ <-]. split; [|done]. simpl. intros k' v' [He|[He <-]]%memo_put_entry; [auto|].
  eapply vmt_ok_equal; [|exact Hv]. destruct k as [[m td] g], k' as [[n td'] h]. unfold vmt_eqb in *. simpl in *.
  rewrite !andb_true_iff, bool_decide_eq_true, md_eqb_equiv, gl_eqb_equiv in *. destruct He as [[Hm ->] Hg]. by split; [split; symmetry|].
Qed.

Lemma get_vmt_agrees k : agrees (fun o (_ : unit) => forall v, o = Some v -> vmt_ok k v) (get_vmt_cached k) (ok tt).
Proof.
  intros c [Hc1 Hc2]. unfold get_vmt_cached. destruct (memo_get k (vmt c)) as [o v] eqn:Hg. split.
  - simpl. intros x ->. apply memo_hit in Hg as (k' & Hk & He). eapply vmt_ok_equal; [exact Hk | auto].
  - intros ? ? [= _ <-]. split; [|done]. simpl. intros k' v' He. destruct (memo_get_entry _ _ _ _ _ _ Hg He) as [He'|[Hk Ho]]; [auto|]. subst o.
    apply memo_hit in Hg as (k2 & Hk2 & He2). eapply vmt_ok_equal; [|by apply Hc1]. clear -Hk Hk2.
    destruct k as [[m td] g], k' as [[n td'] h], k2 as [[n2 td2] h2]. unfold vmt_eqb in *. simpl in *.
    rewrite !andb_true_iff, !bool_decide_eq_true, !md_eqb_equiv, !gl_eqb_equiv in *. destruct Hk as [[Hm ->] Hg], Hk2 as [[Hm2 ->] Hg2].
    split; [split; [by rewrite <- Hm | done] | by rewrite <- Hg].
Qed.

Lemma set_overrides_agrees k v : overrides_ok k v -> agrees (fun _ _ => True) (set_overrides_cached k v) (ok tt).
Proof.
  intros Hv c [Hc1 Hc2]. split; [done|]. intros o c' [= _ <-]. split; [done|]. simpl. intros k' v' [He|[He <-]]%memo_put_entry; [auto|].
  eapply overrides_ok_equal; [|exact Hv]. destruct k as [td g], k' as [td' h]. unfold overrides_eqb in *. simpl in *.
  rewrite !andb_true_iff, bool_decide_eq_true, gl_eqb_equiv in *. destruct He as [-> Hg]. by split.
Qed.

Lemma get_overrides_agrees k : agrees (fun o (_ : unit) => forall v, o = Some v -> overrides_ok k v) (get_overrides_cached k) (ok tt).
Proof.
  intros c [Hc1 Hc2]. unfold get_overrides_cached. destruct (memo_get k (overrides_cache c)) as [o v] eqn:Hg. split.
  - simpl. intros x ->. apply memo_hit in Hg as (k' & Hk & He). eapply overrides_ok_equal; [exact Hk | auto].
  - intros ? ? [= _ <-]. split; [done|]. simpl. intros k' v' He. destruct (memo_get_entry _ _ _ _ _ _ Hg He) as [He'|[Hk Ho]]; [auto|]. subst o.
    apply memo_hit in Hg as (k2 & Hk2 & He2). eapply overrides_ok_equal; [|by apply Hc2]. clear -Hk Hk2.
    destruct k as [td g], k' as [td' h], k2 as [td2 h2]. unfold overrides_eqb in *. simpl in *.
    rewrite !andb_true_iff, !bool_decide_eq_true, !gl_eqb_equiv in *. destruct Hk as [-> Hg], Hk2 as [-> Hg2].
    split; [done | by rewrite <- Hg].
Qed.

(** ** The resolver *)

Abbreviation find_override_implementation := (find_override_implementation (C1 := C1) (C3 := C3) stubs reverse_stubs finish addr fuel order).
Abbreviation find_and_cache_method := (find_and_cache_method (C1 := C1) (C3 := C3) stubs reverse_stubs finish addr fuel order).
Abbreviation interface_loop := (interface_loop (C1 := C1) (C3 := C3) stubs reverse_stubs finish addr fuel order).
Abbreviation search_ancestors := (search_ancestors (C1 := C1) (C3 := C3) stubs reverse_stubs finish addr fuel order).
Abbreviation resolve_virtual_method := (resolve_virtual_method (C1 := C1) (C3 := C3) stubs reverse_stubs finish addr fuel order).

(** The map of overrides of a type, from the cache or built. *)
Definition overrides_map (td : TypeDescription) (g : GenericLookup) (d : TypeDefinition) : D override_map :=
  d_bind (get_overrides_cached (td, g)) (fun hit =>
    match hit with
    | Some map => d_ret map
    | None =>
        d_bind (d_pure (build_overrides td g (overrides d) [])) (fun entries =>
          d_bind (hash_map order entries) (fun map =>
            d_bind (set_overrides_cached (td, g) map) (fun _ => d_ret map)))
    end).

Lemma hash_map_agrees entries : agrees (fun map (_ : unit) => map ≡ₚ entries) (hash_map order entries) (ok tt).
Proof. intros c Hc. split; [apply order_entries|]. by intros o c' [= _ <-]. Qed.

Lemma overrides_map_agrees td g d : definition_of td = ok d ->
  agrees map_perm (overrides_map td g d) (build_overrides td g (overrides d) []).
Proof.
  intros Hd. unfold overrides_map. eapply agrees_skip; [apply get_overrides_agrees|]. intros [map|] Hv.
  - apply agrees_pure. destruct (Hv map eq_refl) as (d' & Hd' & Hb). cbn [fst] in Hd'. rewrite Hd in Hd'. injection Hd' as <-. exact Hb.
  - destruct (build_overrides td g (overrides d) []) as [[entries|e|]|] eqn:Hb;
      [|by intros c Hc; split; [done | intros ? ? [= _ <-]].. | by intros c Hc].
    eapply agrees_skip; [apply (agrees_pure (fun a (_ : unit) => a = entries)); done|]. intros ? ->.
    eapply agrees_skip; [apply hash_map_agrees|]. intros map Hp.
    assert (Hm : map_perm map entries) by by exists map.
    eapply agrees_skip; [apply set_overrides_agrees|intros _ _; by apply agrees_pure].
    exists d. split; [done|]. simpl. by rewrite Hb.
Qed.

Lemma find_override_shape td m g b c : find_override_implementation td m g b c =
  d_bind (d_pure (definition_of td)) (fun d => match overrides d with
    | [] => d_ret None
    | _ => d_bind (overrides_map td g d) (fun map => d_pure (lookup_override m (method_for_lookup m g b) b map))
    end) c.
Proof.
  unfold VirtualDispatch.find_override_implementation, overrides_map, d_bind, d_ret, d_pure, get_overrides_cached, hash_map.
  destruct (definition_of td) as [[d|e|]|]; try done. destruct (overrides d) as [|x l] eqn:Ho; [done|].
  destruct (memo_get (td, g) (overrides_cache c)) as [[map|] v]; simpl; [done|].
  by destruct (build_overrides td g (x :: l) []) as [[map|e|]|].
Qed.

Lemma agrees_ext {A B} (R : A -> B -> Prop) x x' y : (forall c, x' c = x c) -> agrees R x y -> agrees R x' y.
Proof. intros He Ha c Hc. rewrite He. by apply Ha. Qed.

Lemma preserves_ext {A} (x x' : D A) : (forall c, x' c = x c) -> preserves x -> preserves x'.
Proof. intros He Ha c o c' Hc. rewrite He. by apply Ha. Qed.

Lemma find_override_agrees td m g : settled_class m td g ->
  agrees (opt_rel md_equiv) (find_override_implementation td m g false) (override_of td m g).
Proof.
  intros Hs. eapply agrees_ext; [apply find_override_shape|]. unfold override_of. eapply agrees_bind; [apply agrees_pure, f_rel_eq; done|].
  intros ? d Hd ->. destruct (overrides d) as [|o l] eqn:Ho; [by apply agrees_pure|]. rewrite <- Ho.
  eapply agrees_bind; [by apply overrides_map_agrees|]. intros a b Hb (a1 & Ha & Hp). apply agrees_pure.
  pose proof (lookup_override_kinds m m (method_for_lookup m g false) (method_for_lookup m g false) a a1
    (reflexivity _) (reflexivity _) Ha) as H5.
  pose proof (lookup_override_perm m (method_for_lookup m g false) b a1 (build_overrides_distinct _ _ _ [] _ I Hb) Hp (Hs d b Hd Hb)) as H6.
  destruct (lookup_override m _ false a) as [[x|e|]|], (lookup_override m _ false a1) as [[y|e'|]|],
    (lookup_override m _ false b) as [[z|e2|]|]; try done; simpl in *; [|congruence].
  destruct x, y, z; try done. simpl in *. by rewrite H5.
Qed.

Lemma find_override_preserves td m g b : preserves (find_override_implementation td m g b).
Proof.
  eapply preserves_ext; [apply find_override_shape|]. intros c o c' Hc. unfold d_bind at 1, d_pure at 1.
  destruct (definition_of td) as [[d|e|]|] eqn:Hd; try done; [|by intros [= _ <-]..].
  revert c o c' Hc. destruct (overrides d); [apply preserves_pure|].
  apply preserves_bind; [|intros; apply preserves_pure]. eapply agrees_preserves. by apply overrides_map_agrees.
Qed.

(** *** One class *)

Lemma find_and_cache_agrees td m g : settled_class m td g ->
  (forall x, implementation_of td m g = ok (Some x) -> vmt_ok (m, td, g) x) ->
  agrees (opt_rel md_equiv) (find_and_cache_method td m g false) (implementation_of td m g).
Proof.
  intros Hset Hok. unfold VirtualDispatch.find_and_cache_method, implementation_of in *.
  assert (Hstore : forall x y, md_equiv x y -> vmt_ok (m, td, g) y ->
    agrees (opt_rel md_equiv) (d_bind (set_vmt_cached (m, td, g) x) (fun _ => d_ret (Some x))) (ok (Some y))).
  { intros x y Hxy Hy. eapply agrees_skip; [apply set_vmt_agrees; by eapply vmt_ok_value|]. intros _ _. by apply agrees_pure. }
  eapply agrees_bind; [by apply find_override_agrees|]. intros [x|] [y|] Hy Hxy; try done.
  - apply Hstore; [done|]. apply Hok. by rewrite Hy.
  - rewrite Hy in Hok. simpl in Hok.
    eapply agrees_bind; [apply agrees_pure, f_rel_eq; done|]. intros ? mm Hmm ->. rewrite Hmm in Hok. simpl in Hok.
    eapply agrees_bind; [apply agrees_pure, f_rel_eq; done|]. intros ? sig Hsig ->. rewrite Hsig in Hok. simpl in Hok.
    set (r := find_method_internal td (method_name mm) sig (method_resolution m) _ g false) in *.
    destruct r as [[[x|]|e|]|]; simpl.
    + eapply (agrees_ext _ (d_bind (set_vmt_cached (m, td, g) x) (fun _ => d_ret (Some x)))); [done|]. apply Hstore; [done|]. by apply Hok.
    + eapply (agrees_ext _ (d_pure (ok None))); [done|]. by apply agrees_pure.
    + eapply (agrees_ext _ (d_pure (fails e))); [done|]. by apply agrees_pure.
    + eapply (agrees_ext _ (d_pure panics)); [done|]. by apply agrees_pure.
    + eapply (agrees_ext _ (d_pure None)); [done|]. by apply agrees_pure.
Qed.

(** Also for a class where overrides compete: what is stored is right if they do not. *)
Lemma find_and_cache_keeps td m g :
  (forall v, (settled_class m td g -> f_rel (opt_rel md_equiv) (ok (Some v)) (implementation_of td m g)) -> vmt_ok (m, td, g) v) ->
  preserves (find_and_cache_method td m g false).
Proof.
  intros Hok. assert (Hstore : forall v, vmt_ok (m, td, g) v ->
    preserves (d_bind (set_vmt_cached (m, td, g) v) (fun _ => d_ret (Some v)))).
  { intros v Hv. apply preserves_bind; [eapply agrees_preserves; by apply set_vmt_agrees | intros; apply preserves_pure]. }
  unfold VirtualDispatch.find_and_cache_method.
  apply (preserves_bind_with (fun o => settled_class m td g -> f_rel (opt_rel md_equiv) (ok o) (override_of td m g)));
    [apply find_override_preserves | intros c a c' Hc Hx Hs; by eapply agrees_answer; [apply find_override_agrees|..]|].
  intros [v|] Hv.
  { apply Hstore, Hok. intros Hs. specialize (Hv Hs). unfold implementation_of. by destruct (override_of td m g) as [[[y|]|e|]|]. }
  intros c o c' Hc. unfold d_bind at 1, d_pure at 1. destruct (md_method m) as [[mm|e|]|] eqn:Hm; try done; [|by intros [= _ <-]..].
  unfold d_bind at 1, d_pure at 1. destruct (md_signature m) as [[sig|e|]|] eqn:Hsig; try done; [|by intros [= _ <-]..].
  unfold d_bind at 1, d_pure at 1. 
  destruct (find_method_internal td (method_name mm) sig (method_resolution m) _ g false) as [[[v|]|e|]|] eqn:Hr; simpl; try done; [|by intros [= _ <-]..].
  apply (Hstore v); [|done]. apply Hok. intros Hs. specialize (Hv Hs). unfold implementation_of.
  destruct (override_of td m g) as [[[y|]|e|]|]; try done. unfold f_bind, ok in *. by rewrite Hm, Hsig, Hr.
Qed.

Lemma set_vmt_preserves k v : (forall mm, ~ class_virtual k.1.1 mm) -> preserves (set_vmt_cached (C1 := C1) (C2 := C2) (C3 := C3) k v).
Proof. intros Hn. eapply agrees_preserves, set_vmt_agrees. intros mm Hc. by apply Hn in Hc. Qed.

(** *** The hierarchy *)

Lemma search_agrees m mm g lookup n p ps l : class_virtual m mm -> method_generics lookup = method_generics g -> (n <= fuel)%nat ->
  ancestors n p = ok ((p, ps) :: l) -> runtime_provided m (method_name mm) p = ok false -> settled m lookup ((p, ps) :: l) ->
  agrees (opt_rel md_equiv) (search_ancestors m false g lookup ((p, ps) :: l)) (nearest m lookup ((p, ps) :: l)).
Proof.
  intros Hc. revert lookup n p ps. induction l as [|[p2 ps2] l IH]; intros lookup n p ps Hg Hn Hl Hr [Hset Hrest]; cbn [VirtualDispatch.search_ancestors nearest];
    (eapply agrees_bind; [apply find_and_cache_agrees; [done|]|]).
  1, 3: intros x Hx mm' Hc' _; simpl in *; (assert (mm' = mm) as -> by (destruct Hc as [Hc _], Hc' as [Hc' _]; rewrite Hc in Hc'; by injection Hc'));
    by rewrite (dispatch_here _ _ _ _ _ _ _ _ Hn Hl Hr Hx).
  - intros [x|] [y|] _ Hxy; try done; [by apply agrees_pure|].
    eapply (agrees_ext _ (d_pure (ok None))); [done|]. by apply agrees_pure.
  - intros [x|] [y|] _ Hxy; try done; [by apply agrees_pure|].
    eapply (agrees_ext _ (d_bind (d_pure (base_arguments (resolution p) lookup ps)) (fun args =>
      search_ancestors m false g (from_arcs finish args (method_generics g)) ((p2, ps2) :: l)))); [done|].
    eapply agrees_bind; [apply agrees_pure, f_rel_eq; done|]. intros ? args Ha ->. rewrite Hg.
    destruct (ancestors_cons _ _ _ _ _ _ Hl) as (k & -> & Hk). simpl in Hk.
    apply (IH _ k); [done | lia | done| |by rewrite <- Hg; apply Hrest].
    eapply (runtime_provided_base _ _ p _ k p2); [lia | by eapply ancestors_le | done | by intros z Hz; right | done].
Qed.

Lemma search_keeps m mm g lookup n p ps l : class_virtual m mm -> method_generics lookup = method_generics g -> (n <= fuel)%nat ->
  ancestors n p = ok ((p, ps) :: l) -> runtime_provided m (method_name mm) p = ok false ->
  preserves (search_ancestors m false g lookup ((p, ps) :: l)).
Proof.
  intros Hc. revert lookup n p ps. induction l as [|[p2 ps2] l IH]; intros lookup n p ps Hg Hn Hl Hr; cbn [VirtualDispatch.search_ancestors];
    (apply preserves_bind; [apply find_and_cache_keeps|]).
  1, 3: intros v Hv mm' Hc' Hs; cbn [fst snd] in *;
    (assert (mm' = mm) as -> by (destruct Hc as [Hc _], Hc' as [Hc' _]; rewrite Hc in Hc'; by injection Hc'));
    destruct (Hs _ (ancestors_le _ _ _ _ Hn Hl)) as [Hset _]; specialize (Hv Hset);
    destruct (implementation_of p m lookup) as [[[x|]|e|]|] eqn:Hx; try done; by rewrite (dispatch_here _ _ _ _ _ _ _ _ Hn Hl Hr Hx).
  - intros [x|]; [apply preserves_pure|]. apply preserves_bind; [apply preserves_pure|]. intros [y|]; apply preserves_pure.
  - intros [x|]; [apply preserves_pure|]. apply preserves_bind; [apply preserves_pure|]. intros [y|]; [apply preserves_pure|].
    apply preserves_bind; [apply preserves_pure|]. intros args.
    destruct (ancestors_cons _ _ _ _ _ _ Hl) as (k & -> & Hk). simpl in Hk.
    apply (IH _ k); [done | lia | done|].
    eapply (runtime_provided_base _ _ p _ k p2); [lia | by eapply ancestors_le | done | by intros z Hz; right | done].
Qed.

Lemma preserves_if {A} (b : bool) (x y : D A) : preserves x -> preserves y -> preserves (if b then x else y).
Proof. by destruct b. Qed.

Lemma preserves_option {A B} (o : option A) (f : A -> D B) (y : D B) : (forall a, preserves (f a)) -> preserves y ->
  preserves (match o with Some a => f a | None => y end).
Proof. by destruct o. Qed.

Ltac preserve_step :=
  first [ apply preserves_pure | apply find_override_preserves | by apply set_vmt_preserves
        | apply preserves_bind; [|intros ?] | apply preserves_if | apply preserves_option; [intros ?|] ].

Section interface_method.
Context (m : MethodDescription).
Hypothesis not_class : forall mm, ~ class_virtual m mm.

Lemma find_and_cache_preserves td g b : preserves (find_and_cache_method td m g b).
Proof. unfold VirtualDispatch.find_and_cache_method. unfold d_ret. repeat preserve_step. Qed.

Lemma interface_loop_preserves n g seen queue : preserves (interface_loop n m g seen queue).
Proof.
  revert seen queue. induction n as [|n IH]; intros seen queue; cbn [VirtualDispatch.interface_loop]; [apply preserves_pure|].
  unfold d_ret. destruct queue as [|t queue]; [apply preserves_pure|]. repeat (apply IH || preserve_step).
Qed.

Lemma search_preserves b g lookup l : preserves (search_ancestors m b g lookup l).
Proof.
  revert lookup. induction l as [|[p ps] l IH]; intros lookup; cbn [VirtualDispatch.search_ancestors]; [apply preserves_pure|].
  unfold d_ret, find_interface_override_for_receiver. repeat (apply IH || apply find_and_cache_preserves || apply interface_loop_preserves || preserve_step).
  destruct l; [apply preserves_pure|]. repeat (apply IH || preserve_step).
Qed.
End interface_method.

(** *** Calls *)

Lemma ancestors_head n td l : ancestors n td = ok l -> exists ps rest, l = (td, ps) :: rest.
Proof.
  destruct n as [|n]; [done|]. cbn [MethodLookup.ancestors]. unfold MethodLookup.next_ancestor.
  destruct (base_of _ _ _ td) as [[b|e|]|]; try done. simpl. destruct (definition_of td) as [[d|e|]|]; try done. simpl.
  destruct b as [b|]; [|intros [= <-]; eauto]. destruct (ancestors n b) as [[rest|e|]|]; try done. intros [= <-]. eauto.
Qed.

Lemma cache_and_return_agrees k x y : md_equiv x y -> vmt_ok k y ->
  agrees md_equiv (cache_and_return (C1 := C1) (C2 := C2) (C3 := C3) k x) (ok y).
Proof.
  intros Hxy Hy. unfold cache_and_return. eapply agrees_skip; [apply set_vmt_agrees; by eapply vmt_ok_value|]. intros _ _. by apply agrees_pure.
Qed.

Lemma agrees_known {A A' B'} (S : A' -> B' -> Prop) (x : F A) a (k : A -> D A') (y : F B') :
  x = ok a -> agrees S (k a) y -> agrees S (d_bind (d_pure x) k) y.
Proof. intros -> Hk. by eapply agrees_ext; [|exact Hk]. Qed.

Lemma resolve_agrees m mm td g : class_virtual m mm ->
  settled_call m td (trim_generics finish (length (method_generic_parameters mm)) g) ->
  agrees md_equiv (resolve_virtual_method m td g) (dispatch m mm td (trim_generics finish (length (method_generic_parameters mm)) g)).
Proof.
  intros Hc Hset. pose proof Hc as (Hmm & Hv & pd & Hpd & Hi). unfold VirtualDispatch.resolve_virtual_method.
  apply (agrees_known _ _ mm); [done|]. rewrite Hv. simpl. set (g' := trim_generics _ _ g) in *.
  eapply agrees_skip; [apply get_vmt_agrees|]. intros [x|] Hx; [apply agrees_pure; by apply (Hx x)|]. clear Hx.
  apply (agrees_known _ _ pd); [done|]. rewrite Hi. apply (agrees_known _ _ None); [done|].
  assert (Hkey : forall y, dispatch m mm td g' = ok y -> vmt_ok (m, td, g') y).
  { intros y Hy mm' Hc' _. cbn [fst] in Hc'. assert (mm' = mm) as -> by (destruct Hc' as [Hc' _]; rewrite Hmm in Hc'; by injection Hc').
    cbn [fst snd]. by rewrite Hy. }
  unfold dispatch in *. eapply agrees_bind; [apply agrees_pure, f_rel_eq; done|]. intros ? r Hr ->. rewrite Hr in Hkey. simpl in Hkey.
  destruct r; [apply cache_and_return_agrees; [done | by apply Hkey]|].
  eapply agrees_bind; [apply agrees_pure, f_rel_eq; done|]. intros ? l Hl ->. rewrite Hl in Hkey. simpl in Hkey.
  destruct (ancestors_head _ _ _ Hl) as (ps & rest & ->).
  eapply agrees_bind; [eapply search_agrees; by eauto|]. intros [x|] [y|] Hy Hxy; try done.
  - apply cache_and_return_agrees; [done|]. apply Hkey. by rewrite Hy.
  - apply (agrees_known _ _ false); [done|]. by apply agrees_pure.
Qed.

Lemma resolve_keeps m mm td g : class_virtual m mm -> preserves (resolve_virtual_method m td g).
Proof.
  intros Hc. pose proof Hc as (Hmm & Hv & pd & Hpd & Hi). unfold VirtualDispatch.resolve_virtual_method.
  assert (Hknown : forall A B (x : F A) a (k : A -> D B), x = ok a -> preserves (k a) -> preserves (d_bind (d_pure x) k)) by (by intros A B x a k ->).
  apply (Hknown _ _ _ mm); [done|]. rewrite Hv. simpl. set (g' := trim_generics _ _ g).
  apply preserves_bind; [eapply agrees_preserves, get_vmt_agrees|]. intros [x|]; [apply preserves_pure|].
  apply (Hknown _ _ _ pd); [done|]. rewrite Hi. apply (Hknown _ _ _ None); [done|].
  assert (Hkeep : forall v, (settled_call m td g' -> f_rel md_equiv (ok v) (dispatch m mm td g')) ->
    preserves (cache_and_return (C1 := C1) (C2 := C2) (C3 := C3) (m, td, g') v)).
  { intros v Hd. unfold cache_and_return. apply preserves_bind; [|intros; apply preserves_pure]. eapply agrees_preserves, set_vmt_agrees.
    intros mm' Hc' Hs. cbn [fst snd] in *. assert (mm' = mm) as -> by (destruct Hc' as [Hc' _]; rewrite Hmm in Hc'; by injection Hc'). auto. }
  fold (runtime_provided m (method_name mm) td). destruct (runtime_provided m (method_name mm) td) as [[[]|e|]|] eqn:Hr;
    [|apply (Hknown _ _ _ false); [done|] | by intros c o c' Hcc; intros [= _ <-].. | done].
  { apply (Hknown _ _ _ true); [done|]. apply Hkeep. intros _. unfold dispatch. by rewrite Hr. }
  destruct (ancestors fuel td) as [[l|e|]|] eqn:Hl; [apply (Hknown _ _ _ l); [done|] | by intros c o c' Hcc; intros [= _ <-].. | done].
  destruct (ancestors_head _ _ _ Hl) as (ps & rest & ->).
  apply (preserves_bind_with (fun x => settled m g' ((td, ps) :: rest) -> f_rel (opt_rel md_equiv) (ok x) (nearest m g' ((td, ps) :: rest)))).
  - eapply search_keeps; by eauto.
  - intros c a c' Hcc Hx Hs. eapply agrees_answer; [eapply search_agrees; by eauto | done | done].
  - intros [x|] Hx; [|apply (Hknown _ _ _ false); [done | apply preserves_pure]].
    apply Hkeep. intros Hs. specialize (Hx (Hs _ Hl)). unfold dispatch. rewrite Hr. unfold f_bind, ok in *. rewrite Hl.
    by destruct (nearest m g' _) as [[[y|]|e|]|].
Qed.

Lemma resolve_preserves m td g : preserves (resolve_virtual_method m td g).
Proof.
  destruct (md_method m) as [[mm|e|]|] eqn:Hmm.
  2-4: unfold VirtualDispatch.resolve_virtual_method; rewrite Hmm; intros c o c' Hc Hr; first [discriminate Hr | by injection Hr as _ <-].
  destruct (virtual_member mm) eqn:Hv.
  2: { unfold VirtualDispatch.resolve_virtual_method, d_bind at 1. rewrite Hmm. simpl. rewrite Hv. simpl. unfold cache_and_return, d_ret.
       apply preserves_bind; [|intros; apply preserves_pure]. apply set_vmt_preserves. intros mm' (Hm' & Hv' & _). simpl in Hm'.
       rewrite Hmm in Hm'. injection Hm' as <-. congruence. }
  assert (Hcases : class_virtual m mm \/ forall mm, ~ class_virtual m mm).
  { destruct (definition_of (parent m)) as [[pd|e|]|] eqn:Hpd.
    2-4: right; intros mm' (_ & _ & pd' & Hpd' & _); rewrite Hpd in Hpd'; discriminate Hpd'.
    destruct (interface pd) eqn:Hi; [|left; by repeat split; eauto].
    right. intros mm' (_ & _ & pd' & Hpd' & Hi'). rewrite Hpd in Hpd'. injection Hpd' as <-. congruence. }
  destruct Hcases as [Hc|Hn]; [by eapply resolve_keeps|].
  unfold VirtualDispatch.resolve_virtual_method, cache_and_return, d_ret.
  assert (Hget : forall k, preserves (get_vmt_cached (C1 := C1) (C2 := C2) (C3 := C3) k)) by (intros k; eapply agrees_preserves, get_vmt_agrees).
  repeat (apply Hget || (by apply search_preserves) || preserve_step).
Qed.

Lemma static_preserves b s x m g :
  preserves (resolve_static_constrained_method (C1 := C1) (C3 := C3) stubs reverse_stubs finish addr fuel order b s x m g).
Proof.
  assert (Hu : forall k, preserves (resolve_static_constrained_method_uncached (C1 := C1) (C3 := C3) stubs reverse_stubs finish addr fuel order k)).
  { intros k. unfold resolve_static_constrained_method_uncached, d_ret. repeat preserve_step. }
  unfold resolve_static_constrained_method, d_ret.
  assert (Hg : forall k, preserves (fun c : caches => let '(x, s) := memo_get k (static_constrained c) in Some (Val x, set_static c s))).
  { intros k c o c' Hc. destruct (memo_get k (static_constrained c)). by intros [= _ <-]. }
  assert (Hs : forall k x, preserves (fun c : caches => Some (Val tt, set_static c (memo_put k x (static_constrained c))))).
  { intros k y c o c' Hc. by intros [= _ <-]. }
  repeat (apply Hu || apply Hg || apply Hs || preserve_step).
Qed.

(** The calls a program makes. *)
Inductive call : Set :=
| CVirtual (m : MethodDescription) (td : TypeDescription) (g : GenericLookup)
| CStatic (cache_enabled shadow_enabled : bool) (c : ConcreteType) (m : MethodDescription) (g : GenericLookup).

Definition run_call (x : call) : D MethodDescription :=
  match x with
  | CVirtual m td g => resolve_virtual_method m td g
  | CStatic b s c m g => resolve_static_constrained_method stubs reverse_stubs finish addr fuel order b s c m g
  end.

Fixpoint after_calls (xs : list call) (c : caches) : option caches :=
  match xs with [] => Some c | x :: xs => match run_call x c with Some (_, c) => after_calls xs c | None => None end end.

Lemma after_calls_coherent xs c c' : coherent_caches c -> after_calls xs c = Some c' -> coherent_caches c'.
Proof.
  revert c. induction xs as [|x xs IH]; simpl; intros c Hc; [by intros [= <-]|].
  destruct (run_call x c) as [[o c1]|] eqn:Hx; [|done]. apply IH.
  destruct x; [by eapply resolve_preserves | by eapply static_preserves].
Qed.

Definition empty_caches (c : caches) : Prop :=
  (forall k v, ~ memo_entry (vmt c) k v) /\ (forall k v, ~ memo_entry (overrides_cache c) k v).
End laws.

(** C12. A virtual call of a method of a class runs what the nearest class has for it, from
    the class of the object upwards: an explicit override, or else a method of the same
    name and signature, each class being searched with its own generic arguments.  This
    holds after any calls, whatever the caches of the resolver kept or evicted and in
    whatever order each of its hash maps is iterated, provided that the call is settled:
    no class of the hierarchy has two explicit overrides that compete for the method. *)
Theorem virtual_dispatch_exact `{AssemblyTable, MetadataNames} stubs reverse_stubs finish addr fuel order
    {C1 C2 C3 : Type} `{MemoLaws vmt_key MethodDescription C1 vmt_eqb} `{MemoLaws overrides_key override_map C2 overrides_eqb}
    `{MemoCache StaticConstrainedCacheKey MethodDescription C3} (c0 c : @resolver_caches C1 C2 C3) xs m mm td g :
  let g' := trim_generics finish (length (method_generic_parameters mm)) g in
  (forall n l, order n l ≡ₚ l) -> empty_caches c0 ->
  after_calls stubs reverse_stubs finish addr fuel order xs c0 = Some c -> class_virtual stubs reverse_stubs fuel m mm ->
  settled_call stubs reverse_stubs finish addr fuel m td g' ->
  f_rel md_equiv (fst <$> resolve_virtual_method stubs reverse_stubs finish addr fuel order m td g c)
    (dispatch stubs reverse_stubs finish addr fuel m mm td g').
Proof.
  intros g' Ho [Hv Hu] Hx Hc Hs. eapply (resolve_agrees stubs reverse_stubs finish addr fuel order Ho); [exact Hc | exact Hs|].
  eapply (after_calls_coherent stubs reverse_stubs finish addr fuel order Ho); [|exact Hx].
  split; intros k v He; [by apply Hv in He | by apply Hu in He].
Qed.

(** ** Overrides that compete *)

(** The order that takes the [i]th entry first. *)
Definition entry_first (i : nat) (_ : nat) (l : override_map) : override_map :=
  match l !! i with Some e => e :: delete i l | None => l end.

Lemma entry_first_entries i n l : entry_first i n l ≡ₚ l.
Proof. unfold entry_first. destruct (l !! i) as [e|] eqn:E; [|done]. symmetry. by apply delete_Permutation. Qed.

(** C40. Where several explicit overrides of a class bridge to a method that is no key of the
    map (the same canonical parent, name and compatible signature, whatever the generic
    arguments of the parent), the iteration order of the hash map decides: each of them
    is the answer under some order, as long as the map is not in the cache. *)
Theorem override_order_decides `{AssemblyTable, MetadataNames} stubs reverse_stubs finish addr fuel
    {C1 C2 C3 : Type} `{MemoCache vmt_key MethodDescription C1} `{MemoLaws overrides_key override_map C2 overrides_eqb}
    `{MemoCache StaticConstrainedCacheKey MethodDescription C3} (c : @resolver_caches C1 C2 C3) m td g variance d l e :
  let fl := method_for_lookup finish m g variance in
  definition_of stubs reverse_stubs fuel td = ok d ->
  build_overrides stubs reverse_stubs finish addr fuel td g (overrides d) [] = ok l ->
  override_get l m = None -> override_get l fl = None -> fst (memo_get (td, g) (overrides_cache c)) = None ->
  e ∈ l -> bridges stubs reverse_stubs finish addr fuel m fl e.1 variance = ok true ->
  exists order c', (forall n l, order n l ≡ₚ l) /\
    find_override_implementation stubs reverse_stubs finish addr fuel order td m g variance c = Some (Val (Some e.2), c').
Proof.
  intros fl Hd Hb Hm Hf Hmiss (i & Hi)%list_elem_of_lookup Hbr. exists (entry_first i).
  assert (Hdk : distinct_keys l) by by eapply build_overrides_distinct; [|exact Hb].
  pose proof (entry_first_entries i (maps_built c) l) as Hp.
  assert (Hl : lookup_override stubs reverse_stubs finish addr fuel m fl variance (entry_first i (maps_built c) l) = ok (Some e.2)).
  { unfold VirtualDispatch.lookup_override. rewrite (override_get_perm l _ m Hdk Hp), (override_get_perm l _ fl Hdk Hp), Hm, Hf. unfold entry_first. rewrite Hi.
    destruct e as [decl impl]. cbn [VirtualDispatch.find_bridge fst snd] in *. unfold f_bind. by rewrite Hbr. }
  unfold VirtualDispatch.find_override_implementation, d_bind, d_ret, d_pure, get_overrides_cached, hash_map.
  unfold ok in *. rewrite Hd. destruct (overrides d) as [|x xs] eqn:Ho; [injection Hb as <-; by rewrite lookup_nil in Hi|].
  destruct (memo_get (td, g) (overrides_cache c)) as [[map|] v]; [done|]. rewrite Hb. cbn [set_overrides_cached]. fold fl.
  eexists. split; [apply entry_first_entries|]. simpl in Hl. simpl. rewrite Hl. reflexivity.
Qed.

(** ** Calls that succeed *)

Section success.
Context {T : AssemblyTable} {N : MetadataNames} (stubs : gmap string TypeDescription) (reverse_stubs : gmap string string)
  (finish : list Z -> Z) (addr : ConcreteType -> nat -> Z) (fuel : nat).
Context (m : MethodDescription) (mm : Method) (sig : MethodSignature MethodType).

Abbreviation loader := (loader_types stubs reverse_stubs fuel).
Abbreviation definition_of := (definition_of stubs reverse_stubs fuel).
Abbreviation override_of := (override_of stubs reverse_stubs finish addr fuel).
Abbreviation implementation_of := (implementation_of stubs reverse_stubs finish addr fuel).
Abbreviation nearest := (nearest stubs reverse_stubs finish addr fuel).

(** The classes of a hierarchy can be searched: the overrides of each can be located and the
    arguments of its base class are types. *)
Fixpoint searchable (g : GenericLookup) (l : list (TypeDescription * list MemberType)) : Prop :=
  match l with
  | [] => True
  | (p, ps) :: l =>
      (exists o, override_of p m g = ok o) /\
      (exists d, definition_of p = ok d /\ forall i x, member d i = Some x -> method_name x = method_name mm -> is_Some (Comparer.signature x)) /\
      match l with
      | [] => True
      | _ => exists args, base_arguments (resolution p) g ps = ok args /\ searchable (from_arcs finish args (method_generics g)) l
      end
  end.

Hypothesis Hmethod : md_method stubs reverse_stubs fuel m = ok mm.
Hypothesis Hsig : Comparer.signature mm = Some sig.
Hypothesis Hscope : method_resolution m = resolution (parent m).
Hypothesis Hcomparable : comparable_signature loader (method_resolution m) sig = true.

Lemma outcome_ok {A} (x : outcome Empty_set A) a : f_outcome x = ok a -> x = Val a.
Proof. destruct x as [b|[]|]; [by intros [= ->] | done]. Qed.

Lemma own_member : exists d, definition loader (parent m) = Val d /\ member d (method_member_index m) = Some mm.
Proof.
  apply outcome_ok in Hmethod. unfold method in Hmethod. destruct (definition loader (parent m)) as [d|[]|]; [|done]. cbn [obind] in Hmethod.
  exists d. split; [done|]. destruct (member d (method_member_index m)); [by injection Hmethod as -> | done].
Qed.

Lemma own_signature : md_signature stubs reverse_stubs fuel m = ok sig.
Proof.
  destruct own_member as (d & Hd & Hm). unfold md_signature, method_signature, method_index, index_for, indexed, decoded.
  assert (Hp : {| resolution := method_resolution m; index := index (parent m) |} = parent m) by (rewrite Hscope; by destruct (parent m)).
  rewrite Hp, Hd. cbn [obind]. rewrite Hm. cbn [expect obind fst snd]. rewrite Hp, Hd. cbn [obind]. rewrite Hm. cbn [expect obind]. by rewrite Hsig.
Qed.

(** A class that can be searched has something for the method or has not. *)
Lemma implementation_total p ps l g : searchable g ((p, ps) :: l) -> exists x, implementation_of p m g = ok x.
Proof.
  intros ((o & Ho) & (d & Hd & Hdec) & _). unfold DispatchLaws.implementation_of. rewrite Ho. simpl. destruct o as [x|]; [eauto|].
  rewrite Hmethod. simpl. rewrite own_signature. simpl. unfold find_method_internal, compare_anew.
  apply outcome_ok in Hd. rewrite (search_finds _ _ _ _ _ _ _ _ _ _ _ Hd Hdec). eauto.
Qed.

(** The declaring class has something for its method: the method itself, if nothing else. *)
Lemma declaring_class ps l g : searchable g ((parent m, ps) :: l) -> exists x, implementation_of (parent m) m g = ok (Some x).
Proof.
  intros ((o & Ho) & (d & Hd & Hdec) & _). unfold DispatchLaws.implementation_of. rewrite Ho. simpl. destruct o as [x|]; [eauto|].
  rewrite Hmethod. simpl. rewrite own_signature. simpl. unfold find_method_internal, compare_anew.
  apply outcome_ok in Hd. rewrite (search_finds _ _ _ _ _ _ _ _ _ _ _ Hd Hdec).
  destruct own_member as (d' & Hd' & Hm). rewrite Hd in Hd'. injection Hd' as <-.
  destruct (List.find _ (search_order d (method_name mm))) as [x|] eqn:Hf; simpl; [eauto|].
  apply (search_order_members _ (method_name mm)), list_elem_of_In, (find_none _ _ Hf) in Hm.
  assert (Ht : is_match loader (parent m) (method_name mm) sig (method_resolution m) (Some (parent_generics (method_for_lookup finish m g false))) (Some g)
    (method_member_index m, mm) = true); [|exfalso; exact (Bool.eq_true_false_abs _ Ht Hm)].
  apply is_match_spec. split; [done|]. exists sig. split; [done|]. rewrite <- Hscope. by apply signatures_equal_refl.
Qed.

(** The search ends at the declaring class at the latest. *)
Lemma nearest_found g l k ps : searchable g l -> l !! k = Some (parent m, ps) ->
  exists x i p qs h, nearest m g l = ok (Some x) /\ (i <= k)%nat /\ l !! i = Some (p, qs) /\ implementation_of p m h = ok (Some x).
Proof.
  revert g k. induction l as [|[p qs] l IH]; intros g k Hs Hk; [done|].
  destruct (implementation_total _ _ _ _ Hs) as [[x|] Hx].
  { exists x, 0%nat, p, qs, g. cbn [DispatchLaws.nearest]. rewrite Hx. split_and!; [done | lia | done | done]. }
  destruct k as [|k]; [simpl in Hk; simplify_eq; destruct (declaring_class _ _ _ Hs) as [y Hy]; by rewrite Hx in Hy|].
  simpl in Hk. destruct Hs as (_ & _ & Hs). destruct l as [|q l]; [done|]. destruct Hs as (args & Ha & Hs).
  destruct (IH _ _ Hs Hk) as (x & i & p' & qs' & h & Hn & Hi & Hl & Hp). exists x, (S i), p', qs', h.
  cbn [DispatchLaws.nearest]. rewrite Hx. simpl. rewrite Ha. simpl. split_and!; [exact Hn | lia | done | done].
Qed.
End success.

(** A virtual call never fails to find a method: on an object whose class derives from the
    class that declares a virtual method, dispatch finds an implementation, at the latest
    in the declaring class; provided the tokens of the hierarchy can be located. *)
Theorem virtual_call_succeeds `{AssemblyTable, MetadataNames} stubs reverse_stubs finish addr fuel m mm sig td g l k ps b :
  md_method stubs reverse_stubs fuel m = ok mm -> Comparer.signature mm = Some sig -> method_resolution m = resolution (parent m) ->
  comparable_signature (loader_types stubs reverse_stubs fuel) (method_resolution m) sig = true ->
  runtime_provided stubs reverse_stubs fuel m (method_name mm) td = ok b ->
  ancestors stubs reverse_stubs fuel fuel td = ok l -> l !! k = Some (parent m, ps) ->
  searchable stubs reverse_stubs finish addr fuel m mm g l ->
  exists x, dispatch stubs reverse_stubs finish addr fuel m mm td g = ok x /\
    (b = true /\ x = m \/
     exists i p qs h, (i <= k)%nat /\ l !! i = Some (p, qs) /\
       implementation_of stubs reverse_stubs finish addr fuel p m h = ok (Some x)).
Proof.
  intros Hm Hsig Hr Hc Hb Hl Hk Hs. unfold dispatch. rewrite Hb. simpl. destruct b; [exists m; split; [done | by left]|].
  rewrite Hl. simpl. destruct (nearest_found _ _ _ _ _ _ _ _ Hm Hsig Hr Hc _ _ _ _ Hs Hk) as (x & i & p & qs & h & Hn & Hi & Hp & Hx).
  rewrite Hn. exists x. split; [done|]. right. by exists i, p, qs, h.
Qed.
