(* ===== verification/DispatchCases.v ===== *)
(** * Cases of virtual dispatch

    A small assembly: a virtual method and its override, and a class that implements one
    generic interface twice. *)

From Stdlib Require Import ZArith Lia Ascii.
From stdpp Require Import base tactics list option strings gmap.
From S2P Require Import Prelude Cache ManagedPtr Ops Generics Comparer Assignability Methods WellKnown Assemblies Locating MethodLookup KindIndependence VirtualDispatch DispatchLaws.

(** ** A cache without a limit *)

Section list_memo.
Context {K V : Type} (eqk : K -> K -> bool) (eqk_refl : forall k, eqk k k = true).

Definition list_memo : MemoCache K V (list (K * V)) :=
  {| memo_get k l := (get_cloned eqk l k, l); memo_put k v l := (k, v) :: l; memo_entry l k v := (k, v) ∈ l |}.

Lemma list_memo_laws : @MemoLaws K V (list (K * V)) eqk list_memo.
Proof.
  split.
  - intros k c v c'. simpl. intros [= H _]. by apply get_cloned_entry in H.
  - intros k c o c' k' v. simpl. intros [= _ <-]. by left.
  - intros k v c k' v'. simpl. intros [[= -> ->]|H]%elem_of_cons; [by right | by left].
Qed.
End list_memo.

Lemma vmt_eqb_refl k : vmt_eqb k k = true.
Proof.
  unfold vmt_eqb. rewrite bool_decide_eq_true_2 by done. apply andb_true_intro. split; [|by apply gl_eqb_equiv].
  apply andb_true_intro. split; [by apply md_eqb_equiv | done].
Qed.

Lemma overrides_eqb_refl k : overrides_eqb k k = true.
Proof. unfold overrides_eqb. rewrite bool_decide_eq_true_2 by done. by apply gl_eqb_equiv. Qed.

(** ** The assembly

    [class Base { virtual void Run(); }], [class Derived : Base { override void Run(); }],
    [interface ISource<out T> { void Get(); }], [class Animal], [class Cat : Animal],
    [class Rock], and
    [class Both : ISource<Rock>, ISource<Cat> { void ISource<Rock>.Get(); void ISource<Cat>.Get(); }]. *)

Definition class_of (n : string) (base : option nat) (ms : list Method) : TypeDefinition :=
  {| type_def_name := n; namespace := None; extends := (fun i => User (Definition_ i)) <$> base; implements := []; generic_parameters := [];
     interface := false; abstract_type := false; methods := ms; properties := []; events := []; fields := []; overrides := []; encloser := None |}.

Definition void_method (n : string) (is_public : bool) (body : bool) : Method :=
  {| method_name := n; public := is_public; virtual_member := true; method_generic_parameters := []; signature := Some (signature_of [] None);
     has_body := body |}.

Definition source_of (i : nat) : MemberType := MemberBase (BType (User (Definition_ i)) None).

Definition zoo_types : list TypeDefinition :=
  [class_of "Base" None [void_method "Run" true true];
   class_of "Derived" (Some 0%nat) [void_method "Run" true true];
   {| type_def_name := "ISource"; namespace := None; extends := None; implements := [];
      generic_parameters := [{| variance := Covariant; reference_type := false; value_type := false;
                                has_default_constructor_constraint := false; type_constraints := [] |}];
      interface := true; abstract_type := true; methods := [void_method "Get" true false]; properties := []; events := []; fields := [];
      overrides := []; encloser := None |};
   {| type_def_name := "Both"; namespace := None; extends := None;
      implements := [Generic (Definition_ 2) [source_of 6]; Generic (Definition_ 2) [source_of 5]]; generic_parameters := [];
      interface := false; abstract_type := false; methods := [void_method "GetRock" false true; void_method "GetCat" false true];
      properties := []; events := []; fields := [];
      overrides := [(MReference 0, MDefinition 3 (MethodAt 0)); (MReference 1, MDefinition 3 (MethodAt 1))]; encloser := None |};
   class_of "Animal" None []; class_of "Cat" (Some 4%nat) []; class_of "Rock" None []].

Definition get_of (i : nat) : MethodReference :=
  {| method_ref_name := "Get"; method_ref_parent := ParentType (MBase (BType (Generic (Definition_ 2) [MBase (BType (User (Definition_ i)) None)]) None));
     method_ref_signature := inr (signature_of [] None) |}.

Definition zoo : Resolution :=
  {| assembly := Some ("Zoo"%string, demo_version); type_definitions := zoo_types; exported_types := []; assembly_references := [];
     type_references := []; method_references := [get_of 6; get_of 5]; field_references := [] |}.

Definition zoo_table : AssemblyTable :=
  {| get name _ := if bool_decide (name = "Zoo"%string) then inr 1%nat else inl (FileNotFound name);
     known := fun name => bool_decide (name = "Zoo"%string);
     resolution_of r := match r with 1%nat => Some zoo | _ => None end |}.

Definition zoo_names : MetadataNames := {|
  full_name ns n := match ns with Some ns => ns +:+ "." +:+ n | None => n end;
  nested_name _ i := default ""%string (type_def_name <$> zoo_types !! i);
  user_name u _ := match u with Definition_ i => default ""%string (type_def_name <$> zoo_types !! i) | Reference_ _ => ""%string end;
  load_error _ := ""%string;
  show_with_name _ _ n := n;
  default_version := demo_version;
|}.

Definition no_hash (l : list Z) : Z := 0.
Definition distinct (c : ConcreteType) (n : nat) : Z := Z.of_nat n.
Definition zoo_type (i : nat) : TypeDescription := {| resolution := 1; index := i |}.
Definition zoo_class (i : nat) : ConcreteType := CT 1 (BType (User (Definition_ i)) None).
Definition source_type (i : nat) : ConcreteType := CT 1 (BType (Generic (Definition_ 2) [zoo_class i]) None).

Definition described (i : nat) (g : GenericLookup) : MethodDescription :=
  {| parent := zoo_type i; parent_generics := g; method_resolution := 1; method_member_index := MethodAt 0 |}.

Definition no_generics : GenericLookup := default_lookup no_hash.

#[local] Existing Instance zoo_table.
#[local] Existing Instance zoo_names.

Abbreviation zoo_caches := (@resolver_caches (list (vmt_key * MethodDescription)) (list (overrides_key * override_map))
  (list (StaticConstrainedCacheKey * MethodDescription))).
#[local] Instance zoo_vmt : MemoCache vmt_key MethodDescription (list (vmt_key * MethodDescription)) := list_memo vmt_eqb.
#[local] Instance zoo_overrides : MemoCache overrides_key override_map (list (overrides_key * override_map)) := list_memo overrides_eqb.
#[local] Instance zoo_static : MemoCache StaticConstrainedCacheKey MethodDescription (list (StaticConstrainedCacheKey * MethodDescription)) :=
  list_memo static_eqb.
#[local] Instance zoo_vmt_laws : MemoLaws vmt_key MethodDescription (list (vmt_key * MethodDescription)) vmt_eqb := list_memo_laws vmt_eqb vmt_eqb_refl.
#[local] Instance zoo_overrides_laws : MemoLaws overrides_key override_map (list (overrides_key * override_map)) overrides_eqb :=
  list_memo_laws overrides_eqb overrides_eqb_refl.

Definition fresh_caches : zoo_caches := {| vmt := []; overrides_cache := []; static_constrained := []; maps_built := 0 |}.

Abbreviation zoo_resolve order := (resolve_virtual_method ∅ ∅ no_hash distinct 9 order).

Definition run : MethodDescription := described 0 no_generics.
Definition run_method : Method := void_method "Run" true true.

Lemma run_virtual : class_virtual ∅ ∅ 9 run run_method.
Proof. split; [reflexivity|]. split; [reflexivity|]. eexists. split; reflexivity. Qed.

(** The classes have no explicit overrides, so none compete. *)
Lemma run_settled : settled_call ∅ ∅ no_hash distinct 9 run (zoo_type 1) no_generics.
Proof.
  assert (Hnone : forall td, definition_of ∅ ∅ 9 td = ok (class_of "Base" None [void_method "Run" true true]) \/
      definition_of ∅ ∅ 9 td = ok (class_of "Derived" (Some 0%nat) [void_method "Run" true true]) ->
    settled_class ∅ ∅ no_hash distinct 9 run td no_generics).
  { intros td [Hd|Hd] d map Hd'; rewrite Hd in Hd'; injection Hd' as <-; intros [= <-] _ _; (split; [intros e He | intros e e' He]; by apply elem_of_nil in He). }
  intros l Hl. assert (l = [(zoo_type 1, []); (zoo_type 0, [])]) as -> by (by vm_compute in Hl; injection Hl as <-).
  cbn [settled]. split; [apply Hnone; by right|]. intros args Ha. injection Ha as <-. split; [apply Hnone; by left | done].
Qed.

(** The override of [Run] is found, also when it comes from the cache. *)
Lemma virtual_dispatch_exact_witness : exists c,
  after_calls ∅ ∅ no_hash distinct 9 (fun _ l => l) [CVirtual run (zoo_type 1) no_generics] fresh_caches = Some c /\
  f_rel md_equiv (fst <$> zoo_resolve (fun _ l => l) run (zoo_type 1) no_generics c) (ok (described 1 no_generics)).
Proof.
  eexists. split; [vm_compute; reflexivity|].
  pose proof (virtual_dispatch_exact ∅ ∅ no_hash distinct 9 (fun _ l => l) fresh_caches _ [CVirtual run (zoo_type 1) no_generics] run run_method
    (zoo_type 1) no_generics (fun _ l => Permutation_refl l) (conj (fun k v => not_elem_of_nil (k, v)) (fun k v => not_elem_of_nil (k, v)))
    ltac:(vm_compute; reflexivity) run_virtual run_settled) as H.
  exact H.
Defined.

Lemma virtual_call_succeeds_witness : exists x, dispatch ∅ ∅ no_hash distinct 9 run run_method (zoo_type 1) no_generics = ok x.
Proof.
  destruct (virtual_call_succeeds ∅ ∅ no_hash distinct 9 run run_method (signature_of [] None) (zoo_type 1) no_generics
    [(zoo_type 1, []); (zoo_type 0, [])] 1 [] false) as (x & Hx & _); [reflexivity.. | |eauto].
  assert (Hdec : forall d, forallb (fun x => bool_decide (is_Some (signature x.2))) (search_order d "") = true ->
    forall j x, member d j = Some x -> method_name x = "Run"%string -> is_Some (signature x)).
  { intros d Hf j x Hx _. apply (search_order_members d "") in Hx. rewrite forallb_forall in Hf.
    specialize (Hf (j, x) ltac:(by apply list_elem_of_In)). by apply bool_decide_eq_true in Hf. }
  cbn [searchable]. split; [eexists; vm_compute; reflexivity|].
  split; [eexists; split; [reflexivity | apply Hdec; reflexivity]|].
  exists []. split; [reflexivity|]. split; [eexists; vm_compute; reflexivity|].
  split; [eexists; split; [reflexivity | apply Hdec; reflexivity] | done].
Defined.

(** ** One interface, implemented twice *)

Definition get_animal : MethodDescription := described 2 (new_lookup no_hash [zoo_class 4]).

Definition answer_of (r : option (outcome TypeResolutionError MethodDescription * zoo_caches)) : option MethodMemberIndex :=
  match r with Some (Val m, _) => Some (method_member_index m) | _ => None end.

Definition assignable (s t : ConcreteType) : option bool :=
  match is_assignable_to (loader_types ∅ ∅ 9) no_hash distinct 9 s t new_comparer with Some (Val (b, _)) => Some b | _ => None end.

(** A call through a third instantiation of the interface runs the implementation that comes
    first, although the object has the interface only by the other one. *)
Lemma interface_call_by_order :
  assignable (zoo_class 3) (source_type 4) = Some true /\
  assignable (source_type 5) (source_type 4) = Some true /\ assignable (source_type 6) (source_type 4) = Some false /\
  answer_of (zoo_resolve (entry_first 1) get_animal (zoo_type 3) no_generics fresh_caches) = Some (MethodAt 1) /\
  answer_of (zoo_resolve (entry_first 0) get_animal (zoo_type 3) no_generics fresh_caches) = Some (MethodAt 0).
Proof. split_and!; vm_compute; reflexivity. Qed.

Definition both_overrides : override_map :=
  match build_overrides ∅ ∅ no_hash distinct 9 (zoo_type 3) no_generics (match zoo_types !! 3%nat with Some d => overrides d | None => [] end) [] with
  | Some (Val l) => l
  | _ => []
  end.

Lemma override_order_decides_witness :
  (exists order c' x, find_override_implementation ∅ ∅ no_hash distinct 9 order (zoo_type 3) get_animal no_generics true fresh_caches =
    Some (Val (Some x), c') /\ method_member_index x = MethodAt 0) /\
  (exists order c' x, find_override_implementation ∅ ∅ no_hash distinct 9 order (zoo_type 3) get_animal no_generics true fresh_caches =
    Some (Val (Some x), c') /\ method_member_index x = MethodAt 1).
Proof.
  assert (Hat : forall i e, both_overrides !! i = Some e ->
    bridges ∅ ∅ no_hash distinct 9 get_animal (method_for_lookup no_hash get_animal no_generics true) e.1 true = ok true ->
    exists order c', (forall n l, order n l ≡ₚ l) /\
      find_override_implementation ∅ ∅ no_hash distinct 9 order (zoo_type 3) get_animal no_generics true fresh_caches = Some (Val (Some e.2), c')).
  { intros i e Hi Hb. eapply (override_order_decides ∅ ∅ no_hash distinct 9 fresh_caches get_animal (zoo_type 3) no_generics true _ both_overrides e);
      [reflexivity | vm_compute; reflexivity | vm_compute; reflexivity | vm_compute; reflexivity | reflexivity | | exact Hb].
    by eapply list_elem_of_lookup_2. }
  split.
  - destruct (Hat 0%nat _ eq_refl) as (order & c' & _ & H); [vm_compute; reflexivity|]. exists order, c'. eexists. split; [exact H | reflexivity].
  - destruct (Hat 1%nat _ eq_refl) as (order & c' & _ & H); [vm_compute; reflexivity|]. exists order, c'. eexists. split; [exact H | reflexivity].
Defined.
