(* ===== verification/Cts.v ===== *)
(** * Values in storage

    The types of the common type system as they are stored ([ValueType], [CTSValue] of
    [dotnet-value/src/object/types.rs]), their conversion to and from operands
    ([dotnet-value/src/cts_cli_conversion.rs]), and the factory that makes them of operands
    and of bytes, creates objects and boxes values
    ([dotnet-runtime-resolver/src/factory.rs], [types.rs]).

    The loader and the layout cache are arguments: the name and the description of a user
    type, whether it is a value type, has a finalizer, is [Nullable], the shared layout of
    its instances. *)

From Stdlib Require Import ZArith Lia Floats.SpecFloat.
From stdpp Require Import base tactics list option strings gmap.
From S2P Require Import Prelude Bytes Floats ManagedPtr ArenaRegistry Generics PtrSerde StackValue Ops Instructions FrameAlloc Layout FrameHomes VmData Interp Exceptions Comparer Memory RawOps Variables Blocks.

Import Registry.

Local Open Scope vm_scope.

(** ** Stored values *)

Module VT.

Inductive ValueType : Set :=
| Bool (b : bool)
| Char (c : Z)
| Int8 (i : Z)
| UInt8 (i : Z)
| Int16 (i : Z)
| UInt16 (i : Z)
| Int32 (i : Z)
| UInt32 (i : Z)
| Int64 (i : Z)
| UInt64 (i : Z)
| NativeInt (i : Z)
| NativeUInt (i : Z)
| Pointer (p : ManagedPtr.ManagedPtr)
| Float32 (f : spec_float)
| Float64 (f : spec_float)
| Struct (o : ManagedPtr.Object).

End VT.

Abbreviation ValueType := VT.ValueType (only parsing).

Inductive CTSValue : Set := Value (v : ValueType) | Ref (o : option Z).

Definition size_bytes (v : ValueType) : Z :=
  match v with
  | VT.Bool _ => 1
  | VT.Char _ => 2
  | VT.Int8 _ | VT.UInt8 _ => 1
  | VT.Int16 _ | VT.UInt16 _ => 2
  | VT.Int32 _ | VT.UInt32 _ => 4
  | VT.Int64 _ | VT.UInt64 _ => 8
  | VT.NativeInt _ | VT.NativeUInt _ => 8
  | VT.Float32 _ => 4
  | VT.Float64 _ => 8
  | VT.Pointer _ => 16
  | VT.Struct o => Z.of_nat (length (data o))
  end.

(** [try_into().expect()]: any other length panics. *)
Definition exactly {E} (t : ity) (bs : list Z) : outcome E Z :=
  if (length bs =? ity_bytes t)%nat then Val (from_le_bytes t bs) else Panic.

Definition read_storage_value {E} (k : CtsScalarKind) (bs : list Z) : outcome E ValueType :=
  match k with
  | Kind.Boolean => let* b := expect (head bs) in Val (VT.Bool (negb (b =? 0)))
  | Kind.Char => let* c := exactly U16 bs in Val (VT.Char c)
  | Kind.Int8 => let* b := expect (head bs) in Val (VT.Int8 (wrap I8 b))
  | Kind.UInt8 => let* b := expect (head bs) in Val (VT.UInt8 b)
  | Kind.Int16 => let* i := exactly I16 bs in Val (VT.Int16 i)
  | Kind.UInt16 => let* i := exactly U16 bs in Val (VT.UInt16 i)
  | Kind.Int32 => let* i := exactly I32 bs in Val (VT.Int32 i)
  | Kind.UInt32 => let* i := exactly U32 bs in Val (VT.UInt32 i)
  | Kind.Int64 => let* i := exactly I64 bs in Val (VT.Int64 i)
  | Kind.UInt64 => let* i := exactly U64 bs in Val (VT.UInt64 i)
  | Kind.NativeInt => let* i := exactly isize bs in Val (VT.NativeInt i)
  | Kind.NativeUInt => let* i := exactly usize bs in Val (VT.NativeUInt i)
  end.

(** ** Operands *)

Definition widen_value_type (v : ValueType) : StackValue :=
  match v with
  | VT.Bool b => widen_raw Kind.Boolean (if b then 1 else 0)
  | VT.Char c => widen_raw Kind.Char c
  | VT.Int8 i => widen_raw Kind.Int8 (wrap U8 i)
  | VT.UInt8 i => widen_raw Kind.UInt8 i
  | VT.Int16 i => widen_raw Kind.Int16 (wrap U16 i)
  | VT.UInt16 i => widen_raw Kind.UInt16 i
  | VT.Int32 i => widen_raw Kind.Int32 (wrap U32 i)
  | VT.UInt32 i => widen_raw Kind.UInt32 i
  | VT.Int64 i => widen_raw Kind.Int64 (wrap U64 i)
  | VT.UInt64 i => widen_raw Kind.UInt64 i
  | VT.NativeInt i => widen_raw Kind.NativeInt (wrap usize i)
  | VT.NativeUInt i => widen_raw Kind.NativeUInt i
  | VT.Pointer p => SV.ManagedPtr p
  | VT.Float32 f => SV.NativeFloat (f32_to_f64 f)
  | VT.Float64 f => SV.NativeFloat f
  | VT.Struct o => SV.ValueType o
  end.

(** [CtsToCli::widen], [into_stack] *)
Definition widen (c : CTSValue) : StackValue :=
  match c with Value v => widen_value_type v | Ref o => SV.ObjectRef o end.

(** What the factory asks the loader and the cache of layouts. *)
Class TypeSystem : Type := {
  is_enum : TypeDescription -> option StackValue.MemberType;
  (** the name and the description of a user type in a scope *)
  user_type_name : nat -> UserType -> string;
  locate_type : nat -> UserType -> outcome TypeResolutionError TypeDescription;
  find_concrete_type : Generics.ConcreteType -> outcome TypeResolutionError TypeDescription;
  is_value_type : TypeDescription -> outcome TypeResolutionError bool;
  type_name : TypeDescription -> string;
  has_finalizer_of : TypeDescription -> outcome TypeResolutionError bool;
  (** [make_concrete] of the underlying type of an enum *)
  enum_concrete : nat -> StackValue.MemberType -> outcome TypeResolutionError Generics.ConcreteType;
  void_type : outcome TypeResolutionError TypeDescription;
  (** the shared layout of the instances of a type *)
  instance_layout : TypeDescription -> list Generics.ConcreteType -> outcome TypeResolutionError nat;
  layout_of : nat -> LayoutManager;
  generics_of : list Generics.ConcreteType -> ManagedPtr.GenericLookup;
  (** the type of a field of a type *)
  field_type : TypeDescription -> list Generics.ConcreteType -> string -> outcome TypeResolutionError Generics.ConcreteType;
}.

Section cts.
Context {types : TypeSystem}.
Variable r : ArenaRegistry.
Variable th : nat.

Definition invalid {A} (what : string) : outcome TypeResolutionError A := Err (InvalidLayout what).

(** A null pointer without an owner panics. *)
Definition managed_ptr_address (m : mem) (p : ManagedPtr.ManagedPtr) : outcome TypeResolutionError Z :=
  match try_observe_address (heap_view_of r th m) p with
  | Val observed =>
      match origin p with
      | Heap _ | CrossArenaObjectRef _ | FrameHome _ => Val (default 0 observed)
      | _ => expect (value p)
      end
  | Err _ => invalid "cannot convert a Transient managed pointer to an integer"
  | Panic => Panic
  end.

(** [try_into] *)
Definition try_into (t : ity) (i : Z) (what : string) : outcome TypeResolutionError Z :=
  if in_range t i then Val i else invalid what.

Definition convert_num (t : ity) (m : mem) (x : StackValue) : outcome TypeResolutionError Z :=
  let* x := coerce_enum_to_underlying is_enum x in
  match x with
  | SV.Int32 i => try_into t i "failed to convert from i32"
  | SV.NativeInt i => try_into t i "failed to convert from isize"
  | SV.UnmanagedPtr a => try_into t a "failed to convert unmanaged pointer"
  | SV.ManagedPtr p => let* a := managed_ptr_address m p in try_into t a "failed to convert managed pointer"
  | _ => invalid "invalid stack value"
  end.

Definition convert_u32 (m : mem) (x : StackValue) : outcome TypeResolutionError Z :=
  let* x := coerce_enum_to_underlying is_enum x in
  match x with
  | SV.Int32 i => Val (wrap U32 i)
  | SV.NativeInt i => Val (wrap U32 (wrap usize i))
  | SV.UnmanagedPtr a => Val (wrap U32 a)
  | SV.ManagedPtr p => let* a := managed_ptr_address m p in Val (wrap U32 a)
  | _ => invalid "invalid stack value for conversion into u32"
  end.

Definition convert_i64 (t : ity) (x : StackValue) : outcome TypeResolutionError Z :=
  let* x := coerce_enum_to_underlying is_enum x in
  match x with
  | SV.Int64 i => try_into t i "failed to convert from i64"
  | _ => invalid "invalid stack value for integer conversion"
  end.

Definition reinterpret_i64_as_u64 (x : StackValue) : outcome TypeResolutionError Z :=
  let* x := coerce_enum_to_underlying is_enum x in
  match x with
  | SV.Int64 i => Val (wrap U64 i)
  | _ => invalid "invalid stack value for u64 reinterpretation"
  end.

Definition narrow_scalar_value (m : mem) (x : StackValue) (k : CtsScalarKind) : outcome TypeResolutionError ValueType :=
  match k with
  | Kind.Boolean => let* b := convert_num U8 m x in Val (VT.Bool (negb (b =? 0)))
  | Kind.Char => let* c := convert_num U16 m x in Val (VT.Char c)
  | Kind.Int8 => let* i := convert_num I8 m x in Val (VT.Int8 i)
  | Kind.UInt8 => let* i := convert_num U8 m x in Val (VT.UInt8 i)
  | Kind.Int16 => let* i := convert_num I16 m x in Val (VT.Int16 i)
  | Kind.UInt16 => let* i := convert_num U16 m x in Val (VT.UInt16 i)
  | Kind.Int32 => let* i := convert_num I32 m x in Val (VT.Int32 i)
  | Kind.UInt32 => let* i := convert_u32 m x in Val (VT.UInt32 i)
  | Kind.Int64 => let* i := convert_i64 I64 x in Val (VT.Int64 i)
  | Kind.UInt64 => let* i := reinterpret_i64_as_u64 x in Val (VT.UInt64 i)
  | Kind.NativeInt => let* i := convert_num isize m x in Val (VT.NativeInt i)
  | Kind.NativeUInt => let* i := convert_num usize m x in Val (VT.NativeUInt i)
  end.

Definition narrow_float32 (x : StackValue) : outcome TypeResolutionError ValueType :=
  match x with
  | SV.NativeFloat f => Val (VT.Float32 (f64_to_f32 f))
  | _ => invalid "invalid stack value for conversion into f32"
  end.

Definition narrow_float64 (x : StackValue) : outcome TypeResolutionError ValueType :=
  match x with
  | SV.NativeFloat f => Val (VT.Float64 f)
  | _ => invalid "invalid stack value for conversion into f64"
  end.

(** ** The factory *)

Definition primitive_of_name (name : string) : option prim :=
  if String.eqb name "System.Boolean" then Some Boolean
  else if String.eqb name "System.Char" then Some Char
  else if String.eqb name "System.Byte" then Some UInt8
  else if String.eqb name "System.SByte" then Some Int8
  else if String.eqb name "System.Int16" then Some Int16
  else if String.eqb name "System.UInt16" then Some UInt16
  else if String.eqb name "System.Int32" then Some Int32
  else if String.eqb name "System.UInt32" then Some UInt32
  else if String.eqb name "System.Int64" then Some Int64
  else if String.eqb name "System.UInt64" then Some UInt64
  else if String.eqb name "System.IntPtr" then Some IntPtr
  else if String.eqb name "System.UIntPtr" then Some UIntPtr
  else if String.eqb name "System.Single" then Some Float32
  else if String.eqb name "System.Double" then Some Float64
  else if String.eqb name "System.String" then Some String_
  else if String.eqb name "System.Object" then Some Object_
  else None.

Definition normalize_type (t : Generics.ConcreteType) : outcome TypeResolutionError Generics.ConcreteType :=
  match ct_base t with
  | BType source value_kind =>
      let ut := fst (decompose_type_source source) in
      match primitive_of_name (user_type_name (ct_source t) ut) with
      | Some p => Val (CT (ct_source t) (BPrim p))
      | None =>
          match value_kind with
          | None =>
              let* td := locate_type (ct_source t) ut in
              let* value := is_value_type td in
              if value : bool then Val (CT (ct_source t) (BType source (Some ValueType_))) else Val t
          | Some _ => Val t
          end
      end
  | _ => Val t
  end.

Definition new_instance (td : TypeDescription) (generics : list Generics.ConcreteType) : outcome TypeResolutionError ManagedPtr.Object :=
  let* finalizer := has_finalizer_of td in
  let* arc := instance_layout td generics in
  let* sz := size (layout_of arc) in
  Val {| description := td; obj_generics := generics_of generics; layout_arc := arc; data := replicate (Z.to_nat sz) 0;
         has_finalizer := finalizer; finalizer_suppressed := false |}.

Definition with_bytes (o : ManagedPtr.Object) (bs : list Z) : ManagedPtr.Object :=
  {| description := description o; obj_generics := obj_generics o; layout_arc := layout_arc o; data := bs;
     has_finalizer := has_finalizer o; finalizer_suppressed := finalizer_suppressed o |}.

(** [copy_overlapping_field_storage] *)
Definition copy_overlapping (src dst : list Z) : list Z :=
  let n := Nat.min (length src) (length dst) in take n src ++ drop n dst.

Definition scalar_kind (p : prim) : option CtsScalarKind :=
  match p with
  | Boolean => Some Kind.Boolean
  | Char => Some Kind.Char
  | Int8 => Some Kind.Int8
  | UInt8 => Some Kind.UInt8
  | Int16 => Some Kind.Int16
  | UInt16 => Some Kind.UInt16
  | Int32 => Some Kind.Int32
  | UInt32 => Some Kind.UInt32
  | Int64 => Some Kind.Int64
  | UInt64 => Some Kind.UInt64
  | IntPtr => Some Kind.NativeInt
  | UIntPtr => Some Kind.NativeUInt
  | Float32 | Float64 | Object_ | String_ => None
  end.

Definition resolve_pointer_inner_type (inner : option Generics.ConcreteType) : outcome TypeResolutionError TypeDescription :=
  match inner with Some t => find_concrete_type t | None => void_type end.

Definition expect_ref (x : StackValue) : outcome TypeResolutionError CTSValue :=
  match x with SV.ObjectRef o => Val (Ref o) | _ => invalid "expected ObjectRef" end.

Definition unmanaged_pointer (a : Z) (inner : option Generics.ConcreteType) : outcome TypeResolutionError CTSValue :=
  let* ty := resolve_pointer_inner_type inner in
  let* p := ManagedPtr.new (nonnull a) ty None false (Some a) in
  Val (Value (VT.Pointer p)).

Definition new_primitive (m : mem) (p : prim) (x : StackValue) : outcome TypeResolutionError CTSValue :=
  match scalar_kind p with
  | Some k => let* v := narrow_scalar_value m x k in Val (Value v)
  | None =>
      match p with
      | Float32 => let* v := narrow_float32 x in Val (Value v)
      | Float64 => let* v := narrow_float64 x in Val (Value v)
      | _ => expect_ref x
      end
  end.

(** A value type made of an operand: one of another type or layout is copied as far as the
    bytes go, an object gives its payload, and anything else gives zeroes. *)
Definition new_struct (m : mem) (td : TypeDescription) (generics : list Generics.ConcreteType) (x : StackValue)
  : outcome TypeResolutionError CTSValue :=
  match x with
  | SV.ValueType o =>
      let* arc := instance_layout td generics in
      if bool_decide (description o = td) && bool_decide (obj_generics o = generics_of generics) && (layout_arc o =? arc)%nat
      then Val (Value (VT.Struct o))
      else
        let* sz := size (layout_of arc) in
        Val (Value (VT.Struct {| description := td; obj_generics := generics_of generics; layout_arc := arc;
                                 data := copy_overlapping (data o) (replicate (Z.to_nat sz) 0);
                                 has_finalizer := has_finalizer o; finalizer_suppressed := finalizer_suppressed o |}))
  | SV.ObjectRef (Some h) =>
      let* instance := new_instance td generics in
      match heap m !! h with
      | Some ob =>
          match ho_storage ob with
          | HObj _ bs | HBoxed _ bs =>
              let* arc := instance_layout td generics in
              let* sz := size (layout_of arc) in
              Val (Value (VT.Struct (with_bytes instance (copy_overlapping bs (replicate (Z.to_nat sz) 0)))))
          | _ => invalid "cannot unbox from non-object storage"
          end
      | None => Panic
      end
  | _ => let* instance := new_instance td generics in Val (Value (VT.Struct instance))
  end.

(** [new_cts_value_with_lookup]; an enum takes one unit of fuel. *)
Fixpoint new_cts_value (fuel : nat) (t : Generics.ConcreteType) (x : StackValue) (res : nat) : act TypeResolutionError CTSValue :=
  match fuel with
  | O => aundefined
  | S fuel =>
      let^ t := alift (normalize_type t) in
      let^ m := agets memory in
      match ct_base t with
      | BPrim p => alift (new_primitive m p x)
      | BFunctionPointer _ => let^ v := alift (narrow_scalar_value m x Kind.NativeUInt) in aret (Value v)
      | BValuePointer _ inner =>
          match x with
          | SV.ManagedPtr p => aret (Value (VT.Pointer p))
          | SV.UnmanagedPtr a => alift (unmanaged_pointer a inner)
          | _ => let^ a := alift (convert_num usize m x) in alift (unmanaged_pointer a inner)
          end
      | BVector _ _ | BArray _ _ | BType _ (Some Class_) => alift (expect_ref x)
      | BType source _ =>
          let '(ut, generics) := decompose_type_source source in
          let^ td := alift (locate_type res ut) in
          let^ value := alift (is_value_type td) in
          if negb value then alift (expect_ref x)
          else match is_enum td with
               | Some e => let^ et := alift (enum_concrete res e) in new_cts_value fuel et x res
               | None =>
                   if String.eqb (type_name td) "System.TypedReference"
                   then alift (invalid "ECMA-335 typedref values may only occupy parameters and locals")
                   else alift (new_struct m td generics x)
               end
      end
  end.

(** *** Bytes *)

(** [ObjectRef::read_branded]: fewer bytes than a word or an invalid word panic. *)
Definition read_object_ref (bs : list Z) : outcome TypeResolutionError CTSValue :=
  if (length bs <? 8)%nat then Panic
  else match PtrSerde.try_from_storage_ptr r th (from_le_bytes usize (take 8 bs)) with Val o => Val (Ref o) | _ => Panic end.

(** [copy_from_slice] *)
Definition copy_from_slice {E} (src dest : list Z) : outcome E (list Z) :=
  if (length src =? length dest)%nat then Val src else Panic.

(** [&bs[pos..pos + n]] *)
Definition sub_slice {E} (bs : list Z) (pos n : Z) : outcome E (list Z) :=
  if pos + n <=? Z.of_nat (length bs) then Val (slice bs (Z.to_nat pos) (Z.to_nat n)) else Panic.

Definition value_bytes (v : ValueType) : list Z :=
  match v with
  | VT.Bool b => [if b then 1 else 0]
  | VT.Char i | VT.UInt16 i => to_le_bytes U16 i
  | VT.Int8 i => to_le_bytes I8 i
  | VT.UInt8 i => to_le_bytes U8 i
  | VT.Int16 i => to_le_bytes I16 i
  | VT.Int32 i => to_le_bytes I32 i
  | VT.UInt32 i => to_le_bytes U32 i
  | VT.Int64 i => to_le_bytes I64 i
  | VT.UInt64 i => to_le_bytes U64 i
  | VT.NativeInt i => to_le_bytes isize i
  | VT.NativeUInt i => to_le_bytes usize i
  | VT.Float32 f => to_le_bytes U32 (f32_to_bits f)
  | VT.Float64 f => to_le_bytes U64 (f64_to_bits f)
  | VT.Struct o => data o
  | VT.Pointer _ => []
  end.

(** [CTSValue::write] into [dest]. *)
Definition cts_write {E} (c : CTSValue) (dest : list Z) : act E (list Z) :=
  match c with
  | Value (VT.Pointer p) => fun v =>
      match PtrSerde.write p dest (static_ids (memory v)) with
      | Val (bs, st) => (Val bs, set_memory v (set_static_ids (memory v) st))
      | _ => (Panic, v)
      end
  | Value v => alift (copy_from_slice (value_bytes v) dest)
  | Ref o => fun v =>
      if (length dest <? 8)%nat then (Panic, v)
      else match PtrSerde.try_to_storage_ptr r th (object_owner (memory v)) o with
           | Val w => (Val (splice dest 0 (to_le_bytes usize w)), v)
           | _ => (Panic, v)
           end
  end.

Definition read_primitive (p : prim) (bs : list Z) : outcome TypeResolutionError CTSValue :=
  match scalar_kind p with
  | Some k => let* v := read_storage_value k bs in Val (Value v)
  | None =>
      match p with
      | Float32 => let* b := exactly U32 bs in Val (Value (VT.Float32 (f32_from_bits b)))
      | Float64 => let* b := exactly U64 bs in Val (Value (VT.Float64 (f64_from_bits b)))
      | _ => read_object_ref bs
      end
  end.

Definition read_pointer (m : mem) (inner : option Generics.ConcreteType) (bs : list Z) : outcome TypeResolutionError CTSValue :=
  let* ty := resolve_pointer_inner_type inner in
  if (24 <=? length bs)%nat then
    match PtrSerde.read_resolved_unchecked (static_ids m) r th (no_resolver m) (take 24 bs) with
    | Val info => let* p := from_info_full info ty false in Val (Value (VT.Pointer p))
    | _ => Panic
    end
  else if (8 <=? length bs)%nat then
    let a := from_le_bytes usize (take 8 bs) in
    let* p := ManagedPtr.new (nonnull a) ty None false (Some a) in Val (Value (VT.Pointer p))
  else Panic.

(** [read_cts_value_with_lookup]; an enum and a field with managed pointers take one unit
    of fuel. *)
Fixpoint read_cts_value (fuel : nat) (t : Generics.ConcreteType) (bs : list Z) (res : nat) : act TypeResolutionError CTSValue :=
  match fuel with
  | O => aundefined
  | S fuel =>
      let^ t := alift (normalize_type t) in
      let^ m := agets memory in
      match ct_base t with
      | BPrim p => alift (read_primitive p bs)
      | BFunctionPointer _ => let^ v := alift (read_storage_value Kind.NativeUInt bs) in aret (Value v)
      | BValuePointer _ inner => alift (read_pointer m inner bs)
      | BVector _ _ | BArray _ _ | BType _ (Some Class_) => alift (read_object_ref bs)
      | BType source _ =>
          let '(ut, generics) := decompose_type_source source in
          let^ td := alift (locate_type res ut) in
          let^ value := alift (is_value_type td) in
          if negb value then alift (read_object_ref bs)
          else match is_enum td with
               | Some e => let^ et := alift (enum_concrete res e) in read_cts_value fuel et bs res
               | None =>
                   if String.eqb (type_name td) "System.TypedReference"
                   then alift (invalid "ECMA-335 typedref values cannot be read from managed storage")
                   else
                     let^ o := alift (new_instance td generics) in
                     let^ bytes :=
                       match layout_of (layout_arc o) with
                       | LField fields _ _ _ true =>
                           (fix each (fs : list (FieldKey * (Z * LayoutManager))) (storage : list Z) :=
                              match fs with
                              | [] => aret storage
                              | (key, (pos, l)) :: fs =>
                                  let^ sz := alift (size l) in
                                  let^ field := alift (sub_slice bs pos sz) in
                                  let^ old := alift (sub_slice storage pos sz) in
                                  let^ new :=
                                    if has_managed_ptrs l then
                                      let^ ft := alift (field_type td generics (Layout.name key)) in
                                      let^ c := read_cts_value fuel ft field res in cts_write c old
                                    else alift (copy_from_slice field old) in
                                  each fs (splice storage (Z.to_nat pos) new)
                              end) fields (data o)
                       | _ => alift (copy_from_slice bs (data o))
                       end in
                     aret (Value (VT.Struct (with_bytes o bytes)))
               end
      end
  end.

(** *** Boxes *)

Definition is_nullable_type (t : Generics.ConcreteType) : bool :=
  match find_concrete_type t with Val td => String.eqb (type_name td) "System.Nullable`1" | _ => false end.

(** [ObjectRef::new] of a boxed object *)
Variable alloc_boxed : ManagedPtr.Object -> act TypeResolutionError Z.

Definition field_named (names : list string) (l : LayoutManager) : option (Z * LayoutManager) :=
  match l with
  | LField fields _ _ _ _ => (fun x => snd (snd x)) <$> list_find (fun f => Layout.name (fst f) ∈ names) fields
  | _ => None
  end.

Definition HAS_VALUE : list string := ["hasValue"; "_hasValue"].
Definition VALUE : list string := ["value"; "_value"].

Definition first_argument (t : Generics.ConcreteType) : outcome TypeResolutionError Generics.ConcreteType :=
  match ct_base t with
  | BType (Generic _ (p :: _)) _ => Val p
  | _ => Err InvalidHandle
  end.

Definition boxed_lookup (t : Generics.ConcreteType) : list Generics.ConcreteType :=
  match ct_base t with BType source _ => snd (decompose_type_source source) | _ => [] end.

(** The object a value is boxed into. *)
Definition boxed_instance (t : Generics.ConcreteType) (v : ValueType) : act TypeResolutionError ManagedPtr.Object :=
  let^ td := alift (find_concrete_type t) in
  let^ o := alift (new_instance td (boxed_lookup t)) in
  let^ bytes :=
    match v with
    | VT.Struct source => aret (copy_overlapping (data source) (data o))
    | v =>
        if size_bytes v =? Z.of_nat (length (data o)) then cts_write (Value v) (data o)
        else alift (invalid "box_value size mismatch")
    end in
  aret (with_bytes o bytes).

Definition box_as (fuel : nat) (t : Generics.ConcreteType) (x : StackValue) : act TypeResolutionError (option Z) :=
  let^ c := new_cts_value fuel t x (ct_source t) in
  match c with
  | Value v => let^ o := boxed_instance t v in let^ h := alloc_boxed o in aret (Some h)
  | Ref o => aret o
  end.

(** [box_value]: a [Nullable] is null or its value boxed. *)
Fixpoint box_value (fuel : nat) (t : Generics.ConcreteType) (x : StackValue) : act TypeResolutionError (option Z) :=
  match fuel with
  | O => aundefined
  | S fuel =>
      let^ t := alift (normalize_type t) in
      let^ td := alift (find_concrete_type t) in
      if String.eqb (type_name td) "System.TypedReference" then alift (invalid "ECMA-335 typedref values cannot be boxed")
      else
        match (if is_nullable_type t then match x with SV.ValueType o => Some o | _ => None end else None) with
        | None => box_as fuel t x
        | Some o =>
            match field_named HAS_VALUE (layout_of (layout_arc o)) with
            | None => box_as fuel t x
            | Some (pos, _) =>
                let^ flag := alift (expect (data o !! Z.to_nat pos)) in
                if flag =? 0 then aret None
                else
                  let^ (value_pos, l) := alift (expect (field_named VALUE (layout_of (layout_arc o)))) in
                  let^ sz := alift (size l) in
                  let^ inner := alift (first_argument t) in
                  let^ bs := alift (sub_slice (data o) value_pos sz) in
                  let^ c := read_cts_value fuel inner bs (ct_source inner) in
                  box_value fuel inner (widen c)
            end
        end
  end.
End cts.

(** ** Scalars *)

Definition kind_of (v : ValueType) : option CtsScalarKind :=
  match v with
  | VT.Bool _ => Some Kind.Boolean
  | VT.Char _ => Some Kind.Char
  | VT.Int8 _ => Some Kind.Int8
  | VT.UInt8 _ => Some Kind.UInt8
  | VT.Int16 _ => Some Kind.Int16
  | VT.UInt16 _ => Some Kind.UInt16
  | VT.Int32 _ => Some Kind.Int32
  | VT.UInt32 _ => Some Kind.UInt32
  | VT.Int64 _ => Some Kind.Int64
  | VT.UInt64 _ => Some Kind.UInt64
  | VT.NativeInt _ => Some Kind.NativeInt
  | VT.NativeUInt _ => Some Kind.NativeUInt
  | _ => None
  end.

(** A number is within the range of its type, a float is one of its format. *)
Definition value_ok (v : ValueType) : Prop :=
  match v with
  | VT.Char i | VT.UInt16 i => is_range U16 i
  | VT.Int8 i => is_range I8 i
  | VT.UInt8 i => is_range U8 i
  | VT.Int16 i => is_range I16 i
  | VT.Int32 i => is_range I32 i
  | VT.UInt32 i => is_range U32 i
  | VT.Int64 i => is_range I64 i
  | VT.UInt64 i => is_range U64 i
  | VT.NativeInt i => is_range isize i
  | VT.NativeUInt i => is_range usize i
  | VT.Float32 f => valid_binary 24 128 f = true
  | VT.Float64 f => valid_binary 53 1024 f = true
  | VT.Bool _ | VT.Pointer _ | VT.Struct _ => True
  end.

Lemma exactly_bytes {E} t i : is_range t i -> exactly (E:=E) t (to_le_bytes t i) = Val i.
Proof. intros Hi. unfold exactly. by rewrite length_to_le_bytes, Nat.eqb_refl, from_to_le_bytes. Qed.

(** A byte. *)
Lemma bytes_1 t i : ity_bytes t = 1%nat -> to_le_bytes t i = [i mod 256].
Proof. intros H. unfold to_le_bytes. by rewrite H. Qed.

Lemma storage_roundtrip {E} v k : kind_of v = Some k -> value_ok v ->
  read_storage_value (E:=E) k (value_bytes v) = Val v /\ length (value_bytes v) = storage_size k.
Proof.
  intros Hk Hv. destruct v; cbn in Hk; try discriminate; injection Hk as <-; cbn [read_storage_value value_bytes value_ok] in *;
    (split; [|first [done | apply length_to_le_bytes]]);
    try (rewrite exactly_bytes by done; done).
  - by destruct b.
  - rewrite bytes_1 by done. change (Val (E:=E) (VT.Int8 (wrap I8 (i mod 256))) = Val (VT.Int8 i)). do 2 f_equal. apply (range_mod_inj I8); [apply wrap_range | done|].
    rewrite wrap_mod. apply Z.mod_mod. done.
  - rewrite bytes_1 by done. cbn. f_equal. f_equal. apply Z.mod_small. int_bounds. lia.
Qed.


Section scalars.
Context {types : TypeSystem}.
Variable r : ArenaRegistry.
Variable th : nat.

(** The unsigned native integers above the signed ones. *)
Definition above_isize (v : ValueType) : bool := match v with VT.NativeUInt i => int_max isize <? i | _ => false end.

Lemma convert_num_int t m x i : x = SV.Int32 i \/ x = SV.NativeInt i -> is_range t i -> convert_num r th t m x = Val i.
Proof. intros [-> | ->] Ht; unfold convert_num, try_into; cbn [coerce_enum_to_underlying obind]; by rewrite (proj2 (in_range_spec t i)). Qed.

Lemma wrap_back t u i : bits t = bits u -> is_range t i -> wrap t (wrap u i) = i.
Proof. intros Hb Hi. rewrite wrap_wrap by done. by apply wrap_id. Qed.

Lemma native_above i : is_range usize i -> int_max isize < i -> in_range usize (wrap isize i) = false.
Proof.
  intros Hi Hl. apply in_range_false. intros Hr. assert (wrap isize i = i - 2 ^ 64); [|int_bounds; lia].
  apply (range_mod_inj isize); [apply wrap_range | int_bounds; lia|]. rewrite wrap_mod. change (2 ^ bits isize) with (2 ^ 64).
  replace i with ((i - 2 ^ 64) + 1 * 2 ^ 64) at 1 by lia. by apply Z.mod_add.
Qed.

(** Every value is the operand it is widened to, narrowed, but for the upper half of the
    unsigned native integers. *)
Lemma widen_narrow m v k : kind_of v = Some k -> value_ok v ->
  narrow_scalar_value r th m (widen_value_type v) k =
    if above_isize v then Err (InvalidLayout "failed to convert from isize") else Val v.
Proof.
  intros Hk Hv. destruct v; cbn in Hk; try discriminate; injection Hk as <-;
    cbn [narrow_scalar_value widen_value_type widen_raw value_ok above_isize] in *.
  - destruct b; reflexivity.
  - rewrite (convert_num_int _ _ _ c) by (rewrite ?wrap_id by done; auto). done.
  - rewrite (convert_num_int _ _ _ i) by (rewrite ?wrap_back by done; auto). done.
  - rewrite (convert_num_int _ _ _ i) by (rewrite ?wrap_id by done; auto). done.
  - rewrite (convert_num_int _ _ _ i) by (rewrite ?wrap_back by done; auto). done.
  - rewrite (convert_num_int _ _ _ i) by (rewrite ?wrap_id by done; auto). done.
  - rewrite (convert_num_int _ _ _ i) by (rewrite ?wrap_back by done; auto). done.
  - unfold convert_u32. cbn [coerce_enum_to_underlying obind]. rewrite (wrap_id U32 i) by done. by rewrite wrap_back.
  - unfold convert_i64, try_into. cbn [coerce_enum_to_underlying obind]. rewrite wrap_back by done. by rewrite (proj2 (in_range_spec I64 i)).
  - unfold reinterpret_i64_as_u64. cbn [coerce_enum_to_underlying obind]. by rewrite wrap_back.
  - rewrite (convert_num_int _ _ _ i) by (rewrite ?wrap_back by done; auto). done.
  - destruct (Z.ltb_spec (int_max isize) i) as [Hl|Hl].
    + unfold convert_num, try_into. cbn [coerce_enum_to_underlying obind]. by rewrite native_above.
    + rewrite (convert_num_int _ _ _ i) by (rewrite ?wrap_id by (int_bounds; lia); auto). done.
Qed.
End scalars.

(** ** Values of primitive types *)

(** A value of a primitive type that is a number. *)
Definition value_of (p : prim) (v : ValueType) : Prop :=
  value_ok v /\
  match v with
  | VT.Float32 _ => p = Float32
  | VT.Float64 _ => p = Float64
  | v => is_Some (kind_of v) /\ scalar_kind p = kind_of v
  end.

Lemma size_bytes_value p v : value_of p v -> size_bytes v = Z.of_nat (length (value_bytes v)).
Proof. intros [Hv Hp]. destruct v; cbn [size_bytes value_bytes] in *; rewrite ?length_to_le_bytes; try done; by destruct Hp as [[? [=]] _]. Qed.

Lemma read_primitive_bytes r th p v : value_of p v -> read_primitive r th p (value_bytes v) = Val (Value v).
Proof.
  intros [Hv Hp]. destruct (kind_of v) as [k|] eqn:Hk.
  - assert (Hs : scalar_kind p = Some k) by (destruct v; cbn in Hk, Hp; (discriminate || by destruct Hp as [_ ->])).
    unfold read_primitive. rewrite Hs. by rewrite (proj1 (storage_roundtrip v k Hk Hv)).
  - destruct v; cbn in Hk; try discriminate; try (by destruct Hp as [[? [=]] _]); subst p; cbn [read_primitive scalar_kind value_bytes value_ok] in *.
    + destruct (float_bits_roundtrip 23 8 ltac:(lia) ltac:(lia) _ Hv) as [Hb Hr]. rewrite exactly_bytes by (unfold f32_to_bits; int_bounds; lia).
      cbn. unfold f32_from_bits, f32_to_bits. by rewrite Hb.
    + destruct (float_bits_roundtrip 52 11 ltac:(lia) ltac:(lia) _ Hv) as [Hb Hr]. rewrite exactly_bytes by (unfold f64_to_bits; int_bounds; lia).
      cbn. unfold f64_from_bits, f64_to_bits. by rewrite Hb.
Qed.

Lemma new_primitive_widen {types : TypeSystem} r th m p v : value_of p v ->
  new_primitive r th m p (widen_value_type v) =
    if above_isize v then Err (InvalidLayout "failed to convert from isize") else Val (Value v).
Proof.
  intros [Hv Hp]. destruct (kind_of v) as [k|] eqn:Hk.
  - assert (Hsk : scalar_kind p = Some k) by (destruct v; cbn in Hk, Hp; (discriminate || by destruct Hp as [_ ->])).
    unfold new_primitive. rewrite Hsk, widen_narrow by done. by destruct (above_isize v).
  - destruct v; cbn in Hk; try discriminate; try (by destruct Hp as [[? [=]] _]); subst p; [|done].
    cbn [new_primitive scalar_kind widen_value_type widen_raw narrow_float32 obind above_isize]. by rewrite f32_widened.
Qed.

Section types.
Context {types : TypeSystem}.
Variable r : ArenaRegistry.
Variable th : nat.

(** C22. A value of a primitive type, an integer of its range or a float of its format,
    survives storage and the evaluation stack: the bytes it is written as, which are as many
    as its size, are read as the value; and the operand it is loaded as makes the value
    again when it is stored, a single through the double it is widened to.  The exception
    is the upper half of the unsigned native integers: such a value is loaded, but the
    operand is refused when it is stored. *)
Theorem value_roundtrip fuel t s p v res m :
  normalize_type t = Val (CT s (BPrim p)) -> value_of p v ->
  exists bs, Z.of_nat (length bs) = size_bytes v /\
    cts_write (E:=Empty_set) r th (Value v) (replicate (length bs) 0) m = (Val bs, m) /\
    read_cts_value r th (S fuel) t bs res m = (Val (Value v), m) /\
    new_cts_value r th (S fuel) t (widen (Value v)) res m =
      (if above_isize v then Err (Access (InvalidLayout "failed to convert from isize")) else Val (Value v), m).
Proof.
  intros Hn Hv. exists (value_bytes v). split; [by rewrite (size_bytes_value p)|]. split; [|split].
  - unfold cts_write. assert (Hc : copy_from_slice (E:=Empty_set) (value_bytes v) (replicate (length (value_bytes v)) 0) = Val (value_bytes v))
      by (unfold copy_from_slice; by rewrite length_replicate, Nat.eqb_refl).
    destruct Hv as [_ Hp]. destruct v; try (by destruct Hp as [[? [=]] _]); unfold alift; by rewrite Hc.
  - cbn [read_cts_value]. unfold abind at 1, alift at 1. rewrite Hn. unfold abind, agets. cbn [ct_base]. unfold alift.
    by rewrite (read_primitive_bytes r th p v Hv).
  - cbn [new_cts_value]. unfold abind at 1, alift at 1. rewrite Hn. unfold abind, agets. cbn [ct_base]. unfold alift.
    cbn [widen]. rewrite (new_primitive_widen r th (memory m) p v Hv). by destruct (above_isize v).
Qed.
End types.

(** A loader that knows no user types. *)
Definition no_types : TypeSystem := {|
  is_enum := fun _ => None;
  user_type_name := fun _ _ => "T"%string;
  locate_type := fun _ _ => Err InvalidHandle;
  find_concrete_type := fun _ => Err InvalidHandle;
  is_value_type := fun _ => Val true;
  type_name := fun _ => "T"%string;
  has_finalizer_of := fun _ => Val false;
  enum_concrete := fun _ _ => Err InvalidHandle;
  void_type := Err InvalidHandle;
  instance_layout := fun _ _ => Err InvalidHandle;
  layout_of := fun _ => LScalar Scalars.NativeInt;
  generics_of := fun _ => [];
  field_type := fun _ _ _ => Err InvalidHandle;
|}.

(** The largest unsigned native integer is read, but not stored again. *)
Lemma value_roundtrip_witness :
  let t := CT 0 (BPrim UIntPtr) in
  let v := VT.NativeUInt (2 ^ 64 - 1) in
  widen (Value v) = SV.NativeInt (-1) /\
  fst (new_cts_value (types:=no_types) (reg run_s2) 2 1 t (SV.NativeInt (-1)) 0 pair_vm) = Err (Access (InvalidLayout "failed to convert from isize")).
Proof.
  intros t v. split; [reflexivity|].
  destruct (value_roundtrip (types:=no_types) (reg run_s2) 2 0 t 0 UIntPtr v 0 pair_vm) as (bs & H1 & H2 & H3 & H4).
  - reflexivity.
  - split; [split; vm_compute; discriminate|]. split; [exists Kind.NativeUInt; reflexivity | reflexivity].
  - change (widen (Value v)) with (SV.NativeInt (-1)) in H4. rewrite H4. reflexivity.
Defined.
