(* ===== verification/Boxing.v ===== *)
(** * Boxing and casting

    [box], [unbox.any], [unbox], [castclass] and [isinst]
    ([dotnet-vm/src/instructions/objects/boxing.rs], [casting.rs], [helpers.rs]).

    The heap of [Memory] keeps the bytes of an object; its description, generic arguments
    and, for an array, its element type are functions of its handle. *)

From Stdlib Require Import ZArith Lia Floats.SpecFloat.
From stdpp Require Import base tactics list option strings gmap.
From S2P Require Import Prelude Bytes Floats ManagedPtr ArenaRegistry Generics PtrSerde StackValue Ops Instructions FrameAlloc Layout FrameHomes VmData Interp Exceptions Comparer Memory RawOps Variables Blocks Calls Cts.

Import Registry.

Local Open Scope vm_scope.

(** A push, seen from the operands. *)
Lemma push_operand v below xs x : has_operands v below xs -> has_operands (set_context v (push x (context v))) below (xs ++ [x]).
Proof.
  intros [Hs (f & Hf & Hh)]. change (push x (context v)) with (ves_push x (context v)).
  split; cbn [context set_context].
  - cbn [ves_push on_push eval set_fstack set_eval es_push stack]. by rewrite Hs, app_assoc.
  - exists (set_height f (S (stack_height f))). split; [|cbn [set_height stack_height]; rewrite Hh, length_app; simpl; lia].
    apply (last_update_current _ (fun f => set_height f (S (stack_height f))) f Hf).
Qed.

(** What the instructions ask of the objects, the comparer and the method that runs. *)
Class ObjectTypes : Type := {
  (** the current context: [make_concrete] and the scope of the method *)
  make_concrete : MethodType -> outcome TypeResolutionError Generics.ConcreteType;
  scope : nat;
  is_byref_like : TypeDescription -> bool;
  (** the object behind a handle *)
  description_of : Z -> TypeDescription;
  type_arguments : Z -> list Generics.ConcreteType;
  object_of : Z -> ManagedPtr.Object;
  element_of : Z -> Generics.ConcreteType;
  type_arity : TypeDescription -> nat;
  (** [get_heap_description] of arrays and strings *)
  corlib_array : outcome TypeResolutionError TypeDescription;
  corlib_string : outcome TypeResolutionError TypeDescription;
  (** the comparer *)
  is_a : Generics.ConcreteType -> Generics.ConcreteType -> outcome TypeResolutionError bool;
  is_assignable_to : Generics.ConcreteType -> Generics.ConcreteType -> bool;
  concrete_types_equal : Generics.ConcreteType -> Generics.ConcreteType -> bool;
  concrete_is_value : Generics.ConcreteType -> bool;
  (** the generic collection interfaces an array has *)
  array_interfaces : list (outcome TypeResolutionError TypeDescription);
  (** the allocation of a boxed object *)
  alloc_boxed : ManagedPtr.Object -> act TypeResolutionError Z;
}.

Section boxing.
Context {types : TypeSystem} {objects : ObjectTypes}.
Variable r : ArenaRegistry.
Variable th : nat.
Variable rt : runtime.

Abbreviation instruction := (act Empty_set StepResult).

Definition invalid_program : instruction := athrow rt "System.InvalidProgramException" INVALID_PROGRAM_MSG.
Definition invalid_cast : instruction := athrow rt "System.InvalidCastException" INVALID_CAST_MSG.
Definition null_reference : instruction := athrow rt "System.NullReferenceException" NULL_REF_MSG.

(** The storage behind a handle; one that is not live is a broken invariant. *)
Definition storage_of {E} (h : Z) : act E HeapObject := fun v => (expect (heap (memory v) !! h), v).

(** ** [box] *)

Definition box_instruction (fuel : nat) (param0 : MethodType) : instruction :=
  vm_try (alift (make_concrete param0)) (fun t =>
    let? x := apop in
    match x with
    | SV.ObjectRef _ => apush x ;^ aret Continue
    | _ =>
        if match x with SV.ValueType o => is_byref_like (description o) | _ => false end then invalid_program
        else vm_try (box_value r th alloc_boxed fuel t x) (fun o => apush (SV.ObjectRef o) ;^ aret Continue)
    end).

(** ** Types of objects *)

Definition concrete_of (td : TypeDescription) : Generics.ConcreteType :=
  CT (resolution td) (BType (User (Definition_ (index td))) None).

Definition object_runtime_concrete_type (h : Z) : Generics.ConcreteType :=
  let td := description_of h in
  let arity := type_arity td in
  let args := take arity (type_arguments h) in
  if (arity =? 0)%nat || negb (length args =? arity)%nat then concrete_of td
  else CT (resolution td) (BType (Generic (Definition_ (index td)) args) None).

Definition heap_runtime_concrete_type (h : Z) (s : HeapStorage) : option Generics.ConcreteType :=
  match s with HObj _ _ | HBoxed _ _ => Some (object_runtime_concrete_type h) | _ => None end.

Definition get_heap_description (h : Z) (s : HeapStorage) : outcome TypeResolutionError TypeDescription :=
  match s with
  | HObj _ _ | HBoxed _ _ => Val (description_of h)
  | HVec _ _ _ => corlib_array
  | HStr _ => corlib_string
  end.

(** The type of an object, for a cast. *)
Definition source_type (h : Z) (s : HeapStorage) : outcome TypeResolutionError Generics.ConcreteType :=
  match heap_runtime_concrete_type h s with
  | Some t => Val t
  | None => let* td := get_heap_description h s in Val (concrete_of td)
  end.

Definition vector_matches_generic_array_interfaces (element target : Generics.ConcreteType) : bool :=
  existsb (fun i =>
    match i with
    | Val td => is_assignable_to (CT (resolution td) (BType (Generic (Definition_ (index td)) [element]) None)) target
    | _ => false
    end) array_interfaces.

Definition vector_matches_array_type (element target : Generics.ConcreteType) : bool :=
  match ct_base target with
  | BVector _ target_element =>
      concrete_types_equal element target_element ||
      (negb (concrete_is_value element) && negb (concrete_is_value target_element) && is_assignable_to element target_element)
  | _ => vector_matches_generic_array_interfaces element target
  end.

Definition check_object_assignability (h : Z) (s : HeapStorage) (param0 : MethodType) : outcome TypeResolutionError bool :=
  let* target := make_concrete param0 in
  if match s with HVec _ _ _ => vector_matches_array_type (element_of h) target | _ => false end then Val true
  else let* source := source_type h s in is_a source target.

(** ** Casts *)

(** [castclass] and [isinst] differ in what they do with an object of another type. *)
Definition cast (param0 : MethodType) (otherwise : instruction) : instruction :=
  let? x := apop in
  match x with
  | SV.ObjectRef (Some h) =>
      let^ o := storage_of h in
      vm_try (alift (check_object_assignability h (ho_storage o) param0)) (fun assignable =>
        if assignable : bool then apush (SV.ObjectRef (Some h)) ;^ aret Continue else otherwise)
  | SV.ObjectRef None => apush (SV.ObjectRef None) ;^ aret Continue
  | _ => invalid_program
  end.

Definition castclass (param0 : MethodType) : instruction := cast param0 invalid_cast.
Definition isinst (param0 : MethodType) : instruction := cast param0 (apush (SV.ObjectRef None) ;^ aret Continue).

(** ** [unbox.any] and [unbox] *)

(** A [Nullable] with the bytes of a boxed value: its flag is set and the bytes are copied;
    a layout without the fields is an error. *)
Definition fill_nullable (o : ManagedPtr.Object) (boxed : list Z) : outcome TypeResolutionError ManagedPtr.Object :=
  let l := layout_of (layout_arc o) in
  let* (pos, _) := ok_or (field_named HAS_VALUE l) InvalidHandle in
  let* _ := expect (data o !! Z.to_nat pos) in
  let bytes := <[Z.to_nat pos := 1]> (data o) in
  let* (value_pos, vl) := ok_or (field_named VALUE l) InvalidHandle in
  let* sz := size vl in
  let* new := sub_slice boxed 0 sz in
  let* _ := sub_slice bytes value_pos sz in
  Val (with_bytes o (splice bytes (Z.to_nat value_pos) new)).

Definition nullable_instance (t : Generics.ConcreteType) : outcome TypeResolutionError ManagedPtr.Object :=
  let* td := find_concrete_type t in new_instance td (boxed_lookup t).

(** A boxed value of the argument of a [Nullable]. *)
Definition boxed_argument (t : Generics.ConcreteType) (h : Z) (s : HeapStorage) : outcome TypeResolutionError bool :=
  let* inner := first_argument t in
  let* inner := normalize_type inner in
  let* td := get_heap_description h s in
  let* source := normalize_type (concrete_of td) in
  is_a source inner.

Definition SYSTEM_PRIMITIVES : list string :=
  ["System.Boolean"; "System.Char"; "System.SByte"; "System.Byte"; "System.Int16"; "System.UInt16"; "System.Int32"; "System.UInt32";
   "System.Int64"; "System.UInt64"; "System.Single"; "System.Double"; "System.IntPtr"; "System.UIntPtr"].

(** What [unbox.any] makes of the bytes of an object. *)
Definition unboxed (fuel : nat) (t : Generics.ConcreteType) (h : Z) (s : HeapStorage) (bs : list Z) : act TypeResolutionError StackValue :=
  let td := description_of h in
  if is_nullable_type t then
    let^ ok := alift (boxed_argument t h s) in
    if negb ok then afail InvalidHandle
    else
      let^ o := alift (nullable_instance t) in
      let^ o := alift (fill_nullable o bs) in
      aret (SV.ValueType o)
  else match is_enum td with
       | Some e => let^ et := alift (enum_concrete scope e) in let^ c := read_cts_value r th fuel et bs scope in aret (widen c)
       | None =>
           if bool_decide (type_name td ∈ SYSTEM_PRIMITIVES) then let^ c := read_cts_value r th fuel t bs scope in aret (widen c)
           else aret (SV.ValueType (with_bytes (object_of h) bs))
       end.

Definition unbox_value (fuel : nat) (t : Generics.ConcreteType) (x : StackValue) : instruction :=
  match x with
  | SV.ObjectRef None =>
      if is_nullable_type t then vm_try (alift (nullable_instance t)) (fun o => apush (SV.ValueType o) ;^ aret Continue)
      else null_reference
  | SV.ObjectRef (Some h) =>
      let^ o := storage_of h in
      match ho_storage o with
      | HObj _ bs | HBoxed _ bs =>
          let^ y := catch (unboxed fuel t h (ho_storage o) bs) in
          match y with inr x => apush x ;^ aret Continue | inl _ => invalid_cast end
      | _ => invalid_cast
      end
  | x => apush x ;^ aret Continue
  end.

Definition unbox_reference (t : Generics.ConcreteType) (x : StackValue) : instruction :=
  match x with
  | SV.ObjectRef (Some h) =>
      let^ o := storage_of h in
      if match ho_storage o with HVec _ _ _ => vector_matches_generic_array_interfaces (element_of h) t | _ => false end
      then apush x ;^ aret Continue
      else
        vm_try (alift (let* source := source_type h (ho_storage o) in is_a source t)) (fun assignable =>
          if assignable : bool then apush x ;^ aret Continue else invalid_cast)
  | SV.ObjectRef None => apush (SV.ObjectRef None) ;^ aret Continue
  | _ => invalid_program
  end.

(** Whether [unbox.any] takes the type for a value type. *)
Definition unboxes_value (t : Generics.ConcreteType) : outcome TypeResolutionError bool :=
  match ct_base t with
  | BType _ _ => let* td := find_concrete_type t in is_value_type td
  | BVector _ _ | BArray _ _ | BPrim Object_ | BPrim String_ => Val false
  | _ => Val true
  end.

Definition unbox_any (fuel : nat) (param0 : MethodType) : instruction :=
  let^ x := apop_some in
  vm_try (alift (make_concrete param0)) (fun t =>
    vm_try (alift (unboxes_value t)) (fun value =>
      if value : bool then unbox_value fuel t x else unbox_reference t x)).

(** The address of the payload of an object. *)
Definition push_payload (h base : Z) (t : Generics.ConcreteType) : instruction :=
  vm_try (alift (find_concrete_type t)) (fun ty =>
    let^ p := alift (ManagedPtr.new (nonnull base) ty (Some (Some h)) false (Some 0)) in
    apush (SV.ManagedPtr p) ;^ aret Continue).

Definition unbox_nullable (t : Generics.ConcreteType) (obj : option Z) : instruction :=
  vm_try (alift (nullable_instance t)) (fun o =>
    let fresh (o : ManagedPtr.Object) : instruction :=
      vm_try (alloc_boxed o) (fun h => let^ ob := storage_of h in push_payload h (ho_base ob) t) in
    match obj with
    | None => fresh o
    | Some h =>
        let^ _ := alift (expect (head (boxed_lookup t))) in
        let^ ob := storage_of h in
        vm_try (alift (boxed_argument t h (ho_storage ob))) (fun ok =>
          if ok : bool then
            match fill_nullable o (payload (ho_storage ob)) with Val o => fresh o | _ => apanic end
          else invalid_cast)
    end).

Definition unbox (param0 : MethodType) : instruction :=
  let? x := apop in
  vm_try (alift (make_concrete param0)) (fun t =>
    match x with
    | SV.ObjectRef obj =>
        if is_nullable_type t then unbox_nullable t obj
        else match obj with
             | None => null_reference
             | Some h =>
                 let^ ob := storage_of h in
                 match ho_storage ob with
                 | HObj _ _ | HBoxed _ _ => push_payload h (ho_base ob) t
                 | _ => invalid_cast
                 end
             end
    | _ => invalid_program
    end).

(** ** Laws *)

(** A boxed value of a type of the class library: the bytes, and a description that is
    neither an enum nor a [Nullable]. *)
Definition boxed (m : mem) (h : Z) (bs : list Z) : Prop :=
  (exists ob l, heap m !! h = Some ob /\ ho_storage ob = HBoxed l bs) /\
  is_enum (description_of h) = None /\ type_name (description_of h) ∈ SYSTEM_PRIMITIVES.

Lemma vm_try_val {A} (x : act TypeResolutionError A) k v a v1 : x v = (Val a, v1) -> vm_try x k v = k a v1.
Proof. intros H. unfold vm_try, abind, catch. by rewrite H. Qed.

Lemma read_prim fuel s p bs sc v : read_cts_value r th (S fuel) (CT s (BPrim p)) bs sc v = alift (read_primitive r th p bs) v.
Proof. reflexivity. Qed.

(** A target type that is a number. *)
Definition number (p : prim) : Prop := p <> Object_ /\ p <> String_.

Lemma unboxes_number s p : number p -> unboxes_value (CT s (BPrim p)) = Val true.
Proof. intros [H1 H2]. destruct p; done. Qed.

(** What [unbox.any] does with an object depends on the bytes and the target type. *)
Lemma unbox_any_boxed fuel param0 s p v below xs h bs :
  make_concrete param0 = Val (CT s (BPrim p)) -> number p -> is_nullable_type (CT s (BPrim p)) = false ->
  has_operands v below (xs ++ [SV.ObjectRef (Some h)]) -> boxed (memory v) h bs ->
  match read_primitive r th p bs with
  | Val c => exists v', unbox_any (S fuel) param0 v = (Val Continue, v') /\ has_operands v' below (xs ++ [widen c]) /\ memory v' = memory v
  | Panic => fst (unbox_any (S fuel) param0 v) = Panic
  | Err _ => True
  end.
Proof.
  intros Hm Hp Hn Ho Hb. destruct (apop_operand _ _ _ _ Ho) as (v1 & Hpop & Ho1 & Hmem). rewrite <- Hmem in Hb.
  destruct Hb as ((ob & l & Hh & Hs) & He & Ht).
  assert (Heq : unbox_any (S fuel) param0 v =
    abind (catch (unboxed (S fuel) (CT s (BPrim p)) h (HBoxed l bs) bs)) (fun y => match y with inr x => apush x ;^ aret Continue | inl _ => invalid_cast end) v1).
  { unfold unbox_any, abind at 1, apop_some. rewrite Hpop. rewrite (vm_try_val _ _ v1 (CT s (BPrim p)) v1) by (unfold alift; by rewrite Hm).
    rewrite (vm_try_val _ _ v1 true v1) by (unfold alift; by rewrite unboxes_number). unfold unbox_value, abind at 1, storage_of. rewrite Hh. cbn [expect].
    by rewrite Hs. }
  assert (Hun : forall u, unboxed (S fuel) (CT s (BPrim p)) h (HBoxed l bs) bs u =
    abind (alift (read_primitive r th p bs)) (fun c => aret (widen c)) u).
  { intros u. unfold unboxed. rewrite Hn, He, bool_decide_true by done. reflexivity. }
  destruct (read_primitive r th p bs) as [c|e|]; [|done|]; rewrite Heq; unfold abind at 1, catch; rewrite Hun; unfold abind, alift; [|done].
  exists (set_context v1 (push (widen c) (context v1))). split; [done|]. split; [|done]. by apply push_operand.
Qed.

(** The size of a number. *)
Definition number_size (q : prim) : option nat :=
  match q with
  | Float32 => Some 4%nat
  | Float64 => Some 8%nat
  | q => storage_size <$> scalar_kind q
  end.

(** Reading bytes as a number: the length decides. *)
Lemma read_number_length q n bs : number_size q = Some n -> bs <> [] ->
  match read_primitive r th q bs with
  | Val c => n = 1%nat \/ n = length bs
  | Panic => n <> 1%nat /\ n <> length bs
  | Err _ => False
  end.
Proof.
  intros Hn Hb. destruct bs as [|b bs]; [done|].
  destruct q; cbn in Hn; try discriminate; injection Hn as <-; cbn [read_primitive scalar_kind read_storage_value head expect obind]; try (by left);
    unfold exactly; match goal with |- context [(length ?l =? ?n)%nat] => destruct (Nat.eqb_spec (length l) n) as [Hl|Hl] end; cbn [obind];
    first [by right | split; [done | by intros Hs; apply Hl]].
Qed.

Lemma value_bytes_some p v : value_of p v -> value_bytes v <> [].
Proof.
  intros Hv Hn. apply size_bytes_value in Hv as Hs. rewrite Hn in Hs. destruct Hv as [_ Hp].
  destruct v; cbn in Hs; try lia; by destruct Hp as [[? [=]] _].
Qed.

(** C39. [unbox.any] to a number does not look at the type of the object.  Given a boxed
    number of any type, it reads the bytes of the object as the target type, an integer or
    a float, when they are as many as the target has; a target of one byte takes the first
    of them, however many there are; and any other length panics the host.  A cast that is
    not valid is never reported. *)
Theorem unbox_any_reinterprets fuel param0 s q n v p w below xs h :
  make_concrete param0 = Val (CT s (BPrim q)) -> number_size q = Some n -> is_nullable_type (CT s (BPrim q)) = false ->
  value_of p v -> boxed (memory w) h (value_bytes v) -> has_operands w below (xs ++ [SV.ObjectRef (Some h)]) ->
  if decide (n = 1%nat \/ n = length (value_bytes v)) then
    exists c w', read_primitive r th q (value_bytes v) = Val c /\
      unbox_any (S fuel) param0 w = (Val Continue, w') /\ has_operands w' below (xs ++ [widen c])
  else fst (unbox_any (S fuel) param0 w) = Panic.
Proof.
  intros Hm Hk Hn Hv Hb Ho. assert (Hq : number q) by (by destruct q).
  pose proof (unbox_any_boxed fuel param0 s q w below xs h (value_bytes v) Hm Hq Hn Ho Hb) as H.
  pose proof (read_number_length q n (value_bytes v) Hk (value_bytes_some p v Hv)) as Hr.
  destruct (read_primitive r th q (value_bytes v)) as [c|e|]; [|done|].
  - rewrite decide_True by done. destruct H as (w' & H1 & H2 & _). by exists c, w'.
  - rewrite decide_False by tauto. done.
Qed.

Lemma system_name td : type_name td ∈ SYSTEM_PRIMITIVES ->
  String.eqb (type_name td) "System.TypedReference" = false /\ String.eqb (type_name td) "System.Nullable`1" = false.
Proof.
  intros H. assert (Hb : forall n, bool_decide (n ∈ SYSTEM_PRIMITIVES) = false -> String.eqb (type_name td) n = false).
  { intros n Hn. apply bool_decide_eq_false in Hn. apply String.eqb_neq. congruence. }
  split; apply Hb; vm_compute; reflexivity.
Qed.

(** The type of a number, as the loader and the layouts have it. *)
Record number_type (t : Generics.ConcreteType) (td : TypeDescription) (sz : Z) : Prop := {
  nt_found : find_concrete_type t = Val td;
  nt_name : type_name td ∈ SYSTEM_PRIMITIVES;
  nt_enum : is_enum td = None;
  nt_finalizer : has_finalizer_of td = Val false;
  nt_layout : exists arc, instance_layout td [] = Val arc /\ size (E:=TypeResolutionError) (layout_of arc) = Val sz;
}.

(** An allocation gives an object with the bytes and the description, and leaves the
    operands. *)
Definition allocates (td : TypeDescription) : Prop := forall o u, description o = td ->
  exists h u' ob, alloc_boxed o u = (Val h, u') /\ context u' = context u /\ heap (memory u') !! h = Some ob /\
    ho_storage ob = HBoxed (layout_of (layout_arc o)) (data o) /\ description_of h = td.

Lemma not_nullable t td sz : number_type t td sz -> is_nullable_type t = false.
Proof. intros [H1 H2 _ _ _]. unfold is_nullable_type. rewrite H1. by apply system_name. Qed.

Lemma number_value p v : value_of p v -> number p.
Proof.
  intros [_ Hp]. unfold number. destruct v; cbn in Hp; try (subst p; split; discriminate);
    destruct Hp as [[k Hk] Hp]; destruct p; cbn in Hp; split; congruence.
Qed.

(** A number is boxed into its bytes. *)
Lemma box_number fuel s p td v u : number_type (CT s (BPrim p)) td (size_bytes v) -> allocates td ->
  value_of p v -> above_isize v = false ->
  exists h u', box_value r th alloc_boxed (S (S fuel)) (CT s (BPrim p)) (widen (Value v)) u = (Val (Some h), u') /\ context u' = context u /\ boxed (memory u') h (value_bytes v).
Proof.
  intros Ht Hal Hv Ha. pose proof (not_nullable _ _ _ Ht) as Hn. destruct Ht as [H1 H2 H3 H4 (arc & H5 & H6)].
  destruct (system_name td H2) as [Htr _].
  set (o := {| description := td; obj_generics := generics_of []; layout_arc := arc; data := replicate (Z.to_nat (size_bytes v)) 0;
               has_finalizer := false; finalizer_suppressed := false |}).
  assert (Hi : new_instance td [] = Val o) by (unfold new_instance; rewrite H4; cbn [obind]; rewrite H5; cbn [obind]; by rewrite H6).
  assert (Hl : length (data o) = length (value_bytes v)).
  { unfold o. cbn [data]. rewrite length_replicate, (size_bytes_value p v Hv). lia. }
  assert (Hw : cts_write (E:=TypeResolutionError) r th (Value v) (data o) u = (Val (value_bytes v), u)).
  { destruct Hv as [_ Hp]. destruct v; try (by destruct Hp as [[? [=]] _]); cbn [cts_write]; unfold alift, copy_from_slice; by rewrite Hl, Nat.eqb_refl. }
  destruct (Hal (with_bytes o (value_bytes v)) u eq_refl) as (h & u' & ob & E1 & E2 & E3 & E4 & E5).
  exists h, u'. split; [|split; [done|]].
  - cbn [box_value]. unfold abind at 1, alift at 1. cbn [normalize_type ct_base]. unfold abind at 1, alift at 1. rewrite H1, Htr, Hn.
    unfold box_as, abind at 1.
    assert (Hc : new_cts_value r th (S fuel) (CT s (BPrim p)) (widen (Value v)) s u = (Val (Value v), u)).
    { cbn [new_cts_value]. unfold abind, alift, agets. cbn [normalize_type ct_base widen]. rewrite new_primitive_widen, Ha by done. done. }
    cbn [ct_source]. rewrite Hc.
    assert (Hbi : boxed_instance r th (CT s (BPrim p)) v u =
      (Val (with_bytes o (value_bytes v)), u)).
    { unfold boxed_instance, abind at 1, alift at 1. rewrite H1. unfold abind at 1, alift at 1. cbn [boxed_lookup ct_base]. rewrite Hi.
      assert (Hz : (size_bytes v =? Z.of_nat (length (data o))) = true) by (apply Z.eqb_eq; by rewrite Hl, (size_bytes_value p v Hv)).
      rewrite Hz. unfold abind. destruct Hv as [_ Hp]. destruct v; try (by destruct Hp as [[? [=]] _]); by rewrite Hw. }
    unfold abind. rewrite Hbi, E1. done.
  - split; [by exists ob, (layout_of arc)|]. by rewrite E5.
Qed.

(** The upper half of the unsigned native integers is not boxed. *)
Lemma box_above fuel s p td v u : number_type (CT s (BPrim p)) td (size_bytes v) -> value_of p v -> above_isize v = true ->
  box_value r th alloc_boxed (S (S fuel)) (CT s (BPrim p)) (widen (Value v)) u = (Err (Access (InvalidLayout "failed to convert from isize")), u).
Proof.
  intros Ht Hv Ha. pose proof (not_nullable _ _ _ Ht) as Hn. destruct Ht as [H1 H2 _ _ _]. destruct (system_name td H2) as [Htr _].
  cbn [box_value]. unfold abind at 1, alift at 1. cbn [normalize_type ct_base]. unfold abind at 1, alift at 1. rewrite H1, Htr, Hn.
  unfold box_as, abind at 1. cbn [new_cts_value ct_source]. unfold abind, alift, agets. cbn [normalize_type ct_base widen].
  by rewrite new_primitive_widen, Ha.
Qed.

(** The instruction boxes what is not an object. *)
Lemma box_instruction_number fuel param0 t p v w below xs : make_concrete param0 = Val t -> value_of p v ->
  has_operands w below (xs ++ [widen (Value v)]) ->
  exists w0, has_operands w0 below xs /\ memory w0 = memory w /\
    box_instruction fuel param0 w = vm_try (box_value r th alloc_boxed fuel t (widen (Value v))) (fun o => apush (SV.ObjectRef o) ;^ aret Continue) w0.
Proof.
  intros Hm Hv Ho. destruct (apop_operand _ _ _ _ Ho) as (w0 & Hpop & Ho0 & Hmem). exists w0. do 2 (split; [done|]).
  unfold box_instruction. rewrite (vm_try_val _ _ w t w) by (unfold alift; by rewrite Hm). unfold abind at 1, catch. rewrite Hpop.
  assert (Hgo : match widen (Value v) with SV.ObjectRef _ | SV.ValueType _ => False | _ => True end).
  { destruct Hv as [_ Hp]. destruct v; cbn; try done; by destruct Hp as [[? [=]] _]. }
  by destruct (widen (Value v)).
Qed.

(** C23. A number of a primitive type, integer or float, that is boxed and unboxed is what it
    was: [box] of the operand it is loaded as leaves a reference to a new object with the
    bytes of the number, and [unbox.any] to the same type leaves the operand that was
    boxed.  The exception is the upper half of the unsigned native integers, which [box]
    refuses with an error. *)
Theorem box_unbox_roundtrip fuel param0 s p td v w below xs :
  make_concrete param0 = Val (CT s (BPrim p)) -> number_type (CT s (BPrim p)) td (size_bytes v) -> allocates td ->
  value_of p v -> has_operands w below (xs ++ [widen (Value v)]) ->
  if above_isize v then
    fst (box_instruction (S (S fuel)) param0 w) = Val (Error (VmTypeResolution (InvalidLayout "failed to convert from isize")))
  else
    exists h w1 w2, box_instruction (S (S fuel)) param0 w = (Val Continue, w1) /\ has_operands w1 below (xs ++ [SV.ObjectRef (Some h)]) /\
      boxed (memory w1) h (value_bytes v) /\
      unbox_any (S fuel) param0 w1 = (Val Continue, w2) /\ has_operands w2 below (xs ++ [widen (Value v)]).
Proof.
  intros Hm Ht Hal Hv Ho. destruct (box_instruction_number (S (S fuel)) param0 _ p v w below xs Hm Hv Ho) as (w0 & Ho0 & Hmem & Hbi).
  destruct (above_isize v) eqn:Ha.
  { rewrite Hbi. unfold vm_try, abind at 1, catch. by rewrite (box_above fuel s p td v w0 Ht Hv Ha). }
  destruct (box_number fuel s p td v w0 Ht Hal Hv Ha) as (h & u & Hbox & Hc & Hb).
  set (w1 := set_context u (push (SV.ObjectRef (Some h)) (context u))).
  assert (Ho1 : has_operands w1 below (xs ++ [SV.ObjectRef (Some h)])).
  { apply push_operand. unfold has_operands in *. by rewrite Hc. }
  pose proof (unbox_any_boxed fuel param0 s p w1 below xs h (value_bytes v) Hm (number_value p v Hv) (not_nullable _ _ _ Ht) Ho1 Hb) as H.
  rewrite (read_primitive_bytes r th p v Hv) in H. destruct H as (w2 & H1 & H2 & _).
  exists h, w1, w2. split; [|done]. rewrite Hbi. by rewrite (vm_try_val _ _ w0 (Some h) u).
Qed.
End boxing.

(** ** Instances *)

Definition long_desc : TypeDescription := {| resolution := 1; index := 64 |}.
Definition int_desc : TypeDescription := {| resolution := 1; index := 32 |}.

Definition demo_find (t : Generics.ConcreteType) : outcome TypeResolutionError TypeDescription :=
  match ct_base t with BPrim Int64 => Val long_desc | BPrim Int32 => Val int_desc | _ => Err InvalidHandle end.
Definition demo_name (td : TypeDescription) : string := if (index td =? 64)%nat then "System.Int64" else "System.Int32".
Definition demo_layout (_ : nat) : LayoutManager := LField [] 8 8 empty_desc false.

(** The object at 8. *)
Definition demo_object (bs : list Z) : HeapObject := {| ho_owner := 2; ho_base := 4096; ho_storage := HBoxed (demo_layout 0) bs |}.
Definition demo_box (o : ManagedPtr.Object) : act TypeResolutionError Z := fun v =>
  (Val 8, set_memory v (set_heap (memory v) (<[8 := demo_object (data o)]> (heap (memory v))))).
Definition demo_concrete (t : MethodType) : outcome TypeResolutionError Generics.ConcreteType :=
  match t with Generics.MBase (BPrim p) => Val (CT 0 (BPrim p)) | _ => Err InvalidHandle end.

Definition demo_types : TypeSystem := {|
  is_enum := fun _ => None;
  user_type_name := fun _ _ => "T"%string;
  locate_type := fun _ _ => Err InvalidHandle;
  find_concrete_type := demo_find;
  is_value_type := fun _ => Val true;
  type_name := demo_name;
  has_finalizer_of := fun _ => Val false;
  enum_concrete := fun _ _ => Err InvalidHandle;
  void_type := Err InvalidHandle;
  instance_layout := fun _ _ => Val 0%nat;
  layout_of := demo_layout;
  generics_of := fun _ => [];
  field_type := fun _ _ _ => Err InvalidHandle;
|}.

(** Every object is a boxed [Int64]. *)
Definition demo_objects : ObjectTypes := {|
  make_concrete := demo_concrete;
  scope := 0;
  is_byref_like := fun _ => false;
  description_of := fun _ => long_desc;
  type_arguments := fun _ => [];
  object_of := fun _ => {| description := long_desc; obj_generics := []; layout_arc := 0; data := []; has_finalizer := false; finalizer_suppressed := false |};
  element_of := fun _ => CT 0 (BPrim Int64);
  type_arity := fun _ => 0%nat;
  corlib_array := Err InvalidHandle;
  corlib_string := Err InvalidHandle;
  is_a := fun s t => Val (bool_decide (ct_source s = ct_source t));
  is_assignable_to := fun _ _ => false;
  concrete_types_equal := fun _ _ => false;
  concrete_is_value := fun _ => true;
  array_interfaces := [];
  alloc_boxed := demo_box;
|}.

Definition one_operand (x : StackValue) (m : mem) : vm :=
  {| context := context_of [set_height (new_frame base0 test_method empty_lookup []) 1] [x] NoException; memory := m;
     thread_gauges := {| RawBlocks.thread_bytes := 0; RawBlocks.live_blocks := 0 |}; static_storage := ∅ |}.
Lemma one_operand_ok x m : has_operands (one_operand x m) [] ([] ++ [x]).
Proof. split; [reflexivity|]. eexists. split; reflexivity. Qed.

Lemma int64_value : value_of Int64 (VT.Int64 5).
Proof. split; [vm_compute; repeat split; discriminate|]. split; [eexists; reflexivity | reflexivity]. Qed.

Lemma box_unbox_roundtrip_witness :
  let w := one_operand (SV.Int64 5) (memory pair_vm) in
  let prog := (fun t => box_instruction (types:=demo_types) (objects:=demo_objects) (reg run_s2) 2 test_runtime 2 t) in
  exists w1 w2, prog (Generics.MBase (BPrim Int64)) w = (Val Continue, w1) /\ heap (memory w1) !! 8 = Some (demo_object [5; 0; 0; 0; 0; 0; 0; 0]) /\
    unbox_any (types:=demo_types) (objects:=demo_objects) (reg run_s2) 2 test_runtime 1 (Generics.MBase (BPrim Int64)) w1 = (Val Continue, w2) /\
    has_operands w2 [] [SV.Int64 5].
Proof.
  intros w prog.
  destruct (box_unbox_roundtrip (types:=demo_types) (objects:=demo_objects) (reg run_s2) 2 test_runtime 0 (Generics.MBase (BPrim Int64)) 0 Int64 long_desc
    (VT.Int64 5) w [] []) as (h & w1 & w2 & H1 & H2 & H3 & H4 & H5).
  - reflexivity.
  - split; try reflexivity; [apply (bool_decide_eq_true_1 _); vm_compute; reflexivity|]. exists 0%nat. split; reflexivity.
  - intros o u Ho. eexists 8, _, _. split; [reflexivity|]. split; [reflexivity|]. split; [cbn; apply lookup_insert_eq|]. split; reflexivity.
  - apply int64_value.
  - apply one_operand_ok.
  - exists w1, w2. split; [exact H1|]. split; [|by split].
    assert (Hw : w1 = snd (prog (Generics.MBase (BPrim Int64)) w)) by (unfold prog; by rewrite H1). rewrite Hw. reflexivity.
Defined.

(** An [Int64] unboxed as an [Int32]. *)
Lemma unbox_any_reinterprets_witness :
  let m := set_heap (memory pair_vm) (<[8 := demo_object [5; 0; 0; 0; 0; 0; 0; 0]]> (heap (memory pair_vm))) in
  fst (unbox_any (types:=demo_types) (objects:=demo_objects) (reg run_s2) 2 test_runtime 1 (Generics.MBase (BPrim Int32)) (one_operand (SV.ObjectRef (Some 8)) m)) = Panic.
Proof.
  intros m.
  refine (unbox_any_reinterprets (types:=demo_types) (objects:=demo_objects) (reg run_s2) 2 test_runtime 0 (Generics.MBase (BPrim Int32)) 0 Int32 4
    (VT.Int64 5) Int64 (one_operand (SV.ObjectRef (Some 8)) m) [] [] 8 _ _ _ _ _ _); try reflexivity.
  - apply int64_value.
  - split; [|split; [reflexivity | apply (bool_decide_eq_true_1 _); vm_compute; reflexivity]].
    exists (demo_object [5; 0; 0; 0; 0; 0; 0; 0]), (demo_layout 0). split; [apply lookup_insert_eq | reflexivity].
  - apply one_operand_ok.
Defined.
