(* ===== verification/ObjectRegistry.v ===== *)
(** * The table of objects of an arena

    [ObjectRegistry] of [dotnet-runtime-memory/src/heap.rs]: the objects of an arena by
    their addresses, with an index of buckets of 64 bytes for the lookup of an address
    within an object.  The [Slab] that keeps the entries is a map and the choice of a free
    key, which is a parameter.

    The table is related to a plain map from addresses to sizes and objects: every
    registration and every pruning of dead objects has the effect it has on the map, and a
    lookup finds an object exactly if one covers the address. *)

From Stdlib Require Import ZArith Lia.
From stdpp Require Import base tactics list list_numbers option gmap fin_maps sets.
From S2P Require Import Prelude ArenaRegistry.

Import Registry.

Definition REGISTRY_BUCKET_SHIFT : Z := 6.

Record RegistryEntry : Set := { entry_start : Z; entry_size : Z; entry_obj : option Z }.

Record ObjectRegistry : Set := {
  entries : gmap nat RegistryEntry;
  start_to_id : gmap Z nat;
  buckets : gmap Z (list nat);
}.

Definition new_registry : ObjectRegistry := {| entries := ∅; start_to_id := ∅; buckets := ∅ |}.

Definition registry_len (r : ObjectRegistry) : nat := size (entries r).

Definition bucket_range (start sz : Z) : list Z :=
  let e := saturate usize (start + Z.max 0 (sz - 1)) in
  let first := Z.shiftr start REGISTRY_BUCKET_SHIFT in
  seqZ first (Z.shiftr e REGISTRY_BUCKET_SHIFT - first + 1).

(** [ids.swap_remove(pos)] for the position of an id. *)
Definition remove_id (ids : list nat) (id : nat) : list nat :=
  match list_find (fun x => x = id) ids with Some (pos, _) => swap_remove ids pos | None => ids end.

Definition remove_from_bucket (id : nat) (bs : gmap Z (list nat)) (b : Z) : gmap Z (list nat) :=
  match bs !! b with
  | None => bs
  | Some ids => if decide (remove_id ids id = []) then delete b bs else <[b := remove_id ids id]> bs
  end.

Definition remove_entry (r : ObjectRegistry) (id : nat) : ObjectRegistry :=
  match entries r !! id with
  | None => r
  | Some e =>
      {| entries := delete id (entries r);
         start_to_id := delete (entry_start e) (start_to_id r);
         buckets := foldl (remove_from_bucket id) (buckets r) (bucket_range (entry_start e) (entry_size e)) |}
  end.

Definition add_to_bucket (id : nat) (bs : gmap Z (list nat)) (b : Z) : gmap Z (list nat) :=
  let ids := default [] (bs !! b) in
  <[b := if decide (id ∈ ids) then ids else ids ++ [id]]> bs.

Definition covers (e : RegistryEntry) (ptr : Z) : bool :=
  (entry_start e <=? ptr) && (ptr <? saturate usize (entry_start e + entry_size e)).

Fixpoint find_in (es : gmap nat RegistryEntry) (ptr : Z) (ids : list nat) : option (option Z) :=
  match ids with
  | [] => None
  | id :: ids =>
      match es !! id with
      | None => find_in es ptr ids
      | Some e => if covers e ptr then Some (entry_obj e) else find_in es ptr ids
      end
  end.

Definition find (r : ObjectRegistry) (ptr : Z) : option (option Z) :=
  match start_to_id r !! ptr ≫= (fun id => entries r !! id) with
  | Some e => Some (entry_obj e)
  | None => buckets r !! Z.shiftr ptr REGISTRY_BUCKET_SHIFT ≫= find_in (entries r) ptr
  end.

(** The entries of dead objects that no finalizer keeps. *)
Definition prunes (dead : Z -> bool) (resurrected : gset Z) (e : RegistryEntry) : bool :=
  match entry_obj e with
  | Some ptr => dead ptr && negb (bool_decide (entry_start e ∈ resurrected))
  | None => true
  end.

Definition prune_dead (dead : Z -> bool) (resurrected : gset Z) (r : ObjectRegistry) : ObjectRegistry :=
  foldl remove_entry r
    (omap (fun x : nat * RegistryEntry => if prunes dead resurrected x.2 then Some x.1 else None) (map_to_list (entries r))).

Section registry.

(** [Slab::insert] stores the entry under a free key. *)
Variable vacant_key : gmap nat RegistryEntry -> nat.

Definition add_entry (r : ObjectRegistry) (e : RegistryEntry) : ObjectRegistry :=
  let id := vacant_key (entries r) in
  {| entries := <[id := e]> (entries r);
     start_to_id := <[entry_start e := id]> (start_to_id r);
     buckets := foldl (add_to_bucket id) (buckets r) (bucket_range (entry_start e) (entry_size e)) |}.

Definition registry_insert (r : ObjectRegistry) (start sz : Z) (obj : option Z) : ObjectRegistry :=
  if sz =? 0 then r
  else
    let r := match start_to_id r !! start with
             | Some existing =>
                 remove_entry {| entries := entries r; start_to_id := delete start (start_to_id r); buckets := buckets r |} existing
             | None => r
             end in
    add_entry r {| entry_start := start; entry_size := sz; entry_obj := obj |}.

(** ** The map the table stands for *)

Abbreviation table := (gmap Z (Z * option Z)).

Definition table_insert (t : table) (start sz : Z) (obj : option Z) : table :=
  if sz =? 0 then t else <[start := (sz, obj)]> t.

Definition table_keeps (dead : Z -> bool) (resurrected : gset Z) (x : Z * (Z * option Z)) : Prop :=
  match x.2.2 with Some ptr => dead ptr = false \/ x.1 ∈ resurrected | None => False end.

#[export] Instance table_keeps_dec dead resurrected x : Decision (table_keeps dead resurrected x).
Proof. unfold table_keeps. destruct x.2.2; apply _. Defined.

Definition table_prune (dead : Z -> bool) (resurrected : gset Z) (t : table) : table :=
  filter (table_keeps dead resurrected) t.

(** The addresses of an object. *)
Definition within (start sz ptr : Z) : Prop := start = ptr \/ start <= ptr < saturate usize (start + sz).

(** ** Buckets *)

Definition at_bucket (bs : gmap Z (list nat)) (b : Z) : list nat := default [] (bs !! b).

Lemma remove_id_perm ids id : NoDup ids ->
  (id ∉ ids /\ remove_id ids id = ids) \/ ids ≡ₚ id :: remove_id ids id.
Proof.
  intros Hn. unfold remove_id. destruct (list_find _ ids) as [[pos y]|] eqn:Hf.
  - apply list_find_Some in Hf as (Hp & -> & _). right. by apply swap_remove_perm.
  - apply list_find_None in Hf. rewrite Forall_forall in Hf. left. split; [|done]. intros H. by apply (Hf id H).
Qed.

Lemma remove_id_spec ids id : NoDup ids -> NoDup (remove_id ids id) /\ forall x, x ∈ remove_id ids id <-> x ∈ ids /\ x <> id.
Proof.
  intros Hn. destruct (remove_id_perm ids id Hn) as [[Hni ->] | Hp]; [naive_solver|].
  assert (Hn' : NoDup (id :: remove_id ids id)) by by rewrite <- Hp. apply NoDup_cons in Hn' as [Hni Hn']. split; [done|].
  intros x. assert (Hx : x ∈ ids <-> x ∈ id :: remove_id ids id) by by rewrite <- Hp. rewrite Hx. set_solver.
Qed.

(** A loop over distinct buckets changes each of them once. *)
Lemma foldl_buckets (f : gmap Z (list nat) -> Z -> gmap Z (list nat)) (F : list nat -> list nat) l bs b' : NoDup l ->
  (forall bs b c, at_bucket (f bs b) c = if decide (c = b) then F (at_bucket bs b) else at_bucket bs c) ->
  at_bucket (foldl f bs l) b' = if decide (b' ∈ l) then F (at_bucket bs b') else at_bucket bs b'.
Proof.
  intros Hn Hf. revert bs. induction l as [|b l IH]; intros bs; [done|]. apply NoDup_cons in Hn as [Hb Hn].
  cbn [foldl]. rewrite IH by done. rewrite Hf. destruct (decide (b' = b)) as [->|Hne].
  - rewrite (decide_False (P := b ∈ l)), (decide_True (P := b ∈ b :: l)) by (done || set_solver). done.
  - destruct (decide (b' ∈ l)); [rewrite (decide_True (P := b' ∈ b :: l)) by set_solver | rewrite (decide_False (P := b' ∈ b :: l)) by set_solver]; done.
Qed.

Lemma remove_from_bucket_at id bs b c :
  at_bucket (remove_from_bucket id bs b) c = if decide (c = b) then remove_id (at_bucket bs b) id else at_bucket bs c.
Proof.
  unfold remove_from_bucket, at_bucket. destruct (bs !! b) as [ids|] eqn:Hb.
  - destruct (decide (remove_id ids id = [])) as [He|He]; destruct (decide (c = b)) as [->|Hc];
      rewrite ?lookup_delete_eq, ?lookup_delete_ne, ?lookup_insert_eq, ?lookup_insert_ne, ?Hb by done; simpl; congruence.
  - destruct (decide (c = b)) as [->|Hc]; [|done]. by rewrite Hb.
Qed.

Lemma add_to_bucket_at id bs b c :
  at_bucket (add_to_bucket id bs b) c =
    if decide (c = b) then (if decide (id ∈ at_bucket bs b) then at_bucket bs b else at_bucket bs b ++ [id]) else at_bucket bs c.
Proof.
  unfold add_to_bucket, at_bucket. destruct (decide (c = b)) as [->|Hc]; [by rewrite lookup_insert_eq | by rewrite lookup_insert_ne].
Qed.

Lemma bucket_range_NoDup s n : NoDup (bucket_range s n).
Proof. apply NoDup_seqZ. Qed.

(** The bucket of an address within an object is one of the object. *)
Lemma covered_bucket s n ptr : 0 <= s -> 0 < n -> s <= ptr < saturate usize (s + n) -> Z.shiftr ptr REGISTRY_BUCKET_SHIFT ∈ bucket_range s n.
Proof.
  intros Hs Hn [H1 H2]. unfold bucket_range. apply elem_of_seqZ.
  assert (Hle : ptr <= saturate usize (s + Z.max 0 (n - 1))) by (unfold saturate in *; int_bounds; lia).
  rewrite !Z.shiftr_div_pow2 by (unfold REGISTRY_BUCKET_SHIFT; lia).
  pose proof (Z.div_le_mono s ptr (2 ^ REGISTRY_BUCKET_SHIFT) ltac:(done) H1).
  pose proof (Z.div_le_mono ptr _ (2 ^ REGISTRY_BUCKET_SHIFT) ltac:(done) Hle). lia.
Qed.
(** ** The invariant *)

Hypothesis vacant : forall es, es !! vacant_key es = None.

Record stands_for (r : ObjectRegistry) (t : table) : Prop := {
  sf_ids : forall s id, start_to_id r !! s = Some id <-> exists e, entries r !! id = Some e /\ entry_start e = s;
  sf_table : forall id e, entries r !! id = Some e -> t !! entry_start e = Some (entry_size e, entry_obj e);
  sf_known : forall s x, t !! s = Some x -> is_Some (start_to_id r !! s);
  sf_size : size (entries r) = size t;
  sf_range : forall id e, entries r !! id = Some e -> 0 <= entry_start e /\ 0 < entry_size e;
  sf_distinct : forall b, NoDup (at_bucket (buckets r) b);
  sf_buckets : forall b id, id ∈ at_bucket (buckets r) b <->
    exists e, entries r !! id = Some e /\ b ∈ bucket_range (entry_start e) (entry_size e);
}.

Lemma stands_for_new : stands_for new_registry ∅.
Proof.
  split; cbn; try done.
  - intros s id. rewrite lookup_empty. split; [done|]. intros (e & He & _). by rewrite lookup_empty in He.
  - intros b. unfold at_bucket. rewrite lookup_empty. constructor.
  - intros b id. unfold at_bucket. rewrite lookup_empty. split; [by intros ?%elem_of_nil|]. intros (e & He & _). by rewrite lookup_empty in He.
Qed.

(** Distinct entries have distinct addresses. *)
Lemma same_start r t id id' e e' : stands_for r t -> entries r !! id = Some e -> entries r !! id' = Some e' ->
  entry_start e = entry_start e' -> id = id'.
Proof.
  intros H He He' Hs. assert (H1 : start_to_id r !! entry_start e = Some id) by (apply (sf_ids _ _ H); eauto).
  assert (H2 : start_to_id r !! entry_start e = Some id') by (apply (sf_ids _ _ H); eauto). congruence.
Qed.

Lemma remove_entry_stands r t id e : stands_for r t -> entries r !! id = Some e -> stands_for (remove_entry r id) (delete (entry_start e) t).
Proof.
  intros H He. unfold remove_entry. rewrite He.
  assert (Hother : forall id' e', delete id (entries r) !! id' = Some e' <-> id' <> id /\ entries r !! id' = Some e').
  { intros id' e'. rewrite lookup_delete_Some. naive_solver. }
  assert (Hat : forall b, at_bucket (foldl (remove_from_bucket id) (buckets r) (bucket_range (entry_start e) (entry_size e))) b =
    if decide (b ∈ bucket_range (entry_start e) (entry_size e)) then remove_id (at_bucket (buckets r) b) id else at_bucket (buckets r) b).
  { intros b. apply (foldl_buckets _ (fun ids => remove_id ids id)); [apply bucket_range_NoDup | intros; apply remove_from_bucket_at]. }
  split; cbn [entries start_to_id buckets].
  - intros s id'. rewrite lookup_delete_Some, (sf_ids _ _ H). setoid_rewrite Hother. split.
    + intros (Hs & e' & He' & <-). exists e'. split; [|done]. split; [|done]. intros ->. congruence.
    + intros (e' & [Hne He'] & <-). split; [|eauto]. intros Heq. apply Hne. by eapply same_start.
  - intros id' e' [Hne He']%Hother. rewrite lookup_delete_ne; [by eapply sf_table|]. intros Heq. apply Hne. by eapply same_start.
  - intros s x [Hs Hx]%lookup_delete_Some. rewrite lookup_delete_ne by done. by eapply sf_known.
  - rewrite !map_size_delete, He, (sf_size _ _ H). by rewrite (sf_table _ _ H _ _ He).
  - intros id' e' [_ He']%Hother. by eapply sf_range.
  - intros b. rewrite Hat. pose proof (sf_distinct _ _ H b). case_decide; [by apply remove_id_spec | done].
  - intros b id'. rewrite Hat. setoid_rewrite Hother. pose proof (sf_distinct _ _ H b) as Hn. case_decide as Hb.
    + rewrite (proj2 (remove_id_spec _ id Hn)), (sf_buckets _ _ H). naive_solver.
    + rewrite (sf_buckets _ _ H). naive_solver.
Qed.

Lemma add_entry_stands r t e : stands_for r t -> t !! entry_start e = None -> 0 <= entry_start e -> 0 < entry_size e ->
  stands_for (add_entry r e) (<[entry_start e := (entry_size e, entry_obj e)]> t).
Proof.
  intros H Hnew Hs Hn. unfold add_entry. set (id := vacant_key (entries r)). pose proof (vacant (entries r)) as Hv. fold id in Hv.
  assert (Hfresh : forall id' e', entries r !! id' = Some e' -> id' <> id /\ entry_start e' <> entry_start e).
  { intros id' e' He'. split; [congruence|]. intros Heq. pose proof (sf_table _ _ H _ _ He'). congruence. }
  assert (Hall : forall id' e', <[id := e]> (entries r) !! id' = Some e' <-> (id' = id /\ e' = e) \/ entries r !! id' = Some e').
  { intros id' e'. rewrite lookup_insert_Some. split; [naive_solver|]. intros [[-> ->]|He']; [by left|]. right. split; [|done]. intros <-. by apply Hfresh in He' as []. }
  assert (Hat : forall b, at_bucket (foldl (add_to_bucket id) (buckets r) (bucket_range (entry_start e) (entry_size e))) b =
    if decide (b ∈ bucket_range (entry_start e) (entry_size e)) then at_bucket (buckets r) b ++ [id] else at_bucket (buckets r) b).
  { intros b. rewrite (foldl_buckets _ (fun ids => if decide (id ∈ ids) then ids else ids ++ [id]));
      [|apply bucket_range_NoDup | intros; apply add_to_bucket_at].
    rewrite (decide_False (P := id ∈ _)); [done|]. intros (e' & He' & _)%(sf_buckets _ _ H). by apply Hfresh in He' as []. }
  split; cbn [entries start_to_id buckets].
  - intros s id'. rewrite lookup_insert_Some, (sf_ids _ _ H). setoid_rewrite Hall. split.
    + intros [[<- <-]|(Hne & e' & He' & <-)]; eauto.
    + intros (e' & [[-> ->]|He'] & <-); [by left|]. right. split; [|eauto]. by apply Hfresh in He' as [_ Hne].
  - intros id' e' [[-> ->]|He']%Hall; [by rewrite lookup_insert_eq|]. rewrite lookup_insert_ne; [by eapply sf_table|]. by apply Hfresh in He' as [_ Hne].
  - intros s x. rewrite lookup_insert_Some. intros [[<- _]|[Hne Hx]]; [rewrite lookup_insert_eq; eauto|]. rewrite lookup_insert_ne by done. by eapply sf_known.
  - rewrite !map_size_insert, Hv, Hnew, (sf_size _ _ H). done.
  - intros id' e' [[-> ->]|He']%Hall; [done | by eapply sf_range].
  - intros b. rewrite Hat. pose proof (sf_distinct _ _ H b). case_decide; [|done]. apply NoDup_app. split_and!; [done | | apply NoDup_singleton].
    intros x Hx ->%list_elem_of_singleton. apply (sf_buckets _ _ H) in Hx as (e' & He' & _). by apply Hfresh in He' as [].
  - intros b id'. rewrite Hat. setoid_rewrite Hall. case_decide as Hb.
    + rewrite elem_of_app, list_elem_of_singleton, (sf_buckets _ _ H). naive_solver.
    + rewrite (sf_buckets _ _ H). naive_solver.
Qed.

Lemma insert_stands r t s n o : stands_for r t -> 0 <= s -> 0 <= n -> stands_for (registry_insert r s n o) (table_insert t s n o).
Proof.
  intros H Hs Hn. unfold registry_insert, table_insert. destruct (Z.eqb_spec n 0) as [->|Hz]; [done|].
  destruct (start_to_id r !! s) as [id|] eqn:Hid.
  - apply (sf_ids _ _ H) in Hid as (e & He & <-). pose proof (remove_entry_stands _ _ _ _ H He) as H'.
    unfold remove_entry in *. rewrite He in H'. cbn [entries start_to_id buckets]. rewrite He, delete_delete_eq.
    replace (<[entry_start e := (n, o)]> t) with (<[entry_start e := (n, o)]> (delete (entry_start e) t)) by apply insert_delete_eq.
    apply (add_entry_stands _ _ {| entry_start := entry_start e; entry_size := n; entry_obj := o |} H'); [apply lookup_delete_eq | done | cbn; lia].
  - apply (add_entry_stands _ _ {| entry_start := s; entry_size := n; entry_obj := o |} H); [|done | cbn; lia].
    cbn. destruct (t !! s) eqn:Ht; [|done]. apply (sf_known _ _ H) in Ht as [? ?]. congruence.
Qed.

(** ** Pruning *)

Lemma foldr_delete_lookup (t : table) (l : list Z) s : foldr delete t l !! s = if decide (s ∈ l) then None else t !! s.
Proof.
  induction l as [|a l IH]; [done|]. cbn [foldr]. destruct (decide (s = a)) as [->|Hne].
  - rewrite lookup_delete_eq, decide_True by set_solver. done.
  - rewrite lookup_delete_ne, IH by done. destruct (decide (s ∈ l)); [rewrite decide_True | rewrite decide_False]; set_solver.
Qed.

Lemma remove_entry_other r id id' : id' <> id -> entries (remove_entry r id) !! id' = entries r !! id'.
Proof. intros Hne. unfold remove_entry. destruct (entries r !! id); [|done]. cbn. by rewrite lookup_delete_ne. Qed.

Lemma remove_entries_stand ids r t : NoDup ids -> stands_for r t -> (forall id, id ∈ ids -> is_Some (entries r !! id)) ->
  exists l, stands_for (foldl remove_entry r ids) (foldr delete t l) /\
    forall s, s ∈ l <-> exists id e, id ∈ ids /\ entries r !! id = Some e /\ entry_start e = s.
Proof.
  revert r t. induction ids as [|id ids IH]; intros r t Hn H Hall.
  - exists []. split; [done|]. intros s. split; [by intros ?%elem_of_nil|]. intros (id & e & Hid & _). by apply elem_of_nil in Hid.
  - apply NoDup_cons in Hn as [Hid Hn]. destruct (Hall id ltac:(set_solver)) as [e He].
    destruct (IH _ _ Hn (remove_entry_stands _ _ _ _ H He)) as (l & Hl & Hs).
    { intros id' Hid'. rewrite remove_entry_other by set_solver. apply Hall. set_solver. }
    exists (l ++ [entry_start e]). rewrite foldr_app. split; [done|]. intros s. rewrite elem_of_app, list_elem_of_singleton, Hs. split.
    + intros [(id' & e' & Hid' & He' & <-) | ->]; [|exists id, e; set_solver]. rewrite remove_entry_other in He' by set_solver. exists id', e'. set_solver.
    + intros (id' & e' & [->|Hid']%elem_of_cons & He' & <-); [right; congruence|]. left. exists id', e'. rewrite remove_entry_other by set_solver. done.
Qed.

Lemma pruned_ids dead res r : let ids := omap (fun x : nat * RegistryEntry => if prunes dead res x.2 then Some x.1 else None) (map_to_list (entries r)) in
  NoDup ids /\ forall id, id ∈ ids <-> exists e, entries r !! id = Some e /\ prunes dead res e = true.
Proof.
  split.
  - pose proof (NoDup_fst_map_to_list (entries r)) as Hn. induction (map_to_list (entries r)) as [|[id e] l IH]; [constructor|].
    apply NoDup_cons in Hn as [Hid Hn]. cbn [omap list_omap]. destruct (prunes dead res (id, e).2); [|by apply IH].
    constructor; [|by apply IH]. rewrite list_elem_of_omap. intros ([id' e'] & Hin & Hp). destruct (prunes _ _ _); [|done].
    injection Hp as ->. apply Hid. by apply (list_elem_of_fmap_2 fst) in Hin.
  - intros id. rewrite list_elem_of_omap. split.
    + intros ([id' e] & Hin%elem_of_map_to_list & Hp). cbn [fst snd] in Hp. destruct (prunes dead res e) eqn:He; [|done]. injection Hp as ->. eauto.
    + intros (e & He & Hp). exists (id, e). rewrite elem_of_map_to_list. cbn [fst snd]. by rewrite Hp.
Qed.

Lemma prunes_keeps dead res e : prunes dead res e = true <-> ~ table_keeps dead res (entry_start e, (entry_size e, entry_obj e)).
Proof.
  unfold prunes, table_keeps. cbn. destruct (entry_obj e) as [p|]; [|naive_solver]. destruct (dead p); cbn.
  - case_bool_decide; cbn; naive_solver.
  - naive_solver.
Qed.

Lemma prune_stands dead res r t : stands_for r t -> stands_for (prune_dead dead res r) (table_prune dead res t).
Proof.
  intros H. unfold prune_dead. destruct (pruned_ids dead res r) as [Hn Hids].
  destruct (remove_entries_stand _ r t Hn H) as (l & Hl & Hs).
  { intros id (e & He & _)%Hids. eauto. }
  replace (table_prune dead res t) with (foldr delete t l); [done|]. apply map_eq. intros s. rewrite foldr_delete_lookup. unfold table_prune.
  destruct (t !! s) as [[n o]|] eqn:Ht.
  2:{ rewrite (proj2 (map_lookup_filter_None _ _ _)) by (by left). by case_decide. }
  destruct (sf_known _ _ H _ _ Ht) as [id (e & He & <-)%(sf_ids _ _ H)]. pose proof (sf_table _ _ H _ _ He) as Hte.
  rewrite Ht in Hte. injection Hte as -> ->.
  destruct (decide (entry_start e ∈ l)) as [Hin|Hin].
  - symmetry. apply map_lookup_filter_None. right. intros x Hx. rewrite Ht in Hx. injection Hx as <-.
    apply Hs in Hin as (id' & e' & (e'' & He'' & Hp)%Hids & He' & Heq). assert (id' = id) as -> by exact (same_start r t id' id e' e H He' He Heq).
    rewrite He in He''. injection He'' as <-. by apply prunes_keeps in Hp.
  - symmetry. apply map_lookup_filter_Some. split; [done|]. destruct (prunes dead res e) eqn:Hp.
    + destruct Hin. apply Hs. exists id, e. split; [|done]. apply Hids. eauto.
    + destruct (decide (table_keeps dead res (entry_start e, (entry_size e, entry_obj e)))) as [|Hk]; [done|]. apply prunes_keeps in Hk. congruence.
Qed.

(** ** Lookup *)

Lemma find_in_some es ptr ids o : find_in es ptr ids = Some o -> exists id e, id ∈ ids /\ es !! id = Some e /\ covers e ptr = true /\ entry_obj e = o.
Proof.
  induction ids as [|id ids IH]; [done|]. cbn [find_in]. destruct (es !! id) as [e|] eqn:He; [destruct (covers e ptr) eqn:Hc|].
  - intros [= <-]. exists id, e. set_solver.
  - intros (id' & e' & ? & ?)%IH. exists id', e'. set_solver.
  - intros (id' & e' & ? & ?)%IH. exists id', e'. set_solver.
Qed.

Lemma find_in_none es ptr ids : find_in es ptr ids = None -> forall id e, id ∈ ids -> es !! id = Some e -> covers e ptr = false.
Proof.
  induction ids as [|id ids IH]; intros Hf id' e' Hid' He'; [by apply elem_of_nil in Hid'|]. cbn [find_in] in Hf.
  apply elem_of_cons in Hid' as [-> | Hid'].
  - rewrite He' in Hf. by destruct (covers e' ptr).
  - destruct (es !! id) as [e|]; [destruct (covers e ptr); [done|]|]; by eapply IH.
Qed.

Lemma covers_spec e ptr : covers e ptr = true <-> entry_start e <= ptr < saturate usize (entry_start e + entry_size e).
Proof. unfold covers. rewrite andb_true_iff, Z.leb_le, Z.ltb_lt. done. Qed.

(** What a lookup answers, by the map. *)
Lemma find_stands r t ptr : stands_for r t ->
  match find r ptr with
  | Some o => exists s n, t !! s = Some (n, o) /\ within s n ptr /\ (is_Some (t !! ptr) -> s = ptr)
  | None => forall s n o, t !! s = Some (n, o) -> ~ within s n ptr
  end.
Proof.
  intros H. unfold find. destruct (start_to_id r !! ptr) as [id|] eqn:Hid.
  - apply (sf_ids _ _ H) in Hid as (e & He & Hs). cbn [mbind option_bind]. rewrite He. exists (entry_start e), (entry_size e).
    split; [by apply (sf_table _ _ H id)|]. split; [by left | done].
  - cbn [mbind option_bind].
    assert (Hno : t !! ptr = None). { destruct (t !! ptr) eqn:Ht; [|done]. apply (sf_known _ _ H) in Ht as [? ?]. congruence. }
    assert (Hin : forall id e, entries r !! id = Some e -> covers e ptr = true -> id ∈ at_bucket (buckets r) (Z.shiftr ptr REGISTRY_BUCKET_SHIFT)).
    { intros id e He Hc%covers_spec. apply (sf_buckets _ _ H). exists e. split; [done|]. destruct (sf_range _ _ H _ _ He). by apply covered_bucket. }
    assert (Hf : (buckets r !! Z.shiftr ptr REGISTRY_BUCKET_SHIFT ≫= find_in (entries r) ptr) =
      find_in (entries r) ptr (at_bucket (buckets r) (Z.shiftr ptr REGISTRY_BUCKET_SHIFT))).
    { unfold at_bucket. by destruct (buckets r !! _). }
    cbn [mbind option_bind] in Hf. rewrite Hf. destruct (find_in _ _ _) as [o|] eqn:Hfi.
    + apply find_in_some in Hfi as (id & e & _ & He & Hc & <-). exists (entry_start e), (entry_size e).
      split; [by apply (sf_table _ _ H id)|]. split; [right; by apply covers_spec|]. rewrite Hno. by intros [? [=]].
    + intros s n o Ht [-> | Hw]; [congruence|]. destruct (sf_known _ _ H _ _ Ht) as [id (e & He & <-)%(sf_ids _ _ H)].
      pose proof (sf_table _ _ H _ _ He) as Hte. rewrite Ht in Hte. injection Hte as -> ->.
      assert (Hc : covers e ptr = true) by by apply covers_spec. rewrite (find_in_none _ _ _ Hfi id e) in Hc; [done | by apply (Hin id e) | done].
Qed.

(** ** Histories *)

Inductive registry_event : Type :=
| Register (start sz : Z) (obj : option Z)
| Prune (dead : Z -> bool) (resurrected : gset Z).

Definition registry_step (r : ObjectRegistry) (ev : registry_event) : ObjectRegistry :=
  match ev with
  | Register s n o => registry_insert r s n o
  | Prune dead res => prune_dead dead res r
  end.

Definition table_step (t : table) (ev : registry_event) : table :=
  match ev with
  | Register s n o => table_insert t s n o
  | Prune dead res => table_prune dead res t
  end.

Definition event_ok (ev : registry_event) : Prop :=
  match ev with Register s n _ => is_range usize s /\ is_range usize n | Prune _ _ => True end.

(** C15. Whatever was registered and pruned before, the table of objects stands for the
    plain map of the registered objects: it has as many entries, a lookup finds an object
    only if the address lies within the object, the object at the address if there is
    one, and it finds nothing only if the address lies within no object. *)
Theorem object_table_exact evs ptr : Forall event_ok evs ->
  let r := foldl registry_step new_registry evs in
  let t := foldl table_step ∅ evs in
  registry_len r = size t /\
  match find r ptr with
  | Some o => exists s n, t !! s = Some (n, o) /\ within s n ptr /\ (is_Some (t !! ptr) -> s = ptr)
  | None => forall s n o, t !! s = Some (n, o) -> ~ within s n ptr
  end.
Proof.
  intros Hok r t. assert (H : stands_for r t).
  { unfold r, t. generalize stands_for_new. generalize new_registry (∅ : table). induction Hok as [|ev evs Hev Hok IH]; [done|].
    intros r0 t0 H0. cbn [foldl]. apply IH. destruct ev as [s n o | dead res]; cbn [registry_step table_step].
    - destruct Hev as [Hs Hn]. apply insert_stands; [done | int_bounds; lia | int_bounds; lia].
    - by apply prune_stands. }
  split; [apply (sf_size _ _ H) | by apply find_stands].
Qed.
End registry.

(** ** An instance *)

Definition first_free (es : gmap nat RegistryEntry) : nat := fresh (elements (dom es)).

(** An object registered at 100 and one at 4096; the first dies. *)
Definition registry_demo : list registry_event :=
  [Register 100 40 (Some 100); Register 4096 64 (Some 4096); Prune (fun p => p =? 100) ∅].

Lemma object_table_exact_witness :
  find (foldl (registry_step first_free) new_registry registry_demo) 4100 = Some (Some 4096) /\
  find (foldl (registry_step first_free) new_registry registry_demo) 120 = None.
Proof.
  assert (Hv : forall es, es !! first_free es = None).
  { intros es. apply not_elem_of_dom. rewrite <- elem_of_elements. apply infinite_is_fresh. }
  assert (Hok : Forall event_ok registry_demo) by (repeat constructor; vm_compute; discriminate).
  destruct (object_table_exact first_free Hv registry_demo 4100 Hok) as [_ H].
  split; [|vm_compute; reflexivity].
  destruct (find _ 4100) as [o|].
  - destruct H as (s & n & Ht & _ & _). apply elem_of_map_to_list in Ht.
    change (map_to_list _) with [(4096, (64, Some 4096))] in Ht. by apply list_elem_of_singleton in Ht as [= -> -> ->].
  - exfalso. apply (H 4096 64 (Some 4096)); [vm_compute; reflexivity|]. right. vm_compute. split; [discriminate | reflexivity].
Defined.
