(* ===== verification/Finalization.v ===== *)
(** * Handles and finalization

    The heap manager of an arena ([dotnet-runtime-memory/src/heap.rs]): the queues of
    objects with finalizers, the handles and pinned objects, what the collector traces
    through it and what [finalize_check] does between marking and sweeping; with the
    resurrection of what a finalizer may still use ([ObjectRef::resurrect] of
    [dotnet-value/src/object/mod.rs]) and the functions of the class library that
    allocate, read and free handles ([dotnet-vm/src/intrinsics/gc.rs]), on the arguments
    they take from the stack.

    An object is seen as the collector sees it: its storage kind, the references it holds
    in the order of its fields, and its flags.  The collector itself is the [gc_arena]
    library: [marked] is the set of the objects it has marked when [finalize_check] runs
    ([Gc::is_dead] is true of the others, [Gc::resurrect] adds to it), and a sweep frees
    what is not marked. *)

From Stdlib Require Import ZArith Lia.
From stdpp Require Import base tactics list list_numbers option gmap fin_maps sets.
From S2P Require Import Prelude ArenaRegistry ObjectRegistry.

Import Registry.

(** ** State *)

Inductive GCHandleType : Set := Weak | WeakTrackResurrection | Normal | Pinned.

#[export] Instance GCHandleType_eq_dec : EqDecision GCHandleType.
Proof. solve_decision. Defined.

Definition handle_type_from {E} (i : Z) : outcome E GCHandleType :=
  if i =? 0 then Val Weak
  else if i =? 1 then Val WeakTrackResurrection
  else if i =? 2 then Val Normal
  else if i =? 3 then Val Pinned
  else Panic.

Inductive storage_kind : Set := KVec | KObj | KStr | KBoxed.

Record heap_object : Set := {
  kind : storage_kind;
  references : list (option Z);
  has_finalizer : bool;
  finalizer_suppressed : bool;
  object_size : Z;
  (** [validate_resurrection_invariants]: the storage has the size of its layout *)
  well_sized : bool;
}.

Abbreviation objects := (gmap Z heap_object).

Record HeapManager : Set := {
  finalization_queue : list (option Z);
  pending_finalization : list (option Z);
  pinned_objects : list (option Z);
  gchandles : list (option (option Z * GCHandleType));
  dependent_handles : list (option (option Z * option Z));
  cross_arena_roots : gset Z;
  object_registry : ObjectRegistry;
}.

Definition new_manager : HeapManager :=
  {| finalization_queue := []; pending_finalization := []; pinned_objects := []; gchandles := []; dependent_handles := [];
     cross_arena_roots := ∅; object_registry := new_registry |}.

Definition set_queue (hm : HeapManager) (q : list (option Z)) : HeapManager :=
  {| finalization_queue := q; pending_finalization := pending_finalization hm; pinned_objects := pinned_objects hm;
     gchandles := gchandles hm; dependent_handles := dependent_handles hm; cross_arena_roots := cross_arena_roots hm;
     object_registry := object_registry hm |}.

Definition set_pending (hm : HeapManager) (q : list (option Z)) : HeapManager :=
  {| finalization_queue := finalization_queue hm; pending_finalization := q; pinned_objects := pinned_objects hm;
     gchandles := gchandles hm; dependent_handles := dependent_handles hm; cross_arena_roots := cross_arena_roots hm;
     object_registry := object_registry hm |}.

Definition set_pinned (hm : HeapManager) (l : list (option Z)) : HeapManager :=
  {| finalization_queue := finalization_queue hm; pending_finalization := pending_finalization hm; pinned_objects := l;
     gchandles := gchandles hm; dependent_handles := dependent_handles hm; cross_arena_roots := cross_arena_roots hm;
     object_registry := object_registry hm |}.

Definition set_handles (hm : HeapManager) (l : list (option (option Z * GCHandleType))) : HeapManager :=
  {| finalization_queue := finalization_queue hm; pending_finalization := pending_finalization hm; pinned_objects := pinned_objects hm;
     gchandles := l; dependent_handles := dependent_handles hm; cross_arena_roots := cross_arena_roots hm;
     object_registry := object_registry hm |}.

Definition set_dependents (hm : HeapManager) (l : list (option (option Z * option Z))) : HeapManager :=
  {| finalization_queue := finalization_queue hm; pending_finalization := pending_finalization hm; pinned_objects := pinned_objects hm;
     gchandles := gchandles hm; dependent_handles := l; cross_arena_roots := cross_arena_roots hm;
     object_registry := object_registry hm |}.

Definition set_roots (hm : HeapManager) (s : gset Z) : HeapManager :=
  {| finalization_queue := finalization_queue hm; pending_finalization := pending_finalization hm; pinned_objects := pinned_objects hm;
     gchandles := gchandles hm; dependent_handles := dependent_handles hm; cross_arena_roots := s;
     object_registry := object_registry hm |}.

Definition set_registry (hm : HeapManager) (r : ObjectRegistry) : HeapManager :=
  {| finalization_queue := finalization_queue hm; pending_finalization := pending_finalization hm; pinned_objects := pinned_objects hm;
     gchandles := gchandles hm; dependent_handles := dependent_handles hm; cross_arena_roots := cross_arena_roots hm;
     object_registry := r |}.

(** A read through a reference to an object that has been freed. *)
Inductive gc_fault : Set := Dangling.

Section manager.
Variable vacant_key : gmap nat RegistryEntry -> nat.

(** ** Objects *)

Definition register_object (hs : objects) (instance : option Z) (hm : HeapManager) : outcome gc_fault HeapManager :=
  match instance with
  | None => Val hm
  | Some ptr =>
      let* o := ok_or (hs !! ptr) Dangling in
      Val (set_registry hm (registry_insert vacant_key (object_registry hm) ptr (object_size o) instance))
  end.

Definition register_new_object (hs : objects) (instance : option Z) (hm : HeapManager) : outcome gc_fault HeapManager :=
  match instance with
  | None => Val hm
  | Some ptr =>
      let* hm := register_object hs instance hm in
      let* o := ok_or (hs !! ptr) Dangling in
      match kind o with
      | KObj => Val (if has_finalizer o then set_queue hm (finalization_queue hm ++ [instance]) else hm)
      | _ => Val hm
      end
  end.

Definition find_object (hm : HeapManager) (ptr : Z) : option (option Z) := find (object_registry hm) ptr.

Definition pin_object (object : option Z) (hm : HeapManager) : HeapManager :=
  if decide (object ∈ pinned_objects hm) then hm else set_pinned hm (pinned_objects hm ++ [object]).

Definition unpin_object (object : option Z) (hm : HeapManager) : HeapManager :=
  match list_find (fun o => o = object) (pinned_objects hm) with
  | Some (i, _) => set_pinned hm (swap_remove (pinned_objects hm) i)
  | None => hm
  end.

(** [GC.SuppressFinalize] and [GC.ReRegisterForFinalize] *)
Definition set_suppressed (o : heap_object) (b : bool) : heap_object :=
  {| kind := kind o; references := references o; has_finalizer := has_finalizer o; finalizer_suppressed := b;
     object_size := object_size o; well_sized := well_sized o |}.

Definition suppress_finalize (obj : option Z) (hs : objects) : outcome gc_fault objects :=
  match obj with
  | None => Val hs
  | Some h =>
      let* o := ok_or (hs !! h) Dangling in
      Val (match kind o with KObj => <[h := set_suppressed o true]> hs | _ => hs end)
  end.

Definition reregister_for_finalize (obj : option Z) (hs : objects) (hm : HeapManager) : outcome gc_fault (objects * HeapManager) :=
  match obj with
  | None => Val (hs, hm)
  | Some h =>
      let* o := ok_or (hs !! h) Dangling in
      match kind o with
      | KObj =>
          Val (<[h := set_suppressed o false]> hs,
               if decide (obj ∈ finalization_queue hm) then hm else set_queue hm (finalization_queue hm ++ [obj]))
      | _ => Val (hs, hm)
      end
  end.

(** ** Handles *)

Definition alloc_or_reuse_slot {T} (handles : list (option T)) (value : T) : nat * list (option T) :=
  match list_find (fun h : option T => h = None) handles with
  | Some (i, _) => (i, <[i := Some value]> handles)
  | None => (length handles, handles ++ [Some value])
  end.

Definition gchandle_alloc (obj : option Z) (handle_type : Z) (hm : HeapManager) : outcome gc_fault (Z * HeapManager) :=
  let* t := handle_type_from handle_type in
  let '(index, hs) := alloc_or_reuse_slot (gchandles hm) (obj, t) in
  let hm := set_handles hm hs in
  let hm := if decide (t = Pinned) then pin_object obj hm else hm in
  Val (Z.of_nat index + 1, hm).

(** [(handle - 1) as usize]; the subtraction can overflow. *)
Definition slot_index {E} (handle : Z) : outcome E nat :=
  let* i := arith isize (handle - 1) in Val (Z.to_nat (wrap usize i)).

Definition slot {T} (handles : list (option T)) (index : nat) : option T :=
  match handles !! index with Some x => x | None => None end.

Definition gchandle_free (handle : Z) (hm : HeapManager) : outcome gc_fault HeapManager :=
  if handle =? 0 then Val hm
  else
    let* index := slot_index handle in
    if decide (index < length (gchandles hm))%nat then
      let hm := match slot (gchandles hm) index with
                | Some (obj, t) => if decide (t = Pinned) then unpin_object obj hm else hm
                | None => hm
                end in
      Val (set_handles hm (<[index := None]> (gchandles hm)))
    else Val hm.

Definition gchandle_get (handle : Z) (hm : HeapManager) : outcome gc_fault (option Z) :=
  if handle =? 0 then Val None
  else
    let* index := slot_index handle in
    Val (match slot (gchandles hm) index with Some (obj, _) => obj | None => None end).

Definition gchandle_set (handle : Z) (obj : option Z) (hm : HeapManager) : outcome gc_fault HeapManager :=
  if handle =? 0 then Val hm
  else
    let* index := slot_index handle in
    match slot (gchandles hm) index with
    | Some (old, t) =>
        let hm := if decide (t = Pinned) then pin_object obj (unpin_object old hm) else hm in
        Val (set_handles hm (<[index := Some (obj, t)]> (gchandles hm)))
    | None => Val hm
    end.

Definition dependent_alloc (target dependent : option Z) (hm : HeapManager) : Z * HeapManager :=
  let '(index, hs) := alloc_or_reuse_slot (dependent_handles hm) (target, dependent) in
  (Z.of_nat index + 1, set_dependents hm hs).

Definition dependent_entry (handle : Z) (hm : HeapManager) : outcome gc_fault (option Z * option Z) :=
  if handle =? 0 then Val (None, None)
  else
    let* index := slot_index handle in
    Val (default (None, None) (slot (dependent_handles hm) index)).

Definition dependent_get (handle : Z) (hm : HeapManager) : outcome gc_fault (option Z) :=
  let* (_, dependent) := dependent_entry handle hm in Val dependent.

Definition dependent_update (handle : Z) (f : option Z * option Z -> option (option Z * option Z)) (hm : HeapManager)
  : outcome gc_fault HeapManager :=
  if handle =? 0 then Val hm
  else
    let* index := slot_index handle in
    match slot (dependent_handles hm) index with
    | Some x => Val (set_dependents hm (<[index := f x]> (dependent_handles hm)))
    | None => Val hm
    end.

Definition dependent_set (handle : Z) (dependent : option Z) : HeapManager -> outcome gc_fault HeapManager :=
  dependent_update handle (fun x => Some (x.1, dependent)).
Definition dependent_clear (handle : Z) : HeapManager -> outcome gc_fault HeapManager :=
  dependent_update handle (fun _ => Some (None, None)).
Definition dependent_free (handle : Z) : HeapManager -> outcome gc_fault HeapManager :=
  dependent_update handle (fun _ => None).

(** ** Resurrection *)

(** [ObjectRef::resurrect] at a depth of [1001 - levels]: a depth of more than 1000 panics,
    also of a null reference.  [visited] is the set of the objects resurrected so far. *)
Fixpoint resurrect (hs : objects) (levels : nat) (visited : gset Z) (obj : option Z) : outcome gc_fault (gset Z) :=
  match levels with
  | O => Panic
  | S levels =>
      match obj with
      | None => Val visited
      | Some h =>
          if decide (h ∈ visited) then Val visited
          else
            let* o := ok_or (hs !! h) Dangling in
            if negb (well_sized o) then Panic
            else ofold (resurrect hs levels) ({[h]} ∪ visited) (references o)
      end
  end.

(** ** [finalize_check] *)

Section check.
Variable hs : objects.
Variable marked : gset Z.

Definition is_dead (resurrected : gset Z) (ptr : Z) : bool := bool_decide (ptr ∉ marked ∪ resurrected).

Definition zero_out_handle (for_type : GCHandleType) (resurrected : gset Z) (entry : option (option Z * GCHandleType))
  : option (option Z * GCHandleType) :=
  match entry with
  | Some (Some ptr, t) =>
      if decide (t = for_type) then
        if is_dead resurrected ptr then
          if decide (for_type = WeakTrackResurrection /\ ptr ∈ resurrected) then entry else Some (None, t)
        else entry
      else entry
  | _ => entry
  end.

Definition zero_out_handles (for_type : GCHandleType) (resurrected : gset Z) (handles : list (option (option Z * GCHandleType)))
  : list (option (option Z * GCHandleType)) := zero_out_handle for_type resurrected <$> handles.

Definition is_suppressed (o : heap_object) : bool := match kind o with KObj => finalizer_suppressed o | _ => false end.

(** The loop over the queue: each round removes an entry or goes on to the next. *)
Fixpoint scan_queue (rounds i : nat) (queue to_finalize : list (option Z)) : outcome gc_fault (list (option Z) * list (option Z)) :=
  match rounds with
  | O => Val (queue, to_finalize)
  | S rounds =>
      match queue !! i with
      | None => Val (queue, to_finalize)
      | Some obj =>
          let* ptr := expect obj in
          let* o := ok_or (hs !! ptr) Dangling in
          if is_suppressed o then scan_queue rounds i (swap_remove queue i) to_finalize
          else if is_dead ∅ ptr then scan_queue rounds i (swap_remove queue i) (to_finalize ++ [obj])
          else scan_queue rounds (S i) queue to_finalize
      end
  end.

(** One object goes to the pending queue, and what it refers to is resurrected with it. *)
Definition finalize_one (st : list (option Z) * gset Z) (obj : option Z) : outcome gc_fault (list (option Z) * gset Z) :=
  let '(pending, resurrected) := st in
  let* ptr := expect obj in
  let pending := pending ++ [obj] in
  if decide (ptr ∈ resurrected) then Val (pending, resurrected)
  else
    let* o := ok_or (hs !! ptr) Dangling in
    let* resurrected := ofold (resurrect hs 1001) ({[ptr]} ∪ resurrected) (references o) in
    Val (pending, resurrected).

Definition finalize_check (hm : HeapManager) : outcome gc_fault (HeapManager * gset Z) :=
  let* (queue, to_finalize) := scan_queue (length (finalization_queue hm)) 0 (finalization_queue hm) [] in
  let handles := zero_out_handles Weak ∅ (gchandles hm) in
  let* (pending, resurrected) := ofold finalize_one (pending_finalization hm, ∅) to_finalize in
  let handles := zero_out_handles WeakTrackResurrection resurrected handles in
  Val ({| finalization_queue := queue; pending_finalization := pending; pinned_objects := pinned_objects hm;
          gchandles := handles; dependent_handles := dependent_handles hm; cross_arena_roots := cross_arena_roots hm;
          object_registry := prune_dead (is_dead resurrected) resurrected (object_registry hm) |}, resurrected).
End check.

(** What the collector traces through the manager. *)
Definition traced_handle (entry : option (option Z * GCHandleType)) : list (option Z) :=
  match entry with
  | Some (obj, Normal) | Some (obj, Pinned) => [obj]
  | _ => []
  end.

Definition trace (hm : HeapManager) : list (option Z) :=
  (gchandles hm ≫= traced_handle) ++ pinned_objects hm ++ (Some <$> elements (cross_arena_roots hm)) ++ pending_finalization hm.

(** A collection after marking: [finalize_check], and the sweep of what is not marked. *)
Definition collect (hs : objects) (marked : gset Z) (hm : HeapManager) : outcome gc_fault (objects * HeapManager) :=
  let* (hm, resurrected) := finalize_check hs marked hm in
  Val (filter (fun x : Z * heap_object => x.1 ∈ marked ∪ resurrected) hs, hm).
End manager.

(** ** What is resurrected *)

Section laws.
Variable hs : objects.

Inductive reach (R : Z -> Prop) : Z -> Prop :=
| reach_root x : R x -> reach R x
| reach_step x o y : reach R x -> hs !! x = Some o -> Some y ∈ references o -> reach R y.

(** [v'] is [v] with what is reached from [R] through objects not in [v]. *)
Record covered (v v' : gset Z) (R : Z -> Prop) : Prop := {
  cov_grows : v ⊆ v';
  cov_roots : forall x, R x -> x ∈ v';
  cov_only : forall x, x ∈ v' -> x ∈ v \/ reach R x;
  cov_closed : forall x o y, x ∈ v' -> x ∉ v -> hs !! x = Some o -> Some y ∈ references o -> y ∈ v';
}.

Lemma reach_mono (R R' : Z -> Prop) x : (forall y, R y -> reach R' y) -> reach R x -> reach R' x.
Proof. intros H. induction 1 as [|x o y _ IH Ho Hy]; [by apply H | by eapply reach_step]. Qed.

Lemma covered_refl v (R : Z -> Prop) : (forall x, R x -> x ∈ v) -> covered v v R.
Proof. intros H. split; [done | done | by left | done]. Qed.

Lemma covered_cons v v1 v2 (R1 R2 R : Z -> Prop) : covered v v1 R1 -> covered v1 v2 R2 -> (forall x, R x <-> R1 x \/ R2 x) -> covered v v2 R.
Proof.
  intros [G1 T1 O1 C1] [G2 T2 O2 C2] HR. split.
  - set_solver.
  - intros x [H|H]%HR; [by apply G2, T1 | by apply T2].
  - intros x [Hx|Hx]%O2; [apply O1 in Hx as [Hx|Hx]; [by left|]|]; right;
      (eapply reach_mono; [|exact Hx]); intros y Hy; apply reach_root, HR; tauto.
  - intros x o y Hx Hnx Ho Hy. destruct (decide (x ∈ v1)); [by apply G2; eapply C1 | by eapply C2].
Qed.

Lemma ofold_covered (f : gset Z -> option Z -> outcome gc_fault (gset Z)) l v v' :
  (forall v x v', f v x = Val v' -> covered v v' (fun y => x = Some y)) ->
  ofold f v l = Val v' -> covered v v' (fun y => Some y ∈ l).
Proof.
  intros Hf. revert v. induction l as [|x l IH]; intros v Hv; cbn [ofold] in Hv.
  - injection Hv as <-. apply covered_refl. by intros x ?%elem_of_nil.
  - apply obind_val in Hv as (v1 & H1 & H2). eapply covered_cons; [by apply Hf | by apply IH|].
    intros y. cbn beta. rewrite elem_of_cons. split; intros [H|H]; eauto.
Qed.

(** An object and what its references reach. *)
Lemma covered_object v v' h o : h ∉ v -> hs !! h = Some o -> covered ({[h]} ∪ v) v' (fun y => Some y ∈ references o) ->
  covered v v' (fun y => Some h = Some y).
Proof.
  intros Hh Ho [G T O C]. split.
  - set_solver.
  - intros x [= <-]. set_solver.
  - intros x [Hx|Hx]%O.
    + destruct (decide (x = h)) as [-> |]; [right; by apply reach_root | left; set_solver].
    + right. eapply reach_mono; [|done]. intros y Hy. eapply reach_step; [by apply reach_root | done | done].
  - intros x o' y Hx Hnx Ho' Hy. destruct (decide (x = h)) as [-> |Hne]; [|eapply C; eauto; set_solver].
    rewrite Ho in Ho'. injection Ho' as <-. by apply T.
Qed.

Lemma resurrect_covered levels v x v' : resurrect hs levels v x = Val v' -> covered v v' (fun y => x = Some y).
Proof.
  revert v x v'. induction levels as [|levels IH]; intros v x v' H; [done|]. cbn [resurrect] in H.
  destruct x as [h|]; [|injection H as <-; by apply covered_refl].
  destruct (decide (h ∈ v)) as [Hin|Hin]; [injection H as <-; apply covered_refl; by intros x [= <-]|].
  destruct (hs !! h) as [o|] eqn:Ho; [|done]. cbn [ok_or obind] in H. destruct (well_sized o); [|done].
  eapply covered_object; [done | done|]. eapply ofold_covered; [exact IH | exact H].
Qed.

Lemma finalize_all l p v p' v' : ofold (finalize_one hs) (p, v) l = Val (p', v') ->
  p' = p ++ l /\ covered v v' (fun y => Some y ∈ l).
Proof.
  revert p v. induction l as [|x l IH]; intros p v H; cbn [ofold] in H.
  - injection H as <- <-. rewrite app_nil_r. split; [done|]. apply covered_refl. by intros x ?%elem_of_nil.
  - apply obind_val in H as ([p1 v1] & H1 & H2). apply IH in H2 as [-> H2].
    unfold finalize_one in H1. destruct x as [h|]; [|done]. cbn [expect obind] in H1.
    assert (Hc : p1 = p ++ [Some h] /\ covered v v1 (fun y => Some h = Some y)).
    { destruct (decide (h ∈ v)) as [Hin|Hin].
      - injection H1 as <- <-. split; [done|]. apply covered_refl. by intros y [= <-].
      - destruct (hs !! h) as [o|] eqn:Ho; [|done]. cbn [ok_or obind] in H1. apply obind_val in H1 as (v2 & H3 & [= <- <-]).
        split; [done|]. eapply covered_object; [done | done|]. eapply ofold_covered; [apply resurrect_covered | exact H3]. }
    destruct Hc as [-> Hc]. split; [by rewrite <- app_assoc|]. eapply covered_cons; [exact Hc | exact H2|].
    intros y. cbn beta. rewrite elem_of_cons. split; intros [H|H]; eauto.
Qed.

(** ** Enough levels *)

(** A set of live objects that holds what its objects refer to. *)
Record live_closed (s : gset Z) : Prop := {
  lc_live : forall x, x ∈ s -> exists o, hs !! x = Some o /\ well_sized o = true;
  lc_closed : forall x o y, x ∈ s -> hs !! x = Some o -> Some y ∈ references o -> y ∈ s;
}.

Lemma ofold_total (f : gset Z -> option Z -> outcome gc_fault (gset Z)) (s : gset Z) k l v :
  (forall v x, v ⊆ s -> (forall y, x = Some y -> y ∈ s) -> (size s < size v + k)%nat -> exists v', f v x = Val v' /\ v ⊆ v' /\ v' ⊆ s) ->
  v ⊆ s -> (forall y, Some y ∈ l -> y ∈ s) -> (size s < size v + k)%nat -> exists v', ofold f v l = Val v' /\ v ⊆ v' /\ v' ⊆ s.
Proof.
  intros Hf. revert v. induction l as [|x l IH]; intros v Hv Hl Hk; cbn [ofold]; [by exists v|].
  destruct (Hf v x Hv) as (v1 & -> & H1 & H2); [intros y ->; apply Hl; set_solver | done|]. cbn [obind].
  destruct (IH v1 H2) as (v2 & E & H3 & H4); [intros y Hy; apply Hl; set_solver | apply subseteq_size in H1; lia|].
  exists v2. set_solver.
Qed.

Lemma resurrect_total s levels v x : live_closed s -> v ⊆ s -> (forall y, x = Some y -> y ∈ s) -> (size s < size v + levels)%nat ->
  exists v', resurrect hs levels v x = Val v' /\ v ⊆ v' /\ v' ⊆ s.
Proof.
  intros Hs. revert v x. induction levels as [|levels IH]; intros v x Hv Hx Hk; [apply subseteq_size in Hv; lia|]. cbn [resurrect].
  destruct x as [h|]; [|by exists v]. destruct (decide (h ∈ v)) as [|Hin]; [by exists v|]. specialize (Hx h eq_refl).
  destruct (lc_live _ Hs h Hx) as (o & Ho & Hw). rewrite Ho. cbn [ok_or obind]. rewrite Hw. cbn [negb].
  destruct (ofold_total (resurrect hs levels) s levels (references o) ({[h]} ∪ v)) as (v' & E & H1 & H2).
  - intros v0 x H0 Hx0 Hk0. by apply IH.
  - set_solver.
  - intros y Hy. by eapply lc_closed.
  - rewrite size_union, size_singleton by set_solver. lia.
  - exists v'. set_solver.
Qed.

Lemma finalize_all_total s l p v : live_closed s -> (size s <= 1001)%nat -> v ⊆ s -> (forall x, x ∈ l -> exists h, x = Some h /\ h ∈ s) ->
  exists p' v', ofold (finalize_one hs) (p, v) l = Val (p', v') /\ v' ⊆ s.
Proof.
  intros Hs Hk. revert p v. induction l as [|x l IH]; intros p v Hv Hl; cbn [ofold]; [by exists p, v|].
  destruct (Hl x) as (h & -> & Hh); [set_solver|].
  assert (Hone : exists v1, finalize_one hs (p, v) (Some h) = Val (p ++ [Some h], v1) /\ v1 ⊆ s).
  { unfold finalize_one. cbn [expect obind]. destruct (decide (h ∈ v)) as [|Hin]; [by exists v|].
    destruct (lc_live _ Hs h Hh) as (o & Ho & _). rewrite Ho. cbn [ok_or obind].
    destruct (ofold_total (resurrect hs 1001) s 1001 (references o) ({[h]} ∪ v)) as (v' & E & H1 & H2).
    - intros v0 x H0 Hx0 Hk0. by apply resurrect_total.
    - set_solver.
    - intros y Hy. by eapply lc_closed.
    - rewrite size_union, size_singleton by set_solver. lia.
    - exists v'. rewrite E. done. }
  destruct Hone as (v1 & -> & H1). cbn [obind]. apply IH; [done|]. intros x Hx. apply Hl. set_solver.
Qed.
End laws.

(** ** The queue *)

Lemma swap_remove_take {A} (l : list A) i : (i < length l)%nat -> take i (swap_remove l i) = take i l.
Proof.
  intros Hi. unfold swap_remove. destruct (last l) as [x|] eqn:Hx; [|done]. case_decide.
  - by rewrite take_take, Nat.min_id.
  - rewrite take_take, Nat.min_l by lia. by rewrite take_insert_ge by lia.
Qed.

Lemma swap_remove_drop {A} (l : list A) i x : l !! i = Some x -> drop i (swap_remove l i) ≡ₚ drop (S i) l.
Proof.
  intros Hi. pose proof (lookup_lt_Some _ _ _ Hi) as Hlt. pose proof (swap_remove_perm _ _ _ Hi) as Hp.
  rewrite <- (take_drop i (swap_remove l i)) in Hp. rewrite swap_remove_take in Hp by done.
  assert (Hl : l ≡ₚ x :: take i l ++ drop (S i) l).
  { rewrite <- (take_drop_middle l i x Hi) at 1. symmetry. apply Permutation_middle. }
  rewrite Hl in Hp at 1. apply Permutation_cons_inv, Permutation_app_inv_l in Hp. by symmetry.
Qed.

Lemma swap_remove_length {A} (l : list A) i x : l !! i = Some x -> length l = S (length (swap_remove l i)).
Proof. intros Hi. apply (Permutation_length (swap_remove_perm _ _ _ Hi)). Qed.

Section finalization.
Variable hs : objects.
Variable marked : gset Z.

(** An entry of the queue that stays: alive, and not suppressed. *)
Definition stays_queued (x : option Z) : Prop :=
  match x with
  | Some p => match hs !! p with Some o => is_suppressed o = false /\ p ∈ marked | None => False end
  | None => False
  end.

(** One whose finalizer is due. *)
Definition is_due (x : option Z) : Prop :=
  match x with
  | Some p => match hs !! p with Some o => is_suppressed o = false /\ p ∉ marked | None => False end
  | None => False
  end.

#[export] Instance stays_queued_dec x : Decision (stays_queued x).
Proof. unfold stays_queued. destruct x as [p|]; [destruct (hs !! p)|]; apply _. Defined.
#[export] Instance is_due_dec x : Decision (is_due x).
Proof. unfold is_due. destruct x as [p|]; [destruct (hs !! p)|]; apply _. Defined.

Definition queue_live (queue : list (option Z)) : Prop := forall x, x ∈ queue -> exists p o, x = Some p /\ hs !! p = Some o.

Lemma queue_live_perm q q' : (forall x, x ∈ q' -> x ∈ q) -> queue_live q -> queue_live q'.
Proof. intros Hin H x Hx. apply H. by apply Hin. Qed.

Lemma scan_queue_spec n i queue tf : length queue = (i + n)%nat -> queue_live queue ->
  exists q' tf', scan_queue hs marked n i queue tf = Val (q', tf') /\
    q' ≡ₚ take i queue ++ filter stays_queued (drop i queue) /\ tf' ≡ₚ tf ++ filter is_due (drop i queue).
Proof.
  revert i queue tf. induction n as [|n IH]; intros i queue tf Hlen Hlive; cbn [scan_queue].
  - exists queue, tf. rewrite drop_ge, take_ge by lia. rewrite !filter_nil, !app_nil_r. done.
  - destruct (queue !! i) as [x|] eqn:Hx; [|apply lookup_ge_None in Hx; lia].
    destruct (Hlive x) as (p & o & -> & Ho); [by eapply list_elem_of_lookup_2|]. cbn [expect obind]. rewrite Ho. cbn [ok_or obind].
    rewrite (drop_S queue (Some p) i Hx), !filter_cons.
    assert (Hrem : forall tf0, exists q' tf', scan_queue hs marked n i (swap_remove queue i) tf0 = Val (q', tf') /\
      q' ≡ₚ take i queue ++ filter stays_queued (drop (S i) queue) /\ tf' ≡ₚ tf0 ++ filter is_due (drop (S i) queue)).
    { intros tf0. destruct (IH i (swap_remove queue i) tf0) as (q' & tf' & E & H1 & H2).
      - pose proof (swap_remove_length _ _ _ Hx). lia.
      - eapply queue_live_perm; [|exact Hlive]. intros y Hy. rewrite (swap_remove_perm _ _ _ Hx). by right.
      - exists q', tf'. rewrite swap_remove_take in H1 by by eapply lookup_lt_Some. rewrite (swap_remove_drop _ _ _ Hx) in H1, H2. done. }
    assert (Hst : stays_queued (Some p) <-> is_suppressed o = false /\ p ∈ marked) by (cbn; by rewrite Ho).
    assert (Hdu : is_due (Some p) <-> is_suppressed o = false /\ p ∉ marked) by (cbn; by rewrite Ho).
    destruct (decide (stays_queued (Some p))) as [H1|H1], (decide (is_due (Some p))) as [H2|H2]; rewrite Hst in H1; rewrite Hdu in H2;
      unfold is_dead; rewrite union_empty_r_L; [tauto|..].
    + destruct H1 as [-> Hm]. rewrite bool_decide_false by tauto. destruct (IH (S i) queue tf) as (q' & tf' & E & H3 & H4); [lia | done|].
      exists q', tf'. split; [done|]. split; [|done]. rewrite H3, (take_S_r _ _ _ Hx), <- app_assoc. done.
    + destruct H2 as [-> Hm]. rewrite bool_decide_true by done. destruct (Hrem (tf ++ [Some p])) as (q' & tf' & E & H3 & H4).
      exists q', tf'. split; [done|]. split; [done|]. rewrite H4, <- app_assoc. done.
    + destruct (is_suppressed o); [apply Hrem | destruct (decide (p ∈ marked)); tauto].
Qed.

(** A handle after the check. *)
Definition cleared (resurrected : gset Z) (x : option (option Z * GCHandleType)) : option (option Z * GCHandleType) :=
  match x with
  | Some (Some p, Weak) => if decide (p ∈ marked) then x else Some (None, Weak)
  | Some (Some p, WeakTrackResurrection) => if decide (p ∈ marked ∪ resurrected) then x else Some (None, WeakTrackResurrection)
  | _ => x
  end.

Lemma zero_out_cleared res x : zero_out_handle marked WeakTrackResurrection res (zero_out_handle marked Weak ∅ x) = cleared res x.
Proof.
  destruct x as [[[p|] t]|]; [|done..].
  destruct t; cbn [zero_out_handle cleared]; [|rewrite (decide_False (P := WeakTrackResurrection = Weak)) by done|done..];
    rewrite ?(decide_True (P := Weak = Weak)) by done; unfold is_dead.
  - rewrite union_empty_r_L, (decide_False (P := Weak = WeakTrackResurrection /\ _)) by (intros [? _]; done).
    destruct (decide (p ∈ marked)); [rewrite bool_decide_false by tauto | rewrite bool_decide_true by done]; done.
  - cbn [zero_out_handle]. rewrite (decide_True (P := WeakTrackResurrection = _)) by done. unfold is_dead.
    destruct (decide (p ∈ marked ∪ res)); [rewrite bool_decide_false by tauto; done|].
    rewrite bool_decide_true, decide_False by set_solver. done.
Qed.

(** What a check that completes has done. *)
Record check_done (hm hm' : HeapManager) (res : gset Z) : Prop := {
  ck_queue : finalization_queue hm' ≡ₚ filter stays_queued (finalization_queue hm);
  ck_pending : exists due, due ≡ₚ filter is_due (finalization_queue hm) /\ pending_finalization hm' = pending_finalization hm ++ due;
  ck_resurrected : forall p, p ∈ res <-> reach hs (fun y => Some y ∈ filter is_due (finalization_queue hm)) p;
  ck_handles : gchandles hm' = cleared res <$> gchandles hm;
  ck_pinned : pinned_objects hm' = pinned_objects hm;
  ck_dependent : dependent_handles hm' = dependent_handles hm;
  ck_roots : cross_arena_roots hm' = cross_arena_roots hm;
  ck_registry : object_registry hm' = prune_dead (is_dead marked res) res (object_registry hm);
}.

Lemma finalize_check_val hm hm' res : queue_live (finalization_queue hm) -> finalize_check hs marked hm = Val (hm', res) -> check_done hm hm' res.
Proof.
  intros Hlive H. unfold finalize_check in H. set (queue := finalization_queue hm) in *.
  destruct (scan_queue_spec (length queue) 0 queue [] eq_refl Hlive) as (q' & tf & E & Hq & Ht). rewrite E in H. cbn [obind] in H.
  rewrite take_0, drop_0, app_nil_l in Hq. rewrite drop_0, app_nil_l in Ht.
  assert (Hin : forall x, x ∈ tf <-> x ∈ filter is_due queue) by (intros x; by rewrite Ht).
  apply obind_val in H as ([p' r] & E2 & H). injection H as <- <-. apply finalize_all in E2 as [-> Hc].
  split; try done; cbn.
  - by exists tf.
  - intros p. split.
    + intros [?|Hr]%(cov_only _ _ _ _ Hc); [set_solver|]. eapply reach_mono; [|exact Hr]. intros y Hy. apply reach_root. by apply Hin.
    + induction 1 as [x Hx|x o y _ IH Ho Hy]; [apply (cov_roots _ _ _ _ Hc); by apply Hin|]. apply (cov_closed _ _ _ _ Hc x o y IH); [set_solver | done | done].
  - unfold zero_out_handles. rewrite <- list_fmap_compose. apply list_fmap_ext. intros i x _. apply zero_out_cleared.
Qed.

(** C14. Between marking and sweeping every entry of the finalization queue whose object is
    dead and not suppressed becomes pending, once; the live ones stay queued and the
    suppressed ones are dropped.  What the pending objects reach is resurrected, and
    nothing else.  Weak handles to dead objects are cleared, those that track
    resurrection only if the object is not resurrected, and other handles are kept.  The
    check completes when what the due objects reach is at most 1001 objects. *)
Theorem finalize_check_exact hm s :
  let queue := finalization_queue hm in
  queue_live queue -> live_closed hs s -> (size s <= 1001)%nat -> (forall p, Some p ∈ queue -> is_due (Some p) -> p ∈ s) ->
  exists hm' res, finalize_check hs marked hm = Val (hm', res) /\
    finalization_queue hm' ≡ₚ filter stays_queued queue /\
    (exists due, due ≡ₚ filter is_due queue /\ pending_finalization hm' = pending_finalization hm ++ due) /\
    (forall p, p ∈ res <-> reach hs (fun y => Some y ∈ filter is_due queue) p) /\
    gchandles hm' = cleared res <$> gchandles hm.
Proof.
  intros queue Hlive Hs Hk Hdue.
  assert (Hv : exists hm' res, finalize_check hs marked hm = Val (hm', res)).
  { unfold finalize_check. fold queue.
    destruct (scan_queue_spec (length queue) 0 queue [] eq_refl Hlive) as (q' & tf & E & _ & Ht). rewrite E. cbn [obind]. rewrite drop_0, app_nil_l in Ht.
    destruct (finalize_all_total hs s tf (pending_finalization hm) ∅ Hs Hk) as (p' & res & E2 & _); [set_solver|..].
    - intros x Hx. rewrite Ht in Hx. apply list_elem_of_filter in Hx as [Hd Hx]. destruct x as [h|]; [|done]. exists h. split; [done|]. by apply Hdue.
    - rewrite E2. cbn [obind]. eauto. }
  destruct Hv as (hm' & res & E). exists hm', res. split; [done|]. by destruct (finalize_check_val hm hm' res Hlive E).
Qed.

(** ** No handle dangles *)

(** Every object the manager names, apart from dependent handles, is live. *)
Record manager_sound (hs : objects) (hm : HeapManager) : Prop := {
  ms_handles : forall p t, Some (Some p, t) ∈ gchandles hm -> is_Some (hs !! p);
  ms_pinned : forall p, Some p ∈ pinned_objects hm -> is_Some (hs !! p);
  ms_roots : forall p, p ∈ cross_arena_roots hm -> is_Some (hs !! p);
  ms_pending : forall p, Some p ∈ pending_finalization hm -> is_Some (hs !! p);
  ms_queue : forall x, x ∈ finalization_queue hm -> exists p o, x = Some p /\ hs !! p = Some o;
  ms_registry : forall id e, entries (object_registry hm) !! id = Some e ->
    entry_obj e = Some (entry_start e) /\ is_Some (hs !! entry_start e);
}.

Definition closed_heap (hs : objects) : Prop := forall x o y, hs !! x = Some o -> Some y ∈ references o -> is_Some (hs !! y).

(** What marking gives: a set of live objects with what the manager traces and what the
    objects refer to. *)
Record marking_done (hm : HeapManager) : Prop := {
  md_live : forall p, p ∈ marked -> is_Some (hs !! p);
  md_traced : forall p, Some p ∈ trace hm -> p ∈ marked;
  md_closed : forall x o y, x ∈ marked -> hs !! x = Some o -> Some y ∈ references o -> y ∈ marked;
}.

Lemma remove_entries_lookup ids r id : entries (foldl remove_entry r ids) !! id = if decide (id ∈ ids) then None else entries r !! id.
Proof.
  revert r. induction ids as [|a ids IH]; intros r; [done|]. cbn [foldl]. rewrite IH.
  assert (Hr : entries (remove_entry r a) = delete a (entries r)).
  { unfold remove_entry. destruct (entries r !! a) eqn:Ha; [done|]. by rewrite delete_id. }
  rewrite Hr. destruct (decide (id = a)) as [-> |Hne].
  - rewrite lookup_delete_eq, (decide_True (P := a ∈ a :: ids)) by set_solver. by case_decide.
  - rewrite lookup_delete_ne by done. destruct (decide (id ∈ ids)); [rewrite decide_True | rewrite decide_False]; set_solver.
Qed.

Lemma prune_keeps dead res r id e : entries (prune_dead dead res r) !! id = Some e -> entries r !! id = Some e /\ prunes dead res e = false.
Proof.
  unfold prune_dead. rewrite remove_entries_lookup. case_decide as Hid; [done|]. intros He. split; [done|].
  destruct (prunes dead res e) eqn:Hp; [|done]. destruct Hid. apply pruned_ids. eauto.
Qed.

Lemma traced_names hm p : Some p ∈ trace hm <->
  (exists t, Some (Some p, t) ∈ gchandles hm /\ (t = Normal \/ t = Pinned)) \/ Some p ∈ pinned_objects hm \/
  p ∈ cross_arena_roots hm \/ Some p ∈ pending_finalization hm.
Proof.
  unfold trace. rewrite !elem_of_app, list_elem_of_bind, list_elem_of_fmap. split.
  - intros [([[o t]|] & Hx & Hin)|[H|[(y & [= <-] & Hy%elem_of_elements)|H]]]; [|by apply elem_of_nil in Hx|auto..].
    left. exists t. destruct t; cbn in Hx; try (by apply elem_of_nil in Hx); apply list_elem_of_singleton in Hx as <-; auto.
  - intros [(t & Hin & Ht)|[H|[H|H]]]; [|auto|right; right; left; exists p; by rewrite elem_of_elements|auto].
    left. exists (Some (Some p, t)). split; [|done]. destruct Ht as [-> | ->]; by left.
Qed.

(** What a collection keeps. *)
Lemma collect_val hm hs' hm' : queue_live (finalization_queue hm) -> collect hs marked hm = Val (hs', hm') ->
  exists res, check_done hm hm' res /\ hs' = filter (fun x : Z * heap_object => x.1 ∈ marked ∪ res) hs.
Proof.
  intros Hq H. unfold collect in H. apply obind_val in H as ([hm1 res] & E & [= <- <-]). exists res. split; [|done]. by apply finalize_check_val.
Qed.

Lemma collect_sound hm hs' hm' : manager_sound hs hm -> closed_heap hs -> marking_done hm -> collect hs marked hm = Val (hs', hm') ->
  manager_sound hs' hm' /\ closed_heap hs'.
Proof.
  intros Hms Hcl Hmd Hc. destruct (collect_val _ _ _ (ms_queue _ _ Hms) Hc) as (res & [Hq (due & Hd & Hp) Hres Hh Hf1 _ Hf2 Hf3] & ->).
  set (hs' := filter _ hs).
  assert (Hkept : forall p, p ∈ marked ∪ res -> is_Some (hs !! p) -> is_Some (hs' !! p)).
  { intros p Hin [o Ho]. exists o. by apply map_lookup_filter_Some. }
  assert (Hrk : forall p, p ∈ res -> is_Some (hs' !! p)).
  { intros p Hin. apply Hkept; [set_solver|]. apply Hres in Hin. induction Hin as [x Hx|x o y _ IH Ho Hy]; [|by eapply Hcl].
    apply list_elem_of_filter in Hx as [_ Hx]. destruct (ms_queue _ _ Hms _ Hx) as (p' & o & [= <-] & Ho). eauto. }
  assert (Hmk : forall p, p ∈ marked -> is_Some (hs' !! p)) by (intros p Hin; apply Hkept; [set_solver | by apply (md_live hm Hmd)]).
  assert (Htr : forall p, Some p ∈ trace hm -> is_Some (hs' !! p)) by (intros p Hin; by apply Hmk, (md_traced hm Hmd)).
  split; [split|].
  - intros p t Hin. rewrite Hh in Hin. apply list_elem_of_fmap in Hin as (x & Hx & Hin). destruct x as [[[q|] u]|]; try (by destruct u); [|done].
    destruct u; cbn in Hx; try (case_decide; [|done]); injection Hx as -> ->; [by apply Hmk | by apply Hkept; [|eapply (ms_handles _ _ Hms)]|..];
      apply Htr, traced_names; left; eauto.
  - intros p Hin. rewrite Hf1 in Hin. apply Htr, traced_names. auto.
  - intros p Hin. rewrite Hf2 in Hin. apply Htr, traced_names. auto.
  - intros p Hin. rewrite Hp, elem_of_app, Hd in Hin. destruct Hin as [Hin|Hin]; [apply Htr, traced_names; auto|]. apply Hrk, Hres, reach_root, Hin.
  - intros x Hin. rewrite Hq in Hin. apply list_elem_of_filter in Hin as [Hst _]. destruct x as [p|]; [|done]. cbn in Hst.
    destruct (hs !! p) as [o|] eqn:Ho; [|done]. destruct Hst as [_ Hm]. destruct (Hmk p Hm) as [o' Ho']. eauto.
  - intros id e He. rewrite Hf3 in He. apply prune_keeps in He as [He Hpr]. destruct (ms_registry _ _ Hms _ _ He) as [Ho Hl]. split; [done|].
    unfold prunes in Hpr. rewrite Ho in Hpr. apply Hkept; [|done]. apply andb_false_iff in Hpr as [Hpr|Hpr].
    + unfold is_dead in Hpr. by apply bool_decide_eq_false, dec_stable in Hpr.
    + apply negb_false_iff, bool_decide_eq_true in Hpr. set_solver.
  - intros x o y [Ho Hx]%map_lookup_filter_Some Hy. cbn in Hx. apply elem_of_union in Hx as [Hx|Hx].
    + apply Hmk. by eapply (md_closed hm Hmd).
    + apply Hrk, Hres. eapply reach_step; [by apply Hres | done | done].
Qed.

(** The objects that the threads hold and that the handle kinds of the documentation keep
    alive: strong and pinned handles, pinned objects, references from other arenas, and
    objects whose finalizer is pending or becomes due. *)
Definition kept_alive (stack : list (option Z)) (hm : HeapManager) (p : Z) : Prop :=
  Some p ∈ stack \/ (exists t, Some (Some p, t) ∈ gchandles hm /\ (t = Normal \/ t = Pinned)) \/
  Some p ∈ pinned_objects hm \/ p ∈ cross_arena_roots hm \/ Some p ∈ pending_finalization hm \/
  Some p ∈ filter is_due (finalization_queue hm).

(** What the collector marks: what is reached from the stack and from what the manager
    traces. *)
Definition marks (stack : list (option Z)) (hm : HeapManager) : Prop :=
  forall p, p ∈ marked <-> reach hs (fun y => Some y ∈ stack \/ Some y ∈ trace hm) p.

(** C37. A dependent handle keeps nothing alive and is never cleared.  When the collector
    marks what is reached from the stack and from what the manager traces, a dependent
    object that is reached only through dependent handles is freed, whether or not its
    target is alive, and the handle goes on to answer with it; a target that is reached
    survives. *)
Theorem dependent_handle_dangles stack hm hs' hm' i target d :
  marks stack hm -> dependent_handles hm !! i = Some (Some (target, Some d)) -> Z.of_nat i + 1 <= int_max isize ->
  ~ reach hs (kept_alive stack hm) d -> queue_live (finalization_queue hm) -> collect hs marked hm = Val (hs', hm') ->
  dependent_get (Z.of_nat i + 1) hm' = Val (Some d) /\ hs' !! d = None /\
  (forall t o, target = Some t -> hs !! t = Some o -> reach hs (kept_alive stack hm) t -> hs' !! t = Some o).
Proof.
  intros Hmk Hi Hr Hn Hq Hc. destruct (collect_val _ _ _ Hq Hc) as (res & Hk & ->).
  assert (Hall : forall p, p ∈ marked ∪ res <-> reach hs (kept_alive stack hm) p).
  { intros p. rewrite elem_of_union, (Hmk p), (ck_resurrected _ _ _ Hk). split.
    - intros [H|H]; (eapply reach_mono; [|exact H]); intros y Hy; apply reach_root; unfold kept_alive; [|tauto].
      destruct Hy as [Hy|Hy%traced_names]; tauto.
    - induction 1 as [x Hx|x o y _ [IH|IH] Ho Hy]; [|left; by eapply reach_step | right; by eapply reach_step].
      destruct (decide (Some x ∈ filter is_due (finalization_queue hm))); [right; by apply reach_root|]. left. apply reach_root.
      unfold kept_alive in Hx. destruct Hx as [Hx|Hx]; [by left|]. right. apply traced_names. tauto. }
  split; [|split].
  - unfold dependent_get, dependent_entry. destruct (Z.eqb_spec (Z.of_nat i + 1) 0); [lia|]. unfold slot_index. rewrite arith_ok by (int_bounds; lia). cbn [obind].
    rewrite wrap_id by (int_bounds; lia). replace (Z.to_nat (Z.of_nat i + 1 - 1)) with i by lia. unfold slot. by rewrite (ck_dependent _ _ _ Hk), Hi.
  - apply map_lookup_filter_None. right. intros o Ho Hin. by apply Hall in Hin.
  - intros t o _ Ho Ht. apply map_lookup_filter_Some. split; [done|]. by apply Hall.
Qed.
End finalization.

(** ** The life of an arena *)

Definition live_ref (hs : objects) (x : option Z) : Prop := forall p, x = Some p -> is_Some (hs !! p).

(** The references that threads hold: their stacks, static fields and the like. *)
Record arena : Set := { heap_objects : objects; manager : HeapManager; stack : list (option Z) }.

Definition new_arena : arena := {| heap_objects := ∅; manager := new_manager; stack := [] |}.

Definition held (l : list (option Z)) (x : option Z) : Prop := x = None \/ x ∈ l.

Section life.
Variable vacant_key : gmap nat RegistryEntry -> nat.

(** What the threads and the collector do with the heap of an arena.  A thread works with
    references it holds; it comes to hold those of new objects, of fields of objects it
    holds, of handles, of objects found by address and of objects whose finalizer it runs.
    A new object has an address that no object has; the roots given from other arenas
    name objects that exist; and a collection marks what is reached from what the threads
    hold and from what the manager traces. *)
Inductive arena_step : arena -> arena -> Prop :=
| s_new hs hm l ptr o hm' : hs !! ptr = None -> (forall x, x ∈ references o -> held l x) ->
    register_new_object vacant_key (<[ptr := o]> hs) (Some ptr) hm = Val hm' ->
    arena_step {| heap_objects := hs; manager := hm; stack := l |}
      {| heap_objects := <[ptr := o]> hs; manager := hm'; stack := Some ptr :: l |}
| s_load hs hm l ptr o x : Some ptr ∈ l -> hs !! ptr = Some o -> x ∈ references o ->
    arena_step {| heap_objects := hs; manager := hm; stack := l |} {| heap_objects := hs; manager := hm; stack := x :: l |}
| s_drop hs hm l l' : l' ⊆ l ->
    arena_step {| heap_objects := hs; manager := hm; stack := l |} {| heap_objects := hs; manager := hm; stack := l' |}
| s_store hs hm l ptr o o' : Some ptr ∈ l -> hs !! ptr = Some o -> (forall x, x ∈ references o' -> x ∈ references o \/ held l x) ->
    arena_step {| heap_objects := hs; manager := hm; stack := l |} {| heap_objects := <[ptr := o']> hs; manager := hm; stack := l |}
| s_pin hs hm l x : held l x ->
    arena_step {| heap_objects := hs; manager := hm; stack := l |} {| heap_objects := hs; manager := pin_object x hm; stack := l |}
| s_unpin hs hm l x :
    arena_step {| heap_objects := hs; manager := hm; stack := l |} {| heap_objects := hs; manager := unpin_object x hm; stack := l |}
| s_alloc hs hm l x t h hm' : held l x -> gchandle_alloc x t hm = Val (h, hm') ->
    arena_step {| heap_objects := hs; manager := hm; stack := l |} {| heap_objects := hs; manager := hm'; stack := l |}
| s_get hs hm l h x : gchandle_get h hm = Val x ->
    arena_step {| heap_objects := hs; manager := hm; stack := l |} {| heap_objects := hs; manager := hm; stack := x :: l |}
| s_free hs hm l h hm' : gchandle_free h hm = Val hm' ->
    arena_step {| heap_objects := hs; manager := hm; stack := l |} {| heap_objects := hs; manager := hm'; stack := l |}
| s_set hs hm l h x hm' : held l x -> gchandle_set h x hm = Val hm' ->
    arena_step {| heap_objects := hs; manager := hm; stack := l |} {| heap_objects := hs; manager := hm'; stack := l |}
| s_find hs hm l ptr x : find_object hm ptr = Some x ->
    arena_step {| heap_objects := hs; manager := hm; stack := l |} {| heap_objects := hs; manager := hm; stack := x :: l |}
| s_dependent hs hm l ds :
    arena_step {| heap_objects := hs; manager := hm; stack := l |} {| heap_objects := hs; manager := set_dependents hm ds; stack := l |}
| s_suppress hs hm l x hs' : held l x -> suppress_finalize x hs = Val hs' ->
    arena_step {| heap_objects := hs; manager := hm; stack := l |} {| heap_objects := hs'; manager := hm; stack := l |}
| s_reregister hs hm l x hs' hm' : held l x -> reregister_for_finalize x hs hm = Val (hs', hm') ->
    arena_step {| heap_objects := hs; manager := hm; stack := l |} {| heap_objects := hs'; manager := hm'; stack := l |}
| s_run hs hm l q x : pending_finalization hm = q ++ [x] ->
    arena_step {| heap_objects := hs; manager := hm; stack := l |} {| heap_objects := hs; manager := set_pending hm q; stack := x :: l |}
| s_roots hs hm l s : (forall p, p ∈ s -> is_Some (hs !! p)) ->
    arena_step {| heap_objects := hs; manager := hm; stack := l |} {| heap_objects := hs; manager := set_roots hm s; stack := l |}
| s_collect hs hm l marked hs' hm' : marks hs marked l hm -> collect hs marked hm = Val (hs', hm') ->
    arena_step {| heap_objects := hs; manager := hm; stack := l |} {| heap_objects := hs'; manager := hm'; stack := l |}.

Definition arena_sound (hs : objects) (hm : HeapManager) : Prop := manager_sound hs hm /\ closed_heap hs.

Definition stack_sound (hs : objects) (l : list (option Z)) : Prop := forall x, x ∈ l -> live_ref hs x.

Lemma held_live hs l x : stack_sound hs l -> held l x -> live_ref hs x.
Proof. intros Hl [-> |Hx]; [done | by apply Hl]. Qed.

Lemma stack_cons hs l x : stack_sound hs l -> live_ref hs x -> stack_sound hs (x :: l).
Proof. intros Hl Hx y [-> |Hy]%elem_of_cons; [done | by apply Hl]. Qed.

(** Storing over an object and adding one keep what is live. *)
Lemma insert_live (hs : objects) ptr o p : is_Some (hs !! p) -> is_Some (<[ptr := o]> hs !! p).
Proof. intros H. destruct (decide (p = ptr)) as [-> |]; [rewrite lookup_insert_eq; eauto | by rewrite lookup_insert_ne]. Qed.

Lemma manager_sound_insert hs hm ptr o : manager_sound hs hm -> manager_sound (<[ptr := o]> hs) hm.
Proof.
  intros [H1 H2 H3 H4 H5 H6]. split; eauto using insert_live.
  - intros x Hx. destruct (H5 x Hx) as (p & o' & -> & Ho). destruct (insert_live hs ptr o p ltac:(eauto)) as [o2 Ho2]. eauto.
  - intros id e He. destruct (H6 _ _ He). split; [done|]. by apply insert_live.
Qed.

Lemma closed_heap_insert hs ptr o : closed_heap hs -> (forall x, x ∈ references o -> live_ref hs x) -> closed_heap (<[ptr := o]> hs).
Proof.
  intros Hc Ho x o' y Hx Hy. apply lookup_insert_Some in Hx as [[<- <-]|[_ Hx]]; apply insert_live; [by apply (Ho _ Hy) | by eapply Hc].
Qed.

Lemma set_suppressed_insert hs hm h o b : arena_sound hs hm -> hs !! h = Some o -> arena_sound (<[h := set_suppressed o b]> hs) hm.
Proof.
  intros [Hm Hc] Ho. split; [by apply manager_sound_insert|]. apply closed_heap_insert; [done|]. intros x Hx p ->. by eapply Hc.
Qed.

Lemma pin_sound hs hm x : manager_sound hs hm -> live_ref hs x -> manager_sound hs (pin_object x hm).
Proof.
  intros [H1 H2 H3 H4 H5 H6] Hx. unfold pin_object. case_decide; [done|]. split; cbn; [done | | done..].
  intros p [Hp|Hp%list_elem_of_singleton]%elem_of_app; [by apply H2 | by apply Hx].
Qed.

Lemma unpin_sound hs hm x : manager_sound hs hm -> manager_sound hs (unpin_object x hm).
Proof.
  intros [H1 H2 H3 H4 H5 H6]. unfold unpin_object. destruct (list_find _ _) as [[i y]|] eqn:Hf; [|done]. split; cbn; [done | | done..].
  apply list_find_Some in Hf as (Hi & _ & _). intros p Hp. apply H2. rewrite (swap_remove_perm _ _ _ Hi). by right.
Qed.

Lemma set_handles_sound hs hm l : manager_sound hs hm -> (forall p t, Some (Some p, t) ∈ l -> is_Some (hs !! p)) -> manager_sound hs (set_handles hm l).
Proof. intros [H1 H2 H3 H4 H5 H6] Hl. by split. Qed.

Lemma handle_insert_sound hs hm i (y : option (option Z * GCHandleType)) : manager_sound hs hm -> (forall x t, y = Some (x, t) -> live_ref hs x) ->
  forall p t, Some (Some p, t) ∈ <[i := y]> (gchandles hm) -> is_Some (hs !! p).
Proof.
  intros Hm Hy p t Hin. apply list_elem_of_lookup in Hin as [j Hj]. apply list_lookup_insert_Some in Hj as [(<- & Hyx & _)|[_ Hj]].
  - by apply (Hy _ _ Hyx).
  - eapply (ms_handles _ _ Hm). by eapply list_elem_of_lookup_2.
Qed.

Lemma alloc_sound hs hm x t h hm' : manager_sound hs hm -> live_ref hs x -> gchandle_alloc x t hm = Val (h, hm') -> manager_sound hs hm'.
Proof.
  intros Hm Hx H. unfold gchandle_alloc in H. apply obind_val in H as (ty & _ & H).
  assert (Hs : manager_sound hs (set_handles hm (alloc_or_reuse_slot (gchandles hm) (x, ty)).2)).
  { apply set_handles_sound; [done|]. unfold alloc_or_reuse_slot. destruct (list_find _ _) as [[i y]|]; cbn.
    - apply handle_insert_sound; [done|]. by intros ? ? [= <- <-].
    - intros p u [Hin|Hin%list_elem_of_singleton]%elem_of_app; [by eapply (ms_handles _ _ Hm)|]. injection Hin as <- <-. by apply Hx. }
  destruct (alloc_or_reuse_slot (gchandles hm) (x, ty)) as [i l]. injection H as <- <-. cbn [snd] in Hs. case_decide; [by apply pin_sound | done].
Qed.

Lemma free_sound hs hm h hm' : manager_sound hs hm -> gchandle_free h hm = Val hm' -> manager_sound hs hm'.
Proof.
  intros Hm H. unfold gchandle_free in H. destruct (h =? 0); [by injection H as <-|]. apply obind_val in H as (i & _ & H).
  case_decide; [|by injection H as <-]. injection H as <-.
  assert (Hgo : forall hm0, manager_sound hs hm0 -> manager_sound hs (set_handles hm0 (<[i := None]> (gchandles hm0)))).
  { intros hm0 Hm0. apply set_handles_sound; [done|]. by apply handle_insert_sound. }
  destruct (slot (gchandles hm) i) as [[x t]|]; [case_decide|]; apply Hgo; [by apply unpin_sound | done..].
Qed.

Lemma set_sound hs hm h x hm' : manager_sound hs hm -> live_ref hs x -> gchandle_set h x hm = Val hm' -> manager_sound hs hm'.
Proof.
  intros Hm Hx H. unfold gchandle_set in H. destruct (h =? 0); [by injection H as <-|]. apply obind_val in H as (i & _ & H).
  destruct (slot (gchandles hm) i) as [[old t]|]; [|by injection H as <-]. injection H as <-.
  assert (Hgo : forall hm0, manager_sound hs hm0 -> manager_sound hs (set_handles hm0 (<[i := Some (x, t)]> (gchandles hm0)))).
  { intros hm0 Hm0. apply set_handles_sound; [done|]. apply handle_insert_sound; [done|]. by intros ? ? [= <- <-]. }
  case_decide; apply Hgo; [by apply pin_sound; [apply unpin_sound|] | done].
Qed.

Lemma register_sound hs hm ptr o hm' : manager_sound hs hm -> hs !! ptr = Some o ->
  register_new_object vacant_key hs (Some ptr) hm = Val hm' -> manager_sound hs hm'.
Proof.
  intros [H1 H2 H3 H4 H5 H6] Ho H. unfold register_new_object, register_object in H. rewrite Ho in H. cbn [ok_or obind] in H.
  set (r := registry_insert _ _ _ _ _) in H.
  assert (Hr : forall id e, entries r !! id = Some e -> entry_obj e = Some (entry_start e) /\ is_Some (hs !! entry_start e)).
  { intros id e He. unfold r, registry_insert in He. destruct (object_size o =? 0); [by eapply H6|].
    unfold add_entry in He. cbn [entries] in He. apply lookup_insert_Some in He as [[_ <-]|[_ He]]; [cbn; eauto|].
    destruct (start_to_id (object_registry hm) !! ptr) as [ex|]; [|by eapply H6]. unfold remove_entry in He. cbn [entries] in He.
    destruct (entries (object_registry hm) !! ex); cbn [entries] in He; [apply lookup_delete_Some in He as [_ He]|]; by eapply H6. }
  assert (Hs : manager_sound hs (set_registry hm r)) by by split.
  destruct (kind o), (has_finalizer o); injection H as <-; try done. destruct Hs as [S1 S2 S3 S4 S5 S6]. split; cbn; try done.
  intros x [Hx|Hx%list_elem_of_singleton]%elem_of_app; [by apply S5 | subst x; eauto].
Qed.

Lemma get_sound hs hm h x : manager_sound hs hm -> gchandle_get h hm = Val x -> live_ref hs x.
Proof.
  intros Hm H p ->. unfold gchandle_get in H. destruct (h =? 0); [done|]. apply obind_val in H as (i & _ & H). unfold slot in H.
  destruct (gchandles hm !! i) as [[[y t]|]|] eqn:Hi; try done. injection H as ->. eapply (ms_handles _ _ Hm). by eapply list_elem_of_lookup_2.
Qed.

Lemma find_in_entry es ptr ids x : find_in es ptr ids = Some x -> exists id e, es !! id = Some e /\ x = entry_obj e.
Proof.
  induction ids as [|id ids IH]; cbn [find_in]; [done|]. destruct (es !! id) as [e|] eqn:He; [|exact IH].
  destruct (covers e ptr); [intros [= <-]; eauto | exact IH].
Qed.

Lemma find_sound hs hm ptr x : manager_sound hs hm -> find_object hm ptr = Some x -> live_ref hs x.
Proof.
  intros Hm H p ->. assert (Hentry : forall id e, entries (object_registry hm) !! id = Some e -> Some p = entry_obj e -> is_Some (hs !! p)).
  { intros id e He Hp. destruct (ms_registry _ _ Hm _ _ He) as [Ho Hl]. rewrite Ho in Hp. by injection Hp as ->. }
  unfold find_object, find in H. destruct (start_to_id _ !! ptr ≫= _) as [e|] eqn:Hs.
  - apply bind_Some in Hs as (id & _ & He). injection H as Hp. by eapply Hentry.
  - apply bind_Some in H as (ids & _ & (id & e & He & Hp)%find_in_entry). by eapply Hentry.
Qed.

Lemma suppress_sound hs hm x hs' : arena_sound hs hm -> suppress_finalize x hs = Val hs' -> arena_sound hs' hm.
Proof.
  intros Hs H. unfold suppress_finalize in H. destruct x as [h|]; [|by injection H as <-]. destruct (hs !! h) as [o|] eqn:Ho; [|done]. cbn [ok_or obind] in H.
  injection H as <-. destruct (kind o); [done | by apply set_suppressed_insert | done | done].
Qed.

Lemma reregister_sound hs hm x hs' hm' : arena_sound hs hm -> reregister_for_finalize x hs hm = Val (hs', hm') -> arena_sound hs' hm'.
Proof.
  intros Hs H. unfold reregister_for_finalize in H. destruct x as [h|]; [|by injection H as <- <-]. destruct (hs !! h) as [o|] eqn:Ho; [|done]. cbn [ok_or obind] in H.
  destruct (kind o); injection H as <- <-; try done.
  apply (set_suppressed_insert _ _ h o false) in Hs; [|done]. case_decide; [done|].
  destruct Hs as [[S1 S2 S3 S4 S5 S6] S7]. split; [|done]. split; cbn in *; try done.
  intros x [Hx|Hx%list_elem_of_singleton]%elem_of_app; [by apply S5|]. subst x. exists h. rewrite lookup_insert_eq. eauto.
Qed.

(** What the marking of a sound arena gives. *)
Lemma marks_done hs marked l hm : arena_sound hs hm -> stack_sound hs l -> marks hs marked l hm -> marking_done hs marked hm.
Proof.
  intros [Hm Hc] Hl Hk. split.
  - intros p Hp. apply Hk in Hp. induction Hp as [x [Hx|Hx%traced_names]|x o y _ _ Ho Hy]; [by eapply Hl | | by eapply Hc].
    destruct Hx as [(t & Hin & _)|[Hx|[Hx|Hx]]];
      [by eapply (ms_handles _ _ Hm) | by apply (ms_pinned _ _ Hm) | by apply (ms_roots _ _ Hm) | by apply (ms_pending _ _ Hm)].
  - intros p Hp. apply Hk, reach_root. by right.
  - intros x o y Hx Ho Hy. apply Hk. eapply reach_step; [by apply Hk | done | done].
Qed.

(** The objects of a collection that completes are those of before that were marked, and others. *)
Lemma collect_marked hs marked hm hs' hm' p : collect hs marked hm = Val (hs', hm') -> p ∈ marked -> is_Some (hs !! p) -> is_Some (hs' !! p).
Proof.
  intros H Hp [o Ho]. unfold collect in H. apply obind_val in H as ([hm1 res] & _ & [= <- <-]). exists o.
  apply map_lookup_filter_Some. split; [done|]. cbn. set_solver.
Qed.

Lemma suppress_live x hs hs' p : suppress_finalize x hs = Val hs' -> is_Some (hs !! p) -> is_Some (hs' !! p).
Proof.
  unfold suppress_finalize. destruct x as [h|]; [|by intros [= <-]]. destruct (hs !! h) as [o|]; [|done]. cbn [ok_or obind].
  intros [= <-] Hp. destruct (kind o); auto using insert_live.
Qed.

Lemma reregister_live x hs hm hs' hm' p : reregister_for_finalize x hs hm = Val (hs', hm') -> is_Some (hs !! p) -> is_Some (hs' !! p).
Proof.
  unfold reregister_for_finalize. destruct x as [h|]; [|by intros [= <- <-]]. destruct (hs !! h) as [o|]; [|done]. cbn [ok_or obind].
  destruct (kind o); intros [= <- <-] Hp; auto using insert_live.
Qed.

Lemma stack_live (hs hs' : objects) l : stack_sound hs l -> (forall p, is_Some (hs !! p) -> is_Some (hs' !! p)) -> stack_sound hs' l.
Proof. intros Hl Hh x Hx p Hp. by apply Hh, (Hl x Hx). Qed.

Definition arena_inv (a : arena) : Prop := arena_sound (heap_objects a) (manager a) /\ stack_sound (heap_objects a) (stack a).

Lemma arena_step_sound a a' : arena_inv a -> arena_step a a' -> arena_inv a'.
Proof.
  intros [[Hm Hc] Hl] Hst. destruct Hst; cbn [heap_objects manager stack] in *; split; cbn [heap_objects manager stack].
  - split; [eapply register_sound; [by apply manager_sound_insert | apply lookup_insert_eq | done]|].
    apply closed_heap_insert; [done|]. intros x Hx. eapply held_live; [done | auto].
  - apply stack_cons; [|intros p [= <-]; rewrite lookup_insert_eq; eauto]. eapply stack_live; [done|]. intros p. apply insert_live.
  - done.
  - apply stack_cons; [done|]. intros p ->. by eapply Hc.
  - done.
  - intros x Hx. auto.
  - split; [by apply manager_sound_insert|]. apply closed_heap_insert; [done|]. intros x Hx p ->.
    destruct (H1 _ Hx) as [Hx'|Hx']; [by eapply Hc | by eapply held_live].
  - eapply stack_live; [done|]. intros p. apply insert_live.
  - split; [apply pin_sound; [done | by eapply held_live] | done].
  - done.
  - split; [by apply unpin_sound | done].
  - done.
  - split; [eapply alloc_sound; [done | by eapply held_live | done] | done].
  - done.
  - done.
  - apply stack_cons; [done | by eapply get_sound].
  - split; [by eapply free_sound | done].
  - done.
  - split; [eapply set_sound; [done | by eapply held_live | done] | done].
  - done.
  - done.
  - apply stack_cons; [done | by eapply find_sound].
  - split; [by destruct Hm | done].
  - done.
  - by eapply suppress_sound.
  - eapply stack_live; [done|]. intros p. by eapply suppress_live.
  - by eapply reregister_sound.
  - eapply stack_live; [done|]. intros p. by eapply reregister_live.
  - split; [|done]. destruct Hm as [H1 H2 H3 H4 H5 H6]. split; cbn; try done. intros p Hp. apply H4. rewrite H. set_solver.
  - apply stack_cons; [done|]. intros p ->. apply (ms_pending _ _ Hm). rewrite H. set_solver.
  - split; [|done]. destruct Hm as [H1 H2 H3 H4 H5 H6]. by split.
  - done.
  - eapply collect_sound; [done | done | | done]. by eapply marks_done.
  - intros x Hx p ->. eapply collect_marked; [done | | by eapply Hl]. apply H, reach_root. by left.
Qed.

(** C13. Over the life of an arena, through allocations, loads and stores of fields, pins,
    handles, finalizers and collections, no name dangles: every handle (of any kind but
    dependent ones, which no step reads), every pinned, queued or pending object, every
    cross-arena root, every entry of the object table and every reference a thread holds
    is null or refers to an object that exists, and no object refers to a freed one. *)
Theorem handles_never_dangle a : rtc arena_step new_arena a ->
  manager_sound (heap_objects a) (manager a) /\ closed_heap (heap_objects a) /\
  (forall p, Some p ∈ stack a -> is_Some (heap_objects a !! p)).
Proof.
  intros H. assert (Hi : arena_inv a).
  { revert H. apply (invariant_rtc arena_step arena_inv); [intros; by eapply arena_step_sound|].
    split; [split; [split|]|]; cbn; try (by intros ? ?%elem_of_nil); try (by intros ? ? ?%elem_of_nil); try done. }
  destruct Hi as [[Hm Hc] Hl]. split; [done|]. split; [done|]. intros p Hp. by apply (Hl _ Hp).
Qed.
End life.

(** ** Long lists *)

(** The objects [xs] are the nodes of a list: each has the next one, or null, as its first
    reference, and any others. *)
Fixpoint linked (hs : objects) (xs : list Z) : Prop :=
  match xs with
  | [] => True
  | x :: xs => (exists o rest, hs !! x = Some o /\ well_sized o = true /\ references o = head xs :: rest) /\ linked hs xs
  end.

Lemma resurrect_list hs xs v x : linked hs (x :: xs) -> NoDup (x :: xs) -> (forall y, y ∈ v -> y ∉ x :: xs) ->
  forall levels, (levels <= S (length xs))%nat -> resurrect hs levels v (Some x) = Panic.
Proof.
  revert x v. induction xs as [|y xs IH]; intros x v [(o & rest & Ho & Hw & Hrefs) Hl] Hnd Hv [|levels] Hn; try done; cbn [resurrect];
    (rewrite decide_False by (intros H%Hv; set_solver)); rewrite Ho; cbn [ok_or obind]; rewrite Hw, Hrefs; cbn [negb ofold head].
  - simpl in Hn. assert (levels = O) as -> by lia. done.
  - apply NoDup_cons in Hnd as [Hx Hnd]. rewrite IH; [done | done | done | | simpl in *; lia].
    intros z [->%elem_of_singleton|Hz%Hv]%elem_of_union; [done | set_solver].
Qed.

(** C38. A dead object with a finalizer that heads a linked list of more than 1001 nodes, the
    next node being the first reference of each, panics the host during the collection
    when it is the only object whose finalizer is due: although nothing in the heap is
    wrong, wherever the nodes are, whatever else they refer to, and whether or not the
    rest of the list is alive. *)
Theorem long_list_panics hs marked hm x xs :
  linked hs (x :: xs) -> NoDup (x :: xs) -> (1001 < length (x :: xs))%nat -> queue_live hs (finalization_queue hm) ->
  filter (is_due hs marked) (finalization_queue hm) = [Some x] -> finalize_check hs marked hm = Panic.
Proof.
  intros [(o & rest & Ho & Hw & Hrefs) Hl] Hnd Hn Hlive Hd. unfold finalize_check. set (queue := finalization_queue hm) in *.
  destruct (scan_queue_spec hs marked (length queue) 0 queue [] eq_refl Hlive) as (q' & tf & -> & _ & Ht). cbn [obind].
  rewrite drop_0, app_nil_l, Hd in Ht. apply Permutation_singleton_r in Ht as ->. cbn [ofold]. unfold finalize_one at 1. cbn [expect obind].
  rewrite decide_False by set_solver. rewrite Ho. cbn [ok_or obind]. rewrite Hrefs. destruct xs as [|y xs]; [simpl in Hn; lia|]. cbn [head ofold].
  apply NoDup_cons in Hnd as [Hx Hnd]. rewrite (resurrect_list hs xs); [done | done | done | | simpl in Hn; lia].
  intros z [->%elem_of_singleton|?]%elem_of_union; [done | set_solver].
Qed.

(** ** Instances *)

Definition plain_object (refs : list (option Z)) (finalizer : bool) : heap_object :=
  {| kind := KObj; references := refs; has_finalizer := finalizer; finalizer_suppressed := false; object_size := 64; well_sized := true |}.

(** A dead object with a finalizer at 10, which refers to 20; a live one at 30. *)
Definition demo_heap : objects := {[ 10 := plain_object [Some 20] true; 20 := plain_object [None] false; 30 := plain_object [] true ]}.
Definition demo_manager : HeapManager :=
  {| finalization_queue := [Some 10; Some 30]; pending_finalization := []; pinned_objects := [];
     gchandles := [Some (Some 10, Weak); Some (Some 20, WeakTrackResurrection); Some (Some 30, Weak)];
     dependent_handles := []; cross_arena_roots := ∅; object_registry := new_registry |}.

Lemma finalize_check_exact_witness : exists hm' res,
  finalize_check demo_heap {[ 30 ]} demo_manager = Val (hm', res) /\ finalization_queue hm' ≡ₚ [Some 30] /\ 10 ∈ res /\
  gchandles hm' = [Some (None, Weak); Some (Some 20, WeakTrackResurrection); Some (Some 30, Weak)].
Proof.
  destruct (finalize_check_exact demo_heap {[ 30 ]} demo_manager {[ 10; 20 ]}) as (hm' & res & E & Hq & _ & Hr & Hh).
  - intros x Hx. repeat (apply elem_of_cons in Hx as [-> |Hx]; [eexists _, _; split; reflexivity|]). by apply elem_of_nil in Hx.
  - split.
    + intros x Hx. apply elem_of_union in Hx as [->%elem_of_singleton| ->%elem_of_singleton]; eexists; split; reflexivity.
    + intros x o y Hx Ho Hy. apply elem_of_union in Hx as [->%elem_of_singleton| ->%elem_of_singleton]; vm_compute in Ho; injection Ho as <-;
        apply list_elem_of_singleton in Hy; [injection Hy as ->; set_solver | done].
  - vm_compute. lia.
  - intros p Hp Hd. apply elem_of_cons in Hp as [[= ->]|Hp]; [set_solver|]. apply list_elem_of_singleton in Hp as [= ->]. exfalso.
    unfold is_due in Hd. change (demo_heap !! 30) with (Some (plain_object [] true)) in Hd. destruct Hd as [_ Hd]. set_solver.
  - exists hm', res. split; [exact E|]. split; [exact Hq|]. split; [apply Hr, reach_root; apply (bool_decide_eq_true_1 _); vm_compute; reflexivity|].
    assert (H20 : 20 ∈ res).
    { apply Hr. apply (reach_step _ _ 10 (plain_object [Some 20] true)); [apply reach_root; apply (bool_decide_eq_true_1 _); vm_compute; reflexivity | reflexivity | by left]. }
    rewrite Hh. cbn [fmap list_fmap demo_manager gchandles cleared]. rewrite (decide_True (P := 20 ∈ _)) by set_solver. reflexivity.
Defined.

(** An object with a finalizer is created, gets a weak handle, and dies. *)
Definition one_object : objects := {[ 10 := plain_object [] true ]}.
Definition life_end : HeapManager :=
  match (let* hm := register_new_object first_free one_object (Some 10) new_manager in
         let* (_, hm) := gchandle_alloc (Some 10) 0 hm in collect one_object ∅ hm) with
  | Val (_, hm) => hm
  | _ => new_manager
  end.

Definition arena_end : arena := {| heap_objects := one_object; manager := life_end; stack := [] |}.

Lemma handles_never_dangle_witness :
  rtc (arena_step first_free) new_arena arena_end /\
  gchandles life_end = [Some (None, Weak)] /\ pending_finalization life_end = [Some 10] /\ manager_sound one_object life_end.
Proof.
  assert (H : rtc (arena_step first_free) new_arena arena_end).
  { eapply rtc_l; [eapply (s_new _ ∅ new_manager [] 10 (plain_object [] true)); [reflexivity | by intros ? ?%elem_of_nil | reflexivity]|].
    eapply rtc_l; [eapply (s_alloc _ _ _ _ (Some 10) 0); [right; by left | reflexivity]|].
    eapply rtc_l; [eapply (s_drop _ _ _ _ []); by intros ? ?%elem_of_nil|].
    apply rtc_once. eapply (s_collect _ _ _ _ ∅); [|reflexivity]. intros p. split; [by intros ?%elem_of_empty|].
    intros Hr. induction Hr as [x [Hx|Hx]|x o y _ IH _ _]; [by apply elem_of_nil in Hx | by apply elem_of_nil in Hx | by apply elem_of_empty in IH]. }
  split; [exact H|]. split; [reflexivity|]. split; [reflexivity|]. exact (proj1 (handles_never_dangle first_free _ H)).
Defined.

(** A dependent handle from 10, which is alive, to 20. *)
Definition two_objects : objects := {[ 10 := plain_object [] false; 20 := plain_object [] false ]}.
Definition dependent_demo : HeapManager := (dependent_alloc (Some 10) (Some 20) new_manager).2.
Definition dependent_end : objects * HeapManager :=
  match collect two_objects {[ 10 ]} dependent_demo with Val x => x | _ => (∅, new_manager) end.

Lemma dependent_handle_dangles_witness :
  dependent_get 1 dependent_end.2 = Val (Some 20) /\ dependent_end.1 !! 10 = Some (plain_object [] false) /\ dependent_end.1 !! 20 = None.
Proof.
  assert (Hreach : forall (R : Z -> Prop) p, (forall x, R x -> x = 10) -> reach two_objects R p -> p = 10).
  { intros R p HR. induction 1 as [x Hx|x o y _ -> Ho Hy]; [auto|]. vm_compute in Ho. injection Ho as <-. by apply elem_of_nil in Hy. }
  assert (Hkept : forall x, kept_alive two_objects {[ 10 ]} [Some 10] dependent_demo x -> x = 10).
  { intros x [Hx|[(t & Hx & _)|[Hx|[Hx|[Hx|Hx]]]]];
      [by apply list_elem_of_singleton in Hx as [= ->] | by apply elem_of_nil in Hx | by apply elem_of_nil in Hx | by apply elem_of_empty in Hx
      | by apply elem_of_nil in Hx | by apply elem_of_nil in Hx]. }
  destruct (dependent_handle_dangles two_objects {[ 10 ]} [Some 10] dependent_demo dependent_end.1 dependent_end.2 0 (Some 10) 20) as (H1 & H2 & H3).
  - intros p. split.
    + intros ->%elem_of_singleton. apply reach_root. left. by left.
    + intros ->%Hreach; [set_solver|]. intros x [[= ->]%list_elem_of_singleton|Hx]; [done | by apply elem_of_nil in Hx].
  - reflexivity.
  - vm_compute. discriminate.
  - intros H%Hreach; [done | exact Hkept].
  - by intros x ?%elem_of_nil.
  - reflexivity.
  - split; [exact H1|]. split; [|exact H2]. apply (H3 10); [reflexivity | reflexivity|]. apply reach_root. left. by left.
Defined.

(** A list of [n] nodes from the address [a] on. *)
Fixpoint nodes (n : nat) (a : Z) : list Z := match n with O => [] | S n => a :: nodes n (a + 64) end.

Fixpoint list_heap (xs : list Z) : objects :=
  match xs with [] => ∅ | x :: xs => <[x := plain_object [head xs] true]> (list_heap xs) end.

Lemma nodes_above n a x : x ∈ nodes n a -> a <= x.
Proof. revert a. induction n as [|n IH]; intros a; cbn [nodes]; [by intros ?%elem_of_nil|]. intros [-> |H%IH]%elem_of_cons; lia. Qed.

Lemma nodes_nodup n a : NoDup (nodes n a).
Proof. revert a. induction n as [|n IH]; intros a; [constructor|]. constructor; [|apply IH]. intros H%nodes_above. lia. Qed.

Lemma nodes_length n a : length (nodes n a) = n.
Proof. revert a. induction n as [|n IH]; intros a; [done|]. cbn. by rewrite IH. Qed.

Lemma linked_insert hs xs x o : x ∉ xs -> linked hs xs -> linked (<[x := o]> hs) xs.
Proof.
  induction xs as [|y xs IH]; intros Hx; [done|]. intros [(o' & rest & Ho & Hrest) Hl]. split; [|apply IH; [set_solver | done]].
  exists o', rest. rewrite lookup_insert_ne by set_solver. done.
Qed.

Lemma list_heap_linked xs : NoDup xs -> linked (list_heap xs) xs.
Proof.
  induction 1 as [|x xs Hx Hnd IH]; [done|]. cbn [list_heap linked]. split; [|by apply linked_insert].
  eexists _, []. rewrite lookup_insert_eq. done.
Qed.

Lemma list_heap_head n a : list_heap (nodes (S (S n)) a) !! a = Some (plain_object [Some (a + 64)] true).
Proof. apply lookup_insert_eq. Qed.

Lemma head_due n a :
  queue_live (list_heap (nodes (S (S n)) a)) [Some a] /\ filter (is_due (list_heap (nodes (S (S n)) a)) ∅) [Some a] = [Some a].
Proof.
  pose proof (list_heap_head n a) as Hh. split; [intros y ->%list_elem_of_singleton; by eexists _, _|].
  rewrite filter_cons_True, filter_nil; [done|]. unfold is_due. rewrite Hh. split; [done | set_solver].
Qed.

Lemma long_list_panics_witness : finalize_check (list_heap (nodes (S 1001) 64)) ∅ (set_queue new_manager [Some 64]) = Panic.
Proof.
  destruct (head_due 1000 64) as [Hlive Hdue].
  apply (long_list_panics (list_heap (nodes (S 1001) 64)) ∅ (set_queue new_manager [Some 64]) 64 (nodes 1001 (64 + 64))).
  - exact (list_heap_linked _ (nodes_nodup (S 1001) 64)).
  - exact (nodes_nodup (S 1001) 64).
  - cbn [length]. rewrite nodes_length. lia.
  - exact Hlive.
  - exact Hdue.
Defined.
